(* ===== verification/_CoqProject ===== *)
-Q . S2P
Prelude.v
Types.v
LayoutTypes.v
InternPool.v
Layout.v
AirPattern.v
Air.v
Usefulness.v
Infer.v
Unify.v
Scope.v
ParamArena.v
DropNames.v
Cfg.v
CfgBuild.v
CfgTheory.v
CfgMono.v
CfgSample.v
CfgLower.v
CfgWf.v
CfgTerm.v
CfgRun.v
CfgMatch.v
CfgDispatch.v
CfgDrop.v
CfgExamples.v
DropGlue.v
DropGlueThm.v
DropGlueSpec.v
Rir.v
RirCodec.v
RirStore.v
RirMerge.v
RirMergeThm.v
RirRelocate.v
RirMergeSpec.v
RirMergeTotal.v
RirMergeExamples.v
Positions.v
Moves.v
SemaState.v
Sema.v
SemaExec.v
SemaMoves.v
SemaSpec.v
Specialize.v
SpecializeThm.v
SpecializeNames.v
SpecializeSpec.v
Literals.v
Ast.v
Remap.v
RemapThm.v
CacheStore.v
CacheStoreThm.v
ParseCache.v
ParseCacheThm.v
Intrinsics.v
AstGen.v
AstGenWf.v
AstGenThm.v
TypeSyntax.v
Modules.v
TypeSyntaxThm.v
Fmt.v
FmtEmit.v
FmtWeave.v
FmtScan.v
FmtThm.v
Lexer.v
FmtLex.v
Signature.v
SignatureThm.v
Generate.v
GenerateThm.v
InferBody.v
