(* ===== verification/Prelude.v ===== *)
(** * A verification of the semantic core of the Gruel compiler

    Gruel is a compiler written in Rust. Source text goes through a lexer and a parser
    to an AST, [gruel-rir] turns the AST into an untyped instruction list (RIR),
    [gruel-air] infers types and analyses it into a typed one (AIR), [gruel-cfg] lowers
    that to a control-flow graph and [gruel-codegen-llvm] to machine code. This library
    models the syntax tree ([crates/gruel-parser/src/ast.rs]) and the cache of parsed files
    ([crates/gruel-cache], [gruel-compiler/src/parse_cache.rs]), all of [crates/gruel-rir/src]
    but its printer (generation from the tree, the store and the merging of files), the
    parts of [crates/gruel-air/src] on which the meaning of a program depends (how types
    are encoded and shared, how values are laid out, how types are inferred, how matches
    are checked, how moves are tracked, how generic functions are instantiated and how the
    analysed program is stored), all of [crates/gruel-cfg/src] but its textual dump, the
    synthesis of drop functions in [crates/gruel-compiler], and source positions
    ([crates/gruel-util/src/span.rs], [crates/gruel-lsp/src/position.rs]).

    ** The parts and their files

    - [Prelude]: panics and fuel as the [outcome] monad, machine integers, loops, and the
      automation the other files use ([simplify_done], the [outcome] hints).
    - [Types] ([types.rs]): a [Type] is a 32-bit word, a tag in the low byte and a pool
      index above it; [kind] decodes it, [new_struct] and the others encode it. Struct
      and enum definitions, numeric classes and literal ranges.
    - [LayoutTypes] (the data of [layout.rs]) and [InternPool] ([intern_pool.rs]): the
      table of composite types with one deduplication map per type former, its readers,
      its snapshots, and the locking protocol as a step relation over threads.
    - [Layout] (the functions of [layout.rs]): size, alignment, niches and discriminant
      strategy of a type, computed recursively over the pool and memoised in it. The
      recursion is written once over a monad, and run with the cache ([layout_of]) and
      without it ([layout_spec]).
    - [AirPattern] and [Air] ([inst.rs]): patterns and their encoding to words, the
      instruction store with its payload words, places and side tables.
    - [Usefulness] ([sema/usefulness.rs]): exhaustiveness and reachability of match arms,
      specified by values, typing and matching defined here independently.
    - [Infer] ([inference/types.rs], [inference/constraint.rs]) and [Unify]
      ([inference/unify.rs]): type variables, the substitution with path compression,
      unification, and solving of constraint lists with error recovery.
    - [Generate] ([inference/generate.rs], the type constructors of [gruel-builtins]): the walk
      over the RIR of a body that types its expressions and emits constraints, one definition
      per kind of instruction. [GenerateThm]: a program logic for its runs ([safe]) and the
      rule of every definition. [InferBody] ([run_type_inference] of [sema/analysis.rs],
      [sema/typeck.rs]): generation, solution, defaults and the types of a body.
    - [Scope] ([scope.rs]): the scope stack of a function body.
    - [ParamArena] ([param_arena.rs]): parameter lists of all signatures in one arena.
    - [DropNames] ([gruel-cfg/src/drop_names.rs]): which types need a destructor call, and
      the symbol of the drop function.
    - [Cfg] ([gruel-cfg/src/inst.rs]): the control-flow graph, a store of blocks, values
      and side vectors, and its predecessor lists.
    - [CfgBuild] ([gruel-cfg/src/build.rs]): the builder, a state of nine fields threaded
      through one definition per arm of [lower_inst]: operands and places, short-circuit
      operators, branches, loops, matches, scopes and the drops they entail.
    - [CfgTheory], [CfgMono], [CfgLower], [CfgWf]: the graph invariant, a small program
      logic ([keeps]) for the builder, and its proof for every arm. [CfgTerm]: fuel.
    - [CfgRun], [CfgMatch], [CfgDispatch]: an execution of the instructions that dispatch
      a match, and what the emitted tests and switches do. [CfgDrop]: the code a return
      puts before its terminator.
    - [CfgSample], [CfgExamples]: graphs computed from small programs, the golden graphs of
      the language's own test suite among them.

    - [DropGlue] ([gruel-compiler/src/drop_glue.rs]): the drop functions of structs, enums and
      arrays, synthesized as AIR. [DropGlueThm]: a run of such a function, as the sequence
      of its calls and drops; [DropGlueSpec]: its theorems.
    - [Ast] ([gruel-parser/src/ast.rs]): the syntax tree, over a type of symbols. [Remap]
      ([gruel-cache/src/remap.rs], [wire.rs]): renumbering the symbols of a tree, and the
      snapshot of an interner that goes into the cache; [RemapThm]: renumbering composes and
      can be undone. [CacheStore] ([store.rs], [fingerprint.rs]): the cache directory over a file
      system whose operations can fail; [CacheStoreThm]: it implements a map that may forget.
      [ParseCache] ([gruel-compiler/src/parse_cache.rs]): parsing through the cache, over an
      interface the store of [CacheStore] implements; [ParseCacheThm]: its theorems. [Signature]
      ([signature.rs], [fingerprint.rs]): what of a file is hashed into its fingerprint;
      [SignatureThm]: the bytes determine the interface of the file and depend on nothing else.
    - [Intrinsics] ([gruel-intrinsics/src/lib.rs]): the table of intrinsics and of the pointer
      and slice methods that stand for them.
    - [AstGen] ([gruel-rir/src/astgen.rs]): generation of RIR, one definition per item,
      expression, statement and pattern. [AstGenWf]: runs of a generator and rules to follow
      one; [AstGenThm]: the rules applied to every generator, and to a file.
    - [TypeSyntax] (the readers of type syntax of [gruel-air/src/types.rs]): the analysis gets a
      compound type as the symbol of a text and takes the text apart. [TypeSyntaxThm]: what
      [AstGen] writes, they read.
    - [Modules] ([sema/module_path.rs], [visibility.rs], [file_paths.rs]): which loaded file an
      import names and which files see a private item; an import is resolved to a loaded file,
      the exact file wins in any order of the paths, and a private item is seen exactly by the
      files of its directory, the directory's facade and the prelude.
    - [Fmt] ([gruel-fmt/src/trivia.rs], [printer.rs]): the formatter's scan for comments and its
      printer; [FmtEmit] ([emit.rs]): one definition per emit function, over the tree of [Ast].
      [FmtWeave]: what a run of the printer keeps; [FmtScan]: the scan finds the comments;
      [FmtThm]: every emitter, the file, and that formatting returns and keeps the comments.
    - [Lexer] ([gruel-lexer/src/logos_lexer.rs]): the callbacks that read string and char literals
      and doc comments; [FmtLex]: they read back what the formatter writes.
    - [Rir] ([gruel-rir/src/inst.rs]): the untyped program, instructions and a vector of
      payload words, with the encoders and readers of each kind of payload. [RirCodec],
      [RirStore]: that readers invert encoders, and that payloads are read back.
    - [RirMerge] ([Rir::merge]): the files of a program made into one. [RirMergeThm],
      [RirRelocate]: the effect of renumbering on the words, one payload and then one file;
      [RirMergeSpec], [RirMergeTotal]: what a merge promises, and when it returns;
      [RirMergeExamples]: concrete merges, with what they lose.
    - [Positions]: spans, byte offsets as lines and columns, by scanning and with the
      precomputed [LineIndex]; and the language server's [LineMap] between byte offsets and
      editor positions, in UTF-8 or UTF-16 units.
    - [Moves] and [SemaState] ([sema/context.rs], [sema/typeck.rs]): the move state of a
      variable, the context of a function under analysis, the type queries, and the monad of
      the handlers. [Sema] ([sema/analyze_ops.rs], [sema/analysis.rs]): one definition per
      handler of [analyze_inst] for literals, operators, references, slices, blocks,
      branches, loops, jumps, variables and assignments, and a whole function body; the other
      instruction kinds are a parameter. [SemaExec]: the paths through the AIR of a body, and
      the variables moved along them; [SemaMoves], [SemaSpec]: the move check against them.
    - [Specialize] ([specialize.rs], and the literal pools of [sema/analysis.rs]): the rounds
      that collect generic calls, name and synthesise the instances and rewrite the calls.
      [SpecializeThm], [SpecializeSpec]: what a run leaves; [SpecializeNames]: the symbols of
      instances; [Literals]: the pools.

    [Layout], [Usefulness] and [CfgBuild] read definitions from the pool of [InternPool];
    [Air] stores the arms [AirPattern] encodes, [Usefulness] analyses the same patterns and
    [CfgBuild] lowers them; [Unify] works on the types of [Types] through [Infer], on the constraints [Generate]
    emits for the instructions of [Rir] with the scopes of [Scope];
    [ParamArena] takes its parameter modes from RIR. [ParseCache] hands [AstGen] its trees;
    [AstGen] fills the store of [Rir], one file each, and [RirMerge] joins the files. [Sema] reads [Rir], emits [Air] and asks
    [InternPool]; its scopes are [Scope]'s and its moves [Moves]'. [Specialize] rewrites the
    functions [CfgBuild] lowers next, which refuses generic calls. The string interner's keys ([Spur], of
    a third-party crate) are a type parameter; [AirPattern] asks of it, through the classes
    [SpurKey] and [SpurLaws], the two conversions the code uses and their round trip.

    ** What the theorems show

    - Types: decoding inverts encoding; numeric predicates and literal checks are exact;
      a discriminant type holds every variant index.
    - Pool: interning is canonical, in sequence and under every interleaving of threads;
      each operation implements an abstract interning table and keeps the invariant;
      snapshots rebuild exactly the pool; arrays are read back.
    - Layout: [layout_of] agrees with the recursion without a cache and terminates on well
      founded types; layouts are well formed; no valid value holds a niche, so niche
      encodings are unambiguous.
    - Patterns and AIR: encodings round trip, and what was stored is read back after any
      later operations; decoding terminates on every input.
    - Matches: no witness means every value is matched and a witness means some value is
      not; reachability is right arm by arm; the analysis terminates without a panic.
    - Inference: path compression is invisible, unification and solving terminate, keep
      the substitution acyclic, and report or establish every equality. The inference of a
      body, from its instructions to its types, ends on every file whose instructions refer
      backwards (those [AstGen] makes do: [generated_bottom_up]); it reports an error of one of
      its constraints or gives every recorded expression the type the solution determines.
    - Scopes and arenas: they implement lexical scoping and a list of signatures.
    - Graphs: whatever the AIR, a graph the builder returns is well formed (operands,
      targets and payload ranges exist, every value is defined once, predecessors are the
      inverse of the edges); lowering an expression touches only its own blocks; with the
      AIR's operands before their users, fuel linear in its length is enough.
    - Dispatch: if the exhaustiveness check finds no witness, the code of a match takes
      every value of the scrutinee's type to the first arm that matches it.
    - Drops: a type needs a drop exactly if it owns something with a destructor; a return
      drops what is live, in reverse order of declaration, and nothing else. A drop function
      calls the destructor and drops exactly the owning parts, of an enum those of the variant
      held; every symbol a drop calls is synthesized.
    - RIR: whatever the payload, its start and count read the stored items back after any
      later operations; a merge keeps every instruction with its operands and payloads moved
      by the instructions before, it returns on closed files that fit 32 bits, and panics
      on the kinds of match arm it does not know.
    - Generation: in the file made of any syntax tree, instructions refer backwards only, also
      through their payloads, payloads read back as stored and share no words, and recorded
      functions are closed. The text generation gives a type without anonymous parts is read
      back, level by level, as that type. The table of intrinsics is consistent.
    - Cache: the store implements a map that may lose entries, whichever operations fail;
      parsing through it gives the files and symbols of parsing without it, as long as keys
      tell files apart; trees from the cache read, symbol by symbol, as the parsed ones. Two
      files hash the same bytes exactly if they have the same interface.
    - Positions: the line index agrees with scanning the text; editor positions and byte
      offsets round trip on character boundaries, and any position is clamped into its line.
    - Moves: the move states implement sets of moved paths, with union at joins. A function
      body the analysis accepts never reads a variable after it was moved, on any path, when
      it has no loops, no shadowing and no assignment in a second operand of [&&] or [||];
      each of these restrictions is needed. The minimum literal of a type is folded exactly.
    - Specialization: a run that succeeds leaves no generic call, one body per instance, and
      changes nothing else; it stops when the instances are finite; symbols of instances can
      be read back; merged literals keep their contents.

    Some theorems record where the code departs from what its documentation says:
    struct patterns out of declaration order, literal types and variable aliases,
    names bound twice in one scope, arrays of [char], C-layout enums over a niche,
    niche offsets beyond 4 GiB, and the incomplete check of type encodings; [CfgExamples]
    has those of the graph builder (a statement, operand, initialiser or condition that
    diverges, patterns without fields, wildcard matches on structs) and [RirMergeExamples] those
    of merging (struct-variant literals, methods of enums, modules of patterns); drop functions of
    arrays leak elements that are enums or vectors; [SemaSpec] has the programs whose moves
    escape the check, and the panic on minimum literals of [isize]; [SpecializeNames] the
    symbols that collide; [ParseCacheThm] the copied file whose positions point into the
    original; [AstGenThm] the module prefix of a call that is dropped, and the interfaces that
    share a symbol; [TypeSyntaxThm] the anonymous struct that is read as two
    arguments; [SignatureThm] the changes of posture and of external declarations a fingerprint
    does not see; [Modules] the built-in items one visibility check hides and its copy shows, and
    the imports that depend on the order of a hash map; [InferBody] the returned arrays that are
    refused and the pointer calls without a type; [FmtThm] the blank lines the formatter
    adds, the references it joins and the comments it moves or drops.

    ** Conventions and bounds

    A Rust panic (also [debug_assert!] and the overflow checks of a debug build) is
    [Panic]. Recursion that is not structural takes fuel and answers [NoFuel] when the
    fuel is used up; each such function has a theorem that some fuel is enough
    ([layout_of_computes_spec]: above the rank of the type; [decode_terminates]: one more
    than the number of words; [thread_safety_query_terminates]: one more than the number
    of entries; [build_terminates]: the number of AIR instructions, and a type fuel above the
    rank of every type; [specialization_terminates]: one more than the number of instances;
    [usefulness_terminates], [unify_sound], [solve_constraints_terminates],
    [inference_types_body]: some fuel; [generate] runs on one more than the index of the body,
    reading type texts on one more than their length). The
    analysis of a body ([analyze_inst]) has no such theorem yet: its statements hold for every
    fuel, of the runs that accept; the type queries in it take two more than the number of
    pool entries, and the walks to the root of a place one more than the number of
    instructions. Theorems on graphs ask that the indices of
    the final graph fit in 32 bits ([small]); beyond that the casts wrap. Integers are [Z]
    with their width written out; lengths cast with [as u32] wrap.

    ** Parameters

    For inference the interner is two functions, from names to texts and back, and the order in
    which a hash map is read is a function with the entries of the map. Elsewhere it is the class [Interner] with [InternerLaws] (dense keys, texts kept), the
    lexer and parser functions of [ParseCache], with the byte format of an entry and the hash
    that makes its key, are arguments with their laws as hypotheses; so are the file
    system of [CacheStore] at the level of its calls, the lookups of intrinsics and the derived
    text of an expression in [AstGen], the decimal form of a float in [FmtEmit], and the handlers
    [Sema] does not model. Each theorem
    over a parameter has a witness with a concrete one.

    ** What is not modelled

    The token rules and the parser rest on macros and combinators of third-party crates, and code
    generation on LLVM; they stay outside, as do diagnostics text, the rest of the language
    server and the drivers. Of the semantic analysis, the handlers of structs, arrays, enums,
    matches and calls, compile-time evaluation ([sema/comptime.rs]) and declarations (which
    build the tables of signatures inference reads) are not modelled, and the termination of [analyze_inst] is not
    proved: these are thousands of lines of queries over one large mutable state, and the
    core they are built on (types, layouts, inference, moves, matches) is what is modelled. The
    other built-in types, the runtime and the documentation generator are outside. *)

From stdpp Require Export base tactics list gmap strings numbers.
From Stdlib Require Export ZArith Lia.

Open Scope Z_scope.

(** ** Outcomes of a computation

    Rust code that can panic (an index out of range, [expect], [panic!], or
    an overflow of the plain arithmetic operators) returns [Panic]; recursion
    that is not structural runs on fuel and returns [NoFuel] when the fuel is
    exhausted. *)
Inductive outcome (A : Type) : Type :=
  | Done (a : A)
  | Panic
  | NoFuel.
Arguments Done {A} a.
Arguments Panic {A}.
Arguments NoFuel {A}.

#[export] Instance outcome_ret : MRet outcome := λ A a, Done a.
#[export] Instance outcome_bind : MBind outcome := λ A B f m,
  match m with Done a => f a | Panic => Panic | NoFuel => NoFuel end.
#[export] Instance outcome_throw : MThrow () outcome := λ A _, Panic.

(** [o.expect(..)] and indexing: absence is a panic. *)
Definition expect {A} (o : option A) : outcome A :=
  match o with Some a => Done a | None => Panic end.

(** Sequencing a list of effectful steps, left to right, with an accumulator:
    the shape of a Rust [for] loop that mutates locals. *)
Fixpoint foldM {M : Type → Type} `{!MRet M, !MBind M} {A B : Type}
    (f : B → A → M B) (b : B) (l : list A) : M B :=
  match l with
  | [] => mret b
  | a :: l => b' ← f b a; foldM f b' l
  end.

(** ** State passing

    Code that mutates a structure through [&mut self] and can panic. *)
Definition ST (S A : Type) : Type := S → outcome (A * S).
#[export] Instance ST_ret {S} : MRet (ST S) := λ A a s, Done (a, s).
#[export] Instance ST_bind {S} : MBind (ST S) := λ A B f m s, '(a, s') ← m s; f a s'.
Definition gets {S A} (f : S → A) : ST S A := λ s, Done (f s, s).
Definition modify {S} (f : S → S) : ST S () := λ s, Done ((), f s).
Definition lift_st {S A} (m : outcome A) : ST S A := λ s, a ← m; Done (a, s).

Lemma bind_Done {A B} (m : outcome A) (f : A → outcome B) b :
  m ≫= f = Done b ↔ ∃ a, m = Done a ∧ f a = Done b.
Proof.
  destruct m as [a| |]; simpl; (split; [intros H|intros (a' & H1 & H2)]);
    try discriminate.
  - by exists a.
  - by injection H1 as ->.
Qed.

Lemma bind_ret {A B} (a : A) (f : A → outcome B) : Done a ≫= f = f a.
Proof. done. Qed.

Lemma expect_Done {A} (o : option A) a : expect o = Done a ↔ o = Some a.
Proof. destruct o; simpl; naive_solver. Qed.

Lemma expect_total {A} (o : option A) : expect o ≠ NoFuel.
Proof. by destruct o. Qed.

Lemma bind_total {A B} (m : outcome A) (f : A → outcome B) :
  m ≠ NoFuel → (∀ a, m = Done a → f a ≠ NoFuel) → m ≫= f ≠ NoFuel.
Proof. destruct m; simpl; naive_solver. Qed.

Lemma mapM_Done {A B} (f : A → outcome B) l k :
  mapM f l = Done k ↔ Forall2 (λ x y, f x = Done y) l k.
Proof.
  revert k; induction l as [|x l IH]; intros k; simpl.
  - split; [intros [= <-]; constructor | by inversion 1].
  - rewrite bind_Done. split.
    + intros (y & Hy & (k' & Hk & [= <-])%bind_Done). constructor; [done|by apply IH].
    + inversion 1; subst. eexists; split; [done|].
      apply bind_Done. eexists; split; [by apply IH|done].
Qed.

Lemma mapM_total {A B} (f : A → outcome B) l :
  (∀ x, x ∈ l → f x ≠ NoFuel) → mapM f l ≠ NoFuel.
Proof.
  induction l as [|x l IH]; intros Hf; simpl; [done|].
  apply bind_total; [apply Hf; set_solver|]. intros y _.
  apply bind_total; [apply IH; set_solver|done].
Qed.

Lemma foldM_total {A B} (f : B → A → outcome B) b l :
  (∀ b x, x ∈ l → f b x ≠ NoFuel) → foldM f b l ≠ NoFuel.
Proof.
  revert b; induction l as [|x l IH]; intros b Hf; simpl; [done|].
  apply bind_total; [apply Hf; set_solver|]. intros. apply IH. set_solver.
Qed.

(** An invariant of the accumulator of a loop that ran to its end. *)
Lemma foldM_inv {A B} (P : B → Prop) (f : B → A → outcome B) b l b' :
  foldM f b l = Done b' → P b →
  (∀ b x b', x ∈ l → P b → f b x = Done b' → P b') → P b'.
Proof.
  revert b; induction l as [|x l IH]; intros b; simpl; [by intros [= ->]|].
  intros (b1 & Hb1 & Hf)%bind_Done HP Hstep.
  apply (IH b1 Hf).
  - eapply Hstep; [by left|done..].
  - intros b2 y b3 Hy. apply Hstep. by right.
Qed.

Lemma foldM_app {A B} (f : B → A → outcome B) b l1 l2 :
  foldM f b (l1 ++ l2) = b' ← foldM f b l1; foldM f b' l2.
Proof.
  revert b; induction l1 as [|x l1 IH]; intros b; simpl; [done|].
  destruct (f b x); simpl; [apply IH|done..].
Qed.

(** More fuel does not change an answer: stated once for the results of
    fuelled functions ([m ⊑ m']: [m'] is [m] unless [m] ran out of fuel). *)
Definition refines {A} (m m' : outcome A) : Prop := m = NoFuel ∨ m = m'.
Notation "m ⊑ₒ m'" := (refines m m') (at level 70) : stdpp_scope.

Lemma refines_refl {A} (m : outcome A) : m ⊑ₒ m.
Proof. by right. Qed.

Lemma refines_bind {A B} (m m' : outcome A) (f f' : A → outcome B) :
  m ⊑ₒ m' → (∀ a, f a ⊑ₒ f' a) → m ≫= f ⊑ₒ m' ≫= f'.
Proof.
  intros [->| ->] Hf; [by left|]. destruct m'; simpl; [apply Hf|by right..].
Qed.

Lemma refines_mapM {A B} (f f' : A → outcome B) l :
  (∀ a, f a ⊑ₒ f' a) → mapM f l ⊑ₒ mapM f' l.
Proof.
  intros Hf. induction l as [|x l IH]; simpl; [apply refines_refl|].
  apply refines_bind; [apply Hf|]. intros.
  apply refines_bind; [done|]. intros; apply refines_refl.
Qed.

Lemma refines_foldM {A B} (f f' : B → A → outcome B) b l :
  (∀ b a, f b a ⊑ₒ f' b a) → foldM f b l ⊑ₒ foldM f' b l.
Proof.
  intros Hf. revert b; induction l as [|x l IH]; intros b; simpl; [apply refines_refl|].
  apply refines_bind; auto.
Qed.

Lemma refines_Done {A} (m m' : outcome A) a : m ⊑ₒ m' → m = Done a → m' = Done a.
Proof. intros [->| ->]; congruence. Qed.

Lemma refines_total {A} (m m' : outcome A) : m ⊑ₒ m' → m ≠ NoFuel → m' = m.
Proof. intros [->| ->]; congruence. Qed.

(** ** Machine integers

    A [w]-bit unsigned integer is a [Z] in [0 .. 2^w - 1]. *)
Definition in_u (w x : Z) : Prop := 0 ≤ x < 2 ^ w.
Notation in_u32 := (in_u 32).
Notation in_u64 := (in_u 64).
#[export] Instance in_u_dec w x : Decision (in_u w x).
Proof. unfold in_u. apply _. Defined.

(** [x as uW]. *)
Definition wrap (w x : Z) : Z := x mod 2 ^ w.

(** [x << n] on a [w]-bit operand: bits shifted past the top are lost. *)
Definition shl (w x n : Z) : Z := wrap w (Z.shiftl x n).

(** [a + b], [a * b], [a - b] of width [w]: an overflow is a panic. *)
Definition checked_add (w a b : Z) : outcome Z :=
  if decide (in_u w (a + b)) then Done (a + b) else Panic.
Definition checked_mul (w a b : Z) : outcome Z :=
  if decide (in_u w (a * b)) then Done (a * b) else Panic.
Definition checked_sub (w a b : Z) : outcome Z :=
  if decide (in_u w (a - b)) then Done (a - b) else Panic.

Lemma checked_add_Done w a b c :
  checked_add w a b = Done c ↔ c = a + b ∧ in_u w (a + b).
Proof. unfold checked_add. case_decide; naive_solver. Qed.
Lemma checked_mul_Done w a b c :
  checked_mul w a b = Done c ↔ c = a * b ∧ in_u w (a * b).
Proof. unfold checked_mul. case_decide; naive_solver. Qed.
Lemma checked_sub_Done w a b c :
  checked_sub w a b = Done c ↔ c = a - b ∧ in_u w (a - b).
Proof. unfold checked_sub. case_decide; naive_solver. Qed.

Lemma wrap_small w x : in_u w x → wrap w x = x.
Proof. unfold wrap, in_u. intros. by apply Z.mod_small. Qed.

Lemma wrap_in_u w x : 0 ≤ w → in_u w (wrap w x).
Proof.
  unfold wrap, in_u. intros. apply Z.mod_pos_bound. by apply Z.pow_pos_nonneg.
Qed.

Lemma shl_small w x n : 0 ≤ n → in_u w (x * 2 ^ n) → shl w x n = x * 2 ^ n.
Proof. intros. unfold shl. rewrite Z.shiftl_mul_pow2 by done. by apply wrap_small. Qed.

(** ** Lists *)

(** [l.len() as u32]. *)
Definition len_u32 {A} (l : list A) : Z := wrap 32 (Z.of_nat (length l)).

Lemma len_u32_small {A} (l : list A) :
  Z.of_nat (length l) < 2 ^ 32 → len_u32 l = Z.of_nat (length l).
Proof. intros. unfold len_u32. apply wrap_small. unfold in_u; lia. Qed.

(** [&l[start..end]]. *)
Definition slice_range {A} (l : list A) (start en : Z) : outcome (list A) :=
  if decide (0 ≤ start ≤ en ∧ en ≤ Z.of_nat (length l))
  then mret (take (Z.to_nat (en - start)) (drop (Z.to_nat start) l)) else Panic.

Lemma slice_range_app {A} (pre l post : list A) :
  slice_range (pre ++ l ++ post) (Z.of_nat (length pre)) (Z.of_nat (length pre + length l)) = Done l.
Proof.
  unfold slice_range. rewrite decide_True by (rewrite !length_app; lia).
  replace (Z.to_nat (Z.of_nat (length pre + length l) - Z.of_nat (length pre)))
    with (length l) by lia.
  by rewrite Nat2Z.id, drop_app_length, take_app_length.
Qed.

(** [v.iter().max().unwrap_or(d)] on unsigned integers. *)
Definition max_or (d : Z) (l : list Z) : Z :=
  match l with [] => d | x :: l => foldl Z.max x l end.

Lemma foldl_max_ge x l : x ≤ foldl Z.max x l.
Proof.
  revert x; induction l as [|y l IH]; intros x; simpl; [lia|].
  specialize (IH (x `max` y)); lia.
Qed.

Lemma max_or_ge d l x : x ∈ l → x ≤ max_or d l.
Proof.
  unfold max_or; destruct l as [|y l]; [by intros ?%elem_of_nil|].
  revert y; induction l as [|z l IH]; intros y; simpl.
  - intros ->%list_elem_of_singleton. lia.
  - intros [->|[->|Hx]%elem_of_cons]%elem_of_cons.
    + pose proof (foldl_max_ge (y `max` z) l); lia.
    + pose proof (foldl_max_ge (y `max` z) l); lia.
    + apply IH. by right.
Qed.

Lemma foldl_max_elem x l : foldl Z.max x l ∈ x :: l.
Proof.
  revert x; induction l as [|y l IH]; intros x; simpl; [by left|].
  destruct (Z.max_spec x y) as [[_ ->]|[_ ->]]; specialize (IH x) as Hx; specialize (IH y) as Hy;
    set_solver.
Qed.

Lemma max_or_elem d l : max_or d l = d ∧ l = [] ∨ max_or d l ∈ l.
Proof. destruct l as [|x l]; [by left|right; apply foldl_max_elem]. Qed.

Lemma Forall2_elem_l {A B} (R : A → B → Prop) l k x :
  Forall2 R l k → x ∈ l → ∃ y, y ∈ k ∧ R x y.
Proof.
  induction 1 as [|a b l k Hab _ IH]; [by intros ?%elem_of_nil|].
  intros [->|Hx%IH]%elem_of_cons; [exists b; by split; [left|]|].
  destruct Hx as (y & ? & ?). exists y. by split; [right|].
Qed.
Lemma Forall2_elem_r {A B} (R : A → B → Prop) l k y :
  Forall2 R l k → y ∈ k → ∃ x, x ∈ l ∧ R x y.
Proof.
  induction 1 as [|a b l k Hab _ IH]; [by intros ?%elem_of_nil|].
  intros [->|Hx%IH]%elem_of_cons; [exists a; by split; [left|]|].
  destruct Hx as (x & ? & ?). exists x. by split; [right|].
Qed.
Lemma elem_of_list_concat {A} (x : A) (ls : list (list A)) :
  x ∈ concat ls ↔ ∃ l, x ∈ l ∧ l ∈ ls.
Proof.
  induction ls as [|k ls IH]; simpl; [set_solver|]. rewrite elem_of_app, IH. set_solver.
Qed.
Lemma concat_nil_elem {A} (yss : list (list A)) ys : concat yss = [] → ys ∈ yss → ys = [].
Proof.
  induction yss as [|[|y ys'] yss IH]; simpl; [by intros _ ?%elem_of_nil| |done].
  intros Hc [->|?]%elem_of_cons; auto.
Qed.
Lemma concat_cons_elem {A} (yss : list (list A)) x xs :
  concat yss = x :: xs → ∃ ys, ys ∈ yss ∧ ys ≠ [].
Proof.
  induction yss as [|[|y ys] yss IH]; simpl; [done|..].
  - intros Hc%IH. destruct Hc as (ys & ? & ?). exists ys. by split; [right|].
  - intros _. exists (y :: ys). by split; [left|].
Qed.

(** ** Automation *)

(** Opens monadic equations [... = Done _] in the context. *)
Ltac simplify_done := repeat
  match goal with
  | H : _ ≫= _ = Done _ |- _ => apply bind_Done in H as (? & ? & ?)
  | H : expect _ = Done _ |- _ => apply expect_Done in H
  | H : checked_add _ _ _ = Done _ |- _ => apply checked_add_Done in H as (? & ?)
  | H : checked_mul _ _ _ = Done _ |- _ => apply checked_mul_Done in H as (? & ?)
  | H : checked_sub _ _ _ = Done _ |- _ => apply checked_sub_Done in H as (? & ?)
  | H : mret _ = Done _ |- _ => injection H as H
  | H : Done _ = Done _ |- _ => injection H as H
  | H : mthrow _ = Done _ |- _ => discriminate H
  | H : Panic = Done _ |- _ => discriminate H
  | H : NoFuel = Done _ |- _ => discriminate H
  | _ => progress simplify_eq
  end.

Create HintDb outcome discriminated.
#[export] Hint Resolve refines_refl refines_bind refines_mapM refines_foldM : outcome.
#[export] Hint Resolve expect_total bind_total mapM_total foldM_total : outcome.
