(* ===== verification/Types.v ===== *)
(** * Types: the 32-bit encoding of a Gruel type

    Models [crates/gruel-air/src/types.rs]: the newtype [Type(u32)] whose low
    byte is a tag and whose high 24 bits are a pool index, its decoding to
    [TypeKind], the tag-range predicates, the literal range checks and the
    struct/enum definitions the intern pool stores.  Rust's [Type] is [Ty]
    here, its associated constants live in the module [Ty]. *)

From S2P Require Import Prelude.
From stdpp Require Import pretty.

#[local] Open Scope Z_scope.

(** ** Identifiers

    [StructId], [EnumId], [ArrayTypeId], ... are newtypes over a [u32] pool
    index; the model writes the index itself. *)
Module TypeKind.

(** The decoded form of a type, one constructor per variant of the source. *)
Inductive TypeKind : Set :=
  | I8
  | I16
  | I32
  | I64
  | U8
  | U16
  | U32
  | U64
  | Isize
  | Usize
  | F16
  | F32
  | F64
  | Bool
  | Char
  | Unit
  | CSchar
  | CShort
  | CInt
  | CLong
  | CLonglong
  | CUchar
  | CUshort
  | CUint
  | CUlong
  | CUlonglong
  | CFloat
  | CDouble
  | CVoid
  | Struct (id : Z)
  | Enum (id : Z)
  | Interface (id : Z)
  | Array (id : Z)
  | PtrConst (id : Z)
  | PtrMut (id : Z)
  | Ref (id : Z)
  | MutRef (id : Z)
  | Slice (id : Z)
  | MutSlice (id : Z)
  | Vec (id : Z)
  | Module (id : Z)
  | Error
  | Never
  | ComptimeType
  | ComptimeStr
  | ComptimeInt.

#[export] Instance TypeKind_eq_dec : EqDecision TypeKind.
Proof. solve_decision. Defined.

End TypeKind.
Notation TypeKind := TypeKind.TypeKind.

(** [pub struct Type(u32)]. *)
Record Ty : Set := MkTy { ty_u32 : Z }.

#[export] Instance Ty_eq_dec : EqDecision Ty.
Proof. solve_decision. Defined.
#[export] Instance Ty_countable : Countable Ty.
Proof. refine (inj_countable' ty_u32 MkTy _). by intros []. Defined.

(** ** Composite tags *)
Definition TAG_STRUCT : Z := 100.
Definition TAG_ENUM : Z := 101.
Definition TAG_ARRAY : Z := 102.
Definition TAG_MODULE : Z := 103.
Definition TAG_PTR_CONST : Z := 104.
Definition TAG_PTR_MUT : Z := 105.
Definition TAG_INTERFACE : Z := 106.
Definition TAG_REF : Z := 107.
Definition TAG_MUT_REF : Z := 108.
Definition TAG_SLICE : Z := 109.
Definition TAG_MUT_SLICE : Z := 110.
Definition TAG_VEC : Z := 111.

(** ** Primitive constants *)
Module Ty.

Definition I8 : Ty := MkTy 0.
Definition I16 : Ty := MkTy 1.
Definition I32 : Ty := MkTy 2.
Definition I64 : Ty := MkTy 3.
Definition U8 : Ty := MkTy 4.
Definition U16 : Ty := MkTy 5.
Definition U32 : Ty := MkTy 6.
Definition U64 : Ty := MkTy 7.
Definition ISIZE : Ty := MkTy 8.
Definition USIZE : Ty := MkTy 9.
Definition F16 : Ty := MkTy 10.
Definition F32 : Ty := MkTy 11.
Definition F64 : Ty := MkTy 12.
Definition BOOL : Ty := MkTy 13.
Definition UNIT : Ty := MkTy 14.
Definition ERROR : Ty := MkTy 15.
Definition NEVER : Ty := MkTy 16.
Definition COMPTIME_TYPE : Ty := MkTy 17.
Definition COMPTIME_STR : Ty := MkTy 18.
Definition COMPTIME_INT : Ty := MkTy 19.
Definition CHAR : Ty := MkTy 20.
Definition C_SCHAR : Ty := MkTy 21.
Definition C_SHORT : Ty := MkTy 22.
Definition C_INT : Ty := MkTy 23.
Definition C_LONG : Ty := MkTy 24.
Definition C_LONGLONG : Ty := MkTy 25.
Definition C_UCHAR : Ty := MkTy 26.
Definition C_USHORT : Ty := MkTy 27.
Definition C_UINT : Ty := MkTy 28.
Definition C_ULONG : Ty := MkTy 29.
Definition C_ULONGLONG : Ty := MkTy 30.
Definition C_FLOAT : Ty := MkTy 31.
Definition C_DOUBLE : Ty := MkTy 32.
Definition C_VOID : Ty := MkTy 33.

End Ty.

(** ** Constructors of composite types: [Type(TAG | (id.0 << 8))] *)
Definition mk_composite (tag id : Z) : Ty := MkTy (Z.lor tag (shl 32 id 8)).

Definition new_struct (id : Z) : Ty := mk_composite TAG_STRUCT id.
Definition new_enum (id : Z) : Ty := mk_composite TAG_ENUM id.
Definition new_array (id : Z) : Ty := mk_composite TAG_ARRAY id.
Definition new_ptr_const (id : Z) : Ty := mk_composite TAG_PTR_CONST id.
Definition new_ptr_mut (id : Z) : Ty := mk_composite TAG_PTR_MUT id.
Definition new_ref (id : Z) : Ty := mk_composite TAG_REF id.
Definition new_mut_ref (id : Z) : Ty := mk_composite TAG_MUT_REF id.
Definition new_slice (id : Z) : Ty := mk_composite TAG_SLICE id.
Definition new_mut_slice (id : Z) : Ty := mk_composite TAG_MUT_SLICE id.
Definition new_vec (id : Z) : Ty := mk_composite TAG_VEC id.
Definition new_module (id : Z) : Ty := mk_composite TAG_MODULE id.
Definition new_interface (id : Z) : Ty := mk_composite TAG_INTERFACE id.

(** ** Decoding *)
Definition ty_tag (ty : Ty) : Z := Z.land (ty_u32 ty) 255.
Definition ty_id (ty : Ty) : Z := Z.shiftr (ty_u32 ty) 8.

(** [Type::try_kind]. *)
Definition try_kind (ty : Ty) : option TypeKind :=
  match ty_tag ty with
  | 0 => Some TypeKind.I8
  | 1 => Some TypeKind.I16
  | 2 => Some TypeKind.I32
  | 3 => Some TypeKind.I64
  | 4 => Some TypeKind.U8
  | 5 => Some TypeKind.U16
  | 6 => Some TypeKind.U32
  | 7 => Some TypeKind.U64
  | 8 => Some TypeKind.Isize
  | 9 => Some TypeKind.Usize
  | 10 => Some TypeKind.F16
  | 11 => Some TypeKind.F32
  | 12 => Some TypeKind.F64
  | 13 => Some TypeKind.Bool
  | 14 => Some TypeKind.Unit
  | 15 => Some TypeKind.Error
  | 16 => Some TypeKind.Never
  | 17 => Some TypeKind.ComptimeType
  | 18 => Some TypeKind.ComptimeStr
  | 19 => Some TypeKind.ComptimeInt
  | 20 => Some TypeKind.Char
  | 21 => Some TypeKind.CSchar
  | 22 => Some TypeKind.CShort
  | 23 => Some TypeKind.CInt
  | 24 => Some TypeKind.CLong
  | 25 => Some TypeKind.CLonglong
  | 26 => Some TypeKind.CUchar
  | 27 => Some TypeKind.CUshort
  | 28 => Some TypeKind.CUint
  | 29 => Some TypeKind.CUlong
  | 30 => Some TypeKind.CUlonglong
  | 31 => Some TypeKind.CFloat
  | 32 => Some TypeKind.CDouble
  | 33 => Some TypeKind.CVoid
  | 100 => Some (TypeKind.Struct (ty_id ty)) (* TAG_STRUCT *)
  | 101 => Some (TypeKind.Enum (ty_id ty)) (* TAG_ENUM *)
  | 102 => Some (TypeKind.Array (ty_id ty)) (* TAG_ARRAY *)
  | 104 => Some (TypeKind.PtrConst (ty_id ty)) (* TAG_PTR_CONST *)
  | 105 => Some (TypeKind.PtrMut (ty_id ty)) (* TAG_PTR_MUT *)
  | 107 => Some (TypeKind.Ref (ty_id ty)) (* TAG_REF *)
  | 108 => Some (TypeKind.MutRef (ty_id ty)) (* TAG_MUT_REF *)
  | 109 => Some (TypeKind.Slice (ty_id ty)) (* TAG_SLICE *)
  | 110 => Some (TypeKind.MutSlice (ty_id ty)) (* TAG_MUT_SLICE *)
  | 111 => Some (TypeKind.Vec (ty_id ty)) (* TAG_VEC *)
  | 103 => Some (TypeKind.Module (ty_id ty)) (* TAG_MODULE *)
  | 106 => Some (TypeKind.Interface (ty_id ty)) (* TAG_INTERFACE *)
  | _ => None
  end.

(** [Type::kind]: panics on an invalid encoding. *)
Definition kind (ty : Ty) : outcome TypeKind := expect (try_kind ty).

(** [Type::name], on the kind the source's [self.kind()] yields. *)
Definition kind_name (k : TypeKind) : string :=
  match k with
  | TypeKind.I8 => "i8"
  | TypeKind.I16 => "i16"
  | TypeKind.I32 => "i32"
  | TypeKind.I64 => "i64"
  | TypeKind.U8 => "u8"
  | TypeKind.U16 => "u16"
  | TypeKind.U32 => "u32"
  | TypeKind.U64 => "u64"
  | TypeKind.Isize => "isize"
  | TypeKind.Usize => "usize"
  | TypeKind.F16 => "f16"
  | TypeKind.F32 => "f32"
  | TypeKind.F64 => "f64"
  | TypeKind.Bool => "bool"
  | TypeKind.Unit => "()"
  | TypeKind.Error => "<error>"
  | TypeKind.Never => "!"
  | TypeKind.ComptimeType => "type"
  | TypeKind.ComptimeStr => "comptime_str"
  | TypeKind.ComptimeInt => "comptime_int"
  | TypeKind.Char => "char"
  | TypeKind.CSchar => "c_schar"
  | TypeKind.CShort => "c_short"
  | TypeKind.CInt => "c_int"
  | TypeKind.CLong => "c_long"
  | TypeKind.CLonglong => "c_longlong"
  | TypeKind.CUchar => "c_uchar"
  | TypeKind.CUshort => "c_ushort"
  | TypeKind.CUint => "c_uint"
  | TypeKind.CUlong => "c_ulong"
  | TypeKind.CUlonglong => "c_ulonglong"
  | TypeKind.CFloat => "c_float"
  | TypeKind.CDouble => "c_double"
  | TypeKind.CVoid => "c_void"
  | TypeKind.Struct _ => "<struct>"
  | TypeKind.Enum _ => "<enum>"
  | TypeKind.Interface _ => "<interface>"
  | TypeKind.Array _ => "<array>"
  | TypeKind.PtrConst _ => "<ptr const>"
  | TypeKind.PtrMut _ => "<ptr mut>"
  | TypeKind.Ref _ => "<ref>"
  | TypeKind.MutRef _ => "<mut ref>"
  | TypeKind.Slice _ => "<slice>"
  | TypeKind.MutSlice _ => "<mut slice>"
  | TypeKind.Vec _ => "<vec>"
  | TypeKind.Module _ => "<module>"
  end%string.
Definition name (ty : Ty) : outcome string := k ← kind ty; mret (kind_name k).
(** ** Tag predicates *)
Definition is_integer (ty : Ty) : bool :=
  (ty_u32 ty <=? 9) || (21 <=? ty_u32 ty) && (ty_u32 ty <=? 30).
Definition is_error (ty : Ty) : bool := bool_decide (ty = Ty.ERROR).
Definition is_never (ty : Ty) : bool := bool_decide (ty = Ty.NEVER).
Definition is_comptime_type (ty : Ty) : bool := bool_decide (ty = Ty.COMPTIME_TYPE).
Definition is_comptime_str (ty : Ty) : bool := bool_decide (ty = Ty.COMPTIME_STR).
Definition is_comptime_int (ty : Ty) : bool := bool_decide (ty = Ty.COMPTIME_INT).
Definition is_struct (ty : Ty) : bool := ty_tag ty =? TAG_STRUCT.
Definition as_struct (ty : Ty) : option Z := if is_struct ty then Some (ty_id ty) else None.
Definition is_array (ty : Ty) : bool := ty_tag ty =? TAG_ARRAY.
Definition as_array (ty : Ty) : option Z := if is_array ty then Some (ty_id ty) else None.
Definition is_enum (ty : Ty) : bool := ty_tag ty =? TAG_ENUM.
Definition as_enum (ty : Ty) : option Z := if is_enum ty then Some (ty_id ty) else None.
Definition is_module (ty : Ty) : bool := ty_tag ty =? TAG_MODULE.
Definition as_module (ty : Ty) : option Z := if is_module ty then Some (ty_id ty) else None.
Definition is_ptr_const (ty : Ty) : bool := ty_tag ty =? TAG_PTR_CONST.
Definition as_ptr_const (ty : Ty) : option Z := if is_ptr_const ty then Some (ty_id ty) else None.
Definition is_ptr_mut (ty : Ty) : bool := ty_tag ty =? TAG_PTR_MUT.
Definition as_ptr_mut (ty : Ty) : option Z := if is_ptr_mut ty then Some (ty_id ty) else None.
Definition is_ptr (ty : Ty) : bool := (ty_tag ty =? TAG_PTR_CONST) || (ty_tag ty =? TAG_PTR_MUT).
Definition is_ref (ty : Ty) : bool := ty_tag ty =? TAG_REF.
Definition as_ref_type (ty : Ty) : option Z := if is_ref ty then Some (ty_id ty) else None.
Definition is_mut_ref (ty : Ty) : bool := ty_tag ty =? TAG_MUT_REF.
Definition as_mut_ref_type (ty : Ty) : option Z := if is_mut_ref ty then Some (ty_id ty) else None.
Definition is_any_ref (ty : Ty) : bool := (ty_tag ty =? TAG_REF) || (ty_tag ty =? TAG_MUT_REF).
Definition is_slice (ty : Ty) : bool := ty_tag ty =? TAG_SLICE.
Definition as_slice_type (ty : Ty) : option Z := if is_slice ty then Some (ty_id ty) else None.
Definition is_mut_slice (ty : Ty) : bool := ty_tag ty =? TAG_MUT_SLICE.
Definition as_mut_slice_type (ty : Ty) : option Z :=
  if is_mut_slice ty then Some (ty_id ty) else None.
Definition is_any_slice (ty : Ty) : bool :=
  (ty_tag ty =? TAG_SLICE) || (ty_tag ty =? TAG_MUT_SLICE).
Definition is_vec (ty : Ty) : bool := ty_tag ty =? TAG_VEC.
Definition as_vec_type (ty : Ty) : option Z := if is_vec ty then Some (ty_id ty) else None.
Definition is_signed (ty : Ty) : bool :=
  (ty_u32 ty <=? 3) || (ty_u32 ty =? 8) || (21 <=? ty_u32 ty) && (ty_u32 ty <=? 25).
Definition is_float (ty : Ty) : bool :=
  (10 <=? ty_u32 ty) && (ty_u32 ty <=? 12) || (ty_u32 ty =? 31) || (ty_u32 ty =? 32).
Definition is_numeric (ty : Ty) : bool :=
  (ty_u32 ty <=? 12) || (21 <=? ty_u32 ty) && (ty_u32 ty <=? 32).
Definition is_64_bit (ty : Ty) : bool := (ty_u32 ty =? 3) || (ty_u32 ty =? 7).
Definition is_pointer_sized (ty : Ty) : bool := (ty_u32 ty =? 8) || (ty_u32 ty =? 9).
Definition is_unsigned (ty : Ty) : bool :=
  (4 <=? ty_u32 ty) && (ty_u32 ty <=? 7) || (ty_u32 ty =? 9)
  || (26 <=? ty_u32 ty) && (ty_u32 ty <=? 30).

(** [Type::is_copy]: the match on the tag, in the order of its arms. *)
Definition is_copy (ty : Ty) : bool :=
  let tag := ty_tag ty in
  if (0 <=? tag) && (tag <=? 14) then true
  else if (15 <=? tag) && (tag <=? 19) then true
  else if tag =? 20 then true
  else if (21 <=? tag) && (tag <=? 32) then true
  else if tag =? 33 then false
  else if tag =? TAG_ENUM then true
  else if tag =? TAG_MODULE then true
  else false.

(** [Type::can_coerce_to]. *)
Definition can_coerce_to (ty target : Ty) : bool :=
  is_never ty || is_error ty || bool_decide (ty = target).

(** ** Literal ranges *)
Definition i8_MAX : Z := 2 ^ 7 - 1.
Definition i16_MAX : Z := 2 ^ 15 - 1.
Definition i32_MAX : Z := 2 ^ 31 - 1.
Definition i64_MAX : Z := 2 ^ 63 - 1.
Definition u8_MAX : Z := 2 ^ 8 - 1.
Definition u16_MAX : Z := 2 ^ 16 - 1.
Definition u32_MAX : Z := 2 ^ 32 - 1.

(** [Type::literal_fits]; [value] is a [u64]. *)
Definition literal_fits (ty : Ty) (value : Z) : bool :=
  match ty_u32 ty with
  | 0 => value <=? i8_MAX
  | 1 => value <=? i16_MAX
  | 2 => value <=? i32_MAX
  | 3 => value <=? i64_MAX
  | 4 => value <=? u8_MAX
  | 5 => value <=? u16_MAX
  | 6 => value <=? u32_MAX
  | 7 => true
  | 8 => value <=? i64_MAX
  | 9 => true
  | 21 => value <=? i8_MAX
  | 22 => value <=? i16_MAX
  | 23 => value <=? i32_MAX
  | 24 => value <=? i64_MAX
  | 25 => value <=? i64_MAX
  | 26 => value <=? u8_MAX
  | 27 => value <=? u16_MAX
  | 28 => value <=? u32_MAX
  | 29 => true
  | 30 => true
  | _ => false
  end.

(** [Type::negated_literal_fits]; the bounds are [iN::MIN.unsigned_abs()]. *)
Definition negated_literal_fits (ty : Ty) (value : Z) : bool :=
  match ty_u32 ty with
  | 0 => value <=? 2 ^ 7
  | 1 => value <=? 2 ^ 15
  | 2 => value <=? 2 ^ 31
  | 3 => value <=? 2 ^ 63
  | 8 => value <=? 2 ^ 63
  | 21 => value <=? 2 ^ 7
  | 22 => value <=? 2 ^ 15
  | 23 => value <=? 2 ^ 31
  | 24 => value <=? 2 ^ 63
  | 25 => value <=? 2 ^ 63
  | _ => false
  end.

(** ** Raw encodings *)
Definition as_u32 (ty : Ty) : Z := ty_u32 ty.
Definition from_u32 (v : Z) : Ty := MkTy v.

(** [Type::is_valid_encoding]. *)
Definition is_valid_encoding (v : Z) : bool :=
  let tag := Z.land v 255 in
  if (0 <=? tag) && (tag <=? 19) then true
  else bool_decide (tag ∈ [TAG_STRUCT; TAG_ENUM; TAG_ARRAY; TAG_PTR_CONST; TAG_PTR_MUT;
                           TAG_MODULE; TAG_INTERFACE; TAG_REF; TAG_MUT_REF]).
Definition try_from_u32 (v : Z) : option Ty :=
  if is_valid_encoding v then Some (MkTy v) else None.
Definition is_valid (ty : Ty) : bool := is_valid_encoding (ty_u32 ty).

(** ** Definitions stored in the pool *)

(** [gruel_builtins::Posture] and [gruel_builtins::ThreadSafety]. *)
Inductive Posture : Set := Copy | Affine | Linear.
Inductive ThreadSafety : Set := Unsend | Send | Sync.
#[export] Instance Posture_eq_dec : EqDecision Posture.
Proof. solve_decision. Defined.
#[export] Instance ThreadSafety_eq_dec : EqDecision ThreadSafety.
Proof. solve_decision. Defined.

(** The derived order [Unsend < Send < Sync] and the [min] it gives. *)
Definition ts_rank (t : ThreadSafety) : nat :=
  match t with Unsend => 0 | Send => 1 | Sync => 2 end.
Definition ts_min (a b : ThreadSafety) : ThreadSafety :=
  if Nat.leb (ts_rank a) (ts_rank b) then a else b.

Record StructField : Set := MkStructField {
  sf_name : string;
  sf_ty : Ty;
  sf_is_pub : bool;
}.

Record StructDef : Set := MkStructDef {
  sd_name : string;
  sd_fields : list StructField;
  sd_posture : Posture;
  sd_is_clone : bool;
  sd_thread_safety : ThreadSafety;
  sd_destructor : option string;
  sd_is_builtin : bool;
  sd_is_pub : bool;
  sd_file_id : Z;
  sd_is_c_layout : bool;
}.

Record EnumVariantDef : Set := MkEnumVariantDef {
  ev_name : string;
  ev_fields : list Ty;
  ev_field_names : list string;
}.

Record EnumDef : Set := MkEnumDef {
  ed_name : string;
  ed_variants : list EnumVariantDef;
  ed_posture : Posture;
  ed_thread_safety : ThreadSafety;
  ed_is_pub : bool;
  ed_file_id : Z;
  ed_destructor : option string;
  ed_is_c_layout : bool;
}.

#[export] Instance StructField_eq_dec : EqDecision StructField.
Proof. solve_decision. Defined.
#[export] Instance StructDef_eq_dec : EqDecision StructDef.
Proof. solve_decision. Defined.
#[export] Instance EnumVariantDef_eq_dec : EqDecision EnumVariantDef.
Proof. solve_decision. Defined.
#[export] Instance EnumDef_eq_dec : EqDecision EnumDef.
Proof. solve_decision. Defined.

(** [StructDef::is_tuple_shaped]: the anon-struct prefix, at least one field,
    and field [i] named by the decimal rendering of [i]. *)
Definition is_tuple_shaped (d : StructDef) : bool :=
  if negb (String.prefix "__anon_struct_" (sd_name d)) then false
  else if bool_decide (sd_fields d = []) then false
  else forallb (λ '(i, f), bool_decide (sf_name f = pretty (i : nat)))
         (imap pair (sd_fields d)).

(** [StructDef::tuple_display_name], with the callback rendering a type. *)
Definition tuple_display_name (d : StructDef) (fmt_ty : Ty → string) : option string :=
  if negb (is_tuple_shaped d) then None
  else
    let parts := String.concat ", " (map (λ f, fmt_ty (sf_ty f)) (sd_fields d)) in
    let trailing := if Nat.eqb (length (sd_fields d)) 1 then "," else "" in
    Some ("(" +:+ parts +:+ trailing +:+ ")")%string.

(** [StructDef::find_field]. *)
Definition find_field (d : StructDef) (n : string) : option (nat * StructField) :=
  list_find (λ f, sf_name f = n) (sd_fields d).
Definition field_count (d : StructDef) : nat := length (sd_fields d).

(** [EnumVariantDef] queries. *)
Definition unit_variant (n : string) : EnumVariantDef := MkEnumVariantDef n [] [].
Definition has_data (v : EnumVariantDef) : bool := negb (bool_decide (ev_fields v = [])).
Definition is_struct_variant (v : EnumVariantDef) : bool :=
  negb (bool_decide (ev_field_names v = [])).
Definition variant_find_field (v : EnumVariantDef) (n : string) : option nat :=
  fst <$> list_find (λ x, x = n) (ev_field_names v).

(** [EnumDef] queries. *)
Definition variant_count (d : EnumDef) : nat := length (ed_variants d).
Definition find_variant (d : EnumDef) (n : string) : option nat :=
  fst <$> list_find (λ v, ev_name v = n) (ed_variants d).
Definition has_data_variants (d : EnumDef) : bool := existsb has_data (ed_variants d).
Definition is_unit_only (d : EnumDef) : bool := negb (has_data_variants d).

(** [EnumDef::discriminant_type]. *)
Definition discriminant_type (d : EnumDef) : Ty :=
  if ed_is_c_layout d then Ty.C_INT
  else
    let count := Z.of_nat (length (ed_variants d)) in
    if count =? 0 then Ty.NEVER
    else if count <=? 256 then Ty.U8
    else if count <=? 65536 then Ty.U16
    else if count <=? 4294967296 then Ty.U32
    else Ty.U64.

(** ** Specification of the encoding

    [of_kind] is the encoding the constants and constructors above produce for
    a kind; a kind is well formed when its index fits the 24 bits the encoding
    keeps, and a type is canonical when it encodes a well-formed kind. *)
Definition of_kind (k : TypeKind) : Ty :=
  match k with
  | TypeKind.I8 => Ty.I8
  | TypeKind.I16 => Ty.I16
  | TypeKind.I32 => Ty.I32
  | TypeKind.I64 => Ty.I64
  | TypeKind.U8 => Ty.U8
  | TypeKind.U16 => Ty.U16
  | TypeKind.U32 => Ty.U32
  | TypeKind.U64 => Ty.U64
  | TypeKind.Isize => Ty.ISIZE
  | TypeKind.Usize => Ty.USIZE
  | TypeKind.F16 => Ty.F16
  | TypeKind.F32 => Ty.F32
  | TypeKind.F64 => Ty.F64
  | TypeKind.Bool => Ty.BOOL
  | TypeKind.Unit => Ty.UNIT
  | TypeKind.Error => Ty.ERROR
  | TypeKind.Never => Ty.NEVER
  | TypeKind.ComptimeType => Ty.COMPTIME_TYPE
  | TypeKind.ComptimeStr => Ty.COMPTIME_STR
  | TypeKind.ComptimeInt => Ty.COMPTIME_INT
  | TypeKind.Char => Ty.CHAR
  | TypeKind.CSchar => Ty.C_SCHAR
  | TypeKind.CShort => Ty.C_SHORT
  | TypeKind.CInt => Ty.C_INT
  | TypeKind.CLong => Ty.C_LONG
  | TypeKind.CLonglong => Ty.C_LONGLONG
  | TypeKind.CUchar => Ty.C_UCHAR
  | TypeKind.CUshort => Ty.C_USHORT
  | TypeKind.CUint => Ty.C_UINT
  | TypeKind.CUlong => Ty.C_ULONG
  | TypeKind.CUlonglong => Ty.C_ULONGLONG
  | TypeKind.CFloat => Ty.C_FLOAT
  | TypeKind.CDouble => Ty.C_DOUBLE
  | TypeKind.CVoid => Ty.C_VOID
  | TypeKind.Struct id => new_struct id
  | TypeKind.Enum id => new_enum id
  | TypeKind.Interface id => new_interface id
  | TypeKind.Array id => new_array id
  | TypeKind.PtrConst id => new_ptr_const id
  | TypeKind.PtrMut id => new_ptr_mut id
  | TypeKind.Ref id => new_ref id
  | TypeKind.MutRef id => new_mut_ref id
  | TypeKind.Slice id => new_slice id
  | TypeKind.MutSlice id => new_mut_slice id
  | TypeKind.Vec id => new_vec id
  | TypeKind.Module id => new_module id
  end.

Definition kind_id (k : TypeKind) : option Z :=
  match k with
  | TypeKind.Struct id | TypeKind.Enum id | TypeKind.Interface id | TypeKind.Array id | TypeKind.PtrConst id | TypeKind.PtrMut id
  | TypeKind.Ref id | TypeKind.MutRef id | TypeKind.Slice id | TypeKind.MutSlice id | TypeKind.Vec id | TypeKind.Module id => Some id
  | _ => None
  end.

Definition kind_wf (k : TypeKind) : Prop :=
  match kind_id k with Some id => in_u 24 id | None => True end.

Definition canonical (ty : Ty) : Prop := ∃ k, kind_wf k ∧ ty = of_kind k.

(** The classification of kinds the predicates are meant to compute. *)
Inductive num_class : Set :=
  | SignedInt (bits : Z)
  | UnsignedInt (bits : Z)
  | Float (bits : Z).

Definition kind_class (k : TypeKind) : option num_class :=
  match k with
  | TypeKind.I8 | TypeKind.CSchar => Some (SignedInt 8)
  | TypeKind.I16 | TypeKind.CShort => Some (SignedInt 16)
  | TypeKind.I32 | TypeKind.CInt => Some (SignedInt 32)
  | TypeKind.I64 | TypeKind.Isize | TypeKind.CLong | TypeKind.CLonglong =>
      Some (SignedInt 64)
  | TypeKind.U8 | TypeKind.CUchar => Some (UnsignedInt 8)
  | TypeKind.U16 | TypeKind.CUshort => Some (UnsignedInt 16)
  | TypeKind.U32 | TypeKind.CUint => Some (UnsignedInt 32)
  | TypeKind.U64 | TypeKind.Usize | TypeKind.CUlong | TypeKind.CUlonglong =>
      Some (UnsignedInt 64)
  | TypeKind.F16 => Some (Float 16)
  | TypeKind.F32 | TypeKind.CFloat => Some (Float 32)
  | TypeKind.F64 | TypeKind.CDouble => Some (Float 64)
  | _ => None
  end.

Definition in_int_range (c : option num_class) (n : Z) : Prop :=
  match c with
  | Some (SignedInt bits) => - 2 ^ (bits - 1) ≤ n ≤ 2 ^ (bits - 1) - 1
  | Some (UnsignedInt bits) => 0 ≤ n ≤ 2 ^ bits - 1
  | _ => False
  end.

(** ** Lemmas on the bit encoding *)

Lemma mk_composite_raw tag id :
  in_u 8 tag → in_u 24 id → ty_u32 (mk_composite tag id) = tag + 256 * id.
Proof.
  unfold in_u. intros Ht Hi. unfold mk_composite; simpl.
  rewrite shl_small; [|lia|unfold in_u; lia].
  change (2 ^ 8) with 256 in *.
  assert (Hand : Z.land tag (id * 256) = 0).
  { replace (id * 256) with (Z.shiftl id 8) by (rewrite Z.shiftl_mul_pow2; lia).
    apply Z.bits_inj'; intros n Hn. rewrite Z.land_spec, Z.bits_0.
    destruct (decide (n < 8)).
    - rewrite (Z.shiftl_spec_low id 8 n) by lia. apply andb_false_r.
    - rewrite <- (Z.mod_small tag (2 ^ 8)) by (change (2 ^ 8) with 256; lia).
      rewrite Z.mod_pow2_bits_high by lia. done. }
  rewrite <- Z.lxor_lor by done. rewrite <- Z.add_nocarry_lxor by done. lia.
Qed.

Lemma ty_tag_mod ty : ty_tag ty = ty_u32 ty mod 256.
Proof. unfold ty_tag. change 255 with (Z.ones 8). by rewrite Z.land_ones by lia. Qed.

Lemma ty_id_div ty : ty_id ty = ty_u32 ty / 256.
Proof. unfold ty_id. by rewrite Z.shiftr_div_pow2 by lia. Qed.

Lemma mk_composite_tag tag id :
  in_u 8 tag → in_u 24 id → ty_tag (mk_composite tag id) = tag.
Proof.
  intros Ht Hi. rewrite ty_tag_mod, mk_composite_raw by done.
  rewrite Z.mul_comm, Z_mod_plus_full. apply Z.mod_small. exact Ht.
Qed.

Lemma mk_composite_id tag id :
  in_u 8 tag → in_u 24 id → ty_id (mk_composite tag id) = id.
Proof.
  intros Ht Hi. rewrite ty_id_div, mk_composite_raw by done.
  rewrite Z.mul_comm, Z.div_add by lia. rewrite Z.div_small by exact Ht. lia.
Qed.

Lemma mk_composite_big tag id :
  34 ≤ tag → in_u 8 tag → in_u 24 id → 34 ≤ ty_u32 (mk_composite tag id).
Proof. intros ? Ht Hi. rewrite mk_composite_raw by done. unfold in_u in *. lia. Qed.

Create HintDb tybits discriminated.
#[export] Hint Rewrite mk_composite_tag mk_composite_id using (unfold in_u in *; lia) : tybits.

(** Splits on the kind of a canonical type, turning the raw word of a composite
    type into an unknown word that is at least 34. *)
Ltac destruct_canonical k Hwf :=
  destruct k; unfold kind_wf in Hwf; simpl in Hwf;
  try match goal with
  | id : Z |- _ => unfold of_kind, new_struct, new_enum, new_array, new_module, new_ptr_const, new_ptr_mut, new_interface, new_ref, new_mut_ref, new_slice, new_mut_slice, new_vec in *
  end.

(** Evaluates a predicate over the raw word of a canonical type. *)
Ltac solve_raw_pred Hwf :=
  match goal with
  | |- context [mk_composite ?tag ?id] =>
      let Hr := fresh "Hr" in
      assert (Hr : 34 ≤ ty_u32 (mk_composite tag id))
        by (apply mk_composite_big; [done| by vm_compute |exact Hwf]);
      repeat match goal with
      | |- context [?a <=? ?b] => destruct (Z.leb_spec a b); try lia
      | |- context [?a =? ?b] => destruct (Z.eqb_spec a b); try lia
      end; reflexivity
  | _ => reflexivity
  end.

(** Decoding inverts encoding. *)
Lemma try_kind_of_kind k : kind_wf k → try_kind (of_kind k) = Some k.
Proof.
  intros Hwf. unfold try_kind. destruct_canonical k Hwf; try reflexivity;
    (rewrite mk_composite_tag, mk_composite_id by (try done; by vm_compute)); reflexivity.
Qed.

Lemma of_kind_inj k k' : kind_wf k → kind_wf k' → of_kind k = of_kind k' → k = k'.
Proof.
  intros Hk Hk' Heq. apply try_kind_of_kind in Hk, Hk'. rewrite Heq in Hk. congruence.
Qed.

(** The decoded index of a 32-bit word fits in 24 bits. *)
Lemma ty_id_bound ty : in_u32 (ty_u32 ty) → in_u 24 (ty_id ty).
Proof.
  unfold in_u. intros H. rewrite ty_id_div. split; [apply Z.div_pos; lia|].
  apply Z.div_lt_upper_bound; lia.
Qed.

Lemma mk_composite_eta ty tag :
  in_u32 (ty_u32 ty) → ty_tag ty = tag → mk_composite tag (ty_id ty) = ty.
Proof.
  intros Hu Ht. pose proof (ty_id_bound ty Hu) as Hid.
  assert (in_u 8 tag) by (subst tag; rewrite ty_tag_mod; apply (wrap_in_u 8); lia).
  rewrite ty_tag_mod in Ht. pose proof (ty_id_div ty) as Hd.
  destruct ty as [raw]; simpl in *. pose proof (mk_composite_raw tag (ty_id (MkTy raw))) as Hr.
  destruct (mk_composite tag (ty_id (MkTy raw))) as [r'] eqn:E; simpl in *.
  f_equal. rewrite Hr by done. rewrite Hd, <- Ht. pose proof (Z.div_mod raw 256). lia.
Qed.

(** Case analysis on the tag matched by [try_kind]: one goal per valid tag, in
    which the tag is that literal. *)
Ltac destruct_tag t :=
  destruct t as [|p|p]; [|repeat (first [discriminate | destruct p as [p|p|]])|discriminate].

Lemma try_kind_Some ty k :
  in_u32 (ty_u32 ty) → try_kind ty = Some k →
  kind_wf k ∧ of_kind k = if kind_id k then ty else MkTy (ty_tag ty).
Proof.
  intros Hu. pose proof (ty_id_bound ty Hu) as Hid. unfold try_kind.
  destruct (ty_tag ty) as [|p|p] eqn:Ht;
    [intros [= <-]; by split| |intros; discriminate].
  do 7 (try (destruct p as [p|p|])); intros Hk; try discriminate Hk; injection Hk as <-;
    (split; [first [exact I | exact Hid]|]); simpl;
    first [reflexivity | by apply mk_composite_eta].
Qed.

(** The 32-bit encoding of types is a bijection between the kinds whose pool
    index fits in 24 bits and the words [Type::try_kind] accepts, up to the high
    bits of a primitive word, which [try_kind] ignores: decoding an encoded kind
    gives it back, and re-encoding the kind of an accepted word gives the word
    (its low byte when the kind is primitive). *)
Theorem type_encoding_roundtrip :
  (∀ k, kind_wf k → kind (of_kind k) = Done k) ∧
  (∀ ty k, in_u32 (ty_u32 ty) → kind ty = Done k →
     kind_wf k ∧ of_kind k = if kind_id k then ty else MkTy (ty_tag ty)).
Proof.
  split.
  - intros k Hk. unfold kind. by rewrite try_kind_of_kind.
  - intros ty k Hu Hk. apply try_kind_Some; [done|]. by apply expect_Done.
Qed.

(** [new_struct] and its siblings keep 24 bits of the index: two indices that
    agree modulo [2^24] give the same type. *)
Lemma mk_composite_truncates tag id :
  mk_composite tag (id + 2 ^ 24) = mk_composite tag id.
Proof.
  unfold mk_composite, shl, wrap. rewrite !Z.shiftl_mul_pow2 by lia.
  replace ((id + 2 ^ 24) * 2 ^ 8) with (id * 2 ^ 8 + 1 * 2 ^ 32) by lia.
  by rewrite Z_mod_plus_full.
Qed.

(** A pool index of [2^24] or more is truncated by the type constructors, so
    a struct with index [id + 2^24] receives the very type of the struct with
    index [id]; below that bound the constructors are injective. *)
Theorem new_struct_injective_below_2_24 :
  (∀ id id', in_u 24 id → in_u 24 id' → new_struct id = new_struct id' → id = id') ∧
  (∀ id, new_struct (id + 2 ^ 24) = new_struct id).
Proof.
  split; [|intros id; apply mk_composite_truncates].
  intros id id' Hid Hid' Heq.
  assert (TypeKind.Struct id = TypeKind.Struct id') as [= ?]
    by (apply of_kind_inj; [exact Hid|exact Hid'|exact Heq]). done.
Qed.

Definition class_is_integer (c : option num_class) : bool :=
  match c with Some (SignedInt _ | UnsignedInt _) => true | _ => false end.
Definition class_is_signed (c : option num_class) : bool :=
  match c with Some (SignedInt _) => true | _ => false end.
Definition class_is_unsigned (c : option num_class) : bool :=
  match c with Some (UnsignedInt _) => true | _ => false end.
Definition class_is_float (c : option num_class) : bool :=
  match c with Some (Float _) => true | _ => false end.

Lemma is_integer_class k : kind_wf k → is_integer (of_kind k) = class_is_integer (kind_class k).
Proof. intros Hwf. unfold is_integer. destruct_canonical k Hwf; solve_raw_pred Hwf. Qed.
Lemma is_signed_class k : kind_wf k → is_signed (of_kind k) = class_is_signed (kind_class k).
Proof. intros Hwf. unfold is_signed. destruct_canonical k Hwf; solve_raw_pred Hwf. Qed.
Lemma is_unsigned_class k : kind_wf k → is_unsigned (of_kind k) = class_is_unsigned (kind_class k).
Proof. intros Hwf. unfold is_unsigned. destruct_canonical k Hwf; solve_raw_pred Hwf. Qed.
Lemma is_float_class k : kind_wf k → is_float (of_kind k) = class_is_float (kind_class k).
Proof. intros Hwf. unfold is_float. destruct_canonical k Hwf; solve_raw_pred Hwf. Qed.
Lemma is_numeric_class k : kind_wf k → is_numeric (of_kind k) = bool_decide (is_Some (kind_class k)).
Proof. intros Hwf. unfold is_numeric. destruct_canonical k Hwf; solve_raw_pred Hwf. Qed.
#[export] Hint Rewrite is_integer_class is_signed_class is_unsigned_class is_float_class
  is_numeric_class using assumption : tybits.

(** On every canonical type the tag-range predicates compute the numeric
    classification of its kind: signed and unsigned partition the integers,
    integers and floats partition the numeric types. *)
Theorem numeric_predicates_classify (k : TypeKind) :
  kind_wf k →
  let ty := of_kind k in
  is_signed ty = class_is_signed (kind_class k) ∧
  is_unsigned ty = class_is_unsigned (kind_class k) ∧
  is_float ty = class_is_float (kind_class k) ∧
  is_integer ty = xorb (is_signed ty) (is_unsigned ty) ∧
  is_numeric ty = xorb (is_integer ty) (is_float ty).
Proof.
  intros Hwf ty. subst ty. autorewrite with tybits.
  destruct (kind_class k) as [[]|]; by repeat split.
Qed.
Lemma numeric_predicates_classify_witness :
  kind_wf (TypeKind.Array 7) ∧ is_numeric (of_kind (TypeKind.Array 7)) = false.
Proof.
  split; [by vm_compute|].
  destruct (numeric_predicates_classify (TypeKind.Array 7)) as (_ & _ & _ & _ & H);
    [by vm_compute|]. rewrite H. by vm_compute.
Defined.

Lemma literal_fits_class k v :
  kind_wf k → in_u64 v → literal_fits (of_kind k) v = true ↔ in_int_range (kind_class k) v.
Proof.
  intros Hwf [Hv1 Hv2]. unfold literal_fits, in_int_range.
  destruct_canonical k Hwf;
    try (match goal with |- context [mk_composite ?tag ?id] =>
      pose proof (mk_composite_big tag id ltac:(done) ltac:(by vm_compute) Hwf) as Hr;
      destruct (ty_u32 (mk_composite tag id)) as [|p|p]; try lia;
      do 5 (try (destruct p as [p|p|]; try lia)) end; simpl; done);
    simpl; unfold i8_MAX, i16_MAX, i32_MAX, i64_MAX, u8_MAX, u16_MAX, u32_MAX;
    rewrite ?Z.leb_le; (split; [intros H; try done; lia | intros H; try done; lia]).
Qed.

Lemma negated_literal_fits_class k v :
  kind_wf k → in_u64 v → class_is_signed (kind_class k) = true →
  negated_literal_fits (of_kind k) v = true ↔ in_int_range (kind_class k) (- v).
Proof.
  intros Hwf [Hv1 Hv2] Hs. unfold negated_literal_fits, in_int_range.
  destruct k; try discriminate Hs; simpl; rewrite Z.leb_le; lia.
Qed.

(** [literal_fits] accepts a [u64] literal exactly when it lies in the value
    range of the integer type, and for signed types [negated_literal_fits]
    accepts exactly the literals whose negation does (so the most negative
    value is accepted only under a negation). *)
Theorem literal_ranges_exact (k : TypeKind) (v : Z) :
  kind_wf k → in_u64 v →
  (literal_fits (of_kind k) v = true ↔ in_int_range (kind_class k) v) ∧
  (class_is_signed (kind_class k) = true →
   negated_literal_fits (of_kind k) v = true ↔ in_int_range (kind_class k) (- v)).
Proof.
  intros Hwf Hv. split; [by apply literal_fits_class|by apply negated_literal_fits_class].
Qed.
Lemma literal_ranges_exact_witness :
  literal_fits Ty.I8 128 = false ∧ in_int_range (kind_class TypeKind.I8) (- 128).
Proof.
  destruct (literal_ranges_exact TypeKind.I8 128) as [H1 H2]; [by vm_compute..|].
  split; [by vm_compute|]. apply H2; by vm_compute.
Defined.

Lemma of_nat_lt_length {A} (l : list A) i :
  (i < length l)%nat → 0 ≤ Z.of_nat i < Z.of_nat (length l).
Proof. lia. Qed.

(** The discriminant type of an enum without C layout can hold the index of
    each of its variants, for every number of variants a [usize] can count. *)
Theorem discriminant_holds_variants (d : EnumDef) (i : nat) :
  ed_is_c_layout d = false → (i < length (ed_variants d))%nat →
  in_u64 (Z.of_nat (length (ed_variants d))) →
  literal_fits (discriminant_type d) (Z.of_nat i) = true.
Proof.
  intros Hc Hi%of_nat_lt_length [_ Hn]. unfold discriminant_type. rewrite Hc. simpl.
  destruct (Z.eqb_spec (Z.of_nat (length (ed_variants d))) 0); [lia|].
  repeat match goal with |- context [?a <=? ?b] => destruct (Z.leb_spec a b) end;
    unfold literal_fits; simpl; rewrite ?Z.leb_le; unfold u8_MAX, u16_MAX, u32_MAX; lia.
Qed.
Lemma discriminant_holds_variants_witness :
  literal_fits (discriminant_type
    (MkEnumDef "E" (replicate 257 (unit_variant "A")) Affine Sync false 0 None false)) 256 = true.
Proof.
  refine (discriminant_holds_variants
    (MkEnumDef "E" (replicate 257 (unit_variant "A")) Affine Sync false 0 None false) 256 _ _ _);
    [reflexivity|by vm_compute; lia|by vm_compute].
Defined.

(** [Type::is_valid_encoding] is sound but not complete for
    [Type::try_kind]: every word it accepts decodes, but it rejects the encodings
    of [char], of the C named types and of slices and vectors, all of which
    decode. *)
Theorem is_valid_encoding_incomplete :
  (∀ v, in_u32 v → is_valid_encoding v = true → is_Some (try_kind (from_u32 v))) ∧
  (∀ k, kind_wf k →
     is_valid (of_kind k) = false ↔
     match k with
     | TypeKind.Char | TypeKind.CSchar | TypeKind.CShort | TypeKind.CInt | TypeKind.CLong
     | TypeKind.CLonglong | TypeKind.CUchar | TypeKind.CUshort | TypeKind.CUint
     | TypeKind.CUlong | TypeKind.CUlonglong | TypeKind.CFloat | TypeKind.CDouble
     | TypeKind.CVoid | TypeKind.Slice _ | TypeKind.MutSlice _ | TypeKind.Vec _ => True
     | _ => False
     end).
Proof.
  split.
  - intros v _. unfold is_valid_encoding, try_kind, ty_tag; simpl.
    destruct ((0 <=? Z.land v 255) && (Z.land v 255 <=? 19)) eqn:E.
    + apply andb_true_iff in E as [E1%Z.leb_le E2%Z.leb_le]. intros _.
      destruct (Z.land v 255) as [|p|p]; [done| |lia].
      do 5 (try (destruct p as [p|p|]; try done)); lia.
    + rewrite bool_decide_eq_true, !elem_of_cons, elem_of_nil.
      intros H. repeat (destruct H as [->|H]; [done|]). done.
  - intros k Hwf. unfold is_valid, is_valid_encoding.
    change (Z.land (ty_u32 (of_kind k)) 255) with (ty_tag (of_kind k)).
    destruct_canonical k Hwf; try rewrite mk_composite_tag by (try done; by vm_compute);
      by vm_compute.
Qed.
