(* ===== verification/LayoutTypes.v ===== *)
(** * Layout data

    The types of [crates/gruel-air/src/layout.rs] that the intern pool's layout
    cache stores: [NicheRange], [DiscriminantStrategy] and [Layout]. *)

From S2P Require Import Prelude Types.

#[local] Open Scope Z_scope.

(** A forbidden range [start ..= end] of the [width]-byte little-endian integer
    at byte [offset] of a value. *)
Record NicheRange : Set := MkNiche {
  nr_offset : Z;   (* u32 *)
  nr_width : Z;    (* u8 *)
  nr_start : Z;    (* u128 *)
  nr_end : Z;      (* u128 *)
}.

Inductive DiscriminantStrategy : Set :=
  | Separate (tag_offset tag_width payload_offset : Z)
  | Niche (unit_variant data_variant niche_offset niche_width niche_value : Z).

Record Layout : Set := MkLayout {
  ly_size : Z;     (* u64 *)
  ly_align : Z;    (* u64 *)
  ly_niches : list NicheRange;
  ly_discriminant : option DiscriminantStrategy;
}.

#[export] Instance NicheRange_eq_dec : EqDecision NicheRange.
Proof. solve_decision. Defined.
#[export] Instance DiscriminantStrategy_eq_dec : EqDecision DiscriminantStrategy.
Proof. solve_decision. Defined.
#[export] Instance Layout_eq_dec : EqDecision Layout.
Proof. solve_decision. Defined.

(** [NicheRange::count]; the subtraction and addition are on [u128]. *)
Definition niche_count (n : NicheRange) : outcome Z :=
  d ← checked_sub 128 (nr_end n) (nr_start n); checked_add 128 d 1.

(** [NicheRange::max_for_width]. *)
Definition max_for_width (width : Z) : Z :=
  if 16 <=? width then 2 ^ 128 - 1 else 2 ^ (width * 8) - 1.

(** [Layout::scalar] and [Layout::zero_sized]. *)
Definition scalar (size align : Z) : Layout := MkLayout size align [] None.
Definition zero_sized : Layout := MkLayout 0 1 [] None.
Definition discriminant_strategy (l : Layout) : option DiscriminantStrategy := ly_discriminant l.
