(* ===== verification/InternPool.v ===== *)
(** * The type intern pool

    Models [crates/gruel-air/src/intern_pool.rs]: the canonical table of
    composite types with one deduplication map per structural type former and
    one name map per nominal one, the interning and registration operations,
    the conversions between [Type] and [InternedType], and the snapshot used by
    the incremental cache.  [lasso::Spur], the interned name, is a parameter of
    the model with decidable equality and its [Default] value.

    The lock of the source is modelled by splitting each interning operation
    into the read under the shared lock and the re-checking insertion under the
    exclusive lock ([.._slow]); the section [Concurrent] runs them interleaved. *)

From S2P Require Import Prelude Types LayoutTypes.
From stdpp Require Import pretty.

#[local] Open Scope Z_scope.

(** [pub struct InternedType(u32)]. *)
Record InternedType : Set := MkInterned { it_raw : Z }.

#[export] Instance InternedType_eq_dec : EqDecision InternedType.
Proof. solve_decision. Defined.
#[export] Instance InternedType_countable : Countable InternedType.
Proof. refine (inj_countable' it_raw MkInterned _). by intros []. Defined.

(** The reserved indices of primitives.  Unlike [Type], [NEVER] is 15 and
    [ERROR] is 16, and 17 to 19 are unused. *)
Module Interned.

Definition I8 : InternedType := MkInterned 0.
Definition I16 : InternedType := MkInterned 1.
Definition I32 : InternedType := MkInterned 2.
Definition I64 : InternedType := MkInterned 3.
Definition U8 : InternedType := MkInterned 4.
Definition U16 : InternedType := MkInterned 5.
Definition U32 : InternedType := MkInterned 6.
Definition U64 : InternedType := MkInterned 7.
Definition ISIZE : InternedType := MkInterned 8.
Definition USIZE : InternedType := MkInterned 9.
Definition F16 : InternedType := MkInterned 10.
Definition F32 : InternedType := MkInterned 11.
Definition F64 : InternedType := MkInterned 12.
Definition BOOL : InternedType := MkInterned 13.
Definition UNIT : InternedType := MkInterned 14.
Definition NEVER : InternedType := MkInterned 15.
Definition ERROR : InternedType := MkInterned 16.
Definition CHAR : InternedType := MkInterned 20.
Definition C_SCHAR : InternedType := MkInterned 21.
Definition C_SHORT : InternedType := MkInterned 22.
Definition C_INT : InternedType := MkInterned 23.
Definition C_LONG : InternedType := MkInterned 24.
Definition C_LONGLONG : InternedType := MkInterned 25.
Definition C_UCHAR : InternedType := MkInterned 26.
Definition C_USHORT : InternedType := MkInterned 27.
Definition C_UINT : InternedType := MkInterned 28.
Definition C_ULONG : InternedType := MkInterned 29.
Definition C_ULONGLONG : InternedType := MkInterned 30.
Definition C_FLOAT : InternedType := MkInterned 31.
Definition C_DOUBLE : InternedType := MkInterned 32.
Definition C_VOID : InternedType := MkInterned 33.

End Interned.

Definition PRIMITIVE_COUNT : Z := 34.

Definition is_primitive (t : InternedType) : bool := it_raw t <? PRIMITIVE_COUNT.
Definition index (t : InternedType) : Z := it_raw t.
Definition from_raw (i : Z) : InternedType := MkInterned i.
(** [InternedType::from_pool_index]: a [u32] addition. *)
Definition from_pool_index (pool_index : Z) : outcome InternedType :=
  i ← checked_add 32 pool_index PRIMITIVE_COUNT; mret (MkInterned i).
(** [InternedType::pool_index]. *)
Definition pool_index (t : InternedType) : option Z :=
  if is_primitive t then None else Some (it_raw t - PRIMITIVE_COUNT).

Section Pool.
Context {Spur : Type} `{Countable Spur}.
Context (spur_default : Spur).

(** [StructData], [EnumData] and [TypeData]. *)
Record StructData : Type := MkStructData { sdata_name : Spur; sdata_def : StructDef }.
Record EnumData : Type := MkEnumData { edata_name : Spur; edata_def : EnumDef }.

Inductive TypeData : Type :=
  | TStruct (s : StructData)
  | TEnum (e : EnumData)
  | TArray (element : InternedType) (len : Z)
  | TPtrConst (pointee : InternedType)
  | TPtrMut (pointee : InternedType)
  | TRef (referent : InternedType)
  | TMutRef (referent : InternedType)
  | TSlice (element : InternedType)
  | TMutSlice (element : InternedType)
  | TVec (element : InternedType).

(** [TypeInternPoolInner]. *)
Record TypeInternPool : Type := MkPool {
  types : list TypeData;
  array_map : gmap (InternedType * Z) InternedType;
  ptr_const_map : gmap InternedType InternedType;
  ptr_mut_map : gmap InternedType InternedType;
  ref_map : gmap InternedType InternedType;
  mut_ref_map : gmap InternedType InternedType;
  slice_map : gmap InternedType InternedType;
  mut_slice_map : gmap InternedType InternedType;
  vec_map : gmap InternedType InternedType;
  struct_by_name : gmap Spur InternedType;
  enum_by_name : gmap Spur InternedType;
  layout_cache : gmap Ty Layout;
}.

Definition set_types (f : list TypeData → list TypeData) (p : TypeInternPool) : TypeInternPool :=
  MkPool (f (types p)) (array_map p) (ptr_const_map p) (ptr_mut_map p) (ref_map p) (mut_ref_map p) (slice_map p) (mut_slice_map p) (vec_map p) (struct_by_name p) (enum_by_name p) (layout_cache p).
Definition set_array_map (f : gmap (InternedType * Z) InternedType → gmap (InternedType * Z) InternedType) (p : TypeInternPool) : TypeInternPool :=
  MkPool (types p) (f (array_map p)) (ptr_const_map p) (ptr_mut_map p) (ref_map p) (mut_ref_map p) (slice_map p) (mut_slice_map p) (vec_map p) (struct_by_name p) (enum_by_name p) (layout_cache p).
Definition set_ptr_const_map (f : gmap InternedType InternedType → gmap InternedType InternedType) (p : TypeInternPool) : TypeInternPool :=
  MkPool (types p) (array_map p) (f (ptr_const_map p)) (ptr_mut_map p) (ref_map p) (mut_ref_map p) (slice_map p) (mut_slice_map p) (vec_map p) (struct_by_name p) (enum_by_name p) (layout_cache p).
Definition set_ptr_mut_map (f : gmap InternedType InternedType → gmap InternedType InternedType) (p : TypeInternPool) : TypeInternPool :=
  MkPool (types p) (array_map p) (ptr_const_map p) (f (ptr_mut_map p)) (ref_map p) (mut_ref_map p) (slice_map p) (mut_slice_map p) (vec_map p) (struct_by_name p) (enum_by_name p) (layout_cache p).
Definition set_ref_map (f : gmap InternedType InternedType → gmap InternedType InternedType) (p : TypeInternPool) : TypeInternPool :=
  MkPool (types p) (array_map p) (ptr_const_map p) (ptr_mut_map p) (f (ref_map p)) (mut_ref_map p) (slice_map p) (mut_slice_map p) (vec_map p) (struct_by_name p) (enum_by_name p) (layout_cache p).
Definition set_mut_ref_map (f : gmap InternedType InternedType → gmap InternedType InternedType) (p : TypeInternPool) : TypeInternPool :=
  MkPool (types p) (array_map p) (ptr_const_map p) (ptr_mut_map p) (ref_map p) (f (mut_ref_map p)) (slice_map p) (mut_slice_map p) (vec_map p) (struct_by_name p) (enum_by_name p) (layout_cache p).
Definition set_slice_map (f : gmap InternedType InternedType → gmap InternedType InternedType) (p : TypeInternPool) : TypeInternPool :=
  MkPool (types p) (array_map p) (ptr_const_map p) (ptr_mut_map p) (ref_map p) (mut_ref_map p) (f (slice_map p)) (mut_slice_map p) (vec_map p) (struct_by_name p) (enum_by_name p) (layout_cache p).
Definition set_mut_slice_map (f : gmap InternedType InternedType → gmap InternedType InternedType) (p : TypeInternPool) : TypeInternPool :=
  MkPool (types p) (array_map p) (ptr_const_map p) (ptr_mut_map p) (ref_map p) (mut_ref_map p) (slice_map p) (f (mut_slice_map p)) (vec_map p) (struct_by_name p) (enum_by_name p) (layout_cache p).
Definition set_vec_map (f : gmap InternedType InternedType → gmap InternedType InternedType) (p : TypeInternPool) : TypeInternPool :=
  MkPool (types p) (array_map p) (ptr_const_map p) (ptr_mut_map p) (ref_map p) (mut_ref_map p) (slice_map p) (mut_slice_map p) (f (vec_map p)) (struct_by_name p) (enum_by_name p) (layout_cache p).
Definition set_struct_by_name (f : gmap Spur InternedType → gmap Spur InternedType) (p : TypeInternPool) : TypeInternPool :=
  MkPool (types p) (array_map p) (ptr_const_map p) (ptr_mut_map p) (ref_map p) (mut_ref_map p) (slice_map p) (mut_slice_map p) (vec_map p) (f (struct_by_name p)) (enum_by_name p) (layout_cache p).
Definition set_enum_by_name (f : gmap Spur InternedType → gmap Spur InternedType) (p : TypeInternPool) : TypeInternPool :=
  MkPool (types p) (array_map p) (ptr_const_map p) (ptr_mut_map p) (ref_map p) (mut_ref_map p) (slice_map p) (mut_slice_map p) (vec_map p) (struct_by_name p) (f (enum_by_name p)) (layout_cache p).
Definition set_layout_cache (f : gmap Ty Layout → gmap Ty Layout) (p : TypeInternPool) : TypeInternPool :=
  MkPool (types p) (array_map p) (ptr_const_map p) (ptr_mut_map p) (ref_map p) (mut_ref_map p) (slice_map p) (mut_slice_map p) (vec_map p) (struct_by_name p) (enum_by_name p) (f (layout_cache p)).

(** [TypeInternPool::new]. *)
Definition new_pool : TypeInternPool := MkPool [] ∅ ∅ ∅ ∅ ∅ ∅ ∅ ∅ ∅ ∅ ∅.

Definition cached_layout (p : TypeInternPool) (ty : Ty) : option Layout := layout_cache p !! ty.
Definition cache_layout (p : TypeInternPool) (ty : Ty) (l : Layout) : TypeInternPool :=
  set_layout_cache <[ty := l]> p.

(** The common tail of the inserting operations: the next index is
    [types.len() as u32], the entry is pushed and its map updated. *)
Definition push_entry (p : TypeInternPool) (data : TypeData)
    (reg : InternedType → TypeInternPool → TypeInternPool)
    : outcome (InternedType * TypeInternPool) :=
  let i := wrap 32 (Z.of_nat (length (types p))) in
  interned ← from_pool_index i;
  mret (interned, reg interned (set_types (λ l, l ++ [data]) p)).

(** ** Structural types: the re-checking insertion and the whole operation *)
Definition intern_array_slow (p : TypeInternPool) (element : InternedType) (len : Z) : outcome (InternedType * TypeInternPool) :=
  match array_map p !! (element, len) with
  | Some existing => mret (existing, p)
  | None => push_entry p (TArray element len) (λ i, set_array_map <[(element, len) := i]>)
  end.
Definition intern_array (p : TypeInternPool) (element : InternedType) (len : Z) : outcome (InternedType * TypeInternPool) :=
  match array_map p !! (element, len) with
  | Some existing => mret (existing, p)
  | None => intern_array_slow p element len
  end.
Definition intern_ptr_const_slow (p : TypeInternPool) (pointee : InternedType) : outcome (InternedType * TypeInternPool) :=
  match ptr_const_map p !! pointee with
  | Some existing => mret (existing, p)
  | None => push_entry p (TPtrConst pointee) (λ i, set_ptr_const_map <[pointee := i]>)
  end.
Definition intern_ptr_const (p : TypeInternPool) (pointee : InternedType) : outcome (InternedType * TypeInternPool) :=
  match ptr_const_map p !! pointee with
  | Some existing => mret (existing, p)
  | None => intern_ptr_const_slow p pointee
  end.
Definition intern_ptr_mut_slow (p : TypeInternPool) (pointee : InternedType) : outcome (InternedType * TypeInternPool) :=
  match ptr_mut_map p !! pointee with
  | Some existing => mret (existing, p)
  | None => push_entry p (TPtrMut pointee) (λ i, set_ptr_mut_map <[pointee := i]>)
  end.
Definition intern_ptr_mut (p : TypeInternPool) (pointee : InternedType) : outcome (InternedType * TypeInternPool) :=
  match ptr_mut_map p !! pointee with
  | Some existing => mret (existing, p)
  | None => intern_ptr_mut_slow p pointee
  end.
Definition intern_ref_slow (p : TypeInternPool) (referent : InternedType) : outcome (InternedType * TypeInternPool) :=
  match ref_map p !! referent with
  | Some existing => mret (existing, p)
  | None => push_entry p (TRef referent) (λ i, set_ref_map <[referent := i]>)
  end.
Definition intern_ref (p : TypeInternPool) (referent : InternedType) : outcome (InternedType * TypeInternPool) :=
  match ref_map p !! referent with
  | Some existing => mret (existing, p)
  | None => intern_ref_slow p referent
  end.
Definition intern_mut_ref_slow (p : TypeInternPool) (referent : InternedType) : outcome (InternedType * TypeInternPool) :=
  match mut_ref_map p !! referent with
  | Some existing => mret (existing, p)
  | None => push_entry p (TMutRef referent) (λ i, set_mut_ref_map <[referent := i]>)
  end.
Definition intern_mut_ref (p : TypeInternPool) (referent : InternedType) : outcome (InternedType * TypeInternPool) :=
  match mut_ref_map p !! referent with
  | Some existing => mret (existing, p)
  | None => intern_mut_ref_slow p referent
  end.
Definition intern_slice_slow (p : TypeInternPool) (element : InternedType) : outcome (InternedType * TypeInternPool) :=
  match slice_map p !! element with
  | Some existing => mret (existing, p)
  | None => push_entry p (TSlice element) (λ i, set_slice_map <[element := i]>)
  end.
Definition intern_slice (p : TypeInternPool) (element : InternedType) : outcome (InternedType * TypeInternPool) :=
  match slice_map p !! element with
  | Some existing => mret (existing, p)
  | None => intern_slice_slow p element
  end.
Definition intern_mut_slice_slow (p : TypeInternPool) (element : InternedType) : outcome (InternedType * TypeInternPool) :=
  match mut_slice_map p !! element with
  | Some existing => mret (existing, p)
  | None => push_entry p (TMutSlice element) (λ i, set_mut_slice_map <[element := i]>)
  end.
Definition intern_mut_slice (p : TypeInternPool) (element : InternedType) : outcome (InternedType * TypeInternPool) :=
  match mut_slice_map p !! element with
  | Some existing => mret (existing, p)
  | None => intern_mut_slice_slow p element
  end.
Definition intern_vec_slow (p : TypeInternPool) (element : InternedType) : outcome (InternedType * TypeInternPool) :=
  match vec_map p !! element with
  | Some existing => mret (existing, p)
  | None => push_entry p (TVec element) (λ i, set_vec_map <[element := i]>)
  end.
Definition intern_vec (p : TypeInternPool) (element : InternedType) : outcome (InternedType * TypeInternPool) :=
  match vec_map p !! element with
  | Some existing => mret (existing, p)
  | None => intern_vec_slow p element
  end.

(** ** Nominal types *)

(** An existing entry: [existing.pool_index().expect(..)] and [false]. *)
Definition existing_id (p : TypeInternPool) (existing : InternedType)
    : outcome (Z * bool * TypeInternPool) :=
  i ← expect (pool_index existing); mret (i, false, p).
Definition new_id (p : TypeInternPool) (data : TypeData)
    (reg : InternedType → TypeInternPool → TypeInternPool)
    : outcome (Z * bool * TypeInternPool) :=
  let i := wrap 32 (Z.of_nat (length (types p))) in
  '(_, p') ← push_entry p data reg; mret (i, true, p').

Definition register_struct_slow (p : TypeInternPool) (name : Spur) (def : StructDef)
    : outcome (Z * bool * TypeInternPool) :=
  match struct_by_name p !! name with
  | Some existing => existing_id p existing
  | None => new_id p (TStruct (MkStructData name def)) (λ i, set_struct_by_name <[name := i]>)
  end.
Definition register_struct (p : TypeInternPool) (name : Spur) (def : StructDef)
    : outcome (Z * bool * TypeInternPool) :=
  match struct_by_name p !! name with
  | Some existing => existing_id p existing
  | None => register_struct_slow p name def
  end.
Definition register_enum_slow (p : TypeInternPool) (name : Spur) (def : EnumDef)
    : outcome (Z * bool * TypeInternPool) :=
  match enum_by_name p !! name with
  | Some existing => existing_id p existing
  | None => new_id p (TEnum (MkEnumData name def)) (λ i, set_enum_by_name <[name := i]>)
  end.
Definition register_enum (p : TypeInternPool) (name : Spur) (def : EnumDef)
    : outcome (Z * bool * TypeInternPool) :=
  match enum_by_name p !! name with
  | Some existing => existing_id p existing
  | None => register_enum_slow p name def
  end.

(** [reserve_struct_id]: pushes a placeholder that no name map points to. *)
Definition placeholder_def : StructDef :=
  MkStructDef "" [] Affine false Sync None false false 0 false.
Definition reserve_struct_id (p : TypeInternPool) : Z * TypeInternPool :=
  (wrap 32 (Z.of_nat (length (types p))),
   set_types (λ l, l ++ [TStruct (MkStructData spur_default placeholder_def)]) p).

(** [complete_struct_registration]: asserts the index in range and the name
    free, overwrites the slot and registers the name. *)
Definition complete_struct_registration (p : TypeInternPool) (struct_id : Z) (name : Spur)
    (def : StructDef) : outcome TypeInternPool :=
  if decide (struct_id < Z.of_nat (length (types p))) then
    match struct_by_name p !! name with
    | Some _ => Panic
    | None =>
        interned ← from_pool_index struct_id;
        mret (set_struct_by_name <[name := interned]>
               (set_types <[Z.to_nat struct_id := TStruct (MkStructData name def)]> p))
    end
  else Panic.

(** ** Lookups *)
Definition get_struct_by_name (p : TypeInternPool) (name : Spur) := struct_by_name p !! name.
Definition get_enum_by_name (p : TypeInternPool) (name : Spur) := enum_by_name p !! name.
Definition get_array (p : TypeInternPool) (element : InternedType) (len : Z) :=
  array_map p !! (element, len).

(** [types[i]]. *)
Definition entry (p : TypeInternPool) (i : Z) : outcome TypeData :=
  if decide (0 ≤ i) then expect (types p !! Z.to_nat i) else Panic.

(** [TypeInternPool::get]. *)
Definition get (p : TypeInternPool) (t : InternedType) : outcome (option TypeData) :=
  match pool_index t with
  | None => mret None
  | Some i => d ← entry p i; mret (Some d)
  end.

Definition pool_is_struct (p : TypeInternPool) (t : InternedType) : outcome bool :=
  if is_primitive t then mret false
  else d ← get p t; mret (match d with Some (TStruct _) => true | _ => false end).
Definition pool_is_enum (p : TypeInternPool) (t : InternedType) : outcome bool :=
  if is_primitive t then mret false
  else d ← get p t; mret (match d with Some (TEnum _) => true | _ => false end).
Definition pool_is_array (p : TypeInternPool) (t : InternedType) : outcome bool :=
  if is_primitive t then mret false
  else d ← get p t; mret (match d with Some (TArray _ _) => true | _ => false end).
Definition get_struct_def (p : TypeInternPool) (t : InternedType) : outcome (option StructDef) :=
  d ← get p t; mret (match d with Some (TStruct s) => Some (sdata_def s) | _ => None end).
Definition get_enum_def (p : TypeInternPool) (t : InternedType) : outcome (option EnumDef) :=
  d ← get p t; mret (match d with Some (TEnum e) => Some (edata_def e) | _ => None end).
Definition get_array_info (p : TypeInternPool) (t : InternedType)
    : outcome (option (InternedType * Z)) :=
  d ← get p t; mret (match d with Some (TArray e n) => Some (e, n) | _ => None end).

Definition struct_def (p : TypeInternPool) (struct_id : Z) : outcome StructDef :=
  d ← entry p struct_id; match d with TStruct s => mret (sdata_def s) | _ => Panic end.
Definition enum_def (p : TypeInternPool) (enum_id : Z) : outcome EnumDef :=
  d ← entry p enum_id; match d with TEnum e => mret (edata_def e) | _ => Panic end.

Definition update_struct_def (p : TypeInternPool) (struct_id : Z) (new_def : StructDef)
    : outcome TypeInternPool :=
  d ← entry p struct_id;
  match d with
  | TStruct s =>
      mret (set_types <[Z.to_nat struct_id := TStruct (MkStructData (sdata_name s) new_def)]> p)
  | _ => Panic
  end.
Definition update_enum_def (p : TypeInternPool) (enum_id : Z) (new_def : EnumDef)
    : outcome TypeInternPool :=
  d ← entry p enum_id;
  match d with
  | TEnum e =>
      mret (set_types <[Z.to_nat enum_id := TEnum (MkEnumData (edata_name e) new_def)]> p)
  | _ => Panic
  end.

Definition struct_id_to_interned (struct_id : Z) : outcome InternedType := from_pool_index struct_id.
Definition enum_id_to_interned (enum_id : Z) : outcome InternedType := from_pool_index enum_id.
Definition array_id_to_interned (array_id : Z) : outcome InternedType := from_pool_index array_id.

(** ** Conversions between [Type] and [InternedType] *)

(** [interned_to_type_recursive]: the primitive arm lists the indices 0 to 16
    and panics on every other primitive index. *)
Definition interned_to_type_recursive (t : InternedType) (p : TypeInternPool) : outcome Ty :=
  match pool_index t with
  | None =>
      match it_raw t with
      | 0 => mret Ty.I8
      | 1 => mret Ty.I16
      | 2 => mret Ty.I32
      | 3 => mret Ty.I64
      | 4 => mret Ty.U8
      | 5 => mret Ty.U16
      | 6 => mret Ty.U32
      | 7 => mret Ty.U64
      | 8 => mret Ty.ISIZE
      | 9 => mret Ty.USIZE
      | 10 => mret Ty.F16
      | 11 => mret Ty.F32
      | 12 => mret Ty.F64
      | 13 => mret Ty.BOOL
      | 14 => mret Ty.UNIT
      | 15 => mret Ty.NEVER
      | 16 => mret Ty.ERROR
      | _ => Panic
      end
  | Some i =>
      d ← entry p i;
      mret match d with
      | TStruct _ => new_struct i
      | TEnum _ => new_enum i
      | TArray _ _ => new_array i
      | TPtrConst _ => new_ptr_const i
      | TPtrMut _ => new_ptr_mut i
      | TRef _ => new_ref i
      | TMutRef _ => new_mut_ref i
      | TSlice _ => new_slice i
      | TMutSlice _ => new_mut_slice i
      | TVec _ => new_vec i
      end
  end.

(** [type_to_interned_recursive]. *)
Definition type_to_interned_recursive (ty : Ty) : outcome InternedType :=
  k ← kind ty;
  match k with
  | TypeKind.I8 => mret Interned.I8
  | TypeKind.I16 => mret Interned.I16
  | TypeKind.I32 => mret Interned.I32
  | TypeKind.I64 => mret Interned.I64
  | TypeKind.U8 => mret Interned.U8
  | TypeKind.U16 => mret Interned.U16
  | TypeKind.U32 => mret Interned.U32
  | TypeKind.U64 => mret Interned.U64
  | TypeKind.Isize => mret Interned.ISIZE
  | TypeKind.Usize => mret Interned.USIZE
  | TypeKind.F16 => mret Interned.F16
  | TypeKind.F32 => mret Interned.F32
  | TypeKind.F64 => mret Interned.F64
  | TypeKind.Bool => mret Interned.BOOL
  | TypeKind.Char => mret Interned.CHAR
  | TypeKind.Unit => mret Interned.UNIT
  | TypeKind.Never => mret Interned.NEVER
  | TypeKind.Error => mret Interned.ERROR
  | TypeKind.CSchar => mret Interned.C_SCHAR
  | TypeKind.CShort => mret Interned.C_SHORT
  | TypeKind.CInt => mret Interned.C_INT
  | TypeKind.CLong => mret Interned.C_LONG
  | TypeKind.CLonglong => mret Interned.C_LONGLONG
  | TypeKind.CUchar => mret Interned.C_UCHAR
  | TypeKind.CUshort => mret Interned.C_USHORT
  | TypeKind.CUint => mret Interned.C_UINT
  | TypeKind.CUlong => mret Interned.C_ULONG
  | TypeKind.CUlonglong => mret Interned.C_ULONGLONG
  | TypeKind.CFloat => mret Interned.C_FLOAT
  | TypeKind.CDouble => mret Interned.C_DOUBLE
  | TypeKind.CVoid => mret Interned.C_VOID
  | TypeKind.Struct id | TypeKind.Enum id | TypeKind.Array id | TypeKind.PtrConst id
  | TypeKind.PtrMut id | TypeKind.Ref id | TypeKind.MutRef id | TypeKind.Slice id
  | TypeKind.MutSlice id | TypeKind.Vec id => from_pool_index id
  | TypeKind.Module _ | TypeKind.Interface _ | TypeKind.ComptimeType
  | TypeKind.ComptimeStr | TypeKind.ComptimeInt => Panic
  end.

(** [type_to_interned]: primitives only. *)
Definition type_to_interned (ty : Ty) : outcome (option InternedType) :=
  k ← kind ty;
  mret match k with
  | TypeKind.I8 => Some Interned.I8
  | TypeKind.I16 => Some Interned.I16
  | TypeKind.I32 => Some Interned.I32
  | TypeKind.I64 => Some Interned.I64
  | TypeKind.U8 => Some Interned.U8
  | TypeKind.U16 => Some Interned.U16
  | TypeKind.U32 => Some Interned.U32
  | TypeKind.U64 => Some Interned.U64
  | TypeKind.Isize => Some Interned.ISIZE
  | TypeKind.Usize => Some Interned.USIZE
  | TypeKind.F16 => Some Interned.F16
  | TypeKind.F32 => Some Interned.F32
  | TypeKind.F64 => Some Interned.F64
  | TypeKind.Bool => Some Interned.BOOL
  | TypeKind.Char => Some Interned.CHAR
  | TypeKind.Unit => Some Interned.UNIT
  | TypeKind.Never => Some Interned.NEVER
  | TypeKind.Error => Some Interned.ERROR
  | TypeKind.CSchar => Some Interned.C_SCHAR
  | TypeKind.CShort => Some Interned.C_SHORT
  | TypeKind.CInt => Some Interned.C_INT
  | TypeKind.CLong => Some Interned.C_LONG
  | TypeKind.CLonglong => Some Interned.C_LONGLONG
  | TypeKind.CUchar => Some Interned.C_UCHAR
  | TypeKind.CUshort => Some Interned.C_USHORT
  | TypeKind.CUint => Some Interned.C_UINT
  | TypeKind.CUlong => Some Interned.C_ULONG
  | TypeKind.CUlonglong => Some Interned.C_ULONGLONG
  | TypeKind.CFloat => Some Interned.C_FLOAT
  | TypeKind.CDouble => Some Interned.C_DOUBLE
  | TypeKind.CVoid => Some Interned.C_VOID
  | _ => None
  end.

(** [interned_to_type]: primitives only, [None] on an unused index. *)
Definition interned_to_type (t : InternedType) : option Ty :=
  if negb (is_primitive t) then None
  else match it_raw t with
  | 0 => Some Ty.I8
  | 1 => Some Ty.I16
  | 2 => Some Ty.I32
  | 3 => Some Ty.I64
  | 4 => Some Ty.U8
  | 5 => Some Ty.U16
  | 6 => Some Ty.U32
  | 7 => Some Ty.U64
  | 8 => Some Ty.ISIZE
  | 9 => Some Ty.USIZE
  | 10 => Some Ty.F16
  | 11 => Some Ty.F32
  | 12 => Some Ty.F64
  | 13 => Some Ty.BOOL
  | 14 => Some Ty.UNIT
  | 15 => Some Ty.NEVER
  | 16 => Some Ty.ERROR
  | 20 => Some Ty.CHAR
  | 21 => Some Ty.C_SCHAR
  | 22 => Some Ty.C_SHORT
  | 23 => Some Ty.C_INT
  | 24 => Some Ty.C_LONG
  | 25 => Some Ty.C_LONGLONG
  | 26 => Some Ty.C_UCHAR
  | 27 => Some Ty.C_USHORT
  | 28 => Some Ty.C_UINT
  | 29 => Some Ty.C_ULONG
  | 30 => Some Ty.C_ULONGLONG
  | 31 => Some Ty.C_FLOAT
  | 32 => Some Ty.C_DOUBLE
  | 33 => Some Ty.C_VOID
  | _ => None
  end.

(** ** [.._def] and [intern_.._from_type] *)
Definition array_def (p : TypeInternPool) (array_id : Z) : outcome (Ty * Z) :=
  d ← entry p array_id;
  match d with
  | TArray element len => ty ← interned_to_type_recursive element p; mret (ty, len)
  | _ => Panic
  end.
Definition intern_array_from_type (p : TypeInternPool) (element_type : Ty) (len : Z)
    : outcome (Z * TypeInternPool) :=
  element_interned ← type_to_interned_recursive element_type;
  '(array_interned, p') ← intern_array p element_interned len;
  i ← expect (pool_index array_interned);
  mret (i, p').
Definition get_array_by_type (p : TypeInternPool) (element_type : Ty) (len : Z)
    : outcome (option Z) :=
  element_interned ← type_to_interned_recursive element_type;
  match array_map p !! (element_interned, len) with
  | None => mret None
  | Some array_interned => i ← expect (pool_index array_interned); mret (Some i)
  end.
Definition ptr_const_def (p : TypeInternPool) (id : Z) : outcome Ty :=
  d ← entry p id;
  match d with TPtrConst pointee => interned_to_type_recursive pointee p | _ => Panic end.
Definition intern_ptr_const_from_type (p : TypeInternPool) (pointee_type : Ty) : outcome (Z * TypeInternPool) :=
  pointee_interned ← type_to_interned_recursive pointee_type;
  '(interned, p') ← intern_ptr_const p pointee_interned;
  i ← expect (pool_index interned);
  mret (i, p').
Definition ptr_mut_def (p : TypeInternPool) (id : Z) : outcome Ty :=
  d ← entry p id;
  match d with TPtrMut pointee => interned_to_type_recursive pointee p | _ => Panic end.
Definition intern_ptr_mut_from_type (p : TypeInternPool) (pointee_type : Ty) : outcome (Z * TypeInternPool) :=
  pointee_interned ← type_to_interned_recursive pointee_type;
  '(interned, p') ← intern_ptr_mut p pointee_interned;
  i ← expect (pool_index interned);
  mret (i, p').
Definition ref_def (p : TypeInternPool) (id : Z) : outcome Ty :=
  d ← entry p id;
  match d with TRef referent => interned_to_type_recursive referent p | _ => Panic end.
Definition intern_ref_from_type (p : TypeInternPool) (referent_type : Ty) : outcome (Z * TypeInternPool) :=
  referent_interned ← type_to_interned_recursive referent_type;
  '(interned, p') ← intern_ref p referent_interned;
  i ← expect (pool_index interned);
  mret (i, p').
Definition mut_ref_def (p : TypeInternPool) (id : Z) : outcome Ty :=
  d ← entry p id;
  match d with TMutRef referent => interned_to_type_recursive referent p | _ => Panic end.
Definition intern_mut_ref_from_type (p : TypeInternPool) (referent_type : Ty) : outcome (Z * TypeInternPool) :=
  referent_interned ← type_to_interned_recursive referent_type;
  '(interned, p') ← intern_mut_ref p referent_interned;
  i ← expect (pool_index interned);
  mret (i, p').
Definition slice_def (p : TypeInternPool) (id : Z) : outcome Ty :=
  d ← entry p id;
  match d with TSlice element => interned_to_type_recursive element p | _ => Panic end.
Definition intern_slice_from_type (p : TypeInternPool) (element_type : Ty) : outcome (Z * TypeInternPool) :=
  element_interned ← type_to_interned_recursive element_type;
  '(interned, p') ← intern_slice p element_interned;
  i ← expect (pool_index interned);
  mret (i, p').
Definition mut_slice_def (p : TypeInternPool) (id : Z) : outcome Ty :=
  d ← entry p id;
  match d with TMutSlice element => interned_to_type_recursive element p | _ => Panic end.
Definition intern_mut_slice_from_type (p : TypeInternPool) (element_type : Ty) : outcome (Z * TypeInternPool) :=
  element_interned ← type_to_interned_recursive element_type;
  '(interned, p') ← intern_mut_slice p element_interned;
  i ← expect (pool_index interned);
  mret (i, p').
Definition vec_def (p : TypeInternPool) (id : Z) : outcome Ty :=
  d ← entry p id;
  match d with TVec element => interned_to_type_recursive element p | _ => Panic end.
Definition intern_vec_from_type (p : TypeInternPool) (element_type : Ty) : outcome (Z * TypeInternPool) :=
  element_interned ← type_to_interned_recursive element_type;
  '(interned, p') ← intern_vec p element_interned;
  i ← expect (pool_index interned);
  mret (i, p').

(** ** Whole-pool queries *)

Definition all_vec_ids (p : TypeInternPool) : list Z :=
  omap (λ '(i, td), match td with TVec _ => Some (wrap 32 (Z.of_nat i)) | _ => None end)
       (imap pair (types p)).
Definition all_array_ids (p : TypeInternPool) : list Z :=
  omap (λ '(i, td), match td with TArray _ _ => Some (wrap 32 (Z.of_nat i)) | _ => None end)
       (imap pair (types p)).
(** [all_struct_ids], [all_enum_ids]: the values of a hash map, in the order
    the map enumerates them. *)
Definition all_struct_ids (p : TypeInternPool) : outcome (list Z) :=
  mapM (λ '(_, t), expect (pool_index t)) (map_to_list (struct_by_name p)).
Definition all_enum_ids (p : TypeInternPool) : outcome (list Z) :=
  mapM (λ '(_, t), expect (pool_index t)) (map_to_list (enum_by_name p)).
Definition pool_len (p : TypeInternPool) : nat := length (types p).
Definition pool_is_empty (p : TypeInternPool) : bool := Nat.eqb (pool_len p) 0.

Record TypeInternPoolStats : Set := MkStats {
  struct_count : nat; enum_count : nat; array_count : nat; total : nat }.
Definition stats (p : TypeInternPool) : TypeInternPoolStats :=
  let '(s, e, a) := foldl (λ '(s, e, a) d,
    match d with
    | TStruct _ => (S s, e, a)
    | TEnum _ => (s, S e, a)
    | TArray _ _ => (s, e, S a)
    | _ => (s, e, a)
    end) (0, 0, 0)%nat (types p) in
  MkStats s e a (length (types p)).

(** ** Snapshot

    One iteration of the rebuild loop of [clone_snapshot] and of the
    [Deserialize] instance. *)
Definition rebuild_step (p : TypeInternPool) (data : TypeData) : outcome TypeInternPool :=
  i ← checked_add 32 PRIMITIVE_COUNT (wrap 32 (Z.of_nat (length (types p))));
  let idx := MkInterned i in
  let p' := match data with
    | TStruct s => set_struct_by_name <[sdata_name s := idx]> p
    | TEnum e => set_enum_by_name <[edata_name e := idx]> p
    | TArray element len => set_array_map <[(element, len) := idx]> p
    | TPtrConst pointee => set_ptr_const_map <[pointee := idx]> p
    | TPtrMut pointee => set_ptr_mut_map <[pointee := idx]> p
    | TRef referent => set_ref_map <[referent := idx]> p
    | TMutRef referent => set_mut_ref_map <[referent := idx]> p
    | TSlice element => set_slice_map <[element := idx]> p
    | TMutSlice element => set_mut_slice_map <[element := idx]> p
    | TVec element => set_vec_map <[element := idx]> p
    end in
  mret (set_types (λ l, l ++ [data]) p').
Definition deserialize (wire_types : list TypeData) : outcome TypeInternPool :=
  foldM rebuild_step new_pool wire_types.
Definition serialize (p : TypeInternPool) : list TypeData := types p.
Definition clone_snapshot (p : TypeInternPool) : outcome TypeInternPool :=
  foldM rebuild_step new_pool (types p).

(** ** Recursive queries over the pool, on fuel *)

(** [is_thread_safety_type]. *)
Fixpoint is_thread_safety_type (fuel : nat) (p : TypeInternPool) (ty : Ty)
    : outcome ThreadSafety :=
  match fuel with
  | O => NoFuel
  | S fuel =>
    k ← kind ty;
    match k with
    | TypeKind.PtrConst _ | TypeKind.PtrMut _ => mret Unsend
    | TypeKind.Array id => '(e, _) ← array_def p id; is_thread_safety_type fuel p e
    | TypeKind.Slice id => e ← slice_def p id; is_thread_safety_type fuel p e
    | TypeKind.MutSlice id => e ← mut_slice_def p id; is_thread_safety_type fuel p e
    | TypeKind.Vec id => e ← vec_def p id; is_thread_safety_type fuel p e
    | TypeKind.Ref id => r ← ref_def p id; is_thread_safety_type fuel p r
    | TypeKind.MutRef id => r ← mut_ref_def p id; is_thread_safety_type fuel p r
    | TypeKind.Struct id => d ← struct_def p id; mret (sd_thread_safety d)
    | TypeKind.Enum id => d ← enum_def p id; mret (ed_thread_safety d)
    | _ => mret Sync
    end
  end.

(** A short-circuiting [iter().any(f)] for an [f] that can panic. *)
Fixpoint anyM {A} (f : A → outcome bool) (l : list A) : outcome bool :=
  match l with
  | [] => mret false
  | x :: l => b ← f x; if (b : bool) then mret true else anyM f l
  end.

(** [is_type_linear]. *)
Fixpoint is_type_linear (fuel : nat) (p : TypeInternPool) (ty : Ty) : outcome bool :=
  match fuel with
  | O => NoFuel
  | S fuel =>
    k ← kind ty;
    match k with
    | TypeKind.Struct id => d ← struct_def p id; mret (bool_decide (sd_posture d = Linear))
    | TypeKind.Array id =>
        '(e, len) ← array_def p id;
        if (0 <? len : bool) then is_type_linear fuel p e else mret false
    | TypeKind.Vec id => e ← vec_def p id; is_type_linear fuel p e
    | TypeKind.Enum id =>
        d ← enum_def p id;
        if bool_decide (ed_posture d = Linear) then mret true
        else anyM (λ v, anyM (is_type_linear fuel p) (ev_fields v)) (ed_variants d)
    | _ => mret false
    end
  end.

(** [abi_slot_count]: [u32] sums and products. *)
Fixpoint abi_slot_count (fuel : nat) (p : TypeInternPool) (ty : Ty) : outcome Z :=
  match fuel with
  | O => NoFuel
  | S fuel =>
    k ← kind ty;
    match k with
    | TypeKind.Struct id =>
        d ← struct_def p id;
        foldM (λ acc f, n ← abi_slot_count fuel p (sf_ty f); checked_add 32 acc n) 0 (sd_fields d)
    | TypeKind.Array id =>
        '(elem, len) ← array_def p id;
        n ← abi_slot_count fuel p elem;
        checked_mul 32 n (wrap 32 len)
    | TypeKind.Unit | TypeKind.Never | TypeKind.ComptimeType | TypeKind.ComptimeStr
    | TypeKind.ComptimeInt | TypeKind.Module _ => mret 0
    | TypeKind.Slice _ | TypeKind.MutSlice _ | TypeKind.Interface _ => mret 2
    | TypeKind.Vec _ => mret 3
    | _ => mret 1
    end
  end.

(** [format_type_name]. *)
Fixpoint format_type_name (fuel : nat) (p : TypeInternPool) (ty : Ty) : outcome string :=
  match fuel with
  | O => NoFuel
  | S fuel =>
    let wrapped (pre : string) (m : outcome Ty) : outcome string :=
      t ← m; s ← format_type_name fuel p t; mret (pre +:+ "(" +:+ s +:+ ")")%string in
    k ← kind ty;
    match k with
    | TypeKind.Struct id => d ← struct_def p id; mret (sd_name d)
    | TypeKind.Enum id => d ← enum_def p id; mret (ed_name d)
    | TypeKind.Array id =>
        '(elem, len) ← array_def p id;
        s ← format_type_name fuel p elem;
        mret ("[" +:+ s +:+ "; " +:+ pretty (Z.to_N len) +:+ "]")%string
    | TypeKind.PtrConst id => wrapped "Ptr" (ptr_const_def p id)
    | TypeKind.PtrMut id => wrapped "MutPtr" (ptr_mut_def p id)
    | TypeKind.Ref id => wrapped "Ref" (ref_def p id)
    | TypeKind.MutRef id => wrapped "MutRef" (mut_ref_def p id)
    | TypeKind.Slice id => wrapped "Slice" (slice_def p id)
    | TypeKind.MutSlice id => wrapped "MutSlice" (mut_slice_def p id)
    | TypeKind.Vec id => wrapped "Vec" (vec_def p id)
    | TypeKind.Interface id => mret ("<interface#" +:+ pretty (Z.to_N id) +:+ ">")%string
    | k => mret (kind_name k)
    end
  end.

(** ** Keys: the identity of a composite type

    A structural type is identified by its contents, a nominal one by its name.
    [lookup_key] reads the map that deduplicates types of that shape. *)
Inductive Key : Type :=
  | KStruct (n : Spur)
  | KEnum (n : Spur)
  | KArray (e : InternedType) (len : Z)
  | KPtrConst (t : InternedType)
  | KPtrMut (t : InternedType)
  | KRef (t : InternedType)
  | KMutRef (t : InternedType)
  | KSlice (t : InternedType)
  | KMutSlice (t : InternedType)
  | KVec (t : InternedType).

#[export] Instance Key_eq_dec : EqDecision Key.
Proof. solve_decision. Defined.

Definition key_of (d : TypeData) : Key :=
  match d with
  | TStruct s => KStruct (sdata_name s)
  | TEnum e => KEnum (edata_name e)
  | TArray e len => KArray e len
  | TPtrConst t => KPtrConst t
  | TPtrMut t => KPtrMut t
  | TRef t => KRef t
  | TMutRef t => KMutRef t
  | TSlice t => KSlice t
  | TMutSlice t => KMutSlice t
  | TVec t => KVec t
  end.

Definition lookup_key (p : TypeInternPool) (k : Key) : option InternedType :=
  match k with
  | KStruct n => struct_by_name p !! n
  | KEnum n => enum_by_name p !! n
  | KArray e len => array_map p !! (e, len)
  | KPtrConst t => ptr_const_map p !! t
  | KPtrMut t => ptr_mut_map p !! t
  | KRef t => ref_map p !! t
  | KMutRef t => mut_ref_map p !! t
  | KSlice t => slice_map p !! t
  | KMutSlice t => mut_slice_map p !! t
  | KVec t => vec_map p !! t
  end.

Definition reg_key (k : Key) (i : InternedType) : TypeInternPool → TypeInternPool :=
  match k with
  | KStruct n => set_struct_by_name <[n := i]>
  | KEnum n => set_enum_by_name <[n := i]>
  | KArray e len => set_array_map <[(e, len) := i]>
  | KPtrConst t => set_ptr_const_map <[t := i]>
  | KPtrMut t => set_ptr_mut_map <[t := i]>
  | KRef t => set_ref_map <[t := i]>
  | KMutRef t => set_mut_ref_map <[t := i]>
  | KSlice t => set_slice_map <[t := i]>
  | KMutSlice t => set_mut_slice_map <[t := i]>
  | KVec t => set_vec_map <[t := i]>
  end.

Lemma lookup_reg_key k i p k' :
  lookup_key (reg_key k i p) k' = if decide (k = k') then Some i else lookup_key p k'.
Proof.
  case_decide as Hk; [subst k'; destruct k; simpl; by rewrite lookup_insert_eq|].
  destruct k, k'; simpl; try done; rewrite lookup_insert_ne; congruence.
Qed.

Lemma types_reg_key k i p : types (reg_key k i p) = types p.
Proof. by destruct k. Qed.
Lemma layout_cache_reg_key k i p : layout_cache (reg_key k i p) = layout_cache p.
Proof. by destruct k. Qed.
Lemma lookup_set_types f p k : lookup_key (set_types f p) k = lookup_key p k.
Proof. by destruct k. Qed.

Lemma pool_ext p q :
  types p = types q → layout_cache p = layout_cache q →
  (∀ k, lookup_key p k = lookup_key q k) → p = q.
Proof.
  destruct p, q; simpl; intros -> -> Hk.
  f_equal; apply map_eq; intros x;
    first [ apply (Hk (KArray x.1 x.2)) | destruct x as [e len]; exact (Hk (KArray e len))
          | exact (Hk (KPtrConst x)) | exact (Hk (KPtrMut x)) | exact (Hk (KRef x))
          | exact (Hk (KMutRef x)) | exact (Hk (KSlice x)) | exact (Hk (KMutSlice x))
          | exact (Hk (KVec x)) | exact (Hk (KStruct x)) | exact (Hk (KEnum x)) ].
Qed.

(** ** The pool invariant

    Every map points exactly at the entries of its shape, and indices stay
    within what a [u32] interned index can hold. *)
Definition interned_at (i : nat) : InternedType := MkInterned (PRIMITIVE_COUNT + Z.of_nat i).

Record pool_wf (p : TypeInternPool) : Prop := {
  wf_len : Z.of_nat (length (types p)) ≤ 2 ^ 32 - PRIMITIVE_COUNT;
  wf_keys k t : lookup_key p k = Some t ↔
    ∃ i, key_of <$> types p !! i = Some k ∧ t = interned_at i;
}.

Lemma interned_at_inj i j : interned_at i = interned_at j → i = j.
Proof. unfold interned_at. intros [= ?]. lia. Qed.

Lemma pool_index_interned_at i : pool_index (interned_at i) = Some (Z.of_nat i).
Proof.
  unfold pool_index, interned_at, is_primitive; simpl. unfold PRIMITIVE_COUNT.
  destruct (Z.ltb_spec (34 + Z.of_nat i) 34); [lia|]. f_equal. lia.
Qed.

Lemma new_pool_wf : pool_wf new_pool.
Proof.
  split; [by vm_compute|]. intros k t. split.
  - intros Hl. by destruct k.
  - intros (i & Hi & _). by destruct i.
Qed.

Lemma wf_key_unique p i j d e :
  pool_wf p → types p !! i = Some d → types p !! j = Some e → key_of d = key_of e → i = j.
Proof.
  intros Hwf Hi Hj Hk.
  assert (lookup_key p (key_of d) = Some (interned_at i))
    by (apply (wf_keys _ Hwf); exists i; by rewrite Hi).
  assert (lookup_key p (key_of d) = Some (interned_at j))
    by (apply (wf_keys _ Hwf); exists j; rewrite Hj, Hk; done).
  apply interned_at_inj. congruence.
Qed.

Lemma fresh_key p k :
  pool_wf p → lookup_key p k = None ↔ k ∉ key_of <$> types p.
Proof.
  intros Hwf. rewrite eq_None_not_Some. apply not_iff_compat. split.
  - intros [t (i & Hi & _)%(wf_keys _ Hwf)]. rewrite <- list_lookup_fmap in Hi.
    by eapply list_elem_of_lookup_2.
  - intros [i Hi]%list_elem_of_lookup. exists (interned_at i). apply (wf_keys _ Hwf).
    exists i. by rewrite list_lookup_fmap in Hi.
Qed.

(** Pushing an entry with a fresh key. *)
Lemma from_pool_index_len p :
  Z.of_nat (length (types p)) < 2 ^ 32 - PRIMITIVE_COUNT →
  from_pool_index (wrap 32 (Z.of_nat (length (types p)))) = Done (interned_at (length (types p))).
Proof.
  unfold PRIMITIVE_COUNT. intros Hl. unfold from_pool_index, checked_add.
  rewrite wrap_small by (unfold in_u; lia). unfold PRIMITIVE_COUNT.
  rewrite decide_True by (unfold in_u; lia). simpl. unfold interned_at, PRIMITIVE_COUNT.
  do 2 f_equal. lia.
Qed.

Lemma from_pool_index_len_Done p t :
  Z.of_nat (length (types p)) ≤ 2 ^ 32 - PRIMITIVE_COUNT →
  from_pool_index (wrap 32 (Z.of_nat (length (types p)))) = Done t →
  Z.of_nat (length (types p)) < 2 ^ 32 - PRIMITIVE_COUNT ∧ t = interned_at (length (types p)).
Proof.
  intros Hle Hf.
  assert (Hlt : Z.of_nat (length (types p)) < 2 ^ 32 - PRIMITIVE_COUNT).
  { unfold from_pool_index in Hf. simplify_done. unfold PRIMITIVE_COUNT, in_u in *.
    rewrite wrap_small in * by (unfold in_u; lia). lia. }
  split; [done|]. rewrite from_pool_index_len in Hf by done. congruence.
Qed.

Lemma wf_push p d :
  pool_wf p → Z.of_nat (length (types p)) < 2 ^ 32 - PRIMITIVE_COUNT →
  lookup_key p (key_of d) = None →
  pool_wf (reg_key (key_of d) (interned_at (length (types p))) (set_types (λ l, l ++ [d]) p)).
Proof.
  intros Hwf Hlen Hfresh. split.
  - rewrite types_reg_key; simpl. rewrite length_app; simpl. lia.
  - intros k t. rewrite lookup_reg_key, lookup_set_types, types_reg_key; simpl.
    case_decide as Hk.
    + subst k. split.
      * intros [= <-]. exists (length (types p)).
        rewrite lookup_app_r, Nat.sub_diag by done. done.
      * intros (i & Hi & ->). f_equal. f_equal.
        destruct (decide (i < length (types p))%nat) as [Hlt|Hge].
        -- rewrite lookup_app_l in Hi by done. apply (fresh_key p) in Hfresh; [|done].
           destruct Hfresh. rewrite <- list_lookup_fmap in Hi. by eapply list_elem_of_lookup_2.
        -- assert (i < length (types p ++ [d]))%nat as Hi'.
           { apply fmap_Some in Hi as (? & Hi & _). by apply lookup_lt_Some in Hi. }
           rewrite length_app in Hi'; simpl in Hi'. lia.
    + rewrite (wf_keys _ Hwf). split.
      * intros (i & Hi & ->). exists i. split; [|done].
        apply fmap_Some in Hi as (d' & Hd' & ->). by rewrite (lookup_app_l_Some _ _ _ _ Hd').
      * intros (i & Hi & ->). exists i. split; [|done].
        apply fmap_Some in Hi as (d' & Hd' & ->).
        apply lookup_app_Some in Hd' as [Hd'|(Hge & Hd')]; [by rewrite Hd'|].
        apply list_lookup_singleton_Some in Hd' as [_ <-]. done.
Qed.

(** ** The abstract interning table

    What the pool promises its clients: a duplicate-free table of keys in which
    interning returns the position of the key, appending it when it is new. *)
Definition intern_table (s : list Key) (k : Key) : nat * list Key :=
  match list_find (λ x, x = k) s with
  | Some (i, _) => (i, s)
  | None => (length s, s ++ [k])
  end.
Definition abs (p : TypeInternPool) : list Key := key_of <$> types p.

(** One interning request, by the entry it would create. *)
Inductive pool_op : Type :=
  | OpArray (e : InternedType) (len : Z)
  | OpPtrConst (t : InternedType)
  | OpPtrMut (t : InternedType)
  | OpRef (t : InternedType)
  | OpMutRef (t : InternedType)
  | OpSlice (t : InternedType)
  | OpMutSlice (t : InternedType)
  | OpVec (t : InternedType)
  | OpStruct (n : Spur) (d : StructDef)
  | OpEnum (n : Spur) (d : EnumDef).

Definition op_data (op : pool_op) : TypeData :=
  match op with
  | OpArray e len => TArray e len
  | OpPtrConst t => TPtrConst t
  | OpPtrMut t => TPtrMut t
  | OpRef t => TRef t
  | OpMutRef t => TMutRef t
  | OpSlice t => TSlice t
  | OpMutSlice t => TMutSlice t
  | OpVec t => TVec t
  | OpStruct n d => TStruct (MkStructData n d)
  | OpEnum n d => TEnum (MkEnumData n d)
  end.
Definition op_key (op : pool_op) : Key := key_of (op_data op).

(** The pool index a structural operation yields. *)
Definition to_index (m : outcome (InternedType * TypeInternPool)) : outcome (Z * TypeInternPool) :=
  '(t, p') ← m; i ← expect (pool_index t); mret (i, p').
Definition to_index' (m : outcome (Z * bool * TypeInternPool)) : outcome (Z * TypeInternPool) :=
  '(i, _, p') ← m; mret (i, p').

Definition run_op (p : TypeInternPool) (op : pool_op) : outcome (Z * TypeInternPool) :=
  match op with
  | OpArray e len => to_index (intern_array p e len)
  | OpPtrConst t => to_index (intern_ptr_const p t)
  | OpPtrMut t => to_index (intern_ptr_mut p t)
  | OpRef t => to_index (intern_ref p t)
  | OpMutRef t => to_index (intern_mut_ref p t)
  | OpSlice t => to_index (intern_slice p t)
  | OpMutSlice t => to_index (intern_mut_slice p t)
  | OpVec t => to_index (intern_vec p t)
  | OpStruct n d => to_index' (register_struct p n d)
  | OpEnum n d => to_index' (register_enum p n d)
  end.

(** The part of an operation that runs under the exclusive lock. *)
Definition run_op_slow (p : TypeInternPool) (op : pool_op) : outcome (Z * TypeInternPool) :=
  match op with
  | OpArray e len => to_index (intern_array_slow p e len)
  | OpPtrConst t => to_index (intern_ptr_const_slow p t)
  | OpPtrMut t => to_index (intern_ptr_mut_slow p t)
  | OpRef t => to_index (intern_ref_slow p t)
  | OpMutRef t => to_index (intern_mut_ref_slow p t)
  | OpSlice t => to_index (intern_slice_slow p t)
  | OpMutSlice t => to_index (intern_mut_slice_slow p t)
  | OpVec t => to_index (intern_vec_slow p t)
  | OpStruct n d => to_index' (register_struct_slow p n d)
  | OpEnum n d => to_index' (register_enum_slow p n d)
  end.

(** All ten operations have one shape. *)
Definition intern_generic (p : TypeInternPool) (d : TypeData) : outcome (Z * TypeInternPool) :=
  match lookup_key p (key_of d) with
  | Some t => i ← expect (pool_index t); mret (i, p)
  | None => to_index (push_entry p d (reg_key (key_of d)))
  end.

Lemma new_id_generic p d reg :
  to_index' (new_id p d reg) = to_index (push_entry p d reg).
Proof.
  unfold to_index', new_id, to_index, push_entry, from_pool_index, checked_add.
  pose proof (wrap_in_u 32 (Z.of_nat (length (types p))) ltac:(lia)) as [Hw _].
  case_decide; simpl; [|done]. unfold pool_index, is_primitive, PRIMITIVE_COUNT in *; simpl.
  destruct (Z.ltb_spec (wrap 32 (Z.of_nat (length (types p))) + 34) 34); [lia|]. simpl.
  do 2 f_equal. lia.
Qed.

Lemma existing_id_generic p t :
  to_index' (existing_id p t) = i ← expect (pool_index t); mret (i, p).
Proof. unfold to_index', existing_id. by destruct (pool_index t). Qed.

Lemma run_op_slow_generic p op : run_op_slow p op = intern_generic p (op_data op).
Proof.
  destruct op; unfold run_op_slow, intern_generic; simpl;
    [unfold intern_array_slow|unfold intern_ptr_const_slow|unfold intern_ptr_mut_slow
    |unfold intern_ref_slow|unfold intern_mut_ref_slow|unfold intern_slice_slow
    |unfold intern_mut_slice_slow|unfold intern_vec_slow
    |unfold register_struct_slow|unfold register_enum_slow];
    case_match; try rewrite new_id_generic; try rewrite existing_id_generic; reflexivity.
Qed.

Lemma run_op_generic p op : run_op p op = intern_generic p (op_data op).
Proof.
  rewrite <- run_op_slow_generic.
  destruct op; unfold run_op, run_op_slow;
    [unfold intern_array, intern_array_slow|unfold intern_ptr_const, intern_ptr_const_slow
    |unfold intern_ptr_mut, intern_ptr_mut_slow|unfold intern_ref, intern_ref_slow
    |unfold intern_mut_ref, intern_mut_ref_slow|unfold intern_slice, intern_slice_slow
    |unfold intern_mut_slice, intern_mut_slice_slow|unfold intern_vec, intern_vec_slow
    |unfold register_struct, register_struct_slow|unfold register_enum, register_enum_slow];
    case_match; reflexivity.
Qed.

(** The table view of a well-formed pool. *)
Lemma abs_lookup p k i :
  pool_wf p → lookup_key p k = Some (interned_at i) ↔ abs p !! i = Some k.
Proof.
  intros Hwf. rewrite (wf_keys _ Hwf). unfold abs. rewrite list_lookup_fmap. split.
  - intros (j & Hj & ->%interned_at_inj). done.
  - intros Hi. by exists i.
Qed.

Lemma abs_NoDup p : pool_wf p → NoDup (abs p).
Proof.
  intros Hwf. apply NoDup_alt. intros i j k Hi Hj.
  apply (abs_lookup _ _ _ Hwf) in Hi, Hj. apply interned_at_inj. congruence.
Qed.

Lemma intern_table_spec s k i s' :
  NoDup s → intern_table s k = (i, s') → NoDup s' ∧ s' !! i = Some k ∧ s `prefix_of` s'.
Proof.
  intros Hnd. unfold intern_table. destruct (list_find _ s) as [[j x]|] eqn:Hf.
  - apply list_find_Some in Hf as (Hj & -> & _). intros [= <- <-]. done.
  - apply list_find_None in Hf. intros [= <- <-]. split_and!.
    + apply NoDup_app. split_and!; [done| |apply NoDup_singleton].
      intros x Hx ->%list_elem_of_singleton. rewrite Forall_forall in Hf. by apply (Hf k Hx).
    + by rewrite lookup_app_r, Nat.sub_diag by done.
    + by exists [k].
Qed.

Lemma intern_table_found s k i :
  NoDup s → s !! i = Some k → intern_table s k = (i, s).
Proof.
  intros Hnd Hi. unfold intern_table. destruct (list_find _ s) as [[j x]|] eqn:Hf.
  - apply list_find_Some in Hf as (Hj & -> & _). f_equal. by eapply NoDup_lookup.
  - apply list_find_None in Hf. rewrite Forall_forall in Hf.
    destruct (Hf k); [by eapply list_elem_of_lookup_2|done].
Qed.

Lemma intern_table_fresh s k : k ∉ s → intern_table s k = (length s, s ++ [k]).
Proof.
  intros Hk. unfold intern_table. destruct (list_find _ s) as [[j x]|] eqn:Hf; [|done].
  apply list_find_Some in Hf as (Hj & -> & _). destruct Hk. by eapply list_elem_of_lookup_2.
Qed.

Lemma intern_generic_Done p d i p' :
  pool_wf p → intern_generic p d = Done (i, p') →
  pool_wf p' ∧ layout_cache p' = layout_cache p ∧
  (types p' = types p ∨ types p' = types p ++ [d]) ∧
  ∃ n, i = Z.of_nat n ∧ intern_table (abs p) (key_of d) = (n, abs p').
Proof.
  intros Hwf. unfold intern_generic. destruct (lookup_key p (key_of d)) as [t|] eqn:Hl.
  - intros Hd. simplify_done. split_and!; [done|done|by left|].
    pose proof Hl as (n & Hn & ->)%(wf_keys _ Hwf). rewrite pool_index_interned_at in *.
    simplify_eq. exists n. split; [done|]. apply intern_table_found; [by apply abs_NoDup|].
    by apply abs_lookup.
  - unfold to_index, push_entry. intros Hd. simplify_done. simpl in *. simplify_done.
    match goal with H : from_pool_index _ = Done _ |- _ =>
      apply (from_pool_index_len_Done p) in H as [Hlt ->]; [|apply Hwf] end.
    rewrite pool_index_interned_at in *. simplify_eq.
    split_and!; [by apply wf_push|by rewrite layout_cache_reg_key|right; by rewrite types_reg_key|].
    exists (length (types p)). split; [done|]. unfold abs at 2. rewrite types_reg_key; simpl.
    rewrite fmap_app; simpl. change (key_of <$> types p) with (abs p).
    rewrite intern_table_fresh; [unfold abs; by rewrite length_fmap|].
    by apply fresh_key.
Qed.

Lemma intern_generic_total p d :
  pool_wf p → Z.of_nat (length (types p)) < 2 ^ 32 - PRIMITIVE_COUNT →
  ∃ i p', intern_generic p d = Done (i, p').
Proof.
  intros Hwf Hlen. unfold intern_generic. destruct (lookup_key p (key_of d)) as [t|] eqn:Hl.
  - apply (wf_keys _ Hwf) in Hl as (n & Hn & ->). rewrite pool_index_interned_at. by repeat eexists.
  - unfold to_index, push_entry. rewrite from_pool_index_len by done. simpl.
    rewrite pool_index_interned_at. by repeat eexists.
Qed.

(** Running a sequence of requests. *)
Definition run_ops (p : TypeInternPool) (ops : list pool_op) : outcome (list Z * TypeInternPool) :=
  foldM (λ '(ids, p) op, '(i, p') ← run_op p op; mret (ids ++ [i], p')) ([], p) ops.

Lemma run_ops_snoc p ops op :
  run_ops p (ops ++ [op]) =
  '(ids, q) ← run_ops p ops; '(i, q') ← run_op q op; mret (ids ++ [i], q').
Proof.
  unfold run_ops. rewrite foldM_app. destruct (foldM _ _ ops) as [[ids q]| |]; [|done..]; simpl.
  destruct (run_op q op) as [[i q']| |]; done.
Qed.

(** Each answer is the table position of the key asked for. *)
Lemma run_ops_spec ops :
  Z.of_nat (length ops) < 2 ^ 32 - PRIMITIVE_COUNT →
  ∃ ids p, run_ops new_pool ops = Done (ids, p) ∧ pool_wf p ∧
    (length (types p) ≤ length ops)%nat ∧
    Forall2 (λ i op, ∃ n, i = Z.of_nat n ∧ abs p !! n = Some (op_key op)) ids ops.
Proof.
  induction ops as [|op ops IH] using rev_ind; intros Hlen.
  - exists [], new_pool. split_and!; [done|apply new_pool_wf|done|constructor].
  - rewrite length_app in Hlen; simpl in Hlen.
    destruct IH as (ids & p & Hrun & Hwf & Hle & Hall); [lia|].
    destruct (intern_generic_total p (op_data op)) as (i & p' & Hi); [done|lia|].
    pose proof (intern_generic_Done _ _ _ _ Hwf Hi) as (Hwf' & _ & Htypes & n & -> & Htab).
    pose proof (intern_table_spec _ _ _ _ (abs_NoDup p Hwf) Htab) as (_ & Hn & Hpre).
    exists (ids ++ [Z.of_nat n]), p'. split_and!; [|done| |].
    + rewrite run_ops_snoc, Hrun; simpl. rewrite run_op_generic, Hi. done.
    + rewrite length_app; simpl. destruct Htypes as [->| ->]; [|rewrite length_app; simpl]; lia.
    + apply Forall2_app; [|constructor; [by exists n|constructor]].
      eapply Forall2_impl; [exact Hall|]. intros j o (m & -> & Hm). exists m. split; [done|].
      by eapply prefix_lookup_Some.
Qed.

(** ** Canonicity *)

(** C5: interning is canonical: every sequence of interning and registration
    requests on a fresh pool that stays within the 32-bit index space runs to
    its end without panicking, and two requests receive the same pool index
    exactly when they ask for the same type (same structure for structural
    types, same name for structs and enums). *)
Theorem interning_canonical (ops : list pool_op) :
  Z.of_nat (length ops) < 2 ^ 32 - PRIMITIVE_COUNT →
  ∃ ids p, run_ops new_pool ops = Done (ids, p) ∧ length ids = length ops ∧
    ∀ a b i j op op', ids !! a = Some i → ids !! b = Some j →
      ops !! a = Some op → ops !! b = Some op' → (i = j ↔ op_key op = op_key op').
Proof.
  intros Hlen. destruct (run_ops_spec ops Hlen) as (ids & p & Hrun & Hwf & _ & Hall).
  exists ids, p. split_and!; [done|by eapply Forall2_length|].
  intros a b i j op op' Ha Hb Hopa Hopb.
  pose proof (Forall2_lookup_lr _ _ _ _ _ _ Hall Ha Hopa) as (n & -> & Hn).
  pose proof (Forall2_lookup_lr _ _ _ _ _ _ Hall Hb Hopb) as (m & -> & Hm).
  split; [intros ->%Nat2Z.inj; congruence|].
  intros Heq. rewrite <- Heq in Hm. f_equal. eapply NoDup_lookup; [by apply abs_NoDup|done..].
Qed.

(** C28: the pool refines the abstract interning table: on a well-formed pool with
    room left, every interning or registration operation succeeds, returns the
    position the table returns, leaves the pool representing the table's new
    state, keeps the invariant, and never touches an existing entry or the
    layout cache. *)
Theorem pool_refines_table (p : TypeInternPool) (op : pool_op) :
  pool_wf p → Z.of_nat (length (types p)) < 2 ^ 32 - PRIMITIVE_COUNT →
  ∃ n p', run_op p op = Done (Z.of_nat n, p') ∧
    intern_table (abs p) (op_key op) = (n, abs p') ∧
    pool_wf p' ∧ types p `prefix_of` types p' ∧ layout_cache p' = layout_cache p.
Proof.
  intros Hwf Hlen. rewrite run_op_generic.
  destruct (intern_generic_total p (op_data op) Hwf Hlen) as (i & p' & Hi).
  pose proof (intern_generic_Done _ _ _ _ Hwf Hi) as (Hwf' & Hcache & Htypes & n & -> & Htab).
  exists n, p'. split_and!; [done..| |done]. destruct Htypes as [->| ->]; [done|by eexists].
Qed.

(** ** Other operations that change the pool *)

Lemma wf_same_keys p p' :
  pool_wf p → abs p' = abs p → (∀ k, lookup_key p' k = lookup_key p k) → pool_wf p'.
Proof.
  intros Hwf Habs Hl. split.
  - assert (length (types p') = length (types p)) as ->; [|apply Hwf].
    rewrite <- (length_fmap key_of (types p')), <- (length_fmap key_of (types p)).
    change (length (abs p') = length (abs p)). by rewrite Habs.
  - intros k t. rewrite Hl, (wf_keys _ Hwf). setoid_rewrite <- list_lookup_fmap.
    change (key_of <$> types p) with (abs p). change (key_of <$> types p') with (abs p').
    by rewrite Habs.
Qed.

Lemma entry_Done p i d : entry p i = Done d ↔ 0 ≤ i ∧ types p !! Z.to_nat i = Some d.
Proof. unfold entry. case_decide; [rewrite expect_Done|]; naive_solver. Qed.

Lemma abs_update p i d d' :
  types p !! i = Some d → key_of d' = key_of d →
  abs (set_types <[i := d']> p) = abs p.
Proof.
  intros Hi Hk. unfold abs; simpl. rewrite list_fmap_insert, Hk. apply list_insert_id.
  by rewrite list_lookup_fmap, Hi.
Qed.

Lemma update_struct_def_wf p i d p' :
  pool_wf p → update_struct_def p i d = Done p' → pool_wf p'.
Proof.
  intros Hwf. unfold update_struct_def. intros Hd. simplify_done.
  match goal with H : entry _ _ = Done ?x |- _ =>
    apply entry_Done in H as [_ He]; destruct x; simplify_done end.
  eapply wf_same_keys; [done|by eapply abs_update|]. intros k; apply lookup_set_types.
Qed.

Lemma update_enum_def_wf p i d p' :
  pool_wf p → update_enum_def p i d = Done p' → pool_wf p'.
Proof.
  intros Hwf. unfold update_enum_def. intros Hd. simplify_done.
  match goal with H : entry _ _ = Done ?x |- _ =>
    apply entry_Done in H as [_ He]; destruct x; simplify_done end.
  eapply wf_same_keys; [done|by eapply abs_update|]. intros k; apply lookup_set_types.
Qed.

Lemma cache_layout_wf p ty l : pool_wf p → pool_wf (cache_layout p ty l).
Proof. intros Hwf. eapply wf_same_keys; [done|done|]. by intros []. Qed.

(** Reserving an index and completing it is registering the struct. *)
Lemma reserve_complete p name def p' :
  pool_wf p →
  (let '(id, q) := reserve_struct_id p in complete_struct_registration q id name def) = Done p' →
  pool_wf p' ∧ to_index' (register_struct p name def) = Done (Z.of_nat (length (types p)), p').
Proof.
  intros Hwf. unfold reserve_struct_id, complete_struct_registration; simpl.
  rewrite length_app; simpl. case_decide as Hlt; [|done].
  destruct (struct_by_name p !! name) as [t|] eqn:Hn; [done|]. intros Hd. simplify_done.
  match goal with H : from_pool_index _ = Done _ |- _ =>
    apply (from_pool_index_len_Done p) in H as [Hlen ->]; [|apply Hwf] end.
  rewrite wrap_small by (unfold in_u, PRIMITIVE_COUNT in *; lia). rewrite Nat2Z.id.
  change (to_index' (register_struct p name def)) with (run_op p (OpStruct name def)).
  rewrite run_op_generic. unfold intern_generic; simpl. rewrite Hn.
  unfold to_index, push_entry. rewrite from_pool_index_len by done; simpl.
  rewrite pool_index_interned_at; simpl.
  pose proof (wf_push p (TStruct (MkStructData name def)) Hwf Hlen Hn) as Hpush.
  assert (Heq : set_struct_by_name <[name:=interned_at (length (types p))]>
           (set_types <[length (types p):=TStruct (MkStructData name def)]>
              (set_types (λ l, l ++ [TStruct (MkStructData spur_default placeholder_def)]) p))
         = set_struct_by_name <[name:=interned_at (length (types p))]>
              (set_types (λ l, l ++ [TStruct (MkStructData name def)]) p)).
  { unfold set_struct_by_name, set_types; simpl. f_equal.
    rewrite insert_app_r_alt, Nat.sub_diag by done. done. }
  split; [by rewrite Heq|]. by rewrite Heq.
Qed.

(** Every operation that changes the pool keeps its invariant: interning and
    registration, the in-place update of a struct or enum definition, the
    two-step registration of an anonymous struct (which is then the same as
    registering it), and the insertion of a cached layout. *)
Theorem pool_operations_preserve_invariant (p : TypeInternPool) :
  pool_wf p →
  (∀ op i p', run_op p op = Done (i, p') → pool_wf p') ∧
  (∀ i d p', update_struct_def p i d = Done p' → pool_wf p') ∧
  (∀ i d p', update_enum_def p i d = Done p' → pool_wf p') ∧
  (∀ name def p',
     (let '(id, q) := reserve_struct_id p in complete_struct_registration q id name def) = Done p' →
     pool_wf p' ∧ to_index' (register_struct p name def) = Done (Z.of_nat (length (types p)), p')) ∧
  (∀ ty l, pool_wf (cache_layout p ty l)).
Proof.
  intros Hwf. split_and!.
  - intros op i p'. rewrite run_op_generic. by intros [? _]%intern_generic_Done.
  - intros i d p'. by apply update_struct_def_wf.
  - intros i d p'. by apply update_enum_def_wf.
  - intros name def p'. by apply reserve_complete.
  - intros ty l. by apply cache_layout_wf.
Qed.

(** ** Snapshots *)

Lemma rebuild_step_push p d :
  Z.of_nat (length (types p)) < 2 ^ 32 - PRIMITIVE_COUNT →
  rebuild_step p d =
  Done (reg_key (key_of d) (interned_at (length (types p))) (set_types (λ l, l ++ [d]) p)).
Proof.
  unfold PRIMITIVE_COUNT. intros Hlen. unfold rebuild_step, checked_add.
  rewrite wrap_small by (unfold in_u; lia). unfold PRIMITIVE_COUNT.
  rewrite decide_True by (unfold in_u; lia). by destruct d.
Qed.

Lemma rebuild_spec ds q :
  pool_wf q → Z.of_nat (length (types q ++ ds)) ≤ 2 ^ 32 - PRIMITIVE_COUNT →
  NoDup (key_of <$> types q ++ ds) →
  ∃ q', foldM rebuild_step q ds = Done q' ∧ pool_wf q' ∧ types q' = types q ++ ds ∧
    layout_cache q' = layout_cache q.
Proof.
  revert q; induction ds as [|d ds IH]; intros q Hwf Hlen Hnd.
  - exists q. by rewrite app_nil_r.
  - rewrite length_app in Hlen; simpl in *. rewrite rebuild_step_push by lia; simpl.
    assert (Hfresh : lookup_key q (key_of d) = None).
    { apply fresh_key; [done|]. rewrite fmap_app in Hnd; simpl in Hnd.
      apply NoDup_app in Hnd as (_ & Hdis & _). intros Hin. apply (Hdis _ Hin). by left. }
    destruct (IH (reg_key (key_of d) (interned_at (length (types q)))
                    (set_types (λ l, l ++ [d]) q))) as (q' & Hq' & Hwf' & Ht & Hc).
    + apply wf_push; [done|lia|done].
    + rewrite types_reg_key; simpl. rewrite !length_app; simpl. lia.
    + rewrite types_reg_key; simpl. by rewrite <- (assoc_L (++)).
    + exists q'. rewrite Ht, Hc, types_reg_key, layout_cache_reg_key; simpl.
      by rewrite <- (assoc_L (++)).
Qed.

Lemma wf_types_determine p q :
  pool_wf p → pool_wf q → types p = types q → ∀ k, lookup_key p k = lookup_key q k.
Proof.
  intros Hp Hq Ht k. apply option_eq. intros t.
  by rewrite (wf_keys _ Hp), (wf_keys _ Hq), Ht.
Qed.

(** A snapshot is faithful: rebuilding the deduplication maps from the type
    table alone, as [clone_snapshot] and deserialization do, yields exactly the
    pool that was snapshotted with an empty layout cache, for every pool that
    satisfies the invariant. *)
Theorem snapshot_faithful (p : TypeInternPool) :
  pool_wf p →
  clone_snapshot p = Done (set_layout_cache (λ _, ∅) p) ∧
  deserialize (serialize p) = Done (set_layout_cache (λ _, ∅) p).
Proof.
  intros Hwf. change (deserialize (serialize p)) with (clone_snapshot p).
  enough (clone_snapshot p = Done (set_layout_cache (λ _, ∅) p)) by done.
  unfold clone_snapshot.
  destruct (rebuild_spec (types p) new_pool) as (q & -> & Hwf' & Ht & Hc);
    [apply new_pool_wf|apply Hwf|by apply abs_NoDup|].
  f_equal. apply pool_ext; [done|done|].
  intros k. rewrite (wf_types_determine q p) by done. by destruct k.
Qed.

(** ** Element types *)

(** The kind of the entry at index [i]. *)
Definition data_kind (i : Z) (d : TypeData) : TypeKind :=
  match d with
  | TStruct _ => TypeKind.Struct i
  | TEnum _ => TypeKind.Enum i
  | TArray _ _ => TypeKind.Array i
  | TPtrConst _ => TypeKind.PtrConst i
  | TPtrMut _ => TypeKind.PtrMut i
  | TRef _ => TypeKind.Ref i
  | TMutRef _ => TypeKind.MutRef i
  | TSlice _ => TypeKind.Slice i
  | TMutSlice _ => TypeKind.MutSlice i
  | TVec _ => TypeKind.Vec i
  end.

(** A type that can be an element: a primitive that [interned_to_type_recursive]
    knows, or an entry of the pool. *)
Definition readable_primitive (k : TypeKind) : bool :=
  match k with
  | TypeKind.I8 | TypeKind.I16 | TypeKind.I32 | TypeKind.I64 | TypeKind.U8 | TypeKind.U16
  | TypeKind.U32 | TypeKind.U64 | TypeKind.Isize | TypeKind.Usize | TypeKind.F16 | TypeKind.F32
  | TypeKind.F64 | TypeKind.Bool | TypeKind.Unit | TypeKind.Never | TypeKind.Error => true
  | _ => false
  end.
Definition unreadable_primitive (k : TypeKind) : bool :=
  match k with
  | TypeKind.Char | TypeKind.CSchar | TypeKind.CShort | TypeKind.CInt | TypeKind.CLong
  | TypeKind.CLonglong | TypeKind.CUchar | TypeKind.CUshort | TypeKind.CUint | TypeKind.CUlong
  | TypeKind.CUlonglong | TypeKind.CFloat | TypeKind.CDouble | TypeKind.CVoid => true
  | _ => false
  end.
Definition readable (p : TypeInternPool) (k : TypeKind) : Prop :=
  readable_primitive k = true ∨
  ∃ i d, types p !! i = Some d ∧ in_u 24 (Z.of_nat i) ∧ k = data_kind (Z.of_nat i) d.

Lemma of_data_kind i d :
  of_kind (data_kind i d) =
  match d with
  | TStruct _ => new_struct i
  | TEnum _ => new_enum i
  | TArray _ _ => new_array i
  | TPtrConst _ => new_ptr_const i
  | TPtrMut _ => new_ptr_mut i
  | TRef _ => new_ref i
  | TMutRef _ => new_mut_ref i
  | TSlice _ => new_slice i
  | TMutSlice _ => new_mut_slice i
  | TVec _ => new_vec i
  end.
Proof. by destruct d. Qed.

Lemma interned_to_type_entry p i d :
  types p !! i = Some d →
  interned_to_type_recursive (interned_at i) p = Done (of_kind (data_kind (Z.of_nat i) d)).
Proof.
  intros Hi. unfold interned_to_type_recursive. rewrite pool_index_interned_at.
  unfold entry. rewrite decide_True, Nat2Z.id, Hi by lia. simpl. by rewrite of_data_kind.
Qed.

Lemma type_to_interned_entry i d :
  in_u 24 (Z.of_nat i) →
  type_to_interned_recursive (of_kind (data_kind (Z.of_nat i) d)) = Done (interned_at i).
Proof.
  intros Hi. unfold type_to_interned_recursive, kind.
  rewrite try_kind_of_kind by (by destruct d).
  assert (from_pool_index (Z.of_nat i) = Done (interned_at i)) as Hf.
  { unfold from_pool_index, checked_add, PRIMITIVE_COUNT, in_u in *.
    rewrite decide_True by lia. unfold interned_at, PRIMITIVE_COUNT; simpl.
    do 2 f_equal. lia. }
  by destruct d; simpl.
Qed.

(** Interning a readable element type and reading it back. *)
Lemma readable_roundtrip p k t :
  readable p k → type_to_interned_recursive (of_kind k) = Done t →
  interned_to_type_recursive t p = Done (of_kind k).
Proof.
  intros [Hp|(i & d & Hi & Hb & ->)].
  - intros Ht. destruct k; try discriminate Hp; vm_compute in Ht; injection Ht as <-; reflexivity.
  - rewrite type_to_interned_entry by done. intros [= <-]. by apply interned_to_type_entry.
Qed.

Lemma unreadable_panics p k t :
  unreadable_primitive k = true → type_to_interned_recursive (of_kind k) = Done t →
  interned_to_type_recursive t p = Panic.
Proof.
  intros Hk Ht. destruct k; try discriminate Hk; vm_compute in Ht; injection Ht as <-; reflexivity.
Qed.

Lemma readable_prefix p p' k : types p `prefix_of` types p' → readable p k → readable p' k.
Proof.
  intros Hpre [Hp|(i & d & Hi & Hb & ->)]; [by left|right].
  exists i, d. split_and!; [by eapply prefix_lookup_Some|done..].
Qed.

Lemma run_op_entry p op i p' :
  pool_wf p → run_op p op = Done (i, p') →
  types p `prefix_of` types p' ∧ ∃ d, entry p' i = Done d ∧ key_of d = op_key op.
Proof.
  intros Hwf. rewrite run_op_generic. intros Hi.
  pose proof (intern_generic_Done _ _ _ _ Hwf Hi) as (Hwf' & _ & Htypes & n & -> & Htab).
  split; [destruct Htypes as [->| ->]; [done|by eexists]|].
  apply intern_table_spec in Htab as (_ & Hn & _); [|by apply abs_NoDup].
  unfold abs in Hn. rewrite list_lookup_fmap in Hn. apply fmap_Some in Hn as (d & Hd & Hk).
  exists d. split; [|done]. apply entry_Done. rewrite Nat2Z.id. split; [lia|done].
Qed.

Lemma intern_array_from_type_run p ty len id p' :
  intern_array_from_type p ty len = Done (id, p') →
  ∃ t, type_to_interned_recursive ty = Done t ∧ run_op p (OpArray t len) = Done (id, p').
Proof.
  unfold intern_array_from_type. intros Hd. simplify_done.
  match goal with H : type_to_interned_recursive _ = Done ?t |- _ => exists t; split; [done|] end.
  simpl. unfold to_index.
  match goal with H : intern_array _ _ _ = Done ?x |- _ => rewrite H; destruct x; simpl in * end.
  simplify_done. apply bind_Done. eexists; split; [by apply expect_Done|done].
Qed.

(** An array type can be read back: interning [[T; len]] and then asking the
    pool for its definition returns [T] and [len], for every element type that
    is one of the first seventeen primitives or an entry of the pool whose index
    fits in 24 bits. *)
Theorem array_def_roundtrip (p : TypeInternPool) (k : TypeKind) (len : Z) (id : Z)
    (p' : TypeInternPool) :
  pool_wf p → readable p k →
  intern_array_from_type p (of_kind k) len = Done (id, p') →
  array_def p' id = Done (of_kind k, len).
Proof.
  intros Hwf Hk (t & Ht & Hrun)%intern_array_from_type_run.
  destruct (run_op_entry _ _ _ _ Hwf Hrun) as (Hpre & d & He & Hd).
  unfold array_def. rewrite He. destruct d; try discriminate Hd. injection Hd as -> ->. simpl.
  by rewrite (readable_roundtrip p' k t) by (done || by eapply readable_prefix).
Qed.

(** An array of [char] or of a C named type can be interned but not read
    back: [array_def] panics, because [interned_to_type_recursive] has no arm
    for the primitive indices 20 to 33 that [type_to_interned_recursive]
    produces. *)
Theorem array_of_char_unreadable (p : TypeInternPool) (k : TypeKind) (len : Z) :
  pool_wf p → Z.of_nat (length (types p)) < 2 ^ 32 - PRIMITIVE_COUNT →
  unreadable_primitive k = true →
  ∃ id p', intern_array_from_type p (of_kind k) len = Done (id, p') ∧ array_def p' id = Panic.
Proof.
  intros Hwf Hlen Hk.
  destruct (type_to_interned_recursive (of_kind k)) as [t| |] eqn:Ht;
    [|by destruct k; try discriminate Hk..].
  destruct (intern_generic_total p (TArray t len) Hwf Hlen) as (i & p' & Hi).
  assert (Hrun : run_op p (OpArray t len) = Done (i, p')) by (by rewrite run_op_generic).
  exists i, p'. split.
  - unfold intern_array_from_type. rewrite Ht. exact Hrun.
  - destruct (run_op_entry _ _ _ _ Hwf Hrun) as (_ & d & He & Hd).
    unfold array_def. rewrite He. destruct d; try discriminate Hd. injection Hd as -> ->. simpl.
    by rewrite (unreadable_panics p' k t).
Qed.

(** ** Concurrent interning

    Threads share the pool.  A thread first looks its key up under the shared
    lock; when it misses it later takes the exclusive lock and runs the
    re-checking insertion.  Any other thread may run in between. *)
Inductive thread : Type :=
  | Ready (op : pool_op)
  | Missed (op : pool_op)
  | Got (op : pool_op) (i : Z).

Inductive cstep : TypeInternPool * list thread → TypeInternPool * list thread → Prop :=
  | step_hit p ts a op t i :
      ts !! a = Some (Ready op) → lookup_key p (op_key op) = Some t → pool_index t = Some i →
      cstep (p, ts) (p, <[a := Got op i]> ts)
  | step_miss p ts a op :
      ts !! a = Some (Ready op) → lookup_key p (op_key op) = None →
      cstep (p, ts) (p, <[a := Missed op]> ts)
  | step_write p ts a op i p' :
      ts !! a = Some (Missed op) → run_op_slow p op = Done (i, p') →
      cstep (p, ts) (p', <[a := Got op i]> ts).

Definition thread_ok (p : TypeInternPool) (th : thread) : Prop :=
  match th with
  | Got op i => ∃ n, i = Z.of_nat n ∧ abs p !! n = Some (op_key op)
  | _ => True
  end.

Definition config_ok (c : TypeInternPool * list thread) : Prop :=
  pool_wf c.1 ∧ Forall (thread_ok c.1) c.2.

Lemma thread_ok_prefix p p' th :
  abs p `prefix_of` abs p' → thread_ok p th → thread_ok p' th.
Proof.
  intros Hpre. destruct th; simpl; [done..|]. intros (n & -> & Hn).
  exists n. split; [done|by eapply prefix_lookup_Some].
Qed.

Lemma cstep_preserves_ok c c' : cstep c c' → config_ok c → config_ok c'.
Proof.
  intros Hstep [Hwf Hts]. destruct Hstep as [p ts a op t i Ha Hl Hi|p ts a op Ha Hl|p ts a op i p' Ha Hr];
    simpl in *.
  - split; simpl; [done|]. apply Forall_insert; [done|].
    apply (wf_keys _ Hwf) in Hl as (n & Hn & ->). rewrite pool_index_interned_at in Hi.
    simplify_eq. exists n. split; [done|]. unfold abs. by rewrite list_lookup_fmap.
  - split; simpl; [done|]. by apply Forall_insert.
  - rewrite run_op_slow_generic in Hr.
    pose proof (intern_generic_Done _ _ _ _ Hwf Hr) as (Hwf' & _ & _ & n & -> & Htab).
    apply intern_table_spec in Htab as (_ & Hn & Hpre); [|by apply abs_NoDup].
    split; simpl; [done|]. apply Forall_insert; [|by exists n].
    eapply Forall_impl; [exact Hts|]. intros th. by apply thread_ok_prefix.
Qed.

Lemma reachable_ok ops c :
  rtc cstep (new_pool, Ready <$> ops) c → config_ok c.
Proof.
  intros Hr. assert (Hinit : config_ok (new_pool, Ready <$> ops)).
  { split; simpl; [apply new_pool_wf|]. by apply Forall_fmap, Forall_true. }
  revert Hinit. induction Hr as [|c1 c2 c3 Hs _ IH]; [done|].
  intros Hok. apply IH. by eapply cstep_preserves_ok.
Qed.

(** C12: interning is canonical under every interleaving: in any state reachable
    by threads that read under the shared lock and insert under the exclusive
    lock, the pool satisfies its invariant, and two threads that have obtained
    an index hold the same index exactly when they asked for the same type. *)
Theorem concurrent_interning_canonical (ops : list pool_op) (p : TypeInternPool)
    (ts : list thread) :
  rtc cstep (new_pool, Ready <$> ops) (p, ts) →
  pool_wf p ∧
  ∀ a b op op' i j, ts !! a = Some (Got op i) → ts !! b = Some (Got op' j) →
    (i = j ↔ op_key op = op_key op').
Proof.
  intros [Hwf Hts]%reachable_ok; simpl in *. split; [done|].
  intros a b op op' i j Ha Hb. rewrite Forall_lookup in Hts.
  destruct (Hts _ _ Ha) as (n & -> & Hn). destruct (Hts _ _ Hb) as (m & -> & Hm).
  split; [intros ->%Nat2Z.inj; congruence|].
  intros Heq. rewrite <- Heq in Hm. f_equal. eapply NoDup_lookup; [by apply abs_NoDup|done..].
Qed.

(** ** Termination of the recursive thread-safety query *)

Definition data_element (d : TypeData) : option InternedType :=
  match d with
  | TArray e _ => Some e
  | TPtrConst t | TPtrMut t | TRef t | TMutRef t | TSlice t | TMutSlice t | TVec t => Some t
  | TStruct _ | TEnum _ => None
  end.

(** Structural entries refer to entries interned before them. *)
Definition elements_below (p : TypeInternPool) : Prop :=
  ∀ i d t j, types p !! i = Some d → data_element d = Some t → pool_index t = Some j →
    j < Z.of_nat i.

Definition kind_rank (k : TypeKind) : nat :=
  match kind_id k with Some id => S (Z.to_nat id) | None => 0 end.

Lemma primitive_read_kind t p ty :
  pool_index t = None → interned_to_type_recursive t p = Done ty →
  ∃ k, kind ty = Done k ∧ kind_id k = None.
Proof.
  intros Hp. unfold interned_to_type_recursive. rewrite Hp.
  destruct (it_raw t) as [|q|q]; [intros [= <-]; by eexists| |done].
  do 5 (try (destruct q as [q|q|])); intros Hd; try discriminate Hd; injection Hd as <-;
    by eexists.
Qed.

(** Reading the element of an entry gives a type of smaller rank. *)
Lemma element_rank p i d t ty k :
  elements_below p → Z.of_nat (length (types p)) ≤ 2 ^ 24 →
  types p !! i = Some d → data_element d = Some t →
  interned_to_type_recursive t p = Done ty → kind ty = Done k → (kind_rank k ≤ i)%nat.
Proof.
  intros Hbelow Hlen Hi Ht Hty Hk. destruct (pool_index t) as [j|] eqn:Hj.
  - pose proof (Hbelow _ _ _ _ Hi Ht Hj) as Hlt.
    unfold interned_to_type_recursive in Hty. rewrite Hj in Hty. simplify_done.
    match goal with H : entry p j = Done ?d' |- _ =>
      apply entry_Done in H as [Hj0 Hd']; rename d' into dj end.
    pose proof (lookup_lt_Some _ _ _ Hd') as Hjl.
    rewrite <- of_data_kind in Hk. unfold kind in Hk.
    rewrite try_kind_of_kind in Hk by (destruct dj; simpl; unfold kind_wf, in_u; simpl; lia).
    injection Hk as <-. destruct dj; unfold kind_rank; simpl; lia.
  - destruct (primitive_read_kind _ _ _ Hj Hty) as (k' & Hk' & Hid).
    rewrite Hk in Hk'. injection Hk' as <-. unfold kind_rank. rewrite Hid. lia.
Qed.

Lemma kind_total ty : kind ty ≠ NoFuel.
Proof. apply expect_total. Qed.
Lemma entry_total p i : entry p i ≠ NoFuel.
Proof. unfold entry. case_decide; [apply expect_total|done]. Qed.
Lemma interned_to_type_recursive_total t p : interned_to_type_recursive t p ≠ NoFuel.
Proof.
  unfold interned_to_type_recursive. destruct (pool_index t) as [j|].
  - apply bind_total; [apply entry_total|done].
  - destruct (it_raw t) as [|q|q]; [done| |done]. do 5 (try (destruct q as [q|q|])); done.
Qed.

(** The recursive calls of [is_thread_safety_type], as one lemma: following the
    element of the entry at [id] keeps the fuel sufficient. *)
Lemma follow_element_total {A} fuel p id (f : TypeData → option InternedType)
    (g : nat → Ty → outcome A) :
  (∀ ty, (∀ k, kind ty = Done k → (kind_rank k < fuel)%nat) → g fuel ty ≠ NoFuel) →
  elements_below p → Z.of_nat (length (types p)) ≤ 2 ^ 24 →
  (kind_rank (TypeKind.Vec id) ≤ fuel)%nat → (∀ d t, f d = Some t → data_element d = Some t) →
  (d ← entry p id;
   match f d with
   | Some t => ty ← interned_to_type_recursive t p; g fuel ty
   | None => Panic
   end) ≠ NoFuel.
Proof.
  intros Hg Hbelow Hlen Hfuel Hf. apply bind_total; [apply entry_total|].
  intros d [Hid Hd]%entry_Done. destruct (f d) as [t|] eqn:Hfd; [|done].
  apply bind_total; [apply interned_to_type_recursive_total|].
  intros ty Hty. apply Hg. intros k Hk.
  pose proof (element_rank _ _ _ _ _ _ Hbelow Hlen Hd (Hf _ _ Hfd) Hty Hk).
  unfold kind_rank in Hfuel; simpl in Hfuel. lia.
Qed.

Lemma is_thread_safety_type_fuel p fuel ty :
  elements_below p → Z.of_nat (length (types p)) ≤ 2 ^ 24 →
  (∀ k, kind ty = Done k → (kind_rank k < fuel)%nat) →
  (0 < fuel)%nat → is_thread_safety_type fuel p ty ≠ NoFuel.
Proof.
  intros Hbelow Hlen. revert ty. induction fuel as [|fuel IH]; intros ty Hrank Hpos; [lia|].
  simpl. apply bind_total; [apply kind_total|]. intros k Hk. specialize (Hrank k Hk).
  assert (Hg : ∀ ty, (∀ k, kind ty = Done k → (kind_rank k < fuel)%nat) →
    (0 < fuel)%nat → is_thread_safety_type fuel p ty ≠ NoFuel) by auto.
  assert (Hrec : ∀ id f, (kind_rank (TypeKind.Vec id) ≤ fuel)%nat →
    (∀ d t, f d = Some t → data_element d = Some t) →
    (d ← entry p id;
     match f d with
     | Some t => ty ← interned_to_type_recursive t p; is_thread_safety_type fuel p ty
     | None => Panic
     end) ≠ NoFuel).
  { intros id f Hid Hf. eapply (follow_element_total fuel p id f (λ n, is_thread_safety_type n p));
      [|done..]. intros ty' Hty'. apply Hg; [done|]. unfold kind_rank in Hid; simpl in Hid. lia. }
  destruct k; try done.
  all: unfold kind_rank in Hrank; simpl in Hrank.
  - unfold struct_def. apply bind_total; [|done].
    apply bind_total; [apply entry_total|]. intros []; done.
  - unfold enum_def. apply bind_total; [|done].
    apply bind_total; [apply entry_total|]. intros []; done.
  - intros E. apply (Hrec id (λ d, match d with TArray e _ => Some e | _ => None end));
      [unfold kind_rank; simpl; lia|by intros [] ?|]. rewrite <- E. unfold array_def.
    destruct (entry p id) as [[]| |]; try done; simpl.
    destruct (interned_to_type_recursive element p); done.
  - intros E. apply (Hrec id (λ d, match d with TRef e => Some e | _ => None end));
      [unfold kind_rank; simpl; lia|by intros [] ?|]. rewrite <- E. unfold ref_def.
    destruct (entry p id) as [[]| |]; done.
  - intros E. apply (Hrec id (λ d, match d with TMutRef e => Some e | _ => None end));
      [unfold kind_rank; simpl; lia|by intros [] ?|]. rewrite <- E. unfold mut_ref_def.
    destruct (entry p id) as [[]| |]; done.
  - intros E. apply (Hrec id (λ d, match d with TSlice e => Some e | _ => None end));
      [unfold kind_rank; simpl; lia|by intros [] ?|]. rewrite <- E. unfold slice_def.
    destruct (entry p id) as [[]| |]; done.
  - intros E. apply (Hrec id (λ d, match d with TMutSlice e => Some e | _ => None end));
      [unfold kind_rank; simpl; lia|by intros [] ?|]. rewrite <- E. unfold mut_slice_def.
    destruct (entry p id) as [[]| |]; done.
  - intros E. apply (Hrec id (λ d, match d with TVec e => Some e | _ => None end));
      [unfold kind_rank; simpl; lia|by intros [] ?|]. rewrite <- E. unfold vec_def.
    destruct (entry p id) as [[]| |]; done.
Qed.


Lemma run_op_elements_below p op i p' :
  pool_wf p → elements_below p →
  (∀ t j, data_element (op_data op) = Some t → pool_index t = Some j →
     j < Z.of_nat (length (types p))) →
  run_op p op = Done (i, p') → elements_below p'.
Proof.
  intros Hwf Hbelow Hop. rewrite run_op_generic. intros Hi.
  pose proof (intern_generic_Done _ _ _ _ Hwf Hi) as (_ & _ & [Ht|Ht] & _);
    intros n d t j Hn Hd Hj; rewrite Ht in Hn; [by eapply Hbelow|].
  apply lookup_app_Some in Hn as [Hn|(Hge & Hn)]; [by eapply Hbelow|].
  apply list_lookup_singleton_Some in Hn as [Hz <-]. specialize (Hop _ _ Hd Hj). lia.
Qed.

(** The thread-safety query terminates: on a pool whose structural entries
    refer to earlier entries, a recursion depth of one more than the number of
    entries is enough for every type of the pool; and interning types built from
    existing ones keeps that order. *)
Theorem thread_safety_query_terminates (p : TypeInternPool) :
  pool_wf p → elements_below p → Z.of_nat (length (types p)) ≤ 2 ^ 24 →
  (∀ ty, (∀ k id, kind ty = Done k → kind_id k = Some id → 0 ≤ id < Z.of_nat (length (types p))) →
     is_thread_safety_type (S (length (types p))) p ty ≠ NoFuel) ∧
  (∀ op i p', run_op p op = Done (i, p') →
     (∀ t j, data_element (op_data op) = Some t → pool_index t = Some j →
        j < Z.of_nat (length (types p))) →
     elements_below p').
Proof.
  intros Hwf Hbelow Hlen. split.
  - intros ty Hty. apply is_thread_safety_type_fuel; [done|done| |lia].
    intros k Hk. unfold kind_rank. destruct (kind_id k) as [id|] eqn:Hid; [|lia].
    specialize (Hty _ _ Hk Hid). lia.
  - intros op i p' Hrun Hop. by eapply run_op_elements_below.
Qed.

End Pool.

(** ** Witnesses, at names represented by [nat] *)

Lemma interning_canonical_witness :
  ∃ ids p, run_ops (Spur := nat) new_pool
      [OpVec Interned.I32; OpSlice Interned.I32; OpVec Interned.I32] = Done (ids, p) ∧
    ids = [0; 1; 0].
Proof.
  destruct (interning_canonical (Spur := nat)
    [OpVec Interned.I32; OpSlice Interned.I32; OpVec Interned.I32]) as (ids & p & Hrun & _);
    [by vm_compute|].
  exists ids, p. split; [exact Hrun|]. vm_compute in Hrun. by injection Hrun as <-.
Defined.

Lemma pool_refines_table_witness :
  ∃ p', run_op (Spur := nat) new_pool (OpVec Interned.I32) = Done (0, p') ∧ pool_wf p'.
Proof.
  destruct (pool_refines_table (Spur := nat) new_pool (OpVec Interned.I32))
    as (n & p' & Hrun & Htab & Hwf & _); [apply new_pool_wf|by vm_compute|].
  exists p'. split; [|exact Hwf]. rewrite Hrun. injection Htab as <- _. done.
Defined.

Lemma pool_operations_preserve_invariant_witness :
  pool_wf (cache_layout (Spur := nat) new_pool Ty.BOOL zero_sized).
Proof.
  refine (proj2 (proj2 (proj2 (proj2
    (pool_operations_preserve_invariant (Spur := nat) 0%nat new_pool new_pool_wf)))) _ _).
Defined.

Lemma snapshot_faithful_witness :
  clone_snapshot (Spur := nat) new_pool = Done (set_layout_cache (λ _, ∅) new_pool).
Proof. apply (snapshot_faithful (Spur := nat)). apply new_pool_wf. Defined.

Lemma array_def_roundtrip_witness :
  ∃ p', intern_array_from_type (Spur := nat) new_pool Ty.BOOL 5 = Done (0, p') ∧
    array_def p' 0 = Done (Ty.BOOL, 5).
Proof.
  eexists. split; [vm_compute; reflexivity|].
  refine (array_def_roundtrip (Spur := nat) new_pool TypeKind.Bool 5 0 _ new_pool_wf _ _);
    [left; reflexivity|vm_compute; reflexivity].
Defined.

Lemma array_of_char_unreadable_witness :
  ∃ id p', intern_array_from_type (Spur := nat) new_pool Ty.CHAR 3 = Done (id, p') ∧
    array_def p' id = Panic.
Proof.
  refine (array_of_char_unreadable (Spur := nat) new_pool TypeKind.Char 3 new_pool_wf _ _);
    [by vm_compute|reflexivity].
Defined.

(** Two threads race to intern [Vec(i32)]: both miss, both insert. *)
Lemma concurrent_interning_canonical_witness :
  ∃ p, rtc cstep (new_pool (Spur := nat), Ready <$> [OpVec Interned.I32; OpVec Interned.I32])
         (p, [Got (OpVec Interned.I32) 0; Got (OpVec Interned.I32) 0]) ∧ pool_wf p.
Proof.
  assert (Hr : ∃ p, rtc cstep
    (new_pool (Spur := nat), Ready <$> [OpVec Interned.I32; OpVec Interned.I32])
    (p, [Got (OpVec Interned.I32) 0; Got (OpVec Interned.I32) 0])).
  { eexists. eapply rtc_l; [by eapply (step_miss _ _ 0%nat)|].
    eapply rtc_l; [by eapply (step_miss _ _ 1%nat)|].
    eapply rtc_l; [eapply (step_write _ _ 0%nat); [reflexivity|vm_compute; reflexivity]|].
    eapply rtc_l; [eapply (step_write _ _ 1%nat); [reflexivity|vm_compute; reflexivity]|].
    apply rtc_refl. }
  destruct Hr as [p Hr]. exists p. split; [exact Hr|].
  exact (proj1 (concurrent_interning_canonical (Spur := nat) _ _ _ Hr)).
Defined.

Lemma thread_safety_query_terminates_witness :
  is_thread_safety_type (Spur := nat) 1 new_pool Ty.BOOL ≠ NoFuel.
Proof.
  refine (proj1 (thread_safety_query_terminates (Spur := nat) new_pool new_pool_wf _ _) Ty.BOOL _).
  - intros i d t j Hi. by destruct i.
  - by vm_compute.
  - intros k id Hk Hid. vm_compute in Hk. injection Hk as <-. discriminate Hid.
Defined.
