(* ===== verification/Layout.v ===== *)
(** * Type layout

    Models [layout_of] and its helpers of [crates/gruel-air/src/layout.rs]:
    size, alignment, niches and the discriminant strategy of every type.

    [compute_layout] is written once over the effect it runs in: with the layout
    cache of the pool threaded through the recursive calls ([layout_of], the
    source) and without a cache ([layout_spec], the function it has to compute).
    The recursion follows the pool and runs on fuel. *)

From S2P Require Import Prelude Types LayoutTypes InternPool.

#[local] Open Scope Z_scope.

(** [u64::is_power_of_two]. *)
Definition is_power_of_two (a : Z) : bool := (0 <? a) && (Z.land a (a - 1) =? 0).

(** [align_up]: [(value + align - 1) & !(align - 1)], with its [debug_assert!]. *)
Definition align_up (value align : Z) : outcome Z :=
  if is_power_of_two align then
    s ← checked_add 64 value align;
    s' ← checked_sub 64 s 1;
    mask ← checked_sub 64 align 1;
    mret (Z.land s' (Z.lxor mask (2 ^ 64 - 1)))
  else Panic.

(** Effects in which layouts are computed: those that embed [outcome]. *)
Class LiftOutcome (M : Type → Type) := lift : ∀ {A}, outcome A → M A.
#[export] Instance lift_outcome : LiftOutcome outcome := λ A m, m.

Section Layout.
Context {Spur : Type} `{Countable Spur}.
Notation Pool := (TypeInternPool (Spur := Spur)).

Section Compute.
Context {M : Type → Type} `{!MRet M, !MBind M, !LiftOutcome M}.
(** [layout_of(pool, _)], for the recursive calls. *)
Context (layout_rec : Ty → M Layout) (p : Pool).

(** The niches a field contributes, at the field's offset: [n.offset + offset as u32]. *)
Definition inherit_niches (offset : Z) (ns : list NicheRange) : outcome (list NicheRange) :=
  mapM (λ n, o ← checked_add 32 (nr_offset n) (wrap 32 offset);
             mret (MkNiche o (nr_width n) (nr_start n) (nr_end n))) ns.

(** One iteration of the struct loop over [(offset, max_align, niches)]. *)
Definition struct_step (st : Z * Z * list NicheRange) (f : StructField)
    : M (Z * Z * list NicheRange) :=
  let '(offset, max_align, niches) := st in
  field_layout ← layout_rec (sf_ty f);
  if ly_size field_layout =? 0 then mret st
  else
    let max_align := Z.max max_align (ly_align field_layout) in
    offset ← lift (align_up offset (ly_align field_layout));
    ns ← lift (inherit_niches offset (ly_niches field_layout));
    offset' ← lift (checked_add 64 offset (ly_size field_layout));
    mret (offset', max_align, niches ++ ns).

Definition struct_layout (d : StructDef) : M Layout :=
  '(offset, max_align, niches) ← foldM struct_step (0, 1, []) (sd_fields d);
  size ← (if 1 <? max_align then lift (align_up offset max_align) else mret offset);
  mret (MkLayout size max_align niches None).

Definition array_layout (elem_ty : Ty) (len : Z) : M Layout :=
  elem ← layout_rec elem_ty;
  size ← lift (checked_mul 64 (ly_size elem) len);
  mret (MkLayout size (ly_align elem) [] None).

(** The summed field sizes of a variant. *)
Definition variant_size (v : EnumVariantDef) : M Z :=
  foldM (λ acc f, l ← layout_rec f; lift (checked_add 64 acc (ly_size l))) 0 (ev_fields v).
Definition max_variant_size (d : EnumDef) : M Z :=
  sizes ← mapM variant_size (ed_variants d); mret (max_or 0 sizes).

(** [enum_layout_separate]. *)
Definition enum_layout_separate (d : EnumDef) : M Layout :=
  discrim_layout ← layout_rec (discriminant_type d);
  let dsize := ly_size discrim_layout in
  let dalign := ly_align discrim_layout in
  let tag_width := wrap 8 dsize in
  if is_unit_only d then
    let strategy := Separate 0 tag_width (wrap 32 dsize) in
    let variant_count := Z.of_nat (length (ed_variants d)) in
    let max := max_for_width tag_width in
    let niches := if (0 <? variant_count) && (variant_count <=? max)
                  then [MkNiche 0 tag_width variant_count max] else [] in
    mret (MkLayout dsize dalign niches (Some strategy))
  else if ed_is_c_layout d then
    layouts ← mapM layout_rec (concat (map ev_fields (ed_variants d)));
    let max_variant_align := max_or 1 (map ly_align layouts) in
    let enum_align := Z.max dalign max_variant_align in
    payload_offset ← lift (align_up dsize enum_align);
    max_payload ← max_variant_size d;
    let strategy := Separate 0 tag_width (wrap 32 payload_offset) in
    total_payload ← lift (align_up max_payload enum_align);
    total ← lift (checked_add 64 payload_offset total_payload);
    size ← lift (align_up total enum_align);
    mret (MkLayout size enum_align [] (Some strategy))
  else
    let strategy := Separate 0 tag_width (wrap 32 dsize) in
    max_payload ← max_variant_size d;
    if max_payload =? 0 then mret (MkLayout dsize dalign [] (Some strategy))
    else
      total ← lift (checked_add 64 dsize max_payload);
      size ← lift (align_up total dalign);
      mret (MkLayout size dalign [] (Some strategy)).

(** The niche-encoded layout over the layout of the payload: the first forbidden
    value encodes the unit variant, the others stay forbidden. *)
Definition niche_layout (unit_idx data_idx : Z) (payload_layout : Layout)
    (niche : NicheRange) (remaining_start : Z) : Layout :=
  let composed_niches :=
    if remaining_start <=? nr_end niche
    then [MkNiche (nr_offset niche) (nr_width niche) remaining_start (nr_end niche)]
    else [] in
  MkLayout (ly_size payload_layout) (ly_align payload_layout) composed_niches
    (Some (Niche unit_idx data_idx (nr_offset niche) (nr_width niche) (nr_start niche))).

(** [try_niche_encoded_enum_layout]. *)
Definition try_niche_encoded_enum_layout (d : EnumDef) : M (option Layout) :=
  match ed_variants d with
  | [v0; v1] =>
      let idx := match has_data v0, has_data v1 with
        | false, true => Some (0, 1, v1)
        | true, false => Some (1, 0, v0)
        | _, _ => None
        end in
      match idx with
      | None => mret None
      | Some (unit_idx, data_idx, data_variant) =>
          match ev_fields data_variant with
          | [payload_ty] =>
              payload_layout ← layout_rec payload_ty;
              match ly_niches payload_layout with
              | [] => mret None
              | niche :: _ =>
                  remaining_start ← lift (checked_add 128 (nr_start niche) 1);
                  mret (Some (niche_layout unit_idx data_idx payload_layout niche
                                remaining_start))
              end
          | _ => mret None
          end
      end
  | _ => mret None
  end.

Definition enum_layout (d : EnumDef) : M Layout :=
  o ← try_niche_encoded_enum_layout d;
  match o with
  | Some niche_layout => mret niche_layout
  | None => enum_layout_separate d
  end.

(** [compute_layout]. *)
Definition compute_layout (ty : Ty) : M Layout :=
  k ← lift (kind ty);
  match k with
  | TypeKind.Bool => mret (MkLayout 1 1 [MkNiche 0 1 2 255] None)
  | TypeKind.I8 | TypeKind.U8 => mret (scalar 1 1)
  | TypeKind.I16 | TypeKind.U16 | TypeKind.F16 => mret (scalar 2 2)
  | TypeKind.I32 | TypeKind.U32 | TypeKind.F32 => mret (scalar 4 4)
  | TypeKind.I64 | TypeKind.U64 | TypeKind.F64 => mret (scalar 8 8)
  | TypeKind.Char =>
      mret (MkLayout 4 4 [MkNiche 0 4 0xD800 0xDFFF; MkNiche 0 4 0x110000 0xFFFFFFFF] None)
  | TypeKind.Isize | TypeKind.Usize => mret (scalar 8 8)
  | TypeKind.CSchar | TypeKind.CUchar => mret (scalar 1 1)
  | TypeKind.CShort | TypeKind.CUshort => mret (scalar 2 2)
  | TypeKind.CInt | TypeKind.CUint => mret (scalar 4 4)
  | TypeKind.CLong | TypeKind.CUlong | TypeKind.CLonglong | TypeKind.CUlonglong =>
      mret (scalar 8 8)
  | TypeKind.CFloat => mret (scalar 4 4)
  | TypeKind.CDouble => mret (scalar 8 8)
  | TypeKind.CVoid => mret zero_sized
  | TypeKind.PtrConst _ | TypeKind.PtrMut _ => mret (scalar 8 8)
  | TypeKind.Ref _ | TypeKind.MutRef _ => mret (scalar 8 8)
  | TypeKind.Slice _ | TypeKind.MutSlice _ => mret (scalar 16 8)
  | TypeKind.Vec _ => mret (scalar 24 8)
  | TypeKind.Interface _ => mret (scalar 16 8)
  | TypeKind.Struct id => d ← lift (struct_def p id); struct_layout d
  | TypeKind.Array id => '(elem_ty, len) ← lift (array_def p id); array_layout elem_ty len
  | TypeKind.Enum id => d ← lift (enum_def p id); enum_layout d
  | TypeKind.Unit | TypeKind.Never | TypeKind.Error | TypeKind.ComptimeType
  | TypeKind.ComptimeStr | TypeKind.ComptimeInt | TypeKind.Module _ => mret zero_sized
  end.

End Compute.

(** ** The cached function of the source *)

(** The effect of reading and extending the layout cache. *)
Definition CacheM (A : Type) : Type := gmap Ty Layout → outcome (A * gmap Ty Layout).
#[export] Instance CacheM_ret : MRet CacheM := λ A a c, Done (a, c).
#[export] Instance CacheM_bind : MBind CacheM := λ A B f m c,
  '(a, c') ← m c; f a c'.
#[export] Instance CacheM_lift : LiftOutcome CacheM := λ A m c, a ← m; Done (a, c).

(** [layout_of]: a cached layout is returned, a computed one is cached. *)
Fixpoint layout_of_cache (fuel : nat) (p : Pool) (ty : Ty) : CacheM Layout := λ c,
  match c !! ty with
  | Some cached => Done (cached, c)
  | None =>
    match fuel with
    | O => NoFuel
    | S fuel =>
        '(computed, c') ← compute_layout (layout_of_cache fuel p) p ty c;
        Done (computed, <[ty := computed]> c')
    end
  end.

Definition layout_of (fuel : nat) (p : Pool) (ty : Ty) : outcome (Layout * Pool) :=
  '(l, c) ← layout_of_cache fuel p ty (layout_cache p);
  mret (l, set_layout_cache (λ _, c) p).

(** ** The function it computes: the same recursion without a cache *)
Fixpoint layout_spec (fuel : nat) (p : Pool) (ty : Ty) : outcome Layout :=
  match fuel with
  | O => NoFuel
  | S fuel => compute_layout (layout_spec fuel p) p ty
  end.

End Layout.

(** ** Alignment arithmetic *)

Definition pow2 (a : Z) : Prop := ∃ k, 0 ≤ k ∧ a = 2 ^ k.

Lemma pow2_pos a : pow2 a → 0 < a.
Proof. intros (k & Hk & ->). by apply Z.pow_pos_nonneg. Qed.

Lemma is_power_of_two_spec a : is_power_of_two a = true ↔ pow2 a.
Proof.
  unfold is_power_of_two. rewrite andb_true_iff, Z.ltb_lt, Z.eqb_eq. split.
  - intros [Hpos Hland]. exists (Z.log2 a). split; [apply Z.log2_nonneg|].
    destruct (Z.log2_spec a Hpos) as [Hlo Hhi].
    destruct (decide (a = 2 ^ Z.log2 a)) as [|Hne]; [done|exfalso].
    assert (Hl : Z.log2 (a - 1) = Z.log2 a)
      by (apply Z.log2_unique; [apply Z.log2_nonneg|lia]).
    assert (Hbit : Z.testbit (Z.land a (a - 1)) (Z.log2 a) = true).
    { rewrite Z.land_spec, Z.bit_log2 by done. rewrite <- Hl at 1.
      apply Z.bit_log2. pose proof (Z.pow_pos_nonneg 2 (Z.log2 a) eq_refl (Z.log2_nonneg a)).
      lia. }
    by rewrite Hland, Z.bits_0 in Hbit.
  - intros (k & Hk & ->). split; [by apply Z.pow_pos_nonneg|].
    replace (2 ^ k - 1) with (Z.ones k) by (rewrite Z.ones_equiv; unfold Z.pred; lia).
    rewrite Z.land_ones by done. apply Z.mod_same. pose proof (Z.pow_pos_nonneg 2 k). lia.
Qed.

Lemma land_not_mask s k :
  in_u64 s → 0 ≤ k → Z.land s (Z.lxor (2 ^ k - 1) (2 ^ 64 - 1)) = s / 2 ^ k * 2 ^ k.
Proof.
  intros [Hs0 Hs] Hk.
  replace (2 ^ k - 1) with (Z.ones k) by (rewrite Z.ones_equiv; unfold Z.pred; lia).
  replace (2 ^ 64 - 1) with (Z.ones 64) by (by vm_compute).
  rewrite <- Z.shiftr_div_pow2, <- Z.shiftl_mul_pow2, <- Z.ldiff_ones_r by done.
  apply Z.bits_inj'. intros n Hn. rewrite Z.land_spec, Z.lxor_spec, Z.ldiff_spec.
  destruct (decide (n < 64)).
  - rewrite (Z.ones_spec_low 64) by lia. by rewrite xorb_true_r.
  - rewrite <- (Z.mod_small s (2 ^ 64)) by lia. rewrite Z.mod_pow2_bits_high by lia. done.
Qed.

Lemma align_up_spec v a r :
  align_up v a = Done r →
  pow2 a ∧ v ≤ r < v + a ∧ (a | r) ∧ in_u64 r.
Proof.
  unfold align_up. destruct (is_power_of_two a) eqn:Ha; [|done].
  apply is_power_of_two_spec in Ha as Hp. destruct Hp as (k & Hk & ->).
  intros Hd. simplify_done. rewrite land_not_mask by done.
  pose proof (Z.pow_pos_nonneg 2 k ltac:(lia) Hk) as Hpos.
  set (s := v + 2 ^ k - 1) in *.
  pose proof (Z.div_mod s (2 ^ k) ltac:(lia)). pose proof (Z.mod_pos_bound s (2 ^ k) Hpos).
  assert (0 ≤ s / 2 ^ k * 2 ^ k) by (apply Z.mul_nonneg_nonneg; [apply Z.div_pos|]; unfold in_u in *; lia).
  unfold in_u in *. split_and!; [by exists k|lia|lia|by exists (s / 2 ^ k)|lia|lia].
Qed.

(** [align_up] rounds up to the alignment: whenever it returns, the alignment
    is a power of two and the result is the least multiple of it that is at
    least the value; and it returns for every power of two as long as the sum
    fits in a [u64]. *)
Theorem align_up_least_multiple (value align : Z) :
  in_u64 value →
  (∀ r, align_up value align = Done r →
     pow2 align ∧ (align | r) ∧ value ≤ r ∧
     ∀ r', (align | r') → value ≤ r' → r ≤ r') ∧
  (pow2 align → value + align < 2 ^ 64 → ∃ r, align_up value align = Done r).
Proof.
  intros [Hv0 Hv]. split.
  - intros r Hr. destruct (align_up_spec _ _ _ Hr) as (Hp & Hb & Hdiv & _).
    split_and!; [done|done|lia|]. intros r' [q' ->] Hr'. destruct Hdiv as [q ->].
    pose proof (pow2_pos _ Hp).
    assert (q < q' + 1) by (apply (Z.mul_lt_mono_pos_r align); lia).
    apply Z.mul_le_mono_nonneg_r; lia.
  - intros Hp Hsum. pose proof (pow2_pos _ Hp). unfold align_up.
    rewrite (proj2 (is_power_of_two_spec align) Hp). unfold checked_add, checked_sub.
    rewrite decide_True by (unfold in_u; lia). simpl.
    rewrite decide_True by (unfold in_u; lia). simpl.
    rewrite decide_True by (unfold in_u; lia). simpl. by eexists.
Qed.
Lemma align_up_least_multiple_witness : ∃ r, align_up 13 8 = Done r ∧ 13 ≤ r.
Proof.
  destruct (align_up_least_multiple 13 8) as [H1 H2]; [by vm_compute|].
  destruct H2 as [r Hr]; [by exists 3|by vm_compute|].
  exists r. split; [exact Hr|]. apply (H1 r Hr).
Defined.

(** ** Well-formed layouts *)

(** A niche of a value of [size] bytes: it lies inside the value and its range is
    a range of values of its width. *)
Definition niche_ok (size : Z) (n : NicheRange) : Prop :=
  0 ≤ nr_offset n ∧ 0 ≤ nr_width n ≤ 8 ∧ nr_offset n + nr_width n ≤ size ∧
  0 ≤ nr_start n ≤ nr_end n ∧ nr_end n ≤ max_for_width (nr_width n).

(** Offsets of niches are [u32]s, so their bounds are only promised to values
    smaller than 4 GiB. *)
Definition layout_ok (l : Layout) : Prop :=
  in_u64 (ly_size l) ∧ pow2 (ly_align l) ∧ (ly_align l | ly_size l) ∧
  (ly_size l < 2 ^ 32 → Forall (niche_ok (ly_size l)) (ly_niches l)).

Lemma pow2_max a b : pow2 a → pow2 b → pow2 (Z.max a b).
Proof. intros. destruct (Z.max_spec a b) as [[_ ->]|[_ ->]]; done. Qed.

Lemma niche_ok_mono s s' n : s ≤ s' → niche_ok s n → niche_ok s' n.
Proof. unfold niche_ok. intros. destruct_and!. split_and!; lia. Qed.

Lemma niches_ok_mono s s' ns : s ≤ s' → Forall (niche_ok s) ns → Forall (niche_ok s') ns.
Proof. rewrite !Forall_forall. eauto using niche_ok_mono. Qed.

Lemma scalar_ok size align :
  in_u64 size → pow2 align → (align | size) → layout_ok (scalar size align).
Proof. intros. by split_and!. Qed.

Lemma pow2_literal (a : Z) : bool_decide (a ∈ [1; 2; 4; 8]) = true → pow2 a.
Proof.
  intros Ha%bool_decide_eq_true.
  repeat (apply elem_of_cons in Ha as [->|Ha];
    [first [by exists 0|by exists 1|by exists 2|by exists 3]|]).
  by apply elem_of_nil in Ha.
Qed.

Ltac solve_scalar_ok := 
  first [ apply scalar_ok; [by vm_compute|by apply pow2_literal|
           by (apply Z.mod_divide; [done|vm_compute]) ] ].

Lemma inherit_niches_ok offset size ns ns' :
  0 ≤ offset → offset + size < 2 ^ 32 → 0 ≤ size →
  Forall (niche_ok size) ns → inherit_niches offset ns = Done ns' →
  Forall (niche_ok (offset + size)) ns'.
Proof.
  intros Ho Hs Hsz Hns Hm%mapM_Done.
  revert Hns. induction Hm as [|n n' ns ns' Hn _ IH]; intros Hns; [by constructor|].
  inversion_clear Hns as [|?? Hok Hrest]. constructor; [|by apply IH].
  simplify_done. rewrite wrap_small in * by (unfold in_u; lia).
  unfold niche_ok in *; simpl in *. destruct_and!. split_and!; lia.
Qed.

Section LayoutOk.
Context {Spur : Type} `{Countable Spur}.
Context (rec : Ty → outcome Layout) (Hrec : ∀ ty l, rec ty = Done l → layout_ok l).

Definition struct_inv (st : Z * Z * list NicheRange) : Prop :=
  let '(offset, max_align, niches) := st in
  in_u64 offset ∧ pow2 max_align ∧ (offset < 2 ^ 32 → Forall (niche_ok offset) niches).

Lemma struct_step_inv st f st' :
  struct_inv st → struct_step rec st f = Done st' → struct_inv st'.
Proof.
  destruct st as [[offset max_align] niches]. intros (Hoff & Hma & Hn) Hs.
  unfold struct_step in Hs. simplify_done.
  match goal with Hl : rec _ = Done ?l |- _ => rename l into fl; apply Hrec in Hl as (Hsz & Hal & _ & Hfn) end.
  case_match; simplify_done; [done|].
  unfold lift, lift_outcome in *. simplify_done.
  match goal with Ha : align_up _ _ = Done ?o |- _ =>
    rename o into off'; apply align_up_spec in Ha as (_ & Hb & _ & Hu) end.
  unfold struct_inv, in_u in *. split_and!; [lia|lia|by apply pow2_max|].
  intros Hlt. apply Forall_app; split.
  - apply (niches_ok_mono offset); [lia|apply Hn; lia].
  - eapply inherit_niches_ok; [..|done]; [lia|lia|lia|]. apply Hfn. lia.
Qed.

Lemma struct_layout_ok d l : struct_layout rec d = Done l → layout_ok l.
Proof.
  unfold struct_layout. intros (st & Hst & Hl)%bind_Done.
  destruct st as [[offset max_align] niches].
  assert (struct_inv (offset, max_align, niches)) as (Hoff & Hma & Hn).
  { eapply foldM_inv; [done|..].
    - unfold struct_inv, in_u. split_and!; [lia|lia|by exists 0|by constructor].
    - intros. by eapply struct_step_inv. }
  simplify_done. rename x into size.
  assert (offset ≤ size ∧ (max_align | size) ∧ in_u64 size) as (Hle & Hdiv & Hu).
  { destruct (Z.ltb_spec 1 max_align).
    - unfold lift, lift_outcome in *.
      match goal with Ha : align_up _ _ = Done _ |- _ =>
        apply align_up_spec in Ha as (_ & Hb & ? & ?) end.
      split_and!; [lia|done..].
    - simplify_done. pose proof (pow2_pos _ Hma).
      replace max_align with 1 by lia. split_and!; [lia|apply Z.divide_1_l|apply Hoff..]. }
  split_and!; [done..|]. simpl. intros Hlt. apply (niches_ok_mono offset); [done|apply Hn; lia].
Qed.

Lemma array_layout_ok elem_ty len l : array_layout rec elem_ty len = Done l → layout_ok l.
Proof.
  unfold array_layout, lift, lift_outcome. intros. simplify_done.
  match goal with Hl : rec _ = Done _ |- _ => apply Hrec in Hl as (Hsz & Hal & Hdiv & _) end.
  split_and!; simpl; [done..|by apply Z.divide_mul_l|by constructor].
Qed.

Lemma niche_enum_ok payload_ty unit_idx data_idx l :
  (payload_layout ← rec payload_ty;
   match ly_niches payload_layout with
   | [] => mret None
   | niche :: _ =>
       remaining_start ← checked_add 128 (nr_start niche) 1;
       mret (Some (niche_layout unit_idx data_idx payload_layout niche remaining_start))
   end) = Done (Some l) → layout_ok l.
Proof.
  intros (pl & Hpl & Hl)%bind_Done. apply Hrec in Hpl as (Hsz & Hal & Hdiv & Hn).
  destruct (ly_niches pl) as [|n ns]; simplify_done.
  split_and!; simpl; [done..|]. intros Hlt. specialize (Hn Hlt).
  inversion_clear Hn as [|?? Hok _].
  case_match eqn:Hle; [|by constructor]. apply Z.leb_le in Hle.
  repeat constructor; unfold niche_ok in Hok; simpl; lia.
Qed.

Lemma try_niche_ok d l :
  try_niche_encoded_enum_layout rec d = Done (Some l) → layout_ok l.
Proof.
  unfold try_niche_encoded_enum_layout.
  repeat (case_match; try by intros; simplify_done).
  all: simplify_eq; apply niche_enum_ok.
Qed.

(** The layouts a discriminant can have. *)
Definition discriminant_layout (l : Layout) : Prop :=
  0 ≤ ly_size l ≤ 8 ∧ pow2 (ly_align l) ∧ (ly_align l | ly_size l).

Lemma enum_layout_separate_ok d l :
  (∀ l, rec (discriminant_type d) = Done l → discriminant_layout l) →
  enum_layout_separate rec d = Done l → layout_ok l.
Proof.
  intros Hdisc. unfold enum_layout_separate, lift, lift_outcome.
  intros (dl & Hdl & Hl)%bind_Done. apply Hdisc in Hdl as (Hsz & Hal & Hdiv).
  destruct (is_unit_only d).
  { simplify_done. rewrite (wrap_small 8) by (unfold in_u; lia).
    split_and!; simpl; [unfold in_u; lia|done..|]. intros _.
    case_match eqn:Hc; [|by constructor]. apply andb_true_iff in Hc as [H1 H2].
    apply Z.ltb_lt in H1. apply Z.leb_le in H2. repeat constructor; simpl; lia. }
  destruct (ed_is_c_layout d).
  { simplify_done.
    repeat match goal with
    | Ha : align_up _ _ = Done _ |- _ => apply align_up_spec in Ha as (? & ? & ? & ?)
    end.
    split_and!; simpl; [done..|by constructor]. }
  simplify_done. case_match; simplify_done.
  { split_and!; simpl; [unfold in_u; lia|done..|by constructor]. }
  match goal with
    | Ha : align_up _ _ = Done _ |- _ => apply align_up_spec in Ha as (? & ? & ? & ?)
  end. split_and!; simpl; [done..|by constructor].
Qed.

End LayoutOk.

Section SpecOk.
Context {Spur : Type} `{Countable Spur}.
Implicit Types p : TypeInternPool (Spur := Spur).

Lemma layout_spec_discriminant fuel p d l :
  layout_spec fuel p (discriminant_type d) = Done l → discriminant_layout l.
Proof.
  destruct fuel as [|fuel]; [done|]. unfold discriminant_type.
  repeat case_match; intros Hl; injection Hl as <-; unfold discriminant_layout; simpl;
    (split_and!; [lia|lia|by apply pow2_literal|apply Z.mod_divide; done]).
Qed.

Lemma compute_layout_ok rec p ty l :
  (∀ ty l, rec ty = Done l → layout_ok l) →
  (∀ d l, rec (discriminant_type d) = Done l → discriminant_layout l) →
  compute_layout rec p ty = Done l → layout_ok l.
Proof.
  intros Hrec Hdisc. unfold compute_layout. intros (k & _ & Hl)%bind_Done.
  destruct k; try (injection Hl as <-; solve_scalar_ok).
  - injection Hl as <-. split_and!; [done..|by apply pow2_literal|by apply Z.divide_1_l|].
    intros _. repeat (apply Forall_cons_2 || apply Forall_nil_2);
      unfold niche_ok; split_and!; by vm_compute.
  - injection Hl as <-. split_and!; [done..|by apply pow2_literal|by apply Z.mod_divide|].
    intros _. repeat (apply Forall_cons_2 || apply Forall_nil_2);
      unfold niche_ok; split_and!; by vm_compute.
  - simplify_done. by eapply struct_layout_ok.
  - simplify_done. unfold enum_layout in *. simplify_done. case_match; simplify_done.
    + by eapply try_niche_ok.
    + eapply enum_layout_separate_ok; [apply Hdisc|done].
  - apply bind_Done in Hl as ([elem len] & _ & Hl). by eapply array_layout_ok.
Qed.

Lemma layout_spec_ok fuel p ty l : layout_spec fuel p ty = Done l → layout_ok l.
Proof.
  revert ty l; induction fuel as [|fuel IH]; intros ty l; [done|].
  apply compute_layout_ok; [done|]. apply layout_spec_discriminant.
Qed.

End SpecOk.

(** ** Relating two runs of the same computation

    [compute_layout] is one definition over several effects. A relation between
    two effects that is closed under [mret], [≫=] and [lift] relates the two runs
    of [compute_layout] when it relates the recursive calls at the types a value
    of the type contains. Its instances below give that more fuel does not change
    an answer, that the cached function computes the specification, and that both
    terminate. *)
Class EffectRel {M N : Type → Type}
    `{!MRet M, !MBind M, !LiftOutcome M, !MRet N, !MBind N, !LiftOutcome N}
    (R : ∀ {A}, M A → N A → Prop) : Prop := {
  rel_ret {A} (a : A) : R (mret a) (mret a);
  rel_bind {A B} (m : M A) (m' : N A) (f : A → M B) (f' : A → N B) :
    R m m' → (∀ a, R (f a) (f' a)) → R (m ≫= f) (m' ≫= f');
  rel_lift {A} (o : outcome A) : o ≠ NoFuel → R (lift o) (lift o);
  rel_lift_bind {A B} (o : outcome A) (f : A → M B) (f' : A → N B) :
    o ≠ NoFuel → (∀ a, o = Done a → R (f a) (f' a)) →
    R (lift o ≫= f) (lift o ≫= f');
}.

(** The types whose values are stored inside a value of [ty]: the layouts
    [compute_layout] asks for. *)
Definition contained {Spur} `{Countable Spur} (p : TypeInternPool (Spur := Spur)) (ty : Ty)
    : list Ty :=
  match kind ty with
  | Done (TypeKind.Struct id) =>
      match struct_def p id with Done d => map sf_ty (sd_fields d) | _ => [] end
  | Done (TypeKind.Array id) =>
      match array_def p id with Done (elem_ty, _) => [elem_ty] | _ => [] end
  | Done (TypeKind.Enum id) =>
      match enum_def p id with
      | Done d => discriminant_type d :: concat (map ev_fields (ed_variants d))
      | _ => []
      end
  | _ => []
  end.

Lemma checked_add_total w a b : checked_add w a b ≠ NoFuel.
Proof. unfold checked_add. by case_decide. Qed.
Lemma checked_mul_total w a b : checked_mul w a b ≠ NoFuel.
Proof. unfold checked_mul. by case_decide. Qed.
Lemma checked_sub_total w a b : checked_sub w a b ≠ NoFuel.
Proof. unfold checked_sub. by case_decide. Qed.
#[export] Hint Resolve checked_add_total checked_mul_total checked_sub_total : outcome.
Lemma align_up_total v a : align_up v a ≠ NoFuel.
Proof. unfold align_up. case_match; [|done]. repeat (apply bind_total; [auto with outcome|intros]). done. Qed.
Lemma inherit_niches_total o ns : inherit_niches o ns ≠ NoFuel.
Proof. apply mapM_total. intros. apply bind_total; [auto with outcome|done]. Qed.
#[export] Hint Resolve align_up_total inherit_niches_total : outcome.

Section PoolTotal.
Context {Spur : Type} `{Countable Spur}.
Implicit Types p : TypeInternPool (Spur := Spur).
Lemma struct_def_total p id : struct_def p id ≠ NoFuel.
Proof. apply bind_total; [apply entry_total|]. intros d _. by destruct d. Qed.
Lemma enum_def_total p id : enum_def p id ≠ NoFuel.
Proof. apply bind_total; [apply entry_total|]. intros d _. by destruct d. Qed.
Lemma array_def_total p id : array_def p id ≠ NoFuel.
Proof.
  apply bind_total; [apply entry_total|]. intros d _. destruct d; try done.
  apply bind_total; [apply interned_to_type_recursive_total|done].
Qed.
End PoolTotal.
#[export] Hint Resolve struct_def_total enum_def_total array_def_total : outcome.

Section Relational.
Context {Spur : Type} `{Countable Spur}.
Context {M N : Type → Type}
  `{!MRet M, !MBind M, !LiftOutcome M, !MRet N, !MBind N, !LiftOutcome N}
  (R : ∀ A, M A → N A → Prop) `{!EffectRel R}.
Implicit Types p : TypeInternPool (Spur := Spur).

Lemma rel_mapM {A B} (f : A → M B) (f' : A → N B) l :
  (∀ x, x ∈ l → R _ (f x) (f' x)) → R _ (mapM f l) (mapM f' l).
Proof.
  induction l as [|x l IH]; intros Hf; simpl; [apply rel_ret|].
  apply rel_bind; [apply Hf; by left|]. intros y.
  apply rel_bind; [|intros; apply rel_ret]. apply IH. intros. apply Hf. by right.
Qed.

Lemma rel_foldM {A B} (f : B → A → M B) (f' : B → A → N B) b l :
  (∀ b x, x ∈ l → R _ (f b x) (f' b x)) → R _ (foldM f b l) (foldM f' b l).
Proof.
  revert b; induction l as [|x l IH]; intros b Hf; simpl; [apply rel_ret|].
  apply rel_bind; [apply Hf; by left|]. intros y. apply IH. intros. apply Hf. by right.
Qed.

Context (rec : Ty → M Layout) (rec' : Ty → N Layout).

Lemma struct_layout_rel d :
  (∀ ty, ty ∈ map sf_ty (sd_fields d) → R _ (rec ty) (rec' ty)) →
  R _ (struct_layout rec d) (struct_layout rec' d).
Proof.
  intros Hrec. apply rel_bind.
  - apply rel_foldM. intros [[offset ma] ns] f Hf. simpl.
    apply rel_bind; [apply Hrec, list_elem_of_fmap; eauto|].
    intros l. case_match; [apply rel_ret|].
    repeat (apply rel_bind; [apply rel_lift; auto with outcome|intros]). apply rel_ret.
  - intros [[offset ma] ns]. apply rel_bind; [|intros; apply rel_ret].
    case_match; [apply rel_lift; auto with outcome|apply rel_ret].
Qed.

Lemma max_variant_size_rel d :
  (∀ ty, ty ∈ concat (map ev_fields (ed_variants d)) → R _ (rec ty) (rec' ty)) →
  R _ (max_variant_size rec d) (max_variant_size rec' d).
Proof.
  intros Hrec. apply rel_bind; [|intros; apply rel_ret].
  apply rel_mapM. intros v Hv. apply rel_foldM. intros acc f Hf.
  apply rel_bind; [|intros; apply rel_lift; auto with outcome].
  apply Hrec, list_elem_of_In, in_concat. exists (ev_fields v).
  split; [|by apply list_elem_of_In]. by apply in_map, list_elem_of_In.
Qed.

Lemma enum_layout_separate_rel d :
  (∀ ty, ty ∈ discriminant_type d :: concat (map ev_fields (ed_variants d)) →
     R _ (rec ty) (rec' ty)) →
  R _ (enum_layout_separate rec d) (enum_layout_separate rec' d).
Proof.
  intros Hrec. apply rel_bind; [apply Hrec; by left|]. intros dl.
  case_match; [apply rel_ret|]. 
  assert (Hmax : R _ (max_variant_size rec d) (max_variant_size rec' d))
    by (apply max_variant_size_rel; intros; apply Hrec; by right).
  case_match.
  - apply rel_bind; [apply rel_mapM; intros; apply Hrec; by right|]. intros ls.
    repeat (apply rel_bind; [first [apply Hmax|apply rel_lift; auto with outcome]|intros]).
    apply rel_ret.
  - apply rel_bind; [apply Hmax|]. intros mp. case_match; [apply rel_ret|].
    repeat (apply rel_bind; [apply rel_lift; auto with outcome|intros]). apply rel_ret.
Qed.

Lemma try_niche_rel d :
  (∀ ty, ty ∈ concat (map ev_fields (ed_variants d)) → R _ (rec ty) (rec' ty)) →
  R _ (try_niche_encoded_enum_layout rec d) (try_niche_encoded_enum_layout rec' d).
Proof.
  intros Hrec. unfold try_niche_encoded_enum_layout.
  repeat (case_match; try apply rel_ret).
  all: simplify_eq; (apply rel_bind; [apply Hrec; simpl|]).
  all: try (match goal with Hf : ev_fields _ = _ |- _ => rewrite Hf end; set_solver).
  all: intros pl; destruct (ly_niches pl); [apply rel_ret|];
    (apply rel_bind; [apply rel_lift; auto with outcome|intros; apply rel_ret]).
Qed.

Lemma compute_layout_rel p ty :
  (∀ ty', ty' ∈ contained p ty → R _ (rec ty') (rec' ty')) →
  R _ (compute_layout rec p ty) (compute_layout rec' p ty).
Proof.
  unfold contained, compute_layout. intros Hrec.
  apply rel_lift_bind; [apply kind_total|]. intros k Hk. rewrite Hk in Hrec.
  destruct k; try apply rel_ret.
  - apply rel_lift_bind; [auto with outcome|]. intros d Hd. rewrite Hd in Hrec.
    by apply struct_layout_rel.
  - apply rel_lift_bind; [auto with outcome|]. intros d Hd. rewrite Hd in Hrec.
    apply rel_bind; [apply try_niche_rel; intros; apply Hrec; by right|].
    intros o. case_match; [apply rel_ret|by apply enum_layout_separate_rel].
  - apply rel_lift_bind; [auto with outcome|]. intros [elem len] Hd. rewrite Hd in Hrec.
    apply rel_bind; [apply Hrec; by left|]. intros.
    apply rel_bind; [apply rel_lift; auto with outcome|intros; apply rel_ret].
Qed.

End Relational.

(** ** The cached function computes the specification *)

#[export] Instance refines_rel : EffectRel (@refines).
Proof.
  split; intros.
  - apply refines_refl.
  - by apply refines_bind.
  - apply refines_refl.
  - destruct o; simpl; [by auto|by right..].
Qed.

(** The specification at every fuel at once. *)
Definition FuelM (A : Type) : Type := nat → outcome A.
#[export] Instance FuelM_ret : MRet FuelM := λ A a n, Done a.
#[export] Instance FuelM_bind : MBind FuelM := λ A B f m n, a ← m n; f a n.
#[export] Instance FuelM_lift : LiftOutcome FuelM := λ A o n, o.

Definition at_fuel (n : nat) {A} (m : FuelM A) (o : outcome A) : Prop := m n = o.
#[export] Instance at_fuel_rel n : EffectRel (@at_fuel n).
Proof.
  split; unfold at_fuel; intros; try done.
  - unfold mbind, FuelM_bind. subst. destruct (m n); simpl; auto.
  - unfold mbind, FuelM_bind. destruct o; simpl; auto.
Qed.

(** Every answer the fuelled specification settles on. *)
Definition settles {A} (m : FuelM A) (o : outcome A) : Prop :=
  ∃ n, ∀ n', (n ≤ n')%nat → m n' = o.

Section Cached.
Context {Spur : Type} `{Countable Spur}.
Implicit Types p : TypeInternPool (Spur := Spur).
Implicit Types c : gmap Ty Layout.

Definition spec_at p (ty : Ty) : FuelM Layout := λ n, layout_spec n p ty.

(** The cache holds only layouts of the specification. *)
Definition coherent p c : Prop :=
  ∀ ty l, c !! ty = Some l → settles (spec_at p ty) (Done l).

Definition simulates p {A} (m : CacheM A) (ms : FuelM A) : Prop :=
  ∀ c, coherent p c →
  match m c with
  | Done (a, c') => coherent p c' ∧ settles ms (Done a)
  | Panic => settles ms Panic
  | NoFuel => True
  end.

Lemma settles_bind {A B} (m : FuelM A) (f : A → FuelM B) a o :
  settles m (Done a) → settles (f a) o → settles (m ≫= f) o.
Proof.
  intros [n Hn] [n' Hn']. exists (max n n'). intros k Hk.
  unfold mbind, FuelM_bind. rewrite Hn by lia. simpl. apply Hn'. lia.
Qed.

#[export] Instance simulates_rel p : EffectRel (@simulates p).
Proof.
  split; unfold simulates; intros.
  - split; [done|by exists O].
  - unfold mbind at 1, CacheM_bind. specialize (H0 c ltac:(done)).
    destruct (m c) as [[a c']| |]; simpl; [|by destruct H0 as [n Hn]; exists n; intros;
      unfold mbind, FuelM_bind; rewrite Hn by done|done].
    destruct H0 as [Hc' Ha]. specialize (H1 a c' Hc').
    destruct (f a c') as [[b c'']| |]; [|by eapply settles_bind|done].
    split; [apply H1|]. eapply settles_bind; [done|apply H1].
  - unfold lift at 1, CacheM_lift. destruct o; simpl; [|by exists O|done].
    split; [done|by exists O].
  - unfold mbind at 1, CacheM_bind, lift at 1, CacheM_lift.
    destruct o as [a| |]; simpl; [|by exists O|done].
    specialize (H1 a eq_refl c ltac:(done)).
    destruct (f a c) as [[b c'']| |]; [|by eapply (settles_bind _ _ a); [exists O|]|done].
    split; [apply H1|]. eapply (settles_bind _ _ a); [by exists O|apply H1].
Qed.

Lemma spec_at_step p ty o :
  settles (compute_layout (spec_at p) p ty) o → settles (spec_at p ty) o.
Proof.
  intros [n Hn]. exists (S n). intros [|k] Hk; [lia|].
  transitivity (compute_layout (spec_at p) p ty k); [|apply Hn; lia].
  symmetry. apply (compute_layout_rel (@at_fuel k)). by intros.
Qed.

Lemma layout_of_cache_simulates fuel p ty :
  simulates p (layout_of_cache fuel p ty) (spec_at p ty).
Proof.
  revert ty; induction fuel as [|fuel IH]; intros ty c Hc; simpl.
  - destruct (c !! ty) as [l|] eqn:Hl; [|done]. split; [done|by apply Hc].
  - destruct (c !! ty) as [l|] eqn:Hl; [split; [done|by apply Hc]|].
    pose proof (compute_layout_rel (@simulates p) (layout_of_cache fuel p) (spec_at p) p ty
      ltac:(auto) c Hc) as Hs.
    destruct (compute_layout (layout_of_cache fuel p) p ty c) as [[l c']| |]; simpl;
      [|by apply spec_at_step|done].
    destruct Hs as [Hc' Hs%spec_at_step]. split; [|done].
    intros ty' l'. rewrite lookup_insert_Some. intros [[<- <-]|[_ ?]]; [done|by apply Hc'].
Qed.

Lemma layout_spec_mono fuel fuel' p ty :
  (fuel ≤ fuel')%nat → layout_spec fuel p ty ⊑ₒ layout_spec fuel' p ty.
Proof.
  intros Hle. revert fuel' Hle ty; induction fuel as [|fuel IH]; intros fuel' Hle ty.
  - by left.
  - destruct fuel' as [|fuel']; [lia|]. simpl. apply (compute_layout_rel (@refines)).
    intros. apply IH. lia.
Qed.

Lemma spec_at_settles fuel p ty o :
  settles (spec_at p ty) o → layout_spec fuel p ty ≠ NoFuel → layout_spec fuel p ty = o.
Proof.
  intros [n Hn] Hnf. rewrite <- (Hn (max n fuel)) by lia.
  symmetry. apply refines_total; [apply layout_spec_mono; lia|done].
Qed.

(** ** Termination *)

(** Types are not contained in themselves: containment decreases a rank. *)
Definition ranked p (rank : Ty → nat) : Prop :=
  ∀ ty ty', ty' ∈ contained p ty → (rank ty' < rank ty)%nat.

Definition total_spec {A} (m m' : outcome A) : Prop := m ≠ NoFuel.
#[export] Instance total_spec_rel : EffectRel (@total_spec).
Proof.
  split; unfold total_spec; intros; [done|by apply bind_total; auto|done|].
  apply bind_total; auto.
Qed.
Definition total_cache {A} (m : CacheM A) (m' : outcome A) : Prop := ∀ c, m c ≠ NoFuel.
#[export] Instance total_cache_rel : EffectRel (@total_cache).
Proof.
  split; unfold total_cache; intros.
  - done.
  - apply bind_total; [done|]. intros [a c'] _. apply H1.
  - apply bind_total; done.
  - apply bind_total; [by apply bind_total|]. intros [a c'] Ha.
    unfold lift, CacheM_lift in Ha. apply bind_Done in Ha as (a' & Ha & Hd).
    injection Hd as -> ->. by apply H1.
Qed.

Lemma layout_spec_total fuel p rank ty :
  ranked p rank → (rank ty < fuel)%nat → layout_spec fuel p ty ≠ NoFuel.
Proof.
  intros Hr. revert ty; induction fuel as [|fuel IH]; intros ty Hf; [lia|]. simpl.
  apply (compute_layout_rel (@total_spec) _ (λ _, NoFuel)).
  intros ty' Hty'%Hr. apply IH. lia.
Qed.

Lemma layout_of_cache_total fuel p rank ty c :
  ranked p rank → (rank ty < fuel)%nat → layout_of_cache fuel p ty c ≠ NoFuel.
Proof.
  intros Hr. revert ty c; induction fuel as [|fuel IH]; intros ty c Hf; [lia|]. simpl.
  case_match; [done|]. apply bind_total; [|by intros [??]]. revert c H0. 
  intros c _. apply (compute_layout_rel (@total_cache) _ (λ _, NoFuel)).
  intros ty' Hty'%Hr c'. apply IH. lia.
Qed.

End Cached.

(** ** Niches are sound

    [valid] says which byte strings represent a value of a type, at the offsets
    the layout gives: a [bool] is 0 or 1, a [char] a Unicode scalar value, a
    struct holds valid fields, the discriminant of an enum of unit variants names
    a variant, and a niche-encoded enum holds either the reserved value in its
    niche or a valid payload. The bytes of other types are not constrained. *)

Definition le_value (bs : list Z) : Z := foldr (λ b acc, b + 256 * acc) 0 bs.

(** The [width]-byte little-endian integer at [offset]. *)
Definition slice (bs : list Z) (offset size : Z) : list Z :=
  take (Z.to_nat size) (drop (Z.to_nat offset) bs).
Definition read (bs : list Z) (offset width : Z) : Z := le_value (slice bs offset width).

Definition avoids (bs : list Z) (n : NicheRange) : Prop :=
  ¬ (nr_start n ≤ read bs (nr_offset n) (nr_width n) ≤ nr_end n).

Section Valid.
Context {Spur : Type} `{Countable Spur} (p : TypeInternPool (Spur := Spur)).

Section Fields.
Context (layout_rec : Ty → outcome Layout) (valid_rec : Ty → list Z → Prop).
(** The fields from [offset] on hold valid values, each at its aligned offset. *)
Fixpoint fields_valid (offset : Z) (fields : list StructField) (bs : list Z) : Prop :=
  match fields with
  | [] => True
  | f :: fields =>
      ∃ fl, layout_rec (sf_ty f) = Done fl ∧
      if ly_size fl =? 0 then fields_valid offset fields bs
      else ∃ o, align_up offset (ly_align fl) = Done o ∧
           valid_rec (sf_ty f) (slice bs o (ly_size fl)) ∧
           fields_valid (o + ly_size fl) fields bs
  end.
End Fields.

(** The contents of [bs] by the kind of the type. *)
Definition contents_valid (layout_rec : Ty → outcome Layout) (valid_rec : Ty → list Z → Prop)
    (k : TypeKind) (l : Layout) (bs : list Z) : Prop :=
  match k with
  | TypeKind.Bool => read bs 0 1 < 2
  | TypeKind.Char => read bs 0 4 < 0xD800 ∨ 0xDFFF < read bs 0 4 < 0x110000
  | TypeKind.Struct id =>
      ∃ d, struct_def p id = Done d ∧ fields_valid layout_rec valid_rec 0 (sd_fields d) bs
  | TypeKind.Enum id =>
      ∃ d, enum_def p id = Done d ∧
      match ly_discriminant l with
      | Some (Niche unit_variant data_variant o w v) =>
          read bs o w = v ∨
          ∃ dv ty, ed_variants d !! Z.to_nat data_variant = Some dv ∧
                   ev_fields dv = [ty] ∧ valid_rec ty bs
      | Some (Separate o w _) =>
          is_unit_only d = true → read bs o w < Z.of_nat (length (ed_variants d))
      | None => False
      end
  | _ => True
  end.

Fixpoint valid (fuel : nat) (ty : Ty) (bs : list Z) : Prop :=
  match fuel with
  | O => False
  | S fuel =>
      ∃ k l, kind ty = Done k ∧ layout_spec (S fuel) p ty = Done l ∧
      Forall (in_u 8) bs ∧ Z.of_nat (length bs) = ly_size l ∧
      contents_valid (layout_spec fuel p) (valid fuel) k l bs
  end.

End Valid.

Lemma le_value_bound bs : Forall (in_u 8) bs → 0 ≤ le_value bs < 256 ^ Z.of_nat (length bs).
Proof.
  induction 1 as [|b bs Hb _ IH]; [done|].
  simpl le_value. simpl length. rewrite Nat2Z.inj_succ, Z.pow_succ_r by lia.
  unfold in_u in Hb. lia.
Qed.

Lemma slice_bytes bs o s : Forall (in_u 8) bs → Forall (in_u 8) (slice bs o s).
Proof. intros. by apply Forall_take, Forall_drop. Qed.

Lemma read_bound bs o w : Forall (in_u 8) bs → 0 ≤ read bs o w.
Proof. intros. by apply le_value_bound, slice_bytes. Qed.

Lemma read_slice bs o s o' w :
  0 ≤ o → 0 ≤ o' → 0 ≤ w → o' + w ≤ s → read (slice bs o s) o' w = read bs (o + o') w.
Proof.
  intros. unfold read, slice. f_equal.
  rewrite skipn_firstn_comm, take_take, drop_drop. f_equal; [lia|]. f_equal. lia.
Qed.

Lemma inherit_niches_avoids bs offset size ns ns' :
  0 ≤ offset → offset + size < 2 ^ 32 → 0 ≤ size →
  Forall (niche_ok size) ns → inherit_niches offset ns = Done ns' →
  Forall (avoids (slice bs offset size)) ns → Forall (avoids bs) ns'.
Proof.
  intros Ho Hs Hsz Hns Hm%mapM_Done.
  revert Hns. induction Hm as [|n n' ns ns' Hn _ IH]; intros Hns Hav; [by constructor|].
  inversion_clear Hns as [|?? Hok Hrest]. inversion_clear Hav as [|?? Hav1 Hav2].
  constructor; [|by apply IH].
  simplify_done. rewrite wrap_small in * by (unfold in_u; lia).
  unfold niche_ok in Hok. destruct_and!.
  unfold avoids in *; simpl. rewrite read_slice in Hav1 by lia.
  by rewrite (Z.add_comm (nr_offset n)).
Qed.

Section Sound.
Context {Spur : Type} `{Countable Spur} (p : TypeInternPool (Spur := Spur)).
Context (rec : Ty → outcome Layout) (valid_rec : Ty → list Z → Prop).
Hypothesis Hok : ∀ ty l, rec ty = Done l → layout_ok l.
Hypothesis Hsound : ∀ ty l bs, rec ty = Done l → valid_rec ty bs →
  ly_size l < 2 ^ 32 → Forall (avoids bs) (ly_niches l).

Lemma struct_step_offset st f st' :
  struct_step rec st f = Done st' → st.1.1 ≤ st'.1.1.
Proof.
  destruct st as [[offset ma] ns]. unfold struct_step. intros (fl & Hl & Hs)%bind_Done.
  apply Hok in Hl as (Hsz & _). case_match; [by injection Hs as <-|].
  unfold lift, lift_outcome in Hs. simplify_done.
  match goal with Ha : align_up _ _ = Done _ |- _ =>
    apply align_up_spec in Ha as (_ & ? & _) end.
  simpl. unfold in_u in *. lia.
Qed.

Lemma struct_loop_offset fields st st' :
  foldM (struct_step rec) st fields = Done st' → st.1.1 ≤ st'.1.1.
Proof.
  intros Hf. eapply (foldM_inv (λ s, st.1.1 ≤ s.1.1)); [done|lia|].
  intros b f b' _ Hb Hs%struct_step_offset. lia.
Qed.

Lemma struct_loop_sound fields offset ma ns bs st' :
  foldM (struct_step rec) (offset, ma, ns) fields = Done st' →
  0 ≤ offset → st'.1.1 < 2 ^ 32 →
  fields_valid rec valid_rec offset fields bs →
  Forall (avoids bs) ns → Forall (avoids bs) st'.2.
Proof.
  revert offset ma ns. induction fields as [|f fields IH]; intros offset ma ns.
  { by intros [= <-]. }
  intros Hst Ho Hlt Hv Hns. destruct Hv as (fl & Hfl & Hv).
  simpl foldM in Hst. apply bind_Done in Hst as (st1 & Hst1 & Hst).
  pose proof (struct_loop_offset _ _ _ Hst) as Hle.
  unfold struct_step in Hst1. rewrite Hfl in Hst1. simpl in Hst1.
  destruct (Z.eqb_spec (ly_size fl) 0); [injection Hst1 as <-; by eapply IH|].
  destruct Hv as (o & Ho' & Hvf & Hvr). pose proof (Hok _ _ Hfl) as (Hsz & _ & _ & Hn).
  unfold lift, lift_outcome in Hst1. rewrite Ho' in Hst1. simpl in Hst1. simplify_done.
  apply align_up_spec in Ho' as (_ & Hb & _). simpl in Hle. unfold in_u in *.
  eapply IH; [done|lia|done|done|]. apply Forall_app; split; [done|].
  eapply (inherit_niches_avoids _ o (ly_size fl)); [..|done|]; [lia|lia|lia|apply Hn; lia|].
  eapply Hsound; [done|done|lia].
Qed.

Lemma struct_sound d l bs :
  struct_layout rec d = Done l → fields_valid rec valid_rec 0 (sd_fields d) bs →
  ly_size l < 2 ^ 32 → Forall (avoids bs) (ly_niches l).
Proof.
  unfold struct_layout. intros (st & Hst & Hl)%bind_Done Hv Hlt.
  destruct st as [[offset ma] ns]. apply bind_Done in Hl as (size & Hsz & Hl).
  injection Hl as <-. simpl in *.
  eapply (struct_loop_sound _ 0 1 [] bs (offset, ma, ns)); [done|lia| |done|by constructor].
  simpl. case_match; [|by injection Hsz as ->].
  apply align_up_spec in Hsz as (_ & ? & _). lia.
Qed.

(** What the choice of a niche layout tells about the enum. *)
Lemma try_niche_inv d l :
  try_niche_encoded_enum_layout rec d = Done (Some l) →
  ∃ ui di dv ty pl n ns,
    ed_variants d !! Z.to_nat di = Some dv ∧ ev_fields dv = [ty] ∧ rec ty = Done pl ∧
    ly_niches pl = n :: ns ∧ l = niche_layout ui di pl n (nr_start n + 1).
Proof.
  unfold try_niche_encoded_enum_layout.
  repeat (case_match; try by intros; simplify_done).
  all: simplify_eq; intros (pl & Hpl & Hl)%bind_Done.
  all: destruct (ly_niches pl) as [|n ns] eqn:Hns; [done|].
  all: unfold lift, lift_outcome in Hl; simplify_done.
  all: do 7 eexists; (split_and!; [| |done|done|reflexivity]); done.
Qed.

Lemma niche_enum_sound d l bs :
  try_niche_encoded_enum_layout rec d = Done (Some l) →
  (match ly_discriminant l with
   | Some (Niche _ data_variant o w v) =>
       read bs o w = v ∨ ∃ dv ty, ed_variants d !! Z.to_nat data_variant = Some dv ∧
                                  ev_fields dv = [ty] ∧ valid_rec ty bs
   | _ => False end) →
  ly_size l < 2 ^ 32 → Forall (avoids bs) (ly_niches l).
Proof.
  intros (ui & di & dv & ty & pl & n & ns & Hdv & Hf & Hpl & Hns & ->)%try_niche_inv.
  simpl. intros Hv Hlt. case_match eqn:Hle; [|by constructor]. constructor; [|by constructor].
  unfold avoids; simpl. destruct Hv as [->|(dv' & ty' & Hdv' & Hf' & Hv)]; [lia|].
  simplify_eq. rewrite Hf in Hf'. injection Hf' as <-.
  pose proof (Hsound _ _ _ Hpl Hv Hlt) as Hav. rewrite Hns in Hav.
  inversion_clear Hav as [|?? Hn _]. unfold avoids in Hn. lia.
Qed.

Lemma separate_enum_sound d l bs :
  enum_layout_separate rec d = Done l →
  (match ly_discriminant l with
   | Some (Separate o w _) =>
       is_unit_only d = true → read bs o w < Z.of_nat (length (ed_variants d))
   | _ => False end) →
  Forall (avoids bs) (ly_niches l).
Proof.
  unfold enum_layout_separate. intros (dl & _ & Hl)%bind_Done.
  destruct (is_unit_only d).
  { injection Hl as <-. simpl. intros Hv. specialize (Hv eq_refl).
    case_match; repeat constructor. unfold avoids; simpl. lia. }
  intros _. unfold lift, lift_outcome in Hl. case_match; simplify_done; [by constructor|].
  case_match; simplify_done; by constructor.
Qed.

End Sound.

Section NicheSound.
Context {Spur : Type} `{Countable Spur} (p : TypeInternPool (Spur := Spur)).

Lemma enum_separate_discriminant rec d l :
  enum_layout_separate rec d = Done l → ∃ o w po, ly_discriminant l = Some (Separate o w po).
Proof.
  unfold enum_layout_separate, lift, lift_outcome. intros (dl & _ & Hl)%bind_Done.
  repeat case_match; simplify_done; repeat case_match; simplify_done; by do 3 eexists.
Qed.

Lemma valid_avoids_niches fuel ty bs l :
  valid p fuel ty bs → layout_spec fuel p ty = Done l → ly_size l < 2 ^ 32 →
  Forall (avoids bs) (ly_niches l).
Proof.
  revert ty bs l; induction fuel as [|fuel IH]; intros ty bs l; [done|].
  intros (k & l' & Hk & Hl' & Hbs & Hlen & Hc) Hl Hlt.
  rewrite Hl in Hl'. injection Hl' as <-. simpl in Hl. unfold compute_layout in Hl.
  rewrite Hk in Hl. simpl in Hl.
  assert (Hs : ∀ ty l bs, layout_spec fuel p ty = Done l → valid p fuel ty bs →
    ly_size l < 2 ^ 32 → Forall (avoids bs) (ly_niches l)) by eauto.
  destruct k; try (injection Hl as <-; by constructor).
  - injection Hl as <-. simpl in *. repeat constructor. unfold avoids; simpl. lia.
  - injection Hl as <-. simpl in *. repeat constructor; unfold avoids; simpl; lia.
  - destruct Hc as (d & Hd & Hv). unfold lift, lift_outcome in Hl. rewrite Hd in Hl. simpl in Hl.
    eapply (struct_sound (layout_spec fuel p)); [apply layout_spec_ok|exact Hs|done..].
  - destruct Hc as (d & Hd & Hv). unfold lift, lift_outcome in Hl. rewrite Hd in Hl. simpl in Hl.
    unfold enum_layout in Hl. apply bind_Done in Hl as (o & Ho & Hl). destruct o as [nl|].
    + injection Hl as <-. eapply (niche_enum_sound (layout_spec fuel p)); [exact Hs|done|..|done].
      apply try_niche_inv in Ho as (ui & di & dv & ty' & pl & n & ns & ? & ? & ? & ? & ->). exact Hv.
    + eapply separate_enum_sound; [done|].
      apply enum_separate_discriminant in Hl as (o & w & po & Hd'). by rewrite Hd' in *.
  - apply bind_Done in Hl as ([elem len] & _ & Hl). unfold array_layout in Hl. simplify_done.
    by constructor.
Qed.

End NicheSound.

(** ** Main theorems *)

(** A little-endian write of the [width] low bytes of [v] at [offset]. *)
Fixpoint encode_le (width : nat) (v : Z) : list Z :=
  match width with O => [] | S w => v mod 256 :: encode_le w (v / 256) end.
Definition write (bs : list Z) (offset width v : Z) : list Z :=
  take (Z.to_nat offset) bs ++ encode_le (Z.to_nat width) v ++
  drop (Z.to_nat offset + Z.to_nat width) bs.

Lemma le_value_encode w v : 0 ≤ v < 256 ^ Z.of_nat w → le_value (encode_le w v) = v.
Proof.
  revert v; induction w as [|w IH]; intros v Hv; [simpl in *; lia|].
  rewrite Nat2Z.inj_succ, Z.pow_succ_r in Hv by lia. simpl. rewrite IH.
  - pose proof (Z.div_mod v 256). lia.
  - split; [apply Z.div_pos; lia|apply Z.div_lt_upper_bound; lia].
Qed.

Lemma length_encode_le w v : length (encode_le w v) = w.
Proof. revert v; induction w; intros; simpl; auto. Qed.

Lemma read_write bs o w v :
  0 ≤ o → 0 ≤ w → o + w ≤ Z.of_nat (length bs) → 0 ≤ v ≤ max_for_width w → w ≤ 16 →
  read (write bs o w v) o w = v.
Proof.
  intros Ho Hw Hlen Hv Hw16. unfold read, slice, write.
  rewrite drop_app_length' by (rewrite length_take; lia).
  rewrite take_app_length' by (rewrite length_encode_le; lia).
  apply le_value_encode. unfold max_for_width in Hv.
  rewrite Z2Nat.id by done. replace 256 with (2 ^ 8) by done.
  rewrite <- Z.pow_mul_r by lia. replace (8 * w) with (w * 8) by lia.
  case_match eqn:Hb; [|lia]. apply Z.leb_le in Hb. replace w with 16 by lia.
  change (16 * 8) with 128. lia.
Qed.

Section Theorems.
Context {Spur : Type} `{Countable Spur}.
Implicit Types p : TypeInternPool (Spur := Spur).

Lemma layout_of_settles fuel p ty l p' :
  coherent p (layout_cache p) → layout_of fuel p ty = Done (l, p') →
  settles (spec_at p ty) (Done l) ∧ coherent p (layout_cache p') ∧
  p' = set_layout_cache (λ _, layout_cache p') p.
Proof.
  intros Hc. unfold layout_of. intros ([l' c] & Hl & Hp)%bind_Done. injection Hp as -> <-.
  pose proof (layout_of_cache_simulates fuel p ty _ Hc) as Hs. rewrite Hl in Hs.
  destruct Hs. by split_and!.
Qed.

Lemma layout_of_spec fuel fuel' p ty l p' :
  coherent p (layout_cache p) → layout_of fuel p ty = Done (l, p') →
  layout_spec fuel' p ty ≠ NoFuel → layout_spec fuel' p ty = Done l.
Proof. intros Hc Hl%layout_of_settles; [|done]. destruct Hl. by apply spec_at_settles. Qed.

(** The specification does not read the cache. *)
Lemma layout_spec_cache fuel f p ty :
  layout_spec fuel (set_layout_cache f p) ty = layout_spec fuel p ty.
Proof.
  revert ty; induction fuel as [|fuel IH]; intros ty; [done|].
  destruct (compute_layout_rel (@refines) (layout_spec fuel (set_layout_cache f p))
    (layout_spec fuel p) p ty) as [Hx|Hx].
  - intros ty' _. rewrite IH. apply refines_refl.
  - simpl. change (compute_layout (layout_spec fuel (set_layout_cache f p)) p ty =
      compute_layout (layout_spec fuel p) p ty). rewrite Hx. symmetry.
    destruct (compute_layout_rel (@refines) (layout_spec fuel p)
      (layout_spec fuel (set_layout_cache f p)) p ty) as [?|Hy]; [|done|congruence].
    intros ty' _. rewrite IH. apply refines_refl.
  - exact Hx.
Qed.

(** C10: the memoised [layout_of] computes the layout of the type. If containment
    between types is well founded (a rank decreases from a type to the types
    stored in its values) and the cache holds only layouts of the
    specification, then with fuel above the rank [layout_of] terminates, answers
    exactly what the same recursion without a cache answers (panics included),
    and leaves a pool that differs only in the cache, which is again correct. *)
Theorem layout_of_computes_spec fuel p rank (ty : Ty) :
  coherent p (layout_cache p) → ranked p rank → (rank ty < fuel)%nat →
  match layout_of fuel p ty with
  | Done (l, p') => layout_spec fuel p ty = Done l ∧ coherent p' (layout_cache p') ∧
                    p' = set_layout_cache (λ _, layout_cache p') p
  | Panic => layout_spec fuel p ty = Panic
  | NoFuel => False
  end.
Proof.
  intros Hc Hr Hf. pose proof (layout_spec_total _ _ _ _ Hr Hf) as Hnf.
  destruct (layout_of fuel p ty) as [[l p']| |] eqn:Hl.
  - destruct (layout_of_settles _ _ _ _ _ Hc Hl) as (Hs & Hc' & Hp').
    split_and!; [by apply spec_at_settles| |done].
    intros ty' l' Hl'. rewrite Hp'. apply Hc' in Hl' as [n Hn]. exists n. intros n' Hn'.
    unfold spec_at. rewrite layout_spec_cache. by apply Hn.
  - apply spec_at_settles; [|done]. unfold layout_of in Hl.
    pose proof (layout_of_cache_simulates fuel p ty _ Hc) as Hs.
    by destruct (layout_of_cache fuel p ty (layout_cache p)) as [[??]| |].
  - unfold layout_of in Hl. pose proof (layout_of_cache_total _ _ _ _ (layout_cache p) Hr Hf).
    by destruct (layout_of_cache fuel p ty (layout_cache p)) as [[??]| |].
Qed.

(** Every layout [layout_of] returns is well formed: the alignment is a power
    of two that divides the size, and (for values under 4 GiB) each niche lies
    inside the value and is a range of values of its width. *)
Theorem layout_of_well_formed fuel p (ty : Ty) l p' :
  coherent p (layout_cache p) → layout_of fuel p ty = Done (l, p') → layout_ok l.
Proof.
  intros Hc Hl. destruct (layout_of_settles _ _ _ _ _ Hc Hl) as ([n Hn] & _).
  by apply (layout_spec_ok n p ty), Hn.
Qed.

(** C6: niches are sound: the bytes of a valid value (under 4 GiB) never hold a
    forbidden value at a niche of the type's layout. *)
Theorem niches_are_sound fuel fuel' p (ty : Ty) l p' bs :
  coherent p (layout_cache p) → layout_of fuel p ty = Done (l, p') →
  ly_size l < 2 ^ 32 → valid p fuel' ty bs →
  ∀ n, n ∈ ly_niches l → ¬ (nr_start n ≤ read bs (nr_offset n) (nr_width n) ≤ nr_end n).
Proof.
  intros Hc Hl Hlt Hv. destruct fuel' as [|fuel']; [done|].
  assert (Hs : layout_spec (S fuel') p ty = Done l).
  { eapply layout_of_spec; [done..|]. by destruct Hv as (k & l' & _ & -> & _). }
  pose proof (valid_avoids_niches p _ _ _ _ Hv Hs Hlt) as Hav.
  intros n Hn. by eapply (proj1 (Forall_forall _ _) Hav n), list_elem_of_In.
Qed.

(** C11: the niche encoding of an Option-shaped enum decodes unambiguously: no
    valid payload reads the reserved value at the niche, and storing the
    reserved value into the enum's bytes at the niche reads back as it, so
    [read = niche_value] holds exactly for the unit variant. *)
Theorem niche_encoding_unambiguous fuel fuel' p d (l : Layout) bs u dv o w v :
  enum_layout (layout_spec fuel p) d = Done l → ly_size l < 2 ^ 32 →
  ly_discriminant l = Some (Niche u dv o w v) → Z.of_nat (length bs) = ly_size l →
  (∀ vd ty, ed_variants d !! Z.to_nat dv = Some vd → ev_fields vd = [ty] →
     valid p fuel' ty bs → read bs o w ≠ v) ∧
  read (write bs o w v) o w = v.
Proof.
  unfold enum_layout. intros (ol & Ho & Hl)%bind_Done Hlt Hd Hlen. destruct ol as [nl|].
  2: { apply enum_separate_discriminant in Hl as (?&?&?&Hl). congruence. }
  injection Hl as ->.
  apply try_niche_inv in Ho as (ui & di & dv' & ty & pl & n & ns & Hdv & Hf & Hpl & Hns & ->).
  simpl in *. injection Hd as <- <- <- <- <-.
  pose proof (layout_spec_ok _ _ _ _ Hpl) as (_ & _ & _ & Hok).
  specialize (Hok Hlt). rewrite Hns in Hok. inversion_clear Hok as [|?? Hn _].
  split.
  - intros vd ty' Hvd Hf' Hv. rewrite Hdv in Hvd. injection Hvd as <-.
    rewrite Hf in Hf'. injection Hf' as <-.
    assert (Hs : layout_spec fuel' p ty = Done pl).
    { assert (layout_spec fuel' p ty ≠ NoFuel).
      { destruct fuel' as [|fuel']; [done|]. by destruct Hv as (k & l' & _ & -> & _). }
      destruct (layout_spec_mono fuel (max fuel fuel') p ty) as [?|Hx]; [lia|congruence|].
      destruct (layout_spec_mono fuel' (max fuel fuel') p ty) as [?|Hy]; [lia|congruence|].
      congruence. }
    pose proof (valid_avoids_niches p _ _ _ _ Hv Hs Hlt) as Hav.
    rewrite Hns in Hav. inversion_clear Hav as [|?? Hn' _]. unfold avoids in Hn'.
    destruct Hn as (_ & _ & _ & ? & _). lia.
  - destruct Hn as (? & ? & ? & ? & ?). apply read_write; lia.
Qed.

(** The layout of an integer type has exactly the width its literals are
    checked against, and is naturally aligned. *)
Theorem integer_layout_width fuel p (k : TypeKind) (signed : bool) (bits : Z) :
  kind_class k = Some (if signed then SignedInt bits else UnsignedInt bits) →
  layout_spec (S fuel) p (of_kind k) = Done (scalar (bits / 8) (bits / 8)).
Proof.
  destruct k, signed; simpl; intros [= <-]; reflexivity.
Qed.

(** An enum marked [@mark(c)] of the Option shape over [bool] is still
    niche-encoded: one byte, without the [c_int] tag of a C tagged union. *)
Theorem c_layout_enum_is_niche_encoded fuel p d v0 v1 :
  ed_is_c_layout d = true → ed_variants d = [v0; v1] →
  ev_fields v0 = [] → ev_fields v1 = [Ty.BOOL] →
  enum_layout (layout_spec (S fuel) p) d =
    Done (MkLayout 1 1 [MkNiche 0 1 3 255] (Some (Niche 0 1 0 1 2))).
Proof.
  intros _ Hv H0 H1. unfold enum_layout, try_niche_encoded_enum_layout, has_data.
  rewrite Hv, H0, H1; simpl. rewrite H1. reflexivity.
Qed.

End Theorems.

(** ** Witnesses *)

Module Sample.
(** [enum Opt { None, Some(bool) }], [struct S { a: u8, o: Opt, c: i32 }],
    [[u8; 4294967296]] and [struct Big { a: [u8; 4294967296], b: bool }]. *)
Definition opt (c_layout : bool) : EnumDef :=
  MkEnumDef "Opt" [MkEnumVariantDef "None" [] []; MkEnumVariantDef "Some" [Ty.BOOL] []]
    Affine Sync false 0 None c_layout.
Definition struct_of (name : string) (fields : list StructField) : StructDef :=
  MkStructDef name fields Affine false Sync None false false 0 false.
Definition pool : TypeInternPool (Spur := nat) := set_types (λ _,
  [TEnum (MkEnumData 0%nat (opt false));
   TStruct (MkStructData 1%nat (struct_of "S"
     [MkStructField "a" Ty.U8 true; MkStructField "o" (new_enum 0) true;
      MkStructField "c" Ty.I32 true]));
   TArray Interned.U8 4294967296;
   TStruct (MkStructData 2%nat (struct_of "Big"
     [MkStructField "a" (new_array 2) true; MkStructField "b" Ty.BOOL true]))]) new_pool.
Definition S_ty : Ty := new_struct 1.
Definition Big_ty : Ty := new_struct 3.
Definition rank (ty : Ty) : nat :=
  match kind ty with
  | Done (TypeKind.Struct id | TypeKind.Enum id | TypeKind.Array id) => S (Z.to_nat id)
  | _ => 0%nat
  end.

Lemma entry_inv id d : entry pool id = Done d → id = 0 ∨ id = 1 ∨ id = 2 ∨ id = 3.
Proof. unfold entry. case_decide; [|done]. intros Hd%expect_Done%lookup_lt_Some. simpl in Hd. lia. Qed.

Lemma pool_ranked : ranked pool rank.
Proof.
  intros ty ty'. unfold contained, rank at 2.
  destruct (kind ty) as [k| |]; [|by intros ?%elem_of_nil..].
  destruct k; try by intros ?%elem_of_nil.
  all: match goal with |- context [Z.to_nat ?id] =>
    destruct (entry pool id) as [d| |] eqn:Hd;
    [|unfold struct_def, enum_def, array_def; rewrite Hd; by intros ?%elem_of_nil..];
    apply entry_inv in Hd as [->|[->|[->| ->]]] end.
  all: vm_compute contained; intros Hin; repeat (apply elem_of_cons in Hin as [->|Hin]);
    try (by apply elem_of_nil in Hin); vm_compute; lia.
Qed.

Lemma pool_coherent : coherent pool (layout_cache pool).
Proof.
  intros ty l Hl. change ((∅ : gmap Ty Layout) !! ty = Some l) in Hl.
  by rewrite lookup_empty in Hl.
Qed.

(** The bytes of [S { a: 7, o: Some(true), c: 1 }]. *)
Definition bytes : list Z := [7; 1; 0; 0; 1; 0; 0; 0].
Ltac open_valid :=
  eexists _, _; (split; [reflexivity|]); (split; [vm_compute; reflexivity|]);
  (split; [repeat constructor; by vm_compute|]); (split; [reflexivity|]).
Ltac known := eexists; (split; [reflexivity|]).
Lemma bytes_valid : valid pool 3 S_ty bytes.
Proof.
  open_valid. known. known. known. split; [by open_valid|].
  known. known. split.
  { open_valid. known. right. eexists _, _. split; [reflexivity|]. split; [reflexivity|].
    by open_valid. }
  known. known. split; [by open_valid|done].
Qed.
End Sample.

Lemma layout_of_computes_spec_witness :
  ∃ p', layout_of 3 Sample.pool Sample.S_ty =
    Done (MkLayout 8 4 [MkNiche 1 1 3 255] None, p') ∧ coherent p' (layout_cache p').
Proof.
  assert (Hx := layout_of_computes_spec 3 Sample.pool Sample.rank Sample.S_ty
    Sample.pool_coherent Sample.pool_ranked ltac:(vm_compute; lia)).
  eexists. split; [vm_compute; reflexivity|].
  destruct (layout_of 3 Sample.pool Sample.S_ty) as [[l p']| |] eqn:Hl; [|done..].
  vm_compute in Hl. injection Hl as _ Hp. destruct Hx as (_ & Hc & _). by rewrite <- Hp in Hc.
Defined.

Lemma layout_of_well_formed_witness : layout_ok (MkLayout 8 4 [MkNiche 1 1 3 255] None).
Proof.
  eapply (layout_of_well_formed 3 Sample.pool Sample.S_ty _ _ Sample.pool_coherent).
  vm_compute. reflexivity.
Defined.

Lemma niches_are_sound_witness : ¬ (3 ≤ read Sample.bytes 1 1 ≤ 255).
Proof.
  refine (niches_are_sound 3 3 Sample.pool Sample.S_ty (MkLayout 8 4 [MkNiche 1 1 3 255] None)
    _ Sample.bytes Sample.pool_coherent _ _ Sample.bytes_valid (MkNiche 1 1 3 255) _).
  - vm_compute. reflexivity.
  - done.
  - by left.
Defined.

Lemma niche_encoding_unambiguous_witness :
  read [1] 0 1 ≠ 2 ∧ read (write [1] 0 1 2) 0 1 = 2.
Proof.
  destruct (niche_encoding_unambiguous 1 1 Sample.pool (Sample.opt false)
    (MkLayout 1 1 [MkNiche 0 1 3 255] (Some (Niche 0 1 0 1 2))) [1] 0 1 0 1 2) as [H1 H2];
    [reflexivity|reflexivity|reflexivity|reflexivity|].
  split; [|exact H2].
  apply (H1 (MkEnumVariantDef "Some" [Ty.BOOL] []) Ty.BOOL eq_refl eq_refl).
  by Sample.open_valid.
Defined.

Lemma integer_layout_width_witness :
  layout_spec 1 Sample.pool Ty.I64 = Done (scalar 8 8).
Proof. exact (integer_layout_width 0 Sample.pool TypeKind.I64 true 64 eq_refl). Defined.

Lemma c_layout_enum_is_niche_encoded_witness :
  enum_layout (layout_spec 1 Sample.pool) (Sample.opt true) =
    Done (MkLayout 1 1 [MkNiche 0 1 3 255] (Some (Niche 0 1 0 1 2))).
Proof. by eapply (c_layout_enum_is_niche_encoded 0 Sample.pool (Sample.opt true)). Defined.

(** The offset of a niche is kept in 32 bits: in
    [struct Big { a: [u8; 4294967296], b: bool }] the niche of [b] is recorded at
    offset 0, inside [a], although [b] is stored at offset 4294967296. *)
Theorem struct_niche_offset_truncates :
  ∃ p', layout_of 3 Sample.pool Sample.Big_ty =
    Done (MkLayout 4294967297 1 [MkNiche 0 1 2 255] None, p').
Proof. eexists. vm_compute. reflexivity. Qed.
