(* ===== verification/AirPattern.v ===== *)
(** * AIR match patterns and their word encoding

    Models [AirPattern], [AirPattern::encode], [encode_pattern_tree],
    [decode_pattern_tree] and [MatchArmIterator] of
    [crates/gruel-air/src/inst.rs]. Interned names ([lasso::Spur]) belong to a
    third-party crate: the type and its two conversions are parameters, with the
    documented law of [lasso::Key] (a key converts back from its index, and the
    indices of [Spur] fit 32 bits) as the class [SpurKey].

    [decode_pattern_tree] recurses on tails of its input; it runs on fuel, and
    one unit more than the length of the input is always enough
    ([decode_terminates]). *)

From S2P Require Import Prelude Types.

#[local] Open Scope Z_scope.

(** [lasso::Key] for [lasso::Spur]. *)
Class SpurKey (Spur : Type) := {
  into_usize : Spur → Z;
  try_from_usize : Z → option Spur;
}.
Class SpurLaws (Spur : Type) `{!SpurKey Spur} : Prop := {
  try_from_into (s : Spur) : try_from_usize (into_usize s) = Some s;
  into_usize_u32 (s : Spur) : in_u32 (into_usize s);
}.

(** [x as i64] of a 64-bit pattern. *)
Definition to_i64 (x : Z) : Z := (x + 2 ^ 63) mod 2 ^ 64 - 2 ^ 63.

(** [&data[offset..]]: a panic when [offset] is past the end. *)
Definition slice_from {A} (data : list A) (offset : nat) : outcome (list A) :=
  if decide (offset ≤ length data)%nat then Done (drop offset data) else Panic.
(** [data[i]]. *)
Definition index {A} (data : list A) (i : nat) : outcome A := expect (data !! i).

(** [for _ in 0..n { .. }] over the mutable locals [b]. *)
Fixpoint repeatM {B} (n : nat) (f : B → outcome B) (b : B) : outcome B :=
  match n with O => mret b | S n => b' ← f b; repeatM n f b' end.

Section AirPattern.
Context {Spur : Type} `{!SpurKey Spur}.

Inductive AirPattern : Type :=
  | Wildcard
  | PInt (n : Z)                       (* i64 *)
  | PBool (b : bool)
  | PEnumVariant (enum_id variant_index : Z)
  | PBind (name : Spur) (is_mut : bool) (inner : option AirPattern)
  | PTuple (elems : list AirPattern)
  | PStruct (struct_id : Z) (fields : list (Z * AirPattern))
  | PEnumDataVariant (enum_id variant_index : Z) (fields : list AirPattern)
  | PEnumStructVariant (enum_id variant_index : Z) (fields : list (Z * AirPattern))
  | PEnumUnitVariant (enum_id variant_index : Z).

Definition PATTERN_WILDCARD : Z := 0.
Definition PATTERN_INT : Z := 1.
Definition PATTERN_BOOL : Z := 2.
Definition PATTERN_ENUM_VARIANT : Z := 3.
Definition PATTERN_BIND : Z := 4.
Definition PATTERN_TUPLE : Z := 5.
Definition PATTERN_STRUCT : Z := 6.
Definition PATTERN_ENUM_DATA : Z := 7.
Definition PATTERN_ENUM_STRUCT : Z := 8.
Definition PATTERN_ENUM_UNIT : Z := 9.

(** [encode_pattern_tree(pattern, out)]: the words are pushed at the end of [out]. *)
Fixpoint encode_pattern_tree (pattern : AirPattern) (out : list Z) : list Z :=
  match pattern with
  | Wildcard => out ++ [PATTERN_WILDCARD]
  | PInt n => out ++ [PATTERN_INT; wrap 32 n; wrap 32 (Z.shiftr n 32)]
  | PBool b => out ++ [PATTERN_BOOL; if b then 1 else 0]
  | PEnumVariant enum_id variant_index => out ++ [PATTERN_ENUM_VARIANT; enum_id; variant_index]
  | PBind name is_mut inner =>
      let flags := Z.lor (if is_mut then 1 else 0) (if inner then 2 else 0) in
      let out := out ++ [PATTERN_BIND; wrap 32 (into_usize name); flags] in
      match inner with
      | Some inner => encode_pattern_tree inner out
      | None => out
      end
  | PTuple elems =>
      let out := out ++ [PATTERN_TUPLE; wrap 32 (Z.of_nat (length elems))] in
      foldl (λ out e, encode_pattern_tree e out) out elems
  | PStruct struct_id fields =>
      let out := out ++ [PATTERN_STRUCT; struct_id; wrap 32 (Z.of_nat (length fields))] in
      foldl (λ out f, encode_pattern_tree f.2 (out ++ [f.1])) out fields
  | PEnumDataVariant enum_id variant_index fields =>
      let out := out ++ [PATTERN_ENUM_DATA; enum_id; variant_index;
                         wrap 32 (Z.of_nat (length fields))] in
      foldl (λ out e, encode_pattern_tree e out) out fields
  | PEnumStructVariant enum_id variant_index fields =>
      let out := out ++ [PATTERN_ENUM_STRUCT; enum_id; variant_index;
                         wrap 32 (Z.of_nat (length fields))] in
      foldl (λ out f, encode_pattern_tree f.2 (out ++ [f.1])) out fields
  | PEnumUnitVariant enum_id variant_index => out ++ [PATTERN_ENUM_UNIT; enum_id; variant_index]
  end.

(** [AirPattern::encode]. *)
Definition encode (pattern : AirPattern) (body : Z) (out : list Z) : list Z :=
  encode_pattern_tree pattern (out ++ [body]).

Section Loops.
Context (decode : list Z → outcome (AirPattern * nat)) (data : list Z).
(** One more sub-pattern, read at the offset. *)
Definition elem_step (st : list AirPattern * nat) : outcome (list AirPattern * nat) :=
  let '(elems, offset) := st in
  rest ← slice_from data offset;
  '(p, consumed) ← decode rest;
  mret (elems ++ [p], (offset + consumed)%nat).
(** One more sub-pattern, preceded by its field index. *)
Definition field_step (st : list (Z * AirPattern) * nat) : outcome (list (Z * AirPattern) * nat) :=
  let '(fields, offset) := st in
  field_index ← index data offset;
  rest ← slice_from data (offset + 1);
  '(p, consumed) ← decode rest;
  mret (fields ++ [(field_index, p)], (offset + 1 + consumed)%nat).
(** The loops over [n] sub-patterns from [offset]. *)
Definition decode_elems (n : Z) (offset : nat) : outcome (list AirPattern * nat) :=
  repeatM (Z.to_nat n) elem_step ([], offset).
Definition decode_fields (n : Z) (offset : nat) : outcome (list (Z * AirPattern) * nat) :=
  repeatM (Z.to_nat n) field_step ([], offset).
End Loops.

(** [decode_pattern_tree]. *)
Fixpoint decode_pattern_tree (fuel : nat) (data : list Z) : outcome (AirPattern * nat) :=
  match fuel with
  | O => NoFuel
  | S fuel =>
    let decode := decode_pattern_tree fuel in
    tag ← index data 0;
    if tag =? PATTERN_WILDCARD then mret (Wildcard, 1%nat)
    else if tag =? PATTERN_INT then
      lo ← index data 1;
      w ← index data 2;
      mret (PInt (to_i64 (Z.lor lo (shl 64 w 32))), 3%nat)
    else if tag =? PATTERN_BOOL then
      b ← index data 1; mret (PBool (negb (b =? 0)), 2%nat)
    else if tag =? PATTERN_ENUM_VARIANT then
      enum_id ← index data 1; variant_index ← index data 2;
      mret (PEnumVariant enum_id variant_index, 3%nat)
    else if tag =? PATTERN_BIND then
      n ← index data 1;
      name ← expect (try_from_usize n);
      flags ← index data 2;
      let is_mut := negb (Z.land flags 1 =? 0) in
      let has_inner := negb (Z.land flags 2 =? 0) in
      if has_inner then
        rest ← slice_from data 3;
        '(p, consumed) ← decode rest;
        mret (PBind name is_mut (Some p), (3 + consumed)%nat)
      else mret (PBind name is_mut None, 3%nat)
    else if tag =? PATTERN_TUPLE then
      n ← index data 1;
      '(elems, offset) ← decode_elems decode data n 2;
      mret (PTuple elems, offset)
    else if tag =? PATTERN_STRUCT then
      struct_id ← index data 1; n ← index data 2;
      '(fields, offset) ← decode_fields decode data n 3;
      mret (PStruct struct_id fields, offset)
    else if tag =? PATTERN_ENUM_DATA then
      enum_id ← index data 1; variant_index ← index data 2; n ← index data 3;
      '(fields, offset) ← decode_elems decode data n 4;
      mret (PEnumDataVariant enum_id variant_index fields, offset)
    else if tag =? PATTERN_ENUM_STRUCT then
      enum_id ← index data 1; variant_index ← index data 2; n ← index data 3;
      '(fields, offset) ← decode_fields decode data n 4;
      mret (PEnumStructVariant enum_id variant_index fields, offset)
    else if tag =? PATTERN_ENUM_UNIT then
      enum_id ← index data 1; variant_index ← index data 2;
      mret (PEnumUnitVariant enum_id variant_index, 3%nat)
    else Panic
  end.

(** [MatchArmIterator] and its [next]. *)
Record MatchArmIterator : Type := MkArmIter { mi_data : list Z; mi_remaining : nat }.
Definition arm_next (it : MatchArmIterator)
    : outcome (option (AirPattern * Z) * MatchArmIterator) :=
  match mi_remaining it with
  | O => mret (None, it)
  | S remaining =>
      body ← index (mi_data it) 0;
      rest ← slice_from (mi_data it) 1;
      '(pattern, consumed) ← decode_pattern_tree (S (length rest)) rest;
      data ← slice_from (mi_data it) (1 + consumed);
      mret (Some (pattern, body), MkArmIter data remaining)
  end.

(** Collecting the iterator. [remaining] bounds the number of items. *)
Fixpoint collect_arms (n : nat) (it : MatchArmIterator) : outcome (list (AirPattern * Z)) :=
  match n with
  | O => NoFuel
  | S n =>
      '(item, it') ← arm_next it;
      match item with
      | None => mret []
      | Some arm => arms ← collect_arms n it'; mret (arm :: arms)
      end
  end.

End AirPattern.
Arguments AirPattern : clear implicits.

(** ** Induction over pattern trees *)
Section Induction.
Context {Spur : Type} (P : AirPattern Spur → Prop).
Hypotheses (Hw : P Wildcard) (Hi : ∀ n, P (PInt n)) (Hb : ∀ b, P (PBool b))
  (Hev : ∀ e v, P (PEnumVariant e v))
  (Hbn : ∀ n m, P (PBind n m None)) (Hbs : ∀ n m p, P p → P (PBind n m (Some p)))
  (Ht : ∀ l, Forall P l → P (PTuple l))
  (Hs : ∀ i l, Forall (λ f, P f.2) l → P (PStruct i l))
  (Hed : ∀ e v l, Forall P l → P (PEnumDataVariant e v l))
  (Hes : ∀ e v l, Forall (λ f, P f.2) l → P (PEnumStructVariant e v l))
  (Heu : ∀ e v, P (PEnumUnitVariant e v)).
Fixpoint AirPattern_tree_ind (p : AirPattern Spur) : P p :=
  let all := fix all l : Forall P l :=
    match l with [] => Forall_nil_2 _ | x :: l => Forall_cons_2 _ _ _ (AirPattern_tree_ind x) (all l) end in
  let allf := fix allf l : Forall (λ f : Z * AirPattern Spur, P f.2) l :=
    match l with [] => Forall_nil_2 _ | x :: l => Forall_cons_2 _ _ _ (AirPattern_tree_ind x.2) (allf l) end in
  match p with
  | Wildcard => Hw | PInt n => Hi n | PBool b => Hb b | PEnumVariant e v => Hev e v
  | PBind n m None => Hbn n m | PBind n m (Some q) => Hbs n m q (AirPattern_tree_ind q)
  | PTuple l => Ht l (all l)
  | PStruct i l => Hs i l (allf l)
  | PEnumDataVariant e v l => Hed e v l (all l)
  | PEnumStructVariant e v l => Hes e v l (allf l)
  | PEnumUnitVariant e v => Heu e v
  end.
End Induction.

(** ** Loops *)

Lemma repeatM_total {B} n (f : B → outcome B) b (I : B → Prop) :
  I b → (∀ b, I b → f b ≠ NoFuel) → (∀ b b', I b → f b = Done b' → I b') →
  repeatM n f b ≠ NoFuel.
Proof.
  intros Hb Hf Hi. revert b Hb; induction n as [|n IH]; intros b Hb; simpl; [done|].
  apply bind_total; [by apply Hf|]. intros b' Hb'. apply IH. by eapply Hi.
Qed.

Lemma slice_from_app {A} (pre post : list A) n :
  n = length pre → slice_from (pre ++ post) n = Done post.
Proof.
  intros ->. unfold slice_from. rewrite decide_True by (rewrite length_app; lia).
  by rewrite drop_app_length.
Qed.
Lemma slice_from_Done {A} (l l' : list A) n :
  slice_from l n = Done l' → l' = drop n l ∧ (n ≤ length l)%nat.
Proof. unfold slice_from. case_decide; [by intros [= <-]|done]. Qed.
Lemma slice_from_total {A} (l : list A) n : slice_from l n ≠ NoFuel.
Proof. unfold slice_from. by case_decide. Qed.
Lemma index_total {A} (l : list A) i : index l i ≠ NoFuel.
Proof. apply expect_total. Qed.
#[export] Hint Resolve slice_from_total index_total : outcome.

(** ** The bits of an [i64] split into two words *)
Lemma i64_words n :
  - 2 ^ 63 ≤ n < 2 ^ 63 →
  to_i64 (Z.lor (wrap 32 n) (shl 64 (wrap 32 (Z.shiftr n 32)) 32)) = n.
Proof.
  intros Hn. unfold wrap, shl, to_i64, wrap. rewrite Z.shiftr_div_pow2 by lia.
  rewrite Z.shiftl_mul_pow2 by lia.
  pose proof (Z.mod_pos_bound (n / 2 ^ 32) (2 ^ 32) ltac:(lia)).
  pose proof (Z.mod_pos_bound n (2 ^ 32) ltac:(lia)).
  rewrite (Z.mod_small (_ * _)) by lia.
  assert (Hor : Z.lor (n mod 2 ^ 32) ((n / 2 ^ 32) mod 2 ^ 32 * 2 ^ 32) =
                n mod 2 ^ 32 + (n / 2 ^ 32) mod 2 ^ 32 * 2 ^ 32).
  { symmetry.
    rewrite <- Z.lxor_lor, Z.add_nocarry_lxor; try done;
    (apply Z.bits_inj'; intros i Hi; rewrite Z.land_spec, Z.bits_0;
     destruct (decide (i < 32)); [rewrite Z.mul_pow2_bits_low by lia; by rewrite andb_false_r
     |rewrite Z.mod_pow2_bits_high by lia; done]). }
  rewrite Hor. pose proof (Z.div_mod n (2 ^ 32)).
  pose proof (Z.div_mod (n / 2 ^ 32) (2 ^ 32)).
  assert (Hm : (n mod 2 ^ 32 + (n / 2 ^ 32) mod 2 ^ 32 * 2 ^ 32 + 2 ^ 63) =
    n + 2 ^ 63 + (- (n / 2 ^ 32 / 2 ^ 32)) * 2 ^ 64) by lia.
  rewrite Hm, Z.mod_add by lia. rewrite Z.mod_small by lia. lia.
Qed.

Section Codec.
Context {Spur : Type} `{!SpurKey Spur}.
Implicit Types p : AirPattern Spur.

(** The words of a pattern, of a list of patterns and of a list of fields. *)
Definition words p : list Z := encode_pattern_tree p [].
Definition elems_words (l : list (AirPattern Spur)) : list Z := concat (map words l).
Definition fields_words (l : list (Z * AirPattern Spur)) : list Z :=
  concat (map (λ f, f.1 :: words f.2) l).

Lemma encode_words p out : encode_pattern_tree p out = out ++ words p.
Proof.
  unfold words. revert out.
  assert (He : ∀ l, Forall (λ p, ∀ out, encode_pattern_tree p out = out ++ encode_pattern_tree p []) l →
    ∀ out, foldl (λ out e, encode_pattern_tree e out) out l = out ++ elems_words l).
  { induction 1 as [|p' l Hp _ IH]; intros out; simpl; [by rewrite app_nil_r|].
    by rewrite IH, Hp, <- (assoc_L (++)). }
  assert (Hf : ∀ l, Forall (λ f : Z * AirPattern Spur,
      ∀ out, encode_pattern_tree f.2 out = out ++ encode_pattern_tree f.2 []) l →
    ∀ out, foldl (λ out f, encode_pattern_tree f.2 (out ++ [f.1])) out l = out ++ fields_words l).
  { induction 1 as [|f l Hp _ IH]; intros out; simpl; [by rewrite app_nil_r|].
    by rewrite IH, Hp, <- !(assoc_L (++)). }
  induction p using AirPattern_tree_ind; intros out; simpl; try done.
  - rewrite (IHp (out ++ _)), (IHp [_; _; _]). by rewrite <- (assoc_L (++)).
  - rewrite !He by done. by rewrite <- (assoc_L (++)).
  - rewrite !Hf by done. by rewrite <- (assoc_L (++)).
  - rewrite !He by done. by rewrite <- (assoc_L (++)).
  - rewrite !Hf by done. by rewrite <- (assoc_L (++)).
Qed.

Lemma elems_encode out l :
  foldl (λ out e, encode_pattern_tree e out) out l = out ++ elems_words l.
Proof.
  revert out; induction l as [|p l IH]; intros out; simpl; [by rewrite app_nil_r|].
  by rewrite IH, encode_words, <- (assoc_L (++)).
Qed.
Lemma fields_encode out l :
  foldl (λ out f, encode_pattern_tree f.2 (out ++ [f.1])) out l = out ++ fields_words l.
Proof.
  revert out; induction l as [|f l IH]; intros out; simpl; [by rewrite app_nil_r|].
  by rewrite IH, encode_words, <- !(assoc_L (++)).
Qed.

(** The ranges the Rust types guarantee: literals are [i64]s, and the lengths of
    the sub-pattern lists fit the word they are stored in. *)
Definition short {A} (l : list A) : Prop := Z.of_nat (length l) < 2 ^ 32.
Fixpoint pattern_wf p : Prop :=
  match p with
  | PInt n => - 2 ^ 63 ≤ n < 2 ^ 63
  | PBind _ _ (Some p) => pattern_wf p
  | PTuple l | PEnumDataVariant _ _ l => short l ∧ fold_right and True (map pattern_wf l)
  | PStruct _ l | PEnumStructVariant _ _ l =>
      short l ∧ fold_right and True (map (λ f, pattern_wf f.2) l)
  | _ => True
  end.

Lemma short_wrap {A} (l : list A) : short l → wrap 32 (Z.of_nat (length l)) = Z.of_nat (length l).
Proof. intros. apply wrap_small. unfold in_u, short in *. lia. Qed.

(** The decoder [d] reads back [p] wherever its words start. *)
Definition reads (d : list Z → outcome (AirPattern Spur * nat)) p : Prop :=
  ∀ rest, d (words p ++ rest) = Done (p, length (words p)).

Lemma decode_elems_words d l pre rest n :
  n = Z.of_nat (length l) → Forall (reads d) l →
  decode_elems d (pre ++ elems_words l ++ rest) n (length pre) =
    Done (l, (length pre + length (elems_words l))%nat).
Proof.
  intros -> Hl. unfold decode_elems. rewrite Nat2Z.id.
  remember (pre ++ elems_words l ++ rest) as data eqn:Hdata.
  enough (Hgen : ∀ acc, repeatM (length l) (elem_step d data) (acc, length pre) =
    Done (acc ++ l, (length pre + length (elems_words l))%nat)) by apply (Hgen []).
  revert pre Hdata. induction Hl as [|p l Hp _ IH]; intros pre Hdata acc; simpl.
  { by rewrite app_nil_r, Nat.add_0_r. }
  change (elems_words (p :: l)) with (words p ++ elems_words l) in *.
  rewrite <- (assoc_L (++)) in Hdata.
  rewrite Hdata at 1. rewrite slice_from_app, bind_ret by done. rewrite Hp. simpl.
  replace (length pre + length (words p))%nat with (length (pre ++ words p))
    by apply length_app.
  rewrite IH by (by rewrite Hdata, <- (assoc_L (++))).
  rewrite !length_app, <- (assoc_L (++)). do 2 f_equal. lia.
Qed.

Lemma decode_fields_words d l pre rest n :
  n = Z.of_nat (length l) → Forall (λ f, reads d f.2) l →
  decode_fields d (pre ++ fields_words l ++ rest) n (length pre) =
    Done (l, (length pre + length (fields_words l))%nat).
Proof.
  intros -> Hl. unfold decode_fields. rewrite Nat2Z.id.
  remember (pre ++ fields_words l ++ rest) as data eqn:Hdata.
  enough (Hgen : ∀ acc, repeatM (length l) (field_step d data) (acc, length pre) =
    Done (acc ++ l, (length pre + length (fields_words l))%nat)) by apply (Hgen []).
  revert pre Hdata. induction Hl as [|[i p] l Hp _ IH]; intros pre Hdata acc; simpl.
  { by rewrite app_nil_r, Nat.add_0_r. }
  change (fields_words ((i, p) :: l)) with ([i] ++ words p ++ fields_words l) in *.
  rewrite <- !(assoc_L (++)) in Hdata.
  assert (Hi : data !! length pre = Some i)
    by (rewrite Hdata; simpl; by apply list_lookup_middle).
  unfold index at 1. rewrite Hi. simpl.
  rewrite Hdata at 1. rewrite (assoc_L (++) pre), slice_from_app, bind_ret
    by (rewrite length_app; simpl; lia).
  simpl in Hp. rewrite Hp. simpl.
  replace (length pre + 1 + length (words p))%nat with (length (pre ++ [i] ++ words p))
    by (rewrite !length_app; simpl; lia).
  rewrite IH by (by rewrite Hdata, <- !(assoc_L (++))).
  rewrite !length_app, <- (assoc_L (++)). do 2 f_equal. unfold fields_words; simpl. lia.
Qed.

(** The words of the recursive patterns. *)
Lemma words_bind n m p : words (PBind n m (Some p)) =
  [PATTERN_BIND; wrap 32 (into_usize n); Z.lor (if m then 1 else 0) 2] ++ words p.
Proof. unfold words at 1; simpl. by rewrite encode_words. Qed.
Lemma words_tuple l : words (PTuple l) =
  [PATTERN_TUPLE; wrap 32 (Z.of_nat (length l))] ++ elems_words l.
Proof. unfold words; simpl. by rewrite elems_encode. Qed.
Lemma words_struct i l : words (PStruct i l) =
  [PATTERN_STRUCT; i; wrap 32 (Z.of_nat (length l))] ++ fields_words l.
Proof. unfold words; simpl. by rewrite fields_encode. Qed.
Lemma words_enum_data e v l : words (PEnumDataVariant e v l) =
  [PATTERN_ENUM_DATA; e; v; wrap 32 (Z.of_nat (length l))] ++ elems_words l.
Proof. unfold words; simpl. by rewrite elems_encode. Qed.
Lemma words_enum_struct e v l : words (PEnumStructVariant e v l) =
  [PATTERN_ENUM_STRUCT; e; v; wrap 32 (Z.of_nat (length l))] ++ fields_words l.
Proof. unfold words; simpl. by rewrite fields_encode. Qed.

Lemma fold_and_Forall {A} (Q : A → Prop) l : fold_right and True (map Q l) ↔ Forall Q l.
Proof.
  induction l as [|x l IH]; simpl; [by split|]. rewrite IH. split.
  - intros []. by constructor.
  - inversion 1. done.
Qed.

Lemma words_nonempty p : (0 < length (words p))%nat.
Proof.
  destruct p as [| | | | n m [i|] | | | | |];
    rewrite ?words_bind, ?words_tuple, ?words_struct, ?words_enum_data, ?words_enum_struct;
    simpl; lia.
Qed.

Lemma elems_words_length p l : p ∈ l → (length (words p) ≤ length (elems_words l))%nat.
Proof.
  unfold elems_words. induction l as [|q l IH]; [by intros ?%elem_of_nil|].
  intros [->|Hp%IH]%elem_of_cons; simpl; rewrite length_app; lia.
Qed.
Lemma fields_words_length f l : f ∈ l → (length (words f.2) < length (fields_words l))%nat.
Proof.
  unfold fields_words. induction l as [|q l IH]; [by intros ?%elem_of_nil|].
  intros [->|Hp%IH]%elem_of_cons; simpl; rewrite length_app; lia.
Qed.

Context `{!SpurLaws Spur}.

(** Runs a loop of the decoder with a loop lemma [lem], whose premise on the
    sub-patterns [H] discharges. *)
Ltac by_loop lem H :=
  let Hr := fresh "Hr" in
  pose proof (lem _ eq_refl ltac:(apply H; auto; lia)) as Hr; simpl in Hr; rewrite Hr; done.

Lemma decode_words p : pattern_wf p → ∀ fuel,
  (length (words p) ≤ fuel)%nat → reads (decode_pattern_tree fuel) p.
Proof.
  assert (Hel : ∀ l fuel, Forall (λ p, pattern_wf p → ∀ fuel,
      (length (words p) ≤ fuel)%nat → reads (decode_pattern_tree fuel) p) l →
    Forall pattern_wf l → (length (elems_words l) ≤ fuel)%nat →
    Forall (reads (decode_pattern_tree fuel)) l).
  { intros l fuel IH Hwf Hlen. rewrite !Forall_forall in *. intros q Hq.
    apply IH; [done|by apply Hwf|].
    pose proof (elems_words_length q l ltac:(by apply list_elem_of_In)). lia. }
  assert (Hfl : ∀ l fuel, Forall (λ f, pattern_wf f.2 → ∀ fuel,
      (length (words f.2) ≤ fuel)%nat → reads (decode_pattern_tree fuel) f.2) l →
    Forall (λ f, pattern_wf f.2) l → (length (fields_words l) ≤ fuel)%nat →
    Forall (λ f, reads (decode_pattern_tree fuel) f.2) l).
  { intros l fuel IH Hwf Hlen. rewrite !Forall_forall in *. intros q Hq.
    apply IH; [done|by apply Hwf|].
    pose proof (fields_words_length q l ltac:(by apply list_elem_of_In)). lia. }
  induction p using AirPattern_tree_ind; intros Hwf fuel Hfuel rest;
    rewrite ?words_bind, ?words_tuple, ?words_struct, ?words_enum_data, ?words_enum_struct in *;
    (destruct fuel as [|fuel]; [simpl in Hfuel; lia|]); simpl in Hfuel, Hwf; try done.
  - simpl. by rewrite i64_words.
  - by destruct b.
  - simpl. rewrite wrap_small by apply into_usize_u32. rewrite try_from_into. simpl. by destruct m.
  - simpl. rewrite wrap_small by apply into_usize_u32. rewrite try_from_into. simpl.
    assert (Hr : decode_pattern_tree fuel (words p ++ rest) = Done (p, length (words p))).
    { apply IHp; [done|lia]. }
    by destruct m; simpl; rewrite drop_0, Hr.
  - destruct Hwf as [Hs Hwf%fold_and_Forall]. rewrite short_wrap by done. simpl.
    by_loop (decode_elems_words (decode_pattern_tree fuel) l [PATTERN_TUPLE; Z.of_nat (length l)] rest) Hel.
  - destruct Hwf as [Hs Hwf%fold_and_Forall]. rewrite short_wrap by done. simpl.
    by_loop (decode_fields_words (decode_pattern_tree fuel) l
      [PATTERN_STRUCT; i; Z.of_nat (length l)] rest) Hfl.
  - destruct Hwf as [Hs Hwf%fold_and_Forall]. rewrite short_wrap by done. simpl.
    by_loop (decode_elems_words (decode_pattern_tree fuel) l
      [PATTERN_ENUM_DATA; e; v; Z.of_nat (length l)] rest) Hel.
  - destruct Hwf as [Hs Hwf%fold_and_Forall]. rewrite short_wrap by done. simpl.
    by_loop (decode_fields_words (decode_pattern_tree fuel) l
      [PATTERN_ENUM_STRUCT; e; v; Z.of_nat (length l)] rest) Hfl.
Qed.

End Codec.

Section Total.
Context {Spur : Type} `{!SpurKey Spur}.

Lemma elem_loop_total (d : list Z → outcome (AirPattern Spur * nat)) data n offset :
  (0 < offset)%nat → (0 < length data)%nat →
  (∀ rest, (length rest < length data)%nat → d rest ≠ NoFuel) →
  decode_elems d data n offset ≠ NoFuel.
Proof.
  intros Ho Hlen Hd. apply (repeatM_total _ _ _ (λ st, 0 < st.2)%nat); [done|..].
  - intros [elems o] Hi. simpl in *. apply bind_total; [auto with outcome|].
    intros rest [-> Hle]%slice_from_Done. apply bind_total; [|by intros [??]].
    apply Hd. rewrite length_drop. lia.
  - intros [elems o] st' Hi. simpl in *. intros (rest & _ & Hr)%bind_Done.
    apply bind_Done in Hr as ([p c] & _ & Hr). injection Hr as <-. simpl. lia.
Qed.

Lemma field_loop_total (d : list Z → outcome (AirPattern Spur * nat)) data n offset :
  (0 < offset)%nat → (0 < length data)%nat →
  (∀ rest, (length rest < length data)%nat → d rest ≠ NoFuel) →
  decode_fields d data n offset ≠ NoFuel.
Proof.
  intros Ho Hlen Hd. apply (repeatM_total _ _ _ (λ st, 0 < st.2)%nat); [done|..].
  - intros [fields o] Hi. simpl in *. apply bind_total; [auto with outcome|]. intros i _.
    apply bind_total; [auto with outcome|].
    intros rest [-> Hle]%slice_from_Done. apply bind_total; [|by intros [??]].
    apply Hd. rewrite length_drop. lia.
  - intros [fields o] st' Hi. simpl in *. intros (i & _ & Hr)%bind_Done.
    apply bind_Done in Hr as (rest & _ & Hr).
    apply bind_Done in Hr as ([p c] & _ & Hr). injection Hr as <-. simpl. lia.
Qed.

Ltac total_step := first
  [ discriminate
  | apply elem_loop_total; [lia|assumption|assumption]
  | apply field_loop_total; [lia|assumption|assumption]
  | apply bind_total; [|intros; repeat case_match]
  | apply slice_from_total | apply index_total | apply expect_total
  | apply bind_total; [|intros [??] ?] ].

Lemma decode_total fuel data :
  (length data < fuel)%nat → decode_pattern_tree (Spur := Spur) fuel data ≠ NoFuel.
Proof.
  revert data; induction fuel as [|fuel IH]; intros data Hlen; [lia|].
  assert (Hrec : ∀ rest, (length rest < length data)%nat →
    decode_pattern_tree (Spur := Spur) fuel rest ≠ NoFuel) by (intros; apply IH; lia).
  simpl. apply bind_total; [auto with outcome|]. intros tag Htag%expect_Done%lookup_lt_Some.
  repeat (case_match; [repeat total_step; try (
    match goal with Hs : slice_from _ _ = Done _ |- _ => apply slice_from_Done in Hs as [-> ?] end;
    apply Hrec; rewrite length_drop; lia)|]).
  done.
Qed.

End Total.

Section Claims.
Context {Spur : Type} `{!SpurKey Spur} `{!SpurLaws Spur}.
Implicit Types p : AirPattern Spur.

(** The loop of [analyze_match] that encodes every arm into [extra_data]. *)
Definition encode_arms (arms : list (AirPattern Spur * Z)) (out : list Z) : list Z :=
  foldl (λ out arm, encode arm.1 arm.2 out) out arms.

Definition arms_words (arms : list (AirPattern Spur * Z)) : list Z :=
  concat (map (λ arm, arm.2 :: words arm.1) arms).

Lemma encode_arms_words arms out : encode_arms arms out = out ++ arms_words arms.
Proof.
  unfold encode_arms, arms_words.
  revert out; induction arms as [|[p b] arms IH]; intros out; simpl; [by rewrite app_nil_r|].
  rewrite IH. unfold encode. by rewrite encode_words, <- !(assoc_L (++)).
Qed.

Lemma arm_next_words p b rest n :
  pattern_wf p →
  arm_next (MkArmIter (b :: words p ++ rest) (S n)) = Done (Some (p, b), MkArmIter rest n).
Proof.
  intros Hwf. unfold arm_next, mi_remaining, mi_data.
  assert (Hi : index (b :: words p ++ rest) 0 = Done b) by done.
  assert (Hs : slice_from (b :: words p ++ rest) 1 = Done (words p ++ rest))
    by (by apply (slice_from_app [b])).
  rewrite Hi, bind_ret, Hs, bind_ret.
  rewrite decode_words by (done || rewrite length_app; lia).
  rewrite bind_ret. cbn beta iota.
  change (b :: words p ++ rest) with ((b :: words p) ++ rest).
  by rewrite slice_from_app, bind_ret by done.
Qed.

Lemma collect_arms_words arms rest :
  Forall (λ arm, pattern_wf arm.1) arms →
  collect_arms (S (length arms)) (MkArmIter (arms_words arms ++ rest) (length arms)) = Done arms.
Proof.
  induction arms as [|[p b] arms IH]; intros Hwf; [done|].
  inversion_clear Hwf as [|?? Hp Hwf'].
  change (arms_words ((p, b) :: arms)) with ((b :: words p) ++ arms_words arms).
  rewrite <- (assoc_L (++)), <- app_comm_cons.
  cbn [length]. remember (S (length arms)) as m eqn:Hm. cbn [collect_arms].
  rewrite Hm at 1. rewrite arm_next_words, bind_ret by done.
  cbn beta iota. by rewrite IH.
Qed.

(** C27: decoding inverts encoding: from the words of a pattern, whatever follows
    them, [decode_pattern_tree] returns the same pattern and consumes exactly the
    words that were written. *)
Theorem air_pattern_roundtrip p (rest : list Z) :
  pattern_wf p →
  let data := encode_pattern_tree p [] ++ rest in
  decode_pattern_tree (S (length data)) data = Done (p, length (encode_pattern_tree p [])).
Proof.
  intros Hwf data. apply decode_words; [done|]. subst data. rewrite length_app. unfold words. lia.
Qed.

(** The arms written one after the other for a [match] are read back by the
    arm iterator, in order and each with its body. *)
Theorem match_arms_roundtrip (arms : list (AirPattern Spur * Z)) (rest : list Z) :
  Forall (λ arm, pattern_wf arm.1) arms →
  collect_arms (S (length arms)) (MkArmIter (encode_arms arms [] ++ rest) (length arms)) =
    Done arms.
Proof. intros. rewrite encode_arms_words. by apply collect_arms_words. Qed.

End Claims.

(** [decode_pattern_tree] terminates on every word sequence, also one that
    was not produced by the encoder: it returns a pattern or panics. *)
Theorem decode_terminates {Spur} `{!SpurKey Spur} (data : list Z) :
  ∃ r, decode_pattern_tree (Spur := Spur) (S (length data)) data = r ∧
       (r = Panic ∨ ∃ p n, r = Done (p, n)).
Proof.
  eexists; split; [done|].
  pose proof (decode_total (Spur := Spur) (S (length data)) data ltac:(lia)).
  destruct (decode_pattern_tree (S (length data)) data) as [[p n]| |]; [right; eauto|by left|done].
Qed.

(** ** Witnesses: an interner that holds two names *)
Module Names.
Inductive Name := x | y.
#[global] Instance Name_key : SpurKey Name := {
  into_usize s := match s with x => 0 | y => 1 end;
  try_from_usize n := if n =? 0 then Some x else if n =? 1 then Some y else None;
}.
#[global] Instance Name_laws : SpurLaws Name.
Proof. split; intros []; by vm_compute. Qed.
Definition tuple : AirPattern Name :=
  PTuple [PInt (-5); PBind x true (Some (PStruct 3 [(1, PBool true); (0, Wildcard)]))].
End Names.

Lemma air_pattern_roundtrip_witness :
  pattern_wf Names.tuple ∧
  decode_pattern_tree 19 (encode_pattern_tree Names.tuple [] ++ [42; 43]) =
    Done (Names.tuple, 16%nat).
Proof.
  assert (Hwf : pattern_wf Names.tuple) by (repeat split; by vm_compute).
  split; [exact Hwf|].
  exact (air_pattern_roundtrip Names.tuple [42; 43] Hwf).
Defined.
Lemma match_arms_roundtrip_witness :
  collect_arms 3 (MkArmIter
    (encode_arms [(Names.tuple, 9); (PBind Names.x false None, 10)] []) 2) =
    Done [(Names.tuple, 9); (PBind Names.x false None, 10)].
Proof.
  rewrite <- (app_nil_r (encode_arms _ _)).
  apply (match_arms_roundtrip [(Names.tuple, 9); (PBind Names.x false None, 10)] []).
  repeat constructor; by vm_compute.
Defined.
