(* ===== verification/Air.v ===== *)
(** * The AIR of a function

    Models [Air] of [crates/gruel-air/src/inst.rs]: the instruction list, the
    [extra] words of variable-length payloads, the places and their projections,
    with every operation that changes them, and [ConstValue] of
    [crates/gruel-air/src/sema/context.rs], which call sites record. *)

From S2P Require Import Prelude Types AirPattern.

#[local] Open Scope Z_scope.

(** [AirRef], [AirPlaceRef] and the ids of structs, enums and interfaces are [u32]s. *)
Notation AirRef := Z (only parsing).
Notation AirPlaceRef := Z (only parsing).

Inductive PlaceBase : Set := Local (slot : Z) | Param (slot : Z).

Inductive AirProjection : Set :=
  | Field (struct_id field_index : Z)
  | Index (array_type : Ty) (index : AirRef).

Record AirPlace : Set := MkPlace {
  pl_base : PlaceBase;
  pl_projections_start : Z;
  pl_projections_len : Z;
}.

(** [AirPlace::{local, param, is_simple, as_local, as_param}]. *)
Definition place_local (slot : Z) : AirPlace := MkPlace (Local slot) 0 0.
Definition place_param (slot : Z) : AirPlace := MkPlace (Param slot) 0 0.
Definition is_simple (pl : AirPlace) : bool := pl_projections_len pl =? 0.
Definition as_local (pl : AirPlace) : option Z :=
  if pl_projections_len pl =? 0 then
    match pl_base pl with Local slot => Some slot | Param _ => None end
  else None.
Definition as_param (pl : AirPlace) : option Z :=
  if pl_projections_len pl =? 0 then
    match pl_base pl with Param slot => Some slot | Local _ => None end
  else None.

(** [AirArgMode] with its [u32] encoding, and [AirCallArg]. *)
Inductive AirArgMode : Set := ArgNormal | ArgMutRef | ArgRef.
Definition mode_as_u32 (m : AirArgMode) : Z :=
  match m with ArgNormal => 0 | ArgMutRef => 1 | ArgRef => 2 end.
Definition mode_from_u32 (v : Z) : outcome AirArgMode :=
  if v =? 0 then mret ArgNormal else if v =? 1 then mret ArgMutRef
  else if v =? 2 then mret ArgRef else Panic.
Record AirCallArg : Set := MkCallArg { ca_value : AirRef; ca_mode : AirArgMode }.

(** [ConstValue] and its accessors. *)
Inductive ConstValue : Set :=
  | CInteger (n : Z)
  | CBool (b : bool)
  | CType (t : Ty)
  | CUnit
  | CStruct (heap_idx : Z)
  | CArray (heap_idx : Z)
  | CComptimeStr (heap_idx : Z)
  | CEnumVariant (enum_id variant_idx : Z)
  | CEnumData (enum_id variant_idx heap_idx : Z)
  | CEnumStruct (enum_id variant_idx heap_idx : Z)
  | CBreakSignal
  | CContinueSignal
  | CReturnSignal.
Definition as_integer (v : ConstValue) : option Z :=
  match v with CInteger n => Some n | _ => None end.
Definition as_bool (v : ConstValue) : option bool :=
  match v with CBool b => Some b | _ => None end.

Inductive BinOp : Set :=
  | Add | Sub | Mul | Div | Mod | Eq | Ne | Lt | Gt | Le | Ge | And | Or
  | BitAnd | BitOr | BitXor | Shl | Shr.
Inductive UnaryOp : Set := Neg | Not | BitNot.
Record Span : Set := MkSpan { sp_file_id : Z; sp_start : Z; sp_end : Z }.

Section Air.
Context {Spur : Type} `{!SpurKey Spur}.

(** [AirInstData]. *)
Inductive AirInstData : Type :=
  | IConst (v : Z)
  | IFloatConst (bits : Z)
  | IBoolConst (b : bool)
  | IStringConst (id : Z)
  | IBytesConst (id : Z)
  | IUnitConst
  | ITypeConst (ty : Ty)
  | IBin (op : BinOp) (l r : AirRef)
  | IUnary (op : UnaryOp) (x : AirRef)
  | IMakeRef (operand : AirRef) (is_mut : bool)
  | IMakeSlice (base : AirRef) (lo hi : option AirRef) (is_mut : bool)
  | IBranch (cond then_value : AirRef) (else_value : option AirRef)
  | ILoop (cond body : AirRef)
  | IInfiniteLoop (body : AirRef)
  | IMatch (scrutinee : AirRef) (arms_start arms_len : Z)
  | IBreak
  | IContinue
  | IAlloc (slot : Z) (init : AirRef)
  | ILoad (slot : Z)
  | IStore (slot : Z) (value : AirRef) (had_live_value : bool)
  | IParamStore (param_slot : Z) (value : AirRef)
  | IRefStore (slot : Z) (value : AirRef)
  | IRet (value : option AirRef)
  | ICall (name : Spur) (args_start args_len : Z)
  | ICallGeneric (name : Spur) (type_args_start type_args_len args_start args_len : Z)
  | IIntrinsic (name : Spur) (args_start args_len : Z)
  | IParam (index : Z)
  | IBlock (stmts_start stmts_len : Z) (value : AirRef)
  | IStructInit (struct_id fields_start fields_len source_order_start : Z)
  | IFieldGet (base : AirRef) (struct_id field_index : Z)
  | IFieldSet (slot struct_id field_index : Z) (value : AirRef)
  | IParamFieldSet (param_slot inner_offset struct_id field_index : Z) (value : AirRef)
  | IArrayInit (elems_start elems_len : Z)
  | IIndexGet (base : AirRef) (array_type : Ty) (index : AirRef)
  | IIndexSet (slot : Z) (array_type : Ty) (index value : AirRef)
  | IParamIndexSet (param_slot : Z) (array_type : Ty) (index value : AirRef)
  | IPlaceRead (place : AirPlaceRef)
  | IPlaceWrite (place : AirPlaceRef) (value : AirRef)
  | IEnumVariant (enum_id variant_index : Z)
  | IEnumCreate (enum_id variant_index fields_start fields_len : Z)
  | IEnumPayloadGet (base : AirRef) (variant_index field_index : Z)
  | IIntCast (value : AirRef) (from_ty : Ty)
  | IFloatCast (value : AirRef) (from_ty : Ty)
  | IIntToFloat (value : AirRef) (from_ty : Ty)
  | IFloatToInt (value : AirRef) (from_ty : Ty)
  | IDrop (value : AirRef)
  | IStorageLive (slot : Z)
  | IStorageDead (slot : Z)
  | IMakeInterfaceRef (value : AirRef) (struct_id interface_id : Z)
  | IMethodCallDyn (interface_id slot : Z) (recv : AirRef) (args_start args_len : Z).

Record AirInst : Type := MkInst { i_data : AirInstData; i_ty : Ty; i_span : Span }.

Record SpawnTarget : Type := MkSpawn {
  sw_worker_fn : Spur; sw_arg_type : Ty; sw_return_type : Ty }.

Record Air : Type := MkAir {
  instructions : list AirInst;
  extra : list Z;
  return_type : Ty;
  projections : list AirProjection;
  places : list AirPlace;
  comptime_value_args_map : gmap Z (list ConstValue);
  spawn_targets : gmap Z SpawnTarget;
}.

(** [Air::new]. *)
Definition new_air (return_type : Ty) : Air := MkAir [] [] return_type [] [] ∅ ∅.

Definition set_instructions (l : list AirInst) (a : Air) : Air :=
  MkAir l (extra a) (return_type a) (projections a) (places a)
    (comptime_value_args_map a) (spawn_targets a).
Definition set_extra (l : list Z) (a : Air) : Air :=
  MkAir (instructions a) l (return_type a) (projections a) (places a)
    (comptime_value_args_map a) (spawn_targets a).
Definition set_places (pr : list AirProjection) (pl : list AirPlace) (a : Air) : Air :=
  MkAir (instructions a) (extra a) (return_type a) pr pl
    (comptime_value_args_map a) (spawn_targets a).

Definition record_spawn_target (a : Air) (r : AirRef) (worker_fn : Spur) (arg_type ret : Ty) : Air :=
  MkAir (instructions a) (extra a) (return_type a) (projections a) (places a)
    (comptime_value_args_map a) (<[r := MkSpawn worker_fn arg_type ret]> (spawn_targets a)).
Definition spawn_target (a : Air) (r : AirRef) : option SpawnTarget := spawn_targets a !! r.

Definition set_comptime_value_args (a : Air) (inst_index : Z) (value_args : list ConstValue) : Air :=
  match value_args with
  | [] => a
  | _ => MkAir (instructions a) (extra a) (return_type a) (projections a) (places a)
           (<[inst_index := value_args]> (comptime_value_args_map a)) (spawn_targets a)
  end.
Definition comptime_value_args (a : Air) (inst_index : Z) : list ConstValue :=
  default [] (comptime_value_args_map a !! inst_index).

Definition add_inst (a : Air) (inst : AirInst) : AirRef * Air :=
  (len_u32 (instructions a), set_instructions (instructions a ++ [inst]) a).
Definition get_inst (a : Air) (r : AirRef) : outcome AirInst :=
  index (instructions a) (Z.to_nat r).

(** [Air::add_extra], with its [debug_assert!]s. *)
Definition add_extra (a : Air) (data : list Z) : outcome (Z * Air) :=
  if decide (Z.of_nat (length (extra a)) + Z.of_nat (length data) ≤ 2 ^ 32 - 1)
  then mret (len_u32 (extra a), set_extra (extra a ++ data) a)
  else Panic.

Definition get_extra (a : Air) (start len : Z) : outcome (list Z) :=
  slice_range (extra a) start (start + len).
Definition get_air_refs (a : Air) (start len : Z) : outcome (list AirRef) := get_extra a start len.

(** [data.chunks_exact(2)] read as call arguments. *)
Fixpoint read_call_args (data : list Z) : outcome (list AirCallArg) :=
  match data with
  | value :: mode :: data =>
      m ← mode_from_u32 mode; rest ← read_call_args data; mret (MkCallArg value m :: rest)
  | _ => mret []
  end.
Definition get_call_args (a : Air) (start len : Z) : outcome (list AirCallArg) :=
  n ← checked_mul 32 len 2; data ← get_extra a start n; read_call_args data.

(** [Air::get_match_arms], collected. *)
Definition get_match_arms (a : Air) (start len : Z) : outcome (list (AirPattern Spur * AirRef)) :=
  data ← slice_from (extra a) (Z.to_nat start);
  collect_arms (S (Z.to_nat len)) (MkArmIter data (Z.to_nat len)).

Definition get_struct_init (a : Air) (fields_start fields_len source_order_start : Z)
    : outcome (list AirRef * list Z) :=
  fields ← get_air_refs a fields_start fields_len;
  order ← get_extra a source_order_start fields_len;
  mret (fields, order).

(** [Air::remap_string_ids] and [Air::remap_bytes_ids]. *)
Definition remap_string_ids (a : Air) (f : Z → Z) : Air :=
  set_instructions (map (λ i, match i_data i with
    | IStringConst id => MkInst (IStringConst (f id)) (i_ty i) (i_span i)
    | _ => i end) (instructions a)) a.
Definition remap_bytes_ids (a : Air) (f : Z → Z) : Air :=
  set_instructions (map (λ i, match i_data i with
    | IBytesConst id => MkInst (IBytesConst (f id)) (i_ty i) (i_span i)
    | _ => i end) (instructions a)) a.

Definition rewrite_inst_data (a : Air) (i : nat) (new_data : AirInstData) : outcome Air :=
  inst ← index (instructions a) i;
  mret (set_instructions (<[i := MkInst new_data (i_ty inst) (i_span inst)]> (instructions a)) a).

Definition push_projections (a : Air) (projs : list AirProjection) : outcome (Z * Z * Air) :=
  let start := len_u32 (projections a) in
  let all := projections a ++ projs in
  len ← checked_sub 32 (len_u32 all) start;
  mret (start, len, set_places all (places a) a).
Definition get_projections (a : Air) (start len : Z) : outcome (list AirProjection) :=
  en ← checked_add 32 start len; slice_range (projections a) start en.
Definition get_place_projections (a : Air) (pl : AirPlace) : outcome (list AirProjection) :=
  get_projections a (pl_projections_start pl) (pl_projections_len pl).

Definition make_place (a : Air) (base : PlaceBase) (projs : list AirProjection)
    : outcome (AirPlaceRef * Air) :=
  '(start, len, a') ← push_projections a projs;
  mret (len_u32 (places a'),
        set_places (projections a') (places a' ++ [MkPlace base start len]) a').
Definition get_place (a : Air) (r : AirPlaceRef) : outcome AirPlace :=
  index (places a) (Z.to_nat r).

(** Every operation that changes an [Air]. *)
Inductive air_op : Type :=
  | OpAddInst (inst : AirInst)
  | OpAddExtra (data : list Z)
  | OpMakePlace (base : PlaceBase) (projs : list AirProjection)
  | OpPushProjections (projs : list AirProjection)
  | OpRewrite (i : nat) (new_data : AirInstData)
  | OpRemapStrings (f : Z → Z)
  | OpRemapBytes (f : Z → Z)
  | OpSpawn (r : AirRef) (worker_fn : Spur) (arg_type ret : Ty)
  | OpValueArgs (inst_index : Z) (value_args : list ConstValue).

Definition run_air_op (a : Air) (op : air_op) : outcome Air :=
  match op with
  | OpAddInst inst => mret (add_inst a inst).2
  | OpAddExtra data => r ← add_extra a data; mret r.2
  | OpMakePlace base projs => r ← make_place a base projs; mret r.2
  | OpPushProjections projs => r ← push_projections a projs; mret r.2
  | OpRewrite i d => rewrite_inst_data a i d
  | OpRemapStrings f => mret (remap_string_ids a f)
  | OpRemapBytes f => mret (remap_bytes_ids a f)
  | OpSpawn r w t t' => mret (record_spawn_target a r w t t')
  | OpValueArgs i vs => mret (set_comptime_value_args a i vs)
  end.

End Air.

Section AirTheory.
Context {Spur : Type} `{!SpurKey Spur}.
Notation Air := (Air (Spur := Spur)).
Implicit Types a : Air.

(** Operations only append to the payload words, projections and places, and keep
    the type and span of every instruction. *)
Definition extends a a' : Prop :=
  extra a `prefix_of` extra a' ∧ projections a `prefix_of` projections a' ∧
  places a `prefix_of` places a' ∧
  map i_ty (instructions a) `prefix_of` map i_ty (instructions a') ∧
  map i_span (instructions a) `prefix_of` map i_span (instructions a') ∧
  return_type a = return_type a'.

#[export] Instance extends_preorder : PreOrder extends.
Proof.
  split; [intros a; by repeat split|]. intros a b c (?&?&?&?&?&?) (?&?&?&?&?&?).
  repeat split; by etransitivity.
Qed.

Lemma map_insert_same {A B} (g : A → B) l i x y :
  l !! i = Some x → g y = g x → map g (<[i := y]> l) = map g l.
Proof.
  intros Hx Hg. rewrite list_fmap_insert, Hg.
  apply list_insert_id. by rewrite list_lookup_fmap, Hx.
Qed.

Ltac solve_extends :=
  unfold extends; simpl; rewrite ?map_app; split_and!; try done; try by apply prefix_app_r.

Lemma run_air_op_extends a op a' : run_air_op a op = Done a' → extends a a'.
Proof.
  destruct op; simpl; intros Hop.
  - simplify_done. solve_extends; by exists [_].
  - unfold add_extra in Hop. case_decide; simplify_done. solve_extends.
  - unfold make_place, push_projections in Hop. simplify_done. solve_extends.
  - unfold push_projections in Hop. simplify_done. solve_extends.
  - unfold rewrite_inst_data, index in Hop. simplify_done.
    solve_extends; match goal with Hl : _ !! _ = Some ?x |- _ =>
      by rewrite (map_insert_same _ _ _ x) end.
  - simplify_done. solve_extends; rewrite map_map; erewrite map_ext; try done;
      intros []; simpl; by case_match.
  - simplify_done. solve_extends; rewrite map_map; erewrite map_ext; try done;
      intros []; simpl; by case_match.
  - simplify_done. solve_extends.
  - simplify_done. unfold set_comptime_value_args. case_match; solve_extends.
Qed.

Lemma run_air_ops_extends a ops a' : foldM run_air_op a ops = Done a' → extends a a'.
Proof.
  intros Hops. eapply (foldM_inv (extends a)); [done|done|].
  intros b op b' _ Hb Hop%run_air_op_extends. by etransitivity.
Qed.

Lemma add_extra_Done a data start a' :
  add_extra a data = Done (start, a') →
  start = Z.of_nat (length (extra a)) ∧ extra a' = extra a ++ data ∧
  Z.of_nat (length (extra a)) + Z.of_nat (length data) < 2 ^ 32.
Proof.
  unfold add_extra, len_u32. case_decide; intros; simplify_done.
  rewrite wrap_small by (unfold in_u; lia). split_and!; [done|done|lia].
Qed.

(** The words of call arguments: value and mode of each. *)
Definition call_args_words (args : list AirCallArg) : list Z :=
  concat (map (λ arg, [ca_value arg; mode_as_u32 (ca_mode arg)]) args).

Lemma read_call_args_words args : read_call_args (call_args_words args) = Done args.
Proof.
  induction args as [|[v m] args IH]; [done|]. unfold call_args_words in *; simpl.
  rewrite IH. by destruct m.
Qed.
Lemma length_call_args_words args : length (call_args_words args) = (2 * length args)%nat.
Proof. induction args as [|[v m] args IH]; [done|]. unfold call_args_words in *; simpl. lia. Qed.

(** What is stored in the payload words stays readable: call arguments
    written with [add_extra] are read back by [get_call_args] from the returned
    start after any further operations on the AIR. *)
Theorem call_args_stable a args start a1 ops a2 :
  add_extra a (call_args_words args) = Done (start, a1) →
  foldM run_air_op a1 ops = Done a2 →
  get_call_args a2 start (Z.of_nat (length args)) = Done args.
Proof.
  intros (-> & Hx & Hlt)%add_extra_Done Hops.
  apply run_air_ops_extends in Hops as ([post Hpost] & _).
  unfold get_call_args, checked_mul. rewrite length_call_args_words in Hlt.
  rewrite decide_True by (unfold in_u; lia). simpl. unfold get_extra. rewrite Hpost, Hx, <- app_assoc.
  replace (Z.of_nat (length (extra a)) + Z.of_nat (length args) * 2)
    with (Z.of_nat (length (extra a) + length (call_args_words args)))
    by (rewrite length_call_args_words; lia).
  rewrite slice_range_app. apply read_call_args_words.
Qed.

(** A place made with [make_place] keeps its base and its projections after
    any further operations, as long as the tables stay below 2^32 entries. *)
Theorem place_stable a base projs r a1 ops a2 :
  Z.of_nat (length (projections a) + length projs) < 2 ^ 32 →
  Z.of_nat (length (places a)) < 2 ^ 32 →
  make_place a base projs = Done (r, a1) →
  foldM run_air_op a1 ops = Done a2 →
  ∃ pl, get_place a2 r = Done pl ∧ pl_base pl = base ∧ get_place_projections a2 pl = Done projs.
Proof.
  intros Hpr Hpl Hmk Hops. apply run_air_ops_extends in Hops as (_ & [post Hpost] & [post' Hpost'] & _).
  unfold make_place, push_projections, len_u32 in Hmk. rewrite !length_app in Hmk.
  rewrite !wrap_small in Hmk by (unfold in_u; lia). simplify_done.
  simpl in *. unfold len_u32. rewrite wrap_small by (unfold in_u; lia).
  eexists. split.
  { unfold get_place, index. rewrite Hpost', Nat2Z.id, <- app_assoc.
    apply expect_Done. by apply list_lookup_middle. }
  split; [done|]. unfold get_place_projections, get_projections, checked_add; simpl.
  rewrite decide_True by (unfold in_u; lia). simpl. rewrite Hpost, <- app_assoc.
  replace (Z.of_nat (length (projections a)) + (_ - _))
    with (Z.of_nat (length (projections a) + length projs)) by lia.
  apply slice_range_app.
Qed.

Context `{!SpurLaws Spur}.

Lemma length_arms_words (arms : list (AirPattern Spur * Z)) :
  (length arms ≤ length (arms_words arms))%nat.
Proof.
  unfold arms_words. induction arms as [|arm arms IH]; simpl; [lia|]. rewrite length_app. lia.
Qed.

(** Arms whose words are in the payload are read from there. *)
Lemma read_match_arms a pre arms rest :
  Forall (λ arm, pattern_wf arm.1) arms → extra a = pre ++ arms_words arms ++ rest →
  Z.of_nat (length arms) < 2 ^ 32 →
  get_match_arms a (Z.of_nat (length pre)) (len_u32 arms) = Done arms.
Proof.
  intros Hwf Hx Hlt. unfold get_match_arms. rewrite len_u32_small by done.
  rewrite !Nat2Z.id, Hx, slice_from_app, bind_ret by done. by apply collect_arms_words.
Qed.

(** The arms of a [match] survive: encoded and stored with [add_extra] as
    [analyze_match] does, they are read back by [get_match_arms] from the returned
    start, complete and in order, after any further operations on the AIR. *)
Theorem match_arms_stable a arms start a1 ops a2 :
  Forall (λ arm, pattern_wf arm.1) arms →
  add_extra a (encode_arms arms []) = Done (start, a1) →
  foldM run_air_op a1 ops = Done a2 →
  get_match_arms a2 start (len_u32 arms) = Done arms.
Proof.
  intros Hwf Hadd Hops. rewrite encode_arms_words in Hadd. simpl in Hadd.
  apply add_extra_Done in Hadd as (-> & Hx & Hlt).
  apply run_air_ops_extends in Hops as ([post Hpost] & _).
  pose proof (length_arms_words arms). eapply read_match_arms; [done| |lia].
  by rewrite Hpost, Hx, <- app_assoc.
Qed.

(** Instructions are found under the reference [add_inst] returns, with the
    type and span they were added with, after any further operations (the data
    may have been rewritten). *)
Theorem instruction_stable a inst ops a2 :
  Z.of_nat (length (instructions a)) < 2 ^ 32 →
  foldM run_air_op (add_inst a inst).2 ops = Done a2 →
  ∃ inst', get_inst a2 (add_inst a inst).1 = Done inst' ∧
    i_ty inst' = i_ty inst ∧ i_span inst' = i_span inst.
Proof.
  intros Hlen Hops. apply run_air_ops_extends in Hops as (_ & _ & _ & [pt Ht] & [ps Hs] & _).
  simpl in *. unfold len_u32, get_inst, index. rewrite wrap_small by (unfold in_u; lia).
  rewrite Nat2Z.id, !map_app, <- !app_assoc in *. 
  assert (H1 : map i_ty (instructions a2) !! length (instructions a) = Some (i_ty inst)).
  { rewrite Ht. apply list_lookup_middle. by rewrite length_map. }
  assert (H2 : map i_span (instructions a2) !! length (instructions a) = Some (i_span inst)).
  { rewrite Hs. apply list_lookup_middle. by rewrite length_map. }
  rewrite list_lookup_fmap in H1. rewrite list_lookup_fmap in H2.
  destruct (instructions a2 !! length (instructions a)) as [inst'|]; [|done].
  exists inst'. simplify_eq/=. done.
Qed.

End AirTheory.

(** ** Witnesses *)
Module AirSample.
Import Names.
Definition a0 : Air (Spur := Name) := new_air Ty.I32.
Definition inst : AirInst (Spur := Name) := MkInst (IStringConst 4) Ty.I32 (MkSpan 0 1 2).
Definition args : list AirCallArg := [MkCallArg 3 ArgNormal; MkCallArg 5 ArgRef].
Definition ops : list (air_op (Spur := Name)) :=
  [OpAddExtra [1; 2; 3]; OpAddInst inst; OpRemapStrings (Z.add 10);
   OpMakePlace (Local 0) [Field 1 2]; OpRewrite 0 IUnitConst].
End AirSample.

(** Names the results of two concrete steps that succeed. *)
Ltac run_two m f H1 H2 a1 a2 :=
  destruct m as [[? a1]| |] eqn:H1; [|vm_compute in H1; discriminate H1..];
  destruct (foldM run_air_op a1 f) as [a2| |] eqn:H2;
  [|vm_compute in H1; injection H1 as <- <-; vm_compute in H2; discriminate H2..].

Lemma call_args_stable_witness :
  ∃ start a1 a2, add_extra AirSample.a0 (call_args_words AirSample.args) = Done (start, a1) ∧
    foldM run_air_op a1 AirSample.ops = Done a2 ∧ get_call_args a2 start 2 = Done AirSample.args.
Proof.
  run_two (add_extra AirSample.a0 (call_args_words AirSample.args)) AirSample.ops H1 H2 a1 a2.
  eexists _, a1, a2. split; [reflexivity|]. split; [exact H2|].
  exact (call_args_stable _ _ _ _ _ _ H1 H2).
Defined.

Lemma place_stable_witness :
  ∃ r a1 a2, make_place AirSample.a0 (Param 1) [Field 0 1; Field 2 3] = Done (r, a1) ∧
    foldM run_air_op a1 AirSample.ops = Done a2 ∧
    ∃ pl, get_place a2 r = Done pl ∧ pl_base pl = Param 1 ∧
          get_place_projections a2 pl = Done [Field 0 1; Field 2 3].
Proof.
  run_two (make_place AirSample.a0 (Param 1) [Field 0 1; Field 2 3]) AirSample.ops H1 H2 a1 a2.
  eexists _, a1, a2. split; [reflexivity|]. split; [exact H2|].
  refine (place_stable _ _ _ _ _ _ _ _ _ H1 H2); by vm_compute.
Defined.

Lemma match_arms_stable_witness :
  ∃ start a1 a2,
    add_extra AirSample.a0 (encode_arms [(Names.tuple, 9); (Wildcard, 10)] []) = Done (start, a1) ∧
    foldM run_air_op a1 AirSample.ops = Done a2 ∧
    get_match_arms a2 start 2 = Done [(Names.tuple, 9); (Wildcard, 10)].
Proof.
  run_two (add_extra AirSample.a0 (encode_arms [(Names.tuple, 9); (Wildcard, 10)] []))
    AirSample.ops H1 H2 a1 a2.
  eexists _, a1, a2. split; [reflexivity|]. split; [exact H2|].
  refine (match_arms_stable _ _ _ _ _ _ _ H1 H2).
  repeat constructor; by vm_compute.
Defined.

Lemma instruction_stable_witness :
  ∃ a2, foldM run_air_op (add_inst AirSample.a0 AirSample.inst).2 AirSample.ops = Done a2 ∧
  ∃ inst', get_inst a2 (add_inst AirSample.a0 AirSample.inst).1 = Done inst' ∧
    i_ty inst' = Ty.I32 ∧ i_span inst' = MkSpan 0 1 2.
Proof.
  destruct (foldM run_air_op (add_inst AirSample.a0 AirSample.inst).2 AirSample.ops)
    as [a2| |] eqn:H2; [|vm_compute in H2; discriminate H2..].
  exists a2. split; [reflexivity|].
  refine (instruction_stable _ _ _ _ _ H2). by vm_compute.
Defined.
