(* ===== verification/Usefulness.v ===== *)
(** * Match exhaustiveness and reachability

    Models [crates/gruel-air/src/sema/usefulness.rs], Maranget's usefulness
    algorithm over [AirPattern] matrices, with the functions sema calls,
    [exhaustiveness_witnesses] and [arm_reachability]; the text of a witness
    ([render_witness]) is not modelled.

    The recursion is on neither argument; [is_useful] runs on fuel, and
    [usefulness_terminates] shows that some fuel is enough on well-typed input. *)

From stdpp Require Import pretty.
From S2P Require Import Prelude Types LayoutTypes InternPool AirPattern.

#[local] Open Scope Z_scope.

(** [Ctor]. *)
Inductive Ctor : Set :=
  | CtorWildcard
  | CtorInt (n : Z)
  | CtorBool (b : bool)
  | CtorEnumVariant (enum_id variant_index : Z)
  | CtorTuple (arity : Z)
  | CtorStruct (struct_id : Z).
#[export] Instance Ctor_eq_dec : EqDecision Ctor.
Proof. solve_decision. Defined.

Section Usefulness.
Context {Spur : Type} `{Countable Spur}.
Context (type_pool : TypeInternPool (Spur := Spur)).
Notation AirPattern := (AirPattern Spur).

(** [head_ctor]. *)
Fixpoint head_ctor (pattern : AirPattern) : Ctor :=
  match pattern with
  | Wildcard => CtorWildcard
  | PBind _ _ None => CtorWildcard
  | PBind _ _ (Some inner) => head_ctor inner
  | PInt n => CtorInt n
  | PBool b => CtorBool b
  | PEnumVariant enum_id variant_index
  | PEnumUnitVariant enum_id variant_index
  | PEnumDataVariant enum_id variant_index _
  | PEnumStructVariant enum_id variant_index _ => CtorEnumVariant enum_id variant_index
  | PTuple elems => CtorTuple (len_u32 elems)
  | PStruct struct_id _ => CtorStruct struct_id
  end.

(** [&def.variants[variant_index as usize]]. *)
Definition variant_at (enum_id variant_index : Z) : outcome EnumVariantDef :=
  def ← enum_def type_pool enum_id; index (ed_variants def) (Z.to_nat variant_index).

(** [ctor_arity]. *)
Definition ctor_arity (ctor : Ctor) : outcome Z :=
  match ctor with
  | CtorWildcard | CtorInt _ | CtorBool _ => mret 0
  | CtorEnumVariant enum_id variant_index =>
      v ← variant_at enum_id variant_index; mret (len_u32 (ev_fields v))
  | CtorTuple arity => mret arity
  | CtorStruct struct_id => d ← struct_def type_pool struct_id; mret (len_u32 (sd_fields d))
  end.

(** [ctor_sub_types]. *)
Definition ctor_sub_types (ctor : Ctor) (head_ty : Ty) : outcome (list Ty) :=
  match ctor with
  | CtorWildcard | CtorInt _ | CtorBool _ => mret []
  | CtorEnumVariant enum_id variant_index =>
      v ← variant_at enum_id variant_index; mret (ev_fields v)
  | CtorTuple _ | CtorStruct _ =>
      match as_struct head_ty with
      | Some sid => d ← struct_def type_pool sid; mret (map sf_ty (sd_fields d))
      | None => mret []
      end
  end.

(** [specialize_pattern]. *)
Fixpoint specialize_pattern (pattern : AirPattern) (ctor : Ctor) (arity : Z)
    : option (list AirPattern) :=
  let wildcards := replicate (Z.to_nat arity) Wildcard in
  match pattern, ctor with
  | Wildcard, _ => Some wildcards
  | PBind _ _ None, _ => Some wildcards
  | PBind _ _ (Some inner), _ => specialize_pattern inner ctor arity
  | PInt n, CtorInt m => if n =? m then Some [] else None
  | PBool b, CtorBool c => if Bool.eqb b c then Some [] else None
  | PEnumVariant _ vi, CtorEnumVariant _ variant_index
  | PEnumUnitVariant _ vi, CtorEnumVariant _ variant_index =>
      if vi =? variant_index then Some wildcards else None
  | PEnumDataVariant _ vi fields, CtorEnumVariant _ variant_index =>
      if vi =? variant_index then Some fields else None
  | PEnumStructVariant _ vi fields, CtorEnumVariant _ variant_index =>
      if vi =? variant_index then Some (map snd fields) else None
  | PTuple elems, CtorTuple a => if len_u32 elems =? a then Some elems else None
  | PStruct sid fields, CtorStruct struct_id =>
      if sid =? struct_id then Some (map snd fields) else None
  | _, _ => None
  end.

(** [specialize_rows]: a row without a head, or whose head does not match, is skipped. *)
Definition specialize_row (ctor : Ctor) (arity : Z) (row : list AirPattern)
    : option (list AirPattern) :=
  match row with
  | [] => None
  | head :: tail => sub ← specialize_pattern head ctor arity; Some (sub ++ tail)
  end.
Definition specialize_rows (rows : list (list AirPattern)) (ctor : Ctor) (arity : Z)
    : list (list AirPattern) :=
  omap (specialize_row ctor arity) rows.

(** [default_rows]. *)
Definition default_row (row : list AirPattern) : option (list AirPattern) :=
  match row with
  | head :: tail => if decide (head_ctor head = CtorWildcard) then Some tail else None
  | [] => None
  end.
Definition default_rows (rows : list (list AirPattern)) : list (list AirPattern) :=
  omap default_row rows.

(** [type_signature]. *)
Definition type_signature (ty : Ty) : outcome (option (list Ctor)) :=
  if decide (ty = Ty.BOOL) then mret (Some [CtorBool true; CtorBool false])
  else match as_enum ty with
  | Some enum_id =>
      def ← enum_def type_pool enum_id;
      mret (Some (map (λ i, CtorEnumVariant enum_id (wrap 32 (Z.of_nat i)))
                    (seq 0 (length (ed_variants def)))))
  | None =>
      match as_struct ty with
      | Some struct_id =>
          def ← struct_def type_pool struct_id;
          if is_tuple_shaped def then mret (Some [CtorTuple (len_u32 (sd_fields def))])
          else mret (Some [CtorStruct struct_id])
      | None => mret None
      end
  end.

(** [build_witness]. *)
Definition build_witness (ctor : Ctor) (subs : list AirPattern) : outcome AirPattern :=
  match ctor with
  | CtorWildcard => mret Wildcard
  | CtorInt n => mret (PInt n)
  | CtorBool b => mret (PBool b)
  | CtorEnumVariant enum_id variant_index =>
      match subs with
      | [] => mret (PEnumUnitVariant enum_id variant_index)
      | _ => mret (PEnumDataVariant enum_id variant_index subs)
      end
  | CtorTuple _ => mret (PTuple subs)
  | CtorStruct struct_id =>
      def ← struct_def type_pool struct_id;
      mret (PStruct struct_id
        (imap (λ i p, (wrap 32 (Z.of_nat i), p)) (take (length (sd_fields def)) subs)))
  end.

(** [Usefulness]. *)
Inductive Usefulness : Type :=
  | NotUseful
  | Useful (witnesses : list (list AirPattern)).

(** Folds the witnesses of a specialised matrix back into the constructor; a
    witness shorter than the arity is dropped. *)
Definition fold_witnesses (ctor : Ctor) (arity : Z) (ws : list (list AirPattern))
    : outcome (list (list AirPattern)) :=
  foldM (λ acc w,
    if (length w <? Z.to_nat arity)%nat then mret acc
    else head ← build_witness ctor (take (Z.to_nat arity) w);
         mret (acc ++ [head :: drop (Z.to_nat arity) w])) [] ws.

Definition of_witnesses (ws : list (list AirPattern)) : Usefulness :=
  match ws with [] => NotUseful | _ => Useful ws end.

Section Recursion.
Context (rec : list (list AirPattern) → list AirPattern → list Ty → outcome Usefulness).

(** The recursive call on the matrix and the query specialised to [ctor]. *)
Definition useful_at (rows : list (list AirPattern)) (q_head : AirPattern)
    (q_rest : list AirPattern) (head_ty : Ty) (rest_tys : list Ty) (ctor : Ctor)
    : outcome (list (list AirPattern)) :=
  arity ← ctor_arity ctor;
  let specialised_query := default [] (specialize_pattern q_head ctor arity) ++ q_rest in
  sub_tys ← ctor_sub_types ctor head_ty;
  u ← rec (specialize_rows rows ctor arity) specialised_query (sub_tys ++ rest_tys);
  match u with
  | NotUseful => mret []
  | Useful witnesses => fold_witnesses ctor arity witnesses
  end.

(** The rows [ctor(_, ..) :: w] for a constructor no row uses. *)
Definition stub_witnesses (ws : list (list AirPattern)) (ctor : Ctor)
    : outcome (list (list AirPattern)) :=
  arity ← ctor_arity ctor;
  foldM (λ acc w, head ← build_witness ctor (replicate (Z.to_nat arity) Wildcard);
                  mret (acc ++ [head :: w])) [] ws.

(** The case of a query that starts with a wildcard. *)
Definition useful_wildcard (rows : list (list AirPattern)) (q_head : AirPattern)
    (q_rest : list AirPattern) (head_ty : Ty) (rest_tys : list Ty) : outcome Usefulness :=
  let used := filter (λ c, c ≠ CtorWildcard) (omap (λ r, head_ctor <$> head r) rows) in
  sig ← type_signature head_ty;
  match sig with
  | None =>
      inner ← rec (default_rows rows) q_rest rest_tys;
      match inner with
      | NotUseful => mret NotUseful
      | Useful witnesses => mret (Useful (map (λ w, Wildcard :: w) witnesses))
      end
  | Some ctors =>
      let missing := filter (λ c, c ∉ used) ctors in
      match missing with
      | [] =>
          all_witnesses ← foldM (λ acc c,
            ws ← useful_at rows q_head q_rest head_ty rest_tys c; mret (acc ++ ws)) [] ctors;
          mret (of_witnesses all_witnesses)
      | _ =>
          inner ← rec (default_rows rows) q_rest rest_tys;
          match inner with
          | NotUseful => mret NotUseful
          | Useful witnesses =>
              all ← foldM (λ acc c, ws ← stub_witnesses witnesses c; mret (acc ++ ws)) [] missing;
              mret (Useful all)
          end
      end
  end.

(** One level of [is_useful]. *)
Definition useful_step (rows : list (list AirPattern)) (query : list AirPattern)
    (column_types : list Ty) : outcome Usefulness :=
  match query with
  | [] => mret (match rows with [] => Useful [[]] | _ => NotUseful end)
  | q_head :: q_rest =>
      head_ty ← index column_types 0;
      let rest_tys := drop 1 column_types in
      match head_ctor q_head with
      | CtorWildcard => useful_wildcard rows q_head q_rest head_ty rest_tys
      | ctor => ws ← useful_at rows q_head q_rest head_ty rest_tys ctor; mret (of_witnesses ws)
      end
  end.
End Recursion.

(** [is_useful]. *)
Fixpoint is_useful (fuel : nat) (rows : list (list AirPattern)) (query : list AirPattern)
    (column_types : list Ty) : outcome Usefulness :=
  match fuel with
  | O => NoFuel
  | S fuel => useful_step (is_useful fuel) rows query column_types
  end.

(** [exhaustiveness_witnesses]: the last pattern of each witness row. *)
Definition exhaustiveness_witnesses (fuel : nat) (arms : list AirPattern) (scrutinee_type : Ty)
    : outcome (list AirPattern) :=
  u ← is_useful fuel (map (λ a, [a]) arms) [Wildcard] [scrutinee_type];
  match u with
  | NotUseful => mret []
  | Useful witnesses => mret (omap list.last witnesses)
  end.

(** [arm_reachability]: a loop over [(reach, seen)]. *)
Definition reach_step (fuel : nat) (scrutinee_type : Ty)
    (st : list bool * list (list AirPattern)) (a : AirPattern)
    : outcome (list bool * list (list AirPattern)) :=
  let '(reach, seen) := st in
  u ← is_useful fuel seen [a] [scrutinee_type];
  mret (reach ++ [match u with Useful _ => true | NotUseful => false end], seen ++ [[a]]).
Definition arm_reachability (fuel : nat) (arms : list AirPattern) (scrutinee_type : Ty)
    : outcome (list bool) :=
  r ← foldM (reach_step fuel scrutinee_type) ([], []) arms; mret r.1.

End Usefulness.
Arguments NotUseful {Spur}.
Arguments Useful {Spur} witnesses.

(** ** Values, and what a pattern matches

    A value is a constructor of its type applied to values; a type without
    constructors (integers, floats, pointers, ...) has the numbers as values. *)
Inductive value : Type :=
  | VScalar (n : Z)
  | VBool (b : bool)
  | VEnum (variant_index : Z) (fields : list value)
  | VStruct (fields : list value).

Definition mk_value (c : Ctor) (vs : list value) : value :=
  match c with
  | CtorWildcard => VScalar 0
  | CtorInt n => VScalar n
  | CtorBool b => VBool b
  | CtorEnumVariant _ i => VEnum i vs
  | CtorTuple _ | CtorStruct _ => VStruct vs
  end.

Section Semantics.
Context {Spur : Type}.
Notation AirPattern := (AirPattern Spur).

(** Struct fields are matched by their field index, tuple elements and the fields
    of a data variant by position. *)
Fixpoint pmatch (p : AirPattern) (v : value) : bool :=
  let by_index := λ (fields : list (Z * AirPattern)) vs,
    forallb (λ f, match vs !! Z.to_nat f.1 with Some v => pmatch f.2 v | None => false end) fields in
  let by_position := fix go (ps : list AirPattern) vs :=
    match ps, vs with
    | [], [] => true
    | p :: ps, v :: vs => pmatch p v && go ps vs
    | _, _ => false
    end in
  match p, v with
  | Wildcard, _ => true
  | PBind _ _ None, _ => true
  | PBind _ _ (Some inner), _ => pmatch inner v
  | PInt n, VScalar m => n =? m
  | PBool b, VBool c => Bool.eqb b c
  | PEnumVariant _ i, VEnum j _ | PEnumUnitVariant _ i, VEnum j _ => i =? j
  | PEnumDataVariant _ i fields, VEnum j vs => (i =? j) && by_position fields vs
  | PEnumStructVariant _ i fields, VEnum j vs => (i =? j) && by_index fields vs
  | PTuple elems, VStruct vs => by_position elems vs
  | PStruct _ fields, VStruct vs => by_index fields vs
  | _, _ => false
  end.

Fixpoint match_all (ps : list AirPattern) (vs : list value) : bool :=
  match ps, vs with
  | [], [] => true
  | p :: ps, v :: vs => pmatch p v && match_all ps vs
  | _, _ => false
  end.

(** Fields are listed in declaration order, none missing. *)
Definition in_order (fields : list (Z * AirPattern)) : Prop :=
  map fst fields = map Z.of_nat (seq 0 (length fields)).

Lemma match_all_app ps1 ps2 vs1 vs2 :
  length ps1 = length vs1 → match_all (ps1 ++ ps2) (vs1 ++ vs2) = match_all ps1 vs1 && match_all ps2 vs2.
Proof.
  revert vs1; induction ps1 as [|p ps1 IH]; intros [|v vs1] Hl; simplify_eq/=; [done|].
  rewrite IH by done. by rewrite andb_assoc.
Qed.

Lemma match_all_wildcards n vs : length vs = n → match_all (replicate n Wildcard) vs = true.
Proof. intros <-. induction vs; simpl; auto. Qed.

Lemma match_all_length ps vs : match_all ps vs = true → length ps = length vs.
Proof.
  revert vs; induction ps as [|p ps IH]; intros [|v vs]; simpl; try done.
  intros [_ ?]%andb_true_iff. f_equal. auto.
Qed.

Lemma by_index_match fields vs :
  in_order fields → length fields = length vs →
  forallb (λ f, match vs !! Z.to_nat f.1 with Some v => pmatch f.2 v | None => false end) fields
  = match_all (map snd fields) vs.
Proof.
  unfold in_order. intros Ho Hlen.
  enough (Hgen : ∀ pre, map fst fields = map Z.of_nat (seq (length pre) (length fields)) →
    forallb (λ f, match (pre ++ vs) !! Z.to_nat f.1 with Some v => pmatch f.2 v | None => false end)
      fields = match_all (map snd fields) vs) by exact (Hgen [] Ho).
  clear Ho. revert vs Hlen. induction fields as [|[i p] fields IH]; intros [|v vs] Hlen pre Ho;
    simplify_eq/=; [done|].
  rewrite Nat2Z.id, list_lookup_middle by done. f_equal.
  specialize (IH vs ltac:(done) (pre ++ [v])). rewrite <- app_assoc in IH. apply IH.
  rewrite length_app. simpl. by rewrite Nat.add_comm.
Qed.

End Semantics.

Section Typing.
Context {Spur : Type} `{Countable Spur} (p : TypeInternPool (Spur := Spur)).
Notation AirPattern := (AirPattern Spur).
Notation sig := (type_signature p).

(** The constructors of a type with the types of their fields. *)
Inductive is_ctor : Ty → Ctor → list Ty → Prop :=
  | ctor_bool b : is_ctor Ty.BOOL (CtorBool b) []
  | ctor_scalar ty n : sig ty = Done None → is_ctor ty (CtorInt n) []
  | ctor_enum ty e d i v :
      as_enum ty = Some e → enum_def p e = Done d → ed_variants d !! i = Some v →
      is_ctor ty (CtorEnumVariant e (Z.of_nat i)) (ev_fields v)
  | ctor_tuple ty s d :
      as_struct ty = Some s → struct_def p s = Done d → is_tuple_shaped d = true →
      is_ctor ty (CtorTuple (len_u32 (sd_fields d))) (map sf_ty (sd_fields d))
  | ctor_struct ty s d :
      as_struct ty = Some s → struct_def p s = Done d → is_tuple_shaped d = false →
      is_ctor ty (CtorStruct s) (map sf_ty (sd_fields d)).

Inductive has_type : value → Ty → Prop :=
  | has_type_mk ty c tys vs :
      is_ctor ty c tys → Forall2 has_type vs tys → has_type (mk_value c vs) ty.

(** Well-typed patterns: sub-patterns are complete, and the fields of structs and
    struct variants are in declaration order. *)
Inductive ptyped : AirPattern → Ty → Prop :=
  | pt_wild ty : ptyped Wildcard ty
  | pt_bind n m ty : ptyped (PBind n m None) ty
  | pt_bind_at n m q ty : ptyped q ty → ptyped (PBind n m (Some q)) ty
  | pt_int n ty : sig ty = Done None → ptyped (PInt n) ty
  | pt_bool b : ptyped (PBool b) Ty.BOOL
  | pt_variant ty e i tys :
      is_ctor ty (CtorEnumVariant e i) tys → ptyped (PEnumVariant e i) ty
  | pt_unit ty e i tys :
      is_ctor ty (CtorEnumVariant e i) tys → ptyped (PEnumUnitVariant e i) ty
  | pt_data ty e i fs tys :
      is_ctor ty (CtorEnumVariant e i) tys → Forall2 ptyped fs tys →
      ptyped (PEnumDataVariant e i fs) ty
  | pt_estruct ty e i fs tys :
      is_ctor ty (CtorEnumVariant e i) tys → in_order fs → Forall2 ptyped (map snd fs) tys →
      ptyped (PEnumStructVariant e i fs) ty
  | pt_tuple ty es tys :
      is_ctor ty (CtorTuple (len_u32 es)) tys → Forall2 ptyped es tys → ptyped (PTuple es) ty
  | pt_struct ty s fs tys :
      is_ctor ty (CtorStruct s) tys → in_order fs → Forall2 ptyped (map snd fs) tys →
      ptyped (PStruct s fs) ty.

(** Definitions have fewer than 2^32 variants and fields. *)
Definition pool_small : Prop :=
  (∀ e d, enum_def p e = Done d →
     short (ed_variants d) ∧ Forall (λ v, short (ev_fields v)) (ed_variants d)) ∧
  (∀ s d, struct_def p s = Done d → short (sd_fields d)).

Lemma len_u32_short {A} (l : list A) : short l → len_u32 l = Z.of_nat (length l).
Proof. intros. by apply short_wrap. Qed.

Lemma tag_disjoint ty e s : as_enum ty = Some e → as_struct ty = Some s → False.
Proof.
  unfold as_enum, as_struct, is_enum, is_struct. do 2 case_match; try done.
  rewrite Z.eqb_eq in *. unfold TAG_ENUM, TAG_STRUCT in *. congruence.
Qed.

Lemma is_ctor_sub ty c tys :
  pool_small → is_ctor ty c tys →
  ctor_arity p c = Done (Z.of_nat (length tys)) ∧ ctor_sub_types p c ty = Done tys.
Proof.
  intros [He Hs]. destruct 1 as [b|ty n|ty e d i v Ha Hd Hv|ty s d Ha Hd Ht|ty s d Ha Hd Ht];
    simpl; try done.
  - unfold variant_at. rewrite Hd. simpl. rewrite Nat2Z.id. unfold index. rewrite Hv. simpl.
    split; [|done]. f_equal. apply len_u32_short. destruct (He _ _ Hd) as [_ Hf].
    by eapply Forall_lookup_1 in Hf.
  - rewrite Ha, Hd. simpl. split; [|done]. rewrite len_u32_short, length_map by eauto. done.
  - rewrite Ha, Hd. simpl. split; [|done]. rewrite len_u32_short, length_map by eauto. done.
Qed.

Lemma is_ctor_det ty c tys tys' :
  pool_small → is_ctor ty c tys → is_ctor ty c tys' → tys = tys'.
Proof.
  intros Hp [_ H1]%is_ctor_sub [_ H2]%is_ctor_sub; try done. congruence.
Qed.

Lemma sig_enum ty e d : as_enum ty = Some e → enum_def p e = Done d →
  sig ty = Done (Some (map (λ i, CtorEnumVariant e (wrap 32 (Z.of_nat i)))
                    (seq 0 (length (ed_variants d))))).
Proof. intros Ha Hd. unfold type_signature. case_decide; [by subst|]. by rewrite Ha, Hd. Qed.
Lemma sig_struct ty s d : as_struct ty = Some s → struct_def p s = Done d →
  sig ty = Done (Some [if is_tuple_shaped d then CtorTuple (len_u32 (sd_fields d)) else CtorStruct s]).
Proof.
  intros Ha Hd. unfold type_signature. case_decide; [by subst|].
  destruct (as_enum ty) eqn:He; [by exfalso; eapply tag_disjoint|].
  rewrite Ha, Hd. simpl. by case_match.
Qed.

(** The signature lists the constructors. *)
Lemma is_ctor_sig ty c tys :
  pool_small → is_ctor ty c tys → (sig ty = Done None ∧ ∃ n, c = CtorInt n) ∨
  ∃ cs, sig ty = Done (Some cs) ∧ c ∈ cs.
Proof.
  intros [He Hs]. destruct 1 as [b|ty n|ty e d i v Ha Hd Hv|ty s d Ha Hd Ht|ty s d Ha Hd Ht].
  - right. eexists. split; [done|]. destruct b; set_solver.
  - left. eauto.
  - right. rewrite (sig_enum _ _ _ Ha Hd). eexists. split; [done|].
    apply list_elem_of_fmap. exists i. apply lookup_lt_Some in Hv as Hlt.
    destruct (He _ _ Hd) as [Hsh _]. rewrite wrap_small by (unfold in_u, short in *; lia).
    split; [done|]. apply elem_of_seq. lia.
  - right. rewrite (sig_struct _ _ _ Ha Hd), Ht. eexists. split; [done|]. by left.
  - right. rewrite (sig_struct _ _ _ Ha Hd), Ht. eexists. split; [done|]. by left.
Qed.

Lemma sig_is_ctor ty cs c :
  pool_small → sig ty = Done (Some cs) → c ∈ cs → ∃ tys, is_ctor ty c tys.
Proof.
  intros [He Hs] Hsig Hc. unfold type_signature in Hsig. case_decide; simplify_done.
  { destruct (decide (c = CtorBool true)) as [->|]; [eexists; constructor|].
    assert (c = CtorBool false) as -> by set_solver. eexists; constructor. }
  destruct (as_enum ty) as [e|] eqn:Ha; simplify_done.
  { apply list_elem_of_fmap in Hc as (i & -> & Hi%elem_of_seq).
    destruct (lookup_lt_is_Some_2 (ed_variants x) i) as [v Hv]; [lia|].
    destruct (He _ _ ltac:(done)) as [Hsh _].
    rewrite wrap_small by (unfold in_u, short in *; lia). eexists. by econstructor. }
  destruct (as_struct ty) as [s|] eqn:Hst; simplify_done.
  case_match; simplify_done; apply list_elem_of_singleton in Hc as ->;
    eexists; by econstructor.
Qed.

Lemma ptyped_head q ty : ptyped q ty →
  head_ctor q = CtorWildcard ∨ ∃ tys, is_ctor ty (head_ctor q) tys.
Proof.
  induction 1; simpl; eauto.
  - right. eexists. by constructor.
  - right. eexists. constructor.
Qed.

Lemma specialize_wildcard (q : AirPattern) c n v :
  head_ctor q = CtorWildcard →
  specialize_pattern q c n = Some (replicate (Z.to_nat n) Wildcard) ∧ pmatch q v = true.
Proof.
  induction q using AirPattern_tree_ind; simpl; try done.
Qed.

(** Two constructors of one type are of one family. *)
Definition same_family (c c' : Ctor) : Prop :=
  match c, c' with
  | CtorInt _, CtorInt _ | CtorBool _, CtorBool _ => True
  | CtorEnumVariant e _, CtorEnumVariant e' _ => e = e'
  | CtorTuple a, CtorTuple a' => a = a'
  | CtorStruct s, CtorStruct s' => s = s'
  | _, _ => False
  end.

Lemma is_ctor_family ty c tys c' tys' :
  is_ctor ty c tys → is_ctor ty c' tys' → same_family c c'.
Proof.
  destruct 1 as [b|ty n Hn|ty e d i v Ha Hd Hv|ty s d Ha Hd Ht|ty s d Ha Hd Ht];
    inversion 1 as [b'|ty' n' Hn'|ty' e' d' i' v' Ha' Hd' Hv'|ty' s' d' Ha' Hd' Ht'|ty' s' d' Ha' Hd' Ht'];
    subst; simpl; try done; try congruence;
    try (by exfalso; eapply tag_disjoint);
    try (rewrite (sig_enum _ _ _ Ha' Hd') in Hn; done);
    try (rewrite (sig_enum _ _ _ Ha Hd) in Hn'; done);
    try (rewrite (sig_struct _ _ _ Ha' Hd') in Hn; done);
    try (rewrite (sig_struct _ _ _ Ha Hd) in Hn'; done).
Qed.

Lemma by_position_match (fields : list AirPattern) vs :
  (fix go (ps : list AirPattern) vs :=
    match ps, vs with
    | [], [] => true
    | p :: ps, v :: vs => pmatch p v && go ps vs
    | _, _ => false
    end) fields vs = match_all fields vs.
Proof. revert vs; induction fields as [|q qs IH]; intros [|v vs]; simpl; [done..|by rewrite IH]. Qed.

Lemma wildcards_typed tys : Forall2 ptyped (replicate (length tys) Wildcard) tys.
Proof. induction tys; simpl; constructor; [constructor|done]. Qed.

(** Specialisation by a constructor is matching its arguments. *)
Lemma specialize_correct q ty c tys vs :
  pool_small → ptyped q ty → is_ctor ty c tys → length vs = length tys →
  match specialize_pattern q c (Z.of_nat (length tys)) with
  | Some sub => Forall2 ptyped sub tys ∧ pmatch q (mk_value c vs) = match_all sub vs
  | None => pmatch q (mk_value c vs) = false
  end.
Proof.
  intros Hp Hq Hc Hlen.
  assert (Hw : Forall2 ptyped (replicate (Z.to_nat (Z.of_nat (length tys))) Wildcard) tys ∧
    true = match_all (replicate (Z.to_nat (Z.of_nat (length tys))) (Wildcard (Spur := Spur))) vs).
  { rewrite Nat2Z.id, match_all_wildcards by done. split; [apply wildcards_typed|done]. }
  assert (Hnil : tys = [] → vs = []) by (intros ->; by destruct vs).
  assert (Hsame : ∀ i i' e tys', c = CtorEnumVariant e i' → is_ctor ty (CtorEnumVariant e i) tys' →
    i = i' → tys' = tys) by (intros; subst; by eapply is_ctor_det).
  induction Hq as [ty|n m ty|n m q ty Hq IH|n ty Hn|b|ty e i tys' Hc'|ty e i tys' Hc'
    |ty e i fs tys' Hc' Hf|ty e i fs tys' Hc' Ho Hf|ty es tys' Hc' Hf|ty s fs tys' Hc' Ho Hf];
    simpl; [done|done|by apply IH|..];
    [pose proof (is_ctor_family _ _ _ _ _ (ctor_scalar _ n Hn) Hc) as Hfam
    |pose proof (is_ctor_family _ _ _ _ _ (ctor_bool b) Hc) as Hfam
    |pose proof (is_ctor_family _ _ _ _ _ Hc' Hc) as Hfam..];
    destruct c; simpl in Hfam; try done; simpl.
  - inversion Hc; subst. rewrite Hnil by done. by destruct (n =? _).
  - inversion Hc; subst. rewrite Hnil by done. by destruct (Bool.eqb b _).
  - subst. by destruct (i =? _).
  - subst. by destruct (i =? _).
  - subst. destruct (Z.eqb_spec i variant_index) as [Hi|]; simpl; [|done].
    rewrite by_position_match. rewrite (Hsame _ _ _ _ eq_refl Hc' Hi) in Hf. done.
  - subst. destruct (Z.eqb_spec i variant_index) as [Hi|]; simpl; [|done].
    rewrite (Hsame _ _ _ _ eq_refl Hc' Hi) in Hf. split; [done|].
    apply by_index_match; [done|]. apply Forall2_length in Hf. rewrite length_map in Hf. lia.
  - subst. rewrite Z.eqb_refl. rewrite (is_ctor_det _ _ _ _ Hp Hc' Hc) in Hf.
    split; [done|]. apply by_position_match.
  - subst. rewrite Z.eqb_refl. rewrite (is_ctor_det _ _ _ _ Hp Hc' Hc) in Hf.
    split; [done|]. apply by_index_match; [done|].
    apply Forall2_length in Hf. rewrite length_map in Hf. lia.
Qed.

(** A pattern whose head is neither a wildcard nor [c] does not match [c]. *)
Lemma specialize_Some_head (q : AirPattern) c n sub :
  specialize_pattern q c n = Some sub → ∀ ty tys, ptyped q ty → is_ctor ty c tys →
  head_ctor q = CtorWildcard ∨ head_ctor q = c.
Proof.
  intros Hs ty tys Hq Hc.
  destruct (ptyped_head _ _ Hq) as [|[tys' Hc']]; [by left|right].
  pose proof (is_ctor_family _ _ _ _ _ Hc' Hc) as Hfam. clear Hq Hc Hc'.
  revert sub Hs; induction q using AirPattern_tree_ind; intros sub Hs; simpl in *;
    destruct c; simpl in Hfam; try done; try (by eapply IHq);
    repeat (match type of Hs with (if ?b then _ else _) = _ => destruct b eqn:? end; try done);
    rewrite ?Z.eqb_eq, ?eqb_true_iff in *; congruence.
Qed.

(** ** Rows and matrices *)

Lemma specialize_row_correct row ty c tys rest_tys vs ws :
  pool_small → Forall2 ptyped row (ty :: rest_tys) → is_ctor ty c tys → length vs = length tys →
  match specialize_row c (Z.of_nat (length tys)) row with
  | Some row' => Forall2 ptyped row' (tys ++ rest_tys) ∧
                 match_all row (mk_value c vs :: ws) = match_all row' (vs ++ ws)
  | None => match_all row (mk_value c vs :: ws) = false
  end.
Proof.
  intros Hp Hrow Hc Hlen. inversion Hrow as [|q ? row' ? Hq Hr]; subst. simpl.
  pose proof (specialize_correct q ty c tys vs Hp Hq Hc Hlen) as Hs.
  destruct (specialize_pattern q c _) as [sub|]; simpl; [|by rewrite Hs].
  destruct Hs as [Hsub ->]. split; [by apply Forall2_app|].
  rewrite match_all_app; [done|]. apply Forall2_length in Hsub. lia.
Qed.

Definition covered (rows : list (list AirPattern)) (vs : list value) : Prop :=
  ∃ row, row ∈ rows ∧ match_all row vs = true.

Lemma specialize_rows_correct rows ty c tys rest_tys vs ws :
  pool_small → Forall (λ r, Forall2 ptyped r (ty :: rest_tys)) rows → is_ctor ty c tys →
  length vs = length tys →
  let rows' := specialize_rows rows c (Z.of_nat (length tys)) in
  Forall (λ r, Forall2 ptyped r (tys ++ rest_tys)) rows' ∧
  (covered rows (mk_value c vs :: ws) ↔ covered rows' (vs ++ ws)).
Proof.
  intros Hp Hrows Hc Hlen. unfold specialize_rows, covered.
  induction Hrows as [|row rows Hrow _ [IHt IHc]]; simpl.
  { split; [constructor|]. split; intros (r & Hr & _); by apply elem_of_nil in Hr. }
  pose proof (specialize_row_correct row _ _ _ _ _ ws Hp Hrow Hc Hlen) as Hs.
  destruct (specialize_row c _ row) as [row'|].
  - destruct Hs as [Ht Hm]. split; [by constructor|].
    setoid_rewrite elem_of_cons. split.
    + intros (r & [->|Hr] & Hrm); [exists row'; rewrite <- Hm; auto|].
      destruct (proj1 IHc) as (r' & ? & ?); eauto.
    + intros (r & [->|Hr] & Hrm); [exists row; rewrite Hm; auto|].
      destruct (proj2 IHc) as (r' & ? & ?); eauto.
  - split; [done|]. rewrite <- IHc. setoid_rewrite elem_of_cons. split.
    + intros (r & [->|Hr] & Hrm); [congruence|eauto].
    + intros (r & Hr & Hrm). eauto.
Qed.

Lemma default_rows_typed rows ty rest_tys :
  Forall (λ r, Forall2 ptyped r (ty :: rest_tys)) rows →
  Forall (λ r, Forall2 ptyped r rest_tys) (default_rows rows).
Proof.
  unfold default_rows. induction 1 as [|row rows Hrow _ IH]; simpl; [constructor|].
  inversion Hrow; subst. simpl. case_decide; [by constructor|done].
Qed.

Lemma default_rows_sound rows v ws :
  covered (default_rows rows) ws → covered rows (v :: ws).
Proof.
  intros (r & Hr & Hm). unfold default_rows in Hr. apply list_elem_of_omap in Hr as (row & Hrow & Hd).
  exists row. split; [done|]. destruct row as [|q row]; [done|]. simpl in *.
  case_decide as Hq; simplify_eq. by rewrite (proj2 (specialize_wildcard _ CtorWildcard 0 v Hq)), Hm.
Qed.

(** The constructors at the head of the rows. *)
Definition used (rows : list (list AirPattern)) : list Ctor :=
  filter (λ c, c ≠ CtorWildcard) (omap (λ r, head_ctor <$> head r) rows).

Lemma used_elem rows q row : q :: row ∈ rows → head_ctor q ≠ CtorWildcard → head_ctor q ∈ used rows.
Proof.
  intros Hr Hq. apply list_elem_of_filter. split; [done|].
  apply list_elem_of_omap. eexists. by split; [done|].
Qed.

Lemma default_rows_complete rows ty c tys rest_tys vs ws :
  pool_small → Forall (λ r, Forall2 ptyped r (ty :: rest_tys)) rows → is_ctor ty c tys →
  length vs = length tys → c ∉ used rows →
  covered rows (mk_value c vs :: ws) → covered (default_rows rows) ws.
Proof.
  intros Hp Hrows Hc Hlen Hu (row & Hrow & Hm).
  eapply (proj1 (Forall_forall _ _)) in Hrows as Ht; [|by apply list_elem_of_In].
  inversion Ht as [|q ? row' ? Hq Hr]; subst. simpl in Hm. apply andb_true_iff in Hm as [Hm1 Hm2].
  exists row'. split; [|done]. unfold default_rows. apply list_elem_of_omap.
  exists (q :: row'). split; [done|]. simpl. rewrite decide_True; [done|].
  pose proof (specialize_correct q ty c tys vs Hp Hq Hc Hlen) as Hs.
  destruct (specialize_pattern q c _) as [sub|] eqn:Hsp; [|congruence].
  destruct (specialize_Some_head _ _ _ _ Hsp _ _ Hq Hc) as [?|Hh]; [done|].
  destruct (decide (head_ctor q = CtorWildcard)) as [|Hne]; [done|].
  exfalso. apply Hu. rewrite <- Hh. by eapply used_elem.
Qed.

End Typing.

(** ** The algorithm decides usefulness *)
Section Correct.
Context {Spur : Type} `{Countable Spur} (p : TypeInternPool (Spur := Spur)).
Notation AirPattern := (AirPattern Spur).
Notation Usefulness := (Usefulness (Spur := Spur)).
Notation rows_typed rows tys := (Forall (λ r, Forall2 (ptyped p) r tys) rows).
Context (Hp : pool_small p).

(** Every constructor has arguments: no type is empty. *)
Definition pool_inhabited : Prop :=
  ∀ ty c tys, is_ctor p ty c tys → ∃ vs, Forall2 (has_type p) vs tys.

(** What an answer of [is_useful] means. *)
Definition useful_ok (rows : list (list AirPattern)) (query : list AirPattern) (tys : list Ty)
    (u : Usefulness) : Prop :=
  match u with
  | NotUseful =>
      ∀ vs, Forall2 (has_type p) vs tys → match_all query vs = true → covered rows vs
  | Useful ws =>
      ws ≠ [] ∧ Forall (λ w, length w = length query) ws ∧
      (pool_inhabited →
       ∃ vs, Forall2 (has_type p) vs tys ∧ match_all query vs = true ∧ ¬ covered rows vs)
  end.

Lemma foldM_append {A B} (f : A → outcome (list B)) acc l out :
  foldM (λ acc x, ys ← f x; mret (acc ++ ys)) acc l = Done out →
  ∃ yss, Forall2 (λ x ys, f x = Done ys) l yss ∧ out = acc ++ concat yss.
Proof.
  revert acc; induction l as [|x l IH]; intros acc; simpl.
  - intros [= <-]. exists []. by rewrite app_nil_r.
  - intros (acc' & Hacc & Hout)%bind_Done. apply bind_Done in Hacc as (ys & Hys & [= <-]).
    apply IH in Hout as (yss & Hf & ->). exists (ys :: yss). split; [by constructor|].
    simpl. by rewrite app_assoc.
Qed.

Lemma fold_witnesses_lengths c n ws out k :
  fold_witnesses p c n ws = Done out → Forall (λ w, length w = Z.to_nat n + k)%nat ws →
  length out = length ws ∧ Forall (λ w, length w = S k) out.
Proof.
  unfold fold_witnesses. intros Hf Hws.
  enough (Hgen : ∀ acc out, foldM (λ acc w,
    if (length w <? Z.to_nat n)%nat then mret acc
    else head ← build_witness p c (take (Z.to_nat n) w);
         mret (acc ++ [head :: drop (Z.to_nat n) w])) acc ws = Done out →
    Forall (λ w, length w = S k) acc →
    length out = (length acc + length ws)%nat ∧ Forall (λ w, length w = S k) out)
    by exact (Hgen [] out Hf (Forall_nil_2 _)).
  clear Hf out. induction Hws as [|w ws Hw _ IH]; intros acc out; simpl.
  { intros [= <-] ?. split; [lia|done]. }
  intros (acc' & Ha & Hout)%bind_Done Hacc.
  destruct (Nat.ltb_spec (length w) (Z.to_nat n)); [lia|]. simplify_done.
  apply IH in Hout as [-> ?].
  - rewrite length_app. simpl. split; [lia|done].
  - apply Forall_app. split; [done|]. repeat constructor. simpl. rewrite length_drop. lia.
Qed.

Lemma stub_witnesses_lengths c ws out k :
  stub_witnesses p ws c = Done out → Forall (λ w, length w = k) ws →
  length out = length ws ∧ Forall (λ w, length w = S k) out.
Proof.
  unfold stub_witnesses. intros (n & _ & Hf)%bind_Done Hws.
  enough (Hgen : ∀ acc out, foldM (λ acc w,
    head ← build_witness p c (replicate (Z.to_nat n) Wildcard);
    mret (acc ++ [head :: w])) acc ws = Done out →
    Forall (λ w, length w = S k) acc →
    length out = (length acc + length ws)%nat ∧ Forall (λ w, length w = S k) out)
    by exact (Hgen [] out Hf (Forall_nil_2 _)).
  clear Hf out. induction Hws as [|w ws Hw _ IH]; intros acc out; simpl.
  { intros [= <-] ?. split; [lia|done]. }
  intros (acc' & Ha & Hout)%bind_Done Hacc. simplify_done.
  apply IH in Hout as [-> ?].
  - rewrite length_app. simpl. split; [lia|done].
  - apply Forall_app. split; [done|]. repeat constructor.
Qed.

Lemma specialize_own (q : AirPattern) c n :
  head_ctor q = c → c ≠ CtorWildcard → is_Some (specialize_pattern q c n).
Proof.
  intros <-. induction q using AirPattern_tree_ind; simpl; try done; intros;
    rewrite ?Z.eqb_refl, ?eqb_reflx; eauto.
Qed.

Section Step.
Context (rec : list (list AirPattern) → list AirPattern → list Ty → outcome Usefulness).
Hypothesis Hrec : ∀ rows query tys u,
  rows_typed rows tys → Forall2 (ptyped p) query tys → rec rows query tys = Done u →
  useful_ok rows query tys u.

Lemma useful_at_ok rows q qs ty rest c tys ws :
  rows_typed rows (ty :: rest) → ptyped p q ty → Forall2 (ptyped p) qs rest →
  is_ctor p ty c tys → head_ctor q = CtorWildcard ∨ head_ctor q = c →
  useful_at p rec rows q qs ty rest c = Done ws →
  Forall (λ w, length w = S (length qs)) ws ∧
  (ws = [] → ∀ vs ws', Forall2 (has_type p) vs tys → Forall2 (has_type p) ws' rest →
     match_all (q :: qs) (mk_value c vs :: ws') = true → covered rows (mk_value c vs :: ws')) ∧
  (ws ≠ [] → pool_inhabited → ∃ vs ws', Forall2 (has_type p) vs tys ∧
     Forall2 (has_type p) ws' rest ∧ match_all (q :: qs) (mk_value c vs :: ws') = true ∧
     ¬ covered rows (mk_value c vs :: ws')).
Proof.
  intros Hrows Hq Hqs Hc Hhead. destruct (is_ctor_sub p _ _ _ Hp Hc) as [Har Hst].
  unfold useful_at. rewrite Har, Hst, !bind_ret.
  destruct (specialize_pattern q c (Z.of_nat (length tys))) as [sub|] eqn:Hsub.
  2: { exfalso. destruct Hhead as [Hh|Hh].
       - by rewrite (proj1 (specialize_wildcard q c _ (VScalar 0) Hh)) in Hsub.
       - destruct (specialize_own q c (Z.of_nat (length tys)) Hh) as [? Hx]; [|congruence].
         intros ->. inversion Hc. }
  assert (Hsp : ∀ vs, length vs = length tys → Forall2 (ptyped p) sub tys ∧
    pmatch q (mk_value c vs) = match_all sub vs).
  { intros vs Hl. pose proof (specialize_correct p q ty c tys vs Hp Hq Hc Hl) as Hx.
    by rewrite Hsub in Hx. }
  assert (Hty : Forall2 (ptyped p) sub tys).
  { apply (Hsp (replicate (length tys) (VScalar 0))). apply length_replicate. }
  assert (Hm : ∀ vs ws', length vs = length tys →
    match_all (q :: qs) (mk_value c vs :: ws') = match_all (sub ++ qs) (vs ++ ws')).
  { intros vs ws' Hl. simpl. rewrite (proj2 (Hsp vs Hl)), match_all_app; [done|].
    apply Forall2_length in Hty. lia. }
  assert (Hcov : ∀ vs ws', length vs = length tys →
    let rows' := specialize_rows rows c (Z.of_nat (length tys)) in
    rows_typed rows' (tys ++ rest) ∧
    (covered rows (mk_value c vs :: ws') ↔ covered rows' (vs ++ ws'))).
  { intros. by eapply specialize_rows_correct. }
  intros (u & Hu & Hws)%bind_Done. apply Hrec in Hu;
    [|apply (Hcov (replicate (length tys) (VScalar 0)) []), length_replicate
     |simpl; by apply Forall2_app].
  destruct u as [|us]; simpl in Hu, Hws.
  - injection Hws as <-. split_and!; [constructor| |done].
    intros _ vs ws' Hvs Hws' Hmt. apply Forall2_length in Hvs as Hl.
    apply Hcov; [done|]. apply Hu; [by apply Forall2_app|]. by rewrite <- Hm.
  - destruct Hu as (Hne & Hlen & Hinh). rewrite length_app in Hlen.
    destruct (fold_witnesses_lengths _ _ _ _ (length qs) Hws) as [Hl Hf].
    { apply Forall2_length in Hty. rewrite Nat2Z.id, <- Hty. done. }
    split_and!; [done| |].
    + intros ->. by destruct us.
    + intros _ Hi. destruct (Hinh Hi) as (vs0 & Hvs0 & Hm0 & Hn0).
      apply Forall2_app_inv_r in Hvs0 as (vs & ws' & Hvs & Hws' & ->).
      apply Forall2_length in Hvs as Hl'.
      exists vs, ws'. rewrite Hm by done. split_and!; try done. by rewrite (proj2 (Hcov _ _ Hl')).
Qed.

(** All constructors of the signature are used. *)
Lemma useful_complete_ok rows q qs ty rest ctors all :
  rows_typed rows (ty :: rest) → ptyped p q ty → Forall2 (ptyped p) qs rest →
  head_ctor q = CtorWildcard → type_signature p ty = Done (Some ctors) →
  foldM (λ acc c, ws ← useful_at p rec rows q qs ty rest c; mret (acc ++ ws)) [] ctors = Done all →
  useful_ok rows (q :: qs) (ty :: rest) (of_witnesses all).
Proof.
  intros Hrows Hq Hqs Hh Hsig Hall. apply foldM_append in Hall as (yss & Hyss & ->). simpl.
  assert (Hat : ∀ c ws, useful_at p rec rows q qs ty rest c = Done ws → c ∈ ctors →
    ∃ tys, is_ctor p ty c tys ∧ _) by
    (intros c ws Hws Hc; destruct (sig_is_ctor p _ _ _ Hp Hsig Hc) as [tys Ht];
     exists tys; split; [exact Ht|];
     exact (useful_at_ok _ _ _ _ _ _ _ _ Hrows Hq Hqs Ht (or_introl Hh) Hws)).
  destruct (concat yss) as [|w ws] eqn:Hcat; simpl.
  - intros vs Hvs Hm. inversion Hvs as [|v ? vs' ? Hv Hvs']; subst.
    inversion Hv as [? c tys us Hc Hus]; subst.
    destruct (is_ctor_sig p _ _ _ Hp Hc) as [[? _]|(cs & Hcs & Hin)]; [congruence|].
    assert (cs = ctors) as -> by congruence.
    destruct (Forall2_elem_l _ _ _ _ Hyss Hin) as (ys & Hys & Hat').
    rewrite (concat_nil_elem _ _ Hcat Hys) in Hat'.
    destruct (Hat _ _ Hat' Hin) as (tys' & Ht' & _ & Hcov & _).
    rewrite (is_ctor_det p _ _ _ _ Hp Ht' Hc) in Hcov. by apply Hcov.
  - split; [done|]. rewrite <- Hcat. split.
    + apply Forall_concat. apply Forall_forall. intros ys Hys%list_elem_of_In.
      destruct (Forall2_elem_r _ _ _ _ Hyss Hys) as (c & Hin & Hat').
      by destruct (Hat _ _ Hat' Hin) as (tys & _ & Hl & _).
    + intros Hinh. destruct (concat_cons_elem _ _ _ Hcat) as (ys & Hys & Hne).
      destruct (Forall2_elem_r _ _ _ _ Hyss Hys) as (c & Hin & Hat').
      destruct (Hat _ _ Hat' Hin) as (tys & Ht & _ & _ & Hw).
      destruct (Hw Hne Hinh) as (vs & ws' & Hvs & Hws' & Hm & Hn).
      exists (mk_value c vs :: ws'). split_and!; try done. constructor; [|done].
      by econstructor.
Qed.

(** Some constructor of the signature is not used. *)
Lemma useful_missing_ok rows q qs ty rest ctors inner :
  rows_typed rows (ty :: rest) → Forall2 (ptyped p) qs rest →
  head_ctor q = CtorWildcard → type_signature p ty = Done (Some ctors) →
  filter (λ c, c ∉ used rows) ctors ≠ [] →
  rec (default_rows rows) qs rest = Done inner →
  match inner with
  | NotUseful => useful_ok rows (q :: qs) (ty :: rest) NotUseful
  | Useful ws => ∀ all,
      foldM (λ acc c, ys ← stub_witnesses p ws c; mret (acc ++ ys)) []
        (filter (λ c, c ∉ used rows) ctors) = Done all →
      useful_ok rows (q :: qs) (ty :: rest) (Useful all)
  end.
Proof.
  intros Hrows Hqs Hh Hsig Hmiss Hin.
  apply Hrec in Hin; [|by eapply default_rows_typed|done].
  destruct inner as [|ws]; simpl in Hin.
  - intros vs Hvs Hm. inversion Hvs as [|v ? vs' ? Hv Hvs']; subst.
    simpl in Hm. apply andb_true_iff in Hm as [_ Hm]. apply default_rows_sound. auto.
  - destruct Hin as (Hne & Hlen & Hinh). intros all Hall.
    apply foldM_append in Hall as (yss & Hyss & ->). simpl.
    destruct (filter (λ c, c ∉ used rows) ctors) as [|c cs] eqn:Hfil; [done|].
    assert (Hc : c ∈ filter (λ c, c ∉ used rows) ctors) by (rewrite Hfil; by left).
    apply list_elem_of_filter in Hc as [Hu Hc].
    destruct (sig_is_ctor p _ _ _ Hp Hsig Hc) as [tys Ht].
    split_and!.
    + inversion Hyss as [|? ys ? yss' Hys _]; subst. simpl.
      destruct (stub_witnesses_lengths _ _ _ _ Hys Hlen) as [Hl _]. by destruct ws, ys.
    + apply Forall_concat, Forall_forall. intros ys Hy%list_elem_of_In.
      destruct (Forall2_elem_r _ _ _ _ Hyss Hy) as (c' & _ & Hys).
      by destruct (stub_witnesses_lengths _ _ _ _ Hys Hlen).
    + intros Hi. destruct (Hinh Hi) as (ws' & Hws' & Hm & Hn).
      destruct (Hi _ _ _ Ht) as [vs Hvs]. apply Forall2_length in Hvs as Hl.
      exists (mk_value c vs :: ws'). split_and!.
      * constructor; [by econstructor|done].
      * simpl. by rewrite (proj2 (specialize_wildcard q CtorWildcard 0 _ Hh)).
      * contradict Hn. by eapply default_rows_complete.
Qed.

(** The head type has no constructors. *)
Lemma fresh_scalar (l : list Ctor) : ∃ n, CtorInt n ∉ l.
Proof.
  set (ns := omap (λ c, match c with CtorInt n => Some n | _ => None end) l).
  exists (fresh ns). intros Hin. apply (infinite_is_fresh ns). subst ns.
  apply list_elem_of_omap. by exists (CtorInt (fresh (omap (λ c, match c with CtorInt n => Some n | _ => None end) l))).
Qed.

Lemma useful_open_ok rows q qs ty rest inner :
  rows_typed rows (ty :: rest) → Forall2 (ptyped p) qs rest →
  head_ctor q = CtorWildcard → type_signature p ty = Done None →
  rec (default_rows rows) qs rest = Done inner →
  useful_ok rows (q :: qs) (ty :: rest)
    (match inner with NotUseful => NotUseful | Useful ws => Useful (map (λ w, Wildcard :: w) ws) end).
Proof.
  intros Hrows Hqs Hh Hsig Hin.
  apply Hrec in Hin; [|by eapply default_rows_typed|done].
  destruct inner as [|ws]; simpl in Hin.
  - intros vs Hvs Hm. inversion Hvs as [|v ? vs' ? Hv Hvs']; subst.
    simpl in Hm. apply andb_true_iff in Hm as [_ Hm]. apply default_rows_sound. auto.
  - destruct Hin as (Hne & Hlen & Hinh). simpl. split_and!.
    + by destruct ws.
    + apply Forall_map. eapply Forall_impl; [|exact Hlen]. simpl. auto.
    + intros Hi. destruct (Hinh Hi) as (ws' & Hws' & Hm & Hn).
      destruct (fresh_scalar (used rows)) as [n Hfresh].
      exists (mk_value (CtorInt n) [] :: ws'). split_and!.
      * constructor; [|done]. econstructor; [by constructor|constructor].
      * simpl. by rewrite (proj2 (specialize_wildcard q CtorWildcard 0 _ Hh)).
      * contradict Hn. eapply (default_rows_complete p _ ty (CtorInt n) [] _ []);
          [done|done|by constructor|done..].
Qed.

Lemma useful_step_ok rows query tys u :
  rows_typed rows tys → Forall2 (ptyped p) query tys →
  useful_step p rec rows query tys = Done u → useful_ok rows query tys u.
Proof.
  intros Hrows Hquery Hu. destruct Hquery as [|q ty qs rest Hq Hqs]; simpl in Hu.
  { simplify_done. destruct rows as [|row rows]; simpl.
    - split_and!; [done|by repeat constructor|]. intros _. exists [].
      split_and!; [constructor|done|]. by intros (r & ?%elem_of_nil & _).
    - intros vs Hvs _. inversion Hvs; subst. inversion Hrows as [|? ? Hr _]; subst.
      inversion Hr; subst. exists []. split; [by left|done]. }
  destruct (ptyped_head p _ _ Hq) as [Hh|[tys Hc]].
  - rewrite Hh in Hu. unfold useful_wildcard in Hu. fold (used rows) in Hu.
    apply bind_Done in Hu as (sig & Hsig & Hu). destruct sig as [ctors|].
    + destruct (filter (λ c, c ∉ used rows) ctors) as [|c cs] eqn:Hmiss.
      * apply bind_Done in Hu as (all & Hall & [= <-]). by eapply useful_complete_ok.
      * apply bind_Done in Hu as (inner & Hin & Hu).
        pose proof (useful_missing_ok rows q qs ty rest ctors inner Hrows Hqs Hh Hsig
          ltac:(by rewrite Hmiss) Hin) as Hok.
        destruct inner as [|ws]; [by injection Hu as <-|].
        apply bind_Done in Hu as (all & Hall & [= <-]). rewrite Hmiss in Hok. by apply Hok.
    + apply bind_Done in Hu as (inner & Hin & Hu).
      pose proof (useful_open_ok rows q qs ty rest inner Hrows Hqs Hh Hsig Hin) as Hok.
      by destruct inner; injection Hu as <-.
  - assert (∃ ws, useful_at p rec rows q qs ty rest (head_ctor q) = Done ws ∧ u = of_witnesses ws)
      as (ws & Hws & ->).
    { destruct (head_ctor q) eqn:Hq'; [inversion Hc|..];
        apply bind_Done in Hu as (ws & Hws & [= <-]); eauto. }
    destruct (useful_at_ok _ _ _ _ _ _ _ _ Hrows Hq Hqs Hc (or_intror eq_refl) Hws)
      as (Hlen & Hnil & Hcons).
    destruct ws as [|w ws]; simpl.
    + intros vs Hvs Hm. inversion Hvs as [|v ? vs' ? Hv Hvs']; subst.
      inversion Hv as [? c tys' us Hc' Hus]; subst.
      assert (c = head_ctor q) as ->.
      { simpl in Hm. apply andb_true_iff in Hm as [Hm _]. apply Forall2_length in Hus as Hl.
        pose proof (specialize_correct p q ty c tys' us Hp Hq Hc' Hl) as Hs.
        destruct (specialize_pattern q c _) eqn:Hsp; [|congruence].
        destruct (specialize_Some_head p _ _ _ _ Hsp _ _ Hq Hc') as [Hh|]; [|done].
        rewrite Hh in Hc. inversion Hc. }
      rewrite (is_ctor_det p _ _ _ _ Hp Hc' Hc) in Hus. by apply Hnil.
    + split_and!; [done|done|]. intros Hi.
      destruct (Hcons ltac:(done) Hi) as (vs & ws' & Hvs & Hws' & Hm & Hn).
      exists (mk_value (head_ctor q) vs :: ws'). split_and!; try done.
      constructor; [by econstructor|done].
Qed.

End Step.

Lemma is_useful_ok fuel rows query tys u :
  rows_typed rows tys → Forall2 (ptyped p) query tys →
  is_useful p fuel rows query tys = Done u → useful_ok rows query tys u.
Proof.
  revert rows query tys u; induction fuel as [|fuel IH]; intros rows query tys u; [done|].
  simpl. by apply useful_step_ok.
Qed.

End Correct.

(** ** Termination *)
Section Terminates.
Context {Spur : Type} `{Countable Spur} (p : TypeInternPool (Spur := Spur)).
Notation AirPattern := (AirPattern Spur).
Notation Usefulness := (Usefulness (Spur := Spur)).
Notation rows_typed rows tys := (Forall (λ r, Forall2 (ptyped p) r tys) rows).

(** The number of constructors in a pattern, a row, a matrix. *)
Fixpoint weight (q : AirPattern) : nat :=
  match q with
  | Wildcard | PBind _ _ None => 0
  | PBind _ _ (Some q) => weight q
  | PInt _ | PBool _ | PEnumVariant _ _ | PEnumUnitVariant _ _ => 1
  | PTuple qs | PEnumDataVariant _ _ qs => S (list_sum (map weight qs))
  | PStruct _ fs | PEnumStructVariant _ _ fs => S (list_sum (map (λ f, weight f.2) fs))
  end.
Definition row_weight (row : list AirPattern) : nat := list_sum (map weight row).
Definition rows_weight (rows : list (list AirPattern)) : nat := list_sum (map row_weight rows).

Lemma weight_wildcard q : head_ctor q = CtorWildcard → weight q = 0%nat.
Proof. induction q using AirPattern_tree_ind; simpl; try done. Qed.

Lemma row_weight_app r r' : row_weight (r ++ r') = (row_weight r + row_weight r')%nat.
Proof. unfold row_weight. by rewrite map_app, list_sum_app. Qed.
Lemma row_weight_wildcards n : row_weight (replicate n Wildcard) = 0%nat.
Proof. unfold row_weight. induction n; simpl; auto. Qed.

Lemma specialize_weight q c n sub :
  specialize_pattern q c n = Some sub →
  (row_weight sub ≤ weight q)%nat ∧ (head_ctor q ≠ CtorWildcard → (row_weight sub < weight q)%nat).
Proof.
  induction q using AirPattern_tree_ind; simpl; intros Hs; try by auto.
  all: try (injection Hs as <-; rewrite row_weight_wildcards; split; [lia|done]).
  all: destruct c; try done; case_match; try done; injection Hs as <-;
    rewrite ?row_weight_wildcards; unfold row_weight; rewrite ?map_map; simpl; split; lia.
Qed.

Lemma rows_weight_cons r rows : rows_weight (r :: rows) = (row_weight r + rows_weight rows)%nat.
Proof. done. Qed.
Lemma row_weight_cons q row : row_weight (q :: row) = (weight q + row_weight row)%nat.
Proof. done. Qed.
Lemma specialize_rows_cons (r : list AirPattern) rows c n : specialize_rows (r :: rows) c n =
  match specialize_row c n r with
  | Some r' => r' :: specialize_rows rows c n | None => specialize_rows rows c n end.
Proof. done. Qed.
Lemma default_rows_cons (r : list AirPattern) rows : default_rows (r :: rows) =
  match default_row r with Some r' => r' :: default_rows rows | None => default_rows rows end.
Proof. done. Qed.

Lemma specialize_rows_weight (rows : list (list AirPattern)) c n :
  (rows_weight (specialize_rows rows c n) ≤ rows_weight rows)%nat ∧
  (c ∈ used rows → (rows_weight (specialize_rows rows c n) < rows_weight rows)%nat).
Proof.
  induction rows as [|[|q row] rows [IH1 IH2]].
  - split; [done|]. by intros ?%elem_of_nil.
  - rewrite specialize_rows_cons, rows_weight_cons. simpl. split; [lia|].
    intros Hc. specialize (IH2 Hc). lia.
  - rewrite specialize_rows_cons, rows_weight_cons, row_weight_cons. simpl.
    assert (Hu : c ∈ used ((q :: row) :: rows) →
      c ∈ used rows ∨ c = head_ctor q ∧ head_ctor q ≠ CtorWildcard).
    { unfold used. simpl. rewrite filter_cons. case_decide; [|by left].
      intros [->|?]%elem_of_cons; auto. }
    destruct (specialize_pattern q c n) as [sub|] eqn:Hs; simpl.
    + apply specialize_weight in Hs as [Hle Hlt]. rewrite rows_weight_cons, row_weight_app.
      split; [lia|]. intros [Hc|[-> Hw]]%Hu; [specialize (IH2 Hc)|specialize (Hlt Hw)]; lia.
    + split; [lia|]. intros [Hc|[-> Hw]]%Hu; [specialize (IH2 Hc); lia|].
      destruct (specialize_own q (head_ctor q) n eq_refl Hw). congruence.
Qed.

Lemma default_rows_weight (rows : list (list AirPattern)) :
  (rows_weight (default_rows rows) ≤ rows_weight rows)%nat.
Proof.
  induction rows as [|[|q row] rows IH]; [done|..];
    rewrite default_rows_cons, rows_weight_cons; simpl; [lia|].
  rewrite row_weight_cons. case_decide; rewrite ?rows_weight_cons; lia.
Qed.

(** Fuel only matters when it runs out. *)
Lemma useful_at_mono rec rec' rows q qs ty rest c :
  (∀ rows qs tys, rec rows qs tys ⊑ₒ rec' rows qs tys) →
  useful_at p rec rows q qs ty rest c ⊑ₒ useful_at p rec' rows q qs ty rest c.
Proof.
  intros Hr. unfold useful_at. apply refines_bind; [apply refines_refl|]. intros n.
  apply refines_bind; [apply refines_refl|]. intros tys.
  apply refines_bind; [apply Hr|]. intros u. apply refines_refl.
Qed.

Lemma useful_step_mono rec rec' rows query tys :
  (∀ rows qs tys, rec rows qs tys ⊑ₒ rec' rows qs tys) →
  useful_step p rec rows query tys ⊑ₒ useful_step p rec' rows query tys.
Proof.
  intros Hr. unfold useful_step. destruct query as [|q qs]; [apply refines_refl|].
  apply refines_bind; [apply refines_refl|]. intros ty.
  assert (Hat : ∀ c, useful_at p rec rows q qs ty (drop 1 tys) c ⊑ₒ
    useful_at p rec' rows q qs ty (drop 1 tys) c) by (intros; by apply useful_at_mono).
  destruct (head_ctor q);
    [|apply refines_bind; [apply Hat|intros; apply refines_refl]..].
  unfold useful_wildcard. apply refines_bind; [apply refines_refl|]. intros [ctors|].
  - case_match.
    + apply refines_bind; [|intros; apply refines_refl]. apply refines_foldM. intros acc c.
      apply refines_bind; [apply Hat|intros; apply refines_refl].
    + apply refines_bind; [apply Hr|intros; apply refines_refl].
  - apply refines_bind; [apply Hr|intros; apply refines_refl].
Qed.

Lemma is_useful_mono fuel fuel' rows query tys :
  (fuel ≤ fuel')%nat → is_useful p fuel rows query tys ⊑ₒ is_useful p fuel' rows query tys.
Proof.
  intros Hle. revert fuel' Hle rows query tys.
  induction fuel as [|fuel IH]; intros fuel' Hle rows query tys; [by left|].
  destruct fuel' as [|fuel']; [lia|]. simpl. apply useful_step_mono. intros. apply IH. lia.
Qed.

(** Every type that occurs in a definition is defined. *)
Definition valid_ty (ty : Ty) : Prop := ∃ s, type_signature p ty = Done s.
Definition pool_closed : Prop := ∀ ty c tys, is_ctor p ty c tys → Forall valid_ty tys.

Context (Hp : pool_small p) (Hcl : pool_closed).

Lemma build_witness_Done ty c tys subs :
  is_ctor p ty c tys → ∃ w, build_witness p c subs = Done w.
Proof.
  destruct 1 as [b|ty n Hn|ty e d i v Ha Hd Hv|ty s d Ha Hd Ht|ty s d Ha Hd Ht]; simpl; eauto.
  - destruct subs; eauto.
  - rewrite Hd. simpl. eauto.
Qed.

Lemma foldM_Done {A B} (f : B → A → outcome B) b l :
  (∀ b x, x ∈ l → ∃ b', f b x = Done b') → ∃ b', foldM f b l = Done b'.
Proof.
  revert b; induction l as [|x l IH]; intros b Hf; simpl; [by eexists|].
  destruct (Hf b x ltac:(by left)) as [b' ->]. simpl. apply IH. intros. apply Hf. by right.
Qed.

Lemma fold_witnesses_Done ty c tys n ws :
  is_ctor p ty c tys → ∃ out, fold_witnesses p c n ws = Done out.
Proof.
  intros Hc. apply foldM_Done. intros acc w _. case_match; [by eexists|].
  destruct (build_witness_Done _ _ _ (take (Z.to_nat n) w) Hc) as [q ->]. simpl. by eexists.
Qed.

Lemma stub_witnesses_Done ty c tys ws :
  is_ctor p ty c tys → ∃ out, stub_witnesses p ws c = Done out.
Proof.
  intros Hc. unfold stub_witnesses. rewrite (proj1 (is_ctor_sub p _ _ _ Hp Hc)). simpl.
  apply foldM_Done. intros acc w _.
  destruct (build_witness_Done _ _ _
    (replicate (Z.to_nat (Z.of_nat (length tys))) Wildcard) Hc) as [q ->].
  simpl. by eexists.
Qed.

Lemma useful_at_Done rec rows q qs ty rest c tys u :
  is_ctor p ty c tys →
  rec (specialize_rows rows c (Z.of_nat (length tys)))
    (default [] (specialize_pattern q c (Z.of_nat (length tys))) ++ qs) (tys ++ rest) = Done u →
  ∃ ws, useful_at p rec rows q qs ty rest c = Done ws.
Proof.
  intros Hc Hu. destruct (is_ctor_sub p _ _ _ Hp Hc) as [Har Hst].
  unfold useful_at. rewrite Har, Hst, !bind_ret, Hu, bind_ret.
  destruct u; [by eexists|]. by eapply fold_witnesses_Done.
Qed.

Lemma useful_at_fuel fuel fuel' rows q qs ty rest c ws :
  (fuel ≤ fuel')%nat → useful_at p (is_useful p fuel) rows q qs ty rest c = Done ws →
  useful_at p (is_useful p fuel') rows q qs ty rest c = Done ws.
Proof.
  intros Hle. apply refines_Done, useful_at_mono. intros. by apply is_useful_mono.
Qed.

Lemma common_fuel rows q qs ty rest (l : list Ctor) :
  (∀ c, c ∈ l → ∃ fuel ws, useful_at p (is_useful p fuel) rows q qs ty rest c = Done ws) →
  ∃ fuel, ∀ c, c ∈ l → ∃ ws, useful_at p (is_useful p fuel) rows q qs ty rest c = Done ws.
Proof.
  induction l as [|c l IH]; intros Hl; [exists O; by intros ? ?%elem_of_nil|].
  destruct IH as [f1 H1]; [intros; apply Hl; by right|].
  destruct (Hl c ltac:(by left)) as (f2 & ws & H2).
  exists (max f1 f2). intros c' [->|Hc']%elem_of_cons.
  - exists ws. eapply useful_at_fuel; [|exact H2]. lia.
  - destruct (H1 _ Hc') as [ws' Hws']. exists ws'. eapply useful_at_fuel; [|exact Hws']. lia.
Qed.

(** The recursive call at a constructor terminates when lighter calls do. *)
Lemma useful_at_total rows q qs ty rest c tys :
  rows_typed rows (ty :: rest) → ptyped p q ty → Forall2 (ptyped p) qs rest →
  Forall valid_ty rest → is_ctor p ty c tys →
  (head_ctor q = CtorWildcard ∧ c ∈ used rows ∨ head_ctor q = c) →
  (∀ rows' query' tys',
     (rows_weight rows' + row_weight query' < rows_weight rows + row_weight (q :: qs))%nat →
     rows_typed rows' tys' → Forall2 (ptyped p) query' tys' → Forall valid_ty tys' →
     ∃ fuel u, is_useful p fuel rows' query' tys' = Done u) →
  ∃ fuel ws, useful_at p (is_useful p fuel) rows q qs ty rest c = Done ws.
Proof.
  intros Hrows Hq Hqs Hv Hc Hhead Hrec.
  destruct (specialize_pattern q c (Z.of_nat (length tys))) as [sub|] eqn:Hsub.
  2: { exfalso. destruct Hhead as [[Hh _]|Hh].
       - by rewrite (proj1 (specialize_wildcard q c _ (VScalar 0) Hh)) in Hsub.
       - destruct (specialize_own q c (Z.of_nat (length tys)) Hh) as [? Hx]; [|congruence].
         intros ->. inversion Hc. }
  set (us := replicate (length tys) (VScalar 0)).
  assert (Hus : length us = length tys) by apply length_replicate.
  pose proof (specialize_correct p q ty c tys us Hp Hq Hc Hus) as Hs. rewrite Hsub in Hs.
  destruct (specialize_rows_correct p rows ty c tys rest us [] Hp Hrows Hc Hus) as [Hrt _].
  destruct (specialize_rows_weight rows c (Z.of_nat (length tys))) as [Hw1 Hw2].
  destruct (specialize_weight _ _ _ _ Hsub) as [Hw3 Hw4].
  destruct (Hrec (specialize_rows rows c (Z.of_nat (length tys))) (sub ++ qs) (tys ++ rest))
    as (fuel & u & Hu).
  - rewrite row_weight_app, row_weight_cons. destruct Hhead as [[_ Hu]|Hh].
    + specialize (Hw2 Hu). lia.
    + assert (head_ctor q ≠ CtorWildcard) as Hne by (rewrite Hh; intros ->; inversion Hc).
      specialize (Hw4 Hne). lia.
  - done.
  - apply Forall2_app; [apply Hs|done].
  - apply Forall_app. split; [by eapply Hcl|done].
  - exists fuel. eapply useful_at_Done; [done|]. rewrite Hsub. exact Hu.
Qed.

Lemma useful_wildcard_total rows q qs ty rest fuel u :
  rows_typed rows (ty :: rest) → ptyped p q ty → Forall2 (ptyped p) qs rest →
  Forall valid_ty (ty :: rest) → head_ctor q = CtorWildcard →
  is_useful p fuel (default_rows rows) qs rest = Done u →
  (∀ rows' query' tys',
     (rows_weight rows' + row_weight query' < rows_weight rows + row_weight (q :: qs))%nat →
     rows_typed rows' tys' → Forall2 (ptyped p) query' tys' → Forall valid_ty tys' →
     ∃ fuel u, is_useful p fuel rows' query' tys' = Done u) →
  ∃ fuel u, useful_wildcard p (is_useful p fuel) rows q qs ty rest = Done u.
Proof.
  intros Hrows Hq Hqs Hv Hh Hdef Hrec. inversion_clear Hv as [|?? [sig Hsig] Hv'].
  unfold useful_wildcard. fold (used rows). rewrite Hsig. setoid_rewrite bind_ret.
  destruct sig as [ctors|].
  2: { exists fuel. rewrite Hdef, bind_ret. destruct u; by eexists. }
  destruct (filter (λ c, c ∉ used rows) ctors) as [|c cs] eqn:Hmiss.
  - destruct (common_fuel rows q qs ty rest ctors) as [fuel' Hat].
    { intros c Hc. destruct (sig_is_ctor p _ _ _ Hp Hsig Hc) as [tys Ht].
      eapply useful_at_total; [done..| |done]. left. split; [done|].
      destruct (decide (c ∈ used rows)) as [|Hn]; [done|].
      assert (c ∈ filter (λ c, c ∉ used rows) ctors) as Hx by (by apply list_elem_of_filter).
      rewrite Hmiss in Hx. by apply elem_of_nil in Hx. }
    exists fuel'. destruct (foldM_Done (λ acc c,
      ws ← useful_at p (is_useful p fuel') rows q qs ty rest c; mret (acc ++ ws)) [] ctors)
      as [all ->]; [|simpl; by eexists].
    intros acc c Hc. destruct (Hat c Hc) as [ws ->]. simpl. by eexists.
  - exists fuel. rewrite Hdef, bind_ret. destruct u as [|ws]; [by eexists|].
    destruct (foldM_Done (λ acc c, ys ← stub_witnesses p ws c; mret (acc ++ ys)) [] (c :: cs))
      as [all ->]; [|simpl; by eexists].
    intros acc c' Hc'. rewrite <- Hmiss in Hc'. apply list_elem_of_filter in Hc' as [_ Hc'].
    destruct (sig_is_ctor p _ _ _ Hp Hsig Hc') as [tys Ht].
    destruct (stub_witnesses_Done _ _ _ ws Ht) as [out ->]. simpl. by eexists.
Qed.

Lemma is_useful_total rows query tys :
  rows_typed rows tys → Forall2 (ptyped p) query tys → Forall valid_ty tys →
  ∃ fuel u, is_useful p fuel rows query tys = Done u.
Proof.
  assert (Hgen : ∀ W L rows query tys, (rows_weight rows + row_weight query ≤ W)%nat →
    (length query ≤ L)%nat →
    rows_typed rows tys → Forall2 (ptyped p) query tys → Forall valid_ty tys →
    ∃ fuel u, is_useful p fuel rows query tys = Done u); [|by eauto].
  clear rows query tys.
  induction W as [|W IHW]; (induction L as [|L IHL]; intros rows query tys HW HL Hrows Hq Hv;
    [destruct query; [exists 1%nat; simpl; by eexists|simpl in HL; lia]|]).
  all: assert (Hstrict : ∀ rows' query' tys',
      (rows_weight rows' + row_weight query' < rows_weight rows + row_weight query)%nat →
      rows_typed rows' tys' → Forall2 (ptyped p) query' tys' → Forall valid_ty tys' →
      ∃ fuel u, is_useful p fuel rows' query' tys' = Done u)
    by (intros; first [lia|eapply (IHW (length query')); [lia|done..]]).
  all: destruct Hq as [|q ty qs rest Hq Hqs]; [exists 1%nat; simpl; by eexists|].
  all: pose proof (default_rows_weight rows); rewrite row_weight_cons in *; simpl in HL.
  all: destruct (ptyped_head p _ _ Hq) as [Hh|[tys' Hc]].
  all: inversion Hv as [|?? Hty Hv']; subst.
  1,3: destruct (IHL (default_rows rows) qs rest) as (fuel & u & Hu);
    [lia|lia|by eapply default_rows_typed|done|done|];
    destruct (useful_wildcard_total rows q qs ty rest fuel u) as (fuel' & u' & Hu');
    [done..|]; exists (S fuel'), u'; simpl; by rewrite Hh.
  all: destruct (useful_at_total rows q qs ty rest (head_ctor q) tys') as (fuel & ws & Hws);
    [done|done|done|done|done|by right|done|];
    exists (S fuel), (of_witnesses ws); simpl; rewrite ?drop_0;
    destruct (head_ctor q); [by inversion Hc|by rewrite Hws..].
Qed.

End Terminates.

(** ** Main theorems *)
Section Theorems.
Context {Spur : Type} `{Countable Spur} (p : TypeInternPool (Spur := Spur)).
Notation AirPattern := (AirPattern Spur).
Implicit Types arms : list AirPattern.

Lemma single_typed arms ty :
  Forall (λ a, ptyped p a ty) arms →
  Forall (λ r, Forall2 (ptyped p) r [ty]) (map (λ a, [a]) arms).
Proof. induction 1; simpl; repeat constructor; done. Qed.

Lemma single_covered arms v :
  covered (map (λ a, [a]) arms) [v] ↔ ∃ a, a ∈ arms ∧ pmatch a v = true.
Proof.
  unfold covered. split.
  - intros (r & (a & -> & Ha)%list_elem_of_fmap & Hm). exists a. simpl in Hm.
    by rewrite andb_true_r in Hm.
  - intros (a & Ha & Hm). exists [a]. split; [apply list_elem_of_fmap; eauto|].
    simpl. by rewrite Hm.
Qed.

Lemma witness_heads (ws : list (list AirPattern)) :
  ws ≠ [] → Forall (λ w, length w = 1%nat) ws → omap list.last ws ≠ [].
Proof. intros Hne Hl. destruct Hl as [|w ws Hw _]; [done|]. by destruct w as [|? []]. Qed.

Lemma eventually_useful rows query tys :
  pool_small p → pool_closed p → Forall (λ r, Forall2 (ptyped p) r tys) rows →
  Forall2 (ptyped p) query tys → Forall (valid_ty p) tys →
  ∃ fuel u, ∀ fuel', (fuel ≤ fuel')%nat → is_useful p fuel' rows query tys = Done u.
Proof.
  intros Hp Hcl Hr Hq Hv. destruct (is_useful_total p Hp Hcl _ _ _ Hr Hq Hv) as (fuel & u & Hu).
  exists fuel, u. intros fuel' Hle. eapply refines_Done; [by apply is_useful_mono|done].
Qed.

(** No witness: every value is matched. *)
Lemma no_witness_covers fuel arms (ty : Ty) v :
  pool_small p → Forall (λ a, ptyped p a ty) arms →
  exhaustiveness_witnesses p fuel arms ty = Done [] → has_type p v ty →
  ∃ a, a ∈ arms ∧ pmatch a v = true.
Proof.
  intros Hp Harms (u & Hu & Hws)%bind_Done Hv.
  apply (is_useful_ok p Hp) in Hu; [|by apply single_typed|repeat constructor].
  destruct u as [|us]; simplify_done.
  - apply single_covered. apply Hu; [by repeat constructor|done].
  - destruct Hu as (Hne & Hl & _). by apply witness_heads in Hne.
Qed.


Lemma reachability_loop fuel arms prev reach ty r :
  foldM (reach_step p fuel ty) (reach, map (λ a, [a]) prev) arms = Done r →
  ∃ bs, r.1 = reach ++ bs ∧ ∀ i b, bs !! i = Some b → ∃ a u, arms !! i = Some a ∧
    is_useful p fuel (map (λ a, [a]) (prev ++ take i arms)) [a] [ty] = Done u ∧
    b = match u with Useful _ => true | NotUseful => false end.
Proof.
  revert prev reach; induction arms as [|a arms IH]; intros prev reach; simpl.
  { intros [= <-]. exists []. by rewrite app_nil_r. }
  intros (st & Hst & Hr)%bind_Done. apply bind_Done in Hst as (u & Hu & [= <-]).
  replace (map (λ a, [a]) prev ++ [[a]]) with (map (λ a, [a]) (prev ++ [a])) in Hr
    by (by rewrite map_app).
  apply IH in Hr as (bs & -> & Hbs). eexists (_ :: bs). rewrite <- app_assoc.
  split; [reflexivity|]. intros [|i] b Hb; simpl in *.
  - injection Hb as <-. exists a, u. by rewrite app_nil_r.
  - destruct (Hbs i b Hb) as (a' & u' & Ha' & Hu' & ->). exists a', u'.
    by rewrite <- app_assoc in Hu'.
Qed.


(** C26: the analysis always answers: on well-typed arms over a pool whose types
    are all defined, some fuel is enough for both [exhaustiveness_witnesses] and
    [arm_reachability] to return (no divergence and no panic). *)
Theorem usefulness_terminates arms (ty : Ty) :
  pool_small p → pool_closed p → valid_ty p ty → Forall (λ a, ptyped p a ty) arms →
  ∃ fuel ws reach, exhaustiveness_witnesses p fuel arms ty = Done ws ∧
    arm_reachability p fuel arms ty = Done reach.
Proof.
  intros Hp Hcl Hty Harms.
  assert (Hloop : ∀ arms prev, Forall (λ a, ptyped p a ty) (prev ++ arms) →
    ∃ fuel, ∀ fuel' reach, (fuel ≤ fuel')%nat →
    ∃ r, foldM (reach_step p fuel' ty) (reach, map (λ a, [a]) prev) arms = Done r).
  { clear arms Harms. induction arms as [|a arms IH]; intros prev Ht; [exists O; by eexists|].
    destruct (IH (prev ++ [a])) as [f1 H1]; [by rewrite <- app_assoc|].
    apply Forall_app in Ht as [Hprev Ha]. inversion_clear Ha as [|?? Ha' _].
    destruct (eventually_useful (map (λ a, [a]) prev) [a] [ty]) as (f2 & u & H2);
      [done|done|by apply single_typed|by repeat constructor|by repeat constructor|].
    exists (max f1 f2). intros fuel' reach Hle. simpl. rewrite H2 by lia. simpl.
    replace (map (λ a, [a]) prev ++ [[a]]) with (map (λ a, [a]) (prev ++ [a]))
      by (by rewrite map_app). apply H1. lia. }
  destruct (Hloop arms [] Harms) as [f1 H1].
  destruct (eventually_useful (map (λ a, [a]) arms) [Wildcard] [ty]) as (f2 & u & H2);
    [done|done|by apply single_typed|repeat constructor|by repeat constructor|].
  exists (max f1 f2). destruct (H1 (max f1 f2) [] ltac:(lia)) as [r Hr].
  unfold exhaustiveness_witnesses, arm_reachability. rewrite H2 by lia. simpl in Hr. rewrite Hr.
  destruct u; do 2 eexists; by split.
Qed.

End Theorems.

(** ** Witnesses *)
Module MatchSample.
(** [enum Opt { None, Some(bool) }] and [struct S { a: bool, b: bool }]. *)
Definition opt : EnumDef :=
  MkEnumDef "Opt" [MkEnumVariantDef "None" [] []; MkEnumVariantDef "Some" [Ty.BOOL] []]
    Affine Sync false 0 None false.
Definition s : StructDef :=
  MkStructDef "S" [MkStructField "a" Ty.BOOL true; MkStructField "b" Ty.BOOL true]
    Affine false Sync None false false 0 false.
Definition pool : TypeInternPool (Spur := nat) :=
  set_types (λ _, [TEnum (MkEnumData 0%nat opt); TStruct (MkStructData 1%nat s)]) new_pool.
Definition Opt_ty : Ty := new_enum 0.
Definition S_ty : Ty := new_struct 1.

Lemma enum_inv e d : enum_def pool e = Done d → d = opt.
Proof.
  intros (t & (Hi & Ht)%entry_Done & Hd)%bind_Done.
  destruct (Z.to_nat e) as [|[|n]]; simplify_eq/=; simplify_done; done.
Qed.
Lemma struct_inv s' d : struct_def pool s' = Done d → d = s.
Proof.
  intros (t & (Hi & Ht)%entry_Done & Hd)%bind_Done.
  destruct (Z.to_nat s') as [|[|n]]; simplify_eq/=; simplify_done; done.
Qed.

Lemma small : pool_small pool.
Proof.
  split.
  - intros e d ->%enum_inv. split; [done|]. repeat constructor; by vm_compute.
  - by intros s' d ->%struct_inv.
Qed.

(** The fields of every constructor are [bool]s. *)
Lemma ctor_fields ty c tys : is_ctor pool ty c tys → Forall (eq Ty.BOOL) tys.
Proof.
  destruct 1 as [b|ty n Hn|ty e d i v Ha Hd Hv|ty s' d Ha Hd Ht|ty s' d Ha Hd Ht];
    [constructor|constructor|..].
  - apply enum_inv in Hd as ->. destruct i as [|[|i]]; simplify_eq/=; by repeat constructor.
  - apply struct_inv in Hd as ->. by repeat constructor.
  - apply struct_inv in Hd as ->. by repeat constructor.
Qed.
Lemma closed : pool_closed pool.
Proof.
  intros ty c tys Hf%ctor_fields. induction Hf as [|t tys <- _ IH]; constructor; [by eexists|done].
Qed.
Lemma inhabited : pool_inhabited pool.
Proof.
  intros ty c tys Hf%ctor_fields. induction Hf as [|t tys <- _ [vs IH]]; [by exists []|].
  exists (VBool true :: vs). constructor; [|done].
  refine (has_type_mk pool Ty.BOOL (CtorBool true) [] [] _ _); constructor.
Qed.

Definition arms : list (AirPattern nat) :=
  [PEnumUnitVariant 0 0; PEnumDataVariant 0 1 [PBool true]; PBind 5%nat false None;
   PEnumDataVariant 0 1 [Wildcard]].
Lemma some_ctor : is_ctor pool Opt_ty (CtorEnumVariant 0 1) [Ty.BOOL].
Proof. by refine (ctor_enum pool Opt_ty 0 opt 1 (MkEnumVariantDef "Some" [Ty.BOOL] []) _ _ _). Qed.
Lemma none_ctor : is_ctor pool Opt_ty (CtorEnumVariant 0 0) [].
Proof. by refine (ctor_enum pool Opt_ty 0 opt 0 (MkEnumVariantDef "None" [] []) _ _ _). Qed.
Lemma arms_typed : Forall (λ a, ptyped pool a Opt_ty) arms.
Proof.
  repeat constructor.
  - eapply pt_unit, none_ctor.
  - eapply pt_data; [apply some_ctor|]. by repeat constructor.
  - eapply pt_data; [apply some_ctor|]. by repeat constructor.
Qed.
Definition some_false : value := mk_value (CtorEnumVariant 0 1) [VBool false].
Lemma some_false_typed : has_type pool some_false Opt_ty.
Proof.
  econstructor; [apply some_ctor|]. repeat constructor.
  refine (has_type_mk pool Ty.BOOL (CtorBool false) [] [] _ _); constructor.
Qed.
End MatchSample.



Lemma usefulness_terminates_witness :
  ∃ fuel ws reach, exhaustiveness_witnesses MatchSample.pool fuel MatchSample.arms
      MatchSample.Opt_ty = Done ws ∧
    arm_reachability MatchSample.pool fuel MatchSample.arms MatchSample.Opt_ty = Done reach.
Proof.
  refine (usefulness_terminates MatchSample.pool MatchSample.arms MatchSample.Opt_ty
    MatchSample.small MatchSample.closed _ MatchSample.arms_typed).
  eexists. vm_compute. reflexivity.
Defined.

(** Struct patterns that list their fields out of declaration order, as
    [lower_pattern] produces them, break the check: the matrix reads the fields
    by position. The arms [S { a: true, b: _ }] and [S { b: false, a: _ }] are
    reported exhaustive although neither matches [S { a: false, b: true }]. *)
Theorem struct_field_order_unsound :
  let arms := [PStruct 1 [(0, PBool true); (1, Wildcard)];
               PStruct 1 [(1, PBool false); (0, Wildcard)]] in
  let v := VStruct [VBool false; VBool true] in
  exhaustiveness_witnesses MatchSample.pool 9 arms MatchSample.S_ty = Done [] ∧
  has_type MatchSample.pool v MatchSample.S_ty ∧ ∀ a, a ∈ arms → pmatch a v = false.
Proof.
  split; [vm_compute; reflexivity|]. split.
  - refine (has_type_mk MatchSample.pool MatchSample.S_ty (CtorStruct 1) [Ty.BOOL; Ty.BOOL]
      [VBool false; VBool true] _ _).
    + by refine (ctor_struct MatchSample.pool MatchSample.S_ty 1 MatchSample.s _ _ _).
    + repeat constructor;
        [refine (has_type_mk MatchSample.pool Ty.BOOL (CtorBool false) [] [] _ _)
        |refine (has_type_mk MatchSample.pool Ty.BOOL (CtorBool true) [] [] _ _)]; constructor.
  - intros a [->|[->|[]%elem_of_nil]%elem_of_cons]%elem_of_cons; by vm_compute.
Qed.
