(* ===== verification/Infer.v ===== *)
(** * Inference types and substitutions

    Models [crates/gruel-air/src/inference/types.rs] (type variables and the
    types of the inference) and [Substitution] of
    [crates/gruel-air/src/inference/constraint.rs]: a growing vector of bindings
    with path compression on lookup. The [RefCell] that lets a lookup compress
    paths is explicit state: [apply] returns the substitution it leaves. Lookups
    follow chains and run on fuel; [substitution_lookup_correct] shows that on a
    well-formed (acyclic) substitution enough fuel always exists. *)

From S2P Require Import Prelude Types Air.

#[local] Open Scope Z_scope.

(** [TypeVarId]: an index (a [u32]). *)
Notation TypeVarId := nat (only parsing).

Inductive InferType : Set :=
  | Concrete (ty : Ty)
  | Var (id : TypeVarId)
  | IntLiteral
  | FloatLiteral
  | Array (element : InferType) (length : Z).
#[export] Instance InferType_eq_dec : EqDecision InferType.
Proof. solve_decision. Defined.

(** [InferType::{is_concrete, is_var, is_int_literal, as_concrete, as_var}]. *)
Definition is_concrete (t : InferType) : bool := match t with Concrete _ => true | _ => false end.
Definition is_var (t : InferType) : bool := match t with Var _ => true | _ => false end.
Definition is_int_literal (t : InferType) : bool := match t with IntLiteral => true | _ => false end.
Definition as_concrete (t : InferType) : option Ty := match t with Concrete ty => Some ty | _ => None end.
Definition as_var (t : InferType) : option TypeVarId := match t with Var id => Some id | _ => None end.

(** [TypeVarAllocator]: the next id; [fresh] panics when the [u32] counter overflows. *)
Definition TypeVarAllocator : Set := Z.
Definition new_allocator : TypeVarAllocator := 0.
Definition fresh_var (next_id : TypeVarAllocator) : outcome (TypeVarId * TypeVarAllocator) :=
  next ← checked_add 32 next_id 1; mret (Z.to_nat next_id, next).
Definition var_count (next_id : TypeVarAllocator) : Z := next_id.

(** [Constraint] and its accessors. *)
Inductive Constraint : Set :=
  | CEqual (lhs rhs : InferType) (span : Span)
  | CIsSigned (ty : InferType) (span : Span)
  | CIsInteger (ty : InferType) (span : Span)
  | CIsUnsigned (ty : InferType) (span : Span)
  | CIsNumeric (ty : InferType) (span : Span).
Definition constraint_span (c : Constraint) : Span :=
  match c with
  | CEqual _ _ span | CIsSigned _ span | CIsInteger _ span | CIsUnsigned _ span
  | CIsNumeric _ span => span
  end.

(** ** Substitutions *)
Notation Substitution := (list (option InferType)) (only parsing).

Definition new_subst : Substitution := [].
Definition with_capacity (capacity : nat) : Substitution := replicate capacity None.

(** [Vec::resize(n, None)] to a larger length. *)
Definition resize_none (n : nat) (s : Substitution) : Substitution :=
  s ++ replicate (n - length s) None.

Definition insert_var (var : TypeVarId) (ty : InferType) (s : Substitution) : Substitution :=
  let mapping := if decide (length s ≤ var)%nat then resize_none (var + 1) s else s in
  <[var := Some ty]> mapping.

(** [Substitution::get]: a variable past the end is unbound. *)
Definition get_var (var : TypeVarId) (s : Substitution) : option InferType := mjoin (s !! var).

Section Apply.
Context (apply : InferType → Substitution → outcome (InferType * Substitution)).
(** [Substitution::apply_var]. *)
Definition apply_var (id : TypeVarId) (s : Substitution) : outcome (InferType * Substitution) :=
  match get_var id s with
  | None => mret (Var id, s)
  | Some resolved =>
      '(final_type, s') ← apply resolved s;
      let s'' := if decide (final_type ≠ resolved)
                 then (if decide (id < length s')%nat then <[id := Some final_type]> s' else s')
                 else s' in
      mret (final_type, s'')
  end.
End Apply.

(** [Substitution::apply]. *)
Fixpoint apply (fuel : nat) (ty : InferType) (s : Substitution)
    : outcome (InferType * Substitution) :=
  match fuel with
  | O => NoFuel
  | S fuel =>
      match ty with
      | Concrete _ | IntLiteral | FloatLiteral => mret (ty, s)
      | Var id => apply_var (apply fuel) id s
      | Array element length =>
          '(resolved_element, s') ← apply fuel element s;
          mret (Array resolved_element length, s')
      end
  end.

(** [Substitution::occurs_in]. *)
Fixpoint occurs_in (fuel : nat) (var : TypeVarId) (ty : InferType) (s : Substitution) : outcome bool :=
  match fuel with
  | O => NoFuel
  | S fuel =>
      match ty with
      | Concrete _ | IntLiteral | FloatLiteral => mret false
      | Var id =>
          if decide (id = var) then mret true
          else match get_var id s with
               | Some resolved => occurs_in fuel var resolved s
               | None => mret false
               end
      | Array element _ => occurs_in fuel var element s
      end
  end.

(** [Substitution::len] and [Substitution::is_empty]. *)
Definition subst_len (s : Substitution) : nat := length (filter is_Some s).
Definition subst_is_empty (s : Substitution) : bool := forallb (λ b, bool_decide (b = None)) s.

(** ** What a substitution means

    [den s ty t]: following the bindings of [s] from [ty] ends at [t], in which
    every variable is unbound. *)
Inductive den (s : Substitution) : InferType → InferType → Prop :=
  | den_concrete c : den s (Concrete c) (Concrete c)
  | den_int : den s IntLiteral IntLiteral
  | den_float : den s FloatLiteral FloatLiteral
  | den_array e n e' : den s e e' → den s (Array e n) (Array e' n)
  | den_unbound v : get_var v s = None → den s (Var v) (Var v)
  | den_bound v t t' : get_var v s = Some t → den s t t' → den s (Var v) t'.
#[export] Hint Constructors den : infer.

(** Well-formed: every variable has a meaning (there are no cycles). *)
Definition subst_wf (s : Substitution) : Prop := ∀ v, ∃ t, den s (Var v) t.

(** Two substitutions with the same meaning. *)
Definition same_meaning (s s' : Substitution) : Prop := ∀ ty t, den s ty t ↔ den s' ty t.
#[export] Instance same_meaning_equiv : Equivalence same_meaning.
Proof.
  split.
  - by intros s ty t.
  - intros s s' Hs ty t. by rewrite (Hs ty t).
  - intros s1 s2 s3 H1 H2 ty t. by rewrite (H1 ty t), (H2 ty t).
Qed.

Lemma den_det s ty t t' : den s ty t → den s ty t' → t = t'.
Proof.
  intros H1; revert t'; induction H1; intros t'' H2; inversion H2; simplify_eq; try done.
  - f_equal. auto.
  - auto.
Qed.

Lemma den_total s ty : subst_wf s → ∃ t, den s ty t.
Proof.
  intros Hwf. induction ty as [c|v| | |e [t IH] n]; eauto with infer.
Qed.

(** The meaning of a meaning is itself. *)
Lemma den_normal s ty t : den s ty t → den s t t.
Proof. induction 1; eauto with infer. Qed.

Fixpoint occurs (v : TypeVarId) (t : InferType) : bool :=
  match t with
  | Var w => bool_decide (w = v)
  | Array e _ => occurs v e
  | _ => false
  end.

Lemma get_insert v t s : get_var v (insert_var v t s) = Some t.
Proof.
  unfold get_var, insert_var, resize_none. case_decide.
  - rewrite list_lookup_insert_eq; [done|]. rewrite length_app, length_replicate. lia.
  - rewrite list_lookup_insert_eq; [done|lia].
Qed.
Lemma get_insert_ne v w t s : v ≠ w → get_var w (insert_var v t s) = get_var w s.
Proof.
  intros Hne. unfold get_var, insert_var, resize_none. case_decide.
  - rewrite list_lookup_insert_ne by done.
    destruct (decide (w < length s)%nat).
    + by rewrite lookup_app_l.
    + rewrite lookup_app_r by lia. rewrite (lookup_ge_None_2 s) by lia.
      destruct (replicate _ _ !! _) as [x|] eqn:Hx; [|done].
      apply lookup_replicate in Hx as [-> _]. done.
  - by rewrite list_lookup_insert_ne.
Qed.

Lemma get_update v w t s : (v < length s)%nat →
  get_var w (<[v := Some t]> s) = if decide (v = w) then Some t else get_var w s.
Proof.
  intros Hv. unfold get_var. case_decide as Hw.
  - subst. by rewrite list_lookup_insert_eq.
  - by rewrite list_lookup_insert_ne.
Qed.

Lemma get_var_lt v s t : get_var v s = Some t → (v < length s)%nat.
Proof.
  unfold get_var. destruct (s !! v) as [o|] eqn:Hs; [|done]. intros _. by eapply lookup_lt_Some.
Qed.

(** Bindings decide the meaning. *)
Lemma den_ext s s' ty t : (∀ v, get_var v s = get_var v s') → den s ty t → den s' ty t.
Proof. intros He. induction 1; eauto with infer; rewrite He in *; eauto with infer. Qed.

(** The variables of a meaning are unbound. *)
Lemma den_unbound_vars s ty t v : den s ty t → occurs v t = true → get_var v s = None.
Proof.
  induction 1; simpl; try done; auto. by intros ->%bool_decide_eq_true.
Qed.

(** A type whose variables are unbound means itself. *)
Lemma den_refl s t : (∀ v, occurs v t = true → get_var v s = None) → den s t t.
Proof.
  induction t as [c|v| | |e IH n]; simpl; intros Hu; auto with infer.
  apply den_unbound, Hu. by apply bool_decide_eq_true.
Qed.

(** Rebinding a bound variable to its meaning changes nothing. *)
Lemma compress_same s s' v r t :
  get_var v s = Some r → den s r t →
  (∀ w, get_var w s' = if decide (v = w) then Some t else get_var w s) →
  same_meaning s s'.
Proof.
  intros Hv Hr Hs'.
  assert (Ht : den s' t t).
  { apply den_refl. intros w Hw. rewrite Hs'. apply (den_unbound_vars _ _ _ _ Hr) in Hw.
    case_decide; congruence. }
  intros ty u. split.
  - induction 1 as [| | |e n e' _ IH|w Hw|w x u Hw Hd IH]; eauto with infer.
    + apply den_unbound. rewrite Hs'. case_decide; congruence.
    + destruct (decide (v = w)) as [<-|Hne].
      * simplify_eq. rewrite (den_det _ _ _ _ Hd Hr) in *.
        eapply den_bound; [|exact Ht]. rewrite Hs'. by rewrite decide_True.
      * eapply den_bound; [|exact IH]. rewrite Hs'. by rewrite decide_False.
  - induction 1 as [| | |e n e' _ IH|w Hw|w x u Hw Hd IH]; eauto with infer.
    + rewrite Hs' in Hw. case_decide; [done|]. by apply den_unbound.
    + rewrite Hs' in Hw. case_decide; simplify_eq.
      * rewrite (den_det _ _ _ _ Hd Ht). by eapply den_bound.
      * by eapply den_bound.
Qed.

(** ** Lookup *)

Lemma apply_correct fuel ty s t s' :
  apply fuel ty s = Done (t, s') → den s ty t ∧ same_meaning s s'.
Proof.
  revert ty s t s'; induction fuel as [|fuel IH]; intros ty s t s'; [done|].
  destruct ty as [c|v| | |e n]; simpl; try (intros [= <- <-]; split; [constructor|done]).
  - unfold apply_var. destruct (get_var v s) as [r|] eqn:Hv.
    2: { intros [= <- <-]. split; [by constructor|done]. }
    intros ([t1 s1] & Hap & Hd)%bind_Done. injection Hd as -> <-.
    apply IH in Hap as [Hden Hsm]. split; [by eapply den_bound|].
    case_decide as Hne; [|done]. case_decide as Hlt; [|done]. etransitivity; [exact Hsm|].
    assert (Hv1 : den s1 (Var v) t) by (apply Hsm; by eapply den_bound).
    inversion Hv1 as [| | | |w Hw|w x u Hw Hd]; subst.
    + (* [v] is unbound in [s1]: then it already means [Var v], unlike in [s]. *)
      pose proof (den_unbound_vars _ _ _ v Hden) as Hu. simpl in Hu.
      rewrite bool_decide_true in Hu by done. rewrite Hu in Hv by done. done.
    + eapply compress_same; [exact Hw|exact Hd|]. intros y. by apply get_update.
  - intros ([t1 s1] & Hap & Hd)%bind_Done. injection Hd as <- <-.
    apply IH in Hap as [Hden Hsm]. split; [by constructor|done].
Qed.

Lemma apply_mono fuel fuel' ty s : (fuel ≤ fuel')%nat → apply fuel ty s ⊑ₒ apply fuel' ty s.
Proof.
  intros Hle. revert fuel' Hle ty s; induction fuel as [|fuel IH]; intros fuel' Hle ty s; [by left|].
  destruct fuel' as [|fuel']; [lia|]. destruct ty as [c|v| | |e n]; simpl; try apply refines_refl.
  - unfold apply_var. destruct (get_var v s); [|apply refines_refl].
    apply refines_bind; [apply IH; lia|]. intros []. apply refines_refl.
  - apply refines_bind; [apply IH; lia|]. intros []. apply refines_refl.
Qed.

Lemma apply_complete ty s t : den s ty t → ∃ fuel s', apply fuel ty s = Done (t, s').
Proof.
  induction 1 as [| | |e n e' _ (fuel & s' & IH)|w Hw|w x u Hw Hd (fuel & s' & IH)];
    try (exists 1%nat, s; done).
  - exists (S fuel), s'. simpl. by rewrite IH.
  - exists 1%nat, s. simpl. unfold apply_var. by rewrite Hw.
  - exists (S fuel). simpl. unfold apply_var. rewrite Hw, IH. simpl. eauto.
Qed.

Lemma apply_total ty s : subst_wf s →
  ∃ fuel t s', den s ty t ∧ ∀ fuel', (fuel ≤ fuel')%nat → apply fuel' ty s = Done (t, s').
Proof.
  intros Hwf. destruct (den_total s ty Hwf) as [t Ht].
  destruct (apply_complete _ _ _ Ht) as (fuel & s' & Ha). exists fuel, t, s'. split; [done|].
  intros fuel' Hle. eapply refines_Done; [by apply apply_mono|done].
Qed.

(** The occurs check on a well-formed substitution looks into the meaning, except
    that it finds the variable itself when it is bound on the way. *)
Lemma occurs_correct fuel v ty s b :
  get_var v s = None → occurs_in fuel v ty s = Done b →
  ∀ t, den s ty t → b = occurs v t.
Proof.
  intros Hv. revert ty b; induction fuel as [|fuel IH]; intros ty b; [done|].
  destruct ty as [c|w| | |e n]; simpl; try (intros [= <-] t Ht; by inversion Ht).
  - case_decide as Hw.
    + subst. intros [= <-] t Ht. inversion Ht; simplify_eq. simpl. by rewrite bool_decide_true.
    + destruct (get_var w s) as [r|] eqn:Hg.
      * intros Ho t Ht. inversion Ht; simplify_eq. by eapply IH.
      * intros [= <-] t Ht. inversion Ht; simplify_eq. simpl. by rewrite bool_decide_false.
  - intros Ho t Ht. inversion Ht; simplify_eq. simpl. by eapply IH.
Qed.

Lemma occurs_mono fuel fuel' v ty s :
  (fuel ≤ fuel')%nat → occurs_in fuel v ty s ⊑ₒ occurs_in fuel' v ty s.
Proof.
  intros Hle. revert fuel' Hle ty; induction fuel as [|fuel IH]; intros fuel' Hle ty; [by left|].
  destruct fuel' as [|fuel']; [lia|]. destruct ty as [c|w| | |e n]; simpl; try apply refines_refl.
  - case_decide; [apply refines_refl|]. destruct (get_var w s); [apply IH; lia|apply refines_refl].
  - apply IH. lia.
Qed.

Lemma occurs_total v ty s : subst_wf s →
  ∃ fuel b, ∀ fuel', (fuel ≤ fuel')%nat → occurs_in fuel' v ty s = Done b.
Proof.
  intros Hwf. destruct (den_total s ty Hwf) as [t Ht].
  assert (∃ fuel b, occurs_in fuel v ty s = Done b) as (fuel & b & Ho).
  { induction Ht as [| | |e n e' _ (fuel & b & IH)|w Hw|w x u Hw Hd (fuel & b & IH)];
      try (exists 1%nat; simpl; by eexists).
    - exists (S fuel), b. done.
    - exists 1%nat. simpl. rewrite Hw. case_decide; by eexists.
    - exists (S fuel). simpl. rewrite Hw, IH. case_decide; by eexists. }
  exists fuel, b. intros fuel' Hle. eapply refines_Done; [by apply occurs_mono|done].
Qed.

(** ** Binding *)

(** After binding [v], the other chains lead where they led, and then on. *)
Lemma den_insert s v x ty t t' :
  get_var v s = None → den s ty t → den (insert_var v x s) t t' → den (insert_var v x s) ty t'.
Proof.
  intros Hv Hd. revert t'.
  induction Hd as [| | |e n e' _ IH|w Hw|w y u Hw Hd IH]; intros t' Ht; try done.
  - inversion Ht; subst. constructor. auto.
  - eapply den_bound; [|by apply IH]. rewrite get_insert_ne by congruence. done.
Qed.

(** Binding an unbound variable to a resolved type without it keeps the
    substitution well formed. *)
Lemma insert_wf s v x :
  subst_wf s → get_var v s = None → den s x x → occurs v x = false → subst_wf (insert_var v x s).
Proof.
  intros Hwf Hv Hx Ho.
  assert (Hx' : den (insert_var v x s) x x).
  { apply den_refl. intros w Hw. rewrite get_insert_ne by (intros ->; congruence).
    by eapply den_unbound_vars. }
  assert (Hstep : ∀ t, (∀ w, occurs w t = true → get_var w s = None) →
    ∃ t', den (insert_var v x s) t t').
  { induction t as [c|w| | |e IH n]; simpl; intros Hu; eauto with infer.
    - destruct (decide (v = w)) as [<-|Hne].
      + exists x. eapply den_bound; [apply get_insert|done].
      + exists (Var w). apply den_unbound. rewrite get_insert_ne by done. apply Hu.
        by apply bool_decide_eq_true.
    - destruct (IH Hu) as [t' Ht']. eauto with infer. }
  intros w. destruct (Hwf w) as [t Ht].
  destruct (Hstep t) as [t' Ht']; [intros; by eapply den_unbound_vars|].
  exists t'. by eapply den_insert.
Qed.

(** Overwriting any variable with a closed type keeps it well formed. *)
Lemma insert_closed_wf s v x :
  subst_wf s → (∀ w, occurs w x = false) → subst_wf (insert_var v x s).
Proof.
  intros Hwf Hc.
  assert (Hx : den (insert_var v x s) x x) by (apply den_refl; intros w; by rewrite Hc).
  assert (Hv : den (insert_var v x s) (Var v) x) by (eapply den_bound; [apply get_insert|done]).
  intros w. destruct (Hwf w) as [t Ht]. 
  induction Ht as [| | |e n e' _ IH|w' Hw'|w' y u Hw' Hd IH]; eauto with infer.
  - destruct IH as [t IH]. eauto with infer.
  - destruct (decide (v = w')) as [<-|Hne]; [eauto|].
    exists (Var w'). apply den_unbound. by rewrite get_insert_ne.
  - destruct (decide (v = w')) as [<-|Hne]; [eauto|]. destruct IH as [t IH].
    exists t. eapply den_bound; [|done]. by rewrite get_insert_ne.
Qed.

Lemma wf_same_meaning s s' : same_meaning s s' → subst_wf s → subst_wf s'.
Proof. intros Hs Hwf v. destruct (Hwf v) as [t Ht]. exists t. by apply Hs. Qed.

Lemma new_wf : subst_wf new_subst.
Proof. intros v. exists (Var v). by apply den_unbound. Qed.
Lemma with_capacity_wf n : subst_wf (with_capacity n).
Proof.
  intros v. exists (Var v). apply den_unbound. unfold get_var, with_capacity.
  destruct (replicate n None !! v) as [o|] eqn:Ho; [|done].
  by apply lookup_replicate in Ho as [-> _].
Qed.

(** Lookup is correct and path compression is invisible. On a well-formed
    substitution some fuel is enough for [apply] to return; what it returns is the
    end of the chain (every variable in it unbound), the compressed substitution
    gives every type the same meaning as before, and it is again well formed. *)
Theorem substitution_lookup_correct (s : Substitution) (ty : InferType) :
  subst_wf s →
  (∃ fuel r, ∀ fuel', (fuel ≤ fuel')%nat → apply fuel' ty s = Done r) ∧
  (∀ fuel t s', apply fuel ty s = Done (t, s') →
     den s ty t ∧ (∀ v, occurs v t = true → get_var v s = None) ∧
     same_meaning s s' ∧ subst_wf s').
Proof.
  intros Hwf. split.
  - destruct (apply_total ty s Hwf) as (fuel & t & s' & _ & Ha). eauto.
  - intros fuel t s' [Hd Hs]%apply_correct. split_and!; [done| |done|by eapply wf_same_meaning].
    intros v. by eapply den_unbound_vars.
Qed.
Lemma substitution_lookup_correct_witness :
  let s := insert_var 1 (Concrete Ty.I32) (insert_var 0 (Var 1) new_subst) in
  subst_wf s ∧ apply 3 (Var 0) s = Done (Concrete Ty.I32, insert_var 0 (Concrete Ty.I32) s) ∧
  same_meaning s (insert_var 0 (Concrete Ty.I32) s).
Proof.
  intros s.
  assert (Hwf : subst_wf s).
  { apply insert_closed_wf; [|done].
    apply insert_wf; [apply new_wf|done|by apply den_unbound|done]. }
  assert (Ha : apply 3 (Var 0) s = Done (Concrete Ty.I32, insert_var 0 (Concrete Ty.I32) s))
    by reflexivity.
  split; [exact Hwf|]. split; [exact Ha|].
  apply (proj2 (substitution_lookup_correct s (Var 0) Hwf) 3%nat _ _ Ha).
Defined.
