(* ===== verification/Unify.v ===== *)
(** * Unification

    Models [crates/gruel-air/src/inference/unify.rs]: [UnifyResult],
    [UnificationError] and every operation of [Unifier], whose only state is the
    substitution. All lookups go through [Substitution::apply], so every
    operation threads the substitution. [unify] recurses into array elements and
    runs on fuel, which it shares with the lookups. *)

From S2P Require Import Prelude Types Air Infer.

#[local] Open Scope Z_scope.

Inductive UnifyResult : Set :=
  | UOk
  | UTypeMismatch (expected found : InferType)
  | UIntLiteralNonInteger (found : Ty)
  | UOccursCheck (var : TypeVarId) (ty : InferType)
  | UNotSigned (ty : Ty)
  | UNotInteger (ty : Ty)
  | UNotUnsigned (ty : Ty)
  | UNotNumeric (ty : Ty)
  | UArrayLengthMismatch (expected found : Z).
Definition is_ok (r : UnifyResult) : bool := match r with UOk => true | _ => false end.

Record UnificationError : Set := MkUnifyError { ue_kind : UnifyResult; ue_span : Span }.

(** [Unifier::new] and [Unifier::with_capacity]: the substitution. *)
Definition new_unifier : Substitution := new_subst.
Definition unifier_with_capacity (type_var_count : Z) : Substitution :=
  with_capacity (Z.to_nat type_var_count).

(** [Unifier::bind]. *)
Definition bind (fuel : nat) (var : TypeVarId) (ty : InferType) (s : Substitution)
    : outcome (UnifyResult * Substitution) :=
  if decide (ty = Var var) then mret (UOk, s)
  else
    o ← occurs_in fuel var ty s;
    if (o : bool) then mret (UOccursCheck var ty, s)
    else mret (UOk, insert_var var ty s).

(** [Unifier::rebind_int_literal_to_concrete] and its float counterpart. *)
Definition rebind_int_literal_to_concrete (original : InferType) (concrete_ty : Ty)
    (s : Substitution) : Substitution :=
  match original with
  | Var var =>
      match get_var var s with
      | Some IntLiteral => insert_var var (Concrete concrete_ty) s
      | _ => s
      end
  | _ => s
  end.
Definition rebind_float_literal_to_concrete (original : InferType) (concrete_ty : Ty)
    (s : Substitution) : Substitution :=
  match original with
  | Var var =>
      match get_var var s with
      | Some FloatLiteral => insert_var var (Concrete concrete_ty) s
      | _ => s
      end
  | _ => s
  end.

Definition unify_int_literal (lhs rhs : InferType) (ty : Ty) (s : Substitution)
    : UnifyResult * Substitution :=
  if is_integer ty then
    (UOk, rebind_int_literal_to_concrete rhs ty (rebind_int_literal_to_concrete lhs ty s))
  else if is_error ty then (UOk, s)
  else (UIntLiteralNonInteger ty, s).
Definition unify_float_literal (lhs rhs lhs_resolved rhs_resolved : InferType) (ty : Ty)
    (s : Substitution) : UnifyResult * Substitution :=
  if is_float ty then
    (UOk, rebind_float_literal_to_concrete rhs ty (rebind_float_literal_to_concrete lhs ty s))
  else if is_error ty then (UOk, s)
  else (UTypeMismatch lhs_resolved rhs_resolved, s).

(** The case analysis of [Unifier::unify] on the resolved types; [rec] is the
    recursive call on array elements. *)
Definition unify_step (rec : InferType → InferType → Substitution → outcome (UnifyResult * Substitution))
    (fuel : nat) (lhs rhs lhs_resolved rhs_resolved : InferType) (s : Substitution)
    : outcome (UnifyResult * Substitution) :=
  let mismatch := UTypeMismatch lhs_resolved rhs_resolved in
  match lhs_resolved, rhs_resolved with
  | Concrete t1, Concrete t2 =>
      if bool_decide (t1 = t2) || can_coerce_to t1 t2 || can_coerce_to t2 t1
      then mret (UOk, s) else mret (mismatch, s)
  | Var var, _ => bind fuel var rhs_resolved s
  | _, Var var => bind fuel var lhs_resolved s
  | IntLiteral, Concrete ty | Concrete ty, IntLiteral => mret (unify_int_literal lhs rhs ty s)
  | FloatLiteral, Concrete ty | Concrete ty, FloatLiteral =>
      mret (unify_float_literal lhs rhs lhs_resolved rhs_resolved ty s)
  | IntLiteral, IntLiteral => mret (UOk, s)
  | FloatLiteral, FloatLiteral => mret (UOk, s)
  | IntLiteral, FloatLiteral | FloatLiteral, IntLiteral => mret (mismatch, s)
  | Array elem1 len1, Array elem2 len2 =>
      if len1 =? len2 then rec elem1 elem2 s
      else mret (UArrayLengthMismatch len1 len2, s)
  | Array _ _, _ | _, Array _ _ => mret (mismatch, s)
  end.

(** [Unifier::unify]. *)
Fixpoint unify (fuel : nat) (lhs rhs : InferType) (s : Substitution)
    : outcome (UnifyResult * Substitution) :=
  match fuel with
  | O => NoFuel
  | S fuel' =>
    '(lhs_resolved, s) ← apply fuel' lhs s;
    '(rhs_resolved, s) ← apply fuel' rhs s;
    unify_step (unify fuel') fuel' lhs rhs lhs_resolved rhs_resolved s
  end.

(** [Unifier::{check_signed, check_integer, check_numeric, check_unsigned}] on a
    resolved type. *)
Definition signed_result (ty : InferType) : UnifyResult :=
  match ty with
  | Concrete c =>
      if is_signed c || is_error c || is_never c then UOk
      else if is_unsigned c then UNotSigned c else UOk
  | Var _ | IntLiteral | FloatLiteral | Array _ _ => UOk
  end.
Definition integer_result (ty : InferType) : UnifyResult :=
  match ty with
  | Concrete c => if is_integer c || is_error c || is_never c then UOk else UNotInteger c
  | Var _ | IntLiteral => UOk
  | FloatLiteral => UNotInteger Ty.F64
  | Array _ _ => UNotInteger Ty.ERROR
  end.
Definition numeric_result (ty : InferType) : UnifyResult :=
  match ty with
  | Concrete c => if is_numeric c || is_error c || is_never c then UOk else UNotNumeric c
  | Var _ | IntLiteral | FloatLiteral => UOk
  | Array _ _ => UNotNumeric Ty.ERROR
  end.
Definition unsigned_result (ty : InferType) : UnifyResult :=
  match ty with
  | Concrete c =>
      if is_unsigned c || is_error c || is_never c then UOk
      else if is_signed c then UNotUnsigned c
      else UNotUnsigned c
  | Var _ | IntLiteral => UOk
  | FloatLiteral => UNotUnsigned Ty.F64
  | Array _ _ => UNotUnsigned Ty.ERROR
  end.
Definition check (result : InferType → UnifyResult) (fuel : nat) (ty : InferType) (s : Substitution)
    : outcome (UnifyResult * Substitution) :=
  '(t, s') ← apply fuel ty s; mret (result t, s').
Definition check_signed := check signed_result.
Definition check_integer := check integer_result.
Definition check_numeric := check numeric_result.
Definition check_unsigned := check unsigned_result.

(** [Unifier::recover_from_error]. *)
Definition bind_error (t : InferType) (s : Substitution) : Substitution :=
  match t with Var var => insert_var var (Concrete Ty.ERROR) s | _ => s end.
Definition recover_from_error (fuel : nat) (lhs rhs : InferType) (s : Substitution)
    : outcome Substitution :=
  '(lhs_applied, s) ← apply fuel lhs s;
  '(rhs_applied, s) ← apply fuel rhs s;
  mret (bind_error rhs_applied (bind_error lhs_applied s)).

(** One iteration of [Unifier::solve_constraints]: the result to report. *)
Definition solve_constraint (fuel : nat) (c : Constraint) (s : Substitution)
    : outcome (UnifyResult * Substitution) :=
  match c with
  | CEqual lhs rhs _ =>
      '(result, s) ← unify fuel lhs rhs s;
      if is_ok result then mret (result, s)
      else s ← recover_from_error fuel lhs rhs s; mret (result, s)
  | CIsSigned ty _ => check_signed fuel ty s
  | CIsInteger ty _ => check_integer fuel ty s
  | CIsUnsigned ty _ =>
      '(applied, s) ← apply fuel ty s;
      let s := match applied with
        | IntLiteral => match ty with Var var => insert_var var (Concrete Ty.U64) s | _ => s end
        | Var var => insert_var var (Concrete Ty.U64) s
        | _ => s
        end in
      check_unsigned fuel ty s
  | CIsNumeric ty _ => check_numeric fuel ty s
  end.

(** [Unifier::solve_constraints]: all constraints in order, errors collected. *)
Definition solve_step (fuel : nat) (st : list UnificationError * Substitution) (c : Constraint)
    : outcome (list UnificationError * Substitution) :=
  let '(errors, s) := st in
  '(result, s) ← solve_constraint fuel c s;
  mret (if is_ok result then errors else errors ++ [MkUnifyError result (constraint_span c)], s).
Definition solve_constraints (fuel : nat) (constraints : list Constraint) (s : Substitution)
    : outcome (list UnificationError * Substitution) :=
  foldM (solve_step fuel) ([], s) constraints.

(** [Unifier::default_int_literal_vars] and [Unifier::default_float_literal_vars]. *)
Definition default_vars (ty : Ty) (fuel : nat) (vars : list TypeVarId) (s : Substitution)
    : outcome Substitution :=
  foldM (λ s var,
    '(resolved, s) ← apply fuel (Var var) s;
    mret (if is_var resolved then insert_var var (Concrete ty) s else s)) s vars.
Definition default_int_literal_vars := default_vars Ty.I32.
Definition default_float_literal_vars := default_vars Ty.F64.

(** [Unifier::resolve_infer_type], [Unifier::resolve] and [Unifier::resolve_or_error]. *)
Fixpoint resolve_infer_type (fuel : nat) (ty : InferType) (s : Substitution)
    : outcome (InferType * Substitution) :=
  match fuel with
  | O => NoFuel
  | S fuel' =>
    '(resolved, s) ← apply fuel' ty s;
    match resolved with
    | Concrete _ | Var _ => mret (resolved, s)
    | IntLiteral => mret (Concrete Ty.I32, s)
    | FloatLiteral => mret (Concrete Ty.F64, s)
    | Array element length =>
        '(e, s) ← resolve_infer_type fuel' element s; mret (Array e length, s)
    end
  end.
Definition resolve (fuel : nat) (ty : InferType) (s : Substitution)
    : outcome (option Ty * Substitution) :=
  '(resolved, s) ← resolve_infer_type fuel ty s;
  mret (match resolved with
        | Concrete t => Some t
        | Var _ => None
        | IntLiteral => Some Ty.I32
        | FloatLiteral => Some Ty.F64
        | Array _ _ => None
        end, s).
Definition resolve_or_error (fuel : nat) (ty : InferType) (s : Substitution)
    : outcome (Ty * Substitution) :=
  '(t, s) ← resolve fuel ty s; mret (default Ty.ERROR t, s).

(** ** Compatible types

    What a successful unification promises of the two sides: equal, except that
    [!] and the error type coerce, and a literal may face a type of its kind. *)
Inductive compat : InferType → InferType → Prop :=
  | compat_refl t : compat t t
  | compat_coerce a b :
      can_coerce_to a b || can_coerce_to b a = true → compat (Concrete a) (Concrete b)
  | compat_int_l c : is_integer c || is_error c = true → compat IntLiteral (Concrete c)
  | compat_int_r c : is_integer c || is_error c = true → compat (Concrete c) IntLiteral
  | compat_float_l c : is_float c || is_error c = true → compat FloatLiteral (Concrete c)
  | compat_float_r c : is_float c || is_error c = true → compat (Concrete c) FloatLiteral
  | compat_array t u n : compat t u → compat (Array t n) (Array u n).
#[export] Hint Constructors compat : infer.

Definition satisfied (s : Substitution) (l r : InferType) : Prop :=
  ∃ t u, den s l t ∧ den s r u ∧ compat t u.

(** [s'] binds more: what a type means in [s'] is what its meaning in [s] means there. *)
Definition extends (s s' : Substitution) : Prop :=
  ∀ ty t, den s ty t → ∃ t', den s' t t' ∧ den s' ty t'.

#[export] Instance extends_preorder : PreOrder extends.
Proof.
  split.
  - intros s ty t Ht. exists t. split; [by eapply den_normal|done].
  - intros s1 s2 s3 H12 H23 ty t Ht. destruct (H12 _ _ Ht) as (t2 & Ht2 & Hty2).
    destruct (H23 _ _ Ht2) as (t3 & Ht3 & Htt3). exists t3. split; [done|].
    destruct (H23 _ _ Hty2) as (t3' & Ht3' & Hty3). by rewrite (den_det _ _ _ _ Ht3 Ht3').
Qed.

Lemma same_meaning_extends s s' : same_meaning s s' → extends s s'.
Proof.
  intros Hs ty t Ht. exists t. split; apply Hs; [by eapply den_normal|done].
Qed.

Lemma insert_extends s v x :
  subst_wf (insert_var v x s) → get_var v s = None → extends s (insert_var v x s).
Proof.
  intros Hwf Hv ty t Ht. destruct (den_total _ t Hwf) as [t' Ht'].
  exists t'. split; [done|]. by eapply den_insert.
Qed.

Lemma compat_subst s t u t' u' : compat t u → den s t t' → den s u u' → compat t' u'.
Proof.
  intros Hc. revert t' u'; induction Hc; intros t' u' Ht Hu.
  { rewrite (den_det _ _ _ _ Ht Hu). constructor. }
  all: inversion Ht; subst; inversion Hu; subst; eauto with infer.
Qed.

Lemma satisfied_extends s s' l r : extends s s' → satisfied s l r → satisfied s' l r.
Proof.
  intros He (t & u & Ht & Hu & Hc).
  destruct (He _ _ Ht) as (t' & Ht' & Hl). destruct (He _ _ Hu) as (u' & Hu' & Hr).
  exists t', u'. split_and!; [done|done|by eapply compat_subst].
Qed.

(** ** Binding a variable *)
Lemma bind_spec fuel v x s res s' :
  subst_wf s → get_var v s = None → den s x x → bind fuel v x s = Done (res, s') →
  subst_wf s' ∧ extends s s' ∧
  (res = UOk → ∀ ty, den s ty (Var v) → ∃ t, den s' ty t ∧ den s' x t).
Proof.
  intros Hwf Hv Hx. unfold bind. case_decide as Hxv.
  { intros [= <- <-]. split_and!; [done|reflexivity|]. intros _ ty Hty. exists (Var v). by subst. }
  intros (o & Ho & Hr)%bind_Done. pose proof (occurs_correct _ _ _ _ _ Hv Ho x Hx) as ->.
  destruct (occurs v x) eqn:Hoc; injection Hr as <- <-; [by split_and!; [done|reflexivity|]|].
  pose proof (insert_wf _ _ _ Hwf Hv Hx Hoc) as Hwf'.
  split_and!; [done|by apply insert_extends|]. intros _ ty Hty.
  assert (Hx' : den (insert_var v x s) x x).
  { apply den_refl. intros w Hw. rewrite get_insert_ne by (intros ->; congruence).
    by apply (den_unbound_vars _ _ _ _ Hx). }
  exists x. split; [|done]. eapply den_insert; [done|done|].
  eapply den_bound; [apply get_insert|done].
Qed.

(** ** Rebinding a literal *)
Definition literal_bound (s : Substitution) (ty : InferType) : Prop :=
  ∃ v, ty = Var v ∧ (get_var v s = Some IntLiteral ∨ get_var v s = Some FloatLiteral).

Lemma rebind_int_id s ty c : ¬ literal_bound s ty → rebind_int_literal_to_concrete ty c s = s.
Proof.
  intros Hn. destruct ty; simpl; try done. case_match eqn:Hg; [|done]. case_match; try done.
  exfalso. apply Hn. subst. eexists. eauto.
Qed.
Lemma rebind_float_id s ty c : ¬ literal_bound s ty → rebind_float_literal_to_concrete ty c s = s.
Proof.
  intros Hn. destruct ty; simpl; try done. case_match eqn:Hg; [|done]. case_match; try done.
  exfalso. apply Hn. subst. eexists. eauto.
Qed.

Lemma rebind_int_wf s ty c : subst_wf s → subst_wf (rebind_int_literal_to_concrete ty c s).
Proof. intros. destruct ty; simpl; try done. repeat case_match; try done. by apply insert_closed_wf. Qed.
Lemma rebind_float_wf s ty c : subst_wf s → subst_wf (rebind_float_literal_to_concrete ty c s).
Proof. intros. destruct ty; simpl; try done. repeat case_match; try done. by apply insert_closed_wf. Qed.

(** Chains that end at a concrete type do not pass through a variable bound to a literal. *)
Lemma den_insert_literal s v lit c c' ty :
  get_var v s = Some lit → (lit = IntLiteral ∨ lit = FloatLiteral) →
  den s ty (Concrete c) → den (insert_var v (Concrete c') s) ty (Concrete c).
Proof.
  intros Hv Hlit Hd. remember (Concrete c) as t eqn:Ht. revert Ht.
  induction Hd as [| | |e n e' _ IH|w Hw|w y u Hw Hd IH]; intros Ht;
    [injection Ht as ->; constructor|discriminate Ht..|subst u].
  destruct (decide (v = w)) as [<-|Hne].
  - simplify_eq. destruct Hlit as [-> | ->]; inversion Hd.
  - eapply den_bound; [|by apply IH]. by rewrite get_insert_ne.
Qed.

(** A rebinding replaces a literal bound directly to the variable, or does nothing. *)
Definition rebinds (lit : InferType)
    (rebind : InferType → Ty → Substitution → Substitution) : Prop :=
  ∀ ty c s, (rebind ty c s = s) ∨
    ∃ v, ty = Var v ∧ get_var v s = Some lit ∧ rebind ty c s = insert_var v (Concrete c) s.
Lemma rebinds_int : rebinds IntLiteral rebind_int_literal_to_concrete.
Proof.
  intros ty c s. destruct ty as [|v| | |]; simpl; auto.
  destruct (get_var v s) as [[]|] eqn:Hg; eauto.
Qed.
Lemma rebinds_float : rebinds FloatLiteral rebind_float_literal_to_concrete.
Proof.
  intros ty c s. destruct ty as [|v| | |]; simpl; auto.
  destruct (get_var v s) as [[]|] eqn:Hg; eauto.
Qed.

Definition is_literal (t : InferType) : Prop := t = IntLiteral ∨ t = FloatLiteral.

Lemma rebind_id lit rebind s ty c :
  rebinds lit rebind → is_literal lit → den s ty (Concrete c) → rebind ty c s = s.
Proof.
  intros Hr Hlit Hd. destruct (Hr ty c s) as [|(v & -> & Hv & _)]; [done|].
  inversion Hd; simplify_eq. destruct Hlit as [-> | ->];
    match goal with Hx : den _ _ (Concrete _) |- _ => inversion Hx end.
Qed.

Lemma rebind_literal lit rebind s ty other c :
  rebinds lit rebind → is_literal lit → den s ty lit → den s other (Concrete c) →
  den (rebind ty c s) other (Concrete c) ∧
  (den (rebind ty c s) ty lit ∨ den (rebind ty c s) ty (Concrete c)).
Proof.
  intros Hr Hlit Hd Ho. destruct (Hr ty c s) as [->|(v & -> & Hv & ->)]; [by auto|].
  split; [by eapply den_insert_literal|]. right. eapply den_bound; [apply get_insert|constructor].
Qed.

(** Unifying a literal with a concrete type of its kind satisfies the equation. *)
Lemma rebind_literal_satisfied lit rebind s lhs rhs c :
  rebinds lit rebind → is_literal lit → compat lit (Concrete c) → compat (Concrete c) lit →
  (den s lhs lit ∧ den s rhs (Concrete c) ∨ den s lhs (Concrete c) ∧ den s rhs lit) →
  satisfied (rebind rhs c (rebind lhs c s)) lhs rhs.
Proof.
  intros Hr Hlit Hc1 Hc2 [[Hl Hrh]|[Hl Hrh]].
  - destruct (rebind_literal _ _ _ _ _ _ Hr Hlit Hl Hrh) as [Ho Ht].
    rewrite (rebind_id lit rebind (rebind lhs c s) rhs c) by done.
    destruct Ht; do 2 eexists; eauto with infer.
  - rewrite (rebind_id lit rebind s lhs c) by done.
    destruct (rebind_literal _ _ _ _ _ _ Hr Hlit Hrh Hl) as [Ho Ht].
    destruct Ht; do 2 eexists; eauto with infer.
Qed.

(** ** Unification *)
Lemma not_literal_bound_normal s t : den s t t → ¬ literal_bound s t.
Proof.
  intros Hd (v & -> & Hv). pose proof (den_unbound_vars _ _ _ v Hd) as Hu.
  simpl in Hu. rewrite bool_decide_true in Hu by done. specialize (Hu eq_refl).
  destruct Hv; congruence.
Qed.

(** What one call of [unify] establishes; [E] holds when no literal is rebound. *)
Definition unify_post (E : Prop) (s : Substitution) (l r : InferType) (res : UnifyResult)
    (s' : Substitution) : Prop :=
  subst_wf s' ∧ (E → extends s s') ∧ (res = UOk → satisfied s' l r).

Section Step.
Context (s : Substitution) (l r lt rt : InferType).
Context (Hwf : subst_wf s) (Hl : den s l lt) (Hr : den s r rt).
Let no_rebinding : Prop := ¬ literal_bound s l ∧ ¬ literal_bound s r.

Lemma post_same E : compat lt rt → unify_post E s l r UOk s.
Proof. intros Hc. split_and!; [done|by intros|]. intros _. exists lt, rt. by split_and!. Qed.
Lemma post_error E res : res ≠ UOk → unify_post E s l r res s.
Proof. intros Hne. by split_and!; [done|intros|]. Qed.

Lemma post_bind_l fuel v res s' E :
  lt = Var v → bind fuel v rt s = Done (res, s') → unify_post E s l r res s'.
Proof.
  intros -> Hb.
  assert (Hv : get_var v s = None)
    by (apply (den_unbound_vars _ _ _ _ Hl); simpl; by apply bool_decide_eq_true).
  destruct (bind_spec _ _ _ _ _ _ Hwf Hv (den_normal _ _ _ Hr) Hb) as (Hw & He & Hok).
  split_and!; [done|done|]. intros ->. destruct (Hok eq_refl l Hl) as (t & Ht & Ht').
  destruct (He _ _ Hr) as (t2 & Ht2 & Hr2). exists t, t2. split_and!; [done|done|].
  rewrite (den_det _ _ _ _ Ht' Ht2). constructor.
Qed.
Lemma post_bind_r fuel v res s' E :
  rt = Var v → bind fuel v lt s = Done (res, s') → unify_post E s l r res s'.
Proof.
  intros -> Hb.
  assert (Hv : get_var v s = None)
    by (apply (den_unbound_vars _ _ _ _ Hr); simpl; by apply bool_decide_eq_true).
  destruct (bind_spec _ _ _ _ _ _ Hwf Hv (den_normal _ _ _ Hl) Hb) as (Hw & He & Hok).
  split_and!; [done|done|]. intros ->. destruct (Hok eq_refl r Hr) as (t & Ht & Ht').
  destruct (He _ _ Hl) as (t2 & Ht2 & Hl2). exists t2, t. split_and!; [done|done|].
  rewrite (den_det _ _ _ _ Ht' Ht2). constructor.
Qed.

Lemma post_int c res s' :
  lt = IntLiteral ∧ rt = Concrete c ∨ lt = Concrete c ∧ rt = IntLiteral →
  unify_int_literal l r c s = (res, s') → unify_post no_rebinding s l r res s'.
Proof using Hwf Hl Hr.
  intros Hlr. unfold unify_int_literal. destruct (is_integer c) eqn:Hi.
  - intros [= <- <-]. split_and!.
    + by apply rebind_int_wf, rebind_int_wf.
    + intros [H1 H2]. by rewrite (rebind_int_id s l), rebind_int_id.
    + intros _. eapply (rebind_literal_satisfied IntLiteral);
        [apply rebinds_int|by left|constructor; by rewrite Hi|constructor; by rewrite Hi|].
      destruct Hlr as [[-> ->]|[-> ->]]; auto.
  - destruct (is_error c) eqn:He; intros [= <- <-]; [|by apply post_error].
    apply post_same. destruct Hlr as [[-> ->]|[-> ->]]; constructor; by rewrite He, orb_true_r.
Qed.
Lemma post_float c res s' :
  lt = FloatLiteral ∧ rt = Concrete c ∨ lt = Concrete c ∧ rt = FloatLiteral →
  unify_float_literal l r lt rt c s = (res, s') → unify_post no_rebinding s l r res s'.
Proof using Hwf Hl Hr.
  intros Hlr. unfold unify_float_literal. destruct (is_float c) eqn:Hi.
  - intros [= <- <-]. split_and!.
    + by apply rebind_float_wf, rebind_float_wf.
    + intros [H1 H2]. by rewrite (rebind_float_id s l), rebind_float_id.
    + intros _. eapply (rebind_literal_satisfied FloatLiteral);
        [apply rebinds_float|by right|constructor; by rewrite Hi|constructor; by rewrite Hi|].
      destruct Hlr as [[-> ->]|[-> ->]]; auto.
  - destruct (is_error c) eqn:He; intros [= <- <-]; [|by apply post_error].
    apply post_same. destruct Hlr as [[-> ->]|[-> ->]]; constructor; by rewrite He, orb_true_r.
Qed.

End Step.

Lemma unify_step_spec rec fuel l r lt rt s res s' :
  (∀ e1 e2 res s', den s e1 e1 → den s e2 e2 → rec e1 e2 s = Done (res, s') →
     unify_post True s e1 e2 res s') →
  subst_wf s → den s l lt → den s r rt →
  unify_step rec fuel l r lt rt s = Done (res, s') →
  unify_post (¬ literal_bound s l ∧ ¬ literal_bound s r) s l r res s'.
Proof.
  intros Hrec Hwf Hl Hr Hu.
  destruct lt as [c1|v1| | |e1 n1], rt as [c2|v2| | |e2 n2]; simpl in Hu;
    try (injection Hu as <- <-; by eapply post_error);
    try (by eapply post_bind_l); try (by eapply post_bind_r);
    try (injection Hu as Hu; by eapply post_int; eauto);
    try (injection Hu as Hu; by eapply post_float; eauto);
    try (injection Hu as <- <-; eapply post_same; eauto with infer; fail).
  - destruct (bool_decide_reflect (c1 = c2)) as [<-|]; simpl in Hu.
    { injection Hu as <- <-. eapply post_same; eauto with infer. }
    destruct (can_coerce_to c1 c2 || can_coerce_to c2 c1) eqn:Hc; injection Hu as <- <-.
    + eapply post_same; eauto with infer.
    + by eapply post_error.
  - destruct (Z.eqb_spec n1 n2) as [<-|]; [|injection Hu as <- <-; by eapply post_error].
    assert (den s e1 e1) by (apply den_normal in Hl; by inversion Hl).
    assert (den s e2 e2) by (apply den_normal in Hr; by inversion Hr).
    apply Hrec in Hu as (Hw & He & Hok); [|done..]. specialize (He I).
    split_and!; [done|done|]. intros ->. destruct (Hok eq_refl) as (t & u & Ht & Hu & Hc).
    destruct (He _ _ Hl) as (lt' & Hlt' & Hll). destruct (He _ _ Hr) as (rt' & Hrt' & Hrr).
    rewrite (den_det _ _ _ _ Hlt' (den_array _ _ n1 _ Ht)) in Hll.
    rewrite (den_det _ _ _ _ Hrt' (den_array _ _ n1 _ Hu)) in Hrr.
    exists (Array t n1), (Array u n1). split_and!; auto with infer.
Qed.

Lemma den_same s s' ty t : same_meaning s s' → den s ty t → den s' ty t.
Proof. intros Hs. apply Hs. Qed.

Lemma post_same_meaning s s1 l r res s' E :
  same_meaning s s1 → unify_post E s1 l r res s' → unify_post E s l r res s'.
Proof.
  intros Hs (Hw & He & Hok). split_and!; [done| |done]. intros HE.
  etransitivity; [by apply same_meaning_extends|by apply He].
Qed.

(** [unify] on types that are already resolved. *)
Lemma unify_normal fuel l r s res s' :
  subst_wf s → den s l l → den s r r → unify fuel l r s = Done (res, s') →
  unify_post True s l r res s'.
Proof.
  revert l r s res s'; induction fuel as [|fuel IH]; intros l r s res s' Hwf Hl Hr; [done|].
  simpl. intros ([lt s1] & H1 & ([rt s2] & H2 & Hu)%bind_Done)%bind_Done.
  apply apply_correct in H1 as [Hd1 Hs1]. apply apply_correct in H2 as [Hd2 Hs2].
  assert (Hs : same_meaning s s2) by (by etransitivity).
  apply (den_same _ _ _ _ Hs) in Hl, Hr, Hd1. apply (den_same _ _ _ _ Hs2) in Hd2.
  eapply post_same_meaning; [exact Hs|].
  eapply unify_step_spec in Hu as (Hw & He & Hok); [|..|exact Hd1|exact Hd2].
  - split_and!; [done| |done]. intros _. apply He. split; by apply not_literal_bound_normal.
  - intros e1 e2 res0 s0 He1 He2. apply IH; [by eapply wf_same_meaning|done..].
  - by eapply wf_same_meaning.
Qed.

(** [unify] in general: [s2] is the substitution after both sides were looked up. *)
Lemma unify_spec fuel l r s res s' :
  subst_wf s → unify fuel l r s = Done (res, s') →
  ∃ s2, same_meaning s s2 ∧ unify_post (¬ literal_bound s2 l ∧ ¬ literal_bound s2 r) s2 l r res s'.
Proof.
  intros Hwf. destruct fuel as [|fuel]; [done|].
  simpl. intros ([lt s1] & H1 & ([rt s2] & H2 & Hu)%bind_Done)%bind_Done.
  apply apply_correct in H1 as [Hd1 Hs1]. apply apply_correct in H2 as [Hd2 Hs2].
  assert (Hs : same_meaning s s2) by (by etransitivity).
  exists s2. split; [done|].
  eapply unify_step_spec; [|by eapply wf_same_meaning|exact (den_same _ _ _ _ Hs Hd1)
    |exact (den_same _ _ _ _ Hs2 Hd2)|done].
  intros e1 e2 res0 s0 He1 He2. apply unify_normal; [by eapply wf_same_meaning|done..].
Qed.

(** ** The fragment without literal types *)
Fixpoint lit_free (t : InferType) : Prop :=
  match t with
  | IntLiteral | FloatLiteral => False
  | Array e _ => lit_free e
  | Concrete _ | Var _ => True
  end.
Definition subst_lf (s : Substitution) : Prop := ∀ v t, den s (Var v) t → lit_free t.

Lemma lf_den s ty t : subst_lf s → lit_free ty → den s ty t → lit_free t.
Proof.
  intros Hs. revert t; induction ty; intros t Hf Hd; simpl in Hf; try done.
  - by inversion Hd.
  - by eapply Hs.
  - inversion Hd; subst. simpl. auto.
Qed.
Lemma lf_not_bound s ty : subst_lf s → ¬ literal_bound s ty.
Proof.
  intros Hs (v & -> & [Hv|Hv]); [apply (Hs v IntLiteral)|apply (Hs v FloatLiteral)];
    (eapply den_bound; [done|constructor]).
Qed.
Lemma lf_same_meaning s s' : same_meaning s s' → subst_lf s → subst_lf s'.
Proof. intros Hs Hlf v t Ht. apply (Hlf v). by apply Hs. Qed.

Lemma insert_lf s v x :
  subst_wf s → get_var v s = None → den s x x → occurs v x = false →
  subst_lf s → lit_free x → subst_lf (insert_var v x s).
Proof.
  intros Hwf Hv Hx Ho Hlf Hfx w t' Hd.
  assert (Hx' : den (insert_var v x s) x x).
  { apply den_refl. intros y Hy. rewrite get_insert_ne by (intros ->; congruence).
    by apply (den_unbound_vars _ _ _ _ Hx). }
  destruct (Hwf w) as [t Ht]. pose proof (insert_wf _ _ _ Hwf Hv Hx Ho) as Hwf'.
  destruct (insert_extends _ _ _ Hwf' Hv _ _ Ht) as (t2 & Ht2 & Hw2).
  rewrite (den_det _ _ _ _ Hd Hw2). pose proof (Hlf _ _ Ht) as Hft.
  pose proof (λ y, den_unbound_vars _ _ _ y Ht) as Hu. clear Hd Hw2 Ht.
  revert t2 Ht2; induction t as [c|y| | |e IH n]; intros t2 Ht2; simpl in *; try done.
  - by inversion Ht2.
  - specialize (Hu y). rewrite bool_decide_true in Hu by done. specialize (Hu eq_refl).
    destruct (decide (v = y)) as [<-|Hne].
    + assert (Hvx : den (insert_var v x s) (Var v) x)
        by (eapply den_bound; [apply get_insert|done]).
      by rewrite (den_det _ _ _ _ Ht2 Hvx).
    + rewrite <- (get_insert_ne v y x s Hne) in Hu. inversion Ht2; simplify_eq. done.
  - inversion Ht2; subst. simpl. by apply IH.
Qed.

Lemma bind_lf fuel v x s res s' :
  subst_wf s → get_var v s = None → den s x x → subst_lf s → lit_free x →
  bind fuel v x s = Done (res, s') → subst_lf s'.
Proof.
  intros Hwf Hv Hx Hlf Hf. unfold bind. case_decide; [by intros [= _ <-]|].
  intros (o & Ho & Hr)%bind_Done. pose proof (occurs_correct _ _ _ _ _ Hv Ho x Hx) as ->.
  destruct (occurs v x) eqn:Hoc; injection Hr as _ <-; [done|]. by apply insert_lf.
Qed.

Lemma unify_lf fuel l r s res s' :
  subst_wf s → subst_lf s → lit_free l → lit_free r → unify fuel l r s = Done (res, s') →
  subst_lf s'.
Proof.
  revert l r s res s'; induction fuel as [|fuel IH]; intros l r s res s' Hwf Hlf Hl Hr; [done|].
  simpl. intros ([lt s1] & H1 & ([rt s2] & H2 & Hu)%bind_Done)%bind_Done.
  apply apply_correct in H1 as [Hd1 Hs1]. apply apply_correct in H2 as [Hd2 Hs2].
  assert (Hs : same_meaning s s2) by (by etransitivity).
  apply (lf_same_meaning _ _ Hs) in Hlf. apply (wf_same_meaning _ _ Hs) in Hwf.
  apply (den_same _ _ _ _ Hs) in Hd1. apply (den_same _ _ _ _ Hs2) in Hd2.
  pose proof (lf_den _ _ _ Hlf Hl Hd1) as Hflt. pose proof (lf_den _ _ _ Hlf Hr Hd2) as Hfrt.
  apply den_normal in Hd1, Hd2. clear Hs Hs1 Hs2.
  assert (Hub : ∀ v, den s2 (Var v) (Var v) → get_var v s2 = None).
  { intros v Hv. apply (den_unbound_vars _ _ _ _ Hv). simpl. by apply bool_decide_eq_true. }
  destruct lt as [c1|v1| | |e1 n1], rt as [c2|v2| | |e2 n2]; simpl in Hu, Hflt, Hfrt; try done;
    try (by injection Hu as _ <-);
    try (eapply bind_lf; [..|exact Hu]; [done|by apply Hub|done|done|done]).
  - destruct (bool_decide _ || _ || _); by injection Hu as _ <-.
  - destruct (n1 =? n2); [|by injection Hu as _ <-]. eapply IH; [..|exact Hu]; done.
Qed.

(** The invariant of solving, and what a step may do to the substitution. *)
Definition solve_inv (s : Substitution) : Prop := subst_wf s ∧ subst_lf s.
Definition grows (s s' : Substitution) : Prop := solve_inv s' ∧ extends s s'.

Lemma grows_same s s' : solve_inv s → same_meaning s s' → grows s s'.
Proof.
  intros [Hwf Hlf] Hs. split; [split; [by eapply wf_same_meaning|by eapply lf_same_meaning]|].
  by apply same_meaning_extends.
Qed.
Lemma grows_trans s1 s2 s3 : grows s1 s2 → grows s2 s3 → grows s1 s3.
Proof. intros [_ H1] [H2 H3]. split; [done|by etransitivity]. Qed.

Lemma insert_grows s v c :
  solve_inv s → get_var v s = None → grows s (insert_var v (Concrete c) s).
Proof.
  intros [Hwf Hlf] Hv.
  assert (Hw : subst_wf (insert_var v (Concrete c) s))
    by (apply insert_wf; [done|done|constructor|done]).
  split; [split; [done|]|by apply insert_extends].
  apply insert_lf; [done|done|constructor|done|done|done].
Qed.

Lemma bind_error_grows s t :
  solve_inv s → (∀ v, t = Var v → get_var v s = None ∨ get_var v s = Some (Concrete Ty.ERROR)) →
  grows s (bind_error t s).
Proof.
  intros Hs Ht. destruct t as [c|v| | |e n]; simpl; try (by apply grows_same).
  destruct (Ht v eq_refl) as [Hv|Hv]; [by apply insert_grows|].
  apply grows_same; [done|].
  assert (He : ∀ w, get_var w s = get_var w (insert_var v (Concrete Ty.ERROR) s)).
  { intros w. destruct (decide (v = w)) as [<-|]; [by rewrite get_insert|by rewrite get_insert_ne]. }
  intros ty t. split; apply den_ext; auto.
Qed.

Lemma recover_grows fuel l r s s' :
  solve_inv s → recover_from_error fuel l r s = Done s' → grows s s'.
Proof.
  intros Hs. unfold recover_from_error.
  intros ([lt s1] & H1 & ([rt s2] & H2 & Hu)%bind_Done)%bind_Done. injection Hu as <-.
  apply apply_correct in H1 as [Hd1 Hs1]. apply apply_correct in H2 as [Hd2 Hs2].
  assert (Hss : same_meaning s s2) by (by etransitivity).
  apply (den_same _ _ _ _ Hss) in Hd1. apply (den_same _ _ _ _ Hs2) in Hd2.
  pose proof (grows_same _ _ Hs Hss) as Hg. eapply grows_trans; [exact Hg|].
  assert (Hub : ∀ ty v, den s2 ty (Var v) → get_var v s2 = None).
  { intros ty v Hv. apply (den_unbound_vars _ _ _ _ Hv). simpl. by apply bool_decide_eq_true. }
  assert (Hg1 : grows s2 (bind_error lt s2)).
  { apply bind_error_grows; [apply Hg|]. intros v ->. left. by eapply Hub. }
  eapply grows_trans; [exact Hg1|]. apply bind_error_grows; [apply Hg1|].
  intros v ->. apply Hub in Hd2. destruct lt as [c|w| | |e n]; simpl; auto.
  destruct (decide (w = v)) as [<-|Hne]; [right; apply get_insert|left; by rewrite get_insert_ne].
Qed.

Definition constraint_lf (c : Constraint) : Prop :=
  match c with
  | CEqual l r _ => lit_free l ∧ lit_free r
  | CIsSigned t _ | CIsInteger t _ | CIsUnsigned t _ | CIsNumeric t _ => lit_free t
  end.

Lemma check_grows f fuel ty s res s' :
  solve_inv s → check f fuel ty s = Done (res, s') → grows s s'.
Proof.
  intros Hs ([t s1] & H1 & [= _ <-])%bind_Done. apply apply_correct in H1 as [_ H1].
  by apply grows_same.
Qed.

Lemma solve_constraint_spec fuel c s res s' :
  solve_inv s → constraint_lf c → solve_constraint fuel c s = Done (res, s') →
  grows s s' ∧ ∀ l r sp, c = CEqual l r sp → res = UOk → satisfied s' l r.
Proof.
  intros Hs Hc. destruct c as [l r sp|t sp|t sp|t sp|t sp]; simpl in *.
  - destruct Hs as [Hwf Hlf], Hc as [Hl Hr]. intros ([res0 s1] & Hu & Hres)%bind_Done.
    assert (Hinv1 : solve_inv s1).
    { split; [|exact (unify_lf _ _ _ _ _ _ Hwf Hlf Hl Hr Hu)]. by destruct (unify_spec _ _ _ _ _ _ Hwf Hu) as (s2 & _ & ? & _). }
    destruct (unify_spec _ _ _ _ _ _ Hwf Hu) as (s2 & Hs2 & _ & He & Hok).
    assert (Hg : grows s s1).
    { split; [done|]. etransitivity; [by apply same_meaning_extends|]. apply He.
      apply (lf_same_meaning _ _ Hs2) in Hlf. split; by apply lf_not_bound. }
    destruct (is_ok res0) eqn:Hisok.
    + injection Hres as <- <-. split; [done|]. intros ??? [= <- <- _]. done.
    + apply bind_Done in Hres as (s3 & Hrec & [= <- <-]). apply recover_grows in Hrec; [|done].
      split; [by eapply grows_trans|]. by intros ??? _ ->.
  - intros Hk. split; [by eapply check_grows|done].
  - intros Hk. split; [by eapply check_grows|done].
  - intros ([t1 s1] & H1 & Hk)%bind_Done. apply apply_correct in H1 as [Hd1 Hs1].
    pose proof (grows_same _ _ Hs Hs1) as Hg1. split; [|done].
    assert (Hf : lit_free t1) by (eapply lf_den; [apply Hs|done..]).
    eapply grows_trans; [exact Hg1|]. destruct t1 as [|v| | |]; simpl in Hf; try done;
      try (by eapply check_grows; [apply Hg1|]).
    assert (Hv : get_var v s1 = None).
    { apply (den_same _ _ _ _ Hs1) in Hd1. apply (den_unbound_vars _ _ _ _ Hd1). simpl.
      by apply bool_decide_eq_true. }
    pose proof (insert_grows s1 v Ty.U64 (proj1 Hg1) Hv) as Hg2.
    eapply grows_trans; [exact Hg2|]. eapply check_grows; [apply Hg2|done].
  - intros Hk. split; [by eapply check_grows|done].
Qed.

Lemma solve_loop fuel cs errs s errs' s' :
  solve_inv s → Forall constraint_lf cs →
  foldM (solve_step fuel) (errs, s) cs = Done (errs', s') →
  grows s s' ∧ errs ⊆ errs' ∧
  ∀ l r sp, CEqual l r sp ∈ cs → (∃ e, e ∈ errs' ∧ ue_span e = sp) ∨ satisfied s' l r.
Proof.
  revert errs s; induction cs as [|c cs IH]; intros errs s Hs Hcs; simpl.
  { intros [= <- <-]. split_and!; [by apply grows_same|done|]. by intros ??? ?%elem_of_nil. }
  inversion_clear Hcs as [|?? Hc Hcs'].
  intros ([errs1 s1] & H1 & Hrest)%bind_Done.
  apply bind_Done in H1 as ([res s1'] & Hc1 & Heq). injection Heq as <- <-.
  destruct (solve_constraint_spec _ _ _ _ _ Hs Hc Hc1) as [Hg Hsat].
  apply IH in Hrest as (Hg' & Hsub & Hall); [|apply Hg|done].
  split_and!; [by eapply grows_trans| |].
  - destruct (is_ok res); [done|]. intros e He. apply Hsub. apply elem_of_app. by left.
  - intros l r sp [<-|Hin]%elem_of_cons; [|by eapply Hall].
    destruct (is_ok res) eqn:Hok.
    + right. apply (satisfied_extends s1'); [apply Hg'|]. eapply Hsat; [done|]. by destruct res.
    + left. eexists. split; [apply Hsub; apply elem_of_app; right; by left|done].
Qed.

(** ** Termination *)

Lemma bind_mono fuel fuel' v x s : (fuel ≤ fuel')%nat → bind fuel v x s ⊑ₒ bind fuel' v x s.
Proof.
  intros Hle. unfold bind. case_decide; [apply refines_refl|].
  apply refines_bind; [by apply occurs_mono|]. intros. apply refines_refl.
Qed.

Lemma unify_mono fuel fuel' l r s : (fuel ≤ fuel')%nat → unify fuel l r s ⊑ₒ unify fuel' l r s.
Proof.
  intros Hle. revert fuel' Hle l r s; induction fuel as [|fuel IH]; intros fuel' Hle l r s; [by left|].
  destruct fuel' as [|fuel']; [lia|]. simpl.
  apply refines_bind; [apply apply_mono; lia|]. intros [lt s1].
  apply refines_bind; [apply apply_mono; lia|]. intros [rt s2].
  destruct lt, rt; simpl; try apply refines_refl; try (apply bind_mono; lia).
  case_match; [apply IH; lia|apply refines_refl].
Qed.

Lemma bind_total_wf v x s : subst_wf s →
  ∃ fuel r, ∀ fuel', (fuel ≤ fuel')%nat → bind fuel' v x s = Done r.
Proof.
  intros Hwf. destruct (occurs_total v x s Hwf) as (fuel & b & Ho).
  exists fuel. unfold bind. case_decide; [eauto|].
  destruct b; eexists; intros fuel' Hle; rewrite Ho by done; done.
Qed.

(** The depth of array types bounds the recursion. *)
Fixpoint depth (t : InferType) : nat := match t with Array e _ => S (depth e) | _ => O end.

Lemma unify_total_at n : ∀ l r s, subst_wf s → (∀ t, den s l t → depth t < n)%nat →
  ∃ fuel x, ∀ fuel', (fuel ≤ fuel')%nat → unify fuel' l r s = Done x.
Proof.
  induction n as [|n IH]; intros l r s Hwf Hn.
  { destruct (den_total s l Hwf) as [t Ht]. specialize (Hn t Ht). lia. }
  destruct (apply_total l s Hwf) as (f1 & lt & s1 & Hlt & H1).
  destruct (apply_correct _ _ _ _ _ (H1 f1 ltac:(lia))) as [_ Hs1].
  pose proof (wf_same_meaning _ _ Hs1 Hwf) as Hwf1.
  destruct (apply_total r s1 Hwf1) as (f2 & rt & s2 & Hrt & H2).
  destruct (apply_correct _ _ _ _ _ (H2 f2 ltac:(lia))) as [_ Hs2].
  pose proof (wf_same_meaning _ _ Hs2 Hwf1) as Hwf2.
  assert (Hstep : ∃ f3 x, ∀ fuel', (f3 ≤ fuel')%nat →
    unify_step (unify fuel') fuel' l r lt rt s2 = Done x).
  { destruct lt as [c1|v1| | |e1 n1], rt as [c2|v2| | |e2 n2]; simpl;
      try (by exists O; eexists); try (by apply bind_total_wf).
    - case_match; by exists O; eexists.
    - case_match; [|by exists O; eexists]. apply IH; [done|].
      intros t Ht. pose proof (Hn _ Hlt) as Hd. simpl in Hd.
      apply (den_same _ _ _ _ Hs1), (den_same _ _ _ _ Hs2), den_normal in Hlt.
      inversion Hlt as [| | |e n' e' He| |]; subst. rewrite (den_det _ _ _ _ Ht He). lia. }
  destruct Hstep as (f3 & x & H3). exists (S (max f1 (max f2 f3))), x. intros [|fuel'] Hle; [lia|].
  simpl. rewrite H1 by lia. simpl. rewrite H2 by lia. simpl. apply H3. lia.
Qed.

Lemma unify_terminates l r s : subst_wf s →
  ∃ fuel x, ∀ fuel', (fuel ≤ fuel')%nat → unify fuel' l r s = Done x.
Proof.
  intros Hwf. destruct (den_total s l Hwf) as [t Ht]. apply (unify_total_at (S (depth t))); [done|].
  intros t' Ht'. rewrite (den_det _ _ _ _ Ht' Ht). lia.
Qed.

Lemma check_terminates f ty s : subst_wf s →
  ∃ fuel x, (∀ fuel', (fuel ≤ fuel')%nat → check f fuel' ty s = Done x) ∧ subst_wf x.2.
Proof.
  intros Hwf. destruct (apply_total ty s Hwf) as (fuel & t & s' & _ & Ha).
  destruct (apply_correct _ _ _ _ _ (Ha fuel ltac:(lia))) as [_ Hs].
  exists fuel, (f t, s'). split; [|by eapply wf_same_meaning].
  intros fuel' Hle. unfold check. by rewrite Ha.
Qed.

Lemma bind_error_wf t s : subst_wf s → subst_wf (bind_error t s).
Proof. intros. destruct t; simpl; try done. by apply insert_closed_wf. Qed.

Lemma recover_terminates l r s : subst_wf s →
  ∃ fuel s', (∀ fuel', (fuel ≤ fuel')%nat → recover_from_error fuel' l r s = Done s') ∧ subst_wf s'.
Proof.
  intros Hwf. destruct (apply_total l s Hwf) as (f1 & lt & s1 & _ & H1).
  destruct (apply_correct _ _ _ _ _ (H1 f1 ltac:(lia))) as [_ Hs1].
  pose proof (wf_same_meaning _ _ Hs1 Hwf) as Hwf1.
  destruct (apply_total r s1 Hwf1) as (f2 & rt & s2 & _ & H2).
  destruct (apply_correct _ _ _ _ _ (H2 f2 ltac:(lia))) as [_ Hs2].
  exists (max f1 f2). eexists. split.
  - intros fuel' Hle. unfold recover_from_error. rewrite H1 by lia. simpl. by rewrite H2 by lia.
  - apply bind_error_wf, bind_error_wf. by eapply wf_same_meaning.
Qed.

Lemma solve_constraint_terminates c s : subst_wf s →
  ∃ fuel x, (∀ fuel', (fuel ≤ fuel')%nat → solve_constraint fuel' c s = Done x) ∧ subst_wf x.2.
Proof.
  intros Hwf. destruct c as [l r sp|t sp|t sp|t sp|t sp]; simpl; try by apply check_terminates.
  - destruct (unify_terminates l r s Hwf) as (f1 & [res s1] & H1).
    destruct (unify_spec _ _ _ _ _ _ Hwf (H1 f1 ltac:(lia))) as (s2 & _ & Hwf1 & _).
    destruct (is_ok res) eqn:Hok.
    + exists f1, (res, s1). split; [|done]. intros. rewrite H1 by done. simpl. by rewrite Hok.
    + destruct (recover_terminates l r s1 Hwf1) as (f2 & s3 & H2 & Hwf3).
      exists (max f1 f2), (res, s3). split; [|done]. intros. rewrite H1 by lia. simpl.
      rewrite Hok, H2 by lia. done.
  - destruct (apply_total t s Hwf) as (f1 & t1 & s1 & _ & H1).
    destruct (apply_correct _ _ _ _ _ (H1 f1 ltac:(lia))) as [_ Hs1].
    pose proof (wf_same_meaning _ _ Hs1 Hwf) as Hwf1.
    set (s2 := match t1 with
      | IntLiteral => match t with Var var => insert_var var (Concrete Ty.U64) s1 | _ => s1 end
      | Var var => insert_var var (Concrete Ty.U64) s1 | _ => s1 end).
    assert (Hwf2 : subst_wf s2)
      by (subst s2; repeat case_match; try done; by apply insert_closed_wf).
    destruct (check_terminates unsigned_result t s2 Hwf2) as (f2 & x & H2 & Hx).
    exists (max f1 f2), x. split; [|done]. intros. rewrite H1 by lia. simpl. apply H2. lia.
Qed.

Lemma solve_loop_terminates cs st : subst_wf st.2 →
  ∃ fuel r, (∀ fuel', (fuel ≤ fuel')%nat → foldM (solve_step fuel') st cs = Done r) ∧ subst_wf r.2.
Proof.
  revert st; induction cs as [|c cs IH]; intros [errs s] Hwf; simpl.
  { exists O. by eexists. }
  destruct (solve_constraint_terminates c s Hwf) as (f1 & [res s1] & H1 & Hwf1).
  destruct (IH (if is_ok res then errs else errs ++ [MkUnifyError res (constraint_span c)], s1))
    as (f2 & r & H2 & Hr); [done|].
  exists (max f1 f2), r. split; [|done]. intros fuel' Hle. rewrite H1 by lia. simpl. apply H2. lia.
Qed.

(** ** Main theorems *)

(** One unification step is right, literals included: from a well-formed
    substitution [unify] terminates, leaves a well-formed (acyclic)
    substitution whatever the result, and when it reports success the two types
    then mean compatible types: equal ones, up to coercion of [!] and the error
    type and to a literal facing a type of its kind. *)
Theorem unify_sound (s : Substitution) (l r : InferType) :
  subst_wf s →
  (∃ fuel x, ∀ fuel', (fuel ≤ fuel')%nat → unify fuel' l r s = Done x) ∧
  (∀ fuel res s', unify fuel l r s = Done (res, s') →
     subst_wf s' ∧ (res = UOk → ∃ t u, den s' l t ∧ den s' r u ∧ compat t u)).
Proof.
  intros Hwf. split; [by apply unify_terminates|]. intros fuel res s' Hu.
  destruct (unify_spec _ _ _ _ _ _ Hwf Hu) as (s2 & _ & Hw & _ & Hok). by split.
Qed.

(** C8: solving is sound on constraints without literal types: whatever the
    order, each equality is either reported (an error with its span) or holds
    in the final substitution; later constraints, recovery from errors and the
    defaulting of indices to [u64] never undo an earlier equality. *)
Theorem solve_constraints_sound fuel (cs : list Constraint) s errors s' :
  subst_wf s → subst_lf s → Forall constraint_lf cs →
  solve_constraints fuel cs s = Done (errors, s') →
  subst_wf s' ∧
  ∀ l r sp, CEqual l r sp ∈ cs →
    (∃ e, e ∈ errors ∧ ue_span e = sp) ∨ ∃ t u, den s' l t ∧ den s' r u ∧ compat t u.
Proof.
  intros Hwf Hlf Hcs Hs. apply solve_loop in Hs as ([[Hwf' _] _] & _ & Hall); [|done|done].
  split; [done|]. exact Hall.
Qed.

(** C37: [solve_constraints] always terminates: every list of constraints, literals
    included, is processed to its end by some amount of fuel, without a panic,
    and leaves a well-formed substitution. *)
Theorem solve_constraints_terminates (cs : list Constraint) (s : Substitution) :
  subst_wf s → ∃ fuel errors s', solve_constraints fuel cs s = Done (errors, s') ∧ subst_wf s'.
Proof.
  intros Hwf. destruct (solve_loop_terminates cs ([], s) Hwf) as (fuel & [errs s'] & Hr & Hwf').
  exists fuel, errs, s'. split; [by apply Hr|done].
Qed.

(** Literal types make aliases diverge: a variable bound to an integer
    literal is rebound alone when it meets a concrete type, so a variable that
    was equated with it keeps the literal. The constraints [?0 = {integer}],
    [?1 = ?0], [?1 = i64], [?0 = i32] are solved without an error although
    [?0] and [?1] end as different integer types. *)
Theorem literal_aliases_diverge (sp : Span) :
  ∃ s', solve_constraints 5
      [CEqual (Var 0) IntLiteral sp; CEqual (Var 1) (Var 0) sp;
       CEqual (Var 1) (Concrete Ty.I64) sp; CEqual (Var 0) (Concrete Ty.I32) sp]
      new_unifier = Done ([], s') ∧
    den s' (Var 0) (Concrete Ty.I32) ∧ den s' (Var 1) (Concrete Ty.I64) ∧
    ¬ compat (Concrete Ty.I32) (Concrete Ty.I64).
Proof.
  eexists. split; [reflexivity|].
  split; [by eapply den_bound; [reflexivity|constructor]|].
  split; [by eapply den_bound; [reflexivity|constructor]|].
  intros Hc. inversion Hc as [|? ? Hco| | | | |]. by vm_compute in Hco.
Qed.

(** Defaulting an integer-literal variable that is an alias of another
    variable overwrites the alias: after [?0 = ?1], defaulting [?0] makes it [i32]
    and leaves [?1] unresolved. *)
Theorem default_drops_alias (sp : Span) :
  ∃ s1 s2, solve_constraints 5 [CEqual (Var 0) (Var 1) sp] new_unifier = Done ([], s1) ∧
    default_int_literal_vars 5 [0%nat] s1 = Done s2 ∧
    resolve 5 (Var 0) s2 = Done (Some Ty.I32, s2) ∧ resolve 5 (Var 1) s2 = Done (None, s2).
Proof. do 2 eexists. by split_and!. Qed.

(** ** Witnesses *)
Lemma unify_sound_witness :
  ∃ s', unify 5 (Array (Var 0) 3) (Array (Concrete Ty.I32) 3) new_unifier = Done (UOk, s') ∧
    ∃ t u, den s' (Array (Var 0) 3) t ∧ den s' (Array (Concrete Ty.I32) 3) u ∧ compat t u.
Proof.
  eexists. split; [reflexivity|].
  apply (proj2 (unify_sound new_unifier (Array (Var 0) 3) (Array (Concrete Ty.I32) 3) new_wf)
    5%nat UOk _ eq_refl). reflexivity.
Defined.

Lemma solve_constraints_sound_witness :
  let sp := MkSpan 0 1 2 in
  let cs := [CEqual (Var 0) (Var 1) sp; CIsUnsigned (Var 1) sp;
             CEqual (Var 0) (Concrete Ty.U64) (MkSpan 0 3 4)] in
  ∃ s', solve_constraints 6 cs new_unifier = Done ([], s') ∧
    ((∃ e, e ∈ [] ∧ ue_span e = sp) ∨ ∃ t u, den s' (Var 0) t ∧ den s' (Var 1) u ∧ compat t u).
Proof.
  intros sp cs. eexists. split; [reflexivity|].
  eapply (proj2 (solve_constraints_sound 6 cs new_unifier [] _ new_wf _ _ eq_refl)).
  by left.
  Unshelve.
  - intros v t Ht. inversion Ht; simplify_eq; done.
  - repeat constructor.
Defined.

Lemma solve_constraints_terminates_witness :
  ∃ fuel errors s', solve_constraints fuel
    [CEqual (Var 0) IntLiteral (MkSpan 0 1 2); CEqual (Var 0) (Concrete Ty.BOOL) (MkSpan 0 1 2)]
    new_unifier = Done (errors, s') ∧ subst_wf s'.
Proof. apply solve_constraints_terminates. apply new_wf. Defined.
