(* ===== verification/Scope.v ===== *)
(** * Scoped variable bindings

    Models the provided methods of [ScopedContext]
    ([crates/gruel-air/src/scope.rs]): a map of locals and a stack of scopes, each
    a vector of (name, value to restore). The last scope of the vector is the head
    of the list here. *)

From S2P Require Import Prelude.

Section Scope.
Context {Spur : Type} `{Countable Spur} {V : Type}.

Record ScopedContext : Type := MkScoped {
  locals : gmap Spur V;
  scope_stack : list (list (Spur * option V));
}.

Definition push_scope (c : ScopedContext) : ScopedContext :=
  MkScoped (locals c) ([] :: scope_stack c).

(** Undoes one entry of a scope. *)
Definition restore (m : gmap Spur V) (e : Spur * option V) : gmap Spur V :=
  match e.2 with Some old_var => <[e.1 := old_var]> m | None => delete e.1 m end.

Definition pop_scope (c : ScopedContext) : ScopedContext :=
  match scope_stack c with
  | [] => c
  | scope_entries :: stack => MkScoped (foldl restore (locals c) scope_entries) stack
  end.

Definition insert_local (symbol : Spur) (var : V) (c : ScopedContext) : ScopedContext :=
  let old_value := locals c !! symbol in
  let locals' := <[symbol := var]> (locals c) in
  match scope_stack c with
  | [] => MkScoped locals' []
  | current_scope :: stack => MkScoped locals' ((current_scope ++ [(symbol, old_value)]) :: stack)
  end.

Inductive scope_op : Type := OpPush | OpPop | OpInsert (x : Spur) (v : V).
Definition run_op (c : ScopedContext) (op : scope_op) : ScopedContext :=
  match op with
  | OpPush => push_scope c
  | OpPop => pop_scope c
  | OpInsert x v => insert_local x v c
  end.

(** ** Specification: lexical scoping

    A stack of maps: a scope starts as a copy of the enclosing one, bindings
    change the innermost, and leaving a scope drops its map. *)
Definition spec_op (ms : gmap Spur V * list (gmap Spur V)) (op : scope_op)
    : gmap Spur V * list (gmap Spur V) :=
  let '(m, saved) := ms in
  match op with
  | OpPush => (m, m :: saved)
  | OpPop => match saved with [] => (m, []) | m' :: saved => (m', saved) end
  | OpInsert x v => (<[x := v]> m, saved)
  end.

(** No name is bound twice in the same scope. *)
Fixpoint once_per_scope (stack : list (list Spur)) (ops : list scope_op) : bool :=
  match ops with
  | [] => true
  | OpPush :: ops => once_per_scope ([] :: stack) ops
  | OpPop :: ops => once_per_scope (tail stack) ops
  | OpInsert x _ :: ops =>
      match stack with
      | [] => once_per_scope [] ops
      | names :: stack => bool_decide (x ∉ names) && once_per_scope ((x :: names) :: stack) ops
      end
  end.

(** The entries of each scope undo it to the map that was saved. *)
Inductive undoes : gmap Spur V → list (list (Spur * option V)) → list (gmap Spur V) → Prop :=
  | undoes_nil m : undoes m [] []
  | undoes_cons m es stack saved m' :
      foldl restore m es = m' → undoes m' stack saved → undoes m (es :: stack) (m' :: saved).

Lemma restore_fold_lookup es m x :
  x ∉ map fst es → foldl restore m es !! x = m !! x.
Proof.
  revert m; induction es as [|[y o] es IH]; intros m; simpl; [done|].
  intros [Hne Hx]%not_elem_of_cons. rewrite IH by done.
  destruct o; unfold restore; simpl; by simplify_map_eq.
Qed.

Lemma restore_fold_insert es m x v :
  x ∉ map fst es → foldl restore (<[x := v]> m) es = <[x := v]> (foldl restore m es).
Proof.
  revert m; induction es as [|[y o] es IH]; intros m; simpl; [done|].
  intros [Hne Hx]%not_elem_of_cons. rewrite <- IH by done. f_equal.
  destruct o; unfold restore; simpl.
  - by rewrite insert_insert_ne.
  - by rewrite delete_insert_ne.
Qed.

(** Undoing a scope with one more binding of a new name. *)
Lemma restore_fold_snoc es m x v :
  x ∉ map fst es →
  foldl restore (<[x := v]> m) (es ++ [(x, m !! x)]) = foldl restore m es.
Proof.
  intros Hx. rewrite foldl_app, restore_fold_insert by done. simpl.
  rewrite <- (restore_fold_lookup es m x Hx). apply map_eq. intros y.
  destruct (foldl restore m es !! x) as [o|] eqn:Ho; unfold restore; simpl;
    destruct (decide (x = y)) as [<-|]; by simplify_map_eq.
Qed.

(** A concrete context against the specification, with the names each scope binds. *)
Definition scope_rel (c : ScopedContext) (ms : gmap Spur V * list (gmap Spur V))
    (stack : list (list Spur)) : Prop :=
  locals c = ms.1 ∧ undoes ms.1 (scope_stack c) ms.2 ∧
  Forall2 (λ es names, map fst es ≡ₚ names) (scope_stack c) stack.

Lemma scope_rel_push c ms stack :
  scope_rel c ms stack → scope_rel (push_scope c) (spec_op ms OpPush) ([] :: stack).
Proof.
  destruct ms as [m saved]. intros (Hm & Hu & Hn). split_and!; simpl in *; [done|by constructor|].
  by constructor.
Qed.
Lemma scope_rel_pop c ms stack :
  scope_rel c ms stack → scope_rel (pop_scope c) (spec_op ms OpPop) (tail stack).
Proof.
  destruct ms as [m saved], c as [l st]. intros (Hm & Hu & Hn). unfold pop_scope; simpl in *. subst.
  destruct Hu as [m|m es st saved m' Hf Hu]; inversion Hn; subst; simpl.
  - split_and!; [done|constructor|constructor].
  - by split_and!.
Qed.
Lemma scope_rel_insert c ms names stack x v :
  scope_rel c ms (names :: stack) → x ∉ names →
  scope_rel (insert_local x v c) (spec_op ms (OpInsert x v)) ((x :: names) :: stack).
Proof.
  destruct ms as [m saved], c as [l st]. intros (Hm & Hu & Hn) Hx. simpl in *. subst.
  inversion Hn as [|es ? st' ? He Hn']; subst. inversion Hu as [|? ? ? saved' m' Hf Hu']; subst.
  unfold insert_local; simpl. split_and!; simpl; [done| |].
  - constructor; [|done]. apply restore_fold_snoc. by rewrite He.
  - constructor; [|done]. rewrite map_app, He. simpl. by rewrite Permutation_app_comm.
Qed.
Lemma scope_rel_insert_top c ms x v :
  scope_rel c ms [] → scope_rel (insert_local x v c) (spec_op ms (OpInsert x v)) [].
Proof.
  destruct ms as [m saved], c as [l st]. intros (Hm & Hu & Hn). simpl in *. subst.
  inversion Hn; subst. inversion Hu; subst. split_and!; [done|constructor|constructor].
Qed.

Lemma scope_refines_loop ops c ms stack :
  scope_rel c ms stack → once_per_scope stack ops = true →
  locals (foldl run_op c ops) = (foldl spec_op ms ops).1.
Proof.
  revert c ms stack; induction ops as [|op ops IH]; intros c ms stack Hr Ho; [by destruct Hr|].
  destruct op as [| |x v]; simpl in Ho.
  - eapply IH; [by apply scope_rel_push|done].
  - eapply IH; [by apply scope_rel_pop|done].
  - destruct stack as [|names stack].
    + eapply IH; [by apply scope_rel_insert_top|done].
    + apply andb_true_iff in Ho as [Hx%bool_decide_eq_true Ho].
      eapply IH; [by apply scope_rel_insert|done].
Qed.

(** C38: scopes are lexical: for every sequence of entering, leaving and binding
    in which no scope binds a name twice, the variables in view at the end are
    those of the stack-of-maps specification (shadowed variables restored, new
    ones removed). *)
Theorem scopes_refine_lexical_scoping (m : gmap Spur V) (ops : list scope_op) :
  once_per_scope [] ops = true →
  locals (foldl run_op (MkScoped m []) ops) = (foldl spec_op (m, []) ops).1.
Proof. apply scope_refines_loop. split_and!; [done|constructor|constructor]. Qed.

(** Binding a name twice in one scope breaks restoring: the entries are undone
    oldest first, so after the scope is left the name holds the first of the two
    inner values, whether or not it was bound before. *)
Theorem double_shadowing_not_restored (m : gmap Spur V) (x : Spur) (v w : V) :
  locals (foldl run_op (MkScoped m []) [OpPush; OpInsert x v; OpInsert x w; OpPop]) !! x = Some v.
Proof.
  unfold foldl, run_op, insert_local, push_scope, pop_scope; simpl.
  rewrite lookup_insert_eq. unfold restore; simpl. by rewrite lookup_insert_eq.
Qed.

End Scope.

Lemma scopes_refine_lexical_scoping_witness :
  locals (foldl run_op (MkScoped {[1%nat := 10%nat]} [])
    [OpPush; OpInsert 1%nat 20%nat; OpInsert 2%nat 30%nat; OpPop]) = {[1%nat := 10%nat]}.
Proof.
  etransitivity;
    [apply (scopes_refine_lexical_scoping {[1%nat := 10%nat]}
       [OpPush; OpInsert 1%nat 20%nat; OpInsert 2%nat 30%nat; OpPop]); vm_compute; reflexivity|].
  reflexivity.
Defined.
