(* ===== verification/ParamArena.v ===== *)
(** * The parameter arena

    Models [crates/gruel-air/src/param_arena.rs]: the parameters of every function
    and method are appended to four parallel vectors, and a signature keeps a
    [ParamRange] into them. [RirParamMode] is from [crates/gruel-rir/src/inst.rs],
    [AirParamMode] from [crates/gruel-air/src/inst.rs]. *)

From S2P Require Import Prelude Types.

#[local] Open Scope Z_scope.

(** [RirParamMode], [AirParamMode] and the conversion between them. *)
Inductive RirParamMode : Set := ParamNormal | ParamMutRef | ParamRef | ParamComptime.
Inductive AirParamMode : Set := AirNormal | AirMutRef | AirRefMode.
#[export] Instance RirParamMode_eq_dec : EqDecision RirParamMode.
Proof. solve_decision. Defined.

Definition is_by_ref (m : AirParamMode) : bool :=
  match m with AirMutRef | AirRefMode => true | AirNormal => false end.
Definition from_rir_mode (m : RirParamMode) : AirParamMode :=
  match m with
  | ParamNormal => AirNormal
  | ParamMutRef => AirMutRef
  | ParamRef => AirRefMode
  | ParamComptime => AirNormal
  end.

(** [ParamRange]. *)
Record ParamRange : Set := MkRange { pr_start : Z; pr_len : Z }.
Definition EMPTY : ParamRange := MkRange 0 0.
Definition range_len (r : ParamRange) : Z := pr_len r.
Definition range_is_empty (r : ParamRange) : bool := pr_len r =? 0.
Definition range_start (r : ParamRange) : Z := pr_start r.
Definition range_end (r : ParamRange) : Z := pr_start r + pr_len r.

Section ParamArena.
Context {Spur : Type}.

Record ParamArena : Type := MkArena {
  pa_names : list Spur;
  pa_types : list Ty;
  pa_modes : list RirParamMode;
  pa_comptime : list bool;
}.

Definition new_arena : ParamArena := MkArena [] [] [] [].
Definition total_params (a : ParamArena) : Z := Z.of_nat (length (pa_types a)).

(** [v.len() - start as usize]. *)
Definition added {A} (v : list A) (start : Z) : outcome Z := checked_sub 64 (Z.of_nat (length v)) start.
(** [assert_eq!]. *)
Definition assert_eq (x y : Z) : outcome () := if decide (x = y) then mret () else Panic.

Definition alloc (a : ParamArena) (names : list Spur) (types : list Ty)
    (modes : list RirParamMode) (comptime : list bool) : outcome (ParamRange * ParamArena) :=
  let start := len_u32 (pa_types a) in
  let a' := MkArena (pa_names a ++ names) (pa_types a ++ types)
              (pa_modes a ++ modes) (pa_comptime a ++ comptime) in
  names_len ← added (pa_names a') start;
  types_len ← added (pa_types a') start;
  modes_len ← added (pa_modes a') start;
  comptime_len ← added (pa_comptime a') start;
  assert_eq names_len types_len;;
  assert_eq types_len modes_len;;
  assert_eq modes_len comptime_len;;
  mret (MkRange start (wrap 32 types_len), a').

Definition alloc_method (a : ParamArena) (names : list Spur) (types : list Ty)
    : outcome (ParamRange * ParamArena) :=
  let start := len_u32 (pa_types a) in
  names_len ← added (pa_names a ++ names) start;
  types_len ← added (pa_types a ++ types) start;
  assert_eq names_len types_len;;
  mret (MkRange start (wrap 32 types_len),
        MkArena (pa_names a ++ names) (pa_types a ++ types)
          (pa_modes a ++ replicate (Z.to_nat types_len) ParamNormal)
          (pa_comptime a ++ replicate (Z.to_nat types_len) false)).

Definition names (a : ParamArena) (r : ParamRange) : outcome (list Spur) :=
  slice_range (pa_names a) (range_start r) (range_end r).
Definition types (a : ParamArena) (r : ParamRange) : outcome (list Ty) :=
  slice_range (pa_types a) (range_start r) (range_end r).
Definition modes (a : ParamArena) (r : ParamRange) : outcome (list RirParamMode) :=
  slice_range (pa_modes a) (range_start r) (range_end r).
Definition comptime (a : ParamArena) (r : ParamRange) : outcome (list bool) :=
  slice_range (pa_comptime a) (range_start r) (range_end r).

(** [ParamArena::iter], collected. *)
Definition iter (a : ParamArena) (r : ParamRange)
    : outcome (list (Spur * Ty * RirParamMode * bool)) :=
  ns ← names a r; ts ← types a r; ms ← modes a r; cs ← comptime a r;
  mret (zip (zip (zip ns ts) ms) cs).
Definition name_type_pairs (a : ParamArena) (r : ParamRange) : outcome (list (Spur * Ty)) :=
  ns ← names a r; ts ← types a r; mret (zip ns ts).
Definition type_mode_pairs (a : ParamArena) (r : ParamRange)
    : outcome (list (Ty * RirParamMode)) :=
  ts ← types a r; ms ← modes a r; mret (zip ts ms).

(** ** A signature gathering run

    Declaration gathering allocates one range per function or method. *)
Inductive signature : Type :=
  | SigFunction (ns : list Spur) (ts : list Ty) (ms : list RirParamMode) (cs : list bool)
  | SigMethod (ns : list Spur) (ts : list Ty).

Definition alloc_signature (st : ParamArena * list ParamRange) (s : signature)
    : outcome (ParamArena * list ParamRange) :=
  '(r, a) ← match s with
            | SigFunction ns ts ms cs => alloc st.1 ns ts ms cs
            | SigMethod ns ts => alloc_method st.1 ns ts
            end;
  mret (a, st.2 ++ [r]).
Definition gather (sigs : list signature) : outcome (ParamArena * list ParamRange) :=
  foldM alloc_signature (new_arena, []) sigs.

(** What a signature declares: one entry per parameter. *)
Definition sig_types (s : signature) : list Ty :=
  match s with SigFunction _ ts _ _ | SigMethod _ ts => ts end.
Definition sig_names (s : signature) : list Spur :=
  match s with SigFunction ns _ _ _ | SigMethod ns _ => ns end.
Definition sig_modes (s : signature) : list RirParamMode :=
  match s with
  | SigFunction _ _ ms _ => ms
  | SigMethod _ ts => replicate (length ts) ParamNormal
  end.
Definition sig_comptime (s : signature) : list bool :=
  match s with
  | SigFunction _ _ _ cs => cs
  | SigMethod _ ts => replicate (length ts) false
  end.
Definition sig_size (s : signature) : nat := length (sig_types s).
Definition sig_ok (s : signature) : Prop :=
  length (sig_names s) = sig_size s ∧ length (sig_modes s) = sig_size s ∧
  length (sig_comptime s) = sig_size s.
#[export] Instance sig_ok_dec s : Decision (sig_ok s).
Proof. unfold sig_ok. apply _. Defined.

(** Every accessor of the arena returns the declared parameters. *)
Definition reads_back (a : ParamArena) (s : signature) (r : ParamRange) : Prop :=
  range_len r = Z.of_nat (sig_size s) ∧
  names a r = Done (sig_names s) ∧ types a r = Done (sig_types s) ∧
  modes a r = Done (sig_modes s) ∧ comptime a r = Done (sig_comptime s) ∧
  iter a r = Done (zip (zip (zip (sig_names s) (sig_types s)) (sig_modes s)) (sig_comptime s)).

Definition appended (a : ParamArena) (s : signature) : ParamArena :=
  MkArena (pa_names a ++ sig_names s) (pa_types a ++ sig_types s)
    (pa_modes a ++ sig_modes s) (pa_comptime a ++ sig_comptime s).

(** The four vectors are parallel. *)
Definition arena_ok (a : ParamArena) : Prop :=
  length (pa_names a) = length (pa_types a) ∧ length (pa_modes a) = length (pa_types a) ∧
  length (pa_comptime a) = length (pa_types a).
Definition arena_prefix (a a' : ParamArena) : Prop :=
  pa_names a `prefix_of` pa_names a' ∧ pa_types a `prefix_of` pa_types a' ∧
  pa_modes a `prefix_of` pa_modes a' ∧ pa_comptime a `prefix_of` pa_comptime a'.

Lemma appended_ok a s : arena_ok a → sig_ok s → arena_ok (appended a s).
Proof.
  unfold arena_ok, sig_ok, sig_size. simpl. rewrite !length_app. lia.
Qed.

Lemma arena_prefix_appended a s : arena_prefix a (appended a s).
Proof. split_and!; simpl; by apply prefix_app_r. Qed.

Lemma added_app {A} (l k : list A) n :
  length l = n →
  added (l ++ k) (Z.of_nat n) = Done (Z.of_nat (length k)) ∧ Z.of_nat (length k) < 2 ^ 64 ∨
  added (l ++ k) (Z.of_nat n) = Panic ∧ 2 ^ 64 ≤ Z.of_nat (length k).
Proof.
  intros <-. unfold added, checked_sub. rewrite length_app. case_decide as Hd;
    unfold in_u in Hd; [left|right]; (split; [|lia]); [f_equal; lia|done].
Qed.

Lemma assert_eq_nat m n :
  assert_eq (Z.of_nat m) (Z.of_nat n) = if decide (m = n) then Done () else Panic.
Proof. unfold assert_eq. repeat case_decide; try done; lia. Qed.

(** One allocation appends the signature, or panics on one whose lists differ in length. *)
Lemma alloc_signature_spec a rs s :
  arena_ok a → total_params a + Z.of_nat (sig_size s) < 2 ^ 32 →
  alloc_signature (a, rs) s =
    if decide (sig_ok s)
    then Done (appended a s, rs ++ [MkRange (total_params a) (Z.of_nat (sig_size s))])
    else Panic.
Proof.
  intros (Hn & Hm & Hc) Hsize. unfold total_params in *.
  assert (Hw : wrap 32 (Z.of_nat (sig_size s)) = Z.of_nat (sig_size s))
    by (apply wrap_small; unfold in_u; lia).
  destruct s as [ns ts ms cs|ns ts]; unfold alloc_signature, sig_ok, sig_size in *; simpl in *;
    [unfold alloc|unfold alloc_method]; simpl; rewrite len_u32_small by lia;
    destruct (added_app (pa_names a) ns _ Hn) as [[-> ?]|[-> ?]]; simpl;
    try (rewrite decide_False by lia; done);
    destruct (added_app (pa_types a) ts _ eq_refl) as [[-> ?]|[-> ?]]; simpl; try lia.
  - destruct (added_app (pa_modes a) ms _ Hm) as [[-> ?]|[-> ?]]; simpl;
      [|by rewrite decide_False by lia].
    destruct (added_app (pa_comptime a) cs _ Hc) as [[-> ?]|[-> ?]]; simpl;
      [|by rewrite decide_False by lia].
    rewrite !assert_eq_nat. destruct (decide (_ ∧ _)) as [Hok|Hok].
    + rewrite !decide_True by lia. simpl. by rewrite Hw.
    + destruct (decide (length ns = length ts)); simpl; [|done].
      destruct (decide (length ts = length ms)); simpl; [|done].
      rewrite decide_False by lia. done.
  - rewrite assert_eq_nat. destruct (decide (_ ∧ _)) as [Hok|Hok].
    + rewrite decide_True by lia. simpl. by rewrite Hw, Nat2Z.id.
    + rewrite !length_replicate in Hok. rewrite decide_False by lia. done.
Qed.

Lemma slice_appended {A} (l k l' : list A) start len :
  start = Z.of_nat (length l) → len = Z.of_nat (length k) → (l ++ k) `prefix_of` l' →
  slice_range l' start (start + len) = Done k.
Proof.
  intros -> -> [post ->]. rewrite <-(assoc_L (++)).
  replace (Z.of_nat (length l) + Z.of_nat (length k)) with (Z.of_nat (length l + length k)) by lia.
  apply slice_range_app.
Qed.

(** A range is read back in every arena that extends the one it was allocated in. *)
Lemma appended_reads_back a s a' :
  arena_ok a → sig_ok s → arena_prefix (appended a s) a' →
  reads_back a' s (MkRange (total_params a) (Z.of_nat (sig_size s))).
Proof.
  intros (Hn & Hm & Hc) (Hsn & Hsm & Hsc) (Pn & Pt & Pm & Pc). unfold total_params in *.
  assert (Hnames : names a' (MkRange (total_params a) (Z.of_nat (sig_size s))) = Done (sig_names s))
    by (eapply slice_appended; [..|exact Pn]; unfold total_params; simpl; lia).
  assert (Htypes : types a' (MkRange (total_params a) (Z.of_nat (sig_size s))) = Done (sig_types s))
    by (eapply slice_appended; [..|exact Pt]; done).
  assert (Hmodes : modes a' (MkRange (total_params a) (Z.of_nat (sig_size s))) = Done (sig_modes s))
    by (eapply slice_appended; [..|exact Pm]; unfold total_params; simpl; lia).
  assert (Hcs : comptime a' (MkRange (total_params a) (Z.of_nat (sig_size s))) = Done (sig_comptime s))
    by (eapply slice_appended; [..|exact Pc]; unfold total_params; simpl; lia).
  unfold reads_back, iter, total_params in *. by rewrite Hnames, Htypes, Hmodes, Hcs.
Qed.

Definition sigs_size (sigs : list signature) : nat := list_sum (map sig_size sigs).

Lemma reads_back_mono a s r a' : reads_back a s r → arena_prefix a a' → reads_back a' s r.
Proof.
  assert (Hs : ∀ A (l l' k : list A) i j, slice_range l i j = Done k → l `prefix_of` l' →
    slice_range l' i j = Done k).
  { intros A l l' k i j Hk [post ->]. unfold slice_range in *.
    case_decide; simplify_done. rewrite length_app, decide_True by lia. simpl. f_equal.
    rewrite drop_app, take_app, length_drop.
    replace (Z.to_nat (j - i) - (length l - Z.to_nat i))%nat with O by lia. by rewrite app_nil_r. }
  intros (Hl & Hn & Ht & Hm & Hc & _) (Pn & Pt & Pm & Pc).
  eapply Hs in Hn, Ht, Hm, Hc; try done.
  unfold reads_back, iter, names, types, modes, comptime in *. by rewrite Hn, Ht, Hm, Hc.
Qed.

Lemma gather_from a rs sigs done :
  arena_ok a → total_params a + Z.of_nat (sigs_size sigs) < 2 ^ 32 →
  Forall2 (reads_back a) done rs →
  match foldM alloc_signature (a, rs) sigs with
  | Done (a', rs') => Forall sig_ok sigs ∧ Forall2 (reads_back a') (done ++ sigs) rs' ∧
      total_params a' = total_params a + Z.of_nat (sigs_size sigs)
  | Panic => ¬ Forall sig_ok sigs
  | NoFuel => False
  end.
Proof.
  revert a rs done; induction sigs as [|s sigs IH]; intros a rs done Hok Hsize Hdone.
  - simpl. rewrite app_nil_r. split_and!; [constructor|done|]. unfold sigs_size; simpl. lia.
  - unfold sigs_size in Hsize. simpl in Hsize. simpl. rewrite alloc_signature_spec by (done || lia).
    case_decide as Hs; simpl; [|by inversion 1].
    assert (Htot : total_params (appended a s) = total_params a + Z.of_nat (sig_size s)).
    { unfold total_params, sig_size; simpl. rewrite length_app. lia. }
    assert (Hnext : Forall2 (reads_back (appended a s)) (done ++ [s])
              (rs ++ [MkRange (total_params a) (Z.of_nat (sig_size s))])).
    { apply Forall2_app.
      - revert Hdone. apply Forall2_impl. intros s0 r Hr. apply (reads_back_mono a); [done|].
        apply arena_prefix_appended.
      - constructor; [|constructor]. apply appended_reads_back; done. }
    assert (Hfits : total_params (appended a s) + Z.of_nat (sigs_size sigs) < 2 ^ 32)
      by (rewrite Htot; unfold sigs_size; lia).
    specialize (IH _ _ _ (appended_ok _ _ Hok Hs) Hfits Hnext).
    destruct (foldM _ _ _) as [[a' rs']| |]; [|by inversion 1|done].
    destruct IH as (? & Hall & Htot'). rewrite <-(assoc_L (++)) in Hall.
    split_and!; [by constructor|done|]. rewrite Htot', Htot. unfold sigs_size; simpl. lia.
Qed.

(** Gathering signatures into one arena succeeds exactly when the lists of every
    signature have equal lengths (a mismatch panics), and then the range handed out for
    each signature, however many were allocated after it, reads back its own names,
    types, modes and comptime flags; the arena holds nothing else. *)
Theorem param_arena_reads_back (sigs : list signature) :
  Z.of_nat (sigs_size sigs) < 2 ^ 32 →
  match gather sigs with
  | Done (a, ranges) =>
      Forall sig_ok sigs ∧ Forall2 (reads_back a) sigs ranges ∧
      total_params a = Z.of_nat (sigs_size sigs)
  | Panic => ¬ Forall sig_ok sigs
  | NoFuel => False
  end.
Proof.
  intros Hsize. unfold gather.
  by apply (gather_from new_arena [] sigs []).
Qed.
End ParamArena.

Module ArenaSample.
Definition sigs : list (signature (Spur := nat)) :=
  [SigFunction [0%nat; 1%nat] [Ty.I32; Ty.BOOL] [ParamNormal; ParamRef] [false; true];
   SigMethod [2%nat] [Ty.U8]].
End ArenaSample.

Lemma param_arena_reads_back_witness :
  Z.of_nat (sigs_size ArenaSample.sigs) < 2 ^ 32 ∧
  ∃ a r1 r2, gather ArenaSample.sigs = Done (a, [r1; r2]) ∧
    Forall2 (reads_back a) ArenaSample.sigs [r1; r2].
Proof.
  split; [vm_compute; reflexivity|].
  pose proof (param_arena_reads_back ArenaSample.sigs) as Hread.
  specialize (Hread ltac:(vm_compute; reflexivity)).
  do 3 eexists. split; [vm_compute; reflexivity|].
  vm_compute (gather _) in Hread. apply Hread.
Defined.
