(* ===== verification/DropNames.v ===== *)
(** * Drop glue: which types need a destructor call, and its symbol

    Models [crates/gruel-cfg/src/drop_names.rs]. *)

From stdpp Require Import pretty.
From S2P Require Import Prelude Types LayoutTypes InternPool Layout.

#[local] Open Scope Z_scope.

Section DropNames.
Context {Spur : Type} `{Countable Spur}.
Notation Pool := (TypeInternPool (Spur := Spur)).
Implicit Types p : Pool.

(** [type_needs_drop]. *)
Fixpoint type_needs_drop (fuel : nat) (p : Pool) (ty : Ty) : outcome bool :=
  match fuel with
  | O => NoFuel
  | S fuel =>
    k ← kind ty;
    match k with
    | TypeKind.Struct id =>
        d ← struct_def p id;
        if bool_decide (is_Some (sd_destructor d)) then mret true
        else anyM (λ f, type_needs_drop fuel p (sf_ty f)) (sd_fields d)
    | TypeKind.Array id => '(elem, _) ← array_def p id; type_needs_drop fuel p elem
    | TypeKind.Enum id =>
        d ← enum_def p id;
        if bool_decide (is_Some (ed_destructor d)) then mret true
        else anyM (λ v, anyM (type_needs_drop fuel p) (ev_fields v)) (ed_variants d)
    | TypeKind.Vec _ => mret true
    | _ => mret false
    end
  end.

(** [type_name_component]. *)
Fixpoint type_name_component (fuel : nat) (p : Pool) (ty : Ty) : outcome string :=
  match fuel with
  | O => NoFuel
  | S fuel =>
    let wrapped (pre : string) (m : outcome Ty) : outcome string :=
      t ← m; s ← type_name_component fuel p t; mret (pre +:+ s)%string in
    k ← kind ty;
    match k with
    | TypeKind.I8 => mret "i8"%string
    | TypeKind.I16 => mret "i16"%string
    | TypeKind.I32 => mret "i32"%string
    | TypeKind.I64 => mret "i64"%string
    | TypeKind.U8 => mret "u8"%string
    | TypeKind.U16 => mret "u16"%string
    | TypeKind.U32 => mret "u32"%string
    | TypeKind.U64 => mret "u64"%string
    | TypeKind.Isize => mret "isize"%string
    | TypeKind.Usize => mret "usize"%string
    | TypeKind.F16 => mret "f16"%string
    | TypeKind.F32 => mret "f32"%string
    | TypeKind.F64 => mret "f64"%string
    | TypeKind.Bool => mret "bool"%string
    | TypeKind.Char => mret "char"%string
    | TypeKind.Unit => mret "unit"%string
    | TypeKind.Never => mret "never"%string
    | TypeKind.Error => mret "error"%string
    | TypeKind.ComptimeType => mret "comptime_type"%string
    | TypeKind.ComptimeStr => mret "comptime_str"%string
    | TypeKind.ComptimeInt => mret "comptime_int"%string
    | TypeKind.CSchar => mret "c_schar"%string
    | TypeKind.CShort => mret "c_short"%string
    | TypeKind.CInt => mret "c_int"%string
    | TypeKind.CLong => mret "c_long"%string
    | TypeKind.CLonglong => mret "c_longlong"%string
    | TypeKind.CUchar => mret "c_uchar"%string
    | TypeKind.CUshort => mret "c_ushort"%string
    | TypeKind.CUint => mret "c_uint"%string
    | TypeKind.CUlong => mret "c_ulong"%string
    | TypeKind.CUlonglong => mret "c_ulonglong"%string
    | TypeKind.CFloat => mret "c_float"%string
    | TypeKind.CDouble => mret "c_double"%string
    | TypeKind.CVoid => mret "c_void"%string
    | TypeKind.Enum id => mret ("enum" +:+ pretty (Z.to_N id))%string
    | TypeKind.Struct id => d ← struct_def p id; mret (sd_name d)
    | TypeKind.Array id =>
        '(elem, len) ← array_def p id;
        s ← type_name_component fuel p elem;
        mret ("array_" +:+ s +:+ "_" +:+ pretty (Z.to_N len))%string
    | TypeKind.Module id => mret ("module" +:+ pretty (Z.to_N id))%string
    | TypeKind.PtrConst id => wrapped "ptr_const_" (ptr_const_def p id)
    | TypeKind.PtrMut id => wrapped "ptr_mut_" (ptr_mut_def p id)
    | TypeKind.Ref id => wrapped "ref_" (ref_def p id)
    | TypeKind.MutRef id => wrapped "mut_ref_" (mut_ref_def p id)
    | TypeKind.Slice id => wrapped "slice_" (slice_def p id)
    | TypeKind.MutSlice id => wrapped "mut_slice_" (mut_slice_def p id)
    | TypeKind.Vec id => wrapped "vec_" (vec_def p id)
    | TypeKind.Interface id => mret ("interface" +:+ pretty (Z.to_N id))%string
    end
  end.

(** [drop_fn_name]. *)
Definition drop_fn_name (fuel : nat) (p : Pool) (ty : Ty) : outcome (option string) :=
  k ← kind ty;
  match k with
  | TypeKind.Struct id =>
      d ← struct_def p id; b ← type_needs_drop fuel p ty;
      mret (if (b : bool) then Some ("__gruel_drop_" +:+ sd_name d)%string else None)
  | TypeKind.Array id =>
      b ← type_needs_drop fuel p ty;
      if (b : bool) then
        '(elem, len) ← array_def p id;
        s ← type_name_component fuel p elem;
        mret (Some ("__gruel_drop_array_" +:+ s +:+ "_" +:+ pretty (Z.to_N len))%string)
      else mret None
  | TypeKind.Enum id =>
      b ← type_needs_drop fuel p ty;
      if (b : bool) then d ← enum_def p id; mret (Some ("__gruel_drop_" +:+ ed_name d)%string)
      else mret None
  | _ => mret None
  end.

(** ** What [type_needs_drop] decides *)

(** A type owns a resource: heap memory, a destructor, or a component that does. *)
Inductive owns (p : Pool) : Ty → Prop :=
  | owns_vec ty id : kind ty = Done (TypeKind.Vec id) → owns p ty
  | owns_struct_destructor ty id d :
      kind ty = Done (TypeKind.Struct id) → struct_def p id = Done d →
      is_Some (sd_destructor d) → owns p ty
  | owns_enum_destructor ty id d :
      kind ty = Done (TypeKind.Enum id) → enum_def p id = Done d →
      is_Some (ed_destructor d) → owns p ty
  | owns_field ty id d f :
      kind ty = Done (TypeKind.Struct id) → struct_def p id = Done d →
      f ∈ sd_fields d → owns p (sf_ty f) → owns p ty
  | owns_elem ty id elem len :
      kind ty = Done (TypeKind.Array id) → array_def p id = Done (elem, len) →
      owns p elem → owns p ty
  | owns_payload ty id d v t :
      kind ty = Done (TypeKind.Enum id) → enum_def p id = Done d →
      v ∈ ed_variants d → t ∈ ev_fields v → owns p t → owns p ty.

(** A query that returns, if it does not panic, the truth of [P]. *)
Definition decides (P : Prop) (o : outcome bool) : Prop :=
  match o with Done b => b = true ↔ P | Panic => True | NoFuel => False end.
Lemma decides_anyM {A} (P : A → Prop) (f : A → outcome bool) l :
  (∀ x, x ∈ l → decides (P x) (f x)) → decides (∃ x, x ∈ l ∧ P x) (anyM f l).
Proof.
  induction l as [|x l IH]; intros Hf; simpl; [split; [done|set_solver]|].
  pose proof (Hf x ltac:(by left)) as Hx. destruct (f x) as [[]| |]; simpl in *; [|..|done].
  - split; [|done]. intros _. exists x. split; [by left|by apply Hx].
  - specialize (IH ltac:(set_solver)). destruct (anyM f l) as [b| |]; simpl in *; [|done..].
    rewrite IH. split; [set_solver|]. intros (y & [->|Hy]%elem_of_cons & HP); [|by exists y].
    by apply Hx in HP.
  - done.
Qed.
Lemma decides_iff P Q o : (P ↔ Q) → decides P o → decides Q o.
Proof. intros HPQ. destruct o; simpl; [by rewrite HPQ|done..]. Qed.

Ltac same_kind := repeat match goal with
  | H1 : kind ?t = _, H2 : kind ?t = _ |- _ => rewrite H1 in H2; simplify_eq
  | H1 : struct_def ?p ?i = _, H2 : struct_def ?p ?i = _ |- _ => rewrite H1 in H2; simplify_eq
  | H1 : enum_def ?p ?i = _, H2 : enum_def ?p ?i = _ |- _ => rewrite H1 in H2; simplify_eq
  | H1 : array_def ?p ?i = _, H2 : array_def ?p ?i = _ |- _ => rewrite H1 in H2; simplify_eq
  end.

Lemma owns_struct p ty id d :
  kind ty = Done (TypeKind.Struct id) → struct_def p id = Done d →
  owns p ty ↔ is_Some (sd_destructor d) ∨ ∃ f, f ∈ sd_fields d ∧ owns p (sf_ty f).
Proof.
  intros Hk Hd. split.
  - destruct 1; same_kind; eauto.
  - intros [?|(f & ? & ?)]; [by eapply owns_struct_destructor|by eapply owns_field].
Qed.
Lemma owns_enum p ty id d :
  kind ty = Done (TypeKind.Enum id) → enum_def p id = Done d →
  owns p ty ↔ is_Some (ed_destructor d) ∨
    ∃ v, v ∈ ed_variants d ∧ ∃ t, t ∈ ev_fields v ∧ owns p t.
Proof.
  intros Hk Hd. split.
  - destruct 1; same_kind; eauto 8.
  - intros [?|(v & ? & t & ? & ?)]; [by eapply owns_enum_destructor|by eapply owns_payload].
Qed.
Lemma owns_array p ty id elem len :
  kind ty = Done (TypeKind.Array id) → array_def p id = Done (elem, len) →
  owns p ty ↔ owns p elem.
Proof. intros Hk Hd. split; [destruct 1; by same_kind|by eapply owns_elem]. Qed.

Lemma needs_drop_decides fuel p rank ty :
  ranked p rank → (rank ty < fuel)%nat → decides (owns p ty) (type_needs_drop fuel p ty).
Proof.
  intros Hr. revert ty; induction fuel as [|fuel IH]; intros ty Hf; [lia|]. simpl.
  assert (Hrec : ∀ ty', ty' ∈ contained p ty → decides (owns p ty') (type_needs_drop fuel p ty')).
  { intros ty' Hty'%Hr. apply IH. lia. }
  unfold contained in Hrec. pose proof (kind_total ty).
  destruct (kind ty) as [k| |] eqn:Hk; simpl; [|done..].
  destruct k; simpl; try (split; [done|by destruct 1; same_kind]).
  - pose proof (struct_def_total p id). destruct (struct_def p id) as [d| |] eqn:Hd; simpl; [|done..].
    case_bool_decide as Hdt; [split; [|done]; intros _; by eapply owns_struct_destructor|].
    eapply decides_iff; [|apply (decides_anyM (λ f, owns p (sf_ty f)))].
    + rewrite (owns_struct _ _ _ _ Hk Hd). naive_solver.
    + intros f Hin. apply Hrec. by apply list_elem_of_fmap_2.
  - pose proof (enum_def_total p id). destruct (enum_def p id) as [d| |] eqn:Hd; simpl; [|done..].
    case_bool_decide as Hdt; [split; [|done]; intros _; by eapply owns_enum_destructor|].
    eapply decides_iff; [|apply (decides_anyM (λ v, ∃ t, t ∈ ev_fields v ∧ owns p t))].
    + rewrite (owns_enum _ _ _ _ Hk Hd). naive_solver.
    + intros v Hv. apply decides_anyM. intros t Ht. apply Hrec. right. apply elem_of_list_concat.
      exists (ev_fields v). split; [done|]. by apply list_elem_of_fmap_2.
  - pose proof (array_def_total p id). destruct (array_def p id) as [[elem len]| |] eqn:Hd; simpl; [|done..].
    eapply decides_iff; [|apply Hrec; by left]. by rewrite (owns_array _ _ _ _ _ Hk Hd).
  - split; [|done]. intros _. by eapply owns_vec.
Qed.

Lemma type_needs_drop_total fuel p rank ty :
  ranked p rank → (rank ty < fuel)%nat → type_needs_drop fuel p ty ≠ NoFuel.
Proof.
  intros Hr Hf. pose proof (needs_drop_decides fuel p rank ty Hr Hf).
  by destruct (type_needs_drop fuel p ty).
Qed.
Lemma abi_slot_count_total fuel p rank ty :
  ranked p rank → (rank ty < fuel)%nat → abi_slot_count fuel p ty ≠ NoFuel.
Proof.
  intros Hr. revert ty; induction fuel as [|fuel IH]; intros ty Hf; [lia|]. simpl.
  assert (Hrec : ∀ ty', ty' ∈ contained p ty → abi_slot_count fuel p ty' ≠ NoFuel).
  { intros ty' Hty'%Hr. apply IH. lia. }
  unfold contained in Hrec. apply bind_total; [apply kind_total|]. intros k Hk. rewrite Hk in Hrec.
  destruct k; try done; (apply bind_total; [auto using struct_def_total, array_def_total|]).
  - intros d Hd. rewrite Hd in Hrec. apply foldM_total. intros b f Hin.
    apply bind_total; [apply Hrec; by apply list_elem_of_fmap_2|auto with outcome].
  - intros [elem len] Hd. rewrite Hd in Hrec.
    apply bind_total; [apply Hrec; by left|auto with outcome].
Qed.

(** C22: [type_needs_drop] returns on every type of a pool in which no type contains
    itself, and unless it panics on a dangling id its answer is [true] exactly when the
    type owns a resource: it is a vector, it has a destructor, or a field, an element or
    a variant payload of it owns one. *)
Theorem type_needs_drop_decides fuel p rank ty :
  ranked p rank → (rank ty < fuel)%nat → decides (owns p ty) (type_needs_drop fuel p ty).
Proof. apply needs_drop_decides. Qed.

End DropNames.

(** A struct of the sample pool: nothing in it owns a resource. *)
Lemma type_needs_drop_decides_witness :
  type_needs_drop 3 Sample.pool Sample.S_ty = Done false ∧ ¬ owns Sample.pool Sample.S_ty.
Proof.
  split; [by vm_compute|].
  pose proof (type_needs_drop_decides 3 Sample.pool Sample.rank Sample.S_ty Sample.pool_ranked
    ltac:(vm_compute; lia)) as Hd.
  change (type_needs_drop 3 Sample.pool Sample.S_ty) with (Done false) in Hd.
  destruct Hd as [_ Hd]. intros Hp. specialize (Hd Hp). discriminate Hd.
Defined.
