(* ===== verification/Cfg.v ===== *)
(** * The control-flow graph

    Models the data and the store of [crates/gruel-cfg/src/inst.rs]: instructions are
    kept in one vector and named by their index, blocks list the instructions they
    execute, and variable-length payloads (operands, call arguments, switch cases,
    projections) live in side vectors that instructions and terminators index by a
    start and a length. The textual dump ([Display]) is left out. *)

From S2P Require Import Prelude Types LayoutTypes InternPool AirPattern Air ParamArena.

#[local] Open Scope Z_scope.

(** ** Data *)
Notation BlockId := Z (only parsing).
Notation CfgValue := Z (only parsing).

(** [Place] and [Projection]. *)
Record Place : Set := MkCfgPlace { cp_base : PlaceBase; cp_proj_start : Z; cp_proj_len : Z }.
Inductive Projection : Set :=
  | ProjField (struct_id field_index : Z)
  | ProjIndex (array_type : Ty) (index : CfgValue).

Definition cfg_place_local (slot : Z) : Place := MkCfgPlace (Local slot) 0 0.
Definition cfg_place_param (slot : Z) : Place := MkCfgPlace (Param slot) 0 0.
Definition cfg_place_is_simple (pl : Place) : bool := cp_proj_len pl =? 0.
Definition cfg_place_as_local (pl : Place) : option Z :=
  if cp_proj_len pl =? 0 then
    match cp_base pl with Local slot => Some slot | Param _ => None end
  else None.
Definition cfg_place_as_param (pl : Place) : option Z :=
  if cp_proj_len pl =? 0 then
    match cp_base pl with Param slot => Some slot | Local _ => None end
  else None.

(** [CfgArgMode], its conversion from AIR, and [CfgCallArg]. *)
Inductive CfgArgMode : Set := CfgNormal | CfgMutRef | CfgRef.
Definition cfg_mode_from (m : AirArgMode) : CfgArgMode :=
  match m with ArgNormal => CfgNormal | ArgMutRef => CfgMutRef | ArgRef => CfgRef end.
Record CfgCallArg : Set := MkCfgArg { cca_value : CfgValue; cca_mode : CfgArgMode }.
Definition call_arg_is_mut_ref (a : CfgCallArg) : bool :=
  match cca_mode a with CfgMutRef => true | _ => false end.
Definition call_arg_is_ref (a : CfgCallArg) : bool :=
  match cca_mode a with CfgRef => true | _ => false end.
Definition call_arg_is_by_ref (a : CfgCallArg) : bool :=
  match cca_mode a with CfgMutRef | CfgRef => true | CfgNormal => false end.

Record MakeSliceData : Set := MkMakeSlice {
  ms_place : Place;
  ms_array_len : Z;
  ms_lo : option CfgValue;
  ms_hi : option CfgValue;
  ms_is_mut : bool;
  ms_vec_base : bool;
}.

(** [Terminator]. *)
Inductive Terminator : Set :=
  | TGoto (target : BlockId) (args_start args_len : Z)
  | TBranch (cond : CfgValue) (then_block : BlockId) (then_args_start then_args_len : Z)
      (else_block : BlockId) (else_args_start else_args_len : Z)
  | TSwitch (scrutinee : CfgValue) (cases_start cases_len : Z) (default : BlockId)
  | TReturn (value : option CfgValue)
  | TUnreachable
  | TNone.

Record BasicBlock : Set := MkBlock {
  bb_id : BlockId;
  bb_params : list (CfgValue * Ty);
  bb_insts : list CfgValue;
  bb_terminator : Terminator;
  bb_preds : list BlockId;
}.
(** [BasicBlock::new]. *)
Definition new_basic_block (id : BlockId) : BasicBlock := MkBlock id [] [] TNone [].

Section Cfg.
Context {Spur : Type}.

(** [CfgInstData]. *)
Inductive CfgInstData : Type :=
  | GConst (v : Z)
  | GFloatConst (bits : Z)
  | GBoolConst (b : bool)
  | GStringConst (id : Z)
  | GBytesConst (id : Z)
  | GParam (index : Z)
  | GBlockParam (index : Z)
  | GBin (op : BinOp) (l r : CfgValue)
  | GUnary (op : UnaryOp) (x : CfgValue)
  | GMakeRef (place : Place) (is_mut : bool)
  | GMakeSlice (data : MakeSliceData)
  | GAlloc (slot : Z) (init : CfgValue)
  | GLoad (slot : Z)
  | GStore (slot : Z) (value : CfgValue)
  | GParamStore (param_slot : Z) (value : CfgValue)
  | GRefStore (slot : Z) (value : CfgValue)
  | GPlaceRead (place : Place)
  | GPlaceWrite (place : Place) (value : CfgValue)
  | GCall (name : Spur) (args_start args_len : Z)
  | GIntrinsic (name : Spur) (args_start args_len : Z)
  | GStructInit (struct_id fields_start fields_len : Z)
  | GFieldSet (slot struct_id field_index : Z) (value : CfgValue)
  | GParamFieldSet (param_slot inner_offset struct_id field_index : Z) (value : CfgValue)
  | GArrayInit (elements_start elements_len : Z)
  | GIndexSet (slot : Z) (array_type : Ty) (index value : CfgValue)
  | GParamIndexSet (param_slot : Z) (array_type : Ty) (index value : CfgValue)
  | GEnumVariant (enum_id variant_index : Z)
  | GEnumCreate (enum_id variant_index fields_start fields_len : Z)
  | GEnumPayloadGet (base : CfgValue) (variant_index field_index : Z)
  | GGetDiscriminant (base : CfgValue)
  | GIntCast (value : CfgValue) (from_ty : Ty)
  | GFloatCast (value : CfgValue) (from_ty : Ty)
  | GIntToFloat (value : CfgValue) (from_ty : Ty)
  | GFloatToInt (value : CfgValue) (from_ty : Ty)
  | GDrop (value : CfgValue)
  | GStorageLive (slot : Z)
  | GStorageDead (slot : Z)
  | GMakeInterfaceRef (value : CfgValue) (struct_id interface_id : Z)
  | GMethodCallDyn (interface_id slot : Z) (recv : CfgValue) (args_start args_len : Z).

Record CfgInst : Type := MkCfgInst { ci_data : CfgInstData; ci_ty : Ty; ci_span : Span }.
Record CfgSpawnTarget : Type := MkCfgSpawn {
  cs_worker_fn : Spur; cs_arg_type : Ty; cs_return_type : Ty }.

Record Cfg : Type := MkCfg {
  c_blocks : list BasicBlock;
  c_entry : BlockId;
  c_return_type : Ty;
  c_values : list CfgInst;
  c_extra : list CfgValue;
  c_call_args : list CfgCallArg;
  c_switch_cases : list (Z * BlockId);
  c_projections : list Projection;
  c_num_locals : Z;
  c_num_params : Z;
  c_fn_name : string;
  c_param_modes : list AirParamMode;
  c_param_types : list Ty;
  c_spawn_targets : gmap Z CfgSpawnTarget;
}.

(** [Cfg::new]. *)
Definition new_cfg (return_type : Ty) (num_locals num_params : Z) (fn_name : string)
    (param_modes : list AirParamMode) (param_types : list Ty) : Cfg :=
  MkCfg [] 0 return_type [] [] [] [] [] num_locals num_params fn_name param_modes param_types ∅.

(** Field updates. *)
Definition set_blocks (f : list BasicBlock → list BasicBlock) (c : Cfg) : Cfg :=
  MkCfg (f (c_blocks c)) (c_entry c) (c_return_type c) (c_values c) (c_extra c) (c_call_args c)
    (c_switch_cases c) (c_projections c) (c_num_locals c) (c_num_params c) (c_fn_name c)
    (c_param_modes c) (c_param_types c) (c_spawn_targets c).
Definition set_entry (b : BlockId) (c : Cfg) : Cfg :=
  MkCfg (c_blocks c) b (c_return_type c) (c_values c) (c_extra c) (c_call_args c)
    (c_switch_cases c) (c_projections c) (c_num_locals c) (c_num_params c) (c_fn_name c)
    (c_param_modes c) (c_param_types c) (c_spawn_targets c).
Definition set_values (f : list CfgInst → list CfgInst) (c : Cfg) : Cfg :=
  MkCfg (c_blocks c) (c_entry c) (c_return_type c) (f (c_values c)) (c_extra c) (c_call_args c)
    (c_switch_cases c) (c_projections c) (c_num_locals c) (c_num_params c) (c_fn_name c)
    (c_param_modes c) (c_param_types c) (c_spawn_targets c).
Definition set_cfg_extra (l : list CfgValue) (c : Cfg) : Cfg :=
  MkCfg (c_blocks c) (c_entry c) (c_return_type c) (c_values c) l (c_call_args c)
    (c_switch_cases c) (c_projections c) (c_num_locals c) (c_num_params c) (c_fn_name c)
    (c_param_modes c) (c_param_types c) (c_spawn_targets c).
Definition set_call_args (l : list CfgCallArg) (c : Cfg) : Cfg :=
  MkCfg (c_blocks c) (c_entry c) (c_return_type c) (c_values c) (c_extra c) l
    (c_switch_cases c) (c_projections c) (c_num_locals c) (c_num_params c) (c_fn_name c)
    (c_param_modes c) (c_param_types c) (c_spawn_targets c).
Definition set_switch_cases (l : list (Z * BlockId)) (c : Cfg) : Cfg :=
  MkCfg (c_blocks c) (c_entry c) (c_return_type c) (c_values c) (c_extra c) (c_call_args c)
    l (c_projections c) (c_num_locals c) (c_num_params c) (c_fn_name c)
    (c_param_modes c) (c_param_types c) (c_spawn_targets c).
Definition set_projections (l : list Projection) (c : Cfg) : Cfg :=
  MkCfg (c_blocks c) (c_entry c) (c_return_type c) (c_values c) (c_extra c) (c_call_args c)
    (c_switch_cases c) l (c_num_locals c) (c_num_params c) (c_fn_name c)
    (c_param_modes c) (c_param_types c) (c_spawn_targets c).
Definition set_num_locals (n : Z) (c : Cfg) : Cfg :=
  MkCfg (c_blocks c) (c_entry c) (c_return_type c) (c_values c) (c_extra c) (c_call_args c)
    (c_switch_cases c) (c_projections c) n (c_num_params c) (c_fn_name c)
    (c_param_modes c) (c_param_types c) (c_spawn_targets c).
Definition set_spawn_targets (m : gmap Z CfgSpawnTarget) (c : Cfg) : Cfg :=
  MkCfg (c_blocks c) (c_entry c) (c_return_type c) (c_values c) (c_extra c) (c_call_args c)
    (c_switch_cases c) (c_projections c) (c_num_locals c) (c_num_params c) (c_fn_name c)
    (c_param_modes c) (c_param_types c) m.

(** ** Operations *)
Definition cfg_record_spawn_target (value : CfgValue) (target : CfgSpawnTarget) : ST Cfg () :=
  modify (λ c, set_spawn_targets (<[value := target]> (c_spawn_targets c)) c).
Definition cfg_spawn_target (c : Cfg) (value : CfgValue) : option CfgSpawnTarget :=
  c_spawn_targets c !! value.

(** [Cfg::alloc_temp_local]. *)
Definition alloc_temp_local : ST Cfg Z := λ c,
  n ← checked_add 32 (c_num_locals c) 1;
  Done (c_num_locals c, set_num_locals n c).

Definition param_mode (c : Cfg) (slot : Z) : AirParamMode :=
  default AirNormal (c_param_modes c !! Z.to_nat slot).
Definition param_type (c : Cfg) (slot : Z) : option Ty := c_param_types c !! Z.to_nat slot.
Definition is_param_mut_ref (c : Cfg) (slot : Z) : bool :=
  match param_mode c slot with AirMutRef => true | _ => false end.
Definition is_param_ref (c : Cfg) (slot : Z) : outcome bool :=
  match param_mode c slot with
  | AirRefMode => mret true
  | _ =>
      match param_type c slot with
      | Some t => k ← kind t; mret (match k with TypeKind.Ref _ => true | _ => false end)
      | None => mret false
      end
  end.
Definition is_param_by_ref (c : Cfg) (slot : Z) : outcome bool :=
  let by_mode := is_by_ref (param_mode c slot) in
  match param_type c slot with
  | Some ty =>
      k ← kind ty;
      mret (match k with
            | TypeKind.Interface _ => false
            | TypeKind.Ref _ | TypeKind.MutRef _ => true
            | _ => by_mode
            end)
  | None => mret by_mode
  end.

(** [Cfg::new_block]. *)
Definition new_block : ST Cfg BlockId := λ c,
  let id := len_u32 (c_blocks c) in
  Done (id, set_blocks (λ bs, bs ++ [new_basic_block id]) c).

(** [self.blocks[id.0 as usize]], read and mutated in place. *)
Definition get_block (c : Cfg) (id : BlockId) : outcome BasicBlock :=
  expect (c_blocks c !! Z.to_nat id).
Definition update_block (id : BlockId) (f : BasicBlock → BasicBlock) : ST Cfg () := λ c,
  b ← get_block c id;
  Done ((), set_blocks (λ bs, <[Z.to_nat id := f b]> bs) c).

Definition cfg_add_inst (inst : CfgInst) : ST Cfg CfgValue := λ c,
  Done (len_u32 (c_values c), set_values (λ vs, vs ++ [inst]) c).
Definition cfg_get_inst (c : Cfg) (value : CfgValue) : outcome CfgInst :=
  expect (c_values c !! Z.to_nat value).

(** A push into a side vector returns the start and the length. *)
Definition pushed {A} (old new : list A) : outcome (Z * Z) :=
  let start := len_u32 old in
  len ← checked_sub 32 (len_u32 new) start; mret (start, len).
Definition cfg_slice {A} (l : list A) (start len : Z) : outcome (list A) :=
  en ← checked_add 32 start len; slice_range l start en.

Definition push_extra (values : list CfgValue) : ST Cfg (Z * Z) := λ c,
  let l := c_extra c ++ values in
  r ← pushed (c_extra c) l; Done (r, set_cfg_extra l c).
Definition cfg_get_extra (c : Cfg) (start len : Z) : outcome (list CfgValue) :=
  cfg_slice (c_extra c) start len.
Definition push_call_args (args : list CfgCallArg) : ST Cfg (Z * Z) := λ c,
  let l := c_call_args c ++ args in
  r ← pushed (c_call_args c) l; Done (r, set_call_args l c).
Definition cfg_get_call_args (c : Cfg) (start len : Z) : outcome (list CfgCallArg) :=
  cfg_slice (c_call_args c) start len.
Definition push_switch_cases (cases : list (Z * BlockId)) : ST Cfg (Z * Z) := λ c,
  let l := c_switch_cases c ++ cases in
  r ← pushed (c_switch_cases c) l; Done (r, set_switch_cases l c).
Definition get_switch_cases (c : Cfg) (start len : Z) : outcome (list (Z * BlockId)) :=
  cfg_slice (c_switch_cases c) start len.
Definition cfg_push_projections (projs : list Projection) : ST Cfg (Z * Z) := λ c,
  let l := c_projections c ++ projs in
  r ← pushed (c_projections c) l; Done (r, set_projections l c).
Definition cfg_get_projections (c : Cfg) (start len : Z) : outcome (list Projection) :=
  cfg_slice (c_projections c) start len.
Definition cfg_get_place_projections (c : Cfg) (pl : Place) : outcome (list Projection) :=
  cfg_get_projections c (cp_proj_start pl) (cp_proj_len pl).

(** [Cfg::make_place]. *)
Definition cfg_make_place (base : PlaceBase) (projs : list Projection) : ST Cfg Place :=
  '(start, len) ← cfg_push_projections projs; mret (MkCfgPlace base start len).

Definition get_goto_args (c : Cfg) (t : Terminator) : outcome (list CfgValue) :=
  match t with TGoto _ s l => cfg_get_extra c s l | _ => Panic end.
Definition get_branch_then_args (c : Cfg) (t : Terminator) : outcome (list CfgValue) :=
  match t with TBranch _ _ s l _ _ _ => cfg_get_extra c s l | _ => Panic end.
Definition get_branch_else_args (c : Cfg) (t : Terminator) : outcome (list CfgValue) :=
  match t with TBranch _ _ _ _ _ s l => cfg_get_extra c s l | _ => Panic end.

Definition push_inst (v : CfgValue) (b : BasicBlock) : BasicBlock :=
  MkBlock (bb_id b) (bb_params b) (bb_insts b ++ [v]) (bb_terminator b) (bb_preds b).
Definition push_param (v : CfgValue) (ty : Ty) (b : BasicBlock) : BasicBlock :=
  MkBlock (bb_id b) (bb_params b ++ [(v, ty)]) (bb_insts b) (bb_terminator b) (bb_preds b).
Definition with_terminator (t : Terminator) (b : BasicBlock) : BasicBlock :=
  MkBlock (bb_id b) (bb_params b) (bb_insts b) t (bb_preds b).
Definition with_preds (f : list BlockId → list BlockId) (b : BasicBlock) : BasicBlock :=
  MkBlock (bb_id b) (bb_params b) (bb_insts b) (bb_terminator b) (f (bb_preds b)).

(** [Cfg::{add_inst_to_block, add_block_param, set_terminator}]. *)
Definition add_inst_to_block (block : BlockId) (inst : CfgInst) : ST Cfg CfgValue :=
  value ← cfg_add_inst inst; update_block block (push_inst value);; mret value.
Definition add_block_param (block : BlockId) (ty : Ty) : ST Cfg CfgValue := λ c,
  b ← get_block c block;
  let param_index := len_u32 (bb_params b) in
  (value ← cfg_add_inst (MkCfgInst (GBlockParam param_index) ty (MkSpan 0 0 0));
   update_block block (push_param value ty);; mret value) c.
Definition set_terminator (block : BlockId) (term : Terminator) : ST Cfg () :=
  update_block block (with_terminator term).

(** [Cfg::compute_predecessors]. *)
Definition block_edges (c : Cfg) (b : BasicBlock) : outcome (list (BlockId * BlockId)) :=
  match bb_terminator b with
  | TGoto target _ _ => mret [(bb_id b, target)]
  | TBranch _ then_block _ _ else_block _ _ => mret [(bb_id b, then_block); (bb_id b, else_block)]
  | TSwitch _ cases_start cases_len default =>
      cases ← get_switch_cases c cases_start cases_len;
      mret (map (λ '(_, target), (bb_id b, target)) cases ++ [(bb_id b, default)])
  | TReturn _ | TUnreachable | TNone => mret []
  end.
Definition add_pred (c : Cfg) (e : BlockId * BlockId) : outcome Cfg :=
  r ← update_block e.2 (with_preds (λ ps, ps ++ [e.1])) c; mret r.2.
Definition compute_predecessors : ST Cfg () := λ c,
  let c' := set_blocks (map (with_preds (λ _, []))) c in
  edges ← foldM (λ acc b, es ← block_edges c' b; mret (acc ++ es)) [] (c_blocks c');
  c'' ← foldM add_pred c' edges;
  Done ((), c'').

End Cfg.
Arguments CfgInstData : clear implicits.
Arguments CfgInst : clear implicits.
Arguments Cfg : clear implicits.
