(* ===== verification/CfgBuild.v ===== *)
(** * Lowering AIR to the control-flow graph

    Models [crates/gruel-cfg/src/build.rs]: [CfgBuilder] walks the AIR of a function from
    its last instruction, emits instructions into a current block, splits blocks at
    branches, loops, short-circuit operators and matches, and elaborates drops from a
    stack of scopes. Each arm of [lower_inst] is a definition of its own; the recursion
    is closed at the end, on fuel.

    [resolve] is the interner's lookup of a name; [type_fuel] bounds the recursion of the
    two queries over types ([type_needs_drop], [abi_slot_count]). *)

From S2P Require Import Prelude Types LayoutTypes InternPool Layout AirPattern Air ParamArena.
From S2P Require Import DropNames Cfg.

#[local] Open Scope Z_scope.

(** [is_trivial_pattern]. *)
Fixpoint is_trivial_pattern {Spur} (p : AirPattern Spur) : bool :=
  match p with
  | Wildcard => true
  | PBind _ _ None => true
  | PBind _ _ (Some inner) => is_trivial_pattern inner
  | _ => false
  end.

Inductive Continuation : Set := Continues | Diverged.
Record ExprResult : Set := MkExpr { er_value : option CfgValue; er_continuation : Continuation }.
Definition is_diverged (r : ExprResult) : bool :=
  match er_continuation r with Diverged => true | Continues => false end.

Record Scrutinee : Set := MkScrutinee {
  scr_slot : Z; scr_ty : Ty; scr_projection : list Projection }.
Record BranchTargets : Set := MkTargets { bt_matched : BlockId; bt_unmatched : BlockId }.
Record LoopContext : Set := MkLoop { lc_header : BlockId; lc_exit : BlockId; lc_scope_depth : nat }.
Record LiveSlot : Set := MkLive { ls_slot : Z; ls_ty : Ty; ls_span : Span }.
Record LiveParam : Set := MkLiveParam { lp_param_slot : Z; lp_ty : Ty }.

(** A [CompileWarning] of kind [UnreachableCode], with the span of its label; the texts
    are constant. *)
Record Warning : Set := MkWarning { w_span : Span; w_diverging_span : Span }.

Section Build.
Context {Spur : Type} `{Countable Spur} `{!SpurKey Spur}.
Notation Cfg := (Cfg Spur).
Notation Air := (Air (Spur := Spur)).

(** [CfgBuilder], without its shared references. *)
Record CfgBuilder : Type := MkBuilder {
  b_cfg : Cfg;
  b_current_block : BlockId;
  b_loop_stack : list LoopContext;
  b_value_cache : list (option CfgValue);
  b_warnings : list Warning;
  b_scope_stack : list (list LiveSlot);
  b_slot_origin_depth : gmap Z nat;
  b_live_params : list LiveParam;
}.
Definition BuildM (A : Type) : Type := ST CfgBuilder A.
#[export] Instance BuildM_ret : MRet BuildM := λ A, @ST_ret CfgBuilder A.
#[export] Instance BuildM_bind : MBind BuildM := λ A B, @ST_bind CfgBuilder A B.

Definition set_b_cfg (c : Cfg) (b : CfgBuilder) : CfgBuilder :=
  MkBuilder c (b_current_block b) (b_loop_stack b) (b_value_cache b) (b_warnings b)
    (b_scope_stack b) (b_slot_origin_depth b) (b_live_params b).
Definition set_b_current (k : BlockId) (b : CfgBuilder) : CfgBuilder :=
  MkBuilder (b_cfg b) k (b_loop_stack b) (b_value_cache b) (b_warnings b)
    (b_scope_stack b) (b_slot_origin_depth b) (b_live_params b).
Definition set_b_loops (l : list LoopContext) (b : CfgBuilder) : CfgBuilder :=
  MkBuilder (b_cfg b) (b_current_block b) l (b_value_cache b) (b_warnings b)
    (b_scope_stack b) (b_slot_origin_depth b) (b_live_params b).
Definition set_b_cache (l : list (option CfgValue)) (b : CfgBuilder) : CfgBuilder :=
  MkBuilder (b_cfg b) (b_current_block b) (b_loop_stack b) l (b_warnings b)
    (b_scope_stack b) (b_slot_origin_depth b) (b_live_params b).
Definition set_b_warnings (l : list Warning) (b : CfgBuilder) : CfgBuilder :=
  MkBuilder (b_cfg b) (b_current_block b) (b_loop_stack b) (b_value_cache b) l
    (b_scope_stack b) (b_slot_origin_depth b) (b_live_params b).
Definition set_b_scopes (l : list (list LiveSlot)) (b : CfgBuilder) : CfgBuilder :=
  MkBuilder (b_cfg b) (b_current_block b) (b_loop_stack b) (b_value_cache b) (b_warnings b)
    l (b_slot_origin_depth b) (b_live_params b).
Definition set_b_origin (m : gmap Z nat) (b : CfgBuilder) : CfgBuilder :=
  MkBuilder (b_cfg b) (b_current_block b) (b_loop_stack b) (b_value_cache b) (b_warnings b)
    (b_scope_stack b) m (b_live_params b).
Definition set_b_params (l : list LiveParam) (b : CfgBuilder) : CfgBuilder :=
  MkBuilder (b_cfg b) (b_current_block b) (b_loop_stack b) (b_value_cache b) (b_warnings b)
    (b_scope_stack b) (b_slot_origin_depth b) l.

(** An operation of [self.cfg], and a value of [outcome], inside the builder. *)
Definition cfg_do {A} (m : ST Cfg A) : BuildM A := λ b,
  '(a, c) ← m (b_cfg b); Done (a, set_b_cfg c b).
Definition lift_b {A} (m : outcome A) : BuildM A := lift_st m.
Definition getb {A} (f : CfgBuilder → A) : BuildM A := gets f.
Definition modb (f : CfgBuilder → CfgBuilder) : BuildM () := modify f.

Definition continues (value : option CfgValue) : ExprResult := MkExpr value Continues.
(** [Self::diverged]. *)
Definition diverged : ExprResult := MkExpr None Diverged.

(** [let Some(x) = m else { return Self::diverged() }], and [?] on an option. *)
Definition or_diverge {A} (m : BuildM (option A)) (k : A → BuildM ExprResult) : BuildM ExprResult :=
  o ← m; match o with Some x => k x | None => mret diverged end.
Definition or_none {A B} (m : BuildM (option A)) (k : A → BuildM (option B)) : BuildM (option B) :=
  o ← m; match o with Some x => k x | None => mret None end.
Notation "x '←?' m ; k" := (or_diverge m (λ x, k))
  (at level 20, m at level 100, k at level 200, only parsing).
Notation "x '←!' m ; k" := (or_none m (λ x, k))
  (at level 20, m at level 100, k at level 200, only parsing).

Context (air : Air) (type_pool : TypeInternPool (Spur := Spur)) (resolve : Spur → string)
  (type_fuel : nat).

(** ** Helpers *)
Definition set_current (k : BlockId) : BuildM () := modb (set_b_current k).
Definition emit (data : CfgInstData Spur) (ty : Ty) (span : Span) : BuildM CfgValue :=
  k ← getb b_current_block; cfg_do (add_inst_to_block k (MkCfgInst data ty span)).
(** [self.value_cache[i] = Some(value)]. *)
Definition cache (r : AirRef) (value : CfgValue) : BuildM () := λ b,
  if decide (Z.to_nat r < length (b_value_cache b))%nat
  then Done ((), set_b_cache (<[Z.to_nat r := Some value]> (b_value_cache b)) b) else Panic.
(** The common end of an arm: [self.cache(..)] and the value. *)
Definition cached (r : AirRef) (value : CfgValue) : BuildM ExprResult :=
  cache r value;; mret (continues (Some value)).
Definition emit_unit (data : CfgInstData Spur) (span : Span) : BuildM () :=
  emit data Ty.UNIT span;; mret ().
Definition terminate (t : Terminator) : BuildM () :=
  k ← getb b_current_block; cfg_do (set_terminator k t).
Definition air_inst (r : AirRef) : BuildM (AirInst (Spur := Spur)) := lift_b (get_inst air r).
Definition air_ty (r : AirRef) : BuildM Ty := inst ← air_inst r; mret (i_ty inst).
Definition needs_drop (ty : Ty) : BuildM bool := lift_b (type_needs_drop type_fuel type_pool ty).

(** [Goto] without arguments to [target] from [from]. *)
Definition goto_from (from target : BlockId) (args : list CfgValue) : BuildM () :=
  '(s, l) ← cfg_do (push_extra args); cfg_do (set_terminator from (TGoto target s l)).
Definition goto (target : BlockId) (args : list CfgValue) : BuildM () :=
  '(s, l) ← cfg_do (push_extra args); terminate (TGoto target s l).

(** [branch_to]. *)
Definition branch_to (cond : CfgValue) (then_block else_block : BlockId) : BuildM () :=
  '(ts, tl) ← cfg_do (push_extra []); '(es, el) ← cfg_do (push_extra []);
  terminate (TBranch cond then_block ts tl else_block es el).

(** ** Drop elaboration *)

(** [forget_local_slot], [forget_param] and [forget_consumed_value]. *)
Definition forget_local_slot (slot : Z) : BuildM () :=
  modb (λ b, set_b_scopes (map (filter (λ ls, ls_slot ls ≠ slot)) (b_scope_stack b)) b).
Definition forget_param (param_slot : Z) : BuildM () :=
  modb (λ b, set_b_params (filter (λ lp, lp_param_slot lp ≠ param_slot) (b_live_params b)) b).
Definition forget_consumed_value (r : AirRef) : BuildM () :=
  inst ← air_inst r;
  match i_data inst with
  | ILoad slot => d ← needs_drop (i_ty inst); if (d : bool) then forget_local_slot slot else mret ()
  | IParam index => d ← needs_drop (i_ty inst); if (d : bool) then forget_param index else mret ()
  | _ => mret ()
  end.

(** [re_add_local_slot]. *)
Definition re_add_local_slot (slot : Z) (ty : Ty) (span : Span) : BuildM () :=
  modb (λ b,
    let already_tracked :=
      existsb (existsb (λ ls, ls_slot ls =? slot)) (b_scope_stack b) in
    if already_tracked then b
    else
      let last := (length (b_scope_stack b) - 1)%nat in
      let target_depth := default last (b_slot_origin_depth b !! slot) in
      let depth := Nat.min target_depth last in
      match b_scope_stack b !! depth with
      | Some scope => set_b_scopes (<[depth := scope ++ [MkLive slot ty span]]> (b_scope_stack b)) b
      | None => b
      end).

(** [emit_drop_for_slot] and [emit_drop_for_param]. *)
Definition emit_drop_for_slot (live : LiveSlot) (span : Span) : BuildM () :=
  d ← needs_drop (ls_ty live);
  (if (d : bool) then
     v ← emit (GLoad (ls_slot live)) (ls_ty live) span; emit_unit (GDrop v) span
   else mret ());;
  emit_unit (GStorageDead (ls_slot live)) span.
Definition emit_drop_for_param (live : LiveParam) (span : Span) : BuildM () :=
  v ← emit (GParam (lp_param_slot live)) (lp_ty live) span; emit_unit (GDrop v) span.

(** A [for] loop that runs [f] on each element. *)
Definition for_each {A} (f : A → BuildM ()) (l : list A) : BuildM () := foldM (λ _ x, f x) () l.

(** [emit_drops_for_all_scopes] and [emit_drops_for_loop_exit]. *)
Definition lifo (scopes : list (list LiveSlot)) : list LiveSlot :=
  concat (map reverse (reverse scopes)).
Definition emit_drops_for_all_scopes (span : Span) : BuildM () :=
  scopes ← getb b_scope_stack;
  for_each (λ ls, emit_drop_for_slot ls span) (lifo scopes);;
  params ← getb b_live_params;
  for_each (λ lp, emit_drop_for_param lp span) (reverse params).
Definition emit_drops_for_loop_exit (target_depth : nat) (span : Span) : BuildM () :=
  scopes ← getb b_scope_stack;
  for_each (λ ls, emit_drop_for_slot ls span) (lifo (drop target_depth scopes)).

(** ** Pattern tests *)

(** [read_projected], [enum_discriminant_type]. *)
Definition read_projected (slot : Z) (ty : Ty) (projection : list Projection) (span : Span)
    : BuildM CfgValue :=
  place ← cfg_do (cfg_make_place (Local slot) projection); emit (GPlaceRead place) ty span.
Definition enum_discriminant_type (ty : Ty) : BuildM Ty :=
  match as_enum ty with
  | Some enum_id => d ← lift_b (enum_def type_pool enum_id); mret (discriminant_type d)
  | None => mret Ty.I32
  end.

(** The chain of tests of a composite pattern: every test but the last continues in a
    fresh block, the last one in [matched]. *)
Fixpoint test_chain (matched : BlockId) (tests : list (BlockId → BuildM ())) : BuildM () :=
  match tests with
  | [] => mret ()
  | [test] => test matched
  | test :: tests => next ← cfg_do new_block; test next;; set_current next;; test_chain matched tests
  end.

(** The discriminant comparison of an enum arm. *)
Definition discriminant_cond (scrut : Scrutinee) (variant_index : Z) (span : Span)
    : BuildM CfgValue :=
  disc_ty ← enum_discriminant_type (scr_ty scrut);
  val ← read_projected (scr_slot scrut) (scr_ty scrut) (scr_projection scrut) span;
  disc ← emit (GGetDiscriminant val) disc_ty span;
  lit ← emit (GConst variant_index) disc_ty span;
  emit (GBin Eq disc lit) Ty.BOOL span.

(** The test of one payload field, spilled to a slot of its own; a field comes with its
    index, its sub-pattern and the test of that. *)
Definition EnumField : Type := Z * AirPattern Spur * (Scrutinee → BranchTargets → BuildM ()).
Definition emit_payload_test (variant_def : EnumVariantDef) (base_val : CfgValue) (variant_index : Z)
    (unmatched : BlockId) (span : Span) (f : EnumField) (next : BlockId) : BuildM () :=
  field_ty ← lift_b (expect (ev_fields variant_def !! Z.to_nat f.1.1));
  field_val ← emit (GEnumPayloadGet base_val variant_index f.1.1) field_ty span;
  field_slot ← cfg_do alloc_temp_local;
  emit_unit (GStorageLive field_slot) span;;
  emit_unit (GAlloc field_slot field_val) span;;
  f.2 (MkScrutinee field_slot field_ty []) (MkTargets next unmatched).

(** The fields whose pattern needs a test. *)
Definition non_trivial (fields : list EnumField) : list EnumField :=
  filter (λ f, is_trivial_pattern f.1.2 = false) fields.
(** [emit_enum_field_tests]. *)
Definition emit_enum_field_tests (scrut : Scrutinee) (variant_index : Z) (fields : list EnumField)
    (targets : BranchTargets) (span : Span) : BuildM () :=
  enum_id ← lift_b (expect (as_enum (scr_ty scrut)));
  def ← lift_b (enum_def type_pool enum_id);
  variant_def ← lift_b (expect (ed_variants def !! Z.to_nat variant_index));
  match non_trivial fields with
  | [] => goto (bt_matched targets) []
  | _ =>
      base_val ← read_projected (scr_slot scrut) (scr_ty scrut) (scr_projection scrut) span;
      test_chain (bt_matched targets)
        (map (emit_payload_test variant_def base_val variant_index (bt_unmatched targets) span)
           (non_trivial fields))
  end.

(** The enum-variant arms of [emit_pattern_test]. *)
Definition emit_variant_test (scrut : Scrutinee) (variant_index : Z)
    (fields : list EnumField) (targets : BranchTargets) (span : Span) : BuildM () :=
  let all_trivial := forallb (λ f, is_trivial_pattern f.1.2) fields in
  cond ← discriminant_cond scrut variant_index span;
  if all_trivial then branch_to cond (bt_matched targets) (bt_unmatched targets)
  else
    checked ← cfg_do new_block;
    branch_to cond checked (bt_unmatched targets);;
    set_current checked;;
    emit_enum_field_tests scrut variant_index fields targets span.

(** The test of one field of a struct-shaped scrutinee, reached by projection. *)
Definition emit_field_test (struct_id : Z) (scrut : Scrutinee) (position : nat) (field_index : Z)
    (test : Scrutinee → BranchTargets → BuildM ()) (unmatched next : BlockId) : BuildM () :=
  def ← lift_b (struct_def type_pool struct_id);
  field ← lift_b (expect (sd_fields def !! position));
  test (MkScrutinee (scr_slot scrut) (sf_ty field)
          (scr_projection scrut ++ [ProjField struct_id field_index]))
    (MkTargets next unmatched).

(** [emit_pattern_test]. *)
Fixpoint emit_pattern_test (pattern : AirPattern Spur) (span : Span) (scrut : Scrutinee)
    (targets : BranchTargets) : BuildM () :=
  let scr_ty := scr_ty scrut in
  let compare (lit : CfgInstData Spur) (lit_ty : Ty) : BuildM () :=
    val ← read_projected (scr_slot scrut) scr_ty (scr_projection scrut) span;
    lit ← emit lit lit_ty span;
    cond ← emit (GBin Eq val lit) Ty.BOOL span;
    branch_to cond (bt_matched targets) (bt_unmatched targets) in
  match pattern with
  | Wildcard => goto (bt_matched targets) []
  | PInt n => compare (GConst (wrap 64 n)) scr_ty
  | PBool b => compare (GBoolConst b) Ty.BOOL
  | PEnumVariant _ variant_index | PEnumUnitVariant _ variant_index =>
      cond ← discriminant_cond scrut variant_index span;
      branch_to cond (bt_matched targets) (bt_unmatched targets)
  | PEnumDataVariant _ variant_index fields =>
      emit_variant_test scrut variant_index
        (imap (λ i t, (wrap 32 (Z.of_nat i), t.1, t.2))
           (map (λ q, (q, emit_pattern_test q span)) fields)) targets span
  | PEnumStructVariant _ variant_index fields =>
      emit_variant_test scrut variant_index
        (map (λ '(idx, q), (idx, q, emit_pattern_test q span)) fields) targets span
  | PTuple elems =>
      struct_id ← lift_b (expect (as_struct scr_ty));
      lift_b (struct_def type_pool struct_id);;
      test_chain (bt_matched targets)
        (imap (λ i test, emit_field_test struct_id scrut i (wrap 32 (Z.of_nat i)) test (bt_unmatched targets))
           (map (λ q, emit_pattern_test q span) elems))
  | PStruct struct_id fields =>
      test_chain (bt_matched targets)
        (map (λ '(idx, q), emit_field_test struct_id scrut (Z.to_nat idx) idx (emit_pattern_test q span)
                             (bt_unmatched targets)) fields)
  | PBind _ _ (Some inner) => emit_pattern_test inner span scrut targets
  | PBind _ _ None => goto (bt_matched targets) []
  end.

(** ** The arms of [lower_inst]

    [lower_inst] is the recursive call; [try_trace_place] is closed over it below. *)
Section Arms.
Context (lower_inst : AirRef → BuildM ExprResult).
Definition TracedPlace : Type := option (PlaceBase * list (Projection * option CfgValue)).
Context (try_trace_place : AirRef → BuildM TracedPlace).
Context (air_ref : AirRef) (ty : Ty) (span : Span).

(** [lower_value]. *)
Definition lower_value (r : AirRef) : BuildM (option CfgValue) :=
  result ← lower_inst r; mret (if is_diverged result then None else er_value result).
(** A loop of [lower_value] that stops at the first operand that diverges. *)
Fixpoint lower_values (refs : list AirRef) : BuildM (option (list CfgValue)) :=
  match refs with
  | [] => mret (Some [])
  | r :: refs => v ←! lower_value r; vs ←! lower_values refs; mret (Some (v :: vs))
  end.
Definition lower_option (r : option AirRef) : BuildM (option (option CfgValue)) :=
  match r with Some r => v ←! lower_value r; mret (Some (Some v)) | None => mret (Some None) end.

(** An arm that only emits an instruction. *)
Definition lower_emit (data : CfgInstData Spur) : BuildM ExprResult :=
  value ← emit data ty span; cached air_ref value.
(** An arm with one operand that produces a value, and one that does not. *)
Definition lower_unary (mk : CfgValue → CfgInstData Spur) (operand : AirRef) : BuildM ExprResult :=
  v ←? lower_value operand; lower_emit (mk v).
Definition lower_store (mk : CfgValue → CfgInstData Spur) (value : AirRef) : BuildM ExprResult :=
  v ←? lower_value value; emit_unit (mk v) span;; mret (continues None).

Definition lower_bin (op : BinOp) (lhs rhs : AirRef) : BuildM ExprResult :=
  l ←? lower_value lhs; r ←? lower_value rhs; lower_emit (GBin op l r).

(** [BinOp::And] and [BinOp::Or]. *)
Definition lower_and (lhs rhs : AirRef) : BuildM ExprResult :=
  lhs_val ←? lower_value lhs;
  rhs_block ← cfg_do new_block;
  join_block ← cfg_do new_block;
  result_param ← cfg_do (add_block_param join_block Ty.BOOL);
  false_val ← emit (GBoolConst false) Ty.BOOL span;
  '(ts, tl) ← cfg_do (push_extra []);
  '(es, el) ← cfg_do (push_extra [false_val]);
  terminate (TBranch lhs_val rhs_block ts tl join_block es el);;
  set_current rhs_block;;
  rhs_val ←? lower_value rhs;
  goto join_block [rhs_val];;
  set_current join_block;;
  cached air_ref result_param.
Definition lower_or (lhs rhs : AirRef) : BuildM ExprResult :=
  lhs_val ←? lower_value lhs;
  rhs_block ← cfg_do new_block;
  join_block ← cfg_do new_block;
  result_param ← cfg_do (add_block_param join_block Ty.BOOL);
  true_val ← emit (GBoolConst true) Ty.BOOL span;
  '(ts, tl) ← cfg_do (push_extra [true_val]);
  '(es, el) ← cfg_do (push_extra []);
  terminate (TBranch lhs_val join_block ts tl rhs_block es el);;
  set_current rhs_block;;
  rhs_val ←? lower_value rhs;
  goto join_block [rhs_val];;
  set_current join_block;;
  cached air_ref result_param.

(** [lower_air_place] and [lower_air_lvalue_place]. *)
Fixpoint lower_projections (projs : list AirProjection) : BuildM (option (list Projection)) :=
  match projs with
  | [] => mret (Some [])
  | Field struct_id field_index :: projs =>
      ps ←! lower_projections projs; mret (Some (ProjField struct_id field_index :: ps))
  | Index array_type index :: projs =>
      v ←! lower_value index; ps ←! lower_projections projs;
      mret (Some (ProjIndex array_type v :: ps))
  end.
Definition lower_air_place (place_ref : AirPlaceRef) : BuildM (option Place) :=
  air_place ← lift_b (get_place air place_ref);
  projs ← lift_b (get_place_projections air air_place);
  cfg_projections ←! lower_projections projs;
  place ← cfg_do (cfg_make_place (pl_base air_place) cfg_projections);
  mret (Some place).
Definition lower_air_lvalue_place (r : AirRef) : BuildM (option Place) :=
  inst ← air_inst r;
  match i_data inst with
  | ILoad slot => mret (Some (cfg_place_local slot))
  | IPlaceRead place => lower_air_place place
  | IParam index => mret (Some (cfg_place_param index))
  | _ => lift_b Panic
  end.

Definition lower_make_ref (operand : AirRef) (is_mut : bool) : BuildM ExprResult :=
  place ←? lower_air_lvalue_place operand; lower_emit (GMakeRef place is_mut).
Definition lower_make_slice (base : AirRef) (lo hi : option AirRef) (is_mut : bool)
    : BuildM ExprResult :=
  place ←? lower_air_lvalue_place base;
  base_ty ← air_ty base;
  k ← lift_b (kind base_ty);
  array_len ← match k with
              | TypeKind.Array id => '(_, len) ← lift_b (array_def type_pool id); mret len
              | _ => mret 0
              end;
  let vec_base := match k with TypeKind.Vec _ => true | _ => false end in
  lo_val ←? lower_option lo;
  hi_val ←? lower_option hi;
  lower_emit (GMakeSlice (MkMakeSlice place array_len lo_val hi_val is_mut vec_base)).

Definition lower_alloc (slot : Z) (init : AirRef) : BuildM ExprResult :=
  forget_consumed_value init;;
  init_result ← lower_inst init;
  init_val ← match er_value init_result with
             | Some v => mret v
             | None => emit (GConst 0) Ty.UNIT span
             end;
  emit_unit (GAlloc slot init_val) span;;
  mret (continues None).

(** Drops the value a store overwrites. *)
Definition lower_store_slot (slot : Z) (value : AirRef) (had_live_value : bool)
    : BuildM ExprResult :=
  val ←? lower_value value;
  value_ty ← air_ty value;
  (if had_live_value then
     d ← needs_drop value_ty;
     if (d : bool) then old ← emit (GLoad slot) value_ty span; emit_unit (GDrop old) span
     else mret ()
   else mret ());;
  (if negb had_live_value then
     d ← needs_drop value_ty; if (d : bool) then re_add_local_slot slot value_ty span else mret ()
   else mret ());;
  emit_unit (GStore slot val) span;;
  mret (continues None).

(** [forget_consumed_value] on the arguments passed by value. *)
Definition forget_args (args : list AirCallArg) : BuildM () :=
  for_each (λ a, match ca_mode a with
                 | ArgNormal => forget_consumed_value (ca_value a)
                 | _ => mret ()
                 end) args.
Definition cfg_args (args : list AirCallArg) (vals : list CfgValue) : list CfgCallArg :=
  zip_with (λ a v, MkCfgArg v (cfg_mode_from (ca_mode a))) args vals.

Definition lower_call (name : Spur) (args_start args_len : Z) : BuildM ExprResult :=
  air_call_args ← lift_b (get_call_args air args_start args_len);
  vals ←? lower_values (map ca_value air_call_args);
  forget_args air_call_args;;
  '(s, l) ← cfg_do (push_call_args (cfg_args air_call_args vals));
  lower_emit (GCall name s l).

Definition lower_method_call_dyn (interface_id slot : Z) (recv : AirRef) (args_start args_len : Z)
    : BuildM ExprResult :=
  recv_val ←? lower_value recv;
  air_call_args ← lift_b (get_call_args air args_start args_len);
  vals ←? lower_values (map ca_value air_call_args);
  forget_args air_call_args;;
  '(s, l) ← cfg_do (push_call_args (cfg_args air_call_args vals));
  lower_emit (GMethodCallDyn interface_id slot recv_val s l).

Definition lower_intrinsic (name : Spur) (args_start args_len : Z) : BuildM ExprResult :=
  arg_refs ← lift_b (get_air_refs air args_start args_len);
  arg_vals ←? lower_values arg_refs;
  let intrinsic_name := resolve name in
  (if bool_decide (intrinsic_name = "vec_dispose"%string) then
     match arg_refs with first :: _ => forget_consumed_value first | [] => mret () end
   else mret ());;
  '(s, l) ← cfg_do (push_extra arg_vals);
  value ← emit (GIntrinsic name s l) ty span;
  cache air_ref value;;
  (if bool_decide (intrinsic_name = "spawn"%string) then
     match spawn_target air air_ref with
     | Some t => cfg_do (cfg_record_spawn_target value
                   (MkCfgSpawn (sw_worker_fn t) (sw_arg_type t) (sw_return_type t)))
     | None => mret ()
     end
   else mret ());;
  if is_never ty then terminate TUnreachable;; mret diverged
  else mret (continues (Some value)).

(** [StructInit]: the fields are lowered in source order and stored in declaration order. *)
Definition lower_field (fields : list AirRef) (lowered : list (option CfgValue)) (decl_idx : Z)
    : BuildM (option (list (option CfgValue))) :=
  field ← lift_b (index fields (Z.to_nat decl_idx));
  v ←! lower_value field;
  mret (Some (<[Z.to_nat decl_idx := Some v]> lowered)).
Fixpoint lower_fields (fields : list AirRef) (order : list Z) (lowered : list (option CfgValue))
    : BuildM (option (list (option CfgValue))) :=
  match order with
  | [] => mret (Some lowered)
  | i :: order => lowered' ←! lower_field fields lowered i; lower_fields fields order lowered'
  end.
Definition lower_struct_init (struct_id fields_start fields_len source_order_start : Z)
    : BuildM ExprResult :=
  '(fields, source_order) ← lift_b (get_struct_init air fields_start fields_len source_order_start);
  lowered_fields ←? lower_fields fields source_order (replicate (length fields) None);
  for_each forget_consumed_value fields;;
  field_vals ← lift_b (mapM expect lowered_fields);
  '(s, l) ← cfg_do (push_extra field_vals);
  lower_emit (GStructInit struct_id s l).

(** [lower_place_read], and the spill of a computed base into a temporary. *)
Definition lower_place_read : BuildM (option CfgValue) :=
  traced ←! try_trace_place air_ref;
  place ← cfg_do (cfg_make_place traced.1 (map fst traced.2));
  value ← emit (GPlaceRead place) ty span;
  mret (Some value).
Definition spill_and_read (base_val : CfgValue) (proj : Projection) : BuildM ExprResult :=
  temp_slot ← cfg_do alloc_temp_local;
  emit_unit (GStorageLive temp_slot) span;;
  emit_unit (GAlloc temp_slot base_val) span;;
  place ← cfg_do (cfg_make_place (Local temp_slot) [proj]);
  value ← emit (GPlaceRead place) ty span;
  emit_unit (GStorageDead temp_slot) span;;
  cached air_ref value.
Definition lower_field_get (base : AirRef) (struct_id field_index : Z) : BuildM ExprResult :=
  read ← lower_place_read;
  match read with
  | Some value => cached air_ref value
  | None =>
      base_val ←? lower_value base;
      spill_and_read base_val (ProjField struct_id field_index)
  end.
Definition lower_index_get (base : AirRef) (array_type : Ty) (index : AirRef) : BuildM ExprResult :=
  read ← lower_place_read;
  match read with
  | Some value => cached air_ref value
  | None =>
      base_val ←? lower_value base;
      index_val ←? lower_value index;
      spill_and_read base_val (ProjIndex array_type index_val)
  end.
Definition lower_index_set (mk : CfgValue → CfgValue → CfgInstData Spur) (index value : AirRef)
    : BuildM ExprResult :=
  index_val ←? lower_value index;
  val ←? lower_value value;
  emit_unit (mk index_val val) span;;
  mret (continues None).

Definition lower_array_init (elems_start elems_len : Z) : BuildM ExprResult :=
  elems ← lift_b (get_air_refs air elems_start elems_len);
  vals ←? lower_values elems;
  for_each forget_consumed_value elems;;
  '(s, l) ← cfg_do (push_extra vals);
  lower_emit (GArrayInit s l).
Definition lower_enum_create (enum_id variant_index fields_start fields_len : Z)
    : BuildM ExprResult :=
  fields ← lift_b (get_air_refs air fields_start fields_len);
  vals ←? lower_values fields;
  for_each forget_consumed_value fields;;
  '(s, l) ← cfg_do (push_extra vals);
  lower_emit (GEnumCreate enum_id variant_index s l).
Definition lower_enum_payload_get (base : AirRef) (variant_index field_index : Z)
    : BuildM ExprResult :=
  base_val ←? lower_value base;
  d ← needs_drop ty;
  (if (d : bool) then forget_consumed_value base else mret ());;
  lower_emit (GEnumPayloadGet base_val variant_index field_index).

Definition lower_place_write (place : AirPlaceRef) (value : AirRef) : BuildM ExprResult :=
  val ←? lower_value value;
  value_ty ← air_ty value;
  cfg_place ←? lower_air_place place;
  d ← needs_drop value_ty;
  (if (d : bool) then
     old ← emit (GPlaceRead cfg_place) value_ty span; emit_unit (GDrop old) span
   else mret ());;
  emit_unit (GPlaceWrite cfg_place val) span;;
  mret (continues None).
Definition lower_drop (value : AirRef) : BuildM ExprResult :=
  val ←? lower_value value;
  val_ty ← air_ty value;
  d ← needs_drop val_ty;
  (if (d : bool) then emit_unit (GDrop val) span else mret ());;
  mret (continues None).
Definition lower_storage_live (slot : Z) : BuildM ExprResult :=
  emit_unit (GStorageLive slot) span;;
  modb (λ b,
    let depth := (length (b_scope_stack b) - 1)%nat in
    let b := set_b_origin (<[slot := depth]> (b_slot_origin_depth b)) b in
    match b_scope_stack b !! depth with
    | Some scope => set_b_scopes (<[depth := scope ++ [MkLive slot ty span]]> (b_scope_stack b)) b
    | None => b
    end);;
  mret (continues None).

(** *** Blocks *)

(** A short-circuiting [iter().all(f)] for an [f] that can panic. *)
Fixpoint allM {A} (f : A → outcome bool) (l : list A) : outcome bool :=
  match l with
  | [] => mret true
  | x :: l => b ← f x; if (b : bool) then allM f l else mret false
  end.
Definition is_storage_live (r : AirRef) : outcome bool :=
  inst ← get_inst air r; mret (match i_data inst with IStorageLive _ => true | _ => false end).

Definition push_warning (w : Warning) : BuildM () :=
  modb (λ b, set_b_warnings (b_warnings b ++ [w]) b).
Definition air_span (r : AirRef) : BuildM Span := inst ← air_inst r; mret (i_span inst).

(** The warning about the first expression that follows a diverging statement. *)
Definition warn_unreachable (stmt : AirRef) (remaining : list AirRef) (value : AirRef) : BuildM () :=
  diverging_span ← air_span stmt;
  match remaining with
  | unreachable_stmt :: _ =>
      unreachable_span ← air_span unreachable_stmt;
      push_warning (MkWarning unreachable_span diverging_span)
  | [] =>
      value_span ← air_span value;
      if sp_start value_span =? sp_end value_span then mret ()
      else push_warning (MkWarning value_span diverging_span)
  end.

(** The statements of a block; [true] when one diverged. *)
Fixpoint lower_statements (statements : list AirRef) (value : AirRef) : BuildM bool :=
  match statements with
  | [] => mret false
  | stmt :: remaining =>
      result ← lower_inst stmt;
      if is_diverged result then warn_unreachable stmt remaining value;; mret true
      else lower_statements remaining value
  end.

(** The drops at the end of a block: as [emit_drop_for_slot], at the span of the slot. *)
Definition emit_scope_end (live : LiveSlot) : BuildM () := emit_drop_for_slot live (ls_span live).

Definition push_scope : BuildM () := modb (λ b, set_b_scopes (b_scope_stack b ++ [[]]) b).
(** [self.scope_stack.pop()]. *)
Definition pop_scope : BuildM (option (list LiveSlot)) := λ b,
  match list.last (b_scope_stack b) with
  | Some scope =>
      Done (Some scope,
            set_b_scopes (take (length (b_scope_stack b) - 1) (b_scope_stack b)) b)
  | None => Done (None, b)
  end.

Definition lower_block (stmts_start stmts_len : Z) (value : AirRef) : BuildM ExprResult :=
  statements ← lift_b (get_air_refs air stmts_start stmts_len);
  is_storage_live_wrapper ← lift_b (allM is_storage_live statements);
  (if is_storage_live_wrapper : bool then mret () else push_scope);;
  stopped ← lower_statements statements value;
  if (stopped : bool) then mret diverged
  else
    result ← lower_inst value;
    (if is_storage_live_wrapper : bool then mret () else forget_consumed_value value);;
    (if is_storage_live_wrapper : bool then mret ()
     else
       scope ← pop_scope;
       match scope with
       | Some scope_slots =>
           if is_diverged result then mret () else for_each emit_scope_end (reverse scope_slots)
       | None => mret ()
       end);;
    mret result.

(** *** Branches and loops *)

(** The arguments an arm passes to the join block. *)
Definition join_args (result_param : option CfgValue) (value : option CfgValue) : list CfgValue :=
  match value with
  | Some val => match result_param with Some _ => [val] | None => [] end
  | None => []
  end.
(** The parameter of the join block, for a result type that has values. *)
Definition join_param (join_block : BlockId) (result_type : Ty) : BuildM (option CfgValue) :=
  if decide (result_type ≠ Ty.UNIT ∧ result_type ≠ Ty.NEVER)
  then v ← cfg_do (add_block_param join_block result_type); mret (Some v) else mret None.
Definition wire_join (join_block : BlockId) (result_param : option CfgValue)
    (arm : BlockId * ExprResult) : BuildM () :=
  if is_diverged arm.2 then mret ()
  else goto_from arm.1 join_block (join_args result_param (er_value arm.2)).
Definition enter_join (join_block : BlockId) (result_param : option CfgValue) : BuildM ExprResult :=
  set_current join_block;;
  match result_param with Some param => cache air_ref param | None => mret () end;;
  mret (continues result_param).

(** Lowers [r] in [block]; returns the block it ends in. *)
Definition lower_in (block : BlockId) (r : AirRef) : BuildM (BlockId * ExprResult) :=
  set_current block;; result ← lower_inst r; exit ← getb b_current_block; mret (exit, result).

Definition lower_branch (cond then_value : AirRef) (else_value : option AirRef)
    : BuildM ExprResult :=
  cond_val ←? lower_value cond;
  then_block ← cfg_do new_block;
  else_block ← cfg_do new_block;
  join_block ← cfg_do new_block;
  then_type ← air_ty then_value;
  else_type ← match else_value with Some e => t ← air_ty e; mret (Some t) | None => mret None end;
  branch_to cond_val then_block else_block;;
  then_arm ← lower_in then_block then_value;
  else_arm ← match else_value with
    | Some else_val => lower_in else_block else_val
    | None =>
        set_current else_block;;
        unit_val ← emit (GConst 0) Ty.UNIT span;
        exit ← getb b_current_block;
        mret (exit, continues (Some unit_val))
    end;
  if is_diverged then_arm.2 && is_diverged else_arm.2 then
    cfg_do (set_terminator join_block TUnreachable);; mret diverged
  else
    let result_type := if is_never then_type then default Ty.UNIT else_type else then_type in
    result_param ← join_param join_block result_type;
    wire_join join_block result_param then_arm;;
    wire_join join_block result_param else_arm;;
    enter_join join_block result_param.

(** The innermost loop is the head of the stack. *)
Definition push_loop (header exit : BlockId) : BuildM () :=
  modb (λ b, set_b_loops (MkLoop header exit (length (b_scope_stack b)) :: b_loop_stack b) b).
Definition pop_loop : BuildM () := modb (λ b, set_b_loops (tail (b_loop_stack b)) b).

(** The body of a loop, with the jump back to its header. *)
Definition lower_loop_body (header : BlockId) (body : AirRef) : BuildM () :=
  body_result ← lower_inst body;
  if is_diverged body_result then mret () else goto header [].

Definition lower_loop (cond body : AirRef) : BuildM ExprResult :=
  header_block ← cfg_do new_block;
  body_block ← cfg_do new_block;
  exit_block ← cfg_do new_block;
  goto header_block [];;
  push_loop header_block exit_block;;
  set_current header_block;;
  cond_val ←? lower_value cond;
  branch_to cond_val body_block exit_block;;
  set_current body_block;;
  lower_loop_body header_block body;;
  pop_loop;;
  set_current exit_block;;
  unit_val ← emit (GConst 0) Ty.UNIT span;
  mret (continues (Some unit_val)).

Definition lower_infinite_loop (body : AirRef) : BuildM ExprResult :=
  body_block ← cfg_do new_block;
  exit_block ← cfg_do new_block;
  goto body_block [];;
  push_loop body_block exit_block;;
  set_current body_block;;
  lower_loop_body body_block body;;
  pop_loop;;
  set_current exit_block;;
  terminate TUnreachable;;
  unit_val ← emit (GConst 0) Ty.UNIT span;
  mret (continues (Some unit_val)).

(** [Break] and [Continue]: [target] selects the block of the innermost loop. *)
Definition lower_jump (target : LoopContext → BlockId) : BuildM ExprResult :=
  loops ← getb b_loop_stack;
  loop_ctx ← lift_b (expect (head loops));
  emit_drops_for_loop_exit (lc_scope_depth loop_ctx) span;;
  goto (target loop_ctx) [];;
  mret diverged.

Definition lower_ret (value : option AirRef) : BuildM ExprResult :=
  val ←? match value with
    | Some v =>
        result ← lower_inst v;
        if is_diverged result then mret None
        else forget_consumed_value v;; mret (Some (er_value result))
    | None => mret (Some None)
    end;
  emit_drops_for_all_scopes span;;
  terminate (TReturn val);;
  mret diverged.

(** *** Matches *)

(** The type of the first arm that is not [!]. *)
Fixpoint match_result_type (arms : list (AirPattern Spur * AirRef)) : BuildM Ty :=
  match arms with
  | [] => mret Ty.NEVER
  | (_, body) :: arms =>
      t ← air_ty body; if is_never t then match_result_type arms else mret t
  end.

(** The patterns a switch cannot dispatch. *)
Definition is_cascading (pattern : AirPattern Spur) : bool :=
  match pattern with
  | PTuple _ | PStruct _ _ | PBind _ _ _ => true
  | PEnumDataVariant _ _ fields => existsb (λ f, negb (is_trivial_pattern f)) fields
  | PEnumStructVariant _ _ fields => existsb (λ f, negb (is_trivial_pattern f.2)) fields
  | _ => false
  end.
Definition needs_cascading (arms : list (AirPattern Spur * AirRef)) : bool :=
  existsb (λ arm, is_cascading arm.1) arms.

(** [lower_match_arm_bodies_and_join]; the switch path of the handler repeats it. *)
Definition lower_match_arm_bodies_and_join (arms : list (AirPattern Spur * AirRef))
    (arm_blocks : list BlockId) (join_block : BlockId) (result_type : Ty) : BuildM ExprResult :=
  arm_results ← mapM (λ '(arm, block), lower_in block arm.2) (zip arms arm_blocks);
  if forallb (λ arm, is_diverged arm.2) arm_results then
    cfg_do (set_terminator join_block TUnreachable);; mret diverged
  else
    result_param ← join_param join_block result_type;
    for_each (wire_join join_block result_param) arm_results;;
    enter_join join_block result_param.

(** The tests of the arms in order, each falling through to the next one. *)
Fixpoint emit_arm_tests (scrut : Scrutinee) (fallback : BlockId)
    (arms : list (AirPattern Spur * BlockId * BlockId)) : BuildM () :=
  match arms with
  | [] => mret ()
  | (pattern, arm_block, test_block) :: arms =>
      let fallthrough := match arms with (_, _, next) :: _ => next | [] => fallback end in
      set_current test_block;;
      emit_pattern_test pattern span scrut (MkTargets arm_block fallthrough);;
      emit_arm_tests scrut fallback arms
  end.
Definition emit_cascade (scrutinee_val : CfgValue) (scrutinee_ty : Ty)
    (patterns : list (AirPattern Spur)) (arm_blocks : list BlockId) : BuildM () :=
  scr_slot ← cfg_do alloc_temp_local;
  emit_unit (GStorageLive scr_slot) span;;
  emit_unit (GAlloc scr_slot scrutinee_val) span;;
  test_blocks ← mapM (λ _, cfg_do new_block) patterns;
  fallback ← cfg_do new_block;
  cfg_do (set_terminator fallback TUnreachable);;
  '(s, l) ← cfg_do (push_extra []);
  first ← lift_b (index test_blocks 0);
  terminate (TGoto first s l);;
  emit_arm_tests (MkScrutinee scr_slot scrutinee_ty []) fallback
    (zip (zip patterns arm_blocks) test_blocks).

(** The cases of the switch: stops at a wildcard, which is the default. *)
Fixpoint switch_cases (patterns : list (AirPattern Spur)) (arm_blocks : list BlockId)
    : outcome (list (Z * BlockId) * option BlockId) :=
  match patterns, arm_blocks with
  | pattern :: patterns, block :: arm_blocks =>
      let case (v : Z) :=
        '(cases, default_block) ← switch_cases patterns arm_blocks;
        mret ((v, block) :: cases, default_block) in
      match pattern with
      | Wildcard => mret ([], Some block)
      | PInt n => case n
      | PBool b => case (if b then 1 else 0)
      | PEnumVariant _ variant_index | PEnumUnitVariant _ variant_index
      | PEnumDataVariant _ variant_index _ | PEnumStructVariant _ variant_index _ =>
          case variant_index
      | PBind _ _ _ | PTuple _ | PStruct _ _ => Panic
      end
  | _, _ => mret ([], None)
  end.
(** Without a wildcard the last case becomes the default. *)
Definition split_default (cases : list (Z * BlockId)) (default_block : option BlockId)
    : outcome (list (Z * BlockId) * BlockId) :=
  match default_block with
  | Some block => mret (cases, block)
  | None =>
      last ← expect (list.last cases);
      mret (take (length cases - 1) cases, last.2)
  end.
Definition emit_switch (scrutinee_val : CfgValue) (patterns : list (AirPattern Spur))
    (arm_blocks : list BlockId) : BuildM () :=
  '(all_cases, default_block) ← lift_b (switch_cases patterns arm_blocks);
  '(cases, default) ← lift_b (split_default all_cases default_block);
  '(s, l) ← cfg_do (push_switch_cases cases);
  terminate (TSwitch scrutinee_val s l default).

Definition lower_match (scrutinee : AirRef) (arms_start arms_len : Z) : BuildM ExprResult :=
  scrutinee_val ←? lower_value scrutinee;
  scrutinee_ty ← air_ty scrutinee;
  if arms_len =? 0 then terminate TUnreachable;; mret diverged
  else
    arms ← lift_b (get_match_arms air arms_start arms_len);
    arm_blocks ← mapM (λ _, cfg_do new_block) arms;
    join_block ← cfg_do new_block;
    result_type ← match_result_type arms;
    (if needs_cascading arms
     then emit_cascade scrutinee_val scrutinee_ty (map fst arms) arm_blocks
     else emit_switch scrutinee_val (map fst arms) arm_blocks);;
    lower_match_arm_bodies_and_join arms arm_blocks join_block result_type.

(** ** [lower_inst] *)
Definition lower_data (data : AirInstData (Spur := Spur)) : BuildM ExprResult :=
  match data with
  | IConst v => lower_emit (GConst v)
  | IFloatConst bits => lower_emit (GFloatConst bits)
  | IBoolConst v => lower_emit (GBoolConst v)
  | IStringConst id => lower_emit (GStringConst id)
  | IBytesConst id => lower_emit (GBytesConst id)
  | IUnitConst => lower_emit (GConst 0)
  | ITypeConst _ => mret (continues None)
  | ICallGeneric _ _ _ _ _ => lift_b Panic
  | IParam index => lower_emit (GParam index)
  | IBin And lhs rhs => lower_and lhs rhs
  | IBin Or lhs rhs => lower_or lhs rhs
  | IBin op lhs rhs => lower_bin op lhs rhs
  | IUnary op operand => lower_unary (GUnary op) operand
  | IMakeRef operand is_mut => lower_make_ref operand is_mut
  | IMakeSlice base lo hi is_mut => lower_make_slice base lo hi is_mut
  | IAlloc slot init => lower_alloc slot init
  | ILoad slot => lower_emit (GLoad slot)
  | IStore slot value had_live_value => lower_store_slot slot value had_live_value
  | IParamStore param_slot value => lower_store (GParamStore param_slot) value
  | IRefStore slot value => lower_store (GRefStore slot) value
  | ICall name args_start args_len => lower_call name args_start args_len
  | IIntrinsic name args_start args_len => lower_intrinsic name args_start args_len
  | IStructInit struct_id fields_start fields_len source_order_start =>
      lower_struct_init struct_id fields_start fields_len source_order_start
  | IFieldGet base struct_id field_index => lower_field_get base struct_id field_index
  | IFieldSet slot struct_id field_index value =>
      lower_store (GFieldSet slot struct_id field_index) value
  | IParamFieldSet param_slot inner_offset struct_id field_index value =>
      lower_store (GParamFieldSet param_slot inner_offset struct_id field_index) value
  | IBlock stmts_start stmts_len value => lower_block stmts_start stmts_len value
  | IBranch cond then_value else_value => lower_branch cond then_value else_value
  | ILoop cond body => lower_loop cond body
  | IInfiniteLoop body => lower_infinite_loop body
  | IMatch scrutinee arms_start arms_len => lower_match scrutinee arms_start arms_len
  | IBreak => lower_jump lc_exit
  | IContinue => lower_jump lc_header
  | IRet value => lower_ret value
  | IArrayInit elems_start elems_len => lower_array_init elems_start elems_len
  | IIndexGet base array_type index => lower_index_get base array_type index
  | IIndexSet slot array_type index value => lower_index_set (GIndexSet slot array_type) index value
  | IParamIndexSet param_slot array_type index value =>
      lower_index_set (GParamIndexSet param_slot array_type) index value
  | IPlaceRead place =>
      cfg_place ←? lower_air_place place; lower_emit (GPlaceRead cfg_place)
  | IPlaceWrite place value => lower_place_write place value
  | IEnumVariant enum_id variant_index => lower_emit (GEnumVariant enum_id variant_index)
  | IEnumCreate enum_id variant_index fields_start fields_len =>
      lower_enum_create enum_id variant_index fields_start fields_len
  | IEnumPayloadGet base variant_index field_index =>
      lower_enum_payload_get base variant_index field_index
  | IIntCast value from_ty => lower_unary (λ v, GIntCast v from_ty) value
  | IFloatCast value from_ty => lower_unary (λ v, GFloatCast v from_ty) value
  | IIntToFloat value from_ty => lower_unary (λ v, GIntToFloat v from_ty) value
  | IFloatToInt value from_ty => lower_unary (λ v, GFloatToInt v from_ty) value
  | IDrop value => lower_drop value
  | IStorageLive slot => lower_storage_live slot
  | IStorageDead slot => emit_unit (GStorageDead slot) span;; mret (continues None)
  | IMethodCallDyn interface_id slot recv args_start args_len =>
      lower_method_call_dyn interface_id slot recv args_start args_len
  | IMakeInterfaceRef value struct_id interface_id =>
      lower_unary (λ v, GMakeInterfaceRef v struct_id interface_id) value
  end.
End Arms.

(** [try_trace_place]; [trace_fuel] bounds the chain of projections. *)
Fixpoint try_trace_place (lower_inst : AirRef → BuildM ExprResult) (trace_fuel : nat) (r : AirRef)
    : BuildM TracedPlace :=
  match trace_fuel with
  | O => λ _, NoFuel
  | S trace_fuel =>
      inst ← air_inst r;
      match i_data inst with
      | ILoad slot => mret (Some (Local slot, []))
      | IParam index => mret (Some (Param index, []))
      | IIndexGet base array_type index =>
          traced ←! try_trace_place lower_inst trace_fuel base;
          index_val ←! lower_value lower_inst index;
          mret (Some (traced.1, traced.2 ++ [(ProjIndex array_type index_val, Some index_val)]))
      | IFieldGet base struct_id field_index =>
          traced ←! try_trace_place lower_inst trace_fuel base;
          mret (Some (traced.1, traced.2 ++ [(ProjField struct_id field_index, None)]))
      | _ => mret None
      end
  end.

(** [lower_inst]: the cache first. *)
Fixpoint lower_inst (fuel : nat) (r : AirRef) : BuildM ExprResult :=
  match fuel with
  | O => λ _, NoFuel
  | S fuel =>
      cache ← getb b_value_cache;
      hit ← lift_b (index cache (Z.to_nat r));
      match hit with
      | Some value => mret (continues (Some value))
      | None =>
          inst ← air_inst r;
          lower_data (lower_inst fuel) (try_trace_place (lower_inst fuel) (S fuel))
            r (i_ty inst) (i_span inst) (i_data inst)
      end
  end.

End Build.

(** ** [CfgBuilder::build] *)
Section Entry.
Context {Spur : Type} `{Countable Spur} `{!SpurKey Spur}.
Context (type_pool : TypeInternPool (Spur := Spur)) (resolve : Spur → string) (type_fuel : nat).

(** [AnalyzedFunction]. *)
Record AnalyzedFunction : Type := MkFunction {
  fn_name : string;
  fn_air : Air (Spur := Spur);
  fn_num_locals : Z;
  fn_num_param_slots : Z;
  fn_param_modes : list AirParamMode;
  fn_param_slot_types : list Ty;
  fn_is_destructor : bool;
}.

(** The parameters that are dropped at the end: one entry per source parameter, at the
    first of its slots. *)
Fixpoint live_params_from (fuel : nat) (types : list Ty) (modes : list AirParamMode) (i : nat)
    : outcome (list LiveParam) :=
  match fuel with
  | O => NoFuel
  | S fuel =>
      match types !! i with
      | None => mret []
      | Some ty =>
          let by_ref := is_by_ref (default AirNormal (modes !! i)) in
          n ← abi_slot_count type_fuel type_pool ty;
          let slot_count := Z.to_nat (Z.max n 1) in
          d ← (if by_ref then mret false else type_needs_drop type_fuel type_pool ty);
          rest ← live_params_from fuel types modes (i + slot_count)%nat;
          mret (if (d : bool) then MkLiveParam (wrap 32 (Z.of_nat i)) ty :: rest else rest)
      end
  end.
Definition initial_live_params (func : AnalyzedFunction) : outcome (list LiveParam) :=
  if fn_is_destructor func then mret []
  else live_params_from (S (length (fn_param_slot_types func))) (fn_param_slot_types func)
         (fn_param_modes func) 0.

Definition initial_builder (func : AnalyzedFunction) (live_params : list LiveParam)
    : CfgBuilder (Spur := Spur) :=
  MkBuilder
    (new_cfg (return_type (fn_air func)) (fn_num_locals func) (fn_num_param_slots func)
       (fn_name func) (fn_param_modes func) (fn_param_slot_types func))
    0 [] (replicate (length (instructions (fn_air func))) None) [] [[]] ∅ live_params.

(** The body of [build] once the builder exists. *)
Definition build_body (fuel : nat) (air : Air (Spur := Spur)) : ST (CfgBuilder (Spur := Spur)) () :=
  entry ← cfg_do new_block;
  set_current entry;;
  cfg_do (modify (set_entry entry));;
  match instructions air with
  | [] => mret ()
  | _ =>
      lower_inst air type_pool resolve type_fuel fuel
        (wrap 32 (Z.of_nat (length (instructions air) - 1)));;
      mret ()
  end.

Definition build (fuel : nat) (func : AnalyzedFunction) : outcome (Cfg Spur * list Warning) :=
  live_params ← initial_live_params func;
  '(_, b) ← build_body fuel (fn_air func) (initial_builder func live_params);
  '(_, cfg) ← compute_predecessors (b_cfg b);
  mret (cfg, b_warnings b).
End Entry.
