(* ===== verification/CfgTheory.v ===== *)
(** * Well-formed control-flow graphs

    The invariant of the store of [Cfg]: every operand, block and payload range exists,
    blocks are numbered by their position, and every value is defined exactly once, in
    one block. Each operation keeps it; [compute_predecessors] inverts the edges. *)

From S2P Require Import Prelude Types LayoutTypes InternPool AirPattern Air ParamArena Cfg.

#[local] Open Scope Z_scope.

(** ** Sizes

    What an instruction may refer to depends only on the sizes of the vectors. *)
Record sizes : Set := MkSizes {
  n_blocks : Z; n_values : Z; n_extra : Z; n_call_args : Z; n_switch_cases : Z; n_projections : Z }.
Definition sizes_le (z z' : sizes) : Prop :=
  n_blocks z ≤ n_blocks z' ∧ n_values z ≤ n_values z' ∧ n_extra z ≤ n_extra z' ∧
  n_call_args z ≤ n_call_args z' ∧ n_switch_cases z ≤ n_switch_cases z' ∧
  n_projections z ≤ n_projections z'.
Definition zlen {A} (l : list A) : Z := Z.of_nat (length l).

#[export] Instance sizes_le_preorder : PreOrder sizes_le.
Proof. unfold sizes_le; split; red; intros; lia. Qed.

Definition val_ok (z : sizes) (v : CfgValue) : Prop := 0 ≤ v < n_values z.
Definition blk_ok (z : sizes) (b : BlockId) : Prop := 0 ≤ b < n_blocks z.
Definition range_ok (n start len : Z) : Prop := 0 ≤ start ∧ 0 ≤ len ∧ start + len ≤ n.
Definition place_ok (z : sizes) (pl : Place) : Prop :=
  range_ok (n_projections z) (cp_proj_start pl) (cp_proj_len pl).
Definition opt_ok (z : sizes) (v : option CfgValue) : Prop :=
  match v with Some v => val_ok z v | None => True end.
Definition proj_ok (z : sizes) (p : Projection) : Prop :=
  match p with ProjIndex _ v => val_ok z v | ProjField _ _ => True end.

Definition term_ok (z : sizes) (t : Terminator) : Prop :=
  match t with
  | TGoto target s l => blk_ok z target ∧ range_ok (n_extra z) s l
  | TBranch cond tb ts tl eb es el =>
      val_ok z cond ∧ blk_ok z tb ∧ range_ok (n_extra z) ts tl ∧ blk_ok z eb ∧
      range_ok (n_extra z) es el
  | TSwitch scrutinee s l d =>
      val_ok z scrutinee ∧ range_ok (n_switch_cases z) s l ∧ blk_ok z d
  | TReturn v => opt_ok z v
  | TUnreachable | TNone => True
  end.

Section Theory.
Context {Spur : Type}.
Notation Cfg := (Cfg Spur).
Implicit Types c : Cfg.

Definition inst_ok (z : sizes) (d : CfgInstData Spur) : Prop :=
  match d with
  | GConst _ | GFloatConst _ | GBoolConst _ | GStringConst _ | GBytesConst _ | GParam _
  | GBlockParam _ | GLoad _ | GStorageLive _ | GStorageDead _ | GEnumVariant _ _ => True
  | GBin _ l r => val_ok z l ∧ val_ok z r
  | GUnary _ v | GAlloc _ v | GStore _ v | GParamStore _ v | GRefStore _ v | GFieldSet _ _ _ v
  | GParamFieldSet _ _ _ _ v | GEnumPayloadGet v _ _ | GGetDiscriminant v | GIntCast v _
  | GFloatCast v _ | GIntToFloat v _ | GFloatToInt v _ | GDrop v | GMakeInterfaceRef v _ _ =>
      val_ok z v
  | GMakeRef pl _ | GPlaceRead pl => place_ok z pl
  | GMakeSlice m => place_ok z (ms_place m) ∧ opt_ok z (ms_lo m) ∧ opt_ok z (ms_hi m)
  | GPlaceWrite pl v => place_ok z pl ∧ val_ok z v
  | GCall _ s l => range_ok (n_call_args z) s l
  | GIntrinsic _ s l | GStructInit _ s l | GArrayInit s l | GEnumCreate _ _ s l =>
      range_ok (n_extra z) s l
  | GIndexSet _ _ i v | GParamIndexSet _ _ i v => val_ok z i ∧ val_ok z v
  | GMethodCallDyn _ _ v s l => val_ok z v ∧ range_ok (n_call_args z) s l
  end.

Definition sizes_of c : sizes :=
  MkSizes (zlen (c_blocks c)) (zlen (c_values c)) (zlen (c_extra c)) (zlen (c_call_args c))
    (zlen (c_switch_cases c)) (zlen (c_projections c)).

(** Every vector fits its 32-bit indices. *)
Definition small c : Prop :=
  let z := sizes_of c in
  n_blocks z < 2 ^ 32 ∧ n_values z < 2 ^ 32 ∧ n_extra z < 2 ^ 32 ∧ n_call_args z < 2 ^ 32 ∧
  n_switch_cases z < 2 ^ 32 ∧ n_projections z < 2 ^ 32.

(** The values a block defines: its parameters and its instructions. *)
Definition block_values (b : BasicBlock) : list CfgValue := map fst (bb_params b) ++ bb_insts b.

(** [cfg_ok z c]: everything in [c] is in range for the sizes [z]. *)
Record cfg_ok (z : sizes) c : Prop := {
  wf_ids i b : c_blocks c !! i = Some b → bb_id b = Z.of_nat i;
  wf_terms i b : c_blocks c !! i = Some b → term_ok z (bb_terminator b);
  wf_insts : Forall (λ i, inst_ok z (ci_data i)) (c_values c);
  wf_extra : Forall (val_ok z) (c_extra c);
  wf_call_args : Forall (λ a, val_ok z (cca_value a)) (c_call_args c);
  wf_switch_cases : Forall (λ x, blk_ok z x.2) (c_switch_cases c);
  wf_projections : Forall (proj_ok z) (c_projections c);
  wf_defs : concat (map block_values (c_blocks c)) ≡ₚ map Z.of_nat (seq 0 (length (c_values c)));
}.
Definition cfg_wf c : Prop := cfg_ok (sizes_of c) c.

(** ** Growth: vectors are only appended to, slots only added, the entry stays *)
Definition cgrows c c' : Prop :=
  zlen (c_blocks c) ≤ zlen (c_blocks c') ∧ c_values c `prefix_of` c_values c' ∧
  c_extra c `prefix_of` c_extra c' ∧ c_call_args c `prefix_of` c_call_args c' ∧
  c_switch_cases c `prefix_of` c_switch_cases c' ∧ c_projections c `prefix_of` c_projections c' ∧
  c_entry c' = c_entry c ∧ c_num_locals c ≤ c_num_locals c'.
#[export] Instance cgrows_preorder : PreOrder cgrows.
Proof.
  unfold cgrows; split; [intros c; by split_and!|]. intros c1 c2 c3 (?&?&?&?&?&?&?&?) (?&?&?&?&?&?&?&?).
  split_and!; first [by etransitivity|congruence].
Qed.

Lemma prefix_zlen {A} (l k : list A) : l `prefix_of` k → zlen l ≤ zlen k.
Proof. intros ?%prefix_length. unfold zlen. lia. Qed.
Lemma cgrows_sizes c c' : cgrows c c' → sizes_le (sizes_of c) (sizes_of c').
Proof.
  intros (?&?&?&?&?&?&?&?). unfold sizes_le, sizes_of; simpl. split_and!; auto using prefix_zlen.
Qed.
Lemma small_mono c c' : cgrows c c' → small c' → small c.
Proof. intros Hg%cgrows_sizes. unfold small, sizes_le in *. lia. Qed.

(** ** Monotonicity of the checks in the sizes *)
Lemma val_ok_mono z z' v : sizes_le z z' → val_ok z v → val_ok z' v.
Proof. unfold sizes_le, val_ok. lia. Qed.
Lemma blk_ok_mono z z' b : sizes_le z z' → blk_ok z b → blk_ok z' b.
Proof. unfold sizes_le, blk_ok. lia. Qed.
Lemma opt_ok_mono z z' v : sizes_le z z' → opt_ok z v → opt_ok z' v.
Proof. destruct v; simpl; eauto using val_ok_mono. Qed.
Lemma place_ok_mono z z' p : sizes_le z z' → place_ok z p → place_ok z' p.
Proof. unfold sizes_le, place_ok, range_ok. lia. Qed.
Lemma proj_ok_mono z z' p : sizes_le z z' → proj_ok z p → proj_ok z' p.
Proof. destruct p; simpl; eauto using val_ok_mono. Qed.
Lemma term_ok_mono z z' t : sizes_le z z' → term_ok z t → term_ok z' t.
Proof.
  intros Hle; destruct t as [| | |[]| |]; simpl; unfold sizes_le, val_ok, blk_ok, range_ok in *; lia.
Qed.
Lemma inst_ok_mono z z' d : sizes_le z z' → inst_ok z d → inst_ok z' d.
Proof.
  intros Hle; destruct d; simpl; try done;
    try (unfold sizes_le, val_ok, range_ok, place_ok in *; simpl in *; lia);
    intros; destruct_and?; split_and?; eauto using val_ok_mono, opt_ok_mono, place_ok_mono.
  all: unfold sizes_le, range_ok in *; lia.
Qed.

Lemma cfg_ok_mono z z' c : sizes_le z z' → cfg_ok z c → cfg_ok z' c.
Proof.
  intros Hle Hok. destruct Hok. split; try done; intros; eauto using term_ok_mono;
    (eapply Forall_impl; [|eassumption]); simpl; intros;
    eauto using inst_ok_mono, val_ok_mono, blk_ok_mono, proj_ok_mono.
Qed.

(** ** One lemma per operation *)

Lemma zlen_app {A} (l k : list A) : zlen (l ++ k) = zlen l + zlen k.
Proof. unfold zlen. rewrite length_app. lia. Qed.
Lemma len_u32_zlen {A} (l : list A) : zlen l < 2 ^ 32 → len_u32 l = zlen l.
Proof. apply len_u32_small. Qed.

Lemma pushed_Done {A} (l k : list A) s n :
  pushed l (l ++ k) = Done (s, n) → zlen (l ++ k) < 2 ^ 32 →
  s = zlen l ∧ n = zlen k ∧ range_ok (zlen (l ++ k)) s n.
Proof.
  intros Hp Hlt. rewrite zlen_app in *. unfold pushed in Hp. simplify_done.
  unfold range_ok. rewrite !len_u32_zlen by (rewrite ?zlen_app; unfold zlen in *; lia).
  rewrite zlen_app. unfold zlen in *. lia.
Qed.

Lemma prefix_app_self {A} (l k : list A) : l `prefix_of` l ++ k.
Proof. by exists k. Qed.
Ltac solve_grows := unfold cgrows; simpl; split_and!; try done; try apply prefix_app_self.

Lemma new_block_Done c k c' :
  new_block c = Done (k, c') → small c' → cfg_wf c →
  cfg_wf c' ∧ k = n_blocks (sizes_of c) ∧ c_blocks c' = c_blocks c ++ [new_basic_block k].
Proof.
  unfold new_block; intros; simplify_done.
  assert (Hk : len_u32 (c_blocks c) = zlen (c_blocks c)).
  { apply len_u32_zlen. unfold small, sizes_of in *; simpl in *. rewrite zlen_app in *.
    unfold zlen in *; simpl in *; lia. }
  split_and!; [|done..].
  apply (cfg_ok_mono _ (sizes_of (set_blocks (λ bs, bs ++ [new_basic_block (len_u32 bs)]) c)))
    in H1 as Hok; [|unfold sizes_le; simpl; rewrite zlen_app; unfold zlen; lia].
  destruct Hok. split; try done; simpl.
  - intros i b [Hb|[? Hb]]%lookup_app_Some; [eauto|].
    apply list_lookup_singleton_Some in Hb as [Hi <-]. simpl. rewrite Hk. unfold zlen. f_equal. lia.
  - intros i b [Hb|[? Hb]]%lookup_app_Some; [by eapply wf_terms0|].
    by apply list_lookup_singleton_Some in Hb as [Hi <-].
  - rewrite map_app, concat_app. simpl. by rewrite app_nil_r.
Qed.

Lemma concat_insert {A B} (g : A → list B) (l : list A) (i : nat) x y k :
  l !! i = Some x → g y ≡ₚ k ++ g x →
  concat (map g (<[i := y]> l)) ≡ₚ k ++ concat (map g l).
Proof.
  intros Hx Hg. rewrite <-(take_drop_middle l i x Hx) at 2.
  rewrite insert_take_drop by (by eapply lookup_lt_Some).
  rewrite !map_app, !concat_app. simpl. rewrite Hg. solve_Permutation.
Qed.

(** Updating a block in place, for an update that defines the values [vs] in it. *)
Lemma update_block_ok z c k f vs u c' :
  update_block k f c = Done (u, c') →
  (∀ i b, c_blocks c !! i = Some b → bb_id b = Z.of_nat i ∧ term_ok z (bb_terminator b)) →
  (∀ b, bb_id (f b) = bb_id b) →
  (∀ b, term_ok z (bb_terminator b) → term_ok z (bb_terminator (f b))) →
  (∀ b, block_values (f b) ≡ₚ vs ++ block_values b) →
  ∃ b, c_blocks c !! Z.to_nat k = Some b ∧ c' = set_blocks (λ bs, <[Z.to_nat k := f b]> bs) c ∧
    (∀ i b, c_blocks c' !! i = Some b → bb_id b = Z.of_nat i ∧ term_ok z (bb_terminator b)) ∧
    concat (map block_values (c_blocks c')) ≡ₚ vs ++ concat (map block_values (c_blocks c)).
Proof.
  unfold update_block, get_block. intros Hu Hok Hid Hterm Hvs. simplify_done.
  eexists. split; [done|]. split; [done|]. simpl. split.
  - intros i b' [(<- & <- & ?)|[? Hb']]%list_lookup_insert_Some; [|eauto].
    rewrite Hid. edestruct Hok; [done|]. eauto.
  - eapply concat_insert; [done|apply Hvs].
Qed.

Lemma set_terminator_Done c k t u c' :
  set_terminator k t c = Done (u, c') → cfg_wf c → term_ok (sizes_of c) t →
  cfg_wf c' ∧ ∃ b, c_blocks c !! Z.to_nat k = Some b ∧
    c' = set_blocks (λ bs, <[Z.to_nat k := with_terminator t b]> bs) c.
Proof.
  intros Hs Hwf Ht. unfold set_terminator in Hs.
  eapply (update_block_ok (sizes_of c) _ _ _ []) in Hs as (b & Hb & -> & Hid & Hperm);
    [|intros; split; by eapply Hwf|done..].
  split; [|by exists b].
  assert (Hz : sizes_of (set_blocks (λ bs, <[Z.to_nat k := with_terminator t b]> bs) c) = sizes_of c).
  { unfold sizes_of, zlen; simpl. by rewrite length_insert. }
  unfold cfg_wf. rewrite Hz. destruct Hwf. split; try done; [apply Hid..|]. by rewrite Hperm.
Qed.

(** Adding an instruction, as an instruction or as a parameter of block [k]. *)
Lemma add_value_Done c k inst f v c' :
  (value ← cfg_add_inst inst; update_block k (f value);; mret value) c = Done (v, c') →
  small c' → cfg_wf c → inst_ok (sizes_of c) (ci_data inst) →
  (∀ v b, bb_id (f v b) = bb_id b ∧ bb_terminator (f v b) = bb_terminator b ∧
          block_values (f v b) ≡ₚ v :: block_values b) →
  cfg_wf c' ∧ v = n_values (sizes_of c) ∧ ∃ b, c_blocks c !! Z.to_nat k = Some b ∧
    c' = set_blocks (λ bs, <[Z.to_nat k := f v b]> bs) (set_values (λ vs, vs ++ [inst]) c).
Proof.
  intros Hadd Hsmall Hwf Hinst Hf. unfold mbind, ST_bind, cfg_add_inst in Hadd. simpl in Hadd.
  apply bind_Done in Hadd as ([[] c1] & Hu & Hret). unfold mret, ST_ret in Hret. simplify_eq.
  set (c0 := set_values (λ vs, vs ++ [inst]) c) in *.
  assert (Hle : sizes_le (sizes_of c) (sizes_of c0)).
  { unfold sizes_le; simpl. rewrite zlen_app. unfold zlen; lia. }
  pose proof (cfg_ok_mono _ _ _ Hle Hwf) as Hok.
  eapply (update_block_ok (sizes_of c0) _ _ _ [len_u32 (c_values c)]) in Hu
    as (b & Hb & -> & Hid & Hperm);
    [|intros; split; by eapply Hok|intros; apply Hf|intros b; by rewrite (proj1 (proj2 (Hf _ b)))
     |intros; apply Hf].
  assert (Hz : sizes_of (set_blocks (λ bs, <[Z.to_nat k := f (len_u32 (c_values c)) b]> bs) c0)
               = sizes_of c0).
  { unfold sizes_of, zlen; simpl. by rewrite length_insert. }
  assert (Hv : len_u32 (c_values c) = zlen (c_values c)).
  { apply len_u32_zlen. unfold small in Hsmall. rewrite Hz in Hsmall. simpl in Hsmall.
    rewrite zlen_app in Hsmall. unfold zlen in *; simpl in *; lia. }
  split_and!; [|done|by exists b].
  unfold cfg_wf. rewrite Hz. destruct Hok. split; try done; [apply Hid..| |].
  - simpl. apply Forall_app. split; [done|]. constructor; [|constructor].
    by eapply inst_ok_mono.
  - rewrite Hperm, Hv. simpl. rewrite wf_defs0, length_app, seq_app, map_app. simpl.
    unfold zlen. solve_Permutation.
Qed.

Lemma add_inst_to_block_Done c k inst v c' :
  add_inst_to_block k inst c = Done (v, c') → small c' → cfg_wf c →
  inst_ok (sizes_of c) (ci_data inst) →
  cfg_wf c' ∧ v = n_values (sizes_of c) ∧ ∃ b, c_blocks c !! Z.to_nat k = Some b ∧
    c' = set_blocks (λ bs, <[Z.to_nat k := push_inst v b]> bs) (set_values (λ vs, vs ++ [inst]) c).
Proof.
  intros Hadd Hsmall Hwf Hinst. eapply (add_value_Done c k inst push_inst) in Hadd; try done.
  intros v' b. split_and!; [done|done|]. unfold block_values; simpl. solve_Permutation.
Qed.

Lemma add_block_param_Done c k ty v c' :
  add_block_param k ty c = Done (v, c') → small c' → cfg_wf c →
  cfg_wf c' ∧ v = n_values (sizes_of c) ∧ ∃ b inst, c_blocks c !! Z.to_nat k = Some b ∧
    c' = set_blocks (λ bs, <[Z.to_nat k := push_param v ty b]> bs)
           (set_values (λ vs, vs ++ [inst]) c).
Proof.
  unfold add_block_param. intros (b & Hb & Hadd)%bind_Done Hsmall Hwf.
  eapply (add_value_Done c k _ (λ v, push_param v ty)) in Hadd as (? & ? & b' & ? & ?); try done.
  - split_and!; [done..|]. eexists _, _. done.
  - intros v' b'. split_and!; [done|done|]. unfold block_values; simpl.
    rewrite map_app. simpl. solve_Permutation.
Qed.

(** Payloads. *)
Lemma push_extra_Done c vs s n c' :
  push_extra vs c = Done ((s, n), c') → small c' → cfg_wf c → Forall (val_ok (sizes_of c)) vs →
  cfg_wf c' ∧ c' = set_cfg_extra (c_extra c ++ vs) c ∧ s = zlen (c_extra c) ∧ n = zlen vs ∧
  range_ok (n_extra (sizes_of c')) s n.
Proof.
  unfold push_extra. intros ([] & Hp & ?)%bind_Done Hsmall Hwf Hvs. simplify_done.
  apply pushed_Done in Hp as (-> & -> & Hr); [|apply Hsmall].
  split_and!; try done. eapply cfg_ok_mono in Hwf;
    [destruct Hwf; split; try done|unfold sizes_le; simpl; rewrite zlen_app; unfold zlen; lia].
  simpl. apply Forall_app. split; [done|]. eapply Forall_impl; [|done].
  intros v. apply val_ok_mono. unfold sizes_le; simpl; rewrite zlen_app; unfold zlen; lia.
Qed.
Lemma push_call_args_Done c vs s n c' :
  push_call_args vs c = Done ((s, n), c') → small c' → cfg_wf c →
  Forall (λ a, val_ok (sizes_of c) (cca_value a)) vs →
  cfg_wf c' ∧ c' = set_call_args (c_call_args c ++ vs) c ∧ s = zlen (c_call_args c) ∧ n = zlen vs ∧
  range_ok (n_call_args (sizes_of c')) s n.
Proof.
  unfold push_call_args. intros ([] & Hp & ?)%bind_Done Hsmall Hwf Hvs. simplify_done.
  apply pushed_Done in Hp as (-> & -> & Hr); [|apply Hsmall].
  split_and!; try done. eapply cfg_ok_mono in Hwf;
    [destruct Hwf; split; try done|unfold sizes_le; simpl; rewrite zlen_app; unfold zlen; lia].
  simpl. apply Forall_app. split; done.
Qed.
Lemma push_switch_cases_Done c vs s n c' :
  push_switch_cases vs c = Done ((s, n), c') → small c' → cfg_wf c →
  Forall (λ x, blk_ok (sizes_of c) x.2) vs →
  cfg_wf c' ∧ c' = set_switch_cases (c_switch_cases c ++ vs) c ∧ s = zlen (c_switch_cases c) ∧
  n = zlen vs ∧ range_ok (n_switch_cases (sizes_of c')) s n.
Proof.
  unfold push_switch_cases. intros ([] & Hp & ?)%bind_Done Hsmall Hwf Hvs. simplify_done.
  apply pushed_Done in Hp as (-> & -> & Hr); [|apply Hsmall].
  split_and!; try done. eapply cfg_ok_mono in Hwf;
    [destruct Hwf; split; try done|unfold sizes_le; simpl; rewrite zlen_app; unfold zlen; lia].
  simpl. apply Forall_app. split; done.
Qed.
Lemma push_projections_Done c vs s n c' :
  cfg_push_projections vs c = Done ((s, n), c') → small c' → cfg_wf c →
  Forall (proj_ok (sizes_of c)) vs →
  cfg_wf c' ∧ c' = set_projections (c_projections c ++ vs) c ∧ s = zlen (c_projections c) ∧
  n = zlen vs ∧ range_ok (n_projections (sizes_of c')) s n.
Proof.
  unfold cfg_push_projections. intros ([] & Hp & ?)%bind_Done Hsmall Hwf Hvs. simplify_done.
  apply pushed_Done in Hp as (-> & -> & Hr); [|apply Hsmall].
  split_and!; try done. eapply cfg_ok_mono in Hwf;
    [destruct Hwf; split; try done|unfold sizes_le; simpl; rewrite zlen_app; unfold zlen; lia].
  simpl. apply Forall_app. split; [done|]. eapply Forall_impl; [|done].
  intros v. apply proj_ok_mono. unfold sizes_le; simpl; rewrite zlen_app; unfold zlen; lia.
Qed.

(** ** Predecessors *)

(** The blocks a block can continue in. *)
Definition successors c (b : BasicBlock) : list BlockId :=
  match bb_terminator b with
  | TGoto target _ _ => [target]
  | TBranch _ then_block _ _ else_block _ _ => [then_block; else_block]
  | TSwitch _ s l default =>
      match get_switch_cases c s l with Done cases => map snd cases ++ [default] | _ => [] end
  | TReturn _ | TUnreachable | TNone => []
  end.
Definition edges c : list (BlockId * BlockId) :=
  concat (map (λ b, map (pair (bb_id b)) (successors c b)) (c_blocks c)).
Definition preds_in (es : list (BlockId * BlockId)) (j : nat) : list BlockId :=
  map fst (filter (λ e, Z.to_nat e.2 = j) es).

Lemma cfg_slice_Done {A} (l : list A) s n :
  range_ok (zlen l) s n → zlen l < 2 ^ 32 →
  cfg_slice l s n = Done (take (Z.to_nat n) (drop (Z.to_nat s) l)).
Proof.
  unfold range_ok, cfg_slice, checked_add, slice_range, zlen. intros ? Hlt.
  rewrite decide_True by (unfold in_u; lia). simpl. rewrite decide_True by lia.
  do 3 f_equal. lia.
Qed.

Lemma block_edges_Done c b :
  term_ok (sizes_of c) (bb_terminator b) → small c →
  block_edges c b = Done (map (pair (bb_id b)) (successors c b)).
Proof.
  intros Ht (_ & _ & _ & _ & Hs & _). unfold block_edges, successors. destruct (bb_terminator b); try done.
  destruct Ht as (_ & Hr & _). unfold get_switch_cases. rewrite cfg_slice_Done by done. simpl.
  rewrite map_app, map_map. simpl. do 2 f_equal. apply map_ext. by intros [].
Qed.

Lemma successors_ok c b s :
  cfg_wf c → small c → term_ok (sizes_of c) (bb_terminator b) → s ∈ successors c b →
  blk_ok (sizes_of c) s.
Proof.
  intros Hwf (_ & _ & _ & _ & Hsm & _) Ht. unfold successors. destruct (bb_terminator b); simpl in Ht;
    rewrite ?elem_of_cons, ?elem_of_nil; destruct_and?; try naive_solver.
  unfold get_switch_cases. rewrite cfg_slice_Done by done.
  intros [([v k] & -> & Hin)%list_elem_of_fmap| ->%list_elem_of_singleton]%elem_of_app; [|done].
  apply subseteq_take, subseteq_drop in Hin.
  exact (proj1 (Forall_forall _ _) (wf_switch_cases _ _ Hwf) _ (proj1 (list_elem_of_In _ _) Hin)).
Qed.

Lemma edges_collected c c0 acc (bs : list BasicBlock) :
  (∀ b, b ∈ bs → block_edges c0 b = Done (map (pair (bb_id b)) (successors c b))) →
  foldM (λ acc b, es ← block_edges c0 b; mret (acc ++ es)) acc bs =
    Done (acc ++ concat (map (λ b, map (pair (bb_id b)) (successors c b)) bs)).
Proof.
  revert acc; induction bs as [|b bs IH]; intros acc Hb; simpl; [by rewrite app_nil_r|].
  rewrite Hb by (by left). simpl. rewrite IH by (intros; apply Hb; by right).
  by rewrite <-(assoc_L (++)).
Qed.

Lemma add_preds_Done es c :
  Forall (λ e, Z.to_nat e.2 < length (c_blocks c))%nat es →
  ∃ c', foldM add_pred c es = Done c' ∧ c' = set_blocks (λ _, c_blocks c') c ∧
    ∀ j, c_blocks c' !! j = with_preds (λ ps, ps ++ preds_in es j) <$> c_blocks c !! j.
Proof.
  revert c; induction es as [|[i k] es IH]; intros c Hes; simpl.
  - exists c. split_and!; [done|by destruct c|]. intros j. destruct (c_blocks c !! j) as [[]|]; simpl; [|done].
    unfold with_preds, preds_in; simpl. by rewrite app_nil_r.
  - inversion Hes as [|? ? Hlt Hes']; subst. simpl in Hlt.
    apply lookup_lt_is_Some in Hlt as [b Hb].
    unfold add_pred, update_block, get_block. simpl. rewrite Hb. simpl.
    edestruct IH as (c' & -> & Hc' & Hj); [eapply Forall_impl; [|exact Hes']; simpl; intros; by rewrite length_insert|].
    exists c'. split_and!; [done|rewrite Hc' at 1; by destruct c|].
    intros j. rewrite Hj. simpl. destruct (decide (Z.to_nat k = j)) as [<-|Hne].
    + rewrite list_lookup_insert_eq by (by eapply lookup_lt_Some). rewrite Hb. simpl.
      unfold with_preds, preds_in. simpl. rewrite filter_cons_True by done. simpl.
      by rewrite <-(assoc_L (++)).
    + rewrite list_lookup_insert_ne by done.
      unfold preds_in. by rewrite filter_cons_False.
Qed.

Lemma elem_of_edges c i j bi :
  cfg_wf c → small c → c_blocks c !! i = Some bi →
  Z.of_nat i ∈ preds_in (edges c) j ↔ Z.of_nat j ∈ successors c bi.
Proof.
  intros Hwf Hsm Hbi. unfold preds_in, edges. rewrite list_elem_of_fmap. split.
  - intros ([k s] & Hk & [Hs Hin]%list_elem_of_filter). simpl in *. subst k j.
    apply elem_of_list_concat in Hin as (es & Hes & (b & -> & Hb)%list_elem_of_fmap).
    apply list_elem_of_fmap in Hes as (s' & ? & Hs'). simplify_eq.
    apply list_elem_of_lookup in Hb as [i' Hb].
    pose proof (wf_ids _ _ Hwf _ _ Hb). assert (i' = i) as -> by lia. simplify_eq.
    pose proof (successors_ok _ _ _ Hwf Hsm (wf_terms _ _ Hwf _ _ Hbi) Hs') as [? _].
    by rewrite Z2Nat.id.
  - intros Hs. exists (Z.of_nat i, Z.of_nat j). split; [done|].
    apply list_elem_of_filter. simpl. split; [lia|]. apply elem_of_list_concat.
    eexists. split; [|apply list_elem_of_fmap; eexists; split; [done|by eapply list_elem_of_lookup_2]].
    apply list_elem_of_fmap. eexists. split; [|done]. f_equal. symmetry. by apply (wf_ids _ _ Hwf).
Qed.

Lemma clear_preds_wf c : cfg_wf c → cfg_wf (set_blocks (map (with_preds (λ _, []))) c).
Proof.
  intros Hwf. unfold cfg_wf.
  replace (sizes_of _) with (sizes_of c) by (unfold sizes_of, zlen; simpl; by rewrite length_map).
  destruct Hwf. split; try done; simpl.
  - intros i b. rewrite list_lookup_fmap. intros (b' & Hb & ->)%fmap_Some. simpl. eauto.
  - intros i b. rewrite list_lookup_fmap. intros (b' & Hb & ->)%fmap_Some. simpl. eauto.
  - by rewrite map_map.
Qed.

(** [compute_predecessors] inverts the edges of the graph. On a well-formed graph it
    returns, changes nothing but the predecessor lists, and lists block [i] among the
    predecessors of block [j] exactly when [j] is a target of the terminator of [i]. *)
Theorem predecessors_inverse c :
  cfg_wf c → small c →
  ∃ c', compute_predecessors c = Done ((), c') ∧
    map (with_preds (λ _, [])) (c_blocks c') = map (with_preds (λ _, [])) (c_blocks c) ∧
    c' = set_blocks (λ _, c_blocks c') c ∧
    ∀ i j bi bj, c_blocks c' !! i = Some bi → c_blocks c' !! j = Some bj →
      (Z.of_nat i ∈ bb_preds bj ↔ Z.of_nat j ∈ successors c' bi).
Proof.
  intros Hwf Hsm. set (c0 := set_blocks (map (with_preds (λ _, []))) c).
  pose proof (clear_preds_wf c Hwf) as Hwf0. fold c0 in Hwf0.
  assert (Hsm0 : small c0) by (unfold small, sizes_of, zlen in *; simpl; by rewrite length_map).
  destruct (add_preds_Done (edges c0) c0) as (c' & Hfold & Hc' & Hj).
  { apply Forall_forall. intros [i s] Hin%list_elem_of_In. simpl.
    apply elem_of_list_concat in Hin as (es & Hes & (b & -> & Hb)%list_elem_of_fmap).
    apply list_elem_of_fmap in Hes as (s' & ? & Hs'). simplify_eq.
    apply list_elem_of_lookup in Hb as [k Hb].
    apply successors_ok in Hs' as [? Hlt]; try done; [|by eapply wf_terms].
    simpl in Hlt. unfold zlen in Hlt. simpl in Hlt. lia. }
  exists c'. assert (Hsame : ∀ b, successors c' (with_preds (λ _, []) b) = successors c0 b).
  { intros b. unfold successors. by rewrite Hc'. }
  split_and!.
  - unfold compute_predecessors. fold c0. rewrite (edges_collected c0 c0).
    + rewrite bind_ret, app_nil_l. fold (edges c0). by rewrite Hfold.
    + intros b (k & Hb)%list_elem_of_lookup. apply block_edges_Done; [by eapply wf_terms|done].
  - apply list_eq. intros j. rewrite !list_lookup_fmap, Hj. simpl. rewrite list_lookup_fmap.
    by destruct (c_blocks c !! j).
  - rewrite Hc' at 1. done.
  - intros i j bi bj Hi Hbj. rewrite Hj in Hi, Hbj.
    apply fmap_Some in Hi as (bi0 & Hi & ->). apply fmap_Some in Hbj as (bj0 & Hbj & ->). simpl.
    simpl in Hbj. rewrite list_lookup_fmap in Hbj. apply fmap_Some in Hbj as (? & ? & ->). simpl.
    rewrite (elem_of_edges c0 i j bi0) by done. by rewrite <-Hsame.
Qed.
End Theory.
