(* ===== verification/CfgMono.v ===== *)
(** * Building only appends

    Every step of [CfgBuilder] keeps what the graph already holds: vectors grow at their
    ends and no block disappears. Sizes at the end of a run therefore bound the sizes at
    every moment of it, which is how the 32-bit indices are handled in [CfgLower]. *)

From S2P Require Import Prelude Types LayoutTypes InternPool Layout AirPattern Air ParamArena.
From S2P Require Import DropNames Cfg CfgBuild CfgTheory.

#[local] Open Scope Z_scope.

Section Mono.
Context {Spur : Type} `{Countable Spur} `{!SpurKey Spur}.
Notation Builder := (CfgBuilder (Spur := Spur)).
Notation BuildM := (BuildM (Spur := Spur)).
Implicit Types b : Builder.

(** [grows] is reflexive and transitive; a computation is [mono] when it only grows. *)
Definition grows b b' : Prop := cgrows (b_cfg b) (b_cfg b').
Definition mono {A} (m : BuildM A) : Prop := ∀ b a b', m b = Done (a, b') → grows b b'.

Lemma grows_refl b : grows b b.
Proof. unfold grows. reflexivity. Qed.

Lemma mono_ret {A} (a : A) : mono (mret a).
Proof. intros b x b' Hr. injection Hr as <- <-. apply grows_refl. Qed.
Lemma mono_bind {A B} (m : BuildM A) (f : A → BuildM B) :
  mono m → (∀ a, mono (f a)) → mono (m ≫= f).
Proof.
  intros Hm Hf b x b' ([a b1] & H1 & H2)%bind_Done. unfold grows. etransitivity; [by eapply Hm|by eapply Hf].
Qed.
Lemma mono_lift {A} (o : outcome A) : mono (lift_b o).
Proof. intros b x b' (a & _ & Hr)%bind_Done. injection Hr as <- <-. apply grows_refl. Qed.
Lemma mono_get {A} (f : Builder → A) : mono (getb f).
Proof. intros b x b' Hr. injection Hr as <- <-. apply grows_refl. Qed.
Lemma mono_mod f : (∀ b, b_cfg (f b) = b_cfg b) → mono (modb f).
Proof.
  intros Hf b x b' Hr. injection Hr as <- <-. unfold grows. rewrite Hf. reflexivity.
Qed.
Lemma mono_panic {A} : mono (λ _ : Builder, @Panic (A * Builder)).
Proof. by intros b a b'. Qed.
Lemma mono_nofuel {A} : mono (λ _ : Builder, @NoFuel (A * Builder)).
Proof. by intros b a b'. Qed.
Lemma mono_cfg {A} (m : ST (Cfg Spur) A) :
  (∀ c a c', m c = Done (a, c') → cgrows c c') → mono (cfg_do m).
Proof.
  intros Hm b x b' ([a c] & H1 & Hr)%bind_Done. injection Hr as <- <-. by eapply Hm.
Qed.
Lemma mono_foldM {A B} (f : B → A → BuildM B) l acc :
  (∀ acc a, mono (f acc a)) → mono (foldM f acc l).
Proof.
  intros Hf. revert acc; induction l as [|x l IH]; intros acc; simpl; [apply mono_ret|].
  apply mono_bind; [apply Hf|done].
Qed.
Lemma mono_mapM {A B} (f : A → BuildM B) l : (∀ a, mono (f a)) → mono (mapM f l).
Proof.
  intros Hf. induction l as [|x l IH]; simpl; [apply mono_ret|].
  apply mono_bind; [apply Hf|]. intros. apply mono_bind; [done|]. intros. apply mono_ret.
Qed.
Lemma mono_or_diverge {A} (m : BuildM (option A)) k :
  mono m → (∀ a, mono (k a)) → mono (or_diverge m k).
Proof. intros. apply mono_bind; [done|]. intros []; [done|apply mono_ret]. Qed.
Lemma mono_or_none {A B} (m : BuildM (option A)) (k : A → BuildM (option B)) :
  mono m → (∀ a, mono (k a)) → mono (or_none m k).
Proof. intros. apply mono_bind; [done|]. intros []; [done|apply mono_ret]. Qed.

(** Operations of the graph. *)
Lemma pushed_grows {A} (l k : list A) (c c' : Cfg Spur) (f : Cfg Spur → Cfg Spur) r :
  (r' ← pushed l (l ++ k); Done (r', f c)) = Done (r, c') → cgrows c (f c) → cgrows c c'.
Proof. intros (? & _ & Hr)%bind_Done ?. by injection Hr as <- <-. Qed.
Ltac grows_push := intros c [s n] c' Hp; eapply pushed_grows; [exact Hp|];
  unfold cgrows; simpl; split_and!; try done; apply prefix_app_self.
Lemma mono_push_extra vs : mono (cfg_do (push_extra vs)).
Proof. apply mono_cfg. grows_push. Qed.
Lemma mono_push_call_args vs : mono (cfg_do (push_call_args vs)).
Proof. apply mono_cfg. grows_push. Qed.
Lemma mono_push_switch_cases vs : mono (cfg_do (push_switch_cases vs)).
Proof. apply mono_cfg. grows_push. Qed.
Lemma mono_make_place base vs : mono (cfg_do (cfg_make_place base vs)).
Proof.
  apply mono_cfg. intros c pl c' ([[s n] c1] & Hp & Hr)%bind_Done. injection Hr as <- <-.
  revert c s n c1 Hp. cut (∀ (c : Cfg Spur) r c', cfg_push_projections vs c = Done (r, c') → cgrows c c').
  { intros Hc c s n c1. apply Hc. }
  grows_push.
Qed.
Lemma mono_new_block : mono (cfg_do new_block).
Proof.
  apply mono_cfg. intros c k c' Hr. injection Hr as <- <-. unfold cgrows; simpl. split_and!; try done.
  rewrite zlen_app. unfold zlen. lia.
Qed.
Lemma update_block_grows k f (c : Cfg Spur) u c' : update_block k f c = Done (u, c') → cgrows c c'.
Proof.
  intros (blk & _ & Hr)%bind_Done. injection Hr as <- <-. unfold cgrows, zlen; simpl.
  rewrite length_insert. by split_and!.
Qed.
Lemma mono_set_terminator k t : mono (cfg_do (set_terminator k t)).
Proof. apply mono_cfg. intros c u c'. apply update_block_grows. Qed.
Lemma add_value_grows k f inst (c : Cfg Spur) v c' :
  (value ← cfg_add_inst inst; update_block k (f value);; mret value) c = Done (v, c') → cgrows c c'.
Proof.
  intros ([v0 c0] & Ha & ([[] c1] & Hu & Hr)%bind_Done)%bind_Done.
  injection Ha as <- <-. injection Hr as <- <-.
  etransitivity; [|by eapply update_block_grows]. unfold cgrows; simpl.
  split_and!; try done. apply prefix_app_self.
Qed.
Lemma mono_add_inst k inst : mono (cfg_do (add_inst_to_block k inst)).
Proof. apply mono_cfg. intros c v c'. apply (add_value_grows k push_inst). Qed.
Lemma mono_add_block_param k ty : mono (cfg_do (add_block_param k ty)).
Proof.
  apply mono_cfg. intros c v c' (blk & _ & Hr)%bind_Done.
  by apply (add_value_grows k (λ v, push_param v ty)) in Hr.
Qed.
Lemma mono_alloc_temp : mono (cfg_do alloc_temp_local).
Proof.
  apply mono_cfg. intros c v c' (n & Hn & Hr)%bind_Done. injection Hr as <- <-.
  unfold checked_add in Hn. case_decide; simplify_eq/=. unfold cgrows; simpl. split_and!; [done..|lia].
Qed.
Lemma mono_record_spawn v t : mono (cfg_do (cfg_record_spawn_target v t)).
Proof. apply mono_cfg. intros c u c' Hr. injection Hr as <- <-. by split_and!. Qed.
Lemma mono_cache r v : mono (cache (Spur := Spur) r v).
Proof.
  intros b u b'. unfold cache. case_decide; [|done]. intros Hr. injection Hr as <- <-. apply (grows_refl b).
Qed.
End Mono.

Create HintDb mono discriminated.
#[export] Hint Resolve mono_ret mono_lift mono_get mono_panic mono_nofuel mono_push_extra
  mono_push_call_args mono_push_switch_cases mono_make_place mono_new_block mono_set_terminator
  mono_add_inst mono_add_block_param mono_alloc_temp mono_record_spawn mono_cache : mono.

(** Decomposes a computation; calls of named steps are closed by the hints. *)
Ltac mono_step :=
  lazymatch goal with
  | |- ∀ _, _ => intros ?
  | |- mono (match ?x with _ => _ end) => destruct x
  | |- mono (or_diverge _ _) => apply mono_or_diverge
  | |- mono (or_none _ _) => apply mono_or_none
  | |- mono (foldM _ _ _) => apply mono_foldM
  | |- mono (for_each _ _) => apply mono_foldM
  | |- mono (mapM _ _) => apply mono_mapM
  | |- mono (modb _) => apply mono_mod; intros; repeat case_match; done
  | |- mono (_ ≫= _) => apply mono_bind
  end.
Ltac apply_mono_hyp := match goal with Hm : ∀ _, _ |- mono _ => apply Hm end.
Ltac solve_mono := repeat first [mono_step | solve [eauto 3 with mono nocore] | assumption | apply_mono_hyp].

Section Steps.
Context {Spur : Type} `{Countable Spur} `{!SpurKey Spur}.
Context (air : Air (Spur := Spur)) (pool : TypeInternPool (Spur := Spur)) (resolve : Spur → string)
  (tf : nat).
Notation BuildM := (BuildM (Spur := Spur)).

Lemma mono_set_current k : mono (set_current (Spur := Spur) k).
Proof. unfold set_current. solve_mono. Qed.
Lemma mono_emit d ty sp : mono (emit (Spur := Spur) d ty sp).
Proof. unfold emit. solve_mono. Qed.
#[local] Hint Resolve mono_set_current mono_emit : mono.
Lemma mono_emit_unit d sp : mono (emit_unit (Spur := Spur) d sp).
Proof. unfold emit_unit. solve_mono. Qed.
Lemma mono_terminate t : mono (terminate (Spur := Spur) t).
Proof. unfold terminate. solve_mono. Qed.
Lemma mono_cached r v : mono (cached (Spur := Spur) r v).
Proof. unfold cached. solve_mono. Qed.
#[local] Hint Resolve mono_emit_unit mono_terminate mono_cached : mono.
Lemma mono_goto k args : mono (goto (Spur := Spur) k args).
Proof. unfold goto. solve_mono. Qed.
Lemma mono_goto_from k k' args : mono (goto_from (Spur := Spur) k k' args).
Proof. unfold goto_from. solve_mono. Qed.
Lemma mono_branch_to v k k' : mono (branch_to (Spur := Spur) v k k').
Proof. unfold branch_to. solve_mono. Qed.
Lemma mono_air_inst r : mono (air_inst air r).
Proof. unfold air_inst. solve_mono. Qed.
#[local] Hint Resolve mono_goto mono_goto_from mono_branch_to mono_air_inst : mono.
Lemma mono_air_ty r : mono (air_ty air r).
Proof. unfold air_ty. solve_mono. Qed.
Lemma mono_needs_drop ty : mono (needs_drop pool tf ty).
Proof. unfold needs_drop. solve_mono. Qed.
#[local] Hint Resolve mono_air_ty mono_needs_drop : mono.
Lemma mono_forget r : mono (forget_consumed_value air pool tf r).
Proof. unfold forget_consumed_value, forget_local_slot, forget_param. solve_mono. Qed.
Lemma mono_re_add slot ty sp : mono (re_add_local_slot (Spur := Spur) slot ty sp).
Proof. unfold re_add_local_slot. solve_mono. Qed.
Lemma mono_drop_slot ls sp : mono (emit_drop_for_slot pool tf ls sp).
Proof. unfold emit_drop_for_slot. solve_mono. Qed.
Lemma mono_drop_param lp sp : mono (emit_drop_for_param (Spur := Spur) lp sp).
Proof. unfold emit_drop_for_param. solve_mono. Qed.
#[local] Hint Resolve mono_forget mono_re_add mono_drop_slot mono_drop_param : mono.
Lemma mono_drop_all sp : mono (emit_drops_for_all_scopes pool tf sp).
Proof. unfold emit_drops_for_all_scopes. solve_mono. Qed.
Lemma mono_drop_loop n sp : mono (emit_drops_for_loop_exit pool tf n sp).
Proof. unfold emit_drops_for_loop_exit. solve_mono. Qed.
Lemma mono_read_projected slot ty ps sp : mono (read_projected (Spur := Spur) slot ty ps sp).
Proof. unfold read_projected. solve_mono. Qed.
Lemma mono_disc_type ty : mono (enum_discriminant_type pool ty).
Proof. unfold enum_discriminant_type. solve_mono. Qed.
#[local] Hint Resolve mono_drop_all mono_drop_loop mono_read_projected mono_disc_type : mono.
Lemma mono_disc_cond scr i sp : mono (discriminant_cond pool scr i sp).
Proof. unfold discriminant_cond. solve_mono. Qed.
#[local] Hint Resolve mono_disc_cond : mono.

Lemma mono_test_chain k (tests : list (BlockId → BuildM ())) :
  (∀ t, t ∈ tests → ∀ next, mono (t next)) → mono (test_chain k tests).
Proof.
  induction tests as [|t [|t' tests] IH]; intros Ht; simpl; [solve_mono|by apply Ht; left|].
  apply mono_bind; [eauto with mono|]. intros next. apply mono_bind; [apply Ht; by left|]. intros _.
  apply mono_bind; [eauto with mono|]. intros _. apply IH. intros. apply Ht. by right.
Qed.
Lemma mono_payload_test vd v i u sp f next :
  (∀ s t, mono (f.2 s t)) → mono (emit_payload_test (Spur := Spur) vd v i u sp f next).
Proof. intros Hf. unfold emit_payload_test. solve_mono. Qed.
Lemma mono_enum_fields scr i fields tgt sp :
  (∀ f, f ∈ fields → ∀ s t, mono (f.2 s t)) → mono (emit_enum_field_tests pool scr i fields tgt sp).
Proof.
  intros Hf. unfold emit_enum_field_tests. do 3 (apply mono_bind; [eauto with mono|]; intros).
  case_match eqn:Hnt; [eauto with mono|rewrite <-Hnt].
  apply mono_bind; [eauto with mono|]. intros base. apply mono_test_chain.
  intros t (f & -> & [_ Hin]%list_elem_of_filter)%list_elem_of_fmap next.
  apply mono_payload_test, Hf, Hin.
Qed.
Lemma mono_variant_test scr i fields tgt sp :
  (∀ f, f ∈ fields → ∀ s t, mono (f.2 s t)) → mono (emit_variant_test pool scr i fields tgt sp).
Proof.
  intros Hf. unfold emit_variant_test. apply mono_bind; [eauto with mono|]. intros cond.
  case_match; [eauto with mono|]. do 3 (apply mono_bind; [eauto with mono|]; intros).
  by apply mono_enum_fields.
Qed.
Lemma mono_field_test sid scr i j (test : Scrutinee → BranchTargets → BuildM ()) u next :
  (∀ s t, mono (test s t)) → mono (emit_field_test pool sid scr i j test u next).
Proof. intros Ht. unfold emit_field_test. solve_mono. Qed.

Lemma mono_pattern_test (q : AirPattern Spur) sp scr tgt : mono (emit_pattern_test pool q sp scr tgt).
Proof.
  revert scr tgt. induction q using AirPattern_tree_ind; intros scr tgt; simpl; try solve [solve_mono].
  - do 2 (apply mono_bind; [eauto with mono|]; intros). apply mono_test_chain.
    intros t (i & test & -> & Ht)%elem_of_lookup_imap next. apply mono_field_test.
    rewrite list_lookup_fmap in Ht. apply fmap_Some in Ht as (q & Hq & ->). exact (Forall_lookup_1 _ _ _ _ H0 Hq).
  - apply mono_test_chain. intros t ([idx q] & -> & Hq)%list_elem_of_fmap next. apply mono_field_test.
    rewrite Forall_forall in H0. apply (H0 (idx, q)). by apply list_elem_of_In.
  - apply mono_variant_test.
    intros f (i & [q test] & -> & Ht)%elem_of_lookup_imap. simpl.
    rewrite list_lookup_fmap in Ht. apply fmap_Some in Ht as (q' & Hq & [= -> ->]).
    exact (Forall_lookup_1 _ _ _ _ H0 Hq).
  - apply mono_variant_test. intros f ([idx q] & -> & Hq)%list_elem_of_fmap. simpl.
    rewrite Forall_forall in H0. apply (H0 (idx, q)). by apply list_elem_of_In.
Qed.
#[local] Hint Resolve mono_pattern_test : mono.

Section Arms.
Context (lower : AirRef → BuildM ExprResult) (trace : AirRef → BuildM TracedPlace).
Context (Hlower : ∀ r, mono (lower r)) (Htrace : ∀ r, mono (trace r)).
Context (r0 : AirRef) (ty : Ty) (sp : Span).

Lemma mono_lower_value r : mono (lower_value lower r).
Proof. unfold lower_value. solve_mono. Qed.
#[local] Hint Resolve mono_lower_value : mono.
Lemma mono_lower_values rs : mono (lower_values lower rs).
Proof. induction rs; simpl; solve_mono. Qed.
Lemma mono_lower_option r : mono (lower_option lower r).
Proof. unfold lower_option. solve_mono. Qed.
Lemma mono_lower_emit d : mono (lower_emit (Spur := Spur) r0 ty sp d).
Proof. unfold lower_emit. solve_mono. Qed.
Lemma mono_lower_projections ps : mono (lower_projections lower ps).
Proof. induction ps as [|[] ps IH]; simpl; solve_mono. Qed.
#[local] Hint Resolve mono_lower_values mono_lower_option mono_lower_emit mono_lower_projections : mono.
Lemma mono_lower_air_place pl : mono (lower_air_place air lower pl).
Proof. unfold lower_air_place. solve_mono. Qed.
#[local] Hint Resolve mono_lower_air_place : mono.
Lemma mono_lower_lvalue r : mono (lower_air_lvalue_place air lower r).
Proof. unfold lower_air_lvalue_place. solve_mono. Qed.
Lemma mono_forget_args args : mono (forget_args air pool tf args).
Proof. unfold forget_args. solve_mono. Qed.
Lemma mono_lower_fields fs order l : mono (lower_fields lower fs order l).
Proof. revert l; induction order; intros; simpl; unfold lower_field; solve_mono. Qed.
Lemma mono_place_read : mono (lower_place_read trace r0 ty sp).
Proof. unfold lower_place_read. solve_mono. Qed.
Lemma mono_spill v p : mono (spill_and_read (Spur := Spur) r0 ty sp v p).
Proof. unfold spill_and_read. solve_mono. Qed.
Lemma mono_push_warning w : mono (push_warning (Spur := Spur) w).
Proof. unfold push_warning. solve_mono. Qed.
Lemma mono_air_span r : mono (air_span air r).
Proof. unfold air_span. solve_mono. Qed.
#[local] Hint Resolve mono_push_warning mono_air_span : mono.
Lemma mono_warn s l v : mono (warn_unreachable air s l v).
Proof. unfold warn_unreachable. solve_mono. Qed.
Lemma mono_scope_end ls : mono (emit_scope_end pool tf ls).
Proof. unfold emit_scope_end. solve_mono. Qed.
#[local] Hint Resolve mono_lower_lvalue mono_forget_args mono_lower_fields mono_place_read
  mono_spill mono_warn mono_scope_end : mono.
Lemma mono_statements l v : mono (lower_statements air lower l v).
Proof. induction l; simpl; solve_mono. Qed.
Lemma mono_push_scope : mono (push_scope (Spur := Spur)).
Proof. unfold push_scope. solve_mono. Qed.
Lemma mono_pop_scope : mono (pop_scope (Spur := Spur)).
Proof.
  intros b o b'. unfold pop_scope. case_match; intros Hr; injection Hr as <- <-; apply (grows_refl b).
Qed.
Lemma mono_join_param k t : mono (join_param (Spur := Spur) k t).
Proof. unfold join_param. solve_mono. Qed.
Lemma mono_wire k p arm : mono (wire_join (Spur := Spur) k p arm).
Proof. unfold wire_join. solve_mono. Qed.
Lemma mono_enter k p : mono (enter_join (Spur := Spur) r0 k p).
Proof. unfold enter_join. solve_mono. Qed.
Lemma mono_lower_in k r : mono (lower_in lower k r).
Proof. unfold lower_in. solve_mono. Qed.
Lemma mono_push_loop h e : mono (push_loop (Spur := Spur) h e).
Proof. unfold push_loop. solve_mono. Qed.
Lemma mono_pop_loop : mono (pop_loop (Spur := Spur)).
Proof. unfold pop_loop. solve_mono. Qed.
Lemma mono_loop_body h r : mono (lower_loop_body lower h r).
Proof. unfold lower_loop_body. solve_mono. Qed.
Lemma mono_result_type arms : mono (match_result_type air arms).
Proof. induction arms as [|[] arms IH]; simpl; solve_mono. Qed.
#[local] Hint Resolve mono_statements mono_push_scope mono_pop_scope mono_join_param mono_wire
  mono_enter mono_lower_in mono_push_loop mono_pop_loop mono_loop_body mono_result_type : mono.
Lemma mono_arm_tests scr k arms : mono (emit_arm_tests pool sp scr k arms).
Proof. induction arms as [|[[q k1] k2] arms IH]; simpl; solve_mono. Qed.
#[local] Hint Resolve mono_arm_tests : mono.
Lemma mono_cascade v t ps ks : mono (emit_cascade pool sp v t ps ks).
Proof. unfold emit_cascade. solve_mono. Qed.
Lemma mono_switch v ps ks : mono (emit_switch (Spur := Spur) v ps ks).
Proof. unfold emit_switch. solve_mono. Qed.
Lemma mono_bodies arms ks k t : mono (lower_match_arm_bodies_and_join lower r0 arms ks k t).
Proof. unfold lower_match_arm_bodies_and_join. solve_mono. Qed.
#[local] Hint Resolve mono_cascade mono_switch mono_bodies : mono.

Lemma mono_lower_data data : mono (lower_data air pool resolve tf lower trace r0 ty sp data).
Proof.
  destruct data; unfold lower_data, lower_unary, lower_store, lower_bin, lower_and, lower_or,
    lower_make_ref, lower_make_slice, lower_alloc, lower_store_slot, lower_call,
    lower_method_call_dyn, lower_intrinsic, lower_struct_init, lower_field_get, lower_index_get,
    lower_index_set, lower_array_init, lower_enum_create, lower_enum_payload_get,
    lower_place_write, lower_drop, lower_storage_live, lower_block, lower_branch,
    lower_loop, lower_infinite_loop, lower_jump, lower_ret, lower_match; solve_mono.
Qed.
End Arms.

Lemma mono_trace lower n r :
  (∀ r, mono (lower r)) → mono (try_trace_place air lower n r).
Proof.
  intros Hl. revert r; induction n as [|n IH]; intros r; simpl; [apply mono_nofuel|].
  unfold lower_value. solve_mono.
Qed.

Lemma mono_lower_inst n r : mono (lower_inst air pool resolve tf n r).
Proof.
  revert r; induction n as [|n IH]; intros r; simpl; [apply mono_nofuel|].
  apply mono_bind; [eauto with mono|]. intros cache. apply mono_bind; [eauto with mono|].
  intros []; [eauto with mono|]. apply mono_bind; [eauto with mono|]. intros inst.
  apply mono_lower_data; [done|]. intros r'. exact (mono_trace _ (S n) r' IH).
Qed.
End Steps.

#[export] Hint Resolve mono_set_current mono_emit mono_emit_unit mono_terminate mono_cached mono_goto
  mono_goto_from mono_branch_to mono_air_inst mono_air_ty mono_needs_drop mono_forget mono_re_add
  mono_drop_slot mono_drop_param mono_drop_all mono_drop_loop mono_read_projected mono_disc_type
  mono_disc_cond mono_pattern_test mono_lower_value mono_lower_values mono_lower_option
  mono_lower_emit mono_lower_projections mono_lower_air_place mono_lower_lvalue mono_forget_args
  mono_lower_fields mono_place_read mono_spill mono_push_warning mono_air_span mono_warn
  mono_scope_end mono_statements mono_push_scope
  mono_pop_scope mono_join_param mono_wire mono_enter mono_lower_in mono_push_loop mono_pop_loop
  mono_loop_body mono_result_type mono_arm_tests mono_cascade mono_switch mono_bodies : mono.
