(* ===== verification/CfgSample.v ===== *)
(** * Sample functions

    Small AIR functions on which the lowering is evaluated, among them a golden test of
    the language's test suite. *)

From S2P Require Import Prelude Types LayoutTypes InternPool Layout AirPattern Air ParamArena.
From S2P Require Import DropNames Cfg CfgBuild.

#[local] Open Scope Z_scope.

Module CfgSample.
Import Names.
#[export] Instance Name_eq : EqDecision Name.
Proof. solve_decision. Defined.
#[export] Program Instance Name_countable : Countable Name :=
  inj_countable' (λ n, match n with x => false | y => true end) (λ b : bool, if b then y else x) _.
Next Obligation. by intros []. Qed.

Definition mk_air (insts : list (AirInstData (Spur := Name) * Ty)) (extra : list Z) (ret : Ty) :
    Air (Spur := Name) :=
  MkAir (map (λ '(d, t), MkInst d t (MkSpan 0 0 0)) insts) extra ret [] [] ∅ ∅.
Definition no_names (_ : Name) : string := "".

(** [fn foo(cond: bool) -> i32 { let a = 1; if cond { return 42; } a }]. *)
Definition early_return_air : Air (Spur := Name) := mk_air
  [(IStorageLive 0, Ty.I32); (IConst 1, Ty.I32); (IAlloc 0 1, Ty.UNIT); (IBlock 0 1 2, Ty.UNIT);
   (IParam 0, Ty.BOOL); (IConst 42, Ty.I32); (IRet (Some 5), Ty.NEVER);
   (IBranch 4 6 None, Ty.UNIT); (ILoad 0, Ty.I32); (IBlock 1 2 8, Ty.I32);
   (IRet (Some 9), Ty.NEVER)] [0; 3; 7] Ty.I32.
Definition early_return : AnalyzedFunction (Spur := Name) :=
  MkFunction "foo" early_return_air 1 1 [] [Ty.BOOL] false.
Definition early_return_cfg : outcome (Cfg Name * list Warning) :=
  build new_pool no_names 10 20 early_return.

Definition early_return_graph : Cfg Name :=
  match early_return_cfg with
  | Done (c, _) => c
  | _ => new_cfg Ty.I32 0 0 "" [] []
  end.

(** What the dump of a graph shows. *)
Definition dump (c : Cfg Name) : list (list (CfgValue * option (CfgInstData Name)) * Terminator * list BlockId) :=
  map (λ b, (map (λ v, (v, ci_data <$> c_values c !! Z.to_nat v)) (bb_insts b), bb_terminator b, bb_preds b))
    (c_blocks c).

(** The golden graph of the case [cfg_early_return_drops]
    ([crates/gruel-spec/cases/types/destructors.toml]). *)
Example early_return_golden :
  (p ← early_return_cfg; mret (dump p.1)) = Done
    [([(0, Some (GStorageLive 0)); (1, Some (GConst 1)); (2, Some (GAlloc 0 1)); (3, Some (GParam 0))],
      TBranch 3 1 0 0 2 0 0, []);
     ([(4, Some (GConst 42)); (5, Some (GStorageDead 0))], TReturn (Some 4), [0]);
     ([(6, Some (GConst 0))], TGoto 3 0 0, [0]);
     ([(7, Some (GLoad 0)); (8, Some (GStorageDead 0))], TReturn (Some 7), [2])].
Proof. by vm_compute. Qed.

(** The golden graph of [cfg_break_drops]:
    [fn foo() -> i32 { while true { let x = 1; break; } 0 }]. The parser makes the [break]
    the value of the body's block. *)
Definition graph_of (locals : Z) (air : Air (Spur := Name)) :=
  p ← build new_pool no_names 10 30 (MkFunction "foo" air locals 1 [] [Ty.BOOL] false); mret (dump p.1).
Definition break_air : Air (Spur := Name) := mk_air
  [(IBoolConst true, Ty.BOOL); (IStorageLive 0, Ty.I32); (IConst 1, Ty.I32); (IAlloc 0 2, Ty.UNIT);
   (IBlock 0 1 3, Ty.UNIT); (IBreak, Ty.NEVER); (IBlock 1 1 5, Ty.NEVER); (ILoop 0 6, Ty.UNIT);
   (IConst 0, Ty.I32); (IBlock 2 1 8, Ty.I32); (IRet (Some 9), Ty.NEVER)] [1; 4; 7] Ty.I32.
Example break_golden :
  graph_of 1 break_air = Done
    [([], TGoto 1 0 0, []);
     ([(0, Some (GBoolConst true))], TBranch 0 2 0 0 3 0 0, [0]);
     ([(1, Some (GStorageLive 0)); (2, Some (GConst 1)); (3, Some (GAlloc 0 2));
       (4, Some (GStorageDead 0))], TGoto 3 0 0, [1]);
     ([(5, Some (GConst 0)); (6, Some (GConst 0))], TReturn (Some 6), [1; 2])].
Proof. by vm_compute. Qed.

(** The golden graph of [cfg_continue_drops]:
    [fn foo() -> i32 { let mut i = 0; while i < 3 { let x = 1; i = i + 1; continue; } i }]. *)
Definition continue_air : Air (Spur := Name) := mk_air
  [(IStorageLive 0, Ty.I32); (IConst 0, Ty.I32); (IAlloc 0 1, Ty.UNIT); (IBlock 0 1 2, Ty.UNIT);
   (ILoad 0, Ty.I32); (IConst 3, Ty.I32); (IBin Lt 4 5, Ty.BOOL);
   (IStorageLive 1, Ty.I32); (IConst 1, Ty.I32); (IAlloc 1 8, Ty.UNIT); (IBlock 1 1 9, Ty.UNIT);
   (ILoad 0, Ty.I32); (IConst 1, Ty.I32); (IBin Add 11 12, Ty.I32); (IStore 0 13 true, Ty.UNIT);
   (IContinue, Ty.NEVER); (IBlock 2 2 15, Ty.NEVER); (ILoop 6 16, Ty.UNIT); (ILoad 0, Ty.I32);
   (IBlock 4 2 18, Ty.I32); (IRet (Some 19), Ty.NEVER)] [0; 7; 10; 14; 3; 17] Ty.I32.
Example continue_golden :
  graph_of 2 continue_air = Done
    [([(0, Some (GStorageLive 0)); (1, Some (GConst 0)); (2, Some (GAlloc 0 1))], TGoto 1 0 0, []);
     ([(3, Some (GLoad 0)); (4, Some (GConst 3)); (5, Some (GBin Lt 3 4))],
      TBranch 5 2 0 0 3 0 0, [0; 2]);
     ([(6, Some (GStorageLive 1)); (7, Some (GConst 1)); (8, Some (GAlloc 1 7)); (9, Some (GLoad 0));
       (10, Some (GConst 1)); (11, Some (GBin Add 9 10)); (12, Some (GStore 0 11));
       (13, Some (GStorageDead 1))], TGoto 1 0 0, [1]);
     ([(14, Some (GConst 0)); (15, Some (GLoad 0)); (16, Some (GStorageDead 0))], TReturn (Some 15), [1])].
Proof. by vm_compute. Qed.

(** The builder after the entry block was created. *)
Definition early_return_start : CfgBuilder (Spur := Name) :=
  match new_block (b_cfg (initial_builder early_return [])) with
  | Done (k, c) => set_b_current k (set_b_cfg c (initial_builder early_return []))
  | _ => initial_builder early_return []
  end.
End CfgSample.
