(* ===== verification/CfgLower.v ===== *)
(** * Lowering keeps the graph well-formed

    A small program logic for [CfgBuilder]: [keeps z P m] says that [m], started when the
    vectors are at least of sizes [z], keeps the invariant and returns a result that
    satisfies [P] for the new sizes. The invariant is relative to a start [b0] of the run:
    the graph is well-formed, and the blocks that existed in [b0] are untouched, apart
    from its current block, which is appended to. *)

From S2P Require Import Prelude Types LayoutTypes InternPool Layout AirPattern Air ParamArena.
From S2P Require Import DropNames Cfg CfgBuild CfgTheory CfgMono.

#[local] Open Scope Z_scope.

Definition loop_ok (z : sizes) (l : LoopContext) : Prop := blk_ok z (lc_header l) ∧ blk_ok z (lc_exit l).
Definition expr_ok (z : sizes) (r : ExprResult) : Prop := opt_ok z (er_value r).
Definition popt {A} (P : sizes → A → Prop) (z : sizes) (o : option A) : Prop :=
  match o with Some x => P z x | None => True end.
Definition traced_ok {A} (z : sizes) (t : A * list (Projection * option CfgValue)) : Prop :=
  Forall (λ p, proj_ok z p.1) t.2.

(** Predicates that survive growth. *)
Class Growing (P : sizes → Prop) : Prop := growing z z' : sizes_le z z' → P z → P z'.
#[export] Instance growing_val v : Growing (λ z, val_ok z v).
Proof. intros z z'. apply val_ok_mono. Qed.
#[export] Instance growing_blk k : Growing (λ z, blk_ok z k).
Proof. intros z z'. apply blk_ok_mono. Qed.
#[export] Instance growing_opt v : Growing (λ z, opt_ok z v).
Proof. intros z z'. apply opt_ok_mono. Qed.
#[export] Instance growing_place p : Growing (λ z, place_ok z p).
Proof. intros z z'. apply place_ok_mono. Qed.
#[export] Instance growing_proj p : Growing (λ z, proj_ok z p).
Proof. intros z z'. apply proj_ok_mono. Qed.
#[export] Instance growing_term t : Growing (λ z, term_ok z t).
Proof. intros z z'. apply term_ok_mono. Qed.
#[export] Instance growing_inst {Spur} (d : CfgInstData Spur) : Growing (λ z, inst_ok z d).
Proof. intros z z'. apply inst_ok_mono. Qed.
#[export] Instance growing_const (Q : Prop) : Growing (λ _, Q).
Proof. by intros z z' _. Qed.
#[export] Instance growing_and P Q : Growing P → Growing Q → Growing (λ z, P z ∧ Q z).
Proof. intros HP HQ z z' Hle [??]. split; by eapply growing. Qed.
#[export] Instance growing_loop l : Growing (λ z, loop_ok z l).
Proof. apply growing_and; apply _. Qed.
#[export] Instance growing_expr r : Growing (λ z, expr_ok z r).
Proof. intros z z'. apply opt_ok_mono. Qed.
#[export] Instance growing_popt {A} (P : sizes → A → Prop) o :
  (∀ x, Growing (λ z, P z x)) → Growing (λ z, popt P z o).
Proof. intros HP z z' Hle. destruct o as [x|]; simpl; [by apply (HP x)|done]. Qed.
#[export] Instance growing_Forall {A} (P : sizes → A → Prop) l :
  (∀ x, Growing (λ z, P z x)) → Growing (λ z, Forall (P z) l).
Proof. intros HP z z' Hle Hl. eapply Forall_impl; [|exact Hl]. intros x. by apply (HP x). Qed.
#[export] Instance growing_traced {A} (t : A * list (Projection * option CfgValue)) :
  Growing (λ z, traced_ok z t).
Proof. apply (growing_Forall (λ z p, proj_ok z p.1)). apply _. Qed.
Lemma range_grow n n' s l : n ≤ n' → range_ok n s l → range_ok n' s l.
Proof. unfold range_ok. lia. Qed.
#[export] Instance growing_extra s l : Growing (λ z, range_ok (n_extra z) s l).
Proof. intros z z' (?&?&?&?&?&?). by apply range_grow. Qed.
#[export] Instance growing_call_args s l : Growing (λ z, range_ok (n_call_args z) s l).
Proof. intros z z' (?&?&?&?&?&?). by apply range_grow. Qed.
#[export] Instance growing_cases s l : Growing (λ z, range_ok (n_switch_cases z) s l).
Proof. intros z z' (?&?&?&?&?&?). by apply range_grow. Qed.

(** Moves the facts about the sizes [z] to the sizes [z']. *)
Ltac advance :=
  repeat match goal with
  | Hle : sizes_le ?z ?z', HP : context [?z] |- _ =>
      lazymatch type of HP with sizes_le _ _ => fail | _ => idtac end;
      pattern z in HP; apply (growing z z' Hle) in HP; cbv beta in HP
  end;
  repeat match goal with Hle : sizes_le ?z ?z' |- _ => clear Hle; try clear z end.

Section Invariant.
Context {Spur : Type} `{Countable Spur} `{!SpurKey Spur}.
Notation Builder := (CfgBuilder (Spur := Spur)).
Notation BuildM := (BuildM (Spur := Spur)).
Implicit Types b : Builder.

Definition bsizes b : sizes := sizes_of (b_cfg b).
(** The blocks and values the builder holds exist. *)
Record builder_ok b : Prop := {
  bo_current : blk_ok (bsizes b) (b_current_block b);
  bo_loops : Forall (loop_ok (bsizes b)) (b_loop_stack b);
  bo_cache : Forall (opt_ok (bsizes b)) (b_value_cache b);
}.

Definition fresh b0 (k : BlockId) : Prop := n_blocks (bsizes b0) ≤ k.
Definition own b0 (k : BlockId) : Prop := k = b_current_block b0 ∨ fresh b0 k.
Lemma fresh_own b0 k : fresh b0 k → own b0 k.
Proof. by right. Qed.

(** What a run that started in [b0] may have done to the blocks of [b0]. *)
Definition extends (blk blk' : BasicBlock) : Prop :=
  bb_id blk' = bb_id blk ∧ bb_params blk' = bb_params blk ∧ bb_insts blk `prefix_of` bb_insts blk'.
Definition block_framed b0 b (i : nat) : Prop :=
  if decide (Z.of_nat i = b_current_block b0)
  then ∃ blk blk', c_blocks (b_cfg b0) !! i = Some blk ∧ c_blocks (b_cfg b) !! i = Some blk' ∧
         extends blk blk'
  else c_blocks (b_cfg b) !! i = c_blocks (b_cfg b0) !! i.
Definition framed b0 b : Prop := ∀ i : nat, Z.of_nat i < n_blocks (bsizes b0) → block_framed b0 b i.

Record inv b0 b : Prop := {
  inv_wf : cfg_wf (b_cfg b);
  inv_ok : builder_ok b;
  inv_grows : grows b0 b;
  inv_own : own b0 (b_current_block b);
  inv_frame : framed b0 b;
}.

Lemma inv_start b : cfg_wf (b_cfg b) → builder_ok b → inv b b.
Proof.
  intros Hwf Hok. split; [done|done|apply grows_refl|by left|].
  intros i Hi. unfold block_framed. case_decide; [|done].
  unfold bsizes in Hi; simpl in Hi. unfold zlen in Hi.
  destruct (lookup_lt_is_Some_2 (c_blocks (b_cfg b)) i) as [blk Hb]; [lia|].
  exists blk, blk. by split_and!.
Qed.

(** Blocks change at one place that the run owns. *)
Lemma framed_insert b0 b b' k blk blk' :
  framed b0 b → blk_ok (bsizes b0) (b_current_block b0) → own b0 k → 0 ≤ k →
  c_blocks (b_cfg b) !! Z.to_nat k = Some blk →
  c_blocks (b_cfg b') = <[Z.to_nat k := blk']> (c_blocks (b_cfg b)) →
  (fresh b0 k ∨ extends blk blk') → framed b0 b'.
Proof.
  intros Hf Hcur Hown Hk Hblk Hb' Hext i Hi. specialize (Hf i Hi). unfold block_framed in *.
  unfold blk_ok, fresh, own in *. rewrite Hb'.
  case_decide as Hic.
  - destruct Hf as (blk0 & blk1 & H0 & H1 & Hx1 & Hx2 & Hx3).
    destruct (decide (Z.to_nat k = i)) as [<-|Hne].
    + destruct Hext as [?|(E1 & E2 & E3)]; [unfold fresh in *; lia|]. simplify_eq.
      exists blk0, blk'. split_and!; [done|by apply list_lookup_insert_eq; eapply lookup_lt_Some|].
      unfold extends. split_and!; [congruence..|by etransitivity].
    + exists blk0, blk1. rewrite list_lookup_insert_ne by done. by split_and!.
  - rewrite list_lookup_insert_ne; [done|]. unfold fresh in *. lia.
Qed.
Lemma framed_app b0 b b' bs :
  framed b0 b → grows b0 b → c_blocks (b_cfg b') = c_blocks (b_cfg b) ++ bs → framed b0 b'.
Proof.
  intros Hf Hg Hb' i Hi. specialize (Hf i Hi). unfold block_framed in *.
  apply cgrows_sizes in Hg as (Hle & _). unfold bsizes in *; simpl in *. unfold zlen in *.
  rewrite Hb', lookup_app_l by lia. done.
Qed.
Lemma framed_same b0 b b' :
  framed b0 b → c_blocks (b_cfg b') = c_blocks (b_cfg b) → framed b0 b'.
Proof. intros Hf Hb' i Hi. specialize (Hf i Hi). unfold block_framed in *. by rewrite Hb'. Qed.
Lemma builder_ok_grow b b' :
  builder_ok b → grows b b' → b_current_block b' = b_current_block b →
  b_loop_stack b' = b_loop_stack b → b_value_cache b' = b_value_cache b → builder_ok b'.
Proof.
  intros [Hc Hl Hv] Hg%cgrows_sizes E1 E2 E3. split; [rewrite E1|rewrite E2|rewrite E3].
  - by eapply blk_ok_mono.
  - exact (growing (P := λ z, Forall (loop_ok z) _) _ _ Hg Hl).
  - exact (growing (P := λ z, Forall (opt_ok z) _) _ _ Hg Hv).
Qed.
End Invariant.

(** ** The logic *)
Section Logic.
Context {Spur : Type} `{Countable Spur} `{!SpurKey Spur}.
Notation Builder := (CfgBuilder (Spur := Spur)).
Notation BuildM := (BuildM (Spur := Spur)).
Implicit Types (b : Builder) (z : sizes).
Context (b0 : Builder) (Hb0 : blk_ok (bsizes b0) (b_current_block b0)).

Definition keeps {A} z (P : sizes → A → Prop) (m : BuildM A) : Prop :=
  ∀ b a b', m b = Done (a, b') → small (b_cfg b') → inv b0 b → sizes_le z (bsizes b) →
    inv b0 b' ∧ sizes_le z (bsizes b') ∧ P (bsizes b') a.

Lemma keeps_ret {A} z (P : sizes → A → Prop) a : Growing (λ z, P z a) → P z a → keeps z P (mret a).
Proof.
  intros Hg HP b x b' Hr _ Hinv Hle. injection Hr as <- <-. split_and!; [done..|].
  by apply (Hg z (bsizes b)).
Qed.
Lemma keeps_bind {A B} z (P : sizes → A → Prop) Q (m : BuildM A) (f : A → BuildM B) :
  keeps z P m → (∀ a, mono (f a)) → (∀ a z', sizes_le z z' → P z' a → keeps z' Q (f a)) →
  keeps z Q (m ≫= f).
Proof.
  intros Hm Hmono Hf b x b' ([a b1] & H1 & H2)%bind_Done Hsm Hinv Hle. simpl in H2.
  pose proof (Hmono _ _ _ _ H2) as Hg.
  edestruct (Hm b a b1) as (Hinv1 & Hle1 & HP); [done|by eapply small_mono|done..|].
  edestruct (Hf a (bsizes b1)) as (? & ? & ?); [done..|]. split_and!; [done| |done]. by etransitivity.
Qed.
Lemma keeps_or_diverge {A} z (P : sizes → A → Prop) (m : BuildM (option A)) k :
  keeps z (popt P) m → (∀ a, mono (k a)) →
  (∀ a z', sizes_le z z' → P z' a → keeps z' expr_ok (k a)) → keeps z expr_ok (or_diverge m k).
Proof.
  intros Hm Hmono Hk. eapply keeps_bind; [exact Hm|intros []; solve_mono|].
  intros [a|] z' Hle HP; [by apply Hk|]. by apply keeps_ret; [apply _|].
Qed.
Lemma keeps_or_none {A B} z (P : sizes → A → Prop) (Q : sizes → B → Prop) (m : BuildM (option A))
    (k : A → BuildM (option B)) :
  keeps z (popt P) m → (∀ a, mono (k a)) →
  (∀ a z', sizes_le z z' → P z' a → keeps z' (popt Q) (k a)) → keeps z (popt Q) (or_none m k).
Proof.
  intros Hm Hmono Hk. eapply keeps_bind; [exact Hm|intros []; solve_mono|].
  intros [a|] z' Hle HP; [by apply Hk|]. by apply keeps_ret; [intros ? ? ?|].
Qed.
Lemma keeps_lift {A} z (o : outcome A) : keeps z (λ _ a, o = Done a) (lift_b o).
Proof. intros b x b' (a & Ho & Hr)%bind_Done _ Hinv Hle. by injection Hr as <- <-. Qed.
Lemma keeps_get {A} z (f : Builder → A) (P : sizes → A → Prop) :
  (∀ b, inv b0 b → P (bsizes b) (f b)) → keeps z P (getb f).
Proof. intros HP b x b' Hr _ Hinv Hle. injection Hr as <- <-. eauto. Qed.
Lemma keeps_panic {A} z P : keeps z P (λ _ : Builder, @Panic (A * Builder)).
Proof. by intros b a b'. Qed.
Lemma keeps_nofuel {A} z P : keeps z P (λ _ : Builder, @NoFuel (A * Builder)).
Proof. by intros b a b'. Qed.
Lemma keeps_weaken {A} z (P Q : sizes → A → Prop) m :
  keeps z P m → (∀ z' a, P z' a → Q z' a) → keeps z Q m.
Proof. intros Hm HPQ b a b' Hd Hsm Hinv Hle. edestruct Hm as (? & ? & ?); eauto. Qed.
Lemma keeps_foldM {A B} z (P : sizes → B → Prop) (f : B → A → BuildM B) l acc :
  (∀ acc, Growing (λ z, P z acc)) → (∀ acc a, mono (f acc a)) → P z acc →
  (∀ z' acc x, sizes_le z z' → x ∈ l → P z' acc → keeps z' P (f acc x)) →
  keeps z P (foldM f acc l).
Proof.
  intros Hg Hmono. revert z acc; induction l as [|x l IH]; intros z acc HP Hf; simpl.
  - by apply keeps_ret.
  - eapply keeps_bind; [apply Hf; [reflexivity|by left|done]|intros; by apply mono_foldM|].
    intros acc' z' Hle HP'. apply IH; [done|]. intros z2 acc2 y Hle2 Hy. apply Hf; [by etransitivity|by right].
Qed.
Lemma keeps_for_each {A} z (f : A → BuildM ()) l :
  (∀ a, mono (f a)) → (∀ z' x, sizes_le z z' → x ∈ l → keeps z' (λ _ _, True) (f x)) →
  keeps z (λ _ _, True) (for_each f l).
Proof.
  intros Hmono Hf. apply keeps_foldM; [intros; apply growing_const|intros; apply Hmono|done|].
  intros; by apply Hf.
Qed.
Lemma keeps_mapM {A B} z (P : sizes → B → Prop) (f : A → BuildM B) l :
  (∀ x, Growing (λ z, P z x)) → (∀ a, mono (f a)) →
  (∀ z' x, sizes_le z z' → x ∈ l → keeps z' P (f x)) →
  keeps z (λ z' vs, Forall (P z') vs ∧ length vs = length l) (mapM f l).
Proof.
  intros Hg Hmono. revert z; induction l as [|x l IH]; intros z Hf; simpl.
  - by apply keeps_ret; [apply _|].
  - eapply keeps_bind; [apply Hf; [reflexivity|by left]
      |intros; apply mono_bind; [by apply mono_mapM|intros; apply mono_ret]|].
    intros v z1 Hle1 Hv. eapply keeps_bind; [apply IH|intros; apply mono_ret|].
    + intros z2 y Hle2 Hy. apply Hf; [by etransitivity|by right].
    + intros vs z2 Hle2 [Hvs Hlen]. apply keeps_ret; [apply _|]. simpl. rewrite Hlen. split; [|done].
      constructor; [by apply (Hg v z1)|done].
Qed.

(** Operations of the builder. *)
Lemma keeps_mod z f :
  (∀ b, b_cfg (f b) = b_cfg b ∧ b_current_block (f b) = b_current_block b ∧
        b_loop_stack (f b) = b_loop_stack b ∧ b_value_cache (f b) = b_value_cache b) →
  keeps z (λ _ _, True) (modb f).
Proof.
  intros Hf b x b' Hr _ Hinv Hle. injection Hr as <- <-. destruct (Hf b) as (E1 & E2 & E3 & E4).
  assert (Hz : bsizes (f b) = bsizes b) by (unfold bsizes; by rewrite E1).
  split_and!; [|by rewrite Hz|done]. destruct Hinv. split; [by rewrite E1| | | |].
  - eapply builder_ok_grow; [done| |done..]. unfold grows. rewrite E1. reflexivity.
  - unfold grows in *. by rewrite E1.
  - by rewrite E2.
  - eapply framed_same; [done|by rewrite E1].
Qed.
Lemma keeps_set_current z k : own b0 k → blk_ok z k → keeps z (λ _ _, True) (set_current k).
Proof.
  intros Hown Hk b x b' Hr _ Hinv Hle. injection Hr as <- <-. split_and!; [|done..].
  destruct Hinv as [? [] ? ? ?]. split; try done. split; try done. by eapply blk_ok_mono.
Qed.
Lemma keeps_push_loop z h e : blk_ok z h → blk_ok z e → keeps z (λ _ _, True) (push_loop h e).
Proof.
  intros Hh He b x b' Hr _ Hinv Hle. injection Hr as <- <-. split_and!; [|done..].
  destruct Hinv as [? [] ? ? ?]. split; try done. split; try done. simpl. constructor; [|done].
  split; by eapply blk_ok_mono.
Qed.
Lemma keeps_pop_loop z : keeps z (λ _ _, True) pop_loop.
Proof.
  intros b x b' Hr _ Hinv Hle. injection Hr as <- <-. split_and!; [|done..].
  destruct Hinv as [? [? Hl ?] ? ? ?]. split; try done. split; try done. simpl.
  by destruct Hl.
Qed.
Lemma keeps_cache z r v : val_ok z v → keeps z (λ _ _, True) (cache r v).
Proof.
  intros Hv b x b' Hr _ Hinv Hle. unfold cache in Hr. case_decide; [|done].
  injection Hr as <- <-. split_and!; [|done..].
  destruct Hinv as [? [] ? ? ?]. split; try done. split; try done. simpl.
  apply Forall_insert; [done|]. by eapply (val_ok_mono z).
Qed.
Lemma keeps_pop_scope z : keeps z (λ _ _, True) pop_scope.
Proof.
  intros b x b' Hr _ Hinv Hle. unfold pop_scope in Hr. case_match; injection Hr as <- <-; [|done].
  split_and!; [|done..]. destruct Hinv as [? [] ? ? ?]. by do 2 (split; try done).
Qed.

(** Operations of the graph. *)
Lemma keeps_cfg {A} z (P : sizes → A → Prop) (m : ST (Cfg Spur) A) :
  mono (cfg_do m) →
  (∀ b a c, m (b_cfg b) = Done (a, c) → small c → inv b0 b → sizes_le z (bsizes b) →
    cfg_wf c ∧ framed b0 (set_b_cfg c b) ∧ P (sizes_of c) a) →
  keeps z P (cfg_do m).
Proof.
  intros Hmono Hm b x b' Hd Hsm Hinv Hle. pose proof (Hmono _ _ _ Hd) as Hg.
  apply bind_Done in Hd as ([a c] & H1 & Hr). injection Hr as <- <-.
  destruct (Hm b a c) as (Hwf & Hf & HP); [done..|]. split_and!; [|by etransitivity; [|by apply cgrows_sizes]|done].
  destruct Hinv. split; try done.
  - eapply builder_ok_grow; [exact inv_ok0|done..].
  - unfold grows in *. by etransitivity.
Qed.
Lemma keeps_new_block z :
  keeps z (λ z' k, blk_ok z' k ∧ fresh b0 k) (cfg_do new_block).
Proof.
  apply keeps_cfg; [apply mono_new_block|]. intros b k c Hn Hsm Hinv Hle.
  apply new_block_Done in Hn as (Hwf & -> & Hc); [|done|apply Hinv]. split_and!; [done| | |].
  - eapply framed_app; [apply Hinv..|exact Hc].
  - unfold blk_ok, sizes_of; simpl. rewrite Hc, zlen_app. unfold zlen; simpl; lia.
  - pose proof (cgrows_sizes _ _ (inv_grows _ _ Hinv)) as (Hle' & _). exact Hle'.
Qed.
Lemma keeps_set_terminator z k t :
  own b0 k → blk_ok z k → term_ok z t → keeps z (λ _ _, True) (cfg_do (set_terminator k t)).
Proof.
  intros Hown Hk Ht. apply keeps_cfg; [apply mono_set_terminator|]. intros b u c Hs Hsm Hinv Hle.
  apply set_terminator_Done in Hs as (Hwf & blk & Hblk & ->);
    [|apply Hinv|by eapply term_ok_mono]. split_and!; [done| |done].
  eapply framed_insert; [apply Hinv|done|done|apply Hk|done..|]. right. by split_and!.
Qed.
Lemma keeps_add_inst z k inst :
  own b0 k → blk_ok z k → inst_ok z (ci_data inst) → keeps z val_ok (cfg_do (add_inst_to_block k inst)).
Proof.
  intros Hown Hk Hi. apply keeps_cfg; [apply mono_add_inst|]. intros b v c Hs Hsm Hinv Hle.
  apply add_inst_to_block_Done in Hs as (Hwf & -> & blk & Hblk & ->);
    [|done|apply Hinv|by eapply inst_ok_mono]. split_and!; [done| |].
  - eapply framed_insert; [apply Hinv|done|done|apply Hk|done..|]. right. split_and!; [done..|]. apply prefix_app_self.
  - unfold val_ok; simpl. rewrite zlen_app. unfold zlen; simpl; lia.
Qed.
Lemma keeps_add_block_param z k ty :
  fresh b0 k → blk_ok z k → keeps z val_ok (cfg_do (add_block_param k ty)).
Proof.
  intros Hown Hk. apply keeps_cfg; [apply mono_add_block_param|]. intros b v c Hs Hsm Hinv Hle.
  apply add_block_param_Done in Hs as (Hwf & -> & blk & inst & Hblk & ->);
    [|done|apply Hinv]. split_and!; [done| |].
  - eapply framed_insert; [apply Hinv|done|by right|apply Hk|done..|]. by left.
  - unfold val_ok; simpl. rewrite zlen_app. unfold zlen; simpl; lia.
Qed.
Lemma keeps_push_extra z vs :
  Forall (val_ok z) vs →
  keeps z (λ z' r, range_ok (n_extra z') r.1 r.2) (cfg_do (push_extra vs)).
Proof.
  intros Hvs. apply keeps_cfg; [apply mono_push_extra|]. intros b [s n] c Hs Hsm Hinv Hle.
  apply push_extra_Done in Hs as (Hwf & -> & _ & _ & Hr);
    [|done|apply Hinv|exact (growing (P := λ z, Forall (val_ok z) vs) _ _ Hle Hvs)].
  split_and!; [done| |done]. eapply framed_same; [apply Hinv|done].
Qed.
Lemma keeps_push_call_args z vs :
  Forall (λ a, val_ok z (cca_value a)) vs →
  keeps z (λ z' r, range_ok (n_call_args z') r.1 r.2) (cfg_do (push_call_args vs)).
Proof.
  intros Hvs. apply keeps_cfg; [apply mono_push_call_args|]. intros b [s n] c Hs Hsm Hinv Hle.
  apply push_call_args_Done in Hs as (Hwf & -> & _ & _ & Hr);
    [|done|apply Hinv|exact (growing (P := λ z, Forall (λ a, val_ok z (cca_value a)) vs) _ _ Hle Hvs)].
  split_and!; [done| |done]. eapply framed_same; [apply Hinv|done].
Qed.
Lemma keeps_push_switch_cases z vs :
  Forall (λ x, blk_ok z x.2) vs →
  keeps z (λ z' r, range_ok (n_switch_cases z') r.1 r.2) (cfg_do (push_switch_cases vs)).
Proof.
  intros Hvs. apply keeps_cfg; [apply mono_push_switch_cases|]. intros b [s n] c Hs Hsm Hinv Hle.
  apply push_switch_cases_Done in Hs as (Hwf & -> & _ & _ & Hr);
    [|done|apply Hinv|exact (growing (P := λ z, Forall (λ x, blk_ok z x.2) vs) _ _ Hle Hvs)].
  split_and!; [done| |done]. eapply framed_same; [apply Hinv|done].
Qed.
Lemma keeps_make_place z base vs :
  Forall (proj_ok z) vs → keeps z place_ok (cfg_do (cfg_make_place base vs)).
Proof.
  intros Hvs. apply keeps_cfg; [apply mono_make_place|].
  intros b pl c ([[s n] c1] & Hs & Hr)%bind_Done Hsm Hinv Hle. injection Hr as <- <-.
  apply push_projections_Done in Hs as (Hwf & -> & _ & _ & Hr);
    [|done|apply Hinv|exact (growing (P := λ z, Forall (proj_ok z) vs) _ _ Hle Hvs)].
  split_and!; [done| |done]. eapply framed_same; [apply Hinv|done].
Qed.
(** Operations that change no vector. *)
Lemma keeps_plain {A} z (m : ST (Cfg Spur) A) :
  (∀ c a c', m c = Done (a, c') → c_blocks c' = c_blocks c ∧ sizes_of c' = sizes_of c ∧
    (cfg_wf c → cfg_wf c')) →
  mono (cfg_do m) → keeps z (λ _ _, True) (cfg_do m).
Proof.
  intros Hm Hmono. apply keeps_cfg; [done|]. intros b v c Hd Hsm Hinv Hle.
  apply Hm in Hd as (E1 & E2 & Hwf). split_and!; [apply Hwf, Hinv| |done].
  eapply framed_same; [apply Hinv|done].
Qed.
Lemma keeps_alloc_temp z : keeps z (λ _ _, True) (cfg_do alloc_temp_local).
Proof.
  apply keeps_plain; [|apply mono_alloc_temp]. intros c v c' (n & _ & Hr)%bind_Done.
  injection Hr as <- <-. split_and!; [done..|]. intros []; by split.
Qed.
Lemma keeps_record_spawn z v t : keeps z (λ _ _, True) (cfg_do (cfg_record_spawn_target v t)).
Proof.
  apply keeps_plain; [|apply mono_record_spawn]. intros c u c' Hr.
  injection Hr as <- <-. split_and!; [done..|]. intros []; by split.
Qed.
End Logic.

Create HintDb keeps discriminated.
#[export] Hint Resolve keeps_lift keeps_panic keeps_nofuel keeps_set_current keeps_push_loop keeps_pop_loop
  keeps_cache keeps_pop_scope keeps_new_block keeps_set_terminator keeps_add_inst
  keeps_add_block_param keeps_push_extra keeps_push_call_args keeps_push_switch_cases
  keeps_make_place keeps_alloc_temp keeps_record_spawn : keeps.

(** Closes side conditions about operands. *)
Ltac ok_step :=
  match goal with
  | |- _ ∧ _ => split
  | |- Forall _ [] => constructor
  | |- Forall _ (_ :: _) => constructor
  | |- own _ _ => apply fresh_own; assumption
  | |- blk_ok _ _ => assumption
  end.
Ltac ok := simpl; repeat first [assumption | done | progress simpl in * | ok_step].
#[export] Hint Extern 1 (inst_ok _ _) => solve [ok] : keeps.
#[export] Hint Extern 1 (term_ok _ _) => solve [ok] : keeps.
#[export] Hint Extern 1 (Forall _ _) => solve [ok] : keeps.
#[export] Hint Extern 1 (own _ _) => solve [ok] : keeps.
#[export] Hint Extern 1 (fresh _ _) => solve [ok] : keeps.
#[export] Hint Extern 1 (blk_ok _ _) => solve [ok] : keeps.
#[export] Hint Extern 1 (val_ok _ _) => solve [ok] : keeps.
#[export] Hint Extern 1 (opt_ok _ _) => solve [ok] : keeps.
#[export] Hint Extern 1 (place_ok _ _) => solve [ok] : keeps.
#[export] Hint Extern 1 (proj_ok _ _) => solve [ok] : keeps.

(** Steps through a computation: binds are opened, named steps are closed by the hints. *)
Ltac after := let Hle := fresh "Hle" in let HP := fresh "HP" in
  intros ? ? Hle HP; advance; simpl in HP; destruct_and?.
Ltac keeps_hyp := match goal with Hm : ∀ _, _ |- keeps _ _ _ _ => solve [eapply Hm; ok] end.
Ltac call := first [solve [eauto 2 with keeps nocore] | keeps_hyp].
Ltac keeps_step :=
  lazymatch goal with
  | |- keeps _ _ _ (match ?x with _ => _ end) => destruct x; simpl in *
  | |- keeps _ _ _ (mret _) => apply keeps_ret; [try apply _; done|solve [ok]]
  | |- keeps _ _ _ (modb _) => apply keeps_mod; intros; repeat case_match; done
  | |- keeps _ _ _ (or_diverge _ _) => eapply keeps_or_diverge; [call|solve [solve_mono]|after]
  | |- keeps _ _ _ (or_none _ _) => eapply keeps_or_none; [call|solve [solve_mono]|after]
  | |- keeps _ _ _ (_ ≫= _) =>
      first [eapply keeps_bind; [call|solve [solve_mono]|after]
            |apply (keeps_bind _ _ (λ _ (_ : ()), True)); [|solve [solve_mono]|after]]
  | |- keeps _ _ _ _ => first [call | eapply keeps_weaken; [call|intros; ok]]
  end.
Ltac solve_keeps := repeat keeps_step.
