(* ===== verification/CfgWf.v ===== *)
(** * Lowering keeps the graph well-formed: every step

    The rules of [CfgLower] applied to every step of [CfgBuild], down to [lower_inst]
    and [build]. *)

From S2P Require Import Prelude Types LayoutTypes InternPool Layout AirPattern Air ParamArena.
From S2P Require Import DropNames Cfg CfgBuild CfgTheory CfgMono CfgLower CfgSample.

#[local] Open Scope Z_scope.

Section Steps.
Context {Spur : Type} `{Countable Spur} `{!SpurKey Spur}.
Context (air : Air (Spur := Spur)) (pool : TypeInternPool (Spur := Spur)) (resolve : Spur → string)
  (tf : nat).
Notation Builder := (CfgBuilder (Spur := Spur)).
Notation BuildM := (BuildM (Spur := Spur)).
Context (b0 : Builder) (Hb0 : blk_ok (bsizes b0) (b_current_block b0)).
Notation keeps := (keeps b0).

Lemma keeps_current z : keeps z (λ z' k, blk_ok z' k ∧ own b0 k) (getb b_current_block).
Proof. apply keeps_get. intros b Hinv. split; [apply Hinv|apply Hinv]. Qed.
#[local] Hint Resolve keeps_current : keeps.
Lemma keeps_emit z d ty sp : inst_ok z d → keeps z val_ok (emit d ty sp).
Proof. intros Hd. unfold emit. solve_keeps. Qed.
Lemma keeps_terminate z t : term_ok z t → keeps z (λ _ _, True) (terminate t).
Proof. intros Ht. unfold terminate. solve_keeps. Qed.
#[local] Hint Resolve keeps_emit keeps_terminate : keeps.
Lemma keeps_emit_unit z d sp : inst_ok z d → keeps z (λ _ _, True) (emit_unit d sp).
Proof. intros Hd. unfold emit_unit. solve_keeps. Qed.
Lemma keeps_cached z r v : val_ok z v → keeps z expr_ok (cached r v).
Proof. intros Hv. unfold cached. solve_keeps. Qed.
Lemma keeps_goto z k args :
  blk_ok z k → Forall (val_ok z) args → keeps z (λ _ _, True) (goto k args).
Proof. intros Hk Ha. unfold goto. solve_keeps. Qed.
Lemma keeps_goto_from z k k' args :
  own b0 k → blk_ok z k → blk_ok z k' → Forall (val_ok z) args →
  keeps z (λ _ _, True) (goto_from k k' args).
Proof. intros Ho Hk Hk' Ha. unfold goto_from. solve_keeps. Qed.
Lemma keeps_branch_to z v k k' :
  val_ok z v → blk_ok z k → blk_ok z k' → keeps z (λ _ _, True) (branch_to v k k').
Proof. intros Hv Hk Hk'. unfold branch_to. solve_keeps. Qed.
Lemma keeps_air_inst z r : keeps z (λ _ _, True) (air_inst air r).
Proof. unfold air_inst. eapply keeps_weaken; [apply keeps_lift|done]. Qed.
#[local] Hint Resolve keeps_emit_unit keeps_cached keeps_goto keeps_goto_from keeps_branch_to
  keeps_air_inst : keeps.
Lemma keeps_air_ty z r : keeps z (λ _ _, True) (air_ty air r).
Proof. unfold air_ty. solve_keeps. Qed.
Lemma keeps_needs_drop z ty : keeps z (λ _ _, True) (needs_drop pool tf ty).
Proof. unfold needs_drop. eapply keeps_weaken; [apply keeps_lift|done]. Qed.
#[local] Hint Resolve keeps_air_ty keeps_needs_drop : keeps.
Lemma keeps_forget z r : keeps z (λ _ _, True) (forget_consumed_value air pool tf r).
Proof. unfold forget_consumed_value, forget_local_slot, forget_param. solve_keeps. Qed.
Lemma keeps_re_add z slot ty sp : keeps z (λ _ _, True) (re_add_local_slot slot ty sp).
Proof. unfold re_add_local_slot. solve_keeps. Qed.
Lemma keeps_drop_param z lp sp : keeps z (λ _ _, True) (emit_drop_for_param lp sp).
Proof. unfold emit_drop_for_param. solve_keeps. Qed.
#[local] Hint Resolve keeps_forget keeps_re_add keeps_drop_param : keeps.
Lemma keeps_drop_slot z ls sp : keeps z (λ _ _, True) (emit_drop_for_slot pool tf ls sp).
Proof. unfold emit_drop_for_slot. solve_keeps. Qed.
#[local] Hint Resolve keeps_drop_slot : keeps.
Lemma keeps_getb_any {A} z (f : Builder → A) : keeps z (λ _ _, True) (getb f).
Proof. by apply keeps_get. Qed.
Lemma keeps_drop_all z sp : keeps z (λ _ _, True) (emit_drops_for_all_scopes pool tf sp).
Proof.
  unfold emit_drops_for_all_scopes. eapply keeps_bind; [apply keeps_getb_any|solve_mono|after].
  eapply keeps_bind; [apply keeps_for_each; [solve_mono|intros; call]|solve_mono|after].
  eapply keeps_bind; [apply keeps_getb_any|solve_mono|after].
  apply keeps_for_each; [solve_mono|intros; call].
Qed.
Lemma keeps_drop_loop z n sp : keeps z (λ _ _, True) (emit_drops_for_loop_exit pool tf n sp).
Proof.
  unfold emit_drops_for_loop_exit. eapply keeps_bind; [apply keeps_getb_any|solve_mono|after].
  apply keeps_for_each; [solve_mono|intros; call].
Qed.
Lemma keeps_read_projected z slot ty ps sp :
  Forall (proj_ok z) ps → keeps z val_ok (read_projected slot ty ps sp).
Proof. intros Hps. unfold read_projected. solve_keeps. Qed.
Lemma keeps_disc_type z ty : keeps z (λ _ _, True) (enum_discriminant_type pool ty).
Proof. unfold enum_discriminant_type. solve_keeps. Qed.
#[local] Hint Resolve keeps_drop_all keeps_drop_loop keeps_read_projected keeps_disc_type : keeps.

Definition scr_ok z (s : Scrutinee) : Prop := Forall (proj_ok z) (scr_projection s).
Definition tgt_ok z (t : BranchTargets) : Prop := blk_ok z (bt_matched t) ∧ blk_ok z (bt_unmatched t).
#[local] Instance growing_scr s : Growing (λ z, scr_ok z s).
Proof. apply growing_Forall. apply _. Qed.
#[local] Instance growing_tgt s : Growing (λ z, tgt_ok z s).
Proof. apply growing_and; apply _. Qed.

Lemma keeps_disc_cond z scr i sp : scr_ok z scr → keeps z val_ok (discriminant_cond pool scr i sp).
Proof. unfold scr_ok. intros Hs. unfold discriminant_cond. solve_keeps. Qed.
#[local] Hint Resolve keeps_disc_cond : keeps.

Lemma keeps_test_chain z k (tests : list (BlockId → BuildM ())) :
  blk_ok z k → (∀ t next, t ∈ tests → mono (t next)) →
  (∀ z' t next, sizes_le z z' → t ∈ tests → blk_ok z' next → keeps z' (λ _ _, True) (t next)) →
  keeps z (λ _ _, True) (test_chain k tests).
Proof.
  revert z; induction tests as [|t [|t' tests] IH]; intros z Hk Hmono Ht; cbn [test_chain].
  - keeps_step.
  - apply Ht; [reflexivity|by left|done].
  - assert (Hrest : ∀ z', sizes_le z z' → keeps z' (λ _ _, True) (test_chain k (t' :: tests))).
    { intros z' Hle. apply IH; [by eapply blk_ok_mono|set_solver|].
      intros z2 t2 next Hle2 Ht2. apply Ht; [by etransitivity|by right]. }
    assert (Hmr : mono (test_chain k (t' :: tests))).
    { apply mono_test_chain. intros; apply Hmono; by right. }
    eapply keeps_bind; [call|intros; repeat (apply mono_bind; [first [apply Hmono; by left|eauto with mono]|]; intros); done|].
    intros next z1 Hle1 [Hn1 Hn2].
    eapply keeps_bind; [apply Ht; [done|by left|done]|intros; repeat (apply mono_bind; [eauto with mono|]; intros); done|].
    intros _ z2 Hle2 _. eapply keeps_bind; [apply keeps_set_current; [by right|by eapply blk_ok_mono]|done|].
    intros _ z3 Hle3 _. apply Hrest. do 2 (etransitivity; [done|]). done.
Qed.

Definition test_ok (test : Scrutinee → BranchTargets → BuildM ()) : Prop :=
  (∀ s t, mono (test s t)) ∧
  ∀ z s t, scr_ok z s → tgt_ok z t → keeps z (λ _ _, True) (test s t).

Lemma keeps_payload_test z vd v i u sp f next :
  val_ok z v → blk_ok z u → blk_ok z next → test_ok f.2 →
  keeps z (λ _ _, True) (emit_payload_test vd v i u sp f next).
Proof.
  intros Hv Hu Hn [Hmono Ht]. unfold emit_payload_test. solve_keeps. apply Ht; [constructor|by split].
Qed.
Lemma keeps_enum_fields z scr i fields tgt sp :
  scr_ok z scr → tgt_ok z tgt → (∀ f, f ∈ fields → test_ok f.2) →
  keeps z (λ _ _, True) (emit_enum_field_tests pool scr i fields tgt sp).
Proof.
  intros Hs [Hm Hu] Hf. unfold emit_enum_field_tests. unfold scr_ok in Hs.
  set (nt := non_trivial fields). assert (Hnt : ∀ f, f ∈ nt → test_ok f.2).
  { intros f [_ Hin]%list_elem_of_filter. by apply Hf. }
  assert (Hchain : ∀ vd v, mono (test_chain (bt_matched tgt)
      (map (emit_payload_test vd v i (bt_unmatched tgt) sp) nt))).
  { intros vd v. apply mono_test_chain. intros t (f & -> & Hin)%list_elem_of_fmap next.
    apply mono_payload_test, Hnt, Hin. }
  do 3 (eapply keeps_bind; [apply keeps_lift|destruct nt; solve_mono; apply Hchain|after]).
  destruct nt as [|f0 nt']; [call|]. eapply keeps_bind; [call|intros; apply Hchain|after].
  apply keeps_test_chain; [done| |].
  - intros t next (f & -> & Hin)%list_elem_of_fmap. apply mono_payload_test, Hnt, Hin.
  - intros z2 t next Hle2 (f & -> & Hin)%list_elem_of_fmap Hnext. advance.
    apply keeps_payload_test; [done..|]. by apply Hnt.
Qed.
Lemma keeps_variant_test z scr i fields tgt sp :
  scr_ok z scr → tgt_ok z tgt → (∀ f, f ∈ fields → test_ok f.2) →
  keeps z (λ _ _, True) (emit_variant_test pool scr i fields tgt sp).
Proof.
  intros Hs [Hm Hu] Hf. unfold emit_variant_test.
  assert (Hmono : ∀ s, mono (emit_enum_field_tests pool s i fields tgt sp)).
  { intros s. apply mono_enum_fields. intros f Hin. apply Hf, Hin. }
  keeps_step. case_match; [call|]. do 3 keeps_step. by apply keeps_enum_fields.
Qed.
Lemma keeps_field_test z sid scr i j test u next :
  scr_ok z scr → blk_ok z u → blk_ok z next → test_ok test →
  keeps z (λ _ _, True) (emit_field_test pool sid scr i j test u next).
Proof.
  intros Hs Hu Hn [Hmono Ht]. unfold emit_field_test. unfold scr_ok in Hs. solve_keeps.
  apply Ht; [|by split]. unfold scr_ok; simpl. apply Forall_app. split; [done|]. by repeat constructor.
Qed.

(** A chain of field tests. *)
Definition field_tests scr u (tests : list (BlockId → BuildM ())) : Prop :=
  ∀ t, t ∈ tests → ∃ sid i j test, t = emit_field_test pool sid scr i j test u ∧ test_ok test.
Lemma mono_field_chain scr u k tests : field_tests scr u tests → mono (test_chain k tests).
Proof.
  intros Ht. apply mono_test_chain. intros t (sid & i & j & test & -> & [Hm _])%Ht next.
  by apply mono_field_test.
Qed.
Lemma keeps_field_chain z scr tgt tests :
  scr_ok z scr → tgt_ok z tgt → field_tests scr (bt_unmatched tgt) tests →
  keeps z (λ _ _, True) (test_chain (bt_matched tgt) tests).
Proof.
  intros Hs [Hm Hu] Ht. apply keeps_test_chain; [done| |].
  - intros t next (sid & i & j & test & -> & [Hmt _])%Ht. by apply mono_field_test.
  - intros z2 t next Hle (sid & i & j & test & -> & Htest)%Ht Hnext. advance.
    by apply keeps_field_test.
Qed.

Lemma pattern_test_ok (q : AirPattern Spur) sp : test_ok (emit_pattern_test pool q sp).
Proof.
  induction q using AirPattern_tree_ind; (split; [intros; apply mono_pattern_test|]);
    intros z scr tgt Hs Ht; pose proof Ht as [Hm Hu]; pose proof Hs as Hs'; unfold scr_ok in Hs'; simpl;
    try solve [solve_keeps]; try (eapply IHq; done).
  - assert (Htests : ∀ sid, field_tests scr (bt_unmatched tgt)
      (imap (λ i test, emit_field_test pool sid scr i (wrap 32 (Z.of_nat i)) test (bt_unmatched tgt))
        (map (λ q, emit_pattern_test pool q sp) l))).
    { intros sid t (i & test & -> & Htest)%elem_of_lookup_imap. rewrite list_lookup_fmap in Htest.
      apply fmap_Some in Htest as (q & Hq & ->). do 4 eexists. split; [done|].
      exact (Forall_lookup_1 _ _ _ _ H0 Hq). }
    do 2 (eapply keeps_bind; [apply keeps_lift|solve_mono; by eapply mono_field_chain|after]).
    by apply (keeps_field_chain _ scr).
  - apply (keeps_field_chain _ scr); [done..|]. intros t ([idx q] & -> & Hq%list_elem_of_In)%list_elem_of_fmap.
    do 4 eexists. split; [done|]. rewrite Forall_forall in H0. by apply (H0 (idx, q)).
  - apply keeps_variant_test; [done..|]. intros f (i & [q test] & -> & Htest)%elem_of_lookup_imap.
    rewrite list_lookup_fmap in Htest. apply fmap_Some in Htest as (q' & Hq & [= -> ->]).
    exact (Forall_lookup_1 _ _ _ _ H0 Hq).
  - apply keeps_variant_test; [done..|]. intros f ([idx q] & -> & Hq%list_elem_of_In)%list_elem_of_fmap.
    rewrite Forall_forall in H0. by apply (H0 (idx, q)).
Qed.

(** ** The arms *)
Section Arms.
Context (lower : AirRef → BuildM ExprResult)
  (trace : AirRef → BuildM TracedPlace) (r0 : AirRef) (ty : Ty) (sp : Span).
Hypothesis Hml : ∀ r, mono (lower r).
Hypothesis Hmt : ∀ r, mono (trace r).
Hypothesis Hlower : ∀ z r, keeps z expr_ok (lower r).
Hypothesis Htrace : ∀ z r, keeps z (popt traced_ok) (trace r).

Lemma keeps_lower_value z r : keeps z (popt val_ok) (lower_value lower r).
Proof.
  unfold lower_value. eapply keeps_bind; [apply Hlower|solve_mono|]. intros [v []] z' Hle HP; simpl.
  - apply keeps_ret; [apply _|]. by destruct v.
  - apply keeps_ret; [by intros ???|done].
Qed.
#[local] Hint Resolve keeps_lower_value : keeps.
Lemma keeps_lower_values z rs :
  keeps z (popt (λ z' vs, Forall (val_ok z') vs ∧ length vs = length rs)) (lower_values lower rs).
Proof.
  revert z; induction rs as [|r rs IH]; intros z; simpl.
  - apply keeps_ret; [apply _|]. by repeat constructor.
  - eapply keeps_or_none; [call|solve_mono|after]. eapply keeps_or_none; [apply IH|solve_mono|after].
    apply keeps_ret; [apply _|]. simpl. split; [by constructor|]. by f_equal.
Qed.
Lemma keeps_lower_option z r : keeps z (popt opt_ok) (lower_option lower r).
Proof. destruct r; simpl; solve_keeps. Qed.
Lemma keeps_lower_emit z d : inst_ok z d → keeps z expr_ok (lower_emit r0 ty sp d).
Proof. intros Hd. unfold lower_emit. solve_keeps. Qed.
#[local] Hint Resolve keeps_lower_values keeps_lower_option keeps_lower_emit : keeps.
Lemma keeps_projections z projs : keeps z (popt (λ z', Forall (proj_ok z'))) (lower_projections lower projs).
Proof.
  revert z; induction projs as [|[] projs IH]; intros z; simpl; solve_keeps.
Qed.
#[local] Hint Resolve keeps_projections : keeps.
Lemma keeps_lower_air_place z pl : keeps z (popt place_ok) (lower_air_place air lower pl).
Proof. unfold lower_air_place. solve_keeps. Qed.
#[local] Hint Resolve keeps_lower_air_place : keeps.
Lemma keeps_simple_place z pl :
  cp_proj_start pl = 0 → cp_proj_len pl = 0 → keeps z (popt place_ok) (mret (Some pl)).
Proof.
  intros Hs Hl b a b' Hr _ Hinv Hle. injection Hr as <- <-. split_and!; [done..|]. simpl.
  unfold place_ok, range_ok. rewrite Hs, Hl. unfold bsizes; simpl. unfold zlen. lia.
Qed.
Lemma keeps_lvalue z r : keeps z (popt place_ok) (lower_air_lvalue_place air lower r).
Proof.
  unfold lower_air_lvalue_place. keeps_step. case_match;
    first [by apply keeps_simple_place | solve [solve_keeps]].
Qed.
Lemma keeps_forget_args z args : keeps z (λ _ _, True) (forget_args air pool tf args).
Proof.
  unfold forget_args. apply keeps_for_each; [solve_mono|]. intros z' x Hle _. clear Hle.
  case_match; solve_keeps.
Qed.
Lemma keeps_forget_all z rs : keeps z (λ _ _, True) (for_each (forget_consumed_value air pool tf) rs).
Proof. apply keeps_for_each; [solve_mono|]. intros; call. Qed.
#[local] Hint Resolve keeps_lvalue keeps_forget_args keeps_forget_all : keeps.
Lemma cfg_args_ok z args vs :
  Forall (val_ok z) vs → Forall (λ a, val_ok z (cca_value a)) (cfg_args args vs).
Proof.
  intros Hvs. revert args; induction Hvs; intros []; simpl; constructor; eauto.
Qed.
Lemma keeps_push_args z args vs :
  Forall (val_ok z) vs →
  keeps z (λ z' r, range_ok (n_call_args z') r.1 r.2) (cfg_do (push_call_args (cfg_args args vs))).
Proof. intros Hvs. by apply keeps_push_call_args, cfg_args_ok. Qed.
#[local] Hint Resolve keeps_push_args : keeps.

Lemma keeps_lower_field z fields lowered i :
  Forall (opt_ok z) lowered →
  keeps z (popt (λ z', Forall (opt_ok z'))) (lower_field lower fields lowered i).
Proof.
  intros Hl. unfold lower_field. keeps_step. eapply keeps_or_none; [call|solve_mono|after].
  apply keeps_ret; [apply _|]. simpl. by apply Forall_insert.
Qed.
Lemma keeps_lower_fields z fields order lowered :
  Forall (opt_ok z) lowered →
  keeps z (popt (λ z', Forall (opt_ok z'))) (lower_fields lower fields order lowered).
Proof.
  revert z lowered; induction order as [|i order IH]; intros z lowered Hl; simpl.
  - by apply keeps_ret; [apply _|].
  - eapply keeps_or_none; [by apply keeps_lower_field|solve_mono|after]. by apply IH.
Qed.
Lemma expect_all_ok z (l : list (option CfgValue)) vs :
  Forall (opt_ok z) l → mapM expect l = Done vs → Forall (val_ok z) vs.
Proof.
  intros Hl. revert vs; induction Hl as [|[v|] l Hv Hl IH]; intros vs Hm; simpl in Hm; simplify_done.
  - constructor.
  - constructor; eauto.
Qed.
Lemma keeps_struct_init z sid fs fl os :
  keeps z expr_ok (lower_struct_init air pool tf lower r0 ty sp sid fs fl os).
Proof.
  unfold lower_struct_init. keeps_step. destruct a as [fields order].
  eapply keeps_or_diverge; [apply keeps_lower_fields; apply Forall_replicate; done|solve_mono|after].
  keeps_step. eapply keeps_bind; [apply keeps_lift|solve_mono|]. intros vs z2 Hle Hvs. advance.
  eapply expect_all_ok in Hvs; [|done]. solve_keeps.
Qed.

Lemma keeps_place_read z : keeps z (popt val_ok) (lower_place_read trace r0 ty sp).
Proof.
  unfold lower_place_read. eapply keeps_or_none; [apply Htrace|solve_mono|after].
  eapply keeps_bind; [apply keeps_make_place|solve_mono|after].
  - unfold traced_ok in *. by apply Forall_fmap.
  - solve_keeps.
Qed.
Lemma keeps_spill z v p : val_ok z v → proj_ok z p → keeps z expr_ok (spill_and_read r0 ty sp v p).
Proof. intros Hv Hp. unfold spill_and_read. solve_keeps. Qed.
Lemma keeps_push_warning z w : keeps z (λ _ _, True) (push_warning (Spur := Spur) w).
Proof. unfold push_warning. solve_keeps. Qed.
Lemma keeps_air_span z r : keeps z (λ _ _, True) (air_span air r).
Proof. unfold air_span. solve_keeps. Qed.
#[local] Hint Resolve keeps_place_read keeps_spill keeps_push_warning keeps_air_span : keeps.
Lemma keeps_warn z stmt rest v : keeps z (λ _ _, True) (warn_unreachable air stmt rest v).
Proof. unfold warn_unreachable. solve_keeps. Qed.
#[local] Hint Resolve keeps_warn : keeps.
Lemma keeps_statements z stmts v : keeps z (λ _ _, True) (lower_statements air lower stmts v).
Proof. revert z; induction stmts as [|s stmts IH]; intros z; simpl; solve_keeps. Qed.
Lemma keeps_scope_end z ls : keeps z (λ _ _, True) (for_each (emit_scope_end pool tf) ls).
Proof.
  apply keeps_for_each; [solve_mono|]. intros. unfold emit_scope_end. call.
Qed.
Lemma keeps_push_scope z : keeps z (λ _ _, True) (push_scope (Spur := Spur)).
Proof. unfold push_scope. solve_keeps. Qed.
#[local] Hint Resolve keeps_statements keeps_scope_end keeps_push_scope : keeps.
Lemma keeps_block z s l v : keeps z expr_ok (lower_block air pool tf lower s l v).
Proof.
  unfold lower_block. solve_keeps.
Qed.

Definition joined_ok z (arm : BlockId * ExprResult) : Prop :=
  blk_ok z arm.1 ∧ own b0 arm.1 ∧ expr_ok z arm.2.
#[local] Instance growing_joined arm : Growing (λ z, joined_ok z arm).
Proof. unfold joined_ok. apply _. Qed.
Lemma keeps_join_param z k t :
  blk_ok z k → fresh b0 k → keeps z opt_ok (join_param k t).
Proof. intros Hk Hf. unfold join_param. case_decide; solve_keeps. Qed.
Lemma keeps_wire_join z k p arm :
  blk_ok z k → joined_ok z arm → keeps z (λ _ _, True) (wire_join k p arm).
Proof.
  intros Hk (Ha & Ho & He). unfold wire_join. destruct (is_diverged arm.2); [keeps_step|].
  eapply keeps_goto_from; try done. unfold expr_ok in He. destruct (er_value arm.2), p; simpl; ok.
Qed.
Lemma keeps_enter_join z k p :
  blk_ok z k → fresh b0 k → opt_ok z p → keeps z expr_ok (enter_join r0 k p).
Proof. intros Hk Hf Hp. unfold enter_join. solve_keeps. Qed.
Lemma keeps_lower_in z k r : blk_ok z k → own b0 k → keeps z joined_ok (lower_in lower k r).
Proof.
  intros Hk Ho. unfold lower_in. keeps_step. eapply keeps_bind; [apply Hlower|solve_mono|after].
  keeps_step. apply keeps_ret; [apply _|]. by split_and!.
Qed.
Lemma keeps_loop_body z h r : blk_ok z h → keeps z (λ _ _, True) (lower_loop_body lower h r).
Proof. intros Hh. unfold lower_loop_body. eapply keeps_bind; [apply Hlower|solve_mono|after]. solve_keeps. Qed.
Lemma keeps_result_type z arms : keeps z (λ _ _, True) (match_result_type air arms).
Proof. revert z; induction arms as [|[q body] arms IH]; intros z; simpl; solve_keeps. Qed.
Lemma keeps_loops z : keeps z (λ z', Forall (loop_ok z')) (getb b_loop_stack).
Proof. apply keeps_get. intros b Hinv. apply Hinv. Qed.
#[local] Hint Resolve keeps_join_param keeps_wire_join keeps_enter_join keeps_lower_in keeps_loop_body
  keeps_result_type keeps_loops : keeps.
Lemma keeps_lower_jump z f :
  (∀ z l, loop_ok z l → blk_ok z (f l)) → keeps z expr_ok (lower_jump pool tf sp f).
Proof.
  intros Hf. unfold lower_jump. keeps_step. eapply keeps_bind; [apply keeps_lift|solve_mono|].
  intros l z2 Hle Hl. advance. assert (blk_ok z2 (f l)).
  { apply Hf. destruct a as [|l' a]; simpl in Hl; [done|]. simplify_eq. by inversion HP. }
  solve_keeps.
Qed.
Lemma keeps_lower_ret z v : keeps z expr_ok (lower_ret air pool tf lower sp v).
Proof.
  unfold lower_ret. eapply (keeps_or_diverge _ _ opt_ok); [|solve_mono|after; solve_keeps].
  case_match; [|solve_keeps]. eapply keeps_bind; [apply Hlower|solve_mono|after].
  solve_keeps. 
Qed.
Lemma keeps_lower_branch z c t e : keeps z expr_ok (lower_branch air lower r0 sp c t e).
Proof.
  unfold lower_branch. do 5 keeps_step.
  apply (keeps_bind _ _ (λ _ _, True)); [solve_keeps|solve_mono|after]. do 2 keeps_step.
  apply (keeps_bind _ _ joined_ok); [case_match; [call|]|solve_mono|after].
  - do 3 keeps_step. apply keeps_ret; [apply _|]. by split_and!.
  - solve_keeps.
Qed.
Lemma keeps_lower_loop z c body : keeps z expr_ok (lower_loop lower sp c body).
Proof. unfold lower_loop. solve_keeps. Qed.
Lemma keeps_infinite_loop z body : keeps z expr_ok (lower_infinite_loop lower sp body).
Proof. unfold lower_infinite_loop. solve_keeps. Qed.

(** Matches. *)
Lemma keeps_bodies z arms ks k t :
  Forall (λ k, blk_ok z k ∧ fresh b0 k) ks → blk_ok z k → fresh b0 k →
  keeps z expr_ok (lower_match_arm_bodies_and_join lower r0 arms ks k t).
Proof.
  intros Hks Hk Hf. unfold lower_match_arm_bodies_and_join.
  eapply keeps_bind; [apply (keeps_mapM _ _ joined_ok)|solve_mono|].
  - apply _.
  - solve_mono.
  - intros z2 [arm block] Hle Hin%elem_of_zip_r. advance.
    rewrite Forall_forall in Hks. destruct (Hks block) as [??]; [by apply list_elem_of_In|].
    apply keeps_lower_in; [done|by right].
  - intros results z2 Hle [Hres _]. simpl. advance. case_match; [solve_keeps|]. keeps_step.
    eapply keeps_bind; [apply keeps_for_each|solve_mono|after].
    + solve_mono.
    + intros z3 arm Hle Hin. rewrite Forall_forall in Hres.
      pose proof (Hres _ (proj1 (list_elem_of_In _ _) Hin)). advance. by apply keeps_wire_join.
    + solve_keeps.
Qed.
Lemma keeps_arm_tests z scr k arms :
  scr_ok z scr → blk_ok z k →
  Forall (λ a, blk_ok z a.1.2 ∧ blk_ok z a.2 ∧ fresh b0 a.2) arms →
  keeps z (λ _ _, True) (emit_arm_tests pool sp scr k arms).
Proof.
  revert z; induction arms as [|[[q ab] tb] arms IH]; intros z Hs Hk Ha; simpl; [solve_keeps|].
  inversion Ha as [|? ? (Ha1 & Ha2 & Ha3) Ha']; subst; simpl in *. keeps_step.
  eapply keeps_bind; [apply pattern_test_ok; [done|split; [done|]]|solve_mono|after; by apply IH].
  destruct arms as [|[[] ?]]; [done|]. inversion Ha' as [|? ? (? & ? & ?)]; subst. done.
Qed.

Lemma keeps_new_blocks {A} z (l : list A) :
  keeps z (λ z' ks, Forall (λ k, blk_ok z' k ∧ fresh b0 k) ks ∧ length ks = length l)
    (mapM (λ _, cfg_do new_block) l).
Proof. apply keeps_mapM; [apply _|solve_mono|]. intros; call. Qed.
Lemma zipped_ok z (ps : list (AirPattern Spur)) ks ts :
  Forall (λ k, blk_ok z k ∧ fresh b0 k) ks → Forall (λ k, blk_ok z k ∧ fresh b0 k) ts →
  Forall (λ a, blk_ok z a.1.2 ∧ blk_ok z a.2 ∧ fresh b0 a.2) (zip (zip ps ks) ts).
Proof.
  intros Hks Hts. apply Forall_forall. intros [[q k] t] Hin%list_elem_of_In.
  apply elem_of_zip_l in Hin as Hk. apply elem_of_zip_r in Hk. apply elem_of_zip_r in Hin.
  rewrite Forall_forall in Hks, Hts.
  destruct (Hks k) as [??]; [by apply list_elem_of_In|].
  destruct (Hts t) as [??]; [by apply list_elem_of_In|]. done.
Qed.
Lemma keeps_emit_cascade z v t ps ks :
  val_ok z v → Forall (λ k, blk_ok z k ∧ fresh b0 k) ks →
  keeps z (λ _ _, True) (emit_cascade pool sp v t ps ks).
Proof.
  intros Hv Hks. unfold emit_cascade. do 3 keeps_step.
  eapply keeps_bind; [apply keeps_new_blocks|solve_mono|after]. do 3 keeps_step.
  match goal with |- keeps _ _ (let '(_, _) := ?p in _) => destruct p as [s l] end.
  eapply keeps_bind; [apply keeps_lift|solve_mono|]. intros k0 z2 Hle Hk0. advance.
  assert (blk_ok z2 k0 ∧ fresh b0 k0) as [??].
  { cbv beta in Hk0. destruct H0 as [|k ks2 Hk _]; [done|]. by injection Hk0 as <-. }
  keeps_step. apply keeps_arm_tests; [constructor|done|by apply zipped_ok].
Qed.

Lemma switch_cases_ok (P : BlockId → Prop) ps ks cases d :
  Forall P ks → switch_cases (Spur := Spur) ps ks = Done (cases, d) →
  Forall (λ x, P x.2) cases ∧ from_option P True d.
Proof.
  intros Hks. revert ps cases d; induction Hks as [|k ks Hk Hks IH]; intros [|p ps] cases d Hsw;
    simpl in Hsw; simplify_done; try done.
  assert (Hcase : ∀ v, (x ← switch_cases ps ks; let '(cs, d0) := x in mret ((v, k) :: cs, d0))
      = Done (cases, d) → Forall (λ x, P x.2) cases ∧ from_option P True d).
  { intros v ([cs d0] & Hcs & Hr)%bind_Done. injection Hr as <- <-.
    destruct (IH _ _ _ Hcs). split; [by constructor|done]. }
  destruct p; first [discriminate Hsw | exact (Hcase _ Hsw) | by simplify_done].
Qed.
Lemma split_default_ok (P : BlockId → Prop) cases d cases' k :
  Forall (λ x, P x.2) cases → from_option P True d → split_default cases d = Done (cases', k) →
  Forall (λ x, P x.2) cases' ∧ P k.
Proof.
  intros Hc Hd Hs. destruct d as [d|]; simpl in Hs; simplify_done; [done|].
  split; [by apply Forall_take|]. apply last_Some_elem_of in H0.
  rewrite Forall_forall in Hc. apply Hc. by apply list_elem_of_In.
Qed.
Lemma keeps_emit_switch z v ps ks :
  val_ok z v → Forall (λ k, blk_ok z k ∧ fresh b0 k) ks →
  keeps z (λ _ _, True) (emit_switch v ps ks).
Proof.
  intros Hv Hks. unfold emit_switch.
  eapply keeps_bind; [apply keeps_lift|solve_mono|]. intros [cases d] z1 Hle Hc. advance.
  apply (switch_cases_ok _ _ _ _ _ Hks) in Hc as [Hcs0 Hd].
  eapply keeps_bind; [apply keeps_lift|solve_mono|]. intros [cases' k] z2 Hle Hs. simpl in *.
  apply (split_default_ok _ _ _ _ _ Hcs0 Hd) in Hs as [Hcs [Hk _]].
  assert (Forall (λ x : Z * Z, blk_ok z1 x.2) cases') by (eapply Forall_impl; [|done]; naive_solver).
  clear Hcs0 Hd Hcs. advance. solve_keeps.
Qed.
Lemma keeps_lower_match z r s l : keeps z expr_ok (lower_match air pool lower r0 sp r s l).
Proof.
  unfold lower_match. do 2 keeps_step. case_match; [solve_keeps|]. keeps_step.
  eapply keeps_bind; [apply keeps_new_blocks|solve_mono|after]. do 2 keeps_step.
  eapply (keeps_bind _ _ (λ _ _, True)); [|solve_mono|after; by apply keeps_bodies].
  case_match; [by apply keeps_emit_cascade|by apply keeps_emit_switch].
Qed.

Lemma keeps_make_slice z base lo hi is_mut :
  keeps z expr_ok (lower_make_slice air pool lower r0 ty sp base lo hi is_mut).
Proof.
  unfold lower_make_slice. do 3 keeps_step.
  apply (keeps_bind _ _ (λ _ _, True)); [solve_keeps|solve_mono|after]. solve_keeps.
Qed.
Lemma keeps_lower_alloc z slot init : keeps z expr_ok (lower_alloc air pool tf lower sp slot init).
Proof.
  unfold lower_alloc. keeps_step. eapply keeps_bind; [apply Hlower|solve_mono|after].
  unfold expr_ok in HP. apply (keeps_bind _ _ val_ok); [|solve_mono|after; solve_keeps].
  destruct (er_value a0); solve_keeps.
Qed.
#[local] Hint Resolve keeps_struct_init keeps_block keeps_lower_ret keeps_lower_branch
  keeps_lower_loop keeps_infinite_loop keeps_lower_match keeps_make_slice keeps_lower_alloc : keeps.
Lemma keeps_data z data : keeps z expr_ok (lower_data air pool resolve tf lower trace r0 ty sp data).
Proof.
  destruct data; unfold lower_data, lower_unary, lower_store, lower_bin, lower_and, lower_or,
    lower_make_ref, lower_store_slot, lower_call,
    lower_method_call_dyn, lower_intrinsic, lower_field_get, lower_index_get,
    lower_index_set, lower_array_init, lower_enum_create, lower_enum_payload_get,
    lower_place_write, lower_drop, lower_storage_live;
    first [apply keeps_lower_jump; by intros ? ? [] | solve [solve_keeps]].
Qed.
End Arms.

Lemma keeps_trace lower n z r :
  (∀ r, mono (lower r)) → (∀ z r, keeps z expr_ok (lower r)) →
  keeps z (popt traced_ok) (try_trace_place air lower n r).
Proof.
  intros Hml Hlower.
  assert (Hmt : ∀ n r, mono (try_trace_place air lower n r)) by (intros; by apply mono_trace).
  revert z r; induction n as [|n IH]; intros z r; simpl; [apply keeps_nofuel|]. keeps_step.
  case_match; try (apply keeps_ret; [apply _|]; done).
  - apply keeps_ret; [apply _|]. constructor.
  - apply keeps_ret; [apply _|]. constructor.
  - eapply keeps_or_none; [apply IH|solve_mono|after]. apply keeps_ret; [apply _|].
    unfold traced_ok; simpl. apply Forall_app. split; [done|]. apply Forall_singleton. done.
  - eapply keeps_or_none; [apply IH|solve_mono|after].
    eapply keeps_or_none; [by apply keeps_lower_value|solve_mono|after]. apply keeps_ret; [apply _|].
    unfold traced_ok; simpl. apply Forall_app. split; [done|]. apply Forall_singleton. done.
Qed.

Lemma keeps_lower_inst n z r : keeps z expr_ok (lower_inst air pool resolve tf n r).
Proof.
  assert (Hml : ∀ n r, mono (lower_inst air pool resolve tf n r)) by (intros; apply mono_lower_inst).
  revert z r; induction n as [|n IH]; intros z r; [apply keeps_nofuel|]. cbn [lower_inst].
  assert (Hmt : ∀ r', mono (try_trace_place air (lower_inst air pool resolve tf n) (S n) r')).
  { intros r'. by apply mono_trace. }
  assert (Hmd : ∀ inst, mono (lower_data air pool resolve tf (lower_inst air pool resolve tf n)
      (try_trace_place air (lower_inst air pool resolve tf n) (S n)) r (i_ty inst) (i_span inst)
      (i_data inst))).
  { intros inst. apply mono_lower_data; [done|]. exact Hmt. }
  eapply (keeps_bind _ _ (λ z', Forall (opt_ok z')));
    [apply keeps_get; intros b Hinv; apply Hinv|solve_mono|after].
  eapply keeps_bind; [apply keeps_lift|solve_mono|]. intros hit z2 Hle Hhit. advance. cbv beta in Hhit.
  destruct hit as [v|].
  - apply keeps_ret; [apply _|]. unfold expr_ok; simpl.
    unfold AirPattern.index in Hhit. destruct (_ !! _) eqn:Hl; simplify_eq/=. 
    exact (Forall_lookup_1 _ _ _ _ HP Hl).
  - eapply keeps_bind; [apply keeps_air_inst|done|]. intros inst z3 _ _. apply keeps_data; try done.
    intros z4 r'. by apply keeps_trace.
Qed.
End Steps.

#[export] Hint Resolve keeps_emit keeps_emit_unit keeps_terminate keeps_goto keeps_goto_from keeps_branch_to
  keeps_read_projected keeps_disc_cond : keeps.

(** ** Results *)
Section Results.
Context {Spur : Type} `{Countable Spur} `{!SpurKey Spur}.
Context (pool : TypeInternPool (Spur := Spur)) (resolve : Spur → string) (tf : nat).

(** Lowering an instruction is local and sound. From a builder whose graph is
    well-formed, whatever the AIR, a lowering that returns leaves a well-formed graph and a
    valid result, ends in the block it started in or in a new one, appends to the block it
    started in, and leaves every other block that existed before exactly as it was. *)
Theorem lower_inst_local air fuel r (b b' : CfgBuilder (Spur := Spur)) res :
  cfg_wf (b_cfg b) → builder_ok b →
  lower_inst air pool resolve tf fuel r b = Done (res, b') → small (b_cfg b') →
  cfg_wf (b_cfg b') ∧ builder_ok b' ∧ expr_ok (bsizes b') res ∧
  own b (b_current_block b') ∧ framed b b'.
Proof.
  intros Hwf Hok Hl Hsm. destruct (inv_start _ Hwf Hok).
  edestruct (keeps_lower_inst air pool resolve tf b (bo_current _ Hok) fuel (bsizes b) r)
    as ([] & _ & ?); [done..|by apply inv_start|done|done].
Qed.

Lemma compute_predecessors_sizes (c c' : Cfg Spur) u :
  compute_predecessors c = Done (u, c') → sizes_of c' = sizes_of c.
Proof.
  unfold compute_predecessors. intros (es & _ & (c1 & Hf & Hr)%bind_Done)%bind_Done.
  injection Hr as <- <-.
  assert (Hc0 : sizes_of (set_blocks (map (with_preds (λ _, []))) c) = sizes_of c).
  { unfold sizes_of, zlen; simpl. by rewrite length_map. }
  rewrite <-Hc0. revert Hf. generalize (set_blocks (map (with_preds (λ _, []))) c). clear.
  induction es as [|e es IH]; intros c0 Hf; simpl in Hf; [by simplify_done|].
  apply bind_Done in Hf as (c2 & Ha & Hf). rewrite (IH _ Hf).
  unfold add_pred in Ha. apply bind_Done in Ha as ([[] c3] & Hu & Hr).
  unfold update_block in Hu. simplify_done. unfold sizes_of, zlen; simpl. by rewrite length_insert.
Qed.

(** Predecessor lists are no part of well-formedness. *)
Lemma cfg_wf_preds (c c' : Cfg Spur) :
  cfg_wf c → c' = set_blocks (λ _, c_blocks c') c →
  map (with_preds (λ _, [])) (c_blocks c') = map (with_preds (λ _, [])) (c_blocks c) → cfg_wf c'.
Proof.
  intros Hwf Hc' Hb.
  assert (Hl : ∀ i blk', c_blocks c' !! i = Some blk' →
    ∃ blk, c_blocks c !! i = Some blk ∧ with_preds (λ _, []) blk' = with_preds (λ _, []) blk).
  { intros i blk' Hi. apply (f_equal (lookup i)) in Hb. rewrite !list_lookup_fmap, Hi in Hb.
    destruct (c_blocks c !! i) as [blk|]; [|done]. exists blk. split; [done|]. by apply (inj Some) in Hb. }
  assert (Hz : sizes_of c' = sizes_of c).
  { apply (f_equal length) in Hb. rewrite !length_map in Hb.
    rewrite Hc'. unfold sizes_of, zlen; simpl. by rewrite Hb. }
  unfold cfg_wf. rewrite Hz. destruct Hwf. split.
  - intros i blk' (blk & Hi & [= -> _ _ _])%Hl. eauto.
  - intros i blk' (blk & Hi & [= _ _ _ ->])%Hl. eauto.
  - rewrite Hc'. done.
  - rewrite Hc'. done.
  - rewrite Hc'. done.
  - rewrite Hc'. done.
  - rewrite Hc'. done.
  - assert (map block_values (c_blocks c') = map block_values (c_blocks c)) as ->.
    { apply (f_equal (map block_values)) in Hb. by rewrite !map_map in Hb. }
    rewrite Hc'. done.
Qed.

Lemma build_body_wf (func : AnalyzedFunction (Spur := Spur)) fuel lp u b :
  build_body pool resolve tf fuel (fn_air func) (initial_builder func lp) = Done (u, b) →
  small (b_cfg b) → cfg_wf (b_cfg b) ∧ blk_ok (bsizes b) (c_entry (b_cfg b)).
Proof.
  set (b0 := initial_builder func lp). unfold build_body.
  intros ([k b1] & Hk & ([[] b2] & Hs & ([[] b3] & He & Hbody)%bind_Done)%bind_Done)%bind_Done Hsm.
  assert (Hsm3 : small (b_cfg b3)).
  { eapply small_mono; [|exact Hsm]. simpl in Hbody. destruct (instructions (fn_air func)).
    - injection Hbody as <- <-. reflexivity.
    - apply bind_Done in Hbody as ([res b4] & Hl & Hr). injection Hr as <- <-.
      by apply mono_lower_inst in Hl. }
  (* the first three steps, evaluated *)
  injection Hk as <- <-. injection Hs as <-. injection He as <-.
  set (b3 := set_b_cfg _ _) in *.
  assert (Hwf : cfg_wf (b_cfg b3)).
  { split; simpl; try constructor; intros [|i] blk Hb; simplify_eq/=; done. }
  assert (Hok : builder_ok b3).
  { split; [done|constructor|]. by apply Forall_replicate. }
  simpl in Hbody. destruct (instructions (fn_air func)) as [|i0 rest].
  - injection Hbody as <- <-. done.
  - apply bind_Done in Hbody as ([res b4] & Hl & Hr). injection Hr as <- <-.
    apply mono_lower_inst in Hl as Hg. pose proof (cgrows_sizes _ _ Hg) as (Hn & _).
    edestruct (keeps_lower_inst (fn_air func) pool resolve tf b3 (bo_current _ Hok) fuel (bsizes b3))
      as ([] & _ & _); [exact Hl|done|by apply inv_start|done|]. split; [done|].
    destruct Hg as (_ & _ & _ & _ & _ & _ & -> & _). unfold blk_ok, bsizes.
    change (c_entry (b_cfg b3)) with 0. change (n_blocks _) with 1 in Hn at 1. simpl in *. lia.
Qed.

(** C3: Every graph the builder returns is well-formed, whatever the AIR it is built from:
    blocks carry their position as identifier, every operand, target and payload range
    exists, every value is defined exactly once by one block, the entry block exists, and
    the predecessor lists are exactly the inverse of the edges. *)
Theorem build_well_formed (func : AnalyzedFunction (Spur := Spur)) fuel cfg warnings :
  build pool resolve tf fuel func = Done (cfg, warnings) → small cfg →
  cfg_wf cfg ∧ blk_ok (sizes_of cfg) (c_entry cfg) ∧
  ∀ i j bi bj, c_blocks cfg !! i = Some bi → c_blocks cfg !! j = Some bj →
    (Z.of_nat i ∈ bb_preds bj ↔ Z.of_nat j ∈ successors cfg bi).
Proof.
  unfold build. intros (lp & _ & ([u b] & Hb & ([[] c] & Hp & Hr)%bind_Done)%bind_Done)%bind_Done Hsm.
  injection Hr as <- <-. apply compute_predecessors_sizes in Hp as Hz.
  assert (Hsm0 : small (b_cfg b)) by (unfold small in *; by rewrite <-Hz).
  apply build_body_wf in Hb as [Hwf He]; [|done].
  destruct (predecessors_inverse _ Hwf Hsm0) as (c' & Hp' & Hmap & Hc' & Hpreds).
  rewrite Hp in Hp'. injection Hp' as <-. split_and!; [by eapply cfg_wf_preds| |done].
  rewrite Hz, Hc'. exact He.
Qed.
End Results.

(** The golden sample. *)
Import CfgSample.
Lemma build_well_formed_witness :
  build new_pool CfgSample.no_names 10 20 CfgSample.early_return =
    Done (CfgSample.early_return_graph, []) ∧ cfg_wf CfgSample.early_return_graph.
Proof.
  assert (Hb : build new_pool CfgSample.no_names 10 20 CfgSample.early_return =
    Done (CfgSample.early_return_graph, [])) by (vm_compute; reflexivity).
  split; [exact Hb|]. apply (build_well_formed _ _ _ _ _ _ _ Hb).
  repeat split; vm_compute; reflexivity.
Defined.

Lemma start_wf : cfg_wf (b_cfg CfgSample.early_return_start).
Proof. split; simpl; try constructor; intros [|i] blk Hb; simplify_eq/=; done. Qed.
Lemma start_ok : builder_ok CfgSample.early_return_start.
Proof. split; [done|constructor|]. by repeat constructor. Qed.
Lemma lower_inst_local_witness :
  ∃ res b', lower_inst CfgSample.early_return_air new_pool CfgSample.no_names 10 20 9
      CfgSample.early_return_start = Done (res, b') ∧
    cfg_wf (b_cfg b') ∧ framed CfgSample.early_return_start b'.
Proof.
  destruct (lower_inst CfgSample.early_return_air new_pool CfgSample.no_names 10 20 9
    CfgSample.early_return_start) as [[res b']| |] eqn:Hl; [|vm_compute in Hl; discriminate Hl..].
  exists res, b'. split; [reflexivity|].
  destruct (lower_inst_local new_pool CfgSample.no_names 10 CfgSample.early_return_air 20 9
    CfgSample.early_return_start b' res start_wf start_ok Hl) as (Hwf & _ & _ & _ & Hf).
  - vm_compute in Hl. injection Hl as _ <-. repeat split; vm_compute; reflexivity.
  - exact (conj Hwf Hf).
Defined.
