(* ===== verification/CfgTerm.v ===== *)
(** * Lowering terminates

    AIR is built bottom-up: the operands of an instruction are added before it. On such
    AIR, and on a pool of types that do not contain themselves, [build] returns or
    panics with one unit of fuel per instruction, and one for the call itself. *)

From S2P Require Import Prelude Types LayoutTypes InternPool Layout AirPattern Air ParamArena.
From S2P Require Import DropNames Cfg CfgBuild CfgSample.

#[local] Open Scope Z_scope.

(** ** Operands of an instruction *)
Section Operands.
Context {Spur : Type} `{!SpurKey Spur}.
Context (air : Air (Spur := Spur)).

Definition or_nil {A} (o : outcome (list A)) : list A := match o with Done l => l | _ => [] end.
Definition proj_refs (p : AirProjection) : list AirRef :=
  match p with Index _ i => [i] | Field _ _ => [] end.
Definition place_refs (pl : AirPlaceRef) : list AirRef :=
  or_nil (p ← get_place air pl; projs ← get_place_projections air p;
          mret (concat (map proj_refs projs))).

(** The instructions [lower_inst] may visit for an instruction. *)
Definition operands (d : AirInstData (Spur := Spur)) : list AirRef :=
  match d with
  | IConst _ | IFloatConst _ | IBoolConst _ | IStringConst _ | IBytesConst _ | IUnitConst
  | ITypeConst _ | ICallGeneric _ _ _ _ _ | IParam _ | ILoad _ | IBreak | IContinue
  | IEnumVariant _ _ | IStorageLive _ | IStorageDead _ => []
  | IBin _ l r => [l; r]
  | IUnary _ v | IMakeRef v _ | IAlloc _ v | IStore _ v _ | IParamStore _ v | IRefStore _ v
  | IFieldGet v _ _ | IFieldSet _ _ _ v | IParamFieldSet _ _ _ _ v | IInfiniteLoop v
  | IEnumPayloadGet v _ _ | IIntCast v _ | IFloatCast v _ | IIntToFloat v _ | IFloatToInt v _
  | IDrop v | IMakeInterfaceRef v _ _ => [v]
  | IMakeSlice base lo hi _ => base :: option_list lo ++ option_list hi
  | ICall _ s l => map ca_value (or_nil (get_call_args air s l))
  | IIntrinsic _ s l | IArrayInit s l | IEnumCreate _ _ s l => or_nil (get_air_refs air s l)
  | IStructInit _ s l _ => or_nil (get_air_refs air s l)
  | IBlock s l v => v :: or_nil (get_air_refs air s l)
  | IBranch c t e => c :: t :: option_list e
  | ILoop c b => [c; b]
  | IMatch v s l => v :: map snd (or_nil (get_match_arms air s l))
  | IRet v => option_list v
  | IIndexGet b _ i => [b; i]
  | IIndexSet _ _ i v | IParamIndexSet _ _ i v => [i; v]
  | IPlaceRead pl => place_refs pl
  | IPlaceWrite pl v => v :: place_refs pl
  | IMethodCallDyn _ _ recv s l => recv :: map ca_value (or_nil (get_call_args air s l))
  end.

(** Operands come before the instruction. *)
Definition bottom_up : Prop :=
  ∀ (i : nat) inst, instructions air !! i = Some inst →
    Forall (λ r, 0 ≤ r < Z.of_nat i) (operands (i_data inst)).
End Operands.

(** ** Runs that do not exhaust the fuel *)
Section Returns.
Context {Spur : Type} `{Countable Spur} `{!SpurKey Spur}.
Notation Builder := (CfgBuilder (Spur := Spur)).
Notation BuildM := (BuildM (Spur := Spur)).

Definition settles {A} (P : A → Prop) (o : outcome A) : Prop :=
  match o with Done a => P a | Panic => True | NoFuel => False end.
Definition returns {A} (P : A → Prop) (m : BuildM A) : Prop := ∀ b, settles (λ r, P r.1) (m b).
Definition top {A} : A → Prop := λ _, True.

Lemma returning_bind {A B} (P : A → Prop) (Q : B → Prop) (m : outcome A) f :
  settles P m → (∀ a, P a → settles Q (f a)) → settles Q (m ≫= f).
Proof. destruct m; simpl; [|done..]. intros HP Hf. by apply Hf. Qed.
Lemma settles_total {A} (o : outcome A) : o ≠ NoFuel → settles (λ a, o = Done a) o.
Proof. by destruct o. Qed.

Lemma returns_ret {A} (P : A → Prop) a : P a → returns P (mret a).
Proof. by intros HP b. Qed.
Lemma returns_bind {A B} (P : A → Prop) (Q : B → Prop) (m : BuildM A) f :
  returns P m → (∀ a, P a → returns Q (f a)) → returns Q (m ≫= f).
Proof. intros Hm Hf b. eapply returning_bind; [apply Hm|]. intros [a b'] HP. by apply Hf. Qed.
Lemma returns_or_diverge {A} (P : A → Prop) (m : BuildM (option A)) k :
  returns (from_option P True) m → (∀ a, P a → returns top (k a)) → returns top (or_diverge m k).
Proof. intros Hm Hk. eapply returns_bind; [exact Hm|]. intros [a|] Ha; [by apply Hk|done]. Qed.
Lemma returns_or_none {A B} (P : A → Prop) (Q : B → Prop) (m : BuildM (option A))
    (k : A → BuildM (option B)) :
  returns (from_option P True) m → (∀ a, P a → returns (from_option Q True) (k a)) →
  returns (from_option Q True) (or_none m k).
Proof. intros Hm Hk. eapply returns_bind; [exact Hm|]. intros [a|] Ha; [by apply Hk|done]. Qed.
Lemma returns_lift {A} (o : outcome A) : o ≠ NoFuel → returns (λ a, o = Done a) (lift_b o).
Proof. by intros Ho b; destruct o. Qed.
Lemma returns_lift_top {A} (o : outcome A) : o ≠ NoFuel → returns top (lift_b o).
Proof. by intros Ho b; destruct o. Qed.
Lemma returns_get {A} (f : Builder → A) : returns top (getb f).
Proof. done. Qed.
Lemma returns_mod f : returns top (modb (Spur := Spur) f).
Proof. done. Qed.
Lemma returns_top {A} (P : A → Prop) m : returns P m → returns top m.
Proof. intros Hm b. specialize (Hm b). by destruct (m b). Qed.
Lemma returns_option_top {A} (m : BuildM (option A)) : returns top m → returns (from_option top True) m.
Proof. intros Hm b. specialize (Hm b). by destruct (m b) as [[[] ?]| |]. Qed.
Lemma returns_cfg {A} (m : ST (Cfg Spur) A) : (∀ c, m c ≠ NoFuel) → returns top (cfg_do m).
Proof. intros Hm b. unfold cfg_do. specialize (Hm (b_cfg b)). by destruct (m (b_cfg b)) as [[]| |]. Qed.
Lemma returns_foldM {A B} (f : B → A → BuildM B) l acc :
  (∀ acc x, x ∈ l → returns top (f acc x)) → returns top (foldM f acc l).
Proof.
  revert acc; induction l as [|x l IH]; intros acc Hf; simpl; [done|].
  eapply returns_bind; [apply Hf; by left|]. intros a _. apply IH. intros; apply Hf. by right.
Qed.
Lemma returns_mapM {A B} (f : A → BuildM B) l :
  (∀ x, x ∈ l → returns top (f x)) → returns top (mapM f l).
Proof.
  induction l as [|x l IH]; intros Hf; simpl; [done|].
  eapply returns_bind; [apply Hf; by left|]. intros a _.
  eapply returns_bind; [apply IH; intros; apply Hf; by right|]. done.
Qed.
Lemma returns_cache r v : returns top (cache (Spur := Spur) r v).
Proof. intros b. unfold cache. by case_decide. Qed.
Lemma returns_pop_scope : returns top (pop_scope (Spur := Spur)).
Proof. intros b. unfold pop_scope. by case_match. Qed.

(** Operations of the graph use no fuel. *)
Lemma pushed_total {A} (l k : list A) : pushed l k ≠ NoFuel.
Proof. unfold pushed. apply bind_total; [auto with outcome|done]. Qed.
Lemma get_block_total (c : Cfg Spur) k : get_block c k ≠ NoFuel.
Proof. apply expect_total. Qed.
Lemma update_block_total k f (c : Cfg Spur) : update_block k f c ≠ NoFuel.
Proof. apply bind_total; [apply get_block_total|done]. Qed.
Lemma returns_new_block : returns top (cfg_do (new_block (Spur := Spur))).
Proof. by apply returns_cfg. Qed.
Lemma returns_set_terminator k t : returns top (cfg_do (set_terminator (Spur := Spur) k t)).
Proof. apply returns_cfg. intros c. apply update_block_total. Qed.
Lemma add_value_total k f inst (c : Cfg Spur) :
  (value ← cfg_add_inst inst; update_block k (f value);; mret value) c ≠ NoFuel.
Proof.
  apply bind_total; [done|]. intros [v c'] _. apply bind_total; [apply update_block_total|by intros []].
Qed.
Lemma returns_add_inst k inst : returns top (cfg_do (add_inst_to_block (Spur := Spur) k inst)).
Proof. apply returns_cfg. intros c. apply add_value_total. Qed.
Lemma returns_add_block_param k ty : returns top (cfg_do (add_block_param (Spur := Spur) k ty)).
Proof.
  apply returns_cfg. intros c. apply bind_total; [apply get_block_total|]. intros blk _.
  apply (add_value_total k (λ v, push_param v ty)).
Qed.
Ltac push := apply returns_cfg; intros c; apply bind_total; [apply pushed_total|done].
Lemma returns_push_extra vs : returns top (cfg_do (push_extra (Spur := Spur) vs)).
Proof. push. Qed.
Lemma returns_push_call_args vs : returns top (cfg_do (push_call_args (Spur := Spur) vs)).
Proof. push. Qed.
Lemma returns_push_switch_cases vs : returns top (cfg_do (push_switch_cases (Spur := Spur) vs)).
Proof. push. Qed.
Lemma returns_make_place base vs : returns top (cfg_do (cfg_make_place (Spur := Spur) base vs)).
Proof.
  apply returns_cfg. intros c. apply bind_total; [|by intros [[] ?]].
  apply bind_total; [apply pushed_total|done].
Qed.
Lemma returns_alloc_temp : returns top (cfg_do (alloc_temp_local (Spur := Spur))).
Proof. apply returns_cfg. intros c. apply bind_total; [auto with outcome|done]. Qed.
Lemma returns_record_spawn v t : returns top (cfg_do (cfg_record_spawn_target (Spur := Spur) v t)).
Proof. by apply returns_cfg. Qed.
End Returns.

Create HintDb returns discriminated.
#[export] Hint Resolve returns_get returns_mod returns_cache returns_pop_scope returns_new_block
  returns_set_terminator returns_add_inst returns_add_block_param returns_push_extra
  returns_push_call_args returns_push_switch_cases returns_make_place returns_alloc_temp
  returns_record_spawn : returns.

(** ** Every step *)
Section Steps.
Context {Spur : Type} `{Countable Spur} `{!SpurKey Spur}.
Context (air : Air (Spur := Spur)) (pool : TypeInternPool (Spur := Spur)) (resolve : Spur → string)
  (tf : nat).
Notation BuildM := (BuildM (Spur := Spur)).
Hypothesis Hair : bottom_up air.
Hypothesis Hdrop : ∀ ty, type_needs_drop tf pool ty ≠ NoFuel.

Lemma returns_or_diverge_top {A} (m : BuildM (option A)) k :
  returns top m → (∀ a, returns top (k a)) → returns top (or_diverge m k).
Proof. intros Hm Hk. eapply returns_bind; [exact Hm|]. by intros []. Qed.
Lemma returns_or_none_top {A B} (m : BuildM (option A)) (k : A → BuildM (option B)) :
  returns top m → (∀ a, returns top (k a)) → returns top (or_none m k).
Proof. intros Hm Hk. eapply returns_bind; [exact Hm|]. by intros []. Qed.
Lemma returns_bind_top {A B} (m : BuildM A) (f : A → BuildM B) :
  returns top m → (∀ a, returns top (f a)) → returns top (m ≫= f).
Proof. intros Hm Hf. by eapply returns_bind. Qed.
Lemma returns_panic {A} (P : A → Prop) : returns (Spur := Spur) P (lift_b Panic).
Proof. done. Qed.

Ltac returns_hyp := match goal with Hm : ∀ _, _ |- returns _ _ => solve [apply Hm; done] end.
Ltac returns_step :=
  lazymatch goal with
  | |- ∀ _, _ => intros ?
  | |- returns _ (match ?x with _ => _ end) => destruct x
  | |- returns _ (mret _) => done
  | |- returns _ (lift_b _) => apply returns_lift_top; auto with outcome; fail
  | |- returns _ (or_diverge _ _) => apply returns_or_diverge_top
  | |- returns _ (or_none _ _) => apply returns_or_none_top
  | |- returns _ (foldM _ _ _) => apply returns_foldM; intros
  | |- returns _ (for_each _ _) => apply returns_foldM; intros
  | |- returns _ (mapM _ _) => apply returns_mapM; intros
  | |- returns _ (_ ≫= _) => apply returns_bind_top
  | |- returns _ _ => first [solve [eauto 2 with returns nocore] | returns_hyp]
  end.
Ltac solve_returns := repeat returns_step.

Lemma get_inst_total r : get_inst air r ≠ NoFuel.
Proof. apply expect_total. Qed.
#[local] Hint Resolve get_inst_total struct_def_total enum_def_total array_def_total kind_total : outcome.
Lemma returns_set_current k : returns top (set_current (Spur := Spur) k).
Proof. done. Qed.
Lemma returns_emit d ty sp : returns top (emit (Spur := Spur) d ty sp).
Proof. unfold emit. solve_returns. Qed.
#[local] Hint Resolve returns_set_current returns_emit : returns.
Lemma returns_emit_unit d sp : returns top (emit_unit (Spur := Spur) d sp).
Proof. unfold emit_unit. solve_returns. Qed.
Lemma returns_terminate t : returns top (terminate (Spur := Spur) t).
Proof. unfold terminate. solve_returns. Qed.
Lemma returns_cached r v : returns top (cached (Spur := Spur) r v).
Proof. unfold cached. solve_returns. Qed.
#[local] Hint Resolve returns_emit_unit returns_terminate returns_cached : returns.
Lemma returns_goto k args : returns top (goto (Spur := Spur) k args).
Proof. unfold goto. solve_returns. Qed.
Lemma returns_goto_from k k' args : returns top (goto_from (Spur := Spur) k k' args).
Proof. unfold goto_from. solve_returns. Qed.
Lemma returns_branch_to v k k' : returns top (branch_to (Spur := Spur) v k k').
Proof. unfold branch_to. solve_returns. Qed.
Lemma returns_air_inst r : returns top (air_inst air r).
Proof. unfold air_inst. solve_returns. Qed.
#[local] Hint Resolve returns_goto returns_goto_from returns_branch_to returns_air_inst : returns.
Lemma returns_air_ty r : returns top (air_ty air r).
Proof. unfold air_ty. solve_returns. Qed.
Lemma returns_air_span r : returns top (air_span air r).
Proof. unfold air_span. solve_returns. Qed.
Lemma returns_needs_drop ty : returns top (needs_drop pool tf ty).
Proof. apply returns_lift_top, Hdrop. Qed.
#[local] Hint Resolve returns_air_ty returns_air_span returns_needs_drop : returns.
Lemma returns_forget r : returns top (forget_consumed_value air pool tf r).
Proof. unfold forget_consumed_value, forget_local_slot, forget_param. solve_returns. Qed.
Lemma returns_re_add slot ty sp : returns top (re_add_local_slot (Spur := Spur) slot ty sp).
Proof. done. Qed.
Lemma returns_drop_slot ls sp : returns top (emit_drop_for_slot pool tf ls sp).
Proof. unfold emit_drop_for_slot. solve_returns. Qed.
Lemma returns_drop_param lp sp : returns top (emit_drop_for_param (Spur := Spur) lp sp).
Proof. unfold emit_drop_for_param. solve_returns. Qed.
#[local] Hint Resolve returns_forget returns_re_add returns_drop_slot returns_drop_param : returns.
Lemma returns_drop_all sp : returns top (emit_drops_for_all_scopes pool tf sp).
Proof. unfold emit_drops_for_all_scopes. solve_returns. Qed.
Lemma returns_drop_loop n sp : returns top (emit_drops_for_loop_exit pool tf n sp).
Proof. unfold emit_drops_for_loop_exit. solve_returns. Qed.
Lemma returns_read_projected slot ty ps sp : returns top (read_projected (Spur := Spur) slot ty ps sp).
Proof. unfold read_projected. solve_returns. Qed.
Lemma returns_disc_type ty : returns top (enum_discriminant_type pool ty).
Proof. unfold enum_discriminant_type. solve_returns. Qed.
#[local] Hint Resolve returns_drop_all returns_drop_loop returns_read_projected returns_disc_type : returns.
Lemma returns_disc_cond scr i sp : returns top (discriminant_cond pool scr i sp).
Proof. unfold discriminant_cond. solve_returns. Qed.
#[local] Hint Resolve returns_disc_cond : returns.

(** Pattern tests. *)
Lemma returns_test_chain k (tests : list (BlockId → BuildM ())) :
  (∀ t, t ∈ tests → ∀ next, returns top (t next)) → returns top (test_chain k tests).
Proof.
  induction tests as [|t [|t' tests] IH]; intros Ht; cbn [test_chain]; [done|apply Ht; by left|].
  returns_step; [returns_step|]. intros next. returns_step; [apply Ht; by left|]. intros _.
  returns_step; [returns_step|]. intros _. apply IH. intros t2 Hin. apply Ht. by right.
Qed.
Lemma returns_variant_test scr i (fields : list (EnumField (Spur := Spur))) tgt sp :
  (∀ f, f ∈ fields → ∀ s t, returns top (f.2 s t)) →
  returns top (emit_variant_test pool scr i fields tgt sp).
Proof.
  intros Hf. unfold emit_variant_test, emit_enum_field_tests.
  set (nt := non_trivial fields). assert (Hnt : ∀ f, f ∈ nt → ∀ s t, returns top (f.2 s t)).
  { intros f [_ Hin]%list_elem_of_filter. by apply Hf. }
  assert (Hchain : ∀ vd v, returns top (test_chain (bt_matched tgt)
      (map (emit_payload_test vd v i (bt_unmatched tgt) sp) nt))).
  { intros vd v. apply returns_test_chain. intros t (f & -> & Hin)%list_elem_of_fmap next.
    pose proof (Hnt _ Hin). unfold emit_payload_test. solve_returns. }
  destruct nt; solve_returns; apply Hchain.
Qed.
Lemma returns_field_test sid scr i j (test : Scrutinee → BranchTargets → BuildM ()) u next :
  (∀ s t, returns top (test s t)) → returns top (emit_field_test pool sid scr i j test u next).
Proof. intros Ht. unfold emit_field_test. solve_returns. Qed.
Lemma returns_pattern_test (q : AirPattern Spur) sp scr tgt :
  returns top (emit_pattern_test pool q sp scr tgt).
Proof.
  revert scr tgt. induction q using AirPattern_tree_ind; intros scr tgt; simpl; try solve [solve_returns].
  - do 2 (returns_step; [returns_step|]; intros). apply returns_test_chain.
    intros t (i & test & -> & Ht)%elem_of_lookup_imap next. apply returns_field_test.
    rewrite list_lookup_fmap in Ht. apply fmap_Some in Ht as (q & Hq & ->). exact (Forall_lookup_1 _ _ _ _ H0 Hq).
  - apply returns_test_chain. intros t ([idx q] & -> & Hq)%list_elem_of_fmap next. apply returns_field_test.
    rewrite Forall_forall in H0. apply (H0 (idx, q)). by apply list_elem_of_In.
  - apply returns_variant_test.
    intros f (i & [q test] & -> & Ht)%elem_of_lookup_imap. simpl.
    rewrite list_lookup_fmap in Ht. apply fmap_Some in Ht as (q' & Hq & [= -> ->]).
    exact (Forall_lookup_1 _ _ _ _ H0 Hq).
  - apply returns_variant_test. intros f ([idx q] & -> & Hq)%list_elem_of_fmap. simpl.
    rewrite Forall_forall in H0. apply (H0 (idx, q)). by apply list_elem_of_In.
Qed.
#[local] Hint Resolve returns_pattern_test : returns.

(** The arms: recursive calls are on operands. *)
Section Arms.
Context (lower : AirRef → BuildM ExprResult) (trace : AirRef → BuildM TracedPlace)
  (r0 : AirRef) (ty : Ty) (sp : Span).
Definition below (r : AirRef) : Prop := 0 ≤ r < r0.
Hypothesis Hlower : ∀ r, below r → returns top (lower r).
Hypothesis Htrace : returns top (trace r0).

Lemma returns_lower_value r : below r → returns top (lower_value lower r).
Proof. intros Hr. unfold lower_value. solve_returns. Qed.
#[local] Hint Resolve returns_lower_value : returns.
Lemma returns_lower_values rs : Forall below rs → returns top (lower_values lower rs).
Proof. induction 1; simpl; solve_returns. Qed.
Lemma returns_lower_option r : Forall below (option_list r) → returns top (lower_option lower r).
Proof. intros Hr. destruct r; simpl in *; [|done]. inversion Hr; subst. solve_returns. Qed.
Lemma returns_lower_emit d : returns top (lower_emit (Spur := Spur) r0 ty sp d).
Proof. unfold lower_emit. solve_returns. Qed.
#[local] Hint Resolve returns_lower_values returns_lower_option returns_lower_emit : returns.
Lemma returns_projections projs :
  Forall below (concat (map proj_refs projs)) → returns top (lower_projections lower projs).
Proof.
  induction projs as [|[sid f|at_ i] projs IH]; simpl; intros Hb; [done|by solve_returns; apply IH|].
  inversion Hb; subst. solve_returns; by apply IH.
Qed.
Lemma get_projections_total pl : get_place_projections air pl ≠ NoFuel.
Proof.
  unfold get_place_projections, get_projections, slice_range.
  repeat (apply bind_total; [auto with outcome|]; intros). repeat case_match; done.
Qed.
Lemma returns_air_place pl :
  Forall below (place_refs air pl) → returns top (lower_air_place air lower pl).
Proof.
  unfold place_refs, lower_air_place. intros Hb.
  eapply returns_bind; [apply returns_lift, index_total|]. intros p Hp. rewrite Hp in Hb.
  eapply returns_bind; [apply returns_lift, get_projections_total|]. intros projs Hprojs.
  simpl in Hb. rewrite Hprojs in Hb. simpl in Hb.
  returns_step; [by apply returns_projections|]. solve_returns.
Qed.
Lemma returns_lvalue r : below r → returns top (lower_air_lvalue_place air lower r).
Proof.
  intros Hr. unfold lower_air_lvalue_place, air_inst.
  eapply returns_bind; [apply returns_lift, get_inst_total|]. intros inst Hinst%expect_Done.
  pose proof (Hair _ _ Hinst) as Hops. destruct (i_data inst); solve_returns.
  apply returns_air_place. eapply Forall_impl; [|exact Hops]. unfold below in *. simpl. lia.
Qed.
#[local] Hint Resolve returns_lvalue : returns.
Lemma returns_forget_args args : returns top (forget_args air pool tf args).
Proof. unfold forget_args. solve_returns. Qed.
#[local] Hint Resolve returns_forget_args : returns.

(** Payload reads. *)
Lemma get_refs_total s l : get_air_refs air s l ≠ NoFuel.
Proof.
  unfold get_air_refs, get_extra, slice_range.
  repeat (apply bind_total; [auto with outcome|]; intros). repeat case_match; done.
Qed.
Lemma read_call_args_total data : read_call_args data ≠ NoFuel.
Proof.
  revert data. fix IH 1. intros [|v [|mode data]]; simpl; [done..|].
  apply bind_total; [unfold mode_from_u32; repeat case_match; done|]. intros.
  apply bind_total; [apply IH|done].
Qed.
Lemma get_call_args_total s l : get_call_args air s l ≠ NoFuel.
Proof.
  unfold get_call_args. apply bind_total; [auto with outcome|]. intros.
  apply bind_total; [apply get_refs_total|]. intros. apply read_call_args_total.
Qed.
Lemma collect_arms_total n (it : MatchArmIterator) :
  (mi_remaining it < n)%nat → collect_arms (Spur := Spur) n it ≠ NoFuel.
Proof.
  revert it; induction n as [|n IH]; intros [data rem] Hn; simpl in *; [lia|].
  destruct rem as [|rem]; simpl; [done|].
  apply bind_total.
  - do 2 (apply bind_total; [auto with outcome|]; intros).
    apply bind_total; [apply decode_total; lia|]. intros [] _. apply bind_total; [auto with outcome|done].
  - intros [item it'] Hnext. apply bind_Done in Hnext as (? & _ & Hnext).
    apply bind_Done in Hnext as (? & _ & Hnext). apply bind_Done in Hnext as ([] & _ & Hnext).
    apply bind_Done in Hnext as (? & _ & Hr). injection Hr as <- <-.
    apply bind_total; [apply IH; simpl; lia|done].
Qed.
Lemma get_match_arms_total s l : get_match_arms air s l ≠ NoFuel.
Proof.
  unfold get_match_arms. apply bind_total; [auto with outcome|]. intros.
  apply collect_arms_total. simpl. lia.
Qed.
(** A payload read, with what its elements are. *)
Lemma returns_refs {A} (o : outcome (list A)) (f : A → AirRef) :
  o ≠ NoFuel → Forall below (map f (or_nil o)) →
  returns (λ l, Forall below (map f l)) (lift_b (Spur := Spur) o).
Proof. intros Ho Hb b. by destruct o. Qed.
Lemma returns_get_refs s l :
  Forall below (or_nil (get_air_refs air s l)) →
  returns (Forall below) (lift_b (Spur := Spur) (get_air_refs air s l)).
Proof. intros Hb b. pose proof (get_refs_total s l). by destruct (get_air_refs air s l). Qed.

Lemma returns_call args_of s l : 
  Forall below (map ca_value (or_nil (get_call_args air s l))) →
  (∀ args vals, returns top (args_of args vals)) →
  returns top (args ← lift_b (get_call_args air s l);
               or_diverge (lower_values lower (map ca_value args)) (args_of args)).
Proof.
  intros Hb Hk. eapply returns_bind; [apply returns_refs; [apply get_call_args_total|exact Hb]|].
  intros args Hargs. solve_returns.
Qed.
Lemma returns_lower_field fields lowered i :
  Forall below fields → returns top (lower_field lower fields lowered i).
Proof.
  intros Hb. unfold lower_field. eapply returns_bind; [apply returns_lift, index_total|].
  intros r Hr%expect_Done. pose proof (Forall_lookup_1 _ _ _ _ Hb Hr). solve_returns.
Qed.
#[local] Hint Resolve returns_lower_field : returns.
Lemma returns_lower_fields fields order lowered :
  Forall below fields → returns top (lower_fields lower fields order lowered).
Proof.
  intros Hb. revert lowered; induction order as [|i order IH]; intros lowered; simpl; solve_returns.
Qed.
#[local] Hint Resolve returns_lower_fields : returns.
Lemma expect_all_total (l : list (option CfgValue)) : mapM expect l ≠ NoFuel.
Proof. apply mapM_total. intros. apply expect_total. Qed.
#[local] Hint Resolve expect_all_total : outcome.
Lemma returns_struct_init sid s l os :
  Forall below (or_nil (get_air_refs air s l)) →
  returns top (lower_struct_init air pool tf lower r0 ty sp sid s l os).
Proof.
  intros Hb. unfold lower_struct_init.
  eapply (returns_bind (λ p, Forall below p.1)); [|intros [fields order] Hf; solve_returns].
  intros b. unfold get_struct_init, lift_b, lift_st.
  pose proof (get_refs_total s l). destruct (get_air_refs air s l); simpl in *; try done.
  pose proof (get_refs_total os l) as Ho. unfold get_air_refs in Ho. by destruct (get_extra air os l).
Qed.
Lemma returns_place_read : returns top (lower_place_read trace r0 ty sp).
Proof. unfold lower_place_read. solve_returns; try done. Qed.
Lemma returns_spill v p : returns top (spill_and_read (Spur := Spur) r0 ty sp v p).
Proof. unfold spill_and_read. solve_returns. Qed.
Lemma returns_push_warning w : returns top (push_warning (Spur := Spur) w).
Proof. done. Qed.
#[local] Hint Resolve returns_place_read returns_spill returns_push_warning : returns.
Lemma returns_warn s l v : returns top (warn_unreachable air s l v).
Proof. unfold warn_unreachable. solve_returns. Qed.
#[local] Hint Resolve returns_warn : returns.
Lemma returns_statements l v : Forall below l → returns top (lower_statements air lower l v).
Proof. induction 1; simpl; solve_returns. Qed.
Lemma all_live_total l : allM (is_storage_live air) l ≠ NoFuel.
Proof.
  induction l as [|r l IH]; simpl; [done|]. apply bind_total.
  - apply bind_total; [auto with outcome|done].
  - intros []; done.
Qed.
Lemma returns_block s l v :
  below v → Forall below (or_nil (get_air_refs air s l)) →
  returns top (lower_block air pool tf lower s l v).
Proof.
  intros Hv Hb. unfold lower_block. eapply returns_bind; [by apply returns_get_refs|].
  intros stmts Hs. eapply returns_bind; [apply returns_lift, all_live_total|]. intros live _.
  returns_step; [unfold push_scope; solve_returns|]. intros _.
  returns_step; [by apply returns_statements|]. unfold emit_scope_end. solve_returns.
Qed.
Lemma returns_wire_join k p arm : returns top (wire_join (Spur := Spur) k p arm).
Proof. unfold wire_join. solve_returns. Qed.
Lemma returns_join_param k t : returns top (join_param (Spur := Spur) k t).
Proof. unfold join_param. solve_returns. Qed.
Lemma returns_enter_join k p : returns top (enter_join (Spur := Spur) r0 k p).
Proof. unfold enter_join. solve_returns. Qed.
Lemma returns_lower_in k r : below r → returns top (lower_in lower k r).
Proof. intros Hr. unfold lower_in. solve_returns. Qed.
Lemma returns_loop_body k r : below r → returns top (lower_loop_body lower k r).
Proof. intros Hr. unfold lower_loop_body. solve_returns. Qed.
#[local] Hint Resolve returns_wire_join returns_join_param returns_enter_join returns_lower_in
  returns_loop_body : returns.
Lemma returns_result_type arms : returns top (match_result_type air arms).
Proof. induction arms as [|[] arms IH]; simpl; solve_returns. Qed.
Lemma returns_branch c t e :
  below c → below t → Forall below (option_list e) →
  returns top (lower_branch air lower r0 sp c t e).
Proof.
  intros Hc Ht He. destruct e as [e|]; [inversion He; subst|]; unfold lower_branch; solve_returns.
Qed.

Lemma returns_arm_tests scr k arms : returns top (emit_arm_tests pool sp scr k arms).
Proof. induction arms as [|[[q k1] k2] arms IH]; simpl; solve_returns. Qed.
#[local] Hint Resolve returns_result_type returns_arm_tests : returns.
Lemma switch_cases_total (ps : list (AirPattern Spur)) ks : switch_cases ps ks ≠ NoFuel.
Proof.
  revert ks; induction ps as [|p ps IH]; intros [|k ks]; simpl; try done.
  destruct p; try done; (apply bind_total; [apply IH|by intros []]).
Qed.
Lemma split_default_total cs d : split_default cs d ≠ NoFuel.
Proof. destruct d; simpl; [done|]. apply bind_total; [apply expect_total|done]. Qed.
#[local] Hint Resolve switch_cases_total split_default_total : outcome.
Lemma returns_emit_cascade v t ps ks : returns top (emit_cascade pool sp v t ps ks).
Proof. unfold emit_cascade. solve_returns. Qed.
Lemma returns_emit_switch v (ps : list (AirPattern Spur)) ks : returns top (emit_switch v ps ks).
Proof. unfold emit_switch. solve_returns. Qed.
#[local] Hint Resolve returns_emit_cascade returns_emit_switch : returns.
Lemma returns_bodies (arms : list (AirPattern Spur * AirRef)) ks k t :
  Forall below (map snd arms) →
  returns top (lower_match_arm_bodies_and_join lower r0 arms ks k t).
Proof.
  intros Hb. unfold lower_match_arm_bodies_and_join.
  returns_step; [apply returns_mapM|solve_returns].
  intros [arm block] Hin%elem_of_zip_l. rewrite Forall_forall in Hb.
  apply returns_lower_in, Hb, list_elem_of_In. by apply list_elem_of_fmap_2.
Qed.
Lemma returns_match v s l :
  below v → Forall below (map snd (or_nil (get_match_arms air s l))) →
  returns top (lower_match air pool lower r0 sp v s l).
Proof.
  intros Hv Hb. unfold lower_match. do 4 returns_step; [solve_returns..|]. returns_step; [solve_returns|].
  eapply returns_bind; [apply returns_refs; [apply get_match_arms_total|exact Hb]|]. intros arms Harms.
  pose proof (returns_bodies arms). solve_returns.
Qed.
Lemma returns_make_slice base lo hi is_mut :
  below base → Forall below (option_list lo) → Forall below (option_list hi) →
  returns top (lower_make_slice air pool lower r0 ty sp base lo hi is_mut).
Proof. intros Hb Hl Hh. unfold lower_make_slice. solve_returns. Qed.
Lemma returns_jump f : returns top (lower_jump (Spur := Spur) pool tf sp f).
Proof. unfold lower_jump. solve_returns. Qed.
Lemma returns_ret_arm v : Forall below (option_list v) → returns top (lower_ret air pool tf lower sp v).
Proof.
  intros Hv. unfold lower_ret. destruct v as [v|]; [inversion Hv; subst|]; solve_returns.
Qed.
Lemma returns_refs_arm (k : list AirRef → list CfgValue → BuildM ExprResult) s l :
  Forall below (or_nil (get_air_refs air s l)) → (∀ rs vs, returns top (k rs vs)) →
  returns top (rs ← lift_b (get_air_refs air s l); or_diverge (lower_values lower rs) (k rs)).
Proof.
  intros Hb Hk. eapply returns_bind; [by apply returns_get_refs|]. intros rs Hrs. solve_returns.
Qed.

#[local] Hint Resolve returns_air_place returns_branch returns_match returns_jump returns_ret_arm
  returns_block returns_struct_init : returns.
Lemma returns_data data :
  Forall below (operands air data) →
  returns top (lower_data air pool resolve tf lower trace r0 ty sp data).
Proof.
  intros Hops. destruct data; simpl in Hops;
    repeat match goal with Hf : Forall below (_ :: _) |- _ => inversion Hf; clear Hf; subst end;
    unfold lower_data, lower_unary, lower_store, lower_bin, lower_and, lower_or,
    lower_make_ref, lower_alloc, lower_store_slot, lower_field_get, lower_index_get,
    lower_index_set, lower_enum_payload_get, lower_place_write, lower_drop, lower_storage_live,
    lower_loop, lower_infinite_loop, push_loop, pop_loop; try solve [solve_returns].
  - rewrite Forall_app in *. destruct_and!. by apply returns_make_slice.
  - apply returns_call; [done|]. solve_returns.
  - apply returns_refs_arm; [done|]. solve_returns.
  - apply returns_refs_arm; [done|]. solve_returns.
  - apply returns_refs_arm; [done|]. solve_returns.
  - unfold lower_method_call_dyn. returns_step; [solve_returns|]. intros.
    apply returns_call; [done|]. solve_returns.
Qed.
End Arms.

Lemma air_operands r inst :
  get_inst air r = Done inst → Forall (below r) (operands air (i_data inst)).
Proof.
  intros Hi%expect_Done. eapply Forall_impl; [|exact (Hair _ _ Hi)]. unfold below. simpl. lia.
Qed.

Lemma returns_trace lower n r :
  (Z.to_nat r < n)%nat → (∀ r', below r r' → returns top (lower r')) →
  returns top (try_trace_place air lower n r).
Proof.
  revert r; induction n as [|n IH]; intros r Hn Hlower; [lia|]. simpl. unfold air_inst.
  eapply returns_bind; [apply returns_lift, get_inst_total|]. intros inst Hops%air_operands.
  assert (Hrec : ∀ base, below r base → returns top (try_trace_place air lower n base)).
  { intros base Hb. unfold below in *. apply IH; [lia|]. intros r' Hr'. apply Hlower. lia. }
  destruct (i_data inst); simpl in Hops; try done;
    repeat match goal with Hf : Forall (below _) (_ :: _) |- _ => inversion Hf; clear Hf; subst end;
    unfold lower_value; solve_returns.
Qed.

Lemma returns_lower_inst n r :
  (Z.to_nat r < n)%nat → returns top (lower_inst air pool resolve tf n r).
Proof.
  revert r; induction n as [|n IH]; intros r Hn; [lia|]. cbn [lower_inst].
  assert (Hlower : ∀ r', below r r' →
    returns top (lower_inst air pool resolve tf n r')).
  { intros r' Hr'. apply IH. unfold below in Hr'. lia. }
  returns_step; [returns_step|]. intros cache. returns_step; [returns_step|].
  intros [v|]; [done|]. unfold air_inst.
  eapply returns_bind; [apply returns_lift, get_inst_total|]. intros inst Hops%air_operands.
  apply returns_data; [done| |done]. by apply returns_trace.
Qed.
End Steps.

(** ** [build] *)
Section Build.
Context {Spur : Type} `{Countable Spur} `{!SpurKey Spur}.
Context (pool : TypeInternPool (Spur := Spur)) (resolve : Spur → string) (tf : nat).
Context (rank : Ty → nat) (Hrank : ranked pool rank) (Htf : ∀ ty, (rank ty < tf)%nat).

Lemma live_params_total fuel types modes i :
  (length types - i < fuel)%nat → live_params_from pool tf fuel types modes i ≠ NoFuel.
Proof.
  revert i; induction fuel as [|fuel IH]; intros i Hi; [lia|]. simpl.
  destruct (types !! i) as [ty|] eqn:Hty; [|done]. apply lookup_lt_Some in Hty.
  apply bind_total; [by eapply abi_slot_count_total|]. intros n _.
  apply bind_total; [case_match; [done|by eapply type_needs_drop_total]|]. intros d _.
  apply bind_total; [apply IH; lia|done].
Qed.
Lemma block_edges_total (c : Cfg Spur) b : block_edges c b ≠ NoFuel.
Proof.
  unfold block_edges. case_match; try done. unfold get_switch_cases, cfg_slice, slice_range.
  repeat (apply bind_total; [auto with outcome|]; intros); repeat case_match; done.
Qed.
Lemma compute_predecessors_total (c : Cfg Spur) : compute_predecessors c ≠ NoFuel.
Proof.
  unfold compute_predecessors. apply bind_total.
  - apply foldM_total. intros. apply bind_total; [apply block_edges_total|done].
  - intros es _. apply bind_total; [|done]. apply foldM_total. intros c' e _.
    apply bind_total; [apply update_block_total|done].
Qed.

(** C13: Building terminates. When operands precede the instructions that use them and no
    type contains itself, one unit of fuel per AIR instruction suffices: [build] returns a
    graph or panics, it never runs on. *)
Theorem build_terminates (func : AnalyzedFunction (Spur := Spur)) fuel :
  bottom_up (fn_air func) → (length (instructions (fn_air func)) ≤ fuel)%nat →
  build pool resolve tf fuel func ≠ NoFuel.
Proof using Type*.
  intros Hair Hfuel. unfold build. apply bind_total.
  { unfold initial_live_params. case_match; [done|]. apply live_params_total. lia. }
  intros lp _. apply bind_total; [|intros [] _; apply bind_total; [apply compute_predecessors_total|by intros []]].
  assert (Hb : returns top (build_body pool resolve tf fuel (fn_air func))).
  { unfold build_body. apply returns_bind_top; [apply returns_new_block|]. intros k.
    apply returns_bind_top; [done|]. intros _. apply returns_bind_top; [done|]. intros _.
    destruct (instructions (fn_air func)) as [|i0 rest] eqn:Hi; [done|].
    apply returns_bind_top; [|done]. apply returns_lower_inst; [done| |].
    - intros ty. by eapply type_needs_drop_total.
    - simpl in *. pose proof (Z.mod_le (Z.of_nat (length rest - 0)) (2 ^ 32) ltac:(lia) ltac:(lia)).
      unfold wrap. lia. }
  intros Hnf. specialize (Hb (initial_builder func lp)). by rewrite Hnf in Hb.
Qed.
End Build.

(** The golden sample on an empty pool. *)
Import CfgSample.
Lemma sample_bottom_up : bottom_up CfgSample.early_return_air.
Proof.
  intros i inst Hi.
  do 11 (destruct i as [|i]; [injection Hi as <-; repeat constructor; vm_compute; done|]). done.
Qed.
Lemma new_pool_ranked : ranked (new_pool (Spur := Names.Name)) (λ _, 0%nat).
Proof.
  assert (He : ∀ id, entry (new_pool (Spur := Names.Name)) id = Panic).
  { intros id. unfold entry. case_decide; [|done]. by destruct (Z.to_nat id). }
  intros ty ty'. unfold contained, struct_def, enum_def, array_def.
  destruct (kind ty) as [[]| |]; rewrite ?He; simpl; by intros ?%elem_of_nil.
Qed.
Lemma build_terminates_witness :
  build new_pool CfgSample.no_names 1 11 CfgSample.early_return ≠ NoFuel.
Proof.
  refine (build_terminates new_pool CfgSample.no_names 1 (λ _, 0%nat) new_pool_ranked _
    CfgSample.early_return 11 sample_bottom_up _); [intros; lia|vm_compute; lia].
Defined.
