(* ===== verification/CfgRun.v ===== *)
(** * Running the tests of a match

    A semantics of the part of the graph that dispatches a match: the instructions the
    pattern tests consist of, and the terminators that connect them. Values are those of
    [Usefulness]; a scalar stands for its 64-bit pattern. *)

From S2P Require Import Prelude Types LayoutTypes InternPool Layout AirPattern Air ParamArena.
From S2P Require Import DropNames Usefulness Cfg CfgBuild CfgTheory CfgMono CfgLower.

#[local] Open Scope Z_scope.

(** The values of instructions and of local slots. *)
Record store : Type := MkStore { st_env : gmap Z value; st_locals : gmap Z value }.

Definition unit_value : value := VStruct [].
(** The pattern of bits [==] compares. *)
Definition value_eq (v w : value) : option bool :=
  match v, w with
  | VScalar m, VScalar n => Some (wrap 64 m =? wrap 64 n)
  | VBool b, VBool c => Some (Bool.eqb b c)
  | _, _ => None
  end.
Definition switch_key (v : value) : option Z :=
  match v with
  | VScalar n => Some n
  | VBool b => Some (if b then 1 else 0)
  | VEnum i _ => Some i
  | VStruct _ => None
  end.
Definition project (v : value) (p : Projection) : option value :=
  match v, p with VStruct vs, ProjField _ i => vs !! Z.to_nat i | _, _ => None end.
Fixpoint project_all (v : value) (ps : list Projection) : option value :=
  match ps with [] => Some v | p :: ps => w ← project v p; project_all w ps end.
Lemma project_all_app v ps qs : project_all v (ps ++ qs) = (w ← project_all v ps; project_all w qs).
Proof.
  revert v; induction ps as [|p ps IH]; intros v; simpl; [done|]. by destruct (project v p); simpl.
Qed.
Definition to_option {A} (o : outcome A) : option A := match o with Done a => Some a | _ => None end.

(** A place read: the slot of the base, projected. *)
Definition read_slot (st : store) (slot : Z) (ps : list Projection) : option value :=
  v ← st_locals st !! slot; project_all v ps.

Section Run.
Context {Spur : Type}.
Implicit Types c : Cfg Spur.

Definition read_place c (st : store) (pl : Place) : option value :=
  match cp_base pl with
  | Local slot => ps ← to_option (cfg_get_place_projections c pl); read_slot st slot ps
  | Param _ => None
  end.

(** The value of an instruction and the slots after it; [None] for instructions that
    are no part of a test. *)
Definition eval_inst c (d : CfgInstData Spur) (st : store) : option (value * gmap Z value) :=
  let pure (v : option value) := w ← v; Some (w, st_locals st) in
  match d with
  | GConst n => pure (Some (VScalar n))
  | GBoolConst b => pure (Some (VBool b))
  | GPlaceRead pl => pure (read_place c st pl)
  | GBin Eq l r =>
      pure (v ← st_env st !! l; w ← st_env st !! r; b ← value_eq v w; Some (VBool b))
  | GGetDiscriminant b =>
      pure (v ← st_env st !! b; match v with VEnum i _ => Some (VScalar i) | _ => None end)
  | GEnumPayloadGet b i f =>
      pure (v ← st_env st !! b;
            match v with VEnum j vs => if i =? j then vs !! Z.to_nat f else None | _ => None end)
  | GStorageLive _ => pure (Some unit_value)
  | GAlloc slot v => w ← st_env st !! v; Some (unit_value, <[slot := w]> (st_locals st))
  | _ => None
  end.
Definition exec_inst c (st : store) (v : CfgValue) : option store :=
  inst ← c_values c !! Z.to_nat v;
  '(w, locals) ← eval_inst c (ci_data inst) st;
  Some (MkStore (<[v := w]> (st_env st)) locals).
Fixpoint exec_insts c (vs : list CfgValue) (st : store) : option store :=
  match vs with [] => Some st | v :: vs => st' ← exec_inst c st v; exec_insts c vs st' end.

(** Where a terminator goes. *)
Definition next_block c (t : Terminator) (st : store) : option BlockId :=
  match t with
  | TGoto k _ _ => Some k
  | TBranch cond kt _ _ ke _ _ =>
      v ← st_env st !! cond; match v with VBool b => Some (if b : bool then kt else ke) | _ => None end
  | TSwitch scrutinee s l d =>
      v ← st_env st !! scrutinee; n ← switch_key v; cases ← to_option (get_switch_cases c s l);
      Some (match list_find (λ x, x.1 = n) cases with Some (_, x) => x.2 | None => d end)
  | TReturn _ | TUnreachable | TNone => None
  end.
(** Block [k] from its [i]-th instruction to its end. *)
Definition exec_block c (k : BlockId) (i : nat) (st : store) : option (BlockId * store) :=
  blk ← c_blocks c !! Z.to_nat k;
  st' ← exec_insts c (drop i (bb_insts blk)) st;
  k' ← next_block c (bb_terminator blk) st';
  Some (k', st').

(** Control leaves block [k] (from instruction [i]) and arrives, through any number of
    blocks, at the start of [k']. *)
Inductive reaches c : BlockId → nat → store → BlockId → store → Prop :=
  | reaches_one k i st k' st' : exec_block c k i st = Some (k', st') → reaches c k i st k' st'
  | reaches_more k i st k1 st1 k' st' :
      exec_block c k i st = Some (k1, st1) → reaches c k1 0 st1 k' st' → reaches c k i st k' st'.

Lemma reaches_exec c k i st k2 i2 st2 k' st' :
  exec_block c k i st = exec_block c k2 i2 st2 → reaches c k2 i2 st2 k' st' → reaches c k i st k' st'.
Proof.
  intros He Hr. destruct Hr; [apply reaches_one|eapply reaches_more]; try (by rewrite He); done.
Qed.
Lemma reaches_trans c k i st k1 st1 k' st' :
  reaches c k i st k1 st1 → reaches c k1 0 st1 k' st' → reaches c k i st k' st'.
Proof. induction 1; intros; [by eapply reaches_more|eapply reaches_more; eauto]. Qed.

(** ** A later graph *)

(** The instructions and payloads of [c] are still there in [c']. *)
Record later c c' : Prop := {
  later_values : c_values c `prefix_of` c_values c';
  later_projections : c_projections c `prefix_of` c_projections c';
  later_cases : c_switch_cases c `prefix_of` c_switch_cases c';
  later_small : small c';
}.
Lemma cgrows_later c1 c2 c3 : cgrows c1 c2 → later c2 c3 → later c1 c3.
Proof. intros (_ & ? & _ & _ & ? & ? & _) []. split; try done; by etransitivity. Qed.

Definition code c (k : BlockId) : option (list CfgValue * Terminator) :=
  (λ blk, (bb_insts blk, bb_terminator blk)) <$> c_blocks c !! Z.to_nat k.

Lemma slice_later {A} (l l' : list A) s n :
  l `prefix_of` l' → zlen l' < 2 ^ 32 → range_ok (zlen l) s n → cfg_slice l' s n = cfg_slice l s n.
Proof.
  intros Hp Hlt Hr. pose proof (prefix_zlen _ _ Hp) as Hle.
  rewrite !cfg_slice_Done; [|done|lia|by eapply range_grow|done]. f_equal.
  destruct Hp as [k ->]. unfold range_ok, zlen in *.
  rewrite drop_app_le by lia. rewrite take_app_le by (rewrite length_drop; lia). done.
Qed.
End Run.

(** ** Executing what the builder emits *)
Section Emit.
Context {Spur : Type} `{Countable Spur} `{!SpurKey Spur}.
Notation Builder := (CfgBuilder (Spur := Spur)).
Implicit Types (b : Builder) (c : Cfg Spur).

(** The current position of the builder. *)
Definition cur_insts b : list CfgValue :=
  match c_blocks (b_cfg b) !! Z.to_nat (b_current_block b) with
  | Some blk => bb_insts blk | None => [] end.
Definition pos b : nat := length (cur_insts b).

(** [c] contains what was emitted in the current block so far. *)
Definition on_path c b : Prop :=
  later (b_cfg b) c ∧ ∃ insts t, code c (b_current_block b) = Some (insts, t) ∧
    cur_insts b `prefix_of` insts.

(** Runs leave the values and slots the builder knew alone. *)
Definition agrees b (st st' : store) : Prop :=
  (∀ v, v < zlen (c_values (b_cfg b)) → st_env st' !! v = st_env st !! v) ∧
  (∀ s, s < c_num_locals (b_cfg b) → st_locals st' !! s = st_locals st !! s).
Lemma agrees_refl b st : agrees b st st.
Proof. done. Qed.
Lemma agrees_trans b b1 st st1 st2 : grows b b1 → agrees b st st1 → agrees b1 st1 st2 → agrees b st st2.
Proof.
  intros (_ & Hv%prefix_zlen & _ & _ & _ & _ & _ & Hl) [H1 H2] [H3 H4]. split; intros x Hx.
  - rewrite H3, H1 by lia. done.
  - rewrite H4, H2 by lia. done.
Qed.

(** What [emit] does to the graph. *)
Record emitted (d : CfgInstData Spur) (ty : Ty) (sp : Span) b (v : CfgValue) b' : Prop := {
  em_value : v = len_u32 (c_values (b_cfg b));
  em_values : c_values (b_cfg b') = c_values (b_cfg b) ++ [MkCfgInst d ty sp];
  em_current : b_current_block b' = b_current_block b;
  em_insts : cur_insts b' = cur_insts b ++ [v];
  em_blocks : length (c_blocks (b_cfg b')) = length (c_blocks (b_cfg b));
  em_locals : c_num_locals (b_cfg b') = c_num_locals (b_cfg b);
  em_projections : c_projections (b_cfg b') = c_projections (b_cfg b);
}.
Lemma emit_emitted d ty sp b v b' : emit d ty sp b = Done (v, b') → emitted d ty sp b v b'.
Proof.
  intros ([k bx] & Hg & He)%bind_Done. injection Hg as <- <-.
  apply bind_Done in He as ([v0 c] & Ha & Hr). injection Hr as <- <-.
  apply bind_Done in Ha as ([v1 c1] & Hadd & Hu). injection Hadd as <- <-.
  apply bind_Done in Hu as ([[] c2] & Hu & Hr). injection Hr as <- <-.
  apply bind_Done in Hu as (blk & Hblk%expect_Done & Hr). injection Hr as <-. simpl in Hblk.
  split; try done; simpl.
  - unfold cur_insts; simpl. rewrite Hblk, list_lookup_insert_eq by (by eapply lookup_lt_Some). done.
  - by rewrite length_insert.
Qed.

(** The run goes through an emitted instruction. *)
Lemma run_emit d ty sp b v b' c st w locals :
  emitted d ty sp b v b' → on_path c b' → eval_inst c d st = Some (w, locals) →
  v = zlen (c_values (b_cfg b)) ∧
  exec_block c (b_current_block b) (pos b) st =
  exec_block c (b_current_block b') (pos b') (MkStore (<[v := w]> (st_env st)) locals).
Proof.
  intros [Hv Hvs Hcur Hins _ _ _] [Hlater (insts & t & Hcode & Hpre)] He.
  pose proof (prefix_zlen _ _ (later_values _ _ Hlater)) as Hle.
  rewrite Hvs, zlen_app in Hle.
  assert (Hvz : v = zlen (c_values (b_cfg b))).
  { rewrite Hv. apply len_u32_zlen. destruct (later_small _ _ Hlater) as (_ & Hsm & _).
    simpl in Hsm. unfold zlen in *; simpl in *. lia. }
  split; [done|]. rewrite Hcur in *. unfold exec_block, code in *.
  destruct (c_blocks c !! _) as [blk|]; [|done]. simpl in *. injection Hcode as Hi Ht. rewrite Hi.
  unfold pos. rewrite Hins in Hpre |- *. destruct Hpre as [rest Hrest].
  rewrite Hrest, <-(assoc_L (++)), drop_app_length, (assoc_L (++)), drop_app_length. simpl.
  unfold exec_inst. assert (c_values c !! Z.to_nat v = Some (MkCfgInst d ty sp)) as ->.
  { destruct (later_values _ _ Hlater) as [k ->]. rewrite Hvs, Hvz, <-(assoc_L (++)). simpl.
    apply list_lookup_middle. unfold zlen. lia. }
  simpl. by rewrite He.
Qed.

(** ** Straight-line code *)

(** From [b] to [b'] the builder stayed in its block. *)
Record ext b b' : Prop := {
  ext_grows : grows b b';
  ext_current : b_current_block b' = b_current_block b;
  ext_insts : cur_insts b `prefix_of` cur_insts b';
}.
Lemma ext_refl b : ext b b.
Proof. by split; [apply grows_refl|..]. Qed.
Lemma ext_trans b1 b2 b3 : ext b1 b2 → ext b2 b3 → ext b1 b3.
Proof.
  intros [Hg1 E1 H1] [Hg2 E2 H2]. split; [unfold grows in *; by etransitivity|congruence|by etransitivity].
Qed.
Lemma ext_on_path c b b' : ext b b' → on_path c b' → on_path c b.
Proof.
  intros [Hg E Hi] [Hl (insts & t & Hc & Hp)]. split; [by eapply cgrows_later|].
  exists insts, t. rewrite <-E. split; [done|]. by etransitivity.
Qed.
Lemma on_path_code c b insts :
  later (b_cfg b) c → code c (b_current_block b) = code (b_cfg b) (b_current_block b) →
  code (b_cfg b) (b_current_block b) = Some insts → on_path c b.
Proof.
  intros Hl Hc Hb. destruct insts as [is0 t]. split; [done|]. exists is0, t. split; [by rewrite Hc|].
  unfold cur_insts, code in *. destruct (c_blocks (b_cfg b) !! _); [|done]. simpl in Hb. by simplify_eq.
Qed.

(** The run that follows the builder from [b] to [b']. *)
Definition moves c b (st : store) b' (st' : store) : Prop :=
  agrees b st st' ∧
  exec_block c (b_current_block b) (pos b) st = exec_block c (b_current_block b') (pos b') st'.
Lemma moves_refl c b st : moves c b st b st.
Proof. done. Qed.
Lemma moves_trans c b st b1 st1 b2 st2 :
  grows b b1 → moves c b st b1 st1 → moves c b1 st1 b2 st2 → moves c b st b2 st2.
Proof. intros Hg [A1 E1] [A2 E2]. split; [by eapply agrees_trans|congruence]. Qed.
Lemma moves_same c b st b' :
  b_current_block b' = b_current_block b → cur_insts b' = cur_insts b → moves c b st b' st.
Proof. intros Hc Hi. split; [done|]. unfold pos. by rewrite Hc, Hi. Qed.

Lemma emit_ext d ty sp b v b' : emit d ty sp b = Done (v, b') → ext b b'.
Proof.
  intros He. pose proof (mono_emit _ _ _ _ _ _ He) as Hg. apply emit_emitted in He as [].
  split; [done..|]. rewrite em_insts0. apply prefix_app_self.
Qed.
(** Operations of the graph that leave the blocks alone. *)
Lemma cfg_do_ext {A} (m : ST (Cfg Spur) A) b a b' :
  cfg_do m b = Done (a, b') → mono (cfg_do m) →
  (∀ c a c', m c = Done (a, c') → c_blocks c' = c_blocks c) →
  ext b b' ∧ cur_insts b' = cur_insts b ∧ b_current_block b' = b_current_block b.
Proof.
  intros Hd Hm Hb. pose proof (Hm _ _ _ Hd) as Hg.
  apply bind_Done in Hd as ([a1 c1] & H1 & Hr). injection Hr as <- <-. apply Hb in H1.
  assert (Hi : cur_insts (set_b_cfg c1 b) = cur_insts b) by (unfold cur_insts; simpl; by rewrite H1).
  split_and!; [|done|done]. split; [done|done|by rewrite Hi].
Qed.
Lemma make_place_ext base ps b pl b' :
  cfg_do (cfg_make_place base ps) b = Done (pl, b') →
  ext b b' ∧ cur_insts b' = cur_insts b ∧ b_current_block b' = b_current_block b.
Proof.
  intros Hd. eapply cfg_do_ext; [done|apply mono_make_place|].
  intros c a c' ([[s n] c1] & Hp & Hr)%bind_Done. injection Hr as <- <-.
  apply bind_Done in Hp as (? & _ & Hr). by injection Hr as _ <-.
Qed.
Lemma push_extra_ext vs b r b' :
  cfg_do (push_extra vs) b = Done (r, b') →
  ext b b' ∧ cur_insts b' = cur_insts b ∧ b_current_block b' = b_current_block b.
Proof.
  intros Hd. eapply cfg_do_ext; [done|apply mono_push_extra|].
  intros c a c' (? & _ & Hr)%bind_Done. by injection Hr as <- <-.
Qed.
Lemma alloc_temp_ext b s b' :
  cfg_do alloc_temp_local b = Done (s, b') →
  ext b b' ∧ cur_insts b' = cur_insts b ∧ b_current_block b' = b_current_block b.
Proof.
  intros Hd. eapply cfg_do_ext; [done|apply mono_alloc_temp|].
  intros c a c' (? & _ & Hr)%bind_Done. by injection Hr as <- <-.
Qed.

Lemma run_emit' d ty sp b v b' c st w locals :
  emit d ty sp b = Done (v, b') → on_path c b' → eval_inst c d st = Some (w, locals) →
  (∀ s, s < c_num_locals (b_cfg b) → locals !! s = st_locals st !! s) →
  ∃ st', moves c b st b' st' ∧ st_env st' !! v = Some w ∧ st_locals st' = locals ∧
    v = zlen (c_values (b_cfg b)) ∧ v < zlen (c_values (b_cfg b')).
Proof.
  intros He%emit_emitted Hp Hev Hloc.
  destruct (run_emit _ _ _ _ _ _ _ _ _ _ He Hp Hev) as [Hv Hex]. eexists. split; [split; [|exact Hex]|].
  - split; simpl; [|done]. intros x Hx. apply lookup_insert_ne. lia.
  - simpl. rewrite lookup_insert_eq. split_and!; [done..|].
    rewrite (em_values _ _ _ _ _ _ He), zlen_app. unfold zlen in *; simpl; lia.
Qed.

Lemma read_projected_ext slot ty ps sp b v b' : read_projected slot ty ps sp b = Done (v, b') → ext b b'.
Proof.
  intros ([pl b1] & Hp%make_place_ext & He%emit_ext)%bind_Done. destruct Hp. by eapply ext_trans.
Qed.
Lemma run_read_projected slot ty ps sp b v b' c st w :
  read_projected slot ty ps sp b = Done (v, b') → on_path c b' → read_slot st slot ps = Some w →
  ∃ st', moves c b st b' st' ∧ st_env st' !! v = Some w ∧ st_locals st' = st_locals st ∧
    v < zlen (c_values (b_cfg b')).
Proof.
  intros ([pl b1] & Hp & He)%bind_Done Hon Hr. destruct (make_place_ext _ _ _ _ _ Hp) as (Hx & Hi & Hc).
  assert (Hon1 : on_path c b1) by (eapply ext_on_path; [by eapply emit_ext|done]).
  edestruct (run_emit' (GPlaceRead pl) ty sp b1 v b' c st w (st_locals st)) as (st' & Hm & ? & ? & ? & ?);
    [done|done| |done|exists st'; split_and!; [|done..]].
  - simpl. unfold read_place.
    apply bind_Done in Hp as ([pl' c1] & Hp & Hr1). injection Hr1 as <- <-.
    apply bind_Done in Hp as ([[s n] c2] & Hp & Hr1). injection Hr1 as <- <-.
    apply bind_Done in Hp as ([s' n'] & Hp & Hr1). injection Hr1 as <- <- <-. simpl.
    destruct Hon1 as [Hl _]. simpl in Hl.
    pose proof (prefix_zlen _ _ (later_projections _ _ Hl)) as Hle.
    destruct (later_small _ _ Hl) as (_ & _ & _ & _ & _ & Hsm).
    apply pushed_Done in Hp as (-> & -> & Hrg); [|simpl in *; lia].
    unfold cfg_get_place_projections, cfg_get_projections. simpl.
    rewrite (slice_later _ _ _ _ (later_projections _ _ Hl)) by done. simpl.
    rewrite cfg_slice_Done by (done || (simpl in *; lia)). simpl. unfold zlen. rewrite !Nat2Z.id.
    rewrite drop_app_length, take_ge by done. by rewrite Hr.
  - eapply moves_trans; [apply Hx|by apply moves_same|done].
Qed.
End Emit.
