(* ===== verification/CfgMatch.v ===== *)
(** * Matches dispatch to the first matching arm

    The code [emit_pattern_test], [emit_cascade] and [emit_switch] emit, run in the
    semantics of [CfgRun], tests the scrutinee against the patterns in order. *)

From S2P Require Import Prelude Types LayoutTypes InternPool Layout AirPattern Air ParamArena.
From S2P Require Import DropNames Usefulness Cfg CfgBuild CfgTheory CfgMono CfgLower CfgSample.
From S2P Require Import CfgWf CfgRun.

#[local] Open Scope Z_scope.

Section Dispatch.
Context {Spur : Type} `{Countable Spur} `{!SpurKey Spur}.
Context (pool : TypeInternPool (Spur := Spur)).
Notation Builder := (CfgBuilder (Spur := Spur)).
Notation BuildM := (BuildM (Spur := Spur)).
Implicit Types (b : Builder) (c : Cfg Spur).

Definition ready b : Prop := cfg_wf (b_cfg b) ∧ builder_ok b.
Lemma ready_inv b : ready b → inv b b.
Proof. intros []. by apply inv_start. Qed.
Lemma inv_ready b0 b : inv b0 b → ready b.
Proof. by intros []. Qed.
Lemma ready_current b : ready b → blk_ok (bsizes b) (b_current_block b).
Proof. intros [_ []]. done. Qed.

(** [c] is a later graph in which the blocks of the run from [b] to [b'] are final. *)
Record sealed b b' c : Prop := {
  sealed_small : small (b_cfg b');
  sealed_later : later (b_cfg b') c;
  sealed_code k : own b k → blk_ok (bsizes b') k → code c k = code (b_cfg b') k;
}.

(** What a test may assume about the builder and the store, and keeps. *)
Definition stable (P : Builder → store → Prop) : Prop :=
  ∀ b b1 st st1, P b st → grows b b1 → agrees b st st1 → P b1 st1.

(** A test that continues in [next] when [r] and in [u] otherwise. *)
Definition dispatches (P : Builder → store → Prop) (u : BlockId) (r : bool)
    (T : BlockId → BuildM ()) : Prop :=
  ∀ b b' c st next, ready b → blk_ok (bsizes b) next → blk_ok (bsizes b) u →
    T next b = Done ((), b') → sealed b b' c → P b st →
    ∃ st', reaches c (b_current_block b) (pos b) st (if r then next else u) st' ∧ agrees b st st'.
(** A test that keeps the invariant of [CfgLower], when the sizes satisfy [Q]. *)
Definition sound_test (Q : sizes → Prop) (u : BlockId) (T : BlockId → BuildM ()) : Prop :=
  (∀ next, mono (T next)) ∧
  ∀ b0 z next, blk_ok (bsizes b0) (b_current_block b0) → Q z → blk_ok z next → blk_ok z u →
    keeps b0 z (λ _ _, True) (T next).

Lemma test_inv Q u T b next b' :
  sound_test Q u T → ready b → Q (bsizes b) → blk_ok (bsizes b) next → blk_ok (bsizes b) u →
  T next b = Done ((), b') → small (b_cfg b') → inv b b'.
Proof.
  intros [_ Hk] Hr HQ Hn Hu HT Hsm.
  edestruct (Hk b (bsizes b) next (ready_current _ Hr) HQ Hn Hu b () b' HT Hsm (ready_inv _ Hr)); done.
Qed.

(** Blocks of [b0] other than its current one. *)
Lemma framed_code b0 b k :
  inv b0 b → blk_ok (bsizes b0) k → k ≠ b_current_block b0 → code (b_cfg b) k = code (b_cfg b0) k.
Proof.
  intros Hinv [Hk1 Hk2] Hne. pose proof (inv_frame _ _ Hinv (Z.to_nat k)) as Hf.
  unfold block_framed in Hf. rewrite Z2Nat.id in Hf by done. specialize (Hf Hk2).
  rewrite decide_False in Hf by done. unfold code. by rewrite Hf.
Qed.
Lemma blk_ok_grows b b' k : grows b b' → blk_ok (bsizes b) k → blk_ok (bsizes b') k.
Proof. intros Hg%cgrows_sizes. by apply blk_ok_mono. Qed.

(** A block that was just created. *)
Lemma new_block_facts b k b' :
  cfg_do new_block b = Done (k, b') → ready b → small (b_cfg b') →
  ready b' ∧ k = n_blocks (bsizes b) ∧ grows b b' ∧ ext b b' ∧ cur_insts b' = cur_insts b ∧
  b_current_block b' = b_current_block b ∧ blk_ok (bsizes b') k ∧
  code (b_cfg b') k = Some ([], TNone) ∧
  (∀ j, blk_ok (bsizes b) j → code (b_cfg b') j = code (b_cfg b) j).
Proof.
  intros Hd Hr Hsm. pose proof (mono_new_block _ _ _ Hd) as Hg.
  destruct (keeps_new_block b (bsizes b) b k b' Hd Hsm (ready_inv _ Hr)) as (Hinv & _ & Hk & _); [done|].
  apply bind_Done in Hd as ([k1 c1] & H1 & Hr1). injection Hr1 as <- <-.
  apply new_block_Done in H1 as (_ & -> & Hbl); [|done|apply Hr].
  pose proof (ready_current _ Hr) as [Hc1 Hc2]. unfold bsizes in *; simpl in Hc2 |- *. unfold zlen in *.
  assert (Hold : ∀ j : Z, 0 ≤ j < Z.of_nat (length (c_blocks (b_cfg b))) →
    c_blocks c1 !! Z.to_nat j = c_blocks (b_cfg b) !! Z.to_nat j).
  { intros j Hj. rewrite Hbl, lookup_app_l by lia. done. }
  assert (Hi : cur_insts (set_b_cfg c1 b) = cur_insts b).
  { unfold cur_insts; simpl. by rewrite Hold by lia. }
  split_and!; try done.
  - by eapply inv_ready.
  - split; [done|done|by rewrite Hi].
  - unfold code; simpl. rewrite Hbl, lookup_app_r by lia. by rewrite Nat2Z.id, Nat.sub_diag.
  - intros j Hj. unfold code; simpl. by rewrite Hold.
Qed.
Lemma code_empty_pos b : code (b_cfg b) (b_current_block b) = Some ([], TNone) → pos b = 0%nat.
Proof.
  unfold code, pos, cur_insts. destruct (c_blocks (b_cfg b) !! _); [|done]. simpl. intros Hc. injection Hc as Hi _. by rewrite Hi.
Qed.

(** ** Chains of tests *)
Lemma sound_chain Q `{!Growing Q} u tests :
  Forall (sound_test Q u) tests → sound_test Q u (λ m, test_chain m tests).
Proof.
  intros Ht. rewrite Forall_forall in Ht. split.
  - intros next. apply mono_test_chain. intros t Hin%list_elem_of_In next'. by apply Ht.
  - intros b0 z next Hb0 HQ Hn Hu. apply keeps_test_chain; [done|done|..].
    + intros t next' Hin%list_elem_of_In. by apply Ht.
    + intros z' t next' Hle Hin%list_elem_of_In Hn'.
      apply Ht; [done|done|by eapply growing|done|by eapply blk_ok_mono].
Qed.

Lemma chain_dispatches P Q `{!Growing Q} u tests rs :
  stable P → (∀ b st, P b st → Q (bsizes b)) →
  Forall2 (dispatches P u) rs tests → Forall (sound_test Q u) tests → tests ≠ [] →
  dispatches P u (forallb id rs) (λ m, test_chain m tests).
Proof.
  intros HP HPQ Hd. induction Hd as [|r T rs tests HT Hd IH]; intros Hs Hne; [done|].
  inversion Hs as [|? ? HsT Hs']; subst. destruct tests as [|T' tests].
  { inversion Hd; subst. simpl. by rewrite andb_true_r. }
  specialize (IH Hs' ltac:(done)). pose proof (sound_chain Q _ _ Hs') as HsC.
  intros b b' c st m Hr Hm Hu Hrun Hseal HPst. cbn [test_chain] in Hrun.
  apply bind_Done in Hrun as ([next b1] & Hnb & Hrun).
  apply bind_Done in Hrun as ([[] b2] & HT1 & Hrun). apply bind_Done in Hrun as ([[] b3] & Hsc & Hrest).
  injection Hsc as <-. change (test_chain m (T' :: tests) (set_b_current next b2) = Done ((), b')) in Hrest.
  pose proof (proj1 HsC m _ _ _ Hrest : grows b2 b') as Hg2'.
  pose proof (proj1 HsT next _ _ _ HT1) as Hg12.
  assert (Hsm2 : small (b_cfg b2)) by (eapply small_mono; [exact Hg2'|apply Hseal]).
  assert (Hsm1 : small (b_cfg b1)) by (eapply small_mono; [exact Hg12|done]).
  destruct (new_block_facts _ _ _ Hnb Hr Hsm1) as (Hr1 & Hnext & Hg1 & Hx1 & Hi1 & Hc1 & Hok1 & Hcode1 & _).
  pose proof (ready_current _ Hr) as [Hcur0 Hcur1].
  assert (Hne1 : next ≠ b_current_block b1) by (rewrite Hc1; unfold bsizes in *; lia).
  assert (HQ1 : Q (bsizes b1)).
  { eapply growing; [exact (cgrows_sizes _ _ Hg1)|by eapply HPQ]. }
  pose proof (test_inv Q u T b1 next b2 HsT Hr1 HQ1 Hok1 (blk_ok_grows _ _ _ Hg1 Hu) HT1 Hsm2) as Hinv12.
  assert (Hr3 : ready (set_b_current next b2)).
  { destruct Hinv12 as [? [? ? ?] _ _ _]. split; [done|]. split; [|done..].
    exact (blk_ok_grows _ _ _ Hg12 Hok1). }
  pose proof (blk_ok_grows _ _ _ Hg12 (blk_ok_grows _ _ _ Hg1 Hm)) as Hm2.
  pose proof (blk_ok_grows _ _ _ Hg12 (blk_ok_grows _ _ _ Hg1 Hu)) as Hu2.
  assert (HQ2 : Q (bsizes b2)) by (eapply growing; [exact (cgrows_sizes _ _ Hg12)|done]).
  pose proof (test_inv Q u _ (set_b_current next b2) m b' HsC Hr3 HQ2 Hm2 Hu2 Hrest (sealed_small _ _ _ Hseal)) as Hinv3.
  destruct (HT b1 b2 c st next) as (st1 & Hreach & Hag); try done.
  { by eapply blk_ok_grows. }
  { split; [done|eapply cgrows_later; [exact Hg2'|apply Hseal]|]. intros k Hk Hkok.
    rewrite (sealed_code _ _ _ Hseal); [|destruct Hk as [->|Hk]; [by left; rewrite Hc1|right]|].
    - apply (framed_code _ _ _ Hinv3); [done|]. simpl. intros ->.
      destruct Hk as [Hk|Hk]; [done|]. destruct Hok1 as [_ Hok1]. unfold fresh in Hk. lia.
    - unfold fresh in *. destruct (cgrows_sizes _ _ Hg1) as [Hle _]. unfold bsizes in *. lia.
    - by eapply blk_ok_grows. }
  { eapply HP; [done..|]. apply agrees_refl. }
  assert (Hag0 : agrees b st st1) by (eapply agrees_trans; [exact Hg1|apply agrees_refl|done]).
  assert (Hpos : pos b1 = pos b) by (unfold pos; by rewrite Hi1).
  rewrite Hc1, Hpos in Hreach. destruct r; simpl; [|by exists st1].
  destruct (IH (set_b_current next b2) b' c st1 m) as (st' & Hreach' & Hag'); try done.
  { split; [apply Hseal..|]. intros k Hk Hkok. apply (sealed_code _ _ _ Hseal); [|done].
    right. destruct (cgrows_sizes _ _ Hg1) as [Hle1 _]. destruct (cgrows_sizes _ _ Hg12) as [Hle2 _].
    destruct Hk as [->|Hk]; unfold fresh in *; unfold bsizes in *; simpl in *; lia. }
  { eapply (HP b1); [eapply HP; [done..|apply agrees_refl]|exact Hg12|done]. }
  exists st'. split.
  - eapply reaches_trans; [done|]. rewrite code_empty_pos in Hreach'; [done|]. simpl.
    by rewrite (framed_code _ _ _ Hinv12 Hok1).
  - eapply (agrees_trans b (set_b_current next b2)); [|exact Hag0|done].
    unfold grows in *. by etransitivity.
Qed.

(** ** The end of a test *)
Lemma terminate_facts t b b' :
  terminate t b = Done ((), b') →
  b_current_block b' = b_current_block b ∧ code (b_cfg b') (b_current_block b) = Some (cur_insts b, t) ∧
  cur_insts b' = cur_insts b ∧ c_values (b_cfg b') = c_values (b_cfg b).
Proof.
  intros ([k bx] & Hg & Ht)%bind_Done. injection Hg as <- <-.
  apply bind_Done in Ht as ([[] c1] & Hu & Hr). injection Hr as <-.
  apply bind_Done in Hu as (blk & Hblk%expect_Done & Hr). injection Hr as <-.
  assert (Hlt : (Z.to_nat (b_current_block b) < length (c_blocks (b_cfg b)))%nat) by (by eapply lookup_lt_Some).
  unfold code, cur_insts; simpl. rewrite list_lookup_insert_eq by done. by rewrite Hblk.
Qed.
Lemma terminate_ext t b b' : terminate t b = Done ((), b') → ext b b'.
Proof.
  intros Ht. pose proof (mono_terminate _ _ _ _ Ht). apply terminate_facts in Ht as (? & _ & Hi & _).
  split; [done..|]. by rewrite Hi.
Qed.
(** The whole block is known when the terminator was set and the graph is final. *)
Lemma run_terminate t b b' c st :
  terminate t b = Done ((), b') → code c (b_current_block b) = code (b_cfg b') (b_current_block b) →
  exec_block c (b_current_block b) (pos b) st = (k ← next_block c t st; Some (k, st)).
Proof.
  intros (_ & Hcode & _ & _)%terminate_facts Hc. rewrite Hcode in Hc. unfold exec_block, code in *.
  destruct (c_blocks c !! _) as [blk|]; [|done]. simpl in *. injection Hc as Hi Ht.
  rewrite Hi, Ht. unfold pos. by rewrite drop_all.
Qed.

Lemma branch_to_ext v k k' b b' : branch_to v k k' b = Done ((), b') → ext b b'.
Proof.
  intros ([[s1 n1] b1] & H1%push_extra_ext & Hb)%bind_Done.
  apply bind_Done in Hb as ([[s2 n2] b2] & H2%push_extra_ext & H3%terminate_ext).
  destruct H1 as (? & _), H2 as (? & _). do 2 (eapply ext_trans; [done|]). done.
Qed.
Lemma run_branch v k k' b b' c st r :
  branch_to v k k' b = Done ((), b') →
  code c (b_current_block b) = code (b_cfg b') (b_current_block b) →
  st_env st !! v = Some (VBool r) →
  exec_block c (b_current_block b) (pos b) st = Some (if r then k else k', st).
Proof.
  intros ([[s1 n1] b1] & H1%push_extra_ext & Hb)%bind_Done Hc Hv.
  apply bind_Done in Hb as ([[s2 n2] b2] & H2%push_extra_ext & H3).
  destruct H1 as (_ & Hi1 & Hc1), H2 as (_ & Hi2 & Hc2).
  assert (Hcur : b_current_block b2 = b_current_block b) by congruence.
  assert (Hpos : pos b2 = pos b) by (unfold pos; congruence).
  rewrite <-Hcur in Hc. apply (run_terminate _ _ _ _ st H3) in Hc. rewrite Hcur, Hpos in Hc.
  rewrite Hc. simpl. rewrite Hv. simpl. done.
Qed.
Lemma goto_ext k args b b' : goto k args b = Done ((), b') → ext b b'.
Proof.
  intros ([[s1 n1] b1] & H1%push_extra_ext & H3%terminate_ext)%bind_Done. destruct H1 as (? & _).
  by eapply ext_trans.
Qed.
Lemma run_goto k args b b' c st :
  goto k args b = Done ((), b') →
  code c (b_current_block b) = code (b_cfg b') (b_current_block b) →
  exec_block c (b_current_block b) (pos b) st = Some (k, st).
Proof.
  intros ([[s1 n1] b1] & H1%push_extra_ext & H3)%bind_Done Hc. destruct H1 as (_ & Hi1 & Hc1).
  assert (Hpos : pos b1 = pos b) by (unfold pos; congruence).
  rewrite <-Hc1 in Hc. apply (run_terminate _ _ _ _ st H3) in Hc. by rewrite Hc1, Hpos in Hc.
Qed.

(** The current block is final. *)
Lemma on_path_final c b :
  later (b_cfg b) c → blk_ok (bsizes b) (b_current_block b) →
  code c (b_current_block b) = code (b_cfg b) (b_current_block b) → on_path c b.
Proof.
  intros Hl [? Hlt] Hc. unfold bsizes in Hlt; simpl in Hlt. unfold zlen in Hlt.
  destruct (lookup_lt_is_Some_2 (c_blocks (b_cfg b)) (Z.to_nat (b_current_block b))) as [blk Hblk]; [lia|].
  eapply (on_path_code _ _ (bb_insts blk, bb_terminator blk)); [done..|]. unfold code. by rewrite Hblk.
Qed.
(** The builder's own block is final when the run is sealed. *)
Lemma sealed_current b b' c :
  sealed b b' c → ready b → grows b b' → ext b b' →
  code c (b_current_block b) = code (b_cfg b') (b_current_block b) ∧ on_path c b'.
Proof.
  intros Hs Hr Hg Hx. pose proof (blk_ok_grows _ _ _ Hg (ready_current _ Hr)) as Hok.
  assert (Hc : code c (b_current_block b) = code (b_cfg b') (b_current_block b)).
  { apply (sealed_code _ _ _ Hs); [by left|done]. }
  split; [done|]. rewrite <-(ext_current _ _ Hx) in Hc, Hok. apply on_path_final; [apply Hs|done..].
Qed.

(** A goto decides nothing. *)
Lemma goto_dispatches P u : dispatches P u true (λ m, goto m []).
Proof.
  intros b b' c st next Hr Hn Hu Hg Hs _. exists st. split; [|apply agrees_refl].
  apply goto_ext in Hg as Hx. destruct (sealed_current _ _ _ Hs Hr (ext_grows _ _ Hx) Hx) as [Hc _].
  apply reaches_one. by eapply run_goto.
Qed.

(** The scrutinee is readable. *)
Definition holds (scr : Scrutinee) (v : value) b (st : store) : Prop :=
  scr_slot scr < c_num_locals (b_cfg b) ∧ read_slot st (scr_slot scr) (scr_projection scr) = Some v.
Lemma holds_stable scr v : stable (holds scr v).
Proof.
  intros b b1 st st1 [Hs Hr] (_ & _ & _ & _ & _ & _ & _ & Hl) [_ Ha]. split; [lia|].
  unfold read_slot. by rewrite Ha.
Qed.

(** A comparison of the scrutinee with a literal. *)
Lemma compare_dispatches scr lit lit_ty sp u v w r :
  value_eq v w = Some r → (∀ c st, eval_inst c lit st = Some (w, st_locals st)) →
  dispatches (holds scr v) u r (λ m,
    val ← read_projected (scr_slot scr) (scr_ty scr) (scr_projection scr) sp;
    lit ← emit lit lit_ty sp;
    cond ← emit (GBin Eq val lit) Ty.BOOL sp;
    branch_to cond m u).
Proof.
  intros Hveq Hlit b b' c st m Hr Hm Hu Hrun Hs [_ Hread].
  apply bind_Done in Hrun as ([val b1] & H1 & Hrun). apply bind_Done in Hrun as ([l b2] & H2 & Hrun).
  apply bind_Done in Hrun as ([cond b3] & H3 & H4).
  pose proof (read_projected_ext _ _ _ _ _ _ _ H1) as X1. pose proof (emit_ext _ _ _ _ _ _ H2) as X2.
  pose proof (emit_ext _ _ _ _ _ _ H3) as X3. pose proof (branch_to_ext _ _ _ _ _ H4) as X4.
  pose proof (ext_trans _ _ _ X1 (ext_trans _ _ _ X2 X3)) as X13.
  pose proof (ext_trans _ _ _ X13 X4) as X.
  destruct (sealed_current _ _ _ Hs Hr (ext_grows _ _ X) X) as [Hc Hon].
  apply (ext_on_path _ _ _ X4) in Hon as Hon3. apply (ext_on_path _ _ _ X3) in Hon3 as Hon2.
  apply (ext_on_path _ _ _ X2) in Hon2 as Hon1.
  destruct (run_read_projected _ _ _ _ _ _ _ _ _ _ H1 Hon1 Hread) as (st1 & M1 & E1 & L1 & V1).
  destruct (run_emit' _ _ _ _ _ _ _ _ _ _ H2 Hon2 (Hlit c st1) ltac:(done)) as (st2 & M2 & E2 & L2 & V2 & _).
  assert (E1' : st_env st2 !! val = Some v) by (rewrite (proj1 (proj1 M2)); done).
  destruct (run_emit' _ _ _ _ _ _ _ st2 (VBool r) (st_locals st2) H3 Hon3) as (st3 & M3 & E3 & _); [|done|].
  { simpl. rewrite E1', E2. simpl. by rewrite Hveq. }
  pose proof (moves_trans _ _ _ _ _ _ _ (ext_grows _ _ X1) M1
    (moves_trans _ _ _ _ _ _ _ (ext_grows _ _ X2) M2 M3)) as [Ha Hex].
  exists st3. split; [|done]. apply reaches_one. rewrite Hex. eapply run_branch; [done| |done].
  by rewrite (ext_current _ _ X13).
Qed.

(** ** Tests that follow straight-line code *)
Lemma sealed_ext b b1 b' c : sealed b b' c → ext b b1 → sealed b1 b' c.
Proof.
  intros [] Hx. split; [done..|]. intros k Hk. apply sealed_code0.
  destruct (cgrows_sizes _ _ (ext_grows _ _ Hx)) as [Hle _].
  destruct Hk as [->|Hk]; [left; apply Hx|right]. unfold fresh, bsizes in *. lia.
Qed.
Lemma on_path_inv b b' c : sealed b b' c → ready b → inv b b' → on_path c b.
Proof.
  intros Hs Hr Hinv. pose proof (ready_current _ Hr) as [Hc1 Hc2].
  split; [eapply cgrows_later; [apply Hinv|apply Hs]|].
  pose proof (inv_frame _ _ Hinv (Z.to_nat (b_current_block b))) as Hf. unfold block_framed in Hf.
  rewrite Z2Nat.id, decide_True in Hf by done. destruct (Hf Hc2) as (blk & blk' & H1 & H2 & _ & _ & Hp).
  exists (bb_insts blk'), (bb_terminator blk'). split.
  - rewrite (sealed_code _ _ _ Hs); [|by left|eapply blk_ok_grows; [apply Hinv|done]].
    unfold code. by rewrite H2.
  - unfold cur_insts. by rewrite H1.
Qed.
Lemma reach_after b b1 c st st1 k :
  ext b b1 → moves c b st b1 st1 →
  (∃ st', reaches c (b_current_block b1) (pos b1) st1 k st' ∧ agrees b1 st1 st') →
  ∃ st', reaches c (b_current_block b) (pos b) st k st' ∧ agrees b st st'.
Proof.
  intros Hx [Ha He] (st' & Hr & Ha'). exists st'. split; [by eapply reaches_exec|].
  eapply agrees_trans; [apply Hx|done..].
Qed.

(** The value of an instruction is known. *)
Definition bound (x : CfgValue) (v : value) b (st : store) : Prop :=
  val_ok (bsizes b) x ∧ st_env st !! x = Some v.
Lemma bound_stable x v : stable (bound x v).
Proof.
  intros b b1 st st1 [Hx Hv] Hg%cgrows_sizes [Ha _]. split; [by eapply val_ok_mono|].
  rewrite Ha; [done|apply Hx].
Qed.

(** ** Enum variants *)
Lemma disc_type_same ty b t b1 : enum_discriminant_type pool ty b = Done (t, b1) → b1 = b.
Proof.
  unfold enum_discriminant_type. destruct (as_enum ty).
  - intros ([d b2] & Hd & Hr)%bind_Done. apply bind_Done in Hd as (d' & _ & Hd).
    injection Hd as _ <-. by injection Hr.
  - intros Hr. by injection Hr.
Qed.
Lemma disc_cond_ext scr i sp b cond b' : discriminant_cond pool scr i sp b = Done (cond, b') → ext b b'.
Proof.
  intros ([t b1] & ->%disc_type_same & Hrun)%bind_Done.
  apply bind_Done in Hrun as ([val b1] & H1%read_projected_ext & Hrun).
  apply bind_Done in Hrun as ([disc b2] & H2%emit_ext & Hrun).
  apply bind_Done in Hrun as ([l b3] & H3%emit_ext & H4%emit_ext).
  do 3 (eapply ext_trans; [done|]). done.
Qed.
Lemma run_disc_cond scr i sp b cond b' c st j vs :
  discriminant_cond pool scr i sp b = Done (cond, b') → on_path c b' →
  read_slot st (scr_slot scr) (scr_projection scr) = Some (VEnum j vs) →
  in_u 32 i → in_u 32 j →
  ∃ st', moves c b st b' st' ∧ st_env st' !! cond = Some (VBool (i =? j)) ∧
    st_locals st' = st_locals st.
Proof.
  intros ([t b0] & ->%disc_type_same & Hrun)%bind_Done Hon Hread Hi Hj.
  apply bind_Done in Hrun as ([val b1] & H1 & Hrun). apply bind_Done in Hrun as ([disc b2] & H2 & Hrun).
  apply bind_Done in Hrun as ([l b3] & H3 & H4).
  pose proof (read_projected_ext _ _ _ _ _ _ _ H1) as X1. pose proof (emit_ext _ _ _ _ _ _ H2) as X2.
  pose proof (emit_ext _ _ _ _ _ _ H3) as X3. pose proof (emit_ext _ _ _ _ _ _ H4) as X4.
  apply (ext_on_path _ _ _ X4) in Hon as Hon3. apply (ext_on_path _ _ _ X3) in Hon3 as Hon2.
  apply (ext_on_path _ _ _ X2) in Hon2 as Hon1.
  destruct (run_read_projected _ _ _ _ _ _ _ _ _ _ H1 Hon1 Hread) as (st1 & M1 & E1 & L1 & V1).
  destruct (run_emit' _ _ _ _ _ _ _ st1 (VScalar j) (st_locals st1) H2 Hon2)
    as (st2 & M2 & E2 & L2 & V2 & V2'); [simpl; by rewrite E1|done|].
  destruct (run_emit' _ _ _ _ _ _ _ st2 (VScalar i) (st_locals st2) H3 Hon3)
    as (st3 & M3 & E3 & L3 & V3 & V3'); [done..|].
  destruct (run_emit' _ _ _ _ _ _ _ st3 (VBool (i =? j)) (st_locals st3) H4 Hon)
    as (st4 & M4 & E4 & L4 & _); [|done|].
  { simpl. rewrite (proj1 (proj1 M3) disc V2'), E2, E3. simpl.
    unfold in_u in *. rewrite !wrap_small by (unfold in_u; lia). by rewrite Z.eqb_sym. }
  exists st4. split_and!; [|done|congruence].
  eapply moves_trans; [apply X1|done|]. eapply moves_trans; [apply X2|done|].
  eapply moves_trans; [apply X3|done..].
Qed.
Lemma disc_dispatches scr i j vs sp u :
  in_u 32 i → in_u 32 j →
  dispatches (holds scr (VEnum j vs)) u (i =? j) (λ m,
    cond ← discriminant_cond pool scr i sp; branch_to cond m u).
Proof.
  intros Hi Hj b b' c st m Hr Hm Hu ([cond b1] & H1 & H2)%bind_Done Hs [_ Hread].
  pose proof (disc_cond_ext _ _ _ _ _ _ H1) as X1. pose proof (branch_to_ext _ _ _ _ _ H2) as X2.
  pose proof (ext_trans _ _ _ X1 X2) as X.
  destruct (sealed_current _ _ _ Hs Hr (ext_grows _ _ X) X) as [Hc Hon].
  apply (ext_on_path _ _ _ X2) in Hon as Hon1.
  destruct (run_disc_cond _ _ _ _ _ _ _ _ _ _ H1 Hon1 Hread Hi Hj) as (st1 & M1 & E1 & _).
  exists st1. split; [|apply M1]. apply reaches_one. rewrite (proj2 M1).
  eapply run_branch; [done| |done]. by rewrite (ext_current _ _ X1).
Qed.

Lemma emit_inv b0 d ty sp b v b' :
  ready b0 → inv b0 b → emit d ty sp b = Done (v, b') → small (b_cfg b') → inst_ok (bsizes b) d →
  inv b0 b' ∧ val_ok (bsizes b') v.
Proof.
  intros Hr Hinv He Hsm Hd.
  edestruct (keeps_emit b0 (ready_current _ Hr) (bsizes b) d ty sp Hd b v b') as (? & _ & ?); done.
Qed.

(** A value spilled to a fresh slot. *)
Record spilled (v : CfgValue) (sp : Span) b (slot : Z) b' : Prop := MkSpilled {
  spill_b1 : Builder; spill_b2 : Builder;
  spill_alloc : cfg_do alloc_temp_local b = Done (slot, spill_b1);
  spill_live : emit_unit (GStorageLive slot) sp spill_b1 = Done ((), spill_b2);
  spill_store : emit_unit (GAlloc slot v) sp spill_b2 = Done ((), b');
}.
Lemma emit_unit_emit d sp b b' :
  emit_unit d sp b = Done ((), b') → ∃ v, emit d Ty.UNIT sp b = Done (v, b').
Proof. intros ([v bx] & He & Hr)%bind_Done. injection Hr as ->. eauto. Qed.
Lemma spilled_ext v sp b slot b' : spilled v sp b slot b' → ext b b'.
Proof.
  intros [b1 b2 H1 (u2 & H2)%emit_unit_emit (u3 & H3)%emit_unit_emit].
  apply alloc_temp_ext in H1 as [X1 _]. apply emit_ext in H2, H3. do 2 (eapply ext_trans; [done|]). done.
Qed.
Lemma spilled_inv b0 v sp b slot b' :
  spilled v sp b slot b' → ready b0 → inv b0 b → val_ok (bsizes b) v → small (b_cfg b') → inv b0 b'.
Proof.
  intros [b1 b2 H1 (u2 & H2)%emit_unit_emit (u3 & H3)%emit_unit_emit] Hr Hinv Hv Hsm.
  pose proof (emit_ext _ _ _ _ _ _ H2) as X2. pose proof (emit_ext _ _ _ _ _ _ H3) as X3.
  assert (Hsm2 : small (b_cfg b2)) by (eapply small_mono; [apply X3|done]).
  assert (Hsm1 : small (b_cfg b1)) by (eapply small_mono; [apply X2|done]).
  destruct (keeps_alloc_temp b0 (bsizes b) b slot b1 H1 Hsm1 Hinv) as (Hinv1 & Hle1 & _); [done|].
  destruct (emit_inv b0 _ _ _ _ _ _ Hr Hinv1 H2 Hsm2) as [Hinv2 _]; [done|].
  apply (emit_inv b0 _ _ _ _ _ _ Hr Hinv2 H3 Hsm). simpl.
  eapply val_ok_mono; [exact (cgrows_sizes _ _ (ext_grows _ _ X2))|by eapply val_ok_mono].
Qed.
Lemma spilled_slot v sp b slot b' :
  spilled v sp b slot b' → slot = c_num_locals (b_cfg b) ∧ c_num_locals (b_cfg b') = slot + 1.
Proof.
  intros [b1 b2 H1 (u2 & H2)%emit_unit_emit (u3 & H3)%emit_unit_emit].
  apply bind_Done in H1 as ([sl cx] & H1 & Hr1). apply bind_Done in H1 as (n & Hn & H1).
  unfold checked_add in Hn. case_decide; [|done]. simplify_eq.
  rewrite (em_locals _ _ _ _ _ _ (emit_emitted _ _ _ _ _ _ H3)).
  by rewrite (em_locals _ _ _ _ _ _ (emit_emitted _ _ _ _ _ _ H2)).
Qed.
(** The slot then holds the value; the slot is fresh, so nothing known changes. *)
Lemma run_spill v sp b slot b' c st w :
  spilled v sp b slot b' → on_path c b' → bound v w b st →
  ∃ st', moves c b st b' st' ∧ ∀ ty, holds (MkScrutinee slot ty []) w b' st'.
Proof.
  intros Hsp Hon [Hv Hw]. destruct (spilled_slot _ _ _ _ _ Hsp) as [Hslot Hn].
  destruct Hsp as [b1 b2 H1 (u2 & H2)%emit_unit_emit (u3 & H3)%emit_unit_emit].
  destruct (alloc_temp_ext _ _ _ H1) as (X1 & I1 & C1). pose proof (emit_ext _ _ _ _ _ _ H2) as X2.
  apply (ext_on_path _ _ _ (emit_ext _ _ _ _ _ _ H3)) in Hon as Hon2.
  destruct (run_emit' _ _ _ _ _ _ _ st unit_value (st_locals st) H2 Hon2) as (st2 & M2 & E2 & L2 & _); [done..|].
  pose proof (moves_trans _ _ _ _ _ _ _ (ext_grows _ _ X1) (moves_same c b st b1 C1 I1) M2) as [Ha Hex].
  destruct (run_emit _ _ _ _ _ _ c st2 unit_value (<[slot := w]> (st_locals st2))
    (emit_emitted _ _ _ _ _ _ H3) Hon) as [V3 Hex3].
  { simpl. rewrite (proj1 Ha) by apply Hv. by rewrite Hw. }
  eexists. split; [split; [|by rewrite Hex]|].
  - destruct (ext_grows _ _ (ext_trans _ _ _ X1 X2)) as (_ & ?%prefix_zlen & _). destruct Ha as [Ha1 Ha2].
    split; simpl; intros y Hy; rewrite lookup_insert_ne by lia; auto.
  - intros ty. split; [simpl; lia|]. unfold read_slot; simpl. by rewrite lookup_insert_eq.
Qed.

(** A test for every start and every target. *)
Definition sound_pattern_test (test : Scrutinee → BranchTargets → BuildM ()) : Prop :=
  (∀ s t, mono (test s t)) ∧
  ∀ b0, blk_ok (bsizes b0) (b_current_block b0) → test_ok b0 test.

(** The test of a payload field, given the test of its sub-pattern. *)
Lemma payload_dispatches vd x i vs f w t sp u r :
  vs !! Z.to_nat f.1.1 = Some w → ev_fields vd !! Z.to_nat f.1.1 = Some t →
  sound_pattern_test f.2 →
  (∀ slot, dispatches (holds (MkScrutinee slot t []) w) u r
             (λ m, f.2 (MkScrutinee slot t []) (MkTargets m u))) →
  dispatches (bound x (VEnum i vs)) u r (emit_payload_test vd x i u sp f).
Proof.
  intros Hw Ht Hsound Hsub b b' c st m Hr Hm Hu Hrun Hs [Hx Hv].
  unfold emit_payload_test in Hrun. rewrite Ht in Hrun.
  apply bind_Done in Hrun as ([t' bx] & Hl & Hrun). injection Hl as <- <-.
  apply bind_Done in Hrun as ([fv b1] & H1 & Hrun). apply bind_Done in Hrun as ([slot b2] & H2 & Hrun).
  apply bind_Done in Hrun as ([[] b3] & H3 & Hrun). apply bind_Done in Hrun as ([[] b4] & H4 & Hrun).
  pose proof (MkSpilled fv sp b1 slot b4 b2 b3 H2 H3 H4) as Hsp. clear H2 H3 H4 b2 b3.
  pose proof (emit_ext _ _ _ _ _ _ H1) as X1. pose proof (spilled_ext _ _ _ _ _ Hsp) as X2.
  pose proof (ext_trans _ _ _ X1 X2) as X.
  (* the builder is ready for the sub-test *)
  destruct Hsound as [Hmono Hsound]. pose proof (Hmono _ _ _ _ _ Hrun) as Hg4.
  assert (Hsm4 : small (b_cfg b4)) by (eapply small_mono; [exact Hg4|apply Hs]).
  assert (Hsm1 : small (b_cfg b1)) by (eapply small_mono; [apply X2|done]).
  destruct (emit_inv b _ _ _ _ _ _ Hr (ready_inv _ Hr) H1 Hsm1) as [Hinv1 Hfv]; [done|].
  pose proof (inv_ready _ _ (spilled_inv b _ _ _ _ _ Hsp Hr Hinv1 Hfv Hsm4)) as Hr4.
  pose proof (sealed_ext _ _ _ _ Hs X) as Hs4.
  pose proof (blk_ok_grows _ _ _ (ext_grows _ _ X) Hm) as Hm4.
  pose proof (blk_ok_grows _ _ _ (ext_grows _ _ X) Hu) as Hu4.
  assert (Hinv : inv b4 b').
  { destruct (Hsound b4 (ready_current _ Hr4)) as [_ Hk].
    edestruct (Hk (bsizes b4) (MkScrutinee slot t []) (MkTargets m u)) as (? & _);
      [constructor|by split|done|apply Hs|by apply ready_inv|done|done]. }
  (* the run up to the sub-test *)
  pose proof (on_path_inv _ _ _ Hs4 Hr4 Hinv) as Hon4. apply (ext_on_path _ _ _ X2) in Hon4 as Hon1.
  destruct (run_emit' _ _ _ _ _ _ _ st w (st_locals st) H1 Hon1) as (st1 & M1 & E1 & L1 & _ & V1);
    [simpl; rewrite Hv; simpl; by rewrite Z.eqb_refl, Hw|done|].
  destruct (run_spill _ _ _ _ _ _ _ w Hsp Hon4 (conj Hfv E1)) as (st4 & M4 & Hholds).
  eapply reach_after; [exact X|by eapply moves_trans; [apply X1|..]|].
  apply (Hsub slot b4 b' c st4 m); done.
Qed.

(** A payload field whose test answers [r] for the value in the payload [vs]. *)
Definition field_answers (vs : list value) (vd : EnumVariantDef) u (f : EnumField (Spur := Spur)) (r : bool)
    : Prop :=
  ∃ w t, vs !! Z.to_nat f.1.1 = Some w ∧ ev_fields vd !! Z.to_nat f.1.1 = Some t ∧
    (∀ slot, dispatches (holds (MkScrutinee slot t []) w) u r
               (λ m, f.2 (MkScrutinee slot t []) (MkTargets m u))) ∧
    (is_trivial_pattern f.1.2 = true → r = true) ∧ sound_pattern_test f.2.
Lemma non_trivial_answers vs vd u fields rs :
  Forall2 (field_answers vs vd u) fields rs →
  ∃ rs', Forall2 (field_answers vs vd u) (non_trivial fields) rs' ∧ forallb id rs' = forallb id rs.
Proof.
  induction 1 as [|f r fields rs Hf _ (rs' & Hrs' & Heq)]; [by exists []|]. unfold non_trivial.
  destruct (is_trivial_pattern f.1.2) eqn:Ht.
  - rewrite filter_cons_False by congruence. exists rs'. split; [done|].
    destruct Hf as (w & t & _ & _ & _ & Hr & _). by rewrite Hr.
  - rewrite filter_cons_True by done. exists (r :: rs'). simpl. rewrite Heq. split; [by constructor|done].
Qed.
Lemma sound_payload vd x i u sp f :
  sound_pattern_test f.2 → sound_test (λ z, val_ok z x) u (emit_payload_test vd x i u sp f).
Proof.
  intros [Hmono Hf]. split; [intros; by apply mono_payload_test|].
  intros b0 z next Hb0 Hx Hn Hu. apply keeps_payload_test; [done..|]. by apply Hf.
Qed.
Lemma fields_dispatch scr i vs fields rs sp u e d vd :
  as_enum (scr_ty scr) = Some e → enum_def pool e = Done d → ed_variants d !! Z.to_nat i = Some vd →
  (∀ z, scr_ok z scr) → Forall2 (field_answers vs vd u) fields rs →
  dispatches (holds scr (VEnum i vs)) u (forallb id rs)
    (λ m, emit_enum_field_tests pool scr i fields (MkTargets m u) sp).
Proof.
  intros He Hd Hvd Hscr Hf b b' c st m Hr Hm Hu Hrun Hs [_ Hread].
  destruct (non_trivial_answers _ _ _ _ _ Hf) as (rs' & Hrs' & <-).
  unfold emit_enum_field_tests in Hrun. rewrite He in Hrun.
  apply bind_Done in Hrun as ([e' bx] & Hl & Hrun). injection Hl as <- <-.
  apply bind_Done in Hrun as ([d' bx] & Hl & Hrun).
  unfold lift_b, lift_st in Hl. rewrite Hd in Hl. injection Hl as <- <-.
  rewrite Hvd in Hrun. apply bind_Done in Hrun as ([vd' bx] & Hl & Hrun). injection Hl as <- <-.
  destruct (non_trivial fields) as [|f0 nt].
  { inversion Hrs'; subst. by apply (goto_dispatches (λ _ _, True) u b b' c st m). }
  apply bind_Done in Hrun as ([x b1] & H1 & Hrun).
  pose proof (read_projected_ext _ _ _ _ _ _ _ H1) as X1.
  assert (Hdisp : dispatches (bound x (VEnum i vs)) u (forallb id rs') (λ m,
    test_chain m (map (emit_payload_test vd x i u sp) (f0 :: nt)))).
  { apply (chain_dispatches _ (λ z, val_ok z x)); [apply bound_stable|by intros ? ? []|..].
    - apply Forall2_fmap_r, Forall2_flip. eapply Forall2_impl; [|exact Hrs'].
      intros f r (w & t & Hw & Ht & Hsub & _ & Hsf). by eapply payload_dispatches.
    - apply Forall_fmap. eapply Forall2_Forall_l; [exact Hrs'|]. apply Forall_true.
      intros r f (w & t & _ & _ & _ & _ & Hsf). by apply sound_payload.
    - done. }
  change (test_chain m (map (emit_payload_test vd x i u sp) (f0 :: nt)) b1 = Done ((), b')) in Hrun.
  assert (Hsm1 : small (b_cfg b1)).
  { eapply small_mono; [|apply Hs]. eapply (mono_test_chain m); [|exact Hrun].
    intros T (f & -> & Hin)%list_elem_of_fmap next. apply mono_payload_test.
    apply list_elem_of_lookup in Hin as [n Hn].
    by destruct (Forall2_lookup_l _ _ _ _ _ Hrs' Hn) as (r & _ & (w & t & _ & _ & _ & _ & [Hmf _])). }
  destruct (keeps_read_projected b (ready_current _ Hr) (bsizes b) (scr_slot scr) (scr_ty scr)
    (scr_projection scr) sp (Hscr _) b x b1 H1 Hsm1 (ready_inv _ Hr)) as (Hinv1 & _ & Hx); [done|].
  pose proof (inv_ready _ _ Hinv1) as Hr1. pose proof (sealed_ext _ _ _ _ Hs X1) as Hs1.
  assert (Hsound : sound_test (λ z, val_ok z x) u (λ m, test_chain m (map (emit_payload_test vd x i u sp) (f0 :: nt)))).
  { apply sound_chain; [apply _|]. apply Forall_fmap. eapply Forall2_Forall_l; [exact Hrs'|].
    apply Forall_true. intros r f (w & t & _ & _ & _ & _ & Hsf). by apply sound_payload. }
  pose proof (blk_ok_grows _ _ _ (ext_grows _ _ X1) Hm) as Hm1.
  pose proof (blk_ok_grows _ _ _ (ext_grows _ _ X1) Hu) as Hu1.
  pose proof (test_inv _ u _ b1 m b' Hsound Hr1 Hx Hm1 Hu1 Hrun (sealed_small _ _ _ Hs)) as Hinv1'.
  pose proof (on_path_inv _ _ _ Hs1 Hr1 Hinv1') as Hon1.
  destruct (run_read_projected _ _ _ _ _ _ _ _ _ _ H1 Hon1 Hread) as (st1 & M1 & E1 & _ & _).
  eapply reach_after; [exact X1|exact M1|]. by apply (Hdisp b1 b' c st1 m).
Qed.

Lemma branch_to_inv b0 v k k' b b' :
  ready b0 → inv b0 b → branch_to v k k' b = Done ((), b') → small (b_cfg b') →
  val_ok (bsizes b) v → blk_ok (bsizes b) k → blk_ok (bsizes b) k' → inv b0 b'.
Proof.
  intros Hr Hinv Hb Hsm Hv Hk Hk'.
  edestruct (keeps_branch_to b0 (ready_current _ Hr) (bsizes b) v k k' Hv Hk Hk' b () b') as (? & _); done.
Qed.
Lemma sound_fields scr i u fields sp :
  (∀ z, scr_ok z scr) → Forall (λ f, sound_pattern_test f.2) fields →
  sound_test (λ _, True) u (λ m, emit_enum_field_tests pool scr i fields (MkTargets m u) sp).
Proof.
  intros Hscr Hf. rewrite list.Forall_forall in Hf. split.
  - intros m. apply mono_enum_fields. intros f Hin. by apply Hf.
  - intros b0 z m Hb0 _ Hm Hu. apply keeps_enum_fields; [done|done|by split|].
    intros f Hin. by apply (Hf f Hin).
Qed.

(** A branch into a new block, where the test continues. *)
Definition branch_and (v : CfgValue) (u : BlockId) (T : BlockId → BuildM ()) (m : BlockId) : BuildM () :=
  checked ← cfg_do new_block; branch_to v checked u;; set_current checked;; T m.
Lemma sound_branch_and v u T :
  sound_test (λ _, True) u T → sound_test (λ z, val_ok z v) u (branch_and v u T).
Proof.
  intros [Hm Hk]. split; [intros; unfold branch_and; solve_mono|].
  intros b0 z m Hb0 Hv Hm0 Hu. unfold branch_and. do 3 keeps_step. by apply Hk.
Qed.
Lemma branch_and_dispatches P v u r r' T :
  sound_test (λ _, True) u T → stable P → (r = true → dispatches P u r' T) →
  dispatches (λ b st, P b st ∧ bound v (VBool r) b st) u (r && r') (branch_and v u T).
Proof.
  intros Hst HP HT b b' c st m Hr Hm Hu Hrun Hs [HPst [Hv Hval]].
  apply bind_Done in Hrun as ([checked b2] & H2 & Hrun).
  apply bind_Done in Hrun as ([[] b3] & H3 & Hrun). apply bind_Done in Hrun as ([[] bx] & H4 & Hrun).
  injection H4 as <-. set (b4 := set_b_current checked b3) in *.
  pose proof (branch_to_ext _ _ _ _ _ H3) as X3. pose proof (proj1 Hst m _ _ _ Hrun : grows b3 b') as Hg3.
  assert (Hsm3 : small (b_cfg b3)) by (eapply small_mono; [exact Hg3|apply Hs]).
  assert (Hsm2 : small (b_cfg b2)) by (eapply small_mono; [apply X3|done]).
  destruct (new_block_facts _ _ _ H2 Hr Hsm2) as (Hr2 & Hck & Hg2 & X2 & I2 & C2 & Hok2 & Hcode2 & _).
  pose proof (ext_trans _ _ _ X2 X3) as X. pose proof (ready_current _ Hr) as Hcur.
  assert (Hinv3 : inv b2 b3).
  { eapply branch_to_inv; [exact Hr2|by apply ready_inv|exact H3|done| |done|].
    - by eapply val_ok_mono; [exact (cgrows_sizes _ _ Hg2)|].
    - exact (blk_ok_grows _ _ _ Hg2 Hu). }
  assert (Hr4 : ready b4).
  { destruct (inv_ready _ _ Hinv3) as [? []]. split; [done|]. split; [|done..].
    exact (blk_ok_grows _ _ _ (ext_grows _ _ X3) Hok2). }
  pose proof (blk_ok_grows _ _ _ (ext_grows _ _ X) Hm) as Hm4.
  pose proof (blk_ok_grows _ _ _ (ext_grows _ _ X) Hu) as Hu4.
  pose proof (blk_ok_grows _ _ _ (ext_grows _ _ X) Hcur) as Hcur4.
  pose proof (test_inv _ u _ b4 m b' Hst Hr4 I Hm4 Hu4 Hrun (sealed_small _ _ _ Hs)) as Hinv4.
  (* the branch *)
  assert (Hne : b_current_block b ≠ checked) by (destruct Hcur; unfold bsizes in *; lia).
  assert (Hbr : exec_block c (b_current_block b) (pos b) st = Some (if r then checked else u, st)).
  { assert (Hpos : pos b2 = pos b) by (unfold pos; by rewrite I2). rewrite <-C2, <-Hpos.
    eapply run_branch; [exact H3| |exact Hval]. rewrite C2.
    rewrite (sealed_code _ _ _ Hs); [|by left|by eapply blk_ok_grows].
    by apply (framed_code b4 b' (b_current_block b) Hinv4). }
  destruct r; simpl; [|exists st; split; [by apply reaches_one|apply agrees_refl]].
  (* the rest *)
  destruct (HT eq_refl b4 b' c st m) as (st' & Hreach & Hag); try done.
  { split; [apply Hs..|]. intros k Hk. apply (sealed_code _ _ _ Hs). right.
    destruct (cgrows_sizes _ _ (ext_grows _ _ X)) as [Hle _].
    destruct Hk as [->|Hk]; unfold fresh, bsizes in *; simpl in *; lia. }
  { eapply HP; [done|exact (ext_grows _ _ X)|apply agrees_refl]. }
  exists st'. split; [eapply reaches_more; [exact Hbr|]|].
  - assert (Hcode : code (b_cfg b4) (b_current_block b4) = code (b_cfg b2) checked).
    { simpl. apply (framed_code b2 b3 checked Hinv3 Hok2). rewrite C2. done. }
    rewrite code_empty_pos in Hreach; [exact Hreach|]. by rewrite Hcode.
  - eapply agrees_trans; [exact (ext_grows _ _ X)|apply agrees_refl|exact Hag].
Qed.

Lemma variant_dispatches scr i j vs fields rs sp u e d vd :
  as_enum (scr_ty scr) = Some e → enum_def pool e = Done d → ed_variants d !! Z.to_nat i = Some vd →
  in_u 32 i → in_u 32 j → (∀ z, scr_ok z scr) → Forall (λ f, sound_pattern_test f.2) fields →
  (i = j → Forall2 (field_answers vs vd u) fields rs) →
  dispatches (holds scr (VEnum j vs)) u ((i =? j) && forallb id rs)
    (λ m, emit_variant_test pool scr i fields (MkTargets m u) sp).
Proof.
  intros He Hd Hvd Hi Hj Hscr Hsound Hf b b' c st m Hr Hm Hu Hrun Hs Hholds.
  unfold emit_variant_test in Hrun. simpl in Hrun.
  destruct (forallb (λ f, is_trivial_pattern f.1.2) fields) eqn:Htriv.
  { replace ((i =? j) && forallb id rs) with (i =? j).
    { by apply (disc_dispatches scr i j vs sp u Hi Hj b b' c st m). }
    destruct (Z.eqb_spec i j) as [Hij|]; [simpl|done]. symmetry. apply forallb_forall.
    intros r (n & Hn)%list_elem_of_In%list_elem_of_lookup.
    destruct (Forall2_lookup_r _ _ _ _ _ (Hf Hij) Hn) as (f & Hfn & (w & t & _ & _ & _ & Hr' & _)).
    apply Hr'. rewrite forallb_forall in Htriv. apply Htriv, list_elem_of_In. by eapply list_elem_of_lookup_2. }
  pose (T := λ m, emit_enum_field_tests pool scr i fields (MkTargets m u) sp).
  pose proof (sound_fields scr i u fields sp Hscr Hsound : sound_test (λ _, True) u T) as Hst.
  apply bind_Done in Hrun as ([cond b1] & H1 & Hrun).
  change (branch_and cond u T m b1 = Done ((), b')) in Hrun.
  pose proof (sound_branch_and cond u T Hst) as Hsb. pose proof (disc_cond_ext _ _ _ _ _ _ H1) as X1.
  assert (Hsm1 : small (b_cfg b1)) by (eapply small_mono; [exact (proj1 Hsb m _ _ _ Hrun)|apply Hs]).
  destruct (keeps_disc_cond pool b (ready_current _ Hr) (bsizes b) scr i sp (Hscr _) b cond b1 H1 Hsm1
    (ready_inv _ Hr)) as (Hinv1 & _ & Hcond); [done|].
  pose proof (inv_ready _ _ Hinv1) as Hr1. pose proof (sealed_ext _ _ _ _ Hs X1) as Hs1.
  pose proof (blk_ok_grows _ _ _ (ext_grows _ _ X1) Hm) as Hm1.
  pose proof (blk_ok_grows _ _ _ (ext_grows _ _ X1) Hu) as Hu1.
  pose proof (test_inv _ u _ b1 m b' Hsb Hr1 Hcond Hm1 Hu1 Hrun (sealed_small _ _ _ Hs)) as Hinv.
  pose proof (on_path_inv _ _ _ Hs1 Hr1 Hinv) as Hon1.
  destruct (run_disc_cond _ _ _ _ _ _ _ _ _ _ H1 Hon1 (proj2 Hholds) Hi Hj) as (st1 & M1 & E1 & _).
  eapply reach_after; [exact X1|exact M1|].
  apply (branch_and_dispatches (holds scr (VEnum j vs)) cond u (i =? j) (forallb id rs) T Hst
    (holds_stable _ _)) with (b' := b'); try done.
  - intros Hij%Z.eqb_eq. rewrite <-Hij. by eapply fields_dispatch; eauto.
  - split; [|done]. eapply holds_stable; [done|apply X1|apply M1].
Qed.

(** ** Fields of structs and tuples *)
Lemma field_dispatches sid d fld k scr vs w n test u r :
  struct_def pool sid = Done d → sd_fields d !! n = Some fld → vs !! Z.to_nat k = Some w →
  (∀ scr', scr_ty scr' = sf_ty fld → (∀ z, scr_ok z scr') →
     dispatches (holds scr' w) u r (λ m, test scr' (MkTargets m u))) →
  (∀ z, scr_ok z scr) →
  dispatches (holds scr (VStruct vs)) u r (emit_field_test pool sid scr n k test u).
Proof.
  intros Hd Hfld Hw Htest Hscr b b' c st m Hr Hm Hu Hrun Hs [Hslot Hread].
  unfold emit_field_test in Hrun. apply bind_Done in Hrun as ([d' bx] & Hl & Hrun).
  unfold lift_b, lift_st in Hl. rewrite Hd in Hl. injection Hl as <- <-.
  rewrite Hfld in Hrun. apply bind_Done in Hrun as ([f' bx] & Hl & Hrun). injection Hl as <- <-.
  eapply (Htest (MkScrutinee (scr_slot scr) (sf_ty fld) (scr_projection scr ++ [ProjField sid k])));
    try done; simpl.
  - intros z. apply Forall_app. split; [apply Hscr|by repeat constructor].
  - split; [done|]. simpl. unfold read_slot in *. destruct (st_locals st !! scr_slot scr) as [v|]; [|done].
    simpl in *. rewrite project_all_app, Hread. simpl. by rewrite Hw.
Qed.
End Dispatch.
