(* ===== verification/CfgDispatch.v ===== *)
(** * Match dispatch, end to end

    The emitted tests decide [pmatch] (the meaning of patterns of [Usefulness]); the
    cascade and the switch of [lower_match] enter the first arm that matches; and with the
    exhaustiveness check of sema, control never falls through. *)

From S2P Require Import Prelude Types LayoutTypes InternPool Layout AirPattern Air ParamArena.
From S2P Require Import DropNames Usefulness Cfg CfgBuild CfgTheory CfgMono CfgLower CfgSample.
From S2P Require Import CfgWf CfgRun CfgMatch.

#[local] Open Scope Z_scope.

(** The scalars of a value fit the 64-bit literals of patterns. *)
Definition fits_i64 (n : Z) : Prop := - 2 ^ 63 ≤ n < 2 ^ 63.
Inductive fits : value → Prop :=
  | fits_scalar n : fits_i64 n → fits (VScalar n)
  | fits_bool b : fits (VBool b)
  | fits_enum i vs : Forall fits vs → fits (VEnum i vs)
  | fits_struct vs : Forall fits vs → fits (VStruct vs).

Section Patterns.
Context {Spur : Type} `{Countable Spur} `{!SpurKey Spur}.
Context (pool : TypeInternPool (Spur := Spur)) (Hpool : pool_small pool).
Notation BuildM := (BuildM (Spur := Spur)).

(** The patterns whose tests are complete: they fit the type of the scrutinee, and a
    struct or tuple pattern tests at least one field. Fields may be listed in any order. *)
Inductive dispatchable : AirPattern Spur → Ty → Prop :=
  | dp_wild ty : dispatchable Wildcard ty
  | dp_bind n m ty : dispatchable (PBind n m None) ty
  | dp_bind_at n m q ty : dispatchable q ty → dispatchable (PBind n m (Some q)) ty
  | dp_int n ty : type_signature pool ty = Done None → fits_i64 n → dispatchable (PInt n) ty
  | dp_bool b : dispatchable (PBool b) Ty.BOOL
  | dp_variant ty e i tys :
      is_ctor pool ty (CtorEnumVariant e i) tys → dispatchable (PEnumVariant e i) ty
  | dp_unit ty e i tys :
      is_ctor pool ty (CtorEnumVariant e i) tys → dispatchable (PEnumUnitVariant e i) ty
  | dp_data ty e i fs tys :
      is_ctor pool ty (CtorEnumVariant e i) tys → Forall2 dispatchable fs tys →
      dispatchable (PEnumDataVariant e i fs) ty
  | dp_estruct ty e i fs tys :
      is_ctor pool ty (CtorEnumVariant e i) tys →
      Forall (λ f, ∃ t, tys !! Z.to_nat f.1 = Some t ∧ dispatchable f.2 t) fs →
      dispatchable (PEnumStructVariant e i fs) ty
  | dp_tuple ty s d es :
      as_struct ty = Some s → struct_def pool s = Done d → es ≠ [] →
      Forall2 dispatchable es (map sf_ty (sd_fields d)) → dispatchable (PTuple es) ty
  | dp_struct ty s d fs :
      as_struct ty = Some s → struct_def pool s = Done d → fs ≠ [] →
      Forall (λ f, ∃ t, sf_ty <$> sd_fields d !! Z.to_nat f.1 = Some t ∧ dispatchable f.2 t) fs →
      dispatchable (PStruct s fs) ty.

(** Values by the shape of their type. *)
Lemma scalar_inv v ty : has_type pool v ty → type_signature pool ty = Done None → ∃ n, v = VScalar n.
Proof.
  intros [ty' c tys vs Hc _] Hs. pose proof (is_ctor_family _ _ _ _ _ _ (ctor_scalar _ _ 0 Hs) Hc) as Hf.
  destruct c; try done. by exists n.
Qed.
Lemma bool_inv v : has_type pool v Ty.BOOL → ∃ b, v = VBool b.
Proof.
  intros Hv. inversion Hv as [ty' c tys vs Hc _]; subst.
  pose proof (is_ctor_family _ _ _ _ _ _ (ctor_bool _ true) Hc) as Hf. destruct c; try done. by exists b.
Qed.
Lemma enum_value_inv v ty e i tys :
  has_type pool v ty → is_ctor pool ty (CtorEnumVariant e i) tys →
  ∃ j vs, v = VEnum j vs ∧ in_u 32 i ∧ in_u 32 j ∧ (i = j → Forall2 (has_type pool) vs tys).
Proof.
  intros [ty' c tys' vs Hc' Hvs] Hc. pose proof (is_ctor_family _ _ _ _ _ _ Hc Hc') as Hf.
  destruct c as [| | |e' j| |]; try done. simpl in Hf. subst e'. exists j, vs.
  assert (Hin : ∀ i tys, is_ctor pool ty' (CtorEnumVariant e i) tys → in_u 32 i).
  { intros i0 tys0 Hc0. inversion Hc0 as [| |? ? d k vd Ha Hd Hv| |]; subst.
    apply lookup_lt_Some in Hv. destruct Hpool as [He _]. destruct (He _ _ Hd) as [Hs _].
    unfold in_u, short in *. lia. }
  split_and!; [done|by eapply Hin..|]. intros <-. by rewrite (is_ctor_det _ _ _ _ _ Hpool Hc Hc').
Qed.
Lemma struct_value_inv v ty s d :
  has_type pool v ty → as_struct ty = Some s → struct_def pool s = Done d →
  ∃ vs, v = VStruct vs ∧ Forall2 (has_type pool) vs (map sf_ty (sd_fields d)).
Proof.
  intros [ty' c tys vs Hc Hvs] Hs Hd. destruct (is_tuple_shaped d) eqn:Ht.
  - pose proof (ctor_tuple _ _ _ _ Hs Hd Ht) as Hc'. pose proof (is_ctor_family _ _ _ _ _ _ Hc' Hc) as Hf.
    destruct c; try done. simpl in Hf. subst. rewrite (is_ctor_det _ _ _ _ _ Hpool Hc Hc') in Hvs. by exists vs.
  - pose proof (ctor_struct _ _ _ _ Hs Hd Ht) as Hc'. pose proof (is_ctor_family _ _ _ _ _ _ Hc' Hc) as Hf.
    destruct c; try done. simpl in Hf. subst. rewrite (is_ctor_det _ _ _ _ _ Hpool Hc Hc') in Hvs. by exists vs.
Qed.

Lemma pattern_test_sound q sp : sound_pattern_test (emit_pattern_test pool q sp).
Proof. split; [intros; apply mono_pattern_test|]. intros b0 Hb0. by apply pattern_test_ok. Qed.
Lemma sound_field sid scr n k q sp u :
  (∀ z, scr_ok z scr) → sound_test (λ _, True) u (emit_field_test pool sid scr n k (emit_pattern_test pool q sp) u).
Proof.
  intros Hscr. split; [intros; apply mono_field_test; intros; apply mono_pattern_test|].
  intros b0 z next Hb0 _ Hn Hu. apply keeps_field_test; [done..|]. by apply pattern_test_ok.
Qed.
Lemma trivial_matches (q : AirPattern Spur) v : is_trivial_pattern q = true → pmatch q v = true.
Proof. induction q using AirPattern_tree_ind; simpl; intros Ht; try done. destruct v; eauto. Qed.

Lemma eq_fits m n : fits_i64 m → fits_i64 n → value_eq (VScalar m) (VScalar (wrap 64 n)) = Some (n =? m).
Proof.
  unfold fits_i64, value_eq, wrap. intros Hm Hn. rewrite Zmod_mod. f_equal.
  destruct (Z.eqb_spec n m) as [->|Hne]; [apply Z.eqb_refl|]. apply Z.eqb_neq. intros He.
  apply Hne. pose proof (Z.div_mod m (2 ^ 64) ltac:(lia)). pose proof (Z.div_mod n (2 ^ 64) ltac:(lia)).
  nia.
Qed.

Definition decides_pattern (q : AirPattern Spur) : Prop :=
  ∀ ty v scr sp u, dispatchable q ty → has_type pool v ty → fits v → scr_ty scr = ty →
    (∀ z, scr_ok z scr) →
    dispatches (holds scr v) u (pmatch q v) (λ m, emit_pattern_test pool q sp scr (MkTargets m u)).

Lemma wrap_index (k : nat) {A} (l : list A) : (k < length l)%nat → short l → Z.to_nat (wrap 32 (Z.of_nat k)) = k.
Proof. intros Hk Hs. unfold short in Hs. rewrite wrap_small by (unfold in_u; lia). lia. Qed.
Lemma match_all_zip (qs : list (AirPattern Spur)) vs :
  length qs = length vs → forallb id (zip_with pmatch qs vs) = match_all qs vs.
Proof.
  revert vs; induction qs as [|q qs IH]; intros [|v vs] Hl; simplify_eq/=; [done|]. by rewrite IH.
Qed.
Lemma forallb_id_map {A} (f : A → bool) l : forallb id (map f l) = forallb f l.
Proof. induction l; simpl; congruence. Qed.

(** The test of a sub-pattern on a slot of its own. *)
Lemma sub_answers vs vd u q t w k sp :
  decides_pattern q → vs !! Z.to_nat k = Some w → ev_fields vd !! Z.to_nat k = Some t →
  dispatchable q t → has_type pool w t → fits w →
  field_answers vs vd u (k, q, emit_pattern_test pool q sp) (pmatch q w).
Proof.
  intros Hq Hw Ht Hdq Htw Hfw. exists w, t. split_and!; [done..| | |apply pattern_test_sound].
  - intros slot. apply (Hq t); try done. intros z. constructor.
  - apply trivial_matches.
Qed.

Lemma data_decides e i fs : Forall decides_pattern fs → decides_pattern (PEnumDataVariant e i fs).
Proof.
  intros IH ty v scr sp u Hd Hv Hfit Hty Hscr. inversion Hd as [| | | | | | |? ? ? ? tys Hc Hfs| | |]; subst.
  destruct (enum_value_inv _ _ _ _ _ Hv Hc) as (j & vs & -> & Hi & Hj & Hvs). inversion Hfit as [| |? ? Hfvs|]; subst.
  inversion Hc as [| |? ? d n vd Ha Hdef Hvd| |]; subst.
  assert (Hsh : short (ev_fields vd)).
  { destruct Hpool as [He _]. destruct (He _ _ Hdef) as [_ Hf]. by eapply Forall_lookup_1 in Hf. }
  assert (Heq : pmatch (PEnumDataVariant e (Z.of_nat n) fs) (VEnum j vs) =
    (Z.of_nat n =? j) && forallb id (zip_with pmatch fs vs)).
  { simpl. rewrite by_position_match. destruct (Z.eqb_spec (Z.of_nat n) j) as [Hij|]; [simpl|done].
    symmetry. apply match_all_zip. rewrite (Forall2_length Hfs), (Forall2_length (Hvs Hij)). done. }
  rewrite Heq. eapply variant_dispatches; try done.
  - by rewrite Nat2Z.id.
  - apply list.Forall_forall. intros f (k & [q test] & -> & Hk)%elem_of_lookup_imap.
    rewrite list_lookup_fmap in Hk. apply fmap_Some in Hk as (q' & _ & [= -> ->]). apply pattern_test_sound.
  - intros Hij. specialize (Hvs Hij). pose proof (Forall2_length Hfs). pose proof (Forall2_length Hvs).
    apply Forall2_same_length_lookup_2; [rewrite length_imap, length_map, length_zip_with; lia|].
    intros k f r Hf Hr. rewrite list_lookup_imap, list_lookup_fmap in Hf.
    destruct (fs !! k) as [q|] eqn:Hq; simplify_eq/=. rewrite lookup_zip_with, Hq in Hr. simpl in Hr.
    destruct (vs !! k) as [w|] eqn:Hw; simplify_eq/=.
    destruct (Forall2_lookup_l _ _ _ _ _ Hvs Hw) as (t & Ht & Htw).
    pose proof (Forall2_lookup_lr _ _ _ _ _ _ Hfs Hq Ht) as Hqt.
    assert (Hk : Z.to_nat (wrap 32 (Z.of_nat k)) = k) by (eapply wrap_index; [by eapply lookup_lt_Some|done]).
    apply (sub_answers _ _ _ _ t); [exact (Forall_lookup_1 _ _ _ _ IH Hq)|by rewrite Hk|by rewrite Hk|done..|].
    exact (Forall_lookup_1 _ _ _ _ Hfvs Hw).
Qed.
Lemma estruct_decides e i fs :
  Forall (λ f, decides_pattern f.2) fs → decides_pattern (PEnumStructVariant e i fs).
Proof.
  intros IH ty v scr sp u Hd Hv Hfit Hty Hscr. inversion Hd as [| | | | | | | |? ? ? ? tys Hc Hfs| |]; subst.
  destruct (enum_value_inv _ _ _ _ _ Hv Hc) as (j & vs & -> & Hi & Hj & Hvs). inversion Hfit as [| |? ? Hfvs|]; subst.
  inversion Hc as [| |? ? d n vd Ha Hdef Hvd| |]; subst.
  pose (rs := map (λ f, match vs !! Z.to_nat f.1 with Some w => pmatch f.2 w | None => false end) fs).
  assert (Heq : pmatch (PEnumStructVariant e (Z.of_nat n) fs) (VEnum j vs) =
    (Z.of_nat n =? j) && forallb id rs) by (unfold rs; by rewrite forallb_id_map).
  rewrite Heq. apply (variant_dispatches pool scr (Z.of_nat n) j vs
    (map (λ '(idx, q), (idx, q, emit_pattern_test pool q sp)) fs) rs sp u e d vd); try done.
  - by rewrite Nat2Z.id.
  - apply list.Forall_forall. intros f ([k q] & -> & Hk)%list_elem_of_fmap. apply pattern_test_sound.
  - intros Hij. specialize (Hvs Hij). unfold rs.
    apply Forall2_same_length_lookup_2; [by rewrite !length_map|].
    intros k f r Hf Hr. rewrite list_lookup_fmap in Hf. rewrite (list_lookup_fmap _ fs k) in Hr.
    destruct (fs !! k) as [[m q]|] eqn:Hq; simplify_eq/=.
    destruct (Forall_lookup_1 _ _ _ _ Hfs Hq) as (t & Ht & Hqt). simpl in *.
    destruct (Forall2_lookup_r _ _ _ _ _ Hvs Ht) as (w & Hw & Htw). rewrite Hw.
    apply (sub_answers _ _ _ _ t); [exact (Forall_lookup_1 _ _ _ _ IH Hq)|done..|].
    exact (Forall_lookup_1 _ _ _ _ Hfvs Hw).
Qed.

(** The test of a field of a struct or tuple. *)
Lemma sub_dispatches s d fld scr vs w n k q sp u :
  struct_def pool s = Done d → sd_fields d !! n = Some fld → vs !! Z.to_nat k = Some w →
  decides_pattern q → dispatchable q (sf_ty fld) → has_type pool w (sf_ty fld) → fits w →
  (∀ z, scr_ok z scr) →
  dispatches (holds scr (VStruct vs)) u (pmatch q w)
    (emit_field_test pool s scr n k (emit_pattern_test pool q sp) u).
Proof.
  intros Hd Hfld Hw Hq Hdq Htw Hfw Hscr. eapply field_dispatches; [done..| |done].
  intros scr' Hty Hscr'. by apply (Hq (sf_ty fld)).
Qed.
Lemma tuple_decides es : Forall decides_pattern es → decides_pattern (PTuple es).
Proof.
  intros IH ty v scr sp u Hd Hv Hfit Hty Hscr. inversion Hd as [| | | | | | | | |? s d ? Hs Hdef Hne Hes|]; subst.
  destruct (struct_value_inv _ _ _ _ Hv Hs Hdef) as (vs & -> & Hvs). inversion Hfit as [| | |? Hfvs]; subst.
  pose proof (Forall2_length Hes) as L1. pose proof (Forall2_length Hvs) as L2. rewrite length_map in L1, L2.
  assert (Hsh : short (sd_fields d)) by (destruct Hpool as [_ Hp]; by eapply Hp).
  assert (Heq : pmatch (PTuple es) (VStruct vs) = forallb id (zip_with pmatch es vs)).
  { simpl. rewrite by_position_match. symmetry. apply match_all_zip. congruence. }
  rewrite Heq. intros b b' c st m Hr Hm Hu Hrun Hseal Hh. cbn [emit_pattern_test] in Hrun.
  unfold lift_b, lift_st in Hrun. rewrite Hs in Hrun. apply bind_Done in Hrun as ([s' bx] & Hl & Hrun).
  injection Hl as <- <-. rewrite Hdef in Hrun. apply bind_Done in Hrun as ([d' bx] & Hl & Hrun).
  injection Hl as <- <-. revert Hrun Hseal Hh. 
  apply (chain_dispatches _ (λ _, True) u
    (imap (λ i test, emit_field_test pool s scr i (wrap 32 (Z.of_nat i)) test u)
      (map (λ q, emit_pattern_test pool q sp) es)) (zip_with pmatch es vs)); try done.
  - apply holds_stable.
  - apply Forall2_same_length_lookup_2; [rewrite length_imap, length_map, length_zip_with; lia|].
    intros k r T Hr' HT. rewrite list_lookup_imap, list_lookup_fmap in HT.
    destruct (es !! k) as [q|] eqn:Hq; simplify_eq/=. rewrite lookup_zip_with, Hq in Hr'. simpl in Hr'.
    destruct (vs !! k) as [w|] eqn:Hw; simplify_eq/=.
    destruct (Forall2_lookup_l _ _ _ _ _ Hvs Hw) as (t & Ht & Htw).
    pose proof (Forall2_lookup_lr _ _ _ _ _ _ Hes Hq Ht) as Hqt.
    rewrite list_lookup_fmap in Ht. apply fmap_Some in Ht as (fld & Hfld & ->).
    assert (Hk : Z.to_nat (wrap 32 (Z.of_nat k)) = k) by (eapply wrap_index; [by eapply lookup_lt_Some|done]).
    eapply sub_dispatches; [done..|by rewrite Hk|exact (Forall_lookup_1 _ _ _ _ IH Hq)|done|done| |done].
    exact (Forall_lookup_1 _ _ _ _ Hfvs Hw).
  - apply list.Forall_forall. intros T (k & test & -> & Hk)%elem_of_lookup_imap.
    rewrite list_lookup_fmap in Hk. apply fmap_Some in Hk as (q & _ & ->). by apply sound_field.
  - by destruct es.
Qed.
Lemma struct_decides s fs : Forall (λ f, decides_pattern f.2) fs → decides_pattern (PStruct s fs).
Proof.
  intros IH ty v scr sp u Hd Hv Hfit Hty Hscr. inversion Hd as [| | | | | | | | | |? ? d ? Hs Hdef Hne Hfs]; subst.
  destruct (struct_value_inv _ _ _ _ Hv Hs Hdef) as (vs & -> & Hvs). inversion Hfit as [| | |? Hfvs]; subst.
  pose (rs := map (λ f, match vs !! Z.to_nat f.1 with Some w => pmatch f.2 w | None => false end) fs).
  assert (Heq : pmatch (PStruct s fs) (VStruct vs) = forallb id rs) by (unfold rs; by rewrite forallb_id_map).
  rewrite Heq. apply (chain_dispatches _ (λ _, True) u
    (map (λ '(idx, q), emit_field_test pool s scr (Z.to_nat idx) idx (emit_pattern_test pool q sp) u) fs) rs);
    try done.
  - apply holds_stable.
  - unfold rs. apply Forall2_same_length_lookup_2; [by rewrite !length_map|].
    intros k r T Hr' HT. rewrite (list_lookup_fmap _ fs k) in HT. rewrite (list_lookup_fmap _ fs k) in Hr'.
    destruct (fs !! k) as [[m q]|] eqn:Hq; simplify_eq/=.
    destruct (Forall_lookup_1 _ _ _ _ Hfs Hq) as (t & Ht & Hqt). simpl in *.
    apply fmap_Some in Ht as (fld & Hfld & ->).
    assert (Ht : map sf_ty (sd_fields d) !! Z.to_nat m = Some (sf_ty fld)).
    { by rewrite list_lookup_fmap, Hfld. }
    destruct (Forall2_lookup_r _ _ _ _ _ Hvs Ht) as (w & Hw & Htw). rewrite Hw.
    eapply sub_dispatches; [done..|exact (Forall_lookup_1 _ _ _ _ IH Hq)|done|done| |done].
    exact (Forall_lookup_1 _ _ _ _ Hfvs Hw).
  - apply list.Forall_forall. intros T ([k q] & -> & Hk)%list_elem_of_fmap. by apply sound_field.
  - by destruct fs.
Qed.

Lemma pattern_decides q : decides_pattern q.
Proof.
  induction q using AirPattern_tree_ind.
  - intros ty v scr sp u _ _ _ _ _. apply goto_dispatches.
  - intros ty v scr sp u Hd Hv Hfit Hty Hscr. inversion Hd; subst.
    destruct (scalar_inv _ _ Hv ltac:(done)) as [m ->]. inversion Hfit; subst. simpl.
    apply (compare_dispatches scr (GConst (wrap 64 n)) _ sp u _ (VScalar (wrap 64 n))); [by apply eq_fits|done].
  - intros ty v scr sp u Hd Hv Hfit Hty Hscr. assert (ty = Ty.BOOL) as -> by (by inversion Hd).
    destruct (bool_inv _ Hv) as [m ->]. simpl.
    apply (compare_dispatches scr (GBoolConst b) _ sp u _ (VBool b)); [|done]. simpl. f_equal. by destruct m, b.
  - intros ty w scr sp u Hd Hv Hfit Hty Hscr. inversion Hd; subst.
    edestruct enum_value_inv as (j & vs & -> & Hi & Hj & _); [done..|]. by apply disc_dispatches.
  - intros ty v scr sp u _ _ _ _ _. apply goto_dispatches.
  - intros ty v scr sp u Hd Hv Hfit Hty Hscr. inversion Hd; subst.
    assert (Heq : pmatch (PBind n m (Some q)) v = pmatch q v) by (by destruct v). rewrite Heq. by eapply IHq.
  - by apply tuple_decides.
  - by apply struct_decides.
  - by apply data_decides.
  - by apply estruct_decides.
  - intros ty w scr sp u Hd Hv Hfit Hty Hscr. inversion Hd; subst.
    edestruct enum_value_inv as (j & vs & -> & Hi & Hj & _); [done..|]. by apply disc_dispatches.
Qed.

(** ** The cascade *)
Implicit Types (b : CfgBuilder (Spur := Spur)) (c : Cfg Spur).

(** The arm a cascade enters: the first whose pattern matches. *)
Fixpoint select (v : value) (arms : list (AirPattern Spur * BlockId * BlockId)) (fallback : BlockId)
    : BlockId :=
  match arms with
  | [] => fallback
  | (q, arm_block, _) :: arms => if pmatch q v then arm_block else select v arms fallback
  end.
Definition test_blocks (arms : list (AirPattern Spur * BlockId * BlockId)) : list BlockId := map snd arms.

(** The state in which the tests of [arms] are emitted. *)
Record arms_ready (b : CfgBuilder (Spur := Spur)) fallback (arms : list (AirPattern Spur * BlockId * BlockId))
    : Prop := {
  ar_ready : ready b;
  ar_fallback : blk_ok (bsizes b) fallback;
  ar_arms : Forall (λ a, blk_ok (bsizes b) a.1.2 ∧ blk_ok (bsizes b) a.2 ∧
                         code (b_cfg b) a.2 = Some ([], TNone)) arms;
  ar_distinct : NoDup (test_blocks arms);
}.

Lemma set_current_ready b k : ready b → blk_ok (bsizes b) k → ready (set_b_current k b).
Proof. intros [Hwf []] Hk. split; [done|]. by split. Qed.

(** The fall-through target of the first arm. *)
Definition fallthrough (fallback : BlockId) (arms : list (AirPattern Spur * BlockId * BlockId)) : BlockId :=
  match arms with (_, _, next) :: _ => next | [] => fallback end.

(** One arm: where its test starts, and what is left for the others. *)
Lemma arm_step b b' q ab tb arms fallback scr sp :
  emit_arm_tests pool sp scr fallback ((q, ab, tb) :: arms) b = Done ((), b') → small (b_cfg b') →
  (∀ z, scr_ok z scr) → arms_ready b fallback ((q, ab, tb) :: arms) →
  ∃ b2, emit_pattern_test pool q sp scr (MkTargets ab (fallthrough fallback arms)) (set_b_current tb b) = Done ((), b2) ∧
    emit_arm_tests pool sp scr fallback arms b2 = Done ((), b') ∧
    ready (set_b_current tb b) ∧ inv (set_b_current tb b) b2 ∧ arms_ready b2 fallback arms ∧
    blk_ok (bsizes b) (fallthrough fallback arms).
Proof.
  intros Hrun Hsm Hscr [Hr Hfb Harms Hnd]. simpl in Hrun.
  apply bind_Done in Hrun as ([[] b1] & H1 & Hrun). injection H1 as <-.
  apply bind_Done in Hrun as ([[] b2] & H2 & Hrun). simpl in H2. exists b2.
  inversion Harms as [|? ? (Hab & Htb & Hcode) Harms']; subst. inversion Hnd as [|? ? Hnin Hnd']; subst. simpl in *.
  assert (Hft : blk_ok (bsizes b) (fallthrough fallback arms)).
  { destruct arms as [|[[] ?]]; [done|]. inversion Harms' as [|? ? (_ & ? & _) _]; subst. done. }
  assert (Hsm2 : small (b_cfg b2)).
  { eapply small_mono; [exact (mono_arm_tests _ _ _ _ _ _ _ _ Hrun)|done]. }
  pose proof (set_current_ready _ _ Hr Htb) as Hr1.
  assert (Hinv : inv (set_b_current tb b) b2).
  { destruct (pattern_test_ok pool (set_b_current tb b) Htb q sp) as [_ Hk].
    edestruct (Hk (bsizes b) scr (MkTargets ab (fallthrough fallback arms)))
      as (? & _); [done|by split|exact H2|done|by apply ready_inv|done|done]. }
  split_and!; [done..| |done].
  assert (Hg : grows b b2) by apply Hinv.
  split; [by eapply inv_ready|by eapply blk_ok_grows| |done].
  apply list.Forall_forall. intros [[q' ab'] tb'] Hin. simpl.
  rewrite list.Forall_forall in Harms'. destruct (Harms' _ Hin) as (Hab' & Htb' & Hcode'). simpl in *.
  split_and!; [by eapply blk_ok_grows..|]. rewrite (framed_code _ _ tb' Hinv); [done|done|].
  simpl. intros ->. apply Hnin. by apply (list_elem_of_fmap_2 snd) in Hin.
Qed.

(** Blocks that are not of these tests stay as they are. *)
Lemma arm_tests_frame b b' arms fallback scr sp k :
  emit_arm_tests pool sp scr fallback arms b = Done ((), b') → small (b_cfg b') →
  (∀ z, scr_ok z scr) → arms_ready b fallback arms → blk_ok (bsizes b) k → k ∉ test_blocks arms →
  code (b_cfg b') k = code (b_cfg b) k ∧ grows b b'.
Proof.
  revert b; induction arms as [|[[q ab] tb] arms IH]; intros b Hrun Hsm Hscr Har Hk Hnin.
  { injection Hrun as <-. split; [done|apply grows_refl]. }
  destruct (arm_step _ _ _ _ _ _ _ _ _ Hrun Hsm Hscr Har) as (b2 & H2 & Hrest & Hr1 & Hinv & Har2 & _).
  apply not_elem_of_cons in Hnin as [Hne Hnin].
  assert (Hg : grows b b2) by apply Hinv.
  destruct (IH b2 Hrest Hsm Hscr Har2 (blk_ok_grows _ _ _ Hg Hk) Hnin) as [-> Hg2].
  split; [by apply (framed_code _ _ k Hinv)|]. unfold grows in *. by etransitivity.
Qed.

Lemma arm_tests_select ty v arms b b' c st fallback scr sp :
  emit_arm_tests pool sp scr fallback arms b = Done ((), b') → small (b_cfg b') → arms ≠ [] →
  Forall (λ a, dispatchable a.1.1 ty) arms → has_type pool v ty → fits v → scr_ty scr = ty →
  (∀ z, scr_ok z scr) → arms_ready b fallback arms → later (b_cfg b') c →
  (∀ k, blk_ok (bsizes b') k → k ∈ test_blocks arms ∨ fresh b k → code c k = code (b_cfg b') k) →
  holds scr v b st →
  ∃ st', reaches c (fallthrough fallback arms) 0 st (select v arms fallback) st' ∧ agrees b st st'.
Proof.
  revert b st; induction arms as [|[[q ab] tb] arms IH]; intros b st Hrun Hsm Hne Hd Hv Hfit Hty Hscr Har Hl Hc Hh; [done|].
  destruct (arm_step _ _ _ _ _ _ _ _ _ Hrun Hsm Hscr Har) as (b2 & H2 & Hrest & Hr1 & Hinv & Har2 & Hft).
  destruct Har as [Hr Hfb Harms Hnd]. inversion Hd as [|? ? Hdq Hd']; subst.
  inversion Harms as [|? ? (Hab & Htb & Hcode) _]; subst. inversion Hnd as [|? ? Hnin Hnd']; subst. simpl in *.
  assert (Hg : grows b b2) by apply Hinv.
  assert (Hg2 : grows b2 b') by exact (mono_arm_tests _ _ _ _ _ _ _ _ Hrest).
  destruct (pattern_decides q (scr_ty scr) v scr sp (fallthrough fallback arms) Hdq Hv Hfit eq_refl Hscr
    (set_b_current tb b) b2 c st ab) as (st1 & Hreach & Hag); try done.
  { split; [by eapply small_mono|by eapply cgrows_later|]. intros k Hk Hkok.
    assert (Hkn : k ∉ test_blocks arms ∧ (k = tb ∨ fresh b k)).
    { destruct Hk as [->|Hk]; [split; [done|by left]|split; [|by right]].
      intros (a & -> & Hin)%list_elem_of_fmap. destruct Har2 as [_ _ Ha2 _].
      rewrite list.Forall_forall in Harms.
      destruct (Harms a) as (_ & [_ Hlt] & _); [by right|]. unfold fresh, bsizes in *. simpl in *. lia. }
    destruct Hkn as [Hkn Hk'].
    rewrite Hc; [|by eapply blk_ok_grows|destruct Hk' as [->|]; [left; by left|by right]].
    by apply (arm_tests_frame b2 b' arms fallback scr sp k). }
  rewrite (code_empty_pos (set_b_current tb b) Hcode) in Hreach. simpl in Hreach.
  destruct (pmatch q v); [by exists st1|].
  destruct arms as [|[[q' ab'] tb'] arms]; [by exists st1|].
  destruct (IH b2 st1) as (st' & Hreach' & Hag'); try done.
  { intros k Hk Hin. apply Hc; [done|]. destruct Hin as [Hin|Hf]; [left; by right|right].
    destruct (cgrows_sizes _ _ Hg) as [Hle _]. unfold fresh, bsizes in *. lia. }
  { eapply holds_stable; [exact Hh|exact Hg|exact Hag]. }
  exists st'. split; [by eapply reaches_trans|]. by eapply agrees_trans.
Qed.

(** The position of the first pattern that matches. *)
Definition first_match (ps : list (AirPattern Spur)) (v : value) : option nat :=
  fst <$> list_find (λ q, pmatch q v = true) ps.
Lemma first_match_cons q ps v :
  first_match (q :: ps) v = if pmatch q v then Some 0%nat else S <$> first_match ps v.
Proof.
  unfold first_match. simpl. case_decide as Hq; [by rewrite Hq|].
  apply not_true_is_false in Hq. rewrite Hq. by destruct (list_find _ ps) as [[]|].
Qed.
Lemma select_first ps ks tbs v fallback :
  length ks = length ps → length tbs = length ps →
  match first_match ps v with
  | Some i => ks !! i = Some (select v (zip (zip ps ks) tbs) fallback)
  | None => select v (zip (zip ps ks) tbs) fallback = fallback
  end.
Proof.
  revert ks tbs; induction ps as [|q ps IH]; intros [|k ks] [|tb tbs] H1 H2; simplify_eq/=; [done|].
  rewrite first_match_cons. destruct (pmatch q v); [done|]. specialize (IH ks tbs H1 H2).
  by destruct (first_match ps v).
Qed.

(** Several new blocks. *)
Lemma new_blocks_facts {A} (l : list A) b ks b' :
  mapM (λ _, cfg_do new_block) l b = Done (ks, b') → ready b → small (b_cfg b') →
  ready b' ∧ ext b b' ∧ cur_insts b' = cur_insts b ∧ b_current_block b' = b_current_block b ∧
  length ks = length l ∧ NoDup ks ∧
  Forall (λ k, fresh b k ∧ blk_ok (bsizes b') k ∧ code (b_cfg b') k = Some ([], TNone)) ks ∧
  (∀ j, blk_ok (bsizes b) j → code (b_cfg b') j = code (b_cfg b) j).
Proof.
  revert b ks; induction l as [|x l IH]; intros b ks Hd Hr Hsm; simpl in Hd.
  { injection Hd as <- <-. split_and!; try done; first [apply ext_refl|constructor]. }
  apply bind_Done in Hd as ([k b1] & H1 & Hd). apply bind_Done in Hd as ([ks' b2] & H2 & Hd).
  injection Hd as <- <-.
  assert (Hg : grows b1 b2) by (eapply (mono_mapM (λ _, cfg_do new_block) l); [intros; apply mono_new_block|exact H2]).
  destruct (new_block_facts _ _ _ H1 Hr (small_mono _ _ Hg Hsm))
    as (Hr1 & Hk & Hg1 & X1 & I1 & C1 & Hok1 & Hcode1 & Hold1).
  destruct (IH _ _ H2 Hr1 Hsm) as (Hr2 & X2 & I2 & C2 & Hlen & Hnd & Hall & Hold2).
  destruct (cgrows_sizes _ _ Hg1) as [Hle1 _].
  split_and!; [done|by eapply ext_trans|congruence|congruence|by simpl; f_equal|..].
  - constructor; [|done]. intros Hin. rewrite list.Forall_forall in Hall.
    destruct (Hall _ Hin) as [Hf _]. destruct Hok1 as [_ Hok1]. unfold fresh in Hf. lia.
  - constructor.
    + split_and!; [unfold fresh; unfold bsizes in *; lia|by eapply blk_ok_grows|by rewrite Hold2].
    + eapply Forall_impl; [|exact Hall]. intros j (Hf & ? & ?). split_and!; try done.
      unfold fresh, bsizes in *. lia.
  - intros j Hj. rewrite Hold2; [by apply Hold1|by eapply blk_ok_grows].
Qed.
Lemma set_terminator_facts b k t b' :
  cfg_do (set_terminator k t) b = Done ((), b') → 0 ≤ k →
  cur_insts b' = cur_insts b ∧ b_current_block b' = b_current_block b ∧ ext b b' ∧
  code (b_cfg b') k = (λ p, (p.1, t)) <$> code (b_cfg b) k ∧
  ∀ j, 0 ≤ j → j ≠ k → code (b_cfg b') j = code (b_cfg b) j.
Proof.
  intros Hd Hk. pose proof (mono_set_terminator _ _ _ _ _ Hd) as Hg.
  apply bind_Done in Hd as ([[] c1] & Hu & Hr). injection Hr as <-.
  apply bind_Done in Hu as (blk & Hblk%expect_Done & Hr). injection Hr as <-.
  assert (Hlt : (Z.to_nat k < length (c_blocks (b_cfg b)))%nat) by (by eapply lookup_lt_Some).
  assert (Hi : cur_insts (set_b_cfg (set_blocks (λ bs, <[Z.to_nat k := with_terminator t blk]> bs) (b_cfg b)) b)
    = cur_insts b).
  { unfold cur_insts; simpl. destruct (decide (Z.to_nat k = Z.to_nat (b_current_block b))) as [E|E].
    - rewrite <-E, list_lookup_insert_eq by done. by rewrite Hblk.
    - by rewrite list_lookup_insert_ne. }
  split_and!; try done; [by split; [..|rewrite Hi]| |].
  - unfold code; simpl. rewrite list_lookup_insert_eq by done. by rewrite Hblk.
  - intros j Hj Hne. unfold code; simpl. by rewrite list_lookup_insert_ne by lia.
Qed.

(** The set-up of the cascade: scrutinee spilled, test blocks and fallback created. *)
Record cascade_setup (v : CfgValue) (ty : Ty) (sp : Span) (ps : list (AirPattern Spur)) ks b b' : Prop :=
  MkSetup {
  cs_slot : Z; cs_tests : list BlockId; cs_fallback : BlockId; cs_first : BlockId;
  cs_b1 : CfgBuilder (Spur := Spur); cs_b2 : CfgBuilder (Spur := Spur); cs_b3 : CfgBuilder (Spur := Spur);
  cs_b4 : CfgBuilder (Spur := Spur); cs_b6 : CfgBuilder (Spur := Spur);
  cs_spill : spilled v sp b cs_slot cs_b1;
  cs_new : mapM (λ _, cfg_do new_block) ps cs_b1 = Done (cs_tests, cs_b2);
  cs_fb : cfg_do new_block cs_b2 = Done (cs_fallback, cs_b3);
  cs_fbt : cfg_do (set_terminator cs_fallback TUnreachable) cs_b3 = Done ((), cs_b4);
  cs_head : cs_tests !! 0%nat = Some cs_first;
  cs_goto : goto cs_first [] cs_b4 = Done ((), cs_b6);
  cs_run : emit_arm_tests pool sp (MkScrutinee cs_slot ty []) cs_fallback (zip (zip ps ks) cs_tests) cs_b6
             = Done ((), b');
}.
Lemma cascade_unfold v ty sp ps ks b b' :
  emit_cascade pool sp v ty ps ks b = Done ((), b') → cascade_setup v ty sp ps ks b b'.
Proof.
  unfold emit_cascade. intros Hrun.
  apply bind_Done in Hrun as ([slot x1] & H1 & Hrun). apply bind_Done in Hrun as ([[] x2] & H2 & Hrun).
  apply bind_Done in Hrun as ([[] b1] & H3 & Hrun). apply bind_Done in Hrun as ([tbs b2] & H4 & Hrun).
  apply bind_Done in Hrun as ([fb b3] & H5 & Hrun). apply bind_Done in Hrun as ([[] b4] & H6 & Hrun).
  apply bind_Done in Hrun as ([[s0 l0] b5] & H7 & Hrun). apply bind_Done in Hrun as ([first bx] & H8 & Hrun).
  apply bind_Done in H8 as (f' & Hf%expect_Done & Hr). injection Hr as <- <-.
  apply bind_Done in Hrun as ([[] b6] & H9 & Hrun).
  refine (MkSetup _ _ _ _ _ _ _ slot tbs fb f' b1 b2 b3 b4 b6 (MkSpilled _ _ _ _ _ _ _ H1 H2 H3) H4 H5 H6 Hf _ Hrun).
  unfold goto. unfold mbind, BuildM_bind, ST_bind. rewrite H7. exact H9.
Qed.

(** The blocks of the cascade before the tests are emitted. *)
Lemma cascade_blocks (ps : list (AirPattern Spur)) tbs fb first b1 b2 b3 b4 b6 :
  mapM (λ _, cfg_do new_block) ps b1 = Done (tbs, b2) → cfg_do new_block b2 = Done (fb, b3) →
  cfg_do (set_terminator fb TUnreachable) b3 = Done ((), b4) → tbs !! 0%nat = Some first →
  goto first [] b4 = Done ((), b6) → ready b1 → small (b_cfg b6) →
  ready b6 ∧ ext b1 b6 ∧ length tbs = length ps ∧ NoDup tbs ∧
  Forall (λ k, fresh b1 k ∧ blk_ok (bsizes b6) k ∧ code (b_cfg b6) k = Some ([], TNone)) tbs ∧
  fresh b1 fb ∧ blk_ok (bsizes b6) fb ∧ fb ∉ tbs ∧ code (b_cfg b6) fb = Some ([], TUnreachable) ∧
  ∀ c st, code c (b_current_block b1) = code (b_cfg b6) (b_current_block b1) →
    exec_block c (b_current_block b1) (pos b1) st = Some (first, st).
Proof.
  intros H2 H3 H4 Hfirst H6 Hr1 Hsm6.
  pose proof (goto_ext _ _ _ _ H6) as X6. assert (Hsm4 : small (b_cfg b4)) by (eapply small_mono; [apply X6|done]).
  assert (Hsm3 : small (b_cfg b3)) by (eapply small_mono; [exact (mono_set_terminator _ _ _ _ _ H4)|done]).
  assert (Hsm2 : small (b_cfg b2)) by (eapply small_mono; [exact (mono_new_block _ _ _ H3)|done]).
  destruct (new_blocks_facts _ _ _ _ H2 Hr1 Hsm2) as (Hr2 & X2 & I2 & C2 & Hl2 & Hnd & Hall & Hold2).
  destruct (new_block_facts _ _ _ H3 Hr2 Hsm3) as (Hr3 & Hk3 & Hg3 & X3 & I3 & C3 & Hok3 & Hcode3 & Hold3).
  destruct (set_terminator_facts _ _ _ _ H4 (proj1 Hok3)) as (I4 & C4 & X4 & Hcode4 & Hold4).
  pose proof (ready_current _ Hr1) as Hcur. destruct (cgrows_sizes _ _ (ext_grows _ _ X2)) as [Hle2 _].
  assert (Hff : fresh b1 fb) by (unfold fresh, bsizes in *; lia).
  assert (Hr4 : ready b4).
  { pose proof (ready_current _ Hr3) as Hc3. destruct Hr3 as [Hwf3 Hok3'].
    apply bind_Done in H4 as ([[] c4] & H4 & Hx). injection Hx as <-.
    apply set_terminator_Done in H4 as (Hwf4 & _); [|done..]. split; [done|].
    by eapply builder_ok_grow; [exact Hok3'|apply X4|..]. }
  assert (Hin : first ∈ tbs) by (by eapply list_elem_of_lookup_2).
  rewrite list.Forall_forall in Hall. destruct (Hall _ Hin) as (_ & Hfok & _).
  pose proof (ext_trans _ _ _ X3 X4) as X34.
  assert (Hinv6 : inv b4 b6).
  { edestruct (keeps_goto b4 (ready_current _ Hr4) (bsizes b4) first []) as (? & _);
      [exact (blk_ok_grows _ _ _ (ext_grows _ _ X34) Hfok)|constructor|exact H6|done|by apply ready_inv|done|done]. }
  assert (Hne : ∀ k, fresh b1 k → k ≠ b_current_block b4).
  { intros k Hk ->. rewrite C4, C3, C2 in Hk. destruct Hcur. unfold fresh in Hk. lia. }
  assert (Hok4 : blk_ok (bsizes b4) fb) by exact (blk_ok_grows _ _ _ (ext_grows _ _ X4) Hok3).
  split_and!; [by eapply inv_ready|by eapply ext_trans; [exact X2|eapply ext_trans]|done|done| |done|..].
  - apply list.Forall_forall. intros k Hk. destruct (Hall k Hk) as (Hf & Hok & Hcode).
    assert (Hok4' : blk_ok (bsizes b4) k) by exact (blk_ok_grows _ _ _ (ext_grows _ _ X34) Hok).
    split_and!; [done|exact (blk_ok_grows _ _ _ (ext_grows _ _ X6) Hok4')|].
    rewrite (framed_code _ _ _ Hinv6 Hok4' (Hne _ Hf)), Hold4, Hold3; [done|done|apply Hok|].
    intros ->. destruct Hok as [_ Hok]. lia.
  - exact (blk_ok_grows _ _ _ (ext_grows _ _ X6) Hok4).
  - intros Hk. destruct (Hall _ Hk) as (_ & [_ Hok] & _). lia.
  - rewrite (framed_code _ _ _ Hinv6 Hok4 (Hne _ Hff)), Hcode4, Hcode3. done.
  - intros c st Hc. assert (Hcc : b_current_block b4 = b_current_block b1) by congruence.
    assert (Hpp : pos b4 = pos b1) by (unfold pos; congruence). rewrite <-Hcc, <-Hpp in *.
    by eapply run_goto.
Qed.

Lemma cascade_selects v ty sp ps ks b b' c st w :
  emit_cascade pool sp v ty ps ks b = Done ((), b') → ready b → sealed b b' c →
  Forall (λ q, dispatchable q ty) ps → has_type pool w ty → fits w →
  length ks = length ps → Forall (blk_ok (bsizes b)) ks → bound v w b st →
  ∃ k st', reaches c (b_current_block b) (pos b) st k st' ∧
    match first_match ps w with
    | Some i => ks !! i = Some k
    | None => code c k = Some ([], TUnreachable)
    end.
Proof.
  intros Hrun Hr Hs Hd Hw Hfit Hlen Hks Hb.
  apply cascade_unfold in Hrun as [slot tbs fb first b1 b2 b3 b4 b6 Hsp H2 H3 H4 Hfirst H6 Hrun].
  pose proof (spilled_ext _ _ _ _ _ Hsp) as X1. pose proof (mono_arm_tests _ _ _ _ _ _ _ _ Hrun) as Hg6.
  assert (Hsm6 : small (b_cfg b6)) by (eapply small_mono; [exact Hg6|apply Hs]).
  assert (Hg16 : grows b1 b6).
  { unfold grows. etransitivity; [|etransitivity; [exact (mono_new_block _ _ _ H3)|etransitivity;
      [exact (mono_set_terminator _ _ _ _ _ H4)|exact (mono_goto _ _ _ _ _ H6)]]].
    eapply (mono_mapM (λ _, cfg_do new_block) ps); [intros; apply mono_new_block|exact H2]. }
  assert (Hr1 : ready b1).
  { eapply inv_ready, (spilled_inv b _ _ _ _ _ Hsp Hr (ready_inv _ Hr)); [apply Hb|by eapply small_mono]. }
  destruct (cascade_blocks _ _ _ _ _ _ _ _ _ H2 H3 H4 Hfirst H6 Hr1 Hsm6)
    as (Hr6 & X16 & Hl & Hnd & Hall & Hffb & Hokfb & Hnin & Hcodefb & Hexec).
  pose proof (ext_trans _ _ _ X1 X16) as X. set (arms := zip (zip ps ks) tbs) in *.
  assert (Htb : test_blocks arms = tbs).
  { unfold test_blocks, arms. apply snd_zip. rewrite length_zip_with. lia. }
  assert (Har : arms_ready b6 fb arms).
  { split; [done|done| |by rewrite Htb]. apply list.Forall_forall. intros [[q k] tb] Hin. simpl.
    apply elem_of_zip_r in Hin as Htbin. apply elem_of_zip_l, elem_of_zip_r in Hin as Hkin.
    rewrite list.Forall_forall in Hall, Hks. destruct (Hall _ Htbin) as (_ & ? & ?).
    split_and!; [exact (blk_ok_grows _ _ _ (ext_grows _ _ X) (Hks _ Hkin))|done|done]. }
  pose proof (ready_current _ Hr) as Hcur.
  assert (Hcurnin : b_current_block b ∉ test_blocks arms).
  { rewrite Htb. intros Hin. rewrite list.Forall_forall in Hall. destruct (Hall _ Hin) as (Hf & _).
    destruct (cgrows_sizes _ _ (ext_grows _ _ X1)) as [Hle _]. destruct Hcur. unfold fresh, bsizes in *. lia. }
  (* the blocks of the set-up are final *)
  assert (Hscr : ∀ z, scr_ok z (MkScrutinee slot ty [])) by constructor.
  assert (Hkeep : ∀ k, own b k → blk_ok (bsizes b6) k → k ∉ test_blocks arms → code c k = code (b_cfg b6) k).
  { intros k Hk Hkok Hkn. rewrite (sealed_code _ _ _ Hs k Hk (blk_ok_grows _ _ _ Hg6 Hkok)).
    by apply (arm_tests_frame _ _ _ _ _ _ _ Hrun (sealed_small _ _ _ Hs)). }
  destruct (cgrows_sizes _ _ (ext_grows _ _ X1)) as [Hle1 _].
  destruct (cgrows_sizes _ _ (ext_grows _ _ X)) as [Hle6 _].
  assert (Hcurok : blk_ok (bsizes b6) (b_current_block b)) by exact (blk_ok_grows _ _ _ (ext_grows _ _ X) Hcur).
  assert (Hcc : code c (b_current_block b) = code (b_cfg b6) (b_current_block b)) by (apply Hkeep; [by left|done..]).
  assert (Hon1 : on_path c b1).
  { eapply ext_on_path; [exact X16|]. pose proof (ext_current _ _ X) as Hc6.
    apply on_path_final; [eapply cgrows_later; [exact Hg6|apply Hs]|by rewrite Hc6..]. }
  destruct (run_spill _ _ _ _ _ _ _ w Hsp Hon1 Hb) as (st1 & M1 & Hholds).
  rewrite (ext_current _ _ X1) in Hexec. specialize (Hexec c st1 Hcc).
  (* the tests *)
  assert (Hft : fallthrough fb arms = first).
  { unfold arms. destruct tbs as [|tb tbs]; [done|]. injection Hfirst as ->.
    destruct ps as [|q ps]; [done|]. by destruct ks. }
  destruct (arm_tests_select ty w arms b6 b' c st1 fb (MkScrutinee slot ty []) sp) as (st' & Hreach & _); try done.
  { apply Hs. }
  { unfold arms. destruct tbs as [|]; [done|]. destruct ps as [|]; [done|]. by destruct ks. }
  { apply list.Forall_forall. intros [[q k] tb] Hin. simpl.
    apply elem_of_zip_l, elem_of_zip_l in Hin. rewrite list.Forall_forall in Hd. by apply Hd. }
  { apply Hs. }
  { intros k Hk Hin. apply (sealed_code _ _ _ Hs); [right|done]. destruct Hin as [Hin|Hf].
    - rewrite Htb in Hin. rewrite list.Forall_forall in Hall. destruct (Hall _ Hin) as (Hf & _).
      unfold fresh, bsizes in *. lia.
    - unfold fresh, bsizes in *. lia. }
  { eapply holds_stable; [apply Hholds|exact Hg16|apply agrees_refl]. }
  exists (select w arms fb), st'. split.
  - rewrite Hft in Hreach. eapply reaches_more; [|exact Hreach]. rewrite (proj2 M1).
    by rewrite (ext_current _ _ X1).
  - pose proof (select_first ps ks tbs w fb Hlen Hl) as Hsel. fold arms in Hsel.
    destruct (first_match ps w); [done|]. rewrite Hsel, Hkeep; [done| |done|by rewrite Htb].
    right. unfold fresh, bsizes in *. lia.
Qed.

(** ** The switch *)

(** The case value of a pattern that is not a wildcard. *)
Definition case_of (q : AirPattern Spur) : option Z :=
  match q with
  | PInt n => Some n
  | PBool b => Some (if b then 1 else 0)
  | PEnumVariant _ i | PEnumUnitVariant _ i | PEnumDataVariant _ i _ | PEnumStructVariant _ i _ => Some i
  | _ => None
  end.
(** The case value decides the pattern for a value with key [n]. *)
Definition switchable (w : value) (n : Z) (q : AirPattern Spur) : Prop :=
  q = Wildcard ∨ ∃ m, case_of q = Some m ∧ pmatch q w = (m =? n).

Lemma trivial_fields_match (fs : list (AirPattern Spur)) vs :
  existsb (λ f, negb (is_trivial_pattern f)) fs = false → length fs = length vs → match_all fs vs = true.
Proof.
  revert vs; induction fs as [|q fs IH]; intros [|w vs] Hf Hl; simplify_eq/=; [done|].
  apply orb_false_iff in Hf as [Hq%negb_false_iff Hf]. rewrite trivial_matches by done. by apply IH.
Qed.
Lemma pattern_switchable q ty w n :
  dispatchable q ty → has_type pool w ty → is_cascading q = false → switch_key w = Some n → switchable w n q.
Proof.
  intros Hd Hw Hc Hn. inversion Hd as [| | |? ? Hsig Hfi|?|? ? ? tys Hct|? ? ? tys Hct|? ? ? fs tys Hct Hfs
    |? ? ? fs tys Hct Hfs|? ? ? ? ? ? Hne|? ? ? ? ? ? Hne]; subst; try done; [by left|right..].
  - destruct (scalar_inv _ _ Hw Hsig) as [m ->]. simpl in *. simplify_eq. by eexists.
  - destruct (bool_inv _ Hw) as [m ->]. simpl in *. simplify_eq. eexists. split; [done|]. by destruct b, m.
  - destruct (enum_value_inv _ _ _ _ _ Hw Hct) as (j & vs & -> & _). simpl in *. simplify_eq. by eexists.
  - destruct (enum_value_inv _ _ _ _ _ Hw Hct) as (j & vs & -> & _). simpl in *. simplify_eq. by eexists.
  - destruct (enum_value_inv _ _ _ _ _ Hw Hct) as (j & vs & -> & _ & _ & Hvs). simpl in *. simplify_eq.
    eexists. split; [done|]. rewrite by_position_match. destruct (Z.eqb_spec i n) as [Hij|]; [|done].
    simpl. apply trivial_fields_match; [done|]. by rewrite (Forall2_length Hfs), (Forall2_length (Hvs Hij)).
  - destruct (enum_value_inv _ _ _ _ _ Hw Hct) as (j & vs & -> & _ & _ & Hvs). simpl in *. simplify_eq.
    eexists. split; [done|]. destruct (Z.eqb_spec i n) as [Hij|]; [|done]. simpl.
    apply forallb_forall. intros [k q'] Hin%list_elem_of_In. simpl.
    rewrite list.Forall_forall in Hfs. destruct (Hfs _ Hin) as (t & Ht & _).
    destruct (Forall2_lookup_r _ _ _ _ _ (Hvs Hij) Ht) as (w & Hw' & _). simpl in Hw'. rewrite Hw'.
    apply trivial_matches. apply not_false_is_true. intros Hf.
    apply not_true_iff_false in Hc. apply Hc, existsb_exists. exists (k, q'). simpl. rewrite Hf.
    split; [by apply list_elem_of_In|done].
Qed.

Lemma switch_cases_find ps ks cases d w n i :
  switch_cases ps ks = Done (cases, d) → length ks = length ps → Forall (switchable w n) ps →
  first_match ps w = Some i →
  match list_find (λ x, x.1 = n) cases with
  | Some (_, x) => ks !! i = Some x.2
  | None => ∃ k, d = Some k ∧ ks !! i = Some k
  end.
Proof.
  revert ks cases d i; induction ps as [|q ps IH]; intros [|k ks] cases d i Hsw Hl Hs Hf; simplify_eq/=.
  inversion Hs as [|? ? Hq Hs']; subst. rewrite first_match_cons in Hf.
  assert (Hcase : ∀ m, case_of q = Some m → pmatch q w = (m =? n) →
    (x ← switch_cases ps ks; let '(cs, d0) := x in mret ((m, k) :: cs, d0)) = Done (cases, d) →
    match list_find (λ x, x.1 = n) cases with
    | Some (_, x) => (k :: ks) !! i = Some x.2 | None => ∃ k', d = Some k' ∧ (k :: ks) !! i = Some k' end).
  { intros m _ Hm ([cs d0] & Hcs & Hr)%bind_Done. injection Hr as <- <-. rewrite Hm in Hf. simpl.
    destruct (Z.eqb_spec m n) as [->|Hne]; [rewrite decide_True by done; by simplify_eq|].
    rewrite decide_False by done. apply fmap_Some in Hf as (i' & Hi' & ->).
    specialize (IH ks cs d0 i' Hcs Hl Hs' Hi'). by destruct (list_find _ cs) as [[]|]. }
  destruct Hq as [->|(m & Hm & Hpm)].
  { simpl in Hf. simplify_done. simplify_eq/=. by exists k. }
  destruct q; simpl in Hm; simplify_eq; by eapply Hcase.
Qed.
Lemma find_split (cases : list (Z * BlockId)) cases' dflt d n k :
  split_default cases d = Done (cases', dflt) →
  match list_find (λ x, x.1 = n) cases with Some (_, x) => k = x.2 | None => d = Some k end →
  match list_find (λ x, x.1 = n) cases' with Some (_, x) => x.2 | None => dflt end = k.
Proof.
  destruct d as [d|]; simpl; intros Hs Hf; simplify_done.
  { destruct (list_find _ cases') as [[]|]; by simplify_eq. }
  destruct (list_find _ cases) as [[j y]|] eqn:Hj; [|done]. subst k.
  apply list_find_Some in Hj as (Hl & Hy & Hbefore). pose proof (lookup_lt_Some _ _ _ Hl) as Hlt.
  destruct (decide (j < length cases - 1)%nat) as [Hlast|Hlast].
  - assert (Hft : list_find (λ x : Z * Z, x.1 = n) (take (length cases - 1) cases) = Some (j, y)).
    { apply list_find_Some. split_and!; [by rewrite lookup_take_lt|done|].
      intros j' z Hz Hj'. apply (Hbefore j' z); [|done]. by rewrite lookup_take_lt in Hz by lia. }
    by rewrite Hft.
  - assert (Hft : list_find (λ x : Z * Z, x.1 = n) (take (length cases - 1) cases) = None).
    { apply list_find_None, list.Forall_forall. intros z (j' & Hz)%list_elem_of_lookup.
      apply lookup_take_Some in Hz as [Hz Hj']. apply (Hbefore j' z Hz). lia. }
    rewrite Hft. rewrite last_lookup in H0. replace (pred (length cases)) with j in H0 by lia.
    rewrite Hl in H0. by simplify_eq.
Qed.

Lemma switch_key_typed w ty : has_type pool w ty → as_struct ty = None → ∃ n, switch_key w = Some n.
Proof.
  intros [ty' c tys vs Hc _] Hs. inversion Hc; subst; simpl; try (by eexists); congruence.
Qed.

Lemma push_switch_cases_facts cases b s l b' :
  cfg_do (push_switch_cases cases) b = Done ((s, l), b') →
  ext b b' ∧ cur_insts b' = cur_insts b ∧ b_current_block b' = b_current_block b ∧
  ∀ c, later (b_cfg b') c → get_switch_cases c s l = Done cases.
Proof.
  intros Hd. destruct (cfg_do_ext _ _ _ _ Hd (mono_push_switch_cases _)) as (X & I1 & C1).
  { intros c a c' (r & _ & Hr)%bind_Done. by injection Hr as _ <-. }
  split_and!; [done..|]. intros c Hl.
  apply bind_Done in Hd as ([r c1] & Hp & Hr). injection Hr as -> <-.
  apply bind_Done in Hp as (r & Hp & Hr). injection Hr as -> <-. simpl in Hl.
  pose proof (prefix_zlen _ _ (later_cases _ _ Hl)) as Hle.
  destruct (later_small _ _ Hl) as (_ & _ & _ & _ & Hsm & _).
  apply pushed_Done in Hp as (-> & -> & Hrg); [|simpl in *; lia].
  unfold get_switch_cases. rewrite (slice_later _ _ _ _ (later_cases _ _ Hl)) by done. simpl.
  rewrite cfg_slice_Done by (done || (simpl in *; lia)). unfold zlen. rewrite !Nat2Z.id.
  by rewrite drop_app_length, take_ge.
Qed.

Lemma switch_selects v ty ps ks b b' c st w i :
  emit_switch v ps ks b = Done ((), b') → ready b → sealed b b' c →
  Forall (λ q, dispatchable q ty) ps → Forall (λ q, is_cascading q = false) ps →
  has_type pool w ty → as_struct ty = None → length ks = length ps → bound v w b st →
  first_match ps w = Some i →
  ∃ k, exec_block c (b_current_block b) (pos b) st = Some (k, st) ∧ ks !! i = Some k.
Proof.
  intros Hrun Hr Hs Hd Hnc Hw Hst Hlen [_ Hb] Hf.
  destruct (switch_key_typed _ _ Hw Hst) as [n Hn].
  assert (Hsw : Forall (switchable w n) ps).
  { apply list.Forall_forall. intros q Hq. rewrite list.Forall_forall in Hd, Hnc.
    eapply pattern_switchable; eauto. }
  unfold emit_switch in Hrun. apply bind_Done in Hrun as ([[all d] bx] & H1 & Hrun).
  apply bind_Done in H1 as (x & Hcases & Hx). injection Hx as -> <-.
  apply bind_Done in Hrun as ([[cases dflt] bx] & H1 & Hrun).
  apply bind_Done in H1 as (x & Hsplit & Hx). injection Hx as -> <-.
  apply bind_Done in Hrun as ([[s l] b1] & H1 & H2).
  destruct (push_switch_cases_facts _ _ _ _ _ H1) as (X1 & I1 & C1 & Hget).
  pose proof (terminate_ext _ _ _ H2) as X2. pose proof (ext_trans _ _ _ X1 X2) as X.
  destruct (sealed_current _ _ _ Hs Hr (ext_grows _ _ X) X) as [Hc _].
  assert (Hl1 : later (b_cfg b1) c) by (eapply cgrows_later; [apply X2|apply Hs]).
  pose proof (switch_cases_find _ _ _ _ _ _ _ Hcases Hlen Hsw Hf) as Hfind.
  destruct (lookup_lt_is_Some_2 ks i) as [k Hk].
  { unfold first_match in Hf. apply fmap_Some in Hf as ([j q] & Hj & ->).
    apply list_find_Some in Hj as (Hj%lookup_lt_Some & _). simpl. lia. }
  exists k. split; [|done].
  assert (Hpos : pos b1 = pos b) by (unfold pos; by rewrite I1). rewrite <-C1, <-Hpos.
  rewrite (run_terminate _ _ _ c st H2) by (by rewrite C1). simpl. rewrite Hb. simpl. rewrite Hn. simpl.
  rewrite (Hget c Hl1). simpl. do 2 f_equal.
  eapply find_split; [exact Hsplit|]. destruct (list_find _ all) as [[j y]|].
  - congruence.
  - destruct Hfind as (k' & -> & Hk'). congruence.
Qed.

(** C4: Dispatch of a match, end to end. Let the arms be well typed and let sema's
    exhaustiveness check report no witness. Whether [lower_match] emits a cascade of
    tests or a switch, in any later graph in which the emitted blocks are final, and for
    every value of the scrutinee's type, control goes from the point where the scrutinee
    was computed to the block of the first arm whose pattern matches the value, and to no
    other: it never falls through. (A match on a struct needs a pattern that inspects it:
    a switch has no key for a struct.) *)
Theorem match_dispatches_first_arm fuel (arms : list (AirPattern Spur * AirRef)) ty ks v sp b b' c st w :
  exhaustiveness_witnesses pool fuel (map fst arms) ty = Done [] →
  Forall (λ a, ptyped pool a.1 ty ∧ dispatchable a.1 ty) arms →
  (needs_cascading arms = false → as_struct ty = None) →
  length ks = length arms → Forall (blk_ok (bsizes b)) ks → ready b →
  (if needs_cascading arms then emit_cascade pool sp v ty (map fst arms) ks
   else emit_switch v (map fst arms) ks) b = Done ((), b') →
  sealed b b' c → has_type pool w ty → fits w → bound v w b st →
  ∃ i k st', first_match (map fst arms) w = Some i ∧ ks !! i = Some k ∧
    reaches c (b_current_block b) (pos b) st k st'.
Proof using Hpool.
  intros Hex Ht Hst Hlen Hks Hr Hrun Hs Hw Hfit Hb. set (ps := map fst arms) in *.
  assert (Hpt : Forall (λ q, ptyped pool q ty) ps).
  { apply Forall_fmap. eapply Forall_impl; [|exact Ht]. by intros a []. }
  assert (Hdp : Forall (λ q, dispatchable q ty) ps).
  { apply Forall_fmap. eapply Forall_impl; [|exact Ht]. by intros a []. }
  assert (Hlen' : length ks = length ps) by (unfold ps; by rewrite length_map).
  assert (Hfm : ∃ i, first_match ps w = Some i).
  { destruct (no_witness_covers pool fuel ps ty w Hpool Hpt Hex Hw) as (a & Ha & Hm).
    unfold first_match. destruct (list_find _ ps) as [[i q]|] eqn:Hfind; [by exists i|].
    apply list_find_None in Hfind. rewrite list.Forall_forall in Hfind. by destruct (Hfind a Ha). }
  destruct Hfm as [i Hi]. exists i. destruct (needs_cascading arms) eqn:Hc.
  - destruct (cascade_selects v ty sp ps ks b b' c st w) as (k & st' & Hreach & Hsel); try done.
    rewrite Hi in Hsel. by exists k, st'.
  - assert (Hnc : Forall (λ q, is_cascading q = false) ps).
    { apply Forall_fmap, list.Forall_forall. intros a Ha%list_elem_of_In. simpl.
      apply not_true_iff_false. intros Hca. apply not_true_iff_false in Hc.
      apply Hc, existsb_exists. eauto. }
    destruct (switch_selects v ty ps ks b b' c st w i) as (k & Hexec & Hk); try done; [by apply Hst|].
    exists k, st. split_and!; [done..|]. by apply reaches_one.
Qed.
End Patterns.

(** The match of [Usefulness.MatchSample] on [Opt], lowered in a fresh function, run on
    the value [Some(false)]: the third arm, a binding, is the one that is entered. *)
Module DispatchSample.
Import MatchSample.
Definition arms : list (AirPattern nat * AirRef) := zip MatchSample.arms [0; 0; 0; 0].
Definition sp : Span := MkSpan 0 0 0.

(** A function with one parameter of type [Opt], its value computed and the four arm
    blocks created. *)
Definition setup : ST (CfgBuilder (Spur := nat)) (list BlockId) :=
  entry ← cfg_do new_block;
  set_current entry;;
  _ ← emit (GParam 0) Opt_ty sp;
  mapM (λ _, cfg_do new_block) arms.
Definition start : CfgBuilder (Spur := nat) :=
  match setup (MkBuilder (new_cfg Ty.UNIT 0 1 "" [] [Opt_ty]) 0 [] [] [] [[]] ∅ []) with
  | Done (_, b) => b
  | _ => MkBuilder (new_cfg Ty.UNIT 0 1 "" [] [Opt_ty]) 0 [] [] [] [[]] ∅ []
  end.
Definition finish : CfgBuilder (Spur := nat) :=
  match emit_cascade pool sp 0 Opt_ty (map fst arms) [1; 2; 3; 4] start with
  | Done (_, b) => b
  | _ => start
  end.
Definition st : store := MkStore {[ 0 := some_false ]} ∅.

Definition start_graph : Cfg nat := Eval vm_compute in b_cfg start.
Lemma start_graph_eq : b_cfg start = start_graph.
Proof. vm_compute. reflexivity. Qed.
Lemma start_ready : ready start.
Proof.
  split.
  - unfold cfg_wf. rewrite start_graph_eq. split; simpl; try (by repeat constructor);
      intros [|[|[|[|[|i]]]]] blk Hb; simplify_eq/=; done.
  - split; vm_compute; repeat constructor; discriminate.
Qed.
Lemma finish_small : CfgTheory.small (b_cfg finish).
Proof. vm_compute. repeat constructor. Qed.
Lemma finish_sealed : sealed start finish (b_cfg finish).
Proof. split; [apply finish_small| |done]. split; [done..|apply finish_small]. Qed.
Lemma scrutinee_bound : bound 0 some_false start st.
Proof. split; [split; vm_compute; [discriminate|reflexivity]|vm_compute; reflexivity]. Qed.
Lemma arms_dispatchable : Forall (λ a, ptyped pool a.1 Opt_ty ∧ dispatchable pool a.1 Opt_ty) arms.
Proof.
  repeat constructor; simpl;
    first [eapply pt_unit|eapply pt_data|eapply dp_unit|eapply dp_data];
    try apply none_ctor; try apply some_ctor; by repeat constructor.
Qed.
Lemma arms_ok : Forall (blk_ok (bsizes start)) [1; 2; 3; 4].
Proof. repeat constructor; vm_compute; first [discriminate|reflexivity]. Qed.
End DispatchSample.

Lemma match_dispatches_first_arm_witness :
  first_match MatchSample.arms MatchSample.some_false = Some 2%nat ∧
  ∃ st', reaches (b_cfg DispatchSample.finish) 0 1 DispatchSample.st 3 st'.
Proof.
  destruct (match_dispatches_first_arm MatchSample.pool
    MatchSample.small 9 DispatchSample.arms MatchSample.Opt_ty [1; 2; 3; 4] 0 DispatchSample.sp
    DispatchSample.start DispatchSample.finish (b_cfg DispatchSample.finish) DispatchSample.st
    MatchSample.some_false) as (i & k & st' & Hi & Hk & Hr).
  - vm_compute. reflexivity.
  - apply DispatchSample.arms_dispatchable.
  - discriminate.
  - reflexivity.
  - apply DispatchSample.arms_ok.
  - apply DispatchSample.start_ready.
  - vm_compute. reflexivity.
  - apply DispatchSample.finish_sealed.
  - apply MatchSample.some_false_typed.
  - repeat constructor.
  - apply DispatchSample.scrutinee_bound.
  - vm_compute in Hi. injection Hi as <-. injection Hk as <-. split; [reflexivity|]. exists st'. exact Hr.
Defined.
