(* ===== verification/CfgDrop.v ===== *)
(** * Drops at a return

    What [emit_drops_for_all_scopes] puts in front of a return: for every live slot, in
    the reverse order of the declarations and from the innermost scope outwards, a load
    and a drop of the value where the type needs one and the end of the slot's storage;
    then a drop of every live parameter, the last one first. *)

From S2P Require Import Prelude Types LayoutTypes InternPool Layout AirPattern Air DropNames Cfg.
From S2P Require Import CfgBuild CfgTheory CfgMono CfgLower CfgSample Usefulness CfgRun.

#[local] Open Scope Z_scope.

Section Drop.
Context {Spur : Type} `{Countable Spur} `{!SpurKey Spur}.
Context (pool : TypeInternPool (Spur := Spur)) (tf : nat).
Notation Builder := (CfgBuilder (Spur := Spur)).
Implicit Types (b : Builder).

(** ** The specification

    [n] is the number the next instruction gets: a drop names the load in front of it. *)
Section Spec.
Context (needs : Ty → bool).
Definition slot_code (n : Z) (live : LiveSlot) : list (CfgInstData Spur) :=
  if needs (ls_ty live)
  then [GLoad (ls_slot live); GDrop n; GStorageDead (ls_slot live)]
  else [GStorageDead (ls_slot live)].
Definition param_code (n : Z) (live : LiveParam) : list (CfgInstData Spur) :=
  [GParam (lp_param_slot live); GDrop n].
Fixpoint numbered {A} (code : Z → A → list (CfgInstData Spur)) (n : Z) (l : list A)
    : list (CfgInstData Spur) :=
  match l with
  | [] => []
  | x :: l => code n x ++ numbered code (n + zlen (code n x)) l
  end.
Definition drop_code (n : Z) (scopes : list (list LiveSlot)) (params : list LiveParam)
    : list (CfgInstData Spur) :=
  let slots := numbered slot_code n (reverse (concat scopes)) in
  slots ++ numbered param_code (n + zlen slots) (reverse params).

Lemma numbered_length {A} (code : Z → A → list (CfgInstData Spur)) (k : nat) n l :
  (∀ n x, (length (code n x) ≤ k)%nat) → (length (numbered code n l) ≤ k * length l)%nat.
Proof.
  intros Hk. revert n. induction l as [|x l IH]; intros n; simpl; [lia|].
  rewrite length_app. specialize (Hk n x). specialize (IH (n + zlen (code n x))). lia.
Qed.
End Spec.

(** ** Straight-line emission *)

(** [b'] is [b] with [code] appended to the current block and nothing else changed. *)
Record appended b (code : list (CfgInstData Spur)) b' : Prop := {
  ap_values : ∃ insts, map ci_data insts = code ∧ c_values (b_cfg b') = c_values (b_cfg b) ++ insts;
  ap_insts : cur_insts b' = cur_insts b ++ seqZ (zlen (c_values (b_cfg b))) (zlen code);
  ap_current : b_current_block b' = b_current_block b;
  ap_blocks : length (c_blocks (b_cfg b')) = length (c_blocks (b_cfg b));
  ap_others k : k ≠ Z.to_nat (b_current_block b) →
    c_blocks (b_cfg b') !! k = c_blocks (b_cfg b) !! k;
  ap_scopes : b_scope_stack b' = b_scope_stack b;
  ap_params : b_live_params b' = b_live_params b;
}.
Lemma appended_refl b : appended b [] b.
Proof. split; try done; [exists []; by rewrite app_nil_r|]. by rewrite app_nil_r. Qed.
Lemma appended_zlen b code b' :
  appended b code b' → zlen (c_values (b_cfg b')) = zlen (c_values (b_cfg b)) + zlen code.
Proof. intros [(insts & <- & ->) _ _ _ _ _ _]. unfold zlen. rewrite length_app, length_map. lia. Qed.
Lemma appended_trans b c1 b1 c2 b2 : appended b c1 b1 → appended b1 c2 b2 → appended b (c1 ++ c2) b2.
Proof.
  intros H1 H2. pose proof (appended_zlen _ _ _ H1) as Hz. destruct H1 as [(i1 & <- & Hv1) I1 C1 B1 O1 S1 P1].
  destruct H2 as [(i2 & <- & Hv2) I2 C2 B2 O2 S2 P2].
  split; try congruence.
  - exists (i1 ++ i2). by rewrite map_app, Hv2, Hv1, (assoc_L (++)).
  - rewrite I2, I1, Hz, <-(assoc_L (++)). f_equal. unfold zlen. rewrite length_app, Nat2Z.inj_add.
    by rewrite seqZ_app by lia.
  - intros k Hk. rewrite O2, O1; [done|done|by rewrite C1].
Qed.

(** Room for [n] more instructions, in a block that exists. *)
Definition roomy b (n : nat) : Prop :=
  (Z.to_nat (b_current_block b) < length (c_blocks (b_cfg b)))%nat ∧
  zlen (c_values (b_cfg b)) + Z.of_nat n ≤ 2 ^ 32.
Lemma roomy_weaken b (n m : nat) : roomy b n → (m ≤ n)%nat → roomy b m.
Proof. intros [] ?. split; [done|lia]. Qed.
(** Less room. *)
Ltac room := eapply roomy_weaken; [eassumption|simpl; lia].
Lemma appended_roomy b code b' n : roomy b (length code + n) → appended b code b' → roomy b' n.
Proof.
  intros [Hc Hr] Ha. split; [rewrite (ap_current _ _ _ Ha), (ap_blocks _ _ _ Ha); done|].
  rewrite (appended_zlen _ _ _ Ha). unfold zlen in *. lia.
Qed.

(** A run that appends [code]. *)
Definition appends {A} (m : BuildM A) b (code : list (CfgInstData Spur)) (a : A) : Prop :=
  ∃ b', m b = Done (a, b') ∧ appended b code b'.
Lemma appends_ret {A} (a : A) b : appends (mret a) b [] a.
Proof. eexists. split; [done|apply appended_refl]. Qed.
Lemma appends_bind {A B} (m : BuildM A) (f : A → BuildM B) b c1 c2 a r :
  appends m b c1 a → (∀ b1, appended b c1 b1 → appends (f a) b1 c2 r) →
  appends (m ≫= f) b (c1 ++ c2) r.
Proof.
  intros (b1 & Hm & Ha) Hf. destruct (Hf b1 Ha) as (b2 & Hk & Ha2). exists b2.
  split; [|by eapply appended_trans]. change ((m b ≫= λ '(a, s), f a s) = Done (r, b2)). by rewrite Hm.
Qed.
Lemma appends_pure {A B} (m : BuildM A) (f : A → BuildM B) b code a r :
  m b = Done (a, b) → appends (f a) b code r → appends (m ≫= f) b code r.
Proof.
  intros Hm (b1 & Hf & Ha). exists b1. split; [|done].
  change ((m b ≫= λ '(a, s), f a s) = Done (r, b1)). by rewrite Hm.
Qed.
Lemma emit_appends d ty sp b :
  roomy b 1 → appends (emit d ty sp) b [d] (zlen (c_values (b_cfg b))).
Proof.
  intros [Hc Hr]. destruct (lookup_lt_is_Some_2 _ _ Hc) as [blk Hblk].
  rewrite <-(len_u32_zlen (c_values (b_cfg b))) by lia.
  eexists. split.
  { unfold emit, getb, gets, cfg_do, add_inst_to_block, cfg_add_inst, update_block, get_block, mbind,
      BuildM_bind, ST_bind, mret. simpl. rewrite Hblk. simpl. reflexivity. }
  split; simpl; try done.
  - by exists [MkCfgInst d ty sp].
  - unfold cur_insts. simpl. rewrite Hblk, list_lookup_insert_eq by done. simpl.
    f_equal. rewrite len_u32_zlen by lia. done.
  - by rewrite length_insert.
  - intros k Hk. by rewrite list_lookup_insert_ne.
Qed.
Lemma emit_unit_appends d sp b : roomy b 1 → appends (emit_unit d sp) b [d] ().
Proof.
  intros Hr. unfold emit_unit. rewrite <-(app_nil_r [d]).
  eapply appends_bind; [by apply emit_appends|]. intros. apply appends_ret.
Qed.

(** A loop appends the code of its elements. *)
Lemma for_each_appends {A} (f : A → BuildM ()) (code : Z → A → list (CfgInstData Spur)) (k : nat) l b :
  (∀ n x, (length (code n x) ≤ k)%nat) →
  (∀ x b, x ∈ l → roomy b k → appends (f x) b (code (zlen (c_values (b_cfg b))) x) ()) →
  roomy b (k * length l) → appends (for_each f l) b (numbered code (zlen (c_values (b_cfg b))) l) ().
Proof.
  intros Hk. revert b. induction l as [|x l IH]; intros b Hf Hr; [apply appends_ret|]. simpl in *.
  eapply appends_bind.
  - apply Hf; [by left|]. eapply roomy_weaken; [exact Hr|lia].
  - intros b1 Ha. rewrite <-(appended_zlen _ _ _ Ha). apply IH.
    + intros y b2 Hy. apply Hf. by right.
    + eapply appended_roomy; [|exact Ha]. eapply roomy_weaken; [exact Hr|].
      specialize (Hk (zlen (c_values (b_cfg b))) x). lia.
Qed.

Section Needs.
Context (needs : Ty → bool).

Lemma slot_appends live sp b :
  type_needs_drop tf pool (ls_ty live) = Done (needs (ls_ty live)) → roomy b 3 →
  appends (emit_drop_for_slot pool tf live sp) b (slot_code needs (zlen (c_values (b_cfg b))) live) ().
Proof.
  intros Hd Hr. unfold emit_drop_for_slot, slot_code, needs_drop.
  eapply appends_pure; [unfold lift_b, lift_st; by rewrite Hd|]. destruct (needs (ls_ty live)).
  - change [?x; ?y; ?z] with ([x; y] ++ [z]). eapply appends_bind.
    + change [?x; ?y] with ([x] ++ [y]). eapply appends_bind; [apply emit_appends; room|].
      intros b2 H2. apply emit_unit_appends. eapply (appended_roomy _ [_]); [|exact H2].
      room.
    + intros b2 H2. apply emit_unit_appends. by eapply (appended_roomy _ [_; _]).
  - eapply appends_pure; [done|]. apply emit_unit_appends. room.
Qed.
Lemma param_appends live sp b :
  roomy b 2 → appends (emit_drop_for_param live sp) b (param_code (zlen (c_values (b_cfg b))) live) ().
Proof.
  intros Hr. unfold emit_drop_for_param, param_code. change [?x; ?y] with ([x] ++ [y]).
  eapply appends_bind; [apply emit_appends; room|].
  intros b2 H2. apply emit_unit_appends. by eapply (appended_roomy _ [_]).
Qed.

(** The loop's order is the reverse of the declarations. *)
Lemma lifo_reverse scopes : lifo scopes = reverse (concat scopes).
Proof.
  unfold lifo. induction scopes as [|s l IH]; [done|].
  rewrite reverse_cons, map_app, concat_app, IH. simpl. by rewrite app_nil_r, reverse_app.
Qed.

Lemma drops_append sp b :
  (∀ ls, ls ∈ concat (b_scope_stack b) → type_needs_drop tf pool (ls_ty ls) = Done (needs (ls_ty ls))) →
  roomy b (3 * length (concat (b_scope_stack b)) + 2 * length (b_live_params b)) →
  appends (emit_drops_for_all_scopes pool tf sp) b
    (drop_code needs (zlen (c_values (b_cfg b))) (b_scope_stack b) (b_live_params b)) ().
Proof.
  intros Hn Hr. unfold emit_drops_for_all_scopes, drop_code. rewrite <-lifo_reverse.
  assert (Hk : ∀ n x, (length (slot_code needs n x) ≤ 3)%nat)
    by (intros n x; unfold slot_code; case_match; simpl; lia).
  eapply appends_pure; [done|]. eapply appends_bind.
  - eapply (for_each_appends _ (slot_code needs) 3); [done| |].
    + intros ls bx Hls Hrx. apply slot_appends; [|done]. apply Hn.
      by rewrite lifo_reverse, elem_of_reverse in Hls.
    + eapply roomy_weaken; [exact Hr|]. rewrite lifo_reverse, length_reverse. lia.
  - intros b1 H1. rewrite <-(appended_zlen _ _ _ H1), <-(ap_params _ _ _ H1).
    eapply appends_pure; [done|].
    apply (for_each_appends _ param_code 2); [done|by intros; apply param_appends|].
    eapply appended_roomy; [|exact H1]. eapply roomy_weaken; [exact Hr|].
    pose proof (numbered_length (slot_code needs) 3 (zlen (c_values (b_cfg b))) (lifo (b_scope_stack b)) Hk).
    rewrite lifo_reverse, !length_reverse, (ap_params _ _ _ H1) in *. lia.
Qed.

(** ** Return *)

(** The part of a return in front of the drops: the value is lowered, and a local or
    parameter it moves out of is no longer live. *)
Context (air : Air (Spur := Spur)) (lower : AirRef → BuildM (Spur := Spur) ExprResult).
Definition return_value (value : option AirRef) : BuildM (Spur := Spur) (option (option CfgValue)) :=
  match value with
  | Some v =>
      result ← lower v;
      if is_diverged result then mret None
      else forget_consumed_value air pool tf v;; mret (Some (er_value result))
  | None => mret (Some None)
  end.

Lemma terminate_appended b code b' n t :
  appended b code b' → roomy b n →
  ∃ b2, terminate t b' = Done ((), b2) ∧ c_values (b_cfg b2) = c_values (b_cfg b') ∧
    CfgRun.code (b_cfg b2) (b_current_block b) = Some (cur_insts b', t) ∧
    ∀ k, k ≠ Z.to_nat (b_current_block b) → c_blocks (b_cfg b2) !! k = c_blocks (b_cfg b) !! k.
Proof.
  intros Ha [Hc _]. rewrite <-(ap_blocks _ _ _ Ha), <-(ap_current _ _ _ Ha) in Hc.
  destruct (lookup_lt_is_Some_2 _ _ Hc) as [blk Hblk]. eexists. split_and!.
  - unfold terminate, getb, gets, cfg_do, set_terminator, update_block, get_block, mbind, BuildM_bind,
      ST_bind. simpl. rewrite Hblk. simpl. reflexivity.
  - done.
  - unfold CfgRun.code, cur_insts. simpl. rewrite Hblk, (ap_current _ _ _ Ha) in *.
    by rewrite list_lookup_insert_eq by done.
  - intros k Hk. simpl. rewrite (ap_current _ _ _ Ha), list_lookup_insert_ne by done.
    by apply (ap_others _ _ _ Ha).
Qed.
(** C15: A return always succeeds once its value is there, and ends its block with exactly
    the cleanup of what is still live: for every live slot of every scope, innermost scope
    and latest declaration first, a load and one drop if its type needs one and the end of
    its storage, then one drop for every live parameter, the last one first; each drop
    names the load in front of it. No other block changes. *)
Theorem return_drops_in_lifo_order sp value val b b1 :
  return_value value b = Done (Some val, b1) →
  (∀ ls, ls ∈ concat (b_scope_stack b1) →
     type_needs_drop tf pool (ls_ty ls) = Done (needs (ls_ty ls))) →
  roomy b1 (3 * length (concat (b_scope_stack b1)) + 2 * length (b_live_params b1)) →
  ∃ b2 insts,
    lower_ret air pool tf lower sp value b = Done (diverged, b2) ∧
    map ci_data insts =
      drop_code needs (zlen (c_values (b_cfg b1))) (b_scope_stack b1) (b_live_params b1) ∧
    c_values (b_cfg b2) = c_values (b_cfg b1) ++ insts ∧
    CfgRun.code (b_cfg b2) (b_current_block b1) =
      Some (cur_insts b1 ++ seqZ (zlen (c_values (b_cfg b1))) (zlen insts), TReturn val) ∧
    ∀ k, k ≠ Z.to_nat (b_current_block b1) → c_blocks (b_cfg b2) !! k = c_blocks (b_cfg b1) !! k.
Proof using.
  intros Hv Hn Hr. destruct (drops_append sp b1 Hn Hr) as (b' & Hd & Ha).
  destruct (terminate_appended _ _ _ _ (TReturn val) Ha Hr) as (b2 & Ht & Hvs & Hc & Ho).
  destruct (ap_values _ _ _ Ha) as (insts & Hi & Hvals). exists b2, insts. split_and!; try done.
  - change (lower_ret air pool tf lower sp value b) with
      (or_diverge (return_value value) (λ val, emit_drops_for_all_scopes pool tf sp;;
         terminate (TReturn val);; mret diverged) b).
    unfold or_diverge, mbind, BuildM_bind, ST_bind. rewrite Hv. simpl. rewrite Hd. simpl. by rewrite Ht.
  - by rewrite Hvs.
  - rewrite Hc, (ap_insts _ _ _ Ha), <-Hi. unfold zlen. by rewrite length_map.
Qed.
End Needs.
End Drop.

(** A return from two scopes: a vector and an integer in the outer one, a vector in the
    inner one, and a vector parameter. *)
Module DropSample.
Import Names CfgSample.
Definition Vec_ty : Ty := new_vec 0.
Definition sp : Span := MkSpan 0 0 0.
Definition start : CfgBuilder (Spur := Name) :=
  set_b_params [MkLiveParam 0 Vec_ty]
    (set_b_scopes [[MkLive 0 Vec_ty sp; MkLive 1 Ty.I32 sp]; [MkLive 2 Vec_ty sp]] early_return_start).
Definition needs (ty : Ty) : bool := bool_decide (ty = Vec_ty).
Definition no_lowering (_ : AirRef) : BuildM (Spur := Name) ExprResult := mret diverged.
End DropSample.

Import CfgSample.
Lemma return_drops_in_lifo_order_witness :
  ∃ b2 (insts : list (CfgInst Names.Name)),
    lower_ret CfgSample.early_return_air new_pool 1 DropSample.no_lowering DropSample.sp None
      DropSample.start = Done (diverged, b2) ∧
    map ci_data insts =
      [GLoad 2; GDrop 0; GStorageDead 2; GStorageDead 1; GLoad 0; GDrop 4; GStorageDead 0;
       GParam 0; GDrop 7] ∧
    CfgRun.code (b_cfg b2) 0 = Some ([0; 1; 2; 3; 4; 5; 6; 7; 8], TReturn None).
Proof.
  destruct (return_drops_in_lifo_order new_pool 1 DropSample.needs CfgSample.early_return_air
    DropSample.no_lowering DropSample.sp None None DropSample.start DropSample.start)
    as (b2 & insts & Hl & Hi & _ & Hc & _).
  - reflexivity.
  - apply list.Forall_forall. repeat constructor.
  - split; vm_compute; [lia|discriminate].
  - exists b2, insts. split_and!; [exact Hl|rewrite Hi; reflexivity|].
    change (b_current_block DropSample.start) with 0 in Hc. rewrite Hc.
    replace (zlen insts) with 9; [reflexivity|].
    unfold zlen. rewrite <-(length_map ci_data insts), Hi. reflexivity.
Defined.
