(* ===== verification/CfgExamples.v ===== *)
(** * Divergence inside an expression: what the lowering does

    The lowering marks an expression that transfers control away as [Diverged]. The
    functions below are small programs in which a part of an expression diverges; the
    graphs are computed from the model and compared with what the construct should do. *)

From S2P Require Import Prelude Types LayoutTypes InternPool Layout AirPattern Air ParamArena.
From S2P Require Import DropNames Cfg CfgBuild CfgTheory CfgSample Usefulness CfgRun.

#[local] Open Scope Z_scope.

Module CfgExamples.
Import Names CfgSample.
Definition Vec_ty : Ty := new_vec 0.

(** The code of block [k] of a dump. *)
Definition block_of (g : outcome (list (list (CfgValue * option (CfgInstData Name)) * Terminator * list BlockId)))
    (k : nat) : option (list (option (CfgInstData Name)) * Terminator) :=
  match g with
  | Done blocks => (λ b, (map snd b.1.1, b.1.2)) <$> blocks !! k
  | _ => None
  end.

(** [while c { let v = make(); if c { continue; () } }]. *)
Definition leaked_scope_air : Air (Spur := Name) := mk_air
  [(IParam 0, Ty.BOOL); (IStorageLive 0, Vec_ty); (ICall x 0 0, Vec_ty); (IAlloc 0 2, Ty.UNIT);
   (IBlock 0 1 3, Ty.UNIT); (IParam 0, Ty.BOOL); (IContinue, Ty.NEVER); (IUnitConst, Ty.UNIT);
   (IBlock 1 1 7, Ty.UNIT); (IBranch 5 8 None, Ty.UNIT); (IUnitConst, Ty.UNIT);
   (IBlock 2 2 10, Ty.UNIT); (ILoop 0 11, Ty.UNIT); (IUnitConst, Ty.UNIT); (IBlock 4 1 13, Ty.UNIT);
   (IRet (Some 14), Ty.NEVER)] [1; 6; 4; 9; 12] Ty.UNIT.

(** A statement that diverges leaves the scope of its block on the stack, and the
    enclosing block pops that one instead of its own. Here the path through the body that
    does not [continue] (blocks 2, 5, 6) jumps back to the header without dropping [v],
    and the exit block 3, reached from the entry through the header without entering the
    body, drops the slot of [v], which was never initialised. *)
Theorem diverging_statement_leaks_scope :
  let g := graph_of 1 leaked_scope_air in
  block_of g 0 = Some ([], TGoto 1 0 0) ∧
  block_of g 1 = Some ([Some (GParam 0)], TBranch 0 2 0 0 3 0 0) ∧
  block_of g 2 = Some ([Some (GStorageLive 0); Some (GCall x 0 0); Some (GAlloc 0 2); Some (GParam 0)],
                       TBranch 4 4 0 0 5 0 0) ∧
  block_of g 5 = Some ([Some (GConst 0)], TGoto 6 0 0) ∧
  block_of g 6 = Some ([Some (GConst 0)], TGoto 1 0 0) ∧
  block_of g 3 = Some ([Some (GConst 0); Some (GConst 0); Some (GLoad 0); Some (GDrop 12);
                        Some (GStorageDead 0)], TReturn (Some 11)).
Proof. split_and!; by vm_compute. Qed.

(** [c && return;]. *)
Definition and_return_air : Air (Spur := Name) := mk_air
  [(IParam 0, Ty.BOOL); (IRet None, Ty.NEVER); (IBin And 0 1, Ty.BOOL);
   (IUnitConst, Ty.UNIT); (IBlock 0 1 3, Ty.UNIT); (IRet (Some 4), Ty.NEVER)] [2] Ty.UNIT.

(** When the right operand of [&&] diverges the whole expression is taken to diverge: the
    join block, which the branch enters when the left operand is [false], gets no
    terminator, and the rest of the function is not lowered. *)
Theorem short_circuit_join_unterminated :
  let g := graph_of 0 and_return_air in
  block_of g 0 = Some ([Some (GParam 0); Some (GBoolConst false)], TBranch 0 1 0 0 2 0 1) ∧
  block_of g 1 = Some ([], TReturn None) ∧ block_of g 2 = Some ([], TNone).
Proof. split_and!; by vm_compute. Qed.

(** [let x = return 5; 7]. *)
Definition alloc_return_air : Air (Spur := Name) := mk_air
  [(IStorageLive 0, Ty.I32); (IConst 5, Ty.I32); (IRet (Some 1), Ty.NEVER); (IAlloc 0 2, Ty.UNIT);
   (IBlock 0 1 3, Ty.UNIT); (IConst 7, Ty.I32); (IBlock 1 1 5, Ty.I32); (IRet (Some 6), Ty.NEVER)]
  [0; 4] Ty.I32.

(** The initialiser of a [let] may diverge; the lowering goes on in the same block and
    the second [return] overwrites the terminator of the first: the function returns 7. *)
Theorem diverging_initialiser_ignored :
  block_of (graph_of 1 alloc_return_air) 0 =
    Some ([Some (GStorageLive 0); Some (GConst 5); Some (GStorageDead 0); Some (GConst 0);
           Some (GAlloc 0 3); Some (GConst 7); Some (GStorageDead 0)], TReturn (Some 5)).
Proof. by vm_compute. Qed.

(** [while c { while (return) {} ... }]: the loop stack after a loop whose condition
    diverges. *)
Definition cond_return_air : Air (Spur := Name) := mk_air
  [(IRet None, Ty.NEVER); (IUnitConst, Ty.UNIT); (ILoop 0 1, Ty.UNIT)] [] Ty.UNIT.
Definition loops_after (air : Air (Spur := Name)) (r : AirRef) : option nat :=
  match lower_inst air new_pool no_names 10 20 r
          (set_b_cache (replicate (length (instructions air)) None) early_return_start) with
  | Done (_, b) => Some (length (b_loop_stack b))
  | _ => None
  end.
(** A loop whose condition diverges stays on the loop stack. *)
Theorem diverging_condition_leaks_loop : loops_after cond_return_air 2 = Some 1%nat.
Proof. by vm_compute. Qed.

(** The blocks of a match on a value of struct type with the arms [arms]. *)
Definition struct_match (pool : TypeInternPool (Spur := Name)) (ty : Ty) (arms : list (AirPattern Name)) :=
  match (entry ← cfg_do new_block;
         set_current entry;;
         v ← emit (GParam 0) ty (MkSpan 0 0 0);
         blocks ← mapM (λ _, cfg_do new_block) arms;
         if needs_cascading (map (λ q, (q, 0)) arms)
         then emit_cascade pool (MkSpan 0 0 0) v ty arms blocks
         else emit_switch v arms blocks)
        (initial_builder (MkFunction "f" (mk_air [] [] Ty.UNIT) 0 1 [] [ty] false) []) with
  | Done (_, b) => Done (dump (b_cfg b))
  | Panic => Panic
  | NoFuel => NoFuel
  end.
Definition unit_struct : StructDef :=
  MkStructDef "S" [MkStructField "a" Ty.BOOL true] Affine false Sync None false false 0 false.
Definition struct_pool : TypeInternPool (Spur := Name) :=
  set_types (λ _, [TStruct (MkStructData x unit_struct)]) new_pool.

(** [match s { S { .. } => .. }]: a pattern that names no field emits no test and no jump,
    so the test block 2 has no terminator. *)
Theorem fieldless_pattern_unterminated :
  block_of (struct_match struct_pool (new_struct 0) [PStruct 0 []]) 2 = Some ([], TNone).
Proof. by vm_compute. Qed.

(** [match s { _ => .. }]: the match becomes a switch on a value of struct type, which has
    no key to switch on. *)
Theorem wildcard_match_switches_on_struct :
  block_of (struct_match struct_pool (new_struct 0) [Wildcard]) 0 =
    Some ([Some (GParam 0)], TSwitch 0 0 0 1) ∧
  ∀ vs, switch_key (VStruct vs) = None.
Proof. split; [by vm_compute|done]. Qed.
End CfgExamples.
