(* ===== verification/DropGlue.v ===== *)
(** * Synthesis of drop functions

    Models [crates/gruel-compiler/src/drop_glue.rs]: for every struct, enum and array type
    that needs a drop, an AIR function that calls the destructor and drops the parts.
    [ThreadedRodeo::get_or_intern] (a third-party crate) is the parameter
    [get_or_intern]. *)

From stdpp Require Import pretty.
From S2P Require Import Prelude Types LayoutTypes InternPool Layout AirPattern Air ParamArena DropNames.
From S2P Require Import Cfg CfgBuild.

#[local] Open Scope Z_scope.

Section DropGlue.
Context {Spur : Type} `{Countable Spur} `{!SpurKey Spur}.
Context (get_or_intern : string → Spur) (fuel : nat) (type_pool : TypeInternPool (Spur := Spur)).
Notation Air := (Air (Spur := Spur)).
Notation AirM := (ST Air).
Notation AirInstData := (AirInstData (Spur := Spur)).
Notation AnalyzedFunction := (AnalyzedFunction (Spur := Spur)).

(** The synthetic span. *)
Definition glue_span : Span := MkSpan 0 0 0.
Definition air_add_inst (data : AirInstData) (ty : Ty) : AirM AirRef :=
  λ a, Done (add_inst a (MkInst data ty glue_span)).
Definition air_add_extra (data : list Z) : AirM Z := λ a, add_extra a data.

Definition unit_const : AirM AirRef := air_add_inst IUnitConst Ty.UNIT.
Definition block_or_value (statements : list AirRef) (value : AirRef) : AirM AirRef :=
  match statements with
  | [] => mret value
  | _ =>
      stmts_start ← air_add_extra statements;
      air_add_inst (IBlock stmts_start (len_u32 statements) value) Ty.UNIT
  end.

(** The call of the user's destructor, if there is one. *)
Definition call_destructor (destructor : option string) (param_ref : AirRef) : AirM (list AirRef) :=
  match destructor with
  | Some destructor_name =>
      args_start ← air_add_extra [param_ref; mode_as_u32 ArgNormal];
      call_ref ← air_add_inst (ICall (get_or_intern destructor_name) args_start 1) Ty.UNIT;
      mret [call_ref]
  | None => mret []
  end.
(** Reads a part of the value and drops it, if its type needs that. *)
Definition drop_part (data : AirInstData) (ty : Ty) : AirM (list AirRef) :=
  needs ← lift_st (type_needs_drop fuel type_pool ty);
  if (needs : bool) then
    field_val ← air_add_inst data ty;
    drop_ref ← air_add_inst (IDrop field_val) Ty.UNIT;
    mret [drop_ref]
  else mret [].
(** [for (i, x) in items.iter().enumerate()], pushing statements. *)
Fixpoint push_parts {A} (f : Z → A → AirM (list AirRef)) (i : nat) (items : list A) (stmts : list AirRef)
    : AirM (list AirRef) :=
  match items with
  | [] => mret stmts
  | x :: items => new ← f (wrap 32 (Z.of_nat i)) x; push_parts f (S i) items (stmts ++ new)
  end.
Definition finish (return_value : AirRef) : AirM () :=
  air_add_inst (IRet (Some return_value)) Ty.UNIT;; mret ().
(** The function around an AIR body. *)
Definition glue_function (name : string) (body : AirM ()) (num_param_slots : Z) (slot_ty : Ty)
    : outcome AnalyzedFunction :=
  '(_, air) ← body (new_air Ty.UNIT);
  mret (MkFunction name air 0 num_param_slots (replicate (Z.to_nat num_param_slots) AirNormal)
          (replicate (Z.to_nat num_param_slots) slot_ty) true).

(** ** Structs *)
Definition struct_body (struct_def : StructDef) (struct_id : Z) : AirM () :=
  param_ref ← air_add_inst (IParam 0) (new_struct struct_id);
  stmts ← call_destructor (sd_destructor struct_def) param_ref;
  stmts ← push_parts (λ field_idx field, drop_part (IFieldGet param_ref struct_id field_idx) (sf_ty field))
            0 (sd_fields struct_def) stmts;
  unit ← unit_const;
  return_value ← block_or_value stmts unit;
  finish return_value.
Definition create_struct_drop_glue_function (struct_def : StructDef) (struct_id : Z) : outcome AnalyzedFunction :=
  num_param_slots ← abi_slot_count fuel type_pool (new_struct struct_id);
  glue_function ("__gruel_drop_" +:+ sd_name struct_def)%string (struct_body struct_def struct_id)
    num_param_slots (new_struct struct_id).

(** ** Arrays *)
Definition drop_element (element_type : Ty) (element_slot_count elem_idx : Z) : AirM (list AirRef) :=
  let drop_param (current_param_slot : Z) (ty : Ty) : AirM (list AirRef) :=
    param_ref ← air_add_inst (IParam current_param_slot) ty;
    drop_ref ← air_add_inst (IDrop param_ref) Ty.UNIT;
    mret [drop_ref] in
  current_param_slot ← lift_st (checked_mul 32 (wrap 32 elem_idx) element_slot_count);
  k ← lift_st (kind element_type);
  match k with
  | TypeKind.Struct struct_id => drop_param current_param_slot (new_struct struct_id)
  | TypeKind.Array nested_array_id => drop_param current_param_slot (new_array nested_array_id)
  | _ => mret []
  end.
Definition array_body (element_type : Ty) (element_slot_count length : Z) : AirM () :=
  stmts ← push_parts (λ _ elem_idx, drop_element element_type element_slot_count elem_idx)
            0 (seqZ 0 length) [];
  unit ← unit_const;
  return_value ← block_or_value stmts unit;
  finish return_value.
Definition create_array_drop_glue_function (array_id : Z) : outcome AnalyzedFunction :=
  name ← drop_fn_name fuel type_pool (new_array array_id);
  name ← expect name;
  '(element_type, length) ← array_def type_pool array_id;
  element_slot_count ← abi_slot_count fuel type_pool element_type;
  num_param_slots ← checked_mul 32 element_slot_count (wrap 32 length);
  glue_function name (array_body element_type element_slot_count length) num_param_slots element_type.

(** ** Enums *)
(** One arm: the drops of a variant's fields, encoded after the arms before. *)
Definition variant_arm (param_ref enum_id variant_idx : Z) (fields : list Ty) (arms_data : list Z)
    : AirM (list Z) :=
  stmts ← push_parts (λ field_idx field_ty,
            drop_part (IEnumPayloadGet param_ref variant_idx field_idx) field_ty) 0 fields [];
  unit ← unit_const;
  body ← block_or_value stmts unit;
  mret (encode (PEnumVariant enum_id variant_idx) body arms_data).
Fixpoint variant_arms (param_ref enum_id : Z) (i : nat) (variants : list EnumVariantDef) (arms_data : list Z)
    : AirM (list Z) :=
  match variants with
  | [] => mret arms_data
  | v :: variants =>
      arms_data ← variant_arm param_ref enum_id (wrap 32 (Z.of_nat i)) (ev_fields v) arms_data;
      variant_arms param_ref enum_id (S i) variants arms_data
  end.
Definition enum_body (enum_def : EnumDef) (enum_id : Z) : AirM () :=
  param_ref ← air_add_inst (IParam 0) (new_enum enum_id);
  pre_match_stmts ← call_destructor (ed_destructor enum_def) param_ref;
  arms_data ← variant_arms param_ref enum_id 0 (ed_variants enum_def) [];
  arms_start ← air_add_extra arms_data;
  match_result ← air_add_inst (IMatch param_ref arms_start (len_u32 (ed_variants enum_def))) Ty.UNIT;
  match pre_match_stmts with
  | [] => finish match_result
  | _ =>
      unit ← unit_const;
      return_value ← block_or_value (pre_match_stmts ++ [match_result]) unit;
      finish return_value
  end.
Definition create_enum_drop_glue_function (enum_id : Z) : outcome AnalyzedFunction :=
  d ← enum_def type_pool enum_id;
  glue_function ("__gruel_drop_" +:+ ed_name d)%string (enum_body d enum_id) 1 (new_enum enum_id).

(** ** All types of the pool *)
Definition glue_step (create : Z → outcome (list AnalyzedFunction)) (new_type : Z → Ty)
    (fns : list AnalyzedFunction) (id : Z) : outcome (list AnalyzedFunction) :=
  needs ← type_needs_drop fuel type_pool (new_type id);
  if (needs : bool) then new ← create id; mret (fns ++ new) else mret fns.
Definition struct_glue (struct_id : Z) : outcome (list AnalyzedFunction) :=
  d ← struct_def type_pool struct_id;
  if sd_is_builtin d && bool_decide (is_Some (sd_destructor d)) then mret []
  else f ← create_struct_drop_glue_function d struct_id; mret [f].
Definition synthesize_drop_glue : outcome (list AnalyzedFunction) :=
  struct_ids ← all_struct_ids type_pool;
  fns ← foldM (glue_step struct_glue new_struct) [] struct_ids;
  enum_ids ← all_enum_ids type_pool;
  fns ← foldM (glue_step (λ id, f ← create_enum_drop_glue_function id; mret [f]) new_enum) fns enum_ids;
  foldM (glue_step (λ id, f ← create_array_drop_glue_function id; mret [f]) new_array) fns
    (all_array_ids type_pool).
End DropGlue.
