(* ===== verification/DropGlueThm.v ===== *)
(** * What drop functions do

    A run of an AIR function, for the instructions that drop functions use, and the
    sequence of calls and drops it performs. *)

From stdpp Require Import pretty.
From S2P Require Import Prelude Types LayoutTypes InternPool Layout AirPattern Air ParamArena DropNames.
From S2P Require Import Cfg CfgBuild DropGlue.

#[local] Open Scope Z_scope.

(** ** Runs *)
(** Values by the way they are reached from the parameters. *)
Inductive Path : Set :=
  | PUnit
  | PParam (slot : Z)
  | PField (base : Path) (field_index : Z)
  | PPayload (base : Path) (variant_index field_index : Z).

Section Run.
Context {Spur : Type} `{!SpurKey Spur}.
Notation Air := (Air (Spur := Spur)).
(** What a run does: calls of unit functions, and drops. *)
Inductive Event : Type :=
  | Called (name : Spur) (args : list Path)
  | Dropped (ty : Ty) (value : Path).

(** [variant_of] is the variant each enum value holds; reading the payload of another
    variant is stuck. *)
Context (variant_of : Path → Z).
Definition matches_arm (v : Path) (p : AirPattern Spur) : bool :=
  match p with
  | PEnumVariant _ i | PEnumUnitVariant _ i => i =? variant_of v
  | Wildcard => true
  | _ => false
  end.
Section Step.
Context (run : AirRef → outcome (Path * list Event)).
Definition run_all (refs : list AirRef) : outcome (list Path * list Event) :=
  foldM (λ acc r, '(v, ev) ← run r; mret (acc.1 ++ [v], acc.2 ++ ev)) ([], []) refs.
Definition run_inst (a : Air) (inst : AirInst (Spur := Spur)) : outcome (Path * list Event) :=
  match i_data inst with
  | IUnitConst => mret (PUnit, [])
  | IParam slot => mret (PParam slot, [])
  | IFieldGet base _ i => '(v, ev) ← run base; mret (PField v i, ev)
  | IEnumPayloadGet base i j =>
      '(v, ev) ← run base; if variant_of v =? i then mret (PPayload v i j, ev) else Panic
  | IDrop x =>
      '(v, ev) ← run x; x_inst ← get_inst a x; mret (PUnit, ev ++ [Dropped (i_ty x_inst) v])
  | ICall name s n =>
      args ← get_call_args a s n; '(vs, ev) ← run_all (map ca_value args);
      mret (PUnit, ev ++ [Called name vs])
  | IBlock s n value =>
      stmts ← get_air_refs a s n; '(_, ev) ← run_all stmts;
      '(v, ev') ← run value; mret (v, ev ++ ev')
  | IMatch scrutinee s n =>
      '(v, ev) ← run scrutinee; arms ← get_match_arms a s n;
      '(_, body) ← expect (snd <$> list_find (λ arm, matches_arm v arm.1) arms);
      '(w, ev') ← run body; mret (w, ev ++ ev')
  | IRet (Some value) => run value
  | _ => Panic
  end.
End Step.
Fixpoint run_air (fuel : nat) (a : Air) (r : AirRef) : outcome (Path * list Event) :=
  match fuel with
  | O => NoFuel
  | S fuel => inst ← get_inst a r; run_inst (run_air fuel a) a inst
  end.
(** The root of a function is its last instruction. *)
Definition run_function (fuel : nat) (f : AnalyzedFunction (Spur := Spur)) : outcome (Path * list Event) :=
  run_air fuel (fn_air f) (Z.of_nat (length (instructions (fn_air f))) - 1).

(** ** Runs and growing AIR *)
Definition grows (a a' : Air) : Prop :=
  instructions a `prefix_of` instructions a' ∧ extra a `prefix_of` extra a'.
#[local] Instance grows_preorder : PreOrder grows.
Proof. split; [by intros a|]. intros a b c [] []. split; by etrans. Qed.

(** [r] runs in [a], and in whatever [a] grows to, with [d] units of fuel or more. *)
Definition runs (d : nat) (a : Air) (r : AirRef) (v : Path) (ev : list Event) : Prop :=
  ∀ a' n, grows a a' → run_air (d + n) a' r = Done (v, ev).
Lemma runs_grows d a a' r v ev : runs d a r v ev → grows a a' → runs d a' r v ev.
Proof. intros Hr Hg a'' n Hg'. apply Hr. by transitivity a'. Qed.
Lemma runs_more d d' a r v ev : runs d a r v ev → (d ≤ d')%nat → runs d' a r v ev.
Proof. intros Hr Hle a' n Hg. replace (d' + n)%nat with (d + (d' - d + n))%nat by lia. by apply Hr. Qed.

(** The instruction at [r]. *)
Definition holds (a : Air) (r : AirRef) (inst : AirInst (Spur := Spur)) : Prop :=
  ∀ a', grows a a' → get_inst a' r = Done inst.
Lemma runs_inst d a r inst v ev :
  holds a r inst → (∀ a' n, grows a a' → run_inst (run_air (d + n) a') a' inst = Done (v, ev)) →
  runs (S d) a r v ev.
Proof. intros Hi Hr a' n Hg. simpl. rewrite (Hi a' Hg). simpl. by apply Hr. Qed.
Lemma run_all_Done (run : AirRef → outcome (Path * list Event)) refs vs evs :
  Forall2 (λ r x, run r = Done x) refs (zip vs evs) → length vs = length evs →
  run_all run refs = Done (vs, concat evs).
Proof.
  unfold run_all. intros Hr Hl.
  assert (Hgen : ∀ acc, foldM (λ acc r, '(v, ev) ← run r; mret (acc.1 ++ [v], acc.2 ++ ev)) acc refs =
    Done (acc.1 ++ vs, acc.2 ++ concat evs)); [|by apply (Hgen ([], []))].
  revert vs evs Hr Hl. induction refs as [|r refs IH]; intros vs evs Hr Hl acc; simpl.
  - apply Forall2_nil_inv_l in Hr. destruct vs, evs; simplify_eq/=. rewrite !app_nil_r. by destruct acc.
  - destruct vs as [|v vs], evs as [|ev evs]; simplify_eq/=; [by inversion Hr|].
    apply Forall2_cons_1 in Hr as [Hx Hr]. rewrite Hx. simpl. rewrite (IH vs evs Hr Hl). simpl.
    by rewrite <-!(assoc_L (++)).
Qed.

(** ** The emitters *)
Definition small (a : Air) : Prop := Z.of_nat (length (instructions a)) < 2 ^ 32.
Lemma small_grows a a' : small a' → grows a a' → small a.
Proof. unfold small. intros Hs [Hp%prefix_length _]. lia. Qed.
Lemma add_inst_holds data ty a r a' :
  air_add_inst data ty a = Done (r, a') → small a' →
  grows a a' ∧ holds a' r (MkInst data ty glue_span).
Proof.
  unfold air_add_inst, add_inst. intros [= <- <-] Hs. unfold small in Hs. simpl in Hs. rewrite length_app in Hs.
  split; [split; [by apply prefix_app_r|done]|]. intros a' [[k Hk] _]. unfold get_inst, index.
  rewrite len_u32_small by lia. rewrite Hk, Nat2Z.id. simpl. rewrite <-(assoc_L (++)). apply expect_Done. by apply list_lookup_middle.
Qed.
Lemma add_extra_reads data a s a' :
  air_add_extra data a = Done (s, a') →
  grows a a' ∧ (small a → small a') ∧
  ∀ a2, grows a' a2 → ∃ rest, extra a2 = extra a ++ data ++ rest ∧ s = Z.of_nat (length (extra a)) ∧
    Z.of_nat (length data) < 2 ^ 32.
Proof.
  unfold air_add_extra, add_extra. case_decide as Hd; [|done]. intros [= <- <-].
  split; [split; [done|by apply prefix_app_r]|]. split; [done|].
  intros a2 [_ [rest Hr]]. exists rest. rewrite len_u32_small by lia. simpl in Hr.
  rewrite Hr, <-(assoc_L (++)). split_and!; [done|done|lia].
Qed.
Lemma slice_middle (l1 l2 l3 : list Z) :
  slice_range (l1 ++ l2 ++ l3) (Z.of_nat (length l1)) (Z.of_nat (length l1) + Z.of_nat (length l2)) = Done l2.
Proof. rewrite <-Nat2Z.inj_add. apply slice_range_app. Qed.

(** Statements with what they do. *)
Definition acts (d : nat) (a : Air) (stmts : list AirRef) (evs : list (list Event)) : Prop :=
  Forall2 (λ r ev, runs d a r PUnit ev) stmts evs.
Lemma acts_grows d a a' stmts evs : acts d a stmts evs → grows a a' → acts d a' stmts evs.
Proof. intros Ha Hg. eapply Forall2_impl; [|exact Ha]. intros r ev Hr. exact (runs_grows _ _ _ _ _ _ Hr Hg). Qed.
Lemma acts_more d d' a stmts evs : acts d a stmts evs → (d ≤ d')%nat → acts d' a stmts evs.
Proof. intros Ha Hg. eapply Forall2_impl; [|exact Ha]. intros r ev Hr. exact (runs_more _ _ _ _ _ _ Hr Hg). Qed.
Lemma acts_run d a a' n stmts evs :
  acts d a stmts evs → grows a a' →
  run_all (run_air (d + n) a') stmts = Done (map (λ _, PUnit) stmts, concat evs).
Proof.
  intros Ha Hg. apply run_all_Done; [|rewrite length_map; by eapply Forall2_length].
  induction Ha as [|r ev stmts evs Hr Ha IH]; simpl; constructor; [by apply Hr|done].
Qed.
Lemma block_runs d stmts evs value a r a' :
  block_or_value stmts value a = Done (r, a') → small a' → acts d a stmts evs → runs d a value PUnit [] →
  grows a a' ∧ runs (S d) a' r PUnit (concat evs).
Proof.
  intros Hb Hs Ha Hv. destruct stmts as [|s0 stmts].
  { apply Forall2_nil_inv_l in Ha as ->. injection Hb as <- <-. split; [done|]. eapply runs_more; [done|lia]. }
  apply bind_Done in Hb as ([start a1] & He & Hi). destruct (add_extra_reads _ _ _ _ He) as (Hg & _ & Hr).
  destruct (add_inst_holds _ _ _ _ _ Hi Hs) as [Hg1 Hh]. split; [by transitivity a1|].
  eapply runs_inst; [exact Hh|]. intros a2 n Hg2. unfold run_inst. cbn [i_data].
  destruct (Hr a2) as (rest & Hx & -> & Hl); [by transitivity a'|].
  assert (Hrefs : get_air_refs a2 (Z.of_nat (length (extra a))) (len_u32 (s0 :: stmts)) = Done (s0 :: stmts)).
  { unfold get_air_refs, get_extra. rewrite len_u32_small, Hx by done. apply slice_middle. }
  rewrite Hrefs, bind_ret. assert (Hga : grows a a2) by (transitivity a1; [done|by transitivity a']).
  rewrite (acts_run _ _ _ n _ _ Ha Hga), bind_ret. rewrite (Hv a2 n Hga). simpl. by rewrite app_nil_r.
Qed.
End Run.

(** ** Emitters only add *)
Section Growing.
Context {Spur : Type} `{Countable Spur} `{!SpurKey Spur}.
Notation AirM := (ST (Air (Spur := Spur))).
#[local] Existing Instance grows_preorder.
Definition growing {A} (m : AirM A) : Prop := ∀ a x a', m a = Done (x, a') → grows a a'.
Lemma growing_ret {A} (x : A) : growing (mret x).
Proof. by intros a y a' [= <- <-]. Qed.
Lemma growing_lift {A} (m : outcome A) : growing (lift_st m).
Proof. intros a x a' (y & _ & [= <- <-])%bind_Done. done. Qed.
Lemma growing_bind {A B} (m : AirM A) (f : A → AirM B) :
  growing m → (∀ x, growing (f x)) → growing (m ≫= f).
Proof. intros Hm Hf a x a' ([y a1] & H1%Hm & H2%Hf)%bind_Done. by transitivity a1. Qed.
Lemma growing_add_inst data ty : growing (air_add_inst data ty).
Proof. intros a x a' [= <- <-]. split; [by apply prefix_app_r|done]. Qed.
Lemma growing_add_extra data : growing (air_add_extra data).
Proof. intros a x a' Hx. by apply add_extra_reads in Hx as (? & _). Qed.
Ltac solve_growing :=
  repeat first [ apply growing_ret | apply growing_lift | apply growing_add_inst | apply growing_add_extra
               | apply growing_bind; [|intros ?] | case_match ].
Lemma growing_block stmts value : growing (block_or_value (Spur := Spur) stmts value).
Proof. unfold block_or_value. solve_growing. Qed.
Lemma growing_destructor goi dtor param : growing (call_destructor (Spur := Spur) goi dtor param).
Proof. unfold call_destructor. solve_growing. Qed.
Lemma growing_part fuel pool data ty : growing (drop_part (Spur := Spur) fuel pool data ty).
Proof. unfold drop_part. solve_growing. Qed.
Lemma growing_element ty slots i : growing (drop_element (Spur := Spur) ty slots i).
Proof. unfold drop_element. solve_growing. Qed.
Lemma growing_parts {A} (f : Z → A → AirM (list AirRef)) items i stmts :
  (∀ i x, growing (f i x)) → growing (push_parts f i items stmts).
Proof. intros Hf. revert i stmts. induction items; intros i stmts; simpl; solve_growing; auto. Qed.
Lemma growing_unit : growing (unit_const (Spur := Spur)).
Proof. apply growing_add_inst. Qed.
Lemma growing_variant_arm fuel pool param id i fields data :
  growing (variant_arm (Spur := Spur) fuel pool param id i fields data).
Proof.
  unfold variant_arm. apply growing_bind; [apply growing_parts; intros; apply growing_part|intros].
  apply growing_bind; [apply growing_unit|intros]. apply growing_bind; [apply growing_block|intros]. apply growing_ret.
Qed.
Lemma growing_variant_arms fuel pool param id i variants data :
  growing (variant_arms (Spur := Spur) fuel pool param id i variants data).
Proof.
  revert i data. induction variants as [|v variants IH]; intros i data; simpl; [apply growing_ret|].
  apply growing_bind; [apply growing_variant_arm|intros; apply IH].
Qed.
End Growing.
Create HintDb growing discriminated.
#[export] Hint Resolve growing_ret growing_lift growing_add_inst growing_add_extra growing_block growing_destructor
  growing_part growing_element growing_unit growing_variant_arm growing_variant_arms : growing.

(** ** What the emitted statements do *)
Section Acts.
Context {Spur : Type} `{Countable Spur} `{!SpurKey Spur}.
Context (variant_of : Path → Z) (goi : string → Spur) (fuel : nat) (pool : TypeInternPool (Spur := Spur)).
Notation Air := (Air (Spur := Spur)).
Notation AirM := (ST Air).
Notation runs := (runs (Spur := Spur) variant_of).
Notation acts := (acts (Spur := Spur) variant_of).
Notation Event := (Event (Spur := Spur)).
#[local] Existing Instance grows_preorder.

(** The answer of [type_needs_drop], where it returned. *)
Definition needs (ty : Ty) : bool := match type_needs_drop fuel pool ty with Done b => b | _ => false end.
Definition destructor_events (dtor : option string) (v : Path) : list Event :=
  match dtor with Some n => [Called (goi n) [v]] | None => [] end.
Definition part_events (ty : Ty) (v : Path) : list Event := if needs ty then [Dropped ty v] else [].

Lemma param_runs a r slot ty : holds a r (MkInst (IParam slot) ty glue_span) → runs 1 a r (PParam slot) [].
Proof. intros Hh. by apply (runs_inst _ 0 _ _ _ _ _ Hh). Qed.
Lemma unit_runs a r a' :
  unit_const (Spur := Spur) a = Done (r, a') → small a' → runs 1 a' r PUnit [].
Proof. intros Hu Hs. destruct (add_inst_holds _ _ _ _ _ Hu Hs) as [_ Hh]. by apply (runs_inst _ 0 _ _ _ _ _ Hh). Qed.
(** Dropping the value at [x]. *)
Lemma drop_runs d a r x inst v ty' :
  holds a r (MkInst (IDrop x) ty' glue_span) → holds a x inst → runs d a x v [] →
  runs (S d) a r PUnit [Dropped (i_ty inst) v].
Proof.
  intros Hh Hx Hv. eapply runs_inst; [exact Hh|]. intros a' n Hg. unfold run_inst. cbn [i_data]. rewrite (Hv a' n Hg). simpl.
  by rewrite (Hx a' Hg).
Qed.
Lemma acts_one d a r ev : runs d a r PUnit ev → acts d a [r] [ev].
Proof. by repeat constructor. Qed.
Lemma acts_none d a : ∃ evs, acts d a [] evs ∧ concat evs = [].
Proof. exists []. split; [constructor|done]. Qed.
Lemma destructor_acts dtor param v a stmts a' :
  call_destructor goi dtor param a = Done (stmts, a') → small a' → runs 1 a param v [] →
  ∃ evs, acts 2 a' stmts evs ∧ concat evs = destructor_events dtor v.
Proof.
  intros Hc Hs Hp. destruct dtor as [n|]; [|injection Hc as <- <-; apply acts_none].
  apply bind_Done in Hc as ([s a1] & Hx & ([r a2] & Hi & [= <- <-])%bind_Done).
  destruct (add_extra_reads _ _ _ _ Hx) as (Hg & _ & Hr). destruct (add_inst_holds _ _ _ _ _ Hi Hs) as [Hg1 Hh].
  exists [[Called (goi n) [v]]]. split; [|done]. apply acts_one. eapply runs_inst; [exact Hh|].
  intros a3 k Hg2. unfold run_inst. cbn [i_data].
  destruct (Hr a3) as (rest & He & -> & _); [by transitivity a2|].
  assert (Hargs : get_call_args a3 (Z.of_nat (length (extra a))) 1 = Done [MkCallArg param ArgNormal]).
  { unfold get_call_args, get_extra. change (checked_mul 32 1 2) with (Done 2). rewrite bind_ret, He.
    pose proof (slice_middle (extra a) [param; mode_as_u32 ArgNormal] rest) as Hsl. simpl length in Hsl.
    change (Z.of_nat 2) with 2 in Hsl. by rewrite Hsl. }
  rewrite Hargs, bind_ret. unfold run_all. cbn [map ca_value foldM].
  rewrite (Hp a3 k); [done|]. transitivity a1; [done|by transitivity a2].
Qed.
Lemma part_acts d data ty v a stmts a' :
  drop_part fuel pool data ty a = Done (stmts, a') → small a' →
  (∀ a1 r, grows a a1 → holds a1 r (MkInst data ty glue_span) → runs d a1 r v []) →
  ∃ evs, acts (S d) a' stmts evs ∧ concat evs = part_events ty v.
Proof.
  unfold drop_part, part_events, needs. intros ([b a0] & Hn & Hp)%bind_Done Hs Hv.
  apply bind_Done in Hn as (b' & Hn & [= -> <-]). rewrite Hn. destruct b; [|injection Hp as <- <-; apply acts_none].
  apply bind_Done in Hp as ([x a1] & H1 & ([r a2] & H2 & [= <- <-])%bind_Done).
  destruct (add_inst_holds _ _ _ _ _ H2 Hs) as [Hg2 Hh2].
  destruct (add_inst_holds _ _ _ _ _ H1 (small_grows _ _ Hs Hg2)) as [Hg1 Hh1].
  exists [[Dropped ty v]]. split; [|done]. apply acts_one. eapply (drop_runs _ _ _ _ (MkInst data ty glue_span)); [exact Hh2| |].
  - intros a3 Hg3. apply Hh1. by transitivity a2.
  - eapply runs_grows; [by apply Hv|done].
Qed.
Lemma parts_act {A} (f : Z → A → AirM (list AirRef)) (ev : Z → A → list Event) d a0 items :
  (∀ i x, growing (f i x)) →
  (∀ i x a new a', grows a0 a → f i x a = Done (new, a') → small a' →
     ∃ evs, acts d a' new evs ∧ concat evs = ev i x) →
  ∀ i stmts evs a stmts' a', grows a0 a → push_parts f i items stmts a = Done (stmts', a') → small a' →
    acts d a stmts evs →
    ∃ evs', acts d a' stmts' evs' ∧
      concat evs' = concat evs ++ concat (imap (λ j x, ev (wrap 32 (Z.of_nat (i + j))) x) items).
Proof.
  intros Hgr Hf. induction items as [|x items IH]; intros i stmts evs a stmts' a' Hg0; simpl.
  { intros [= <- <-] Hs Ha. exists evs. by rewrite app_nil_r. }
  intros ([new a1] & H1 & H2)%bind_Done Hs Ha. pose proof (Hgr _ _ _ _ _ H1) as Hg1.
  pose proof (growing_parts _ _ _ _ Hgr _ _ _ H2) as Hg2.
  destruct (Hf _ _ _ _ _ Hg0 H1 (small_grows _ _ Hs Hg2)) as (e1 & Ha1 & Hc1).
  destruct (IH (S i) (stmts ++ new) (evs ++ e1) a1 stmts' a') as (evs' & Ha' & Hc'); [by transitivity a|done|done| |].
  { apply Forall2_app; [by eapply acts_grows|done]. }
  exists evs'. split; [done|]. rewrite Hc', concat_app, Hc1, <-(assoc_L (++)), Nat.add_0_r. do 3 f_equal.
  apply imap_ext. intros j y _. simpl. by rewrite Nat.add_succ_r.
Qed.
Definition root (a : Air) : AirRef := Z.of_nat (length (instructions a)) - 1.
Lemma finish_runs d value ev a u a' :
  finish value a = Done (u, a') → small a' → runs d a value PUnit ev → runs (S d) a' (root a') PUnit ev.
Proof.
  intros ([r a1] & Hi & [= _ <-])%bind_Done Hs Hv. destruct (add_inst_holds _ _ _ _ _ Hi Hs) as [Hg Hh].
  assert (Hr : root a1 = r).
  { injection Hi as <- <-. unfold small in Hs. simpl in Hs. rewrite length_app in Hs. simpl in Hs.
    unfold root. simpl. rewrite len_u32_small, length_app by lia. simpl. lia. }
  rewrite Hr. eapply runs_inst; [exact Hh|]. intros a2 n Hg2. apply Hv. by transitivity a1.
Qed.
Lemma growing_finish value : growing (finish (Spur := Spur) value).
Proof. unfold finish. apply growing_bind; [apply growing_add_inst|intros; apply growing_ret]. Qed.
(** The last steps: the unit value, the block and the return. *)
Lemma block_return_runs d stmts evs a u a' :
  (unit ← unit_const; v ← block_or_value stmts unit; finish v) a = Done (u, a') → small a' →
  acts (S d) a stmts evs → runs (3 + d) a' (root a') PUnit (concat evs).
Proof.
  intros ([x a1] & H1 & ([v a2] & H2 & H3)%bind_Done)%bind_Done Hs Ha.
  pose proof (small_grows _ _ Hs (growing_finish _ _ _ _ H3)) as Hs2.
  pose proof (small_grows _ _ Hs2 (growing_block _ _ _ _ _ H2)) as Hs1.
  eapply finish_runs; [exact H3|done|]. eapply block_runs; [exact H2|done| |].
  - eapply acts_grows; [exact Ha|]. by eapply growing_unit.
  - eapply runs_more; [by eapply unit_runs|lia].
Qed.

(** *** Structs *)
Lemma field_runs a param id i ty a1 r v :
  runs 1 a param v [] → grows a a1 → holds a1 r (MkInst (IFieldGet param id i) ty glue_span) →
  runs 2 a1 r (PField v i) [].
Proof.
  intros Hp Hg Hh. eapply runs_inst; [exact Hh|]. intros a2 n Hg2. unfold run_inst. cbn [i_data].
  rewrite (Hp a2 n) by (by transitivity a1). done.
Qed.
Definition field_events (fields : list StructField) : list Event :=
  concat (imap (λ i f, part_events (sf_ty f) (PField (PParam 0) (wrap 32 (Z.of_nat i)))) fields).
Lemma struct_body_runs d id a u a' :
  struct_body goi fuel pool d id a = Done (u, a') → small a' →
  runs 5 a' (root a') PUnit (destructor_events (sd_destructor d) (PParam 0) ++ field_events (sd_fields d)).
Proof.
  unfold struct_body. intros ([param a1] & H1 & ([stmts a2] & H2 & ([stmts' a3] & H3 & H4)%bind_Done)%bind_Done)%bind_Done Hs.
  assert (Hg4 : grows a3 a').
  { revert H4. apply growing_bind; [apply growing_unit|intros]. apply growing_bind; [apply growing_block|intros; apply growing_finish]. }
  assert (Hg3 : grows a2 a3) by (revert H3; apply growing_parts; intros; apply growing_part).
  pose proof (growing_destructor _ _ _ _ _ _ H2) as Hg2.
  pose proof (small_grows _ _ Hs Hg4) as Hs3. pose proof (small_grows _ _ Hs3 Hg3) as Hs2.
  pose proof (small_grows _ _ Hs2 Hg2) as Hs1.
  destruct (add_inst_holds _ _ _ _ _ H1 Hs1) as [_ Hp%param_runs].
  destruct (destructor_acts _ _ _ _ _ _ H2 Hs2 Hp) as (evs & Ha2 & Hc2).
  eapply (parts_act _ (λ i f, part_events (sf_ty f) (PField (PParam 0) i)) 3 a2) in H3 as (evs' & Ha3 & Hc3);
    [|intros; apply growing_part| |done|done|by eapply acts_more; [exact Ha2|lia]].
  - rewrite <-Hc2. change (field_events (sd_fields d)) with (concat (imap (λ j f, part_events (sf_ty f)
      (PField (PParam 0) (wrap 32 (Z.of_nat (0 + j))))) (sd_fields d))).
    rewrite <-Hc3. by eapply (block_return_runs 2).
  - intros i f a4 new a5 Hga Hf Hs5. eapply part_acts; [exact Hf|done|].
    intros a6 r Hg6 Hh6. eapply field_runs; [exact Hp| |exact Hh6]. transitivity a2; [done|by transitivity a4].
Qed.

(** *** Arrays *)
Definition element_events (ty : Ty) (slots i : Z) : list Event :=
  match kind ty with
  | Done (TypeKind.Struct id) => [Dropped (new_struct id) (PParam (wrap 32 i * slots))]
  | Done (TypeKind.Array id) => [Dropped (new_array id) (PParam (wrap 32 i * slots))]
  | _ => []
  end.
Lemma param_drop_acts slot ty a stmts a' :
  (r ← air_add_inst (IParam slot) ty; d ← air_add_inst (IDrop r) Ty.UNIT; mret [d]) a = Done (stmts, a') →
  small a' → ∃ evs, acts 2 a' stmts evs ∧ concat evs = [Dropped ty (PParam slot)].
Proof.
  intros ([x a1] & H1 & ([r a2] & H2 & [= <- <-])%bind_Done)%bind_Done Hs.
  destruct (add_inst_holds _ _ _ _ _ H2 Hs) as [Hg2 Hh2].
  destruct (add_inst_holds _ _ _ _ _ H1 (small_grows _ _ Hs Hg2)) as [Hg1 Hh1].
  exists [[Dropped ty (PParam slot)]]. split; [|done]. apply acts_one.
  eapply (drop_runs _ _ _ _ (MkInst (IParam slot) ty glue_span)); [exact Hh2| |].
  - intros a3 Hg3. apply Hh1. by transitivity a2.
  - eapply runs_grows; [exact (param_runs _ _ _ _ Hh1)|done].
Qed.
Lemma element_acts ty slots i a stmts a' :
  drop_element ty slots i a = Done (stmts, a') → small a' →
  ∃ evs, acts 2 a' stmts evs ∧ concat evs = element_events ty slots i.
Proof.
  unfold drop_element, element_events. intros ([slot a0] & Hm & Hk)%bind_Done Hs.
  apply bind_Done in Hm as (? & (-> & _)%checked_mul_Done & [= <- <-]).
  apply bind_Done in Hk as ([k a1] & Hk & Hr). apply bind_Done in Hk as (? & Hk & [= -> <-]). rewrite Hk.
  destruct k; try (injection Hr as <- <-; apply acts_none); by eapply param_drop_acts.
Qed.
Lemma imap_values {A B} (g : A → B) l : imap (λ _ x, g x) l = map g l.
Proof. induction l as [|x l IH]; [done|]. simpl. f_equal. exact IH. Qed.
Lemma array_body_runs ty slots len a u a' :
  array_body ty slots len a = Done (u, a') → small a' →
  runs 4 a' (root a') PUnit (concat (map (element_events ty slots) (seqZ 0 len))).
Proof.
  unfold array_body. intros ([stmts a1] & H1 & H2)%bind_Done Hs.
  assert (Hg2 : grows a1 a').
  { revert H2. apply growing_bind; [apply growing_unit|intros]. apply growing_bind; [apply growing_block|intros; apply growing_finish]. }
  eapply (parts_act _ (λ _ i, element_events ty slots i) 2 a) in H1 as (evs & Ha & Hc);
    [|intros; apply growing_element|intros; by eapply element_acts|done|by eapply small_grows|constructor].
  simpl in Hc. rewrite imap_values in Hc. rewrite <-Hc. by eapply (block_return_runs 1).
Qed.

(** *** Enums *)
Definition payload_events (i : Z) (fields : list Ty) : list Event :=
  concat (imap (λ j ty, part_events ty (PPayload (PParam 0) i (wrap 32 (Z.of_nat j)))) fields).
(** The arm of variant [i]: its body is only run when the value holds that variant. *)
Definition arm_ok (id : Z) (a : Air) (i : Z) (v : EnumVariantDef) (arm : AirPattern Spur * AirRef) : Prop :=
  arm.1 = PEnumVariant id i ∧
  (variant_of (PParam 0) = i → runs 4 a arm.2 PUnit (payload_events i (ev_fields v))).
Lemma payload_runs a param i j ty a1 r v :
  variant_of v = i → runs 1 a param v [] → grows a a1 →
  holds a1 r (MkInst (IEnumPayloadGet param i j) ty glue_span) → runs 2 a1 r (PPayload v i j) [].
Proof.
  intros Hv Hp Hg Hh. eapply runs_inst; [exact Hh|]. intros a2 n Hg2. unfold run_inst. cbn [i_data].
  rewrite (Hp a2 n) by (by transitivity a1). rewrite bind_ret. by rewrite Hv, Z.eqb_refl.
Qed.
Lemma variant_arm_ok param id i v data a data' a' :
  variant_arm fuel pool param id i (ev_fields v) data a = Done (data', a') → small a' →
  runs 1 a param (PParam 0) [] →
  ∃ arm, data' = data ++ arms_words [arm] ∧ arm_ok id a' i v arm.
Proof.
  unfold variant_arm.
  intros ([stmts a1] & H1 & ([x a2] & H2 & ([body a3] & H3 & [= <- <-])%bind_Done)%bind_Done)%bind_Done Hs Hp.
  exists (PEnumVariant id i, body). split.
  { unfold encode. rewrite encode_words. unfold arms_words. simpl. by rewrite <-(assoc_L (++)). }
  split; [done|]. intros Hv.
  pose proof (growing_block _ _ _ _ _ H3) as Hg3. pose proof (small_grows _ _ Hs Hg3) as Hs2.
  pose proof (growing_unit _ _ _ H2) as Hg2. pose proof (small_grows _ _ Hs2 Hg2) as Hs1.
  eapply (parts_act _ (λ j ty, part_events ty (PPayload (PParam 0) i j)) 3 a) in H1 as (evs & Ha & Hc);
    [|intros; apply growing_part| |done|done|constructor].
  - simpl in Hc. change (payload_events i (ev_fields v)) with (concat (imap (λ j ty, part_events ty
      (PPayload (PParam 0) i (wrap 32 (Z.of_nat (0 + j))))) (ev_fields v))). simpl. rewrite <-Hc.
    eapply block_runs; [exact H3|done|by eapply acts_grows|]. eapply runs_more; [by eapply unit_runs|lia].
  - intros j ty a4 new a5 Hga Hf Hs5. eapply part_acts; [exact Hf|done|].
    intros a6 r Hg6 Hh6. eapply payload_runs; [done|exact Hp| |exact Hh6]. by transitivity a4.
Qed.
Lemma variant_arms_ok param id i variants data a data' a' :
  variant_arms fuel pool param id i variants data a = Done (data', a') → small a' →
  runs 1 a param (PParam 0) [] →
  ∃ arms, data' = data ++ arms_words arms ∧ length arms = length variants ∧
    ∀ j v arm, variants !! j = Some v → arms !! j = Some arm → arm_ok id a' (wrap 32 (Z.of_nat (i + j))) v arm.
Proof.
  revert i data a. induction variants as [|v variants IH]; intros i data a; simpl.
  { intros [= <- <-] _ _. exists []. by rewrite app_nil_r. }
  intros ([data1 a1] & H1 & H2)%bind_Done Hs Hp. pose proof (growing_variant_arms _ _ _ _ _ _ _ _ _ _ H2) as Hg2.
  destruct (variant_arm_ok _ _ _ _ _ _ _ _ H1 (small_grows _ _ Hs Hg2) Hp) as (arm & -> & Harm).
  pose proof (growing_variant_arm _ _ _ _ _ _ _ _ _ _ H1) as Hg1.
  destruct (IH _ _ _ H2 Hs) as (arms & -> & Hl & Hall); [by eapply runs_grows|].
  exists (arm :: arms). split; [unfold arms_words; simpl; by rewrite app_nil_r, <-!(assoc_L (++))|].
  split; [simpl; congruence|]. intros [|j] v' arm' Hv Ha; simplify_eq/=.
  - rewrite Nat.add_0_r. destruct Harm as [Hpat Hrun]. split; [done|]. intros Hi. eapply runs_grows; [by apply Hrun|done].
  - rewrite Nat.add_succ_r. by apply Hall.
Qed.

Context `{!SpurLaws Spur}.
Lemma find_arm id a (variants : list EnumVariantDef) arms (j : nat) v :
  length arms = length variants → Z.of_nat (length variants) < 2 ^ 32 →
  (∀ j v arm, variants !! j = Some v → arms !! j = Some arm → arm_ok id a (wrap 32 (Z.of_nat j)) v arm) →
  variants !! j = Some v → variant_of (PParam 0) = Z.of_nat j →
  ∃ arm, list_find (λ arm, matches_arm variant_of (PParam 0) arm.1) arms = Some (j, arm) ∧
    runs 4 a arm.2 PUnit (payload_events (Z.of_nat j) (ev_fields v)).
Proof.
  intros Hl Hb Hall Hv Hj. pose proof (lookup_lt_Some _ _ _ Hv) as Hlt.
  assert (Hw : ∀ k, (k < length variants)%nat → wrap 32 (Z.of_nat k) = Z.of_nat k).
  { intros k Hk. apply wrap_small. unfold in_u. lia. }
  destruct (lookup_lt_is_Some_2 arms j) as [arm Harm]; [lia|]. exists arm.
  pose proof (Hall _ _ _ Hv Harm) as [Hpat Hrun]. rewrite Hw in Hpat, Hrun by done. split; [|by apply Hrun].
  apply list_find_Some. split_and!; [done| |].
  - rewrite Hpat. simpl. rewrite Hj. by rewrite Z.eqb_refl.
  - intros k arm' Hk Hkj. destruct (lookup_lt_is_Some_2 variants k) as [v' Hv']; [lia|].
    pose proof (Hall _ _ _ Hv' Hk) as [Hp' _]. rewrite Hw in Hp' by lia. rewrite Hp'. simpl. rewrite Hj.
    destruct (Z.eqb_spec (Z.of_nat k) (Z.of_nat j)); [lia|by intros []].
Qed.
Lemma match_runs id (variants : list EnumVariantDef) arms (j : nat) v param s r (a0 a : Air) :
  length arms = length variants → Z.of_nat (length variants) < 2 ^ 32 →
  (∀ j v arm, variants !! j = Some v → arms !! j = Some arm → arm_ok id a (wrap 32 (Z.of_nat j)) v arm) →
  variants !! j = Some v → variant_of (PParam 0) = Z.of_nat j → runs 1 a param (PParam 0) [] →
  s = Z.of_nat (length (extra a0)) →
  (∀ a', grows a a' → ∃ rest, extra a' = extra a0 ++ arms_words arms ++ rest) →
  holds a r (MkInst (IMatch param s (len_u32 variants)) Ty.UNIT glue_span) →
  runs 5 a r PUnit (payload_events (Z.of_nat j) (ev_fields v)).
Proof.
  intros Hl Hb Hall Hv Hj Hp -> Hx Hh. destruct (find_arm _ _ _ _ _ _ Hl Hb Hall Hv Hj) as (arm & Hfind & Hrun).
  eapply runs_inst; [exact Hh|]. intros a' n Hg. unfold run_inst. cbn [i_data].
  assert (Hp' : run_air variant_of (4 + n) a' param = Done (PParam 0, [])) by (apply (Hp a' (3 + n)%nat Hg)).
  rewrite Hp', bind_ret. destruct (Hx a' Hg) as [rest Hrest].
  assert (Hread : get_match_arms a' (Z.of_nat (length (extra a0))) (len_u32 variants) = Done arms).
  { replace (len_u32 variants) with (len_u32 arms) by (unfold len_u32; by rewrite Hl).
    eapply read_match_arms; [|exact Hrest|by rewrite Hl].
    apply Forall_lookup_2. intros k arm' Hk. destruct (lookup_lt_is_Some_2 variants k) as [v' Hv'].
    { apply lookup_lt_Some in Hk. lia. }
    destruct (Hall _ _ _ Hv' Hk) as [-> _]. done. }
  rewrite Hread, bind_ret, Hfind. simpl expect. rewrite bind_ret. destruct arm as [p body]. simpl in Hrun |- *.
  pose proof (Hrun a' n Hg) as Hr. simpl in Hr. by rewrite Hr.
Qed.
Lemma enum_body_runs d id a u a' (j : nat) v :
  enum_body goi fuel pool d id a = Done (u, a') → small a' → Z.of_nat (length (ed_variants d)) < 2 ^ 32 →
  ed_variants d !! j = Some v → variant_of (PParam 0) = Z.of_nat j →
  runs 7 a' (root a') PUnit (destructor_events (ed_destructor d) (PParam 0) ++ payload_events (Z.of_nat j) (ev_fields v)).
Proof.
  unfold enum_body.
  intros ([param a1] & H1 & ([pre a2] & H2 & ([data a3] & H3 & ([s a4] & H4 & ([m a5] & H5 & H6)%bind_Done)%bind_Done)%bind_Done)%bind_Done)%bind_Done Hs Hb Hv Hj.
  assert (Hg6 : grows a5 a').
  { revert H6. destruct pre; [apply growing_finish|].
    apply growing_bind; [apply growing_unit|intros]. apply growing_bind; [apply growing_block|intros; apply growing_finish]. }
  pose proof (small_grows _ _ Hs Hg6) as Hs5. destruct (add_inst_holds _ _ _ _ _ H5 Hs5) as [Hg5 Hm].
  destruct (add_extra_reads _ _ _ _ H4) as (Hg4 & _ & Hx).
  pose proof (growing_variant_arms _ _ _ _ _ _ _ _ _ _ H3) as Hg3. pose proof (growing_destructor _ _ _ _ _ _ H2) as Hg2.
  pose proof (small_grows _ _ Hs5 Hg5) as Hs4. pose proof (small_grows _ _ Hs4 Hg4) as Hs3.
  pose proof (small_grows _ _ Hs3 Hg3) as Hs2. pose proof (small_grows _ _ Hs2 Hg2) as Hs1.
  destruct (add_inst_holds _ _ _ _ _ H1 Hs1) as [_ Hp%param_runs].
  destruct (destructor_acts _ _ _ _ _ _ H2 Hs2 Hp) as (evs & Ha2 & Hc2).
  destruct (variant_arms_ok _ _ _ _ _ _ _ _ H3 Hs3) as (arms & -> & Hl & Hall); [by eapply runs_grows|].
  assert (Hg15 : grows a1 a5) by (transitivity a2; [done|transitivity a3; [done|by transitivity a4]]).
  assert (Hmr : runs 5 a5 m PUnit (payload_events (Z.of_nat j) (ev_fields v))).
  { eapply (match_runs id (ed_variants d) arms j v param s m a3); [done|done| |done|done|by eapply runs_grows| | |exact Hm].
    - intros k v' arm Hk Harm. destruct (Hall k v' arm Hk Harm) as [Hpat Hrun]. split; [done|].
      intros Hi. eapply runs_grows; [by apply Hrun|]. by transitivity a4.
    - by destruct (Hx a5 Hg5) as (rest & _ & -> & _).
    - intros a6 Hg. destruct (Hx a6) as (rest & He & _); [by transitivity a5|]. by exists rest. }
  rewrite <-Hc2. destruct pre as [|c pre].
  - apply Forall2_nil_inv_l in Ha2 as ->. eapply runs_more; [by eapply finish_runs|lia].
  - eapply (block_return_runs 4 _ (evs ++ [_])) in H6; [|done|].
    + rewrite concat_app in H6. simpl in H6. rewrite app_nil_r in H6. exact H6.
    + apply Forall2_app; [|by apply acts_one]. eapply acts_more; [|shelve]. eapply acts_grows; [exact Ha2|].
      transitivity a3; [done|by transitivity a4].
      Unshelve. lia.
Qed.
End Acts.
