(* ===== verification/DropGlueSpec.v ===== *)
(** * Drop functions do what dropping means

    The theorems on [crates/gruel-compiler/src/drop_glue.rs]: the events of a run of each
    synthesized function, and the agreement of the symbols with those the callers use. *)

From stdpp Require Import pretty.
From S2P Require Import Prelude Types LayoutTypes InternPool Layout AirPattern Air ParamArena DropNames.
From S2P Require Import Cfg CfgBuild CfgSample DropGlue DropGlueThm.

#[local] Open Scope Z_scope.

Section Spec.
Context {Spur : Type} `{Countable Spur} `{!SpurKey Spur} `{!SpurLaws Spur}.
Context (variant_of : Path → Z) (goi : string → Spur) (fuel : nat) (pool : TypeInternPool (Spur := Spur)).
Notation AnalyzedFunction := (AnalyzedFunction (Spur := Spur)).
Notation run_function := (run_function (Spur := Spur) variant_of).

(** The parts of a value in order, dropped where their type owns something. *)
Definition drop_parts (tys : list Ty) (part : Z → Path) : list (Event (Spur := Spur)) :=
  concat (imap (λ i ty, part_events fuel pool ty (part (Z.of_nat i))) tys).
Lemma imap_parts {A} (g : A → Ty) (part : Z → Path) (l : list A) :
  Z.of_nat (length l) < 2 ^ 32 →
  concat (imap (λ i x, part_events (Spur := Spur) fuel pool (g x) (part (wrap 32 (Z.of_nat i)))) l) =
  drop_parts (map g l) part.
Proof.
  intros Hl. unfold drop_parts. rewrite imap_fmap. f_equal. apply imap_ext. intros i x Hx. simpl.
  rewrite wrap_small; [done|]. apply lookup_lt_Some in Hx. unfold in_u. lia.
Qed.
Lemma glue_function_runs d name body slots ty f ev n :
  glue_function name body slots ty = Done f → small (fn_air f) →
  (∀ a u a', body a = Done (u, a') → small a' → runs variant_of d a' (root a') PUnit ev) →
  run_function (d + n) f = Done (PUnit, ev).
Proof. intros ([u a] & Hb & [= <-])%bind_Done Hs Hr. by apply (Hr _ _ _ Hb). Qed.

(** C23: what the drop function of a struct or an enum does. Its run calls the user's destructor
    first, if there is one, and then drops exactly the parts whose type needs it, each
    once and in order of declaration: the fields of a struct, and of an enum the payload of
    the variant the value holds; it never reads the payload of another variant. *)
Theorem drop_glue_drops_parts n :
  (∀ d id f, create_struct_drop_glue_function goi fuel pool d id = Done f → small (fn_air f) →
     Z.of_nat (length (sd_fields d)) < 2 ^ 32 →
     run_function (5 + n) f = Done (PUnit, destructor_events goi (sd_destructor d) (PParam 0) ++
       drop_parts (map sf_ty (sd_fields d)) (PField (PParam 0)))) ∧
  (∀ d id f (j : nat) v, enum_def pool id = Done d →
     create_enum_drop_glue_function goi fuel pool id = Done f → small (fn_air f) →
     Z.of_nat (length (ed_variants d)) < 2 ^ 32 → ed_variants d !! j = Some v →
     Z.of_nat (length (ev_fields v)) < 2 ^ 32 → variant_of (PParam 0) = Z.of_nat j →
     run_function (7 + n) f = Done (PUnit, destructor_events goi (ed_destructor d) (PParam 0) ++
       drop_parts (ev_fields v) (PPayload (PParam 0) (Z.of_nat j)))).
Proof.
  split.
  - intros d id f (k & _ & Hf)%bind_Done Hs Hl. eapply glue_function_runs; [exact Hf|done|].
    intros a u a' Hb Hs'. pose proof (struct_body_runs variant_of _ _ _ _ _ _ _ _ Hb Hs') as Hr.
    unfold field_events in Hr. by rewrite (imap_parts sf_ty (PField (PParam 0))) in Hr.
  - intros d id f j v Hd (d' & Hd' & Hf)%bind_Done Hs Hl Hv Hlv Hj. rewrite Hd in Hd'. injection Hd' as <-.
    eapply glue_function_runs; [exact Hf|done|]. intros a u a' Hb Hs'.
    pose proof (enum_body_runs variant_of _ _ _ _ _ _ _ _ _ _ Hb Hs' Hl Hv Hj) as Hr.
    unfold payload_events in Hr.
    rewrite (imap_parts (λ t, t) (PPayload (PParam 0) (Z.of_nat j))) in Hr by done. by rewrite map_id in Hr.
Qed.

(** The elements of an array of structs or arrays are dropped in order; those of other
    types are not, whatever they own. *)
Definition drops_elements (ty : Ty) : bool :=
  match kind ty with Done (TypeKind.Struct _ | TypeKind.Array _) => true | _ => false end.
Lemma element_events_type ty slots i :
  in_u32 (ty_u32 ty) → in_u32 i →
  element_events (Spur := Spur) ty slots i =
    if drops_elements ty then [Dropped ty (PParam (i * slots))] else [].
Proof.
  intros Hu Hi. unfold element_events, drops_elements. rewrite wrap_small by done.
  destruct (kind ty) as [k| |] eqn:Hk; [|done..]. unfold kind in Hk. apply expect_Done in Hk.
  destruct (try_kind_Some _ _ Hu Hk) as [_ Hof]. destruct k; simpl in Hof; try done; by rewrite Hof.
Qed.
Definition array_events (ty : Ty) (slots len : Z) : list (Event (Spur := Spur)) :=
  if drops_elements ty then map (λ i, Dropped ty (PParam (i * slots))) (seqZ 0 len) else [].
Lemma array_events_elements ty slots len :
  in_u32 (ty_u32 ty) → len < 2 ^ 32 →
  concat (map (element_events ty slots) (seqZ 0 len)) = array_events ty slots len.
Proof.
  intros Hu Hl. unfold array_events.
  assert (Hall : ∀ i, i ∈ seqZ 0 len → element_events (Spur := Spur) ty slots i =
    if drops_elements ty then [Dropped ty (PParam (i * slots))] else []).
  { intros i Hi%elem_of_seqZ. apply element_events_type; [done|unfold in_u; lia]. }
  revert Hall. generalize (seqZ 0 len) as l. induction l as [|i l IH]; intros Hall; simpl; [by destruct drops_elements|].
  rewrite (Hall i) by (by left). rewrite IH by (intros; apply Hall; by right). by destruct drops_elements.
Qed.
Lemma array_glue_runs id f elem len slots n :
  create_array_drop_glue_function fuel pool id = Done f → small (fn_air f) →
  array_def pool id = Done (elem, len) → abi_slot_count fuel pool elem = Done slots →
  in_u32 (ty_u32 elem) → len < 2 ^ 32 →
  run_function (4 + n) f = Done (PUnit, array_events elem slots len).
Proof.
  intros Hc Hs Hd Ha Hu Hl. unfold create_array_drop_glue_function in Hc.
  apply bind_Done in Hc as (o & _ & (name & _ & Hc)%bind_Done). rewrite Hd, bind_ret in Hc. rewrite Ha, bind_ret in Hc.
  apply bind_Done in Hc as (k & _ & Hf). eapply glue_function_runs; [exact Hf|done|].
  intros a u a' Hb Hs'. rewrite <-array_events_elements by done. by eapply array_body_runs.
Qed.

Lemma kind_new k : kind_wf k → kind (of_kind k) = Done k.
Proof. intros Hk. unfold kind. by rewrite try_kind_of_kind. Qed.

(** The drop function of an array leaks elements that are neither structs nor arrays: for an
    array of enums or vectors, whose elements own something, the function is
    synthesized, but its run drops nothing. *)
Theorem array_glue_leaks id f elem len rank n :
  ranked pool rank → (rank (new_array id) < fuel)%nat →
  create_array_drop_glue_function fuel pool id = Done f → small (fn_air f) → in_u 24 id →
  array_def pool id = Done (elem, len) → in_u32 (ty_u32 elem) → len < 2 ^ 32 → drops_elements elem = false →
  owns pool elem ∧ run_function (4 + n) f = Done (PUnit, []).
Proof.
  intros Hrank Hfuel Hc Hs Hid Hd Hu Hl Hno. split.
  - unfold create_array_drop_glue_function in Hc. apply bind_Done in Hc as (o & Hname & (name & Ho%expect_Done & _)%bind_Done).
    subst o. pose proof (kind_new (TypeKind.Array id) Hid : kind (new_array id) = _) as Hk.
    unfold drop_fn_name in Hname. rewrite Hk, bind_ret in Hname.
    apply bind_Done in Hname as ([] & Hn & Hname); [|done].
    pose proof (needs_drop_decides fuel pool rank _ Hrank Hfuel) as Hdec. rewrite Hn in Hdec.
    apply (owns_array pool _ _ _ _ Hk Hd). by apply Hdec.
  - pose proof Hc as Hc'. unfold create_array_drop_glue_function in Hc'.
    apply bind_Done in Hc' as (o & _ & (name & _ & Hc')%bind_Done). rewrite Hd, bind_ret in Hc'.
    apply bind_Done in Hc' as (slots & Ha & _).
    rewrite (array_glue_runs _ _ _ _ _ _ Hc Hs Hd Ha Hu Hl). unfold array_events. by rewrite Hno.
Qed.
(** The drop function of an array of structs or arrays drops every element, in
    index order, from the parameter slots the element occupies. *)
Theorem array_glue_drops_elements id f elem len slots n :
  create_array_drop_glue_function fuel pool id = Done f → small (fn_air f) →
  array_def pool id = Done (elem, len) → abi_slot_count fuel pool elem = Done slots →
  in_u32 (ty_u32 elem) → len < 2 ^ 32 → drops_elements elem = true →
  run_function (4 + n) f = Done (PUnit, map (λ i, Dropped elem (PParam (i * slots))) (seqZ 0 len)).
Proof.
  intros Hc Hs Hd Ha Hu Hl Hy. rewrite (array_glue_runs _ _ _ _ _ _ Hc Hs Hd Ha Hu Hl).
  unfold array_events. by rewrite Hy.
Qed.

(** ** Symbols *)
(** The loop over the types of one kind. *)
Lemma glue_loop (create : Z → outcome (list AnalyzedFunction)) new_type ids fns fns' :
  foldM (glue_step fuel pool create new_type) fns ids = Done fns' →
  fns ⊆ fns' ∧
  (∀ id, id ∈ ids → type_needs_drop fuel pool (new_type id) = Done true →
     ∃ new, create id = Done new ∧ new ⊆ fns').
Proof.
  revert fns. induction ids as [|i ids IH]; intros fns; simpl.
  { intros [= <-]. split; [done|]. by intros id ?%elem_of_nil. }
  intros (fns1 & H1 & H2)%bind_Done. destruct (IH _ H2) as [Hsub Hall].
  apply bind_Done in H1 as (b & Hb & H1). destruct b; [|injection H1 as <-].
  - apply bind_Done in H1 as (new & Hn & [= <-]). split; [set_solver|].
    intros id [->|Hin]%elem_of_cons Hneeds; [|by apply Hall]. exists new. split; [done|set_solver].
  - split; [done|]. intros id [->|Hin]%elem_of_cons Hneeds; [congruence|by apply Hall].
Qed.
Lemma glue_named name body slots ty (f : AnalyzedFunction) : glue_function name body slots ty = Done f → fn_name f = name.
Proof. by intros ([u a] & _ & [= <-])%bind_Done. Qed.
Lemma needs_of_name ty name : drop_fn_name fuel pool ty = Done (Some name) → type_needs_drop fuel pool ty = Done true.
Proof.
  unfold drop_fn_name. intros (k & _ & Hd)%bind_Done.
  destruct k; try discriminate Hd; [apply bind_Done in Hd as (d & _ & Hd)|..];
    by apply bind_Done in Hd as ([] & Hn & Hd).
Qed.
(** The types for which a function is made: the runtime provides the destructors of built-in
    structs. *)
Definition synthesized_type (ty : Ty) : Prop :=
  (∃ ids id d, all_struct_ids pool = Done ids ∧ id ∈ ids ∧ in_u 24 id ∧ ty = new_struct id ∧
     struct_def pool id = Done d ∧ (sd_is_builtin d && bool_decide (is_Some (sd_destructor d))) = false) ∨
  (∃ ids id, all_enum_ids pool = Done ids ∧ id ∈ ids ∧ in_u 24 id ∧ ty = new_enum id) ∨
  (∃ id, id ∈ all_array_ids pool ∧ ty = new_array id).

End Spec.

(** ** A pool with owning types *)
Module GlueSample.
Import Names CfgSample.
Definition vec_u8 : Ty := new_vec 0.
(** [struct S { a: Vec(u8), n: i32, b: Vec(u8) }] with a destructor. *)
Definition S_def : StructDef :=
  MkStructDef "S" [MkStructField "a" vec_u8 true; MkStructField "n" Ty.I32 true; MkStructField "b" vec_u8 true]
    Affine false Sync (Some "S.__drop") false false 0 false.
(** [enum E { Empty, Full(i32, Vec(u8)) }]. *)
Definition E_def : EnumDef :=
  MkEnumDef "E" [MkEnumVariantDef "Empty" [] []; MkEnumVariantDef "Full" [Ty.I32; vec_u8] []]
    Affine Sync false 0 None false.
(** With [[S; 3]] and [[E; 2]]. *)
Definition pool : TypeInternPool (Spur := Name) :=
  set_struct_by_name (λ _, {[ x := MkInterned (PRIMITIVE_COUNT + 1) ]}) $
  set_enum_by_name (λ _, {[ y := MkInterned (PRIMITIVE_COUNT + 2) ]}) $
  set_types (λ _, [TVec Interned.U8; TStruct (MkStructData x S_def); TEnum (MkEnumData y E_def);
                   TArray (MkInterned (PRIMITIVE_COUNT + 1)) 3; TArray (MkInterned (PRIMITIVE_COUNT + 2)) 2]) new_pool.
Definition goi (s : string) : Name := if bool_decide (s = "S.__drop") then x else y.
Definition glue (o : outcome (AnalyzedFunction (Spur := Name))) : AnalyzedFunction (Spur := Name) :=
  match o with Done f => f | _ => MkFunction "" (new_air Ty.UNIT) 0 0 [] [] false end.
Definition S_glue := glue (create_struct_drop_glue_function goi 9 pool S_def 1).
Definition E_glue := glue (create_enum_drop_glue_function goi 9 pool 2).
Definition leak := glue (create_array_drop_glue_function 9 pool 4).
Definition elems := glue (create_array_drop_glue_function 9 pool 3).
Definition glue_fns := match synthesize_drop_glue goi 9 pool with Done fns => fns | _ => [] end.
Lemma glue_fns_Done : synthesize_drop_glue goi 9 pool = Done glue_fns.
Proof. by vm_compute. Qed.
Lemma array_id : 3 ∈ all_array_ids pool.
Proof. vm_compute. apply list_elem_of_here. Qed.
Lemma array_name : drop_fn_name 9 pool (new_array 3) = Done (Some "__gruel_drop_array_S_3"%string).
Proof. by vm_compute. Qed.
Definition holds_full (_ : Path) : Z := 1.
Example names : (fns ← synthesize_drop_glue goi 9 pool; mret (map fn_name fns)) =
  Done ["__gruel_drop_S"; "__gruel_drop_E"; "__gruel_drop_array_S_3"; "__gruel_drop_array_enum2_2"]%string.
Proof. by vm_compute. Qed.
Definition rank (ty : Ty) : nat :=
  match kind ty with
  | Done (TypeKind.Struct id | TypeKind.Enum id | TypeKind.Array id) => S (Z.to_nat id)
  | _ => 0%nat
  end.
Lemma glue_entry_inv id d : entry pool id = Done d → id = 0 ∨ id = 1 ∨ id = 2 ∨ id = 3 ∨ id = 4.
Proof. unfold entry. case_decide; [|done]. intros Hd%expect_Done%lookup_lt_Some. simpl in Hd. lia. Qed.
Lemma glue_pool_ranked : ranked pool rank.
Proof.
  intros ty ty'. unfold contained, rank at 2.
  destruct (kind ty) as [k| |]; [|by intros ?%elem_of_nil..].
  destruct k; try by intros ?%elem_of_nil.
  all: match goal with |- context [Z.to_nat ?id] =>
    destruct (entry pool id) as [d| |] eqn:Hd;
    [|unfold struct_def, enum_def, array_def; rewrite Hd; by intros ?%elem_of_nil..];
    apply glue_entry_inv in Hd as [->|[->|[->|[->| ->]]]] end.
  all: vm_compute contained; intros Hin; repeat (apply elem_of_cons in Hin as [->|Hin]);
    try (by apply elem_of_nil in Hin); vm_compute; lia.
Qed.
End GlueSample.
Import Names GlueSample.

Lemma drop_glue_drops_parts_witness :
  run_function holds_full 5 S_glue = Done (PUnit,
    [Called x [PParam 0]; Dropped vec_u8 (PField (PParam 0) 0); Dropped vec_u8 (PField (PParam 0) 2)]) ∧
  run_function holds_full 7 E_glue = Done (PUnit, [Dropped vec_u8 (PPayload (PParam 0) 1 1)]).
Proof.
  split.
  - refine (proj1 (drop_glue_drops_parts holds_full goi 9 pool 0) S_def 1 S_glue _ _ _);
      vm_compute; reflexivity.
  - refine (proj2 (drop_glue_drops_parts holds_full goi 9 pool 0) E_def 2 E_glue 1%nat
      (MkEnumVariantDef "Full" [Ty.I32; vec_u8] []) _ _ _ _ _ _ _); vm_compute; reflexivity.
Defined.
Lemma array_glue_leaks_witness :
  owns pool (new_enum 2) ∧ run_function holds_full 4 leak = Done (PUnit, []).
Proof.
  refine (array_glue_leaks holds_full 9 pool 4 leak (new_enum 2) 2 rank 0 glue_pool_ranked _ _ _ _ _ _ _ _).
  - vm_compute. lia.
  - vm_compute. reflexivity.
  - vm_compute. reflexivity.
  - vm_compute. split; congruence.
  - vm_compute. reflexivity.
  - vm_compute. split; congruence.
  - vm_compute. reflexivity.
  - vm_compute. reflexivity.
Defined.
Lemma array_glue_drops_elements_witness :
  run_function holds_full 4 elems = Done (PUnit,
    [Dropped (new_struct 1) (PParam 0); Dropped (new_struct 1) (PParam 7); Dropped (new_struct 1) (PParam 14)]).
Proof.
  refine (array_glue_drops_elements holds_full 9 pool 3 elems (new_struct 1) 3 7 0 _ _ _ _ _ _ _).
  - vm_compute. reflexivity.
  - vm_compute. reflexivity.
  - vm_compute. reflexivity.
  - vm_compute. reflexivity.
  - vm_compute. split; congruence.
  - vm_compute. reflexivity.
  - vm_compute. reflexivity.
Defined.
