(* ===== verification/Rir.v ===== *)
(** * The untyped intermediate representation: data and payload encodings

    Models the data and the store of [crates/gruel-rir/src/inst.rs]: instructions are kept
    in one vector and named by their index; variable-length payloads are words in a second
    vector that an instruction names by a start and a count. The pretty printer is left
    out. Spans decoded from the payload words belong to the default file. *)

From S2P Require Import Prelude Types AirPattern Air ParamArena.

#[local] Open Scope Z_scope.

Notation InstRef := Z (only parsing).
Definition U32_MAX : Z := 2 ^ 32 - 1.

(** ** Data *)
Inductive RirArgMode : Set := RirNormal | RirMutRef | RirRef.
Record RirCallArg : Set := MkRirArg { ra_value : InstRef; ra_mode : RirArgMode }.
Inductive RirLinkMode : Set := LinkDynamic | LinkStatic.
#[export] Instance RirArgMode_eq_dec : EqDecision RirArgMode.
Proof. solve_decision. Defined.

(** Discriminants of [PatternKind]. *)
Definition KIND_WILDCARD : Z := 0.
Definition KIND_INT : Z := 1.
Definition KIND_BOOL : Z := 2.
Definition KIND_PATH : Z := 3.
Definition KIND_DATA_VARIANT : Z := 4.
Definition KIND_STRUCT_VARIANT : Z := 5.
Definition KIND_IDENT : Z := 6.
Definition KIND_TUPLE : Z := 7.
Definition KIND_STRUCT : Z := 8.
Definition KIND_UNROLL : Z := 9.

Section Data.
Context {Spur : Type}.

Record RirDirective : Type := MkDirective { d_name : Spur; d_args : list Spur; d_span : Span }.
Record RirParam : Type := MkRirParam {
  rp_name : Spur; rp_ty : Spur; rp_mode : RirParamMode; rp_is_comptime : bool }.
Record RirDestructureField : Type := MkDestructure {
  df_field_name : Spur; df_binding_name : option Spur; df_is_wildcard : bool; df_is_mut : bool }.

(** [RirPatternBinding], [RirStructPatternBinding] and [RirStructField] over the type of
    patterns. *)
Record RirPatternBinding {P : Type} : Type := MkBinding {
  pb_is_wildcard : bool; pb_is_mut : bool; pb_name : option Spur; pb_sub_pattern : option P }.
Record RirStructPatternBinding {P : Type} : Type := MkStructBinding {
  sb_field_name : Spur; sb_binding : @RirPatternBinding P }.
Record RirStructField {P : Type} : Type := MkRirField { rf_field_name : Spur; rf_pattern : P }.

Inductive RirPattern : Type :=
  | RWildcard (span : Span)
  | RInt (value : Z) (span : Span)
  | RBool (value : bool) (span : Span)
  | RPath (module : option InstRef) (type_name variant : Spur) (span : Span)
  | RDataVariant (module : option InstRef) (type_name variant : Spur)
      (bindings : list (@RirPatternBinding RirPattern)) (span : Span)
  | RStructVariant (module : option InstRef) (type_name variant : Spur)
      (field_bindings : list (@RirStructPatternBinding RirPattern)) (span : Span)
  | RIdent (name : Spur) (is_mut : bool) (span : Span)
  | RTuple (elems : list RirPattern) (rest_position : option Z) (span : Span)
  | RStruct (module : option InstRef) (type_name : Spur)
      (fields : list (@RirStructField RirPattern)) (has_rest : bool) (span : Span)
  | RComptimeUnrollArm (binding : Spur) (iterable : InstRef) (span : Span).

(** [RirPattern::span]. *)
Definition pattern_span (p : RirPattern) : Span :=
  match p with
  | RWildcard span | RInt _ span | RBool _ span | RPath _ _ _ span | RDataVariant _ _ _ _ span
  | RStructVariant _ _ _ _ span | RIdent _ _ span | RTuple _ _ span | RStruct _ _ _ _ span
  | RComptimeUnrollArm _ _ span => span
  end.

Inductive InstData : Type :=
  | RIntConst (v : Z)
  | RFloatConst (bits : Z)
  | RBoolConst (v : bool)
  | RCharConst (v : Z)
  | RStringConst (s : Spur)
  | RUnitConst
  | RBin (op : BinOp) (lhs rhs : InstRef)
  | RUnary (op : UnaryOp) (operand : InstRef)
  | RMakeRef (operand : InstRef) (is_mut : bool)
  | RBareRangeSubscript
  | RMakeSlice (base : InstRef) (lo hi : option InstRef) (is_mut : bool)
  | RBranch (cond then_block : InstRef) (else_block : option InstRef) (is_comptime : bool)
  | RLoop (cond body : InstRef)
  | RFor (binding : Spur) (is_mut : bool) (iterable body : InstRef)
  | RInfiniteLoop (body : InstRef)
  | RMatch (scrutinee : InstRef) (arms_start arms_len : Z)
  | RBreak
  | RContinue
  | RFnDecl (directives_start directives_len : Z) (is_pub is_unchecked : bool) (name : Spur)
      (params_start params_len : Z) (return_type : Spur) (body : InstRef) (has_self : bool)
      (receiver_mode : Z)
  | RConstDecl (directives_start directives_len : Z) (is_pub : bool) (name : Spur)
      (ty : option Spur) (init : InstRef)
  | RCall (name : Spur) (args_start args_len : Z)
  | RIntrinsic (name : Spur) (args_start args_len : Z)
  | RTypeIntrinsic (name type_arg : Spur)
  | RTypeInterfaceIntrinsic (name type_arg : Spur) (type_inst : option InstRef) (interface_arg : Spur)
  | RParamRef (index : Z) (name : Spur)
  | RRet (value : option InstRef)
  | RBlock (extra_start len : Z)
  | RAlloc (directives_start directives_len : Z) (name : option Spur) (is_mut : bool)
      (ty : option Spur) (init : InstRef)
  | RStructDestructure (type_name : Spur) (fields_start fields_len : Z) (init : InstRef)
  | RVarRef (name : Spur)
  | RAssign (name : Spur) (value : InstRef)
  | RStructDecl (directives_start directives_len : Z) (is_pub : bool) (posture : Posture)
      (name : Spur) (fields_start fields_len methods_start methods_len : Z)
  | RStructInit (module : option InstRef) (type_name : Spur) (fields_start fields_len : Z)
  | RFieldGet (base : InstRef) (field : Spur)
  | RFieldSet (base : InstRef) (field : Spur) (value : InstRef)
  | REnumDecl (is_pub : bool) (posture : Posture) (name : Spur)
      (variants_start variants_len methods_start methods_len directives_start directives_len : Z)
  | REnumVariant (module : option InstRef) (type_name variant : Spur)
  | REnumStructVariant (module : option InstRef) (type_name variant : Spur)
      (fields_start fields_len : Z)
  | RArrayInit (elems_start elems_len : Z)
  | RIndexGet (base index : InstRef)
  | RIndexSet (base index value : InstRef)
  | RMethodCall (receiver : InstRef) (method : Spur) (args_start args_len : Z)
  | RAssocFnCall (type_name function : Spur) (args_start args_len : Z)
  | RInterfaceDecl (is_pub : bool) (name : Spur)
      (methods_start methods_len directives_start directives_len : Z)
  | RInterfaceMethodSig (name : Spur) (params_start params_len : Z) (return_type : Spur)
      (receiver_mode : Z) (is_unchecked : bool) (directives_start directives_len : Z)
  | RDeriveDecl (name : Spur) (methods_start methods_len : Z)
  | RComptime (expr : InstRef)
  | RComptimeUnrollFor (binding : Spur) (iterable body : InstRef)
  | RChecked (expr : InstRef)
  | RTypeConst (type_name : Spur)
  | RAnonStructType (directives_start directives_len fields_start fields_len methods_start methods_len : Z)
  | RAnonEnumType (directives_start directives_len variants_start variants_len methods_start methods_len : Z)
  | RAnonInterfaceType (methods_start methods_len : Z)
  | RTupleInit (elems_start elems_len : Z)
  | RAnonFnValue (method : InstRef).
Record Inst : Type := MkRirInst { ri_data : InstData; ri_span : Span }.

Record FunctionSpan : Type := MkFnSpan { fs_name : Spur; fs_body_start : InstRef; fs_decl : InstRef }.
Record RirExternFn : Type := MkExternFn {
  xf_library : Spur; xf_name : Spur; xf_directives_start : Z; xf_directives_len : Z;
  xf_params_start : Z; xf_params_len : Z; xf_return_type : Spur; xf_span : Span;
  xf_block_span : Span; xf_link_mode : RirLinkMode }.

Record Rir : Type := MkRir {
  r_instructions : list Inst;
  r_extra : list Z;
  r_function_spans : list FunctionSpan;
  r_extern_fns : list RirExternFn;
  r_empty_link_extern_blocks : list (Spur * RirLinkMode * Span);
}.
End Data.
Arguments RirPattern : clear implicits.
Arguments RirPatternBinding : clear implicits.
Arguments RirStructPatternBinding : clear implicits.
Arguments RirStructField : clear implicits.
Arguments InstData : clear implicits.
Arguments Inst : clear implicits.
Arguments Rir : clear implicits.
Arguments MkBinding {Spur P}.
Arguments MkStructBinding {Spur P}.
Arguments MkRirField {Spur P}.

(** ** Reading payload words

    A reader of the words [data] at a position that it advances: the code's [data[pos + k]]
    in increasing [k], with the [offset += consumed] of its loops. *)
Definition Rd (A : Type) : Type := list Z → ST nat A.
#[export] Instance Rd_ret : MRet Rd := λ A a data, mret a.
#[export] Instance Rd_bind : MBind Rd := λ A B f m data, x ← m data; f x data.
Definition word : Rd Z := λ data pos, w ← index data pos; Done (w, S pos).
Definition lift_rd {A} (m : outcome A) : Rd A := λ data, lift_st m.
(** [for _ in 0..n]. *)
Fixpoint times {A} (n : nat) (m : Rd A) : Rd (list A) :=
  match n with
  | O => mret []
  | S n => x ← m; xs ← times n m; mret (x :: xs)
  end.
(** A count read from the words, and as many items. *)
Definition counted {A} (m : Rd A) : Rd (list A) := n ← word; times (Z.to_nat n) m.

Section Codec.
Context {Spur : Type} `{!SpurKey Spur}.
Notation RirPattern := (RirPattern Spur).
Notation RirPatternBinding := (RirPatternBinding Spur RirPattern).
Notation RirStructPatternBinding := (RirStructPatternBinding Spur RirPattern).
Notation RirStructField := (RirStructField Spur RirPattern).

(** [s.into_usize() as u32] and back, [bool as u32] and [w != 0], [u32::MAX] for [None]. *)
Definition name_word (s : Spur) : Z := wrap 32 (into_usize s).
Definition read_name : Rd Spur := w ← word; lift_rd (expect (try_from_usize w)).
Definition bool_word (b : bool) : Z := if b then 1 else 0.
Definition read_bool : Rd bool := w ← word; mret (negb (w =? 0)).
Definition opt_word (o : option Z) : Z := default U32_MAX o.
Definition read_opt : Rd (option Z) := w ← word; mret (if w =? U32_MAX then None else Some w).
Definition opt_name_word (o : option Spur) : Z := match o with Some s => name_word s | None => U32_MAX end.
Definition read_opt_name : Rd (option Spur) :=
  w ← word; if w =? U32_MAX then mret None else s ← lift_rd (expect (try_from_usize w)); mret (Some s).

(** [span.start()], [span.len()], and [Span::new(start, start + len)]. *)
Definition span_len (s : Span) : outcome Z := checked_sub 32 (sp_end s) (sp_start s).
Definition read_span : Rd Span :=
  start ← word; len ← word; e ← lift_rd (checked_add 32 start len); mret (MkSpan 0 start e).
Definition i64_word_pair (v : Z) : list Z := [wrap 32 v; wrap 32 (Z.shiftr v 32)].
Definition read_i64 : Rd Z := lo ← word; hi ← word; mret (to_i64 (Z.lor lo (shl 64 hi 32))).

(** ** Patterns *)

(** The words every pattern starts with. *)
Definition head (kind : Z) (s : Span) (rest : list Z) : outcome (list Z) :=
  len ← span_len s; mret (kind :: sp_start s :: len :: rest).

(** [encode_binding]; [enc] is the recursive call. *)
Definition binding_flags (b : RirPatternBinding) : Z :=
  Z.lor (Z.lor (if pb_is_wildcard b then 1 else 0) (if pb_is_mut b then 2 else 0))
    (if pb_sub_pattern b then 4 else 0).
Definition encode_binding (enc : RirPattern → outcome (list Z)) (b : RirPatternBinding)
    : outcome (list Z) :=
  sub ← match pb_sub_pattern b with Some p => enc p | None => mret [] end;
  mret (binding_flags b :: opt_name_word (pb_name b) :: sub).
Definition encode_struct_binding (enc : RirPattern → outcome (list Z)) (fb : RirStructPatternBinding)
    : outcome (list Z) :=
  ws ← encode_binding enc (sb_binding fb); mret (name_word (sb_field_name fb) :: ws).
Definition encode_struct_field (enc : RirPattern → outcome (list Z)) (f : RirStructField)
    : outcome (list Z) :=
  ws ← enc (rf_pattern f); mret (name_word (rf_field_name f) :: ws).
(** A list with its length in front. *)
Definition encode_list {A} (enc : A → outcome (list Z)) (l : list A) : outcome (list Z) :=
  ws ← mapM enc l; mret (len_u32 l :: concat ws).

(** [encode_pattern_tree]: the words it pushes. *)
Fixpoint rir_encode_pattern_tree (p : RirPattern) : outcome (list Z) :=
  match p with
  | RWildcard span => head KIND_WILDCARD span []
  | RInt value span => head KIND_INT span (i64_word_pair value)
  | RBool value span => head KIND_BOOL span [bool_word value]
  | RPath module type_name variant span =>
      head KIND_PATH span [opt_word module; name_word type_name; name_word variant]
  | RDataVariant module type_name variant bindings span =>
      ws ← encode_list (encode_binding rir_encode_pattern_tree) bindings;
      head KIND_DATA_VARIANT span (opt_word module :: name_word type_name :: name_word variant :: ws)
  | RStructVariant module type_name variant field_bindings span =>
      ws ← encode_list (encode_struct_binding rir_encode_pattern_tree) field_bindings;
      head KIND_STRUCT_VARIANT span (opt_word module :: name_word type_name :: name_word variant :: ws)
  | RIdent name is_mut span => head KIND_IDENT span [name_word name; bool_word is_mut]
  | RTuple elems rest_position span =>
      ws ← encode_list rir_encode_pattern_tree elems;
      head KIND_TUPLE span (opt_word rest_position :: ws)
  | RStruct module type_name fields has_rest span =>
      ws ← encode_list (encode_struct_field rir_encode_pattern_tree) fields;
      head KIND_STRUCT span (opt_word module :: name_word type_name :: bool_word has_rest :: ws)
  | RComptimeUnrollArm binding iterable span => head KIND_UNROLL span [name_word binding; iterable]
  end.

(** [decode_binding], [decode_struct_binding] and the fields of a struct pattern; [dec] is
    the recursive call. *)
Definition decode_binding (dec : Rd RirPattern) : Rd RirPatternBinding :=
  flags ← word;
  name ← read_opt_name;
  sub ← (if Z.land flags 4 =? 0 then mret None else p ← dec; mret (Some p));
  mret (MkBinding (negb (Z.land flags 1 =? 0)) (negb (Z.land flags 2 =? 0)) name sub).
Definition decode_struct_binding (dec : Rd RirPattern) : Rd RirStructPatternBinding :=
  field_name ← read_name; binding ← decode_binding dec; mret (MkStructBinding field_name binding).
Definition decode_struct_field (dec : Rd RirPattern) : Rd RirStructField :=
  field_name ← read_name; pattern ← dec; mret (MkRirField field_name pattern).

(** [decode_pattern_tree]. *)
Fixpoint rir_decode_pattern_tree (fuel : nat) : Rd RirPattern :=
  match fuel with
  | O => λ _ _, NoFuel
  | S fuel =>
      let dec := rir_decode_pattern_tree fuel in
      kind ← word;
      span ← read_span;
      if kind =? KIND_WILDCARD then mret (RWildcard span)
      else if kind =? KIND_INT then value ← read_i64; mret (RInt value span)
      else if kind =? KIND_BOOL then value ← read_bool; mret (RBool value span)
      else if kind =? KIND_PATH then
        module ← read_opt; type_name ← read_name; variant ← read_name;
        mret (RPath module type_name variant span)
      else if kind =? KIND_DATA_VARIANT then
        module ← read_opt; type_name ← read_name; variant ← read_name;
        bindings ← counted (decode_binding dec);
        mret (RDataVariant module type_name variant bindings span)
      else if kind =? KIND_STRUCT_VARIANT then
        module ← read_opt; type_name ← read_name; variant ← read_name;
        field_bindings ← counted (decode_struct_binding dec);
        mret (RStructVariant module type_name variant field_bindings span)
      else if kind =? KIND_IDENT then
        name ← read_name; is_mut ← read_bool; mret (RIdent name is_mut span)
      else if kind =? KIND_TUPLE then
        rest_position ← read_opt; elems ← counted dec; mret (RTuple elems rest_position span)
      else if kind =? KIND_STRUCT then
        module ← read_opt; type_name ← read_name; has_rest ← read_bool;
        fields ← counted (decode_struct_field dec);
        mret (RStruct module type_name fields has_rest span)
      else if kind =? KIND_UNROLL then
        binding ← read_name; iterable ← word; mret (RComptimeUnrollArm binding iterable span)
      else lift_rd Panic
  end.
End Codec.

(** ** The store *)
Section Store.
Context {Spur : Type} `{!SpurKey Spur}.
Notation Rir := (Rir Spur).
Notation RirPattern := (RirPattern Spur).
Notation dec_tree fuel := (rir_decode_pattern_tree (Spur := Spur) fuel).

Definition new_rir : Rir := MkRir [] [] [] [] [].
Definition set_r_instructions (l : list (Inst Spur)) (r : Rir) : Rir :=
  MkRir l (r_extra r) (r_function_spans r) (r_extern_fns r) (r_empty_link_extern_blocks r).
Definition set_r_extra (l : list Z) (r : Rir) : Rir :=
  MkRir (r_instructions r) l (r_function_spans r) (r_extern_fns r) (r_empty_link_extern_blocks r).

(** [Rir::{add_inst, get}], with the [debug_assert!]. *)
Definition rir_add_inst (inst : Inst Spur) (r : Rir) : outcome (InstRef * Rir) :=
  if decide (Z.of_nat (length (r_instructions r)) < U32_MAX)
  then mret (len_u32 (r_instructions r), set_r_instructions (r_instructions r ++ [inst]) r) else Panic.
Definition rir_get (r : Rir) (inst_ref : InstRef) : outcome (Inst Spur) :=
  index (r_instructions r) (Z.to_nat inst_ref).
(** [Rir::get_mut], used to replace the instruction. *)
Definition rir_set (inst_ref : InstRef) (inst : Inst Spur) (r : Rir) : outcome Rir :=
  _ ← rir_get r inst_ref; mret (set_r_instructions (<[Z.to_nat inst_ref := inst]> (r_instructions r)) r).
Definition rir_iter (r : Rir) : list (InstRef * Inst Spur) :=
  imap (λ i inst, (wrap 32 (Z.of_nat i), inst)) (r_instructions r).
Definition current_inst_index (r : Rir) : Z := len_u32 (r_instructions r).

(** [Rir::{add_extra, get_extra}]. *)
Definition rir_add_extra (data : list Z) (r : Rir) : outcome (Z * Rir) :=
  if decide (Z.of_nat (length (r_extra r)) + Z.of_nat (length data) ≤ U32_MAX)
  then mret (len_u32 (r_extra r), set_r_extra (r_extra r ++ data) r) else Panic.
Definition rir_get_extra (r : Rir) (start len : Z) : outcome (list Z) :=
  slice_range (r_extra r) start (start + len).
(** A payload added with [add_extra], and one pushed word by word on [self.extra]. *)
Definition add_checked {A} (words : list Z) (items : list A) (r : Rir) : outcome (Z * Z * Rir) :=
  '(start, r) ← rir_add_extra words r; mret (start, len_u32 items, r).
Definition add_pushed {A} (words : list Z) (items : list A) (r : Rir) : outcome (Z * Z * Rir) :=
  mret (len_u32 (r_extra r), len_u32 items, set_r_extra (r_extra r ++ words) r).
(** [for chunk in self.get_extra(start, len * size).chunks(size)]. *)
Definition get_chunks {A} (size : Z) (m : Rd A) (r : Rir) (start len : Z) : outcome (list A) :=
  n ← checked_mul 32 len size; data ← rir_get_extra r start n;
  '(items, _) ← times (Z.to_nat len) m data O; mret items.
(** [for _ in 0..count] from [pos = start]. *)
Definition get_from {A} (m : Rd A) (r : Rir) (start count : Z) : outcome (list A) :=
  '(items, _) ← times (Z.to_nat count) m (r_extra r) (Z.to_nat start); mret items.

Definition add_inst_refs (refs : list InstRef) (r : Rir) := add_checked refs refs r.
Definition get_inst_refs (r : Rir) (start len : Z) : outcome (list InstRef) := rir_get_extra r start len.
Definition add_symbols (symbols : list Spur) (r : Rir) := add_checked (map name_word symbols) symbols r.
Definition get_symbols (r : Rir) (start len : Z) : outcome (list Spur) :=
  data ← rir_get_extra r start len; mapM (λ w, expect (try_from_usize w)) data.

Definition VariantDecl : Type := Spur * list Spur * list Spur.
Definition variant_words (v : VariantDecl) : list Z :=
  let '(name, field_types, field_names) := v in
  [name_word name; len_u32 field_types; match field_names with [] => 0 | _ => 1 end]
  ++ map name_word field_types ++ map name_word field_names.
Definition read_variant : Rd VariantDecl :=
  name ← read_name; field_count ← word; is_struct ← read_bool;
  field_types ← times (Z.to_nat field_count) read_name;
  field_names ← (if is_struct : bool then times (Z.to_nat field_count) read_name else mret []);
  mret (name, field_types, field_names).
Definition add_enum_variant_decls (variants : list VariantDecl) (r : Rir) :=
  add_pushed (concat (map variant_words variants)) variants r.
Definition get_enum_variant_decls (r : Rir) (start variant_count : Z) : outcome (list VariantDecl) :=
  get_from read_variant r start variant_count.

Definition arg_mode_word (m : RirArgMode) : Z :=
  match m with RirNormal => 0 | RirMutRef => 1 | RirRef => 2 end.
Definition arg_mode_of (w : Z) : RirArgMode :=
  if w =? 1 then RirMutRef else if w =? 2 then RirRef else RirNormal.
Definition arg_words (a : RirCallArg) : list Z := [ra_value a; arg_mode_word (ra_mode a)].
Definition read_arg : Rd RirCallArg :=
  value ← word; mode ← word; mret (MkRirArg value (arg_mode_of mode)).
Definition rir_add_call_args (args : list RirCallArg) (r : Rir) :=
  add_checked (concat (map arg_words args)) args r.
Definition rir_get_call_args (r : Rir) (start len : Z) : outcome (list RirCallArg) :=
  get_chunks 2 read_arg r start len.

Definition param_mode_word (m : RirParamMode) : Z :=
  match m with ParamNormal => 0 | ParamMutRef => 1 | ParamRef => 2 | ParamComptime => 3 end.
Definition param_mode_of (w : Z) : RirParamMode :=
  if w =? 1 then ParamMutRef else if w =? 2 then ParamRef else if w =? 3 then ParamComptime
  else ParamNormal.
Definition param_words (p : RirParam (Spur := Spur)) : list Z :=
  [name_word (rp_name p); name_word (rp_ty p); param_mode_word (rp_mode p); bool_word (rp_is_comptime p)].
Definition read_param : Rd (RirParam (Spur := Spur)) :=
  name ← read_name; ty ← read_name; mode ← word; is_comptime ← read_bool;
  mret (MkRirParam name ty (param_mode_of mode) is_comptime).
Definition add_params (params : list (RirParam (Spur := Spur))) (r : Rir) :=
  add_checked (concat (map param_words params)) params r.
Definition get_params (r : Rir) (start len : Z) : outcome (list (RirParam (Spur := Spur))) :=
  get_chunks 4 read_param r start len.

Definition field_init_words (f : Spur * InstRef) : list Z := [name_word f.1; f.2].
Definition read_field_init : Rd (Spur * InstRef) := name ← read_name; value ← word; mret (name, value).
Definition add_field_inits (fields : list (Spur * InstRef)) (r : Rir) :=
  add_checked (concat (map field_init_words fields)) fields r.
Definition get_field_inits (r : Rir) (start len : Z) : outcome (list (Spur * InstRef)) :=
  get_chunks 2 read_field_init r start len.

Definition field_decl_words (f : Spur * Spur * bool) : list Z :=
  [name_word f.1.1; name_word f.1.2; bool_word f.2].
Definition read_field_decl : Rd (Spur * Spur * bool) :=
  name ← read_name; ty ← read_name; is_pub ← read_bool; mret (name, ty, is_pub).
Definition add_field_decls_with_vis (fields : list (Spur * Spur * bool)) (r : Rir) :=
  add_checked (concat (map field_decl_words fields)) fields r.
Definition add_field_decls (fields : list (Spur * Spur)) (r : Rir) :=
  add_field_decls_with_vis (map (λ f, (f, false)) fields) r.
Definition get_field_decls_with_vis (r : Rir) (start len : Z) : outcome (list (Spur * Spur * bool)) :=
  get_chunks 3 read_field_decl r start len.
Definition get_field_decls (r : Rir) (start len : Z) : outcome (list (Spur * Spur)) :=
  fs ← get_field_decls_with_vis r start len; mret (map fst fs).

(** Directives: the third word is the length of the span, and is read as its end. *)
Definition directive_words (d : RirDirective (Spur := Spur)) : outcome (list Z) :=
  len ← span_len (d_span d);
  mret ([name_word (d_name d); sp_start (d_span d); len; len_u32 (d_args d)] ++ map name_word (d_args d)).
Definition read_directive : Rd (RirDirective (Spur := Spur)) :=
  name ← read_name; start ← word; e ← word; args ← counted read_name;
  mret (MkDirective name args (MkSpan 0 start e)).
Definition add_directives (directives : list (RirDirective (Spur := Spur))) (r : Rir) :=
  ws ← mapM directive_words directives; add_pushed (concat ws) directives r.
Definition get_directives (r : Rir) (start directive_count : Z)
    : outcome (list (RirDirective (Spur := Spur))) :=
  get_from read_directive r start directive_count.

Definition destructure_words (f : RirDestructureField (Spur := Spur)) : list Z :=
  [name_word (df_field_name f); opt_name_word (df_binding_name f);
   bool_word (df_is_wildcard f); bool_word (df_is_mut f)].
Definition read_destructure : Rd (RirDestructureField (Spur := Spur)) :=
  field_name ← read_name; binding_name ← read_opt_name; is_wildcard ← read_bool; is_mut ← read_bool;
  mret (MkDestructure field_name binding_name is_wildcard is_mut).
Definition add_destructure_fields (fields : list (RirDestructureField (Spur := Spur))) (r : Rir) :=
  add_pushed (concat (map destructure_words fields)) fields r.
(** [pos = start + i * 4] for each [i]. *)
Definition get_destructure_fields (r : Rir) (start count : Z)
    : outcome (list (RirDestructureField (Spur := Spur))) :=
  mapM (λ i, k ← checked_mul 32 (Z.of_nat i) 4; pos ← checked_add 32 start k;
             '(f, _) ← read_destructure (r_extra r) (Z.to_nat pos); mret f)
       (seq 0 (Z.to_nat count)).

(** ** Match arms: the body word comes last, after the variant, or after the span. *)
Definition arm_words (arm : RirPattern * InstRef) : outcome (list Z) :=
  let body := arm.2 in
  match arm.1 with
  | RWildcard span => head KIND_WILDCARD span [body]
  | RInt value span => head KIND_INT span (i64_word_pair value ++ [body])
  | RBool value span => head KIND_BOOL span [bool_word value; body]
  | RPath module type_name variant span =>
      head KIND_PATH span [opt_word module; name_word type_name; name_word variant; body]
  | RDataVariant module type_name variant bindings span =>
      ws ← encode_list (encode_binding rir_encode_pattern_tree) bindings;
      head KIND_DATA_VARIANT span
        (opt_word module :: name_word type_name :: name_word variant :: body :: ws)
  | RStructVariant module type_name variant field_bindings span =>
      ws ← encode_list (encode_struct_binding rir_encode_pattern_tree) field_bindings;
      head KIND_STRUCT_VARIANT span
        (opt_word module :: name_word type_name :: name_word variant :: body :: ws)
  | RIdent name is_mut span => head KIND_IDENT span [body; name_word name; bool_word is_mut]
  | RTuple elems rest_position span =>
      ws ← encode_list rir_encode_pattern_tree elems;
      head KIND_TUPLE span (body :: opt_word rest_position :: ws)
  | RStruct module type_name fields has_rest span =>
      ws ← encode_list (encode_struct_field rir_encode_pattern_tree) fields;
      head KIND_STRUCT span
        (body :: opt_word module :: name_word type_name :: bool_word has_rest :: ws)
  | RComptimeUnrollArm binding iterable span =>
      head KIND_UNROLL span [body; name_word binding; iterable]
  end.
Definition add_match_arms (arms : list (RirPattern * InstRef)) (r : Rir) :=
  ws ← mapM arm_words arms; add_pushed (concat ws) arms r.

Definition read_arm (fuel : nat) : Rd (RirPattern * InstRef) :=
  kind ← word;
  span ← read_span;
  if kind =? KIND_WILDCARD then body ← word; mret (RWildcard span, body)
  else if kind =? KIND_INT then value ← read_i64; body ← word; mret (RInt value span, body)
  else if kind =? KIND_BOOL then value ← read_bool; body ← word; mret (RBool value span, body)
  else if kind =? KIND_PATH then
    module ← read_opt; type_name ← read_name; variant ← read_name; body ← word;
    mret (RPath module type_name variant span, body)
  else if kind =? KIND_DATA_VARIANT then
    module ← read_opt; type_name ← read_name; variant ← read_name; body ← word;
    bindings ← counted (decode_binding (dec_tree fuel));
    mret (RDataVariant module type_name variant bindings span, body)
  else if kind =? KIND_STRUCT_VARIANT then
    module ← read_opt; type_name ← read_name; variant ← read_name; body ← word;
    field_bindings ← counted (decode_struct_binding (dec_tree fuel));
    mret (RStructVariant module type_name variant field_bindings span, body)
  else if kind =? KIND_IDENT then
    body ← word; name ← read_name; is_mut ← read_bool; mret (RIdent name is_mut span, body)
  else if kind =? KIND_TUPLE then
    body ← word; rest_position ← read_opt; elems ← counted (dec_tree fuel);
    mret (RTuple elems rest_position span, body)
  else if kind =? KIND_STRUCT then
    body ← word; module ← read_opt; type_name ← read_name; has_rest ← read_bool;
    fields ← counted (decode_struct_field (dec_tree fuel));
    mret (RStruct module type_name fields has_rest span, body)
  else if kind =? KIND_UNROLL then
    body ← word; binding ← read_name; iterable ← word;
    mret (RComptimeUnrollArm binding iterable span, body)
  else lift_rd Panic.
(** The nesting of a pattern is bounded by the number of words. *)
Definition rir_get_match_arms (r : Rir) (start arm_count : Z) : outcome (list (RirPattern * InstRef)) :=
  get_from (read_arm (S (length (r_extra r)))) r start arm_count.

(** ** Side tables and function views *)
Definition add_extern_fn (f : RirExternFn (Spur := Spur)) (r : Rir) : Rir :=
  MkRir (r_instructions r) (r_extra r) (r_function_spans r) (r_extern_fns r ++ [f])
    (r_empty_link_extern_blocks r).
Definition add_empty_link_extern_block (library : Spur) (link_mode : RirLinkMode) (span : Span) (r : Rir) : Rir :=
  MkRir (r_instructions r) (r_extra r) (r_function_spans r) (r_extern_fns r)
    (r_empty_link_extern_blocks r ++ [(library, link_mode, span)]).
Definition add_function_span (span : FunctionSpan (Spur := Spur)) (r : Rir) : Rir :=
  MkRir (r_instructions r) (r_extra r) (r_function_spans r ++ [span]) (r_extern_fns r)
    (r_empty_link_extern_blocks r).
Definition function_count (r : Rir) : nat := length (r_function_spans r).
Definition find_function `{EqDecision Spur} (r : Rir) (name : Spur) : option FunctionSpan :=
  snd <$> list_find (λ s, fs_name s = name) (r_function_spans r).
Definition instruction_count (s : FunctionSpan (Spur := Spur)) : outcome Z :=
  n ← checked_sub 32 (fs_decl s) (fs_body_start s); checked_add 32 n 1.

(** [RirFunctionView]. *)
Record RirFunctionView : Type := MkView { fv_rir : Rir; fv_body_start : InstRef; fv_decl : InstRef }.
Definition function_view (r : Rir) (s : FunctionSpan (Spur := Spur)) : RirFunctionView :=
  MkView r (fs_body_start s) (fs_decl s).
Definition view_get (v : RirFunctionView) (inst_ref : InstRef) : outcome (Inst Spur) :=
  if decide (fv_body_start v ≤ inst_ref ≤ fv_decl v) then rir_get (fv_rir v) inst_ref else Panic.
Definition view_fn_decl (v : RirFunctionView) : outcome (Inst Spur) := rir_get (fv_rir v) (fv_decl v).
Definition view_iter (v : RirFunctionView) : outcome (list (InstRef * Inst Spur)) :=
  e ← checked_add 32 (fv_decl v) 1;
  mapM (λ i, inst ← rir_get (fv_rir v) i; mret (i, inst)) (seqZ (fv_body_start v) (e - fv_body_start v)).
Definition view_len (v : RirFunctionView) : outcome Z :=
  n ← checked_sub 32 (fv_decl v) (fv_body_start v); checked_add 32 n 1.
Definition view_is_empty (v : RirFunctionView) : bool := fv_decl v <? fv_body_start v.
End Store.
