(* ===== verification/RirCodec.v ===== *)
(** * The payload encodings of the RIR round trip

    What was stored is read back, for every kind of payload, whatever is stored later. *)

From S2P Require Import Prelude Types AirPattern Air ParamArena Rir.

#[local] Open Scope Z_scope.

(** ** Readers

    [reads m w a]: from words that start with [w], [m] reads [a] and consumes [w]. *)
Definition reads {A} (m : Rd A) (w : list Z) (a : A) : Prop :=
  ∀ pre post, m (pre ++ w ++ post) (length pre) = Done (a, (length pre + length w)%nat).

Lemma reads_ret {A} (a : A) : reads (mret a) [] a.
Proof. intros pre post. simpl. by rewrite Nat.add_0_r. Qed.
Lemma reads_bind {A B} (m : Rd A) (f : A → Rd B) w1 w2 a b :
  reads m w1 a → reads (f a) w2 b → reads (m ≫= f) (w1 ++ w2) b.
Proof.
  intros H1 H2 pre post. unfold mbind, Rd_bind, mbind, ST_bind.
  rewrite <-(assoc_L (++)), H1. simpl. specialize (H2 (pre ++ w1) post).
  rewrite <-(assoc_L (++)), length_app in H2. rewrite H2, length_app. do 2 f_equal. lia.
Qed.
Lemma reads_word w : reads word [w] w.
Proof.
  intros pre post. unfold word, index. simpl. rewrite list_lookup_middle by done. simpl.
  by rewrite Nat.add_1_r.
Qed.
Lemma reads_lift {A} (m : outcome A) a : m = Done a → reads (lift_rd m) [] a.
Proof. intros -> pre post. simpl. by rewrite Nat.add_0_r. Qed.
(** A reader of one word followed by a computation on it. *)
Lemma reads_cons {A} (f : Z → Rd A) w ws a : reads (f w) ws a → reads (word ≫= f) (w :: ws) a.
Proof. intros Hf. apply (reads_bind _ _ [w] ws _ _ (reads_word w) Hf). Qed.
(** The last step of a reader. *)
Lemma reads_map {A B} (m : Rd A) (f : A → Rd B) w a b :
  reads m w a → f a = mret b → reads (m ≫= f) w b.
Proof.
  intros Hm Hf. rewrite <-(app_nil_r w). eapply reads_bind; [exact Hm|]. rewrite Hf. apply reads_ret.
Qed.

Lemma reads_times {A X} (m : Rd A) (enc : X → list Z) (g : X → A) l :
  (∀ x, x ∈ l → reads m (enc x) (g x)) → reads (times (length l) m) (concat (map enc l)) (map g l).
Proof.
  induction l as [|x l IH]; intros Hl; simpl; [apply reads_ret|].
  eapply reads_bind; [apply Hl; by left|]. rewrite <-(app_nil_r (concat _)).
  eapply reads_bind; [apply IH; intros; apply Hl; by right|]. apply reads_ret.
Qed.
(** With the words of an item computed in [outcome]. *)
Lemma reads_timesM {A X} (m : Rd A) (enc : X → outcome (list Z)) (g : X → A) l ws :
  mapM enc l = Done ws → (∀ x w, x ∈ l → w ∈ ws → enc x = Done w → reads m w (g x)) →
  reads (times (length l) m) (concat ws) (map g l).
Proof.
  intros Hm%mapM_Done. induction Hm as [|x w l ws Hx Hl IH]; intros Hr; simpl; [apply reads_ret|].
  eapply reads_bind; [apply Hr; [by left|by left|done]|]. rewrite <-(app_nil_r (concat _)).
  eapply reads_bind; [apply IH; intros; apply Hr; [by right|by right|done]|]. apply reads_ret.
Qed.
Lemma reads_counted {A X} (m : Rd A) (enc : X → outcome (list Z)) (g : X → A) l w :
  encode_list enc l = Done w → short l →
  (∀ x w', x ∈ l → enc x = Done w' → (length w' < length w)%nat → reads m w' (g x)) →
  reads (counted m) w (map g l).
Proof.
  unfold encode_list. intros (ws & Hm & [= <-])%bind_Done Hs Hr. unfold counted.
  apply reads_cons. rewrite len_u32_small, Nat2Z.id by done.
  eapply reads_timesM; [exact Hm|]. intros x w' Hx Hw He. apply Hr; [done..|]. simpl.
  apply list_elem_of_split in Hw as (l1 & l2 & ->). rewrite concat_app. simpl.
  rewrite !length_app. lia.
Qed.
(** A reader that reads from the start of its words. *)
Lemma reads_all {A} (m : Rd A) w a : reads m w a → m w O = Done (a, length w).
Proof. intros Hr. specialize (Hr [] []). by rewrite app_nil_r in Hr. Qed.

Create HintDb reads discriminated.

Section Codec.
Context {Spur : Type} `{!SpurKey Spur, !SpurLaws Spur}.
(** The interner never hands out the index [u32::MAX]. *)
Context (index_bound : ∀ s : Spur, into_usize s < U32_MAX).

Lemma name_word_id (s : Spur) : name_word s = into_usize s.
Proof. apply wrap_small. apply into_usize_u32. Qed.
Lemma reads_name s : reads (read_name (Spur := Spur)) [name_word s] s.
Proof. apply reads_cons, reads_lift. by rewrite name_word_id, try_from_into. Qed.
Lemma reads_bool b : reads read_bool [bool_word b] b.
Proof. eapply reads_map; [apply reads_word|]. by destruct b. Qed.
Definition ref_ok (o : option Z) : Prop := match o with Some r => 0 ≤ r < U32_MAX | None => True end.
Lemma reads_opt o : ref_ok o → reads read_opt [opt_word o] o.
Proof.
  intros Ho. eapply reads_map; [apply reads_word|]. destruct o as [r|]; simpl in *; [|done].
  by rewrite (proj2 (Z.eqb_neq r U32_MAX)) by lia.
Qed.
Lemma reads_opt_name o : reads (read_opt_name (Spur := Spur)) [opt_name_word o] o.
Proof.
  apply reads_cons. destruct o as [s|]; simpl; [|apply reads_ret].
  rewrite name_word_id. pose proof (index_bound s). rewrite (proj2 (Z.eqb_neq _ _)) by lia.
  eapply reads_map; [apply reads_lift; by rewrite try_from_into|done].
Qed.
Lemma reads_i64 v : - 2 ^ 63 ≤ v < 2 ^ 63 → reads read_i64 (i64_word_pair v) v.
Proof. intros Hv. do 2 apply reads_cons. rewrite i64_words by done. apply reads_ret. Qed.

(** Spans come back without their file. *)
Definition span_ok (s : Span) : Prop := 0 ≤ sp_start s ≤ sp_end s ∧ sp_end s < 2 ^ 32.
Definition unfiled (s : Span) : Span := MkSpan 0 (sp_start s) (sp_end s).
Lemma span_len_Done s : span_ok s → span_len s = Done (sp_end s - sp_start s).
Proof. intros ?. unfold span_len. apply checked_sub_Done. unfold span_ok, in_u in *. lia. Qed.
Lemma reads_span s : span_ok s → reads read_span [sp_start s; sp_end s - sp_start s] (unfiled s).
Proof.
  intros Hs. do 2 apply reads_cons.
  eapply reads_map; [|done]. apply reads_lift, checked_add_Done. unfold span_ok, in_u in *. lia.
Qed.

#[local] Hint Resolve reads_name reads_bool reads_opt reads_opt_name reads_i64 reads_span : reads.

(** ** Patterns *)
Notation RirPattern := (RirPattern Spur).

(** The pattern without the files of its spans. *)
Definition unfile_binding (f : RirPattern → RirPattern) (b : RirPatternBinding Spur RirPattern) :=
  MkBinding (pb_is_wildcard b) (pb_is_mut b) (pb_name b)
    (match pb_sub_pattern b with Some p => Some (f p) | None => None end).
Fixpoint unfile (p : RirPattern) : RirPattern :=
  match p with
  | RWildcard s => RWildcard (unfiled s)
  | RInt v s => RInt v (unfiled s)
  | RBool v s => RBool v (unfiled s)
  | RPath m t v s => RPath m t v (unfiled s)
  | RDataVariant m t v bs s => RDataVariant m t v (map (unfile_binding unfile) bs) (unfiled s)
  | RStructVariant m t v bs s =>
      RStructVariant m t v
        (map (λ b, MkStructBinding (sb_field_name b) (unfile_binding unfile (sb_binding b))) bs) (unfiled s)
  | RIdent n m s => RIdent n m (unfiled s)
  | RTuple es r s => RTuple (map unfile es) r (unfiled s)
  | RStruct m t fs r s =>
      RStruct m t (map (λ f, MkRirField (rf_field_name f) (unfile (rf_pattern f))) fs) r (unfiled s)
  | RComptimeUnrollArm b i s => RComptimeUnrollArm b i (unfiled s)
  end.

(** What the Rust types and the parser guarantee: ordered spans, [i64] literals, references
    below [u32::MAX], lists whose length fits a word. *)
Definition sub_ok (P : RirPattern → Prop) (b : RirPatternBinding Spur RirPattern) : Prop :=
  ∀ p, pb_sub_pattern b = Some p → P p.
Inductive pattern_ok : RirPattern → Prop :=
  | ok_wildcard s : span_ok s → pattern_ok (RWildcard s)
  | ok_int v s : - 2 ^ 63 ≤ v < 2 ^ 63 → span_ok s → pattern_ok (RInt v s)
  | ok_bool v s : span_ok s → pattern_ok (RBool v s)
  | ok_path m t v s : ref_ok m → span_ok s → pattern_ok (RPath m t v s)
  | ok_data m t v bs s : ref_ok m → short bs → Forall (sub_ok pattern_ok) bs → span_ok s →
      pattern_ok (RDataVariant m t v bs s)
  | ok_struct_variant m t v bs s : ref_ok m → short bs →
      Forall (λ b, sub_ok pattern_ok (sb_binding b)) bs → span_ok s →
      pattern_ok (RStructVariant m t v bs s)
  | ok_ident n m s : span_ok s → pattern_ok (RIdent n m s)
  | ok_tuple es r s : ref_ok r → short es → Forall pattern_ok es → span_ok s →
      pattern_ok (RTuple es r s)
  | ok_struct m t fs r s : ref_ok m → short fs → Forall (λ f, pattern_ok (rf_pattern f)) fs →
      span_ok s → pattern_ok (RStruct m t fs r s)
  | ok_unroll b i s : span_ok s → pattern_ok (RComptimeUnrollArm b i s).

(** The header of a pattern, and the rest of its reader. *)
Lemma head_Done kind s rest w : span_ok s → head kind s rest = Done w →
  w = kind :: sp_start s :: (sp_end s - sp_start s) :: rest.
Proof. intros Hs. unfold head. rewrite span_len_Done by done. by intros [= <-]. Qed.
Lemma reads_head {A} (f : Z → Span → Rd A) kind s ws a :
  span_ok s → reads (f kind (unfiled s)) ws a →
  reads (k ← word; sp ← read_span; f k sp) (kind :: sp_start s :: (sp_end s - sp_start s) :: ws) a.
Proof.
  intros Hs Hf. apply reads_cons.
  apply (reads_bind _ _ [_; _] ws _ _ (reads_span s Hs) Hf).
Qed.
(** The next item of a reader. *)
Lemma reads_item {A B} (m : Rd A) (f : A → Rd B) x ws a b :
  reads m [x] a → reads (f a) ws b → reads (m ≫= f) (x :: ws) b.
Proof. intros H1 H2. by apply (reads_bind _ _ [x] ws a b). Qed.

Lemma reads_binding dec b w :
  (∀ p, pb_sub_pattern b = Some p → ∀ w', rir_encode_pattern_tree p = Done w' →
     (length w' ≤ length w)%nat → reads dec w' (unfile p)) →
  encode_binding rir_encode_pattern_tree b = Done w →
  reads (decode_binding dec) w (unfile_binding unfile b).
Proof.
  unfold encode_binding, decode_binding. intros Hsub (sub & Hs & [= <-])%bind_Done.
  apply reads_cons. eapply reads_item; [apply reads_opt_name|].
  unfold binding_flags, unfile_binding. destruct b as [wc mt nm [q|]]; simpl in *.
  - assert (Hq : reads dec sub (unfile q)) by (eapply Hsub; [done|exact Hs|simpl; lia]).
    destruct wc, mt; simpl; (rewrite <-(app_nil_r sub); eapply reads_bind; [|apply reads_ret]);
      (eapply reads_map; [exact Hq|done]).
  - injection Hs as <-. destruct wc, mt; simpl; (eapply reads_map; [apply reads_ret|done]).
Qed.

(** Reads the items of a fixed layout one after the other. *)
Ltac items :=
  repeat first
    [ apply reads_ret
    | eapply reads_map; [solve [apply reads_word|auto with reads]|reflexivity]
    | eapply reads_item; [solve [auto with reads]|]
    | apply reads_cons ].

(** *** The lists at the end of a layout

    [dec] reads the patterns that take at most [n] words. *)
Section Lists.
Context (dec : Rd RirPattern) (n : nat).
Context (Hdec : ∀ q w, rir_encode_pattern_tree q = Done w → pattern_ok q → (length w ≤ n)%nat →
  reads dec w (unfile q)).
Lemma reads_elems es ws :
  encode_list rir_encode_pattern_tree es = Done ws → short es → Forall pattern_ok es →
  (length ws ≤ S n)%nat → reads (counted dec) ws (map unfile es).
Proof using Hdec.
  rewrite list.Forall_forall. intros He Hs Hok Hn. eapply reads_counted; [exact He|done|].
  intros q w Hq Hw Hlt. apply Hdec; [done|by apply Hok|lia].
Qed.
Lemma reads_bindings bs ws :
  encode_list (encode_binding rir_encode_pattern_tree) bs = Done ws → short bs →
  Forall (sub_ok pattern_ok) bs → (length ws ≤ S n)%nat →
  reads (counted (decode_binding dec)) ws (map (unfile_binding unfile) bs).
Proof using Hdec index_bound SpurLaws0.
  rewrite list.Forall_forall. intros He Hs Hok Hn. eapply reads_counted; [exact He|done|].
  intros b w Hb Hw Hlt. apply reads_binding; [|done].
  intros q Hq w' Hw' Hl. apply Hdec; [done|by apply (Hok b Hb)|lia].
Qed.
Lemma reads_struct_bindings bs ws :
  encode_list (encode_struct_binding rir_encode_pattern_tree) bs = Done ws → short bs →
  Forall (λ b, sub_ok pattern_ok (sb_binding b)) bs → (length ws ≤ S n)%nat →
  reads (counted (decode_struct_binding dec)) ws
    (map (λ b, MkStructBinding (sb_field_name b) (unfile_binding unfile (sb_binding b))) bs).
Proof using Hdec index_bound SpurLaws0.
  rewrite list.Forall_forall. intros He Hs Hok Hn. eapply reads_counted; [exact He|done|].
  intros b w Hb (w' & Hw' & [= <-])%bind_Done Hlt. simpl in Hlt.
  eapply reads_item; [by auto with reads|]. eapply reads_map; [|done]. apply reads_binding; [|done].
  intros q Hq w2 Hw2 Hl. apply Hdec; [done|by apply (Hok b Hb)|lia].
Qed.
Lemma reads_struct_fields fs ws :
  encode_list (encode_struct_field rir_encode_pattern_tree) fs = Done ws → short fs →
  Forall (λ f, pattern_ok (rf_pattern f)) fs → (length ws ≤ S n)%nat →
  reads (counted (decode_struct_field dec)) ws
    (map (λ f, MkRirField (rf_field_name f) (unfile (rf_pattern f))) fs).
Proof using Hdec SpurLaws0.
  rewrite list.Forall_forall. intros He Hs Hok Hn. eapply reads_counted; [exact He|done|].
  intros f w Hf (w' & Hw' & [= <-])%bind_Done Hlt. simpl in Hlt.
  eapply reads_item; [by auto with reads|]. eapply reads_map; [|done].
  apply Hdec; [done|by apply (Hok f Hf)|lia].
Qed.
End Lists.

(** Splits the words of a pattern into its header, its items and its list. *)
Ltac layout He :=
  first [apply head_Done in He as ->; [|done]
        |apply bind_Done in He as (ws & Hws & He); apply head_Done in He as ->; [|done]];
  apply reads_head; [done|]; simpl; items.
Ltac last_list lem := eapply reads_map; [eapply lem; [eassumption..|simpl in *; lia]|reflexivity].
Lemma encode_length p w : rir_encode_pattern_tree p = Done w → pattern_ok p → (3 ≤ length w)%nat.
Proof.
  intros He Hp. destruct Hp; simpl in He;
    (first [apply head_Done in He as ->|apply bind_Done in He as (? & _ & He); apply head_Done in He as ->];
     [simpl; lia|done]).
Qed.
Lemma tree_reads fuel p w :
  rir_encode_pattern_tree p = Done w → pattern_ok p → (length w ≤ fuel)%nat →
  reads (rir_decode_pattern_tree fuel) w (unfile p).
Proof using index_bound SpurLaws0.
  revert p w. induction fuel as [|fuel IH]; intros p w He Hp Hlen.
  { pose proof (encode_length _ _ He Hp). lia. }
  destruct Hp; simpl in He; layout He.
  - last_list reads_bindings.
  - last_list reads_struct_bindings.
  - last_list reads_elems.
  - last_list reads_struct_fields.
Qed.
Lemma arm_reads fuel p body w :
  arm_words (p, body) = Done w → pattern_ok p → (length w ≤ S fuel)%nat →
  reads (read_arm fuel) w (unfile p, body).
Proof using index_bound SpurLaws0.
  pose proof (tree_reads fuel) as IH. intros He Hp Hlen. destruct Hp; simpl in He; layout He.
  - apply (reads_bind _ _ (i64_word_pair v) [body] v); [by apply reads_i64|items].
  - last_list reads_bindings.
  - last_list reads_struct_bindings.
  - last_list reads_elems.
  - last_list reads_struct_fields.
Qed.

(** ** Items of the other payloads *)
Lemma reads_names l : reads (times (length l) (read_name (Spur := Spur))) (map name_word l) l.
Proof using SpurLaws0.
  replace (map name_word l) with (concat (map (λ s, [name_word s]) l)) by (induction l; simpl; congruence).
  rewrite <-(map_id l) at 3. apply reads_times. intros. apply reads_name.
Qed.
Lemma reads_arg a : reads read_arg (arg_words a) a.
Proof. destruct a as [v []]; items. Qed.
Lemma reads_param p : reads read_param (param_words p) p.
Proof using SpurLaws0. destruct p as [n t [] c]; items. Qed.
Lemma reads_field_init f : reads read_field_init (field_init_words f) f.
Proof using SpurLaws0. destruct f as [n v]. items. Qed.
Lemma reads_field_decl f : reads read_field_decl (field_decl_words f) f.
Proof using SpurLaws0. destruct f as [[n t] v]. items. Qed.
Lemma reads_destructure f : reads read_destructure (destructure_words f) f.
Proof using index_bound SpurLaws0. destruct f as [n b w m]. items. Qed.

(** The names of a struct variant are one per field. *)
Definition variant_ok (v : VariantDecl (Spur := Spur)) : Prop :=
  short v.1.2 ∧ (v.2 = [] ∨ length v.2 = length v.1.2).
Lemma reads_variant v : variant_ok v → reads read_variant (variant_words v) v.
Proof using SpurLaws0.
  destruct v as [[n ts] ns]. intros [Hs Hn]. simpl in *. eapply reads_item; [by auto with reads|].
  apply reads_cons. rewrite len_u32_small, Nat2Z.id by done. destruct ns as [|x ns].
  - eapply reads_item; [apply (reads_bool false)|]. eapply reads_bind; [apply reads_names|]. simpl. items.
  - destruct Hn as [?|Hn]; [done|]. eapply reads_item; [apply (reads_bool true)|].
    eapply reads_bind; [apply reads_names|]. simpl. rewrite <-Hn.
    eapply reads_map; [apply (reads_names (x :: ns))|done].
Qed.

(** A directive comes back with the length of its span as the span's end. *)
Definition directive_ok (d : RirDirective (Spur := Spur)) : Prop := span_ok (d_span d) ∧ short (d_args d).
Definition reread (d : RirDirective (Spur := Spur)) : RirDirective :=
  MkDirective (d_name d) (d_args d)
    (MkSpan 0 (sp_start (d_span d)) (sp_end (d_span d) - sp_start (d_span d))).
Lemma reads_directive d w : directive_ok d → directive_words d = Done w → reads read_directive w (reread d).
Proof using SpurLaws0.
  intros [Hs Ha]. unfold directive_words. rewrite span_len_Done by done. intros [= <-]. simpl.
  eapply reads_item; [by auto with reads|]. do 2 apply reads_cons. eapply reads_map; [|done].
  apply reads_cons. rewrite len_u32_small, Nat2Z.id by done. apply reads_names.
Qed.
End Codec.
