(* ===== verification/RirStore.v ===== *)
(** * The RIR store: what is stored is read back *)

From stdpp Require Import relations.
From S2P Require Import Prelude Types AirPattern Air ParamArena Rir RirCodec.

#[local] Open Scope Z_scope.

(** The kinds of payload of the store. *)
Inductive PayloadKind : Set :=
  | KRefs | KSymbols | KVariants | KCallArgs | KParams | KArms | KFieldInits | KFieldDecls
  | KDirectives | KDestructure.
#[export] Instance PayloadKind_eq : EqDecision PayloadKind.
Proof. solve_decision. Defined.

Section Payloads.
Context {Spur : Type} `{!SpurKey Spur}.
Notation Rir := (Rir Spur).

(** The items of a payload, the operation that stores them and the one that reads them. *)
Definition Item (k : PayloadKind) : Type :=
  match k with
  | KRefs => InstRef
  | KSymbols => Spur
  | KVariants => VariantDecl (Spur := Spur)
  | KCallArgs => RirCallArg
  | KParams => RirParam (Spur := Spur)
  | KArms => RirPattern Spur * InstRef
  | KFieldInits => Spur * InstRef
  | KFieldDecls => Spur * Spur * bool
  | KDirectives => RirDirective (Spur := Spur)
  | KDestructure => RirDestructureField (Spur := Spur)
  end.
Definition add_payload (k : PayloadKind) : list (Item k) → Rir → outcome (Z * Z * Rir) :=
  match k with
  | KRefs => add_inst_refs
  | KSymbols => add_symbols
  | KVariants => add_enum_variant_decls
  | KCallArgs => rir_add_call_args
  | KParams => add_params
  | KArms => add_match_arms
  | KFieldInits => add_field_inits
  | KFieldDecls => add_field_decls_with_vis
  | KDirectives => add_directives
  | KDestructure => add_destructure_fields
  end.
Definition get_payload (k : PayloadKind) : Rir → Z → Z → outcome (list (Item k)) :=
  match k with
  | KRefs => get_inst_refs
  | KSymbols => get_symbols
  | KVariants => get_enum_variant_decls
  | KCallArgs => rir_get_call_args
  | KParams => get_params
  | KArms => rir_get_match_arms
  | KFieldInits => get_field_inits
  | KFieldDecls => get_field_decls_with_vis
  | KDirectives => get_directives
  | KDestructure => get_destructure_fields
  end.

(** What the types and the parser guarantee of an item, and what comes back: the item,
    but for the file of the spans of a pattern and the span of a directive. *)
Definition item_ok (k : PayloadKind) : Item k → Prop :=
  match k with
  | KVariants => variant_ok
  | KArms => λ a, pattern_ok a.1
  | KDirectives => directive_ok
  | _ => λ _, True
  end.
Definition read_as (k : PayloadKind) : Item k → Item k :=
  match k with
  | KArms => λ a, (unfile a.1, a.2)
  | KDirectives => reread
  | _ => λ x, x
  end.

(** The steps of the store. *)
Inductive rir_step : Rir → Rir → Prop :=
  | step_payload k items r s n r' : add_payload k items r = Done (s, n, r') → rir_step r r'
  | step_field_decls fields r s n r' : add_field_decls fields r = Done (s, n, r') → rir_step r r'
  | step_extra data r s r' : rir_add_extra data r = Done (s, r') → rir_step r r'
  | step_inst inst r i r' : rir_add_inst inst r = Done (i, r') → rir_step r r'
  | step_set i inst r r' : rir_set i inst r = Done r' → rir_step r r'
  | step_extern f r : rir_step r (add_extern_fn f r)
  | step_block l m s r : rir_step r (add_empty_link_extern_block l m s r)
  | step_span s r : rir_step r (add_function_span s r).

(** ** Payload words are only appended *)

(** [start] and [count] name [words], appended by one operation. *)
Definition appended_at {A} (words : list Z) (items : list A) (r : Rir) (start count : Z) (r' : Rir) : Prop :=
  start = len_u32 (r_extra r) ∧ count = len_u32 items ∧ r_extra r' = r_extra r ++ words.
Lemma add_checked_at {A} words (items : list A) r s n r' :
  add_checked words items r = Done (s, n, r') → appended_at words items r s n r'.
Proof.
  unfold add_checked, rir_add_extra. intros ([s0 r0] & Ha & [= <- <- <-])%bind_Done.
  case_decide; [|done]. by injection Ha as <- <-.
Qed.
Lemma add_pushed_at {A} words (items : list A) r s n r' :
  add_pushed words items r = Done (s, n, r') → appended_at words items r s n r'.
Proof. by intros [= <- <- <-]. Qed.
Lemma add_payload_at k items r s n r' :
  add_payload k items r = Done (s, n, r') → ∃ words, appended_at words items r s n r'.
Proof.
  destruct k; simpl; intros Ha;
    first [apply add_checked_at in Ha|apply add_pushed_at in Ha
          |apply bind_Done in Ha as (? & _ & Ha); apply add_pushed_at in Ha]; eauto.
Qed.
Lemma rir_step_prefix r r' : rir_step r r' → r_extra r `prefix_of` r_extra r'.
Proof.
  destruct 1 as [k items r s n r' Ha|fs r s n r' Ha|data r s r' Ha|inst r i r' Ha|i inst r r' Ha| | |]; simpl; try done.
  - apply add_payload_at in Ha as (ws & _ & _ & ->). by apply prefix_app_r.
  - apply add_checked_at in Ha as (_ & _ & ->). by apply prefix_app_r.
  - unfold rir_add_extra in Ha. case_decide; [|done]. injection Ha as <- <-. by apply prefix_app_r.
  - unfold rir_add_inst in Ha. case_decide; [|done]. by injection Ha as <- <-.
  - apply bind_Done in Ha as (? & _ & [= <-]). done.
Qed.
Lemma rir_steps_prefix r r' : rtc rir_step r r' → r_extra r `prefix_of` r_extra r'.
Proof. induction 1 as [|r1 r2 r3 Hs%rir_step_prefix _ IH]; [done|by etransitivity]. Qed.

(** ** Reading *)
Section Read.
Context (r : Rir) (pre words post : list Z) (Hr : r_extra r = pre ++ words ++ post).
Lemma read_extra : rir_get_extra r (Z.of_nat (length pre)) (Z.of_nat (length words)) = Done words.
Proof using Hr.
  unfold rir_get_extra. rewrite Hr, <-Nat2Z.inj_add. apply slice_range_app.
Qed.
Lemma read_from {A} (m : Rd A) n res :
  reads (times n m) words res → get_from m r (Z.of_nat (length pre)) (Z.of_nat n) = Done res.
Proof using Hr. intros Hm. unfold get_from. by rewrite Hr, !Nat2Z.id, Hm. Qed.
Lemma read_chunks {A} (m : Rd A) size n res :
  reads (times n m) words res → Z.of_nat (length words) = Z.of_nat n * size →
  Z.of_nat (length words) < 2 ^ 32 →
  get_chunks size m r (Z.of_nat (length pre)) (Z.of_nat n) = Done res.
Proof using Hr.
  intros Hm Hl Hs. unfold get_chunks.
  assert (checked_mul 32 (Z.of_nat n) size = Done (Z.of_nat (length words))) as ->
    by (apply checked_mul_Done; unfold in_u; lia).
  simpl. rewrite read_extra. simpl. rewrite Nat2Z.id, (reads_all _ _ _ Hm). done.
Qed.
End Read.

Lemma fixed_words {A} (enc : A → list Z) k l :
  (∀ x, length (enc x) = k) → length (concat (map enc l)) = (length l * k)%nat.
Proof. intros Hk. induction l as [|x l IH]; simpl; [done|]. rewrite length_app, Hk, IH. lia. Qed.

Context `{!SpurLaws Spur} (index_bound : ∀ s : Spur, into_usize s < U32_MAX).

(** Items of four words are read at [start + 4 * i]. *)
Lemma read_destructures r pre l post :
  r_extra r = pre ++ concat (map destructure_words l) ++ post →
  Z.of_nat (length pre + length l * 4) < 2 ^ 32 →
  get_destructure_fields r (Z.of_nat (length pre)) (Z.of_nat (length l)) = Done l.
Proof using SpurLaws0 index_bound.
  intros Hr Hs. unfold get_destructure_fields. rewrite Nat2Z.id. apply mapM_Done, Forall2_same_length_lookup_2.
  { by rewrite length_seq. }
  intros i j f Hj Hf. apply lookup_seq in Hj as [-> Hi]. simpl.
  assert (checked_mul 32 (Z.of_nat i) 4 = Done (Z.of_nat i * 4)) as -> by (apply checked_mul_Done; unfold in_u; lia).
  simpl. assert (checked_add 32 (Z.of_nat (length pre)) (Z.of_nat i * 4) = Done (Z.of_nat (length pre + i * 4))) as ->
    by (apply checked_add_Done; unfold in_u; lia).
  simpl. rewrite Nat2Z.id. destruct (list_elem_of_split_length l i f Hf) as (l1 & l2 & -> & ->).
  rewrite Hr, map_app, concat_app. simpl.
  pose proof (fixed_words destructure_words 4 l1 ltac:(done)) as Hl.
  pose proof (reads_destructure index_bound f (pre ++ concat (map destructure_words l1))
    (concat (map destructure_words l2) ++ post)) as Hf'.
  rewrite length_app, Hl in Hf'. rewrite <-!(assoc_L (++)) in Hf' |- *. simpl in Hf' |- *. by rewrite Hf'.
Qed.

(** The words of a payload with items of a fixed size. *)
Lemma chunks_back {A} (m : Rd A) (enc : A → list Z) (k : nat) items (r0 : Rir) s n r1 (r2 : Rir) :
  (∀ x, reads m (enc x) x) → (∀ x, length (enc x) = k) →
  add_checked (concat (map enc items)) items r0 = Done (s, n, r1) →
  r_extra r1 `prefix_of` r_extra r2 → Z.of_nat (length (r_extra r2)) < 2 ^ 32 → short items →
  get_chunks (Z.of_nat k) m r2 s n = Done items.
Proof using.
  intros Hm Hk (-> & -> & He)%add_checked_at [post Hp] Hs Hi. rewrite He, <-(assoc_L (++)) in Hp.
  pose proof (f_equal length Hp) as Hl. rewrite !length_app in Hl.
  rewrite !len_u32_small by (unfold short in *; lia).
  apply (read_chunks r2 _ _ _ Hp); [|rewrite (fixed_words _ k) by done; lia|lia].
  rewrite <-(map_id items) at 3. apply reads_times. auto.
Qed.
Lemma pushed_back {A} (m : Rd A) (g : A → A) words items (r0 : Rir) s n r1 (r2 : Rir) :
  reads (times (length items) m) words (map g items) →
  add_pushed words items r0 = Done (s, n, r1) →
  r_extra r1 `prefix_of` r_extra r2 → Z.of_nat (length (r_extra r2)) < 2 ^ 32 → short items →
  get_from m r2 s n = Done (map g items).
Proof using.
  intros Hm (-> & -> & He)%add_pushed_at [post Hp] Hs Hi. rewrite He, <-(assoc_L (++)) in Hp.
  pose proof (f_equal length Hp) as Hl. rewrite !length_app in Hl.
  rewrite !len_u32_small by (unfold short in *; lia). by apply (read_from r2 _ _ _ Hp).
Qed.

(** A payload stored before is read back from every vector that extends the store's. *)
Lemma payload_reads k items (r0 : Rir) s n r1 (r2 : Rir) :
  add_payload k items r0 = Done (s, n, r1) → r_extra r1 `prefix_of` r_extra r2 →
  Forall (item_ok k) items → short items → Z.of_nat (length (r_extra r2)) < 2 ^ 32 →
  get_payload k r2 s n = Done (map (read_as k) items).
Proof using SpurLaws0 index_bound.
  intros Ha Hp Hok Hi Hs. rewrite list.Forall_forall in Hok.
  destruct k; simpl in *; rewrite ?map_id.
  - apply add_checked_at in Ha as (-> & -> & He). destruct Hp as [post Hp]. rewrite He, <-(assoc_L (++)) in Hp.
    pose proof (f_equal length Hp) as Hl. rewrite !length_app in Hl. rewrite !len_u32_small by (unfold short in *; lia).
    by apply (read_extra r2 _ _ _ Hp).
  - apply add_checked_at in Ha as (-> & -> & He). destruct Hp as [post Hp]. rewrite He, <-(assoc_L (++)) in Hp.
    pose proof (f_equal length Hp) as Hl. rewrite !length_app, length_map in Hl.
    rewrite !len_u32_small by (unfold short in *; lia).
    pose proof (read_extra r2 _ _ _ Hp) as Hrd. rewrite length_map in Hrd. unfold get_symbols. rewrite Hrd. simpl.
    apply mapM_Done, Forall2_fmap_l, Forall_Forall2_diag, list.Forall_forall. intros x _. simpl.
    by rewrite name_word_id, try_from_into.
  - rewrite <-(map_id items). eapply pushed_back; [|exact Ha|done..].
    apply reads_times. intros x Hx. by apply reads_variant, Hok.
  - by eapply (chunks_back read_arg arg_words 2); [apply reads_arg| |exact Ha|..].
  - by eapply (chunks_back read_param param_words 4); [apply reads_param| |exact Ha|..].
  - apply bind_Done in Ha as (ws & Hws & Ha). unfold rir_get_match_arms.
    eapply pushed_back; [|exact Ha|done..]. eapply reads_timesM; [exact Hws|].
    intros [p body] w Hx Hw Hwd. apply (arm_reads index_bound); [done|by apply (Hok _ Hx)|].
    apply add_pushed_at in Ha as (_ & _ & He). apply prefix_length in Hp. rewrite He, length_app in Hp.
    apply list_elem_of_split in Hw as (l1 & l2 & ->). rewrite concat_app in Hp. simpl in Hp.
    rewrite !length_app in Hp. lia.
  - by eapply (chunks_back read_field_init field_init_words 2); [apply reads_field_init| |exact Ha|..].
  - by eapply (chunks_back read_field_decl field_decl_words 3); [apply reads_field_decl| |exact Ha|..].
  - apply bind_Done in Ha as (ws & Hws & Ha). eapply pushed_back; [|exact Ha|done..].
    eapply reads_timesM; [exact Hws|]. intros d w Hd _ Hw. apply reads_directive; [by apply Hok|done].
  - apply add_pushed_at in Ha as (-> & -> & He). destruct Hp as [post Hp]. rewrite He, <-(assoc_L (++)) in Hp.
    pose proof (f_equal length Hp) as Hl. rewrite !length_app in Hl. rewrite (fixed_words _ 4) in Hl by done.
    rewrite !len_u32_small by (unfold short in *; lia). eapply read_destructures; [exact Hp|lia].
Qed.

(** C18: Payloads of the RIR are read back. Whatever the kind of payload, the start and the
    count returned when it was stored read the same items from every later store, after
    any sequence of store operations; two details come back changed: the spans inside a
    pattern belong to the default file, and the span of a directive ends at its length. *)
Theorem rir_payloads_read_back k items (r0 : Rir) s n r1 (r2 : Rir) :
  add_payload k items r0 = Done (s, n, r1) → rtc rir_step r1 r2 →
  Forall (item_ok k) items → short items → Z.of_nat (length (r_extra r2)) < 2 ^ 32 →
  get_payload k r2 s n = Done (map (read_as k) items).
Proof using SpurLaws0 index_bound. intros Ha Hp%rir_steps_prefix. by apply (payload_reads k items r0 s n r1). Qed.
End Payloads.

(** ** Samples *)
Module RirSample.
Import Names.
Definition sp (a b : Z) : Span := MkSpan 3 a b.
Definition arms : list (RirPattern Name * InstRef) :=
  [(RTuple [RIdent x true (sp 5 6); RInt (-7) (sp 8 10)] None (sp 4 11), 40);
   (RDataVariant None x y [MkBinding false false None (Some (RBool true (sp 20 24)))] (sp 15 25), 41)].
Definition after : Rir Name :=
  match add_payload KArms arms new_rir with Done (_, r) => r | _ => new_rir end.
Definition later : Rir Name :=
  match add_payload KRefs [1; 2] after with Done (_, r) => r | _ => after end.
Lemma index_bound (s : Name) : into_usize s < U32_MAX.
Proof. by destruct s; vm_compute. Qed.
Lemma sample_arms_ok : Forall (item_ok KArms) arms.
Proof.
  repeat constructor; try done; vm_compute; try done.
  intros p [= <-]. constructor. repeat split; vm_compute; done.
Qed.

(** The directive [@allow(y)] at bytes 10 to 14 comes back as the span from 10 to 4. *)
Example directive_span_changed :
  (p ← add_payload KDirectives [MkDirective x [y] (MkSpan 0 10 14)] new_rir;
   get_payload KDirectives p.2 p.1.1 p.1.2) = Done [MkDirective x [y] (MkSpan 0 10 4)].
Proof. by vm_compute. Qed.
End RirSample.

Lemma rir_payloads_read_back_witness :
  rir_get_match_arms RirSample.later 0 2 = Done (map (λ a, (unfile a.1, a.2)) RirSample.arms).
Proof.
  refine (rir_payloads_read_back RirSample.index_bound KArms RirSample.arms new_rir 0 2
    RirSample.after RirSample.later _ _ RirSample.sample_arms_ok _ _).
  - vm_compute. reflexivity.
  - apply rtc_once, (step_payload KRefs [1; 2] RirSample.after 30 2). vm_compute. reflexivity.
  - vm_compute. reflexivity.
  - vm_compute. reflexivity.
Defined.
