(* ===== verification/RirMerge.v ===== *)
(** * Merging the RIR of several files

    Models [Rir::merge] of [crates/gruel-rir/src/inst.rs]: instructions and payload words of
    the files are concatenated, and references to instructions and to payloads are shifted
    by what was merged before. *)

From S2P Require Import Prelude Types AirPattern Air ParamArena Rir RirCodec RirStore.

#[local] Open Scope Z_scope.

Section Merge.
Context {Spur : Type} `{!SpurKey Spur}.
Notation Rir := (Rir Spur).

(** ** Renumbering an instruction *)
Section Renumber.
Context (inst_offset extra_offset : Z).
Definition renumber (r : InstRef) : outcome InstRef := checked_add 32 r inst_offset.
Definition renumber_opt (r : option InstRef) : outcome (option InstRef) :=
  match r with Some r => r' ← renumber r; mret (Some r') | None => mret None end.
Definition shift (start : Z) : outcome Z := checked_add 32 start extra_offset.
(** Directives of which there are none keep their start. *)
Definition shift_directives (start len : Z) : outcome Z := if len =? 0 then mret start else shift start.

Definition renumber_data (data : InstData Spur) : outcome (InstData Spur) :=
  match data with
  | RIntConst _ | RFloatConst _ | RBoolConst _ | RCharConst _ | RStringConst _ | RUnitConst
  | RBreak | RContinue | RVarRef _ | RParamRef _ _ | RTypeIntrinsic _ _ | RBareRangeSubscript
  | RTypeConst _ => mret data
  | REnumVariant module type_name variant =>
      module ← renumber_opt module; mret (REnumVariant module type_name variant)
  | REnumStructVariant module type_name variant fields_start fields_len =>
      module ← renumber_opt module;
      mret (REnumStructVariant module type_name variant fields_start fields_len)
  | RTypeInterfaceIntrinsic name type_arg type_inst interface_arg =>
      type_inst ← renumber_opt type_inst;
      mret (RTypeInterfaceIntrinsic name type_arg type_inst interface_arg)
  | RBin op lhs rhs => lhs ← renumber lhs; rhs ← renumber rhs; mret (RBin op lhs rhs)
  | RUnary op operand => operand ← renumber operand; mret (RUnary op operand)
  | RMakeRef operand is_mut => operand ← renumber operand; mret (RMakeRef operand is_mut)
  | RMakeSlice base lo hi is_mut =>
      base ← renumber base; lo ← renumber_opt lo; hi ← renumber_opt hi;
      mret (RMakeSlice base lo hi is_mut)
  | RBranch cond then_block else_block is_comptime =>
      cond ← renumber cond; then_block ← renumber then_block; else_block ← renumber_opt else_block;
      mret (RBranch cond then_block else_block is_comptime)
  | RLoop cond body => cond ← renumber cond; body ← renumber body; mret (RLoop cond body)
  | RFor binding is_mut iterable body =>
      iterable ← renumber iterable; body ← renumber body; mret (RFor binding is_mut iterable body)
  | RInfiniteLoop body => body ← renumber body; mret (RInfiniteLoop body)
  | RRet value => value ← renumber_opt value; mret (RRet value)
  | RMatch scrutinee arms_start arms_len =>
      scrutinee ← renumber scrutinee; arms_start ← shift arms_start;
      mret (RMatch scrutinee arms_start arms_len)
  | RBlock extra_start len => extra_start ← shift extra_start; mret (RBlock extra_start len)
  | RAlloc directives_start directives_len name is_mut ty init =>
      directives_start ← shift directives_start; init ← renumber init;
      mret (RAlloc directives_start directives_len name is_mut ty init)
  | RStructDestructure type_name fields_start fields_len init =>
      fields_start ← shift fields_start; init ← renumber init;
      mret (RStructDestructure type_name fields_start fields_len init)
  | RAssign name value => value ← renumber value; mret (RAssign name value)
  | RFnDecl directives_start directives_len is_pub is_unchecked name params_start params_len
      return_type body has_self receiver_mode =>
      directives_start ← shift directives_start; params_start ← shift params_start;
      body ← renumber body;
      mret (RFnDecl directives_start directives_len is_pub is_unchecked name params_start params_len
              return_type body has_self receiver_mode)
  | RConstDecl directives_start directives_len is_pub name ty init =>
      directives_start ← shift directives_start; init ← renumber init;
      mret (RConstDecl directives_start directives_len is_pub name ty init)
  | RCall name args_start args_len => args_start ← shift args_start; mret (RCall name args_start args_len)
  | RIntrinsic name args_start args_len =>
      args_start ← shift args_start; mret (RIntrinsic name args_start args_len)
  | RStructDecl directives_start directives_len is_pub posture name fields_start fields_len
      methods_start methods_len =>
      directives_start ← shift directives_start; fields_start ← shift fields_start;
      methods_start ← shift methods_start;
      mret (RStructDecl directives_start directives_len is_pub posture name fields_start fields_len
              methods_start methods_len)
  | RStructInit module type_name fields_start fields_len =>
      module ← renumber_opt module; fields_start ← shift fields_start;
      mret (RStructInit module type_name fields_start fields_len)
  | RFieldGet base field => base ← renumber base; mret (RFieldGet base field)
  | RFieldSet base field value =>
      base ← renumber base; value ← renumber value; mret (RFieldSet base field value)
  | RInterfaceDecl is_pub name methods_start methods_len directives_start directives_len =>
      methods_start ← shift methods_start;
      directives_start ← shift_directives directives_start directives_len;
      mret (RInterfaceDecl is_pub name methods_start methods_len directives_start directives_len)
  | RInterfaceMethodSig name params_start params_len return_type receiver_mode is_unchecked
      directives_start directives_len =>
      params_start ← shift params_start;
      directives_start ← shift_directives directives_start directives_len;
      mret (RInterfaceMethodSig name params_start params_len return_type receiver_mode is_unchecked
              directives_start directives_len)
  | REnumDecl is_pub posture name variants_start variants_len methods_start methods_len
      directives_start directives_len =>
      variants_start ← shift variants_start; methods_start ← shift methods_start;
      directives_start ← shift_directives directives_start directives_len;
      mret (REnumDecl is_pub posture name variants_start variants_len methods_start methods_len
              directives_start directives_len)
  | RArrayInit elems_start elems_len =>
      elems_start ← shift elems_start; mret (RArrayInit elems_start elems_len)
  | RIndexGet base index => base ← renumber base; index ← renumber index; mret (RIndexGet base index)
  | RIndexSet base index value =>
      base ← renumber base; index ← renumber index; value ← renumber value;
      mret (RIndexSet base index value)
  | RMethodCall receiver method args_start args_len =>
      receiver ← renumber receiver; args_start ← shift args_start;
      mret (RMethodCall receiver method args_start args_len)
  | RAssocFnCall type_name function args_start args_len =>
      args_start ← shift args_start; mret (RAssocFnCall type_name function args_start args_len)
  | RDeriveDecl name methods_start methods_len =>
      methods_start ← shift methods_start; mret (RDeriveDecl name methods_start methods_len)
  | RComptime expr => expr ← renumber expr; mret (RComptime expr)
  | RComptimeUnrollFor binding iterable body =>
      iterable ← renumber iterable; body ← renumber body; mret (RComptimeUnrollFor binding iterable body)
  | RChecked expr => expr ← renumber expr; mret (RChecked expr)
  | RAnonStructType directives_start directives_len fields_start fields_len methods_start methods_len =>
      directives_start ← shift_directives directives_start directives_len;
      fields_start ← shift fields_start; methods_start ← shift methods_start;
      mret (RAnonStructType directives_start directives_len fields_start fields_len methods_start methods_len)
  | RAnonEnumType directives_start directives_len variants_start variants_len methods_start methods_len =>
      directives_start ← shift_directives directives_start directives_len;
      variants_start ← shift variants_start; methods_start ← shift methods_start;
      mret (RAnonEnumType directives_start directives_len variants_start variants_len methods_start methods_len)
  | RAnonInterfaceType methods_start methods_len =>
      methods_start ← shift methods_start; mret (RAnonInterfaceType methods_start methods_len)
  | RTupleInit elems_start elems_len =>
      elems_start ← shift elems_start; mret (RTupleInit elems_start elems_len)
  | RAnonFnValue method => method ← renumber method; mret (RAnonFnValue method)
  end.
Definition renumber_instruction (inst : Inst Spur) : outcome (Inst Spur) :=
  data ← renumber_data (ri_data inst); mret (MkRirInst data (ri_span inst)).

(** ** Renumbering the references in the payload words *)

(** [extra[i] += inst_offset]. *)
Definition bump (i : nat) (extra : list Z) : outcome (list Z) :=
  w ← index extra i; w' ← renumber w; mret (<[i := w']> extra).
(** [for i in 0..len { extra[start + i * stride + field] += inst_offset }]. *)
Definition bump_refs (stride field : nat) (start len : Z) (extra : list Z) : outcome (list Z) :=
  start ← shift start;
  foldM (λ e i, bump (Z.to_nat start + i * stride + field) e) extra (seq 0 (Z.to_nat len)).
(** The size of a pattern with its body word. *)
Definition pattern_size (kind : Z) : outcome nat :=
  if kind =? KIND_WILDCARD then mret 4%nat
  else if kind =? KIND_INT then mret 6%nat
  else if kind =? KIND_BOOL then mret 5%nat
  else if kind =? KIND_PATH then mret 7%nat
  else Panic.
Fixpoint bump_arms (n : nat) (pos : nat) (extra : list Z) : outcome (list Z) :=
  match n with
  | O => mret extra
  | S n =>
      kind ← index extra pos;
      size ← pattern_size kind;
      extra ← bump (pos + size - 1) extra;
      bump_arms n (pos + size) extra
  end.
Definition renumber_payload (data : InstData Spur) (extra : list Z) : outcome (list Z) :=
  match data with
  | RBlock start len | RArrayInit start len | RTupleInit start len | RIntrinsic _ start len
  | RStructDecl _ _ _ _ _ _ _ start len | RInterfaceDecl _ _ start len _ _ | RDeriveDecl _ start len
  | RAnonInterfaceType start len | RAnonStructType _ _ _ _ start len
  | RAnonEnumType _ _ _ _ start len => bump_refs 1 0 start len extra
  | RCall _ start len | RMethodCall _ _ start len | RAssocFnCall _ _ start len =>
      bump_refs 2 0 start len extra
  | RStructInit _ _ start len | REnumStructVariant _ _ _ start len => bump_refs 2 1 start len extra
  | RMatch _ start len => start ← shift start; bump_arms (Z.to_nat len) (Z.to_nat start) extra
  | _ => mret extra
  end.
Definition renumber_extra_inst_refs (instructions : list (Inst Spur)) (extra : list Z)
    : outcome (list Z) :=
  foldM (λ e inst, renumber_payload (ri_data inst) e) extra instructions.

Definition renumber_function_span (s : FunctionSpan (Spur := Spur)) : outcome FunctionSpan :=
  body_start ← renumber (fs_body_start s); decl ← renumber (fs_decl s);
  mret (MkFnSpan (fs_name s) body_start decl).
Definition renumber_extern_fn (f : RirExternFn (Spur := Spur)) : outcome RirExternFn :=
  directives_start ← shift (xf_directives_start f); params_start ← shift (xf_params_start f);
  mret (MkExternFn (xf_library f) (xf_name f) directives_start (xf_directives_len f) params_start
          (xf_params_len f) (xf_return_type f) (xf_span f) (xf_block_span f) (xf_link_mode f)).

(** One round of the loop of [merge]. *)
Definition merge_file (merged rir : Rir) : outcome Rir :=
  instructions ← mapM renumber_instruction (r_instructions rir);
  extra ← renumber_extra_inst_refs (r_instructions rir) (r_extra merged ++ r_extra rir);
  function_spans ← mapM renumber_function_span (r_function_spans rir);
  extern_fns ← mapM renumber_extern_fn (r_extern_fns rir);
  mret (MkRir (r_instructions merged ++ instructions) extra (r_function_spans merged ++ function_spans)
          (r_extern_fns merged ++ extern_fns)
          (r_empty_link_extern_blocks merged ++ r_empty_link_extern_blocks rir)).
End Renumber.

(** The loop of [merge] with its two offsets. *)
Definition merge_step (st : Rir * Z * Z) (rir : Rir) : outcome (Rir * Z * Z) :=
  let '(merged, inst_offset, extra_offset) := st in
  merged ← merge_file inst_offset extra_offset merged rir;
  inst_offset ← checked_add 32 inst_offset (len_u32 (r_instructions rir));
  extra_offset ← checked_add 32 extra_offset (len_u32 (r_extra rir));
  mret (merged, inst_offset, extra_offset).
Definition merge (rirs : list Rir) : outcome Rir :=
  match rirs with
  | [] => mret new_rir
  | [rir] => mret rir
  | _ => '(merged, _, _) ← foldM merge_step (new_rir, 0, 0) rirs; mret merged
  end.
End Merge.
