(* ===== verification/RirMergeThm.v ===== *)
(** * Merging relocates: references and payloads of the merged RIR *)

From S2P Require Import Prelude Types AirPattern Air ParamArena Rir RirCodec RirStore RirMerge.

#[local] Open Scope Z_scope.

(** ** Readers are local

    What a reader returns depends only on the words it consumes. *)
Definition same_words (e : list Z) (s : nat) (e' : list Z) (s' n : nat) : Prop :=
  ∀ i, (i < n)%nat → e' !! (s' + i)%nat = e !! (s + i)%nat.
Definition local {A} (m : Rd A) : Prop := ∀ e s a t, m e s = Done (a, t) →
  (s ≤ t)%nat ∧ ∀ e' s', same_words e s e' s' (t - s) → m e' s' = Done (a, (s' + (t - s))%nat).

Lemma local_ret {A} (a : A) : local (mret a).
Proof. intros e s ? t [= <- <-]. split; [done|]. intros e' s' _. by rewrite Nat.sub_diag, Nat.add_0_r. Qed.
Lemma local_bind {A B} (m : Rd A) (f : A → Rd B) : local m → (∀ a, local (f a)) → local (m ≫= f).
Proof.
  intros Hm Hf e s b t ([a t1] & H1 & H2)%bind_Done.
  destruct (Hm _ _ _ _ H1) as [Hle1 Hm1]. destruct (Hf a _ _ _ _ H2) as [Hle2 Hf2].
  split; [lia|]. intros e' s' Hs. unfold mbind, Rd_bind, mbind, ST_bind.
  rewrite (Hm1 e' s') by (intros i Hi; apply Hs; lia). simpl.
  rewrite (Hf2 e' (s' + (t1 - s))%nat); [do 2 f_equal; lia|]. intros i Hi.
  specialize (Hs (t1 - s + i)%nat ltac:(lia)).
  replace (s + (t1 - s + i))%nat with (t1 + i)%nat in Hs by lia. by rewrite <-Hs, (assoc_L Nat.add).
Qed.
Lemma local_word : local word.
Proof.
  intros e s a t (w & Hw & [= <- <-])%bind_Done. split; [lia|]. intros e' s' Hs.
  specialize (Hs O ltac:(lia)). rewrite !Nat.add_0_r in Hs. unfold word, index in *. rewrite Hs, Hw. simpl.
  do 2 f_equal. lia.
Qed.
Lemma local_lift {A} (m : outcome A) : local (lift_rd m).
Proof.
  destruct m; intros e s b t; simpl; [|done..]. intros [= <- <-]. split; [done|].
  intros e' s' _. by rewrite Nat.sub_diag, Nat.add_0_r.
Qed.
Create HintDb local discriminated.
#[export] Hint Resolve local_ret local_bind local_word local_lift : local.
Lemma local_times {A} n (m : Rd A) : local m → local (times n m).
Proof. intros Hm. induction n; simpl; eauto with local. Qed.
#[export] Hint Resolve local_times : local.
Lemma local_counted {A} (m : Rd A) : local m → local (counted m).
Proof. unfold counted. eauto with local. Qed.
#[export] Hint Resolve local_counted : local.
(** Follows the structure of a reader. *)
Ltac solve_local :=
  repeat first [ apply local_ret | apply local_word | apply local_lift | apply local_times
               | apply local_counted | apply local_bind; [|intros ?] | case_match ]; eauto with local.

Section Local.
Context {Spur : Type} `{!SpurKey Spur}.
Lemma local_name : local (read_name (Spur := Spur)).
Proof. unfold read_name. solve_local. Qed.
Lemma local_bool : local read_bool.
Proof. unfold read_bool. solve_local. Qed.
Lemma local_opt : local read_opt.
Proof. unfold read_opt. solve_local. Qed.
Lemma local_opt_name : local (read_opt_name (Spur := Spur)).
Proof. unfold read_opt_name. solve_local. Qed.
Lemma local_span : local read_span.
Proof. unfold read_span. solve_local. Qed.
Lemma local_i64 : local read_i64.
Proof. unfold read_i64. solve_local. Qed.
End Local.
#[export] Hint Resolve local_name local_bool local_opt local_opt_name local_span local_i64 : local.

Section LocalItems.
Context {Spur : Type} `{!SpurKey Spur}.
Lemma local_variant : local (read_variant (Spur := Spur)).
Proof. unfold read_variant. solve_local. Qed.
Lemma local_directive : local (read_directive (Spur := Spur)).
Proof. unfold read_directive. solve_local. Qed.
Lemma local_tree fuel : local (rir_decode_pattern_tree (Spur := Spur) fuel).
Proof.
  induction fuel as [|fuel IH]; [done|]. simpl.
  unfold decode_struct_binding, decode_struct_field, decode_binding. solve_local.
Qed.
Lemma local_arm fuel : local (read_arm (Spur := Spur) fuel).
Proof.
  pose proof (local_tree fuel). unfold read_arm, decode_struct_binding, decode_struct_field, decode_binding.
  solve_local.
Qed.
End LocalItems.
#[export] Hint Resolve local_variant local_directive local_arm : local.

(** ** More fuel does not change a result *)
Definition sub_reader {A} (m m' : Rd A) : Prop := ∀ e s x, m e s = Done x → m' e s = Done x.
Lemma sub_refl {A} (m : Rd A) : sub_reader m m.
Proof. by intros e s x. Qed.
Lemma sub_bind {A B} (m m' : Rd A) (f f' : A → Rd B) :
  sub_reader m m' → (∀ a, sub_reader (f a) (f' a)) → sub_reader (m ≫= f) (m' ≫= f').
Proof.
  intros Hm Hf e s x ([a t] & H1%Hm & H2%Hf)%bind_Done. apply bind_Done. exists (a, t). eauto.
Qed.
Lemma sub_times {A} n (m m' : Rd A) : sub_reader m m' → sub_reader (times n m) (times n m').
Proof. intros Hm. induction n; simpl; [apply sub_refl|]. repeat (apply sub_bind; [done|intros ?]). apply sub_refl. Qed.
Ltac solve_sub :=
  repeat (match goal with
    | H : sub_reader ?m ?m' |- sub_reader ?m ?m' => exact H
    | |- sub_reader ?m ?m => apply sub_refl
    | |- sub_reader (if ?b then _ else _) _ => destruct b
    | |- sub_reader (times _ _) _ => apply sub_times
    | |- sub_reader (_ ≫= _) _ => apply sub_bind; [|intros ?]
    end).

Section Fuel.
Context {Spur : Type} `{!SpurKey Spur}.
Lemma tree_more_fuel fuel fuel' : (fuel ≤ fuel')%nat →
  sub_reader (rir_decode_pattern_tree (Spur := Spur) fuel) (rir_decode_pattern_tree fuel').
Proof.
  revert fuel'. induction fuel as [|fuel IH]; intros [|fuel'] Hle; [done|done|lia|].
  specialize (IH fuel' ltac:(lia)). simpl.
  unfold counted, decode_struct_binding, decode_struct_field, decode_binding. solve_sub.
Qed.
Lemma arm_more_fuel fuel fuel' : (fuel ≤ fuel')%nat →
  sub_reader (read_arm (Spur := Spur) fuel) (read_arm fuel').
Proof.
  intros Hle%tree_more_fuel. unfold read_arm, counted, decode_struct_binding, decode_struct_field, decode_binding.
  solve_sub.
Qed.
End Fuel.

(** ** Readers that consume a fixed number of words. *)
Definition sized {A} (c : nat) (m : Rd A) : Prop := ∀ e s a t, m e s = Done (a, t) → t = (s + c)%nat.
Lemma sized_bind {A B} c c' (m : Rd A) (f : A → Rd B) :
  sized c m → (∀ a, sized c' (f a)) → sized (c + c') (m ≫= f).
Proof. intros Hm Hf e s b t ([a t1] & ->%Hm & ->%Hf)%bind_Done. lia. Qed.
Lemma sized_word : sized 1 word.
Proof. intros e s a t (w & _ & [= <- <-])%bind_Done. lia. Qed.
Lemma sized_ret {A} (a : A) : sized 0 (mret a).
Proof. intros e s ? t [= <- <-]. lia. Qed.
Lemma sized_lift {A} (m : outcome A) : sized 0 (lift_rd m).
Proof. destruct m; intros e s ? t; [|done..]. intros [= <- <-]. lia. Qed.
Ltac solve_sized :=
  repeat match goal with
  | |- sized _ (word ≫= _) => apply (sized_bind 1 _ word); [apply sized_word|intros ?]
  | |- sized _ (lift_rd _ ≫= _) => apply (sized_bind 0 _ (lift_rd _)); [apply sized_lift|intros ?]
  | |- sized _ (if ?b then _ else _) => destruct b
  | |- sized _ (mret _) => apply sized_ret
  | |- sized _ (lift_rd _) => apply sized_lift
  end.

(** ** Payloads as functions of the words *)
Section Payloads.
Context {Spur : Type} `{!SpurKey Spur}.
Notation Rir := (Rir Spur).
Definition get_words (k : PayloadKind) (e : list Z) (s n : Z) : outcome (list (Item (Spur := Spur) k)) :=
  get_payload k (set_r_extra e new_rir) s n.
Lemma get_payload_words k (r : Rir) s n : get_payload k r s n = get_words k (r_extra r) s n.
Proof. by destruct k. Qed.

(** The words a payload occupies. *)
Definition item_size (k : PayloadKind) : nat :=
  match k with
  | KRefs | KSymbols => 1
  | KCallArgs | KFieldInits => 2
  | KFieldDecls => 3
  | _ => 4
  end.
Definition streamed {A} (m : Rd A) (e : list Z) (s n : Z) : nat :=
  match times (Z.to_nat n) m e (Z.to_nat s) with Done (_, t) => t - Z.to_nat s | _ => O end.
Definition extent (k : PayloadKind) (e : list Z) (s n : Z) : nat :=
  match k with
  | KVariants => streamed (read_variant (Spur := Spur)) e s n
  | KDirectives => streamed (read_directive (Spur := Spur)) e s n
  | KArms => streamed (read_arm (Spur := Spur) (S (length e))) e s n
  | _ => Z.to_nat n * item_size k
  end.

(** *** Slices *)
Lemma slice_same (e e' : list Z) s s' len l :
  slice_range e s (s + len) = Done l → 0 ≤ s' → s' + len ≤ Z.of_nat (length e') →
  same_words e (Z.to_nat s) e' (Z.to_nat s') (Z.to_nat len) → slice_range e' s' (s' + len) = Done l.
Proof.
  unfold slice_range. case_decide as Hb; [|done]. intros [= <-] Hs' Hl Hsame. rewrite decide_True by lia.
  f_equal. replace (s' + len - s') with len by lia. replace (s + len - s) with len by lia.
  apply list_eq. intros i. destruct (decide (i < Z.to_nat len)%nat) as [Hi|Hi].
  - rewrite !lookup_take_lt, !lookup_drop by done. by apply Hsame.
  - by rewrite !lookup_take_ge by lia.
Qed.
Lemma chunks_same {A} (m : Rd A) size (e e' : list Z) s s' n l :
  0 ≤ n → 0 ≤ s' → s' + n * size ≤ Z.of_nat (length e') →
  same_words e (Z.to_nat s) e' (Z.to_nat s') (Z.to_nat (n * size)) →
  get_chunks size m (set_r_extra (Spur := Spur) e new_rir) s n = Done l →
  get_chunks size m (set_r_extra (Spur := Spur) e' new_rir) s' n = Done l.
Proof.
  intros Hn Hs' Hl Hsame. unfold get_chunks, rir_get_extra. simpl.
  intros (k & (-> & Hk)%checked_mul_Done & (data & Hd & Hrest)%bind_Done)%bind_Done.
  apply bind_Done. exists (n * size). split; [by apply checked_mul_Done|].
  apply bind_Done. exists data. split; [|done]. by eapply slice_same.
Qed.
Lemma from_same {A} (m : Rd A) (e e' : list Z) s s' n l :
  local m → same_words e (Z.to_nat s) e' (Z.to_nat s') (streamed m e s n) →
  get_from m (set_r_extra (Spur := Spur) e new_rir) s n = Done l →
  get_from m (set_r_extra (Spur := Spur) e' new_rir) s' n = Done l.
Proof.
  intros Hm Hsame ([items t] & Ht & [= <-])%bind_Done. simpl in Ht. unfold streamed in Hsame. rewrite Ht in Hsame.
  destruct (local_times (Z.to_nat n) m Hm _ _ _ _ Ht) as [_ Hl].
  unfold get_from. simpl. by rewrite (Hl _ _ Hsame).
Qed.
Lemma sized_name : sized 1 (read_name (Spur := Spur)).
Proof. unfold read_name. solve_sized. Qed.
Lemma sized_bool : sized 1 read_bool.
Proof. unfold read_bool. solve_sized. Qed.
Lemma sized_opt_name : sized 1 (read_opt_name (Spur := Spur)).
Proof. unfold read_opt_name. solve_sized. Qed.
Lemma sized_destructure : sized 4 (read_destructure (Spur := Spur)).
Proof.
  unfold read_destructure. apply (sized_bind 1 3); [apply sized_name|intros ?].
  apply (sized_bind 1 2); [apply sized_opt_name|intros ?]. apply (sized_bind 1 1); [apply sized_bool|intros ?].
  apply (sized_bind 1 0); [apply sized_bool|intros ?]. apply sized_ret.
Qed.
Lemma local_destructure : local (read_destructure (Spur := Spur)).
Proof. unfold read_destructure. solve_local. Qed.
Lemma destructure_same (e e' : list Z) s s' n l :
  0 ≤ s → 0 ≤ s' → s' + n * 4 ≤ 2 ^ 32 → same_words e (Z.to_nat s) e' (Z.to_nat s') (Z.to_nat n * 4) →
  get_destructure_fields (set_r_extra (Spur := Spur) e new_rir) s n = Done l →
  get_destructure_fields (set_r_extra (Spur := Spur) e' new_rir) s' n = Done l.
Proof.
  intros Hs Hs' Hb Hsame Hg%mapM_Done. apply mapM_Done.
  apply Forall2_same_length_lookup in Hg as [Hlen Hg]. apply Forall2_same_length_lookup. split; [done|].
  intros i j f Hj Hf. specialize (Hg i j f Hj Hf). apply lookup_seq in Hj as [-> Hi]. simpl in *.
  apply bind_Done in Hg as (k & (-> & Hk)%checked_mul_Done & Hg).
  apply bind_Done in Hg as (p & (-> & Hp)%checked_add_Done & Hg).
  apply bind_Done in Hg as ([f' t] & Ht & [= <-]).
  apply bind_Done. exists (Z.of_nat i * 4). split; [by apply checked_mul_Done|].
  apply bind_Done. exists (s' + Z.of_nat i * 4). split; [apply checked_add_Done; unfold in_u in *; lia|].
  destruct (local_destructure _ _ _ _ Ht) as [_ Hl]. apply sized_destructure in Ht.
  apply bind_Done. eexists (f', _). split; [|done]. apply Hl. rewrite Ht. intros o Ho.
  specialize (Hsame (i * 4 + o)%nat ltac:(lia)).
  replace (Z.to_nat (s' + Z.of_nat i * 4) + o)%nat with (Z.to_nat s' + (i * 4 + o))%nat by lia.
  rewrite Hsame. f_equal. lia.
Qed.

(** *** A payload read elsewhere

    The words of a payload, found at another place of another vector, are read the same. *)
Lemma get_words_same k (e e' : list Z) s s' n l :
  get_words k e s n = Done l → 0 ≤ s → 0 ≤ n → 0 ≤ s' →
  same_words e (Z.to_nat s) e' (Z.to_nat s') (extent k e s n) →
  s' + Z.of_nat (extent k e s n) ≤ Z.of_nat (length e') → (length e ≤ length e')%nat →
  Z.of_nat (length e') < 2 ^ 32 →
  get_words k e' s' n = Done l.
Proof.
  unfold get_words. intros Hg Hs Hn Hs' Hsame Hl Hle Hb. destruct k; simpl in *.
  - unfold get_inst_refs, rir_get_extra in *. simpl in *.
    eapply slice_same; [exact Hg|lia|lia|]. by rewrite Nat.mul_1_r in Hsame.
  - unfold get_symbols, rir_get_extra in *. simpl in *. apply bind_Done in Hg as (data & Hd & Hg).
    apply bind_Done. exists data. split; [|done]. eapply slice_same; [exact Hd|lia|lia|].
    by rewrite Nat.mul_1_r in Hsame.
  - eapply from_same; [apply local_variant|exact Hsame|exact Hg].
  - eapply chunks_same; [lia..| |exact Hg]. by replace (Z.to_nat (n * 2)) with (Z.to_nat n * 2)%nat by lia.
  - eapply chunks_same; [lia..| |exact Hg]. by replace (Z.to_nat (n * 4)) with (Z.to_nat n * 4)%nat by lia.
  - apply (from_same (read_arm (S (length e))) e e' s s' n l) in Hg; [|apply local_arm|exact Hsame].
    apply bind_Done in Hg as (x & Hx & Hg). apply bind_Done. exists x. split; [|done]. simpl in *.
    eapply sub_times; [|exact Hx]. apply arm_more_fuel. lia.
  - eapply chunks_same; [lia..| |exact Hg]. by replace (Z.to_nat (n * 2)) with (Z.to_nat n * 2)%nat by lia.
  - eapply chunks_same; [lia..| |exact Hg]. by replace (Z.to_nat (n * 3)) with (Z.to_nat n * 3)%nat by lia.
  - eapply from_same; [apply local_directive|exact Hsame|exact Hg].
  - eapply destructure_same; [exact Hs|exact Hs'|lia|exact Hsame|exact Hg].
Qed.
End Payloads.

(** ** The effect of renumbering on the words *)
Section Effect.
Context {Spur : Type} `{!SpurKey Spur} (io : Z).
Notation bump := (bump io).

Lemma bump_Done i e e' : bump i e = Done e' →
  ∃ w, e !! i = Some w ∧ e' = <[i := w + io]> e.
Proof.
  unfold RirMerge.bump, renumber, index.
  intros (w & Hw%expect_Done & (w' & (-> & _)%checked_add_Done & [= <-])%bind_Done)%bind_Done. eauto.
Qed.
(** [add_at field o w]: the word at offset [o] of an item, shifted if it is the reference. *)
Definition add_at (field o : nat) (w : Z) : Z := if decide (o = field) then w + io else w.
Lemma bump_loop stride field b a n e e' :
  (field < stride)%nat → foldM (λ e i, bump (b + i * stride + field) e) e (seq a n) = Done e' →
  length e' = length e ∧
  (∀ j, (j < b + a * stride ∨ b + (a + n) * stride ≤ j)%nat → e' !! j = e !! j) ∧
  ∀ i o, (a ≤ i < a + n)%nat → (o < stride)%nat →
    e' !! (b + i * stride + o)%nat = add_at field o <$> e !! (b + i * stride + o)%nat.
Proof.
  intros Hf. revert a e. induction n as [|n IH]; intros a e; simpl.
  { intros [= <-]. split_and!; [done|done|lia]. }
  intros (e1 & (w & Hw & ->)%bump_Done & (Hl & Hfr & Hef)%IH)%bind_Done.
  split_and!.
  - by rewrite Hl, length_insert.
  - intros j Hj. rewrite Hfr by lia. apply list_lookup_insert_ne. nia.
  - intros i o Hi Ho. destruct (decide (i = a)) as [->|Hne].
    + rewrite Hfr by nia. unfold add_at. case_decide as Ho'.
      * subst o. rewrite list_lookup_insert_eq by (by eapply lookup_lt_Some). by rewrite Hw.
      * rewrite list_lookup_insert_ne by lia. by destruct (e !! (b + a * stride + o)%nat).
    + rewrite Hef by lia. f_equal. apply list_lookup_insert_ne. nia.
Qed.

(** A chunk reader that follows the reference word. *)
Definition follows {A} (c field : nat) (m : Rd A) (g : A → A) : Prop :=
  sized c m ∧ ∀ d d' s a t, m d s = Done (a, t) →
    (∀ o, (o < c)%nat → d' !! (s + o)%nat = add_at field o <$> d !! (s + o)%nat) → m d' s = Done (g a, t).
Lemma follows_times {A} c field (m : Rd A) g n d d' s items t :
  follows c field m g → times n m d s = Done (items, t) →
  (∀ i o, (i < n)%nat → (o < c)%nat → d' !! (s + i * c + o)%nat = add_at field o <$> d !! (s + i * c + o)%nat) →
  times n m d' s = Done (map g items, t).
Proof.
  intros [Hsz Hm]. revert s items t. induction n as [|n IH]; intros s items t; simpl.
  { by intros [= <- <-]. }
  intros ([x t1] & Hx & ([xs t2] & Hxs & [= <- <-])%bind_Done)%bind_Done Hd.
  pose proof (Hsz _ _ _ _ Hx) as ->. apply bind_Done. exists (g x, (s + c)%nat). split.
  - apply (Hm d d' s); [done|]. intros o Ho. specialize (Hd O o ltac:(lia) Ho).
    by rewrite Nat.mul_0_l, Nat.add_0_r in Hd.
  - apply bind_Done. exists (map g xs, t2). split; [|done]. eapply IH; [exact Hxs|].
    intros i o Hi Ho. specialize (Hd (S i) o ltac:(lia) Ho). simpl in Hd.
    by replace (s + (c + i * c) + o)%nat with (s + c + i * c + o)%nat in Hd by lia.
Qed.
Lemma word_Done (e : list Z) s w t : word e s = Done (w, t) ↔ e !! s = Some w ∧ t = S s.
Proof.
  unfold word, index. split.
  - by intros (w' & Hw%expect_Done & [= <- <-])%bind_Done.
  - by intros [-> ->].
Qed.
Definition move_arg (a : RirCallArg) : RirCallArg := MkRirArg (ra_value a + io) (ra_mode a).
Lemma follows_arg : follows 2 0 read_arg move_arg.
Proof.
  split; [unfold read_arg; solve_sized|].
  intros d d' s a t ([v t1] & [Hv ->]%word_Done & ([m t2] & [Hm ->]%word_Done & [= <- <-])%bind_Done)%bind_Done Hd.
  pose proof (Hd O ltac:(lia)) as H0. pose proof (Hd 1%nat ltac:(lia)) as H1.
  rewrite Nat.add_0_r, Hv in H0. rewrite Nat.add_1_r, Hm in H1. simpl in H0, H1.
  apply bind_Done. eexists (v + io, S s). split; [by apply word_Done|].
  apply bind_Done. eexists (m, S (S s)). split; [by apply word_Done|]. done.
Qed.
Definition move_init (f : Spur * InstRef) : Spur * InstRef := (f.1, f.2 + io).
Lemma follows_init : follows 2 1 (read_field_init (Spur := Spur)) move_init.
Proof.
  split; [unfold read_field_init; apply (sized_bind 1 1); [apply sized_name|intros ?; solve_sized]|].
  intros d d' s a t ([nm t1] & Hn & ([v t2] & [Hv ->]%word_Done & [= <- <-])%bind_Done)%bind_Done Hd.
  apply bind_Done in Hn as ([w t3] & [Hw ->]%word_Done & (nm' & Hnm & [= -> <-])%bind_Done).
  pose proof (Hd O ltac:(lia)) as H0. pose proof (Hd 1%nat ltac:(lia)) as H1.
  rewrite Nat.add_0_r, Hw in H0. rewrite Nat.add_1_r, Hv in H1. simpl in H0, H1.
  apply bind_Done. eexists (nm, S s). split.
  - apply bind_Done. eexists (w, S s). split; [by apply word_Done|]. unfold lift_rd, lift_st. by rewrite Hnm.
  - apply bind_Done. eexists (v + io, S (S s)). split; [by apply word_Done|]. done.
Qed.

(** *** Arms of the four kinds that are renumbered *)
Definition simple_pattern : Rd (RirPattern Spur) :=
  kind ← word; span ← read_span;
  if kind =? KIND_WILDCARD then mret (RWildcard span)
  else if kind =? KIND_INT then value ← read_i64; mret (RInt value span)
  else if kind =? KIND_BOOL then value ← read_bool; mret (RBool value span)
  else if kind =? KIND_PATH then
    module ← read_opt; type_name ← read_name; variant ← read_name;
    mret (RPath module type_name variant span)
  else lift_rd Panic.
Lemma local_simple : local simple_pattern.
Proof. unfold simple_pattern. solve_local. Qed.
Lemma sized_span : sized 2 read_span.
Proof. unfold read_span. solve_sized. Qed.
(** The sizes of [pattern_size] are those of the readers. *)
Lemma simple_size kind size e pos p t :
  e !! pos = Some kind → pattern_size kind = Done size → simple_pattern e pos = Done (p, t) →
  (pos + size = t + 1)%nat.
Proof.
  intros Hk Hs ([k t0] & [Hk' ->]%word_Done & ([sp t1] & ->%sized_span & Hr)%bind_Done)%bind_Done.
  rewrite Hk in Hk'. injection Hk' as <-. unfold pattern_size in Hs.
  repeat (case_match; [injection Hs as <-|]); [| | | |discriminate Hs].
  - apply sized_ret in Hr. lia.
  - apply (sized_bind 2 0) in Hr; [lia|unfold read_i64; solve_sized|intros; apply sized_ret].
  - apply (sized_bind 1 0) in Hr; [lia|apply sized_bool|intros; apply sized_ret].
  - apply (sized_bind 1 2) in Hr; [lia|unfold read_opt; solve_sized|intros].
    apply (sized_bind 1 1); [apply sized_name|intros]. apply (sized_bind 1 0); [apply sized_name|intros; apply sized_ret].
Qed.
Lemma arm_is_simple fuel kind size e pos :
  e !! pos = Some kind → pattern_size kind = Done size →
  read_arm fuel e pos = (p ← simple_pattern; body ← word; mret (p, body)) e pos.
Proof.
  intros Hk Hs. assert (Hw : word e pos = Done (kind, S pos)) by (by apply word_Done).
  unfold read_arm, simple_pattern, pattern_size, mbind, Rd_bind, mbind, ST_bind in *. rewrite Hw. simpl.
  destruct (read_span e (S pos)) as [[sp t]| |]; simpl; [|done..].
  destruct (kind =? KIND_WILDCARD); [done|].
  destruct (kind =? KIND_INT); [by destruct (read_i64 e t) as [[]| |]|].
  destruct (kind =? KIND_BOOL); [by destruct (read_bool e t) as [[]| |]|].
  destruct (kind =? KIND_PATH); [|discriminate Hs].
  destruct (read_opt e t) as [[m t1]| |]; simpl; [|done..].
  destruct (read_name e t1) as [[n t2]| |]; simpl; [|done..]. by destruct (read_name e t2) as [[]| |].
Qed.

(** The patterns without a reference of their own. *)
Definition no_module (p : RirPattern Spur) : Prop := match p with RPath (Some _) _ _ _ => False | _ => True end.
Definition move_arm (a : RirPattern Spur * InstRef) : RirPattern Spur * InstRef := (a.1, a.2 + io).
(** One arm: its body word is the last one. *)
Lemma arm_bumped fuel kind size e pos arm t e1 :
  e !! pos = Some kind → pattern_size kind = Done size → read_arm fuel e pos = Done (arm, t) →
  bump (pos + size - 1) e = Done e1 →
  t = (pos + size)%nat ∧ (pos < t)%nat ∧ length e1 = length e ∧ (∀ j, j ≠ (t - 1)%nat → e1 !! j = e !! j) ∧
  read_arm fuel e1 pos = Done (move_arm arm, t).
Proof.
  intros Hk Hs Hr Hb. rewrite (arm_is_simple _ _ _ _ _ Hk Hs) in Hr.
  apply bind_Done in Hr as ([p t1] & Hp & ([body t2] & [Hbody ->]%word_Done & [= <- <-])%bind_Done).
  pose proof (simple_size _ _ _ _ _ _ Hk Hs Hp) as Ht. destruct (local_simple _ _ _ _ Hp) as [Hle Hloc].
  assert (Hpos : (pos < t1)%nat).
  { unfold pattern_size in Hs. repeat (case_match; [injection Hs as <-; lia|]). done. }
  replace (pos + size - 1)%nat with t1 in Hb by lia. apply bump_Done in Hb as (w & Hw & ->).
  rewrite Hbody in Hw. injection Hw as <-. rewrite length_insert. simpl. rewrite Nat.sub_0_r.
  assert (Hoth : ∀ j, j ≠ t1 → <[t1 := body + io]> e !! j = e !! j) by (intros; by apply list_lookup_insert_ne).
  split_and!; [lia|lia|done|done|].
  rewrite (arm_is_simple _ kind size); [|by rewrite Hoth by lia|done].
  apply bind_Done. exists (p, t1). split.
  - rewrite (Hloc _ pos); [do 2 f_equal; lia|]. intros i Hi. apply Hoth. lia.
  - apply bind_Done. exists (body + io, S t1). split; [|done]. apply word_Done. split; [|done].
    apply list_lookup_insert_eq. by eapply lookup_lt_Some.
Qed.
Lemma arms_bumped fuel n pos e e' items t :
  bump_arms io n pos e = Done e' → times n (read_arm fuel) e pos = Done (items, t) →
  length e' = length e ∧ (∀ j, (j < pos ∨ t ≤ j)%nat → e' !! j = e !! j) ∧
  times n (read_arm fuel) e' pos = Done (map move_arm items, t).
Proof.
  revert pos e items. induction n as [|n IH]; intros pos e items; simpl.
  { intros [= <-] [= <- <-]. split_and!; done. }
  intros (kind & Hk%expect_Done & (size & Hs & (e1 & Hb & Hrest)%bind_Done)%bind_Done)%bind_Done.
  intros ([x t1] & Hx & ([xs t2] & Hxs & [= <- <-])%bind_Done)%bind_Done.
  destruct (arm_bumped _ _ _ _ _ _ _ _ Hk Hs Hx Hb) as (Ht1 & Hlt & Hl1 & Hoth & Hx1). subst t1.
  destruct (local_times n _ (local_arm fuel) _ _ _ _ Hxs) as [Hle Hloc].
  assert (Hxs1 : times n (read_arm fuel) e1 (pos + size)%nat = Done (xs, t2)).
  { rewrite (Hloc e1 (pos + size)%nat); [do 2 f_equal; lia|]. intros i Hi. apply Hoth. lia. }
  destruct (IH _ _ _ Hrest Hxs1) as (Hl2 & Hfr & Hrd).
  split_and!; [congruence|intros j Hj; rewrite Hfr by lia; apply Hoth; lia|].
  apply bind_Done. exists (move_arm x, (pos + size)%nat). split.
  - destruct (local_arm fuel _ _ _ _ Hx1) as [_ Hloc1].
    rewrite (Hloc1 e' pos); [do 2 f_equal; lia|]. intros i Hi. apply Hfr. lia.
  - apply bind_Done. exists (map move_arm xs, t2). by split.
Qed.

(** *** A whole payload *)
Context (eo : Z).
(** What [merge] does to an item. *)
Definition move (k : PayloadKind) : Item (Spur := Spur) k → Item (Spur := Spur) k :=
  match k with
  | KRefs => λ r, r + io
  | KCallArgs => move_arg
  | KFieldInits => move_init
  | KArms => move_arm
  | _ => λ x, x
  end.
(** The payload of an instruction that holds references and is renumbered. *)
Definition bearing (data : InstData Spur) : option (PayloadKind * Z * Z) :=
  match data with
  | RBlock start len | RArrayInit start len | RTupleInit start len | RIntrinsic _ start len
  | RStructDecl _ _ _ _ _ _ _ start len | RInterfaceDecl _ _ start len _ _ | RDeriveDecl _ start len
  | RAnonInterfaceType start len | RAnonStructType _ _ _ _ start len
  | RAnonEnumType _ _ _ _ start len => Some (KRefs, start, len)
  | RCall _ start len | RMethodCall _ _ start len | RAssocFnCall _ _ start len =>
      Some (KCallArgs, start, len)
  | RStructInit _ _ start len | REnumStructVariant _ _ _ start len => Some (KFieldInits, start, len)
  | RMatch _ start len => Some (KArms, start, len)
  | _ => None
  end.

(** [e'] is [e] but for the words of the payload, which reads as [l']. *)
Record moved (k : PayloadKind) (s n : Z) (e e' : list Z) (l' : list (Item (Spur := Spur) k)) : Prop := {
  mv_length : length e' = length e;
  mv_frame j : (j < Z.to_nat s ∨ Z.to_nat s + extent (Spur := Spur) k e s n ≤ j)%nat → e' !! j = e !! j;
  mv_read : get_words k e' s n = Done l';
  mv_extent : extent (Spur := Spur) k e' s n = extent (Spur := Spur) k e s n;
}.
Lemma bump_refs_loop c field s n e e' :
  0 ≤ s → 0 ≤ n → 0 ≤ eo → (field < c)%nat → bump_refs io eo c field s n e = Done e' →
  length e' = length e ∧
  (∀ j, (j < Z.to_nat (s + eo) ∨ Z.to_nat (s + eo) + Z.to_nat n * c ≤ j)%nat → e' !! j = e !! j) ∧
  ∀ i o, (i < Z.to_nat n)%nat → (o < c)%nat →
    e' !! (Z.to_nat (s + eo) + i * c + o)%nat = add_at field o <$> e !! (Z.to_nat (s + eo) + i * c + o)%nat.
Proof.
  intros Hs Hn He Hf. unfold bump_refs, shift.
  intros (s' & (-> & _)%checked_add_Done & (Hl & Hfr & Hef)%bump_loop)%bind_Done; [|done].
  split_and!; [done| |]; [intros j Hj; apply Hfr; simpl; lia|intros i o Hi Ho; apply Hef; lia].
Qed.
Lemma slice_length (e l : list Z) s n : slice_range e s (s + n) = Done l → length l = Z.to_nat n.
Proof. unfold slice_range. case_decide; [|done]. intros [= <-]. rewrite length_take, length_drop. lia. Qed.
Lemma slice_moved s n c (e e' l : list Z) (f : nat → Z → Z) :
  slice_range e s (s + Z.of_nat (n * c)) = Done l → length e' = length e →
  (∀ i o, (i < n)%nat → (o < c)%nat →
     e' !! (Z.to_nat s + i * c + o)%nat = f o <$> e !! (Z.to_nat s + i * c + o)%nat) →
  ∃ l', slice_range e' s (s + Z.of_nat (n * c)) = Done l' ∧
    ∀ i o, (i < n)%nat → (o < c)%nat → l' !! (i * c + o)%nat = f o <$> l !! (i * c + o)%nat.
Proof.
  unfold slice_range. case_decide as Hb; [|done]. intros [= <-] Hl Hef. rewrite decide_True by (rewrite Hl; lia).
  eexists. split; [done|]. intros i o Hi Ho.
  rewrite !lookup_take_lt, !lookup_drop by nia. rewrite !(assoc_L Nat.add). by apply Hef.
Qed.
Lemma chunks_moved {A} c field (m : Rd A) g s n e e' l :
  0 ≤ s → 0 ≤ n → 0 ≤ eo → (field < c)%nat → follows c field m g →
  bump_refs io eo c field s n e = Done e' →
  get_chunks (Z.of_nat c) m (set_r_extra (Spur := Spur) e new_rir) (s + eo) n = Done l →
  get_chunks (Z.of_nat c) m (set_r_extra (Spur := Spur) e' new_rir) (s + eo) n = Done (map g l).
Proof.
  intros Hs Hn He Hf Hm (Hl & _ & Hef)%bump_refs_loop; [|done..]. unfold get_chunks, rir_get_extra. simpl.
  intros (k & (-> & Hk)%checked_mul_Done & (data & Hd & ([items t] & Ht & [= <-])%bind_Done)%bind_Done)%bind_Done.
  replace (n * Z.of_nat c) with (Z.of_nat (Z.to_nat n * c)) in Hd by lia.
  destruct (slice_moved _ _ _ _ _ _ _ Hd Hl Hef) as (data' & Hd' & Hdata).
  apply bind_Done. exists (n * Z.of_nat c). split; [by apply checked_mul_Done|].
  apply bind_Done. exists data'. split; [by replace (n * Z.of_nat c) with (Z.of_nat (Z.to_nat n * c)) by lia|].
  by rewrite (follows_times _ _ _ _ _ _ _ _ _ _ Hm Ht Hdata).
Qed.
Lemma refs_moved s n e e' l :
  0 ≤ s → 0 ≤ n → 0 ≤ eo → bump_refs io eo 1 0 s n e = Done e' →
  slice_range e (s + eo) (s + eo + n) = Done l → slice_range e' (s + eo) (s + eo + n) = Done (map (λ r, r + io) l).
Proof.
  intros Hs Hn He (Hl & _ & Hef)%bump_refs_loop Hd; [|done || lia..].
  pose proof (slice_length _ _ _ _ Hd) as Hlen.
  replace n with (Z.of_nat (Z.to_nat n * 1)) in Hd |- * by lia.
  destruct (slice_moved _ _ _ _ _ _ _ Hd Hl Hef) as (l' & Hd' & Hdata). rewrite Hd'. f_equal.
  apply slice_length in Hd'. apply list_eq. intros i. rewrite list_lookup_fmap.
  destruct (decide (i < Z.to_nat n)%nat) as [Hi|Hi].
  - specialize (Hdata i O Hi ltac:(lia)). by rewrite Nat.mul_1_r, Nat.add_0_r in Hdata.
  - by rewrite !lookup_ge_None_2 by lia.
Qed.

(** The whole step: [renumber_payload] moves the payload it bears, and only that. *)
Lemma payload_moved data e e' k s n l :
  bearing data = Some (k, s, n) → renumber_payload io eo data e = Done e' →
  0 ≤ s → 0 ≤ n → 0 ≤ eo → get_words k e (s + eo) n = Done l →
  moved k (s + eo) n e e' (map (move k) l).
Proof.
  intros Hb Hr Hs Hn He Hg.
  assert (Hcase : (k = KRefs ∧ bump_refs io eo 1 0 s n e = Done e') ∨
    (k = KCallArgs ∧ bump_refs io eo 2 0 s n e = Done e') ∨
    (k = KFieldInits ∧ bump_refs io eo 2 1 s n e = Done e') ∨
    (k = KArms ∧ (s' ← shift eo s; bump_arms io (Z.to_nat n) (Z.to_nat s') e) = Done e')).
  { destruct data; simplify_eq/=; eauto. }
  clear Hr Hb. destruct Hcase as [[-> Hr]|[[-> Hr]|[[-> Hr]|[-> Hr]]]].
  - pose proof (bump_refs_loop 1 0 _ _ _ _ Hs Hn He ltac:(lia) Hr) as (Hl & Hfr & _).
    split; [done|exact Hfr| |done]. by eapply refs_moved.
  - pose proof (bump_refs_loop 2 0 _ _ _ _ Hs Hn He ltac:(lia) Hr) as (Hl & Hfr & _).
    split; [done|exact Hfr| |done]. by eapply (chunks_moved 2 0); [..|apply follows_arg|exact Hr|exact Hg]; lia || done.
  - pose proof (bump_refs_loop 2 1 _ _ _ _ Hs Hn He ltac:(lia) Hr) as (Hl & Hfr & _).
    split; [done|exact Hfr| |done]. by eapply (chunks_moved 2 1); [..|apply follows_init|exact Hr|exact Hg]; lia || done.
  - apply bind_Done in Hr as (s' & (-> & _)%checked_add_Done & Hr).
    apply bind_Done in Hg as ([items t] & Ht & [= <-]). simpl in Ht.
    destruct (arms_bumped _ _ _ _ _ _ _ Hr Ht) as (Hl & Hfr & Hrd).
    assert (Hx : extent (Spur := Spur) KArms e (s + eo) n = (t - Z.to_nat (s + eo))%nat)
      by (simpl; unfold streamed; by rewrite Ht).
    destruct (local_times _ _ (local_arm _) _ _ _ _ Ht) as [Hle _].
    split; [done| | |].
    + rewrite Hx. intros j Hj. apply Hfr. lia.
    + unfold get_words. simpl. unfold rir_get_match_arms, get_from. simpl. rewrite Hl. by rewrite Hrd.
    + rewrite Hx. simpl. unfold streamed. by rewrite Hl, Hrd.
Qed.
Lemma no_payload data e e' : bearing data = None → renumber_payload io eo data e = Done e' → e' = e.
Proof. intros Hb Hr. destruct data; simpl in *; try discriminate Hb; by injection Hr as <-. Qed.
End Effect.
