(* ===== verification/RirRelocate.v ===== *)
(** * Merging files relocates every instruction and every payload *)

From S2P Require Import Prelude Types AirPattern Air ParamArena Rir RirCodec RirStore RirMerge.
From S2P Require Import RirMergeThm.

#[local] Open Scope Z_scope.

Section Relocate.
Context {Spur : Type} `{!SpurKey Spur}.
Notation Rir := (Rir Spur).
Notation Payload := (PayloadKind * Z * Z)%type.
Notation extent := (extent (Spur := Spur)).

Lemma streamed_same {A} (m : Rd A) e e' s s' n l t :
  local m → times (Z.to_nat n) m e (Z.to_nat s) = Done (l, t) →
  same_words e (Z.to_nat s) e' (Z.to_nat s') (streamed m e s n) → streamed m e' s' n = streamed m e s n.
Proof.
  intros Hm Ht Hsame. unfold streamed in Hsame |- *. rewrite Ht in Hsame |- *.
  destruct (local_times _ _ Hm _ _ _ _ Ht) as [Hle Hl]. rewrite (Hl _ _ Hsame). lia.
Qed.
Lemma extent_same k (e e' : list Z) s s' n l :
  get_words (Spur := Spur) k e s n = Done l →
  same_words e (Z.to_nat s) e' (Z.to_nat s') (extent k e s n) → (length e ≤ length e')%nat →
  extent k e' s' n = extent k e s n.
Proof.
  unfold get_words. intros Hg Hsame Hle. destruct k; simpl in *; try done.
  - apply bind_Done in Hg as ([items t] & Ht & _). by eapply streamed_same; [apply local_variant|exact Ht|].
  - apply bind_Done in Hg as ([items t] & Ht & _). simpl in Ht.
    pose proof (streamed_same _ _ e' _ s' _ _ _ (local_arm _) Ht Hsame) as <-.
    unfold streamed in Hsame |- *. rewrite Ht in Hsame.
    destruct (local_times _ _ (local_arm (S (length e))) _ _ _ _ Ht) as [_ Hl].
    rewrite (Hl _ _ Hsame).
    assert (Hmore : times (Z.to_nat n) (read_arm (S (length e'))) e' (Z.to_nat s') =
      Done (items, (Z.to_nat s' + (t - Z.to_nat s))%nat)).
    { eapply sub_times; [apply (arm_more_fuel (S (length e)))|by apply Hl]. lia. }
    by rewrite Hmore.
  - apply bind_Done in Hg as ([items t] & Ht & _). by eapply streamed_same; [apply local_directive|exact Ht|].
Qed.

(** ** The payloads of an instruction *)
Definition payloads (data : InstData Spur) : list Payload :=
  match data with
  | RBlock s n | RArrayInit s n | RTupleInit s n | RIntrinsic _ s n | RDeriveDecl _ s n
  | RAnonInterfaceType s n => [(KRefs, s, n)]
  | RCall _ s n | RMethodCall _ _ s n | RAssocFnCall _ _ s n => [(KCallArgs, s, n)]
  | RStructInit _ _ s n | REnumStructVariant _ _ _ s n => [(KFieldInits, s, n)]
  | RMatch _ s n => [(KArms, s, n)]
  | RFnDecl ds dn _ _ _ ps pn _ _ _ _ => [(KDirectives, ds, dn); (KParams, ps, pn)]
  | RConstDecl ds dn _ _ _ _ | RAlloc ds dn _ _ _ _ => [(KDirectives, ds, dn)]
  | RStructDestructure _ s n _ => [(KDestructure, s, n)]
  | RStructDecl ds dn _ _ _ fs fn ms mn => [(KDirectives, ds, dn); (KFieldDecls, fs, fn); (KRefs, ms, mn)]
  | REnumDecl _ _ _ vs vn ms mn ds dn => [(KVariants, vs, vn); (KRefs, ms, mn); (KDirectives, ds, dn)]
  | RInterfaceDecl _ _ ms mn ds dn => [(KRefs, ms, mn); (KDirectives, ds, dn)]
  | RInterfaceMethodSig _ ps pn _ _ _ ds dn => [(KParams, ps, pn); (KDirectives, ds, dn)]
  | RAnonStructType ds dn fs fn ms mn => [(KDirectives, ds, dn); (KFieldDecls, fs, fn); (KRefs, ms, mn)]
  | RAnonEnumType ds dn vs vn ms mn => [(KDirectives, ds, dn); (KVariants, vs, vn); (KRefs, ms, mn)]
  | _ => []
  end.
Lemma bearing_payload data p : bearing data = Some p → p ∈ payloads data.
Proof. destruct data; simpl; intros ?; simplify_eq; set_solver. Qed.

(** ** Files as the front end builds them

    Payloads lie inside the payload vector and can be read, and the words of a payload with
    references are its own. *)
Definition start_of (p : Payload) : nat := Z.to_nat p.1.2.
Definition size_in (e : list Z) (p : Payload) : nat := extent p.1.1 e p.1.2 p.2.
Definition apart (e : list Z) (p q : Payload) : Prop :=
  (start_of p + size_in e p ≤ start_of q ∨ start_of q + size_in e q ≤ start_of p)%nat.
Record file_ok (r : Rir) : Prop := {
  fo_extra : Z.of_nat (length (r_extra r)) < 2 ^ 32;
  fo_insts : Z.of_nat (length (r_instructions r)) < 2 ^ 32;
  fo_read inst k s n : inst ∈ r_instructions r → (k, s, n) ∈ payloads (ri_data inst) →
    0 ≤ s ∧ 0 ≤ n ∧ (∃ l, get_payload k r s n = Done l) ∧
    (start_of (k, s, n) + size_in (r_extra r) (k, s, n) ≤ length (r_extra r))%nat;
  fo_apart i j di dj p q : r_instructions r !! i = Some di → r_instructions r !! j = Some dj →
    bearing (ri_data di) = Some p → q ∈ payloads (ri_data dj) → i ≠ j ∨ q ≠ p →
    apart (r_extra r) p q;
}.

(** ** One file *)
Section File.
Context (io eo : Z) (r : Rir) (Hok : file_ok r) (Heo : 0 ≤ eo).
(** The words of [p], [eo] further in [e]. *)
Definition agrees_on (e : list Z) (p : Payload) : Prop :=
  same_words (r_extra r) (start_of p) e (Z.to_nat (p.1.2 + eo)) (size_in (r_extra r) p).
(** [p] can be read in [r], and its words are in [e]. *)
Record present (e : list Z) (p : Payload) : Prop := {
  pr_start : 0 ≤ p.1.2;
  pr_count : 0 ≤ p.2;
  pr_read : ∃ l, get_payload p.1.1 r p.1.2 p.2 = Done l;
  pr_bound : p.1.2 + eo + Z.of_nat (size_in (r_extra r) p) ≤ Z.of_nat (length e);
  pr_words : agrees_on e p;
}.
Context (e0 : list Z) (Hlen : (length (r_extra r) ≤ length e0)%nat) (Hb0 : Z.of_nat (length e0) < 2 ^ 32).

Lemma present_read e p l :
  length e = length e0 → present e p → get_payload p.1.1 r p.1.2 p.2 = Done l →
  get_words p.1.1 e (p.1.2 + eo) p.2 = Done l ∧ extent p.1.1 e (p.1.2 + eo) p.2 = size_in (r_extra r) p.
Proof using Hlen Hb0 Heo.
  intros He [Hs Hn _ Hb Hw] Hl. rewrite get_payload_words in Hl. split.
  - eapply get_words_same; [exact Hl|try done; lia..].
  - eapply extent_same; [exact Hl|done|lia].
Qed.
(** A step leaves the words outside the payload it moves. *)
Definition outside (p : Payload) (j : nat) : Prop :=
  (j < Z.to_nat (p.1.2 + eo) ∨ Z.to_nat (p.1.2 + eo) + size_in (r_extra r) p ≤ j)%nat.
Lemma step_outside (data : InstData Spur) e e' p :
  length e = length e0 → bearing data = Some p → present e p → renumber_payload io eo data e = Done e' →
  length e' = length e ∧ ∀ j, outside p j → e' !! j = e !! j.
Proof using Hlen Hb0 Heo.
  intros He Hb Hp Hr. destruct (pr_read _ _ Hp) as [l Hl]. destruct (present_read _ _ _ He Hp Hl) as [Hg Hx].
  destruct p as [[k s] n]. simpl in *.
  destruct (payload_moved io eo data e e' k s n l Hb Hr) as [Hle Hfr _ _]; [apply Hp..|done|done|].
  split; [done|]. intros j Hj. apply Hfr. unfold outside in Hj. simpl in Hj. by rewrite Hx.
Qed.

(** The words of a payload that nothing touched are still there. *)
Definition within (p : Payload) (j : nat) : Prop :=
  (Z.to_nat (p.1.2 + eo) ≤ j < Z.to_nat (p.1.2 + eo) + size_in (r_extra r) p)%nat.
Lemma present_keep e e1 q :
  present e q → length e1 = length e → (∀ j, within q j → e1 !! j = e !! j) → present e1 q.
Proof.
  clear. intros [Hs Hn Hr Hb Hw] Hl Hk. split; [done..|by rewrite Hl|]. intros i Hi. rewrite <-Hw by done.
  apply Hk. unfold within. lia.
Qed.
Lemma apart_outside p q j :
  0 ≤ p.1.2 → 0 ≤ q.1.2 → apart (r_extra r) p q → within q j → outside p j.
Proof using Heo. clear -Heo. unfold apart, within, outside, start_of. lia. Qed.

Definition bears (inst : Inst Spur) (p : Payload) : Prop := bearing (ri_data inst) = Some p.
(** The instructions of a list whose payloads are all present and apart. *)
Record settled (L : list (Inst Spur)) (e : list Z) : Prop := {
  se_length : length e = length e0;
  se_present inst p : inst ∈ L → bears inst p → present e p;
  se_apart i j di dj p q : L !! i = Some di → L !! j = Some dj → i ≠ j → bears di p → bears dj q →
    apart (r_extra r) p q;
}.
Lemma settled_step inst L e e1 :
  settled (inst :: L) e → renumber_payload io eo (ri_data inst) e = Done e1 →
  settled L e1 ∧ ∀ j, (∀ p, bears inst p → outside p j) → e1 !! j = e !! j.
Proof using Hlen Hb0 Heo.
  intros [He Hp Ha] H1.
  assert (Hstep : length e1 = length e ∧ ∀ j, (∀ p, bears inst p → outside p j) → e1 !! j = e !! j).
  { destruct (bearing (ri_data inst)) as [p|] eqn:Hb.
    - destruct (step_outside _ _ _ _ He Hb (Hp inst p (list_elem_of_here _ _) Hb) H1) as [Hl Ho]. split; [done|].
      intros j Hj. by apply Ho, Hj.
    - by rewrite (no_payload io eo _ _ _ Hb H1). }
  destruct Hstep as [Hl1 Ho1]. split; [|done]. split; [congruence| |].
  - intros inst' q Hin Hq. pose proof (Hp inst' q (list_elem_of_further _ _ _ Hin) Hq) as Hpq.
    eapply present_keep; [exact Hpq|done|]. intros j Hj. apply Ho1. intros p Hb.
    pose proof (Hp inst p (list_elem_of_here _ _) Hb) as Hpp.
    apply list_elem_of_lookup in Hin as [i Hi].
    eapply apart_outside; [apply Hpp|apply Hpq| |done]. by apply (Ha O (S i) inst inst').
  - intros i j di dj p q Hi Hj Hne. apply (Ha (S i) (S j)); [done|done|lia].
Qed.
Lemma fold_outside L e e' :
  settled L e → renumber_extra_inst_refs io eo L e = Done e' →
  length e' = length e0 ∧ ∀ j, (∀ inst p, inst ∈ L → bears inst p → outside p j) → e' !! j = e !! j.
Proof using Hlen Hb0 Heo.
  unfold renumber_extra_inst_refs. revert e. induction L as [|inst L IH]; intros e Hset; simpl.
  { intros [= <-]. split; [apply Hset|done]. }
  intros (e1 & H1 & H2)%bind_Done. destruct (settled_step _ _ _ _ Hset H1) as [Hset1 Ho1].
  destruct (IH e1 Hset1 H2) as [Hl2 Ho2]. split; [done|].
  intros j Hj. rewrite Ho2 by (intros; eapply Hj; [by right|done]).
  apply Ho1. intros p Hb. eapply Hj; [by left|done].
Qed.
Lemma settled_keeps L e e' q :
  settled L e → renumber_extra_inst_refs io eo L e = Done e' → 0 ≤ q.1.2 →
  (∀ inst p, inst ∈ L → bears inst p → apart (r_extra r) p q) →
  length e' = length e ∧ ∀ j, within q j → e' !! j = e !! j.
Proof using Hlen Hb0 Heo.
  intros Hset Hf Hq Hap. destruct (fold_outside _ _ _ Hset Hf) as [Hl' Ho].
  destruct Hset as [Hl Hp _]. split; [congruence|].
  intros j Hj. apply Ho. intros inst p Hin Hb. eapply apart_outside; [|exact Hq|by eapply Hap|done].
  by apply (Hp inst p).
Qed.

(** Every payload of the file is where [merge] copied it. *)
Definition copied (e : list Z) : Prop :=
  ∀ inst p, inst ∈ r_instructions r → p ∈ payloads (ri_data inst) → present e p.
(** [L] is the part of the file's instructions that starts at index [at]. *)
Definition part (a : nat) (L : list (Inst Spur)) : Prop :=
  ∀ i inst, L !! i = Some inst → r_instructions r !! (a + i)%nat = Some inst.
Lemma part_keeps a L e e' q :
  part a L → length e = length e0 → (∀ inst p, inst ∈ L → bears inst p → present e p) →
  renumber_extra_inst_refs io eo L e = Done e' → present e q →
  (∀ i inst p, L !! i = Some inst → bears inst p → apart (r_extra r) p q) →
  length e' = length e0 ∧ present e' q ∧ ∀ j, within q j → e' !! j = e !! j.
Proof using Hok Hlen Hb0 Heo.
  intros HL He Hp Hf Hq Hap. assert (Hset : settled L e).
  { split; [done|done|]. intros i j di dj p p' Hi%HL Hj%HL Hne Hbi Hbj.
    eapply (fo_apart _ Hok _ _ _ _ _ _ Hi Hj Hbi); [by apply bearing_payload|left; clear -Hne; lia]. }
  destruct (settled_keeps _ _ _ q Hset Hf) as [Hl Hk]; [apply Hq| |].
  { intros inst p [i Hi]%list_elem_of_lookup Hb. by eapply Hap. }
  split_and!; [congruence|by eapply present_keep|done].
Qed.

Lemma part_of L1 L L2 : r_instructions r = L1 ++ L ++ L2 → part (length L1) L.
Proof.
  clear. intros HL i inst Hi. rewrite HL, lookup_app_r by lia.
  replace (length L1 + i - length L1)%nat with i by lia. by apply lookup_app_l_Some.
Qed.
(** The step of the payload that bears the references of its instruction, with the
    instructions before and after it. *)
Lemma bearing_relocated L1 inst L2 e' k s n l :
  r_instructions r = L1 ++ inst :: L2 → (∀ inst p, inst ∈ r_instructions r → bears inst p → present e0 p) →
  renumber_extra_inst_refs io eo (r_instructions r) e0 = Done e' →
  bears inst (k, s, n) → get_payload k r s n = Done l →
  get_words k e' (s + eo) n = Done (map (move io k) l) ∧
  extent k e' (s + eo) n = size_in (r_extra r) (k, s, n).
Proof using Hok Hlen Hb0 Heo.
  intros HL Hp0 Hf Hb Hl. unfold renumber_extra_inst_refs in Hf. rewrite HL, foldM_app in Hf.
  apply bind_Done in Hf as (e1 & H1 & (e2 & H2 & H3)%bind_Done).
  assert (Hpart : part (length L1) (inst :: L2)) by (apply (part_of _ _ []); by rewrite app_nil_r).
  pose proof (Hpart O inst eq_refl) as Hi. rewrite Nat.add_0_r in Hi.
  assert (Hp1 : part 0 L1) by (apply (part_of [] _ (inst :: L2)); by rewrite HL).
  assert (Hfar : ∀ a L i di j dj q, part a L → L !! i = Some di → r_instructions r !! j = Some dj →
    (a + i)%nat ≠ j → bears dj q → ∀ p, bears di p → apart (r_extra r) p q).
  { intros a L i di j dj q HLp Hii Hj Hne Hq p Hp.
    eapply (fo_apart _ Hok (a + i) j); [by apply HLp|exact Hj|done|by apply bearing_payload|by left]. }
  assert (Hin1 : ∀ inst' p, inst' ∈ L1 → bears inst' p → present e0 p).
  { intros inst' p Hin. apply Hp0. rewrite HL. apply elem_of_app. by left. }
  assert (Hq0 : present e0 (k, s, n)) by (by eapply Hp0; [eapply list_elem_of_lookup_2|]).
  destruct (part_keeps 0 L1 e0 e1 (k, s, n) Hp1 eq_refl Hin1 H1 Hq0) as (Hl1 & Hpres1 & _).
  { intros j inst' p Hj Hbj. eapply (Hfar O L1 j); [done|done|exact Hi| |done|done].
    apply lookup_lt_Some in Hj. clear -Hj. lia. }
  destruct (present_read _ _ _ Hl1 Hpres1 Hl) as [Hg1 Hx1]. simpl in Hg1, Hx1.
  destruct (payload_moved io eo _ e1 e2 k s n l Hb H2) as [Hle2 Hfr2 Hg2 Hx2]; [apply Hpres1..|done|done|].
  assert (Hset : settled L2 e2).
  { split; [congruence| |].
    - intros inst' p [i Hi2]%list_elem_of_lookup Hp. pose proof (Hpart (S i) inst' Hi2) as Hi'.
      assert (Hp0' : present e0 p) by (by eapply Hp0; [eapply list_elem_of_lookup_2|]).
      destruct (part_keeps 0 L1 e0 e1 p Hp1 eq_refl Hin1 H1 Hp0') as (_ & Hpres & _).
      { intros j di q Hj Hbj. eapply (Hfar O L1 j); [done|done|exact Hi'| |done|done].
        apply lookup_lt_Some in Hj. clear -Hj. lia. }
      eapply present_keep; [exact Hpres|congruence|]. intros j Hj. apply Hfr2. rewrite Hx1.
      apply (apart_outside (k, s, n) p); [apply Hpres1|apply Hpres| |done].
      eapply (Hfar _ _ O inst); [exact Hpart|done|exact Hi'|clear; lia|done|done].
    - intros i j di dj p p' Hdi Hdj Hne Hbi Hbj.
      eapply (Hfar _ _ (S i)); [exact Hpart|exact Hdi|exact (Hpart (S j) dj Hdj)|clear -Hne; lia|done|done]. }
  destruct (settled_keeps _ _ _ (k, s, n) Hset H3) as [Hl3 Hk3]; [apply Hpres1| |].
  { intros di p [i Hdi]%list_elem_of_lookup Hp.
    eapply (Hfar _ _ (S i)); [exact Hpart|exact Hdi|exact Hi|clear; lia|done|done]. }
  pose proof (pr_start _ _ Hpres1) as Hs. pose proof (pr_count _ _ Hpres1) as Hn.
  pose proof (pr_bound _ _ Hpres1) as Hbd. simpl in Hs, Hn, Hbd.
  assert (Hsame : same_words e2 (Z.to_nat (s + eo)) e' (Z.to_nat (s + eo)) (extent k e2 (s + eo) n)).
  { intros i Hlt. rewrite Hx2, Hx1 in Hlt. apply Hk3. unfold within. simpl. clear -Hlt. lia. }
  split.
  - eapply get_words_same; [exact Hg2|lia|lia|lia|exact Hsame|rewrite Hx2, Hx1; lia|lia|lia].
  - rewrite (extent_same _ _ e' _ (s + eo) _ _ Hg2 Hsame); [congruence|lia].
Qed.

(** The payload [q] of the [i]-th instruction is read where it was moved to, renumbered if
    it is the one that bears references. *)
Definition relocated (inst : Inst Spur) (k : PayloadKind) (l : list (Item (Spur := Spur) k)) (s n : Z)
    : list (Item (Spur := Spur) k) :=
  if decide (bearing (ri_data inst) = Some (k, s, n)) then map (move io k) l else l.
Lemma file_relocated e' i inst k s n l :
  copied e0 → renumber_extra_inst_refs io eo (r_instructions r) e0 = Done e' →
  r_instructions r !! i = Some inst → (k, s, n) ∈ payloads (ri_data inst) → get_payload k r s n = Done l →
  get_words k e' (s + eo) n = Done (relocated inst k l s n) ∧
  extent k e' (s + eo) n = size_in (r_extra r) (k, s, n).
Proof using Hok Hlen Hb0 Heo.
  intros Hp0 Hf Hi Hq Hl. pose proof (fo_apart _ Hok) as Ha.
  assert (Hin : inst ∈ r_instructions r) by (by eapply list_elem_of_lookup_2).
  assert (Hbear : ∀ inst' p, inst' ∈ r_instructions r → bears inst' p → present e0 p).
  { intros inst' p Hin' Hb. eapply Hp0; [done|by apply bearing_payload]. }
  unfold relocated. case_decide as Hb.
  - destruct (list_elem_of_split_length _ _ _ Hi) as (L1 & L2 & HL & Hlen1).
    by eapply bearing_relocated.
  - eapply (part_keeps 0) in Hf as (Hl' & Hpres & _);
      [|by intros ? ?|done|done|by eapply Hp0|].
    + by apply (present_read _ (k, s, n)).
    + intros j inst' p Hj Hb'. eapply (Ha j i); [exact Hj|exact Hi|exact Hb'|done|].
      destruct (decide (j = i)) as [->|]; [right; intros <-; congruence|by left].
Qed.
End File.
End Relocate.
