(* ===== verification/RirMergeSpec.v ===== *)
(** * What [merge] promises, and that it does

    The specification of [Rir::merge] of [crates/gruel-rir/src/inst.rs] does not speak of
    the word vector: in the merged RIR every instruction is the one of its file with its
    operands, and the references in its payloads, moved by the number of instructions of the
    files before. *)

From S2P Require Import Prelude Types AirPattern Air ParamArena Rir RirCodec RirStore RirMerge.
From S2P Require Import RirMergeThm RirRelocate.

#[local] Open Scope Z_scope.

Section Spec.
Context {Spur : Type} `{!SpurKey Spur}.
Notation Rir := (Rir Spur).
Notation InstData := (InstData Spur).

(** The references an instruction holds itself. *)
Definition operands (data : InstData) : list InstRef :=
  match data with
  | RUnary _ x | RMakeRef x _ | RInfiniteLoop x | RMatch x _ _ | RFnDecl _ _ _ _ _ _ _ _ x _ _
  | RConstDecl _ _ _ _ _ x | RAlloc _ _ _ _ _ x | RStructDestructure _ _ _ x | RAssign _ x
  | RFieldGet x _ | RMethodCall x _ _ _ | RComptime x | RChecked x | RAnonFnValue x => [x]
  | RBin _ x y | RLoop x y | RFor _ _ x y | RFieldSet x _ y | RIndexGet x y
  | RComptimeUnrollFor _ x y => [x; y]
  | RIndexSet x y z => [x; y; z]
  | RMakeSlice x lo hi _ => x :: option_list lo ++ option_list hi
  | RBranch x y e _ => x :: y :: option_list e
  | RTypeInterfaceIntrinsic _ _ o _ | RRet o | RStructInit o _ _ _ | REnumVariant o _ _
  | REnumStructVariant o _ _ _ _ => option_list o
  | _ => []
  end.
(** The rest of an instruction: its operands and the places of its payloads blanked. *)
Definition blank (o : option InstRef) : option InstRef := (λ _, 0) <$> o.
Definition skeleton (data : InstData) : InstData :=
  match data with
  | RBin op _ _ => RBin op 0 0
  | RUnary op _ => RUnary op 0
  | RMakeRef _ b => RMakeRef 0 b
  | RMakeSlice _ lo hi b => RMakeSlice 0 (blank lo) (blank hi) b
  | RBranch _ _ e b => RBranch 0 0 (blank e) b
  | RLoop _ _ => RLoop 0 0
  | RFor x b _ _ => RFor x b 0 0
  | RInfiniteLoop _ => RInfiniteLoop 0
  | RMatch _ _ n => RMatch 0 0 n
  | RFnDecl _ dn p u x _ n t _ h rm => RFnDecl 0 dn p u x 0 n t 0 h rm
  | RConstDecl _ n p x t _ => RConstDecl 0 n p x t 0
  | RCall x _ n => RCall x 0 n
  | RIntrinsic x _ n => RIntrinsic x 0 n
  | RTypeInterfaceIntrinsic x t o i => RTypeInterfaceIntrinsic x t (blank o) i
  | RRet o => RRet (blank o)
  | RBlock _ n => RBlock 0 n
  | RAlloc _ n x b t _ => RAlloc 0 n x b t 0
  | RStructDestructure x _ n _ => RStructDestructure x 0 n 0
  | RAssign x _ => RAssign x 0
  | RStructDecl _ dn p po x _ fn _ mn => RStructDecl 0 dn p po x 0 fn 0 mn
  | RStructInit o x _ n => RStructInit (blank o) x 0 n
  | RFieldGet _ f => RFieldGet 0 f
  | RFieldSet _ f _ => RFieldSet 0 f 0
  | REnumDecl p po x _ vn _ mn _ dn => REnumDecl p po x 0 vn 0 mn 0 dn
  | REnumVariant o x v => REnumVariant (blank o) x v
  | REnumStructVariant o x v _ n => REnumStructVariant (blank o) x v 0 n
  | RArrayInit _ n => RArrayInit 0 n
  | RIndexGet _ _ => RIndexGet 0 0
  | RIndexSet _ _ _ => RIndexSet 0 0 0
  | RMethodCall _ x _ n => RMethodCall 0 x 0 n
  | RAssocFnCall t f _ n => RAssocFnCall t f 0 n
  | RInterfaceDecl p x _ mn _ dn => RInterfaceDecl p x 0 mn 0 dn
  | RInterfaceMethodSig x _ n t rm u _ dn => RInterfaceMethodSig x 0 n t rm u 0 dn
  | RDeriveDecl x _ n => RDeriveDecl x 0 n
  | RComptime _ => RComptime 0
  | RComptimeUnrollFor x _ _ => RComptimeUnrollFor x 0 0
  | RChecked _ => RChecked 0
  | RAnonStructType _ dn _ fn _ mn => RAnonStructType 0 dn 0 fn 0 mn
  | RAnonEnumType _ dn _ vn _ mn => RAnonEnumType 0 dn 0 vn 0 mn
  | RAnonInterfaceType _ n => RAnonInterfaceType 0 n
  | RTupleInit _ n => RTupleInit 0 n
  | RAnonFnValue _ => RAnonFnValue 0
  | _ => data
  end.

(** The instructions whose payloads [merge] handles in full: it leaves the place of the
    fields of an [EnumStructVariant] and the methods of an [EnumDecl] as they are. *)
Definition supported (data : InstData) : Prop :=
  match data with
  | REnumStructVariant _ _ _ _ _ => False
  | REnumDecl _ _ _ _ _ _ methods_len _ _ => methods_len = 0
  | _ => True
  end.

(** ** One instruction *)
Section Instruction.
Context (io eo : Z).
Ltac renumbered :=
  repeat match goal with
  | H : (_ ≫= _) = Done _ |- _ => apply bind_Done in H as (? & ? & ?)
  | H : renumber io _ = Done _ |- _ => apply checked_add_Done in H as [-> _]
  | H : shift eo _ = Done _ |- _ => apply checked_add_Done in H as [-> _]
  | H : mret _ = Done _ |- _ => injection H as <-
  | H : renumber_opt io ?o = Done _ |- _ => destruct o; simpl in H
  | H : shift_directives eo ?s ?n = Done _ |- _ => unfold shift_directives in H; destruct (Z.eqb_spec n 0)
  end.
Lemma renumbered_operands data data' :
  renumber_data io eo data = Done data' →
  operands data' = map (λ r, r + io) (operands data) ∧ skeleton data' = skeleton data.
Proof. destruct data; simpl; intros H; renumbered; done. Qed.
Lemma renumbered_payloads data data' j k s n :
  renumber_data io eo data = Done data' → supported data → payloads data !! j = Some (k, s, n) →
  ∃ s', payloads data' !! j = Some (k, s', n) ∧ (s' = s + eo ∨ k = KDirectives ∧ n = 0).
Proof.
  destruct data; simpl; intros H Hs; try done; renumbered; simpl;
    repeat (destruct j as [|j]; simpl; [intros [= <- <- <-]; eauto|]); done.
Qed.
End Instruction.

(** ** One file of the loop *)
Definition words (r : Rir) : nat := length (r_extra r).
Definition insts (r : Rir) : nat := length (r_instructions r).
(** [m'] keeps what is in [m]. *)
Record keeps (m m' : Rir) : Prop := {
  kp_insts : r_instructions m `prefix_of` r_instructions m';
  kp_words : (words m ≤ words m')%nat;
  kp_extra j : (j < words m)%nat → r_extra m' !! j = r_extra m !! j;
}.
Instance keeps_refl : Reflexive keeps.
Proof. by intros m. Qed.
Instance keeps_trans : Transitive keeps.
Proof.
  intros m m1 m2 [Hi Hw Hx] [Hi' Hw' Hx']. split; [by etrans|lia|].
  intros j Hj. rewrite Hx' by lia. by apply Hx.
Qed.

(** The state of the loop: the offsets are the sizes of what was merged. *)
Definition offsets_ok (st : Rir * Z * Z) : Prop :=
  let '(m, io, eo) := st in io = Z.of_nat (insts m) ∧ eo = Z.of_nat (words m).
Lemma file_copied r (m : Rir) :
  file_ok r → copied (Z.of_nat (words m)) r (r_extra m ++ r_extra r).
Proof.
  intros Hok inst [[k s] n] Hin Hp. destruct (fo_read _ Hok _ _ _ _ Hin Hp) as (Hs & Hn & Hrd & Hb).
  unfold words. split; simpl in *; [done..| |].
  - rewrite length_app. unfold start_of in Hb. simpl in Hb. lia.
  - intros i Hi. rewrite lookup_app_r by (simpl; lia). f_equal. unfold start_of. simpl. lia.
Qed.
Lemma copied_settled (eo : Z) r e :
  file_ok r → copied eo r e → settled eo r e (r_instructions r) e.
Proof.
  intros Hok Hc. split; [done|intros; eapply Hc; [done|by apply bearing_payload]|].
  intros i j di dj p q Hi Hj Hne Hp Hq.
  eapply (fo_apart _ Hok i j); [done|done|done|by apply bearing_payload|by left].
Qed.
(** The words before those of the file are not touched. *)
Lemma copied_frame io r (m : Rir) e' :
  file_ok r → Z.of_nat (words m + words r) < 2 ^ 32 →
  renumber_extra_inst_refs io (Z.of_nat (words m)) (r_instructions r) (r_extra m ++ r_extra r) = Done e' →
  length e' = (words m + words r)%nat ∧ ∀ j, (j < words m)%nat → e' !! j = r_extra m !! j.
Proof.
  intros Hok Hb He. set (e0 := r_extra m ++ r_extra r) in *.
  assert (Hl0 : length e0 = (words m + words r)%nat) by apply length_app.
  pose proof (copied_settled _ _ _ Hok (file_copied r m Hok)) as Hset. fold e0 in Hset.
  destruct (fold_outside io (Z.of_nat (words m)) r ltac:(lia) e0 ltac:(unfold words in *; lia) ltac:(lia)
              _ _ _ Hset He) as [Hl Ho].
  split; [congruence|]. intros j Hj. rewrite Ho; [by apply lookup_app_l|].
  intros inst p Hin Hbp. left. pose proof (pr_start _ _ _ _ (se_present _ _ _ _ _ Hset _ _ Hin Hbp)). lia.
Qed.
Lemma merge_step_keeps m io eo r m' io' eo' :
  file_ok r → offsets_ok (m, io, eo) → merge_step (m, io, eo) r = Done (m', io', eo') →
  keeps m m' ∧ offsets_ok (m', io', eo') ∧ insts m' = (insts m + insts r)%nat ∧
  words m' = (words m + words r)%nat ∧ Z.of_nat (words m') < 2 ^ 32.
Proof.
  intros Hok [-> ->]. pose proof (fo_extra _ Hok) as Hbx. pose proof (fo_insts _ Hok) as Hbi. unfold merge_step.
  intros (m1 & Hm & (io1 & (-> & _)%checked_add_Done & (eo1 & (-> & Hw)%checked_add_Done & [= <- <- <-])%bind_Done)%bind_Done)%bind_Done.
  apply bind_Done in Hm as (L & HL%mapM_Done & (e' & He & Hm)%bind_Done).
  apply bind_Done in Hm as (? & _ & (? & _ & [= <-])%bind_Done).
  rewrite len_u32_small in Hw by done. rewrite !len_u32_small by done.
  destruct (copied_frame _ r m _ Hok ltac:(unfold words, in_u in *; lia) He) as [Hl Hfr].
  apply Forall2_length in HL. unfold offsets_ok, insts, words in *. simpl. rewrite length_app.
  split_and!; [split; simpl; [by apply prefix_app_r|unfold words; simpl; clear -Hl; lia|exact Hfr]|lia|lia|lia|lia|unfold in_u in Hw; lia].
Qed.
Lemma merge_fold_keeps R m io eo m' io' eo' :
  Forall file_ok R → offsets_ok (m, io, eo) → foldM merge_step (m, io, eo) R = Done (m', io', eo') →
  Z.of_nat (words m) < 2 ^ 32 →
  keeps m m' ∧ offsets_ok (m', io', eo') ∧ insts m' = (insts m + sum_list (insts <$> R))%nat ∧
  words m' = (words m + sum_list (words <$> R))%nat ∧ Z.of_nat (words m') < 2 ^ 32.
Proof.
  intros HR. revert m io eo. induction HR as [|r R Hr HR IH]; intros m io eo Ho; simpl.
  { intros [= <- <- <-] Hb. split_and!; [reflexivity|apply Ho..|lia|lia|done]. }
  intros ([[m1 io1] eo1] & H1 & H2)%bind_Done Hb.
  destruct (merge_step_keeps _ _ _ _ _ _ _ Hr Ho H1) as (Hk1 & Ho1 & Hi1 & Hw1 & Hb1).
  destruct (IH _ _ _ Ho1 H2 Hb1) as (Hk2 & Ho2 & Hi2 & Hw2 & Hb2).
  split; [by transitivity m1|]. split; [done|]. rewrite Hi2, Hw2, Hi1, Hw1, <-!(assoc_L Nat.add).
  split_and!; [done..|]. revert Hb2. by rewrite Hw2, Hw1, <-(assoc_L Nat.add).
Qed.

(** ** The files of a merge *)
Definition inst_base (rirs : list Rir) (k : nat) : nat := sum_list (insts <$> take k rirs).
(** What becomes of instruction [inst] of file [r], [io] instructions later in [m]. *)
Record relocated_in (io : Z) (r m : Rir) (inst inst' : Inst Spur) : Prop := {
  ri_same : skeleton (ri_data inst') = skeleton (ri_data inst);
  ri_where : ri_span inst' = ri_span inst;
  ri_operands : operands (ri_data inst') = map (λ x, x + io) (operands (ri_data inst));
  ri_payloads j k s n l : supported (ri_data inst) → payloads (ri_data inst) !! j = Some (k, s, n) →
    get_payload k r s n = Done l →
    ∃ s', payloads (ri_data inst') !! j = Some (k, s', n) ∧ get_payload k m s' n = Done (map (move io k) l);
}.
(** All the references of a supported instruction are in the payload that is renumbered. *)
Lemma relocated_all io (r : Rir) inst j k s n l :
  supported (ri_data inst) → payloads (ri_data inst) !! j = Some (k, s, n) → get_payload k r s n = Done l →
  relocated io inst k l s n = map (move io k) l.
Proof.
  unfold relocated. intros Hs Hj Hl. case_decide as Hb; [done|].
  assert (Hk : (k = KRefs → l = []) ∧ k ≠ KCallArgs ∧ k ≠ KFieldInits ∧ k ≠ KArms).
  { destruct (ri_data inst); simpl in *; try done;
      repeat (destruct j as [|j]; simpl in Hj; [injection Hj as <- <- <-|]); try done.
    split_and!; [intros _|done..]. rewrite Hs in Hl. apply slice_length in Hl. by apply length_zero_iff_nil in Hl. }
  destruct Hk as (Hr & H1 & H2 & H3).
  destruct k; simpl; try (symmetry; apply map_id); [by rewrite Hr|done..].
Qed.

(** A payload of the file in any vector that keeps the words of the merged file. *)
Lemma payload_in_merge io (m r mf : Rir) e' i inst k s n l :
  file_ok r → Z.of_nat (words m + words r) < 2 ^ 32 →
  renumber_extra_inst_refs io (Z.of_nat (words m)) (r_instructions r) (r_extra m ++ r_extra r) = Done e' →
  r_instructions r !! i = Some inst → (k, s, n) ∈ payloads (ri_data inst) → get_payload k r s n = Done l →
  (words m + words r ≤ words mf)%nat → Z.of_nat (words mf) < 2 ^ 32 →
  (∀ j, (j < words m + words r)%nat → r_extra mf !! j = e' !! j) →
  get_payload k mf (s + Z.of_nat (words m)) n = Done (relocated io inst k l s n).
Proof.
  intros Hok Hb He Hi Hp Hl Hw Hbf Hx. set (e0 := r_extra m ++ r_extra r) in *.
  assert (Hl0 : length e0 = (words m + words r)%nat) by apply length_app.
  destruct (copied_frame _ _ _ _ Hok Hb He) as [Hl' _].
  destruct (file_relocated io (Z.of_nat (words m)) r Hok ltac:(lia) e0 ltac:(unfold words in *; lia) ltac:(lia)
              e' i inst k s n l (file_copied r m Hok) He Hi Hp Hl) as [Hg Hxt].
  destruct (fo_read _ Hok _ _ _ _ (list_elem_of_lookup_2 _ _ _ Hi) Hp) as (Hs & Hn & _ & Hin).
  unfold start_of in Hin. simpl in Hin. fold (words r) in Hin.
  rewrite get_payload_words. eapply get_words_same; [exact Hg|lia|lia|lia| |rewrite Hxt; fold (words mf); lia|fold (words mf); lia|exact Hbf].
  intros o Ho. rewrite Hxt in Ho. apply Hx. lia.
Qed.
(** One file: where the offsets of the loop are the sizes of what was merged before. *)
Lemma step_relocates m io eo r m' io' eo' i inst :
  file_ok r → offsets_ok (m, io, eo) → merge_step (m, io, eo) r = Done (m', io', eo') →
  r_instructions r !! i = Some inst →
  ∃ inst', r_instructions m' !! (insts m + i)%nat = Some inst' ∧
    ∀ mf, keeps m' mf → Z.of_nat (words mf) < 2 ^ 32 → relocated_in io r mf inst inst'.
Proof.
  intros Hok Ho Hstep Hi.
  pose proof (merge_step_keeps _ _ _ _ _ _ _ Hok Ho Hstep) as (_ & _ & _ & Hw & Hb). destruct Ho as [-> ->].
  unfold merge_step in Hstep. apply bind_Done in Hstep as (m1 & Hm & Hstep).
  apply bind_Done in Hstep as (? & _ & (? & _ & [= -> <- <-])%bind_Done).
  apply bind_Done in Hm as (L & HL%mapM_Done & (e' & He & Hm)%bind_Done).
  apply bind_Done in Hm as (? & _ & (? & _ & [= <-])%bind_Done).
  destruct (Forall2_lookup_l _ _ _ _ _ HL Hi) as (inst' & Hi' & (data' & Hd & [= <-])%bind_Done).
  eexists. split; [simpl; rewrite lookup_app_r by (unfold insts; lia); unfold insts;
    replace (length (r_instructions m) + i - length (r_instructions m))%nat with i by lia; exact Hi'|].
  intros mf Hk Hbf. destruct (renumbered_operands _ _ _ _ Hd) as [Hops Hsk]. split; [done..|].
  intros j k s n l Hs Hj Hl. destruct (renumbered_payloads _ _ _ _ _ _ _ _ Hd Hs Hj) as (s' & Hs' & Hpl).
  exists s'. split; [done|]. rewrite <-(relocated_all _ _ _ _ _ _ _ _ Hs Hj Hl). destruct Hpl as [->|[-> ->]].
  - destruct Hk as [_ Hwk Hx]. unfold words in Hwk, Hx, Hw, Hb. simpl in Hwk, Hx, Hw, Hb.
    eapply (payload_in_merge _ m r); [exact Hok|unfold words; lia|exact He|exact Hi|by eapply list_elem_of_lookup_2|exact Hl|unfold words; lia|done|].
    intros o Ho. apply Hx. unfold words in Ho. lia.
  - injection Hl as <-. unfold relocated. by case_decide.
Qed.

End Spec.
