(* ===== verification/RirMergeTotal.v ===== *)
(** * [merge] returns

    [Rir::merge] of [crates/gruel-rir/src/inst.rs] has no way to fail but to panic: on a
    match arm of a kind it does not know, and on indices that overflow. *)

From S2P Require Import Prelude Types AirPattern Air ParamArena Rir RirCodec RirStore RirMerge.
From S2P Require Import RirMergeThm RirRelocate RirMergeSpec.

#[local] Open Scope Z_scope.

Section Total.
Context {Spur : Type} `{!SpurKey Spur}.
Notation Rir := (Rir Spur).

Lemma checked_add_ok w a b : in_u w (a + b) → checked_add w a b = Done (a + b).
Proof. intros H. by apply checked_add_Done. Qed.

Lemma mapM_returns {A B} (f : A → outcome B) l :
  (∀ x, x ∈ l → ∃ y, f x = Done y) → ∃ k, mapM f l = Done k.
Proof.
  induction l as [|x l IH]; intros Hf; simpl; [by eauto|].
  destruct (Hf x) as [y ->]; [by left|]. destruct IH as [k ->]; [|simpl; by eauto]. intros z Hz. apply Hf. by right.
Qed.

(** ** The reference words of a payload *)
Section Words.
Context (io : Z).
Lemma bump_returns i (e : list Z) w : e !! i = Some w → in_u32 (w + io) → bump io i e = Done (<[i := w + io]> e).
Proof. intros Hw Hb. unfold bump, renumber, index. rewrite Hw. simpl. by rewrite (checked_add_ok _ _ _ Hb). Qed.
(** Items [c] words wide with a reference word at [field]. *)
Definition refs_at (c field b : nat) (n : nat) (P : Z → Prop) (e : list Z) : Prop :=
  ∀ i, (i < n)%nat → ∃ w, e !! (b + i * c + field)%nat = Some w ∧ P w.
Lemma bump_loop_returns c field b a n (e : list Z) :
  (field < c)%nat →
  (∀ i, (a ≤ i < a + n)%nat → ∃ w, e !! (b + i * c + field)%nat = Some w ∧ in_u32 (w + io)) →
  ∃ e', foldM (λ e i, bump io (b + i * c + field) e) e (seq a n) = Done e'.
Proof.
  intros Hf. revert a e. induction n as [|n IH]; intros a e He; simpl; [eauto|].
  destruct (He a ltac:(lia)) as (w & Hw & Hb). rewrite (bump_returns _ _ _ Hw Hb). simpl. apply IH.
  intros i Hi. rewrite list_lookup_insert_ne by nia. apply He. lia.
Qed.
Lemma bump_refs_returns eo c field s n (e : list Z) :
  0 ≤ s → 0 ≤ eo → in_u32 (s + eo) → (field < c)%nat →
  refs_at c field (Z.to_nat (s + eo)) (Z.to_nat n) (λ w, in_u32 (w + io)) e →
  ∃ e', bump_refs io eo c field s n e = Done e'.
Proof.
  intros Hs Heo Hb Hf He. unfold bump_refs, shift. rewrite (checked_add_ok _ _ _ Hb). simpl.
  apply bump_loop_returns; [done|]. intros i Hi. apply He. lia.
Qed.

(** The reference a reader returns is the word at [field]. *)
Definition points {A} (c field : nat) (m : Rd A) (ref : A → Z) : Prop :=
  sized c m ∧ ∀ d s a t, m d s = Done (a, t) → d !! (s + field)%nat = Some (ref a).
Lemma points_times {A} c field (m : Rd A) ref (P : Z → Prop) n d s items t :
  points c field m ref → times n m d s = Done (items, t) → Forall (λ x, P (ref x)) items →
  refs_at c field s n P d.
Proof.
  intros [Hsz Hm]. revert s items t. induction n as [|n IH]; intros s items t; simpl; [intros _ _ ?; lia|].
  intros ([x t1] & Hx & ([xs t2] & Hxs & [= <- <-])%bind_Done)%bind_Done [HP HPs]%Forall_cons_1 i Hi.
  pose proof (Hsz _ _ _ _ Hx) as ->. destruct i as [|i].
  - exists (ref x). split; [|done]. rewrite Nat.mul_0_l, Nat.add_0_r. by eapply Hm.
  - destruct (IH _ _ _ Hxs HPs i ltac:(lia)) as (w & Hw & HPw). exists w. split; [|done].
    by replace (s + S i * c + field)%nat with (s + c + i * c + field)%nat by lia.
Qed.
Lemma points_arg : points 2 0 read_arg ra_value.
Proof.
  split; [apply (follows_arg 0)|]. intros d s a t ([v t1] & [Hv ->]%word_Done & Hr)%bind_Done.
  apply bind_Done in Hr as ([w t2] & _ & [= <- _]). by rewrite Nat.add_0_r.
Qed.
Lemma points_init : points 2 1 (read_field_init (Spur := Spur)) snd.
Proof.
  split; [apply (follows_init 0)|]. intros d s a t ([v t1] & Hv%sized_name & Hr)%bind_Done.
  apply bind_Done in Hr as ([w t2] & [Hw ->]%word_Done & [= <- _]). by rewrite <-Hv.
Qed.
Lemma slice_refs_at c field s n (P : Z → Prop) (e data : list Z) :
  (field < c)%nat → slice_range e s (s + Z.of_nat (n * c)) = Done data → refs_at c field 0 n P data →
  refs_at c field (Z.to_nat s) n P e.
Proof.
  unfold slice_range. case_decide as Hb; [|done]. intros Hf [= <-] Hd i Hi.
  destruct (Hd i Hi) as (w & Hw & HP). exists w. split; [|done].
  rewrite lookup_take_lt, lookup_drop in Hw by nia. by rewrite <-Nat.add_assoc.
Qed.
Lemma chunks_refs_at {A} c field (m : Rd A) ref (P : Z → Prop) s n e l :
  0 ≤ n → (field < c)%nat → points c field m ref →
  get_chunks (Z.of_nat c) m (set_r_extra (Spur := Spur) e new_rir) s n = Done l → Forall (λ x, P (ref x)) l →
  refs_at c field (Z.to_nat s) (Z.to_nat n) P e.
Proof.
  intros Hn Hf Hm. unfold get_chunks, rir_get_extra. simpl.
  intros (k & (-> & _)%checked_mul_Done & (data & Hd & ([items t] & Ht & [= <-])%bind_Done)%bind_Done)%bind_Done HP.
  eapply slice_refs_at; [done| |by eapply points_times]. by replace (Z.of_nat (Z.to_nat n * c)) with (n * Z.of_nat c) by lia.
Qed.
Lemma list_refs_at (P : Z → Prop) s n (e l : list Z) :
  0 ≤ n → slice_range e s (s + n) = Done l → Forall P l → refs_at 1 0 (Z.to_nat s) (Z.to_nat n) P e.
Proof.
  intros Hn Hl HP. eapply (slice_refs_at 1 0 _ _ _ _ l); [lia|by replace (Z.of_nat (Z.to_nat n * 1)) with n by lia|].
  intros i Hi. apply slice_length in Hl. rewrite <-Hl in Hi. apply lookup_lt_is_Some in Hi as [w Hw]. exists w.
  rewrite Nat.mul_1_r, Nat.add_0_r. split; [done|]. by eapply Forall_lookup_1.
Qed.

(** *** Arms *)
Definition simple (p : RirPattern Spur) : Prop :=
  match p with RWildcard _ | RInt _ _ | RBool _ _ | RPath _ _ _ _ => True | _ => False end.
Lemma simple_kind fuel e pos p body t :
  read_arm fuel e pos = Done ((p, body), t) → simple p →
  ∃ kind size, e !! pos = Some kind ∧ pattern_size kind = Done size.
Proof.
  intros ([kind t0] & [Hk ->]%word_Done & ([sp t1] & _ & Hr)%bind_Done)%bind_Done Hp. exists kind.
  unfold pattern_size. do 4 (case_match; [eauto|]).
  exfalso. repeat (case_match || apply bind_Done in Hr as ([? ?] & _ & Hr)); try done; by injection Hr as <- _ _.
Qed.
Lemma bump_arms_returns fuel n e pos items t :
  times n (read_arm (Spur := Spur) fuel) e pos = Done (items, t) →
  Forall (λ a, simple a.1 ∧ in_u32 (a.2 + io)) items → ∃ e', bump_arms io n pos e = Done e'.
Proof.
  revert pos e items. induction n as [|n IH]; intros pos e items; simpl; [eauto|].
  intros ([[p body] t1] & Hx & ([xs t2] & Hxs & [= <- <-])%bind_Done)%bind_Done [[Hp Hb] HPs]%Forall_cons_1.
  destruct (simple_kind _ _ _ _ _ _ Hx Hp) as (kind & size & Hk & Hs).
  unfold index. rewrite Hk. simpl. rewrite Hs. simpl.
  assert (Hbody : ∃ w, e !! (pos + size - 1)%nat = Some w ∧ in_u32 (w + io)).
  { exists body. split; [|done]. rewrite (arm_is_simple _ _ _ _ _ Hk Hs) in Hx.
    apply bind_Done in Hx as ([p' t'] & Hp' & ([b t3] & [Hw ->]%word_Done & [= -> -> <-])%bind_Done).
    pose proof (simple_size _ _ _ _ _ _ Hk Hs Hp'). by replace (pos + size - 1)%nat with t' by lia. }
  destruct Hbody as (w & Hw & Hbw). pose proof (bump_returns _ _ _ Hw Hbw) as Hbump.
  destruct (arm_bumped _ _ _ _ _ _ _ _ _ Hk Hs Hx Hbump) as (-> & Hlt & _ & Hoth & _).
  rewrite Hbump. simpl. eapply IH; [|exact HPs].
  destruct (local_times n _ (local_arm fuel) _ _ _ _ Hxs) as [Hle Hloc].
  rewrite (Hloc _ (pos + size)%nat); [do 2 f_equal; lia|]. intros i Hi. apply Hoth. lia.
Qed.

(** ** One payload *)
(** The references of an item are in range and [merge] knows its kind. *)
Definition item_moves (bound : Z → Prop) (k : PayloadKind) : Item (Spur := Spur) k → Prop :=
  match k with
  | KRefs => bound
  | KCallArgs => λ a, bound (ra_value a)
  | KFieldInits => λ f, bound f.2
  | KArms => λ a, simple a.1 ∧ bound a.2
  | _ => λ _, True
  end.
Lemma payload_returns eo (data : InstData Spur) e k s n l :
  bearing data = Some (k, s, n) → 0 ≤ s → 0 ≤ n → 0 ≤ eo → in_u32 (s + eo) →
  get_words k e (s + eo) n = Done l → Forall (item_moves (λ w, in_u32 (w + io)) k) l →
  ∃ e', renumber_payload io eo data e = Done e'.
Proof.
  intros Hb Hs Hn Heo Hin Hg HP.
  assert (Hcase : (k = KRefs ∧ renumber_payload io eo data e = bump_refs io eo 1 0 s n e) ∨
    (k = KCallArgs ∧ renumber_payload io eo data e = bump_refs io eo 2 0 s n e) ∨
    (k = KFieldInits ∧ renumber_payload io eo data e = bump_refs io eo 2 1 s n e) ∨
    (k = KArms ∧ renumber_payload io eo data e =
       (s' ← shift eo s; bump_arms io (Z.to_nat n) (Z.to_nat s') e))).
  { destruct data; simplify_eq/=; eauto. }
  destruct Hcase as [[-> ->]|[[-> ->]|[[-> ->]|[-> ->]]]].
  - apply bump_refs_returns; [lia..|done|lia|]. by eapply list_refs_at.
  - apply bump_refs_returns; [lia..|done|lia|]. by eapply (chunks_refs_at 2 0); [done|lia|apply points_arg|exact Hg|].
  - apply bump_refs_returns; [lia..|done|lia|]. by eapply (chunks_refs_at 2 1); [done|lia|apply points_init|exact Hg|].
  - unfold shift. rewrite (checked_add_ok _ _ _ Hin). simpl.
    apply bind_Done in Hg as ([items t] & Ht & [= <-]). by eapply bump_arms_returns.
Qed.
End Words.

(** ** Closed files *)
(** References name instructions of the file, indices words of it, and the arms are of the
    kinds that [merge] knows. *)
Definition below (n : nat) (x : Z) : Prop := 0 ≤ x < Z.of_nat n.
Record closed (r : Rir) : Prop := {
  cl_ok : file_ok r;
  cl_operands inst x : inst ∈ r_instructions r → x ∈ operands (ri_data inst) → below (insts r) x;
  cl_items inst k s n l : inst ∈ r_instructions r → bearing (ri_data inst) = Some (k, s, n) →
    get_payload k r s n = Done l → Forall (item_moves (below (insts r)) k) l;
  cl_spans f : f ∈ r_function_spans r → below (insts r) (fs_body_start f) ∧ below (insts r) (fs_decl f);
  cl_externs f : f ∈ r_extern_fns r →
    0 ≤ xf_directives_start f ≤ Z.of_nat (words r) ∧ 0 ≤ xf_params_start f ≤ Z.of_nat (words r);
}.
Lemma item_moves_mono (P Q : Z → Prop) k x : (∀ z, P z → Q z) → item_moves P k x → item_moves Q k x.
Proof. destruct k; simpl; naive_solver. Qed.

(** The instruction words: operands and the starts of the payloads. *)
Definition start (p : PayloadKind * Z * Z) : Z := p.1.2.
Lemma renumber_data_returns io eo (data : InstData Spur) :
  (∀ x, x ∈ operands data → in_u32 (x + io)) →
  (∀ s, s ∈ map start (payloads data) → in_u32 (s + eo)) → ∃ data', renumber_data io eo data = Done data'.
Proof.
  intros Ho Hp.
  assert (Hr : ∀ x, x ∈ operands data → renumber io x = Done (x + io)) by (intros; by apply checked_add_ok, Ho).
  assert (Hs : ∀ s, s ∈ map start (payloads data) → shift eo s = Done (s + eo))
    by (intros; by apply checked_add_ok, Hp).
  clear Ho Hp. destruct data; simpl in *; unfold shift_directives, start in *; simpl in *;
    repeat match goal with
    | |- context [renumber io ?x] => rewrite (Hr x) by set_solver; simpl
    | |- context [shift eo ?x] => rewrite (Hs x) by set_solver; simpl
    | |- context [renumber_opt io ?o] => destruct o; simpl
    | |- context [?n =? 0] => destruct (n =? 0); simpl
    end; eauto.
Qed.

(** ** One file *)
Section File.
Context (m r : Rir) (Hcl : closed r) (Hi : Z.of_nat (insts m + insts r) < 2 ^ 32)
  (Hw : Z.of_nat (words m + words r) < 2 ^ 32).
Notation io := (Z.of_nat (insts m)).
Notation eo := (Z.of_nat (words m)).
Lemma below_in x : below (insts r) x → in_u32 (x + io).
Proof using Hi. clear -Hi. unfold below, in_u. lia. Qed.
Lemma start_in inst k s n :
  inst ∈ r_instructions r → (k, s, n) ∈ payloads (ri_data inst) → 0 ≤ s ∧ 0 ≤ n ∧ in_u32 (s + eo).
Proof using Hcl Hw.
  intros Hin Hp. destruct (fo_read _ (cl_ok _ Hcl) _ _ _ _ Hin Hp) as (Hs & Hn & _ & Hb).
  unfold start_of in Hb. simpl in Hb. fold (words r) in Hb. clear -Hs Hn Hb Hw. unfold in_u. lia.
Qed.
Lemma instruction_returns inst :
  inst ∈ r_instructions r → ∃ inst', renumber_instruction io eo inst = Done inst'.
Proof using Hcl Hi Hw.
  intros Hin. destruct (renumber_data_returns io eo (ri_data inst)) as [data' Hd].
  - intros x Hx. apply below_in. by eapply cl_operands.
  - intros s ([[k s'] n] & -> & Hp)%list_elem_of_fmap. by eapply start_in.
  - eexists. unfold renumber_instruction. by rewrite Hd.
Qed.
Lemma payload_fold_returns e0 L e :
  (words r ≤ length e0)%nat → Z.of_nat (length e0) < 2 ^ 32 → L ⊆ r_instructions r → settled eo r e0 L e →
  ∃ e', renumber_extra_inst_refs io eo L e = Done e'.
Proof using Hcl Hi Hw.
  intros Hl0 Hb0. unfold renumber_extra_inst_refs. revert e.
  induction L as [|inst L IH]; intros e HL Hset; simpl; [eauto|].
  assert (Hin : inst ∈ r_instructions r) by (apply HL; by left).
  assert (Hstep : ∃ e1, renumber_payload io eo (ri_data inst) e = Done e1).
  { destruct (bearing (ri_data inst)) as [[[k s] n]|] eqn:Hb; [|destruct (ri_data inst); simpl in *; by eauto].
    destruct (start_in inst k s n Hin) as (Hs & Hn & Hu); [by apply bearing_payload|].
    pose proof (se_present _ _ _ _ _ Hset inst _ (list_elem_of_here _ _) Hb) as Hp.
    destruct (pr_read _ _ _ _ Hp) as [l Hl].
    destruct (present_read eo r ltac:(lia) e0 Hl0 Hb0 _ _ _ (se_length _ _ _ _ _ Hset) Hp Hl) as [Hg _].
    eapply payload_returns; [exact Hb|done|done|lia|done|exact Hg|].
    simpl in Hl. eapply Forall_impl; [|exact (cl_items _ Hcl _ _ _ _ _ Hin Hb Hl)].
    intros x. apply item_moves_mono, below_in. }
  destruct Hstep as [e1 H1]. rewrite H1. simpl. apply IH; [set_solver|].
  eapply (settled_step io eo r ltac:(lia) e0 Hl0 Hb0); [exact Hset|exact H1].
Qed.
Lemma merge_file_returns : ∃ m', merge_file io eo m r = Done m'.
Proof using Hcl Hi Hw.
  destruct (mapM_returns (renumber_instruction io eo) (r_instructions r)) as [L HL]; [apply instruction_returns|].
  destruct (payload_fold_returns (r_extra m ++ r_extra r) (r_instructions r) (r_extra m ++ r_extra r)) as [e He];
    [rewrite length_app; unfold words; lia|rewrite length_app; exact Hw|done| |].
  { apply copied_settled; [apply Hcl|apply file_copied, Hcl]. }
  destruct (mapM_returns (renumber_function_span io) (r_function_spans r)) as [F HF].
  { intros f [H1%below_in H2%below_in]%(cl_spans _ Hcl). unfold renumber_function_span, renumber.
    rewrite !checked_add_ok by done. simpl. eauto. }
  destruct (mapM_returns (renumber_extern_fn eo) (r_extern_fns r)) as [X HX].
  { intros f [H1 H2]%(cl_externs _ Hcl). unfold renumber_extern_fn, shift.
    rewrite !checked_add_ok by (unfold in_u; lia). simpl. eauto. }
  eexists. unfold merge_file. rewrite HL. simpl. rewrite He. simpl. rewrite HF. simpl. by rewrite HX.
Qed.
End File.

(** ** All files *)
Lemma merge_fold_returns R m io eo :
  Forall closed R → offsets_ok (m, io, eo) → Z.of_nat (insts m + sum_list (insts <$> R)) < 2 ^ 32 →
  Z.of_nat (words m + sum_list (words <$> R)) < 2 ^ 32 → ∃ st, foldM merge_step (m, io, eo) R = Done st.
Proof.
  intros HR. revert m io eo. induction HR as [|r R Hr HR IH]; intros m io eo Ho Hi Hw; [simpl; eauto|].
  rewrite fmap_cons in Hi, Hw. simpl in Hi, Hw.
  assert (Hm : ∃ m' io' eo', merge_step (m, io, eo) r = Done (m', io', eo')).
  { destruct Ho as [-> ->]. destruct (merge_file_returns m r Hr) as [m' Hm']; [lia..|].
    pose proof (fo_insts _ (cl_ok _ Hr)). pose proof (fo_extra _ (cl_ok _ Hr)).
    unfold merge_step. rewrite Hm'. simpl. rewrite !len_u32_small by done. unfold insts, words in *.
    rewrite !checked_add_ok by (unfold in_u; lia). simpl. eauto. }
  destruct Hm as (m' & io' & eo' & Hm).
  destruct (merge_step_keeps _ _ _ _ _ _ _ (cl_ok _ Hr) Ho Hm) as (_ & Ho' & Hi' & Hw' & _).
  simpl. simpl in Hm. rewrite Hm. simpl. apply IH; [done|lia..].
Qed.


(** ** Arms that cannot be merged *)
Lemma bump_arms_simple io fuel n pos e e' items t :
  bump_arms io n pos e = Done e' → times n (read_arm (Spur := Spur) fuel) e pos = Done (items, t) →
  Forall (λ a, simple a.1) items.
Proof.
  revert pos e items. induction n as [|n IH]; intros pos e items; simpl; [intros _ [= <- _]; constructor|].
  intros (kind & Hk%expect_Done & (size & Hs & (e1 & Hb & Hrest)%bind_Done)%bind_Done)%bind_Done.
  intros ([x t1] & Hx & ([xs t2] & Hxs & [= <- <-])%bind_Done)%bind_Done.
  destruct (arm_bumped _ _ _ _ _ _ _ _ _ Hk Hs Hx Hb) as (-> & Hlt & _ & Hoth & _).
  constructor.
  - rewrite (arm_is_simple _ _ _ _ _ Hk Hs) in Hx.
    apply bind_Done in Hx as ([p t3] & Hp & ([b t4] & _ & [= <- _])%bind_Done). simpl. clear -Hp.
    apply bind_Done in Hp as ([k t] & _ & ([sp t1] & _ & Hp)%bind_Done).
    repeat (case_match || apply bind_Done in Hp as ([? ?] & _ & Hp)); try done; by injection Hp as <- _.
  - eapply IH; [exact Hrest|]. destruct (local_times n _ (local_arm fuel) _ _ _ _ Hxs) as [Hle Hloc].
    rewrite (Hloc _ (pos + size)%nat); [do 2 f_equal; lia|]. intros i Hi. apply Hoth. lia.
Qed.
(** Each payload is renumbered from the words it had in its file. *)
Lemma fold_visits io eo r e0 L e e' inst p :
  0 ≤ eo → (words r ≤ length e0)%nat → Z.of_nat (length e0) < 2 ^ 32 → settled eo r e0 L e →
  renumber_extra_inst_refs io eo L e = Done e' → inst ∈ L → bears inst p →
  ∃ e1 e2, length e1 = length e0 ∧ present eo r e1 p ∧ renumber_payload io eo (ri_data inst) e1 = Done e2.
Proof.
  intros Heo Hl0 Hb0. unfold renumber_extra_inst_refs. revert e.
  induction L as [|x L IH]; intros e Hset; simpl; [by intros _ ?%elem_of_nil|].
  intros (e1 & H1 & H2)%bind_Done [->|Hin]%elem_of_cons Hp.
  - exists e, e1. split_and!; [apply Hset|apply (se_present _ _ _ _ _ Hset x); [by left|done]|done].
  - eapply IH; [|exact H2|done|done]. by eapply (settled_step io eo r Heo e0 Hl0 Hb0).
Qed.

(** Nothing of [merge] is bounded by fuel: it returns or panics. *)
Ltac total :=
  repeat match goal with
  | |- _ ≫= _ ≠ NoFuel => apply bind_total; [|intros ? _]
  | |- mapM _ _ ≠ NoFuel => apply mapM_total; intros ? _
  | |- foldM _ _ _ ≠ NoFuel => apply foldM_total; intros ? ? _
  | |- checked_add _ _ _ ≠ NoFuel => unfold checked_add; by case_decide
  | |- (if ?b then _ else _) ≠ NoFuel => destruct b
  | |- renumber _ _ ≠ NoFuel => unfold renumber
  | |- shift _ _ ≠ NoFuel => unfold shift
  | |- shift_directives _ _ _ ≠ NoFuel => unfold shift_directives
  | |- renumber_opt _ ?o ≠ NoFuel => destruct o; simpl
  | |- index ?l ?i ≠ NoFuel => unfold index; by destruct (l !! i)
  end; try done.
Lemma renumber_data_total io eo (data : InstData Spur) : renumber_data io eo data ≠ NoFuel.
Proof. destruct data; simpl; total. Qed.
Lemma bump_total io i e : bump io i e ≠ NoFuel.
Proof. unfold bump. total. Qed.
Lemma bump_arms_total io n pos e : bump_arms io n pos e ≠ NoFuel.
Proof. revert pos e. induction n; intros pos e; simpl; total; [unfold pattern_size; total|apply bump_total]. Qed.
Lemma renumber_payload_total io eo (data : InstData Spur) e : renumber_payload io eo data e ≠ NoFuel.
Proof.
  destruct data; simpl; try done; unfold bump_refs; total; (apply bump_total || apply bump_arms_total).
Qed.
Lemma merge_file_total io eo (m r : Rir) : merge_file io eo m r ≠ NoFuel.
Proof.
  unfold merge_file, renumber_extra_inst_refs, renumber_instruction, renumber_function_span, renumber_extern_fn.
  total; [apply renumber_data_total|apply renumber_payload_total].
Qed.
Lemma merge_total (rirs : list Rir) : merge rirs ≠ NoFuel.
Proof.
  unfold merge. destruct rirs as [|r1 [|r2 R]]; [done|done|]. apply bind_total; [|by intros [[? ?] ?]].
  apply foldM_total. intros [[m io] eo] r _. unfold merge_step. total. apply merge_file_total.
Qed.
Lemma file_arms_simple io (m r m' : Rir) inst scrutinee s n l :
  file_ok r → Z.of_nat (words m + words r) < 2 ^ 32 → merge_file io (Z.of_nat (words m)) m r = Done m' →
  inst ∈ r_instructions r → ri_data inst = RMatch scrutinee s n → rir_get_match_arms r s n = Done l →
  Forall (λ a, simple a.1) l.
Proof.
  intros Hok Hb Hm Hin Hd Hl. apply bind_Done in Hm as (L & _ & (e' & He & _)%bind_Done).
  assert (Hl0 : length (r_extra m ++ r_extra r) = (words m + words r)%nat) by apply length_app.
  eapply (fold_visits _ _ r (r_extra m ++ r_extra r)) in He as (e1 & e2 & Hl1 & Hp & Hr);
    [|lia|rewrite Hl0; lia|rewrite Hl0; done|apply copied_settled; [done|by apply file_copied]|exact Hin|by unfold bears; rewrite Hd].
  destruct (present_read (Z.of_nat (words m)) r ltac:(lia) (r_extra m ++ r_extra r) ltac:(unfold words in *; lia) ltac:(by rewrite Hl0)
    e1 (KArms, s, n) l Hl1 Hp Hl) as [Hg _]. rewrite Hd in Hr. simpl in Hr, Hg.
  apply bind_Done in Hr as (s' & (-> & _)%checked_add_Done & Hr).
  apply bind_Done in Hg as ([items t] & Ht & [= <-]). by eapply bump_arms_simple.
Qed.

(** [Rir::merge] of two or more files panics when a file has a match with an arm that is
    not a wildcard, an integer, a boolean or a path: on data-variant, struct-variant,
    identifier, tuple and struct patterns and on unrolled arms. *)
Theorem merge_rejects_arms (rirs : list Rir) (r : Rir) (inst : Inst Spur) (scrutinee s n : Z) l p body :
  (2 ≤ length rirs)%nat → Forall file_ok rirs → r ∈ rirs → inst ∈ r_instructions r →
  ri_data inst = RMatch scrutinee s n → rir_get_match_arms r s n = Done l → (p, body) ∈ l → ~ simple p →
  merge rirs = Panic.
Proof.
  intros Hlen HR Hr Hin Hd Hl Hp Hns. destruct (merge rirs) as [m| |] eqn:Hm; [exfalso|done|by apply merge_total in Hm].
  apply Hns. assert (Hall : Forall (λ a : RirPattern Spur * InstRef, simple a.1) l);
    [|apply list_elem_of_lookup in Hp as [i Hi]; exact (Forall_lookup_1 _ _ _ _ Hall Hi)].
  destruct rirs as [|r1 [|r2 R]]; [simpl in Hlen; lia..|]. unfold merge in Hm.
  apply bind_Done in Hm as ([[m' io] eo] & Hf & _). revert Hf. generalize dependent (r1 :: r2 :: R).
  intros rirs _ HR (R1 & R2 & ->)%list_elem_of_split. apply Forall_app in HR as [HR1 [Hr HR2]%Forall_cons_1].
  rewrite foldM_app. intros ([[m1 io1] eo1] & H1 & ([[m2 io2] eo2] & H2 & _)%bind_Done)%bind_Done.
  destruct (merge_fold_keeps _ _ _ _ _ _ _ HR1 (conj eq_refl eq_refl) H1 ltac:(done)) as (_ & Ho & _ & _ & _).
  destruct (merge_step_keeps _ _ _ _ _ _ _ Hr Ho H2) as (_ & _ & _ & Hw & Hb). destruct Ho as [-> ->].
  apply bind_Done in H2 as (m3 & Hm3 & _). eapply file_arms_simple; [exact Hr|by rewrite <-Hw|exact Hm3|done..].
Qed.
End Total.
