(* ===== verification/RirMergeExamples.v ===== *)
(** * Merging two files: a checker for the hypotheses, and concrete merges *)

From S2P Require Import Prelude Types AirPattern Air ParamArena Rir RirCodec RirStore RirMerge.
From S2P Require Import RirMergeThm RirRelocate RirMergeSpec RirMergeTotal.

#[local] Open Scope Z_scope.

(** ** Deciding that a file is closed *)
Section Check.
Context {Spur : Type} `{!SpurKey Spur}.
Notation Rir := (Rir Spur).
Notation Payload := (PayloadKind * Z * Z)%type.

Definition returns_items {A} (m : outcome A) (f : A → bool) : bool :=
  match m with Done l => f l | _ => false end.
Definition sizeb (e : list Z) (p : Payload) : nat := size_in (Spur := Spur) e p.
Definition read_check (r : Rir) (p : Payload) : bool :=
  (0 <=? p.1.2) && (0 <=? p.2) && returns_items (get_payload p.1.1 r p.1.2 p.2) (λ _, true) &&
  bool_decide (start_of p + sizeb (r_extra r) p ≤ length (r_extra r))%nat.
Definition apart_check (r : Rir) (p q : Payload) : bool :=
  bool_decide (start_of p + sizeb (r_extra r) p ≤ start_of q ∨ start_of q + sizeb (r_extra r) q ≤ start_of p)%nat.
Definition indexed {A} (l : list A) : list (nat * A) := zip (seq 0 (length l)) l.
Lemma indexed_elem {A} (l : list A) i x : l !! i = Some x → (i, x) ∈ indexed l.
Proof.
  intros Hx. apply list_elem_of_lookup. exists i. unfold indexed. rewrite lookup_zip_Some. split; [|done].
  apply lookup_seq. split; [done|by eapply lookup_lt_Some].
Qed.
Definition apart_all (r : Rir) : bool :=
  forallb (λ '(i, di),
    match bearing (ri_data di) with
    | Some p => forallb (λ '(j, dj),
        forallb (λ q, (bool_decide (i = j) && bool_decide (q = p)) || apart_check r p q) (payloads (ri_data dj)))
        (indexed (r_instructions r))
    | None => true
    end) (indexed (r_instructions r)).
Definition file_check (r : Rir) : bool :=
  bool_decide (Z.of_nat (length (r_extra r)) < 2 ^ 32) &&
  bool_decide (Z.of_nat (length (r_instructions r)) < 2 ^ 32) &&
  forallb (λ inst, forallb (read_check r) (payloads (ri_data inst))) (r_instructions r) && apart_all r.
Lemma forallb_elem {A} (f : A → bool) l x : forallb f l = true → x ∈ l → f x = true.
Proof. intros Hf Hx. rewrite forallb_forall in Hf. by apply Hf, list_elem_of_In. Qed.
Lemma file_check_sound r : file_check r = true → file_ok r.
Proof.
  unfold file_check. intros [[[Hx%bool_decide_eq_true Hi%bool_decide_eq_true]%andb_prop Hr]%andb_prop Ha]%andb_prop.
  split; [done|done| |].
  - intros inst k s n Hin Hp. pose proof (forallb_elem _ _ _ (forallb_elem _ _ _ Hr Hin) Hp) as Hc.
    apply andb_prop in Hc as [[[Hs%Z.leb_le Hn%Z.leb_le]%andb_prop Hg]%andb_prop Hb%bool_decide_eq_true].
    simpl in *. split_and!; [done|done| |done].
    destruct (get_payload k r s n) as [l| |] eqn:Hl; [by exists l|done|done].
  - intros i j di dj p q Hdi Hdj Hp Hq Hne.
    pose proof (forallb_elem _ _ _ Ha (indexed_elem _ _ _ Hdi)) as H1. simpl in H1. rewrite Hp in H1.
    pose proof (forallb_elem _ _ _ (forallb_elem _ _ _ H1 (indexed_elem _ _ _ Hdj)) Hq) as H2.
    apply orb_prop in H2 as [[H3%bool_decide_eq_true H4%bool_decide_eq_true]%andb_prop|H2%bool_decide_eq_true];
      [naive_solver|done].
Qed.

Definition belowb (n : nat) (x : Z) : bool := (0 <=? x) && (x <? Z.of_nat n).
Definition simpleb (p : RirPattern Spur) : bool :=
  match p with RWildcard _ | RInt _ _ | RBool _ _ | RPath _ _ _ _ => true | _ => false end.
Definition item_check (b : Z → bool) (k : PayloadKind) : Item (Spur := Spur) k → bool :=
  match k with
  | KRefs => b
  | KCallArgs => λ a, b (ra_value a)
  | KFieldInits => λ f, b f.2
  | KArms => λ a, simpleb a.1 && b a.2
  | _ => λ _, true
  end.
Definition closed_check (r : Rir) : bool :=
  file_check r &&
  forallb (λ inst, forallb (belowb (insts r)) (operands (ri_data inst)) &&
    match bearing (ri_data inst) with
    | Some (k, s, n) => returns_items (get_payload k r s n) (forallb (item_check (belowb (insts r)) k))
    | None => true
    end) (r_instructions r) &&
  forallb (λ f, belowb (insts r) (fs_body_start f) && belowb (insts r) (fs_decl f)) (r_function_spans r) &&
  forallb (λ f, bool_decide (0 ≤ xf_directives_start f ≤ Z.of_nat (words r)) &&
                bool_decide (0 ≤ xf_params_start f ≤ Z.of_nat (words r))) (r_extern_fns r).
Lemma belowb_sound n x : belowb n x = true → below n x.
Proof. unfold belowb, below. lia. Qed.
Lemma item_check_sound n k x : item_check (belowb n) k x = true → item_moves (below n) k x.
Proof.
  destruct k; simpl; try done; try apply belowb_sound.
  intros [Hs Hb%belowb_sound]%andb_prop. split; [|done]. by destruct x.1.
Qed.
Lemma closed_check_sound r : closed_check r = true → closed r.
Proof.
  intros [[[Hok%file_check_sound Hi]%andb_prop Hf]%andb_prop Hx]%andb_prop. split; [done| | | |].
  - intros inst x Hin Hop. pose proof (forallb_elem _ _ _ Hi Hin) as [H1 _]%andb_prop.
    by apply belowb_sound, (forallb_elem _ _ _ H1).
  - intros inst k s n l Hin Hb Hl. pose proof (forallb_elem _ _ _ Hi Hin) as [_ H2]%andb_prop.
    rewrite Hb, Hl in H2. simpl in H2. apply list.Forall_forall. intros x Hx'.
    by apply item_check_sound, (forallb_elem _ _ _ H2).
  - intros f Hin. pose proof (forallb_elem _ _ _ Hf Hin) as [H1 H2]%andb_prop. split; by apply belowb_sound.
  - intros f Hin. pose proof (forallb_elem _ _ _ Hx Hin) as [H1 H2]%andb_prop.
    by apply bool_decide_eq_true in H1, H2.
Qed.
End Check.

(** ** Two files *)
Module MergeSample.
Import Names.
Definition sp : Span := MkSpan 0 1 2.
Definition with_payload {A} (m : outcome (Z * Z * A)) (f : Z → Z → A → A) (d : A) : A :=
  match m with Done (s, n, r) => f s n r | _ => d end.
Definition push (data : InstData Name) (r : Rir Name) : Rir Name :=
  match rir_add_inst (MkRirInst data sp) r with Done (_, r) => r | _ => r end.
(** Stores a payload and the instruction that names it. *)
Definition push_with (k : PayloadKind) (items : list (Item k)) (f : Z → Z → InstData Name) (r : Rir Name) : Rir Name :=
  with_payload (add_payload k items r) (λ s n r, push (f s n) r) r.

(** [{ match x(7) { 7 => 7, _ => x(7) } }] *)
Definition body : Rir Name :=
  push_with KRefs [2] RBlock $
  push_with KArms [(RInt 7 sp, 0); (RWildcard sp, 1)] (RMatch 1) $
  push_with KCallArgs [MkRirArg 0 RirNormal] (RCall x) $ push (RIntConst 7) new_rir.
Definition merged : Rir Name := match merge [body; body] with Done m => m | _ => new_rir end.
Lemma body_closed : closed body.
Proof. apply closed_check_sound. by vm_compute. Qed.
Lemma body_ok : file_ok body.
Proof. apply body_closed. Qed.

(** What the second file's match says in the merged RIR. *)
Example second_match :
  r_instructions merged !! 6%nat = Some (MkRirInst (RMatch 5 15 2) sp) ∧
  rir_get_match_arms merged 15 2 = Done [(RInt 7 sp, 4); (RWildcard sp, 5)].
Proof. by vm_compute. Qed.

(** *** What is not merged *)

(** The fields of a struct-variant literal are read from the words of the first file. *)
Definition variant_file : Rir Name :=
  push_with KFieldInits [(y, 0)] (REnumStructVariant None x y) (push (RIntConst 1) new_rir).
Example struct_variant_fields_lost :
  (m ← merge [body; variant_file]; inst ← rir_get m 5; mret (payloads (ri_data inst))) =
    Done [(KFieldInits, 0, 1)] ∧
  (m ← merge [body; variant_file]; get_payload KFieldInits m 0 1) ≠ Done [(y, 4)].
Proof. by vm_compute. Qed.
(** The methods of an enum keep the numbers they had in their own file. *)
Definition enum_file : Rir Name :=
  push_with KRefs [0] (λ s n, REnumDecl false Affine x 0 0 s n 0 0) (push (RIntConst 1) new_rir).
Example enum_methods_not_moved :
  (m ← merge [body; enum_file]; inst ← rir_get m 5; mret (payloads (ri_data inst) !! 1%nat)) =
    Done (Some (KRefs, 13, 1)) ∧
  (m ← merge [body; enum_file]; get_payload KRefs m 13 1) = Done [0].
Proof. by vm_compute. Qed.
(** The module a path pattern refers to keeps its number. *)
Definition module_file : Rir Name :=
  push_with KArms [(RPath (Some 0) x y sp, 1)] (RMatch 1) (push (RIntConst 2) (push (RIntConst 1) new_rir)).
Example pattern_module_not_moved :
  (m ← merge [body; module_file]; get_payload KArms m 13 1) = Done [(RPath (Some 0) x y sp, 5)].
Proof. by vm_compute. Qed.
(** An identifier arm. *)
Definition ident_file : Rir Name :=
  push_with KArms [(RIdent x false sp, 0)] (RMatch 0) (push (RIntConst 1) new_rir).
Lemma ident_ok : file_ok ident_file.
Proof. apply file_check_sound. by vm_compute. Qed.
End MergeSample.

Import Names.
Lemma merge_rejects_arms_witness : merge [MergeSample.body; MergeSample.ident_file] = Panic.
Proof.
  refine (merge_rejects_arms [MergeSample.body; MergeSample.ident_file] MergeSample.ident_file
    (MkRirInst (RMatch 0 0 1) MergeSample.sp) 0 0 1 [(RIdent x false MergeSample.sp, 0)]
    (RIdent x false MergeSample.sp) 0 _ _ _ _ _ _ _ _).
  - simpl. lia.
  - exact (Forall_cons_2 _ _ _ MergeSample.body_ok (Forall_cons_2 _ _ _ MergeSample.ident_ok (Forall_nil_2 _))).
  - apply list_elem_of_further, list_elem_of_here.
  - apply list_elem_of_further, list_elem_of_here.
  - reflexivity.
  - vm_compute. reflexivity.
  - apply list_elem_of_here.
  - intros [].
Defined.
