(* ===== verification/Positions.v ===== *)
(** Source positions: [gruel-util/src/span.rs] and [gruel-lsp/src/position.rs].

    A [&str] is the list of its Unicode scalar values (the theorems need no
    hypothesis on their range); [bytes] is its UTF-8
    encoding and byte-indexed slicing panics off a character boundary, as in
    Rust.  The file models spans, the two scanning conversions
    [byte_offset_to_line] and [byte_offset_to_line_col], the precomputed
    [LineIndex] (with the binary search [partition_point] of the standard
    library), and the language server's [LineMap] with the conversions between
    byte offsets and editor positions in both encodings. *)
From S2P Require Import Prelude Air.
Local Open Scope Z_scope.

(** ** Strings as scalar values *)

Definition str : Type := list Z.
Definition NL : Z := 10.

(** [char::len_utf8], [char::len_utf16] and the UTF-8 encoding of a char. *)
Definition len_utf8 (c : Z) : Z :=
  if c <? 0x80 then 1 else if c <? 0x800 then 2 else if c <? 0x10000 then 3 else 4.
Definition len_utf16 (c : Z) : Z := if c <? 0x10000 then 1 else 2.
Definition cont_byte (c sh : Z) : Z := Z.lor 0x80 (Z.land (Z.shiftr c sh) 0x3F).
Definition utf8 (c : Z) : list Z :=
  if c <? 0x80 then [c]
  else if c <? 0x800 then [Z.lor 0xC0 (Z.shiftr c 6); cont_byte c 0]
  else if c <? 0x10000 then [Z.lor 0xE0 (Z.shiftr c 12); cont_byte c 6; cont_byte c 0]
  else [Z.lor 0xF0 (Z.shiftr c 18); cont_byte c 12; cont_byte c 6; cont_byte c 0].

Definition bytes (s : str) : list Z := s ≫= utf8.
(** [str::len]. *)
Definition str_len (s : str) : Z := Z.of_nat (length (bytes s)).
(** [s.encode_utf16().count()]. *)
Definition utf16_count (s : str) : Z := foldr (λ c n, len_utf16 c + n) 0 s.

(** [&s[..n]] and [&s[n..]]: panics when [n] is past the end or inside a char. *)
Fixpoint str_take (s : str) (n : Z) : outcome str :=
  if n =? 0 then Done []
  else match s with
       | [] => Panic
       | c :: s' => if n <? len_utf8 c then Panic
                    else r ← str_take s' (n - len_utf8 c); Done (c :: r)
       end.
Fixpoint str_drop (s : str) (n : Z) : outcome str :=
  if n =? 0 then Done s
  else match s with
       | [] => Panic
       | c :: s' => if n <? len_utf8 c then Panic else str_drop s' (n - len_utf8 c)
       end.
(** [&s[a..b]]. *)
Definition str_slice (s : str) (a b : Z) : outcome str :=
  if b <? a then Panic else t ← str_take s b; str_drop t a.

(** [slice::partition_point] of the standard library: the binary search keeps
    [base] at an index whose element satisfies the predicate (or at 0) and
    halves [size].  The fuel is the length of the slice. *)
Fixpoint partition_loop (fuel : nat) (p : Z → bool) (l : list Z) (base size : nat) : nat :=
  match fuel with
  | O => base
  | S fuel' =>
      if (size <=? 1)%nat then base
      else let half := (size / 2)%nat in
           let mid := (base + half)%nat in
           let base' := if default false (p <$> l !! mid) then mid else base in
           partition_loop fuel' p l base' (size - half)%nat
  end.
Definition partition_point (p : Z → bool) (l : list Z) : nat :=
  match l with
  | [] => 0%nat
  | _ => let base := partition_loop (length l) p l 0 (length l) in
         if default false (p <$> l !! base) then S base else base
  end.

(** ** Spans *)

Definition DEFAULT : Z := 0.
Definition PRELUDE : Z := 0xFFFFFFFE.
Definition BUILTIN : Z := 0xFFFFFFFD.

Module SpanOps.
Definition new (start en : Z) : Span := MkSpan DEFAULT start en.
Definition with_file (f start en : Z) : Span := MkSpan f start en.
Definition point (pos : Z) : Span := MkSpan DEFAULT pos pos.
Definition point_in_file (f pos : Z) : Span := MkSpan f pos pos.
Definition cover (a b : Span) : Span :=
  MkSpan (sp_file_id a)
    (if sp_start a <? sp_start b then sp_start a else sp_start b)
    (if sp_end a >? sp_end b then sp_end a else sp_end b).
Definition extend_to (s : Span) (en : Z) : Span := MkSpan (sp_file_id s) (sp_start s) en.
Definition len (s : Span) : outcome Z := checked_sub 32 (sp_end s) (sp_start s).
Definition is_empty (s : Span) : bool := sp_start s =? sp_end s.
Definition contains (s other : Span) : bool :=
  (sp_start s <=? sp_start other) && (sp_end other <=? sp_end s).
Definition contains_pos (s : Span) (pos : Z) : bool :=
  (sp_start s <=? pos) && (pos <? sp_end s).
End SpanOps.

(** ** Scanning conversions of span.rs *)

Definition count_nl (bs : list Z) : nat := length (filter (.= NL) bs).

Definition byte_offset_to_line (source : str) (offset : Z) : outcome nat :=
  prefix ← str_take source (Z.min offset (str_len source));
  Done (count_nl (bytes prefix) + 1)%nat.

(** [prefix.rfind('\n')] as a byte offset. *)
Fixpoint rfind_nl_from (i : Z) (bs : list Z) : option Z :=
  match bs with
  | [] => None
  | b :: bs' => match rfind_nl_from (i + 1) bs' with
                | Some j => Some j
                | None => if b =? NL then Some i else None
                end
  end.

Definition byte_offset_to_line_col (source : str) (offset : Z) : outcome (nat * Z) :=
  let offset := Z.min offset (str_len source) in
  prefix ← str_take source offset;
  match rfind_nl_from 0 (bytes prefix) with
  | Some newline_pos => Done ((count_nl (bytes prefix) + 1)%nat, offset - newline_pos)
  | None => Done (1%nat, offset + 1)
  end.

(** [Span::line_number] and [Span::line_col], whose debug assertion panics. *)
Definition span_line_number (s : Span) (source : str) : outcome nat :=
  if sp_start s <=? str_len source then byte_offset_to_line source (sp_start s) else Panic.
Definition span_line_col (s : Span) (source : str) : outcome (nat * Z) :=
  if sp_start s <=? str_len source then byte_offset_to_line_col source (sp_start s) else Panic.

(** ** The precomputed index of span.rs *)

Module LineIndex.
Record t : Type := Mk { line_starts : list Z; source_len : Z }.

(** The loop of [LineIndex::new]: [i] is the index of the next byte. *)
Fixpoint scan (i : Z) (bs : list Z) : list Z :=
  match bs with
  | [] => []
  | b :: bs' => if b =? NL then wrap 32 (i + 1) :: scan (i + 1) bs' else scan (i + 1) bs'
  end.
Definition new (source : str) : t :=
  Mk (0 :: scan 0 (bytes source)) (wrap 32 (str_len source)).

Definition line_number (ix : t) (offset : Z) : outcome nat :=
  if offset <=? source_len ix then
    Done (partition_point (λ start, start <=? Z.min offset (source_len ix)) (line_starts ix))
  else Panic.
Definition span_line_number (ix : t) (s : Span) : outcome nat := line_number ix (sp_start s).
Definition line_col (ix : t) (offset : Z) : outcome (nat * Z) :=
  if offset <=? source_len ix then
    let offset := Z.min offset (source_len ix) in
    let line_idx := partition_point (λ start, start <=? offset) (line_starts ix) in
    line_start ← expect (match line_idx with O => None | S i => line_starts ix !! i end);
    d ← checked_sub 32 offset line_start;
    Done (line_idx, d + 1)
  else Panic.
Definition span_line_col (ix : t) (s : Span) : outcome (nat * Z) := line_col ix (sp_start s).
Definition line_count (ix : t) : nat := length (line_starts ix).
End LineIndex.

(** ** Positions of the language server *)

Inductive PositionEncoding : Type := Utf8 | Utf16.
Record Position : Type := MkPos { line : Z; character : Z }.
Record Range : Type := MkRange { r_start : Position; r_end : Position }.

Module LineMap.
Record t : Type := Mk { line_starts : list Z; source_len : Z }.
Fixpoint scan (i : Z) (bs : list Z) : list Z :=
  match bs with
  | [] => []
  | b :: bs' => if b =? NL then wrap 32 (i + 1) :: scan (i + 1) bs' else scan (i + 1) bs'
  end.
Definition new (source : str) : t :=
  Mk (0 :: scan 0 (bytes source)) (wrap 32 (str_len source)).
Definition line_count (m : t) : Z := len_u32 (line_starts m).
Definition line_for_byte (m : t) (byte : Z) : Z :=
  let byte := Z.min byte (source_len m) in
  wrap 32 (Z.max 0 (Z.of_nat (partition_point (λ s, s <=? byte) (line_starts m)) - 1)).
Definition line_start (m : t) (line : Z) : outcome Z :=
  if Z.of_nat (length (line_starts m)) <=? line then Done (source_len m)
  else expect (line_starts m !! Z.to_nat line).
Definition line_end (m : t) (source : str) (line : Z) : outcome Z :=
  let next := Z.min (line + 1) (2 ^ 32 - 1) in
  if Z.of_nat (length (line_starts m)) <=? next then Done (source_len m)
  else next_start ← expect (line_starts m !! Z.to_nat next);
       Done (if (next_start >? 0) &&
                bool_decide (bytes source !! Z.to_nat (next_start - 1) = Some NL)
             then next_start - 1 else next_start).
End LineMap.

Definition byte_to_position (line_map : LineMap.t) (source : str) (byte : Z)
    (encoding : PositionEncoding) : outcome Position :=
  let byte := Z.min byte (wrap 32 (str_len source)) in
  let line := LineMap.line_for_byte line_map byte in
  line_start ← LineMap.line_start line_map line;
  prefix ← str_slice source line_start byte;
  Done (MkPos line (wrap 32 (match encoding with
                             | Utf8 => str_len prefix
                             | Utf16 => utf16_count prefix
                             end))).

(** The [chars()] loop of [position_to_byte]; [utf16] is a [u32] counter. *)
Fixpoint utf16_walk (cs : str) (target utf16 byte_off : Z) : outcome Z :=
  match cs with
  | [] => Done byte_off
  | c :: cs' =>
      if target <=? utf16 then Done byte_off
      else n ← checked_add 32 utf16 (len_utf16 c);
           utf16_walk cs' target n (byte_off + len_utf8 c)
  end.

Definition position_to_byte (line_map : LineMap.t) (source : str) (pos : Position)
    (encoding : PositionEncoding) : outcome Z :=
  line_start ← LineMap.line_start line_map (line pos);
  line_end ← LineMap.line_end line_map source (line pos);
  line_text ← str_slice source line_start line_end;
  column_bytes ← match encoding with
                 | Utf8 => Done (Z.min (character pos) (str_len line_text))
                 | Utf16 => byte_off ← utf16_walk line_text (character pos) 0 0;
                            Done (Z.min byte_off (str_len line_text))
                 end;
  Done (wrap 32 (line_start + column_bytes)).

Definition span_to_range (line_map : LineMap.t) (source : str) (span : Span)
    (encoding : PositionEncoding) : outcome Range :=
  s ← byte_to_position line_map source (sp_start span) encoding;
  e ← byte_to_position line_map source (sp_end span) encoding;
  Done (MkRange s e).

(** ** Slicing at a character boundary *)

Lemma length_utf8 c : Z.of_nat (length (utf8 c)) = len_utf8 c.
Proof. unfold utf8, len_utf8. repeat case_match; reflexivity. Qed.

Lemma len_utf8_pos c : 1 ≤ len_utf8 c.
Proof. unfold len_utf8. repeat case_match; lia. Qed.

Lemma str_len_nil : str_len [] = 0.
Proof. reflexivity. Qed.

Lemma str_len_cons c s : str_len (c :: s) = len_utf8 c + str_len s.
Proof. unfold str_len, bytes. cbn. rewrite length_app, Nat2Z.inj_add, length_utf8. done. Qed.

Lemma bytes_app s1 s2 : bytes (s1 ++ s2) = bytes s1 ++ bytes s2.
Proof. unfold bytes. apply bind_app. Qed.

Lemma str_len_app s1 s2 : str_len (s1 ++ s2) = str_len s1 + str_len s2.
Proof. unfold str_len. rewrite bytes_app, length_app. lia. Qed.

Lemma str_len_nonneg s : 0 ≤ str_len s.
Proof. unfold str_len. lia. Qed.

Lemma str_take_app s1 s2 : str_take (s1 ++ s2) (str_len s1) = Done s1.
Proof.
  induction s1 as [|c s1 IH]; [by destruct s2|].
  pose proof (len_utf8_pos c). pose proof (str_len_nonneg s1).
  rewrite str_len_cons. cbn [str_take app].
  rewrite (proj2 (Z.eqb_neq _ _)), (proj2 (Z.ltb_ge _ _)) by lia.
  replace (_ - _) with (str_len s1) by lia. by rewrite IH.
Qed.

Lemma str_drop_app s1 s2 : str_drop (s1 ++ s2) (str_len s1) = Done s2.
Proof.
  induction s1 as [|c s1 IH]; [by destruct s2|].
  pose proof (len_utf8_pos c). pose proof (str_len_nonneg s1).
  rewrite str_len_cons. cbn [str_drop app].
  rewrite (proj2 (Z.eqb_neq _ _)), (proj2 (Z.ltb_ge _ _)) by lia.
  replace (_ - _) with (str_len s1) by lia. done.
Qed.

Lemma str_take_inv s n p : str_take s n = Done p → ∃ q, s = p ++ q ∧ n = str_len p.
Proof.
  revert n p. induction s as [|c s IH]; intros n p; cbn [str_take].
  - case_match; intros; simplify_eq. exists []. split; [done|]. rewrite str_len_nil. lia.
  - destruct (Z.eqb_spec n 0) as [->|Hn]; [intros; simplify_eq; by exists (c :: s)|].
    destruct (n <? len_utf8 c); [done|]. intros (r & Hr & ?)%bind_Done. simplify_eq.
    destruct (IH _ _ Hr) as (q & -> & ?). exists q. rewrite str_len_cons. split; [done|lia].
Qed.

Lemma str_slice_app s1 s2 s3 :
  str_slice (s1 ++ s2 ++ s3) (str_len s1) (str_len (s1 ++ s2)) = Done s2.
Proof.
  unfold str_slice. pose proof (str_len_nonneg s2).
  rewrite (proj2 (Z.ltb_ge _ _)) by (rewrite str_len_app; lia).
  rewrite app_assoc, str_take_app. cbn. apply str_drop_app.
Qed.

(** ** Binary search *)

Section Partition.
Context (p : Z → bool) (l1 l2 : list Z).
Context (Hl1 : Forall (λ x, p x = true) l1) (Hl2 : Forall (λ x, p x = false) l2).

Lemma partition_test (i : nat) :
  default false (p <$> (l1 ++ l2) !! i) = bool_decide (i < length l1)%nat.
Proof using Hl1 Hl2.
  case_bool_decide as Hi.
  - destruct (lookup_lt_is_Some_2 l1 i Hi) as [x Hx]. rewrite lookup_app_l, Hx by done.
    cbn. by eapply (Forall_lookup_1 (λ x, p x = true)).
  - rewrite lookup_app_r by lia. destruct (l2 !! _) as [x|] eqn:Hx; [|done].
    cbn. by eapply (Forall_lookup_1 (λ x, p x = false)).
Qed.

(** The loop keeps the boundary within [base .. base + size]. *)
Lemma partition_loop_ok fuel base size :
  (size ≤ fuel)%nat → (1 ≤ size)%nat →
  (base = 0 ∨ base < length l1)%nat → (length l1 ≤ base + size)%nat →
  let b := partition_loop fuel p (l1 ++ l2) base size in
  ((b = 0 ∨ b < length l1) ∧ length l1 ≤ b + 1)%nat.
Proof using Hl1 Hl2.
  revert base size. induction fuel as [|fuel IH]; intros base size ????; [lia|].
  cbn [partition_loop]. destruct (Nat.leb_spec size 1); [cbn; lia|].
  rewrite partition_test.
  pose proof (Nat.div_mod_eq size 2). pose proof (Nat.mod_upper_bound size 2).
  case_bool_decide; apply IH; lia.
Qed.

Lemma partition_point_spec : partition_point p (l1 ++ l2) = length l1.
Proof using Hl1 Hl2.
  unfold partition_point. destruct (l1 ++ l2) as [|x l] eqn:Hl.
  { by apply app_eq_nil in Hl as [-> ->]. }
  rewrite <-Hl. assert (1 ≤ length (l1 ++ l2))%nat by (rewrite Hl; cbn; lia).
  destruct (partition_loop_ok (length (l1 ++ l2)) 0 (length (l1 ++ l2))) as [Hb ?];
    [lia|lia|lia|rewrite length_app; lia|].
  rewrite partition_test. case_bool_decide; lia.
Qed.
End Partition.

(** ** Line starts *)

Lemma count_nl_app b1 b2 : count_nl (b1 ++ b2) = (count_nl b1 + count_nl b2)%nat.
Proof. unfold count_nl. by rewrite list.filter_app, length_app. Qed.

Lemma count_nl_le bs : (count_nl bs ≤ length bs)%nat.
Proof. unfold count_nl. apply length_filter. Qed.

Lemma scan_app i b1 b2 :
  LineIndex.scan i (b1 ++ b2) = LineIndex.scan i b1 ++ LineIndex.scan (i + Z.of_nat (length b1)) b2.
Proof.
  revert i. induction b1 as [|b b1 IH]; intros i; cbn [LineIndex.scan app length].
  { by rewrite Z.add_0_r. }
  rewrite IH. replace (i + 1 + _) with (i + Z.of_nat (S (length b1))) by lia. by case_match.
Qed.

Lemma length_scan i bs : length (LineIndex.scan i bs) = count_nl bs.
Proof.
  revert i. induction bs as [|b bs IH]; intros i; [done|]. cbn [LineIndex.scan].
  unfold count_nl in *. rewrite filter_cons. case_decide; case_match; cbn; rewrite ?IH; lia.
Qed.

Lemma scan_bounds i bs :
  0 ≤ i → i + Z.of_nat (length bs) < 2 ^ 32 →
  Forall (λ x, i < x ≤ i + Z.of_nat (length bs)) (LineIndex.scan i bs).
Proof.
  revert i. induction bs as [|b bs IH]; intros i; cbn [LineIndex.scan length]; [constructor|].
  intros ??. assert (Forall (λ x, i < x ≤ i + Z.of_nat (S (length bs))) (LineIndex.scan (i + 1) bs)).
  { eapply list.Forall_impl; [apply (IH (i + 1)); lia|]. cbn. lia. }
  case_match; [constructor; [|done]|done].
  rewrite wrap_small by (unfold in_u; lia). lia.
Qed.

(** The number of line starts at or before an offset counts the newlines before it. *)
Lemma partition_starts b1 b2 :
  Z.of_nat (length (b1 ++ b2)) < 2 ^ 32 →
  partition_point (λ x, x <=? Z.of_nat (length b1)) (0 :: LineIndex.scan 0 (b1 ++ b2))
    = S (count_nl b1).
Proof.
  intros Hlen. rewrite length_app in Hlen. rewrite scan_app, app_comm_cons.
  rewrite partition_point_spec; [cbn; by rewrite length_scan|..].
  - constructor; [lia|]. eapply list.Forall_impl; [apply scan_bounds; lia|]. cbn. lia.
  - eapply list.Forall_impl; [apply scan_bounds; lia|]. cbn. lia.
Qed.

Lemma rfind_nl_app i b1 b2 :
  rfind_nl_from i (b1 ++ b2) =
    match rfind_nl_from (i + Z.of_nat (length b1)) b2 with
    | Some j => Some j
    | None => rfind_nl_from i b1
    end.
Proof.
  revert i. induction b1 as [|b b1 IH]; intros i; cbn [rfind_nl_from app length].
  { rewrite Z.add_0_r. by destruct (rfind_nl_from i b2). }
  rewrite IH. replace (i + 1 + _) with (i + Z.of_nat (S (length b1))) by lia.
  by destruct (rfind_nl_from _ b2).
Qed.

(** The last line start before an offset is just after the newline [rfind] finds. *)
Lemma last_start b1 :
  Z.of_nat (length b1) < 2 ^ 32 →
  (0 :: LineIndex.scan 0 b1) !! count_nl b1 =
    Some (match rfind_nl_from 0 b1 with Some j => j + 1 | None => 0 end) ∧
  (∀ j, rfind_nl_from 0 b1 = Some j → 0 ≤ j < Z.of_nat (length b1)) ∧
  (rfind_nl_from 0 b1 = None → count_nl b1 = 0%nat).
Proof.
  induction b1 as [|b b1 IH] using rev_ind; [done|].
  rewrite length_app, Nat2Z.inj_add. cbn [length]. intros Hlen.
  destruct IH as (IH & Hj & Hn); [lia|].
  rewrite rfind_nl_app, scan_app, count_nl_app. cbn [rfind_nl_from LineIndex.scan].
  unfold count_nl at 2 4. rewrite filter_cons, filter_nil.
  destruct (Z.eqb_spec b NL) as [->|Hb].
  - rewrite decide_True by done. cbn [length]. split_and!; [|intros; simplify_eq; lia|done].
    rewrite app_comm_cons, lookup_app_r by (cbn; rewrite length_scan; lia).
    cbn [length]. rewrite length_scan, Nat.add_1_r, Nat.sub_diag. cbn.
    rewrite wrap_small by (unfold in_u; lia). done.
  - rewrite decide_False by done. cbn [length]. rewrite app_nil_r, Nat.add_0_r.
    split_and!; [done| |done]. intros j ?%Hj. lia.
Qed.

(** ** The index agrees with the scan *)

(** C34: wherever the scanning conversions accept an offset (it lies within the
    source, on a character boundary), [LineIndex] built once from the same
    source gives the same line and the same line and column, for every source
    shorter than 2^32 bytes. *)
Theorem line_index_agrees_with_scan (source prefix : str) (offset : Z) :
  str_len source < 2 ^ 32 → str_take source offset = Done prefix →
  ∃ l c, byte_offset_to_line source offset = Done l ∧
    byte_offset_to_line_col source offset = Done (l, c) ∧
    LineIndex.line_number (LineIndex.new source) offset = Done l ∧
    LineIndex.line_col (LineIndex.new source) offset = Done (l, c).
Proof.
  intros Hlen Htake. destruct (str_take_inv _ _ _ Htake) as (q & -> & ->).
  pose proof (str_len_nonneg q). pose proof (str_len_nonneg prefix). rewrite str_len_app in Hlen.
  unfold byte_offset_to_line, byte_offset_to_line_col, LineIndex.line_number, LineIndex.line_col,
    LineIndex.new. cbn [LineIndex.source_len LineIndex.line_starts].
  rewrite str_len_app, wrap_small by (unfold in_u; lia).
  rewrite Z.min_l, (proj2 (Z.leb_le _ _)), str_take_app by lia. cbn [mbind outcome_bind].
  rewrite bytes_app. unfold str_len. rewrite partition_starts
    by (rewrite length_app; unfold str_len in *; lia).
  destruct (last_start (bytes prefix)) as (Hl & Hj & Hn); [unfold str_len in *; lia|].
  rewrite scan_app, app_comm_cons, lookup_app_l, Hl by (cbn; rewrite length_scan; lia).
  cbn [expect mbind outcome_bind]. unfold str_len in *.
  destruct (rfind_nl_from 0 (bytes prefix)) as [j|].
  - specialize (Hj j eq_refl). unfold checked_sub. case_decide; [|unfold in_u in *; lia].
    eexists _, _. rewrite Nat.add_1_r. split_and!; [done..|]. cbn. repeat f_equal. lia.
  - unfold checked_sub. case_decide; [|unfold in_u in *; lia].
    rewrite Hn by done. eexists _, _. split_and!; [done..|]. cbn. repeat f_equal. lia.
Qed.

Lemma line_index_agrees_with_scan_witness :
  ∃ l c, byte_offset_to_line [97; 10; 233; 98] 4 = Done l ∧
    byte_offset_to_line_col [97; 10; 233; 98] 4 = Done (l, c) ∧
    LineIndex.line_number (LineIndex.new [97; 10; 233; 98]) 4 = Done l ∧
    LineIndex.line_col (LineIndex.new [97; 10; 233; 98]) 4 = Done (l, c).
Proof. apply (line_index_agrees_with_scan _ [97; 10; 233]); vm_compute; reflexivity. Defined.

(** ** Lines of a string *)

Lemma nl_byte c : NL ∈ utf8 c → c = NL.
Proof.
  assert (∀ x, NL ≠ Z.lor 0x80 x) as Hb.
  { intros x Hx%(f_equal (λ z, Z.testbit z 7)). rewrite Z.lor_spec in Hx. done. }
  assert (∀ h x, Z.testbit h 7 = true → NL ≠ Z.lor h x) as Hh.
  { intros h x Ht Hx%(f_equal (λ z, Z.testbit z 7)). rewrite Z.lor_spec, Ht in Hx. done. }
  unfold utf8, cont_byte.
  repeat case_match; rewrite ?elem_of_cons, ?elem_of_nil; [lia|..];
    intros Hin; exfalso; destruct_or!; first [done|by eapply Hh in Hin].
Qed.

Definition no_nl (s : str) : Prop := NL ∉ s.

Lemma count_nl_no_nl s : no_nl s → count_nl (bytes s) = 0%nat.
Proof.
  intros Hs. unfold count_nl. rewrite length_zero_iff_nil. apply elem_of_nil_inv.
  intros x [-> Hx]%list_elem_of_filter. unfold bytes in Hx.
  apply list_elem_of_bind in Hx as (c & Hc%nl_byte & ?). by subst.
Qed.

Lemma scan_no_nl i s : no_nl s → LineIndex.scan i (bytes s) = [].
Proof. intros Hs. apply length_zero_iff_nil. by rewrite length_scan, count_nl_no_nl. Qed.

(** The text before an offset ends in a partial line, the text after it starts
    with the rest of that line. *)
Lemma split_last_line s : ∃ l p, s = l ++ p ∧ no_nl p ∧ (l = [] ∨ ∃ l', l = l' ++ [NL]).
Proof.
  induction s as [|c s (l & p & -> & Hp & Hl)] using rev_ind.
  { exists [], []. split_and!; [done|apply not_elem_of_nil|by left]. }
  destruct (decide (c = NL)) as [->|Hc].
  - exists (l ++ p ++ [NL]), []. rewrite app_nil_r, app_assoc.
    split_and!; [done|apply not_elem_of_nil|right; eauto].
  - exists l, (p ++ [c]). rewrite app_assoc. split_and!; [done| |done].
    unfold no_nl. rewrite elem_of_app, list_elem_of_singleton. naive_solver.
Qed.

Lemma split_first_line s : no_nl s ∨ ∃ q r, s = q ++ NL :: r ∧ no_nl q.
Proof.
  induction s as [|c s IH]; [left; apply not_elem_of_nil|].
  destruct (decide (c = NL)) as [->|Hc]; [right; exists [], s; by split; [|apply not_elem_of_nil]|].
  assert (∀ t, no_nl t → no_nl (c :: t)).
  { intros t Ht. unfold no_nl. rewrite elem_of_cons. naive_solver. }
  destruct IH as [?|(q & r & -> & ?)]; [by left; auto|right]. exists (c :: q), r. by auto.
Qed.

(** ** One line of a source *)

Definition at_line_start (l : str) : Prop := l = [] ∨ ∃ l', l = l' ++ [NL].
Definition at_line_end (r : str) : Prop := r = [] ∨ ∃ r', r = NL :: r'.
Definition line_no (l : str) : Z := Z.of_nat (count_nl (bytes l)).

Lemma bytes_nl : bytes [NL] = [NL].
Proof. reflexivity. Qed.

Lemma count_nl_line l t :
  no_nl t → count_nl (bytes (l ++ t ++ [NL])) = S (count_nl (bytes l)).
Proof.
  intros. rewrite !bytes_app, !count_nl_app, (count_nl_no_nl t) by done.
  change (count_nl (bytes [NL])) with 1%nat. lia.
Qed.

Lemma line_no_le s : line_no s ≤ str_len s.
Proof. unfold line_no, str_len. pose proof (count_nl_le (bytes s)). lia. Qed.

Lemma start_of_line l rest :
  at_line_start l → str_len (l ++ rest) < 2 ^ 32 →
  (0 :: LineIndex.scan 0 (bytes (l ++ rest))) !! count_nl (bytes l) = Some (str_len l).
Proof.
  intros Hl Hlen. rewrite str_len_app in Hlen. pose proof (str_len_nonneg rest).
  destruct (last_start (bytes l)) as (Hlk & _); [fold (str_len l); lia|].
  rewrite bytes_app, scan_app, app_comm_cons, lookup_app_l, Hlk by (cbn; rewrite length_scan; lia).
  destruct Hl as [->|[l' ->]]; [done|].
  rewrite bytes_app, rfind_nl_app, bytes_nl, str_len_app. cbn [rfind_nl_from].
  rewrite Z.eqb_refl. done.
Qed.

(** The lines below the line count are exactly the pieces between newlines. *)
Lemma line_pieces s (k : nat) :
  (k ≤ count_nl (bytes s))%nat →
  ∃ l t r, s = l ++ t ++ r ∧ at_line_start l ∧ no_nl t ∧ at_line_end r ∧ count_nl (bytes l) = k.
Proof.
  revert s. induction k as [|k IH]; intros s Hk.
  - destruct (split_first_line s) as [Hs|(q & r & -> & Hq)].
    + exists [], s, []. rewrite app_nil_r. split_and!; [done|by left|done|by left|done].
    + exists [], q, (NL :: r). split_and!; [done|by left|done|right; eauto|done].
  - destruct (IH s) as (l & t & r & -> & Hl & Ht & Hr & Hc); [lia|].
    rewrite !bytes_app, !count_nl_app, Hc, (count_nl_no_nl t) in Hk by done.
    destruct Hr as [->|[r' ->]]; [cbn in Hk; lia|].
    destruct (split_first_line r') as [Hs|(q & r & -> & Hq)].
    + exists (l ++ t ++ [NL]), r', []. rewrite app_nil_r, <-!app_assoc.
      split_and!; [done|right; exists (l ++ t); by rewrite app_assoc|done|by left|].
      rewrite count_nl_line by done. lia.
    + exists (l ++ t ++ [NL]), q, (NL :: r). rewrite <-!app_assoc.
      split_and!; [done|right; exists (l ++ t); by rewrite app_assoc|done|right; eauto|].
      rewrite count_nl_line by done. lia.
Qed.

Section OneLine.
Context (l t r : str).
Context (Hl : at_line_start l) (Ht : no_nl t) (Hr : at_line_end r).
Local Notation s := (l ++ t ++ r).
Context (Hlen : str_len s < 2 ^ 32 - 1).

Lemma new_line_starts : LineMap.line_starts (LineMap.new s) = 0 :: LineIndex.scan 0 (bytes s).
Proof using. reflexivity. Qed.

Lemma new_source_len : LineMap.source_len (LineMap.new s) = str_len s.
Proof using Hlen. cbn. apply wrap_small. pose proof (str_len_nonneg s). unfold in_u. lia. Qed.

Lemma line_bounds : line_no l < 2 ^ 32 - 1.
Proof using Hlen.
  pose proof (line_no_le l). pose proof (str_len_nonneg (t ++ r)).
  rewrite str_len_app in Hlen. lia.
Qed.

Lemma line_start_ok : LineMap.line_start (LineMap.new s) (line_no l) = Done (str_len l).
Proof using Hl Hlen.
  unfold LineMap.line_start. rewrite new_line_starts. cbn [length]. rewrite length_scan.
  rewrite (proj2 (Z.leb_gt _ _)) by (unfold line_no; rewrite bytes_app, count_nl_app; lia).
  unfold line_no. rewrite Nat2Z.id, start_of_line by (done || lia). done.
Qed.

Lemma line_end_ok : LineMap.line_end (LineMap.new s) s (line_no l) = Done (str_len (l ++ t)).
Proof using Hlen Hr Ht.
  pose proof line_bounds. pose proof new_source_len as Hsrc. unfold LineMap.line_end. rewrite Z.min_l by lia.
  rewrite new_line_starts. cbn [length]. rewrite length_scan.
  assert (line_no l + 1 = Z.of_nat (count_nl (bytes (l ++ t ++ [NL])))) as Hnext.
  { rewrite count_nl_line by done. unfold line_no. lia. }
  destruct Hr as [->|[r' ->]].
  - rewrite (proj2 (Z.leb_le _ _)).
    { by rewrite Hsrc, app_nil_r. }
    rewrite !bytes_app, !count_nl_app, (count_nl_no_nl t) by done. unfold line_no. cbn. lia.
  - rewrite (proj2 (Z.leb_gt _ _)).
    2:{ change (NL :: r') with ([NL] ++ r').
        rewrite !app_assoc, bytes_app, count_nl_app, <-app_assoc, count_nl_line by done.
        unfold line_no. lia. }
    assert (l ++ t ++ NL :: r' = (l ++ t ++ [NL]) ++ r') as Hs by (by rewrite <-!app_assoc).
    rewrite Hnext, Nat2Z.id, Hs, start_of_line.
    2:{ right. exists (l ++ t). by rewrite app_assoc. }
    2:{ rewrite <-Hs. lia. }
    cbn [expect mbind outcome_bind]. rewrite (app_assoc l t), str_len_app.
    change (str_len [NL]) with 1. pose proof (str_len_nonneg (l ++ t)).
    replace (str_len (l ++ t) + 1 - 1) with (str_len (l ++ t)) by lia.
    rewrite (proj2 (Z.gtb_lt _ _)) by lia. rewrite bool_decide_true; [done|].
    rewrite <-app_assoc, bytes_app, lookup_app_r by (unfold str_len; lia).
    unfold str_len. by rewrite Nat2Z.id, Nat.sub_diag.
Qed.

Lemma line_text_ok : str_slice s (str_len l) (str_len (l ++ t)) = Done t.
Proof using. apply str_slice_app. Qed.
End OneLine.

Lemma utf16_count_app s1 s2 : utf16_count (s1 ++ s2) = utf16_count s1 + utf16_count s2.
Proof. induction s1 as [|c s1 IH]; [done|]. cbn. fold utf16_count. unfold utf16_count in *. lia. Qed.

Lemma utf16_count_bounds s : 0 ≤ utf16_count s ≤ str_len s.
Proof.
  induction s as [|c s IH]; [done|]. rewrite str_len_cons. cbn.
  unfold utf16_count, len_utf16, len_utf8 in *. repeat case_match; lia.
Qed.

Lemma len_utf16_pos c : 1 ≤ len_utf16 c.
Proof. unfold len_utf16. case_match; lia. Qed.

(** The walk stops after the shortest prefix that holds the wanted units. *)
Lemma utf16_walk_ok cs target u b :
  0 ≤ u → u + utf16_count cs < 2 ^ 32 →
  ∃ p q, cs = p ++ q ∧ utf16_walk cs target u b = Done (b + str_len p) ∧
    (q = [] ∨ target ≤ u + utf16_count p) ∧
    (∀ p' q', cs = p' ++ q' → u + utf16_count p' = target → p' = p).
Proof.
  revert u b. induction cs as [|c cs IH]; intros u b Hu Hlt; cbn [utf16_walk].
  - exists [], []. rewrite str_len_nil, Z.add_0_r. split_and!; [done..|by left|].
    by intros p' q' [-> ->]%eq_sym%app_eq_nil.
  - pose proof (len_utf16_pos c). pose proof (utf16_count_bounds cs).
    cbn in Hlt. fold (utf16_count cs) in Hlt. destruct (Z.leb_spec target u).
    + exists [], (c :: cs). rewrite str_len_nil, Z.add_0_r. split_and!; [done..|right; cbn; lia|].
      intros [|c' p'] q' Heq Ht; [done|]. exfalso. cbn in Ht. fold (utf16_count p') in Ht.
      pose proof (utf16_count_bounds p'). pose proof (len_utf16_pos c'). lia.
    + unfold checked_add at 1. case_decide; [|unfold in_u in *; lia]. cbn [mbind outcome_bind].
      destruct (IH (u + len_utf16 c) (b + len_utf8 c)) as (p & q & -> & -> & Hq & Hun); [lia..|].
      exists (c :: p), q. rewrite str_len_cons. split_and!; [done|f_equal; lia| |].
      { destruct Hq; [by left|right; cbn; fold (utf16_count p); lia]. }
      intros [|c' p'] q' Heq Ht; cbn in Ht, Heq; [lia|]. fold (utf16_count p') in Ht.
      injection Heq as -> Heq. f_equal. eapply Hun; [done|lia].
Qed.

(** ** Editor positions *)

Definition width (enc : PositionEncoding) (s : str) : Z :=
  match enc with Utf8 => str_len s | Utf16 => utf16_count s end.

Lemma width_bounds enc s : 0 ≤ width enc s ≤ str_len s.
Proof. destruct enc; [pose proof (str_len_nonneg s); cbn; lia|apply utf16_count_bounds]. Qed.

(** The column [position_to_byte] finds in a line: within it, on a boundary for
    UTF-16, and exact when the wanted column is the width of a prefix. *)
Lemma column_ok enc t c :
  0 ≤ c → str_len t < 2 ^ 32 →
  ∃ b, match enc with
       | Utf8 => Done (Z.min c (str_len t))
       | Utf16 => byte_off ← utf16_walk t c 0 0; Done (Z.min byte_off (str_len t))
       end = Done b ∧ 0 ≤ b ≤ str_len t ∧
    (enc = Utf16 → ∃ p q, t = p ++ q ∧ b = str_len p) ∧
    (∀ p q, t = p ++ q → width enc p = c → b = str_len p).
Proof.
  intros Hc Hlen. pose proof (str_len_nonneg t). destruct enc.
  - exists (Z.min c (str_len t)). split_and!; [done|lia|lia|done|].
    intros p q -> <-. cbn. rewrite str_len_app. pose proof (str_len_nonneg q). lia.
  - pose proof (utf16_count_bounds t).
    destruct (utf16_walk_ok t c 0 0) as (p & q & -> & -> & _ & Hun); [lia..|].
    rewrite str_len_app in *. pose proof (str_len_nonneg p). pose proof (str_len_nonneg q).
    exists (str_len p). cbn. split_and!; [f_equal; lia|lia|lia|by eauto|].
    intros p' q' Heq Hw. f_equal. symmetry. eapply Hun; [done|cbn in Hw; lia].
Qed.

(** The line map finds the line of a byte. *)
Lemma line_for_byte_ok l p rest :
  no_nl p → str_len (l ++ p ++ rest) < 2 ^ 32 - 1 →
  LineMap.line_for_byte (LineMap.new (l ++ p ++ rest)) (str_len (l ++ p)) = line_no l.
Proof.
  intros Hp Hlen. unfold LineMap.line_for_byte. rewrite new_source_len, new_line_starts by done.
  rewrite app_assoc, (str_len_app (l ++ p)) in *. pose proof (str_len_nonneg rest).
  pose proof (str_len_nonneg (l ++ p)). rewrite Z.min_l by lia.
  rewrite bytes_app. unfold str_len at 1. rewrite partition_starts.
  2:{ rewrite length_app. unfold str_len in *. lia. }
  rewrite bytes_app, count_nl_app, (count_nl_no_nl p) by done. fold (line_no l).
  pose proof (line_no_le l). pose proof (str_len_nonneg p). rewrite str_len_app in Hlen.
  replace (Z.max 0 _) with (line_no l) by (unfold line_no; lia).
  apply wrap_small. unfold in_u, line_no in *. lia.
Qed.

(** C35: converting a byte offset to an editor position and back gives the same
    offset, in both encodings, for every offset on a character boundary of a
    source shorter than 2^32 - 1 bytes; neither conversion panics there. *)
Theorem editor_positions_roundtrip (source prefix : str) (byte : Z) (encoding : PositionEncoding) :
  str_len source < 2 ^ 32 - 1 → str_take source byte = Done prefix →
  ∃ pos, byte_to_position (LineMap.new source) source byte encoding = Done pos ∧
    position_to_byte (LineMap.new source) source pos encoding = Done byte ∧
    line pos = line_no prefix.
Proof.
  intros Hlen Htake. destruct (str_take_inv _ _ _ Htake) as (rest & -> & ->).
  destruct (split_last_line prefix) as (l & p & -> & Hp & Hl).
  assert (∃ q r, rest = q ++ r ∧ no_nl (p ++ q) ∧ at_line_end r) as (q & r & -> & Ht & Hr).
  { destruct (split_first_line rest) as [Hs|(q & r & -> & Hq)]; unfold no_nl in *.
    - exists rest, []. rewrite app_nil_r, elem_of_app. split_and!; [done|tauto|by left].
    - exists q, (NL :: r). rewrite elem_of_app. split_and!; [done|tauto|right; by eauto]. }
  pose proof (str_len_nonneg (q ++ r)) as Hrest. pose proof (str_len_nonneg l).
  assert (str_len (l ++ p) ≤ str_len ((l ++ p) ++ q ++ r)) as Hle by (rewrite (str_len_app (l ++ p)); lia).
  assert ((l ++ p) ++ q ++ r = l ++ (p ++ q) ++ r) as Heq by (by rewrite <-!app_assoc).
  rewrite Heq in *.
  assert (LineMap.line_for_byte (LineMap.new (l ++ (p ++ q) ++ r)) (str_len (l ++ p)) = line_no l) as Hline.
  { rewrite <-app_assoc in *. by apply line_for_byte_ok. }
  pose proof (width_bounds encoding p) as Hw. pose proof (str_len_app l p) as Hlp.
  assert (line_no (l ++ p) = line_no l) as Hno.
  { unfold line_no. rewrite bytes_app, count_nl_app, (count_nl_no_nl p) by done. lia. }
  exists (MkPos (line_no l) (width encoding p)). unfold byte_to_position, position_to_byte.
  cbn [line character].
  rewrite (wrap_small 32 (str_len _)), Z.min_l, Hline, line_start_ok, line_end_ok
    by (done || unfold in_u; lia).
  cbn [mbind outcome_bind]. rewrite line_text_ok, <-(app_assoc p), str_slice_app. cbn [mbind outcome_bind].
  destruct (column_ok encoding (p ++ q) (width encoding p)) as (b & -> & _ & _ & Hb);
    [lia|pose proof (str_len_nonneg r); rewrite !str_len_app in *; lia|].
  rewrite (Hb p q eq_refl eq_refl). cbn [mbind outcome_bind].
  split_and!; [|f_equal; rewrite Hlp; apply wrap_small; unfold in_u; lia|done].
  do 2 f_equal. fold (width encoding p). apply wrap_small. unfold in_u. lia.
Qed.

Lemma editor_positions_roundtrip_witness :
  ∃ pos, byte_to_position (LineMap.new [97; 10; 0x1F980; 99]) [97; 10; 0x1F980; 99] 6 Utf16 = Done pos ∧
    position_to_byte (LineMap.new [97; 10; 0x1F980; 99]) [97; 10; 0x1F980; 99] pos Utf16 = Done 6 ∧
    line pos = line_no [97; 10; 0x1F980].
Proof. apply editor_positions_roundtrip; vm_compute; reflexivity. Defined.

(** an editor may send any position; [position_to_byte] never panics, the
    offset it returns lies within the source, on the requested line when there
    is one, and with UTF-16 columns it is always a character boundary. *)
Theorem editor_positions_clamped (source : str) (pos : Position) (encoding : PositionEncoding) :
  str_len source < 2 ^ 32 - 1 → 0 ≤ line pos → 0 ≤ character pos →
  ∃ b, position_to_byte (LineMap.new source) source pos encoding = Done b ∧
    0 ≤ b ≤ str_len source ∧
    (encoding = Utf16 → ∃ p, str_take source b = Done p) ∧
    (line pos ≤ line_no source → ∃ start en,
      LineMap.line_start (LineMap.new source) (line pos) = Done start ∧
      LineMap.line_end (LineMap.new source) source (line pos) = Done en ∧ start ≤ b ≤ en).
Proof.
  intros Hlen Hline Hchar. unfold position_to_byte. destruct (decide (line pos ≤ line_no source)) as [Hle|Hgt].
  - destruct (line_pieces source (Z.to_nat (line pos))) as (l & t & r & -> & Hl & Ht & Hr & Hc).
    { unfold line_no in Hle. lia. }
    assert (line pos = line_no l) as -> by (unfold line_no; lia).
    rewrite line_start_ok, line_end_ok by done. cbn [mbind outcome_bind].
    rewrite line_text_ok. cbn [mbind outcome_bind].
    pose proof (str_len_nonneg l). pose proof (str_len_nonneg r). rewrite !str_len_app in Hlen.
    destruct (column_ok encoding t (character pos)) as (b & -> & Hb & Hbd & _); [lia..|].
    cbn [mbind outcome_bind]. exists (str_len l + b).
    rewrite !str_len_app, wrap_small by (unfold in_u; lia). split_and!; [done|lia|lia| |].
    + intros He. destruct (Hbd He) as (p & q & -> & ->). exists (l ++ p).
      rewrite <-str_len_app, <-!app_assoc, app_assoc. apply str_take_app.
    + intros _. exists (str_len l), (str_len l + str_len t). split_and!; [done..|lia|lia].
  - exists (str_len source). pose proof (str_len_nonneg source). pose proof (line_no_le source).
    pose proof (new_source_len source [] []) as Hsrc. rewrite !app_nil_r in Hsrc.
    unfold LineMap.line_start, LineMap.line_end. rewrite Hsrc by done.
    assert (Z.of_nat (length (LineMap.line_starts (LineMap.new source))) = line_no source + 1) as ->.
    { cbn. rewrite (length_scan 0). unfold line_no. lia. }
    rewrite !(proj2 (Z.leb_le _ _)) by lia. cbn [mbind outcome_bind].
    pose proof (str_slice_app source [] []) as Hsl. rewrite !app_nil_r in Hsl. rewrite Hsl.
    cbn [mbind outcome_bind].
    destruct (column_ok encoding [] (character pos)) as (b & -> & Hb & _); [done..|].
    rewrite str_len_nil in Hb. cbn [mbind outcome_bind]. replace (str_len source + b) with (str_len source) by lia.
    rewrite wrap_small by (unfold in_u; lia). split_and!; [done|lia|lia| |lia].
    intros _. exists source. rewrite <-(app_nil_r source) at 1. apply str_take_app.
Qed.

Lemma editor_positions_clamped_witness :
  ∃ b, position_to_byte (LineMap.new [97; 10; 0x1F980; 99]) [97; 10; 0x1F980; 99] (MkPos 1 1) Utf16 = Done b ∧
    0 ≤ b ≤ str_len [97; 10; 0x1F980; 99] ∧
    (Utf16 = Utf16 → ∃ p, str_take [97; 10; 0x1F980; 99] b = Done p) ∧
    (line (MkPos 1 1) ≤ line_no [97; 10; 0x1F980; 99] → ∃ start en,
      LineMap.line_start (LineMap.new [97; 10; 0x1F980; 99]) (line (MkPos 1 1)) = Done start ∧
      LineMap.line_end (LineMap.new [97; 10; 0x1F980; 99]) [97; 10; 0x1F980; 99] (line (MkPos 1 1)) = Done en ∧
      start ≤ b ≤ en).
Proof. apply editor_positions_clamped; vm_compute; [reflexivity|discriminate|discriminate]. Defined.
