(* ===== verification/Moves.v ===== *)
(** * Move states of variables

    Models [VariableMoveState] and [AnalysisContext::merge_branch_moves]
    ([crates/gruel-air/src/sema/context.rs]): which variables, and which field
    paths below them, have been moved out. The abstract reading of a state is
    the set of paths it reports as moved; [move_states_refine_path_sets] shows
    that the operations are the set operations their documentation names. *)

From S2P Require Import Prelude Air.

Section Moves.
Context {Spur : Type} `{Countable Spur}.

Notation FieldPath := (list Spur).

Record VariableMoveState : Type := MkMoves {
  full_move : option Span;
  partial_moves : gmap FieldPath Span;
}.

(** [VariableMoveState::default]. *)
Definition no_moves : VariableMoveState := MkMoves None ∅.

Definition mark_path_moved (path : FieldPath) (span : Span) (st : VariableMoveState)
    : VariableMoveState :=
  match path with
  | [] => MkMoves (Some span) ∅
  | _ => match full_move st with
         | None => MkMoves None (<[path := span]> (partial_moves st))
         | Some _ => st
         end
  end.

(** The loop over the proper prefixes [path[..len]], for [len] in [1..path.len()]. *)
Definition first_moved_prefix (st : VariableMoveState) (path : FieldPath) : option Span :=
  head (omap (λ len, partial_moves st !! take len path) (seq 1 (length path - 1))).

Definition is_path_moved (st : VariableMoveState) (path : FieldPath) : option Span :=
  match full_move st with
  | Some span => Some span
  | None => match partial_moves st !! path with
            | Some span => Some span
            | None => first_moved_prefix st path
            end
  end.

(** [partial_moves.values().next()]: the iteration order of the map is not
    specified; the model takes the first value of its list of entries. *)
Definition is_any_part_moved (st : VariableMoveState) : option Span :=
  match full_move st with
  | Some span => Some span
  | None => snd <$> head (map_to_list (partial_moves st))
  end.

Definition moves_is_empty (st : VariableMoveState) : bool :=
  bool_decide (full_move st = None) && bool_decide (partial_moves st = ∅).

(** The loop of [entry(..).or_insert(..)] keeps the first branch's spans. *)
Definition merge_union (branch1 branch2 : VariableMoveState) : VariableMoveState :=
  MkMoves
    (match full_move branch1 with Some s => Some s | None => full_move branch2 end)
    (partial_moves branch1 ∪ partial_moves branch2).

Definition keep_nonempty (st : VariableMoveState) : option VariableMoveState :=
  if moves_is_empty st then None else Some st.

(** [merge_branch_moves]: the new [moved_vars]. In the last case the code's two
    loops give a variable the merged state of the branches that mention it. *)
Definition merge_branch_moves (then_moves else_moves : gmap Spur VariableMoveState)
    (then_diverges else_diverges : bool) : gmap Spur VariableMoveState :=
  match then_diverges, else_diverges with
  | true, true => then_moves
  | true, false => else_moves
  | false, true => then_moves
  | false, false =>
      merge (λ t e, match t, e with
                    | Some then_state, Some else_state => keep_nonempty (merge_union then_state else_state)
                    | Some then_state, None => keep_nonempty then_state
                    | None, Some else_state => keep_nonempty else_state
                    | None, None => None
                    end) then_moves else_moves
  end.

(** ** Paths reported as moved *)

Definition path_moved (st : VariableMoveState) (path : FieldPath) : Prop :=
  is_Some (is_path_moved st path).
(** A partial move never names the variable itself. *)
Definition moves_wf (st : VariableMoveState) : Prop := partial_moves st !! [] = None.
Definition map_moves_wf (m : gmap Spur VariableMoveState) : Prop := map_Forall (λ _, moves_wf) m.
Definition var_path_moved (m : gmap Spur VariableMoveState) (x : Spur) (path : FieldPath) : Prop :=
  ∃ st, m !! x = Some st ∧ path_moved st path.

Lemma prefix_take (q p : FieldPath) : q `prefix_of` p → q = take (length q) p.
Proof. intros [k ->]. by rewrite take_app_length. Qed.

Lemma first_moved_prefix_spec st path :
  is_Some (first_moved_prefix st path) ↔
    ∃ q s, partial_moves st !! q = Some s ∧ q ≠ [] ∧ q `prefix_of` path ∧ q ≠ path.
Proof.
  unfold first_moved_prefix. set (l := omap _ _).
  assert (is_Some (head l) ↔ ∃ s, s ∈ l) as ->.
  { destruct l as [|s l']; cbn; [|by split; eauto using list_elem_of_here].
    split; [by intros []|]. by intros [s ?%elem_of_nil]. }
  unfold l. setoid_rewrite list_elem_of_omap. setoid_rewrite elem_of_seq. split.
  - intros (s & len & Hlen & Hs). exists (take len path), s.
    assert (length (take len path) = len) by (rewrite length_take; lia).
    split_and!; [done| | |].
    + intros Hn. rewrite Hn in *. cbn in *. lia.
    + exists (drop len path). by rewrite take_drop.
    + intros Heq. rewrite Heq in *. lia.
  - intros (q & s & Hs & Hq & Hpre & Hne). exists s, (length q).
    assert (length q ≠ 0%nat) by (by destruct q).
    assert (length q ≠ length path).
    { intros Hl. apply Hne. destruct Hpre as [k ->]. rewrite length_app in Hl.
      destruct k; [by rewrite app_nil_r|cbn in Hl; lia]. }
    pose proof (prefix_length _ _ Hpre). rewrite <-(prefix_take q path) by done. split; [lia|done].
Qed.

(** A path is moved when the variable or one of the path's ancestors is. *)
Lemma path_moved_spec st path :
  moves_wf st →
  path_moved st path ↔
    is_Some (full_move st) ∨ ∃ q s, partial_moves st !! q = Some s ∧ q `prefix_of` path.
Proof.
  intros Hwf. unfold path_moved, is_path_moved. destruct (full_move st) as [s|]; [naive_solver|].
  destruct (partial_moves st !! path) as [s|] eqn:Hp.
  { split; [intros _; right; by eexists _, _|by eauto]. }
  rewrite first_moved_prefix_spec. split.
  - intros (q & s & ? & ? & ? & ?). right. eauto.
  - intros [[? [=]]|(q & s & Hq & Hpre)]. exists q, s. unfold moves_wf in Hwf.
    split_and!; [done| |done|]; intros ->; congruence.
Qed.

Lemma mark_path_moved_wf path span st : moves_wf st → moves_wf (mark_path_moved path span st).
Proof.
  unfold moves_wf, mark_path_moved. destruct path as [|f path]; [done|].
  destruct (full_move st); [done|]. intros. cbn. by rewrite lookup_insert_ne.
Qed.

Lemma merge_union_wf b1 b2 : moves_wf b1 → moves_wf b2 → moves_wf (merge_union b1 b2).
Proof. unfold moves_wf. intros. cbn. by rewrite lookup_union_None. Qed.

Lemma mark_path_moved_spec path span st q :
  moves_wf st →
  path_moved (mark_path_moved path span st) q ↔ path_moved st q ∨ path `prefix_of` q.
Proof.
  intros Hwf. rewrite !path_moved_spec by auto using mark_path_moved_wf.
  unfold mark_path_moved. destruct path as [|f path].
  { cbn. split; [intros _; right; apply prefix_nil|intros _; left; eauto]. }
  destruct (full_move st) as [s|] eqn:Hf; [rewrite Hf; naive_solver|]. cbn. split.
  - intros [[? [=]]|(r & s & Hr & Hpre)]. destruct (decide (r = f :: path)) as [->|Hne]; [by right|].
    rewrite lookup_insert_ne in Hr by done. left; right; eauto.
  - intros [[[? [=]]|(r & s & Hr & Hpre)]|Hpre].
    + right. destruct (decide (r = f :: path)) as [->|Hne].
      * exists (f :: path), span. by rewrite lookup_insert_eq.
      * exists r, s. by rewrite lookup_insert_ne.
    + right. exists (f :: path), span. by rewrite lookup_insert_eq.
Qed.

Lemma merge_union_spec b1 b2 q :
  moves_wf b1 → moves_wf b2 →
  path_moved (merge_union b1 b2) q ↔ path_moved b1 q ∨ path_moved b2 q.
Proof.
  intros H1 H2. rewrite !path_moved_spec by auto using merge_union_wf. cbn.
  setoid_rewrite lookup_union_Some_raw.
  destruct (full_move b1) as [s1|]; [naive_solver|]. destruct (full_move b2) as [s2|]; [naive_solver|].
  split; [naive_solver|]. intros [[[? [=]]|(r & s & ? & ?)]|[[? [=]]|(r & s & ? & ?)]]; right.
  - naive_solver.
  - destruct (partial_moves b1 !! r) eqn:?; naive_solver.
Qed.

(** Any part of a variable is moved exactly when some path is. *)
Lemma any_part_moved_spec st :
  moves_wf st →
  (is_Some (is_any_part_moved st) ↔ ∃ q, path_moved st q) ∧
  (moves_is_empty st = true ↔ ∀ q, ¬ path_moved st q).
Proof.
  intros Hwf. setoid_rewrite path_moved_spec; [|done..].
  unfold is_any_part_moved, moves_is_empty. destruct (full_move st) as [s|]; cbn.
  { split; [split; [intros _; exists []; left|]; by eauto|].
    split; [done|]. intros Hno. destruct (Hno []). left. by eauto. }
  destruct (map_to_list (partial_moves st)) as [|[p s] l] eqn:Hl; cbn.
  - apply map_to_list_empty_iff in Hl as ->. rewrite bool_decide_true by done. split; [|naive_solver].
    split; [by intros []|]. intros (q & [[? [=]]|(r & s & [=] & _)]).
  - assert (partial_moves st !! p = Some s) as Hp by (apply elem_of_map_to_list; rewrite Hl; left).
    rewrite bool_decide_false by (intros Heq; by rewrite Heq in Hp). split; [|split; [done|]].
    + split; [|by eauto]. intros _. exists p. right. by exists p, s.
    + intros Hno. destruct (Hno p). right. by exists p, s.
Qed.

Lemma keep_nonempty_spec st q :
  moves_wf st → (∃ st', keep_nonempty st = Some st' ∧ path_moved st' q) ↔ path_moved st q.
Proof.
  intros Hwf. unfold keep_nonempty. destruct (moves_is_empty st) eqn:He; [|naive_solver].
  split; [by intros (? & [=] & _)|]. intros Hq.
  destruct (proj1 (proj2 (any_part_moved_spec st Hwf)) He q Hq).
Qed.

Lemma merge_branch_moves_spec tm em td ed x q :
  map_moves_wf tm → map_moves_wf em → td && ed = false →
  var_path_moved (merge_branch_moves tm em td ed) x q ↔
    (td = false ∧ var_path_moved tm x q) ∨ (ed = false ∧ var_path_moved em x q).
Proof.
  intros Ht He Hde. unfold merge_branch_moves. destruct td, ed; [done|naive_solver..|].
  unfold var_path_moved. rewrite lookup_merge.
  destruct (tm !! x) as [ts|] eqn:Htx, (em !! x) as [es|] eqn:Hex; cbn;
    try pose proof (Ht _ _ Htx); try pose proof (He _ _ Hex);
    rewrite ?keep_nonempty_spec by auto using merge_union_wf;
    rewrite ?merge_union_spec by done; naive_solver.
Qed.

Lemma keep_nonempty_wf st st' : moves_wf st → keep_nonempty st = Some st' → moves_wf st'.
Proof. unfold keep_nonempty. case_match; naive_solver. Qed.

Lemma merge_branch_moves_wf tm em td ed :
  map_moves_wf tm → map_moves_wf em → map_moves_wf (merge_branch_moves tm em td ed).
Proof.
  intros Ht He. unfold merge_branch_moves. destruct td, ed; [done..|].
  intros x st. rewrite lookup_merge.
  destruct (tm !! x) as [ts|] eqn:Htx, (em !! x) as [es|] eqn:Hex; cbn; [..|done];
    apply keep_nonempty_wf; eauto using merge_union_wf.
Qed.

(** C33: read as the set of field paths it reports as moved, a move state is what
    the documentation says. Marking a path adds the path and everything below it;
    a variable has a moved part exactly when some path is in its set; and after
    an [if], a path is moved exactly when it is moved at the end of a branch that
    can finish. The operations keep the states well-formed. *)
Theorem move_states_refine_path_sets (st : VariableMoveState) (path q : FieldPath) (span : Span)
    (then_moves else_moves : gmap Spur VariableMoveState) (then_diverges else_diverges : bool) (x : Spur) :
  moves_wf st → map_moves_wf then_moves → map_moves_wf else_moves →
  then_diverges && else_diverges = false →
  (path_moved (mark_path_moved path span st) q ↔ path_moved st q ∨ path `prefix_of` q) ∧
  (is_Some (is_any_part_moved st) ↔ ∃ q, path_moved st q) ∧
  (var_path_moved (merge_branch_moves then_moves else_moves then_diverges else_diverges) x q ↔
     (then_diverges = false ∧ var_path_moved then_moves x q) ∨
     (else_diverges = false ∧ var_path_moved else_moves x q)) ∧
  moves_wf (mark_path_moved path span st) ∧
  map_moves_wf (merge_branch_moves then_moves else_moves then_diverges else_diverges).
Proof.
  intros. split_and!.
  - by apply mark_path_moved_spec.
  - by apply any_part_moved_spec.
  - by apply merge_branch_moves_spec.
  - by apply mark_path_moved_wf.
  - by apply merge_branch_moves_wf.
Qed.
End Moves.
Arguments VariableMoveState Spur {_ _}.

(** [s.1] moved in the then-branch, [s.2.3] in the else-branch: [s.1.7] is moved after. *)
Lemma move_states_refine_path_sets_witness :
  let sp := MkSpan 0 1 2 in
  let t : gmap nat (VariableMoveState nat) := {[ 0 := mark_path_moved [1] sp no_moves ]}%nat in
  let e : gmap nat (VariableMoveState nat) := {[ 0 := mark_path_moved [2; 3] sp no_moves ]}%nat in
  (path_moved (mark_path_moved [1] sp no_moves) [1; 7] ↔ path_moved no_moves [1; 7] ∨ [1] `prefix_of` [1; 7])%nat ∧
  (is_Some (is_any_part_moved (Spur := nat) no_moves) ↔ ∃ q, path_moved (Spur := nat) no_moves q) ∧
  (var_path_moved (merge_branch_moves t e false false) 0 [1; 7] ↔
     (false = false ∧ var_path_moved t 0 [1; 7]) ∨ (false = false ∧ var_path_moved e 0 [1; 7]))%nat ∧
  moves_wf (mark_path_moved [1%nat] sp no_moves) ∧ map_moves_wf (merge_branch_moves t e false false).
Proof.
  cbv zeta. apply move_states_refine_path_sets; [done|..|done]; by apply map_Forall_singleton.
Defined.
