(* ===== verification/SemaState.v ===== *)
(** * The state of semantic analysis

    Models the part of [Sema] and the whole of [AnalysisContext] that the
    instruction handlers of Sema.v read and write
    ([crates/gruel-air/src/sema/context.rs], [typeck.rs], [analysis.rs]): local
    variables, parameters, the per-function tables, the type queries on the
    intern pool, and the state-and-error monad [M] in which a [CompileError] ends
    the analysis. Labels, notes and help texts of diagnostics are not kept. *)

From S2P Require Import Prelude Types AirPattern Air InternPool ParamArena Scope Moves.

#[local] Open Scope Z_scope.

(** [ErrorKind], the kinds the modelled handlers raise. [InternalError] drops its
    text, which is a [Debug] rendering. *)
Inductive ErrorKind : Type :=
  | InternalError
  | LiteralOutOfRange (value : Z) (ty : string)
  | CannotNegateUnsigned (ty : string)
  | TypeMismatch (expected found : string)
  | BorrowNonLvalue
  | InoutNonLvalue
  | AssignToImmutable (n : string)
  | IndexOnNonArray (found : string)
  | IndexOutOfBounds (idx length : Z)
  | BreakOutsideLoop
  | BreakInConsumingForLoop (element_type : string)
  | ContinueOutsideLoop
  | ComptimeEvaluationFailed (reason : string)
  | ReferenceEscapesFunction (type_name : string)
  | LinearValueNotConsumed (n : string)
  | UseAfterMove (n : string) (moved_span : Span)
  | MoveOutOfBorrow (variable : string)
  | MutateBorrowedValue (variable : string)
  | UndefinedVariable (n : string)
  | UndefinedFunction (n : string)
  | CFfi (msg : string)
  | ParseError (msg : string)
  | OtherError (msg : string).
Record CompileError : Type := MkError { ce_kind : ErrorKind; ce_span : Span }.

(** [UninitTarget], [UninitHandle]. *)
Inductive UninitTarget : Set :=
  | TargetStruct (struct_id : Z)
  | TargetEnumVariant (enum_id variant_idx : Z).

Section SemaState.
Context {Spur : Type} `{Countable Spur} `{!SpurKey Spur}.
Notation Air := (Air (Spur := Spur)).
Notation TypeInternPool := (TypeInternPool (Spur := Spur)).

Record UninitHandle : Type := MkUninit { uh_target : UninitTarget; uh_fields : gmap Spur AirRef }.

Record LocalVar : Type := MkLocal {
  lv_slot : Z; lv_ty : Ty; lv_is_mut : bool; lv_span : Span; lv_allow_unused : bool }.
Record ParamInfo : Type := MkParam {
  pi_name : Spur; pi_abi_slot : Z; pi_ty : Ty; pi_mode : RirParamMode }.
Record ConstInfo : Type := MkConst { ci_is_pub : bool; ci_ty : Ty; ci_init : Z; ci_span : Span }.
Record AnalysisResult : Type := MkResult { air_ref : AirRef; res_ty : Ty }.

(** [AnalysisContext]; the locals and the scope stack are the [ScopedContext] of Scope.v. *)
Record AnalysisContext : Type := MkCtx {
  cx_scopes : ScopedContext (Spur := Spur) (V := LocalVar);
  cx_params : list ParamInfo;
  cx_next_slot : Z;
  cx_loop_depth : Z;
  cx_forbid_break : option string;
  cx_checked_depth : Z;
  cx_used_locals : gset Spur;
  cx_return_type : Ty;
  cx_resolved_types : gmap Z Ty;
  cx_moved_vars : gmap Spur (VariableMoveState Spur);
  cx_warnings : list (string * Span);
  cx_local_string_table : gmap string Z;
  cx_local_strings : list string;
  cx_local_bytes : list (list Z);
  cx_comptime_type_vars : gmap Spur Ty;
  cx_comptime_value_vars : gmap Spur ConstValue;
  cx_referenced_functions : gset Spur;
  cx_referenced_methods : gset (Z * Spur);
  cx_borrow_arg_skip_move : option Spur;
  cx_uninit_handles : gmap Spur UninitHandle;
  cx_unroll_arm_bindings : gmap nat (Spur * ConstValue);
}.
Definition set_scopes (v : ScopedContext (Spur := Spur) (V := LocalVar)) (c : AnalysisContext) : AnalysisContext :=
  MkCtx v (cx_params c) (cx_next_slot c) (cx_loop_depth c) (cx_forbid_break c) (cx_checked_depth c)
    (cx_used_locals c) (cx_return_type c) (cx_resolved_types c) (cx_moved_vars c) (cx_warnings c)
    (cx_local_string_table c) (cx_local_strings c) (cx_local_bytes c) (cx_comptime_type_vars c)
    (cx_comptime_value_vars c) (cx_referenced_functions c) (cx_referenced_methods c)
    (cx_borrow_arg_skip_move c) (cx_uninit_handles c) (cx_unroll_arm_bindings c).
Definition set_next_slot (v : Z) (c : AnalysisContext) : AnalysisContext :=
  MkCtx (cx_scopes c) (cx_params c) v (cx_loop_depth c) (cx_forbid_break c) (cx_checked_depth c)
    (cx_used_locals c) (cx_return_type c) (cx_resolved_types c) (cx_moved_vars c) (cx_warnings c)
    (cx_local_string_table c) (cx_local_strings c) (cx_local_bytes c) (cx_comptime_type_vars c)
    (cx_comptime_value_vars c) (cx_referenced_functions c) (cx_referenced_methods c)
    (cx_borrow_arg_skip_move c) (cx_uninit_handles c) (cx_unroll_arm_bindings c).
Definition set_loop_depth (v : Z) (c : AnalysisContext) : AnalysisContext :=
  MkCtx (cx_scopes c) (cx_params c) (cx_next_slot c) v (cx_forbid_break c) (cx_checked_depth c)
    (cx_used_locals c) (cx_return_type c) (cx_resolved_types c) (cx_moved_vars c) (cx_warnings c)
    (cx_local_string_table c) (cx_local_strings c) (cx_local_bytes c) (cx_comptime_type_vars c)
    (cx_comptime_value_vars c) (cx_referenced_functions c) (cx_referenced_methods c)
    (cx_borrow_arg_skip_move c) (cx_uninit_handles c) (cx_unroll_arm_bindings c).
Definition set_used_locals (v : gset Spur) (c : AnalysisContext) : AnalysisContext :=
  MkCtx (cx_scopes c) (cx_params c) (cx_next_slot c) (cx_loop_depth c) (cx_forbid_break c)
    (cx_checked_depth c) v (cx_return_type c) (cx_resolved_types c) (cx_moved_vars c)
    (cx_warnings c) (cx_local_string_table c) (cx_local_strings c) (cx_local_bytes c)
    (cx_comptime_type_vars c) (cx_comptime_value_vars c) (cx_referenced_functions c)
    (cx_referenced_methods c) (cx_borrow_arg_skip_move c) (cx_uninit_handles c)
    (cx_unroll_arm_bindings c).
Definition set_moved_vars (v : gmap Spur (VariableMoveState Spur)) (c : AnalysisContext) : AnalysisContext :=
  MkCtx (cx_scopes c) (cx_params c) (cx_next_slot c) (cx_loop_depth c) (cx_forbid_break c)
    (cx_checked_depth c) (cx_used_locals c) (cx_return_type c) (cx_resolved_types c) v
    (cx_warnings c) (cx_local_string_table c) (cx_local_strings c) (cx_local_bytes c)
    (cx_comptime_type_vars c) (cx_comptime_value_vars c) (cx_referenced_functions c)
    (cx_referenced_methods c) (cx_borrow_arg_skip_move c) (cx_uninit_handles c)
    (cx_unroll_arm_bindings c).
Definition set_warnings (v : list (string * Span)) (c : AnalysisContext) : AnalysisContext :=
  MkCtx (cx_scopes c) (cx_params c) (cx_next_slot c) (cx_loop_depth c) (cx_forbid_break c)
    (cx_checked_depth c) (cx_used_locals c) (cx_return_type c) (cx_resolved_types c)
    (cx_moved_vars c) v (cx_local_string_table c) (cx_local_strings c) (cx_local_bytes c)
    (cx_comptime_type_vars c) (cx_comptime_value_vars c) (cx_referenced_functions c)
    (cx_referenced_methods c) (cx_borrow_arg_skip_move c) (cx_uninit_handles c)
    (cx_unroll_arm_bindings c).
Definition set_comptime_type_vars (v : gmap Spur Ty) (c : AnalysisContext) : AnalysisContext :=
  MkCtx (cx_scopes c) (cx_params c) (cx_next_slot c) (cx_loop_depth c) (cx_forbid_break c)
    (cx_checked_depth c) (cx_used_locals c) (cx_return_type c) (cx_resolved_types c)
    (cx_moved_vars c) (cx_warnings c) (cx_local_string_table c) (cx_local_strings c)
    (cx_local_bytes c) v (cx_comptime_value_vars c) (cx_referenced_functions c)
    (cx_referenced_methods c) (cx_borrow_arg_skip_move c) (cx_uninit_handles c)
    (cx_unroll_arm_bindings c).
Definition set_uninit_handles (v : gmap Spur UninitHandle) (c : AnalysisContext) : AnalysisContext :=
  MkCtx (cx_scopes c) (cx_params c) (cx_next_slot c) (cx_loop_depth c) (cx_forbid_break c)
    (cx_checked_depth c) (cx_used_locals c) (cx_return_type c) (cx_resolved_types c)
    (cx_moved_vars c) (cx_warnings c) (cx_local_string_table c) (cx_local_strings c)
    (cx_local_bytes c) (cx_comptime_type_vars c) (cx_comptime_value_vars c)
    (cx_referenced_functions c) (cx_referenced_methods c) (cx_borrow_arg_skip_move c) v
    (cx_unroll_arm_bindings c).
Definition set_local_strings (tbl : gmap string Z) (strs : list string) (c : AnalysisContext) : AnalysisContext :=
  MkCtx (cx_scopes c) (cx_params c) (cx_next_slot c) (cx_loop_depth c) (cx_forbid_break c)
    (cx_checked_depth c) (cx_used_locals c) (cx_return_type c) (cx_resolved_types c)
    (cx_moved_vars c) (cx_warnings c) tbl strs (cx_local_bytes c) (cx_comptime_type_vars c)
    (cx_comptime_value_vars c) (cx_referenced_functions c) (cx_referenced_methods c)
    (cx_borrow_arg_skip_move c) (cx_uninit_handles c) (cx_unroll_arm_bindings c).

(** [ScopedContext] for [AnalysisContext]: the provided methods, and [insert_local],
    which also forgets the moves recorded under the name. *)
Definition ctx_push_scope (c : AnalysisContext) : AnalysisContext := set_scopes (push_scope (cx_scopes c)) c.
Definition ctx_pop_scope (c : AnalysisContext) : AnalysisContext := set_scopes (pop_scope (cx_scopes c)) c.
Definition ctx_insert_local (symbol : Spur) (var : LocalVar) (c : AnalysisContext) : AnalysisContext :=
  set_moved_vars (delete symbol (cx_moved_vars c)) (set_scopes (insert_local symbol var (cx_scopes c)) c).

(** [AnalysisContext::{add_local_string, add_local_bytes}]. *)
Definition add_local_string (content : string) (c : AnalysisContext) : Z * AnalysisContext :=
  match cx_local_string_table c !! content with
  | Some id => (id, c)
  | None => let id := len_u32 (cx_local_strings c) in
            (id, set_local_strings (<[content := id]> (cx_local_string_table c))
                   (cx_local_strings c ++ [content]) c)
  end.

(** What handlers change: the AIR being built, the function's context, the intern
    pool, [Sema::comptime_steps_used], and the rest of [Sema], which no modelled
    handler touches. *)
Context {Rest : Type}.
Record St : Type := MkSt {
  st_air : Air; st_ctx : AnalysisContext; st_pool : TypeInternPool; st_steps : Z; st_rest : Rest }.

Definition M (A : Type) : Type := St → outcome (CompileError + A * St).
#[export] Instance M_ret : MRet M := λ A a s, Done (inr (a, s)).
#[export] Instance M_bind : MBind M := λ A B f m s,
  r ← m s; match r with inl e => Done (inl e) | inr (a, s') => f a s' end.
Definition throw {A} (k : ErrorKind) (sp : Span) : M A := λ s, Done (inl (MkError k sp)).
Definition lift {A} (m : outcome A) : M A := λ s, a ← m; Done (inr (a, s)).
Definition get_ctx : M AnalysisContext := λ s, Done (inr (st_ctx s, s)).
Definition mod_ctx (f : AnalysisContext → AnalysisContext) : M () := λ s,
  Done (inr ((), MkSt (st_air s) (f (st_ctx s)) (st_pool s) (st_steps s) (st_rest s))).
Definition get_steps : M Z := λ s, Done (inr (st_steps s, s)).
Definition put_steps (n : Z) : M () := λ s,
  Done (inr ((), MkSt (st_air s) (st_ctx s) (st_pool s) n (st_rest s))).
(** A query on the intern pool, and an operation that interns. *)
Definition query {A} (f : TypeInternPool → outcome A) : M A := λ s,
  a ← f (st_pool s); Done (inr (a, s)).
Definition intern {A} (f : TypeInternPool → outcome (A * TypeInternPool)) : M A := λ s,
  '(a, p) ← f (st_pool s);
  Done (inr (a, MkSt (st_air s) (st_ctx s) p (st_steps s) (st_rest s))).
(** [air.add_inst(AirInst { data, ty, span })] and [air.add_extra(..)]. *)
Definition emit (data : AirInstData (Spur := Spur)) (ty : Ty) (sp : Span) : M AirRef := λ s,
  let '(r, a) := add_inst (st_air s) (MkInst data ty sp) in
  Done (inr (r, MkSt a (st_ctx s) (st_pool s) (st_steps s) (st_rest s))).
Definition emit_extra (ws : list Z) : M Z := λ s,
  '(start, a) ← add_extra (st_air s) ws;
  Done (inr (start, MkSt a (st_ctx s) (st_pool s) (st_steps s) (st_rest s))).
Definition read_air (r : AirRef) : M (AirInst (Spur := Spur)) := λ s,
  i ← get_inst (st_air s) r; Done (inr (i, s)).
Definition type_mismatch {A} (expected found : string) (sp : Span) : M A :=
  throw (TypeMismatch expected found) sp.

(** ** Type queries of sema *)

(** A chain of types that contain each other has at most one link per pool entry. *)
Definition query_fuel (p : TypeInternPool) : nat := S (S (length (InternPool.types p))).

(** [Sema::is_type_copy]. *)
Fixpoint type_copy (fuel : nat) (p : TypeInternPool) (ty : Ty) : outcome bool :=
  match fuel with
  | O => NoFuel
  | S fuel =>
    k ← kind ty;
    match k with
    | TypeKind.CVoid | TypeKind.Vec _ => mret false
    | TypeKind.Enum id =>
        d ← enum_def p id;
        match ed_posture d with
        | Copy => mret true
        | Linear => mret false
        | Affine =>
            l ← anyM (λ v, anyM (is_type_linear (query_fuel p) p) (ev_fields v)) (ed_variants d);
            mret (negb l)
        end
    | TypeKind.Struct id => d ← struct_def p id; mret (bool_decide (sd_posture d = Copy))
    | TypeKind.Array id =>
        '(element_type, len) ← array_def p id;
        if (len =? 0 : bool) then mret true else type_copy fuel p element_type
    | _ => mret true
    end
  end.
Definition is_type_copy (p : TypeInternPool) (ty : Ty) : outcome bool := type_copy (query_fuel p) p ty.

(** [Sema::abi_slot_count]. *)
Fixpoint slot_count (fuel : nat) (p : TypeInternPool) (ty : Ty) : outcome Z :=
  match fuel with
  | O => NoFuel
  | S fuel =>
    k ← kind ty;
    match k with
    | TypeKind.Unit | TypeKind.Never | TypeKind.ComptimeType | TypeKind.ComptimeStr
    | TypeKind.ComptimeInt | TypeKind.CVoid | TypeKind.Module _ => mret 0
    | TypeKind.Struct id =>
        d ← struct_def p id;
        foldM (λ acc f, n ← slot_count fuel p (sf_ty f); checked_add 32 acc n) 0 (sd_fields d)
    | TypeKind.Array id =>
        '(element_type, len) ← array_def p id;
        element_slots ← slot_count fuel p element_type;
        checked_mul 32 element_slots (wrap 32 len)
    | TypeKind.Interface _ | TypeKind.Slice _ | TypeKind.MutSlice _ => mret 2
    | TypeKind.Vec _ => mret 3
    | _ => mret 1
    end
  end.
Definition sema_abi_slot_count (p : TypeInternPool) (ty : Ty) : outcome Z := slot_count (query_fuel p) p ty.
Definition sema_is_type_linear (p : TypeInternPool) (ty : Ty) : outcome bool :=
  is_type_linear (query_fuel p) p ty.
Definition type_name (ty : Ty) : M string := lift (name ty).
Definition format_name (ty : Ty) : M string := query (λ p, format_type_name (query_fuel p) p ty).

(** [Sema::get_resolved_type]. *)
Definition get_resolved_type (inst_ref : Z) (sp : Span) : M Ty :=
  c ← get_ctx;
  match cx_resolved_types c !! inst_ref with
  | Some ty => mret ty
  | None => throw InternalError sp
  end.
End SemaState.
Arguments UninitHandle Spur {_ _}.
Arguments ParamInfo : clear implicits.
Arguments AnalysisContext Spur {_ _}.
Arguments St Spur {_ _} Rest.
Arguments M Spur {_ _} Rest A.
