(* ===== verification/Sema.v ===== *)
(** * Instruction handlers of semantic analysis

    Models the handlers of [crates/gruel-air/src/sema/analyze_ops.rs] and
    [analysis.rs] for literals, operators, references, blocks, branches, loops,
    jumps, variables and assignments, the dispatch [Sema::analyze_inst] over
    them, and the analysis of a function body, each as it emits AIR and updates
    the context. Handlers call back into [analyze_inst]; they take it as the
    argument [rec], and [analyze_inst] ties the knot on fuel.

    The remaining instruction kinds (comparisons, calls, structs, enums, arrays,
    matches, [for] loops, destructuring, intrinsics, compile-time and checked
    blocks) go to the parameter [analyze_other], which gets the recursive analysis
    too; compile-time evaluation and name resolution of types
    are parameters. *)

From stdpp Require Import pretty.
From S2P Require Import Prelude Types AirPattern Air InternPool ParamArena Scope Moves SemaState.
From S2P Require Import Rir.

#[local] Open Scope Z_scope.

Section Sema.
Context {Spur : Type} `{Countable Spur} `{!SpurKey Spur} {Rest : Type}.
Notation M := (M Spur Rest).
Notation AnalysisContext := (AnalysisContext Spur).
Notation ParamInfo := (ParamInfo Spur).
Notation UninitHandle := (UninitHandle Spur).

(** The input of the analysis, and the string interner. *)
Context (rir : Rir Spur) (constants : gmap Spur ConstInfo) (builtin_string_id : option Z).
Context (resolve : Spur → string) (interner_get : string → option Spur).
(** Parts of [Sema] outside this model. *)
Context (evaluate_comptime_inst : InstRef → gmap Spur ConstValue → Span → M ConstValue).
Context (resolve_type : Spur → Span → St Spur Rest → outcome ((CompileError + Ty) * St Spur Rest)).
Context (resolve_intrinsic_type_arg : InstRef → M Ty).
Context (evaluate_variant_tag_arg : InstRef → Z → Span → M Z).
Context (analyze_other : (InstRef → M AnalysisResult) → InstRef → M AnalysisResult).

Definition get_rir (inst_ref : InstRef) : M (Inst Spur) := lift (rir_get rir inst_ref).
(** [self.resolve_type(..)?]. *)
Definition resolve_type_or_fail (n : Spur) (sp : Span) : M Ty := λ s,
  '(r, s') ← resolve_type n sp s;
  match r with inl e => Done (inl e) | inr ty => Done (inr (ty, s')) end.
(** [if let Ok(ty) = self.resolve_type(..)]. *)
Definition try_resolve_type (n : Spur) (sp : Span) : M (option Ty) := λ s,
  '(r, s') ← resolve_type n sp s;
  Done (inr (match r with inl _ => None | inr ty => Some ty end, s')).

(** The instructions a chain of operands visits. *)
Definition walk_fuel : nat := S (length (r_instructions rir)).

(** [Sema::builtin_string_type]. *)
Definition builtin_string_type : Ty :=
  match builtin_string_id with Some id => new_struct id | None => Ty.ERROR end.

(** [Sema::extract_root_variable]. *)
Fixpoint root_variable (fuel : nat) (inst_ref : InstRef) : outcome (option Spur) :=
  match fuel with
  | O => NoFuel
  | S fuel =>
    inst ← rir_get rir inst_ref;
    match ri_data inst with
    | RVarRef n | RParamRef _ n => mret (Some n)
    | RFieldGet base _ | RIndexGet base _ => root_variable fuel base
    | _ => mret None
    end
  end.
Definition extract_root_variable (inst_ref : InstRef) : M (option Spur) :=
  lift (root_variable walk_fuel inst_ref).

(** [Sema::const_int_value]. *)
Fixpoint const_int (fuel : nat) (inst_ref : InstRef) : outcome (option Z) :=
  match fuel with
  | O => NoFuel
  | S fuel =>
    inst ← rir_get rir inst_ref;
    match ri_data inst with
    | RIntConst v => mret (Some v)
    | RUnary Neg operand => v ← const_int fuel operand; mret (Z.opp <$> v)
    | _ => mret None
    end
  end.
Definition const_int_value (inst_ref : InstRef) : M (option Z) := lift (const_int walk_fuel inst_ref).

(** [Sema::has_allow_directive]. *)
Definition has_allow_directive (directives : list (RirDirective (Spur := Spur))) (warning_name : string) : bool :=
  let allow_sym := interner_get "allow" in
  let warning_sym := interner_get warning_name in
  existsb (λ d, bool_decide (Some (d_name d) = allow_sym) &&
                existsb (λ arg, bool_decide (Some arg = warning_sym)) (d_args d)) directives.

(** [Sema::check_unused_locals_in_current_scope]. *)
Definition unused_warning (c : AnalysisContext) (symbol : Spur) : list (string * Span) :=
  if bool_decide (symbol ∈ cx_used_locals c) then []
  else match locals (cx_scopes c) !! symbol with
       | None => []
       | Some local =>
           let n := resolve symbol in
           if String.prefix "_" n then []
           else if lv_allow_unused local then [] else [(n, lv_span local)]
       end.
Definition check_unused_locals_in_current_scope (c : AnalysisContext) : AnalysisContext :=
  match scope_stack (cx_scopes c) with
  | [] => c
  | current_scope :: _ =>
      set_warnings (cx_warnings c ++ concat (map (λ e, unused_warning c e.1) current_scope)) c
  end.

(** [Sema::check_unconsumed_linear_values]. *)
Fixpoint unconsumed_linear (c : AnalysisContext) (entries : list (Spur * option LocalVar)) : M () :=
  match entries with
  | [] => mret ()
  | (symbol, _) :: entries =>
      match locals (cx_scopes c) !! symbol with
      | None => unconsumed_linear c entries
      | Some local =>
          linear ← query (λ p, sema_is_type_linear p (lv_ty local));
          let was_consumed := match cx_moved_vars c !! symbol with
                              | Some state => bool_decide (is_Some (full_move state))
                              | None => false
                              end in
          if (linear : bool) && negb was_consumed
          then throw (LinearValueNotConsumed (resolve symbol)) (lv_span local)
          else unconsumed_linear c entries
      end
  end.
Definition check_unconsumed_linear_values : M () :=
  c ← get_ctx;
  match scope_stack (cx_scopes c) with
  | [] => mret ()
  | current_scope :: _ => unconsumed_linear c current_scope
  end.

(** [emit], with the [AnalysisResult] of its type. *)
Definition emit_result (data : AirInstData (Spur := Spur)) (ty : Ty) (sp : Span) : M AnalysisResult :=
  r ← emit data ty sp; mret (MkResult r ty).

(** ** Literals *)

Definition analyze_literal (inst_ref : InstRef) : M AnalysisResult :=
  inst ← get_rir inst_ref;
  let sp := ri_span inst in
  match ri_data inst with
  | RIntConst value =>
      ty ← get_resolved_type inst_ref sp;
      if negb (literal_fits ty value) then
        n ← type_name ty; throw (LiteralOutOfRange value n) sp
      else emit_result (IConst value) ty sp
  | RFloatConst bits => ty ← get_resolved_type inst_ref sp; emit_result (IFloatConst bits) ty sp
  | RBoolConst value => emit_result (IBoolConst value) Ty.BOOL sp
  | RCharConst value => emit_result (IConst value) Ty.CHAR sp
  | RStringConst symbol =>
      c ← get_ctx;
      let '(local_string_id, c') := add_local_string (resolve symbol) c in
      _ ← mod_ctx (λ _, c');
      emit_result (IStringConst local_string_id) builtin_string_type sp
  | RUnitConst => emit_result IUnitConst Ty.UNIT sp
  | _ => throw InternalError sp
  end.

Section Handlers.
Context (rec : InstRef → M AnalysisResult).

(** ** Operators *)

(** [iN::MIN as i64 as u64] for the types of the negated-literal case. *)
Definition min_literal (ty : Ty) : outcome Z :=
  k ← kind ty;
  match k with
  | TypeKind.I8 => mret (2 ^ 64 - 2 ^ 7)
  | TypeKind.I16 => mret (2 ^ 64 - 2 ^ 15)
  | TypeKind.I32 => mret (2 ^ 64 - 2 ^ 31)
  | TypeKind.I64 => mret (2 ^ 64 - 2 ^ 63)
  | _ => Panic
  end.

Definition analyze_unary_op (inst_ref : InstRef) : M AnalysisResult :=
  inst ← get_rir inst_ref;
  let sp := ri_span inst in
  match ri_data inst with
  | RUnary Neg operand =>
      ty ← get_resolved_type inst_ref sp;
      if is_unsigned ty then n ← type_name ty; throw (CannotNegateUnsigned n) sp
      else
        operand_inst ← get_rir operand;
        let general :=
          operand_result ← rec operand;
          emit_result (IUnary Neg (air_ref operand_result)) ty sp in
        match ri_data operand_inst with
        | RIntConst value =>
            if negated_literal_fits ty value && negb (literal_fits ty value)
            then neg_value ← lift (min_literal ty); emit_result (IConst neg_value) ty sp
            else general
        | _ => general
        end
  | RUnary Not operand =>
      operand_result ← rec operand;
      emit_result (IUnary Not (air_ref operand_result)) Ty.BOOL sp
  | RUnary BitNot operand =>
      ty ← get_resolved_type inst_ref sp;
      if negb (is_integer ty) && negb (is_error ty) && negb (is_never ty)
      then n ← type_name ty; type_mismatch "integer type" n sp
      else
        operand_result ← rec operand;
        emit_result (IUnary BitNot (air_ref operand_result)) ty sp
  | _ => throw InternalError sp
  end.

Definition analyze_logical_op (inst_ref : InstRef) : M AnalysisResult :=
  inst ← get_rir inst_ref;
  let sp := ri_span inst in
  match ri_data inst with
  | RBin op lhs rhs =>
      match op with
      | And | Or =>
          lhs_result ← rec lhs;
          rhs_result ← rec rhs;
          emit_result (IBin op (air_ref lhs_result) (air_ref rhs_result)) Ty.BOOL sp
      | _ => throw InternalError sp
      end
  | _ => throw InternalError sp
  end.

Definition analyze_binary_arith (lhs rhs : InstRef) (op : BinOp) (sp : Span) : M AnalysisResult :=
  lhs_result ← rec lhs;
  rhs_result ← rec rhs;
  let ty := res_ty lhs_result in
  if negb (is_numeric ty) && negb (is_error ty) && negb (is_never ty)
  then n ← type_name ty; type_mismatch "numeric type" n sp
  else emit_result (IBin op (air_ref lhs_result) (air_ref rhs_result)) ty sp.

(** ** References and slices *)

(** The operand of [&x], [&mut x] and of a range subscript must be a place, of a
    mutable binding for [&mut]. *)
Definition require_lvalue (operand : InstRef) (is_mut : bool) : M Spur :=
  root ← extract_root_variable operand;
  match root with
  | Some v => mret v
  | None => inst ← get_rir operand;
            throw (if is_mut then InoutNonLvalue else BorrowNonLvalue) (ri_span inst)
  end.
Definition require_mutable_root (root_var : Spur) (is_mut : bool) (sp : Span) : M () :=
  c ← get_ctx;
  match locals (cx_scopes c) !! root_var with
  | Some local => if is_mut && negb (lv_is_mut local)
                  then throw (AssignToImmutable (resolve root_var)) sp else mret ()
  | None => mret ()
  end.

Definition analyze_make_ref (inst_ref : InstRef) : M AnalysisResult :=
  inst ← get_rir inst_ref;
  let sp := ri_span inst in
  match ri_data inst with
  | RMakeRef operand is_mut =>
      root_var ← require_lvalue operand is_mut;
      _ ← require_mutable_root root_var is_mut sp;
      operand_result ← rec operand;
      let operand_ty := res_ty operand_result in
      result_ty ← (if is_mut
                   then id ← intern (λ p, intern_mut_ref_from_type p operand_ty); mret (new_mut_ref id)
                   else id ← intern (λ p, intern_ref_from_type p operand_ty); mret (new_ref id));
      emit_result (IMakeRef (air_ref operand_result) is_mut) result_ty sp
  | _ => lift Panic
  end.

Definition analyze_endpoint (e_ref : option InstRef) : M (option AnalysisResult) :=
  match e_ref with
  | None => mret None
  | Some r =>
      result ← rec r;
      let ty := res_ty result in
      if negb (is_integer ty) && negb (is_error ty) && negb (is_never ty)
      then found ← format_name ty; inst ← get_rir r; type_mismatch "usize" found (ri_span inst)
      else mret (Some result)
  end.

Definition analyze_make_slice (inst_ref : InstRef) : M AnalysisResult :=
  inst ← get_rir inst_ref;
  let sp := ri_span inst in
  match ri_data inst with
  | RMakeSlice base lo_opt hi_opt is_mut =>
      root_var ← require_lvalue base is_mut;
      _ ← require_mutable_root root_var is_mut sp;
      base_result ← rec base;
      let base_ty := res_ty base_result in
      k ← lift (kind base_ty);
      '(elem_ty, array_len, base_is_vec) ←
        match k with
        | TypeKind.Array id =>
            '(elem, len) ← query (λ p, array_def p id); mret (elem, len, false)
        | TypeKind.Vec id => elem ← query (λ p, vec_def p id); mret (elem, 0, true)
        | _ => if is_error base_ty || is_never base_ty then mret (Ty.ERROR, 0, false)
               else found ← format_name base_ty; throw (IndexOnNonArray found) sp
        end;
      lo_result ← analyze_endpoint lo_opt;
      hi_result ← analyze_endpoint hi_opt;
      const_lo ← match lo_opt with Some r => const_int_value r | None => mret None end;
      const_hi ← match hi_opt with Some r => const_int_value r | None => mret None end;
      let lo_default := default 0 const_lo in
      let hi_default := match const_hi with
                        | Some v => Some v
                        | None => match lo_opt, hi_opt with
                                  | None, None => Some array_len
                                  | _, _ => None
                                  end
                        end in
      _ ← match hi_default with
          | Some hi_v =>
              if is_error base_ty || base_is_vec then mret ()
              else if (lo_default <? 0) || (hi_v <? 0) || (hi_v <? lo_default)
                   then throw (IndexOutOfBounds (to_i64 lo_default) array_len) sp
                   else if array_len <? wrap 64 hi_v
                        then throw (IndexOutOfBounds (to_i64 hi_v) array_len) sp else mret ()
          | None => mret ()
          end;
      result_ty ← (if is_error base_ty then mret Ty.ERROR
                   else if is_mut
                   then id ← intern (λ p, intern_mut_slice_from_type p elem_ty); mret (new_mut_slice id)
                   else id ← intern (λ p, intern_slice_from_type p elem_ty); mret (new_slice id));
      emit_result (IMakeSlice (air_ref base_result) (air_ref <$> lo_result) (air_ref <$> hi_result) is_mut)
        result_ty sp
  | _ => lift Panic
  end.

(** ** Control flow *)

(** The message of a condition that is no bool also shows the value in [Debug] form,
    which is left out. *)
Definition analyze_comptime_branch (cond then_block : InstRef) (else_block : option InstRef) (sp : Span)
    : M AnalysisResult :=
  prev_steps ← get_steps;
  _ ← put_steps 0;
  c ← get_ctx;
  cond_val ← evaluate_comptime_inst cond (cx_comptime_value_vars c) sp;
  _ ← put_steps prev_steps;
  chosen ← match cond_val with
           | CBool true => mret (Some then_block)
           | CBool false => mret else_block
           | _ => throw (ComptimeEvaluationFailed "`comptime if` condition must evaluate to a bool at compile time") sp
           end;
  match chosen with
  | Some branch =>
      _ ← mod_ctx ctx_push_scope;
      result ← rec branch;
      _ ← mod_ctx ctx_pop_scope;
      mret result
  | None => emit_result IUnitConst Ty.UNIT sp
  end.

(** [ctx.push_scope(); analyze_inst(b); ctx.pop_scope()]. *)
Definition in_scope (b : InstRef) : M AnalysisResult :=
  _ ← mod_ctx ctx_push_scope;
  result ← rec b;
  _ ← mod_ctx ctx_pop_scope;
  mret result.
Definition get_moves : M (gmap Spur (VariableMoveState Spur)) := c ← get_ctx; mret (cx_moved_vars c).

Definition analyze_branch (cond then_block : InstRef) (else_block : option InstRef) (is_comptime : bool)
    (sp : Span) : M AnalysisResult :=
  if is_comptime then analyze_comptime_branch cond then_block else_block sp
  else
    cond_result ← rec cond;
    match else_block with
    | Some else_b =>
        saved_moves ← get_moves;
        then_result ← in_scope then_block;
        let then_type := res_ty then_result in
        then_moves ← get_moves;
        _ ← mod_ctx (set_moved_vars saved_moves);
        else_result ← in_scope else_b;
        else_inst ← get_rir else_b;
        let else_type := res_ty else_result in
        else_moves ← get_moves;
        _ ← mod_ctx (set_moved_vars
              (merge_branch_moves then_moves else_moves (is_never then_type) (is_never else_type)));
        result_type ←
          match is_never then_type, is_never else_type with
          | true, true => mret Ty.NEVER
          | true, false => mret else_type
          | false, true => mret then_type
          | false, false =>
              if negb (bool_decide (then_type = else_type)) && negb (is_error then_type)
                 && negb (is_error else_type)
              then nt ← type_name then_type; ne ← type_name else_type;
                   type_mismatch nt ne (ri_span else_inst)
              else mret then_type
          end;
        emit_result (IBranch (air_ref cond_result) (air_ref then_result) (Some (air_ref else_result)))
          result_type sp
    | None =>
        saved_moves ← get_moves;
        then_result ← in_scope then_block;
        let then_type := res_ty then_result in
        if negb (bool_decide (then_type = Ty.UNIT)) && negb (is_never then_type) && negb (is_error then_type)
        then nt ← type_name then_type; then_inst ← get_rir then_block;
             type_mismatch "()" nt (ri_span then_inst)
        else
          then_moves ← get_moves;
          _ ← mod_ctx (set_moved_vars (if is_never then_type then saved_moves
                                       else merge_branch_moves then_moves saved_moves false false));
          emit_result (IBranch (air_ref cond_result) (air_ref then_result) None) Ty.UNIT sp
    end.

(** The body of a loop: its own scope, one level deeper. *)
Definition analyze_loop_body (body : InstRef) : M AnalysisResult :=
  _ ← mod_ctx ctx_push_scope;
  c ← get_ctx;
  d ← lift (checked_add 32 (cx_loop_depth c) 1);
  _ ← mod_ctx (set_loop_depth d);
  body_result ← rec body;
  c ← get_ctx;
  d ← lift (checked_sub 32 (cx_loop_depth c) 1);
  _ ← mod_ctx (set_loop_depth d);
  _ ← mod_ctx ctx_pop_scope;
  mret body_result.

Definition analyze_while_loop (cond body : InstRef) (sp : Span) : M AnalysisResult :=
  cond_result ← rec cond;
  body_result ← analyze_loop_body body;
  emit_result (ILoop (air_ref cond_result) (air_ref body_result)) Ty.UNIT sp.

Definition analyze_infinite_loop (body : InstRef) (sp : Span) : M AnalysisResult :=
  body_result ← analyze_loop_body body;
  emit_result (IInfiniteLoop (air_ref body_result)) Ty.NEVER sp.

Definition analyze_return (inner : option InstRef) (sp : Span) : M AnalysisResult :=
  inner_air_ref ←
    match inner with
    | Some inner =>
        inner_result ← rec inner;
        let inner_ty := res_ty inner_result in
        c ← get_ctx;
        if is_any_ref inner_ty
        then n ← format_name inner_ty; throw (ReferenceEscapesFunction n) sp
        else if negb (is_error (cx_return_type c)) && negb (is_error inner_ty)
                && negb (can_coerce_to inner_ty (cx_return_type c))
        then e ← type_name (cx_return_type c); f ← type_name inner_ty; type_mismatch e f sp
        else mret (Some (air_ref inner_result))
    | None =>
        c ← get_ctx;
        if negb (bool_decide (cx_return_type c = Ty.UNIT)) && negb (is_error (cx_return_type c))
        then e ← type_name (cx_return_type c); type_mismatch e "()" sp
        else mret None
    end;
  emit_result (IRet inner_air_ref) Ty.NEVER sp.

(** The loop over the instructions of a block: the statements, and the result of
    the last instruction. *)
Fixpoint analyze_stmts (inst_refs : list InstRef) : M (list AirRef * option AnalysisResult) :=
  match inst_refs with
  | [] => mret ([], None)
  | inst_ref :: rest =>
      result ← rec inst_ref;
      match rest with
      | [] => mret ([], Some result)
      | _ => '(statements, last_result) ← analyze_stmts rest;
             mret (air_ref result :: statements, last_result)
      end
  end.

Definition analyze_block (extra_start len : Z) (sp : Span) : M AnalysisResult :=
  inst_refs ← lift (rir_get_extra rir extra_start len);
  _ ← mod_ctx ctx_push_scope;
  '(statements, last_result) ← analyze_stmts inst_refs;
  _ ← check_unconsumed_linear_values;
  _ ← mod_ctx check_unused_locals_in_current_scope;
  _ ← mod_ctx ctx_pop_scope;
  last ← match last_result with
         | Some result => mret result
         | None => emit_result IUnitConst Ty.UNIT sp
         end;
  match statements with
  | [] => mret last
  | _ => stmts_start ← emit_extra statements;
         emit_result (IBlock stmts_start (len_u32 statements) (air_ref last)) (res_ty last) sp
  end.

Definition analyze_control_flow (inst_ref : InstRef) : M AnalysisResult :=
  inst ← get_rir inst_ref;
  let sp := ri_span inst in
  match ri_data inst with
  | RBranch cond then_block else_block is_comptime =>
      analyze_branch cond then_block else_block is_comptime sp
  | RLoop cond body => analyze_while_loop cond body sp
  | RInfiniteLoop body => analyze_infinite_loop body sp
  | RFor _ _ _ _ | RMatch _ _ _ => analyze_other rec inst_ref
  | RBreak =>
      c ← get_ctx;
      if cx_loop_depth c =? 0 then throw BreakOutsideLoop sp
      else match cx_forbid_break c with
           | Some elem_type_name => throw (BreakInConsumingForLoop elem_type_name) sp
           | None => emit_result IBreak Ty.NEVER sp
           end
  | RContinue =>
      c ← get_ctx;
      if cx_loop_depth c =? 0 then throw ContinueOutsideLoop sp
      else emit_result IContinue Ty.NEVER sp
  | RRet inner => analyze_return inner sp
  | RBlock extra_start len => analyze_block extra_start len sp
  | _ => throw InternalError sp
  end.

(** ** Variables *)

Definition try_capture_uninit_init (init : InstRef) : M (option UninitHandle) :=
  init_inst ← get_rir init;
  let sp := ri_span init_inst in
  match ri_data init_inst with
  | RTypeIntrinsic n type_arg =>
      if negb (bool_decide (resolve n = "uninit")) then mret None
      else
        ty ← resolve_type_or_fail type_arg sp;
        match as_struct ty with
        | Some struct_id => mret (Some (MkUninit (TargetStruct struct_id) ∅))
        | None => n ← type_name ty;
                  throw (ComptimeEvaluationFailed ("@uninit(T) requires T to be a struct type, got " +:+ n)) sp
        end
  | RIntrinsic n args_start args_len =>
      if negb (bool_decide (resolve n = "variant_uninit")) then mret None
      else if negb (args_len =? 2)
      then throw (ComptimeEvaluationFailed ("@variant_uninit(T, tag) takes 2 args, got " +:+ pretty args_len)) sp
      else
        arg_refs ← lift (get_inst_refs rir args_start args_len);
        ty_ref ← lift (AirPattern.index arg_refs 0);
        tag_ref ← lift (AirPattern.index arg_refs 1);
        ty ← resolve_intrinsic_type_arg ty_ref;
        match as_enum ty with
        | Some enum_id =>
            variant_idx ← evaluate_variant_tag_arg tag_ref enum_id sp;
            mret (Some (MkUninit (TargetEnumVariant enum_id variant_idx) ∅))
        | None => n ← type_name ty;
                  throw (ComptimeEvaluationFailed ("@variant_uninit(T, _) requires T to be an enum type, got " +:+ n)) sp
        end
  | _ => mret None
  end.

(** The tail of [analyze_alloc]: slots, the binding, [StorageLive] and [Alloc]. *)
Definition alloc_local (n : Spur) (is_mut allow_unused : bool) (init_result : AnalysisResult) (sp : Span)
    : M AnalysisResult :=
  let var_type := res_ty init_result in
  c ← get_ctx;
  let slot := cx_next_slot c in
  num_slots ← query (λ p, sema_abi_slot_count p var_type);
  next ← lift (checked_add 32 slot num_slots);
  _ ← mod_ctx (set_next_slot next);
  _ ← mod_ctx (ctx_insert_local n (MkLocal slot var_type is_mut sp allow_unused));
  storage_live_ref ← emit (IStorageLive slot) var_type sp;
  alloc_ref ← emit (IAlloc slot (air_ref init_result)) Ty.UNIT sp;
  stmts_start ← emit_extra [storage_live_ref];
  emit_result (IBlock stmts_start 1 alloc_ref) Ty.UNIT sp.

Definition analyze_alloc (inst_ref : InstRef) : M AnalysisResult :=
  inst ← get_rir inst_ref;
  let sp := ri_span inst in
  match ri_data inst with
  | RAlloc directives_start directives_len nm is_mut _ init =>
      captured ← match nm with
                 | Some n => h ← try_capture_uninit_init init; mret ((λ h, (n, h)) <$> h)
                 | None => mret None
                 end;
      match captured with
      | Some (n, handle) =>
          _ ← mod_ctx (λ c, set_uninit_handles (<[n := handle]> (cx_uninit_handles c)) c);
          _ ← mod_ctx (ctx_insert_local n (MkLocal (2 ^ 32 - 1) Ty.UNIT is_mut sp false));
          emit_result IUnitConst Ty.UNIT sp
      | None =>
          init_result ← rec init;
          let var_type := res_ty init_result in
          if bool_decide (var_type = Ty.C_VOID)
          then throw (CFfi "`c_void` cannot appear as the type of a `let` binding — it is an incomplete type with no values; wrap it in `Ptr(c_void)` / `MutPtr(c_void)`") sp
          else match nm with
          | None => mret (MkResult (air_ref init_result) Ty.UNIT)
          | Some n =>
              if bool_decide (var_type = Ty.COMPTIME_TYPE) then
                init_inst ← read_air (air_ref init_result);
                match i_data init_inst with
                | ITypeConst ty =>
                    _ ← mod_ctx (λ c, set_comptime_type_vars (<[n := ty]> (cx_comptime_type_vars c)) c);
                    emit_result IUnitConst Ty.UNIT sp
                | _ => throw (ComptimeEvaluationFailed ("cannot store type value in variable '" +:+ resolve n +:+ "' at runtime; type values only exist at compile time")) sp
                end
              else
                directives ← lift (get_directives rir directives_start directives_len);
                alloc_local n is_mut (has_allow_directive directives "unused_variable") init_result sp
          end
      end
  | _ => lift Panic
  end.

(** [Sema::emit_zst_value]. *)
Definition emit_zst_value (ty : Ty) (sp : Span) : M AirRef :=
  k ← lift (kind ty);
  match k with
  | TypeKind.Struct struct_id =>
      fields_start ← emit_extra [];
      source_order_start ← emit_extra [];
      emit (IStructInit struct_id fields_start 0 source_order_start) ty sp
  | _ => emit IUnitConst ty sp
  end.

Definition find_param (c : AnalysisContext) (n : Spur) : option ParamInfo :=
  snd <$> list_find (λ p, pi_name p = n) (cx_params c).

(** The use-after-move check of a variable about to be read, and recording a move. *)
Definition check_not_moved (n : Spur) (sp : Span) : M () :=
  c ← get_ctx;
  match cx_moved_vars c !! n ≫= is_any_part_moved with
  | Some moved_span => throw (UseAfterMove (resolve n) moved_span) sp
  | None => mret ()
  end.
Definition mark_moved (n : Spur) (sp : Span) : M () :=
  mod_ctx (λ c, set_moved_vars
    (<[n := mark_path_moved [] sp (default no_moves (cx_moved_vars c !! n))]> (cx_moved_vars c)) c).

(** The referent of a reference type, and whether it is a [MutRef]. *)
Definition deref_ty (ty : Ty) : M (Ty * option bool) :=
  k ← lift (kind ty);
  match k with
  | TypeKind.Ref id => t ← query (λ p, ref_def p id); mret (t, Some false)
  | TypeKind.MutRef id => t ← query (λ p, mut_ref_def p id); mret (t, Some true)
  | _ => mret (ty, None)
  end.

(** Reading a parameter. *)
Definition read_param (param_info : ParamInfo) (sp : Span) : M AnalysisResult :=
  let n := pi_name param_info in
  '(ty, by_ref_kind) ← deref_ty (pi_ty param_info);
  _ ← check_not_moved n sp;
  copy ← query (λ p, is_type_copy p (match by_ref_kind with Some _ => ty | None => pi_ty param_info end));
  let finish :=
    slots ← query (λ p, sema_abi_slot_count p ty);
    r ← (if slots =? 0 then emit_zst_value ty sp else emit (IParam (pi_abi_slot param_info)) ty sp);
    mret (MkResult r ty) in
  if (copy : bool) then finish
  else if bool_decide (by_ref_kind = Some false) || bool_decide (pi_mode param_info = ParamRef)
  then c ← get_ctx;
       if negb (bool_decide (cx_borrow_arg_skip_move c = Some n))
       then throw (MoveOutOfBorrow (resolve n)) sp
       else emit_result (IParam (pi_abi_slot param_info)) ty sp
  else _ ← mark_moved n sp; finish.

(** Reading a local variable. *)
Definition read_local (n : Spur) (local : LocalVar) (sp : Span) : M AnalysisResult :=
  _ ← check_not_moved n sp;
  copy ← query (λ p, is_type_copy p (lv_ty local));
  _ ← (if (copy : bool) then mret () else mark_moved n sp);
  _ ← mod_ctx (λ c, set_used_locals ({[n]} ∪ cx_used_locals c) c);
  emit_result (ILoad (lv_slot local)) (lv_ty local) sp.

(** Reading a captured compile-time value. *)
Definition read_comptime_value (inst_ref : InstRef) (v : ConstValue) (sp : Span) : M AnalysisResult :=
  match v with
  | CInteger val =>
      resolved ← get_resolved_type inst_ref sp;
      emit_result (IConst (wrap 64 val)) (if is_error resolved then Ty.I32 else resolved) sp
  | CBool val => emit_result (IConst (if val then 1 else 0)) Ty.BOOL sp
  | CType ty => emit_result (ITypeConst ty) Ty.COMPTIME_TYPE sp
  | CComptimeStr _ =>
      throw (ComptimeEvaluationFailed "comptime_str values cannot be used in runtime expressions") sp
  | CUnit => throw (ComptimeEvaluationFailed "comptime unit values cannot be used in runtime expressions") sp
  | CStruct _ | CArray _ | CEnumVariant _ _ | CEnumData _ _ _ | CEnumStruct _ _ _ =>
      throw (ComptimeEvaluationFailed
        "comptime composite values cannot be used in runtime expressions; use @field to access fields") sp
  | CBreakSignal | CContinueSignal | CReturnSignal => lift Panic
  end.

(** Reading a named constant. *)
Definition read_constant (const_info : ConstInfo) (sp : Span) : M AnalysisResult :=
  let ty := ci_ty const_info in
  if is_module ty then emit_result (ITypeConst ty) ty sp
  else
    init_inst ← get_rir (ci_init const_info);
    match ri_data init_inst with
    | RIntConst value => emit_result (IConst value) ty sp
    | RBoolConst value => emit_result (IBoolConst value) Ty.BOOL sp
    | _ => rec (ci_init const_info)
    end.

(** The second lookup in [constants] at the end of the code is never reached: a
    name in [constants] was handled before [resolve_type]. *)
Definition analyze_var_ref (inst_ref : InstRef) (n : Spur) (sp : Span) : M AnalysisResult :=
  c ← get_ctx;
  match find_param c n with
  | Some param_info => read_param param_info sp
  | None =>
  match locals (cx_scopes c) !! n with
  | Some local => read_local n local sp
  | None =>
  match cx_comptime_type_vars c !! n with
  | Some ty => emit_result (ITypeConst ty) Ty.COMPTIME_TYPE sp
  | None =>
  match cx_comptime_value_vars c !! n with
  | Some const_value => read_comptime_value inst_ref const_value sp
  | None =>
  match constants !! n with
  | Some const_info => read_constant const_info sp
  | None =>
      resolved ← try_resolve_type n sp;
      match resolved with
      | Some resolved_type => emit_result (ITypeConst resolved_type) Ty.COMPTIME_TYPE sp
      | None => throw (UndefinedVariable (resolve n)) sp
      end
  end end end end end.

Definition analyze_param_ref (n : Spur) (sp : Span) : M AnalysisResult :=
  c ← get_ctx;
  match find_param c n with
  | None => throw (UndefinedVariable (resolve n)) sp
  | Some param_info =>
      '(ty, _) ← deref_ty (pi_ty param_info);
      emit_result (IParam (pi_abi_slot param_info)) ty sp
  end.

(** Assignment to a parameter: written through a [MutRef], refused otherwise. *)
Definition assign_param (param_info : ParamInfo) (value : InstRef) (sp : Span) : M AnalysisResult :=
  let n := pi_name param_info in
  k ← lift (kind (pi_ty param_info));
  let by_ref_kind := match k with TypeKind.MutRef _ => Some true | TypeKind.Ref _ => Some false | _ => None end in
  if bool_decide (by_ref_kind = Some true) || bool_decide (pi_mode param_info = ParamMutRef) then
    value_result ← rec value;
    _ ← mod_ctx (λ c, set_moved_vars (delete n (cx_moved_vars c)) c);
    emit_result (IParamStore (pi_abi_slot param_info) (air_ref value_result)) Ty.UNIT sp
  else if bool_decide (by_ref_kind = Some false) || bool_decide (pi_mode param_info = ParamRef)
  then throw (MutateBorrowedValue (resolve n)) sp
  else throw (AssignToImmutable (resolve n)) sp.

Definition assign_local (n : Spur) (local : LocalVar) (value : InstRef) (sp : Span) : M AnalysisResult :=
  k ← lift (kind (lv_ty local));
  match k with
  | TypeKind.MutRef referent_id =>
      referent_ty ← query (λ p, mut_ref_def p referent_id);
      value_result ← rec value;
      if negb (bool_decide (res_ty value_result = referent_ty))
         && negb (bool_decide (res_ty value_result = Ty.ERROR))
      then e ← format_name referent_ty; f ← format_name (res_ty value_result); type_mismatch e f sp
      else emit_result (IRefStore (lv_slot local) (air_ref value_result)) Ty.UNIT sp
  | TypeKind.Ref _ => throw (MutateBorrowedValue (resolve n)) sp
  | _ =>
      if negb (lv_is_mut local) then throw (AssignToImmutable (resolve n)) sp
      else
        value_result ← rec value;
        c ← get_ctx;
        let had_live_value := negb (bool_decide (is_Some (cx_moved_vars c !! n))) in
        _ ← mod_ctx (λ c, set_moved_vars (delete n (cx_moved_vars c)) c);
        emit_result (IStore (lv_slot local) (air_ref value_result) had_live_value) Ty.UNIT sp
  end.

Definition analyze_assign (n : Spur) (value : InstRef) (sp : Span) : M AnalysisResult :=
  c ← get_ctx;
  match find_param c n with
  | Some param_info => assign_param param_info value sp
  | None =>
      match locals (cx_scopes c) !! n with
      | None => throw (UndefinedVariable (resolve n)) sp
      | Some local => assign_local n local value sp
      end
  end.

Definition analyze_variable_ops (inst_ref : InstRef) : M AnalysisResult :=
  inst ← get_rir inst_ref;
  let sp := ri_span inst in
  match ri_data inst with
  | RAlloc _ _ _ _ _ _ => analyze_alloc inst_ref
  | RStructDestructure _ _ _ _ => analyze_other rec inst_ref
  | RVarRef n => analyze_var_ref inst_ref n sp
  | RParamRef _ n => analyze_param_ref n sp
  | RAssign n value => analyze_assign n value sp
  | _ => throw InternalError sp
  end.
End Handlers.

(** [Sema::analyze_decl_noop]: declarations are errors in expression position. *)
Definition analyze_decl_noop (inst_ref : InstRef) : M AnalysisResult :=
  inst ← get_rir inst_ref; throw InternalError (ri_span inst).

(** ** [Sema::analyze_inst] *)

Fixpoint analyze_inst (fuel : nat) (inst_ref : InstRef) : M AnalysisResult :=
  match fuel with
  | O => lift NoFuel
  | S fuel =>
    let rec := analyze_inst fuel in
    inst ← get_rir inst_ref;
    match ri_data inst with
    | RIntConst _ | RFloatConst _ | RBoolConst _ | RCharConst _ | RStringConst _ | RUnitConst =>
        analyze_literal inst_ref
    | RBin op lhs rhs =>
        match op with
        | Add | Sub | Mul | Div | Mod | BitAnd | BitOr | BitXor | Shl | Shr =>
            analyze_binary_arith rec lhs rhs op (ri_span inst)
        | Eq | Ne | Lt | Gt | Le | Ge => analyze_other rec inst_ref
        | And | Or => analyze_logical_op rec inst_ref
        end
    | RUnary _ _ => analyze_unary_op rec inst_ref
    | RMakeRef _ _ => analyze_make_ref rec inst_ref
    | RMakeSlice _ _ _ _ => analyze_make_slice rec inst_ref
    | RBareRangeSubscript =>
        throw (ParseError "range subscripts produce slices and must be borrowed with `&` or `&mut`") (ri_span inst)
    | RBranch _ _ _ _ | RLoop _ _ | RFor _ _ _ _ | RInfiniteLoop _ | RMatch _ _ _ | RBreak | RContinue
    | RRet _ | RBlock _ _ => analyze_control_flow rec inst_ref
    | RAlloc _ _ _ _ _ _ | RStructDestructure _ _ _ _ | RVarRef _ | RParamRef _ _ | RAssign _ _ =>
        analyze_variable_ops rec inst_ref
    | RFnDecl _ _ _ _ _ _ _ _ _ _ _ | RConstDecl _ _ _ _ _ _ | RInterfaceDecl _ _ _ _ _ _
    | RInterfaceMethodSig _ _ _ _ _ _ _ _ | RDeriveDecl _ _ _ => analyze_decl_noop inst_ref
    | _ => analyze_other rec inst_ref
    end
  end.

(** ** A function body *)

(** The [ParamInfo]s of [analyze_function_internal]: consecutive ABI slots. *)
Fixpoint layout_params (p : TypeInternPool (Spur := Spur)) (next_abi_slot : Z)
    (params : list (Spur * Ty * RirParamMode)) : outcome (list ParamInfo * Z) :=
  match params with
  | [] => mret ([], next_abi_slot)
  | (pname, ptype, mode) :: params =>
      slots ← (if is_by_ref (from_rir_mode mode) then mret 1 else sema_abi_slot_count p ptype);
      next ← checked_add 32 next_abi_slot slots;
      '(infos, total) ← layout_params p next params;
      mret (MkParam pname next_abi_slot ptype mode :: infos, total)
  end.

(** [analyze_function_internal], from the result of type inference on: [type_vars]
    is [type_subst] with [Self], [value_vars] is [value_subst]. The implicit return
    is left out when the body diverges. *)
Definition init_ctx (params : list ParamInfo) (return_type : Ty) (resolved_types : gmap Z Ty)
    (type_vars : gmap Spur Ty) (value_vars : gmap Spur ConstValue) : AnalysisContext :=
  MkCtx (MkScoped ∅ []) params 0 0 None 0 ∅ return_type resolved_types ∅ [] ∅ [] [] type_vars value_vars
    ∅ ∅ None ∅ ∅.
Definition analyze_function (fuel : nat) (pool : TypeInternPool (Spur := Spur)) (steps : Z) (rest : Rest)
    (return_type : Ty) (params : list (Spur * Ty * RirParamMode)) (body : InstRef)
    (resolved_types : gmap Z Ty) (type_vars : gmap Spur Ty) (value_vars : gmap Spur ConstValue)
    : outcome (CompileError + AnalysisResult * St Spur Rest) :=
  '(infos, _) ← layout_params pool 0 params;
  let s := MkSt (new_air return_type) (init_ctx infos return_type resolved_types type_vars value_vars)
             pool steps rest in
  (body_result ← analyze_inst fuel body;
   inst ← get_rir body;
   _ ← (if bool_decide (res_ty body_result = Ty.NEVER) then mret (air_ref body_result)
        else emit (IRet (Some (air_ref body_result))) return_type (ri_span inst));
   mret body_result) s.
End Sema.
