(* ===== verification/SemaExec.v ===== *)
(** * Moves at run time

    The specification the move check is held to: a path semantics of AIR that
    tracks which variables have been moved out of. Conditions are free: every
    outcome of a condition is a path. Reading a variable of a move type moves it;
    reading it again before it is assigned or declared anew is a fault.

    [lint] is the executable description of the programs the soundness theorem of
    SemaMoves.v covers: literals, operators, blocks, [if]s, jumps, [let]s, reads
    and assignments, without loops, without shadowing, and without an assignment
    inside the second operand of [&&] or [||]. *)

From S2P Require Import Prelude Types AirPattern Air InternPool ParamArena Scope Moves SemaState.
From S2P Require Import Rir Sema.

#[local] Open Scope Z_scope.

(** Moved-out slots of locals, and ABI slots of parameters. *)
Record cstate : Type := MkC { gone : gset Z; pgone : gset Z }.
(** How a path through an instruction ends. *)
Inductive out : Type :=
  | ONorm (σ : cstate) | OBreak (σ : cstate) | OCont (σ : cstate) | ORet | OFault.

Definition is_norm (o : out) : bool := match o with ONorm _ => true | _ => false end.
Definition then_post (post : cstate → out) (o : out) : out :=
  match o with ONorm σ => post σ | _ => o end.

Section Exec.
Context {Spur : Type} `{Countable Spur} `{!SpurKey Spur}.
Notation Air := (Air (Spur := Spur)).
Notation AirInstData := (AirInstData (Spur := Spur)).
Context (pool : TypeInternPool (Spur := Spur)) (a : Air).

(** Values of the type are moved when they are read. [c_void] has no values. *)
Definition moves_ty (ty : Ty) : bool :=
  match kind ty, is_type_copy pool ty with
  | Done TypeKind.CVoid, _ => false
  | _, Done false => true
  | _, _ => false
  end.

Definition read_slot (ty : Ty) (slot : Z) (σ : cstate) : out :=
  if negb (moves_ty ty) then ONorm σ
  else if bool_decide (slot ∈ gone σ) then OFault
  else ONorm (MkC ({[slot]} ∪ gone σ) (pgone σ)).
Definition read_param_slot (ty : Ty) (slot : Z) (σ : cstate) : out :=
  if negb (moves_ty ty) then ONorm σ
  else if bool_decide (slot ∈ pgone σ) then OFault
  else ONorm (MkC (gone σ) ({[slot]} ∪ pgone σ)).
Definition write_slot (slot : Z) (σ : cstate) : out := ONorm (MkC (gone σ ∖ {[slot]}) (pgone σ)).
Definition write_param_slot (slot : Z) (σ : cstate) : out := ONorm (MkC (gone σ) (pgone σ ∖ {[slot]})).

(** Instructions that evaluate their operands in order and then act. *)
Definition straight (d : AirInstData) (ty : Ty) : option (list AirRef * (cstate → out)) :=
  match d with
  | IConst _ | IFloatConst _ | IBoolConst _ | IStringConst _ | IUnitConst | ITypeConst _
  | IStorageLive _ | IStructInit _ _ 0 _ => Some ([], ONorm)
  | IUnary _ x => Some ([x], ONorm)
  | IBin _ l r => Some ([l; r], ONorm)
  | IAlloc slot init => Some ([init], write_slot slot)
  | IStore slot value _ => Some ([value], write_slot slot)
  | IRefStore _ value => Some ([value], ONorm)
  | IParamStore slot value => Some ([value], write_param_slot slot)
  | ILoad slot => Some ([], read_slot ty slot)
  | IParam idx => Some ([], read_param_slot ty idx)
  | IBlock start len value =>
      match get_air_refs a start len with
      | Done stmts => Some (stmts ++ [value], ONorm)
      | _ => None
      end
  | IRet value => Some (option_list value, λ _, ORet)
  | IBreak => Some ([], OBreak)
  | IContinue => Some ([], OCont)
  | _ => None
  end.

Definition at_ref (r : AirRef) (d : AirInstData) (ty : Ty) : Prop :=
  ∃ sp, instructions a !! Z.to_nat r = Some (MkInst d ty sp).

Inductive exec : AirRef → cstate → out → Prop :=
  | exec_straight r d ty refs post σ o :
      at_ref r d ty → straight d ty = Some (refs, post) → execs refs σ o →
      exec r σ (then_post post o)
  | exec_short_circuit r op l rhs ty σ σ1 :
      at_ref r (IBin op l rhs) ty → op = And ∨ op = Or → exec l σ (ONorm σ1) → exec r σ (ONorm σ1)
  | exec_branch_cond r c t e ty σ o :
      at_ref r (IBranch c t e) ty → exec c σ o → is_norm o = false → exec r σ o
  | exec_branch_then r c t e ty σ σ1 o :
      at_ref r (IBranch c t e) ty → exec c σ (ONorm σ1) → exec t σ1 o → exec r σ o
  | exec_branch_else r c t e ty σ σ1 o :
      at_ref r (IBranch c t (Some e)) ty → exec c σ (ONorm σ1) → exec e σ1 o → exec r σ o
  | exec_branch_skip r c t ty σ σ1 :
      at_ref r (IBranch c t None) ty → exec c σ (ONorm σ1) → exec r σ (ONorm σ1)
  | exec_loop_cond r c b ty σ o :
      at_ref r (ILoop c b) ty → exec c σ o → is_norm o = false → exec r σ o
  | exec_loop_exit r c b ty σ σ1 :
      at_ref r (ILoop c b) ty → exec c σ (ONorm σ1) → exec r σ (ONorm σ1)
  | exec_loop_again r c b ty σ σ1 σ2 o o' :
      at_ref r (ILoop c b) ty → exec c σ (ONorm σ1) → exec b σ1 o →
      o = ONorm σ2 ∨ o = OCont σ2 → exec r σ2 o' → exec r σ o'
  | exec_loop_break r c b ty σ σ1 σ2 :
      at_ref r (ILoop c b) ty → exec c σ (ONorm σ1) → exec b σ1 (OBreak σ2) → exec r σ (ONorm σ2)
  | exec_loop_abort r c b ty σ σ1 o :
      at_ref r (ILoop c b) ty → exec c σ (ONorm σ1) → exec b σ1 o →
      o = ORet ∨ o = OFault → exec r σ o
  | exec_forever_again r b ty σ σ2 o o' :
      at_ref r (IInfiniteLoop b) ty → exec b σ o →
      o = ONorm σ2 ∨ o = OCont σ2 → exec r σ2 o' → exec r σ o'
  | exec_forever_break r b ty σ σ2 :
      at_ref r (IInfiniteLoop b) ty → exec b σ (OBreak σ2) → exec r σ (ONorm σ2)
  | exec_forever_abort r b ty σ o :
      at_ref r (IInfiniteLoop b) ty → exec b σ o → o = ORet ∨ o = OFault → exec r σ o
with execs : list AirRef → cstate → out → Prop :=
  | execs_nil σ : execs [] σ (ONorm σ)
  | execs_stop r rs σ o : exec r σ o → is_norm o = false → execs (r :: rs) σ o
  | execs_go r rs σ σ1 o : exec r σ (ONorm σ1) → execs rs σ1 o → execs (r :: rs) σ o.

(** ** Reading a path backwards *)

Lemma at_ref_inj r d ty d' ty' : at_ref r d ty → at_ref r d' ty' → d = d' ∧ ty = ty'.
Proof. intros [sp Hr] [sp' Hr']. rewrite Hr in Hr'. by simplify_eq. Qed.

Ltac at_ref_eq := repeat match goal with
  | H1 : at_ref ?r _ _, H2 : at_ref ?r _ _ |- _ =>
      destruct (at_ref_inj _ _ _ _ _ H1 H2); clear H2; simplify_eq
  end.

Lemma exec_straight_inv r d ty refs post σ o :
  at_ref r d ty → straight d ty = Some (refs, post) → exec r σ o →
  (∃ o', execs refs σ o' ∧ o = then_post post o') ∨
  (∃ op l rhs σ1, d = IBin op l rhs ∧ (op = And ∨ op = Or) ∧ exec l σ (ONorm σ1) ∧ o = ONorm σ1).
Proof. intros Hr Hs He. inversion He; at_ref_eq; try done; [left; by eauto|right; by eauto 10]. Qed.

Lemma exec_branch_inv r c t e ty σ o :
  at_ref r (IBranch c t e) ty → exec r σ o →
  (exec c σ o ∧ is_norm o = false) ∨
  (∃ σ1, exec c σ (ONorm σ1) ∧
     (exec t σ1 o ∨ (∃ e', e = Some e' ∧ exec e' σ1 o) ∨ (e = None ∧ o = ONorm σ1))).
Proof.
  intros Hr He. inversion He; at_ref_eq; try done; [by left|right..]; eexists; split; eauto.
Qed.

Lemma execs_cons_inv r rs σ o :
  execs (r :: rs) σ o →
  (exec r σ o ∧ is_norm o = false) ∨ (∃ σ1, exec r σ (ONorm σ1) ∧ execs rs σ1 o).
Proof. inversion 1; simplify_eq; eauto. Qed.
Lemma execs_nil_inv σ o : execs [] σ o → o = ONorm σ.
Proof. by inversion 1. Qed.

(** ** Running a chosen path

    [ch] lists the outcomes of the conditions in the order they are met: whether
    a branch is taken, a loop goes round again, a second operand is evaluated. *)
Definition run_list (run : list bool → AirRef → cstate → option (out * list bool)) :=
  fix go (ch : list bool) (refs : list AirRef) (σ : cstate) {struct refs} : option (out * list bool) :=
  match refs with
  | [] => Some (ONorm σ, ch)
  | r :: refs => '(o, ch) ← run ch r σ;
                 match o with ONorm σ1 => go ch refs σ1 | _ => Some (o, ch) end
  end.
Definition is_logical (op : BinOp) : bool := match op with And | Or => true | _ => false end.
Definition choose (ch : list bool) : option (bool * list bool) :=
  match ch with [] => None | b :: ch => Some (b, ch) end.

Fixpoint run (fuel : nat) (ch : list bool) (r : AirRef) (σ : cstate) : option (out * list bool) :=
  match fuel with
  | O => None
  | S fuel =>
    inst ← instructions a !! Z.to_nat r;
    let straight_run := '(refs, post) ← straight (i_data inst) (i_ty inst);
                        '(o, ch) ← run_list (run fuel) ch refs σ; Some (then_post post o, ch) in
    match i_data inst with
    | IBranch c t e =>
        '(o, ch) ← run fuel ch c σ;
        match o with
        | ONorm σ1 =>
            '(taken, ch) ← choose ch;
            if (taken : bool) then run fuel ch t σ1
            else match e with Some e => run fuel ch e σ1 | None => Some (ONorm σ1, ch) end
        | _ => Some (o, ch)
        end
    | ILoop c b =>
        '(o, ch) ← run fuel ch c σ;
        match o with
        | ONorm σ1 =>
            '(again, ch) ← choose ch;
            if (again : bool) then
              '(o, ch) ← run fuel ch b σ1;
              match o with
              | ONorm σ2 | OCont σ2 => run fuel ch r σ2
              | OBreak σ2 => Some (ONorm σ2, ch)
              | _ => Some (o, ch)
              end
            else Some (ONorm σ1, ch)
        | _ => Some (o, ch)
        end
    | IBin op l _ =>
        if is_logical op then
          '(both, ch) ← choose ch;
          if (both : bool) then
            '(refs, post) ← straight (i_data inst) (i_ty inst);
            '(o, ch) ← run_list (run fuel) ch refs σ; Some (then_post post o, ch)
          else '(o, ch) ← run fuel ch l σ;
               match o with ONorm σ1 => Some (ONorm σ1, ch) | _ => None end
        else straight_run
    | _ => straight_run
    end
  end.

Lemma run_list_sound rn ch refs σ o ch' :
  (∀ ch r σ o ch', rn ch r σ = Some (o, ch') → exec r σ o) →
  run_list rn ch refs σ = Some (o, ch') → execs refs σ o.
Proof.
  intros Hrn. revert ch σ. induction refs as [|r refs IH]; intros ch σ; cbn.
  { intros [= <- <-]. constructor. }
  intros ([o1 ch1] & H1%Hrn & H2)%bind_Some. destruct o1; simplify_eq;
    try (by apply execs_stop). eapply execs_go; [done|by eapply IH].
Qed.

(** A path that runs is a path. *)
Lemma run_sound fuel ch r σ o ch' : run fuel ch r σ = Some (o, ch') → exec r σ o.
Proof.
  revert ch r σ o ch'. induction fuel as [|fuel IH]; intros ch r σ o ch'; [done|].
  cbn [run]. intros ([d ty sp] & Hr & Hrun)%bind_Some. cbn [i_data i_ty] in Hrun.
  assert (Hat : at_ref r d ty) by (by exists sp).
  assert (Hstr : ∀ ch, ('(refs, post) ← straight d ty; '(o, ch) ← run_list (run fuel) ch refs σ;
      Some (then_post post o, ch)) = Some (o, ch') → exec r σ o).
  { intros ch0 ([refs post] & Hst & ([o1 ch1] & H1 & [= <- <-])%bind_Some)%bind_Some.
    eapply exec_straight; [done|done|]. eapply run_list_sound; [apply IH|done]. }
  destruct d; try exact (Hstr _ Hrun).
  - destruct (is_logical op) eqn:Hop; [|exact (Hstr _ Hrun)].
    apply bind_Some in Hrun as ([[] ch1] & _ & Hrun); [exact (Hstr _ Hrun)|].
    apply bind_Some in Hrun as ([o1 ch2] & H1%IH & Hrun). destruct o1; simplify_eq.
    eapply exec_short_circuit; [done| |done]. destruct op; by auto.
  - apply bind_Some in Hrun as ([o1 ch1] & H1%IH & Hrun).
    destruct o1; simplify_eq; try (by eapply exec_branch_cond).
    apply bind_Some in Hrun as ([[] ch2] & _ & Hrun); [by eapply exec_branch_then; eauto|].
    destruct else_value; simplify_eq; [by eapply exec_branch_else; eauto|by eapply exec_branch_skip].
  - apply bind_Some in Hrun as ([o1 ch1] & H1%IH & Hrun).
    destruct o1; simplify_eq; try (by eapply exec_loop_cond).
    apply bind_Some in Hrun as ([[] ch2] & _ & Hrun); [|simplify_eq; by eapply exec_loop_exit].
    apply bind_Some in Hrun as ([o2 ch3] & H2%IH & Hrun).
    destruct o2; simplify_eq; [eapply exec_loop_again; eauto|by eapply exec_loop_break
      |eapply exec_loop_again; eauto|by eapply exec_loop_abort; eauto|by eapply exec_loop_abort; eauto].
Qed.
End Exec.

(** ** Programs within the covered subset *)
Section Lint.
Context {Spur : Type} `{Countable Spur} `{!SpurKey Spur}.
Context (rir : Rir Spur) (resolved : gmap Z Ty).

Definition rir_data (i : InstRef) : option (InstData Spur) :=
  match rir_get rir i with Done inst => Some (ri_data inst) | _ => None end.
Definition rir_block (start len : Z) : option (list InstRef) :=
  match rir_get_extra rir start len with Done refs => Some refs | _ => None end.

(** No assignment anywhere below the instruction. *)
Fixpoint assign_free (fuel : nat) (i : InstRef) : bool :=
  match fuel with
  | O => false
  | S fuel =>
    match rir_data i with
    | Some d =>
        match d with
        | RIntConst _ | RFloatConst _ | RBoolConst _ | RCharConst _ | RStringConst _ | RUnitConst
        | RVarRef _ | RBreak | RContinue | RRet None => true
        | RBin _ l r => assign_free fuel l && assign_free fuel r
        | RUnary _ x | RRet (Some x) | RAlloc _ _ _ _ _ x => assign_free fuel x
        | RBranch c t e _ => assign_free fuel c && assign_free fuel t
                             && match e with Some e => assign_free fuel e | None => true end
        | RBlock start len => match rir_block start len with
                              | Some refs => forallb (assign_free fuel) refs
                              | None => false
                              end
        | _ => false
        end
    | None => false
    end
  end.

(** The names bound after the instruction, given those bound before it; [None] when
    the instruction is outside the subset. *)
Fixpoint lint (fuel : nat) (bound : gset Spur) (i : InstRef) : option (gset Spur) :=
  match fuel with
  | O => None
  | S fuel =>
    if bool_decide (resolved !! i = Some Ty.NEVER) then None
    else d ← rir_data i;
    match d with
    | RIntConst _ | RFloatConst _ | RBoolConst _ | RCharConst _ | RStringConst _ | RUnitConst
    | RBreak | RContinue | RRet None => Some bound
    | RUnary _ x | RRet (Some x) => lint fuel bound x
    | RBin op l r =>
        match op with
        | Eq | Ne | Lt | Gt | Le | Ge => None
        | And | Or =>
            b ← lint fuel bound l;
            b' ← lint fuel b r;
            if bool_decide (b' = b) && assign_free fuel r then Some b else None
        | _ => b ← lint fuel bound l; lint fuel b r
        end
    | RBranch c t e false =>
        b ← lint fuel bound c;
        _ ← lint fuel b t;
        match e with
        | Some e => _ ← lint fuel b e; Some b
        | None => Some b
        end
    | RBlock start len =>
        refs ← rir_block start len;
        _ ← foldl (λ b r, b' ← b; lint fuel b' r) (Some bound) refs;
        Some bound
    | RAlloc _ _ nm _ _ init =>
        b ← lint fuel bound init;
        match nm with
        | None => Some b
        | Some x => if bool_decide (x ∈ b) then None else Some ({[x]} ∪ b)
        end
    | RVarRef x => if bool_decide (x ∈ bound) then Some bound else None
    | RAssign x value => if bool_decide (x ∈ bound) then lint fuel bound value else None
    | _ => None
    end
  end.
End Lint.
