(* ===== verification/SemaMoves.v ===== *)
(** * The move check is sound

    Every function that [lint] admits and the analysis accepts never reads a
    moved variable, on any path ([accepted_code_never_uses_moved], in SemaSpec.v).
    This file holds the proof: what analysis keeps ([frame]), the relation [ok]
    between the recorded moves and the moves of a path, and one lemma per handler
    over the induction hypothesis for the instructions it recurses into. *)

From S2P Require Import Prelude Types AirPattern Air InternPool ParamArena Scope Moves SemaState.
From S2P Require Import Rir Sema SemaExec.

#[local] Open Scope Z_scope.

Section Monad.
Context {Spur : Type} `{Countable Spur} `{!SpurKey Spur} {Rest : Type}.
Notation M := (M Spur Rest).
Notation St := (St Spur Rest).

Lemma bindM_inr {A B} (m : M A) (f : A → M B) s r :
  (m ≫= f) s = Done (inr r) ↔ ∃ x s1, m s = Done (inr (x, s1)) ∧ f x s1 = Done (inr r).
Proof.
  unfold mbind at 1, M_bind. destruct (m s) as [[e|[x s1]]| |] eqn:?; cbn; split;
    try (by intros (? & ? & ? & ?)); try done; [by eauto|by intros (? & ? & ? & ?); simplify_eq].
Qed.
Lemma lift_inr {A} (m : outcome A) s x s' :
  lift (Rest := Rest) (Spur := Spur) m s = Done (inr (x, s')) ↔ m = Done x ∧ s' = s.
Proof. unfold lift. destruct m; cbn; naive_solver. Qed.
Lemma query_inr {A} (f : TypeInternPool (Spur := Spur) → outcome A) s x s' :
  query (Rest := Rest) f s = Done (inr (x, s')) ↔ f (st_pool s) = Done x ∧ s' = s.
Proof. unfold query. destruct (f (st_pool s)); cbn; naive_solver. Qed.
Lemma ret_inr {A} (x y : A) (s s' : St) : mret (M := M) x s = Done (inr (y, s')) ↔ y = x ∧ s' = s.
Proof. unfold mret, M_ret. naive_solver. Qed.
Lemma throw_inr {A} k sp s (r : A * St) : throw k sp s = Done (inr r) ↔ False.
Proof. unfold throw. naive_solver. Qed.
Lemma get_ctx_inr s c (s' : St) : get_ctx s = Done (inr (c, s')) ↔ c = st_ctx s ∧ s' = s.
Proof. unfold get_ctx. naive_solver. Qed.
Lemma emit_result_inr d ty sp s res (s' : St) :
  emit_result d ty sp s = Done (inr (res, s')) ↔
    ∃ r, emit d ty sp s = Done (inr (r, s')) ∧ res = MkResult r ty.
Proof.
  unfold emit_result. rewrite bindM_inr. split.
  - intros (r & s1 & He & [-> ->]%ret_inr). by eauto.
  - intros (r & He & ->). exists r, s'. by rewrite ret_inr.
Qed.
End Monad.

(** Opens a successful run of a handler. *)
Ltac inv_M := repeat match goal with
  | H : (_ ≫= _) _ = Done (inr _) |- _ => apply bindM_inr in H as (? & ? & ? & H)
  | H : lift _ _ = Done (inr (_, _)) |- _ => apply lift_inr in H as [? ->]
  | H : query _ _ = Done (inr (_, _)) |- _ => apply query_inr in H as [? ->]
  | H : mret _ _ = Done (inr (_, _)) |- _ => apply ret_inr in H as [-> ->]
  | H : throw _ _ _ = Done (inr _) |- _ => apply throw_inr in H as []
  | H : type_mismatch _ _ _ _ = Done (inr _) |- _ => unfold type_mismatch in H
  | H : get_ctx _ = Done (inr (_, _)) |- _ => apply get_ctx_inr in H as [-> ->]
  | H : mod_ctx _ _ = Done (inr (_, _)) |- _ => injection H as <- <-
  | H : get_moves _ = Done (inr (_, _)) |- _ => unfold get_moves in H
  | H : get_rir _ _ _ = Done (inr (_, _)) |- _ => apply lift_inr in H as [? ->]
  | H : get_resolved_type _ _ _ = Done (inr (_, _)) |- _ => unfold get_resolved_type in H
  | H : type_name _ _ = Done (inr (_, _)) |- _ => apply lift_inr in H as [? ->]
  | H : emit_result _ _ _ _ = Done (inr (_, _)) |- _ => apply emit_result_inr in H as (? & H & ->)
  end.

Ltac name_emit He := match goal with E : emit _ _ _ _ = Done _ |- _ => rename E into He end.

(** ** Scopes without shadowing *)
Section Scopes.
Context {Spur : Type} `{Countable Spur} {V : Type}.
Notation ScopedContext := (ScopedContext (Spur := Spur) (V := V)).

Definition insert_all (news : list (Spur * V)) (sc : ScopedContext) : ScopedContext :=
  foldl (λ sc e, insert_local e.1 e.2 sc) sc news.

Lemma insert_local_locals x v (sc : ScopedContext) :
  locals (insert_local x v sc) = <[x := v]> (locals sc).
Proof. unfold insert_local. by destruct (scope_stack sc). Qed.

Lemma insert_all_snoc news e sc :
  insert_all (news ++ [e]) sc = insert_local e.1 e.2 (insert_all news sc).
Proof. unfold insert_all. by rewrite foldl_snoc. Qed.
Lemma insert_all_app news1 news2 sc :
  insert_all (news1 ++ news2) sc = insert_all news2 (insert_all news1 sc).
Proof. unfold insert_all. by rewrite foldl_app. Qed.

Lemma insert_all_lookup_old news sc x :
  x ∉ news.*1 → locals (insert_all news sc) !! x = locals sc !! x.
Proof.
  induction news as [|[y v] news IH] using rev_ind; [done|].
  rewrite fmap_app, elem_of_app, insert_all_snoc, insert_local_locals. cbn.
  rewrite list_elem_of_singleton. intros ?. rewrite lookup_insert_ne by naive_solver.
  apply IH. naive_solver.
Qed.
Lemma insert_all_lookup_new news sc x :
  x ∈ news.*1 → is_Some (locals (insert_all news sc) !! x).
Proof.
  induction news as [|[y v] news IH] using rev_ind; [by intros ?%elem_of_nil|].
  rewrite fmap_app, elem_of_app, insert_all_snoc, insert_local_locals. cbn.
  rewrite list_elem_of_singleton. intros ?. destruct (decide (x = y)) as [->|].
  - rewrite lookup_insert_eq. by eauto.
  - rewrite lookup_insert_ne by done. naive_solver.
Qed.

Lemma insert_all_stack news sc top rest :
  scope_stack sc = top :: rest → NoDup news.*1 → (∀ x, x ∈ news.*1 → locals sc !! x = None) →
  scope_stack (insert_all news sc) = (top ++ map (λ e, (e.1, None)) news) :: rest.
Proof.
  intros Hs. induction news as [|[y v] news IH] using rev_ind.
  { intros _ _. cbn. by rewrite app_nil_r. }
  rewrite fmap_app, list.NoDup_app. intros (Hnd & Hdis & _) Hnone.
  rewrite insert_all_snoc. unfold insert_local.
  rewrite IH; [|done|intros x ?; apply Hnone; rewrite elem_of_app; by left].
  cbn. rewrite insert_all_lookup_old, Hnone, map_app, app_assoc; [done| |].
  - rewrite elem_of_app. right. by left.
  - intros Hy. apply (Hdis y Hy). by left.
Qed.

(** Leaving a scope forgets what was bound in it. *)
Lemma pop_insert_all news (sc : ScopedContext) :
  NoDup news.*1 → (∀ x, x ∈ news.*1 → locals sc !! x = None) →
  pop_scope (insert_all news (push_scope sc)) = sc.
Proof.
  intros Hnd Hnone. unfold pop_scope.
  rewrite (insert_all_stack news (push_scope sc) [] (scope_stack sc)) by done.
  destruct sc as [m st]. cbn in *. f_equal. apply map_eq. intros x.
  assert (∀ m' : gmap Spur V, foldl restore m' (map (λ e, (e.1, None)) news) !! x =
            if decide (x ∈ news.*1) then None else m' !! x) as ->.
  { clear. induction news as [|[y v] news IH] using rev_ind; intros m'; [done|].
    rewrite map_app, foldl_app. cbn. unfold restore at 1. cbn. rewrite fmap_app. cbn.
    destruct (decide (x = y)) as [->|Hne].
    - rewrite lookup_delete_eq, decide_True; [done|]. rewrite elem_of_app. right. by left.
    - rewrite lookup_delete_ne, IH by done.
      apply decide_ext. rewrite elem_of_app, list_elem_of_singleton. naive_solver. }
  case_decide as Hx; [by rewrite Hnone|]. by rewrite insert_all_lookup_old.
Qed.
End Scopes.

(** ** What analysis keeps, and the recorded moves *)
Section Frame.
Context {Spur : Type} `{Countable Spur} `{!SpurKey Spur} {Rest : Type}.
Notation St := (St Spur Rest).
Notation Air := (Air (Spur := Spur)).
Implicit Types s : St.

Definition scopes s := cx_scopes (st_ctx s).
Definition vars s := locals (scopes s).
Definition tvars s := cx_comptime_type_vars (st_ctx s).
Definition next s := cx_next_slot (st_ctx s).

(** Some part of the variable is recorded as moved. *)
Definition any_moved (m : gmap Spur (VariableMoveState Spur)) (x : Spur) : Prop :=
  ∃ ms sp, m !! x = Some ms ∧ is_any_part_moved ms = Some sp.
Definition mv s (x : Spur) : Prop := any_moved (cx_moved_vars (st_ctx s)) x.

(** [s'] continues [s] without touching variables. *)
Record core s s' : Prop := {
  co_instrs : instructions (st_air s) `prefix_of` instructions (st_air s');
  co_extra : extra (st_air s) `prefix_of` extra (st_air s');
  co_pool : st_pool s' = st_pool s;
  co_params : cx_params (st_ctx s') = cx_params (st_ctx s);
  co_resolved : cx_resolved_types (st_ctx s') = cx_resolved_types (st_ctx s);
  co_next : next s ≤ next s';
  co_tvars : ∀ x, is_Some (tvars s !! x) → is_Some (tvars s' !! x);
}.
#[export] Instance core_preorder : PreOrder core.
Proof.
  split; [intros s; split; done|]. intros s1 s2 s3 [] []. split; try congruence; try by etransitivity.
  by auto.
Qed.

(** The names bound by an instruction: fresh ones, in the current scope. *)
Record binds (bound bound' : gset Spur) s s' (news : list (Spur * LocalVar)) : Prop := {
  bi_scopes : scopes s' = insert_all news (scopes s);
  bi_nodup : NoDup news.*1;
  bi_fresh x : x ∈ news.*1 → x ∉ bound ∧ x ∈ bound';
  bi_cover x : x ∈ bound' → x ∈ bound ∨ x ∈ news.*1 ∨ is_Some (tvars s' !! x);
  bi_sub : bound ⊆ bound';
}.
Definition frame (bound bound' : gset Spur) s s' : Prop := core s s' ∧ ∃ news, binds bound bound' s s' news.

Lemma frame_core bound s s' : core s s' → scopes s' = scopes s → frame bound bound s s'.
Proof.
  intros Hc Hs. split; [done|]. exists []. split; [by rewrite Hs|constructor| |by auto|done].
  by intros x ?%elem_of_nil.
Qed.

Lemma frame_trans b1 b2 b3 s1 s2 s3 : frame b1 b2 s1 s2 → frame b2 b3 s2 s3 → frame b1 b3 s1 s3.
Proof.
  intros (Hc1 & n1 & B1) (Hc2 & n2 & B2). split; [by etransitivity|]. exists (n1 ++ n2).
  destruct B1 as [S1 N1 F1 C1 U1], B2 as [S2 N2 F2 C2 U2]. split.
  - by rewrite insert_all_app, <-S1.
  - rewrite fmap_app, list.NoDup_app. split_and!; [done| |done]. intros x ?%F1 ?%F2. naive_solver.
  - intros x. rewrite fmap_app, elem_of_app. intros [[]%F1|[]%F2]; set_solver.
  - intros x Hx. rewrite fmap_app, elem_of_app. destruct (C2 x Hx) as [[|[]]%C1|[]]; auto.
    right; right. by apply (co_tvars _ _ Hc2).
  - by etransitivity.
Qed.

(** An instruction analysed in a scope of its own binds nothing outside it. *)
Lemma frame_scope bound b' s s1 s2 s3 :
  scopes s1 = push_scope (scopes s) → core s s1 →
  frame bound b' s1 s2 → core s2 s3 → scopes s3 = pop_scope (scopes s2) →
  (∀ x, is_Some (vars s !! x) → x ∈ bound) →
  frame bound bound s s3 ∧ (∀ x lv, vars s !! x = Some lv → vars s2 !! x = Some lv).
Proof.
  intros Hs1 Hc1 (Hc2 & news & [S N F _ _]) Hc3 Hs3 Hdom. split.
  - apply frame_core; [by do 2 (etransitivity; [done|])|].
    rewrite Hs3, S, Hs1. apply pop_insert_all; [done|]. intros x [Hx _]%F.
    destruct (locals (scopes s) !! x) eqn:E; [|done]. destruct Hx. apply Hdom. unfold vars. by rewrite E.
  - intros x lv Hx. unfold vars. rewrite S, insert_all_lookup_old.
    + by rewrite Hs1.
    + intros [Hn _]%F. apply Hn, Hdom. by eauto.
Qed.

Lemma any_part_merge m1 m2 sp :
  is_any_part_moved (Spur := Spur) m1 = Some sp ∨ is_any_part_moved m2 = Some sp →
  ∃ sp', is_any_part_moved (merge_union m1 m2) = Some sp' ∧ keep_nonempty (merge_union m1 m2) = Some (merge_union m1 m2).
Proof.
  intros Hm. unfold is_any_part_moved, keep_nonempty, moves_is_empty, merge_union in *. cbn.
  destruct (full_move m1) as [f1|], (full_move m2) as [f2|]; cbn in *; try by eauto.
  destruct (map_to_list (partial_moves m1 ∪ partial_moves m2)) as [|[q w] l] eqn:Hl.
  - exfalso. apply map_to_list_empty_iff in Hl.
    assert (∀ k, partial_moves m1 !! k = None ∧ partial_moves m2 !! k = None) as Hk.
    { intros k. apply lookup_union_None. by rewrite Hl, lookup_empty. }
    assert (partial_moves m1 = ∅) as E1 by (apply map_empty; intros k; apply Hk).
    assert (partial_moves m2 = ∅) as E2 by (apply map_empty; intros k; apply Hk).
    rewrite E1, E2, map_to_list_empty in Hm. naive_solver.
  - cbn. exists w. split; [done|]. rewrite bool_decide_false; [done|].
    intros E. by rewrite E, map_to_list_empty in Hl.
Qed.

Lemma any_part_kept m sp :
  is_any_part_moved (Spur := Spur) m = Some sp → keep_nonempty m = Some m.
Proof.
  unfold is_any_part_moved, keep_nonempty, moves_is_empty. destruct (full_move m); [done|]. cbn.
  intros Hm. rewrite bool_decide_false; [done|]. intros E. by rewrite E, map_to_list_empty in Hm.
Qed.

Lemma merge_any_moved tm em td ed x :
  (td = false ∧ any_moved tm x) ∨ (ed = false ∧ any_moved em x) →
  any_moved (merge_branch_moves tm em td ed) x.
Proof.
  unfold merge_branch_moves. destruct td, ed; try naive_solver. intros Hx.
  assert (any_moved tm x ∨ any_moved em x) as Hx' by naive_solver. clear Hx.
  unfold any_moved. rewrite lookup_merge. unfold any_moved in Hx'.
  destruct (tm !! x) as [t|] eqn:Ht, (em !! x) as [e|] eqn:He; cbn.
  - destruct Hx' as [(ms & sp & ? & Hm)|(ms & sp & ? & Hm)]; simplify_eq;
      match goal with |- ∃ _ _, keep_nonempty (merge_union ?m1 ?m2) = _ ∧ _ =>
        destruct (any_part_merge m1 m2 sp) as (sp' & ? & ->); by eauto end.
  - destruct Hx' as [(ms & sp & ? & Hm)|(ms & sp & ? & Hm)]; simplify_eq.
    rewrite (any_part_kept _ _ Hm). by eauto.
  - destruct Hx' as [(ms & sp & ? & Hm)|(ms & sp & ? & Hm)]; simplify_eq.
    rewrite (any_part_kept _ _ Hm). by eauto.
  - naive_solver.
Qed.
End Frame.

(** ** The invariant of a path *)
Section Ok.
Context {Spur : Type} `{Countable Spur} `{!SpurKey Spur} {Rest : Type}.
Notation St := (St Spur Rest).
Notation Air := (Air (Spur := Spur)).
Implicit Types s : St.
Context (pool : TypeInternPool (Spur := Spur)) (resolved : gmap Z Ty) (params : list (ParamInfo Spur)).

(** The context belongs to the function at hand, and [bound] lists its names. *)
Record covered s (bound : gset Spur) : Prop := {
  cv_pool : st_pool s = pool;
  cv_params : cx_params (st_ctx s) = params;
  cv_resolved : cx_resolved_types (st_ctx s) = resolved;
  cv_local x : is_Some (vars s !! x) → x ∈ bound;
  cv_param p : p ∈ params → pi_name p ∈ bound;
  cv_bound x : x ∈ bound → (∃ p, p ∈ params ∧ pi_name p = x) ∨ is_Some (vars s !! x) ∨ is_Some (tvars s !! x);
}.

(** Along a path, what has been moved is recorded as moved. *)
Record ok s (σ : cstate) : Prop := {
  ok_local x lv : vars s !! x = Some lv → lv_ty lv ≠ Ty.NEVER;
  ok_slot x lv : vars s !! x = Some lv → moves_ty pool (lv_ty lv) = true → lv_slot lv < next s;
  ok_gone x lv : vars s !! x = Some lv → moves_ty pool (lv_ty lv) = true → lv_slot lv ∈ gone σ → mv s x;
  ok_distinct x y lx ly : vars s !! x = Some lx → vars s !! y = Some ly →
    moves_ty pool (lv_ty lx) = true → moves_ty pool (lv_ty ly) = true → lv_slot lx = lv_slot ly → x = y;
  ok_param p : p ∈ params → moves_ty pool (pi_ty p) = true → pi_abi_slot p ∈ pgone σ → mv s (pi_name p);
}.

Definition fits (a : Air) s : Prop :=
  instructions (st_air s) `prefix_of` instructions a ∧ extra (st_air s) `prefix_of` extra a ∧
  Z.of_nat (length (instructions a)) < 2 ^ 32 ∧ Z.of_nat (length (extra a)) < 2 ^ 32.

(** How a path may end: no fault; past the instruction only when its type is
    inhabited, and then with the moves of the new state. *)
Definition post (ty : Ty) s (o : out) : Prop :=
  match o with
  | OFault => False
  | ONorm σ => ty ≠ Ty.NEVER ∧ ok s σ
  | _ => True
  end.
Definition sound s (res : AnalysisResult) s' : Prop :=
  ∀ a σ o, fits a s' → ok s σ → exec pool a (air_ref res) σ o → post (res_ty res) s' o.

Lemma fits_core a s s' : core s s' → fits a s' → fits a s.
Proof. intros [] (? & ? & ? & ?). split_and!; [by etransitivity..|done|done]. Qed.
Lemma fits_frame a b b' s s' : frame b b' s s' → fits a s' → fits a s.
Proof. intros [Hc _]. by apply fits_core. Qed.

(** Fewer variables, more slots used, more moves recorded. *)
Lemma ok_weaken s s' σ :
  (∀ x lv, vars s' !! x = Some lv → vars s !! x = Some lv) → next s ≤ next s' →
  (∀ x, is_Some (vars s' !! x) ∨ (∃ p, p ∈ params ∧ pi_name p = x) → mv s x → mv s' x) →
  ok s σ → ok s' σ.
Proof.
  intros Hv Hn Hm [L S G D P]. split.
  - eauto.
  - intros x lv Hx Ht. specialize (S x lv (Hv _ _ Hx) Ht). lia.
  - intros x lv Hx Ht Hg. apply Hm; [by eauto|]. by eapply G; eauto.
  - intros x y lx ly Hx Hy. by apply D; auto.
  - intros p Hp Ht Hg. apply Hm; [by eauto|]. by apply P.
Qed.

Lemma covered_frame b b' s s' : covered s b → frame b b' s s' → covered s' b'.
Proof.
  intros [P1 P2 P3 L P B] (Hc & news & [S N F C U]). destruct Hc. split; [congruence|congruence|congruence|..].
  - intros x. unfold vars. rewrite S. destruct (decide (x ∈ news.*1)) as [Hx|Hx].
    + intros _. by apply F.
    + rewrite insert_all_lookup_old by done. intros ?. apply U, L. done.
  - intros p Hp. apply U, P, Hp.
  - intros x Hx. unfold vars. rewrite S. destruct (C x Hx) as [Hb|[Hn|Ht]]; [|(right; left)|(by auto)].
    + destruct (B x Hb) as [?|[Hl|?]]; [by auto| |by auto]. right; left.
      destruct (decide (x ∈ news.*1)); [by apply insert_all_lookup_new|by rewrite insert_all_lookup_old].
    + by apply insert_all_lookup_new.
Qed.

(** ** Emitting instructions *)

Lemma sema_emit_inv d ty sp s r s' :
  emit d ty sp s = Done (inr (r, s')) →
  r = len_u32 (instructions (st_air s)) ∧
  s' = MkSt (set_instructions (instructions (st_air s) ++ [MkInst d ty sp]) (st_air s))
         (st_ctx s) (st_pool s) (st_steps s) (st_rest s).
Proof. unfold emit, add_inst. intros [=]. by subst. Qed.

Lemma emit_core d ty sp s r s' :
  emit d ty sp s = Done (inr (r, s')) → core s s' ∧ scopes s' = scopes s ∧ st_ctx s' = st_ctx s.
Proof.
  intros [-> ->]%sema_emit_inv. split_and!; [|done..]. split; try done. cbn. by apply prefix_app_r.
Qed.

Lemma emit_at d ty sp s r s' a :
  emit d ty sp s = Done (inr (r, s')) → fits a s' → at_ref a r d ty.
Proof.
  intros [-> ->]%sema_emit_inv ([k Hk] & _ & Hlen & _). exists sp. cbn in Hk.
  rewrite Hk, <-app_assoc in *. rewrite length_app in Hlen.
  rewrite len_u32_small by lia. rewrite Nat2Z.id, lookup_app_r, Nat.sub_diag by lia. done.
Qed.

Lemma emit_extra_core ws s r s' :
  emit_extra ws s = Done (inr (r, s')) → core s s' ∧ scopes s' = scopes s ∧ st_ctx s' = st_ctx s.
Proof.
  unfold emit_extra. intros ([start a] & Ha & [=])%bind_Done. subst.
  unfold add_extra in Ha. case_decide; simplify_done. split_and!; [|done..].
  split; try done. cbn. by apply prefix_app_r.
Qed.

Lemma emit_extra_read ws s r s' a :
  emit_extra ws s = Done (inr (r, s')) → fits a s' → get_air_refs a r (len_u32 ws) = Done ws.
Proof.
  unfold emit_extra. intros ([start a'] & Ha & [=])%bind_Done (_ & [k Hk] & _ & Hlen). subst.
  unfold add_extra in Ha. case_decide as Hd; simplify_done. cbn in Hk.
  rewrite Hk, <-app_assoc, !length_app in Hlen. unfold get_air_refs, get_extra.
  rewrite !len_u32_small by lia. rewrite Hk, <-app_assoc, <-Nat2Z.inj_add. apply slice_range_app.
Qed.
End Ok.

(** ** Operands in order *)
Section Sounds.
Context {Spur : Type} `{Countable Spur} `{!SpurKey Spur} {Rest : Type}.
Notation St := (St Spur Rest).
Implicit Types s : St.
Context (pool : TypeInternPool (Spur := Spur)) (params : list (ParamInfo Spur)).
Notation ok := (ok pool params).
Notation sound := (sound pool params).

(** Paths through a list of operands; [Q] holds of those that pass all of them. *)
Definition sounds s (refs : list AirRef) (Q : Prop) s' : Prop :=
  ∀ a σ o, fits a s' → ok s σ → execs pool a refs σ o →
  match o with OFault => False | ONorm σ' => Q ∧ ok s' σ' | _ => True end.

Lemma ok_ctx s s' σ : st_ctx s' = st_ctx s → ok s σ → ok s' σ.
Proof.
  intros E. unfold mv, vars, scopes, next. apply ok_weaken; unfold mv, vars, scopes, next; by rewrite E.
Qed.

Lemma sounds_nil s : sounds s [] True s.
Proof. intros a σ o _ Hok ->%execs_nil_inv. done. Qed.

Lemma sounds_cons s res s1 refs Q s2 :
  sound s res s1 → core s1 s2 → sounds s1 refs Q s2 →
  sounds s (air_ref res :: refs) (res_ty res ≠ Ty.NEVER ∧ Q) s2.
Proof.
  intros H1 Hc H2 a σ o Hf Hok [[He Hn]|(σ1 & He & Hes)]%execs_cons_inv.
  - pose proof (H1 a σ o (fits_core _ _ _ Hc Hf) Hok He) as Hp. destruct o; [done|done..].
  - destruct (H1 a σ _ (fits_core _ _ _ Hc Hf) Hok He) as [Hty Hok1].
    pose proof (H2 a σ1 o Hf Hok1 Hes) as Hp. destruct o; naive_solver.
Qed.

Lemma sounds_one s res s1 : sound s res s1 → sounds s [air_ref res] (res_ty res ≠ Ty.NEVER) s1.
Proof.
  intros H1 a σ o Hf Hok Hes.
  pose proof (sounds_cons _ _ _ [] True s1 H1 (reflexivity _) (sounds_nil s1) a σ o Hf Hok Hes).
  destruct o; naive_solver.
Qed.

Lemma sounds_impl s refs (Q Q' : Prop) s' : (Q → Q') → sounds s refs Q s' → sounds s refs Q' s'.
Proof. intros HQ Hs a σ o Hf Hok He. specialize (Hs a σ o Hf Hok He). destruct o; naive_solver. Qed.

(** A path that keeps to the context of [s1]. *)
Lemma sounds_ctx s refs Q s1 s2 :
  sounds s refs Q s1 → core s1 s2 → (∀ σ, ok s1 σ → ok s2 σ) → sounds s refs Q s2.
Proof.
  intros Hs Hc Hw a σ o Hf Hok He. specialize (Hs a σ o (fits_core _ _ _ Hc Hf) Hok He).
  destruct o; naive_solver.
Qed.

(** The instruction emitted after its operands. *)
Lemma emit_sound s refs Q s1 d ty sp r s' act :
  sounds s refs Q s1 → emit d ty sp s1 = Done (inr (r, s')) →
  (∀ a, fits a s' → straight pool a d ty = Some (refs, act)) →
  (∀ op l x, d = IBin op l x → op ≠ And ∧ op ≠ Or) →
  (∀ σ, Q → ok s1 σ → post pool params ty s' (act σ)) →
  sound s (MkResult r ty) s'.
Proof.
  intros Hs He Hst Hop Hact a σ o Hf Hok Hx. cbn in *.
  destruct (emit_core _ _ _ _ _ _ He) as (Hc & _ & _).
  destruct (exec_straight_inv _ _ _ _ _ _ _ _ _ (emit_at _ _ _ _ _ _ _ He Hf) (Hst a Hf) Hx)
    as [(o' & Hes & ->)|(op & l & x & σ1 & -> & Hlog & _)].
  - specialize (Hs a σ o' (fits_core _ _ _ Hc Hf) Hok Hes). destruct o'; cbn; naive_solver.
  - destruct (Hop op l x eq_refl). naive_solver.
Qed.

(** Instructions that only produce a value. *)
Lemma emit_value_sound s refs Q s1 d ty sp r s' :
  sounds s refs Q s1 → emit d ty sp s1 = Done (inr (r, s')) →
  (∀ a, fits a s' → straight pool a d ty = Some (refs, ONorm)) →
  (∀ op l x, d = IBin op l x → op ≠ And ∧ op ≠ Or) →
  (Q → ty ≠ Ty.NEVER) →
  sound s (MkResult r ty) s'.
Proof.
  intros Hs He Hst Hop HQ. eapply emit_sound; [done..|]. intros σ Hq Hok. cbn. split; [by auto|].
  eapply ok_ctx; [|done]. by destruct (emit_core _ _ _ _ _ _ He) as (_ & _ & ?).
Qed.
End Sounds.

(** ** The handlers *)
Section Handlers.
Context {Spur : Type} `{Countable Spur} `{!SpurKey Spur} {Rest : Type}.
Notation M := (M Spur Rest).
Notation St := (St Spur Rest).
Implicit Types s : St.
Context (rir : Rir Spur) (constants : gmap Spur ConstInfo) (builtin_string_id : option Z).
Context (resolve : Spur → string) (interner_get : string → option Spur).
Context (evaluate_comptime_inst : InstRef → gmap Spur ConstValue → Span → M ConstValue).
Context (resolve_type : Spur → Span → St → outcome ((CompileError + Ty) * St)).
Context (resolve_intrinsic_type_arg : InstRef → M Ty).
Context (evaluate_variant_tag_arg : InstRef → Z → Span → M Z).
Context (analyze_other : (InstRef → M AnalysisResult) → InstRef → M AnalysisResult).

(** The function at hand: its parameters are passed by value, in slots of their own,
    and move types have a size. *)
Context (pool : TypeInternPool (Spur := Spur)) (resolved : gmap Z Ty) (params : list (ParamInfo Spur)).
Context (Hplain : ∀ p, p ∈ params → pi_ty p ≠ Ty.NEVER ∧ is_any_ref (pi_ty p) = false ∧
  (pi_mode p = ParamNormal ∨ pi_mode p = ParamComptime)).
Context (Hslots : ∀ p q, p ∈ params → q ∈ params → moves_ty pool (pi_ty p) = true →
  moves_ty pool (pi_ty q) = true → pi_abi_slot p = pi_abi_slot q → p = q).
Context (Hsized : ∀ ty n, moves_ty pool ty = true → sema_abi_slot_count pool ty = Done n → 0 < n).

Notation covered := (covered pool resolved params).
Notation ok := (ok pool params).
Notation sound := (sound pool params).
Notation sounds := (sounds pool params).
Notation lint := (lint rir resolved).
Notation assign_free := (assign_free rir).

Definition mono (bound : gset Spur) (i : InstRef) s s' : Prop :=
  ∀ k, assign_free k i = true → ∀ x, x ∈ bound → mv s x → mv s' x.
Definition good (bound bound' : gset Spur) (i : InstRef) s (res : AnalysisResult) s' : Prop :=
  frame bound bound' s s' ∧ sound s res s' ∧ mono bound i s s'.
Definition rec_ok (rec : InstRef → M AnalysisResult) : Prop :=
  ∀ n bound bound' i s res s', lint n bound i = Some bound' → covered s bound →
    rec i s = Done (inr (res, s')) → good bound bound' i s res s'.

(** Changes of the state that no variable notices. *)
Record quiet s s' : Prop := {
  qu_core : core s s';
  qu_scopes : scopes s' = scopes s;
  qu_moved : cx_moved_vars (st_ctx s') = cx_moved_vars (st_ctx s);
  qu_next : next s' = next s;
}.
#[local] Instance quiet_preorder : PreOrder quiet.
Proof. split; [intros s; by split|]. intros s1 s2 s3 [] []. split; [by etransitivity|congruence..]. Qed.

Lemma quiet_frame b s s' : quiet s s' → frame b b s s'.
Proof. intros []. by apply frame_core. Qed.
Lemma quiet_mv s s' x : quiet s s' → mv s x ↔ mv s' x.
Proof. intros [_ _ E _]. unfold mv. by rewrite E. Qed.
Lemma quiet_ok s s' σ : quiet s s' → ok s σ → ok s' σ.
Proof.
  intros Hq. apply ok_weaken.
  - unfold vars. by rewrite (qu_scopes _ _ Hq).
  - by rewrite (qu_next _ _ Hq).
  - intros x _ Hm. by apply (quiet_mv s).
Qed.
Lemma emit_quiet d ty sp s r s' : emit d ty sp s = Done (inr (r, s')) → quiet s s'.
Proof. intros (Hc & Hs & Hx)%emit_core. split; [done|done|by rewrite Hx|unfold next; by rewrite Hx]. Qed.
Lemma emit_extra_quiet ws s r s' : emit_extra ws s = Done (inr (r, s')) → quiet s s'.
Proof. intros (Hc & Hs & Hx)%emit_extra_core. split; [done|done|by rewrite Hx|unfold next; by rewrite Hx]. Qed.

Lemma frame_quiet b b' s s1 s' : frame b b' s s1 → quiet s1 s' → frame b b' s s'.
Proof. intros Hf Hq. eapply frame_trans; [done|]. by apply quiet_frame. Qed.
Lemma frame_quiet_l b b' s s1 s' : quiet s s1 → frame b b' s1 s' → frame b b' s s'.
Proof. intros Hq Hf. eapply frame_trans; [|done]. by apply quiet_frame. Qed.
Lemma sounds_quiet s refs Q s1 s2 : sounds s refs Q s1 → quiet s1 s2 → sounds s refs Q s2.
Proof. intros Hs Hq. eapply sounds_ctx; [done|apply Hq|]. intros σ. by apply quiet_ok. Qed.
Lemma covered_quiet b s s' : covered s b → quiet s s' → covered s' b.
Proof. intros Hc Hq. eapply covered_frame; [done|]. by apply quiet_frame. Qed.

(** A single value emitted after quiet preparations. *)
Lemma good_value b i s s1 d ty sp r s' :
  quiet s s1 → emit d ty sp s1 = Done (inr (r, s')) →
  (∀ a, straight pool a d ty = Some ([], ONorm)) → ty ≠ Ty.NEVER →
  good b b i s (MkResult r ty) s'.
Proof.
  intros Hq He Hst Hty. pose proof (emit_quiet _ _ _ _ _ _ He) as Hq'.
  assert (quiet s s') as Hqq by (by etransitivity).
  split_and!; [by apply quiet_frame| |].
  - eapply (emit_value_sound _ _ s [] True s1); [eapply sounds_quiet; [apply sounds_nil|done]|done|by auto| |by auto].
    intros op l x ->. specialize (Hst (new_air Ty.UNIT)). done.
  - intros k _ x _ Hm. by apply (quiet_mv s).
Qed.

Lemma new_struct_not_never id : new_struct id ≠ Ty.NEVER.
Proof.
  unfold new_struct, mk_composite, Ty.NEVER. intros [= Hx%(f_equal (λ z, Z.testbit z 2))].
  rewrite Z.lor_spec in Hx. done.
Qed.

Lemma rir_data_get i inst : rir_get rir i = Done inst → rir_data rir i = Some (ri_data inst).
Proof. unfold rir_data. by intros ->. Qed.

Definition is_literal (d : InstData Spur) : bool :=
  match d with
  | RIntConst _ | RFloatConst _ | RBoolConst _ | RCharConst _ | RStringConst _ | RUnitConst => true
  | _ => false
  end.

Lemma literal_ok b i s res s' :
  covered s b → resolved !! i ≠ Some Ty.NEVER →
  analyze_literal rir builtin_string_id resolve i s = Done (inr (res, s')) → good b b i s res s'.
Proof.
  intros Hcv Hres Hr. unfold analyze_literal in Hr. inv_M.
  destruct (ri_data x) eqn:?; inv_M.
  - rewrite (cv_resolved _ _ _ _ _ Hcv) in *. destruct (resolved !! i) eqn:?; inv_M.
    case_match; inv_M. eapply good_value; [reflexivity|done|done|naive_solver].
  - rewrite (cv_resolved _ _ _ _ _ Hcv) in *. destruct (resolved !! i) eqn:?; inv_M.
    eapply good_value; [reflexivity|done|done|naive_solver].
  - by eapply good_value; [reflexivity|done|..].
  - by eapply good_value; [reflexivity|done|..].
  - destruct (add_local_string _ _) as [id c'] eqn:Hadd. inv_M.
    eapply good_value; [|done|done|].
    + unfold add_local_string in Hadd. destruct (cx_local_string_table _ !! _); simplify_eq; by split.
    + unfold builtin_string_type. destruct builtin_string_id; [apply new_struct_not_never|done].
  - by eapply good_value; [reflexivity|done|..].
Qed.

Lemma open_get {A} i d (f : Inst Spur → M A) s r :
  rir_data rir i = Some d → (get_rir rir i ≫= f) s = Done (inr r) →
  ∃ sp, f (MkRirInst d sp) s = Done (inr r).
Proof.
  unfold rir_data. intros Hd (inst & s1 & [Hg ->]%lift_inr & Hf)%bindM_inr. rewrite Hg in Hd.
  destruct inst as [d' sp]. cbn in Hd. simplify_eq. by eauto.
Qed.

Section Rec.
Context (rec : InstRef → M AnalysisResult) (IH : rec_ok rec).

(** One operand, then the instruction over it. *)
Lemma good_unary b b1 x i s rx s1 d ty sp r s' :
  good b b1 x s rx s1 → emit d ty sp s1 = Done (inr (r, s')) →
  (∀ a, straight pool a d ty = Some ([air_ref rx], ONorm)) → (∀ op l x, d ≠ IBin op l x) →
  ty ≠ Ty.NEVER → (∀ k, assign_free k i = true → ∃ k', assign_free k' x = true) →
  good b b1 i s (MkResult r ty) s'.
Proof.
  intros (Hf & Hs & Hm) He Hst Hop Hty Haf. pose proof (emit_quiet _ _ _ _ _ _ He) as Hq.
  split_and!; [by eapply frame_quiet| |].
  - eapply emit_value_sound; [by apply sounds_one|done|by auto| |done]. intros ??? ->. by edestruct Hop.
  - intros k Hk y Hy Hmv. apply (quiet_mv s1); [done|]. destruct (Haf k Hk) as [k' Hk']. by eapply Hm.
Qed.

Lemma assign_free_unary k i op x :
  rir_data rir i = Some (RUnary op x) → assign_free k i = true → ∃ k', assign_free k' x = true.
Proof. intros Hd. destruct k as [|k]; [done|]. cbn [SemaExec.assign_free]. rewrite Hd. by eauto. Qed.

Lemma lint_literal n b b' i d :
  rir_data rir i = Some d → is_literal d = true → lint n b i = Some b' → b' = b.
Proof.
  intros Hd Hlit. destruct n as [|n]; [done|]. cbn [SemaExec.lint]. rewrite Hd.
  case_bool_decide; [done|]. destruct d; cbn; naive_solver.
Qed.

Lemma unary_ok n b b' i op x s res s' :
  rir_data rir i = Some (RUnary op x) → lint n b x = Some b' → covered s b →
  resolved !! i ≠ Some Ty.NEVER →
  analyze_unary_op rir rec i s = Done (inr (res, s')) → good b b' i s res s'.
Proof.
  intros Hd Hl Hcv Hres (sp & Hr)%(open_get _ _ _ _ _ Hd). cbn [ri_data ri_span] in Hr.
  pose proof (assign_free_unary) as Haf. destruct op.
  - inv_M. rewrite (cv_resolved _ _ _ _ _ Hcv) in *. destruct (resolved !! i) as [ty|] eqn:Hty; inv_M.
    assert (ty ≠ Ty.NEVER) by naive_solver. case_match; inv_M.
    assert (Hgen : ∀ s0, s0 = s → (operand_result ← rec x; emit_result (IUnary Neg (air_ref operand_result)) ty sp) s0
              = Done (inr (res, s')) → good b b' i s res s').
    { intros ? -> Hg. inv_M. eapply good_unary; [by eapply IH|done|done|done|done|by eauto]. }
    destruct (ri_data _) eqn:Hx; try exact (Hgen _ eq_refl Hr). case_match; [|exact (Hgen _ eq_refl Hr)]. inv_M.
    replace b' with b by (symmetry; eapply lint_literal; [by apply rir_data_get|by rewrite Hx|done]).
    by eapply good_value; [reflexivity|done|..].
  - inv_M. eapply good_unary; [by eapply IH|done|done|done|done|by eauto].
  - inv_M. rewrite (cv_resolved _ _ _ _ _ Hcv) in *. destruct (resolved !! i) as [ty|] eqn:Hty; inv_M.
    destruct (negb (is_integer ty) && _ && _); inv_M.
    eapply good_unary; [by eapply IH|done|done|done|naive_solver|by eauto].
Qed.

(** Two operands in order. *)
Lemma good_pair n m b b1 b2 l r s rl s1 rr s2 :
  lint n b l = Some b1 → lint m b1 r = Some b2 → covered s b →
  rec l s = Done (inr (rl, s1)) → rec r s1 = Done (inr (rr, s2)) →
  good b b1 l s rl s1 ∧ good b1 b2 r s1 rr s2 ∧ frame b b2 s s2 ∧
  sounds s [air_ref rl; air_ref rr] (res_ty rl ≠ Ty.NEVER) s2.
Proof.
  intros Hl Hr Hcv Hrl Hrr. pose proof (IH _ _ _ _ _ _ _ Hl Hcv Hrl) as G1.
  pose proof (covered_frame _ _ _ _ _ _ _ Hcv (proj1 G1)) as Hcv1.
  pose proof (IH _ _ _ _ _ _ _ Hr Hcv1 Hrr) as G2. split_and!; [done|done| |].
  - eapply frame_trans; [apply G1|apply G2].
  - eapply sounds_impl; [|eapply sounds_cons; [apply G1|apply G2|apply sounds_one, G2]]. tauto.
Qed.

Lemma assign_free_bin k i op l r :
  rir_data rir i = Some (RBin op l r) → assign_free k i = true →
  ∃ k', assign_free k' l = true ∧ assign_free k' r = true.
Proof.
  intros Hd. destruct k as [|k]; [done|]. cbn [SemaExec.assign_free]. rewrite Hd.
  intros [? ?]%andb_true_iff. by eauto.
Qed.

Lemma good_pair_mono b b1 b2 i op l r s rl s1 rr s2 s' :
  rir_data rir i = Some (RBin op l r) →
  good b b1 l s rl s1 → good b1 b2 r s1 rr s2 → quiet s2 s' → mono b i s s'.
Proof.
  intros Hd (Hf & _ & M1) (_ & _ & M2) Hq k Hk x Hx Hm. apply (quiet_mv s2); [done|].
  destruct (assign_free_bin _ _ _ _ _ Hd Hk) as (k' & Hl & Hr).
  eapply M2; [done| |by eapply M1]. destruct Hf as (_ & news & B). by apply (bi_sub _ _ _ _ _ B).
Qed.

Lemma arith_ok n m b b1 b2 i op l r sp s res s' :
  rir_data rir i = Some (RBin op l r) → op ≠ And ∧ op ≠ Or →
  lint n b l = Some b1 → lint m b1 r = Some b2 → covered s b →
  analyze_binary_arith rec l r op sp s = Done (inr (res, s')) → good b b2 i s res s'.
Proof.
  intros Hd Hop Hl Hr Hcv Ha. unfold analyze_binary_arith in Ha. inv_M.
  destruct (negb _ && negb _ && negb _); inv_M. name_emit He.
  destruct (good_pair _ _ _ _ _ _ _ _ _ _ _ _ Hl Hr Hcv H0 H1) as (G1 & G2 & Hf & Hs).
  pose proof (emit_quiet _ _ _ _ _ _ He) as Hq. split_and!; [by eapply frame_quiet| |].
  - eapply emit_value_sound; [done|done|by auto| |done]. naive_solver.
  - by eapply good_pair_mono.
Qed.

(** A short-circuited second operand leaves the moves of the first in force. *)
Lemma logical_ok n m k b b1 i op l r s res s' :
  rir_data rir i = Some (RBin op l r) → op = And ∨ op = Or →
  lint n b l = Some b1 → lint m b1 r = Some b1 → assign_free k r = true → covered s b →
  analyze_logical_op rir rec i s = Done (inr (res, s')) → good b b1 i s res s'.
Proof.
  intros Hd Hop Hl Hr Hk Hcv (sp & Ha)%(open_get _ _ _ _ _ Hd). cbn [ri_data ri_span] in Ha.
  assert (∃ rl s1 rr s2, rec l s = Done (inr (rl, s1)) ∧ rec r s1 = Done (inr (rr, s2)) ∧
    ∃ q, emit (IBin op (air_ref rl) (air_ref rr)) Ty.BOOL sp s2 = Done (inr (q, s')) ∧ res = MkResult q Ty.BOOL)
    as (rl & s1 & rr & s2 & Hrl & Hrr & q & He & ->) by (destruct Hop as [-> | ->]; inv_M; by eauto 12).
  destruct (good_pair _ _ _ _ _ _ _ _ _ _ _ _ Hl Hr Hcv Hrl Hrr) as (G1 & G2 & Hf & Hs).
  pose proof (emit_quiet _ _ _ _ _ _ He) as Hq.
  split_and!; [by eapply frame_quiet| |exact (good_pair_mono _ _ _ _ _ _ _ _ _ _ _ _ _ Hd G1 G2 Hq)].
  intros a σ o Hfit Hok Hx. cbn in Hx |- *.
  destruct (exec_straight_inv _ _ _ _ _ _ _ _ _ (emit_at _ _ _ _ _ _ _ He Hfit) eq_refl Hx)
    as [(o' & Hes & ->)|(op' & l' & x & σ1 & [= <- <- <-] & _ & Hel & ->)].
  - pose proof (Hs a σ o' (fits_core _ _ _ (qu_core _ _ Hq) Hfit) Hok Hes) as Hp.
    destruct o'; cbn; try done. split; [done|]. apply (quiet_ok s2); [done|apply Hp].
  - assert (fits a s2) as Hfit2 by (by apply (fits_core _ _ _ (qu_core _ _ Hq))).
    destruct (proj1 (proj2 G1) a σ _ (fits_frame _ _ _ _ _ (proj1 G2) Hfit2) Hok Hel) as [_ Hok1].
    split; [done|]. apply (quiet_ok s2); [done|]. destruct G2 as ((Hc2 & news & B) & _ & M2).
    assert (news = []) as ->.
    { destruct news as [|[x lv] news]; [done|]. destruct (bi_fresh _ _ _ _ _ B x) as [? ?]; [by left|done]. }
    pose proof (covered_frame _ _ _ _ _ _ _ Hcv (proj1 G1)) as Hcv1.
    revert Hok1. apply ok_weaken.
    + unfold vars. by rewrite (bi_scopes _ _ _ _ _ B).
    + apply (co_next _ _ Hc2).
    + intros x Hin Hm. eapply M2; [done| |done]. destruct Hin as [Hv|(p & Hp & <-)].
      * apply (cv_local _ _ _ _ _ Hcv1). unfold vars in *. by rewrite (bi_scopes _ _ _ _ _ B) in Hv.
      * by apply (cv_param _ _ _ _ _ Hcv1).
Qed.

(** *** Reading variables *)

Lemma kind_not_ref ty k :
  kind ty = Done k → is_any_ref ty = false →
  (∀ id, k ≠ TypeKind.Ref id) ∧ (∀ id, k ≠ TypeKind.MutRef id).
Proof.
  unfold kind, is_any_ref, TAG_REF, TAG_MUT_REF. intros Hk%expect_Done Hn.
  unfold try_kind in Hk. repeat case_match; simplify_eq; done.
Qed.

Lemma check_not_moved_inv x sp s u s1 :
  check_not_moved resolve x sp s = Done (inr (u, s1)) → s1 = s ∧ ¬ mv s x.
Proof.
  unfold check_not_moved. intros Hc. inv_M. destruct (_ ≫= _) as [?|] eqn:Hm; inv_M.
  split; [done|]. intros (ms & sp' & Hx & Hp). by rewrite Hx in Hm; cbn in Hm; rewrite Hp in Hm.
Qed.

Definition marked (x : Spur) sp s : St :=
  MkSt (st_air s) (set_moved_vars (<[x := mark_path_moved [] sp (default no_moves (cx_moved_vars (st_ctx s) !! x))]>
    (cx_moved_vars (st_ctx s))) (st_ctx s)) (st_pool s) (st_steps s) (st_rest s).

Lemma mark_moved_inv x sp s u s1 : mark_moved x sp s = Done (inr (u, s1)) → s1 = marked x sp s.
Proof. unfold mark_moved, mod_ctx. by intros [= _ <-]. Qed.
Lemma marked_core x sp s : core s (marked x sp s) ∧ scopes (marked x sp s) = scopes s.
Proof. by repeat split. Qed.
Lemma marked_mv x sp s y : mv s y ∨ y = x → mv (marked x sp s) y.
Proof.
  unfold mv, any_moved. cbn. destruct (decide (y = x)) as [->|Hne].
  - intros _. rewrite lookup_insert_eq. by eexists _, _.
  - rewrite lookup_insert_ne by done. naive_solver.
Qed.

Lemma moves_ty_copy ty b : is_type_copy pool ty = Done b → moves_ty pool ty = true → b = false.
Proof. unfold moves_ty. intros ->. destruct b; [|done]. by repeat case_match. Qed.

Lemma read_local_ok b i x lv sp s res s' :
  covered s b → vars s !! x = Some lv →
  read_local resolve x lv sp s = Done (inr (res, s')) → good b b i s res s'.
Proof.
  intros Hcv Hx Hr. unfold read_local in Hr.
  apply bindM_inr in Hr as (u & s0 & [-> Hmv]%check_not_moved_inv & Hr).
  apply bindM_inr in Hr as (copy & s0 & [Hcopy ->]%query_inr & Hr).
  rewrite (cv_pool _ _ _ _ _ Hcv) in Hcopy. pose proof (moves_ty_copy _ _ Hcopy) as Hmc.
  apply bindM_inr in Hr as (u' & s1 & Hmark & Hr).
  assert (core s s1 ∧ scopes s1 = scopes s ∧ next s1 = next s ∧ (∀ y, mv s y → mv s1 y) ∧
    (copy = false → mv s1 x)) as (Hc1 & Hs1 & Hn1 & Hm1 & Hx1).
  { destruct copy; inv_M; [by split_and!|]. apply mark_moved_inv in Hmark as ->.
    destruct (marked_core x sp s). split_and!; [done..| |]; intros; apply marked_mv; auto. }
  inv_M. name_emit He. pose proof (emit_quiet _ _ _ _ _ _ He) as Hq.
  match type of He with emit _ _ _ ?s2 = _ => assert (quiet s1 s2) as Hq1 by (by split) end.
  assert (quiet s1 s') as Hq2 by (by etransitivity). clear Hq Hq1.
  assert (∀ y, mv s y → mv s' y) as Hm' by (intros; apply (quiet_mv s1); auto).
  split_and!.
  - apply frame_core; [etransitivity; [done|apply Hq2]|]. by rewrite (qu_scopes _ _ Hq2).
  - intros a σ o Hf Hok Hex. cbn [air_ref res_ty] in Hex |- *.
    destruct (exec_straight_inv _ _ _ _ _ _ _ _ _ (emit_at _ _ _ _ _ _ _ He Hf) eq_refl Hex)
      as [(o' & ->%execs_nil_inv & ->)|(? & ? & ? & ? & [=] & _)].
    assert (ok s' σ) as Hok'.
    { revert Hok. apply ok_weaken; [|rewrite (qu_next _ _ Hq2); lia|by auto].
      unfold vars. by rewrite (qu_scopes _ _ Hq2), Hs1. }
    pose proof (ok_local _ _ _ _ Hok _ _ Hx) as Hty. cbn. unfold read_slot.
    destruct (moves_ty pool (lv_ty lv)) eqn:Hmt; cbn; [|done]. specialize (Hmc eq_refl).
    case_bool_decide as Hg.
    { apply Hmv. by eapply (ok_gone _ _ _ _ Hok). }
    split; [done|]. destruct Hok' as [L S G D P]. split; [done..| |done|done].
    intros y ly Hy Hty' [Heq%elem_of_singleton|?]%elem_of_union; [|by eapply G].
    assert (y = x) as ->; [|by apply (quiet_mv s1), Hx1].
    unfold vars in Hx, Hy. rewrite (qu_scopes _ _ Hq2), Hs1 in Hy.
    eapply (ok_distinct _ _ _ _ Hok); eauto.
  - intros k _ y _. apply Hm'.
Qed.

Lemma emit_zst_inv ty sp s r s' :
  emit_zst_value ty sp s = Done (inr (r, s')) →
  ∃ d s1, quiet s s1 ∧ emit d ty sp s1 = Done (inr (r, s')) ∧
    ∀ a, straight pool a d ty = Some ([], ONorm).
Proof.
  unfold emit_zst_value. intros Hz. inv_M. destruct x; inv_M;
    try by (eexists _, _; split_and!; [reflexivity|done|done]).
  eexists _, _. split_and!; [etransitivity; by eapply emit_extra_quiet|done|done].
Qed.

Lemma find_param_Some s n p :
  find_param (st_ctx s) n = Some p → p ∈ cx_params (st_ctx s) ∧ pi_name p = n.
Proof.
  unfold find_param. intros ([j q] & Hf & ->)%fmap_Some. apply list_find_Some in Hf as (Hl & ? & _).
  split; [by eapply list_elem_of_lookup_2|done].
Qed.

Lemma read_param_ok b i p sp s res s' :
  covered s b → p ∈ params →
  read_param resolve p sp s = Done (inr (res, s')) → good b b i s res s'.
Proof.
  intros Hcv Hp Hr. destruct (Hplain p Hp) as (Hnever & Href & Hmode). unfold read_param, deref_ty in Hr.
  inv_M. destruct (kind_not_ref _ _ ltac:(eassumption) Href) as [K1 K2].
  assert (x = (pi_ty p, None) ∧ x0 = s) as [-> ->].
  { destruct x1; try (by inv_M); [by destruct (K1 id)|by destruct (K2 id)]. }
  clear H1 K1 K2. cbv beta iota in Hr.
  apply bindM_inr in Hr as (u & s0 & [-> Hmv]%check_not_moved_inv & Hr).
  apply bindM_inr in Hr as (copy & s0 & [Hcopy ->]%query_inr & Hr).
  rewrite (cv_pool _ _ _ _ _ Hcv) in Hcopy. pose proof (moves_ty_copy _ _ Hcopy) as Hmc.
  rewrite (bool_decide_false (_ = Some false)) in Hr by done.
  rewrite (bool_decide_false (pi_mode p = _)) in Hr by (by destruct Hmode as [-> | ->]).
  assert (∃ s1, core s s1 ∧ scopes s1 = scopes s ∧ next s1 = next s ∧ (∀ y, mv s y → mv s1 y) ∧
    (copy = false → mv s1 (pi_name p)) ∧ ∃ slots r, sema_abi_slot_count pool (pi_ty p) = Done slots ∧
      (if slots =? 0 then emit_zst_value (pi_ty p) sp else emit (IParam (pi_abi_slot p)) (pi_ty p) sp) s1
        = Done (inr (r, s')) ∧ res = MkResult r (pi_ty p))
    as (s1 & Hc1 & Hs1 & Hn1 & Hm1 & Hx1 & slots & r & Hslot & He & ->).
  { destruct copy.
    - apply bindM_inr in Hr as (slots & s0 & [Hq ->]%query_inr & Hr).
      apply bindM_inr in Hr as (r & s0 & He & [-> ->]%ret_inr).
      rewrite (cv_pool _ _ _ _ _ Hcv) in Hq. exists s. split_and!; [done..|]. by eauto.
    - apply bindM_inr in Hr as (u' & s1 & ->%mark_moved_inv & Hr).
      apply bindM_inr in Hr as (slots & s0 & [Hq ->]%query_inr & Hr).
      apply bindM_inr in Hr as (r & s0 & He & [-> ->]%ret_inr). cbn in Hq.
      rewrite (cv_pool _ _ _ _ _ Hcv) in Hq. exists (marked (pi_name p) sp s).
      destruct (marked_core (pi_name p) sp s).
      split_and!; [done..| | |by eauto]; intros; apply marked_mv; auto. }
  assert (quiet s1 s' ∧ (∀ a σ o, fits a s' → exec pool a r σ o →
      o = read_param_slot pool (pi_ty p) (pi_abi_slot p) σ)) as [Hq2 Hexec].
  { destruct (slots =? 0) eqn:Hz.
    - destruct (emit_zst_inv _ _ _ _ _ He) as (d & s2 & Hq & He' & Hst). split.
      { etransitivity; [done|]. by eapply emit_quiet. }
      assert (moves_ty pool (pi_ty p) = false) as Hmt.
      { destruct (moves_ty pool (pi_ty p)) eqn:Hmt; [|done]. pose proof (Hsized _ _ Hmt Hslot). lia. }
      intros a σ o Hf Hex. unfold read_param_slot. rewrite Hmt.
      destruct (exec_straight_inv _ _ _ _ _ _ _ _ _ (emit_at _ _ _ _ _ _ _ He' Hf) (Hst a) Hex)
        as [(o' & ->%execs_nil_inv & ->)|(? & ? & ? & ? & -> & _)]; [done|]. by specialize (Hst a).
    - split; [by eapply emit_quiet|]. intros a σ o Hf Hex.
      destruct (exec_straight_inv _ _ _ _ _ _ _ _ _ (emit_at _ _ _ _ _ _ _ He Hf) eq_refl Hex)
        as [(o' & ->%execs_nil_inv & ->)|(? & ? & ? & ? & [=] & _)]. done. }
  assert (∀ y, mv s y → mv s' y) as Hm' by (intros; apply (quiet_mv s1); auto).
  split_and!; [|intros a σ o Hf Hok Hex|intros k _ y _; apply Hm'].
  - apply frame_core; [etransitivity; [done|apply Hq2]|]. by rewrite (qu_scopes _ _ Hq2).
  - assert (ok s' σ) as Hok'.
    { revert Hok. apply ok_weaken; [|rewrite (qu_next _ _ Hq2); lia|by auto].
      unfold vars. by rewrite (qu_scopes _ _ Hq2), Hs1. }
    rewrite (Hexec a σ o Hf Hex). unfold read_param_slot.
    destruct (moves_ty pool (pi_ty p)) eqn:Hmt; cbn; [|done]. specialize (Hmc eq_refl).
    case_bool_decide as Hg; [by apply Hmv, (ok_param _ _ _ _ Hok)|].
    split; [done|]. destruct Hok' as [L S G D P]. split; [done..|].
    intros q Hq Hty' [Heq%elem_of_singleton|?]%elem_of_union; [|by apply P].
    assert (q = p) as -> by (by apply Hslots). by apply (quiet_mv s1), Hx1.
Qed.

Lemma find_param_None s p : find_param (st_ctx s) (pi_name p) = None → p ∉ cx_params (st_ctx s).
Proof.
  unfold find_param. intros Hf%fmap_None Hp. apply list_find_None in Hf.
  rewrite list.Forall_forall in Hf. by apply (Hf p Hp).
Qed.

Lemma var_ref_ok b i x sp s res s' :
  covered s b → x ∈ b →
  analyze_var_ref rir constants resolve resolve_type rec i x sp s = Done (inr (res, s')) →
  good b b i s res s'.
Proof.
  intros Hcv Hx Hr. unfold analyze_var_ref in Hr. inv_M.
  destruct (find_param (st_ctx s) x) as [p|] eqn:Hp.
  { apply find_param_Some in Hp as [Hp <-]. rewrite (cv_params _ _ _ _ _ Hcv) in Hp.
    by eapply read_param_ok. }
  destruct (locals (cx_scopes (st_ctx s)) !! x) as [lv|] eqn:Hl; [by eapply read_local_ok|].
  destruct (cx_comptime_type_vars (st_ctx s) !! x) as [ty|] eqn:Ht.
  { inv_M. by eapply good_value; [reflexivity|done|..]. }
  exfalso. destruct (cv_bound _ _ _ _ _ Hcv x Hx) as [(p & Hin & <-)|[Hv|Hv]].
  - apply find_param_None in Hp. by rewrite (cv_params _ _ _ _ _ Hcv) in Hp.
  - unfold vars, scopes in Hv. rewrite Hl in Hv. by destruct Hv.
  - unfold tvars in Hv. rewrite Ht in Hv. by destruct Hv.
Qed.

(** *** Declarations *)

Lemma slot_count_nonneg fuel p ty n : slot_count (Spur := Spur) fuel p ty = Done n → 0 ≤ n.
Proof.
  revert ty n. induction fuel as [|fuel IHf]; intros ty n; [done|]. cbn [slot_count].
  intros (k & _ & Hk)%bind_Done. destruct k; simplify_done; try lia.
  - eapply (foldM_inv (λ z, 0 ≤ z)); [eassumption|lia|]. cbn. intros acc f acc' _ Hacc Hf.
    simplify_done. unfold in_u in *. lia.
  - destruct x as [e len]. simplify_done. unfold in_u in *. lia.
Qed.

Lemma capture_none n b b' init s h s1 :
  lint n b init = Some b' →
  try_capture_uninit_init rir resolve resolve_type resolve_intrinsic_type_arg evaluate_variant_tag_arg init s
    = Done (inr (h, s1)) → h = None ∧ s1 = s.
Proof.
  intros Hl. destruct n as [|n]; [done|]. cbn [SemaExec.lint] in Hl. case_bool_decide; [done|].
  destruct (rir_data rir init) as [d|] eqn:Hd; [|done]. intros (sp & Hr)%(open_get _ _ _ _ _ Hd).
  cbn [ri_data ri_span] in Hr. destruct d; cbn in Hl; try done; by inv_M.
Qed.

(** The state after binding a local. *)
Definition bound_local (x : Spur) (lv : LocalVar) (nx : Z) s : St :=
  MkSt (st_air s) (ctx_insert_local x lv (set_next_slot nx (st_ctx s))) (st_pool s) (st_steps s) (st_rest s).

Lemma bound_local_mv x lv nx s y : y ≠ x → mv s y ↔ mv (bound_local x lv nx s) y.
Proof. intros Hne. unfold mv, any_moved, bound_local. cbn. by rewrite lookup_delete_ne. Qed.

Lemma bound_local_frame b x lv nx s :
  next s ≤ nx → x ∉ b → frame b ({[x]} ∪ b) s (bound_local x lv nx s).
Proof.
  intros Hn Hx. split; [by split|]. exists [(x, lv)]. split; [done|..].
  - apply NoDup_singleton.
  - intros y ->%list_elem_of_singleton. set_solver.
  - intros y. rewrite elem_of_union, elem_of_singleton. cbn. rewrite list_elem_of_singleton. tauto.
  - set_solver.
Qed.

Lemma bound_local_ok b x lv nx s σ σ' :
  covered s b → x ∉ b → ok s σ → lv_slot lv = next s → lv_ty lv ≠ Ty.NEVER → next s ≤ nx →
  (moves_ty pool (lv_ty lv) = true → next s < nx) →
  write_slot (lv_slot lv) σ = ONorm σ' → ok (bound_local x lv nx s) σ'.
Proof.
  intros Hcv Hx [L S G D P] Hsl Hty Hn Hlt [= <-].
  assert (∀ y ly, vars (bound_local x lv nx s) !! y = Some ly →
    (y = x ∧ ly = lv) ∨ (y ≠ x ∧ vars s !! y = Some ly)) as Hv.
  { intros y ly. unfold vars, scopes, bound_local. cbn. rewrite insert_local_locals.
    destruct (decide (y = x)) as [->|]; [rewrite lookup_insert_eq|rewrite lookup_insert_ne by done]; naive_solver. }
  split.
  - intros y ly [[-> ->]|[_ ?]]%Hv; [done|by eapply L].
  - intros y ly [[-> ->]|[_ Hy]]%Hv Hm; unfold next, bound_local; cbn; [rewrite Hsl; by apply Hlt|].
    specialize (S y ly Hy Hm). lia.
  - intros y ly [[-> ->]|[Hne Hy]]%Hv Hm; cbn; [set_solver|]. intros [Hg _]%elem_of_difference.
    apply bound_local_mv; [done|]. by eapply G.
  - intros y z ly lz [[-> ->]|[Hny Hy]]%Hv [[-> ->]|[Hnz Hz]]%Hv Hmy Hmz Heq; [done|..].
    + specialize (S z lz Hz Hmz). lia.
    + specialize (S y ly Hy Hmy). lia.
    + by eapply D.
  - intros p Hp Hm Hg. apply bound_local_mv; [|by apply P].
    intros <-. by apply Hx, (cv_param _ _ _ _ _ Hcv).
Qed.

Lemma alloc_local_inv x is_mut au ir sp s1 res s' :
  alloc_local x is_mut au ir sp s1 = Done (inr (res, s')) →
  ∃ nslots sl al st r s3 s4 s5,
    let lv := MkLocal (next s1) (res_ty ir) is_mut sp au in
    sema_abi_slot_count (st_pool s1) (res_ty ir) = Done nslots ∧
    emit (IStorageLive (next s1)) (res_ty ir) sp (bound_local x lv (next s1 + nslots) s1) = Done (inr (sl, s3)) ∧
    emit (IAlloc (next s1) (air_ref ir)) Ty.UNIT sp s3 = Done (inr (al, s4)) ∧
    emit_extra [sl] s4 = Done (inr (st, s5)) ∧
    emit (IBlock st 1 al) Ty.UNIT sp s5 = Done (inr (r, s')) ∧ res = MkResult r Ty.UNIT.
Proof.
  unfold alloc_local. intros Hr. inv_M.
  match goal with Hc : checked_add _ _ _ = Done _ |- _ => apply checked_add_Done in Hc as [-> _] end.
  eexists _, _, _, _, _, _, _, _. cbv zeta. split_and!; [done..|reflexivity].
Qed.

Lemma alloc_local_ok b b1 i k0 init x is_mut au ir sp s s1 res s' :
  good b b1 init s ir s1 → covered s b → x ∉ b1 →
  (∀ k, assign_free k i = true → assign_free (k0 k) init = true) →
  alloc_local x is_mut au ir sp s1 = Done (inr (res, s')) → good b ({[x]} ∪ b1) i s res s'.
Proof.
  intros (Hf & Hs & Hm) Hcv Hx Haf Ha.
  destruct (alloc_local_inv _ _ _ _ _ _ _ _ Ha) as
    (nslots & sl & al & st & r & s3 & s4 & s5 & Hn & E1 & E2 & E3 & E4 & ->). clear Ha.
  set (lv := MkLocal _ _ _ _ _) in *. set (s2 := bound_local _ _ _ _) in *.
  pose proof (covered_frame _ _ _ _ _ _ _ Hcv Hf) as Hcv1.
  rewrite (cv_pool _ _ _ _ _ Hcv1) in Hn. pose proof (slot_count_nonneg _ _ _ _ Hn) as Hnn.
  assert (quiet s3 s') as Q3.
  { etransitivity; [by eapply emit_quiet|]. etransitivity; [by eapply emit_extra_quiet|by eapply emit_quiet]. }
  assert (quiet s4 s') as Q4.
  { etransitivity; [by eapply emit_extra_quiet|by eapply emit_quiet]. }
  pose proof (emit_quiet _ _ _ _ _ _ E1) as Q1. pose proof (emit_quiet _ _ _ _ _ _ E4) as Q5.
  assert (quiet s2 s') as Q2 by (by etransitivity).
  assert (frame b1 ({[x]} ∪ b1) s1 s2) as F2 by (apply bound_local_frame; [lia|done]).
  split_and!.
  - eapply frame_quiet; [by eapply frame_trans|done].
  - intros a σ o Hfit Hok Hex. cbn [air_ref res_ty] in Hex |- *.
    assert (fits a s5) as Hfit5 by (by apply (fits_core _ _ _ (qu_core _ _ Q5))).
    assert (straight pool a (IBlock st 1 al) Ty.UNIT = Some ([sl; al], ONorm)) as Hst.
    { cbn [straight]. change 1 with (len_u32 [sl]). by rewrite (emit_extra_read _ _ _ _ _ E3 Hfit5). }
    destruct (exec_straight_inv _ _ _ _ _ _ _ _ _ (emit_at _ _ _ _ _ _ _ E4 Hfit) Hst Hex)
      as [(o1 & Hes & ->)|(? & ? & ? & ? & [=] & _)].
    assert (∀ o', exec pool a sl σ o' → o' = ONorm σ) as Hsl.
    { intros o' He. destruct (exec_straight_inv _ _ _ _ _ _ _ _ _
        (emit_at _ _ _ _ _ _ _ E1 (fits_core _ _ _ (qu_core _ _ Q3) Hfit)) eq_refl He)
        as [(o2 & ->%execs_nil_inv & ->)|(? & ? & ? & ? & [=] & _)]. done. }
    apply execs_cons_inv in Hes as [[->%Hsl [=]]|(σ1 & [= ->]%Hsl & Hes)].
    assert (post pool params Ty.UNIT s' o1) as Hp; [|by destruct o1].
    assert (∀ o', exec pool a al σ o' → post pool params Ty.UNIT s' o') as Hal.
    { intros o' He. destruct (exec_straight_inv _ _ _ _ _ _ _ _ _
        (emit_at _ _ _ _ _ _ _ E2 (fits_core _ _ _ (qu_core _ _ Q4) Hfit)) eq_refl He)
        as [(o2 & Hi & ->)|(? & ? & ? & ? & [=] & _)].
      assert (fits a s1) as Hfit1.
      { eapply fits_frame; [exact F2|]. by apply (fits_core _ _ _ (qu_core _ _ Q2)). }
      pose proof (sounds_one _ _ _ _ _ Hs a σ o2 Hfit1 Hok Hi) as Hp.
      destruct o2 as [σ2| | | |]; try done. destruct Hp as [Hty Hok1]. cbn. split; [done|].
      apply (quiet_ok s2); [done|]. eapply bound_local_ok; [done|done|done|done|done|lia| |done].
      intros Hmv. cbn in Hmv. pose proof (Hsized _ _ Hmv Hn). lia. }
    apply execs_cons_inv in Hes as [[He Hn1]|(σ2 & He & ->%execs_nil_inv)]; by apply Hal.
  - intros k Hk y Hy Hmy. apply (quiet_mv s2); [done|]. apply bound_local_mv.
    + intros ->. apply Hx. destruct Hf as (_ & news & B). by apply (bi_sub _ _ _ _ _ B).
    + by eapply Hm; [by apply Haf|..].
Qed.

Lemma assign_free_alloc k i d1 d2 nm mu ty init :
  rir_data rir i = Some (RAlloc d1 d2 nm mu ty init) → assign_free k i = true →
  assign_free (pred k) init = true.
Proof. intros Hd. destruct k as [|k]; [done|]. cbn [SemaExec.assign_free pred]. by rewrite Hd. Qed.

Lemma alloc_ok n b b1 i d1 d2 nm mu ty init s res s' :
  rir_data rir i = Some (RAlloc d1 d2 nm mu ty init) → lint n b init = Some b1 →
  (∀ x, nm = Some x → x ∉ b1) → covered s b →
  analyze_alloc rir resolve interner_get resolve_type resolve_intrinsic_type_arg evaluate_variant_tag_arg
    rec i s = Done (inr (res, s')) →
  good b (match nm with Some x => {[x]} ∪ b1 | None => b1 end) i s res s'.
Proof.
  intros Hd Hl Hfresh Hcv (sp & Hr)%(open_get _ _ _ _ _ Hd). cbn [ri_data ri_span] in Hr.
  pose proof (λ k, assign_free_alloc k _ _ _ _ _ _ _ Hd) as Haf.
  apply bindM_inr in Hr as (cap & s0 & Hcap & Hr).
  assert (cap = None ∧ s0 = s) as [-> ->].
  { destruct nm as [x|]; inv_M; [|done]. by destruct (capture_none _ _ _ _ _ _ _ Hl H0) as [-> ->]. }
  apply bindM_inr in Hr as (ir & s1 & Hir & Hr). pose proof (IH _ _ _ _ _ _ _ Hl Hcv Hir) as G.
  case_bool_decide; inv_M. destruct nm as [x|].
  2:{ inv_M. destruct G as (Hf & Hs & Hm). split_and!; [done| |intros k Hk; by eapply Hm, Haf].
      intros a σ o Hfit Hok Hex. specialize (Hs a σ o Hfit Hok Hex). destruct o; cbn in *; naive_solver. }
  specialize (Hfresh x eq_refl). case_bool_decide as Hct.
  - apply bindM_inr in Hr as (inst & s2 & Hread & Hr).
    unfold read_air in Hread. apply bind_Done in Hread as (inst' & Hget & [= <- <-]).
    destruct inst' as [d ity isp]. cbn [i_data] in Hr. destruct d; inv_M. name_emit He.
    match type of He with emit _ _ _ ?s3 = _ => assert (quiet s1 s3) as Hq1 end.
    { split; try done. split; try done. intros y Hy. unfold tvars. cbn.
      destruct (decide (y = x)) as [->|]; [rewrite lookup_insert_eq|rewrite lookup_insert_ne by done]; by eauto. }
    pose proof (emit_quiet _ _ _ _ _ _ He) as Hq2.
    assert (quiet s1 s') as Hq by (by etransitivity). destruct G as (Hf & Hs & Hm). split_and!.
    + eapply frame_trans; [done|]. split; [apply Hq|]. exists []. split; [by rewrite (qu_scopes _ _ Hq)|constructor|by intros ? ?%elem_of_nil|..].
      * intros y. rewrite elem_of_union, elem_of_singleton. intros [->|]; [right; right|by left].
        apply (co_tvars _ _ (qu_core _ _ Hq2)). unfold tvars. cbn. rewrite lookup_insert_eq. by eauto.
      * set_solver.
    + intros a σ o Hfit Hok Hex. cbn [air_ref res_ty] in Hex |- *.
      destruct (exec_straight_inv _ _ _ _ _ _ _ _ _ (emit_at _ _ _ _ _ _ _ He Hfit) eq_refl Hex)
        as [(o2 & ->%execs_nil_inv & ->)|(? & ? & ? & ? & [=] & _)]. cbn. split; [done|].
      apply (quiet_ok s1); [done|].
      assert (fits a s1) as Hfit1 by (by apply (fits_core _ _ _ (qu_core _ _ Hq))).
      eapply (Hs a σ (ONorm σ) Hfit1 Hok).
      match type of Hget with _ = Done (MkInst ?d _ _) => assert (at_ref a (air_ref ir) d ity) as Hat end.
      { exists isp. unfold get_inst, AirPattern.index in Hget. apply expect_Done in Hget.
        eapply prefix_lookup_Some; [exact Hget|apply Hfit1]. }
      exact (exec_straight _ _ _ _ _ [] ONorm σ (ONorm σ) Hat eq_refl (execs_nil _ _ σ)).
    + intros k Hk y Hy Hmy. apply (quiet_mv s1); [done|]. by eapply Hm; [by apply Haf|..].
  - inv_M. by eapply (alloc_local_ok _ _ _ pred).
Qed.

(** *** Assignments *)

Lemma frame_lookup b b' s s1 x lv :
  frame b b' s s1 → covered s b → vars s !! x = Some lv → vars s1 !! x = Some lv.
Proof.
  intros (_ & news & B) Hcv Hx. unfold vars. rewrite (bi_scopes _ _ _ _ _ B), insert_all_lookup_old; [done|].
  intros [Hn _]%(bi_fresh _ _ _ _ _ B). apply Hn, (cv_local _ _ _ _ _ Hcv). by eauto.
Qed.

Lemma assign_local_ok n b b' i x lv value sp s res s' :
  rir_data rir i = Some (RAssign x value) → lint n b value = Some b' → covered s b →
  vars s !! x = Some lv → find_param (st_ctx s) x = None →
  assign_local resolve rec x lv value sp s = Done (inr (res, s')) → good b b' i s res s'.
Proof.
  intros Hd Hl Hcv Hx Hnp Hr. unfold assign_local in Hr.
  apply bindM_inr in Hr as (k & s0 & [Hk ->]%lift_inr & Hr).
  assert (Hmono : ∀ s', mono b i s s').
  { intros s'' [|k'] Ha; [done|]. cbn [SemaExec.assign_free] in Ha. by rewrite Hd in Ha. }
  assert (Href : ∀ id, k = TypeKind.MutRef id → good b b' i s res s').
  { intros id ->. inv_M. case_match; inv_M. name_emit He.
    match goal with Hv : rec _ _ = Done _ |- _ => pose proof (IH _ _ _ _ _ _ _ Hl Hcv Hv) as (Hf & Hs & _) end.
    split_and!; [eapply frame_quiet; [done|by eapply emit_quiet]| |done].
    eapply emit_value_sound; [by apply sounds_one|done|done|done|done]. }
  assert (Hstore : (if negb (lv_is_mut lv) then throw (AssignToImmutable (resolve x)) sp else
      value_result ← rec value; c ← get_ctx;
      let had_live_value := negb (bool_decide (is_Some (cx_moved_vars c !! x))) in
      _ ← mod_ctx (λ c, set_moved_vars (delete x (cx_moved_vars c)) c);
      emit_result (IStore (lv_slot lv) (air_ref value_result) had_live_value) Ty.UNIT sp) s
      = Done (inr (res, s')) → good b b' i s res s'); [|by destruct k; inv_M; eauto].
  clear Hr Href. intros Hr. destruct (lv_is_mut lv); cbn in Hr; inv_M. name_emit He.
  match goal with Hv : rec _ _ = Done (inr (_, ?t)) |- _ =>
    pose proof (IH _ _ _ _ _ _ _ Hl Hcv Hv) as (Hf & Hs & _); rename t into s1 end.
  match type of He with emit _ _ _ ?s3 = _ => set (s2 := s3) in * end.
  assert (core s1 s2 ∧ scopes s2 = scopes s1) as [Hc2 Hs2] by (by repeat split).
  pose proof (emit_quiet _ _ _ _ _ _ He) as Hq. split_and!; [| |done].
  - eapply frame_quiet; [|done]. eapply frame_trans; [done|by apply frame_core].
  - intros a σ o Hfit Hok Hex. cbn [air_ref res_ty] in Hex |- *.
    destruct (exec_straight_inv _ _ _ _ _ _ _ _ _ (emit_at _ _ _ _ _ _ _ He Hfit) eq_refl Hex)
      as [(o1 & Hes & ->)|(? & ? & ? & ? & [=] & _)].
    assert (fits a s1) as Hfit1 by (eapply fits_core; [done|by apply (fits_core _ _ _ (qu_core _ _ Hq))]).
    pose proof (sounds_one _ _ _ _ _ Hs a σ o1 Hfit1 Hok Hes) as Hp.
    destruct o1 as [σ1| | | |]; try done. destruct Hp as [_ Hok1]. cbn. split; [done|].
    apply (quiet_ok s2); [done|].
    assert (vars s1 !! x = Some lv) as Hx1 by (by eapply frame_lookup).
    assert (∀ y, y ≠ x → mv s1 y → mv s2 y) as Hmv.
    { intros y Hy. unfold mv, any_moved, s2. cbn. by rewrite lookup_delete_ne. }
    destruct Hok1 as [L S G D P]. split; [done..| |done|].
    + intros y ly Hy Hm [Hg Hne]%elem_of_difference. apply Hmv; [|by eapply G].
      intros ->. change (vars s1 !! x = Some ly) in Hy. rewrite Hx1 in Hy. simplify_eq. set_solver.
    + intros p Hp Hm Hg. apply Hmv; [|by apply P]. intros <-. apply find_param_None in Hnp.
      by rewrite (cv_params _ _ _ _ _ Hcv) in Hnp.
Qed.

Lemma assign_ok n b b' i x value sp s res s' :
  rir_data rir i = Some (RAssign x value) → lint n b value = Some b' → covered s b →
  analyze_assign resolve rec x value sp s = Done (inr (res, s')) → good b b' i s res s'.
Proof.
  intros Hd Hl Hcv Hr. unfold analyze_assign in Hr. inv_M.
  destruct (find_param (st_ctx s) x) as [p|] eqn:Hp.
  - apply find_param_Some in Hp as [Hp <-]. rewrite (cv_params _ _ _ _ _ Hcv) in Hp.
    destruct (Hplain p Hp) as (_ & Href & Hmode). unfold assign_param in Hr.
    apply bindM_inr in Hr as (k & s0 & [Hk ->]%lift_inr & Hr).
    destruct (kind_not_ref _ _ Hk Href) as [K1 K2].
    assert (match k with TypeKind.MutRef _ => Some true | TypeKind.Ref _ => Some false | _ => None end = None) as E.
    { destruct k; try done; [by destruct (K1 id)|by destruct (K2 id)]. }
    cbv zeta in Hr. rewrite E in Hr. destruct Hmode as [Em|Em]; rewrite Em in Hr; cbn in Hr; by inv_M.
  - destruct (locals (cx_scopes (st_ctx s)) !! x) as [lv|] eqn:Hlv; inv_M. by eapply assign_local_ok.
Qed.

(** *** Scopes, branches and blocks *)

Lemma frame_same b s s' : frame b b s s' → scopes s' = scopes s.
Proof.
  intros (_ & news & B). rewrite (bi_scopes _ _ _ _ _ B). destruct news as [|[x lv] news]; [done|].
  destruct (bi_fresh _ _ _ _ _ B x) as [? ?]; [by left|done].
Qed.

Lemma post_abrupt ty s ty' s' o :
  is_norm o = false → post pool params ty s o → post pool params ty' s' o.
Proof. by destruct o. Qed.

Lemma scope_ok n b b1 t s res s3 :
  lint n b t = Some b1 → covered s b → in_scope rec t s = Done (inr (res, s3)) →
  frame b b s s3 ∧ sound s res s3 ∧ mono b t s s3.
Proof.
  intros Hl Hcv Hr. unfold in_scope in Hr.
  apply bindM_inr in Hr as (? & s1 & [= <- <-] & Hr).
  apply bindM_inr in Hr as (res' & s2 & Hrec & Hr).
  apply bindM_inr in Hr as (? & s3' & [= <- <-] & [-> ->]%ret_inr).
  match type of Hrec with rec t ?u = _ => set (s1 := u) in * end.
  match goal with |- frame _ _ _ ?u ∧ _ => set (s3 := u) in * end.
  assert (covered s1 b) as Hcv1 by (destruct Hcv; by split).
  destruct (IH _ _ _ _ _ _ _ Hl Hcv1 Hrec) as (Hf & Hs & Hm).
  destruct (frame_scope b b1 s s1 s2 s3) as [Hfr Hv]; [done|by split|done|by split|done|apply Hcv|].
  split_and!; [done| |exact Hm]. intros a σ o Hfit Hok Hex.
  assert (ok s1 σ) as Hok1 by (revert Hok; by apply ok_weaken).
  pose proof (Hs a σ o Hfit Hok1 Hex) as Hp. destruct o as [σ'| | | |]; try done.
  destruct Hp as [Hty Hok2]. split; [done|]. revert Hok2. apply ok_weaken; [|done|by auto].
  intros x lv Hx. unfold vars in Hx. rewrite (frame_same _ _ _ Hfr) in Hx. by apply Hv.
Qed.

Lemma merge_any_moved_both tm em td ed x :
  any_moved tm x → any_moved em x → any_moved (Spur := Spur) (merge_branch_moves tm em td ed) x.
Proof. intros. destruct td, ed; [done|done|done|]. apply merge_any_moved. by left. Qed.

(** The state with other moves. *)
Definition with_moves (m : gmap Spur (VariableMoveState Spur)) s : St :=
  MkSt (st_air s) (set_moved_vars m (st_ctx s)) (st_pool s) (st_steps s) (st_rest s).
Lemma with_moves_mv m s x : mv (with_moves m s) x = any_moved m x.
Proof. reflexivity. Qed.
Lemma with_moves_frame b m s : frame b b s (with_moves m s).
Proof. by apply frame_core; [split|]. Qed.

Lemma ok_moves s s' σ :
  scopes s' = scopes s → next s ≤ next s' → (∀ x, mv s x → mv s' x) → ok s σ → ok s' σ.
Proof. intros Hs Hn Hm. apply ok_weaken; [unfold vars; by rewrite Hs|done|by auto]. Qed.

Lemma assign_free_branch k i c t e cm :
  rir_data rir i = Some (RBranch c t e cm) → assign_free k i = true →
  ∃ k', assign_free k' c = true ∧ assign_free k' t = true ∧ (∀ e', e = Some e' → assign_free k' e' = true).
Proof.
  intros Hd. destruct k as [|k]; [done|]. cbn [SemaExec.assign_free]. rewrite Hd.
  intros [[? ?]%andb_true_iff ?]%andb_true_iff. exists k. split_and!; [done..|]. by intros e' ->.
Qed.

(** The type of an [if] with both branches. *)
Definition joined_ty (then_type else_type ty : Ty) : Prop :=
  match is_never then_type, is_never else_type with
  | true, true => ty = Ty.NEVER
  | true, false => ty = else_type
  | false, _ => ty = then_type
  end.

Lemma branch_else_inv c t e sp s res s' :
  analyze_branch rir evaluate_comptime_inst rec c t (Some e) false sp s = Done (inr (res, s')) →
  ∃ rc s0 rt s3 re s5 ty r,
    rec c s = Done (inr (rc, s0)) ∧ in_scope rec t s0 = Done (inr (rt, s3)) ∧
    in_scope rec e (with_moves (cx_moved_vars (st_ctx s0)) s3) = Done (inr (re, s5)) ∧
    joined_ty (res_ty rt) (res_ty re) ty ∧
    emit (IBranch (air_ref rc) (air_ref rt) (Some (air_ref re))) ty sp
      (with_moves (merge_branch_moves (cx_moved_vars (st_ctx s3)) (cx_moved_vars (st_ctx s5))
         (is_never (res_ty rt)) (is_never (res_ty re))) s5) = Done (inr (r, s')) ∧
    res = MkResult r ty.
Proof.
  unfold analyze_branch. intros Hr. inv_M.
  match goal with Hj : (if is_never (res_ty ?rt) then if is_never (res_ty ?re) then _ else _ else _) ?s6
      = Done (inr (?ty, ?s7)) |- _ =>
    assert (s7 = s6 ∧ joined_ty (res_ty rt) (res_ty re) ty) as [-> Hty] end.
  { unfold joined_ty. repeat match goal with |- context [is_never ?t] => destruct (is_never t) end;
      inv_M; [done..|]. destruct (negb _ && _ && _); by inv_M. }
  eexists _, _, _, _, _, _, _, _. by split_and!.
Qed.

Lemma joined_ty_inhabited t e ty :
  joined_ty t e ty → (t ≠ Ty.NEVER ∨ is_never t = true ∧ e ≠ Ty.NEVER) → ty ≠ Ty.NEVER.
Proof.
  unfold joined_ty, is_never. repeat case_bool_decide; naive_solver.
Qed.

Lemma branch_else_ok n b b1 b2 b3 i c t e sp s res s' :
  rir_data rir i = Some (RBranch c t (Some e) false) →
  lint n b c = Some b1 → lint n b1 t = Some b2 → lint n b1 e = Some b3 → covered s b →
  analyze_branch rir evaluate_comptime_inst rec c t (Some e) false sp s = Done (inr (res, s')) →
  good b b1 i s res s'.
Proof.
  intros Hd Hlc Hlt Hle Hcv Hr.
  destruct (branch_else_inv _ _ _ _ _ _ _ Hr) as (rc & s0 & rt & s3 & re & s5 & ty & r & Hc & Ht & He & Hty & Hem & ->).
  destruct (IH _ _ _ _ _ _ _ Hlc Hcv Hc) as (Fc & Sc & Mc).
  pose proof (covered_frame _ _ _ _ _ _ _ Hcv Fc) as Hcv0.
  destruct (scope_ok _ _ _ _ _ _ _ Hlt Hcv0 Ht) as (Ft & Stt & Mt).
  set (s4 := with_moves _ s3) in *.
  assert (frame b1 b1 s0 s4) as F4 by (eapply frame_trans; [done|apply with_moves_frame]).
  destruct (scope_ok _ _ _ _ _ _ _ Hle (covered_frame _ _ _ _ _ _ _ Hcv0 F4) He) as (Fe & Se & Me).
  set (s6 := with_moves _ s5) in *.
  assert (frame b1 b1 s4 s6) as F6 by (eapply frame_trans; [done|apply with_moves_frame]).
  pose proof (emit_quiet _ _ _ _ _ _ Hem) as Hq.
  assert (scopes s6 = scopes s0 ∧ scopes s3 = scopes s0 ∧ scopes s4 = scopes s0 ∧ scopes s5 = scopes s0) as (E6 & E3 & E4 & E5).
  { pose proof (frame_same _ _ _ Ft). pose proof (frame_same _ _ _ F4).
    pose proof (frame_same _ _ _ Fe). pose proof (frame_same _ _ _ F6). split_and!; congruence. }
  assert (next s0 ≤ next s4 ∧ next s3 ≤ next s6 ∧ next s5 ≤ next s6) as (N4 & N3 & N5).
  { split_and!; [apply (co_next _ _ (proj1 F4))|exact (co_next _ _ (proj1 F6))|apply Z.le_refl]. }
  split_and!.
  - eapply frame_quiet; [|done]. eapply frame_trans; [done|]. by eapply frame_trans.
  - intros a σ o Hfit Hok Hex. cbn [air_ref res_ty] in Hex |- *.
    assert (fits a s6) as Hf6 by (by apply (fits_core _ _ _ (qu_core _ _ Hq))).
    assert (fits a s4) as Hf4 by (by eapply fits_frame).
    assert (fits a s0) as Hf0 by (by eapply fits_frame).
    destruct (exec_branch_inv _ _ _ _ _ _ _ _ _ (emit_at _ _ _ _ _ _ _ Hem Hfit) Hex)
      as [[Hec Hn]|(σ1 & Hec & Hcase)].
    { eapply post_abrupt; [done|]. by apply (Sc a σ o Hf0 Hok Hec). }
    destruct (Sc a σ _ Hf0 Hok Hec) as [_ Hok0].
    destruct Hcase as [Hx|[(e' & [= <-] & Hx)|[[=] _]]].
    + pose proof (Stt a σ1 o Hf4 Hok0 Hx) as Hp. destruct o as [σ2| | | |]; try done. destruct Hp as [Hnt Hok3].
      split; [eapply joined_ty_inhabited; eauto|]. apply (quiet_ok s6); [done|]. revert Hok3.
      apply ok_moves; [congruence|done|]. intros x Hm. apply merge_any_moved. left.
      split; [|done]. by apply bool_decide_eq_false.
    + assert (ok s4 σ1) as Hok4 by (revert Hok0; by apply ok_moves).
      pose proof (Se a σ1 o Hf6 Hok4 Hx) as Hp. destruct o as [σ2| | | |]; try done. destruct Hp as [Hnt Hok5].
      split; [eapply joined_ty_inhabited; [done|]; destruct (decide (res_ty rt = Ty.NEVER)) as [E|]; [right|by left];
        split; [by apply bool_decide_eq_true|done]|].
      apply (quiet_ok s6); [done|]. revert Hok5.
      apply ok_moves; [congruence|done|]. intros x Hm. apply merge_any_moved. right.
      split; [|done]. by apply bool_decide_eq_false.
  - intros k Hk x Hx Hm. destruct (assign_free_branch _ _ _ _ _ _ Hd Hk) as (k' & Hkc & Hkt & Hke).
    apply (quiet_mv s6); [done|]. assert (x ∈ b1) as Hx1 by (destruct Fc as (_ & news & B); by apply (bi_sub _ _ _ _ _ B)).
    pose proof (Mc _ Hkc x Hx Hm) as Hm0. apply merge_any_moved_both; [by eapply Mt|].
    by eapply (Me _ (Hke _ eq_refl)).
Qed.

Lemma branch_inv c t sp s res s' :
  analyze_branch rir evaluate_comptime_inst rec c t None false sp s = Done (inr (res, s')) →
  ∃ rc s0 rt s3 r,
    rec c s = Done (inr (rc, s0)) ∧ in_scope rec t s0 = Done (inr (rt, s3)) ∧
    emit (IBranch (air_ref rc) (air_ref rt) None) Ty.UNIT sp
      (with_moves (if is_never (res_ty rt) then cx_moved_vars (st_ctx s0)
         else merge_branch_moves (cx_moved_vars (st_ctx s3)) (cx_moved_vars (st_ctx s0)) false false) s3)
      = Done (inr (r, s')) ∧
    res = MkResult r Ty.UNIT.
Proof.
  unfold analyze_branch. intros Hr. inv_M. destruct (negb _ && _ && _); inv_M.
  eexists _, _, _, _, _. by split_and!.
Qed.

Lemma branch_ok n b b1 b2 i c t sp s res s' :
  rir_data rir i = Some (RBranch c t None false) →
  lint n b c = Some b1 → lint n b1 t = Some b2 → covered s b →
  analyze_branch rir evaluate_comptime_inst rec c t None false sp s = Done (inr (res, s')) →
  good b b1 i s res s'.
Proof.
  intros Hd Hlc Hlt Hcv Hr.
  destruct (branch_inv _ _ _ _ _ _ Hr) as (rc & s0 & rt & s3 & r & Hc & Ht & Hem & ->).
  destruct (IH _ _ _ _ _ _ _ Hlc Hcv Hc) as (Fc & Sc & Mc).
  pose proof (covered_frame _ _ _ _ _ _ _ Hcv Fc) as Hcv0.
  destruct (scope_ok _ _ _ _ _ _ _ Hlt Hcv0 Ht) as (Ft & Stt & Mt).
  set (s4 := with_moves _ s3) in *.
  assert (frame b1 b1 s0 s4) as F4 by (eapply frame_trans; [done|apply with_moves_frame]).
  pose proof (emit_quiet _ _ _ _ _ _ Hem) as Hq.
  assert (scopes s3 = scopes s0 ∧ scopes s4 = scopes s0) as (E3 & E4).
  { pose proof (frame_same _ _ _ Ft). by pose proof (frame_same _ _ _ F4). }
  assert (next s0 ≤ next s4 ∧ next s3 ≤ next s4) as (N4 & N3).
  { split_and!; [apply (co_next _ _ (proj1 F4))|apply Z.le_refl]. }
  assert (∀ x, mv s0 x → mv s4 x) as M04.
  { intros x Hm. unfold s4. rewrite with_moves_mv. destruct (is_never _); [done|]. apply merge_any_moved. by right. }
  split_and!.
  - eapply frame_quiet; [|done]. by eapply frame_trans.
  - intros a σ o Hfit Hok Hex. cbn [air_ref res_ty] in Hex |- *.
    assert (fits a s4) as Hf4 by (by apply (fits_core _ _ _ (qu_core _ _ Hq))).
    assert (fits a s0) as Hf0 by (by eapply fits_frame).
    destruct (exec_branch_inv _ _ _ _ _ _ _ _ _ (emit_at _ _ _ _ _ _ _ Hem Hfit) Hex)
      as [[Hec Hn]|(σ1 & Hec & Hcase)].
    { eapply post_abrupt; [done|]. by apply (Sc a σ o Hf0 Hok Hec). }
    destruct (Sc a σ _ Hf0 Hok Hec) as [_ Hok0].
    destruct Hcase as [Hx|[(e' & [=] & Hx)|[_ ->]]].
    + pose proof (Stt a σ1 o Hf4 Hok0 Hx) as Hp. destruct o as [σ2| | | |]; try done. destruct Hp as [Hnt Hok3].
      split; [done|]. apply (quiet_ok s4); [done|]. revert Hok3. apply ok_moves; [congruence|done|].
      intros x Hm. unfold s4. rewrite with_moves_mv. unfold is_never. rewrite bool_decide_false by done.
      apply merge_any_moved. by left.
    + split; [done|]. apply (quiet_ok s4); [done|]. revert Hok0. by apply ok_moves.
  - intros k Hk x Hx Hm. destruct (assign_free_branch _ _ _ _ _ _ Hd Hk) as (k' & Hkc & _).
    apply (quiet_mv s4); [done|]. apply M04. by eapply Mc.
Qed.

Lemma return_ok n b b' i inner sp s res s' :
  rir_data rir i = Some (RRet inner) →
  match inner with Some x => lint n b x = Some b' | None => b' = b end → covered s b →
  analyze_return rec inner sp s = Done (inr (res, s')) → good b b' i s res s'.
Proof.
  intros Hd Hl Hcv Hr. unfold analyze_return in Hr.
  apply bindM_inr in Hr as (v & s1 & Hv & Hr). inv_M. name_emit He.
  pose proof (emit_quiet _ _ _ _ _ _ He) as Hq.
  assert (frame b b' s s1 ∧ sounds s (option_list v) True s1 ∧ mono b i s s1) as (Hf & Hs & Hm).
  { destruct inner as [inner|]; cycle 1.
    - subst. inv_M. destruct (negb _ && _); inv_M.
      split_and!; [by apply quiet_frame|apply sounds_nil|by intros k _ y _].
    - apply bindM_inr in Hv as (rx & s2 & Hrx & Hv). inv_M.
      destruct (is_any_ref _); inv_M. destruct (negb _ && _ && _); inv_M.
      destruct (IH _ _ _ _ _ _ _ Hl Hcv Hrx) as (Fx & Sx & Mx). split_and!; [done| |].
      + eapply sounds_impl; [|by apply sounds_one]. done.
      + intros k Hk. eapply (Mx (pred k)). destruct k as [|k]; [done|].
        cbn [SemaExec.assign_free pred] in *. by rewrite Hd in Hk. }
  split_and!; [by eapply frame_quiet| |].
  - by eapply (emit_sound _ _ _ _ _ _ _ _ _ _ _ (λ _, ORet)).
  - intros k Hk y Hy Hmy. apply (quiet_mv s1); [done|]. by eapply Hm.
Qed.

Lemma jump_ok b i d sp s r s' jump :
  emit d Ty.NEVER sp s = Done (inr (r, s')) →
  (∀ a, straight pool a d Ty.NEVER = Some ([], jump)) → (∀ σ, jump σ = OBreak σ ∨ jump σ = OCont σ) →
  good b b i s (MkResult r Ty.NEVER) s'.
Proof.
  intros He Hst Hj. pose proof (emit_quiet _ _ _ _ _ _ He) as Hq.
  split_and!; [by apply quiet_frame| |intros k _ x _ Hm; by apply (quiet_mv s)].
  eapply (emit_sound _ _ s [] True s); [apply sounds_nil|done|by auto| |].
  - intros op l x ->. by specialize (Hst (new_air Ty.UNIT)).
  - intros σ _ _. by destruct (Hj σ) as [-> | ->].
Qed.

(** The instructions of a block, in order. *)
Lemma stmts_ok n refs b b' s stmts last s' :
  foldl (λ b r, b0 ← b; lint n b0 r) (Some b) refs = Some b' → covered s b →
  analyze_stmts rec refs s = Done (inr ((stmts, last), s')) →
  frame b b' s s' ∧
  match last with
  | Some res => sounds s (stmts ++ [air_ref res]) (res_ty res ≠ Ty.NEVER) s'
  | None => refs = [] ∧ stmts = [] ∧ s' = s
  end ∧
  (∀ k, forallb (assign_free k) refs = true → ∀ x, x ∈ b → mv s x → mv s' x).
Proof.
  revert b s stmts last. induction refs as [|r refs IHr]; intros b s stmts last Hl Hcv Hr.
  { cbn in Hl, Hr. apply ret_inr in Hr as [[= -> ->] ->]. simplify_eq.
    split_and!; [by apply quiet_frame|done|done|done|by auto]. }
  cbn [foldl] in Hl. cbn in Hl. destruct (lint n b r) as [b1|] eqn:Hlr; cycle 1.
  { exfalso. clear -Hl. induction refs as [|r' refs IHr]; [done|]. by apply IHr. }
  cbn [analyze_stmts] in Hr. apply bindM_inr in Hr as (rr & s1 & Hrr & Hr).
  destruct (IH _ _ _ _ _ _ _ Hlr Hcv Hrr) as (Fr & Sr & Mr).
  pose proof (covered_frame _ _ _ _ _ _ _ Hcv Fr) as Hcv1.
  destruct refs as [|r2 refs].
  { apply ret_inr in Hr as [[= -> ->] ->]. cbn in Hl. simplify_eq. split_and!; [done|by apply sounds_one|].
    intros k [Hk _]%andb_true_iff. by eapply Mr. }
  apply bindM_inr in Hr as ([stmts' last'] & s2 & Hrest & [[= -> ->] ->]%ret_inr).
  destruct (IHr _ _ _ _ Hl Hcv1 Hrest) as (F2 & S2 & M2). split_and!; [by eapply frame_trans| |].
  - destruct last' as [res|].
    + cbn [app]. eapply sounds_impl; [|eapply sounds_cons; [done|apply F2|done]]. tauto.
    + by destruct S2.
  - intros k [Hk Hks]%andb_true_iff x Hx Hm. eapply M2; [done| |by eapply Mr].
    destruct Fr as (_ & news & B). by apply (bi_sub _ _ _ _ _ B).
Qed.

Lemma linear_check_inv s u s1 :
  check_unconsumed_linear_values resolve s = Done (inr (u, s1)) → s1 = s.
Proof.
  unfold check_unconsumed_linear_values. intros Hr. inv_M. destruct (scope_stack _) as [|entries stk]; inv_M; [done|].
  induction entries as [|[x o] entries IHe]; cbn [unconsumed_linear] in Hr; inv_M; [done|].
  destruct (locals _ !! x); [|by apply IHe]. inv_M.
  match type of Hr with (if ?c then _ else _) _ = _ => destruct c end; inv_M. by apply IHe.
Qed.

Lemma check_unused_inv c :
  check_unused_locals_in_current_scope resolve c = c ∨
  ∃ w, check_unused_locals_in_current_scope resolve c = set_warnings w c.
Proof. unfold check_unused_locals_in_current_scope. destruct (scope_stack _); by eauto. Qed.

Lemma block_ok n b b' i start len refs sp s res s' :
  rir_data rir i = Some (RBlock start len) → rir_block rir start len = Some refs →
  foldl (λ b r, b0 ← b; lint n b0 r) (Some b) refs = Some b' → covered s b →
  analyze_block rir resolve rec start len sp s = Done (inr (res, s')) → good b b i s res s'.
Proof.
  intros Hd Hrefs Hl Hcv Hr. unfold analyze_block in Hr.
  apply bindM_inr in Hr as (refs' & s0 & [Hg ->]%lift_inr & Hr).
  unfold rir_block in Hrefs. rewrite Hg in Hrefs. simplify_eq.
  apply bindM_inr in Hr as (u1 & s1 & [= <- <-] & Hr).
  apply bindM_inr in Hr as ([stmts last] & s2 & Hst & Hr).
  match type of Hst with _ ?u = _ => set (s1 := u) in * end.
  apply bindM_inr in Hr as (u2 & s2' & ->%linear_check_inv & Hr).
  apply bindM_inr in Hr as (u3 & s3 & [= <- <-] & Hr).
  apply bindM_inr in Hr as (u4 & s4 & [= <- <-] & Hr).
  match type of Hr with _ ?u = _ => set (s4 := u) in * end.
  assert (covered s1 b) as Hcv1 by (destruct Hcv; by split).
  destruct (stmts_ok _ _ _ _ _ _ _ _ Hl Hcv1 Hst) as (Fs & Ss & Ms).
  assert (core s2 s4 ∧ scopes s4 = pop_scope (scopes s2) ∧ next s4 = next s2 ∧
    cx_moved_vars (st_ctx s4) = cx_moved_vars (st_ctx s2)) as (C4 & E4 & N4 & M4).
  { subst s4. destruct (check_unused_inv (st_ctx s2)) as [E|[w E]]; cbn in E |- *;
      unfold scopes, next, tvars; cbn; rewrite E; by repeat split. }
  destruct (frame_scope b b' s s1 s2 s4) as [F4 Hv]; [done|by split|done|done|done|apply Hcv|].
  assert (∀ x, mv s2 x ↔ mv s4 x) as Hmv by (intros x; unfold mv; by rewrite M4).
  assert (∀ σ, ok s2 σ → ok s4 σ) as Hok24.
  { intros σ. apply ok_weaken; [|lia|intros x _; apply Hmv].
    intros x lv Hx. unfold vars in Hx. rewrite (frame_same _ _ _ F4) in Hx. by apply Hv. }
  assert (mono b i s s4) as Hmono.
  { intros [|k] Hk x Hx Hm; [done|]. cbn [SemaExec.assign_free] in Hk. rewrite Hd in Hk.
    unfold rir_block in Hk. rewrite Hg in Hk. apply Hmv. by eapply Ms. }
  destruct last as [last|]; cycle 1.
  { destruct Ss as (-> & -> & ->). apply bindM_inr in Hr as (last & s5 & Hlast & [-> ->]%ret_inr). inv_M.
    eapply good_value; [|done|done|done]. split; [apply F4|by apply (frame_same _ _ _ F4)|by rewrite M4|by rewrite N4]. }
  apply bindM_inr in Hr as (last' & s5 & [-> ->]%ret_inr & Hr).
  assert (sounds s (stmts ++ [air_ref last]) (res_ty last ≠ Ty.NEVER) s4) as S4.
  { eapply sounds_ctx; [|done|done]. intros a σ o Hfit Hok. apply Ss; [done|]. revert Hok. by apply ok_weaken. }
  clear Ss Ms Hst Hv Hok24 Hmv.
  destruct stmts as [|st0 stmts].
  - apply ret_inr in Hr as [-> ->]. split_and!; [done| |done]. intros a σ o Hfit Hok Hex.
    assert (execs pool a [air_ref last] σ o) as Hes.
    { destruct (is_norm o) eqn:Hn; [|by apply execs_stop]. destruct o; try done.
      eapply execs_go; [done|constructor]. }
    pose proof (S4 a σ o Hfit Hok Hes) as Hp. by destruct o.
  - apply bindM_inr in Hr as (start' & s5 & Hex & Hr). inv_M. name_emit He.
    pose proof (emit_extra_quiet _ _ _ _ Hex) as Q5. pose proof (emit_quiet _ _ _ _ _ _ He) as Q6.
    assert (quiet s4 s') as Q by (by etransitivity).
    split_and!; [by eapply frame_quiet| |intros k Hk y Hy Hm; apply (quiet_mv s4); [done|by eapply Hmono]].
    eapply emit_value_sound; [exact (sounds_quiet _ _ _ _ _ S4 Q5)|done| |done|done].
    intros a Hfit. cbn [straight]. rewrite (emit_extra_read _ _ _ _ _ Hex); [done|].
    by apply (fits_core _ _ _ (qu_core _ _ Q6)).
Qed.
End Rec.

Notation analyze := (analyze_inst rir constants builtin_string_id resolve interner_get evaluate_comptime_inst
  resolve_type resolve_intrinsic_type_arg evaluate_variant_tag_arg analyze_other).

(** Every instruction of the subset, by induction on the depth of the analysis. *)
Lemma analyze_ok m : rec_ok (analyze m).
Proof.
  induction m as [|m IHm]; intros n b b' i s res s' Hl Hcv Hr; [by inv_M|].
  destruct n as [|n]; [done|]. cbn [SemaExec.lint] in Hl. case_bool_decide as Hres; [done|].
  destruct (rir_data rir i) as [d|] eqn:Hd; [|done]. cbn in Hl.
  cbn [analyze_inst] in Hr. destruct (open_get _ _ _ _ _ Hd Hr) as (sp & Hr'). clear Hr.
  cbn [ri_data ri_span] in Hr'. rename Hr' into Hr.
  destruct d; cbn in Hl; try done; simplify_eq.
  - by eapply literal_ok.
  - by eapply literal_ok.
  - by eapply literal_ok.
  - by eapply literal_ok.
  - by eapply literal_ok.
  - by eapply literal_ok.
  - destruct op; try done;
      try (apply bind_Some in Hl as (b1 & Hl1 & Hl2); eapply arith_ok; [exact IHm|exact Hd|done|exact Hl1|exact Hl2|done|exact Hr]).
    + apply bind_Some in Hl as (b1 & Hl1 & Hl). apply bind_Some in Hl as (b2 & Hl2 & Hl).
      case_bool_decide; [|done]. destruct (SemaExec.assign_free _ _ _) eqn:Ha; cbn in Hl; simplify_eq.
      by eapply logical_ok; [..|exact Hr]; eauto.
    + apply bind_Some in Hl as (b1 & Hl1 & Hl). apply bind_Some in Hl as (b2 & Hl2 & Hl).
      case_bool_decide; [|done]. destruct (SemaExec.assign_free _ _ _) eqn:Ha; cbn in Hl; simplify_eq.
      by eapply logical_ok; [..|exact Hr]; eauto.
  - by eapply unary_ok.
  - destruct is_comptime; [done|]. apply bind_Some in Hl as (b1 & Hl1 & Hl). apply bind_Some in Hl as (b2 & Hl2 & Hl).
    destruct (open_get _ _ _ _ _ Hd Hr) as (sp' & Hr'). cbn [ri_data ri_span] in Hr'.
    destruct else_block as [e|].
    + apply bind_Some in Hl as (b3 & Hl3 & [= <-]). eapply branch_else_ok; [exact IHm|..]; done.
    + injection Hl as <-. eapply branch_ok; [exact IHm|..]; done.
  - destruct (open_get _ _ _ _ _ Hd Hr) as (sp' & Hr'). cbn [ri_data ri_span] in Hr'. inv_M.
    destruct (_ =? 0); inv_M. destruct (cx_forbid_break _); inv_M. name_emit He.
    eapply (jump_ok _ _ _ _ _ _ _ OBreak); [done|done|by left].
  - destruct (open_get _ _ _ _ _ Hd Hr) as (sp' & Hr'). cbn [ri_data ri_span] in Hr'. inv_M.
    destruct (_ =? 0); inv_M. name_emit He. eapply (jump_ok _ _ _ _ _ _ _ OCont); [done|done|by right].
  - destruct (open_get _ _ _ _ _ Hd Hr) as (sp' & Hr'). cbn [ri_data ri_span] in Hr'.
    eapply (return_ok _ IHm n); [exact Hd| |done|exact Hr']. by destruct value; simplify_eq.
  - destruct (open_get _ _ _ _ _ Hd Hr) as (sp' & Hr'). cbn [ri_data ri_span] in Hr'.
    apply bind_Some in Hl as (refs & Hrefs & Hl). apply bind_Some in Hl as (b1 & Hl1 & [= <-]).
    eapply block_ok; [exact IHm|..]; done.
  - destruct (open_get _ _ _ _ _ Hd Hr) as (sp' & Hr'). cbn [ri_data ri_span] in Hr'.
    apply bind_Some in Hl as (b1 & Hl1 & Hl).
    assert (b' = match name with Some x => {[x]} ∪ b1 | None => b1 end ∧ (∀ x, name = Some x → x ∉ b1)) as [-> Hx].
    { destruct name as [x|]; [case_bool_decide|]; naive_solver. }
    eapply alloc_ok; [exact IHm|..]; done.
  - destruct (open_get _ _ _ _ _ Hd Hr) as (sp' & Hr'). cbn [ri_data ri_span] in Hr'.
    case_bool_decide; [|done]. injection Hl as <-. by eapply var_ref_ok.
  - destruct (open_get _ _ _ _ _ Hd Hr) as (sp' & Hr'). cbn [ri_data ri_span] in Hr'.
    case_bool_decide; [|done]. eapply assign_ok; [exact IHm|..]; done.
Qed.
End Handlers.
