(* ===== verification/SemaSpec.v ===== *)
(** * What the move check guarantees, and where it does not

    [accepted_code_never_uses_moved]: the analysis of a whole function, on the
    subset [lint] describes. The examples at the end are functions outside the
    subset (shadowing, a loop, a short-circuited assignment) that the analysis
    accepts although a path through the AIR it emits reads a moved variable. *)

From S2P Require Import Prelude Types AirPattern Air InternPool ParamArena Scope Moves SemaState.
From S2P Require Import Rir Sema SemaExec SemaMoves.

#[local] Open Scope Z_scope.

Section Spec.
Context {Spur : Type} `{Countable Spur} `{!SpurKey Spur} {Rest : Type}.
Notation M := (M Spur Rest).
Notation St := (St Spur Rest).
Context (rir : Rir Spur) (constants : gmap Spur ConstInfo) (builtin_string_id : option Z).
Context (resolve : Spur → string) (interner_get : string → option Spur).
Context (evaluate_comptime_inst : InstRef → gmap Spur ConstValue → Span → M ConstValue).
Context (resolve_type : Spur → Span → St → outcome ((CompileError + Ty) * St)).
Context (resolve_intrinsic_type_arg : InstRef → M Ty).
Context (evaluate_variant_tag_arg : InstRef → Z → Span → M Z).
Context (analyze_other : (InstRef → M AnalysisResult) → InstRef → M AnalysisResult).

(** Passed by value, with an inhabited type that is not a reference. *)
Definition by_value (p : Spur * Ty * RirParamMode) : Prop :=
  let '(_, ty, mode) := p in
  ty ≠ Ty.NEVER ∧ is_any_ref ty = false ∧ (mode = ParamNormal ∨ mode = ParamComptime).
(** No move type is zero-sized. *)
Definition no_affine_zst (pool : TypeInternPool (Spur := Spur)) : Prop :=
  ∀ ty n, moves_ty pool ty = true → sema_abi_slot_count pool ty = Done n → 0 < n.
Definition param_names (params : list (Spur * Ty * RirParamMode)) : list Spur := map (λ p, p.1.1) params.

(** The slots of the parameters lie one after the other. *)
Lemma layout_params_spec pool start params infos total :
  no_affine_zst pool → Forall by_value params → 0 ≤ start →
  layout_params pool start params = Done (infos, total) →
  map (λ i, (pi_name i, pi_ty i, pi_mode i)) infos = params ∧
  (∀ i, i ∈ infos → start ≤ pi_abi_slot i) ∧
  (∀ i j, i ∈ infos → j ∈ infos → moves_ty pool (pi_ty i) = true → moves_ty pool (pi_ty j) = true →
     pi_abi_slot i = pi_abi_slot j → i = j).
Proof.
  intros Hz. revert start infos. induction params as [|[[nm ty] mode] params IH]; intros start infos Hv Hst Hl.
  { cbn in Hl. injection Hl as <- _. split_and!; [done|intros i|intros i j]; by intros ?%elem_of_nil. }
  apply list.Forall_cons in Hv as [Hbv Hv']. destruct Hbv as (_ & _ & Hm). cbn [layout_params] in Hl.
  apply bind_Done in Hl as (slots & Hs & Hl). apply bind_Done in Hl as (nx & [-> _]%checked_add_Done & Hl).
  apply bind_Done in Hl as ([infos' total'] & Hl & [= <- <-]).
  assert (sema_abi_slot_count pool ty = Done slots) as Hs' by (by destruct Hm; subst).
  pose proof (slot_count_nonneg _ _ _ _ Hs') as Hn.
  destruct (IH (start + slots) infos' Hv' ltac:(lia) Hl) as (Hmap & Hge & Hd).
  assert (∀ j, j ∈ infos' → moves_ty pool ty = true → start ≠ pi_abi_slot j) as Hfirst.
  { intros j Hj Hmt. pose proof (Hz _ _ Hmt Hs'). specialize (Hge j Hj). lia. }
  split_and!.
  - cbn. by rewrite Hmap.
  - intros i [->|Hi]%elem_of_cons; [cbn; lia|]. specialize (Hge i Hi). lia.
  - intros i j [->|Hi]%elem_of_cons [->|Hj]%elem_of_cons Hmi Hmj Heq; [done| | |by apply Hd].
    + cbn in Hmi, Heq. by destruct (Hfirst j Hj Hmi).
    + cbn in Hmj, Heq. by destruct (Hfirst i Hi Hmj).
Qed.

(** C2: a function body of the subset [lint] that the analysis accepts never reads
    a variable or a parameter after it has been moved, whatever way its conditions
    turn out. Its parameters are passed by value, and the program has no zero-sized
    move type. *)
Theorem accepted_code_never_uses_moved (fuel n : nat) (pool : TypeInternPool (Spur := Spur)) (steps : Z)
    (rest : Rest) (return_type : Ty) (params : list (Spur * Ty * RirParamMode)) (body : InstRef)
    (resolved : gmap Z Ty) (type_vars : gmap Spur Ty) (value_vars : gmap Spur ConstValue)
    (bound : gset Spur) (res : AnalysisResult) (s : St) (o : out) :
  analyze_function rir constants builtin_string_id resolve interner_get evaluate_comptime_inst resolve_type
    resolve_intrinsic_type_arg evaluate_variant_tag_arg analyze_other
    fuel pool steps rest return_type params body resolved type_vars value_vars = Done (inr (res, s)) →
  lint rir resolved n (list_to_set (param_names params) ∪ dom type_vars) body = Some bound →
  Forall by_value params → no_affine_zst pool →
  Z.of_nat (length (instructions (st_air s))) < 2 ^ 32 → Z.of_nat (length (extra (st_air s))) < 2 ^ 32 →
  exec pool (st_air s) (air_ref res) (MkC ∅ ∅) o → o ≠ OFault.
Proof.
  intros Ha Hl Hv Hz Hi He Hex. unfold analyze_function in Ha.
  apply bind_Done in Ha as ([infos total] & Hlay & Ha).
  destruct (layout_params_spec _ _ _ _ _ Hz Hv ltac:(done) Hlay) as (Hmap & _ & Hslots).
  assert (Hin : ∀ i, i ∈ infos → (pi_name i, pi_ty i, pi_mode i) ∈ params).
  { intros i Hi'. rewrite <-Hmap. by apply (list_elem_of_fmap_2 (λ i, (pi_name i, pi_ty i, pi_mode i))). }
  assert (Hnames : map pi_name infos = param_names params).
  { rewrite <-Hmap. unfold param_names. rewrite map_map. done. }
  apply bindM_inr in Ha as (res' & s1 & Hbody & Ha).
  apply bindM_inr in Ha as (inst & s2 & [_ ->]%lift_inr & Ha).
  apply bindM_inr in Ha as (r & s2 & Hret & [-> ->]%ret_inr).
  assert (core s1 s2) as Hc.
  { case_bool_decide; [by apply ret_inr in Hret as [_ ->]|]. by eapply emit_core. }
  set (s0 := MkSt _ _ _ _ _) in Hbody.
  assert (covered pool resolved infos s0 (list_to_set (param_names params) ∪ dom type_vars)) as Hcv.
  { split; [done..|by intros x [? [=]]| |].
    - intros p Hp. apply elem_of_union_l, elem_of_list_to_set. rewrite <-Hnames. by apply list_elem_of_fmap_2.
    - intros x [Hx%elem_of_list_to_set|Hx%elem_of_dom]%elem_of_union; [left|right; by right].
      rewrite <-Hnames in Hx. apply list_elem_of_fmap in Hx as (p & -> & Hp). by eauto. }
  assert (ok pool infos s0 (MkC ∅ ∅)) as Hok.
  { split; [by intros ? ? [=]..|by intros ? ? ? ? [=]|]. intros p _ _ Hg. by apply elem_of_empty in Hg. }
  eapply analyze_ok in Hbody as (_ & Hs & _); [..|exact Hl|exact Hcv]; [| |exact Hslots|exact Hz].
  - assert (post pool infos (res_ty res') s1 o) as Hp; [|by destruct o].
    apply (Hs (st_air s2) (MkC ∅ ∅)); [|done|done]. split_and!; [apply Hc|apply Hc|done|done].
  - intros p Hp. rewrite list.Forall_forall in Hv. by apply (Hv _ (Hin p Hp)).
Qed.

(** ** Negated minimum literals *)

(** The bit width of a signed integer type. *)
Definition signed_width (ty : Ty) : option Z :=
  match ty_u32 ty with
  | 0 | 21 => Some 8
  | 1 | 22 => Some 16
  | 2 | 23 => Some 32
  | 3 | 8 | 24 | 25 => Some 64
  | _ => None
  end.

Lemma negated_only_signed ty value :
  negated_literal_fits ty value = true → literal_fits ty value = false →
  ∃ w, signed_width ty = Some w ∧ value = 2 ^ (w - 1) ∧ is_unsigned ty = false.
Proof.
  destruct ty as [t]. unfold negated_literal_fits, literal_fits, signed_width, is_unsigned. cbn [ty_u32].
  unfold i8_MAX, i16_MAX, i32_MAX, i64_MAX.
  intros Hn Hl. repeat (case_match; try done); eexists; (split; [done|]); (split; [lia|done]).
Qed.

Lemma min_literal_cases ty w :
  signed_width ty = Some w →
  min_literal ty = if bool_decide (ty ∈ [Ty.I8; Ty.I16; Ty.I32; Ty.I64]) then Done (2 ^ 64 - 2 ^ (w - 1)) else Panic.
Proof.
  destruct ty as [t]. unfold signed_width. cbn [ty_u32]. intros Hw.
  repeat (case_match; try done); injection Hw as <-; reflexivity.
Qed.

End Spec.

(** ** Concrete functions

    [struct S { v: i32 }] with affine posture; parameters [p, q : S] and
    [c : bool]. Names are numbers. *)
Module MoveSample.
#[export] Instance nat_key : SpurKey nat := {
  into_usize s := Z.of_nat s;
  try_from_usize n := if decide (0 ≤ n < 2 ^ 32) then Some (Z.to_nat n) else None;
}.
Definition p : nat := 0.
Definition q : nat := 1.
Definition c : nat := 2.
Definition x : nat := 3.
Definition y : nat := 4.
Definition z : nat := 5.

Definition S_def : StructDef :=
  MkStructDef "S" [MkStructField "v" Ty.I32 true] Affine false Sync None false true 1 false.
Definition pool : TypeInternPool (Spur := nat) :=
  match register_struct new_pool 9%nat S_def with Done (_, _, pl) => pl | _ => new_pool end.
Definition S_ty : Ty := new_struct 0.
Definition params : list (nat * Ty * RirParamMode) :=
  [(p, S_ty, ParamNormal); (q, S_ty, ParamNormal); (c, Ty.BOOL, ParamNormal)].

Definition sp : Span := MkSpan 0 0 0.
Definition mk_rir (insts : list (InstData nat)) (words : list Z) : Rir nat :=
  MkRir (map (λ d, MkRirInst d sp) insts) words [] [] [].
Definition lett (n : nat) (init : Z) : InstData nat := RAlloc 0 0 (Some n) true None init.

(** No other instruction, no type names, no compile-time code. *)
Definition no_eval (_ : InstRef) (_ : gmap nat ConstValue) (s : Span) : M nat () ConstValue := throw InternalError s.
Definition no_type (_ : nat) (s : Span) (st : St nat ())
    : outcome ((CompileError + Ty) * St nat ()) := Done (inl (MkError InternalError s), st).
Definition no_type_arg (_ : InstRef) : M nat () Ty := throw InternalError sp.
Definition no_tag (_ : InstRef) (_ : Z) (s : Span) : M nat () Z := throw InternalError s.
Definition no_other (_ : InstRef → M nat () AnalysisResult) (_ : InstRef) : M nat () AnalysisResult :=
  throw InternalError sp.
Definition analyze (r : Rir nat) (body : InstRef) : outcome (CompileError + AnalysisResult * St nat ()) :=
  analyze_function r ∅ None (λ _, "v"%string) (λ _, None) no_eval no_type no_type_arg no_tag no_other
    20 pool 0 () Ty.UNIT params body ∅ ∅ ∅.
(** The reference of the body and the AIR of an accepted function. *)
Definition air_of (r : Rir nat) (body : InstRef) : option (AirRef * Air (Spur := nat)) :=
  match analyze r body with
  | Done (inr (res, s)) => Some (air_ref res, st_air s)
  | _ => None
  end.

(** [{ let mut x = p; if c { let y = x; } x = q; let z = x; }] *)
Definition reassigned : Rir nat := mk_rir
  [RVarRef p; lett x 0; RVarRef c; RVarRef x; lett y 3; RBlock 0 1; RBranch 2 5 None false;
   RVarRef q; RAssign x 7; RVarRef x; lett z 9; RBlock 1 4] [4; 1; 6; 8; 10].

(** [{ let mut x = p; let y = x; { let x = q; } let z = x; }] *)
Definition shadowed : Rir nat := mk_rir
  [RVarRef p; lett x 0; RVarRef x; lett y 2; RVarRef q; lett x 4; RUnitConst; RBlock 0 2; RVarRef x; lett z 8;
   RBlock 2 4] [5; 6; 1; 3; 7; 9].

(** [{ while c { let y = p; } }] *)
Definition looped : Rir nat := mk_rir
  [RVarRef c; RVarRef p; lett y 1; RBlock 0 1; RLoop 0 3; RBlock 1 1] [2; 4].

(** [{ let mut x = p; let y = x; while c { x = q; } let z = x; }] *)
Definition skipped_loop : Rir nat := mk_rir
  [RVarRef p; lett x 0; RVarRef x; lett y 2; RVarRef c; RVarRef q; RAssign x 5; RBlock 0 1; RLoop 4 7;
   RVarRef x; lett z 9; RBlock 1 4] [6; 1; 3; 8; 10].

(** [{ let mut x = p; let y = x; c && { x = q; true }; let z = x; }] *)
Definition short_circuit : Rir nat := mk_rir
  [RVarRef p; lett x 0; RVarRef x; lett y 2; RVarRef c; RVarRef q; RAssign x 5; RBoolConst true; RBlock 0 2;
   RBin And 4 8; RVarRef x; lett z 10; RBlock 2 4] [6; 7; 1; 3; 9; 11].

Lemma pool_entry id d : entry pool id = Done d → d = TStruct (MkStructData 9%nat S_def).
Proof.
  unfold entry. case_decide; [|done]. intros Hd%expect_Done.
  change (InternPool.types pool) with [TStruct (MkStructData 9%nat S_def)] in Hd.
  by apply list_lookup_singleton_Some in Hd as [_ <-].
Qed.

Lemma pool_sized : no_affine_zst pool.
Proof.
  intros ty n Hm Hn. unfold moves_ty, is_type_copy in Hm. unfold sema_abi_slot_count in Hn.
  change (query_fuel pool) with 3%nat in *. cbn [type_copy slot_count] in Hm, Hn.
  destruct (kind ty) as [k| |]; [|done|done]. cbn [mbind outcome_bind] in Hm, Hn.
  destruct k; try done; try (by injection Hn as <-).
  - apply bind_Done in Hn as (d & Hd & Hn). unfold struct_def in Hd.
    apply bind_Done in Hd as (e & ->%pool_entry & [= <-]). by injection Hn as <-.
  - apply bind_Done in Hn as ([e len] & Hd & _). unfold array_def in Hd.
    by apply bind_Done in Hd as (e' & ->%pool_entry & ?).
Qed.

(** Accepted, and a path reads a moved variable. *)
Definition accepted_and_faults (r : Rir nat) (body : InstRef) : Prop :=
  ∃ res s, analyze r body = Done (inr (res, s)) ∧ exec pool (st_air s) (air_ref res) (MkC ∅ ∅) OFault.

Lemma faults_by_run r body ch :
  match analyze r body with
  | Done (inr (res, s)) =>
      match run pool (st_air s) 50 ch (air_ref res) (MkC ∅ ∅) with Some (OFault, _) => true | _ => false end
  | _ => false
  end = true → accepted_and_faults r body.
Proof.
  intros Hr. destruct (analyze r body) as [[e|[res s]]| |] eqn:Ha; try done.
  destruct (run _ _ _ _ _ _) as [[[]]|] eqn:Hrun; try done. exists res, s. split; [done|by eapply run_sound].
Qed.
End MoveSample.

(** [-9223372036854775808] at type [isize]. *)
Definition min_isize : Rir nat := MoveSample.mk_rir [RIntConst (2 ^ 63); RUnary Neg 0] [].
Definition at_type (ty : Ty) : St nat () :=
  MkSt (new_air Ty.UNIT) (init_ctx [] Ty.UNIT {[1 := ty]} ∅ ∅) MoveSample.pool 0 ().

Lemma reassigned_accepted :
  match MoveSample.analyze MoveSample.reassigned 11 with
  | Done (inr (res, s)) =>
      Z.of_nat (length (instructions (st_air s))) < 2 ^ 32 ∧ Z.of_nat (length (extra (st_air s))) < 2 ^ 32
  | _ => False
  end.
Proof. by vm_compute. Qed.
Lemma reassigned_linted :
  ∃ bound, lint MoveSample.reassigned ∅ 20 (list_to_set (param_names MoveSample.params) ∪ dom (∅ : gmap nat Ty)) 11
    = Some bound.
Proof. eexists. vm_compute. reflexivity. Qed.

Lemma accepted_code_never_uses_moved_witness :
  match MoveSample.analyze MoveSample.reassigned 11 with
  | Done (inr (res, s)) => ¬ exec MoveSample.pool (st_air s) (air_ref res) (MkC ∅ ∅) OFault
  | _ => False
  end.
Proof.
  pose proof reassigned_accepted as Hacc. destruct reassigned_linted as [bound Hlint].
  destruct (MoveSample.analyze MoveSample.reassigned 11) as [[e|[res s]]| |] eqn:Ha; [done| |done|done].
  intros Hx. destruct Hacc as [Hi He].
  refine (accepted_code_never_uses_moved _ _ _ _ _ _ _ _ _ _ _ _ _ _ _ _ _ _ _ _ _ bound _ _ _
    Ha Hlint _ MoveSample.pool_sized Hi He Hx eq_refl).
  repeat constructor; done.
Defined.

(** shadowing hides a move. The analysis accepts
    [{ let mut x = p; let y = x; { let x = q; } let z = x; }]: declaring the inner
    [x] clears the moves recorded under the name, and leaving its scope does not
    bring them back, so the outer [x] is read after it was moved. *)
Theorem shadowing_hides_a_move : MoveSample.accepted_and_faults MoveSample.shadowed 10.
Proof. apply (MoveSample.faults_by_run _ _ []). by vm_compute. Qed.

(** Loop bodies are analysed once. The analysis accepts a body that moves a
    parameter ([while c { let y = p; }]: the second iteration moves it again), and
    takes an assignment inside the body as made ([let y = x; while c { x = q; } let z = x;]:
    without an iteration [x] is still moved). *)
Lemma loops_hide_moves :
  MoveSample.accepted_and_faults MoveSample.looped 5 ∧ MoveSample.accepted_and_faults MoveSample.skipped_loop 11.
Proof.
  split; [apply (MoveSample.faults_by_run _ _ [true; true])|apply (MoveSample.faults_by_run _ _ [false])]; by vm_compute.
Qed.

(** An assignment in the second operand of [&&] counts as made even when that
    operand is not evaluated: [let y = x; c && { x = q; true }; let z = x;]. *)
Lemma short_circuit_hides_a_move : MoveSample.accepted_and_faults MoveSample.short_circuit 12.
Proof. apply (MoveSample.faults_by_run _ _ [false]). by vm_compute. Qed.

