(* ===== verification/Specialize.v ===== *)
(** * Specialization of generic functions, and the literal pools of a program

    Models [crates/gruel-air/src/specialize.rs]: collecting the [CallGeneric]
    instructions of the analysed functions, naming the instances, rewriting the
    calls and synthesising the bodies, until no new instance appears; and the tail
    of [analyze_all_function_bodies] ([sema/analysis.rs]) that merges the
    string and byte literals of the functions into the tables of the program.

    [Sema] is the record of the tables this pass reads. The analysis of a body, the
    conformance check and the resolution of a type under a substitution are
    parameters that may change it; the string interner (the crate lasso) is the
    parameters [resolve], [get_or_intern] and [interner_get]. The order in which a
    [HashMap] yields its entries is the parameter [hash_order]. *)

From stdpp Require Import pretty.
From S2P Require Import Prelude Types AirPattern Air InternPool ParamArena Scope Moves SemaState.
From S2P Require Import DropNames Cfg CfgBuild Rir.

#[local] Open Scope Z_scope.

#[export] Instance ConstValue_eq_dec : EqDecision ConstValue.
Proof. solve_decision. Defined.

Definition const_code (v : ConstValue) : nat * list Z :=
  match v with
  | CInteger n => (0%nat, [n])
  | CBool b => (1%nat, [if b then 1 else 0])
  | CType t => (2%nat, [ty_u32 t])
  | CUnit => (3%nat, [])
  | CStruct i => (4%nat, [i])
  | CArray i => (5%nat, [i])
  | CComptimeStr i => (6%nat, [i])
  | CEnumVariant e i => (7%nat, [e; i])
  | CEnumData e i h => (8%nat, [e; i; h])
  | CEnumStruct e i h => (9%nat, [e; i; h])
  | CBreakSignal => (10%nat, [])
  | CContinueSignal => (11%nat, [])
  | CReturnSignal => (12%nat, [])
  end.
Definition const_decode (c : nat * list Z) : option ConstValue :=
  match c with
  | (0%nat, [n]) => Some (CInteger n)
  | (1%nat, [b]) => Some (CBool (b =? 1))
  | (2%nat, [t]) => Some (CType (MkTy t))
  | (3%nat, []) => Some CUnit
  | (4%nat, [i]) => Some (CStruct i)
  | (5%nat, [i]) => Some (CArray i)
  | (6%nat, [i]) => Some (CComptimeStr i)
  | (7%nat, [e; i]) => Some (CEnumVariant e i)
  | (8%nat, [e; i; h]) => Some (CEnumData e i h)
  | (9%nat, [e; i; h]) => Some (CEnumStruct e i h)
  | (10%nat, []) => Some CBreakSignal
  | (11%nat, []) => Some CContinueSignal
  | (12%nat, []) => Some CReturnSignal
  | _ => None
  end.
#[export] Instance ConstValue_countable : Countable ConstValue.
Proof. refine (inj_countable const_code const_decode _). by intros [| []| [] | | | | | | | | | |]. Defined.

(** The character of a method name, and [str::rsplit_once]. *)
Definition dot : Ascii.ascii := Ascii.ascii_of_nat 46.
Fixpoint rsplit_once (sep : Ascii.ascii) (s : string) : option (string * string) :=
  match s with
  | EmptyString => None
  | String a s' =>
      match rsplit_once sep s' with
      | Some (l, r) => Some (String a l, r)
      | None => if decide (a = sep) then Some (EmptyString, s') else None
      end
  end.

(** [ReceiverMode]. *)
Inductive ReceiverMode : Set := ByValue | ReceiverMutRef | ReceiverRef.

Section Specialize.
Context {Spur : Type} `{Countable Spur} `{!SpurKey Spur}.
Notation Air := (Air (Spur := Spur)).
Notation AnalyzedFunction := (AnalyzedFunction (Spur := Spur)).

(** ** Data *)

(** [FunctionInfo], [MethodInfo]. *)
Record FunctionInfo : Type := MkFunctionInfo {
  fi_params : ParamRange; fi_return_type : Ty; fi_return_type_sym : Spur; fi_body : InstRef; fi_span : Span;
  fi_is_generic : bool; fi_is_pub : bool; fi_is_unchecked : bool; fi_file_id : Z;
  fi_canonical_name : option Spur; fi_link_library : option Spur; fi_link_name : option Spur;
  fi_is_extern : bool; fi_is_c_abi : bool }.
Record MethodInfo : Type := MkMethodInfo {
  mi_struct_type : Ty; mi_has_self : bool; mi_receiver : ReceiverMode; mi_params : ParamRange;
  mi_return_type : Ty; mi_body : InstRef; mi_span : Span; mi_is_unchecked : bool; mi_is_generic : bool;
  mi_return_type_sym : Spur; mi_is_pub : bool; mi_file_id : Z }.

(** [SpecializationKey]; keys of [HashMap]s. *)
Record SpecializationKey : Type := MkKey {
  key_base_name : Spur; key_type_args : list Ty; key_value_args : list ConstValue }.
#[export] Instance SpecializationKey_eq_dec : EqDecision SpecializationKey.
Proof. solve_decision. Defined.
#[export] Instance SpecializationKey_countable : Countable SpecializationKey.
Proof.
  refine (inj_countable' (λ k, (key_base_name k, map ty_u32 (key_type_args k), key_value_args k))
            (λ '(b, ts, vs), MkKey b (map MkTy ts) vs) _).
  intros [b ts vs]. cbn. f_equal. rewrite map_map. induction ts as [|[t] ts IH]; cbn; congruence.
Defined.
Record SpecializationInfo : Type := MkInfo { si_mangled_name : Spur; si_call_site_span : Span }.

(** [SpecializationRefs], [AnalyzedRow]. *)
Record SpecializationRefs : Type := MkRefs { refs_fns : gset Spur; refs_meths : gset (Z * Spur) }.
Definition no_refs : SpecializationRefs := MkRefs ∅ ∅.
Definition AnalyzedRow : Type := AnalyzedFunction * list string * list (list Z).
Definition row_air (row : AnalyzedRow) : Air := fn_air row.1.1.
Definition set_air (f : AnalyzedFunction) (a : Air) : AnalyzedFunction :=
  MkFunction (fn_name f) a (fn_num_locals f) (fn_num_param_slots f) (fn_param_modes f)
    (fn_param_slot_types f) (fn_is_destructor f).
Definition set_row_air (row : AnalyzedRow) (a : Air) : AnalyzedRow := (set_air row.1.1 a, row.1.2, row.2).

(** [SpecializeBase]. *)
Record SpecializeBase : Type := MkBase {
  base_params : ParamRange; base_return_type : Ty; base_return_type_sym : Spur; base_body : InstRef;
  base_span : Span; base_method : option (Ty * bool) }.
Definition base_of_function (info : FunctionInfo) : SpecializeBase :=
  MkBase (fi_params info) (fi_return_type info) (fi_return_type_sym info) (fi_body info) (fi_span info) None.
Definition base_of_method (info : MethodInfo) : SpecializeBase :=
  MkBase (mi_params info) (mi_return_type info) (mi_return_type_sym info) (mi_body info) (mi_span info)
    (Some (mi_struct_type info, mi_has_self info)).

(** [RawFnAnalysis], the successful case. *)
Record RawFn : Type := MkRaw {
  raw_air : Air; raw_num_locals : Z; raw_num_param_slots : Z; raw_param_modes : list AirParamMode;
  raw_param_slot_types : list Ty; raw_warnings : list (string * Span); raw_local_strings : list string;
  raw_local_bytes : list (list Z); raw_ref_fns : gset Spur; raw_ref_meths : gset (Z * Spur) }.

(** The tables of [Sema] the pass reads; [Rest] is everything else. *)
Context {Rest : Type}.
Record Tables : Type := MkTables {
  sm_functions : gmap Spur FunctionInfo;
  sm_methods : gmap (Z * Spur) MethodInfo;
  sm_structs : gmap Spur Z;
  sm_interfaces : gmap Spur Z;
  sm_comptime_interface_bounds : gmap (Spur * Spur) Z;
  sm_param_arena : ParamArena (Spur := Spur);
  sm_rest : Rest }.

(** Code that changes [Sema] and can fail; a failure keeps the changes. *)
Definition X (A : Type) : Type := Tables → outcome ((CompileError + A) * Tables).
#[export] Instance X_ret : MRet X := λ A a s, Done (inr a, s).
#[export] Instance X_bind : MBind X := λ A B f m s,
  '(r, s') ← m s; match r with inl e => Done (inl e, s') | inr a => f a s' end.
Definition lift_x {A} (m : outcome A) : X A := λ s, a ← m; Done (inr a, s).
Definition asks {A} (f : Tables → A) : X A := λ s, Done (inr (f s), s).
Definition fail_x {A} (k : ErrorKind) (sp : Span) : X A := λ s, Done (inl (MkError k sp), s).

(** ** Parameters *)
Context (rir : Rir Spur).
Context (resolve : Spur → string) (get_or_intern : string → Spur) (interner_get : string → option Spur).
Context (debug_const : ConstValue → string).
Context (hash_order : gmap SpecializationKey SpecializationInfo → list (SpecializationKey * SpecializationInfo)).
Context (check_conforms : Ty → Z → Span → X ()).
Context (resolve_type_for_comptime_with_subst : Spur → gmap Spur Ty → X (option Ty)).
Context (analyze_specialized_function :
  Ty → list (Spur * Ty * RirParamMode) → InstRef → gmap Spur Ty → gmap Spur ConstValue → X RawFn).

(** ** Names *)

(** [mangle_specialized_name]. *)
Definition mangle_type (ty : Ty) : outcome string :=
  n ← name ty; mret ("__" +:+ n +:+ "#" +:+ pretty (as_u32 ty))%string.
Definition mangle_value (v : ConstValue) : string :=
  ("__v" +:+
   match v with
   | CInteger n => "i" +:+ (if (n <? 0)%Z then "m" +:+ pretty (- n)%Z else pretty n)
   | CBool b => "b" +:+ (if b then "1" else "0")
   | CType t => "t" +:+ pretty (as_u32 t)
   | CComptimeStr idx => "s" +:+ pretty idx
   | CUnit => "u"
   | _ => "x" +:+ debug_const v
   end)%string.
Definition mangle_specialized_name (base_name : string) (type_args : list Ty) (value_args : list ConstValue)
    : outcome string :=
  mangled ← foldM (λ mangled ty, s ← mangle_type ty; mret (mangled +:+ s)) base_name type_args;
  mret (foldl (λ mangled v, mangled +:+ mangle_value v) mangled value_args).

(** [resolve_method_name]. *)
Definition resolve_method_name (sema : Tables) (n : Spur) : option (Z * Spur) :=
  '(struct_str, method_str) ← rsplit_once dot (resolve n);
  struct_sym ← interner_get struct_str;
  struct_id ← sm_structs sema !! struct_sym;
  method_sym ← interner_get method_str;
  Some (struct_id, method_sym).

(** ** Collecting and rewriting *)

(** The key of a [CallGeneric] at index [i]. *)
Definition call_key (air : Air) (i : nat) (n : Spur) (type_args_start type_args_len : Z)
    : outcome SpecializationKey :=
  words ← get_extra air type_args_start type_args_len;
  mret (MkKey n (map from_u32 words) (comptime_value_args air (wrap 32 (Z.of_nat i)))).

Definition collect_inst (air : Air) (specs : gmap SpecializationKey SpecializationInfo)
    (e : nat * AirInst (Spur := Spur)) : outcome (gmap SpecializationKey SpecializationInfo) :=
  let '(i, inst) := e in
  match i_data inst with
  | ICallGeneric n type_args_start type_args_len _ _ =>
      key ← call_key air i n type_args_start type_args_len;
      match specs !! key with
      | Some _ => mret specs
      | None =>
          mangled ← mangle_specialized_name (resolve n) (key_type_args key) (key_value_args key);
          mret (<[key := MkInfo (get_or_intern mangled) (i_span inst)]> specs)
      end
  | _ => mret specs
  end.
Definition enumerate {A} (l : list A) : list (nat * A) := imap pair l.
Definition collect_specializations (air : Air) (specs : gmap SpecializationKey SpecializationInfo)
    : outcome (gmap SpecializationKey SpecializationInfo) :=
  foldM (collect_inst air) specs (enumerate (instructions air)).

(** The loop of [rewrite_call_generic] that finds the rewrites. *)
Definition find_rewrite (air : Air) (name_map : gmap SpecializationKey Spur)
    (rewrites : list (nat * AirInstData (Spur := Spur))) (e : nat * AirInst (Spur := Spur))
    : outcome (list (nat * AirInstData (Spur := Spur))) :=
  let '(i, inst) := e in
  match i_data inst with
  | ICallGeneric n type_args_start type_args_len args_start args_len =>
      key ← call_key air i n type_args_start type_args_len;
      match name_map !! key with
      | Some specialized_name => mret (rewrites ++ [(i, ICall specialized_name args_start args_len)])
      | None => mret rewrites
      end
  | _ => mret rewrites
  end.
Definition rewrite_call_generic (air : Air) (name_map : gmap SpecializationKey Spur) : outcome Air :=
  rewrites ← foldM (find_rewrite air name_map) [] (enumerate (instructions air));
  foldM (λ a r, rewrite_inst_data a r.1 r.2) air rewrites.
Definition rewrite_row (name_map : gmap SpecializationKey Spur) (row : AnalyzedRow) : outcome AnalyzedRow :=
  a ← rewrite_call_generic (row_air row) name_map; mret (set_row_air row a).

(** ** Synthesis *)

(** [param_declared_type_sym]; [substitute_param_type] makes the same search. *)
Fixpoint declared_in (insts : list (Inst Spur)) (body : InstRef) (param_name : Spur) : outcome (option Spur) :=
  match insts with
  | [] => mret None
  | inst :: insts =>
      match ri_data inst with
      | RFnDecl _ _ _ _ _ params_start params_len _ fn_body _ _ =>
          if decide (fn_body = body) then
            params ← get_params rir params_start params_len;
            match list_find (λ p, rp_name p = param_name) params with
            | Some (_, p) => mret (Some (rp_ty p))
            | None => declared_in insts body param_name
            end
          else declared_in insts body param_name
      | _ => declared_in insts body param_name
      end
  end.
Definition param_declared_type_sym (body : InstRef) (param_name : Spur) : outcome (option Spur) :=
  declared_in (r_instructions rir) body param_name.

(** [substitute_param_type]. *)
Definition substitute_param_type (body : InstRef) (param_name : Spur) (type_subst : gmap Spur Ty)
    : X (option Ty) :=
  declared ← lift_x (param_declared_type_sym body param_name);
  match declared with
  | None => mret None
  | Some declared_ty =>
      match type_subst !! declared_ty with
      | Some concrete => mret (Some concrete)
      | None => resolve_type_for_comptime_with_subst declared_ty type_subst
      end
  end.

(** The parameters of the base, in declaration order: the name, its type, mode and
    comptime flag, and whether it is a type parameter. *)
Record BaseParam : Type := MkBaseParam {
  bp_name : Spur; bp_ty : Ty; bp_mode : RirParamMode; bp_comptime : bool; bp_is_type : bool }.
Definition is_type_param (sema : Tables) (declared : option Spur) (ty : Ty) (is_comptime : bool) : bool :=
  is_comptime && match declared with
                 | Some s => bool_decide (s = get_or_intern "type") || bool_decide (is_Some (sm_interfaces sema !! s))
                 | None => bool_decide (ty = Ty.COMPTIME_TYPE)
                 end.
Definition base_params_of (sema : Tables) (base : SpecializeBase) : outcome (list BaseParam) :=
  param_names ← names (sm_param_arena sema) (base_params base);
  param_types ← types (sm_param_arena sema) (base_params base);
  param_modes ← modes (sm_param_arena sema) (base_params base);
  param_comptime ← comptime (sm_param_arena sema) (base_params base);
  mapM (λ '(i, n),
    ty ← AirPattern.index param_types i;
    mode ← AirPattern.index param_modes i;
    is_comptime ← AirPattern.index param_comptime i;
    declared ← param_declared_type_sym (base_body base) n;
    mret (MkBaseParam n ty mode is_comptime (is_type_param sema declared ty is_comptime)))
    (enumerate param_names).

(** The loop that walks the type arguments and the value arguments side by side. *)
Fixpoint substitutions (ps : list BaseParam) (type_args : list Ty) (value_args : list ConstValue)
    (type_subst : gmap Spur Ty) (value_subst : gmap Spur ConstValue) : gmap Spur Ty * gmap Spur ConstValue :=
  match ps with
  | [] => (type_subst, value_subst)
  | p :: ps =>
      match bp_is_type p, type_args with
      | true, t :: type_args => substitutions ps type_args value_args (<[bp_name p := t]> type_subst) value_subst
      | is_type, _ =>
          match bp_comptime p && negb is_type, value_args with
          | true, v :: value_args => substitutions ps type_args value_args type_subst (<[bp_name p := v]> value_subst)
          | _, _ => substitutions ps type_args value_args type_subst value_subst
          end
      end
  end.

(** The interface bounds of comptime parameters hold. *)
Fixpoint check_bounds (base_name : Spur) (sp : Span) (type_subst : gmap Spur Ty) (ps : list BaseParam) : X () :=
  match ps with
  | [] => mret ()
  | p :: ps =>
      bounds ← asks sm_comptime_interface_bounds;
      _ ← match bounds !! (base_name, bp_name p), type_subst !! bp_name p with
          | Some iid, Some concrete => check_conforms concrete iid sp
          | _, _ => mret ()
          end;
      check_bounds base_name sp type_subst ps
  end.

Definition specialized_return_type (base : SpecializeBase) (type_subst : gmap Spur Ty) : X Ty :=
  match type_subst !! base_return_type_sym base with
  | Some concrete => mret concrete
  | None =>
      if decide (base_return_type base = Ty.COMPTIME_TYPE) then
        t ← resolve_type_for_comptime_with_subst (base_return_type_sym base) type_subst;
        mret (default (base_return_type base) t)
      else mret (base_return_type base)
  end.

(** The runtime parameters: comptime ones are erased. *)
Fixpoint runtime_params (body : InstRef) (type_subst : gmap Spur Ty) (ps : list BaseParam)
    : X (list (Spur * Ty * RirParamMode)) :=
  match ps with
  | [] => mret []
  | p :: ps =>
      if bp_comptime p then runtime_params body type_subst ps
      else
        concrete_ty ← (if decide (bp_ty p = Ty.COMPTIME_TYPE)
                       then t ← substitute_param_type body (bp_name p) type_subst; mret (default (bp_ty p) t)
                       else mret (bp_ty p));
        rest ← runtime_params body type_subst ps;
        mret ((bp_name p, concrete_ty, bp_mode p) :: rest)
  end.

Definition create_specialized (key : SpecializationKey) (specialized_name : Spur) (base : SpecializeBase)
    (refs : SpecializationRefs) : X (AnalyzedRow * SpecializationRefs) :=
  sema ← asks id;
  ps ← lift_x (base_params_of sema base);
  let '(type_subst, value_subst) := substitutions ps (key_type_args key) (key_value_args key) ∅ ∅ in
  let type_subst := match base_method base with
                    | Some (struct_type, _) => <[get_or_intern "Self" := struct_type]> type_subst
                    | None => type_subst
                    end in
  _ ← check_bounds (key_base_name key) (base_span base) type_subst ps;
  return_type ← specialized_return_type base type_subst;
  let self_params := match base_method base with
                     | Some (struct_type, true) => [(get_or_intern "self", struct_type, ParamNormal)]
                     | _ => []
                     end in
  params ← runtime_params (base_body base) type_subst ps;
  raw ← analyze_specialized_function return_type (self_params ++ params) (base_body base) type_subst value_subst;
  mret ((MkFunction (resolve specialized_name) (raw_air raw) (raw_num_locals raw) (raw_num_param_slots raw)
           (raw_param_modes raw) (raw_param_slot_types raw) false,
         raw_local_strings raw, raw_local_bytes raw),
        MkRefs (refs_fns refs ∪ raw_ref_fns raw) (refs_meths refs ∪ raw_ref_meths raw)).

(** The base of a key: a function, or a method named [Struct.method]. *)
Definition base_of_key (key : SpecializationKey) (info : SpecializationInfo) : X SpecializeBase :=
  sema ← asks id;
  match sm_functions sema !! key_base_name key with
  | Some fn_info => mret (base_of_function fn_info)
  | None =>
      match resolve_method_name sema (key_base_name key) ≫= (sm_methods sema !!.) with
      | Some method_info => mret (base_of_method method_info)
      | None => fail_x (UndefinedFunction (resolve (key_base_name key))) (si_call_site_span info)
      end
  end.

(** ** The pass *)

(** The variables [specialize] changes. *)
Record World : Type := MkWorld {
  w_rows : list AnalyzedRow;
  w_name_map : gmap SpecializationKey Spur;
  w_refs : SpecializationRefs;
  w_sema : Tables }.

(** Phase 3 of a round. *)
Fixpoint synthesize (specs : list (SpecializationKey * SpecializationInfo)) (w : World)
    : outcome ((CompileError + ()) * World) :=
  match specs with
  | [] => mret (inr (), w)
  | (key, info) :: specs =>
      '(r, sema) ← (base ← base_of_key key info;
                    create_specialized key (si_mangled_name info) base (w_refs w)) (w_sema w);
      match r with
      | inl e => mret (inl e, MkWorld (w_rows w) (w_name_map w) (w_refs w) sema)
      | inr (row, refs) => synthesize specs (MkWorld (w_rows w ++ [row]) (w_name_map w) refs sema)
      end
  end.

(** Phases 1 and 2 of a round: the new instances, and the rewritten functions. *)
Definition collect_all (rows : list AnalyzedRow) : outcome (gmap SpecializationKey SpecializationInfo) :=
  foldM (λ specs row, collect_specializations (row_air row) specs) ∅ rows.
Definition name_specs (specs : list (SpecializationKey * SpecializationInfo))
    (name_map : gmap SpecializationKey Spur) : gmap SpecializationKey Spur :=
  foldl (λ m e, <[e.1 := si_mangled_name e.2]> m) name_map specs.
Definition begin_round (w : World) : outcome (list (SpecializationKey * SpecializationInfo) * World) :=
  seen ← collect_all (w_rows w);
  let new_specs := filter (λ e, w_name_map w !! e.1 = None) (hash_order seen) in
  let name_map := name_specs new_specs (w_name_map w) in
  rows ← mapM (rewrite_row name_map) (w_rows w);
  mret (new_specs, MkWorld rows name_map (w_refs w) (w_sema w)).

Fixpoint specialize_loop (fuel : nat) (w : World) : outcome ((CompileError + SpecializationRefs) * World) :=
  match fuel with
  | O => NoFuel
  | S fuel =>
      '(new_specs, w) ← begin_round w;
      match new_specs with
      | [] => mret (inr (w_refs w), w)
      | _ =>
          '(r, w) ← synthesize new_specs w;
          match r with
          | inl e => mret (inl e, w)
          | inr _ => specialize_loop fuel w
          end
      end
  end.
Definition specialize (fuel : nat) (rows : list AnalyzedRow) (name_map : gmap SpecializationKey Spur)
    (sema : Tables) : outcome ((CompileError + SpecializationRefs) * World) :=
  specialize_loop fuel (MkWorld rows name_map no_refs sema).
End Specialize.

(** ** The literal pools of the program *)
Section Literals.
Context {Spur : Type} `{Countable Spur} `{!SpurKey Spur}.
Notation Air := (Air (Spur := Spur)).
Notation AirInst := (AirInst (Spur := Spur)).
Notation AnalyzedRow := (AnalyzedRow (Spur := Spur)).

(** [Air::remap_string_ids] and [Air::remap_bytes_ids] with a closure that can panic. *)
Definition try_remap_string (f : Z → outcome Z) (i : AirInst) : outcome AirInst :=
  match i_data i with
  | IStringConst id => id' ← f id; mret (MkInst (IStringConst id') (i_ty i) (i_span i))
  | _ => mret i
  end.
Definition try_remap_bytes (f : Z → outcome Z) (i : AirInst) : outcome AirInst :=
  match i_data i with
  | IBytesConst id => id' ← f id; mret (MkInst (IBytesConst id') (i_ty i) (i_span i))
  | _ => mret i
  end.
Definition try_remap (g : AirInst → outcome AirInst) (a : Air) : outcome Air :=
  insts ← mapM g (instructions a); mret (set_instructions insts a).

(** The tables of the program. *)
Record Pools : Type := MkPools {
  global_string_table : gmap string Z; global_strings : list string; global_bytes : list (list Z) }.
Definition no_pools : Pools := MkPools ∅ [] [].

Definition intern_string (p : Pools) (s : string) : Z * Pools :=
  match global_string_table p !! s with
  | Some id => (id, p)
  | None => let id := len_u32 (global_strings p) in
            (id, MkPools (<[s := id]> (global_string_table p)) (global_strings p ++ [s]) (global_bytes p))
  end.
Fixpoint intern_strings (p : Pools) (l : list string) : list Z * Pools :=
  match l with
  | [] => ([], p)
  | s :: l => let '(id, p) := intern_string p s in
              let '(ids, p) := intern_strings p l in (id :: ids, p)
  end.

(** One iteration of the merge. *)
Definition merge_row (p : Pools) (row : AnalyzedRow) : outcome (AnalyzedFunction (Spur := Spur) * Pools) :=
  let '(analyzed, local_strings, local_bytes) := row in
  '(air, p) ← match local_strings with
              | [] => mret (fn_air analyzed, p)
              | _ => let '(local_to_global, p) := intern_strings p local_strings in
                     air ← try_remap (try_remap_string (λ id, AirPattern.index local_to_global (Z.to_nat id))) (fn_air analyzed);
                     mret (air, p)
              end;
  '(air, p) ← match local_bytes with
              | [] => mret (air, p)
              | _ => let bytes_offset := len_u32 (global_bytes p) in
                     air ← try_remap (try_remap_bytes (λ id, checked_add 32 id bytes_offset)) air;
                     mret (air, MkPools (global_string_table p) (global_strings p) (global_bytes p ++ local_bytes))
              end;
  mret (set_air analyzed air, p).
Fixpoint merge_rows (p : Pools) (rows : list AnalyzedRow)
    : outcome (list (AnalyzedFunction (Spur := Spur)) * Pools) :=
  match rows with
  | [] => mret ([], p)
  | row :: rows =>
      '(f, p) ← merge_row p row;
      '(fs, p) ← merge_rows p rows;
      mret (f :: fs, p)
  end.
End Literals.
