(* ===== verification/SpecializeThm.v ===== *)
(** * Specialization closes the program

    Proofs about Specialize.v: the rewriting of a function as a map over its
    instructions, the rounds of the pass as steps that keep an invariant, and the
    bound on their number. *)

From S2P Require Import Prelude Types AirPattern Air InternPool ParamArena Scope Moves SemaState.
From S2P Require Import DropNames Cfg CfgBuild Rir Specialize.

#[local] Open Scope Z_scope.

Section Rewrite.
Context {Spur : Type} `{Countable Spur} `{!SpurKey Spur}.
Notation Air := (Air (Spur := Spur)).
Notation AirInst := (AirInst (Spur := Spur)).
Notation AirInstData := (AirInstData (Spur := Spur)).
Notation Key := (SpecializationKey (Spur := Spur)).
Implicit Types (a : Air) (nm : gmap Key Spur) (inst : AirInst).

(** The key of the generic call an instruction makes. *)
Definition generic_key a (i : nat) inst : option (outcome Key) :=
  match i_data inst with
  | ICallGeneric n ts tl _ _ => Some (call_key a i n ts tl)
  | _ => None
  end.
Definition calls_generic a (key : Key) : Prop :=
  ∃ i inst, instructions a !! i = Some inst ∧ generic_key a i inst = Some (Done key).
Definition no_generic a : Prop := ∀ i inst, instructions a !! i = Some inst → generic_key a i inst = None.

(** The call that replaces a generic call. *)
Definition direct_call (d : AirInstData) (s : Spur) : AirInstData :=
  match d with ICallGeneric _ _ _ args_start args_len => ICall s args_start args_len | _ => d end.
Definition rewritten a nm (i : nat) inst : AirInst :=
  match generic_key a i inst with
  | Some (Done key) =>
      match nm !! key with
      | Some s => MkInst (direct_call (i_data inst) s) (i_ty inst) (i_span inst)
      | None => inst
      end
  | _ => inst
  end.

Lemma lookup_enumerate {A} (l : list A) i x : (i, x) ∈ enumerate l ↔ l !! i = Some x.
Proof.
  unfold enumerate. rewrite list_elem_of_lookup. split.
  - intros [j Hj]. rewrite list_lookup_imap in Hj. destruct (l !! j) eqn:?; simplify_option_eq. done.
  - intros Hx. exists i. by rewrite list_lookup_imap, Hx.
Qed.
Lemma enumerate_NoDup {A} (l : list A) : NoDup (enumerate l).*1.
Proof.
  unfold enumerate. rewrite fmap_imap. apply NoDup_alt. intros i j x.
  rewrite !list_lookup_imap. intros Hi Hj. destruct (l !! i), (l !! j); simplify_option_eq. done.
Qed.

(** What the first loop of [rewrite_call_generic] finds for one instruction. *)
Definition rewrite_of a nm (e : nat * AirInst) : option (nat * AirInstData) :=
  match generic_key a e.1 e.2 with
  | Some (Done key) => (λ s, (e.1, direct_call (i_data e.2) s)) <$> nm !! key
  | _ => None
  end.

Lemma find_rewrites_spec a nm l rs rs' :
  foldM (find_rewrite a nm) rs l = Done rs' →
  rs' = rs ++ omap (rewrite_of a nm) l ∧
  (∀ e m, e ∈ l → generic_key a e.1 e.2 = Some m → ∃ key, m = Done key).
Proof.
  revert rs. induction l as [|[i inst] l IH]; intros rs Hf; cbn [foldM] in Hf.
  { injection Hf as ->. rewrite app_nil_r. split; [done|]. by intros ? ? ?%elem_of_nil. }
  apply bind_Done in Hf as (rs1 & H1 & [-> Hl]%IH). unfold find_rewrite in H1.
  assert (rs1 = rs ++ option_list (rewrite_of a nm (i, inst)) ∧
          ∀ m, generic_key a i inst = Some m → ∃ key, m = Done key) as [-> Hm].
  { unfold rewrite_of, generic_key. cbn [fst snd].
    destruct (i_data inst); try (injection H1 as <-; by rewrite app_nil_r).
    apply bind_Done in H1 as (key & -> & H1). split; [|intros ? [= <-]; by eexists].
    destruct (nm !! key); injection H1 as <-; [done|by rewrite app_nil_r]. }
  split; [|intros e m [->|He]%elem_of_cons; [apply Hm|by apply Hl]].
  rewrite <-(assoc_L (++)). f_equal. cbn. by destruct (rewrite_of a nm (i, inst)).
Qed.

(** The second loop, for distinct indices. *)
Lemma apply_rewrites_spec (rs : list (nat * AirInstData)) a a' :
  foldM (λ a r, rewrite_inst_data a r.1 r.2) a rs = Done a' → NoDup rs.*1 →
  ∃ insts, a' = set_instructions insts a ∧
    (∀ i inst, insts !! i = Some inst ↔ ∃ inst0, instructions a !! i = Some inst0 ∧
       inst = match (list_to_map rs : gmap nat AirInstData) !! i with
              | Some d => MkInst d (i_ty inst0) (i_span inst0) | None => inst0 end).
Proof.
  revert a. induction rs as [|[j d] rs IH]; intros a Hf Hnd; cbn [foldM] in Hf.
  { injection Hf as <-. exists (instructions a). split; [by destruct a|]. intros i inst.
    setoid_rewrite lookup_empty. naive_solver. }
  apply bind_Done in Hf as (a1 & H1 & Hf). cbn in Hnd. apply list.NoDup_cons in Hnd as [Hj Hnd].
  unfold rewrite_inst_data in H1. apply bind_Done in H1 as (old & Hold%expect_Done & [= <-]).
  destruct (IH _ Hf Hnd) as (insts & -> & Hi). exists insts. split; [done|]. intros i inst. rewrite Hi. cbn.
  destruct (decide (i = j)) as [->|Hne].
  - rewrite lookup_insert_eq, list_lookup_insert_eq by (by apply lookup_lt_Some in Hold).
    rewrite (not_elem_of_list_to_map_1 _ _ Hj). naive_solver.
  - by rewrite lookup_insert_ne, list_lookup_insert_ne by done.
Qed.

Lemma rewrite_call_generic_spec a nm a' :
  rewrite_call_generic a nm = Done a' →
  a' = set_instructions (imap (rewritten a nm) (instructions a)) a ∧
  (∀ i inst m, instructions a !! i = Some inst → generic_key a i inst = Some m → ∃ key, m = Done key).
Proof.
  unfold rewrite_call_generic. intros (rs & [-> Hk]%find_rewrites_spec & Hf)%bind_Done. cbn [app] in Hf.
  split; [|intros i inst m Hi; apply (Hk (i, inst)); by apply lookup_enumerate].
  set (rs := omap _ _) in Hf.
  assert (NoDup rs.*1) as Hnd.
  { subst rs. generalize (enumerate_NoDup (instructions a)). generalize (enumerate (instructions a)).
    intros l. induction l as [|e l IH]; [done|]. cbn. intros [He Hl]%list.NoDup_cons.
    destruct (rewrite_of a nm e) as [r|] eqn:Hr; [|by apply IH]. cbn. apply list.NoDup_cons. split; [|by apply IH].
    intros Hin. apply He. apply list_elem_of_fmap in Hin as (r' & Hrr & Hin).
    apply list_elem_of_omap in Hin as (e' & He' & Hr'). apply list_elem_of_fmap. exists e'. split; [|done].
    unfold rewrite_of in Hr, Hr'. repeat case_match; simplify_option_eq; by destruct e, e'. }
  destruct (apply_rewrites_spec rs a a' Hf Hnd) as (insts & -> & Hi). f_equal.
  apply list_eq. intros i. apply option_eq. intros inst. rewrite Hi, list_lookup_imap.
  assert (∀ inst0, instructions a !! i = Some inst0 →
    match (list_to_map rs : gmap nat AirInstData) !! i with
    | Some d => MkInst d (i_ty inst0) (i_span inst0) | None => inst0 end = rewritten a nm i inst0) as Hrw.
  { intros inst0 H0. unfold rewritten. destruct (rewrite_of a nm (i, inst0)) as [[j d]|] eqn:Hr.
    - assert ((i, d) ∈ rs) as Hin.
      { apply list_elem_of_omap. exists (i, inst0). split; [by apply lookup_enumerate|]. rewrite Hr.
        unfold rewrite_of in Hr. by repeat case_match; simplify_option_eq. }
      rewrite (elem_of_list_to_map_1 rs i d Hnd Hin). unfold rewrite_of in Hr. cbn in Hr.
      by repeat case_match; simplify_option_eq.
    - assert (list_to_map rs !! i = @None AirInstData) as ->.
      { apply not_elem_of_list_to_map_1. intros Hin. apply list_elem_of_fmap in Hin as ([j d] & -> & Hin).
        apply list_elem_of_omap in Hin as ([j' inst'] & He & Hr'). cbn in *.
        apply lookup_enumerate in He. assert (j' = j) as ->.
        { unfold rewrite_of in Hr'. by repeat case_match; simplify_option_eq. }
        simplify_eq. }
      unfold rewrite_of in Hr. cbn in Hr. by repeat case_match; simplify_option_eq. }
  destruct (instructions a !! i) as [inst0|] eqn:H0; cbn; [|naive_solver].
  rewrite <-(Hrw _ eq_refl). naive_solver.
Qed.
End Rewrite.

Section Rounds.
Context {Spur : Type} `{Countable Spur} `{!SpurKey Spur} {Rest : Type}.
Notation Air := (Air (Spur := Spur)).
Notation AirInst := (AirInst (Spur := Spur)).
Notation Key := (SpecializationKey (Spur := Spur)).
Notation Info := (SpecializationInfo (Spur := Spur)).
Notation Row := (AnalyzedRow (Spur := Spur)).
Notation Refs := (SpecializationRefs (Spur := Spur)).
Notation X := (X (Spur := Spur) (Rest := Rest)).
Notation Tables := (Tables (Spur := Spur) (Rest := Rest)).
Notation World := (World (Spur := Spur) (Rest := Rest)).
Context (rir : Rir Spur).
Context (resolve : Spur → string) (get_or_intern : string → Spur) (interner_get : string → option Spur).
Context (debug_const : ConstValue → string).
Context (hash_order : gmap Key Info → list (Key * Info)).
Context (check_conforms : Ty → Z → Span → X ()).
Context (resolve_type_for_comptime_with_subst : Spur → gmap Spur Ty → X (option Ty)).
Context (analyze_specialized_function :
  Ty → list (Spur * Ty * RirParamMode) → InstRef → gmap Spur Ty → gmap Spur ConstValue → X (RawFn (Spur := Spur))).
(** A [HashMap] yields each of its entries once. *)
Context (hash_order_perm : ∀ m, hash_order m ≡ₚ map_to_list m).
Implicit Types (nm : gmap Key Spur) (key : Key) (row : Row) (w : World).

Notation mangle := (mangle_specialized_name debug_const).
Notation collect_specializations := (collect_specializations resolve get_or_intern debug_const).
Notation collect_all := (collect_all resolve get_or_intern debug_const).
Notation begin_round := (begin_round resolve get_or_intern debug_const hash_order).
Notation base_of_key := (base_of_key resolve interner_get).
Notation create_specialized := (create_specialized rir resolve get_or_intern check_conforms
  resolve_type_for_comptime_with_subst analyze_specialized_function).
Notation synthesize := (synthesize rir resolve get_or_intern interner_get check_conforms
  resolve_type_for_comptime_with_subst analyze_specialized_function).
Notation specialize_loop := (specialize_loop rir resolve get_or_intern interner_get debug_const hash_order
  check_conforms resolve_type_for_comptime_with_subst analyze_specialized_function).

(** The name of the instance of a key. *)
Definition named_by key (s : Spur) : Prop :=
  ∃ m, mangle (resolve (key_base_name key)) (key_type_args key) (key_value_args key) = Done m ∧ s = get_or_intern m.

(** ** Collecting *)

Lemma call_key_base a i n ts tl key : call_key (Spur := Spur) a i n ts tl = Done key → key_base_name key = n.
Proof. unfold call_key. by intros (? & _ & [= <-])%bind_Done. Qed.

Lemma collect_inst_spec a seen e seen' :
  collect_inst resolve get_or_intern debug_const a seen e = Done seen' →
  (∀ key, is_Some (seen' !! key) ↔ is_Some (seen !! key) ∨ generic_key a e.1 e.2 = Some (Done key)) ∧
  ((∀ key info, seen !! key = Some info → named_by key (si_mangled_name info)) →
   ∀ key info, seen' !! key = Some info → named_by key (si_mangled_name info)).
Proof.
  destruct e as [i inst]. unfold collect_inst, generic_key. cbn.
  destruct (i_data inst); try (intros [= <-]; naive_solver).
  intros (key & Hk & Hc)%bind_Done. rewrite Hk. pose proof (call_key_base _ _ _ _ _ _ Hk) as Hb.
  destruct (seen !! key) as [info|] eqn:Hs.
  - injection Hc as <-. split; [|done]. intros key'. split; [by left|]. intros [?|[= <-]]; [done|by eexists].
  - apply bind_Done in Hc as (m & Hm & [= <-]). split.
    + intros key'. rewrite lookup_insert_is_Some'. naive_solver.
    + intros Hn key' info'. rewrite lookup_insert_Some. intros [[<- <-]|[_ ?]]; [|by apply Hn].
      exists m. by rewrite Hb.
Qed.

Lemma collect_specializations_spec a seen seen' :
  collect_specializations a seen = Done seen' →
  (∀ key, is_Some (seen' !! key) ↔ is_Some (seen !! key) ∨ calls_generic a key) ∧
  ((∀ key info, seen !! key = Some info → named_by key (si_mangled_name info)) →
   ∀ key info, seen' !! key = Some info → named_by key (si_mangled_name info)).
Proof.
  unfold collect_specializations. intros Hf.
  assert ((∀ key, is_Some (seen' !! key) ↔ is_Some (seen !! key) ∨
             ∃ e, e ∈ enumerate (instructions a) ∧ generic_key a e.1 e.2 = Some (Done key)) ∧
          ((∀ key info, seen !! key = Some info → named_by key (si_mangled_name info)) →
           ∀ key info, seen' !! key = Some info → named_by key (si_mangled_name info))) as [Hk Hn].
  { revert seen Hf. generalize (enumerate (instructions a)) as l. induction l as [|e l IH]; intros seen Hf; cbn in Hf.
    - injection Hf as <-. set_solver.
    - apply bind_Done in Hf as (s1 & [Hk1 Hn1]%collect_inst_spec & [Hk Hn]%IH). split; [|by auto].
      intros key. rewrite Hk, Hk1. setoid_rewrite elem_of_cons. naive_solver. }
  split; [|done]. intros key. rewrite Hk. unfold calls_generic. split; (intros [?|Hx]; [by left|right]).
  - destruct Hx as ([i inst] & Hi%lookup_enumerate & Hg). by exists i, inst.
  - destruct Hx as (i & inst & Hi & Hg). exists (i, inst). split; [by apply lookup_enumerate|done].
Qed.

Lemma collect_all_spec rows seen :
  collect_all rows = Done seen →
  (∀ key, is_Some (seen !! key) ↔ ∃ row, row ∈ rows ∧ calls_generic (row_air row) key) ∧
  (∀ key info, seen !! key = Some info → named_by key (si_mangled_name info)).
Proof.
  unfold collect_all.
  assert (∀ s0, foldM (λ specs row, collect_specializations (row_air row) specs) s0 rows = Done seen →
    (∀ key, is_Some (seen !! key) ↔ is_Some (s0 !! key) ∨ ∃ row, row ∈ rows ∧ calls_generic (row_air row) key) ∧
    ((∀ key info, s0 !! key = Some info → named_by key (si_mangled_name info)) →
     ∀ key info, seen !! key = Some info → named_by key (si_mangled_name info))) as Hgen.
  { induction rows as [|row rows IH]; intros s0 Hf; cbn in Hf.
    - injection Hf as <-. set_solver.
    - apply bind_Done in Hf as (s1 & [Hk1 Hn1]%collect_specializations_spec & [Hk Hn]%IH). split; [|by auto].
      intros key. rewrite Hk, Hk1. setoid_rewrite elem_of_cons. naive_solver. }
  intros [Hk Hn]%Hgen. split; [|apply Hn; by intros ? ? [=]]. intros key. rewrite Hk.
  split; [intros [[? [=]]|?]; done|by right].
Qed.

(** ** Rewriting a row *)

(** [row'] is [row] with every generic call made direct. *)
Definition row_becomes nm row row' : Prop :=
  row' = set_row_air row (set_instructions (imap (rewritten (row_air row) nm) (instructions (row_air row))) (row_air row)) ∧
  (∀ i inst m, instructions (row_air row) !! i = Some inst → generic_key (row_air row) i inst = Some m →
     ∃ key, m = Done key ∧ is_Some (nm !! key)).

Lemma row_air_set row a : row_air (set_row_air row a) = a.
Proof. done. Qed.

Lemma row_becomes_mono nm nm' row row' : nm ⊆ nm' → row_becomes nm row row' → row_becomes nm' row row'.
Proof.
  intros Hsub [-> Hg]. split.
  - f_equal. f_equal. apply imap_ext. intros i inst Hi. unfold rewritten.
    destruct (generic_key _ _ _) as [m|] eqn:Hm; [|done].
    destruct (Hg i inst m Hi Hm) as (key & -> & s & Hs). by rewrite Hs, (lookup_weaken _ _ _ _ Hs Hsub).
  - intros i inst m Hi Hm. destruct (Hg i inst m Hi Hm) as (key & -> & s & Hs). exists key. split; [done|].
    exists s. by apply (lookup_weaken _ _ _ _ Hs Hsub).
Qed.

Lemma row_becomes_no_generic nm row row' : row_becomes nm row row' → no_generic (row_air row').
Proof.
  intros [-> Hg] i inst'. rewrite row_air_set. cbn. rewrite list_lookup_imap.
  destruct (instructions (row_air row) !! i) as [inst|] eqn:Hi; [|done]. cbn. intros [= <-].
  unfold rewritten. destruct (generic_key (row_air row) i inst) as [m|] eqn:Hm.
  - destruct (Hg i inst m Hi Hm) as (key & -> & s & ->). unfold generic_key in *. cbn.
    by destruct (i_data inst).
  - unfold generic_key in *. by destruct (i_data inst).
Qed.

Lemma row_becomes_refl nm row : no_generic (row_air row) → row_becomes nm row row.
Proof.
  intros Hn. split.
  - assert (imap (rewritten (row_air row) nm) (instructions (row_air row)) = instructions (row_air row)) as ->.
    { apply list_eq. intros i. rewrite list_lookup_imap. destruct (_ !! i) as [inst|] eqn:Hi; [|done]. cbn.
      unfold rewritten. by rewrite (Hn i inst Hi). }
    destruct row as [[[] ?] ?]. cbn. unfold set_row_air, set_air, row_air. cbn. by destruct fn_air.
  - intros i inst m Hi. by rewrite (Hn i inst Hi).
Qed.

Lemma rewrite_row_becomes nm row row' :
  rewrite_row nm row = Done row' →
  (∀ key, calls_generic (row_air row) key → is_Some (nm !! key)) → row_becomes nm row row'.
Proof.
  unfold rewrite_row. intros (a & [-> Hg]%rewrite_call_generic_spec & [= <-])%bind_Done Hk. split; [done|].
  intros i inst m Hi Hm. destruct (Hg i inst m Hi Hm) as [key ->]. exists key. split; [done|].
  apply Hk. by exists i, inst.
Qed.

(** ** One round *)

Definition spec_names (specs : list (Key * Info)) : list (Key * Spur) := map (λ e, (e.1, si_mangled_name e.2)) specs.

Lemma name_specs_lookup specs nm key s :
  NoDup specs.*1 → (∀ e, e ∈ specs → nm !! e.1 = None) →
  name_specs specs nm !! key = Some s ↔ (key, s) ∈ spec_names specs ∨ nm !! key = Some s.
Proof.
  unfold name_specs, spec_names. revert nm. induction specs as [|[k info] specs IH]; intros nm Hnd Hf; cbn [foldl map fst snd].
  { rewrite elem_of_nil. naive_solver. }
  cbn in Hnd. apply list.NoDup_cons in Hnd as [Hk Hnd].
  pose proof (Hf (k, info) ltac:(by left)) as Hn. cbn in Hn.
  rewrite IH; [|done|].
  - rewrite elem_of_cons, lookup_insert_Some. destruct (decide (k = key)) as [->|]; [|naive_solver].
    rewrite Hn. naive_solver.
  - intros e He. rewrite lookup_insert_ne; [apply Hf; by right|]. intros ->. apply Hk. by apply list_elem_of_fmap_2.
Qed.

Lemma begin_round_spec w specs w' :
  begin_round w = Done (specs, w') →
  w_refs w' = w_refs w ∧ w_sema w' = w_sema w ∧
  NoDup specs.*1 ∧
  (∀ key info, (key, info) ∈ specs → w_name_map w !! key = None ∧ named_by key (si_mangled_name info) ∧
     ∃ row, row ∈ w_rows w ∧ calls_generic (row_air row) key) ∧
  (∀ key s, w_name_map w' !! key = Some s ↔ (key, s) ∈ spec_names specs ∨ w_name_map w !! key = Some s) ∧
  Forall2 (row_becomes (w_name_map w')) (w_rows w) (w_rows w').
Proof.
  unfold begin_round. intros (seen & [Hk Hn]%collect_all_spec & Hf)%bind_Done.
  apply bind_Done in Hf as (rows & Hrows%mapM_Done & [= <- <-]). cbn [w_refs w_sema w_name_map w_rows].
  set (specs := filter _ _) in *.
  assert (Hin : ∀ key info, (key, info) ∈ specs ↔ w_name_map w !! key = None ∧ seen !! key = Some info).
  { intros key info. subst specs. rewrite list_elem_of_filter, hash_order_perm, elem_of_map_to_list. done. }
  assert (NoDup specs.*1) as Hnd.
  { eapply (sublist_NoDup _ (hash_order seen).*1); [|apply fmap_sublist, sublist_filter].
    rewrite hash_order_perm. apply NoDup_fst_map_to_list. }
  assert (∀ key s, name_specs specs (w_name_map w) !! key = Some s ↔
            (key, s) ∈ spec_names specs ∨ w_name_map w !! key = Some s) as Hnames.
  { intros key s. apply name_specs_lookup; [done|]. intros [k i] He. by apply Hin in He as [? _]. }
  split_and!; [done..| |done|].
  - intros key info [Hnone Hs]%Hin. split; [done|]. split; [by apply Hn|]. apply Hk. by eexists.
  - assert (∀ row, row ∈ w_rows w → ∀ key, calls_generic (row_air row) key →
              is_Some (name_specs specs (w_name_map w) !! key)) as Hall.
    { intros row Hr key Hc. destruct (proj2 (Hk key)) as [info Hi]; [by exists row|].
      destruct (w_name_map w !! key) as [s|] eqn:Hs; [exists s; apply Hnames; by right|].
      exists (si_mangled_name info). apply Hnames. left. unfold spec_names.
      apply (list_elem_of_fmap_2 (λ e, (e.1, si_mangled_name e.2)) specs (key, info)). by apply Hin. }
    clear -Hrows Hall. induction Hrows as [|row row' l l' Hr Hl IH]; constructor.
    + apply rewrite_row_becomes; [done|]. apply Hall. by left.
    + apply IH. intros r Hr'. apply Hall. by right.
Qed.

(** ** The rows of a run *)

Definition refs_le (r r' : Refs) : Prop := refs_fns r ⊆ refs_fns r' ∧ refs_meths r ⊆ refs_meths r'.
#[local] Instance refs_le_preorder : PreOrder refs_le.
Proof. split; [by split|]. intros r1 r2 r3 [? ?] [? ?]. split; by etransitivity. Qed.

(** The synthesis of the instance of a key, from the tables [s]. *)
Definition instance_of key (info : Info) (refs : Refs) (s : Tables) : outcome ((CompileError + Row * Refs) * Tables) :=
  (base ← base_of_key key info; create_specialized key (si_mangled_name info) base refs) s.

Lemma bindX_inr {A B} (m : X A) (f : A → X B) s b s' :
  (m ≫= f) s = Done (inr b, s') → ∃ a s1, m s = Done (inr a, s1) ∧ f a s1 = Done (inr b, s').
Proof.
  unfold mbind, X_bind. intros ([[e|a] s1] & Hm & Hf)%bind_Done; [done|]. by exists a, s1.
Qed.

Lemma create_specialized_row key name base refs s row refs' s' :
  create_specialized key name base refs s = Done (inr (row, refs'), s') →
  fn_name row.1.1 = resolve name ∧ refs_le refs refs'.
Proof.
  clear hash_order_perm hash_order. unfold create_specialized. intros (? & ? & _ & Hc)%bindX_inr. apply bindX_inr in Hc as (ps & ? & _ & Hc).
  destruct (substitutions _ _ _ _ _) as [ts vs].
  apply bindX_inr in Hc as ([] & ? & _ & Hc). apply bindX_inr in Hc as (rt & ? & _ & Hc).
  apply bindX_inr in Hc as (params & ? & _ & Hc). apply bindX_inr in Hc as (raw & ? & _ & [= <- <- <-]).
  split; [done|]. split; cbn; set_solver.
Qed.

Lemma instance_of_row key info refs s row refs' s' :
  instance_of key info refs s = Done (inr (row, refs'), s') →
  fn_name row.1.1 = resolve (si_mangled_name info) ∧ refs_le refs refs'.
Proof. unfold instance_of. intros (base & s1 & _ & Hc)%bindX_inr. by eapply create_specialized_row. Qed.

(** [row] is the instance of the key [ks.1], named [ks.2], up to the stage [R] of rewriting. *)
Definition made (R : gmap Key Spur → Row → Row → Prop) nm (refs : Refs) (ks : Key * Spur) row : Prop :=
  named_by ks.1 ks.2 ∧
  ∃ info refs0 refs1 s0 s1 row0, si_mangled_name info = ks.2 ∧
    instance_of ks.1 info refs0 s0 = Done (inr (row0, refs1), s1) ∧ refs_le refs1 refs ∧ R nm row0 row.
Definition stage nm row row' : Prop := row' = row ∨ row_becomes nm row row'.

Lemma made_impl (R R' : gmap Key Spur → Row → Row → Prop) nm nm' refs refs' ks row row' :
  refs_le refs refs' → (∀ row0, R nm row0 row → R' nm' row0 row') → made R nm refs ks row → made R' nm' refs' ks row'.
Proof.
  intros Hr HR (Hn & info & r0 & r1 & s0 & s1 & row0 & Hi & Hc & Hle & Hrow). split; [done|].
  exists info, r0, r1, s0, s1, row0. split_and!; [done|done|by etransitivity|by apply HR].
Qed.

Lemma Forall2_relax {A B} (P Q : A → B → Prop) l k : Forall2 P l k → (∀ x y, P x y → Q x y) → Forall2 Q l k.
Proof. intros Hf HPQ. by eapply Forall2_impl. Qed.

Lemma stage_becomes nm nm' row0 row row' :
  nm ⊆ nm' → stage nm row0 row → row_becomes nm' row row' → row_becomes nm' row0 row'.
Proof.
  intros Hsub [->|Hb] Hr; [done|].
  assert (row' = row) as ->; [|by apply (row_becomes_mono nm)].
  pose proof (row_becomes_refl nm' row (row_becomes_no_generic _ _ _ Hb)) as [Heq _].
  destruct Hr as [-> _]. by rewrite <-Heq.
Qed.

(** The state of the pass: [fin] are the instances it has made, [pend] the ones it has named. *)
Record inv (R : gmap Key Spur → Row → Row → Prop) (rows0 : list Row) (nm0 : gmap Key Spur) w
    (fin pend : list (Key * Spur)) : Prop := {
  inv_names : ∀ key s, w_name_map w !! key = Some s ↔ (key, s) ∈ fin ++ pend ∨ nm0 !! key = Some s;
  inv_nodup : NoDup (fin ++ pend).*1;
  inv_fresh : ∀ key s, (key, s) ∈ fin ++ pend → nm0 !! key = None;
  inv_rows : ∃ olds news, w_rows w = olds ++ news ∧ Forall2 (R (w_name_map w)) rows0 olds ∧
    Forall2 (made R (w_name_map w) (w_refs w)) fin news }.

Lemma Forall2_compose {A B C} (P : A → B → Prop) (Q : B → C → Prop) (T : A → C → Prop) l k m :
  (∀ x y z, P x y → Q y z → T x z) → Forall2 P l k → Forall2 Q k m → Forall2 T l m.
Proof.
  intros HT Hlk. revert m. induction Hlk; intros m Hkm; inversion Hkm; subst; constructor; eauto.
Qed.

Lemma spec_names_fst specs : (spec_names specs).*1 = specs.*1.
Proof. unfold spec_names. induction specs; cbn; congruence. Qed.

Lemma begin_round_inv rows0 nm0 w specs w' fin :
  inv stage rows0 nm0 w fin [] → begin_round w = Done (specs, w') →
  inv row_becomes rows0 nm0 w' fin (spec_names specs) ∧ Forall (λ row, no_generic (row_air row)) (w_rows w') ∧
  (∀ e, e ∈ specs → named_by e.1 (si_mangled_name e.2)).
Proof.
  intros [Hn Hnd Hf (olds & news & Hrows & Hold & Hnew)] Hb.
  apply begin_round_spec in Hb as (Hrefs & _ & Hspecs & Hfresh & Hnames & Hbec).
  rewrite app_nil_r in *.
  assert (w_name_map w ⊆ w_name_map w') as Hsub.
  { apply map_subseteq_spec. intros key s Hs. apply Hnames. by right. }
  rewrite Hrows in Hbec. apply Forall2_app_inv_l in Hbec as (olds' & news' & Hold' & Hnew' & Hrows').
  split; [split|split].
  - intros key s. rewrite Hnames, Hn, elem_of_app. tauto.
  - rewrite fmap_app, spec_names_fst. apply list.NoDup_app. split_and!; [done| |done].
    intros key ([k s] & -> & Hin)%list_elem_of_fmap ([k' info] & Heq & Hin')%list_elem_of_fmap. cbn in Heq. subst k'.
    apply Hfresh in Hin' as [Hnone _]. assert (w_name_map w !! k = Some s) as Hs by (apply Hn; by left). congruence.
  - intros key s [Hin|Hin]%elem_of_app; [by eapply Hf|]. unfold spec_names in Hin.
    apply list_elem_of_fmap in Hin as ([k info] & [= -> ->] & Hin). apply Hfresh in Hin as [Hnone _].
    destruct (nm0 !! k) as [s0|] eqn:H0; [|done]. assert (w_name_map w !! k = Some s0); [|congruence].
    apply Hn. by right.
  - exists olds', news'. split; [done|]. split.
    + eapply Forall2_compose; [|exact Hold|exact Hold']. intros x y z. by apply stage_becomes.
    + eapply Forall2_compose; [|exact Hnew|exact Hnew']. intros ks y z Hm Hz.
      eapply made_impl; [..|exact Hm]; [by rewrite Hrefs|]. intros row0 Hst. by eapply stage_becomes.
  - rewrite Hrows'. apply Forall_app.
    split; [eapply Forall2_Forall_r; [exact Hold'|]|eapply Forall2_Forall_r; [exact Hnew'|]];
      apply list.Forall_forall; intros ? _ ?; apply row_becomes_no_generic.
  - intros [key info] He. by apply Hfresh in He as (_ & ? & _).
Qed.

Lemma synthesize_inv rows0 nm0 specs w w' fin u :
  inv stage rows0 nm0 w fin (spec_names specs) → (∀ e, e ∈ specs → named_by e.1 (si_mangled_name e.2)) →
  synthesize specs w = Done (inr u, w') → inv stage rows0 nm0 w' (fin ++ spec_names specs) [].
Proof.
  revert w fin. induction specs as [|[key info] specs IH]; intros w fin Hi Hnamed Hs; cbn [Specialize.synthesize] in Hs.
  { injection Hs as _ <-. cbn. by rewrite app_nil_r. }
  apply bind_Done in Hs as ([[e|[row refs]] sema] & Hc & Hs); [done|].
  fold (instance_of key info (w_refs w) (w_sema w)) in Hc.
  destruct (instance_of_row _ _ _ _ _ _ _ Hc) as [_ Hle].
  cbn [spec_names map fst snd] in *. change (?x :: ?l) with ([x] ++ l). rewrite (assoc_L (++)).
  apply (IH (MkWorld (w_rows w ++ [row]) (w_name_map w) refs sema)); [|intros e He; apply Hnamed; by right|done].
  destruct Hi as [Hn Hnd Hf (olds & news & Hrows & Hold & Hnew)]. split; cbn [w_name_map w_refs w_rows].
  - intros k s. rewrite Hn. by rewrite <-(assoc_L (++)).
  - by rewrite <-(assoc_L (++)).
  - rewrite <-(assoc_L (++)). exact Hf.
  - exists olds, (news ++ [row]). split; [by rewrite Hrows, (assoc_L (++))|]. split; [done|].
    apply Forall2_app; [|constructor; [|constructor]].
    + eapply Forall2_relax; [exact Hnew|]. intros ks r. by apply made_impl.
    + split; [apply (Hnamed (key, info)); by left|]. exists info, (w_refs w), refs, (w_sema w), sema, row.
      split_and!; [done|done|done|by left].
Qed.

Lemma inv_weaken rows0 nm0 w fin pend : inv row_becomes rows0 nm0 w fin pend → inv stage rows0 nm0 w fin pend.
Proof.
  intros [Hn Hnd Hf (olds & news & Hrows & Hold & Hnew)]. split; [done..|]. exists olds, news. split; [done|]. split.
  - eapply Forall2_relax; [exact Hold|]. by right.
  - eapply Forall2_relax; [exact Hnew|]. intros ks r. apply made_impl; [done|]. by right.
Qed.

Lemma specialize_loop_inv rows0 nm0 fuel w fin refs w' :
  inv stage rows0 nm0 w fin [] → specialize_loop fuel w = Done (inr refs, w') →
  refs = w_refs w' ∧ Forall (λ row, no_generic (row_air row)) (w_rows w') ∧
  ∃ fin', inv row_becomes rows0 nm0 w' fin' [].
Proof.
  revert w fin. induction fuel as [|fuel IH]; intros w fin Hi Hs; [done|]. cbn [Specialize.specialize_loop] in Hs.
  apply bind_Done in Hs as ([specs w1] & Hb & Hs).
  destruct (begin_round_inv _ _ _ _ _ _ Hi Hb) as (Hi1 & Hgen & Hnamed).
  destruct specs as [|sp specs]; [injection Hs as <- <-; split_and!; [done|done|by exists fin]|].
  apply bind_Done in Hs as ([[e|u] w2] & Hy & Hs); [done|].
  apply (synthesize_inv rows0 nm0) with (fin := fin) in Hy; [|by apply inv_weaken|done].
  by eapply IH.
Qed.

(** ** The number of rounds *)

Lemma collect_total rows : collect_all rows ≠ NoFuel.
Proof.
  unfold collect_all. apply foldM_total. intros specs row _. unfold collect_specializations. apply foldM_total.
  intros seen [i inst] _. unfold collect_inst. destruct (i_data inst); try done.
  apply bind_total; [unfold call_key, get_extra, slice_range; by repeat case_decide|]. intros key _.
  destruct (seen !! key); [done|]. apply bind_total; [|done]. unfold mangle_specialized_name.
  apply bind_total; [|done]. apply foldM_total. intros m ty _. unfold mangle_type, Types.name.
  repeat (apply bind_total; [|done]). apply kind_total.
Qed.
Lemma rewrite_row_total nm row : rewrite_row nm row ≠ NoFuel.
Proof.
  unfold rewrite_row, rewrite_call_generic. apply bind_total; [|done]. apply bind_total.
  - apply foldM_total. intros rs [i inst] _. unfold find_rewrite. destruct (i_data inst); try done.
    apply bind_total; [unfold call_key, get_extra, slice_range; by repeat case_decide|]. intros key _.
    by destruct (nm !! key).
  - intros rs _. apply foldM_total. intros a r _. unfold rewrite_inst_data. apply bind_total; [|done]. apply index_total.
Qed.
Lemma begin_round_total w : begin_round w ≠ NoFuel.
Proof.
  unfold begin_round. apply bind_total; [apply collect_total|]. intros seen _.
  apply bind_total; [|done]. apply mapM_total. intros row _. apply rewrite_row_total.
Qed.

(** The analysis of a body, the conformance check and type resolution always answer. *)
Context (conforms_total : ∀ ty iid sp s, check_conforms ty iid sp s ≠ NoFuel).
Context (resolve_type_total : ∀ n subst s, resolve_type_for_comptime_with_subst n subst s ≠ NoFuel).
Context (analyze_total : ∀ rt ps body ts vs s, analyze_specialized_function rt ps body ts vs s ≠ NoFuel).

Definition total_x {A} (m : X A) : Prop := ∀ s, m s ≠ NoFuel.
Lemma bindX_total {A B} (m : X A) (f : A → X B) : total_x m → (∀ a, total_x (f a)) → total_x (m ≫= f).
Proof.
  intros Hm Hf s. unfold mbind, X_bind. apply bind_total; [apply Hm|]. intros [[e|a] s'] _; [done|apply Hf].
Qed.
Lemma liftX_total {A} (m : outcome A) : m ≠ NoFuel → total_x (lift_x m).
Proof. intros Hm s. unfold lift_x. by apply bind_total. Qed.

(** Readers of payload words answer or panic. *)
Definition total_rd {A} (m : Rd A) : Prop := ∀ data pos, m data pos ≠ NoFuel.
Lemma bind_rd_total {A B} (m : Rd A) (f : A → Rd B) : total_rd m → (∀ a, total_rd (f a)) → total_rd (m ≫= f).
Proof.
  intros Hm Hf data pos. unfold mbind, Rd_bind, mbind, ST_bind. apply bind_total; [apply Hm|].
  intros [a pos'] _. apply Hf.
Qed.
Lemma word_total : total_rd word.
Proof. intros data pos. apply bind_total; [apply index_total|done]. Qed.
Lemma read_name_total : total_rd (read_name (Spur := Spur)).
Proof.
  apply bind_rd_total; [apply word_total|]. intros n data pos. apply bind_total; [apply expect_total|done].
Qed.
Lemma times_total {A} n (m : Rd A) : total_rd m → total_rd (times n m).
Proof.
  intros Hm. induction n as [|n IH]; cbn; [done|].
  apply bind_rd_total; [done|]. intros x. apply bind_rd_total; [done|]. done.
Qed.
Lemma get_params_total start len : get_params rir start len ≠ NoFuel.
Proof.
  unfold get_params, get_chunks. apply bind_total; [unfold checked_mul; by case_decide|]. intros n _.
  apply bind_total; [unfold rir_get_extra, slice_range; by repeat case_decide|]. intros data _.
  apply bind_total; [|by intros []]. apply times_total. unfold read_param.
  apply bind_rd_total; [apply read_name_total|]. intros nm. apply bind_rd_total; [apply read_name_total|]. intros ty.
  apply bind_rd_total; [apply word_total|]. intros mode. apply bind_rd_total; [|done].
  apply bind_rd_total; [apply word_total|done].
Qed.

Lemma declared_in_total insts body n : declared_in rir insts body n ≠ NoFuel.
Proof.
  induction insts as [|inst insts IH]; [done|]. cbn [declared_in]. destruct (ri_data inst); try done.
  case_decide; [|done]. apply bind_total; [apply get_params_total|]. intros ps _. by destruct (list_find _ _) as [[]|].
Qed.

Lemma base_params_total (sema : Tables) base : base_params_of rir get_or_intern sema base ≠ NoFuel.
Proof.
  assert (∀ {A} (l : list A) x y, slice_range l x y ≠ NoFuel) as Hs by (intros; unfold slice_range; by repeat case_decide).
  unfold base_params_of, names, types, modes, comptime.
  do 4 (apply bind_total; [apply Hs|intros ? _]). apply mapM_total. intros [i n] _.
  do 3 (apply bind_total; [apply index_total|intros ? _]).
  apply bind_total; [apply declared_in_total|done].
Qed.

Lemma check_bounds_total base_name sp ts ps : total_x (check_bounds check_conforms base_name sp ts ps).
Proof.
  induction ps as [|p ps IH]; [done|]. cbn [check_bounds]. apply bindX_total; [done|]. intros bounds.
  apply bindX_total; [|done]. destruct (bounds !! _); [|done]. destruct (ts !! _); [|done]. intros s. apply conforms_total.
Qed.
Lemma runtime_params_total body ts ps :
  total_x (runtime_params rir resolve_type_for_comptime_with_subst body ts ps).
Proof.
  induction ps as [|p ps IH]; [done|]. cbn [runtime_params]. destruct (bp_comptime p); [done|].
  apply bindX_total; [|intros ty; apply bindX_total; [done|done]]. case_decide; [|done].
  apply bindX_total; [|done]. unfold substitute_param_type.
  apply bindX_total; [apply liftX_total, declared_in_total|]. intros [ty|]; [|done].
  destruct (ts !! ty); [done|]. intros s. apply resolve_type_total.
Qed.
Lemma instance_of_total key info refs s : instance_of key info refs s ≠ NoFuel.
Proof.
  revert s. apply bindX_total.
  { intros s. unfold base_of_key. apply bindX_total; [done|]. intros sema.
    destruct (sm_functions sema !! _); [done|]. by destruct (_ ≫= _). }
  intros base. unfold create_specialized. apply bindX_total; [done|]. intros sema.
  apply bindX_total; [apply liftX_total, base_params_total|]. intros ps. destruct (substitutions _ _ _ _ _) as [ts vs].
  apply bindX_total; [apply check_bounds_total|]. intros _.
  apply bindX_total.
  { unfold specialized_return_type. destruct (_ !! _); [done|]. case_decide; [|done].
    apply bindX_total; [|done]. intros s. apply resolve_type_total. }
  intros rt. apply bindX_total; [apply runtime_params_total|]. intros params.
  apply bindX_total; [|done]. intros s. apply analyze_total.
Qed.
Lemma synthesize_total specs w : synthesize specs w ≠ NoFuel.
Proof.
  revert w. induction specs as [|[key info] specs IH]; intros w; [done|]. cbn [Specialize.synthesize].
  apply bind_total; [apply instance_of_total|]. intros [[e|[row refs]] sema] _; [done|apply IH].
Qed.

(** Every generic call of the rows has its key in [K]. *)
Definition reach (K : gset Key) (rows : list Row) : Prop :=
  ∀ row, row ∈ rows → ∀ key, calls_generic (row_air row) key → key ∈ K.
(** From tables that satisfy [I], the instances of [K] call only instances of [K], and their
    analysis keeps [I]. *)
Definition instances_within (I : Tables → Prop) (K : gset Key) : Prop :=
  ∀ key info refs s row refs' s', key ∈ K → I s → instance_of key info refs s = Done (inr (row, refs'), s') →
    I s' ∧ ∀ key', calls_generic (row_air row) key' → key' ∈ K.

Lemma synthesize_reach I K specs w u w' :
  instances_within I K → (∀ e, e ∈ specs → e.1 ∈ K) → I (w_sema w) → reach K (w_rows w) →
  synthesize specs w = Done (inr u, w') → I (w_sema w') ∧ reach K (w_rows w') ∧ w_name_map w' = w_name_map w.
Proof.
  intros HK. revert w. induction specs as [|[key info] specs IH]; intros w Hin HI Hr Hs; cbn [Specialize.synthesize] in Hs.
  { injection Hs as _ <-. done. }
  apply bind_Done in Hs as ([[e|[row refs]] sema] & Hc & Hs); [done|].
  fold (instance_of key info (w_refs w) (w_sema w)) in Hc.
  destruct (HK key info (w_refs w) (w_sema w) row refs sema (Hin (key, info) ltac:(by left)) HI Hc) as [HI' Hkeys].
  apply IH in Hs; [done|intros e He; apply Hin; by right|done|]. cbn.
  intros r [Hr'| ->%list_elem_of_singleton]%elem_of_app; [by apply Hr|exact Hkeys].
Qed.

Lemma specialize_loop_total I K fuel w :
  instances_within I K → I (w_sema w) → reach K (w_rows w) → (size (K ∖ dom (w_name_map w)) < fuel)%nat →
  specialize_loop fuel w ≠ NoFuel.
Proof.
  intros HK. revert w. induction fuel as [|fuel IH]; intros w HI Hr Hf; [lia|]. cbn [Specialize.specialize_loop].
  apply bind_total; [apply begin_round_total|]. intros [specs w1] Hb.
  destruct (begin_round_spec _ _ _ Hb) as (_ & Hsema & _ & Hfresh & Hnames & Hbec).
  destruct specs as [|[key info] specs]; [done|]. apply bind_total; [apply synthesize_total|].
  intros [[e|u] w2] Hy; [done|]. apply (synthesize_reach I K) in Hy as (HI2 & Hr2 & Hn2); [|done| |by rewrite Hsema|].
  - apply IH; [done|done|]. rewrite Hn2. destruct (Hfresh key info ltac:(by left)) as (Hnone & _ & row & Hrow & Hc).
    enough (size (K ∖ dom (w_name_map w1)) < size (K ∖ dom (w_name_map w)))%nat by lia.
    apply subset_size. split.
    + intros k [Hk Hd]%elem_of_difference. apply elem_of_difference. split; [done|]. intros [s Hs]%elem_of_dom.
      apply Hd, elem_of_dom. exists s. apply Hnames. by right.
    + intros Hsub. assert (key ∈ K ∖ dom (w_name_map w1)) as [_ Hd]%elem_of_difference.
      { apply Hsub, elem_of_difference. split; [by eapply Hr|]. by apply not_elem_of_dom. }
      apply Hd, elem_of_dom. exists (si_mangled_name info). apply Hnames. left. by left.
  - intros [k i] He. apply Hfresh in He as (_ & _ & row & Hrow & Hc). by eapply Hr.
  - intros row' Hr' k Hc. apply list_elem_of_lookup in Hr' as [i Hi].
    destruct (Forall2_lookup_r _ _ _ _ _ Hbec Hi) as (row & _ & Hb').
    apply row_becomes_no_generic in Hb'. destruct Hc as (j & inst & Hj & Hg). by rewrite (Hb' j inst Hj) in Hg.
Qed.
End Rounds.
