(* ===== verification/SpecializeNames.v ===== *)
(** * The names of instances

    [mangle_specialized_name] of Specialize.v gives different instances different
    symbols, as long as the names of the generic functions keep clear of the marks it
    inserts; and two functions whose names do not. *)

From stdpp Require Import pretty.
From S2P Require Import Prelude Types AirPattern Air Specialize.

#[local] Open Scope Z_scope.
#[local] Open Scope string_scope.
#[local] Arguments String.append !_ _ : simpl nomatch.

(** ** Splitting strings *)

Fixpoint sall (p : Ascii.ascii → bool) (s : string) : bool :=
  match s with EmptyString => true | String a s => p a && sall p s end.
Definition stops (p : Ascii.ascii → bool) (s : string) : bool :=
  match s with EmptyString => true | String a _ => negb (p a) end.
Definition hash : Ascii.ascii := Ascii.Ascii true true false false false true false false.
Definition underscore : Ascii.ascii := Ascii.Ascii true true true true true false true false.
Definition no_hash (a : Ascii.ascii) : bool := bool_decide (a ≠ hash).
Definition no_underscore (a : Ascii.ascii) : bool := bool_decide (a ≠ underscore).
Definition is_digit (a : Ascii.ascii) : bool :=
  (48 <=? Ascii.nat_of_ascii a)%nat && (Ascii.nat_of_ascii a <=? 57)%nat.

Lemma sall_app p s t : sall p (s +:+ t) = sall p s && sall p t.
Proof. induction s as [|a s IH]; simpl; [done|]. rewrite IH. by destruct (p a). Qed.
Lemma sall_impl (p q : Ascii.ascii → bool) s : (∀ a, p a = true → q a = true) → sall p s = true → sall q s = true.
Proof.
  intros Hpq. induction s as [|a s IH]; simpl; [done|]. intros [Hp Hs]%andb_true_iff. by rewrite (Hpq a Hp), IH.
Qed.

(** A prefix of characters of one class, and then a character of another. *)
Lemma span_inj p u v s t :
  sall p u = true → sall p v = true → stops p s = true → stops p t = true →
  u +:+ s = v +:+ t → u = v ∧ s = t.
Proof.
  revert v. induction u as [|a u IH]; intros v Hu Hv Hs Ht Heq; destruct v as [|b v]; simpl in *.
  - done.
  - subst s. cbn in Hs. apply andb_true_iff in Hv as [Hb _]. by rewrite Hb in Hs.
  - subst t. cbn in Ht. apply andb_true_iff in Hu as [Ha _]. by rewrite Ha in Ht.
  - apply andb_true_iff in Hu as [_ Hu], Hv as [_ Hv]. injection Heq as <- Heq.
    destruct (IH v Hu Hv Hs Ht Heq) as [-> ->]. done.
Qed.

Lemma app_assoc_str (s t u : string) : (s +:+ t) +:+ u = s +:+ t +:+ u.
Proof. induction s as [|a s IH]; simpl; [done|]. by f_equal. Qed.
Lemma app_nil_str (s : string) : s +:+ "" = s.
Proof. induction s as [|a s IH]; simpl; [done|]. by f_equal. Qed.
Lemma app_length_str (s t : string) : String.length (s +:+ t) = (String.length s + String.length t)%nat.
Proof. induction s as [|a s IH]; simpl; [done|]. by f_equal. Qed.
Lemma app_cancel_r (u v s : string) : u +:+ s = v +:+ s → u = v.
Proof.
  intros Heq. assert (String.length u = String.length v) as Hl.
  { pose proof (f_equal String.length Heq) as Hl. rewrite !app_length_str in Hl. lia. }
  revert v Hl Heq. induction u as [|a u IH]; intros [|b v] Hl Heq; simpl in *; try done.
  injection Heq as <- Heq. f_equal. apply IH; [lia|done].
Qed.

(** ** Numbers *)

Lemma pretty_N_digits (n : N) : sall is_digit (pretty n) = true.
Proof.
  assert (∀ x s, sall is_digit s = true → sall is_digit (pretty_N_go x s) = true) as Hgo.
  { intros x. induction (N.lt_wf_0 x) as [x _ IH]; intros s Hs.
    assert (x = 0 ∨ 0 < x)%N as [->|Hx] by lia; [by rewrite pretty_N_go_0|].
    rewrite pretty_N_go_step by done. apply IH; [by apply N.div_lt|]. cbn. rewrite Hs.
    unfold pretty_N_char. by repeat case_match. }
  unfold pretty, pretty_N. case_decide; [done|by apply Hgo].
Qed.
Lemma pretty_Z_digits (n : Z) : (0 ≤ n)%Z → sall is_digit (pretty n) = true.
Proof.
  intros Hn. destruct n as [|n|n]; [done| |lia]. apply (pretty_N_digits (Npos n)).
Qed.
Lemma digit_no_underscore a : is_digit a = true → no_underscore a = true.
Proof. by destruct a as [[] [] [] [] [] [] [] []]. Qed.
Lemma digit_no_hash a : is_digit a = true → no_hash a = true.
Proof. by destruct a as [[] [] [] [] [] [] [] []]. Qed.

(** ** Value arguments *)
Section Names.
Context (debug_const : ConstValue → string).
Notation mangle_value := (mangle_value debug_const).
Notation mangle_specialized_name := (mangle_specialized_name debug_const).

(** The values call sites pass: scalars, with indices that are no negative numbers. *)
Definition scalar_arg (v : ConstValue) : bool :=
  match v with
  | CInteger _ | CBool _ | CUnit => true
  | CType t => (0 <=? ty_u32 t)%Z
  | CComptimeStr i => (0 <=? i)%Z
  | _ => false
  end.
Definition value_code (v : ConstValue) : string :=
  match v with
  | CInteger n => "i" +:+ (if (n <? 0)%Z then "m" +:+ pretty (- n)%Z else pretty n)
  | CBool b => "b" +:+ (if b then "1" else "0")
  | CType t => "t" +:+ pretty (as_u32 t)
  | CComptimeStr idx => "s" +:+ pretty idx
  | CUnit => "u"
  | _ => "x" +:+ debug_const v
  end.
Lemma mangle_value_code v : mangle_value v = "__v" +:+ value_code v.
Proof. by destruct v. Qed.

Lemma value_code_clean (p : Ascii.ascii → bool) v :
  (∀ a, is_digit a = true → p a = true) → sall p "ibtsum" = true →
  scalar_arg v = true → sall p (value_code v) = true.
Proof.
  intros Hd Hl Hv. cbn in Hl. rewrite !andb_true_iff in Hl. destruct Hl as (Hi & Hb & Ht & Hs & Hu & Hm & _).
  assert (∀ n : Z, (0 ≤ n)%Z → sall p (pretty n) = true) as Hp.
  { intros n Hn. eapply sall_impl; [exact Hd|by apply pretty_Z_digits]. }
  destruct v; try done; cbn in Hv |- *; rewrite ?Hi, ?Hb, ?Ht, ?Hs, ?Hu; cbn.
  - destruct (Z.ltb_spec n 0); [|by apply Hp]. cbn. rewrite Hm. apply Hp. lia.
  - destruct b; cbn; rewrite Hd; done.
  - apply Hp. unfold as_u32. lia.
  - done.
  - apply Hp. lia.
Qed.

Lemma pretty_not_m (n : Z) s : (0 ≤ n)%Z → pretty n ≠ "m" +:+ s.
Proof. intros Hn Heq. pose proof (pretty_Z_digits n Hn) as Hd. by rewrite Heq in Hd. Qed.

Lemma value_code_inj v v' : scalar_arg v = true → scalar_arg v' = true → value_code v = value_code v' → v = v'.
Proof.
  intros Hv Hv' Heq. destruct v, v'; try done; simpl in Hv, Hv', Heq; try discriminate Heq.
  - injection Heq as Heq. destruct (Z.ltb_spec n 0), (Z.ltb_spec n0 0); simpl in Heq.
    + injection Heq as Heq%(inj (pretty (A:=Z))). f_equal. lia.
    + symmetry in Heq. by apply pretty_not_m in Heq.
    + by apply pretty_not_m in Heq.
    + apply (inj (pretty (A:=Z))) in Heq. by subst.
  - by destruct b, b0.
  - injection Heq as Heq%(inj (pretty (A:=Z))). destruct t, t0. unfold as_u32 in Heq. cbn in Heq. by subst.
  - injection Heq as Heq%(inj (pretty (A:=Z))). by subst.
Qed.

Definition values_str (vs : list ConstValue) : string := foldr (λ v s, mangle_value v +:+ s) "" vs.

Lemma values_str_stops p vs : p underscore = false → stops p (values_str vs) = true.
Proof. intros Hp. destruct vs as [|v vs]; [done|]. cbn [values_str foldr]. rewrite mangle_value_code. unfold underscore in Hp. simpl. by rewrite Hp. Qed.

Lemma values_str_inj vs vs' :
  forallb scalar_arg vs = true → forallb scalar_arg vs' = true → values_str vs = values_str vs' → vs = vs'.
Proof.
  revert vs'. induction vs as [|v vs IH]; intros [|v' vs'] Hv Hv' Heq;
    cbn [values_str foldr forallb] in *; rewrite ?mangle_value_code in Heq; try done.
  apply andb_true_iff in Hv as [Hv Hvs], Hv' as [Hv' Hvs']. rewrite !app_assoc_str in Heq.
  injection Heq as Heq. apply (span_inj no_underscore) in Heq as [Hc Hr].
  - apply value_code_inj in Hc as ->; [|done..]. by rewrite (IH vs').
  - apply value_code_clean; [apply digit_no_underscore|done|done].
  - apply value_code_clean; [apply digit_no_underscore|done|done].
  - by apply values_str_stops.
  - by apply values_str_stops.
Qed.

Lemma values_str_no_hash vs : forallb scalar_arg vs = true → sall no_hash (values_str vs) = true.
Proof.
  induction vs as [|v vs IH]; [done|]. change (values_str (v :: vs)) with (mangle_value v +:+ values_str vs).
  intros [Hv Hvs]%andb_true_iff. rewrite sall_app, mangle_value_code, sall_app, IH by done.
  rewrite (value_code_clean no_hash); [done|apply digit_no_hash|done|done].
Qed.

(** ** Type arguments *)

Definition type_str (ty : Ty) : string :=
  match name ty with Done n => "__" +:+ n +:+ "#" +:+ pretty (as_u32 ty) | _ => "" end.
Definition types_str (tys : list Ty) : string := foldr (λ ty s, type_str ty +:+ s) "" tys.
Definition has_name (ty : Ty) : bool := match name ty with Done _ => true | _ => false end.
(** A word of 32 bits that encodes a type. *)
Definition type_arg (ty : Ty) : bool := (0 <=? ty_u32 ty)%Z.

Lemma mangle_Done base tys vs m :
  mangle_specialized_name base tys vs = Done m →
  m = base +:+ types_str tys +:+ values_str vs ∧ forallb has_name tys = true.
Proof.
  unfold mangle_specialized_name. intros (u & Hu & [= <-])%bind_Done.
  assert (u = base +:+ types_str tys ∧ forallb has_name tys = true) as [-> Hn].
  { revert base Hu. induction tys as [|ty tys IH]; intros base Hu; cbn [foldM] in Hu.
    - injection Hu as <-. by rewrite app_nil_str.
    - apply bind_Done in Hu as (b1 & Hb & [-> Hn]%IH). apply bind_Done in Hb as (s & Hs & [= <-]).
      unfold mangle_type in Hs. apply bind_Done in Hs as (n & Hname & [= <-]).
      change (types_str (ty :: tys)) with (type_str ty +:+ types_str tys). unfold type_str.
      cbn [forallb]. unfold has_name at 1. rewrite Hname. split; [by rewrite app_assoc_str|done]. }
  split; [|done]. rewrite <-app_assoc_str. generalize (base +:+ types_str tys) as b. clear.
  induction vs as [|v vs IH]; intros b; cbn [foldl]; [by rewrite app_nil_str|].
  rewrite IH. change (values_str (v :: vs)) with (mangle_value v +:+ values_str vs). by rewrite app_assoc_str.
Qed.

Lemma kind_name_no_hash k : sall no_hash (kind_name k) = true.
Proof. by destruct k. Qed.
Lemma name_no_hash ty n : name ty = Done n → sall no_hash n = true.
Proof. unfold name. intros (k & _ & [= <-])%bind_Done. apply kind_name_no_hash. Qed.

Lemma rest_stops p tys vs :
  forallb has_name tys = true → p underscore = false → stops p (types_str tys +:+ values_str vs) = true.
Proof.
  intros Hn Hp. destruct tys as [|ty tys]; [by apply values_str_stops|].
  change (types_str (ty :: tys)) with (type_str ty +:+ types_str tys).
  cbn [forallb] in Hn. apply andb_true_iff in Hn as [Hn _]. unfold has_name in Hn. unfold type_str.
  destruct (name ty); [|done..]. unfold underscore in Hp. simpl. by rewrite Hp.
Qed.

(** Reading the first type of a name back. *)
Lemma types_head_inj pre pre' ty ty' tys tys' vs vs' :
  sall no_hash pre = true → sall no_hash pre' = true →
  has_name ty = true → has_name ty' = true → type_arg ty = true → type_arg ty' = true →
  forallb has_name tys = true → forallb has_name tys' = true →
  pre +:+ types_str (ty :: tys) +:+ values_str vs = pre' +:+ types_str (ty' :: tys') +:+ values_str vs' →
  pre = pre' ∧ ty = ty' ∧ types_str tys +:+ values_str vs = types_str tys' +:+ values_str vs'.
Proof.
  intros Hpre Hpre' Hn Hn' Ht Ht' Htys Htys'.
  change (types_str (ty :: tys)) with (type_str ty +:+ types_str tys).
  change (types_str (ty' :: tys')) with (type_str ty' +:+ types_str tys').
  unfold has_name in Hn, Hn'. unfold type_str.
  destruct (name ty) as [n| |] eqn:Hname; [|done..]. destruct (name ty') as [n'| |] eqn:Hname'; [|done..].
  rewrite !app_assoc_str, <-(app_assoc_str "__" n), <-(app_assoc_str "__" n'),
    <-(app_assoc_str pre), <-(app_assoc_str pre'). intros Heq.
  apply (span_inj no_hash) in Heq as [Hhead Heq]; [| | |done|done].
  - simpl in Heq. injection Heq as Heq.
    apply (span_inj is_digit) in Heq as [Hd Hrest]; [| | |by apply rest_stops|by apply rest_stops].
    + apply (inj (pretty (A:=Z))) in Hd. assert (ty = ty') as -> by (destruct ty, ty'; unfold as_u32 in Hd; cbn in Hd; by subst).
      rewrite Hname in Hname'. injection Hname' as <-. by apply app_cancel_r in Hhead.
    + apply pretty_Z_digits. unfold type_arg in Ht. unfold as_u32. lia.
    + apply pretty_Z_digits. unfold type_arg in Ht'. unfold as_u32. lia.
  - rewrite !sall_app, Hpre. by rewrite (name_no_hash _ _ Hname).
  - rewrite !sall_app, Hpre'. by rewrite (name_no_hash _ _ Hname').
Qed.

Lemma types_str_hash ty tys s : has_name ty = true → sall no_hash (types_str (ty :: tys) +:+ s) = false.
Proof.
  intros Hn. change (types_str (ty :: tys)) with (type_str ty +:+ types_str tys). unfold has_name in Hn. unfold type_str.
  destruct (name ty); [|done..]. rewrite !sall_app. cbn. by rewrite !andb_false_r.
Qed.

Lemma rest_inj tys tys' vs vs' :
  forallb has_name tys = true → forallb has_name tys' = true →
  forallb type_arg tys = true → forallb type_arg tys' = true →
  forallb scalar_arg vs = true → forallb scalar_arg vs' = true →
  types_str tys +:+ values_str vs = types_str tys' +:+ values_str vs' → tys = tys' ∧ vs = vs'.
Proof.
  revert tys'. induction tys as [|ty tys IH]; intros [|ty' tys'] Hn Hn' Ht Ht' Hv Hv' Heq.
  - split; [done|]. by apply values_str_inj.
  - exfalso. cbn [forallb] in Hn'. apply andb_true_iff in Hn' as [Hn' _].
    pose proof (types_str_hash ty' tys' (values_str vs') Hn') as Hh. rewrite <-Heq in Hh. cbn [types_str foldr] in Hh.
    change ("" +:+ values_str vs) with (values_str vs) in Hh. by rewrite values_str_no_hash in Hh.
  - exfalso. cbn [forallb] in Hn. apply andb_true_iff in Hn as [Hn _].
    pose proof (types_str_hash ty tys (values_str vs) Hn) as Hh. rewrite Heq in Hh. cbn [types_str foldr] in Hh.
    change ("" +:+ values_str vs') with (values_str vs') in Hh. by rewrite values_str_no_hash in Hh.
  - cbn [forallb] in *. rewrite !andb_true_iff in *. destruct_and!.
    destruct (types_head_inj "" "" ty ty' tys tys' vs vs') as (_ & -> & Hrest); [done..|].
    by destruct (IH tys') as [-> ->].
Qed.

(** ** Function names *)

(** The string starts with ["__v"]; no ["__v"] inside. *)
Definition letter_v : Ascii.ascii := Ascii.Ascii false true true false true true true false.
Definition at_mark (s : string) : bool :=
  match s with
  | String a (String b (String c _)) => Ascii.eqb a underscore && Ascii.eqb b underscore && Ascii.eqb c letter_v
  | _ => false
  end.
Fixpoint no_mark (s : string) : bool :=
  match s with EmptyString => true | String a s' => negb (at_mark s) && no_mark s' end.
(** The part before the first ["__v"]. *)
Fixpoint before_mark (s : string) : string :=
  match s with
  | EmptyString => EmptyString
  | String a s' => if at_mark s then EmptyString else String a (before_mark s')
  end.

Lemma before_mark_app b vs : no_mark b = true → before_mark (b +:+ values_str vs) = b.
Proof.
  intros Hb. induction b as [|a b IH].
  - destruct vs as [|v vs]; [done|]. change (values_str (v :: vs)) with (mangle_value v +:+ values_str vs).
    by rewrite mangle_value_code.
  - cbn [no_mark] in Hb. apply andb_true_iff in Hb as [Hp Hb].
    assert (at_mark (String a b +:+ values_str vs) = false) as Hpre.
    { clear IH Hb. apply negb_true_iff in Hp.
      destruct b as [|b1 [|b2 b]]; [| |exact Hp]; (destruct vs as [|v vs]; [done|]);
        change (values_str (v :: vs)) with (mangle_value v +:+ values_str vs); rewrite mangle_value_code;
        cbn; by rewrite !andb_false_r. }
    change (String a b +:+ values_str vs) with (String a (b +:+ values_str vs)) in *.
    cbn [before_mark]. rewrite Hpre. by rewrite IH.
Qed.

(** The names of generic functions keep clear of the marks: no ["#"], and no ["__v"] in the
    name of a function without type parameters. *)
Definition plain_name (base : string) (tys : list Ty) : bool :=
  sall no_hash base && match tys with [] => no_mark base | _ => true end.

(** C36: instances with the same symbol are the same instance: the generic function, its type
    arguments and its value arguments can be read back from [mangle_specialized_name], for
    names that contain no mark of the mangling and for scalar value arguments. *)
Theorem mangled_names_distinct (base base' : string) (tys tys' : list Ty) (vs vs' : list ConstValue) (m : string) :
  plain_name base tys = true → plain_name base' tys' = true →
  forallb type_arg tys = true → forallb type_arg tys' = true →
  forallb scalar_arg vs = true → forallb scalar_arg vs' = true →
  mangle_specialized_name base tys vs = Done m → mangle_specialized_name base' tys' vs' = Done m →
  base = base' ∧ tys = tys' ∧ vs = vs'.
Proof.
  intros [Hb Hm]%andb_true_iff [Hb' Hm']%andb_true_iff Ht Ht' Hv Hv' [-> Hn]%mangle_Done [Heq Hn']%mangle_Done.
  destruct tys as [|ty tys], tys' as [|ty' tys'].
  - change (types_str [] +:+ ?s) with s in Heq. apply (f_equal before_mark) in Heq as Hbase.
    rewrite !before_mark_app in Hbase by done. subst base'.
    split; [done|]. split; [done|]. apply values_str_inj; [done|done|]. by apply (inj (String.append base)).
  - exfalso. cbn [forallb] in Hn'. apply andb_true_iff in Hn' as [Hn' _]. apply (f_equal (sall no_hash)) in Heq.
    rewrite (sall_app _ base'), (types_str_hash _ _ _ Hn'), andb_false_r in Heq.
    change (types_str [] +:+ ?s) with s in Heq. by rewrite sall_app, Hb, values_str_no_hash in Heq.
  - exfalso. cbn [forallb] in Hn. apply andb_true_iff in Hn as [Hn _]. apply (f_equal (sall no_hash)) in Heq.
    rewrite (sall_app _ base), (types_str_hash _ _ _ Hn), andb_false_r in Heq.
    change (types_str [] +:+ ?s) with s in Heq. by rewrite sall_app, Hb', values_str_no_hash in Heq.
  - cbn [forallb] in *. rewrite !andb_true_iff in *. destruct_and!.
    destruct (types_head_inj base base' ty ty' tys tys' vs vs') as (-> & -> & Hrest); [done..|].
    by destruct (rest_inj tys tys' vs vs') as [-> ->].
Qed.
End Names.

Lemma mangled_names_distinct_witness :
  mangle_specialized_name (λ _, "") "max" [Ty.I32] [CInteger (-7); CBool true] = Done "max__i32#2__vim7__vb1" ∧
  ∀ base tys vs, plain_name base tys = true → forallb type_arg tys = true → forallb scalar_arg vs = true →
    mangle_specialized_name (λ _, "") base tys vs = Done "max__i32#2__vim7__vb1" →
    base = "max" ∧ tys = [Ty.I32] ∧ vs = [CInteger (-7); CBool true].
Proof.
  split; [vm_compute; reflexivity|]. intros base tys vs Hb Ht Hv Hm.
  destruct (mangled_names_distinct (λ _, "") base "max" tys [Ty.I32] vs [CInteger (-7); CBool true]
    "max__i32#2__vim7__vb1") as (-> & -> & ->); try (vm_compute; reflexivity); try assumption.
  split; [reflexivity|]. split; reflexivity.
Defined.

(** Without the condition on names they collide: [f] at the values 1 and 2, and the function
    [f__vi1] at the value 2; and the instance of [f] at 7 has the symbol of the ordinary
    function [f__vi7]. *)
Lemma mangled_names_collide :
  mangle_specialized_name (λ _, "") "f" [] [CInteger 1; CInteger 2] =
    mangle_specialized_name (λ _, "") "f__vi1" [] [CInteger 2] ∧
  mangle_specialized_name (λ _, "") "f" [] [CInteger 7] = Done "f__vi7".
Proof. by vm_compute. Qed.
