(* ===== verification/SpecializeSpec.v ===== *)
(** * What specialization guarantees

    The statements about a whole run of [specialize] (Specialize.v), proved with the
    rounds of SpecializeThm.v, and the merging of the literal pools. *)

From S2P Require Import Prelude Types AirPattern Air InternPool ParamArena Scope Moves SemaState.
From S2P Require Import DropNames Cfg CfgBuild Rir Specialize SpecializeThm.

#[local] Open Scope Z_scope.

Section Spec.
Context {Spur : Type} `{Countable Spur} `{!SpurKey Spur} {Rest : Type}.
Notation Key := (SpecializationKey (Spur := Spur)).
Notation Info := (SpecializationInfo (Spur := Spur)).
Notation Row := (AnalyzedRow (Spur := Spur)).
Notation Refs := (SpecializationRefs (Spur := Spur)).
Notation X := (X (Spur := Spur) (Rest := Rest)).
Notation Tables := (Tables (Spur := Spur) (Rest := Rest)).
Notation World := (World (Spur := Spur) (Rest := Rest)).
Context (rir : Rir Spur).
Context (resolve : Spur → string) (get_or_intern : string → Spur) (interner_get : string → option Spur).
Context (debug_const : ConstValue → string).
Context (hash_order : gmap Key Info → list (Key * Info)).
Context (check_conforms : Ty → Z → Span → X ()).
Context (resolve_type_for_comptime_with_subst : Spur → gmap Spur Ty → X (option Ty)).
Context (analyze_specialized_function :
  Ty → list (Spur * Ty * RirParamMode) → InstRef → gmap Spur Ty → gmap Spur ConstValue → X (RawFn (Spur := Spur))).

Notation specialize := (specialize rir resolve get_or_intern interner_get debug_const hash_order check_conforms
  resolve_type_for_comptime_with_subst analyze_specialized_function).
Notation made := (made rir resolve get_or_intern interner_get debug_const check_conforms
  resolve_type_for_comptime_with_subst analyze_specialized_function).
Notation instances_within := (instances_within rir resolve get_or_intern interner_get check_conforms
  resolve_type_for_comptime_with_subst analyze_specialized_function).

(** [row] holds the body synthesised for the key, under the symbol of the key, with its own
    generic calls rewritten and its references among [refs]. *)
Definition instance_row (nm : gmap Key Spur) (refs : Refs) (ks : Key * Spur) (row : Row) : Prop :=
  fn_name row.1.1 = resolve ks.2 ∧ made row_becomes nm refs ks row.

Lemma made_instance nm refs ks row : made row_becomes nm refs ks row → instance_row nm refs ks row.
Proof.
  intros Hm. split; [|done]. destruct Hm as (_ & info & r0 & r1 & s0 & s1 & row0 & <- & Hc & _ & [-> _]).
  by apply instance_of_row in Hc as [? _].
Qed.

(** C25: when [specialize] succeeds, no generic call is left in the program. The functions it
    was given keep everything but their generic calls, which have become direct calls of the
    symbol recorded for their key; after them comes exactly one function per new key, under
    that symbol, synthesised from the generic function with the key's arguments, and the
    references of its body are among the ones returned. *)
Theorem specialization_closes_program (fuel : nat) (rows : list Row) (nm : gmap Key Spur) (sema : Tables)
    (refs : Refs) (w : World) :
  (∀ m, hash_order m ≡ₚ map_to_list m) →
  specialize fuel rows nm sema = Done (inr refs, w) →
  Forall (λ row, no_generic (row_air row)) (w_rows w) ∧
  ∃ olds news keys,
    w_rows w = olds ++ news ∧
    Forall2 (row_becomes (w_name_map w)) rows olds ∧
    Forall2 (instance_row (w_name_map w) refs) keys news ∧
    NoDup keys.*1 ∧
    (∀ key s, w_name_map w !! key = Some s ↔ (key, s) ∈ keys ∨ nm !! key = Some s) ∧
    (∀ key s, (key, s) ∈ keys → nm !! key = None).
Proof.
  intros Hperm Hs. unfold specialize in Hs.
  apply (specialize_loop_inv _ _ _ _ _ _ _ _ _ Hperm rows nm) with (fin := []) in Hs as (-> & Hg & fin & Hinv).
  - split; [done|]. destruct Hinv as [Hn Hnd Hf (olds & news & Hrows & Hold & Hnew)]. rewrite app_nil_r in *.
    exists olds, news, fin. split_and!; [done|done| |done|done|done].
    eapply Forall2_relax; [exact Hnew|]. intros ks row. apply made_instance.
  - split; cbn; [|constructor|by intros ? ? ?%elem_of_nil|].
    + intros key s. rewrite elem_of_nil. naive_solver.
    + exists rows, []. split; [by rewrite app_nil_r|]. split; [|constructor].
      clear. induction rows; constructor; [by left|done].
Qed.

(** C14: [specialize] stops. If all generic calls, of the program and of every instance it can
    synthesise from tables that satisfy an invariant [I], have their keys in a finite set [K],
    the number of keys of [K] without a symbol bounds the rounds; the analysis of bodies, the
    conformance check and type resolution are assumed to answer. *)
Theorem specialization_terminates (I : Tables → Prop) (K : gset Key) (rows : list Row) (nm : gmap Key Spur) (sema : Tables) :
  (∀ m, hash_order m ≡ₚ map_to_list m) →
  (∀ ty iid sp s, check_conforms ty iid sp s ≠ NoFuel) →
  (∀ n subst s, resolve_type_for_comptime_with_subst n subst s ≠ NoFuel) →
  (∀ rt ps body ts vs s, analyze_specialized_function rt ps body ts vs s ≠ NoFuel) →
  I sema → reach K rows → instances_within I K →
  specialize (S (size (K ∖ dom nm))) rows nm sema ≠ NoFuel.
Proof.
  intros Hperm Hc Hr Ha HI Hk HK. unfold specialize.
  by eapply specialize_loop_total; [exact Hperm|exact Hc|exact Hr|exact Ha|exact HK|exact HI|exact Hk|cbn; lia].
Qed.
End Spec.

(** ** A program with two generic functions

    [main] calls [f(i32)], and [f(T)] calls [g(T)]. Symbols are strings. *)
Module SpecializeSample.
#[export] Instance string_key : SpurKey string := {
  into_usize s := Z.pos (countable.encode s);
  try_from_usize n := if decide (0 < n) then countable.decode (Z.to_pos n) else None;
}.
Notation Row := (AnalyzedRow (Spur := string)).
Notation X := (X (Spur := string) (Rest := ())).
Definition sp : Span := MkSpan 0 0 0.

(** A body of one call of the generic function [n] at the type [t]. *)
Definition calls (n : string) (t : Ty) : Air (Spur := string) :=
  MkAir [MkInst (ICallGeneric n 0 1 1 0) Ty.UNIT sp] [ty_u32 t] Ty.UNIT [] [] ∅ ∅.
Definition leaf : Air (Spur := string) := MkAir [MkInst IUnitConst Ty.UNIT sp] [] Ty.UNIT [] [] ∅ ∅.
Definition fn (n : string) (a : Air (Spur := string)) : Row := (MkFunction n a 0 0 [] [] false, [], []).
Definition rows : list Row := [fn "main" (calls "f" Ty.I32)].

(** [fn f(comptime T: type)] and [fn g(comptime T: type)], with the bodies 1 and 2. *)
Definition info (body : Z) : FunctionInfo (Spur := string) :=
  MkFunctionInfo (MkRange 0 1) Ty.UNIT "()" body sp true true false 0 None None None false false.
Definition sema : Tables (Spur := string) (Rest := ()) :=
  MkTables {["f" := info 1; "g" := info 2]} ∅ ∅ ∅ ∅
    (MkArena ["T"] [Ty.COMPTIME_TYPE] [ParamComptime] [true]) ().
Definition no_rir : Rir string := MkRir [] [] [] [] [].

Definition conforms (_ : Ty) (_ : Z) (_ : Span) : X () := mret ().
Definition resolve_type (_ : string) (_ : gmap string Ty) : X (option Ty) := mret None.
(** The analysis of the two bodies. *)
Definition analyze (_ : Ty) (_ : list (string * Ty * RirParamMode)) (body : InstRef) (ts : gmap string Ty)
    (_ : gmap string ConstValue) : X (RawFn (Spur := string)) :=
  mret (MkRaw (if body =? 1 then calls "g" (default Ty.ERROR (ts !! "T")) else leaf) 0 0 [] [] [] [] [] {["helper"]} ∅).
Definition run (fuel : nat) :=
  specialize no_rir id id Some (λ _, "") map_to_list conforms resolve_type analyze fuel rows ∅ sema.
Definition f_i32 : SpecializationKey (Spur := string) := MkKey "f" [Ty.I32] [].
Definition g_i32 : SpecializationKey (Spur := string) := MkKey "g" [Ty.I32] [].
Definition keys : gset (SpecializationKey (Spur := string)) := {[f_i32; g_i32]}.
End SpecializeSample.

(** The symbols called and the names defined by a program. *)
Definition call_targets {Spur} (row : AnalyzedRow (Spur := Spur)) : list Spur :=
  omap (λ i, match i_data i with ICall s _ _ => Some s | _ => None end) (instructions (row_air row)).

Definition names_and_calls (w : World (Spur := string) (Rest := ())) : list (string * list string) :=
  map (λ row, (fn_name row.1.1, call_targets row)) (w_rows w).
Lemma run_result :
  match SpecializeSample.run 3 with
  | Done (inr _, w) =>
      names_and_calls w = [("main", ["f__i32#2"]); ("f__i32#2", ["g__i32#2"]); ("g__i32#2", [])]%string
  | _ => False
  end.
Proof. vm_compute. reflexivity. Qed.

Lemma specialization_closes_program_witness :
  ∃ refs w, SpecializeSample.run 3 = Done (inr refs, w) ∧
    Forall (λ row, no_generic (row_air row)) (w_rows w) ∧
    names_and_calls w = [("main", ["f__i32#2"]); ("f__i32#2", ["g__i32#2"]); ("g__i32#2", [])]%string.
Proof.
  pose proof run_result as Hw. destruct (SpecializeSample.run 3) as [[[e|refs] w]| |] eqn:Hr; [destruct Hw| |destruct Hw..].
  exists refs, w. split; [reflexivity|].
  destruct (specialization_closes_program SpecializeSample.no_rir id id Some (λ _, ""%string) map_to_list
    SpecializeSample.conforms SpecializeSample.resolve_type SpecializeSample.analyze 3 SpecializeSample.rows ∅
    SpecializeSample.sema refs w (λ m, reflexivity _) Hr) as [Hg _].
  split; [exact Hg|exact Hw].
Defined.

Module SpecializeBound.
Import SpecializeSample.
Lemma calls_key n t key : calls_generic (calls n t) key → key = MkKey n [MkTy (ty_u32 t)] [].
Proof.
  intros ([|i] & inst & [= <-] & Hg). vm_compute in Hg. by injection Hg as <-.
Qed.
Lemma leaf_key key : ¬ calls_generic leaf key.
Proof. by intros ([|i] & inst & [= <-] & Hg). Qed.

Lemma rows_reach : reach keys rows.
Proof.
  intros row ->%list_elem_of_singleton key ->%calls_key. by apply elem_of_union_l, elem_of_singleton.
Qed.
Lemma sample_instances :
  instances_within no_rir id id Some conforms resolve_type analyze (λ s, s = sema) keys.
Proof.
  intros key inf refs s row refs' s' [->%elem_of_singleton| ->%elem_of_singleton]%elem_of_union -> Hi.
  - assert (instance_of no_rir id id Some conforms resolve_type analyze f_i32 inf refs sema =
      Done (inr (fn (si_mangled_name inf) (calls "g" Ty.I32), MkRefs (refs_fns refs ∪ {["helper"]}) (refs_meths refs ∪ ∅)),
            sema)) as Heq by reflexivity.
    rewrite Heq in Hi. injection Hi as <- _ <-. split; [done|].
    intros key' ->%calls_key. by apply elem_of_union_r, elem_of_singleton.
  - assert (instance_of no_rir id id Some conforms resolve_type analyze g_i32 inf refs sema =
      Done (inr (fn (si_mangled_name inf) leaf, MkRefs (refs_fns refs ∪ {["helper"]}) (refs_meths refs ∪ ∅)),
            sema)) as Heq by reflexivity.
    rewrite Heq in Hi. injection Hi as <- _ <-. split; [done|]. by intros key' ?%leaf_key.
Qed.
End SpecializeBound.

Lemma specialization_terminates_witness :
  size SpecializeSample.keys = 2%nat ∧
  SpecializeSample.run
    (S (size (SpecializeSample.keys ∖ dom (∅ : gmap (SpecializationKey (Spur := string)) string)))) ≠ NoFuel.
Proof.
  split; [vm_compute; reflexivity|]. unfold SpecializeSample.run.
  refine (specialization_terminates SpecializeSample.no_rir id id Some (λ _, ""%string) map_to_list
    SpecializeSample.conforms SpecializeSample.resolve_type SpecializeSample.analyze
    (λ s, s = SpecializeSample.sema) SpecializeSample.keys SpecializeSample.rows ∅ SpecializeSample.sema
    (λ m, reflexivity _) _ _ _ eq_refl
    SpecializeBound.rows_reach SpecializeBound.sample_instances); intros; discriminate.
Defined.
