(* ===== verification/Literals.v ===== *)
(** * The literal pools of the program

    Each function is analysed with its own string and byte literals; the end of
    [analyze_all_function_bodies] merges them ([merge_rows] of Specialize.v). Every
    literal keeps its contents. *)

From S2P Require Import Prelude Types AirPattern Air InternPool ParamArena DropNames Cfg CfgBuild Specialize.

#[local] Open Scope Z_scope.

Section Literals.
Context {Spur : Type} `{Countable Spur} `{!SpurKey Spur}.
Notation Air := (Air (Spur := Spur)).
Notation AirInst := (AirInst (Spur := Spur)).
Notation Row := (AnalyzedRow (Spur := Spur)).
Implicit Types (inst : AirInst) (row : Row) (p : Pools).

(** [inst'] over the tables [strs'], [bytes'] is [inst] over [strs], [bytes]. *)
Definition same_literal (strs : list string) (bytes : list (list Z)) (strs' : list string) (bytes' : list (list Z))
    inst inst' : Prop :=
  i_ty inst' = i_ty inst ∧ i_span inst' = i_span inst ∧
  match i_data inst with
  | IStringConst id =>
      ∃ id' s, i_data inst' = IStringConst id' ∧ strs !! Z.to_nat id = Some s ∧ strs' !! Z.to_nat id' = Some s
  | IBytesConst id =>
      ∃ id' b, i_data inst' = IBytesConst id' ∧ bytes !! Z.to_nat id = Some b ∧ bytes' !! Z.to_nat id' = Some b
  | d => i_data inst' = d
  end.

(** The literals of a function are in its tables. *)
Definition literal_ok (strs : list string) (bytes : list (list Z)) inst : Prop :=
  match i_data inst with
  | IStringConst id => 0 ≤ id < Z.of_nat (length strs)
  | IBytesConst id => 0 ≤ id < Z.of_nat (length bytes)
  | _ => True
  end.
Definition row_literals_ok row : Prop := Forall (literal_ok row.1.2 row.2) (instructions (row_air row)).
Definition row_strings row : nat := length row.1.2.
Definition row_bytes row : nat := length row.2.

(** Everything but the instructions is kept. *)
Definition same_function row (f : AnalyzedFunction (Spur := Spur)) (insts : list AirInst) : Prop :=
  f = set_air row.1.1 (set_instructions insts (row_air row)).

Lemma mapM_exists {A B} (g : A → outcome B) (P : A → B → Prop) l :
  Forall (λ x, ∃ y, g x = Done y ∧ P x y) l → ∃ k, mapM g l = Done k ∧ Forall2 P l k.
Proof.
  induction 1 as [|x l (y & Hy & HP) _ (k & Hk & HF)]; [by exists []|]. exists (y :: k). split; [|by constructor].
  cbn. rewrite Hy. cbn. rewrite Hk. done.
Qed.

(** ** The string table *)

Definition pools_ok p : Prop :=
  ∀ s id, global_string_table p !! s = Some id → global_strings p !! Z.to_nat id = Some s.
(** Both tables only grow. *)
Definition pools_le p p' : Prop :=
  global_strings p `prefix_of` global_strings p' ∧ global_bytes p `prefix_of` global_bytes p'.
#[local] Instance pools_le_preorder : PreOrder pools_le.
Proof. split; [by split|]. intros p1 p2 p3 [? ?] [? ?]. split; by etransitivity. Qed.

Lemma intern_string_spec p s id p' :
  pools_ok p → Z.of_nat (length (global_strings p)) < 2 ^ 32 → intern_string p s = (id, p') →
  pools_ok p' ∧ pools_le p p' ∧ global_bytes p' = global_bytes p ∧ global_strings p' !! Z.to_nat id = Some s ∧
  (length (global_strings p') ≤ S (length (global_strings p)))%nat.
Proof.
  intros Hok Hlen. unfold intern_string. destruct (global_string_table p !! s) as [i|] eqn:Hs.
  { intros [= <- <-]. split_and!; [done|done|done|by apply Hok|lia]. }
  intros [= <- <-]. cbn. rewrite len_u32_small by done.
  assert ((global_strings p ++ [s]) !! Z.to_nat (Z.of_nat (length (global_strings p))) = Some s) as Hnew.
  { rewrite Nat2Z.id, lookup_app_r, Nat.sub_diag by lia. done. }
  split_and!; [|split; [by apply prefix_app_r|done]|done|exact Hnew|rewrite length_app; cbn; lia].
  intros s' id. cbn. rewrite lookup_insert_Some. intros [[<- <-]|[_ Hs']]; [done|].
  apply lookup_app_l_Some. by apply Hok.
Qed.

Lemma intern_strings_spec l p ids p' :
  pools_ok p → Z.of_nat (length (global_strings p) + length l) ≤ 2 ^ 32 → intern_strings p l = (ids, p') →
  pools_ok p' ∧ pools_le p p' ∧ global_bytes p' = global_bytes p ∧
  Forall2 (λ s id, global_strings p' !! Z.to_nat id = Some s) l ids ∧
  (length (global_strings p') ≤ length (global_strings p) + length l)%nat.
Proof.
  revert p ids. induction l as [|s l IH]; intros p ids Hok Hlen Hi; cbn in Hi.
  { injection Hi as <- <-. split_and!; [done|done|done|constructor|lia]. }
  destruct (intern_string p s) as [id p1] eqn:H1. destruct (intern_strings p1 l) as [ids2 p2] eqn:H2.
  injection Hi as <- <-. cbn [length] in Hlen.
  destruct (intern_string_spec p s id p1 Hok ltac:(lia) H1) as (Hok1 & Hle1 & Hb1 & Hid & Hn1).
  destruct (IH p1 ids2 Hok1 ltac:(lia) H2) as (Hok2 & Hle2 & Hb2 & HF & Hn2).
  split_and!; [done|by etransitivity|congruence| |cbn; lia].
  constructor; [|done]. destruct Hle2 as [Hpre _]. by eapply prefix_lookup_Some.
Qed.

(** ** One function *)

Lemma same_literal_mono strs bytes p p' inst inst' :
  pools_le p p' → same_literal strs bytes (global_strings p) (global_bytes p) inst inst' →
  same_literal strs bytes (global_strings p') (global_bytes p') inst inst'.
Proof.
  intros [Hs Hb] (Hty & Hsp & Hd). split; [done|]. split; [done|]. destruct (i_data inst); try done.
  - destruct Hd as (id' & s & Hd & Hl & Hl'). exists id', s. split_and!; [done..|by eapply prefix_lookup_Some].
  - destruct Hd as (id' & b & Hd & Hl & Hl'). exists id', b. split_and!; [done..|by eapply prefix_lookup_Some].
Qed.

(** What the two remappings do to an instruction. *)
Definition string_moved (strs strs' : list string) inst inst' : Prop :=
  i_ty inst' = i_ty inst ∧ i_span inst' = i_span inst ∧
  match i_data inst with
  | IStringConst id =>
      ∃ id' s, i_data inst' = IStringConst id' ∧ strs !! Z.to_nat id = Some s ∧ strs' !! Z.to_nat id' = Some s
  | d => i_data inst' = d
  end.

Lemma remap_strings_spec (a : Air) strs bytes ids strs' :
  Forall (literal_ok strs bytes) (instructions a) →
  Forall2 (λ s id, strs' !! Z.to_nat id = Some s) strs ids →
  ∃ a', try_remap (try_remap_string (λ id, AirPattern.index ids (Z.to_nat id))) a = Done a' ∧
    ∃ insts, a' = set_instructions insts a ∧ Forall2 (string_moved strs strs') (instructions a) insts.
Proof.
  intros Hok Hids.
  destruct (mapM_exists (try_remap_string (λ id, AirPattern.index ids (Z.to_nat id)))
    (string_moved strs strs') (instructions a)) as (insts & Hm & HF).
  { eapply list.Forall_impl; [exact Hok|]. intros inst Hl. unfold literal_ok in Hl. unfold try_remap_string, string_moved.
    destruct (i_data inst) eqn:Hd; try (exists inst; by rewrite Hd).
    destruct (lookup_lt_is_Some_2 strs (Z.to_nat id)) as [s Hs]; [lia|].
    destruct (Forall2_lookup_l _ _ _ _ _ Hids Hs) as (id' & Hid & Hs').
    unfold AirPattern.index. rewrite Hid. eexists. split; [done|]. split_and!; [done..|]. by exists id', s. }
  exists (set_instructions insts a). split; [unfold try_remap; by rewrite Hm|]. by exists insts.
Qed.

Lemma remap_bytes_spec (a : Air) strs strs' bytes (global : list (list Z)) (insts0 : list AirInst) :
  Forall (literal_ok strs bytes) insts0 → Forall2 (string_moved strs strs') insts0 (instructions a) →
  Z.of_nat (length global + length bytes) < 2 ^ 32 →
  ∃ insts, try_remap (try_remap_bytes (λ id, checked_add 32 id (len_u32 global))) a = Done (set_instructions insts a) ∧
    Forall2 (same_literal strs bytes strs' (global ++ bytes)) insts0 insts.
Proof.
  intros Hok HF Hlen.
  assert (∃ insts, mapM (try_remap_bytes (λ id, checked_add 32 id (len_u32 global))) (instructions a) = Done insts ∧
    Forall2 (same_literal strs bytes strs' (global ++ bytes)) insts0 insts) as (insts & Hm & Hs).
  { revert Hok. induction HF as [|inst inst1 l l1 (Hty & Hsp & Hd) HF IH]; intros Hok; [by exists []|].
    apply list.Forall_cons in Hok as [Hl Hok]. destruct (IH Hok) as (insts & Hm & Hs).
    assert (∃ inst2, try_remap_bytes (λ id, checked_add 32 id (len_u32 global)) inst1 = Done inst2 ∧
      same_literal strs bytes strs' (global ++ bytes) inst inst2) as (inst2 & H2 & Hs2).
    { unfold try_remap_bytes, same_literal, literal_ok in *. destruct (i_data inst) eqn:Hdi;
        try (rewrite Hd; exists inst1; by rewrite Hd).
      - destruct Hd as (id' & s & Hd & ? & ?). rewrite Hd. exists inst1. split; [done|]. rewrite Hd. split_and!; [done..|].
        by exists id', s.
      - rewrite Hd. rewrite len_u32_small by lia. unfold checked_add. rewrite decide_True by (unfold in_u; lia).
        eexists. split; [done|]. split_and!; [done..|].
        destruct (lookup_lt_is_Some_2 bytes (Z.to_nat id)) as [b Hb]; [lia|].
        eexists _, b. split_and!; [done|done|]. rewrite lookup_app_r by lia.
        replace (Z.to_nat (id + Z.of_nat (length global)) - length global)%nat with (Z.to_nat id) by lia. done. }
    exists (inst2 :: insts). split; [|by constructor]. cbn. rewrite H2. cbn. rewrite Hm. done. }
  exists insts. split; [unfold try_remap; by rewrite Hm|done].
Qed.

Lemma string_moved_refl strs bytes strs' insts :
  Forall (literal_ok [] bytes) insts → Forall2 (string_moved strs strs') insts insts.
Proof.
  induction 1 as [|inst l Hl _ IH]; constructor; [|done]. unfold literal_ok in Hl.
  split; [done|]. split; [done|]. destruct (i_data inst); try done. cbn in Hl. lia.
Qed.
Lemma string_moved_same strs strs' bytes' insts insts' :
  Forall (literal_ok strs []) insts → Forall2 (string_moved strs strs') insts insts' →
  Forall2 (same_literal strs [] strs' bytes') insts insts'.
Proof.
  intros Hok HF. induction HF as [|inst inst' l l' (Hty & Hsp & Hd) HF IH]; [constructor|].
  apply list.Forall_cons in Hok as [Hl Hok]. constructor; [|by apply IH].
  split; [done|]. split; [done|]. unfold literal_ok in Hl. destruct (i_data inst); try done. cbn in Hl. lia.
Qed.

Lemma merge_row_spec p row :
  pools_ok p → row_literals_ok row →
  Z.of_nat (length (global_strings p) + row_strings row) ≤ 2 ^ 32 →
  Z.of_nat (length (global_bytes p) + row_bytes row) < 2 ^ 32 →
  ∃ f p' insts, merge_row p row = Done (f, p') ∧ same_function row f insts ∧ pools_ok p' ∧ pools_le p p' ∧
    (length (global_strings p') ≤ length (global_strings p) + row_strings row)%nat ∧
    length (global_bytes p') = (length (global_bytes p) + row_bytes row)%nat ∧
    Forall2 (same_literal row.1.2 row.2 (global_strings p') (global_bytes p')) (instructions (row_air row)) insts.
Proof.
  destruct row as [[f strs] bytes]. unfold row_literals_ok, row_strings, row_bytes, same_function, row_air. cbn [fst snd].
  intros Hok Hl Hs Hb.
  assert (∃ a p1, match strs with
      | [] => mret (fn_air f, p)
      | _ => let '(local_to_global, p) := intern_strings p strs in
             air ← try_remap (try_remap_string (λ id, AirPattern.index local_to_global (Z.to_nat id))) (fn_air f);
             mret (air, p)
      end = Done (a, p1) ∧ pools_ok p1 ∧ pools_le p p1 ∧ global_bytes p1 = global_bytes p ∧
      (length (global_strings p1) ≤ length (global_strings p) + length strs)%nat ∧
      ∃ insts, a = set_instructions insts (fn_air f) ∧
        Forall2 (string_moved strs (global_strings p1)) (instructions (fn_air f)) insts)
    as (a & p1 & H1 & Hok1 & Hle1 & Hb1 & Hn1 & insts1 & -> & HF1).
  { destruct strs as [|s strs].
    { exists (fn_air f), p. split_and!; [done..|lia|]. exists (instructions (fn_air f)).
      split; [by destruct (fn_air f)|by eapply string_moved_refl]. }
    destruct (intern_strings p (s :: strs)) as [ids p1] eqn:Hi.
    destruct (intern_strings_spec _ _ _ _ Hok Hs Hi) as (Hok1 & Hle1 & Hb1 & HF & Hn1).
    destruct (remap_strings_spec (fn_air f) _ _ _ _ Hl HF) as (a & Ha & insts & Hset & Hmoved).
    exists a, p1. rewrite Ha. split_and!; [done..|]. by exists insts. }
  unfold merge_row. rewrite H1. cbn [mbind outcome_bind].
  destruct bytes as [|b bytes].
  { eexists _, p1, insts1. split; [done|]. split_and!; [done|done|done|done|rewrite Hb1; cbn; lia|].
    by apply string_moved_same. }
  rewrite <-Hb1 in Hb. destruct (remap_bytes_spec (set_instructions insts1 (fn_air f)) strs (global_strings p1) (b :: bytes)
    (global_bytes p1) (instructions (fn_air f)) Hl HF1 Hb) as (insts & Ha & HF).
  rewrite Ha. eexists _, _, insts. split; [done|]. cbn [global_strings global_bytes]. split_and!; [done|done| |done| |done].
  - etransitivity; [exact Hle1|]. split; [done|by apply prefix_app_r].
  - by rewrite length_app, Hb1.
Qed.

Definition strings_count (rows : list Row) : nat := list_sum (map row_strings rows).
Definition bytes_count (rows : list Row) : nat := list_sum (map row_bytes rows).

(** [f] is the function of the row, over the tables of the program. *)
Definition merged p row (f : AnalyzedFunction (Spur := Spur)) : Prop :=
  ∃ insts, same_function row f insts ∧
    Forall2 (same_literal row.1.2 row.2 (global_strings p) (global_bytes p)) (instructions (row_air row)) insts.

Lemma merge_rows_spec rows p :
  pools_ok p → Forall row_literals_ok rows →
  Z.of_nat (length (global_strings p) + strings_count rows) ≤ 2 ^ 32 →
  Z.of_nat (length (global_bytes p) + bytes_count rows) < 2 ^ 32 →
  ∃ fs p', merge_rows p rows = Done (fs, p') ∧ pools_le p p' ∧ Forall2 (merged p') rows fs.
Proof.
  revert p. induction rows as [|row rows IH]; intros p Hok Hl Hs Hb; [exists [], p; by split_and!|].
  apply list.Forall_cons in Hl as [Hr Hl].
  change (strings_count (row :: rows)) with (row_strings row + strings_count rows)%nat in Hs.
  change (bytes_count (row :: rows)) with (row_bytes row + bytes_count rows)%nat in Hb.
  destruct (merge_row_spec p row Hok Hr ltac:(lia) ltac:(lia)) as (f & p1 & insts & H1 & Hf & Hok1 & Hle1 & Hn1 & Hb1 & HF1).
  destruct (IH p1 Hok1 Hl ltac:(lia) ltac:(lia)) as (fs & p2 & H2 & Hle2 & HF2).
  exists (f :: fs), p2. split; [cbn [merge_rows]; rewrite H1; cbn; by rewrite H2|]. split; [by etransitivity|].
  constructor; [|done]. exists insts. split; [done|].
  clear -HF1 Hle2. induction HF1; constructor; [by eapply same_literal_mono|done].
Qed.

(** Merging the literal pools of the functions succeeds and loses nothing: if the literals
    of each function are in its own pools and the program has less than 2^32 of them, every
    function comes out with the same instructions, types and spans, and every string and byte
    literal of it has in the tables of the program the contents it had in its own. *)
Theorem merged_literals_resolve (rows : list Row) :
  Forall row_literals_ok rows →
  Z.of_nat (strings_count rows) ≤ 2 ^ 32 → Z.of_nat (bytes_count rows) < 2 ^ 32 →
  ∃ fs p, merge_rows no_pools rows = Done (fs, p) ∧ Forall2 (merged p) rows fs.
Proof.
  intros Hl Hs Hb. destruct (merge_rows_spec rows no_pools) as (fs & p & Hm & _ & HF); [by intros ? ? [=]|done..|].
  by exists fs, p.
Qed.
End Literals.

(** ** Two functions that share a string *)
Module LiteralSample.
#[local] Instance nat_names : SpurKey nat := {
  into_usize s := Z.of_nat s;
  try_from_usize n := if decide (0 ≤ n < 2 ^ 32) then Some (Z.to_nat n) else None;
}.
Definition sp : Span := MkSpan 0 0 0.
Definition air_of (ds : list (AirInstData (Spur := nat))) : Air (Spur := nat) :=
  MkAir (map (λ d, MkInst d Ty.UNIT sp) ds) [] Ty.UNIT [] [] ∅ ∅.
Definition fn (n : string) (ds : list (AirInstData (Spur := nat))) : AnalyzedFunction (Spur := nat) :=
  MkFunction n (air_of ds) 0 0 [] [] false.
Definition rows : list (AnalyzedRow (Spur := nat)) :=
  [ (fn "f" [IStringConst 0; IStringConst 1; IBytesConst 0], ["a"; "b"]%string, [[7]]);
    (fn "g" [IBytesConst 0; IStringConst 0], ["b"]%string, [[8; 9]]) ].
End LiteralSample.

Lemma merged_literals_resolve_witness :
  ∃ fs p, merge_rows no_pools LiteralSample.rows = Done (fs, p) ∧ Forall2 (merged p) LiteralSample.rows fs ∧
    global_strings p = ["a"; "b"]%string ∧ global_bytes p = [[7]; [8; 9]] ∧
    map (λ f, map i_data (instructions (fn_air f))) fs =
      [[IStringConst 0; IStringConst 1; IBytesConst 0]; [IBytesConst 1; IStringConst 1]].
Proof.
  destruct (merged_literals_resolve LiteralSample.rows) as (fs & p & Hm & HF).
  - repeat constructor; cbn; lia.
  - cbn. lia.
  - cbn. lia.
  - exists fs, p. split; [exact Hm|]. split; [exact HF|]. vm_compute in Hm. injection Hm as <- <-. by vm_compute.
Defined.
