(* ===== verification/Ast.v ===== *)
(** * The syntax tree

    Models the data types of [crates/gruel-parser/src/ast.rs]. A struct is a record and an enum
    an inductive type with the source's constructors. The types over which expressions,
    patterns and type expressions recurse are parameters of the structs between them ([E], [P]
    and [T]), and [Expr], [Pattern] and [TypeExpr] close the recursion. The symbols of the
    interner are the parameter [S], so that a tree over symbols and the tree over their texts
    have one type. [Doc] keeps its text; [Box] is left out. *)

From S2P Require Import Prelude Types Air.

#[local] Set Implicit Arguments.
#[local] Set Contextual Implicit.

(** The predicates that carry induction hypotheses through containers. *)
Scheme All for list.
Scheme All for option.

(** ** Leaves *)
Record Doc : Type := MkDoc { doc_body : string; doc_span : Span }.
Inductive LinkMode : Set := LinkDynamic | LinkStatic.
Inductive Visibility : Set := Private | Public.
Inductive SelfReceiverKind : Set := SelfByValue | SelfRef | SelfMutRef.
Record SelfParam : Type := MkSelfParam { sp_kind : SelfReceiverKind; self_span : Span }.
Inductive ParamMode : Set := ModeNormal | ModeComptime.
Record UnitLit : Type := MkUnitLit { ul_span : Span }.
Record IntLit : Type := MkIntLit { il_value : Z; il_span : Span }.
Record FloatLit : Type := MkFloatLit { fl_bits : Z; fl_span : Span }.
Record CharLit : Type := MkCharLit { cl_value : Z; cl_span : Span }.
Record BoolLit : Type := MkBoolLit { bo_value : bool; bo_span : Span }.
Record NegIntLit : Type := MkNegIntLit { nl_value : Z; nl_span : Span }.
Record BreakExpr : Type := MkBreakExpr { bk_span : Span }.
Record ContinueExpr : Type := MkContinueExpr { co_span : Span }.
Record SelfExpr : Type := MkSelfExpr { se_span : Span }.
Inductive BinaryOp : Set :=
  | OpAdd | OpSub | OpMul | OpDiv | OpMod | OpEq | OpNe | OpLt | OpGt | OpLe | OpGe | OpAnd | OpOr
  | OpBitAnd | OpBitOr | OpBitXor | OpShl | OpShr.
Inductive UnaryOp : Set := OpNeg | OpNot | OpBitNot | OpRef | OpMutRef.
Inductive ArgMode : Set := ArgNormal.

(** ** The structs between the recursive types *)
Record Ident (S : Type) : Type := MkIdent { id_name : S; id_span : Span }.
Scheme All for Ident.
Record StringLit (S : Type) : Type := MkStringLit { sl_value : S; sl_span : Span }.
Scheme All for StringLit.
Inductive DirectiveArg (S : Type) : Type :=
  | DirIdent (i : Ident S)
  | DirString (s : StringLit S).
Scheme All for DirectiveArg.
Record Directive (S : Type) : Type := MkDirective {
  dir_name : Ident S; dir_args : list (DirectiveArg S); dir_span : Span }.
Scheme All for Directive.
Record Param (S T : Type) : Type := MkParam {
  pm_is_comptime : bool; pm_mode : ParamMode; pm_name : Ident S; pm_ty : T; pm_span : Span }.
Scheme All for Param.
Record FieldDecl (S T : Type) : Type := MkFieldDecl {
  fd_doc : option Doc; fd_visibility : Visibility; fd_name : Ident S; fd_ty : T; fd_span : Span }.
Scheme All for FieldDecl.
Record EnumVariantField (S T : Type) : Type := MkEnumVariantField {
  evf_doc : option Doc; evf_visibility : Visibility; evf_name : Ident S; evf_ty : T; evf_span : Span }.
Scheme All for EnumVariantField.
Inductive EnumVariantKind (S T : Type) : Type :=
  | VariantUnit
  | VariantTuple (types : list T)
  | VariantStruct (fields : list (EnumVariantField S T)).
Scheme All for EnumVariantKind.
Record EnumVariant (S T : Type) : Type := MkEnumVariant {
  ev_doc : option Doc; ev_name : Ident S; ev_kind : EnumVariantKind S T; ev_span : Span }.
Scheme All for EnumVariant.
Record AnonStructField (S T : Type) : Type := MkAnonStructField {
  asf_doc : option Doc; asf_name : Ident S; asf_ty : T; asf_span : Span }.
Scheme All for AnonStructField.
Record MethodSig (S T : Type) : Type := MkMethodSig {
  ms_doc : option Doc; ms_directives : list (Directive S); ms_is_unchecked : bool; ms_name : Ident S;
  ms_receiver : SelfParam; ms_params : list (Param S T); ms_return_type : option T; ms_span : Span }.
Scheme All for MethodSig.
Record Method (S E T : Type) : Type := MkMethod {
  me_doc : option Doc; me_directives : list (Directive S); me_visibility : Visibility; me_is_unchecked : bool;
  me_name : Ident S; me_receiver : option SelfParam; me_params : list (Param S T); me_return_type : option T;
  me_body : E; me_span : Span }.
Scheme All for Method.
Inductive TupleElemPattern (P : Type) : Type :=
  | ElemPattern (p : P)
  | ElemRest (span : Span).
Scheme All for TupleElemPattern.
Record FieldPattern (S P : Type) : Type := MkFieldPattern {
  fp_field_name : option (Ident S); fp_sub : option P; fp_is_mut : bool; fp_span : Span }.
Scheme All for FieldPattern.
Record PathPattern (S E : Type) : Type := MkPathPattern {
  pp_base : option E; pp_type_name : Ident S; pp_variant : Ident S; pp_span : Span }.
Scheme All for PathPattern.
Record BinaryExpr (E : Type) : Type := MkBinaryExpr {
  be_left : E; be_op : BinaryOp; be_right : E; be_span : Span }.
Scheme All for BinaryExpr.
Record UnaryExpr (E : Type) : Type := MkUnaryExpr { ue_op : UnaryOp; ue_operand : E; ue_span : Span }.
Scheme All for UnaryExpr.
Record ParenExpr (E : Type) : Type := MkParenExpr { pe_inner : E; pe_span : Span }.
Scheme All for ParenExpr.
Record CallArg (E : Type) : Type := MkCallArg { ca_mode : ArgMode; ca_expr : E; ca_span : Span }.
Scheme All for CallArg.
Record CallExpr (S E : Type) : Type := MkCallExpr {
  ce_name : Ident S; ce_args : list (CallArg E); ce_span : Span }.
Scheme All for CallExpr.
Inductive IntrinsicArg (E T : Type) : Type :=
  | ArgExpr (e : E)
  | ArgType (t : T).
Scheme All for IntrinsicArg.
Record IntrinsicCallExpr (S E T : Type) : Type := MkIntrinsicCallExpr {
  ic_name : Ident S; ic_args : list (IntrinsicArg E T); ic_span : Span }.
Scheme All for IntrinsicCallExpr.
Record FieldInit (S E : Type) : Type := MkFieldInit { fi_name : Ident S; fi_value : E; fi_span : Span }.
Scheme All for FieldInit.
Record StructLitExpr (S E : Type) : Type := MkStructLitExpr {
  sle_base : option E; sle_name : Ident S; sle_fields : list (FieldInit S E); sle_span : Span }.
Scheme All for StructLitExpr.
Record TupleExpr (E : Type) : Type := MkTupleExpr { te_elems : list E; te_span : Span }.
Scheme All for TupleExpr.
Record TupleIndexExpr (E : Type) : Type := MkTupleIndexExpr {
  ti_base : E; ti_index : Z; ti_span : Span; ti_index_span : Span }.
Scheme All for TupleIndexExpr.
Record FieldExpr (S E : Type) : Type := MkFieldExpr { fe_base : E; fe_field : Ident S; fe_span : Span }.
Scheme All for FieldExpr.
Record MethodCallExpr (S E : Type) : Type := MkMethodCallExpr {
  mc_receiver : E; mc_method : Ident S; mc_args : list (CallArg E); mc_span : Span }.
Scheme All for MethodCallExpr.
Record ArrayLitExpr (E : Type) : Type := MkArrayLitExpr { al_elements : list E; al_span : Span }.
Scheme All for ArrayLitExpr.
Record IndexExpr (E : Type) : Type := MkIndexExpr { ix_base : E; ix_index : E; ix_span : Span }.
Scheme All for IndexExpr.
Record RangeExpr (E : Type) : Type := MkRangeExpr { ra_lo : option E; ra_hi : option E; ra_span : Span }.
Scheme All for RangeExpr.
Record PathExpr (S E : Type) : Type := MkPathExpr {
  pa_base : option E; pa_type_name : Ident S; pa_variant : Ident S; pa_span : Span }.
Scheme All for PathExpr.
Record EnumStructLitExpr (S E : Type) : Type := MkEnumStructLitExpr {
  esl_base : option E; esl_type_name : Ident S; esl_variant : Ident S; esl_fields : list (FieldInit S E);
  esl_span : Span }.
Scheme All for EnumStructLitExpr.
Record AssocFnCallExpr (S E : Type) : Type := MkAssocFnCallExpr {
  af_base : option E; af_type_name : Ident S; af_type_args : list E; af_function : Ident S;
  af_args : list (CallArg E); af_span : Span }.
Scheme All for AssocFnCallExpr.
Record LetStatement (S E P T : Type) : Type := MkLetStatement {
  ls_directives : list (Directive S); ls_is_mut : bool; ls_pattern : P; ls_ty : option T; ls_init : E;
  ls_span : Span }.
Scheme All for LetStatement.
Inductive AssignTarget (S E : Type) : Type :=
  | TargetVar (i : Ident S)
  | TargetField (f : FieldExpr S E)
  | TargetIndex (i : IndexExpr E).
Scheme All for AssignTarget.
Record AssignStatement (S E : Type) : Type := MkAssignStatement {
  as_target : AssignTarget S E; as_value : E; as_span : Span }.
Scheme All for AssignStatement.
Inductive Statement (S E P T : Type) : Type :=
  | StmtLet (l : LetStatement S E P T)
  | StmtAssign (a : AssignStatement S E)
  | StmtExpr (e : E).
Scheme All for Statement.
Record BlockExpr (S E P T : Type) : Type := MkBlockExpr {
  bl_statements : list (Statement S E P T); bl_expr : E; bl_span : Span }.
Scheme All for BlockExpr.
Record IfExpr (S E P T : Type) : Type := MkIfExpr {
  ife_cond : E; ife_then_block : BlockExpr S E P T; ife_else_block : option (BlockExpr S E P T);
  ife_span : Span; ife_is_comptime : bool }.
Scheme All for IfExpr.
Record MatchArm (E P : Type) : Type := MkMatchArm { ma_pattern : P; ma_body : E; ma_span : Span }.
Scheme All for MatchArm.
Record MatchExpr (E P : Type) : Type := MkMatchExpr {
  mx_scrutinee : E; mx_arms : list (MatchArm E P); mx_span : Span }.
Scheme All for MatchExpr.
Record WhileExpr (S E P T : Type) : Type := MkWhileExpr {
  we_cond : E; we_body : BlockExpr S E P T; we_span : Span }.
Scheme All for WhileExpr.
Record ForExpr (S E P T : Type) : Type := MkForExpr {
  fo_binding : Ident S; fo_is_mut : bool; fo_iterable : E; fo_body : BlockExpr S E P T; fo_span : Span }.
Scheme All for ForExpr.
Record LoopExpr (S E P T : Type) : Type := MkLoopExpr { le_body : BlockExpr S E P T; le_span : Span }.
Scheme All for LoopExpr.
Record ReturnExpr (E : Type) : Type := MkReturnExpr { re_value : option E; re_span : Span }.
Scheme All for ReturnExpr.
Record ComptimeBlockExpr (E : Type) : Type := MkComptimeBlockExpr { cb_expr : E; cb_span : Span }.
Scheme All for ComptimeBlockExpr.
Record ComptimeUnrollForExpr (S E P T : Type) : Type := MkComptimeUnrollForExpr {
  cu_binding : Ident S; cu_iterable : E; cu_body : BlockExpr S E P T; cu_span : Span }.
Scheme All for ComptimeUnrollForExpr.
Record CheckedBlockExpr (E : Type) : Type := MkCheckedBlockExpr { ck_expr : E; ck_span : Span }.
Scheme All for CheckedBlockExpr.
Record TypeLitExpr (T : Type) : Type := MkTypeLitExpr { tl_type_expr : T; tl_span : Span }.
Scheme All for TypeLitExpr.
Record AnonFnExpr (S E P T : Type) : Type := MkAnonFnExpr {
  an_params : list (Param S T); an_return_type : option T; an_body : BlockExpr S E P T; an_span : Span }.
Scheme All for AnonFnExpr.

(** ** Expressions, patterns and type expressions *)
Inductive Expr (S : Type) : Type :=
  | ExprInt (x : IntLit)
  | ExprFloat (x : FloatLit)
  | ExprString (x : StringLit S)
  | ExprChar (x : CharLit)
  | ExprBool (x : BoolLit)
  | ExprUnit (x : UnitLit)
  | ExprIdent (x : Ident S)
  | ExprBinary (x : BinaryExpr (Expr S))
  | ExprUnary (x : UnaryExpr (Expr S))
  | ExprParen (x : ParenExpr (Expr S))
  | ExprBlock (x : BlockExpr S (Expr S) (Pattern S) (TypeExpr S))
  | ExprIf (x : IfExpr S (Expr S) (Pattern S) (TypeExpr S))
  | ExprMatch (x : MatchExpr (Expr S) (Pattern S))
  | ExprWhile (x : WhileExpr S (Expr S) (Pattern S) (TypeExpr S))
  | ExprFor (x : ForExpr S (Expr S) (Pattern S) (TypeExpr S))
  | ExprLoop (x : LoopExpr S (Expr S) (Pattern S) (TypeExpr S))
  | ExprCall (x : CallExpr S (Expr S))
  | ExprBreak (x : BreakExpr)
  | ExprContinue (x : ContinueExpr)
  | ExprReturn (x : ReturnExpr (Expr S))
  | ExprStructLit (x : StructLitExpr S (Expr S))
  | ExprField (x : FieldExpr S (Expr S))
  | ExprMethodCall (x : MethodCallExpr S (Expr S))
  | ExprIntrinsicCall (x : IntrinsicCallExpr S (Expr S) (TypeExpr S))
  | ExprArrayLit (x : ArrayLitExpr (Expr S))
  | ExprIndex (x : IndexExpr (Expr S))
  | ExprPath (x : PathExpr S (Expr S))
  | ExprEnumStructLit (x : EnumStructLitExpr S (Expr S))
  | ExprAssocFnCall (x : AssocFnCallExpr S (Expr S))
  | ExprSelf (x : SelfExpr)
  | ExprComptime (x : ComptimeBlockExpr (Expr S))
  | ExprComptimeUnrollFor (x : ComptimeUnrollForExpr S (Expr S) (Pattern S) (TypeExpr S))
  | ExprChecked (x : CheckedBlockExpr (Expr S))
  | ExprTypeLit (x : TypeLitExpr (TypeExpr S))
  | ExprTuple (x : TupleExpr (Expr S))
  | ExprTupleIndex (x : TupleIndexExpr (Expr S))
  | ExprRange (x : RangeExpr (Expr S))
  | ExprAnonFn (x : AnonFnExpr S (Expr S) (Pattern S) (TypeExpr S))
  | ExprError (x : Span)
with Pattern (S : Type) : Type :=
  | PatWildcard (span : Span)
  | PatIdent (is_mut : bool) (name : Ident S) (span : Span)
  | PatInt (i : IntLit)
  | PatNegInt (i : NegIntLit)
  | PatBool (b : BoolLit)
  | PatPath (p : PathPattern S (Expr S))
  | PatDataVariant (base : option (Expr S)) (type_name : Ident S) (variant : Ident S) (fields : list
      (TupleElemPattern (Pattern S))) (span : Span)
  | PatStructVariant (base : option (Expr S)) (type_name : Ident S) (variant : Ident S) (fields : list
      (FieldPattern S (Pattern S))) (span : Span)
  | PatStruct (type_name : Ident S) (fields : list (FieldPattern S (Pattern S))) (span : Span)
  | PatTuple (elems : list (TupleElemPattern (Pattern S))) (span : Span)
  | PatComptimeUnrollArm (binding : Ident S) (iterable : Expr S) (span : Span)
with TypeExpr (S : Type) : Type :=
  | TypeNamed (i : Ident S)
  | TypeUnit (span : Span)
  | TypeNever (span : Span)
  | TypeArray (element : TypeExpr S) (length : Z) (span : Span)
  | TypeAnonymousStruct (directives : list (Directive S)) (posture : Posture) (fields : list (AnonStructField S
      (TypeExpr S))) (methods : list (Method S (Expr S) (TypeExpr S))) (span : Span)
  | TypeAnonymousEnum (directives : list (Directive S)) (posture : Posture) (variants : list (EnumVariant S
      (TypeExpr S))) (methods : list (Method S (Expr S) (TypeExpr S))) (span : Span)
  | TypeAnonymousInterface (methods : list (MethodSig S (TypeExpr S))) (span : Span)
  | TypeCall (callee : Ident S) (args : list (TypeExpr S)) (span : Span)
  | TypeTuple (elems : list (TypeExpr S)) (span : Span).

Scheme Expr_mind := Induction for Expr Sort Prop
  with Pattern_mind := Induction for Pattern Sort Prop
  with TypeExpr_mind := Induction for TypeExpr Sort Prop.

(** ** Items *)
Record Function (S E T : Type) : Type := MkFunction {
  fn_doc : option Doc; fn_directives : list (Directive S); fn_visibility : Visibility; fn_is_unchecked : bool;
  fn_name : Ident S; fn_params : list (Param S T); fn_return_type : option T; fn_body : E; fn_span : Span }.
Scheme All for Function.
Record StructDecl (S E T : Type) : Type := MkStructDecl {
  sd_doc : option Doc; sd_directives : list (Directive S); sd_visibility : Visibility; sd_posture : Posture;
  sd_name : Ident S; sd_fields : list (FieldDecl S T); sd_methods : list (Method S E T); sd_span : Span }.
Scheme All for StructDecl.
Record EnumDecl (S E T : Type) : Type := MkEnumDecl {
  ed_doc : option Doc; ed_directives : list (Directive S); ed_visibility : Visibility; ed_posture : Posture;
  ed_name : Ident S; ed_variants : list (EnumVariant S T); ed_methods : list (Method S E T); ed_span : Span }.
Scheme All for EnumDecl.
Record InterfaceDecl (S T : Type) : Type := MkInterfaceDecl {
  if_doc : option Doc; if_directives : list (Directive S); if_visibility : Visibility; if_name : Ident S;
  if_methods : list (MethodSig S T); if_span : Span }.
Scheme All for InterfaceDecl.
Record DeriveDecl (S E T : Type) : Type := MkDeriveDecl {
  de_doc : option Doc; de_name : Ident S; de_methods : list (Method S E T); de_span : Span }.
Scheme All for DeriveDecl.
Record ConstDecl (S E T : Type) : Type := MkConstDecl {
  cd_doc : option Doc; cd_directives : list (Directive S); cd_visibility : Visibility; cd_name : Ident S;
  cd_ty : option T; cd_init : E; cd_span : Span }.
Scheme All for ConstDecl.
Record ExternFn (S T : Type) : Type := MkExternFn {
  xf_doc : option Doc; xf_directives : list (Directive S); xf_name : Ident S; xf_params : list (Param S T);
  xf_return_type : option T; xf_span : Span }.
Scheme All for ExternFn.
Record LinkExternBlock (S T : Type) : Type := MkLinkExternBlock {
  lb_doc : option Doc; lb_library : StringLit S; lb_items : list (ExternFn S T); lb_link_mode : LinkMode;
  lb_span : Span }.
Scheme All for LinkExternBlock.
Inductive Item (S E T : Type) : Type :=
  | ItemFunction (f : Function S E T)
  | ItemStruct (s : StructDecl S E T)
  | ItemEnum (e : EnumDecl S E T)
  | ItemInterface (i : InterfaceDecl S T)
  | ItemDerive (d : DeriveDecl S E T)
  | ItemConst (c : ConstDecl S E T)
  | ItemLinkExtern (b : LinkExternBlock S T)
  | ItemError (span : Span).
Scheme All for Item.
Record Ast (S : Type) : Type := MkAst {
  ast_module_doc : option Doc; ast_items : list (Item S (Expr S) (TypeExpr S)) }.
