(* ===== verification/Remap.v ===== *)
(** * Cached syntax trees: the symbols of a loaded file

    Models [crates/gruel-cache/src/wire.rs] (the interner snapshot beside a cached tree) and
    [crates/gruel-cache/src/remap.rs] (the substitution of every symbol of the tree after a
    load). The Rust trait [RemapSpurs] has one impl per type; here each is a traversal over
    the function [f] that replaces a symbol, and the impls for [Box], [Option] and [Vec] are
    [traverse_opt] and [traverse]. The interner is the third-party crate lasso: its entries
    and [get_or_intern] are parameters; the byte format (bincode) is not modelled. *)

From stdpp Require Import sorting.
From S2P Require Import Prelude Types AirPattern Air Ast.

#[local] Open Scope Z_scope.

(** [impl RemapSpurs for Vec<T>] and [Option<T>]. *)
Definition traverse {A B} (g : A → outcome B) : list A → outcome (list B) :=
  fix go l := match l with [] => mret [] | x :: l => y ← g x; ys ← go l; mret (y :: ys) end.
Definition traverse_opt {A B} (g : A → outcome B) (o : option A) : outcome (option B) :=
  match o with None => mret None | Some x => y ← g x; mret (Some y) end.

(** ** The structs, over the traversals of what they contain *)
Section Structs.
Context {S S' E E' P P' T T' : Type}.
Context (f : S → outcome S') (re : E → outcome E') (rp : P → outcome P') (rt : T → outcome T').

Definition remap_ident (x : Ident S) : outcome (Ident S') :=
  name' ← f (id_name x);
  mret (MkIdent name' (id_span x)).
Definition remap_string_lit (x : StringLit S) : outcome (StringLit S') :=
  value' ← f (sl_value x);
  mret (MkStringLit value' (sl_span x)).
Definition remap_directive_arg (x : DirectiveArg S) : outcome (DirectiveArg S') :=
  match x with
  | DirIdent i => i' ← remap_ident i; mret (DirIdent i')
  | DirString s => s' ← remap_string_lit s; mret (DirString s')
  end.
Definition remap_directive (x : Directive S) : outcome (Directive S') :=
  name' ← remap_ident (dir_name x);
  args' ← traverse remap_directive_arg (dir_args x);
  mret (MkDirective name' args' (dir_span x)).
Definition remap_param (x : Param S T) : outcome (Param S' T') :=
  name' ← remap_ident (pm_name x);
  ty' ← rt (pm_ty x);
  mret (MkParam (pm_is_comptime x) (pm_mode x) name' ty' (pm_span x)).
Definition remap_field_decl (x : FieldDecl S T) : outcome (FieldDecl S' T') :=
  name' ← remap_ident (fd_name x);
  ty' ← rt (fd_ty x);
  mret (MkFieldDecl (fd_doc x) (fd_visibility x) name' ty' (fd_span x)).
Definition remap_enum_variant_field (x : EnumVariantField S T) : outcome (EnumVariantField S' T') :=
  name' ← remap_ident (evf_name x);
  ty' ← rt (evf_ty x);
  mret (MkEnumVariantField (evf_doc x) (evf_visibility x) name' ty' (evf_span x)).
Definition remap_enum_variant_kind (x : EnumVariantKind S T) : outcome (EnumVariantKind S' T') :=
  match x with
  | VariantUnit => mret VariantUnit
  | VariantTuple types => types' ← traverse rt types; mret (VariantTuple types')
  | VariantStruct fields => fields' ← traverse remap_enum_variant_field fields; mret (VariantStruct fields')
  end.
Definition remap_enum_variant (x : EnumVariant S T) : outcome (EnumVariant S' T') :=
  name' ← remap_ident (ev_name x);
  kind' ← remap_enum_variant_kind (ev_kind x);
  mret (MkEnumVariant (ev_doc x) name' kind' (ev_span x)).
Definition remap_anon_struct_field (x : AnonStructField S T) : outcome (AnonStructField S' T') :=
  name' ← remap_ident (asf_name x);
  ty' ← rt (asf_ty x);
  mret (MkAnonStructField (asf_doc x) name' ty' (asf_span x)).
Definition remap_method_sig (x : MethodSig S T) : outcome (MethodSig S' T') :=
  directives' ← traverse remap_directive (ms_directives x);
  name' ← remap_ident (ms_name x);
  params' ← traverse remap_param (ms_params x);
  return_type' ← traverse_opt rt (ms_return_type x);
  mret (MkMethodSig (ms_doc x) directives' (ms_is_unchecked x) name' (ms_receiver x) params' return_type'
    (ms_span x)).
Definition remap_method (x : Method S E T) : outcome (Method S' E' T') :=
  directives' ← traverse remap_directive (me_directives x);
  name' ← remap_ident (me_name x);
  params' ← traverse remap_param (me_params x);
  return_type' ← traverse_opt rt (me_return_type x);
  body' ← re (me_body x);
  mret (MkMethod (me_doc x) directives' (me_visibility x) (me_is_unchecked x) name' (me_receiver x) params'
    return_type' body' (me_span x)).
Definition remap_tuple_elem_pattern (x : TupleElemPattern P) : outcome (TupleElemPattern P') :=
  match x with
  | ElemPattern p => p' ← rp p; mret (ElemPattern p')
  | ElemRest span => mret (ElemRest span)
  end.
Definition remap_field_pattern (x : FieldPattern S P) : outcome (FieldPattern S' P') :=
  field_name' ← traverse_opt remap_ident (fp_field_name x);
  sub' ← traverse_opt rp (fp_sub x);
  mret (MkFieldPattern field_name' sub' (fp_is_mut x) (fp_span x)).
Definition remap_path_pattern (x : PathPattern S E) : outcome (PathPattern S' E') :=
  base' ← traverse_opt re (pp_base x);
  type_name' ← remap_ident (pp_type_name x);
  variant' ← remap_ident (pp_variant x);
  mret (MkPathPattern base' type_name' variant' (pp_span x)).
Definition remap_binary_expr (x : BinaryExpr E) : outcome (BinaryExpr E') :=
  left' ← re (be_left x);
  right' ← re (be_right x);
  mret (MkBinaryExpr left' (be_op x) right' (be_span x)).
Definition remap_unary_expr (x : UnaryExpr E) : outcome (UnaryExpr E') :=
  operand' ← re (ue_operand x);
  mret (MkUnaryExpr (ue_op x) operand' (ue_span x)).
Definition remap_paren_expr (x : ParenExpr E) : outcome (ParenExpr E') :=
  inner' ← re (pe_inner x);
  mret (MkParenExpr inner' (pe_span x)).
Definition remap_call_arg (x : CallArg E) : outcome (CallArg E') :=
  expr' ← re (ca_expr x);
  mret (MkCallArg (ca_mode x) expr' (ca_span x)).
Definition remap_call_expr (x : CallExpr S E) : outcome (CallExpr S' E') :=
  name' ← remap_ident (ce_name x);
  args' ← traverse remap_call_arg (ce_args x);
  mret (MkCallExpr name' args' (ce_span x)).
Definition remap_intrinsic_arg (x : IntrinsicArg E T) : outcome (IntrinsicArg E' T') :=
  match x with
  | ArgExpr e => e' ← re e; mret (ArgExpr e')
  | ArgType t => t' ← rt t; mret (ArgType t')
  end.
Definition remap_intrinsic_call_expr (x : IntrinsicCallExpr S E T) : outcome (IntrinsicCallExpr S' E' T') :=
  name' ← remap_ident (ic_name x);
  args' ← traverse remap_intrinsic_arg (ic_args x);
  mret (MkIntrinsicCallExpr name' args' (ic_span x)).
Definition remap_field_init (x : FieldInit S E) : outcome (FieldInit S' E') :=
  name' ← remap_ident (fi_name x);
  value' ← re (fi_value x);
  mret (MkFieldInit name' value' (fi_span x)).
Definition remap_struct_lit_expr (x : StructLitExpr S E) : outcome (StructLitExpr S' E') :=
  base' ← traverse_opt re (sle_base x);
  name' ← remap_ident (sle_name x);
  fields' ← traverse remap_field_init (sle_fields x);
  mret (MkStructLitExpr base' name' fields' (sle_span x)).
Definition remap_tuple_expr (x : TupleExpr E) : outcome (TupleExpr E') :=
  elems' ← traverse re (te_elems x);
  mret (MkTupleExpr elems' (te_span x)).
Definition remap_tuple_index_expr (x : TupleIndexExpr E) : outcome (TupleIndexExpr E') :=
  base' ← re (ti_base x);
  mret (MkTupleIndexExpr base' (ti_index x) (ti_span x) (ti_index_span x)).
Definition remap_field_expr (x : FieldExpr S E) : outcome (FieldExpr S' E') :=
  base' ← re (fe_base x);
  field' ← remap_ident (fe_field x);
  mret (MkFieldExpr base' field' (fe_span x)).
Definition remap_method_call_expr (x : MethodCallExpr S E) : outcome (MethodCallExpr S' E') :=
  receiver' ← re (mc_receiver x);
  method' ← remap_ident (mc_method x);
  args' ← traverse remap_call_arg (mc_args x);
  mret (MkMethodCallExpr receiver' method' args' (mc_span x)).
Definition remap_array_lit_expr (x : ArrayLitExpr E) : outcome (ArrayLitExpr E') :=
  elements' ← traverse re (al_elements x);
  mret (MkArrayLitExpr elements' (al_span x)).
Definition remap_index_expr (x : IndexExpr E) : outcome (IndexExpr E') :=
  base' ← re (ix_base x);
  index' ← re (ix_index x);
  mret (MkIndexExpr base' index' (ix_span x)).
Definition remap_range_expr (x : RangeExpr E) : outcome (RangeExpr E') :=
  lo' ← traverse_opt re (ra_lo x);
  hi' ← traverse_opt re (ra_hi x);
  mret (MkRangeExpr lo' hi' (ra_span x)).
Definition remap_path_expr (x : PathExpr S E) : outcome (PathExpr S' E') :=
  base' ← traverse_opt re (pa_base x);
  type_name' ← remap_ident (pa_type_name x);
  variant' ← remap_ident (pa_variant x);
  mret (MkPathExpr base' type_name' variant' (pa_span x)).
Definition remap_enum_struct_lit_expr (x : EnumStructLitExpr S E) : outcome (EnumStructLitExpr S' E') :=
  base' ← traverse_opt re (esl_base x);
  type_name' ← remap_ident (esl_type_name x);
  variant' ← remap_ident (esl_variant x);
  fields' ← traverse remap_field_init (esl_fields x);
  mret (MkEnumStructLitExpr base' type_name' variant' fields' (esl_span x)).
Definition remap_assoc_fn_call_expr (x : AssocFnCallExpr S E) : outcome (AssocFnCallExpr S' E') :=
  base' ← traverse_opt re (af_base x);
  type_name' ← remap_ident (af_type_name x);
  type_args' ← traverse re (af_type_args x);
  function' ← remap_ident (af_function x);
  args' ← traverse remap_call_arg (af_args x);
  mret (MkAssocFnCallExpr base' type_name' type_args' function' args' (af_span x)).
Definition remap_let_statement (x : LetStatement S E P T) : outcome (LetStatement S' E' P' T') :=
  directives' ← traverse remap_directive (ls_directives x);
  pattern' ← rp (ls_pattern x);
  ty' ← traverse_opt rt (ls_ty x);
  init' ← re (ls_init x);
  mret (MkLetStatement directives' (ls_is_mut x) pattern' ty' init' (ls_span x)).
Definition remap_assign_target (x : AssignTarget S E) : outcome (AssignTarget S' E') :=
  match x with
  | TargetVar i => i' ← remap_ident i; mret (TargetVar i')
  | TargetField f => f' ← remap_field_expr f; mret (TargetField f')
  | TargetIndex i => i' ← remap_index_expr i; mret (TargetIndex i')
  end.
Definition remap_assign_statement (x : AssignStatement S E) : outcome (AssignStatement S' E') :=
  target' ← remap_assign_target (as_target x);
  value' ← re (as_value x);
  mret (MkAssignStatement target' value' (as_span x)).
Definition remap_statement (x : Statement S E P T) : outcome (Statement S' E' P' T') :=
  match x with
  | StmtLet l => l' ← remap_let_statement l; mret (StmtLet l')
  | StmtAssign a => a' ← remap_assign_statement a; mret (StmtAssign a')
  | StmtExpr e => e' ← re e; mret (StmtExpr e')
  end.
Definition remap_block_expr (x : BlockExpr S E P T) : outcome (BlockExpr S' E' P' T') :=
  statements' ← traverse remap_statement (bl_statements x);
  expr' ← re (bl_expr x);
  mret (MkBlockExpr statements' expr' (bl_span x)).
Definition remap_if_expr (x : IfExpr S E P T) : outcome (IfExpr S' E' P' T') :=
  cond' ← re (ife_cond x);
  then_block' ← remap_block_expr (ife_then_block x);
  else_block' ← traverse_opt remap_block_expr (ife_else_block x);
  mret (MkIfExpr cond' then_block' else_block' (ife_span x) (ife_is_comptime x)).
Definition remap_match_arm (x : MatchArm E P) : outcome (MatchArm E' P') :=
  pattern' ← rp (ma_pattern x);
  body' ← re (ma_body x);
  mret (MkMatchArm pattern' body' (ma_span x)).
Definition remap_match_expr (x : MatchExpr E P) : outcome (MatchExpr E' P') :=
  scrutinee' ← re (mx_scrutinee x);
  arms' ← traverse remap_match_arm (mx_arms x);
  mret (MkMatchExpr scrutinee' arms' (mx_span x)).
Definition remap_while_expr (x : WhileExpr S E P T) : outcome (WhileExpr S' E' P' T') :=
  cond' ← re (we_cond x);
  body' ← remap_block_expr (we_body x);
  mret (MkWhileExpr cond' body' (we_span x)).
Definition remap_for_expr (x : ForExpr S E P T) : outcome (ForExpr S' E' P' T') :=
  binding' ← remap_ident (fo_binding x);
  iterable' ← re (fo_iterable x);
  body' ← remap_block_expr (fo_body x);
  mret (MkForExpr binding' (fo_is_mut x) iterable' body' (fo_span x)).
Definition remap_loop_expr (x : LoopExpr S E P T) : outcome (LoopExpr S' E' P' T') :=
  body' ← remap_block_expr (le_body x);
  mret (MkLoopExpr body' (le_span x)).
Definition remap_return_expr (x : ReturnExpr E) : outcome (ReturnExpr E') :=
  value' ← traverse_opt re (re_value x);
  mret (MkReturnExpr value' (re_span x)).
Definition remap_comptime_block_expr (x : ComptimeBlockExpr E) : outcome (ComptimeBlockExpr E') :=
  expr' ← re (cb_expr x);
  mret (MkComptimeBlockExpr expr' (cb_span x)).
Definition remap_comptime_unroll_for_expr (x : ComptimeUnrollForExpr S E P T) : outcome (ComptimeUnrollForExpr S' E' P' T') :=
  binding' ← remap_ident (cu_binding x);
  iterable' ← re (cu_iterable x);
  body' ← remap_block_expr (cu_body x);
  mret (MkComptimeUnrollForExpr binding' iterable' body' (cu_span x)).
Definition remap_checked_block_expr (x : CheckedBlockExpr E) : outcome (CheckedBlockExpr E') :=
  expr' ← re (ck_expr x);
  mret (MkCheckedBlockExpr expr' (ck_span x)).
Definition remap_type_lit_expr (x : TypeLitExpr T) : outcome (TypeLitExpr T') :=
  type_expr' ← rt (tl_type_expr x);
  mret (MkTypeLitExpr type_expr' (tl_span x)).
Definition remap_anon_fn_expr (x : AnonFnExpr S E P T) : outcome (AnonFnExpr S' E' P' T') :=
  params' ← traverse remap_param (an_params x);
  return_type' ← traverse_opt rt (an_return_type x);
  body' ← remap_block_expr (an_body x);
  mret (MkAnonFnExpr params' return_type' body' (an_span x)).
End Structs.

(** ** Expressions, patterns and type expressions *)
Section Trees.
Context {S S' : Type} (f : S → outcome S').

Fixpoint remap_expr (e : Expr S) : outcome (Expr S') :=
  match e with
  | ExprInt x => mret (ExprInt x)
  | ExprFloat x => mret (ExprFloat x)
  | ExprString x => x' ← remap_string_lit f x; mret (ExprString x')
  | ExprChar x => mret (ExprChar x)
  | ExprBool x => mret (ExprBool x)
  | ExprUnit x => mret (ExprUnit x)
  | ExprIdent x => x' ← remap_ident f x; mret (ExprIdent x')
  | ExprBinary x => x' ← remap_binary_expr remap_expr x; mret (ExprBinary x')
  | ExprUnary x => x' ← remap_unary_expr remap_expr x; mret (ExprUnary x')
  | ExprParen x => x' ← remap_paren_expr remap_expr x; mret (ExprParen x')
  | ExprBlock x => x' ← remap_block_expr f remap_expr remap_pattern remap_type_expr x; mret (ExprBlock x')
  | ExprIf x => x' ← remap_if_expr f remap_expr remap_pattern remap_type_expr x; mret (ExprIf x')
  | ExprMatch x => x' ← remap_match_expr remap_expr remap_pattern x; mret (ExprMatch x')
  | ExprWhile x => x' ← remap_while_expr f remap_expr remap_pattern remap_type_expr x; mret (ExprWhile x')
  | ExprFor x => x' ← remap_for_expr f remap_expr remap_pattern remap_type_expr x; mret (ExprFor x')
  | ExprLoop x => x' ← remap_loop_expr f remap_expr remap_pattern remap_type_expr x; mret (ExprLoop x')
  | ExprCall x => x' ← remap_call_expr f remap_expr x; mret (ExprCall x')
  | ExprBreak x => mret (ExprBreak x)
  | ExprContinue x => mret (ExprContinue x)
  | ExprReturn x => x' ← remap_return_expr remap_expr x; mret (ExprReturn x')
  | ExprStructLit x => x' ← remap_struct_lit_expr f remap_expr x; mret (ExprStructLit x')
  | ExprField x => x' ← remap_field_expr f remap_expr x; mret (ExprField x')
  | ExprMethodCall x => x' ← remap_method_call_expr f remap_expr x; mret (ExprMethodCall x')
  | ExprIntrinsicCall x => x' ← remap_intrinsic_call_expr f remap_expr remap_type_expr x; mret (ExprIntrinsicCall
      x')
  | ExprArrayLit x => x' ← remap_array_lit_expr remap_expr x; mret (ExprArrayLit x')
  | ExprIndex x => x' ← remap_index_expr remap_expr x; mret (ExprIndex x')
  | ExprPath x => x' ← remap_path_expr f remap_expr x; mret (ExprPath x')
  | ExprEnumStructLit x => x' ← remap_enum_struct_lit_expr f remap_expr x; mret (ExprEnumStructLit x')
  | ExprAssocFnCall x => x' ← remap_assoc_fn_call_expr f remap_expr x; mret (ExprAssocFnCall x')
  | ExprSelf x => mret (ExprSelf x)
  | ExprComptime x => x' ← remap_comptime_block_expr remap_expr x; mret (ExprComptime x')
  | ExprComptimeUnrollFor x => x' ← remap_comptime_unroll_for_expr f remap_expr remap_pattern remap_type_expr x;
      mret (ExprComptimeUnrollFor x')
  | ExprChecked x => x' ← remap_checked_block_expr remap_expr x; mret (ExprChecked x')
  | ExprTypeLit x => x' ← remap_type_lit_expr remap_type_expr x; mret (ExprTypeLit x')
  | ExprTuple x => x' ← remap_tuple_expr remap_expr x; mret (ExprTuple x')
  | ExprTupleIndex x => x' ← remap_tuple_index_expr remap_expr x; mret (ExprTupleIndex x')
  | ExprRange x => x' ← remap_range_expr remap_expr x; mret (ExprRange x')
  | ExprAnonFn x => x' ← remap_anon_fn_expr f remap_expr remap_pattern remap_type_expr x; mret (ExprAnonFn x')
  | ExprError x => mret (ExprError x)
  end
with remap_pattern (e : Pattern S) : outcome (Pattern S') :=
  match e with
  | PatWildcard span => mret (PatWildcard span)
  | PatIdent is_mut name span => name' ← remap_ident f name; mret (PatIdent is_mut name' span)
  | PatInt i => mret (PatInt i)
  | PatNegInt i => mret (PatNegInt i)
  | PatBool b => mret (PatBool b)
  | PatPath p => p' ← remap_path_pattern f remap_expr p; mret (PatPath p')
  | PatDataVariant base type_name variant fields span => base' ← traverse_opt remap_expr base; type_name' ←
      remap_ident f type_name; variant' ← remap_ident f variant; fields' ← traverse (remap_tuple_elem_pattern
      remap_pattern) fields; mret (PatDataVariant base' type_name' variant' fields' span)
  | PatStructVariant base type_name variant fields span => base' ← traverse_opt remap_expr base; type_name' ←
      remap_ident f type_name; variant' ← remap_ident f variant; fields' ← traverse (remap_field_pattern f
      remap_pattern) fields; mret (PatStructVariant base' type_name' variant' fields' span)
  | PatStruct type_name fields span => type_name' ← remap_ident f type_name; fields' ← traverse
      (remap_field_pattern f remap_pattern) fields; mret (PatStruct type_name' fields' span)
  | PatTuple elems span => elems' ← traverse (remap_tuple_elem_pattern remap_pattern) elems; mret (PatTuple elems'
      span)
  | PatComptimeUnrollArm binding iterable span => binding' ← remap_ident f binding; iterable' ← remap_expr
      iterable; mret (PatComptimeUnrollArm binding' iterable' span)
  end
with remap_type_expr (e : TypeExpr S) : outcome (TypeExpr S') :=
  match e with
  | TypeNamed i => i' ← remap_ident f i; mret (TypeNamed i')
  | TypeUnit span => mret (TypeUnit span)
  | TypeNever span => mret (TypeNever span)
  | TypeArray element length span => element' ← remap_type_expr element; mret (TypeArray element' length span)
  | TypeAnonymousStruct directives posture fields methods span => directives' ← traverse (remap_directive f)
      directives; fields' ← traverse (remap_anon_struct_field f remap_type_expr) fields; methods' ← traverse
      (remap_method f remap_expr remap_type_expr) methods; mret (TypeAnonymousStruct directives' posture
      fields' methods' span)
  | TypeAnonymousEnum directives posture variants methods span => directives' ← traverse (remap_directive f)
      directives; variants' ← traverse (remap_enum_variant f remap_type_expr) variants; methods' ← traverse
      (remap_method f remap_expr remap_type_expr) methods; mret (TypeAnonymousEnum directives' posture
      variants' methods' span)
  | TypeAnonymousInterface methods span => methods' ← traverse (remap_method_sig f remap_type_expr) methods; mret
      (TypeAnonymousInterface methods' span)
  | TypeCall callee args span => callee' ← remap_ident f callee; args' ← traverse remap_type_expr args; mret
      (TypeCall callee' args' span)
  | TypeTuple elems span => elems' ← traverse remap_type_expr elems; mret (TypeTuple elems' span)
  end.
End Trees.

(** ** Items *)
Section Items.
Context {S S' E E' P P' T T' : Type}.
Context (f : S → outcome S') (re : E → outcome E') (rp : P → outcome P') (rt : T → outcome T').

Definition remap_function (x : Function S E T) : outcome (Function S' E' T') :=
  directives' ← traverse (remap_directive f) (fn_directives x);
  name' ← remap_ident f (fn_name x);
  params' ← traverse (remap_param f rt) (fn_params x);
  return_type' ← traverse_opt rt (fn_return_type x);
  body' ← re (fn_body x);
  mret (MkFunction (fn_doc x) directives' (fn_visibility x) (fn_is_unchecked x) name' params' return_type' body'
    (fn_span x)).
Definition remap_struct_decl (x : StructDecl S E T) : outcome (StructDecl S' E' T') :=
  directives' ← traverse (remap_directive f) (sd_directives x);
  name' ← remap_ident f (sd_name x);
  fields' ← traverse (remap_field_decl f rt) (sd_fields x);
  methods' ← traverse (remap_method f re rt) (sd_methods x);
  mret (MkStructDecl (sd_doc x) directives' (sd_visibility x) (sd_posture x) name' fields' methods' (sd_span
    x)).
Definition remap_enum_decl (x : EnumDecl S E T) : outcome (EnumDecl S' E' T') :=
  directives' ← traverse (remap_directive f) (ed_directives x);
  name' ← remap_ident f (ed_name x);
  variants' ← traverse (remap_enum_variant f rt) (ed_variants x);
  methods' ← traverse (remap_method f re rt) (ed_methods x);
  mret (MkEnumDecl (ed_doc x) directives' (ed_visibility x) (ed_posture x) name' variants' methods' (ed_span
    x)).
Definition remap_interface_decl (x : InterfaceDecl S T) : outcome (InterfaceDecl S' T') :=
  directives' ← traverse (remap_directive f) (if_directives x);
  name' ← remap_ident f (if_name x);
  methods' ← traverse (remap_method_sig f rt) (if_methods x);
  mret (MkInterfaceDecl (if_doc x) directives' (if_visibility x) name' methods' (if_span x)).
Definition remap_derive_decl (x : DeriveDecl S E T) : outcome (DeriveDecl S' E' T') :=
  name' ← remap_ident f (de_name x);
  methods' ← traverse (remap_method f re rt) (de_methods x);
  mret (MkDeriveDecl (de_doc x) name' methods' (de_span x)).
Definition remap_const_decl (x : ConstDecl S E T) : outcome (ConstDecl S' E' T') :=
  directives' ← traverse (remap_directive f) (cd_directives x);
  name' ← remap_ident f (cd_name x);
  ty' ← traverse_opt rt (cd_ty x);
  init' ← re (cd_init x);
  mret (MkConstDecl (cd_doc x) directives' (cd_visibility x) name' ty' init' (cd_span x)).
Definition remap_extern_fn (x : ExternFn S T) : outcome (ExternFn S' T') :=
  directives' ← traverse (remap_directive f) (xf_directives x);
  name' ← remap_ident f (xf_name x);
  params' ← traverse (remap_param f rt) (xf_params x);
  return_type' ← traverse_opt rt (xf_return_type x);
  mret (MkExternFn (xf_doc x) directives' name' params' return_type' (xf_span x)).
Definition remap_link_extern_block (x : LinkExternBlock S T) : outcome (LinkExternBlock S' T') :=
  library' ← remap_string_lit f (lb_library x);
  items' ← traverse remap_extern_fn (lb_items x);
  mret (MkLinkExternBlock (lb_doc x) library' items' (lb_link_mode x) (lb_span x)).
Definition remap_item (x : Item S E T) : outcome (Item S' E' T') :=
  match x with
  | ItemFunction f => f' ← remap_function f; mret (ItemFunction f')
  | ItemStruct s => s' ← remap_struct_decl s; mret (ItemStruct s')
  | ItemEnum e => e' ← remap_enum_decl e; mret (ItemEnum e')
  | ItemInterface i => i' ← remap_interface_decl i; mret (ItemInterface i')
  | ItemDerive d => d' ← remap_derive_decl d; mret (ItemDerive d')
  | ItemConst c => c' ← remap_const_decl c; mret (ItemConst c')
  | ItemLinkExtern b => b' ← remap_link_extern_block b; mret (ItemLinkExtern b')
  | ItemError span => mret (ItemError span)
  end.
End Items.

Definition remap_ast {S S'} (f : S → outcome S') (a : Ast S) : outcome (Ast S') :=
  items' ← traverse (remap_item f (remap_expr f) (remap_type_expr f)) (ast_items a);
  mret (MkAst (ast_module_doc a) items').

(** ** The interner

    [lasso::ThreadedRodeo] as the cache uses it: the pairs [iter] yields, in any order,
    [get_or_intern], which may add a string, and [resolve], which panics on a key the
    interner does not have. The laws are what lasso documents: the keys count up from zero,
    a key of the interner resolves to the string it stands for, interning adds strings
    without changing the keys handed out before, and a string interned again gets its key. *)
Class Interner (I Spur : Type) := {
  iter : I → list (Spur * string);
  get_or_intern : I → string → Spur * I;
  resolve : I → Spur → outcome string;
}.
Class InternerLaws (I Spur : Type) `{!SpurKey Spur, !Interner I Spur} : Prop := {
  iter_dense (i : I) : map (λ e, into_usize e.1) (iter i) ≡ₚ map Z.of_nat (seq 0 (length (iter i)));
  resolve_iter (i : I) (s : Spur) (t : string) : resolve i s = Done t → (s, t) ∈ iter i;
  resolve_interned (i : I) (t : string) : resolve (get_or_intern i t).2 (get_or_intern i t).1 = Done t;
  resolve_keeps (i : I) (t u : string) (s : Spur) :
    resolve i s = Done u → resolve (get_or_intern i t).2 s = Done u;
  intern_again (i : I) (s : Spur) (t : string) : resolve i s = Done t → get_or_intern i t = (s, i);
}.

(** ** The interner snapshot *)
Section Snapshot.
Context {I Spur : Type} `{!SpurKey Spur, !Interner I Spur}.

(** [InternerSnapshot::capture]; the [debug_assert_eq!] on the indices is kept. *)
Definition index_le (x y : Z * string) : Prop := x.1 ≤ y.1.
#[export] Instance index_le_dec x y : Decision (index_le x y).
Proof. unfold index_le. apply _. Defined.
Definition capture (interner : I) : outcome (list string) :=
  let pairs := merge_sort index_le (map (λ e, (into_usize e.1, e.2)) (iter interner)) in
  if forallb (λ e, Z.of_nat e.1 =? e.2.1) (imap pair pairs) then mret (map snd pairs) else Panic.

(** [InternerSnapshot::restore_into]: the remap table and the target with the strings added. *)
Fixpoint restore_into (strings : list string) (target : I) : list Spur * I :=
  match strings with
  | [] => ([], target)
  | s :: strings =>
      let '(k, target) := get_or_intern target s in
      let '(table, target) := restore_into strings target in
      (k :: table, target)
  end.

(** [impl RemapSpurs for Spur]: the table entry, a panic past its end. *)
Definition remap_spur (table : list Spur) (s : Spur) : outcome Spur :=
  AirPattern.index table (Z.to_nat (into_usize s)).
Definition remap_spurs (table : list Spur) (a : Ast Spur) : outcome (Ast Spur) := remap_ast (remap_spur table) a.

(** The file in the cache: [CachedParseOutput]. *)
Record CachedParseOutput : Type := MkCached { cpo_interner : list string; cpo_ast : Ast Spur }.

(** The tree over the texts of its symbols. *)
Definition ast_text (interner : I) (a : Ast Spur) : outcome (Ast string) := remap_ast (resolve interner) a.
End Snapshot.
#[global] Arguments CachedParseOutput : clear implicits.
