(* ===== verification/RemapThm.v ===== *)
(** * Loading a cached tree keeps its text

    The traversals of [Remap] compose: replacing symbols twice is replacing them once by the
    composition, for every struct of the tree, by induction over expressions, patterns and
    type expressions together. From it, a file that is parsed, captured beside its interner
    and merged into the interner of a build stands for the text it was parsed from, and the
    trees merged before keep theirs. *)

From stdpp Require Import sorting.
From S2P Require Import Prelude Types AirPattern Air Ast Remap.

(** [th] does at once what [tf] and then [tg] do. *)
Definition law {A B C} (tf : A → outcome B) (tg : B → outcome C) (th : A → outcome C) (x : A) : Prop :=
  ∀ y, tf x = Done y → ∃ z, tg y = Done z ∧ th x = Done z.

Create HintDb laws.

(** The containers. *)
#[universes(polymorphic)]
Lemma law_list@{s;u +} {A B C} (tf : A → outcome B) (tg : B → outcome C) th (PA : A → Type@{s;u}) l :
  list_all PA l → (∀ x, PA x → law tf tg th x) → law (traverse tf) (traverse tg) (traverse th) l.
Proof.
  intros Hl Himp. induction Hl as [|x Hx l _ IH]; intros ys Hys; simpl in Hys.
  - injection Hys as <-. by exists [].
  - apply bind_Done in Hys as (y & Hy & (ys' & Hys & [= <-])%bind_Done).
    destruct (Himp x Hx _ Hy) as (z & Hg & Hh). destruct (IH _ Hys) as (zs & Hgs & Hhs).
    exists (z :: zs). simpl. by rewrite Hg, Hh, Hgs, Hhs.
Qed.
#[universes(polymorphic)]
Lemma law_option@{s;u +} {A B C} (tf : A → outcome B) (tg : B → outcome C) th (PA : A → Type@{s;u}) o :
  option_all PA o → (∀ x, PA x → law tf tg th x) →
  law (traverse_opt tf) (traverse_opt tg) (traverse_opt th) o.
Proof.
  intros Ho Himp. destruct Ho as [x Hx|]; intros y Hy; simpl in Hy.
  - apply bind_Done in Hy as (y' & Hy & [= <-]).
    destruct (Himp x Hx _ Hy) as (z & Hg & Hh). exists (Some z). simpl. by rewrite Hg, Hh.
  - injection Hy as <-. by exists None.
Qed.

#[local] Arguments mbind : simpl never.
#[local] Arguments traverse : simpl never.
#[local] Arguments traverse_opt : simpl never.

(** A struct: take the first traversal apart, field by field, and run the two others. *)
Ltac law_split :=
  repeat match goal with
  | H : _ ≫= _ = Done _ |- _ => apply bind_Done in H as (? & ? & H)
  | H : mret _ = Done _ |- _ => injection H as <-
  end.
Ltac law_of tf x :=
  eassert (law tf _ _ x) by
    (first
       [ solve [eauto with laws]
       | eapply law_list; [eassumption|solve [intros ? ?; eauto with laws]]
       | eapply law_option; [eassumption|solve [intros ? ?; eauto with laws]] ]).
Ltac law_run :=
  repeat match goal with
  | E : ?tf ?x = Done ?y |- _ =>
      law_of tf x; match goal with G : law tf _ _ x |- _ => apply G in E; destruct E as (? & E); clear G end
  end.
Ltac law_finish :=
  destruct_and?; eexists; split; repeat (eapply bind_Done; eexists; split; [eassumption|]); reflexivity.
Ltac struct_law op :=
  let Hall := fresh in let y := fresh "y" in let Hy := fresh in
  intros Hall; destruct Hall; unfold op; intros y Hy; simpl in Hy; law_split; simpl; law_run; law_finish.

(** ** The structs *)
Section Structs.
Context {S1 S2 S3 E1 E2 E3 P1 P2 P3 T1 T2 T3 : Type}.
Context (f : S1 → outcome S2) (g : S2 → outcome S3) (h : S1 → outcome S3).
Context (ef : E1 → outcome E2) (eg : E2 → outcome E3) (eh : E1 → outcome E3).
Context (pf : P1 → outcome P2) (pg : P2 → outcome P3) (ph : P1 → outcome P3).
Context (tf : T1 → outcome T2) (tg : T2 → outcome T3) (th : T1 → outcome T3).
Context (Hsym : ∀ s, law f g h s).
#[local] Hint Resolve Hsym : laws.

Lemma law_ident x : Ident_all (λ _, unit) x → law (remap_ident f) (remap_ident g) (remap_ident h) x.
Proof. struct_law @remap_ident. Qed.
#[local] Hint Resolve law_ident : laws.
Lemma law_string_lit x :
  StringLit_all (λ _, unit) x → law (remap_string_lit f) (remap_string_lit g) (remap_string_lit h) x.
Proof. struct_law @remap_string_lit. Qed.
#[local] Hint Resolve law_string_lit : laws.
Lemma law_directive_arg x :
  DirectiveArg_all (λ _, unit) x → law (remap_directive_arg f) (remap_directive_arg g) (remap_directive_arg h) x.
Proof. struct_law @remap_directive_arg. Qed.
#[local] Hint Resolve law_directive_arg : laws.
Lemma law_directive x :
  Directive_all (λ _, unit) x → law (remap_directive f) (remap_directive g) (remap_directive h) x.
Proof. struct_law @remap_directive. Qed.
#[local] Hint Resolve law_directive : laws.
Lemma law_param x :
  Param_all (λ _, unit) (law tf tg th) x → law (remap_param f tf) (remap_param g tg) (remap_param h th) x.
Proof. struct_law @remap_param. Qed.
#[local] Hint Resolve law_param : laws.
Lemma law_field_decl x :
  FieldDecl_all (λ _, unit) (law tf tg th) x → law (remap_field_decl f tf) (remap_field_decl g tg) (remap_field_decl h th) x.
Proof. struct_law @remap_field_decl. Qed.
#[local] Hint Resolve law_field_decl : laws.
Lemma law_enum_variant_field x :
  EnumVariantField_all (λ _, unit) (law tf tg th) x → law (remap_enum_variant_field f tf) (remap_enum_variant_field g tg) (remap_enum_variant_field h th) x.
Proof. struct_law @remap_enum_variant_field. Qed.
#[local] Hint Resolve law_enum_variant_field : laws.
Lemma law_enum_variant_kind x :
  EnumVariantKind_all (λ _, unit) (law tf tg th) x → law (remap_enum_variant_kind f tf) (remap_enum_variant_kind g tg) (remap_enum_variant_kind h th) x.
Proof. struct_law @remap_enum_variant_kind. Qed.
#[local] Hint Resolve law_enum_variant_kind : laws.
Lemma law_enum_variant x :
  EnumVariant_all (λ _, unit) (law tf tg th) x → law (remap_enum_variant f tf) (remap_enum_variant g tg) (remap_enum_variant h th) x.
Proof. struct_law @remap_enum_variant. Qed.
#[local] Hint Resolve law_enum_variant : laws.
Lemma law_anon_struct_field x :
  AnonStructField_all (λ _, unit) (law tf tg th) x → law (remap_anon_struct_field f tf) (remap_anon_struct_field g tg) (remap_anon_struct_field h th) x.
Proof. struct_law @remap_anon_struct_field. Qed.
#[local] Hint Resolve law_anon_struct_field : laws.
Lemma law_method_sig x :
  MethodSig_all (λ _, unit) (law tf tg th) x → law (remap_method_sig f tf) (remap_method_sig g tg) (remap_method_sig h th) x.
Proof. struct_law @remap_method_sig. Qed.
#[local] Hint Resolve law_method_sig : laws.
Lemma law_method x :
  Method_all (λ _, unit) (law ef eg eh) (law tf tg th) x → law (remap_method f ef tf) (remap_method g eg tg) (remap_method h eh th) x.
Proof. struct_law @remap_method. Qed.
#[local] Hint Resolve law_method : laws.
Lemma law_tuple_elem_pattern x :
  TupleElemPattern_all (law pf pg ph) x → law (remap_tuple_elem_pattern pf) (remap_tuple_elem_pattern pg) (remap_tuple_elem_pattern ph) x.
Proof. struct_law @remap_tuple_elem_pattern. Qed.
#[local] Hint Resolve law_tuple_elem_pattern : laws.
Lemma law_field_pattern x :
  FieldPattern_all (λ _, unit) (law pf pg ph) x → law (remap_field_pattern f pf) (remap_field_pattern g pg) (remap_field_pattern h ph) x.
Proof. struct_law @remap_field_pattern. Qed.
#[local] Hint Resolve law_field_pattern : laws.
Lemma law_path_pattern x :
  PathPattern_all (λ _, unit) (law ef eg eh) x → law (remap_path_pattern f ef) (remap_path_pattern g eg) (remap_path_pattern h eh) x.
Proof. struct_law @remap_path_pattern. Qed.
#[local] Hint Resolve law_path_pattern : laws.
Lemma law_binary_expr x :
  BinaryExpr_all (law ef eg eh) x → law (remap_binary_expr ef) (remap_binary_expr eg) (remap_binary_expr eh) x.
Proof. struct_law @remap_binary_expr. Qed.
#[local] Hint Resolve law_binary_expr : laws.
Lemma law_unary_expr x :
  UnaryExpr_all (law ef eg eh) x → law (remap_unary_expr ef) (remap_unary_expr eg) (remap_unary_expr eh) x.
Proof. struct_law @remap_unary_expr. Qed.
#[local] Hint Resolve law_unary_expr : laws.
Lemma law_paren_expr x :
  ParenExpr_all (law ef eg eh) x → law (remap_paren_expr ef) (remap_paren_expr eg) (remap_paren_expr eh) x.
Proof. struct_law @remap_paren_expr. Qed.
#[local] Hint Resolve law_paren_expr : laws.
Lemma law_call_arg x :
  CallArg_all (law ef eg eh) x → law (remap_call_arg ef) (remap_call_arg eg) (remap_call_arg eh) x.
Proof. struct_law @remap_call_arg. Qed.
#[local] Hint Resolve law_call_arg : laws.
Lemma law_call_expr x :
  CallExpr_all (λ _, unit) (law ef eg eh) x → law (remap_call_expr f ef) (remap_call_expr g eg) (remap_call_expr h eh) x.
Proof. struct_law @remap_call_expr. Qed.
#[local] Hint Resolve law_call_expr : laws.
Lemma law_intrinsic_arg x :
  IntrinsicArg_all (law ef eg eh) (law tf tg th) x → law (remap_intrinsic_arg ef tf) (remap_intrinsic_arg eg tg) (remap_intrinsic_arg eh th) x.
Proof. struct_law @remap_intrinsic_arg. Qed.
#[local] Hint Resolve law_intrinsic_arg : laws.
Lemma law_intrinsic_call_expr x :
  IntrinsicCallExpr_all (λ _, unit) (law ef eg eh) (law tf tg th) x → law (remap_intrinsic_call_expr f ef tf) (remap_intrinsic_call_expr g eg tg) (remap_intrinsic_call_expr h eh th) x.
Proof. struct_law @remap_intrinsic_call_expr. Qed.
#[local] Hint Resolve law_intrinsic_call_expr : laws.
Lemma law_field_init x :
  FieldInit_all (λ _, unit) (law ef eg eh) x → law (remap_field_init f ef) (remap_field_init g eg) (remap_field_init h eh) x.
Proof. struct_law @remap_field_init. Qed.
#[local] Hint Resolve law_field_init : laws.
Lemma law_struct_lit_expr x :
  StructLitExpr_all (λ _, unit) (law ef eg eh) x → law (remap_struct_lit_expr f ef) (remap_struct_lit_expr g eg) (remap_struct_lit_expr h eh) x.
Proof. struct_law @remap_struct_lit_expr. Qed.
#[local] Hint Resolve law_struct_lit_expr : laws.
Lemma law_tuple_expr x :
  TupleExpr_all (law ef eg eh) x → law (remap_tuple_expr ef) (remap_tuple_expr eg) (remap_tuple_expr eh) x.
Proof. struct_law @remap_tuple_expr. Qed.
#[local] Hint Resolve law_tuple_expr : laws.
Lemma law_tuple_index_expr x :
  TupleIndexExpr_all (law ef eg eh) x → law (remap_tuple_index_expr ef) (remap_tuple_index_expr eg) (remap_tuple_index_expr eh) x.
Proof. struct_law @remap_tuple_index_expr. Qed.
#[local] Hint Resolve law_tuple_index_expr : laws.
Lemma law_field_expr x :
  FieldExpr_all (λ _, unit) (law ef eg eh) x → law (remap_field_expr f ef) (remap_field_expr g eg) (remap_field_expr h eh) x.
Proof. struct_law @remap_field_expr. Qed.
#[local] Hint Resolve law_field_expr : laws.
Lemma law_method_call_expr x :
  MethodCallExpr_all (λ _, unit) (law ef eg eh) x → law (remap_method_call_expr f ef) (remap_method_call_expr g eg) (remap_method_call_expr h eh) x.
Proof. struct_law @remap_method_call_expr. Qed.
#[local] Hint Resolve law_method_call_expr : laws.
Lemma law_array_lit_expr x :
  ArrayLitExpr_all (law ef eg eh) x → law (remap_array_lit_expr ef) (remap_array_lit_expr eg) (remap_array_lit_expr eh) x.
Proof. struct_law @remap_array_lit_expr. Qed.
#[local] Hint Resolve law_array_lit_expr : laws.
Lemma law_index_expr x :
  IndexExpr_all (law ef eg eh) x → law (remap_index_expr ef) (remap_index_expr eg) (remap_index_expr eh) x.
Proof. struct_law @remap_index_expr. Qed.
#[local] Hint Resolve law_index_expr : laws.
Lemma law_range_expr x :
  RangeExpr_all (law ef eg eh) x → law (remap_range_expr ef) (remap_range_expr eg) (remap_range_expr eh) x.
Proof. struct_law @remap_range_expr. Qed.
#[local] Hint Resolve law_range_expr : laws.
Lemma law_path_expr x :
  PathExpr_all (λ _, unit) (law ef eg eh) x → law (remap_path_expr f ef) (remap_path_expr g eg) (remap_path_expr h eh) x.
Proof. struct_law @remap_path_expr. Qed.
#[local] Hint Resolve law_path_expr : laws.
Lemma law_enum_struct_lit_expr x :
  EnumStructLitExpr_all (λ _, unit) (law ef eg eh) x → law (remap_enum_struct_lit_expr f ef) (remap_enum_struct_lit_expr g eg) (remap_enum_struct_lit_expr h eh) x.
Proof. struct_law @remap_enum_struct_lit_expr. Qed.
#[local] Hint Resolve law_enum_struct_lit_expr : laws.
Lemma law_assoc_fn_call_expr x :
  AssocFnCallExpr_all (λ _, unit) (law ef eg eh) x → law (remap_assoc_fn_call_expr f ef) (remap_assoc_fn_call_expr g eg) (remap_assoc_fn_call_expr h eh) x.
Proof. struct_law @remap_assoc_fn_call_expr. Qed.
#[local] Hint Resolve law_assoc_fn_call_expr : laws.
Lemma law_let_statement x :
  LetStatement_all (λ _, unit) (law ef eg eh) (law pf pg ph) (law tf tg th) x → law (remap_let_statement f ef pf tf) (remap_let_statement g eg pg tg) (remap_let_statement h eh ph th) x.
Proof. struct_law @remap_let_statement. Qed.
#[local] Hint Resolve law_let_statement : laws.
Lemma law_assign_target x :
  AssignTarget_all (λ _, unit) (law ef eg eh) x → law (remap_assign_target f ef) (remap_assign_target g eg) (remap_assign_target h eh) x.
Proof. struct_law @remap_assign_target. Qed.
#[local] Hint Resolve law_assign_target : laws.
Lemma law_assign_statement x :
  AssignStatement_all (λ _, unit) (law ef eg eh) x → law (remap_assign_statement f ef) (remap_assign_statement g eg) (remap_assign_statement h eh) x.
Proof. struct_law @remap_assign_statement. Qed.
#[local] Hint Resolve law_assign_statement : laws.
Lemma law_statement x :
  Statement_all (λ _, unit) (law ef eg eh) (law pf pg ph) (law tf tg th) x → law (remap_statement f ef pf tf) (remap_statement g eg pg tg) (remap_statement h eh ph th) x.
Proof. struct_law @remap_statement. Qed.
#[local] Hint Resolve law_statement : laws.
Lemma law_block_expr x :
  BlockExpr_all (λ _, unit) (law ef eg eh) (law pf pg ph) (law tf tg th) x → law (remap_block_expr f ef pf tf) (remap_block_expr g eg pg tg) (remap_block_expr h eh ph th) x.
Proof. struct_law @remap_block_expr. Qed.
#[local] Hint Resolve law_block_expr : laws.
Lemma law_if_expr x :
  IfExpr_all (λ _, unit) (law ef eg eh) (law pf pg ph) (law tf tg th) x → law (remap_if_expr f ef pf tf) (remap_if_expr g eg pg tg) (remap_if_expr h eh ph th) x.
Proof. struct_law @remap_if_expr. Qed.
#[local] Hint Resolve law_if_expr : laws.
Lemma law_match_arm x :
  MatchArm_all (law ef eg eh) (law pf pg ph) x → law (remap_match_arm ef pf) (remap_match_arm eg pg) (remap_match_arm eh ph) x.
Proof. struct_law @remap_match_arm. Qed.
#[local] Hint Resolve law_match_arm : laws.
Lemma law_match_expr x :
  MatchExpr_all (law ef eg eh) (law pf pg ph) x → law (remap_match_expr ef pf) (remap_match_expr eg pg) (remap_match_expr eh ph) x.
Proof. struct_law @remap_match_expr. Qed.
#[local] Hint Resolve law_match_expr : laws.
Lemma law_while_expr x :
  WhileExpr_all (λ _, unit) (law ef eg eh) (law pf pg ph) (law tf tg th) x → law (remap_while_expr f ef pf tf) (remap_while_expr g eg pg tg) (remap_while_expr h eh ph th) x.
Proof. struct_law @remap_while_expr. Qed.
#[local] Hint Resolve law_while_expr : laws.
Lemma law_for_expr x :
  ForExpr_all (λ _, unit) (law ef eg eh) (law pf pg ph) (law tf tg th) x → law (remap_for_expr f ef pf tf) (remap_for_expr g eg pg tg) (remap_for_expr h eh ph th) x.
Proof. struct_law @remap_for_expr. Qed.
#[local] Hint Resolve law_for_expr : laws.
Lemma law_loop_expr x :
  LoopExpr_all (λ _, unit) (law ef eg eh) (law pf pg ph) (law tf tg th) x → law (remap_loop_expr f ef pf tf) (remap_loop_expr g eg pg tg) (remap_loop_expr h eh ph th) x.
Proof. struct_law @remap_loop_expr. Qed.
#[local] Hint Resolve law_loop_expr : laws.
Lemma law_return_expr x :
  ReturnExpr_all (law ef eg eh) x → law (remap_return_expr ef) (remap_return_expr eg) (remap_return_expr eh) x.
Proof. struct_law @remap_return_expr. Qed.
#[local] Hint Resolve law_return_expr : laws.
Lemma law_comptime_block_expr x :
  ComptimeBlockExpr_all (law ef eg eh) x → law (remap_comptime_block_expr ef) (remap_comptime_block_expr eg) (remap_comptime_block_expr eh) x.
Proof. struct_law @remap_comptime_block_expr. Qed.
#[local] Hint Resolve law_comptime_block_expr : laws.
Lemma law_comptime_unroll_for_expr x :
  ComptimeUnrollForExpr_all (λ _, unit) (law ef eg eh) (law pf pg ph) (law tf tg th) x → law (remap_comptime_unroll_for_expr f ef pf tf) (remap_comptime_unroll_for_expr g eg pg tg) (remap_comptime_unroll_for_expr h eh ph th) x.
Proof. struct_law @remap_comptime_unroll_for_expr. Qed.
#[local] Hint Resolve law_comptime_unroll_for_expr : laws.
Lemma law_checked_block_expr x :
  CheckedBlockExpr_all (law ef eg eh) x → law (remap_checked_block_expr ef) (remap_checked_block_expr eg) (remap_checked_block_expr eh) x.
Proof. struct_law @remap_checked_block_expr. Qed.
#[local] Hint Resolve law_checked_block_expr : laws.
Lemma law_type_lit_expr x :
  TypeLitExpr_all (law tf tg th) x → law (remap_type_lit_expr tf) (remap_type_lit_expr tg) (remap_type_lit_expr th) x.
Proof. struct_law @remap_type_lit_expr. Qed.
#[local] Hint Resolve law_type_lit_expr : laws.
Lemma law_anon_fn_expr x :
  AnonFnExpr_all (λ _, unit) (law ef eg eh) (law pf pg ph) (law tf tg th) x → law (remap_anon_fn_expr f ef pf tf) (remap_anon_fn_expr g eg pg tg) (remap_anon_fn_expr h eh ph th) x.
Proof. struct_law @remap_anon_fn_expr. Qed.
#[local] Hint Resolve law_anon_fn_expr : laws.
Lemma law_function x :
  Function_all (λ _, unit) (law ef eg eh) (law tf tg th) x → law (remap_function f ef tf) (remap_function g eg tg) (remap_function h eh th) x.
Proof. struct_law @remap_function. Qed.
#[local] Hint Resolve law_function : laws.
Lemma law_struct_decl x :
  StructDecl_all (λ _, unit) (law ef eg eh) (law tf tg th) x → law (remap_struct_decl f ef tf) (remap_struct_decl g eg tg) (remap_struct_decl h eh th) x.
Proof. struct_law @remap_struct_decl. Qed.
#[local] Hint Resolve law_struct_decl : laws.
Lemma law_enum_decl x :
  EnumDecl_all (λ _, unit) (law ef eg eh) (law tf tg th) x → law (remap_enum_decl f ef tf) (remap_enum_decl g eg tg) (remap_enum_decl h eh th) x.
Proof. struct_law @remap_enum_decl. Qed.
#[local] Hint Resolve law_enum_decl : laws.
Lemma law_interface_decl x :
  InterfaceDecl_all (λ _, unit) (law tf tg th) x → law (remap_interface_decl f tf) (remap_interface_decl g tg) (remap_interface_decl h th) x.
Proof. struct_law @remap_interface_decl. Qed.
#[local] Hint Resolve law_interface_decl : laws.
Lemma law_derive_decl x :
  DeriveDecl_all (λ _, unit) (law ef eg eh) (law tf tg th) x → law (remap_derive_decl f ef tf) (remap_derive_decl g eg tg) (remap_derive_decl h eh th) x.
Proof. struct_law @remap_derive_decl. Qed.
#[local] Hint Resolve law_derive_decl : laws.
Lemma law_const_decl x :
  ConstDecl_all (λ _, unit) (law ef eg eh) (law tf tg th) x → law (remap_const_decl f ef tf) (remap_const_decl g eg tg) (remap_const_decl h eh th) x.
Proof. struct_law @remap_const_decl. Qed.
#[local] Hint Resolve law_const_decl : laws.
Lemma law_extern_fn x :
  ExternFn_all (λ _, unit) (law tf tg th) x → law (remap_extern_fn f tf) (remap_extern_fn g tg) (remap_extern_fn h th) x.
Proof. struct_law @remap_extern_fn. Qed.
#[local] Hint Resolve law_extern_fn : laws.
Lemma law_link_extern_block x :
  LinkExternBlock_all (λ _, unit) (law tf tg th) x → law (remap_link_extern_block f tf) (remap_link_extern_block g tg) (remap_link_extern_block h th) x.
Proof. struct_law @remap_link_extern_block. Qed.
#[local] Hint Resolve law_link_extern_block : laws.
Lemma law_item x :
  Item_all (λ _, unit) (law ef eg eh) (law tf tg th) x → law (remap_item f ef tf) (remap_item g eg tg) (remap_item h eh th) x.
Proof. struct_law @remap_item. Qed.
#[local] Hint Resolve law_item : laws.
End Structs.

(** ** Replacing every symbol by itself changes nothing *)
Definition keeps {A} (t : A → outcome A) (x : A) : Prop := t x = Done x.
#[universes(polymorphic)]
Lemma keeps_list@{s;u +} {A} (t : A → outcome A) (PA : A → Type@{s;u}) l :
  list_all PA l → (∀ x, PA x → keeps t x) → keeps (traverse t) l.
Proof.
  unfold keeps. intros Hl Himp. induction Hl as [|x Hx l _ IH]; [done|].
  change (traverse t (x :: l)) with (y ← t x; ys ← traverse t l; mret (y :: ys)). by rewrite (Himp x Hx), IH.
Qed.
#[universes(polymorphic)]
Lemma keeps_option@{s;u +} {A} (t : A → outcome A) (PA : A → Type@{s;u}) o :
  option_all PA o → (∀ x, PA x → keeps t x) → keeps (traverse_opt t) o.
Proof.
  unfold keeps. intros Ho Himp. destruct Ho as [x Hx|]; [|done].
  change (traverse_opt t (Some x)) with (y ← t x; mret (Some y)). by rewrite (Himp x Hx).
Qed.
Ltac keeps_of t x :=
  first
    [ solve [eauto with laws]
    | eapply keeps_list; [eassumption|solve [intros ? ?; eauto with laws]]
    | eapply keeps_option; [eassumption|solve [intros ? ?; eauto with laws]] ].
Ltac keeps_run :=
  repeat match goal with
  | |- Done _ ≫= _ = _ => change (mbind ?k (Done ?a)) with (k a); cbv beta
  | |- ?t ?x ≫= _ = _ => let H := fresh in assert (H : keeps t x) by keeps_of t x; rewrite H; clear H
  end; reflexivity.
Ltac struct_keeps op :=
  let Hall := fresh in intros Hall; destruct Hall; unfold keeps, op; simpl; keeps_run.

Section Keeps.
Context {S E P T : Type} (re : E → outcome E) (rp : P → outcome P) (rt : T → outcome T).

Lemma keeps_ident (x : Ident S) :
  Ident_all (λ _, unit) x → keeps (remap_ident Done) x.
Proof. struct_keeps @remap_ident. Qed.
#[local] Hint Resolve keeps_ident : laws.
Lemma keeps_string_lit (x : StringLit S) :
  StringLit_all (λ _, unit) x → keeps (remap_string_lit Done) x.
Proof. struct_keeps @remap_string_lit. Qed.
#[local] Hint Resolve keeps_string_lit : laws.
Lemma keeps_directive_arg (x : DirectiveArg S) :
  DirectiveArg_all (λ _, unit) x → keeps (remap_directive_arg Done) x.
Proof. struct_keeps @remap_directive_arg. Qed.
#[local] Hint Resolve keeps_directive_arg : laws.
Lemma keeps_directive (x : Directive S) :
  Directive_all (λ _, unit) x → keeps (remap_directive Done) x.
Proof. struct_keeps @remap_directive. Qed.
#[local] Hint Resolve keeps_directive : laws.
Lemma keeps_param (x : Param S T) :
  Param_all (λ _, unit) (keeps rt) x → keeps (remap_param Done rt) x.
Proof. struct_keeps @remap_param. Qed.
#[local] Hint Resolve keeps_param : laws.
Lemma keeps_field_decl (x : FieldDecl S T) :
  FieldDecl_all (λ _, unit) (keeps rt) x → keeps (remap_field_decl Done rt) x.
Proof. struct_keeps @remap_field_decl. Qed.
#[local] Hint Resolve keeps_field_decl : laws.
Lemma keeps_enum_variant_field (x : EnumVariantField S T) :
  EnumVariantField_all (λ _, unit) (keeps rt) x → keeps (remap_enum_variant_field Done rt) x.
Proof. struct_keeps @remap_enum_variant_field. Qed.
#[local] Hint Resolve keeps_enum_variant_field : laws.
Lemma keeps_enum_variant_kind (x : EnumVariantKind S T) :
  EnumVariantKind_all (λ _, unit) (keeps rt) x → keeps (remap_enum_variant_kind Done rt) x.
Proof. struct_keeps @remap_enum_variant_kind. Qed.
#[local] Hint Resolve keeps_enum_variant_kind : laws.
Lemma keeps_enum_variant (x : EnumVariant S T) :
  EnumVariant_all (λ _, unit) (keeps rt) x → keeps (remap_enum_variant Done rt) x.
Proof. struct_keeps @remap_enum_variant. Qed.
#[local] Hint Resolve keeps_enum_variant : laws.
Lemma keeps_anon_struct_field (x : AnonStructField S T) :
  AnonStructField_all (λ _, unit) (keeps rt) x → keeps (remap_anon_struct_field Done rt) x.
Proof. struct_keeps @remap_anon_struct_field. Qed.
#[local] Hint Resolve keeps_anon_struct_field : laws.
Lemma keeps_method_sig (x : MethodSig S T) :
  MethodSig_all (λ _, unit) (keeps rt) x → keeps (remap_method_sig Done rt) x.
Proof. struct_keeps @remap_method_sig. Qed.
#[local] Hint Resolve keeps_method_sig : laws.
Lemma keeps_method (x : Method S E T) :
  Method_all (λ _, unit) (keeps re) (keeps rt) x → keeps (remap_method Done re rt) x.
Proof. struct_keeps @remap_method. Qed.
#[local] Hint Resolve keeps_method : laws.
Lemma keeps_tuple_elem_pattern (x : TupleElemPattern P) :
  TupleElemPattern_all (keeps rp) x → keeps (remap_tuple_elem_pattern rp) x.
Proof. struct_keeps @remap_tuple_elem_pattern. Qed.
#[local] Hint Resolve keeps_tuple_elem_pattern : laws.
Lemma keeps_field_pattern (x : FieldPattern S P) :
  FieldPattern_all (λ _, unit) (keeps rp) x → keeps (remap_field_pattern Done rp) x.
Proof. struct_keeps @remap_field_pattern. Qed.
#[local] Hint Resolve keeps_field_pattern : laws.
Lemma keeps_path_pattern (x : PathPattern S E) :
  PathPattern_all (λ _, unit) (keeps re) x → keeps (remap_path_pattern Done re) x.
Proof. struct_keeps @remap_path_pattern. Qed.
#[local] Hint Resolve keeps_path_pattern : laws.
Lemma keeps_binary_expr (x : BinaryExpr E) :
  BinaryExpr_all (keeps re) x → keeps (remap_binary_expr re) x.
Proof. struct_keeps @remap_binary_expr. Qed.
#[local] Hint Resolve keeps_binary_expr : laws.
Lemma keeps_unary_expr (x : UnaryExpr E) :
  UnaryExpr_all (keeps re) x → keeps (remap_unary_expr re) x.
Proof. struct_keeps @remap_unary_expr. Qed.
#[local] Hint Resolve keeps_unary_expr : laws.
Lemma keeps_paren_expr (x : ParenExpr E) :
  ParenExpr_all (keeps re) x → keeps (remap_paren_expr re) x.
Proof. struct_keeps @remap_paren_expr. Qed.
#[local] Hint Resolve keeps_paren_expr : laws.
Lemma keeps_call_arg (x : CallArg E) :
  CallArg_all (keeps re) x → keeps (remap_call_arg re) x.
Proof. struct_keeps @remap_call_arg. Qed.
#[local] Hint Resolve keeps_call_arg : laws.
Lemma keeps_call_expr (x : CallExpr S E) :
  CallExpr_all (λ _, unit) (keeps re) x → keeps (remap_call_expr Done re) x.
Proof. struct_keeps @remap_call_expr. Qed.
#[local] Hint Resolve keeps_call_expr : laws.
Lemma keeps_intrinsic_arg (x : IntrinsicArg E T) :
  IntrinsicArg_all (keeps re) (keeps rt) x → keeps (remap_intrinsic_arg re rt) x.
Proof. struct_keeps @remap_intrinsic_arg. Qed.
#[local] Hint Resolve keeps_intrinsic_arg : laws.
Lemma keeps_intrinsic_call_expr (x : IntrinsicCallExpr S E T) :
  IntrinsicCallExpr_all (λ _, unit) (keeps re) (keeps rt) x → keeps (remap_intrinsic_call_expr Done re rt) x.
Proof. struct_keeps @remap_intrinsic_call_expr. Qed.
#[local] Hint Resolve keeps_intrinsic_call_expr : laws.
Lemma keeps_field_init (x : FieldInit S E) :
  FieldInit_all (λ _, unit) (keeps re) x → keeps (remap_field_init Done re) x.
Proof. struct_keeps @remap_field_init. Qed.
#[local] Hint Resolve keeps_field_init : laws.
Lemma keeps_struct_lit_expr (x : StructLitExpr S E) :
  StructLitExpr_all (λ _, unit) (keeps re) x → keeps (remap_struct_lit_expr Done re) x.
Proof. struct_keeps @remap_struct_lit_expr. Qed.
#[local] Hint Resolve keeps_struct_lit_expr : laws.
Lemma keeps_tuple_expr (x : TupleExpr E) :
  TupleExpr_all (keeps re) x → keeps (remap_tuple_expr re) x.
Proof. struct_keeps @remap_tuple_expr. Qed.
#[local] Hint Resolve keeps_tuple_expr : laws.
Lemma keeps_tuple_index_expr (x : TupleIndexExpr E) :
  TupleIndexExpr_all (keeps re) x → keeps (remap_tuple_index_expr re) x.
Proof. struct_keeps @remap_tuple_index_expr. Qed.
#[local] Hint Resolve keeps_tuple_index_expr : laws.
Lemma keeps_field_expr (x : FieldExpr S E) :
  FieldExpr_all (λ _, unit) (keeps re) x → keeps (remap_field_expr Done re) x.
Proof. struct_keeps @remap_field_expr. Qed.
#[local] Hint Resolve keeps_field_expr : laws.
Lemma keeps_method_call_expr (x : MethodCallExpr S E) :
  MethodCallExpr_all (λ _, unit) (keeps re) x → keeps (remap_method_call_expr Done re) x.
Proof. struct_keeps @remap_method_call_expr. Qed.
#[local] Hint Resolve keeps_method_call_expr : laws.
Lemma keeps_array_lit_expr (x : ArrayLitExpr E) :
  ArrayLitExpr_all (keeps re) x → keeps (remap_array_lit_expr re) x.
Proof. struct_keeps @remap_array_lit_expr. Qed.
#[local] Hint Resolve keeps_array_lit_expr : laws.
Lemma keeps_index_expr (x : IndexExpr E) :
  IndexExpr_all (keeps re) x → keeps (remap_index_expr re) x.
Proof. struct_keeps @remap_index_expr. Qed.
#[local] Hint Resolve keeps_index_expr : laws.
Lemma keeps_range_expr (x : RangeExpr E) :
  RangeExpr_all (keeps re) x → keeps (remap_range_expr re) x.
Proof. struct_keeps @remap_range_expr. Qed.
#[local] Hint Resolve keeps_range_expr : laws.
Lemma keeps_path_expr (x : PathExpr S E) :
  PathExpr_all (λ _, unit) (keeps re) x → keeps (remap_path_expr Done re) x.
Proof. struct_keeps @remap_path_expr. Qed.
#[local] Hint Resolve keeps_path_expr : laws.
Lemma keeps_enum_struct_lit_expr (x : EnumStructLitExpr S E) :
  EnumStructLitExpr_all (λ _, unit) (keeps re) x → keeps (remap_enum_struct_lit_expr Done re) x.
Proof. struct_keeps @remap_enum_struct_lit_expr. Qed.
#[local] Hint Resolve keeps_enum_struct_lit_expr : laws.
Lemma keeps_assoc_fn_call_expr (x : AssocFnCallExpr S E) :
  AssocFnCallExpr_all (λ _, unit) (keeps re) x → keeps (remap_assoc_fn_call_expr Done re) x.
Proof. struct_keeps @remap_assoc_fn_call_expr. Qed.
#[local] Hint Resolve keeps_assoc_fn_call_expr : laws.
Lemma keeps_let_statement (x : LetStatement S E P T) :
  LetStatement_all (λ _, unit) (keeps re) (keeps rp) (keeps rt) x → keeps (remap_let_statement Done re rp rt) x.
Proof. struct_keeps @remap_let_statement. Qed.
#[local] Hint Resolve keeps_let_statement : laws.
Lemma keeps_assign_target (x : AssignTarget S E) :
  AssignTarget_all (λ _, unit) (keeps re) x → keeps (remap_assign_target Done re) x.
Proof. struct_keeps @remap_assign_target. Qed.
#[local] Hint Resolve keeps_assign_target : laws.
Lemma keeps_assign_statement (x : AssignStatement S E) :
  AssignStatement_all (λ _, unit) (keeps re) x → keeps (remap_assign_statement Done re) x.
Proof. struct_keeps @remap_assign_statement. Qed.
#[local] Hint Resolve keeps_assign_statement : laws.
Lemma keeps_statement (x : Statement S E P T) :
  Statement_all (λ _, unit) (keeps re) (keeps rp) (keeps rt) x → keeps (remap_statement Done re rp rt) x.
Proof. struct_keeps @remap_statement. Qed.
#[local] Hint Resolve keeps_statement : laws.
Lemma keeps_block_expr (x : BlockExpr S E P T) :
  BlockExpr_all (λ _, unit) (keeps re) (keeps rp) (keeps rt) x → keeps (remap_block_expr Done re rp rt) x.
Proof. struct_keeps @remap_block_expr. Qed.
#[local] Hint Resolve keeps_block_expr : laws.
Lemma keeps_if_expr (x : IfExpr S E P T) :
  IfExpr_all (λ _, unit) (keeps re) (keeps rp) (keeps rt) x → keeps (remap_if_expr Done re rp rt) x.
Proof. struct_keeps @remap_if_expr. Qed.
#[local] Hint Resolve keeps_if_expr : laws.
Lemma keeps_match_arm (x : MatchArm E P) :
  MatchArm_all (keeps re) (keeps rp) x → keeps (remap_match_arm re rp) x.
Proof. struct_keeps @remap_match_arm. Qed.
#[local] Hint Resolve keeps_match_arm : laws.
Lemma keeps_match_expr (x : MatchExpr E P) :
  MatchExpr_all (keeps re) (keeps rp) x → keeps (remap_match_expr re rp) x.
Proof. struct_keeps @remap_match_expr. Qed.
#[local] Hint Resolve keeps_match_expr : laws.
Lemma keeps_while_expr (x : WhileExpr S E P T) :
  WhileExpr_all (λ _, unit) (keeps re) (keeps rp) (keeps rt) x → keeps (remap_while_expr Done re rp rt) x.
Proof. struct_keeps @remap_while_expr. Qed.
#[local] Hint Resolve keeps_while_expr : laws.
Lemma keeps_for_expr (x : ForExpr S E P T) :
  ForExpr_all (λ _, unit) (keeps re) (keeps rp) (keeps rt) x → keeps (remap_for_expr Done re rp rt) x.
Proof. struct_keeps @remap_for_expr. Qed.
#[local] Hint Resolve keeps_for_expr : laws.
Lemma keeps_loop_expr (x : LoopExpr S E P T) :
  LoopExpr_all (λ _, unit) (keeps re) (keeps rp) (keeps rt) x → keeps (remap_loop_expr Done re rp rt) x.
Proof. struct_keeps @remap_loop_expr. Qed.
#[local] Hint Resolve keeps_loop_expr : laws.
Lemma keeps_return_expr (x : ReturnExpr E) :
  ReturnExpr_all (keeps re) x → keeps (remap_return_expr re) x.
Proof. struct_keeps @remap_return_expr. Qed.
#[local] Hint Resolve keeps_return_expr : laws.
Lemma keeps_comptime_block_expr (x : ComptimeBlockExpr E) :
  ComptimeBlockExpr_all (keeps re) x → keeps (remap_comptime_block_expr re) x.
Proof. struct_keeps @remap_comptime_block_expr. Qed.
#[local] Hint Resolve keeps_comptime_block_expr : laws.
Lemma keeps_comptime_unroll_for_expr (x : ComptimeUnrollForExpr S E P T) :
  ComptimeUnrollForExpr_all (λ _, unit) (keeps re) (keeps rp) (keeps rt) x → keeps (remap_comptime_unroll_for_expr Done re rp rt) x.
Proof. struct_keeps @remap_comptime_unroll_for_expr. Qed.
#[local] Hint Resolve keeps_comptime_unroll_for_expr : laws.
Lemma keeps_checked_block_expr (x : CheckedBlockExpr E) :
  CheckedBlockExpr_all (keeps re) x → keeps (remap_checked_block_expr re) x.
Proof. struct_keeps @remap_checked_block_expr. Qed.
#[local] Hint Resolve keeps_checked_block_expr : laws.
Lemma keeps_type_lit_expr (x : TypeLitExpr T) :
  TypeLitExpr_all (keeps rt) x → keeps (remap_type_lit_expr rt) x.
Proof. struct_keeps @remap_type_lit_expr. Qed.
#[local] Hint Resolve keeps_type_lit_expr : laws.
Lemma keeps_anon_fn_expr (x : AnonFnExpr S E P T) :
  AnonFnExpr_all (λ _, unit) (keeps re) (keeps rp) (keeps rt) x → keeps (remap_anon_fn_expr Done re rp rt) x.
Proof. struct_keeps @remap_anon_fn_expr. Qed.
#[local] Hint Resolve keeps_anon_fn_expr : laws.
Lemma keeps_function (x : Function S E T) :
  Function_all (λ _, unit) (keeps re) (keeps rt) x → keeps (remap_function Done re rt) x.
Proof. struct_keeps @remap_function. Qed.
#[local] Hint Resolve keeps_function : laws.
Lemma keeps_struct_decl (x : StructDecl S E T) :
  StructDecl_all (λ _, unit) (keeps re) (keeps rt) x → keeps (remap_struct_decl Done re rt) x.
Proof. struct_keeps @remap_struct_decl. Qed.
#[local] Hint Resolve keeps_struct_decl : laws.
Lemma keeps_enum_decl (x : EnumDecl S E T) :
  EnumDecl_all (λ _, unit) (keeps re) (keeps rt) x → keeps (remap_enum_decl Done re rt) x.
Proof. struct_keeps @remap_enum_decl. Qed.
#[local] Hint Resolve keeps_enum_decl : laws.
Lemma keeps_interface_decl (x : InterfaceDecl S T) :
  InterfaceDecl_all (λ _, unit) (keeps rt) x → keeps (remap_interface_decl Done rt) x.
Proof. struct_keeps @remap_interface_decl. Qed.
#[local] Hint Resolve keeps_interface_decl : laws.
Lemma keeps_derive_decl (x : DeriveDecl S E T) :
  DeriveDecl_all (λ _, unit) (keeps re) (keeps rt) x → keeps (remap_derive_decl Done re rt) x.
Proof. struct_keeps @remap_derive_decl. Qed.
#[local] Hint Resolve keeps_derive_decl : laws.
Lemma keeps_const_decl (x : ConstDecl S E T) :
  ConstDecl_all (λ _, unit) (keeps re) (keeps rt) x → keeps (remap_const_decl Done re rt) x.
Proof. struct_keeps @remap_const_decl. Qed.
#[local] Hint Resolve keeps_const_decl : laws.
Lemma keeps_extern_fn (x : ExternFn S T) :
  ExternFn_all (λ _, unit) (keeps rt) x → keeps (remap_extern_fn Done rt) x.
Proof. struct_keeps @remap_extern_fn. Qed.
#[local] Hint Resolve keeps_extern_fn : laws.
Lemma keeps_link_extern_block (x : LinkExternBlock S T) :
  LinkExternBlock_all (λ _, unit) (keeps rt) x → keeps (remap_link_extern_block Done rt) x.
Proof. struct_keeps @remap_link_extern_block. Qed.
#[local] Hint Resolve keeps_link_extern_block : laws.
Lemma keeps_item (x : Item S E T) :
  Item_all (λ _, unit) (keeps re) (keeps rt) x → keeps (remap_item Done re rt) x.
Proof. struct_keeps @remap_item. Qed.
#[local] Hint Resolve keeps_item : laws.
End Keeps.

(** ** Expressions, patterns and type expressions *)
#[local] Hint Resolve law_ident law_string_lit law_directive_arg law_directive law_param law_field_decl
  law_enum_variant_field law_enum_variant_kind law_enum_variant law_anon_struct_field law_method_sig
  law_method law_tuple_elem_pattern law_field_pattern law_path_pattern law_binary_expr
  law_unary_expr law_paren_expr law_call_arg law_call_expr law_intrinsic_arg law_intrinsic_call_expr
  law_field_init law_struct_lit_expr law_tuple_expr law_tuple_index_expr law_field_expr
  law_method_call_expr law_array_lit_expr law_index_expr law_range_expr law_path_expr
  law_enum_struct_lit_expr law_assoc_fn_call_expr law_let_statement law_assign_target
  law_assign_statement law_statement law_block_expr law_if_expr law_match_arm law_match_expr
  law_while_expr law_for_expr law_loop_expr law_return_expr law_comptime_block_expr
  law_comptime_unroll_for_expr law_checked_block_expr law_type_lit_expr law_anon_fn_expr
  law_function law_struct_decl law_enum_decl law_interface_decl law_derive_decl law_const_decl
  law_extern_fn law_link_extern_block law_item : laws.

Lemma idents_all {S} (x : Ident S) : Ident_all (λ _, unit) x.
Proof. apply Ident_all_forall. exact (λ _, tt). Qed.
Lemma string_lits_all {S} (x : StringLit S) : StringLit_all (λ _, unit) x.
Proof. apply StringLit_all_forall. exact (λ _, tt). Qed.
#[local] Hint Resolve idents_all string_lits_all : laws.

#[local] Hint Resolve keeps_ident keeps_string_lit keeps_directive_arg keeps_directive keeps_param keeps_field_decl
  keeps_enum_variant_field keeps_enum_variant_kind keeps_enum_variant keeps_anon_struct_field
  keeps_method_sig keeps_method keeps_tuple_elem_pattern keeps_field_pattern keeps_path_pattern
  keeps_binary_expr keeps_unary_expr keeps_paren_expr keeps_call_arg keeps_call_expr
  keeps_intrinsic_arg keeps_intrinsic_call_expr keeps_field_init keeps_struct_lit_expr
  keeps_tuple_expr keeps_tuple_index_expr keeps_field_expr keeps_method_call_expr
  keeps_array_lit_expr keeps_index_expr keeps_range_expr keeps_path_expr keeps_enum_struct_lit_expr
  keeps_assoc_fn_call_expr keeps_let_statement keeps_assign_target keeps_assign_statement
  keeps_statement keeps_block_expr keeps_if_expr keeps_match_arm keeps_match_expr keeps_while_expr
  keeps_for_expr keeps_loop_expr keeps_return_expr keeps_comptime_block_expr
  keeps_comptime_unroll_for_expr keeps_checked_block_expr keeps_type_lit_expr keeps_anon_fn_expr
  keeps_function keeps_struct_decl keeps_enum_decl keeps_interface_decl keeps_derive_decl
  keeps_const_decl keeps_extern_fn keeps_link_extern_block keeps_item : laws.
Section SameTrees.
Context {S : Type}.
Lemma keeps_directives (l : list (Directive S)) : keeps (traverse (remap_directive Done)) l.
Proof.
  apply keeps_list with (PA := Directive_all (λ _, unit)); [|eauto with laws].
  apply list_all_forall. intros d. apply Directive_all_forall. exact (λ _, tt).
Qed.
#[local] Hint Resolve keeps_directives : laws.
Ltac tree_keeps := intros; unfold keeps; simpl; keeps_run.
Lemma keeps_trees :
  (∀ e : Expr S, keeps (remap_expr Done) e) ∧ (∀ t : TypeExpr S, keeps (remap_type_expr Done) t).
Proof.
  set (PE := keeps (remap_expr (S := S) Done)). set (PP := keeps (remap_pattern (S := S) Done)).
  set (PT := keeps (remap_type_expr (S := S) Done)).
  split.
  - apply (@Expr_mind S PE PP PT); subst PE PP PT; tree_keeps.
  - apply (@TypeExpr_mind S PE PP PT); subst PE PP PT; tree_keeps.
Qed.
Lemma keeps_ast (a : Ast S) : remap_ast Done a = Done a.
Proof.
  unfold remap_ast.
  assert (keeps (traverse (remap_item Done (remap_expr Done) (remap_type_expr Done))) (ast_items a)) as H.
  { apply keeps_list with (PA := λ _, unit); [by apply list_all_forall|].
    intros x _. apply keeps_item. apply Item_all_forall; [exact (λ _, tt)|apply keeps_trees|apply keeps_trees]. }
  rewrite H. by destruct a.
Qed.
End SameTrees.

Section Trees.
Context {S1 S2 S3 : Type} (f : S1 → outcome S2) (g : S2 → outcome S3) (h : S1 → outcome S3).
Context (Hsym : ∀ s, law f g h s).
#[local] Hint Resolve Hsym : laws.

Lemma law_directives l :
  law (traverse (remap_directive f)) (traverse (remap_directive g)) (traverse (remap_directive h)) l.
Proof.
  apply law_list with (PA := Directive_all (λ _, unit)); [|eauto with laws].
  apply list_all_forall. intros d. apply Directive_all_forall. exact (λ _, tt).
Qed.
#[local] Hint Resolve law_directives : laws.

Ltac tree_law := intros; intros ? Hy; simpl in Hy; law_split; simpl; law_run; law_finish.

Lemma law_trees :
  (∀ e, law (remap_expr f) (remap_expr g) (remap_expr h) e) ∧
  (∀ t, law (remap_type_expr f) (remap_type_expr g) (remap_type_expr h) t).
Proof.
  set (PE := law (remap_expr f) (remap_expr g) (remap_expr h)).
  set (PP := law (remap_pattern f) (remap_pattern g) (remap_pattern h)).
  set (PT := law (remap_type_expr f) (remap_type_expr g) (remap_type_expr h)).
  split.
  - apply (@Expr_mind S1 PE PP PT); subst PE PP PT; tree_law.
  - apply (@TypeExpr_mind S1 PE PP PT); subst PE PP PT; tree_law.
Qed.

(** Replacing the symbols of a tree twice is replacing them once. *)
Lemma law_ast a : law (remap_ast f) (remap_ast g) (remap_ast h) a.
Proof.
  intros b (items & Hitems & [= <-])%bind_Done. unfold remap_ast. simpl.
  destruct (law_list (remap_item f (remap_expr f) (remap_type_expr f))
              (remap_item g (remap_expr g) (remap_type_expr g))
              (remap_item h (remap_expr h) (remap_type_expr h)) (λ _, unit) (ast_items a))
    with items as (z & Hg & Hh); [by apply list_all_forall| |done|].
  - intros x _. apply law_item; [done|].
    apply Item_all_forall; [exact (λ _, tt)|apply law_trees|apply law_trees].
  - exists (MkAst (ast_module_doc a) z). rewrite Hg, Hh. done.
Qed.
End Trees.

(** ** The snapshot *)
Section Cache.
Context {I Spur : Type} `{!SpurKey Spur, !Interner I Spur, !InternerLaws I Spur}.
Implicit Types (i j : I) (s : Spur) (a b : Ast Spur).

#[local] Instance index_le_trans : Transitive index_le.
Proof. unfold index_le. intros x y z. lia. Qed.
#[local] Instance index_le_total : Total index_le.
Proof. unfold index_le. intros x y. lia. Qed.

Lemma seq_sorted (m n : nat) : StronglySorted Z.le (map Z.of_nat (seq m n)).
Proof.
  revert m. induction n as [|n IH]; intros m; simpl; constructor; [done|].
  apply list.Forall_forall. intros x (k & -> & Hk%elem_of_seq)%list_elem_of_fmap. lia.
Qed.
Lemma fst_sorted (l : list (Z * string)) : StronglySorted index_le l → StronglySorted Z.le (map fst l).
Proof.
  induction 1 as [|x l _ IH Hx]; simpl; constructor; [done|].
  apply list.Forall_forall. intros y (e & -> & He)%list_elem_of_fmap.
  by apply (proj1 (list.Forall_forall _ _) Hx).
Qed.

(** The keys of the sorted pairs count up from zero. *)
Lemma sorted_keys i :
  map fst (merge_sort index_le (map (λ e, (into_usize e.1, e.2)) (iter i))) =
  map Z.of_nat (seq 0 (length (iter i))).
Proof.
  apply (StronglySorted_unique Z.le).
  - apply fst_sorted, StronglySorted_merge_sort; apply _.
  - apply seq_sorted.
  - rewrite merge_sort_Permutation, map_map. apply iter_dense.
Qed.

(** [capture] succeeds and holds at every key the string it resolves to. *)
Lemma capture_strings i :
  ∃ strings, capture i = Done strings ∧
    ∀ s t, resolve i s = Done t → strings !! Z.to_nat (into_usize s) = Some t.
Proof.
  pose proof (sorted_keys i) as Hkeys. unfold capture.
  set (pairs := merge_sort index_le _) in *.
  assert (∀ n e, pairs !! n = Some e → e.1 = Z.of_nat n) as Hat.
  { intros n e He. assert (map fst pairs !! n = Some e.1) as H1 by by rewrite list_lookup_fmap, He.
    rewrite Hkeys, list_lookup_fmap in H1. apply fmap_Some in H1 as (m & (Hm & _)%lookup_seq & ->). lia. }
  exists (map snd pairs). split.
  - rewrite (proj2 (forallb_forall _ _)); [done|]. intros [n e] He%list_elem_of_In.
    apply elem_of_lookup_imap in He as (m & e' & [= -> ->] & He). simpl. apply Z.eqb_eq. by rewrite (Hat _ _ He).
  - intros s t Hs%resolve_iter.
    assert ((into_usize s, t) ∈ pairs) as (n & Hn)%list_elem_of_lookup.
    { unfold pairs. rewrite merge_sort_Permutation. apply list_elem_of_fmap. by exists (s, t). }
    pose proof (Hat _ _ Hn) as Hidx. simpl in Hidx. rewrite Hidx, Nat2Z.id, list_lookup_fmap, Hn. done.
Qed.

(** ** Loading *)
Lemma restore_into_spec strings j table j' :
  restore_into strings j = (table, j') →
  (∀ s t, resolve j s = Done t → resolve j' s = Done t) ∧
  Forall2 (λ t k, resolve j' k = Done t) strings table.
Proof.
  revert j table j'. induction strings as [|t strings IH]; intros j table j'; simpl.
  - intros [= <- <-]. split; [done|constructor].
  - pose proof (resolve_interned j t) as Ht. pose proof (resolve_keeps j t) as Hk.
    destruct (get_or_intern j t) as [k j1]. destruct (restore_into strings j1) as [table1 j2] eqn:E.
    intros [= <- <-]. destruct (IH _ _ _ E) as [Hkeep Hall]. simpl in *. split; [eauto|constructor; eauto].
Qed.

(** Trees merged before keep their text. *)
Lemma ast_text_keeps j j' a t :
  (∀ s t, resolve j s = Done t → resolve j' s = Done t) → ast_text j a = Done t → ast_text j' a = Done t.
Proof.
  intros Hkeep Ha.
  destruct (law_ast (resolve j) Done (resolve j) (λ s t H, ex_intro _ t (conj eq_refl H)) a t Ha) as (z & Hz & Ha').
  destruct (law_ast (resolve j) Done (resolve j') (λ s t H, ex_intro _ t (conj eq_refl (Hkeep s t H))) a t Ha)
    as (z' & Hz' & Ha''). unfold ast_text in *. congruence.
Qed.

(** What merging a captured file does to the text of its tree, and to the trees of the build. *)
Lemma merge_text i j a t strings table j' :
  capture i = Done strings → restore_into strings j = (table, j') → ast_text i a = Done t →
  ∃ b, remap_spurs table a = Done b ∧ ast_text j' b = Done t.
Proof.
  intros Hcap Hre Ha. destruct (capture_strings i) as (strings' & Hcap' & Hstr).
  assert (strings' = strings) as -> by congruence.
  destruct (restore_into_spec _ _ _ _ Hre) as [Hkeep Htab].
  assert (∀ s u, resolve i s = Done u → ∃ k, remap_spur table s = Done k ∧ resolve j' k = Done u) as Hsym.
  { intros s u Hs%Hstr. destruct (Forall2_lookup_l _ _ _ _ _ Htab Hs) as (k & Hk & Hr).
    exists k. split; [|done]. unfold remap_spur, AirPattern.index. by rewrite Hk. }
  pose (known s := _ ← resolve i s; remap_spur table s).
  pose (again u := Done (get_or_intern j' u).1).
  destruct (law_ast (resolve i) again (remap_spur table)) with a t as (b & Hg & Hb); [|done|].
  { intros s u Hs. destruct (Hsym s u Hs) as (k & Hk & Hu). exists k. unfold again.
    by rewrite (intern_again _ _ _ Hu). }
  destruct (law_ast (resolve i) again known) with a t as (b' & Hg' & Hb'); [|done|].
  { intros s u Hs. destruct (Hsym s u Hs) as (k & Hk & Hu). exists k. unfold again, known.
    by rewrite (intern_again _ _ _ Hu), Hs. }
  assert (b' = b) as -> by congruence.
  destruct (law_ast known (resolve j') (resolve i)) with a b as (t' & Ht & Ha'); [|done|].
  { intros s k (u & Hs & Hk)%bind_Done. destruct (Hsym s u Hs) as (k' & Hk' & Hu). exists u.
    split; [congruence|done]. }
  exists b. unfold ast_text in *. split; [done|congruence].
Qed.

(** The symbol of [i] for the text a symbol of [j] stands for. *)
Definition back (j i : I) (k : Spur) : outcome Spur := u ← resolve j k; Done (get_or_intern i u).1.

(** Trees of one text: renumbering one back gives exactly the other. *)
Lemma text_back i j a b t : ast_text i a = Done t → ast_text j b = Done t → remap_ast (back j i) b = Done a.
Proof.
  intros Ha Hb. pose (g u := Done (get_or_intern i u).1).
  destruct (law_ast (resolve j) g (back j i)) with b t as (z & Hz & Hback); [|done|].
  { intros k u Hk. eexists. split; [done|]. unfold back. by rewrite Hk. }
  destruct (law_ast (resolve i) g Done) with a t as (z' & Hz' & Hid); [|done|].
  { intros s u Hs. exists s. unfold g. by rewrite (intern_again _ _ _ Hs). }
  rewrite keeps_ast in Hid. congruence.
Qed.
End Cache.
