(* ===== verification/CacheStore.v ===== *)
(** * The on-disk cache store

    Models [crates/gruel-cache/src/store.rs] and the keys of
    [crates/gruel-cache/src/fingerprint.rs]. The file system is a set of directories and a map
    from paths to contents, with the calls of [std::fs] the store makes; a path is the list of
    its components and contents are byte strings. [put] is kept as the sequence of calls it
    makes, so that a process stopped between two of them is a prefix of the sequence. Blocked
    or failing devices are not part of this file system: its only error is a missing file or
    directory. *)

From Stdlib Require Import Ascii.
From stdpp Require Import gmap strings pretty.
From S2P Require Import Prelude.

#[local] Open Scope Z_scope.
#[local] Arguments String.append !_ _ : simpl nomatch.

(** ** Keys *)
#[export] Instance byte_eq_dec : EqDecision Byte.byte := Byte.byte_eq_dec.
Definition CacheKey : Type := list Byte.byte.
#[export] Instance CacheKey_eq_dec : EqDecision CacheKey := list.list_eq_dec.

Definition hex_digit (n : N) : ascii :=
  ascii_of_N (if decide (n < 10)%N then 48 + n else 87 + n).
(** [format!("{:02x}", byte)] and [CacheKey::hex]. *)
Definition hex_byte (b : Byte.byte) : string :=
  let n := Byte.to_N b in String (hex_digit (n / 16)) (String (hex_digit (n mod 16)) EmptyString).
Fixpoint hex (key : CacheKey) : string :=
  match key with [] => EmptyString | b :: key => hex_byte b +:+ hex key end.

(** ** The file system *)
Definition Path : Type := list string.
Record Fs : Type := MkFs { dirs : gset Path; files : gmap Path string }.
Inductive IoError : Set := NotFound.
Notation IoResult A := (IoError + A)%type.

(** [Path::parent], of the paths the store builds. *)
Definition parent (p : Path) : Path := removelast p.
Definition fs_exists (fs : Fs) (p : Path) : bool :=
  bool_decide (p ∈ dirs fs) || bool_decide (is_Some (files fs !! p)).
(** [File::open] and [read_to_end]. *)
Definition fs_read (p : Path) (fs : Fs) : IoResult string :=
  match files fs !! p with Some s => inr s | None => inl NotFound end.
(** [create_dir_all]: the directory and those above it. *)
Fixpoint prefixes (p : Path) : list Path :=
  match p with [] => [[]] | x :: p => [] :: map (cons x) (prefixes p) end.
Definition create_dir_all (p : Path) (fs : Fs) : Fs := MkFs (list_to_set (prefixes p) ∪ dirs fs) (files fs).
(** [remove_dir_all]. *)
Definition under (p q : Path) : Prop := take (length p) q = p.
#[export] Instance under_dec p q : Decision (under p q).
Proof. unfold under. apply _. Defined.
Definition remove_dir_all (p : Path) (fs : Fs) : IoResult Fs :=
  if decide (p ∈ dirs fs)
  then inr (MkFs (filter (λ q, ¬ under p q) (dirs fs)) (filter (λ e, ¬ under p e.1) (files fs)))
  else inl NotFound.

(** The calls that write a file, one at a time. *)
Inductive FsCall : Type :=
  | Create (p : Path)
  | Append (p : Path) (chunk : string)
  | SyncAll (p : Path)
  | Rename (p q : Path).
Definition fs_call (c : FsCall) (fs : Fs) : IoResult Fs :=
  match c with
  | Create p =>
      if decide (parent p ∈ dirs fs) then inr (MkFs (dirs fs) (<[p := EmptyString]> (files fs))) else inl NotFound
  | Append p chunk =>
      match files fs !! p with
      | Some s => inr (MkFs (dirs fs) (<[p := s +:+ chunk]> (files fs)))
      | None => inl NotFound
      end
  | SyncAll p => match files fs !! p with Some _ => inr fs | None => inl NotFound end
  | Rename p q =>
      match files fs !! p with
      | Some s =>
          if decide (parent q ∈ dirs fs) then inr (MkFs (dirs fs) (<[q := s]> (delete p (files fs)))) else inl NotFound
      | None => inl NotFound
      end
  end.
Fixpoint fs_calls (cs : list FsCall) (fs : Fs) : IoResult Fs :=
  match cs with
  | [] => inr fs
  | c :: cs => match fs_call c fs with inl e => inl e | inr fs => fs_calls cs fs end
  end.

(** ** Versions: [s.trim().parse::<u32>()] *)
(** The white space of Unicode, in UTF-8. *)
Definition white_space : list (list N) :=
  map (λ n, [n]) [9; 10; 11; 12; 13; 32]%N ++ [[194; 133]; [194; 160]; [225; 154; 128]]%N ++
  map (λ n, [226; 128; n])%N [128; 129; 130; 131; 132; 133; 134; 135; 136; 137; 138; 168; 169; 175]%N ++
  [[226; 129; 159]; [227; 128; 128]]%N.
Fixpoint strip (w l : list N) : option (list N) :=
  match w, l with
  | [], _ => Some l
  | x :: w, y :: l => if decide (x = y) then strip w l else None
  | _ :: _, [] => None
  end.
Fixpoint trim_with (ws : list (list N)) (fuel : nat) (l : list N) : list N :=
  match fuel with
  | O => l
  | S fuel =>
      match foldr (λ w r, match strip w l with Some l' => Some l' | None => r end) None ws with
      | Some l' => trim_with ws fuel l'
      | None => l
      end
  end.
Definition trim (l : list N) : list N :=
  let l := trim_with white_space (length l) l in
  rev (trim_with (map (@rev N) white_space) (length l) (rev l)).
Fixpoint digits_u32 (acc : Z) (l : list N) : option Z :=
  match l with
  | [] => Some acc
  | d :: l =>
      if decide (48 ≤ d ∧ d ≤ 57)%N then
        let acc := acc * 10 + (Z.of_N d - 48) in
        if decide (acc < 2 ^ 32) then digits_u32 acc l else None
      else None
  end.
Definition parse_u32 (l : list N) : option Z :=
  match l with
  | [] => None
  | 43%N :: [] => None
  | 43%N :: l => digits_u32 0 l
  | l => digits_u32 0 l
  end.
Definition stored_version (s : string) : option Z :=
  parse_u32 (trim (map N_of_ascii (String.list_ascii_of_string s))).

Definition CACHE_SCHEMA_VERSION : Z := 2.

(** ** The store *)
Inductive CacheKind : Set := Parse | AirKind | LlvmIr.
#[export] Instance CacheKind_eq_dec : EqDecision CacheKind.
Proof. solve_decision. Defined.
Definition dir_name (k : CacheKind) : string :=
  match k with Parse => "parse" | AirKind => "air" | LlvmIr => "llvm-ir" end.
Definition extension (k : CacheKind) : string :=
  match k with Parse | AirKind => "bin" | LlvmIr => "bc" end.
Definition all_kinds : list CacheKind := [Parse; AirKind; LlvmIr].

Section Store.
(** The root of the store and the id of the process. *)
Context (root : Path) (pid : N).

Definition kind_dir (k : CacheKind) : Path := (root ++ [dir_name k])%list.
Definition entry_path (k : CacheKind) (key : CacheKey) : Path :=
  (kind_dir k ++ [hex key +:+ "." +:+ extension k])%list.
Definition version_path : Path := (root ++ ["version"])%list.
(** [tmp_path], at the value [n] of the process-wide counter. *)
Definition tmp_path (n : N) (key : CacheKey) (ext : string) : Path :=
  (root ++ ["tmp"; pretty pid +:+ "-" +:+ pretty n +:+ "-" +:+ hex key +:+ "." +:+ ext +:+ ".tmp"])%list.

(** [CacheStore::get]. *)
Definition get (k : CacheKind) (key : CacheKey) (fs : Fs) : IoResult (option string) :=
  match fs_read (entry_path k key) fs with
  | inr buf => inr (Some buf)
  | inl NotFound => inr None
  end.

(** [CacheStore::put]: the calls it makes, the data written in some chunks. *)
Definition put_calls (n : N) (k : CacheKind) (key : CacheKey) (chunks : list string) : list FsCall :=
  let tmp := tmp_path n key (extension k) in
  [Create tmp] ++ map (Append tmp) chunks ++ [SyncAll tmp; Rename tmp (entry_path k key)].
Definition put (n : N) (k : CacheKind) (key : CacheKey) (data : string) (fs : Fs) : IoResult Fs :=
  fs_calls (put_calls n k key [data]) fs.

(** [CacheStore::ensure_layout]. A version file that is not UTF-8 is wiped like one whose
    text is no number. *)
Definition wipe_mismatch (fs : Fs) : IoResult Fs :=
  if fs_exists fs root && fs_exists fs version_path then
    match fs_read version_path fs with
    | inr s => if decide (stored_version s = Some CACHE_SCHEMA_VERSION) then inr fs else remove_dir_all root fs
    | inl _ => remove_dir_all root fs
    end
  else inr fs.
Definition ensure_layout (fs : Fs) : IoResult Fs :=
  match wipe_mismatch fs with
  | inl e => inl e
  | inr fs =>
      let fs := foldl (λ fs k, create_dir_all (kind_dir k) fs) fs all_kinds in
      let fs := create_dir_all (root ++ ["tmp"])%list fs in
      if fs_exists fs version_path then inr fs
      else fs_calls [Create version_path; Append version_path (pretty CACHE_SCHEMA_VERSION)] fs
  end.
(** [CacheStore::open] and [CacheStore::clean]. *)
Definition open : Fs → IoResult Fs := ensure_layout.
Definition clean (fs : Fs) : IoResult Fs :=
  if fs_exists fs root then
    match remove_dir_all root fs with inl e => inl e | inr fs => ensure_layout fs end
  else inr fs.

(** [CacheStore::stats]: entries and bytes per kind. *)
Definition kind_stats (fs : Fs) (k : CacheKind) : nat * Z :=
  let entries := filter (λ e, parent e.1 = kind_dir k ∧ e.1 ≠ []) (map_to_list (files fs)) in
  (length entries, foldr (λ e n, Z.of_nat (String.length e.2) + n) 0 entries).
Definition stats (fs : Fs) : list (CacheKind * (nat * Z)) := map (λ k, (k, kind_stats fs k)) all_kinds.
End Store.
