(* ===== verification/CacheStoreThm.v ===== *)
(** * The cache store is a map that survives being stopped

    The operations of [CacheStore] against a map from kinds and keys to contents: any sequence
    of reopening, writing, cleaning and writes stopped part-way succeeds on an open store, and
    reading back gives what the map says, a write that was stopped before its last call
    leaving every entry as it was. *)

From Stdlib Require Import Ascii.
From stdpp Require Import gmap strings pretty.
From S2P Require Import Prelude CacheStore.

#[local] Open Scope Z_scope.

(** ** File names *)
Definition unhex_digit (c : ascii) : N := let n := N_of_ascii c in if decide (n < 58)%N then n - 48 else n - 87.
Definition unhex_byte (s : string) : option Byte.byte :=
  match s with
  | String c1 (String c2 EmptyString) => Byte.of_N (16 * unhex_digit c1 + unhex_digit c2)
  | _ => None
  end.
Lemma unhex_hex b : unhex_byte (hex_byte b) = Some b.
Proof. destruct b; vm_compute; reflexivity. Qed.

(** Distinct keys have distinct file names. *)
Lemma hex_inj k1 k2 s1 s2 : hex k1 +:+ String "." s1 = hex k2 +:+ String "." s2 → k1 = k2.
Proof.
  revert k2. induction k1 as [|b1 k1 IH]; intros [|b2 k2]; [done| | |].
  - destruct b2; discriminate.
  - destruct b1; discriminate.
  - intros H. assert (∃ c d, hex_byte b1 = String c (String d EmptyString)) as (c1 & d1 & E1) by by eexists _, _.
    assert (∃ c d, hex_byte b2 = String c (String d EmptyString)) as (c2 & d2 & E2) by by eexists _, _.
    simpl in H. rewrite E1, E2 in H. injection H as -> -> H. f_equal; [|by apply IH].
    assert (hex_byte b1 = hex_byte b2) as E by congruence. apply (f_equal unhex_byte) in E.
    rewrite !unhex_hex in E. congruence.
Qed.

Section Store.
Context (root : Path) (pid : N).

Lemma entry_path_inj k1 key1 k2 key2 :
  entry_path root k1 key1 = entry_path root k2 key2 → k1 = k2 ∧ key1 = key2.
Proof.
  unfold entry_path, kind_dir. rewrite <-!app_assoc. intros H%app_inv_head. injection H as Hd Hn.
  split; [by destruct k1, k2|]. by apply hex_inj in Hn.
Qed.
Lemma entry_not_tmp k key n key' ext : entry_path root k key ≠ tmp_path root pid n key' ext.
Proof.
  unfold entry_path, tmp_path, kind_dir. rewrite <-app_assoc. intros H%app_inv_head. by destruct k.
Qed.
Lemma version_not_deep x y : version_path root ≠ (root ++ [x; y])%list.
Proof. unfold version_path. intros H%app_inv_head. discriminate. Qed.
Lemma version_not_entry k key : version_path root ≠ entry_path root k key.
Proof. unfold entry_path, kind_dir. rewrite <-app_assoc. apply version_not_deep. Qed.
Lemma parent_snoc p x : parent (p ++ [x])%list = p.
Proof. apply removelast_last. Qed.
Lemma parent_two p x y : parent (p ++ [x; y])%list = (p ++ [x])%list.
Proof. change [x; y] with ([x] ++ [y])%list. rewrite app_assoc. apply parent_snoc. Qed.
Lemma prefixes_self p : p ∈ prefixes p.
Proof. induction p; simpl; [set_solver|]. right. apply list_elem_of_fmap. eauto. Qed.
Lemma prefixes_parent p x : p ∈ prefixes (p ++ [x])%list.
Proof. induction p; simpl; [set_solver|]. right. apply list_elem_of_fmap. eauto. Qed.
Lemma under_self p q : under p (p ++ q)%list.
Proof. unfold under. apply take_app_length. Qed.

(** ** The open store *)
Definition abs (fs : Fs) (k : CacheKind) (key : CacheKey) : option string := files fs !! entry_path root k key.
Definition store_inv (fs : Fs) : Prop :=
  (∀ k, kind_dir root k ∈ dirs fs) ∧ (root ++ ["tmp"])%list ∈ dirs fs ∧ root ∈ dirs fs ∧
  ∃ v, files fs !! version_path root = Some v ∧ stored_version v = Some CACHE_SCHEMA_VERSION.

Lemma get_abs fs k key : get root k key fs = inr (abs fs k key).
Proof. unfold get, fs_read, abs. by destruct (files fs !! _). Qed.

Lemma fs_calls_app cs1 cs2 fs :
  fs_calls (cs1 ++ cs2)%list fs = match fs_calls cs1 fs with inl e => inl e | inr fs => fs_calls cs2 fs end.
Proof. revert fs. induction cs1 as [|c cs1 IH]; intros fs; simpl; [done|]. by destruct (fs_call c fs). Qed.

(** Files other than [tmp] are left alone. *)
Definition same_but (tmp : Path) (fs fs' : Fs) : Prop :=
  dirs fs' = dirs fs ∧ ∀ p, p ≠ tmp → files fs' !! p = files fs !! p.

(** Writing the temporary file, in any number of calls. *)
Lemma write_tmp tmp chunks fs s m :
  files fs !! tmp = Some s →
  ∃ fs', fs_calls (take m (map (Append tmp) chunks ++ [SyncAll tmp])) fs = inr fs' ∧ same_but tmp fs fs' ∧
    is_Some (files fs' !! tmp) ∧
    ((length chunks < m)%nat → files fs' !! tmp = Some (foldl String.append s chunks)).
Proof.
  revert m fs s. induction chunks as [|c chunks IH]; intros [|m] fs s Hs.
  - exists fs. by repeat split; [|intros; lia].
  - exists fs. simpl. rewrite Hs. destruct m; by repeat split.
  - exists fs. by repeat split; [|intros; lia].
  - simpl. rewrite Hs.
    destruct (IH m (MkFs (dirs fs) (<[tmp := s +:+ c]> (files fs))) (s +:+ c)) as (fs' & -> & [Hd Hf] & Hsome & Hend);
      [apply lookup_insert_eq|].
    exists fs'. repeat split; [done| |done|intros; apply Hend; lia].
    intros q Hq. rewrite Hf by done. by apply lookup_insert_ne.
Qed.

Lemma put_calls_split n k key chunks :
  let tmp := tmp_path root pid n key (extension k) in
  put_calls root pid n k key chunks =
  (Create tmp :: (map (Append tmp) chunks ++ [SyncAll tmp]) ++ [Rename tmp (entry_path root k key)])%list.
Proof. unfold put_calls. by rewrite <-app_assoc. Qed.
Definition put_length (chunks : list string) : nat := 3 + length chunks.

(** A write stopped before its last call leaves every other file as it was. *)
Lemma put_stopped n k key chunks fs m :
  (root ++ ["tmp"])%list ∈ dirs fs → (m < put_length chunks)%nat →
  ∃ fs', fs_calls (take m (put_calls root pid n k key chunks)) fs = inr fs' ∧
    same_but (tmp_path root pid n key (extension k)) fs fs'.
Proof.
  intros Htmp Hm. rewrite put_calls_split. destruct m as [|m]; [by exists fs|].
  set (tmp := tmp_path root pid n key (extension k)). simpl.
  assert (parent tmp = (root ++ ["tmp"])%list) as -> by apply parent_two. rewrite decide_True by done.
  rewrite take_app_le by (rewrite length_app, length_map; unfold put_length in Hm; simpl; lia).
  destruct (write_tmp tmp chunks (MkFs (dirs fs) (<[tmp := EmptyString]> (files fs))) EmptyString m)
    as (fs' & -> & [Hd Hf] & _); [apply lookup_insert_eq|].
  exists fs'. repeat split; [done|]. intros q Hq. rewrite Hf by done. by apply lookup_insert_ne.
Qed.

(** A whole write. *)
Lemma put_whole n k key chunks fs :
  (root ++ ["tmp"])%list ∈ dirs fs → kind_dir root k ∈ dirs fs →
  ∃ fs', fs_calls (put_calls root pid n k key chunks) fs = inr fs' ∧ dirs fs' = dirs fs ∧
    files fs' !! entry_path root k key = Some (foldl String.append EmptyString chunks) ∧
    ∀ p, p ≠ entry_path root k key → p ≠ tmp_path root pid n key (extension k) → files fs' !! p = files fs !! p.
Proof.
  intros Htmp Hkind. rewrite put_calls_split. set (tmp := tmp_path root pid n key (extension k)). simpl.
  assert (parent tmp = (root ++ ["tmp"])%list) as -> by apply parent_two. rewrite decide_True by done.
  rewrite fs_calls_app.
  destruct (write_tmp tmp chunks (MkFs (dirs fs) (<[tmp := EmptyString]> (files fs))) EmptyString (S (length chunks)))
    as (fs' & Hw & [Hd Hf] & _ & Hend); [apply lookup_insert_eq|].
  rewrite take_ge in Hw by (rewrite length_app, length_map; simpl; lia). rewrite Hw. simpl.
  rewrite Hend by lia. rewrite decide_True by (unfold entry_path; by rewrite parent_snoc, Hd).
  eexists. split; [done|]. simpl. repeat split; [done|apply lookup_insert_eq|].
  intros q Hq Hq'. rewrite lookup_insert_ne, lookup_delete_ne, Hf by done. by apply lookup_insert_ne.
Qed.

(** ** Opening and cleaning *)
Definition openable (fs : Fs) : Prop := fs_exists fs (version_path root) = true → root ∈ dirs fs.
Definition version_ok (fs : Fs) : Prop :=
  fs_exists fs root = true ∧
  ∃ v, files fs !! version_path root = Some v ∧ stored_version v = Some CACHE_SCHEMA_VERSION.

Lemma exists_dir fs p : p ∈ dirs fs → fs_exists fs p = true.
Proof. intros Hp. apply orb_true_iff. left. by apply bool_decide_eq_true. Qed.
Lemma remove_entries p q fs fs' : remove_dir_all p fs = inr fs' → fs_exists fs' (p ++ q)%list = false.
Proof.
  unfold remove_dir_all. case_decide; [|done]. intros [= <-]. apply orb_false_iff. simpl.
  split; apply bool_decide_eq_false.
  - rewrite elem_of_filter. intros [[] _]. apply under_self.
  - intros [s (_ & [])%map_lookup_filter_Some]. apply under_self.
Qed.

Lemma prefixes_app p q : q ∈ prefixes p → ∃ r, p = (q ++ r)%list.
Proof.
  revert q. induction p as [|x p IH]; intros q; simpl.
  - intros ->%list_elem_of_singleton. by exists [].
  - intros [->|(q' & -> & Hq)%list_elem_of_fmap]%elem_of_cons; [by exists (x :: p)|].
    destruct (IH _ Hq) as [r ->]. by exists r.
Qed.
Lemma version_not_made x : x ≠ "version" → version_path root ∉ prefixes (root ++ [x])%list.
Proof.
  intros Hx [r Hr]%prefixes_app. unfold version_path in Hr. rewrite <-app_assoc in Hr.
  apply app_inv_head in Hr. simpl in Hr. by injection Hr as ->.
Qed.

(** What creating the directories keeps and adds. *)
Definition mkdirs (fs : Fs) : Fs :=
  create_dir_all (root ++ ["tmp"])%list (foldl (λ fs k, create_dir_all (kind_dir root k) fs) fs all_kinds).
Lemma mkdirs_layout fs :
  (∀ k, kind_dir root k ∈ dirs (mkdirs fs)) ∧ (root ++ ["tmp"])%list ∈ dirs (mkdirs fs) ∧ root ∈ dirs (mkdirs fs).
Proof.
  pose proof (prefixes_parent root "tmp"). pose proof (prefixes_self (root ++ ["tmp"])%list).
  split; [|simpl; rewrite !elem_of_union, !elem_of_list_to_set; auto].
  intros k. pose proof (prefixes_self (kind_dir root k)). simpl.
  rewrite !elem_of_union, !elem_of_list_to_set. destruct k; auto.
Qed.
Lemma mkdirs_version fs : fs_exists (mkdirs fs) (version_path root) = fs_exists fs (version_path root).
Proof.
  unfold fs_exists. f_equal. apply bool_decide_ext. simpl. rewrite !elem_of_union, !elem_of_list_to_set.
  pose proof (version_not_made "tmp"). pose proof (version_not_made "parse"). pose proof (version_not_made "air").
  pose proof (version_not_made "llvm-ir"). unfold kind_dir. simpl. naive_solver.
Qed.

(** The store after [ensure_layout], by what it found. *)
Lemma layout_fresh fs :
  fs_exists fs (version_path root) = false →
  ∃ fs', ensure_layout root fs = inr fs' ∧ store_inv fs' ∧ ∀ k key, abs fs' k key = abs fs k key.
Proof.
  intros Hv. unfold ensure_layout, wipe_mismatch. rewrite Hv, andb_false_r. fold (mkdirs fs).
  rewrite mkdirs_version, Hv. unfold fs_calls, fs_call. destruct (mkdirs_layout fs) as (Hk & Ht & Hr).
  rewrite decide_True by (unfold version_path; by rewrite parent_snoc). simpl. rewrite lookup_insert_eq.
  eexists. split; [done|]. split.
  - repeat split; [done..|]. eexists. split; [apply lookup_insert_eq|]. vm_compute. done.
  - intros k key. unfold abs. simpl. rewrite !lookup_insert_ne by apply version_not_entry. done.
Qed.
Lemma layout_current fs :
  version_ok fs →
  ∃ fs', ensure_layout root fs = inr fs' ∧ store_inv fs' ∧ ∀ k key, abs fs' k key = abs fs k key.
Proof.
  intros (Hr & v & Hv & Hs). unfold ensure_layout, wipe_mismatch.
  assert (fs_exists fs (version_path root) = true) as He.
  { unfold fs_exists. rewrite Hv. apply orb_true_r. }
  rewrite Hr, He. unfold fs_read. cbn [andb]. rewrite Hv, decide_True by done. fold (mkdirs fs).
  rewrite mkdirs_version, He. exists (mkdirs fs). repeat split; [apply mkdirs_layout..|]. eauto.
Qed.
Lemma clean_spec fs :
  root ∈ dirs fs → ∃ fs', clean root fs = inr fs' ∧ store_inv fs' ∧ ∀ k key, abs fs' k key = None.
Proof.
  intros Hr. unfold clean. rewrite exists_dir by done.
  destruct (remove_dir_all root fs) as [e|fs1] eqn:Hrm.
  - unfold remove_dir_all in Hrm. by rewrite decide_True in Hrm.
  - destruct (layout_fresh fs1) as (fs' & -> & Hinv & Habs); [by apply (remove_entries _ _ _ _ Hrm)|].
    exists fs'. split; [done|]. split; [done|]. intros k key. rewrite Habs.
    pose proof (remove_entries root [dir_name k; hex key +:+ "." +:+ extension k] _ _ Hrm) as Hno.
    apply orb_false_iff in Hno as [_ Hno%bool_decide_eq_false]. apply eq_None_not_Some.
    unfold abs, entry_path, kind_dir. by rewrite <-app_assoc.
Qed.
(** An older or unreadable version: opening is cleaning. *)
Lemma open_mismatch fs :
  root ∈ dirs fs → fs_exists fs (version_path root) = true →
  (∀ v, files fs !! version_path root = Some v → stored_version v ≠ Some CACHE_SCHEMA_VERSION) →
  open root fs = clean root fs.
Proof.
  intros Hr Hv Hno. unfold open, clean.
  pose proof (exists_dir _ _ Hr) as He.
  assert (wipe_mismatch root fs = remove_dir_all root fs) as Hw.
  { unfold wipe_mismatch, fs_read. rewrite He, Hv. simpl.
    destruct (files fs !! version_path root) as [v|]; [|done]. by rewrite decide_False by auto. }
  rewrite He. unfold ensure_layout at 1. rewrite Hw.
  destruct (remove_dir_all root fs) as [e|fs1] eqn:Hrm; [done|]. unfold ensure_layout, wipe_mismatch.
  by rewrite (remove_entries root ["version"] _ _ Hrm : fs_exists fs1 (version_path root) = false), andb_false_r.
Qed.

(** Opening gives a store in order; it keeps the entries, or drops them all. *)
Lemma open_spec fs :
  openable fs → ∃ fs', open root fs = inr fs' ∧ store_inv fs' ∧
    ((∀ k key, abs fs' k key = abs fs k key) ∨ (∀ k key, abs fs' k key = None)).
Proof.
  intros Hop. destruct (fs_exists fs (version_path root)) eqn:Hv.
  - specialize (Hop Hv).
    destruct (decide (stored_version <$> files fs !! version_path root = Some (Some CACHE_SCHEMA_VERSION)))
      as [(v & Hs & Hf)%fmap_Some|Hno].
    + destruct (layout_current fs) as (fs' & Ho & Hi & Ha); [|eauto].
      split; [by apply exists_dir|eauto].
    + rewrite open_mismatch by (try done; intros v Hf Hs; apply Hno; by rewrite Hf; simpl; rewrite Hs).
      destruct (clean_spec fs Hop) as (fs' & Ho & Hi & Ha). eauto.
  - destruct (layout_fresh fs Hv) as (fs' & Ho & Hi & Ha). eauto.
Qed.

(** ** Sequences of operations *)
Inductive Op : Type :=
  | Reopen
  | Clean
  | Put (n : N) (k : CacheKind) (key : CacheKey) (data : string)
  | PutStopped (n : N) (k : CacheKind) (key : CacheKey) (chunks : list string) (calls : nat).
Definition op_run (o : Op) (fs : Fs) : IoResult Fs :=
  match o with
  | Reopen => open root fs
  | Clean => clean root fs
  | Put n k key data => put root pid n k key data fs
  | PutStopped n k key chunks calls => fs_calls (take calls (put_calls root pid n k key chunks)) fs
  end.
Fixpoint ops_run (os : list Op) (fs : Fs) : IoResult Fs :=
  match os with
  | [] => inr fs
  | o :: os => match op_run o fs with inl e => inl e | inr fs => ops_run os fs end
  end.

(** The map: what each operation does to the entries. *)
Definition Entries : Type := CacheKind → CacheKey → option string.
Definition entry_set (k : CacheKind) (key : CacheKey) (data : string) (m : Entries) : Entries :=
  λ k' key', if decide (k' = k ∧ key' = key) then Some data else m k' key'.
Definition op_spec (o : Op) (m : Entries) : Entries :=
  match o with
  | Reopen => m
  | Clean => λ _ _, None
  | Put _ k key data => entry_set k key data m
  | PutStopped _ k key chunks calls =>
      if decide (calls < put_length chunks)%nat then m
      else entry_set k key (foldl String.append EmptyString chunks) m
  end.

Lemma put_abs n k key chunks fs :
  store_inv fs →
  ∃ fs', fs_calls (put_calls root pid n k key chunks) fs = inr fs' ∧ store_inv fs' ∧
    ∀ k' key', abs fs' k' key' = entry_set k key (foldl String.append EmptyString chunks) (abs fs) k' key'.
Proof.
  intros (Hk & Ht & Hr & v & Hv & Hs). destruct (put_whole n k key chunks fs) as (fs' & Hp & Hd & He & Hf); [done..|].
  exists fs'. split; [done|]. split.
  - unfold store_inv. rewrite Hd. repeat split; [done..|]. exists v. split; [|done].
    rewrite Hf; [done|apply version_not_entry|apply version_not_deep].
  - intros k' key'. unfold abs, entry_set. case_decide as Hd'; [by destruct Hd' as [-> ->]|].
    apply Hf; [|apply entry_not_tmp]. intros ?%entry_path_inj. auto.
Qed.
Lemma stopped_abs n k key chunks calls fs :
  store_inv fs → (calls < put_length chunks)%nat →
  ∃ fs', fs_calls (take calls (put_calls root pid n k key chunks)) fs = inr fs' ∧ store_inv fs' ∧
    ∀ k' key', abs fs' k' key' = abs fs k' key'.
Proof.
  intros (Hk & Ht & Hr & v & Hv & Hs) Hc.
  destruct (put_stopped n k key chunks fs calls) as (fs' & Hp & Hd & Hf); [done..|].
  exists fs'. split; [done|]. split.
  - unfold store_inv. rewrite Hd. repeat split; [done..|]. exists v. by rewrite Hf by apply version_not_deep.
  - intros k' key'. apply Hf, entry_not_tmp.
Qed.

Lemma op_refines o fs :
  store_inv fs → ∃ fs', op_run o fs = inr fs' ∧ store_inv fs' ∧ ∀ k key, abs fs' k key = op_spec o (abs fs) k key.
Proof.
  intros Hinv. destruct o as [| |n k key data|n k key chunks calls]; simpl.
  - destruct Hinv as (Hk & Ht & Hr & Hv). apply layout_current. split; [|done].
    by apply exists_dir.
  - apply clean_spec, Hinv.
  - by apply (put_abs n k key [data]).
  - case_decide; [by apply stopped_abs|]. rewrite take_ge; [by apply put_abs|].
    unfold put_calls, put_length in *. rewrite !length_app, length_map. simpl. lia.
Qed.
Definition ops_spec (os : list Op) (m : Entries) : Entries := foldl (λ m o, op_spec o m) m os.
Definition entries_eq (m1 m2 : Entries) : Prop := ∀ k key, m1 k key = m2 k key.
#[local] Instance op_spec_proper o : Proper (entries_eq ==> entries_eq) (op_spec o).
Proof.
  intros m1 m2 H k key. destruct o; simpl; [apply H|done| |case_decide; [apply H|]]; unfold entry_set; case_decide; auto.
Qed.
Lemma ops_spec_ext os m1 m2 : entries_eq m1 m2 → entries_eq (ops_spec os m1) (ops_spec os m2).
Proof.
  unfold ops_spec. revert m1 m2. induction os as [|o os IH]; intros m1 m2 H; simpl; [done|]. by apply IH, op_spec_proper.
Qed.

(** C31: On an open store any sequence of reopening, cleaning, writing and writes stopped
    after any number of their file-system calls succeeds, and reading any entry afterwards
    gives what a map would hold after the same sequence: a write that did not reach its
    rename changes no entry, one that did replaces exactly its own. *)
Theorem store_refines_map os fs0 :
  openable fs0 →
  ∃ fs fs', open root fs0 = inr fs ∧ ops_run os fs = inr fs' ∧
    ∀ k key, get root k key fs' = inr (ops_spec os (abs fs) k key).
Proof.
  intros Hop. destruct (open_spec fs0 Hop) as (fs & Ho & Hinv & _). exists fs.
  assert (∃ fs', ops_run os fs = inr fs' ∧ entries_eq (abs fs') (ops_spec os (abs fs))) as (fs' & Hr & He).
  { clear Ho. revert fs Hinv. induction os as [|o os IH]; intros fs Hinv; simpl; [by exists fs|].
    destruct (op_refines o fs Hinv) as (fs1 & -> & Hinv1 & Ha). destruct (IH fs1 Hinv1) as (fs' & Hr & He).
    exists fs'. split; [done|]. intros k key. rewrite He. by apply ops_spec_ext. }
  exists fs'. repeat split; [done..|]. intros k key. by rewrite get_abs, He.
Qed.
End Store.

Lemma store_refines_map_witness :
  ∃ fs fs', open ["cache"] (MkFs {[ [] ]} ∅) = inr fs ∧
    ops_run ["cache"] 7%N
      [Put 0%N Parse [Byte.x0a] "first"; PutStopped 1%N Parse [Byte.x0a] ["se"; "cond"] 3; Reopen] fs = inr fs' ∧
    get ["cache"] Parse [Byte.x0a] fs' = inr (Some "first").
Proof.
  destruct (store_refines_map ["cache"] 7%N
    [Put 0%N Parse [Byte.x0a] "first"; PutStopped 1%N Parse [Byte.x0a] ["se"; "cond"] 3; Reopen] (MkFs {[ [] ]} ∅))
    as (fs & fs' & Ho & Hr & Hg); [vm_compute; discriminate|].
  exists fs, fs'. split; [done|]. split; [done|]. apply (Hg Parse [Byte.x0a]).
Defined.
