(* ===== verification/ParseCache.v ===== *)
(** * Parsing with a cache

    Models [crates/gruel-compiler/src/parse_cache.rs]: every source file is read from the cache
    or lexed and parsed into an interner of its own, and in both cases its interner snapshot
    is merged into the interner of the build and its tree renumbered. The lexer and the parser
    ([tokenize], [parse]), BLAKE3 and the byte format are parameters; the store is anything
    with the interface [ParseStore], whose reads and writes may fail. *)

From stdpp Require Import gmap strings.
From S2P Require Import Prelude Types AirPattern Air Ast Remap CacheStore.

#[local] Open Scope Z_scope.

(** What the parse cache asks of a store: a read may fail or miss, a write may not happen,
    and a read finds only what was written under its key. *)
Class ParseStore (C : Type) := {
  store_get : C → CacheKey → IoResult (option string);
  store_put : C → CacheKey → string → C;
}.
Class ParseStoreLaws (C : Type) `{!ParseStore C} : Prop := {
  store_put_sound (c : C) key data key' data' :
    store_get (store_put c key data) key' = inr (Some data') →
    (key' = key ∧ data' = data) ∨ store_get c key' = inr (Some data');
}.

(** The store on disk, with the counter of temporary names. *)
Section Disk.
Context (root : Path) (pid : N).
Definition disk_store : ParseStore (N * Fs) := {|
  store_get c key := get root Parse key c.2;
  store_put c key data :=
    (c.1 + 1, match put root pid c.1 Parse key data c.2 with inr fs => fs | inl _ => c.2 end)%N;
|}.
End Disk.

(** ** The pipeline *)
Record SourceFile : Type := MkSource { sf_path : string; sf_source : string; sf_file_id : Z }.
Record ParseCacheStats : Type := MkStats { hits : Z; misses : Z }.
Definition hit (s : ParseCacheStats) : ParseCacheStats := MkStats (hits s + 1) (misses s).
Definition miss (s : ParseCacheStats) : ParseCacheStats := MkStats (hits s) (misses s + 1).
Definition total (s : ParseCacheStats) : Z := hits s + misses s.
Definition default_stats : ParseCacheStats := MkStats 0 0.

Section Pipeline.
Context {I Spur C Tokens Features Errors : Type} `{!SpurKey Spur, !Interner I Spur, !ParseStore C}.
Context (new_interner : I).
Context (tokenize : string → Z → I → Errors + (Tokens * I)).
Context (parse : Features → string → Tokens → I → Errors + (Ast Spur * I)).
Context (blake3 : list Byte.byte → CacheKey).
Context (encode : CachedParseOutput Spur → option string) (decode : string → option (CachedParseOutput Spur)).
Context (preview_features : Features) (build_fp : CacheKey).

Record ParsedFile : Type := MkParsedFile {
  pf_path : string; pf_file_id : Z; pf_ast : Ast Spur; pf_interner : I }.

(** [parse_key]. *)
Definition parse_key (source_bytes : list Byte.byte) : CacheKey :=
  let file_fp := blake3 source_bytes in
  blake3 (build_fp ++ file_fp)%list.
Definition source_key (s : SourceFile) : CacheKey := parse_key (String.list_byte_of_string (sf_source s)).

(** The lexer and the parser of [parse_uncached], and the whole. *)
Definition lex_and_parse (s : SourceFile) : Errors + (Ast Spur * I) :=
  match tokenize (sf_source s) (sf_file_id s) new_interner with
  | inl e => inl e
  | inr (tokens, file_interner) => parse preview_features (sf_source s) tokens file_interner
  end.
Definition parse_uncached (s : SourceFile) : outcome (Errors + (Ast Spur * list string)) :=
  match lex_and_parse s with
  | inl e => mret (inl e)
  | inr (ast, file_interner) => snapshot ← capture file_interner; mret (inr (ast, snapshot))
  end.

(** The cache probe of one file: the store afterwards, and the tree with its snapshot. *)
Definition with_stats {A} (stats : ParseCacheStats) (r : Errors + A) : Errors + (A * ParseCacheStats) :=
  match r with inl e => inl e | inr a => inr (a, stats) end.
Definition probe (cache : C) (stats : ParseCacheStats) (s : SourceFile) :
    outcome (C * (Errors + (Ast Spur * list string * ParseCacheStats))) :=
  let key := source_key s in
  match store_get cache key with
  | inr (Some bytes) =>
      match decode bytes with
      | Some cached => mret (cache, inr (cpo_ast cached, cpo_interner cached, hit stats))
      | None => r ← parse_uncached s; mret (cache, with_stats (miss stats) r)
      end
  | inr None =>
      r ← parse_uncached s;
      match r with
      | inl e => mret (cache, inl e)
      | inr (ast, snap) =>
          let cache :=
            match encode (MkCached snap ast) with Some bytes => store_put cache key bytes | None => cache end in
          mret (cache, inr (ast, snap, miss stats))
      end
  | inl _ => r ← parse_uncached s; mret (cache, with_stats (miss stats) r)
  end.

(** The end of the loop body, the same for hits and misses: merge the snapshot and renumber. *)
Definition merge_file (build_interner : I) (s : SourceFile) (ast : Ast Spur) (snap : list string) :
    outcome (ParsedFile * I) :=
  let '(remap, build_interner) := restore_into snap build_interner in
  ast ← remap_spurs remap ast;
  mret (MkParsedFile (sf_path s) (sf_file_id s) ast new_interner, build_interner).

(** [parse_files_into]: the interner of the build and the store afterwards, and the files. *)
Fixpoint parse_loop (sources : list SourceFile) (build_interner : I) (cache : C) (stats : ParseCacheStats) :
    outcome (I * C * (Errors + (list ParsedFile * ParseCacheStats))) :=
  match sources with
  | [] => mret (build_interner, cache, inr ([], stats))
  | s :: sources =>
      '(cache, r) ← probe cache stats s;
      match r with
      | inl e => mret (build_interner, cache, inl e)
      | inr (ast, snap, stats) =>
          '(file, build_interner) ← merge_file build_interner s ast snap;
          '(build_interner, cache, r) ← parse_loop sources build_interner cache stats;
          mret (build_interner, cache,
                match r with inl e => inl e | inr (files, stats) => inr (file :: files, stats) end)
      end
  end.
Definition parse_files_into (build_interner : I) (sources : list SourceFile) (cache : C) :=
  parse_loop sources build_interner cache default_stats.

(** [parse_all_files_cached]. *)
Definition parse_all_files_cached (sources : list SourceFile) (cache : C) := parse_files_into new_interner sources cache.

(** The same pipeline with no cache, as the specification. *)
Fixpoint parse_plain (sources : list SourceFile) (build_interner : I) : outcome (I * (Errors + list ParsedFile)) :=
  match sources with
  | [] => mret (build_interner, inr [])
  | s :: sources =>
      r ← parse_uncached s;
      match r with
      | inl e => mret (build_interner, inl e)
      | inr (ast, snap) =>
          '(file, build_interner) ← merge_file build_interner s ast snap;
          '(build_interner, r) ← parse_plain sources build_interner;
          mret (build_interner, match r with inl e => inl e | inr files => inr (file :: files) end)
      end
  end.
End Pipeline.
#[global] Arguments ParsedFile : clear implicits.
