(* ===== verification/ParseCacheThm.v ===== *)
(** * The parse cache is transparent

    Running [parse_files_into] of [ParseCache] gives the files and the build interner the same
    pipeline gives with no cache, whatever of its entries the store still has and whichever
    reads and writes fail, as long as an entry is the parse of the file it is read for. The
    trees it returns have in the interner of the build the text they have in the interner of
    their own file. The key of a file does not hold its file id: a file with the content of
    another gets the tree of the other, spans included. *)

From Stdlib Require Import Ascii.
From stdpp Require Import gmap strings.
From S2P Require Import Prelude Types AirPattern Air Ast Remap RemapThm CacheStore CacheStoreThm ParseCache.

#[local] Open Scope Z_scope.

(** ** The store on disk has the interface *)
Section Disk.
Context (root : Path) (pid : N).
Lemma put_dirs n k key data fs fs' :
  put root pid n k key data fs = inr fs' → (root ++ ["tmp"])%list ∈ dirs fs ∧ kind_dir root k ∈ dirs fs.
Proof.
  unfold put, put_calls. cbn [app map fs_calls fs_call].
  replace (parent (tmp_path root pid n key (extension k))) with (root ++ ["tmp"])%list by (symmetry; apply parent_two).
  replace (parent (entry_path root k key)) with (kind_dir root k) by (symmetry; apply parent_snoc).
  case_decide as Ht; [|intros [=]]. repeat (simpl; rewrite lookup_insert_eq). simpl.
  case_decide; [done|intros [=]].
Qed.
Lemma disk_store_laws : @ParseStoreLaws (N * Fs) (disk_store root pid).
Proof.
  constructor. intros [n fs] key data key' data'. simpl.
  destruct (put root pid n Parse key data fs) as [e|fs'] eqn:Hp; [by right|].
  destruct (put_dirs _ _ _ _ _ _ Hp) as [Ht Hk].
  destruct (put_whole root pid n Parse key [data] fs Ht Hk) as (fs2 & Hp2 & _ & He & Hf).
  unfold put in Hp. assert (fs2 = fs') as -> by congruence. rewrite !get_abs. unfold abs.
  destruct (decide (key' = key)) as [->|Hne].
  - rewrite He. intros [= <-]. auto.
  - rewrite Hf; [auto| |apply entry_not_tmp]. intros [_ ?]%entry_path_inj. done.
Qed.
End Disk.

(** ** Transparency *)
Section Transparent.
Context {I Spur C Tokens Features Errors : Type}.
Context `{!SpurKey Spur, !Interner I Spur, !InternerLaws I Spur, !ParseStore C, !ParseStoreLaws C}.
Context (new_interner : I).
Context (tokenize : string → Z → I → Errors + (Tokens * I)).
Context (parse : Features → string → Tokens → I → Errors + (Ast Spur * I)).
Context (blake3 : list Byte.byte → CacheKey).
Context (encode : CachedParseOutput Spur → option string) (decode : string → option (CachedParseOutput Spur)).
Context (preview_features : Features) (build_fp : CacheKey).

Notation source_key := (source_key blake3 build_fp).
Notation parse_uncached := (parse_uncached new_interner tokenize parse preview_features).
Notation lex_and_parse := (lex_and_parse new_interner tokenize parse preview_features).
Notation probe := (probe new_interner tokenize parse blake3 encode decode preview_features build_fp).
Notation parse_loop := (parse_loop new_interner tokenize parse blake3 encode decode preview_features build_fp).
Notation parse_files_into :=
  (parse_files_into new_interner tokenize parse blake3 encode decode preview_features build_fp).
Notation parse_plain := (parse_plain new_interner tokenize parse preview_features).

(** The files that share the cache: their keys do not collide, and files of one content have
    one file id. *)
Definition codec_law : Prop := ∀ o bytes, encode o = Some bytes → decode bytes = Some o.
Definition keys_distinct (U : list SourceFile) : Prop :=
  ∀ s s', s ∈ U → s' ∈ U → source_key s = source_key s' → sf_source s = sf_source s'.
Definition ids_by_content (U : list SourceFile) : Prop :=
  ∀ s s', s ∈ U → s' ∈ U → sf_source s = sf_source s' → sf_file_id s = sf_file_id s'.
(** What the store holds for a file is the parse of the file. *)
Definition cache_sound (U : list SourceFile) (c : C) : Prop :=
  ∀ s bytes o, s ∈ U → store_get c (source_key s) = inr (Some bytes) → decode bytes = Some o →
    parse_uncached s = Done (inr (cpo_ast o, cpo_interner o)).

Context (U : list SourceFile).

Section Laws.
Context (Hcodec : codec_law) (Hkeys : keys_distinct U) (Hids : ids_by_content U).

Lemma put_keeps_sound c s ast snap bytes :
  cache_sound U c → s ∈ U → parse_uncached s = Done (inr (ast, snap)) →
  encode (MkCached snap ast) = Some bytes → cache_sound U (store_put c (source_key s) bytes).
Proof.
  intros Hc Hs Hp Henc s' bytes' o Hs' Hget Hdec.
  apply store_put_sound in Hget as [[Hkey ->]|Hget]; [|by eapply Hc].
  rewrite (Hcodec _ _ Henc) in Hdec. injection Hdec as <-. simpl.
  pose proof (Hkeys _ _ Hs' Hs Hkey) as Hsrc. pose proof (Hids _ _ Hs' Hs Hsrc) as Hid.
  unfold ParseCache.parse_uncached, ParseCache.lex_and_parse in *. by rewrite Hsrc, Hid.
Qed.

(** A probe parses the file, or answers as if it had. *)
Lemma probe_spec c stats s :
  cache_sound U c → s ∈ U →
  ∃ c' stats', cache_sound U c' ∧ total stats' = total stats + 1 ∧
    probe c stats s = r ← parse_uncached s; mret (c', with_stats stats' r).
Proof.
  intros Hc Hs. unfold ParseCache.probe.
  assert (total (miss stats) = total stats + 1) as Hm by (unfold total; simpl; lia).
  destruct (store_get c (source_key s)) as [e|[bytes|]] eqn:Hget; [by exists c, (miss stats)| |].
  - destruct (decode bytes) as [o|] eqn:Hdec; [|by exists c, (miss stats)].
    exists c, (hit stats). rewrite (Hc s bytes o) by done. simpl. split; [done|]. split; [unfold total; simpl; lia|done].
  - destruct (parse_uncached s) as [[e|[ast snap]]| |] eqn:Hp; simpl; [by exists c, (miss stats)| |by exists c, (miss stats)..].
    destruct (encode (MkCached snap ast)) as [bytes|] eqn:Henc; [|by exists c, (miss stats)].
    exists (store_put c (source_key s) bytes), (miss stats). split; [by eapply put_keeps_sound|done].
Qed.

Lemma loop_spec sources build c stats :
  cache_sound U c → (∀ s, s ∈ sources → s ∈ U) →
  ∃ c' stats', cache_sound U c' ∧ total stats' = total stats + Z.of_nat (length sources) ∧
    parse_loop sources build c stats = '(build, r) ← parse_plain sources build; mret (build, c', with_stats stats' r).
Proof.
  revert build c stats. induction sources as [|s sources IH]; intros build c stats Hc Hsub.
  - exists c, stats. split; [done|]. split; [simpl; lia|done].
  - destruct (probe_spec c stats s) as (c1 & stats1 & Hc1 & Ht1 & Hprobe); [done|apply Hsub; left|].
    cbn [ParseCache.parse_loop ParseCache.parse_plain]. rewrite Hprobe.
    assert (∃ st, total st = total stats + Z.of_nat (length (s :: sources))) as [st Hst].
    { eexists (MkStats _ 0). unfold total at 1. simpl. apply Z.add_0_r. }
    destruct (parse_uncached s) as [[e|[ast snap]]| |] eqn:Hp; simpl; [by exists c1, st| |by exists c1, st..].
    destruct (merge_file new_interner build s ast snap) as [[file build1]| |] eqn:Hm; simpl; [|by exists c1, st..].
    destruct (IH build1 c1 stats1) as (c2 & stats2 & Hc2 & Ht2 & Hloop); [done|intros; apply Hsub; by right|].
    exists c2, stats2. split; [done|]. split; [lia|]. rewrite Hloop.
    by destruct (parse_plain sources build1) as [[build2 [e|files]]| |].
Qed.

End Laws.

(** ** The text of the parsed files *)
Lemma merge_file_text i build s ast t snap :
  capture i = Done snap → ast_text i ast = Done t →
  ∃ file build', merge_file new_interner build s ast snap = Done (file, build') ∧
    ast_text build' (pf_ast file) = Done t ∧ (∀ k u, resolve build k = Done u → resolve build' k = Done u).
Proof.
  intros Hcap Ht. unfold merge_file. destruct (restore_into snap build) as [table build'] eqn:Hre.
  destruct (merge_text i build ast t snap table build' Hcap Hre Ht) as (b & Hb & Hbt). rewrite Hb. simpl.
  eexists _, _. split; [done|]. split; [done|]. by apply (restore_into_spec _ _ _ _ Hre).
Qed.

(** The tree of a source, over the texts of its own interner. *)
Definition source_text (s : SourceFile) (t : Ast string) : Prop :=
  ∃ ast i, lex_and_parse s = inr (ast, i) ∧ ast_text i ast = Done t.

Lemma plain_text sources ts build :
  Forall2 source_text sources ts →
  ∃ build' files, parse_plain sources build = Done (build', inr files) ∧
    Forall2 (λ file t, ast_text build' (pf_ast file) = Done t) files ts ∧
    (∀ k u, resolve build k = Done u → resolve build' k = Done u).
Proof.
  intros Hall. revert build. induction Hall as [|s t sources ts (ast & i & Hp & Ht) _ IH]; intros build.
  { by exists build, []. }
  destruct (capture_strings i) as (snap & Hcap & _).
  destruct (merge_file_text i build s ast t snap Hcap Ht) as (file & build1 & Hm & Hft & Hkeep1).
  destruct (IH build1) as (build2 & files & Hpl & Hfs & Hkeep2).
  exists build2, (file :: files). cbn [ParseCache.parse_plain]. unfold ParseCache.parse_uncached.
  rewrite Hp, Hcap. simpl. rewrite Hm. simpl. rewrite Hpl. split; [done|].
  split; [constructor; [by apply (ast_text_keeps build1)|done]|auto].
Qed.

Lemma trees_back sources ts build (files : list (ParsedFile I Spur)) :
  Forall2 source_text sources ts → Forall2 (λ file t, ast_text build (pf_ast file) = Done t) files ts →
  Forall2 (λ s file, ∃ ast i, lex_and_parse s = inr (ast, i) ∧ remap_ast (back build i) (pf_ast file) = Done ast)
    sources files.
Proof.
  intros Hs Hf. revert files Hf. induction Hs as [|s t sources ts (ast & i & Hp & Ht) _ IH]; intros files Hf;
    inversion Hf; subst; constructor; [|by apply IH].
  exists ast, i. split; [done|]. by apply (text_back i build ast _ t).
Qed.

(** C30: The cache changes nothing but speed. With a store whose entries for the files [U] are
    the parses of those files, keys that do not collide and one file id per content,
    [parse_files_into] returns the files, the build interner and the errors (panics included)
    of the pipeline with no cache, counts every file once as a hit or a miss, and leaves the
    store fit for the next build; reads and writes of the store may fail at any point. *)
Theorem cached_parse_is_transparent sources build c :
  codec_law → keys_distinct U → ids_by_content U → cache_sound U c → (∀ s, s ∈ sources → s ∈ U) →
  ∃ c' stats, cache_sound U c' ∧ total stats = Z.of_nat (length sources) ∧
    parse_files_into build sources c =
    '(build, r) ← parse_plain sources build; mret (build, c', with_stats stats r).
Proof. intros Hcodec Hkeys Hids Hc Hsub. by apply (loop_spec Hcodec Hkeys Hids sources build c default_stats). Qed.

End Transparent.

(** ** A concrete build *)
Module Example.
Section Interner.
#[local] Instance nat_spurs : SpurKey nat := {|
  into_usize := Z.of_nat; try_from_usize n := if decide (0 ≤ n) then Some (Z.to_nat n) else None |}.

(** An interner: distinct strings, numbered in the order they came. *)
Definition Strings : Type := dsig (λ l : list string, NoDup l).
Lemma fresh_NoDup (l : list string) t : NoDup l → t ∉ l → NoDup (l ++ [t]).
Proof. intros Hl Ht. apply list.NoDup_app. split; [done|]. split; [set_solver|apply NoDup_singleton]. Qed.
Definition intern (i : Strings) (t : string) : nat * Strings :=
  match decide (t ∈ `i) with
  | left _ => (default 0%nat (fst <$> list_find (.= t) (`i)), i)
  | right Ht => (length (`i), dexist (`i ++ [t])%list (fresh_NoDup _ _ (proj2_dsig i) Ht))
  end.
#[local] Instance strings_interner : Interner Strings nat := {|
  iter i := imap pair (`i);
  get_or_intern := intern;
  resolve i k := match `i !! k with Some t => Done t | None => Panic end;
|}.
Lemma find_at (l : list string) n t : NoDup l → l !! n = Some t → list_find (.= t) l = Some (n, t).
Proof.
  intros Hl Hn. apply list_find_Some. split; [done|]. split; [done|].
  intros m u Hm Hlt ->. pose proof (NoDup_lookup _ _ _ _ Hl Hn Hm). lia.
Qed.
Lemma intern_old i n t : `i !! n = Some t → intern i t = (n, i).
Proof.
  intros Hn. unfold intern. destruct (decide (t ∈ `i)) as [_|Ht].
  - rewrite (find_at _ n t (proj2_dsig i) Hn). done.
  - destruct Ht. by eapply list_elem_of_lookup_2.
Qed.
Lemma intern_new i t : t ∉ `i → (intern i t).1 = length (`i) ∧ proj1_sig (intern i t).2 = (`i ++ [t])%list.
Proof. intros Ht. unfold intern. destruct (decide (t ∈ `i)); done. Qed.
#[local] Instance strings_laws : InternerLaws Strings nat.
Proof.
  constructor; simpl.
  - intros [l Hl]. simpl. rewrite length_imap. apply reflexive_eq, list_eq. intros n. rewrite !list_lookup_fmap, list_lookup_imap.
    destruct (l !! n) as [t|] eqn:Hn; simpl.
    + apply lookup_lt_Some in Hn. rewrite lookup_seq_lt by done. done.
    + apply lookup_ge_None in Hn. rewrite lookup_seq_ge by done. done.
  - intros i k t. destruct (`i !! k) as [u|] eqn:Hk; [|done]. intros [= ->].
    apply elem_of_lookup_imap. by exists k, t.
  - intros i t. destruct (decide (t ∈ `i)) as [(n & Hn)%list_elem_of_lookup|Ht].
    + by rewrite (intern_old _ _ _ Hn); simpl; rewrite Hn.
    + destruct (intern_new i t Ht) as [-> ->]. rewrite lookup_app_r, Nat.sub_diag by lia. done.
  - intros i t u k. destruct (decide (t ∈ `i)) as [(n & Hn)%list_elem_of_lookup|Ht].
    + by rewrite (intern_old _ _ _ Hn).
    + destruct (intern_new i t Ht) as [_ ->]. destruct (`i !! k) as [v|] eqn:Hk; [|done].
      by rewrite lookup_app_l, Hk by by eapply lookup_lt_Some.
  - intros i k t. destruct (`i !! k) as [u|] eqn:Hk; [|done]. intros [= ->]. by apply intern_old.
Qed.

(** A lexer and parser whose tree is one declaration, named by the whole source. *)
Definition span_in (file_id : Z) : Span := MkSpan file_id 0 1.
Definition tree (file_id : Z) : Ast nat :=
  MkAst None [ItemDerive (MkDeriveDecl None (MkIdent 0%nat (span_in file_id)) [] (span_in file_id))].
Definition tokenize (source : string) (file_id : Z) (i : Strings) : () + (Z * Strings) :=
  inr (file_id, (intern i source).2).
Definition parse (_ : ()) (source : string) (tokens : Z) (i : Strings) : () + (Ast nat * Strings) :=
  inr (tree tokens, i).
(** A byte format for the trees of the files 1 and 2. *)
Definition encode (o : CachedParseOutput nat) : option string :=
  match o with
  | MkCached [s] (MkAst None [ItemDerive (MkDeriveDecl None (MkIdent 0%nat (MkSpan f 0 1)) [] (MkSpan f' 0 1))]) =>
      if decide (f = 1 ∧ f' = 1) then Some (String "1" s)
      else if decide (f = 2 ∧ f' = 2) then Some (String "2" s) else None
  | _ => None
  end.
Definition decode (bytes : string) : option (CachedParseOutput nat) :=
  match bytes with
  | String "1" s => Some (MkCached [s] (tree 1))
  | String "2" s => Some (MkCached [s] (tree 2))
  | _ => None
  end.
Lemma codec : codec_law encode decode.
Proof. intros o bytes. unfold encode. repeat case_match; intros; destruct_and?; simplify_eq; done. Qed.

(** The build: an opened store on disk, two files, and BLAKE3 replaced by the identity. *)
#[local] Instance cache_dir : ParseStore (N * Fs) := disk_store ["cache"] 7%N.
#[local] Instance cache_dir_laws : ParseStoreLaws (N * Fs) := disk_store_laws ["cache"] 7%N.
Definition blake3 (bytes : list Byte.byte) : CacheKey := bytes.
Definition fresh_store : N * Fs :=
  (0%N, match open ["cache"] (MkFs {[ [] ]} ∅) with inr fs => fs | inl _ => MkFs ∅ ∅ end).
Definition a_gruel : SourceFile := MkSource "a.gruel" "fn a" 1.
Definition b_gruel : SourceFile := MkSource "b.gruel" "fn b" 2.
Definition copy_gruel : SourceFile := MkSource "copy.gruel" "fn a" 2.
Definition empty_interner : Strings := dexist [] (NoDup_nil_2 (A := string)).
Definition run := parse_files_into (C := N * Fs) empty_interner tokenize parse blake3 encode decode () [] empty_interner.

Definition file_ids (a : Ast nat) : list Z :=
  flat_map (λ it, match it with ItemDerive d => [sp_file_id (id_span (de_name d))] | _ => [] end) (ast_items a).
Definition spans_of (r : outcome (Strings * (N * Fs) * (() + (list (ParsedFile Strings nat) * ParseCacheStats)))) :
    option (list (Z * list Z) * ParseCacheStats) :=
  match r with
  | Done (_, _, inr (files, stats)) => Some (map (λ f, (pf_file_id f, file_ids (pf_ast f))) files, stats)
  | _ => None
  end.

(** The key of a file leaves out its file id: the second of two files with one content is a
    hit, and its tree points into the first. *)
Lemma copied_file_points_into_original :
  spans_of (run [a_gruel; copy_gruel] fresh_store) = Some ([(1, [1]); (2, [1])], MkStats 1 1).
Proof. vm_compute. reflexivity. Qed.

(** The laws hold of the two files, and the opened store has no entry for them. *)
Lemma example_keys : keys_distinct blake3 [] [a_gruel; b_gruel].
Proof.
  intros s s' Hs Hs' Hk. apply (f_equal String.string_of_list_byte) in Hk. unfold source_key, parse_key, blake3 in Hk.
  simpl in Hk. by rewrite !String.string_of_list_byte_of_string in Hk.
Qed.
Lemma example_ids : ids_by_content [a_gruel; b_gruel].
Proof. intros s s' Hs Hs' He. set_unfold. destruct Hs as [->|[->|[]]], Hs' as [->|[->|[]]]; done. Qed.
Lemma example_sound :
  cache_sound empty_interner tokenize parse blake3 decode () [] [a_gruel; b_gruel] fresh_store.
Proof.
  intros s bytes o Hs Hget. exfalso. revert Hget. set_unfold. destruct Hs as [->|[->|[]]]; vm_compute; discriminate.
Qed.

Lemma cached_parse_is_transparent_witness :
  ∃ c' stats, total stats = 2 ∧
    run [a_gruel; b_gruel] fresh_store =
    '(build, r) ← parse_plain empty_interner tokenize parse () [a_gruel; b_gruel] empty_interner;
    mret (build, c', with_stats stats r).
Proof.
  destruct (cached_parse_is_transparent empty_interner tokenize parse blake3 encode decode () []
    [a_gruel; b_gruel] [a_gruel; b_gruel] empty_interner fresh_store codec example_keys example_ids example_sound)
    as (c' & stats & _ & Ht & Hrun); [auto|]. exists c', stats. split; [exact Ht|exact Hrun].
Defined.
End Interner.
End Example.
