(* ===== verification/Intrinsics.v ===== *)
(** * The table of intrinsics

    Models [crates/gruel-intrinsics/src/lib.rs]: the intrinsics with their identities, and the
    methods of pointers and slices that stand for them. One definition per entry, with the
    fields the compiler reads; the texts of the reference page are left out. *)

From S2P Require Import Prelude.

(** ** Identities and kinds *)
Inductive IntrinsicId : Set :=
  | IdDbg | IdPanic | IdAssert | IdCompileError | IdCast | IdSizeOf | IdAlignOf | IdTypeName | IdTypeInfo
  | IdOwnership | IdThreadSafety | IdImplements | IdField | IdImport | IdEmbedFile | IdTargetArch | IdTargetOs
  | IdPtrRead | IdPtrWrite | IdPtrReadVolatile | IdPtrWriteVolatile | IdPtrOffset | IdPtrToInt | IdIntToPtr
  | IdNullPtr | IdIsNull | IdPtrCopy | IdRaw | IdRawMut | IdSyscall | IdRange | IdSliceLen | IdSliceIsEmpty
  | IdSliceIndexRead | IdSliceIndexWrite | IdSlicePtr | IdSlicePtrMut | IdPartsToSlice | IdPartsToMutSlice
  | IdVecLiteral | IdVecRepeat | IdPartsToVec | IdCStrToVec | IdPtrCast | IdUninit | IdFinalize | IdFieldSet
  | IdVariantUninit | IdVariantField | IdSpawn | IdThreadJoin | IdTestPreviewGate.
Inductive IntrinsicKind : Set := KindExpr | KindType | KindTypeInterface.
Inductive Category : Set :=
  | CatDebug | CatCast | CatIo | CatParse | CatRandom | CatComptime | CatPlatform | CatPointer | CatSyscall
  | CatIteration | CatSlice | CatVec | CatMeta.
(** [PreviewFeature] of [gruel-util]. *)
Inductive PreviewFeature : Set := TestInfra.
#[export] Instance IntrinsicId_eq : EqDecision IntrinsicId.
Proof. solve_decision. Defined.
#[export] Instance IntrinsicKind_eq : EqDecision IntrinsicKind.
Proof. solve_decision. Defined.
#[export] Instance Category_eq : EqDecision Category.
Proof. solve_decision. Defined.

(** [Category::heading], [RENDER_ORDER] and [render_index]. *)
Definition heading (c : Category) : string :=
  match c with
  | CatDebug => "Debug & Diagnostics"
  | CatCast => "Type Casts"
  | CatIo => "I/O"
  | CatParse => "String Parsing"
  | CatRandom => "Random Numbers"
  | CatComptime => "Compile-time Reflection"
  | CatPlatform => "Target Platform"
  | CatPointer => "Raw Pointers"
  | CatSyscall => "System Calls"
  | CatIteration => "Iteration"
  | CatSlice => "Slices"
  | CatVec => "Vectors"
  | CatMeta => "Preview / Meta"
  end.
Definition RENDER_ORDER : list Category :=
  [CatDebug; CatCast; CatIo; CatParse; CatRandom; CatComptime; CatPlatform; CatIteration; CatSlice; CatVec;
   CatPointer; CatSyscall; CatMeta].
Definition render_index (c : Category) : outcome nat := expect (fst <$> list_find (.= c) RENDER_ORDER).

Record IntrinsicDef : Type := MkIntrinsic {
  in_id : IntrinsicId; in_name : string; in_kind : IntrinsicKind; in_category : Category;
  requires_unchecked : bool; in_preview : option PreviewFeature; runtime_fn : option string }.

(** ** The entries *)
Definition intrinsic_dbg : IntrinsicDef :=
  MkIntrinsic IdDbg "dbg" KindExpr CatDebug false None None.
Definition intrinsic_panic : IntrinsicDef :=
  MkIntrinsic IdPanic "panic" KindExpr CatDebug false None None.
Definition intrinsic_assert : IntrinsicDef :=
  MkIntrinsic IdAssert "assert" KindExpr CatDebug false None None.
Definition intrinsic_compile_error : IntrinsicDef :=
  MkIntrinsic IdCompileError "compile_error" KindExpr CatComptime false None None.
Definition intrinsic_cast : IntrinsicDef :=
  MkIntrinsic IdCast "cast" KindExpr CatCast false None None.
Definition intrinsic_size_of : IntrinsicDef :=
  MkIntrinsic IdSizeOf "size_of" KindType CatComptime false None None.
Definition intrinsic_align_of : IntrinsicDef :=
  MkIntrinsic IdAlignOf "align_of" KindType CatComptime false None None.
Definition intrinsic_type_name : IntrinsicDef :=
  MkIntrinsic IdTypeName "type_name" KindType CatComptime false None None.
Definition intrinsic_type_info : IntrinsicDef :=
  MkIntrinsic IdTypeInfo "type_info" KindType CatComptime false None None.
Definition intrinsic_ownership : IntrinsicDef :=
  MkIntrinsic IdOwnership "ownership" KindType CatComptime false None None.
Definition intrinsic_thread_safety : IntrinsicDef :=
  MkIntrinsic IdThreadSafety "thread_safety" KindType CatComptime false None None.
Definition intrinsic_implements : IntrinsicDef :=
  MkIntrinsic IdImplements "implements" KindTypeInterface CatComptime false None None.
Definition intrinsic_field : IntrinsicDef :=
  MkIntrinsic IdField "field" KindExpr CatComptime false None None.
Definition intrinsic_import : IntrinsicDef :=
  MkIntrinsic IdImport "import" KindExpr CatComptime false None None.
Definition intrinsic_embed_file : IntrinsicDef :=
  MkIntrinsic IdEmbedFile "embed_file" KindExpr CatComptime false None None.
Definition intrinsic_target_arch : IntrinsicDef :=
  MkIntrinsic IdTargetArch "target_arch" KindExpr CatPlatform false None None.
Definition intrinsic_target_os : IntrinsicDef :=
  MkIntrinsic IdTargetOs "target_os" KindExpr CatPlatform false None None.
Definition intrinsic_ptr_read : IntrinsicDef :=
  MkIntrinsic IdPtrRead "ptr_read" KindExpr CatPointer true None None.
Definition intrinsic_ptr_write : IntrinsicDef :=
  MkIntrinsic IdPtrWrite "ptr_write" KindExpr CatPointer true None None.
Definition intrinsic_ptr_read_volatile : IntrinsicDef :=
  MkIntrinsic IdPtrReadVolatile "ptr_read_volatile" KindExpr CatPointer true None None.
Definition intrinsic_ptr_write_volatile : IntrinsicDef :=
  MkIntrinsic IdPtrWriteVolatile "ptr_write_volatile" KindExpr CatPointer true None None.
Definition intrinsic_ptr_offset : IntrinsicDef :=
  MkIntrinsic IdPtrOffset "ptr_offset" KindExpr CatPointer true None None.
Definition intrinsic_ptr_to_int : IntrinsicDef :=
  MkIntrinsic IdPtrToInt "ptr_to_int" KindExpr CatPointer true None None.
Definition intrinsic_int_to_ptr : IntrinsicDef :=
  MkIntrinsic IdIntToPtr "int_to_ptr" KindExpr CatPointer true None None.
Definition intrinsic_null_ptr : IntrinsicDef :=
  MkIntrinsic IdNullPtr "null_ptr" KindExpr CatPointer true None None.
Definition intrinsic_is_null : IntrinsicDef :=
  MkIntrinsic IdIsNull "is_null" KindExpr CatPointer true None None.
Definition intrinsic_ptr_copy : IntrinsicDef :=
  MkIntrinsic IdPtrCopy "ptr_copy" KindExpr CatPointer true None None.
Definition intrinsic_raw : IntrinsicDef :=
  MkIntrinsic IdRaw "raw" KindExpr CatPointer true None None.
Definition intrinsic_raw_mut : IntrinsicDef :=
  MkIntrinsic IdRawMut "raw_mut" KindExpr CatPointer true None None.
Definition intrinsic_syscall : IntrinsicDef :=
  MkIntrinsic IdSyscall "syscall" KindExpr CatSyscall true None None.
Definition intrinsic_range : IntrinsicDef :=
  MkIntrinsic IdRange "range" KindExpr CatIteration false None None.
Definition intrinsic_slice_len : IntrinsicDef :=
  MkIntrinsic IdSliceLen "slice_len" KindExpr CatSlice false None None.
Definition intrinsic_slice_is_empty : IntrinsicDef :=
  MkIntrinsic IdSliceIsEmpty "slice_is_empty" KindExpr CatSlice false None None.
Definition intrinsic_slice_index_read : IntrinsicDef :=
  MkIntrinsic IdSliceIndexRead "slice_index_read" KindExpr CatSlice false None None.
Definition intrinsic_slice_ptr : IntrinsicDef :=
  MkIntrinsic IdSlicePtr "slice_ptr" KindExpr CatSlice true None None.
Definition intrinsic_slice_ptr_mut : IntrinsicDef :=
  MkIntrinsic IdSlicePtrMut "slice_ptr_mut" KindExpr CatSlice true None None.
Definition intrinsic_parts_to_slice : IntrinsicDef :=
  MkIntrinsic IdPartsToSlice "parts_to_slice" KindExpr CatSlice true None None.
Definition intrinsic_parts_to_mut_slice : IntrinsicDef :=
  MkIntrinsic IdPartsToMutSlice "parts_to_mut_slice" KindExpr CatSlice true None None.
Definition intrinsic_slice_index_write : IntrinsicDef :=
  MkIntrinsic IdSliceIndexWrite "slice_index_write" KindExpr CatSlice false None None.
Definition intrinsic_vec : IntrinsicDef :=
  MkIntrinsic IdVecLiteral "vec" KindExpr CatVec false None None.
Definition intrinsic_vec_repeat : IntrinsicDef :=
  MkIntrinsic IdVecRepeat "vec_repeat" KindExpr CatVec false None None.
Definition intrinsic_parts_to_vec : IntrinsicDef :=
  MkIntrinsic IdPartsToVec "parts_to_vec" KindExpr CatVec true None None.
Definition intrinsic_test_preview_gate : IntrinsicDef :=
  MkIntrinsic IdTestPreviewGate "test_preview_gate" KindExpr CatMeta false (Some TestInfra) None.
Definition intrinsic_spawn : IntrinsicDef :=
  MkIntrinsic IdSpawn "spawn" KindExpr CatComptime false None (Some "__gruel_thread_spawn").
Definition intrinsic_thread_join : IntrinsicDef :=
  MkIntrinsic IdThreadJoin "thread_join" KindExpr CatComptime true None (Some "__gruel_thread_join").
Definition intrinsic_uninit : IntrinsicDef :=
  MkIntrinsic IdUninit "uninit" KindType CatComptime false None None.
Definition intrinsic_finalize : IntrinsicDef :=
  MkIntrinsic IdFinalize "finalize" KindExpr CatComptime false None None.
Definition intrinsic_field_set : IntrinsicDef :=
  MkIntrinsic IdFieldSet "field_set" KindExpr CatComptime false None None.
Definition intrinsic_variant_uninit : IntrinsicDef :=
  MkIntrinsic IdVariantUninit "variant_uninit" KindExpr CatComptime false None None.
Definition intrinsic_variant_field : IntrinsicDef :=
  MkIntrinsic IdVariantField "variant_field" KindExpr CatComptime false None None.
Definition intrinsic_cstr_to_vec : IntrinsicDef :=
  MkIntrinsic IdCStrToVec "cstr_to_vec" KindExpr CatMeta true None (Some "__gruel_cstr_to_vec").
Definition intrinsic_ptr_cast : IntrinsicDef :=
  MkIntrinsic IdPtrCast "ptr_cast" KindExpr CatPointer true None None.
Definition INTRINSICS : list IntrinsicDef :=
  [intrinsic_dbg; intrinsic_panic; intrinsic_assert; intrinsic_compile_error; intrinsic_cast; intrinsic_size_of;
   intrinsic_align_of; intrinsic_type_name; intrinsic_type_info; intrinsic_ownership; intrinsic_thread_safety;
   intrinsic_implements; intrinsic_field; intrinsic_import; intrinsic_embed_file; intrinsic_target_arch;
   intrinsic_target_os; intrinsic_ptr_read; intrinsic_ptr_write; intrinsic_ptr_read_volatile;
   intrinsic_ptr_write_volatile; intrinsic_ptr_offset; intrinsic_ptr_to_int; intrinsic_int_to_ptr;
   intrinsic_null_ptr; intrinsic_is_null; intrinsic_ptr_copy; intrinsic_raw; intrinsic_raw_mut; intrinsic_syscall;
   intrinsic_range; intrinsic_slice_len; intrinsic_slice_is_empty; intrinsic_slice_index_read; intrinsic_slice_ptr;
   intrinsic_slice_ptr_mut; intrinsic_parts_to_slice; intrinsic_parts_to_mut_slice; intrinsic_slice_index_write;
   intrinsic_vec; intrinsic_vec_repeat; intrinsic_parts_to_vec; intrinsic_test_preview_gate; intrinsic_spawn;
   intrinsic_thread_join; intrinsic_uninit; intrinsic_finalize; intrinsic_field_set; intrinsic_variant_uninit;
   intrinsic_variant_field; intrinsic_cstr_to_vec; intrinsic_ptr_cast].

(** ** Methods of pointers and slices *)
Inductive PointerKind : Set := OnPtr | OnMutPtr.
Inductive PointerOpForm : Set := FormMethod | FormAssocFn.
Inductive SliceKind : Set := OnSlice | OnMutSlice.
#[export] Instance PointerKind_eq : EqDecision PointerKind.
Proof. solve_decision. Defined.
#[export] Instance PointerOpForm_eq : EqDecision PointerOpForm.
Proof. solve_decision. Defined.
#[export] Instance SliceKind_eq : EqDecision SliceKind.
Proof. solve_decision. Defined.
Record PointerMethod : Type := MkPointerMethod {
  pt_kind : PointerKind; pt_name : string; pt_form : PointerOpForm; pt_intrinsic : IntrinsicId;
  pt_intrinsic_name : string; pt_is_unchecked : bool }.
Record SliceMethod : Type := MkSliceMethod {
  sm_kind : SliceKind; sm_name : string; sm_intrinsic : IntrinsicId; sm_intrinsic_name : string;
  sm_requires_checked : bool }.
Definition ptr_read : PointerMethod :=
  MkPointerMethod OnPtr "read" FormMethod IdPtrRead "ptr_read" true.
Definition ptr_read_volatile : PointerMethod :=
  MkPointerMethod OnPtr "read_volatile" FormMethod IdPtrReadVolatile "ptr_read_volatile" true.
Definition ptr_offset : PointerMethod :=
  MkPointerMethod OnPtr "offset" FormMethod IdPtrOffset "ptr_offset" true.
Definition ptr_is_null : PointerMethod :=
  MkPointerMethod OnPtr "is_null" FormMethod IdIsNull "is_null" false.
Definition ptr_to_int : PointerMethod :=
  MkPointerMethod OnPtr "to_int" FormMethod IdPtrToInt "ptr_to_int" false.
Definition ptr_from : PointerMethod :=
  MkPointerMethod OnPtr "from" FormAssocFn IdRaw "raw" false.
Definition ptr_null : PointerMethod :=
  MkPointerMethod OnPtr "null" FormAssocFn IdNullPtr "null_ptr" false.
Definition ptr_from_int : PointerMethod :=
  MkPointerMethod OnPtr "from_int" FormAssocFn IdIntToPtr "int_to_ptr" false.
Definition mut_ptr_read : PointerMethod :=
  MkPointerMethod OnMutPtr "read" FormMethod IdPtrRead "ptr_read" true.
Definition mut_ptr_read_volatile : PointerMethod :=
  MkPointerMethod OnMutPtr "read_volatile" FormMethod IdPtrReadVolatile "ptr_read_volatile" true.
Definition mut_ptr_write : PointerMethod :=
  MkPointerMethod OnMutPtr "write" FormMethod IdPtrWrite "ptr_write" true.
Definition mut_ptr_write_volatile : PointerMethod :=
  MkPointerMethod OnMutPtr "write_volatile" FormMethod IdPtrWriteVolatile "ptr_write_volatile" true.
Definition mut_ptr_offset : PointerMethod :=
  MkPointerMethod OnMutPtr "offset" FormMethod IdPtrOffset "ptr_offset" true.
Definition mut_ptr_is_null : PointerMethod :=
  MkPointerMethod OnMutPtr "is_null" FormMethod IdIsNull "is_null" false.
Definition mut_ptr_to_int : PointerMethod :=
  MkPointerMethod OnMutPtr "to_int" FormMethod IdPtrToInt "ptr_to_int" false.
Definition mut_ptr_copy_from : PointerMethod :=
  MkPointerMethod OnMutPtr "copy_from" FormMethod IdPtrCopy "ptr_copy" true.
Definition mut_ptr_from : PointerMethod :=
  MkPointerMethod OnMutPtr "from" FormAssocFn IdRawMut "raw_mut" false.
Definition mut_ptr_null : PointerMethod :=
  MkPointerMethod OnMutPtr "null" FormAssocFn IdNullPtr "null_ptr" false.
Definition mut_ptr_from_int : PointerMethod :=
  MkPointerMethod OnMutPtr "from_int" FormAssocFn IdIntToPtr "int_to_ptr" false.
Definition POINTER_METHODS : list PointerMethod :=
  [ptr_read; ptr_read_volatile; ptr_offset; ptr_is_null; ptr_to_int; ptr_from; ptr_null; ptr_from_int; mut_ptr_read;
   mut_ptr_read_volatile; mut_ptr_write; mut_ptr_write_volatile; mut_ptr_offset; mut_ptr_is_null; mut_ptr_to_int;
   mut_ptr_copy_from; mut_ptr_from; mut_ptr_null; mut_ptr_from_int].
Definition slice_len : SliceMethod :=
  MkSliceMethod OnSlice "len" IdSliceLen "slice_len" false.
Definition slice_is_empty : SliceMethod :=
  MkSliceMethod OnSlice "is_empty" IdSliceIsEmpty "slice_is_empty" false.
Definition slice_ptr : SliceMethod :=
  MkSliceMethod OnSlice "ptr" IdSlicePtr "slice_ptr" true.
Definition mut_slice_len : SliceMethod :=
  MkSliceMethod OnMutSlice "len" IdSliceLen "slice_len" false.
Definition mut_slice_is_empty : SliceMethod :=
  MkSliceMethod OnMutSlice "is_empty" IdSliceIsEmpty "slice_is_empty" false.
Definition mut_slice_ptr : SliceMethod :=
  MkSliceMethod OnMutSlice "ptr" IdSlicePtr "slice_ptr" true.
Definition mut_slice_ptr_mut : SliceMethod :=
  MkSliceMethod OnMutSlice "ptr_mut" IdSlicePtrMut "slice_ptr_mut" true.
Definition SLICE_METHODS : list SliceMethod :=
  [slice_len; slice_is_empty; slice_ptr; mut_slice_len; mut_slice_is_empty; mut_slice_ptr; mut_slice_ptr_mut].

(** ** Queries *)
Definition lookup_pointer_method (kind : PointerKind) (name : string) (form : PointerOpForm) : option PointerMethod :=
  snd <$> list_find (λ m, pt_kind m = kind ∧ pt_form m = form ∧ pt_name m = name) POINTER_METHODS.
Definition lookup_slice_method (kind : SliceKind) (name : string) : option SliceMethod :=
  snd <$> list_find (λ m, sm_kind m = kind ∧ sm_name m = name) SLICE_METHODS.
Definition lookup_by_name (name : string) : option IntrinsicDef := snd <$> list_find (λ d, in_name d = name) INTRINSICS.
Definition lookup_by_id (id : IntrinsicId) : outcome IntrinsicDef :=
  expect (snd <$> list_find (λ d, in_id d = id) INTRINSICS).
Definition by_category (cat : Category) : list IntrinsicDef := filter (λ d, in_category d = cat) INTRINSICS.
Definition is_type_intrinsic (name : string) : bool :=
  match lookup_by_name name with Some d => bool_decide (in_kind d = KindType) | None => false end.
(** The kind [gen_expr] asks for. *)
Definition intrinsic_kind (name : string) : option IntrinsicKind := in_kind <$> lookup_by_name name.

(** ** The table is consistent *)
(** Names find their entries, and every identity has one. *)
Lemma lookup_by_name_entries : Forall (λ d, lookup_by_name (in_name d) = Some d) INTRINSICS.
Proof. repeat (constructor; [vm_compute; reflexivity|]). constructor. Qed.
Lemma lookup_by_id_total id : ∃ d, lookup_by_id id = Done d ∧ in_id d = id ∧ lookup_by_name (in_name d) = Some d.
Proof. destruct id; (eexists; split; [vm_compute; reflexivity|split; vm_compute; reflexivity]). Qed.
(** A method names the entry of its identity, and is found by its own key. *)
Lemma pointer_methods_named : Forall (λ m, in_id <$> lookup_by_name (pt_intrinsic_name m) = Some (pt_intrinsic m) ∧
  lookup_pointer_method (pt_kind m) (pt_name m) (pt_form m) = Some m) POINTER_METHODS.
Proof. repeat (constructor; [split; vm_compute; reflexivity|]). constructor. Qed.
Lemma slice_methods_named : Forall (λ m, in_id <$> lookup_by_name (sm_intrinsic_name m) = Some (sm_intrinsic m) ∧
  lookup_slice_method (sm_kind m) (sm_name m) = Some m) SLICE_METHODS.
Proof. repeat (constructor; [split; vm_compute; reflexivity|]). constructor. Qed.
(** A method of a slice has the gate of its intrinsic; a method of a pointer has no gate its
    intrinsic does not have. *)
Lemma slice_gates_agree :
  Forall (λ m, requires_unchecked <$> lookup_by_name (sm_intrinsic_name m) = Some (sm_requires_checked m)) SLICE_METHODS.
Proof. repeat (constructor; [vm_compute; reflexivity|]). constructor. Qed.
Lemma pointer_gates_known : Forall (λ m, pt_is_unchecked m = true →
  requires_unchecked <$> lookup_by_name (pt_intrinsic_name m) = Some true) POINTER_METHODS.
Proof. repeat (constructor; [vm_compute; intros; done|]). constructor. Qed.
(** The reference page lists every category once, so every intrinsic. *)
Lemma render_index_total c : ∃ i, render_index c = Done i ∧ RENDER_ORDER !! i = Some c.
Proof. destruct c; (eexists; split; [vm_compute; reflexivity|reflexivity]). Qed.
Lemma is_type_intrinsic_kind name : is_type_intrinsic name = true ↔ intrinsic_kind name = Some KindType.
Proof.
  unfold is_type_intrinsic, intrinsic_kind. destruct (lookup_by_name name) as [d|]; simpl; [|done].
  rewrite bool_decide_eq_true. split; [by intros ->|by intros [= ->]].
Qed.
