(* ===== verification/AstGen.v ===== *)
(** * Generating the untyped representation from the syntax tree

    Models [crates/gruel-rir/src/astgen.rs]. The state is that of the struct [AstGen]: the
    interner, the output and the counter of synthetic names; a generator reads and changes it
    and returns references to instructions. Each arm of [gen_expr] is a definition of its own
    over the generators of the parts, and [gen_expr], [gen_match_arm_pattern] and
    [gen_type_lit] close the recursion. The vector [nested] that the pattern lowering passes
    around is never pushed to and is left out. The interner is the interface of [Remap]; the
    lookups in the table of intrinsics ([is_type_intrinsic], [intrinsic_kind], defined in
    [Intrinsics]) and the text the derived [Debug] gives an expression are parameters. *)

From stdpp Require Import pretty.
From S2P Require Import Prelude Types AirPattern Air ParamArena Ast Remap Rir RirStore Intrinsics.

#[local] Open Scope Z_scope.

(** [encode_self_receiver_kind]. *)
Definition encode_self_receiver_kind (kind : SelfReceiverKind) : Z :=
  match kind with SelfByValue => 0 | SelfMutRef => 1 | SelfRef => 2 end.

(** [ast_binop_to_ir]. *)
Definition ast_binop_to_ir (op : BinaryOp) : BinOp :=
  match op with
  | OpAdd => Add | OpSub => Sub | OpMul => Mul | OpDiv => Div | OpMod => Mod | OpEq => Eq | OpNe => Ne
  | OpLt => Lt | OpGt => Gt | OpLe => Le | OpGe => Ge | OpAnd => And | OpOr => Or | OpBitAnd => BitAnd
  | OpBitOr => BitOr | OpBitXor => BitXor | OpShl => Shl | OpShr => Shr
  end.

(** [convert_param_mode] and [convert_arg_mode]. *)
Definition convert_param_mode (mode : ParamMode) : RirParamMode :=
  match mode with ModeNormal => ParamNormal | ModeComptime => ParamComptime end.
Definition convert_arg_mode (mode : ArgMode) : RirArgMode := match mode with ArgNormal => RirNormal end.
Definition is_public (v : Visibility) : bool := match v with Public => true | Private => false end.

(** [impl Pattern { fn span }] of [ast.rs]. *)
Definition ast_pattern_span {S} (p : Pattern S) : Span :=
  match p with
  | PatWildcard span | PatIdent _ _ span | PatDataVariant _ _ _ _ span | PatStructVariant _ _ _ _ span
  | PatStruct _ _ span | PatTuple _ span | PatComptimeUnrollArm _ _ span => span
  | PatInt lit => il_span lit
  | PatNegInt lit => nl_span lit
  | PatBool lit => bo_span lit
  | PatPath path => pp_span path
  end.

(** [is_irrefutable_destructure]. *)
Fixpoint is_irrefutable_destructure {S} (p : Pattern S) : bool :=
  match p with
  | PatWildcard _ | PatIdent _ _ _ => true
  | PatInt _ | PatNegInt _ | PatBool _ | PatPath _ | PatDataVariant _ _ _ _ _ | PatStructVariant _ _ _ _ _ => false
  | PatStruct _ fields _ =>
      forallb (λ f, match fp_sub f with None => true | Some sub => is_irrefutable_destructure sub end) fields
  | PatTuple elems _ =>
      forallb (λ e, match e with ElemPattern p => is_irrefutable_destructure p | ElemRest _ => true end) elems
  | PatComptimeUnrollArm _ _ _ => false
  end.

Fixpoint join (sep : string) (l : list string) : string :=
  match l with
  | [] => EmptyString
  | [s] => s
  | s :: l => s +:+ sep +:+ join sep l
  end.

(** Running a generator over a list, with positions. *)
Definition each {S A B} (f : A → ST S B) : list A → ST S (list B) :=
  fix go l := match l with [] => mret [] | x :: l => y ← f x; ys ← go l; mret (y :: ys) end.
Definition each_i {S A B} (f : nat → A → ST S B) : nat → list A → ST S (list B) :=
  fix go i l := match l with [] => mret [] | x :: l => y ← f i x; ys ← go (Datatypes.S i) l; mret (y :: ys) end.
Definition each_opt {S A B} (f : A → ST S B) (o : option A) : ST S (option B) :=
  match o with None => mret None | Some x => y ← f x; mret (Some y) end.

Section AstGen.
Context {I Spur : Type} `{!SpurKey Spur, !Interner I Spur}.
Context (is_type_intrinsic : string → bool) (intrinsic_kind : string → option IntrinsicKind).
Context (debug_expr : Expr Spur → string).
Notation TypeExpr := (TypeExpr Spur).
Notation Expr := (Expr Spur).
Notation Pattern := (Pattern Spur).
Notation RirPattern := (RirPattern Spur).

(** ** The state *)
Record AstGen : Type := MkGen { ag_interner : I; ag_rir : Rir Spur; nested_pat_counter : Z }.
Notation Gen A := (ST AstGen A).

Definition intern (s : string) : Gen Spur := λ g,
  let '(k, i) := get_or_intern (ag_interner g) s in Done (k, MkGen i (ag_rir g) (nested_pat_counter g)).
Definition name_of (k : Spur) : Gen string := λ g, s ← resolve (ag_interner g) k; Done (s, g).
(** [self.rir.add_inst(Inst { data, span })]. *)
Definition emit (data : InstData Spur) (span : Span) : Gen InstRef := λ g,
  '(i, r) ← rir_add_inst (MkRirInst data span) (ag_rir g); Done (i, MkGen (ag_interner g) r (nested_pat_counter g)).
(** [self.rir.add_<payload>(&items)]. *)
Definition store (k : PayloadKind) (items : list (Item (Spur := Spur) k)) : Gen (Z * Z) := λ g,
  '(s, n, r) ← add_payload k items (ag_rir g); Done (s, n, MkGen (ag_interner g) r (nested_pat_counter g)).
Definition on_rir (f : Rir Spur → Rir Spur) : Gen () := λ g,
  Done ((), MkGen (ag_interner g) (f (ag_rir g)) (nested_pat_counter g)).
Definition here : Gen InstRef := λ g, Done (current_inst_index (ag_rir g), g).

(** [fresh_nested_pat_name]. *)
Definition fresh_nested_pat_name : Gen Spur := λ g,
  c ← checked_add 32 (nested_pat_counter g) 1;
  intern ("__nested_pat_" +:+ pretty (nested_pat_counter g)) (MkGen (ag_interner g) (ag_rir g) c).

(** ** Types *)
(** The pieces of the text of a type that name its parts. *)
Definition type_text (it : TypeExpr → Gen Spur) (t : TypeExpr) : Gen string := sym ← it t; name_of sym.
Definition field_text (it : TypeExpr → Gen Spur) (name : Ident Spur) (t : TypeExpr) : Gen string :=
  n ← name_of (id_name name); s ← type_text it t; mret (n +:+ ": " +:+ s).
Definition variant_text (it : TypeExpr → Gen Spur) (v : EnumVariant Spur TypeExpr) : Gen string :=
  n ← name_of (id_name (ev_name v));
  match ev_kind v with
  | VariantUnit => mret n
  | VariantTuple types => l ← each (type_text it) types; mret (n +:+ "(" +:+ join ", " l +:+ ")")
  | VariantStruct fields =>
      l ← each (λ f, field_text it (evf_name f) (evf_ty f)) fields; mret (n +:+ " { " +:+ join ", " l +:+ " }")
  end.

(** [intern_type]. *)
Fixpoint intern_type (ty : TypeExpr) : Gen Spur :=
  match ty with
  | TypeNamed ident => mret (id_name ident)
  | TypeUnit _ => intern "()"
  | TypeNever _ => intern "!"
  | TypeArray element length _ =>
      elem ← type_text intern_type element; intern ("[" +:+ elem +:+ "; " +:+ pretty length +:+ "]")
  | TypeAnonymousStruct _ _ fields _ _ =>
      l ← each (λ f, field_text intern_type (asf_name f) (asf_ty f)) fields;
      intern ("struct { " +:+ join ", " l +:+ " }")
  | TypeAnonymousEnum _ _ variants _ _ =>
      l ← each (variant_text intern_type) variants; intern ("enum { " +:+ join ", " l +:+ " }")
  | TypeTuple elems _ =>
      l ← each (type_text intern_type) elems;
      intern ("(" +:+ join ", " l +:+ (if decide (length elems = 1%nat) then "," else "") +:+ ")")
  | TypeAnonymousInterface methods _ =>
      l ← each (λ m, name_of (id_name (ms_name m))) methods; intern ("interface { " +:+ join ", " l +:+ " }")
  | TypeCall callee args _ =>
      c ← name_of (id_name callee); l ← each (type_text intern_type) args; intern (c +:+ "(" +:+ join ", " l +:+ ")")
  end.

(** [expr_as_type_name]. *)
Fixpoint expr_as_type_name (e : Expr) : Gen string :=
  match e with
  | ExprIdent ident => name_of (id_name ident)
  | ExprTypeLit lit => type_text intern_type (tl_type_expr lit)
  | ExprCall call =>
      c ← name_of (id_name (ce_name call));
      l ← each (λ a, expr_as_type_name (ca_expr a)) (ce_args call);
      mret (c +:+ "(" +:+ join ", " l +:+ ")")
  | other => mret ("<unsupported type-arg: " +:+ debug_expr other +:+ ">")
  end.

(** ** Declarations without bodies *)
(** [convert_directives]. *)
Definition convert_directives (directives : list (Directive Spur)) : list (RirDirective (Spur := Spur)) :=
  map (λ d, Rir.MkDirective (id_name (dir_name d))
              (map (λ a, match a with DirIdent i => id_name i | DirString s => sl_value s end) (dir_args d))
              (dir_span d)) directives.
Definition store_directives (directives : list (Directive Spur)) : Gen (Z * Z) :=
  store KDirectives (convert_directives directives).

Definition return_type_symbol (o : option TypeExpr) : Gen Spur :=
  match o with Some ty => intern_type ty | None => intern "()" end.
Definition convert_param (p : Param Spur TypeExpr) : Gen (RirParam (Spur := Spur)) :=
  ty ← intern_type (pm_ty p);
  mret (MkRirParam (id_name (pm_name p)) ty (convert_param_mode (pm_mode p)) (pm_is_comptime p)).
Definition store_params (params : list (Param Spur TypeExpr)) : Gen (Z * Z) :=
  l ← each convert_param params; store KParams l.

(** The closures of [gen_enum] and of the anonymous enums: a variant with its types and
    names. *)
Definition convert_variant (v : EnumVariant Spur TypeExpr) : Gen (VariantDecl (Spur := Spur)) :=
  let name := id_name (ev_name v) in
  match ev_kind v with
  | VariantUnit => mret (name, [], [])
  | VariantTuple types => tys ← each intern_type types; mret (name, tys, [])
  | VariantStruct fields =>
      tys ← each (λ f, intern_type (evf_ty f)) fields; mret (name, tys, map (λ f, id_name (evf_name f)) fields)
  end.

(** The closure of [gen_interface] and of the anonymous interfaces: one signature. *)
Definition gen_method_sig (sig : MethodSig Spur TypeExpr) : Gen InstRef :=
  return_type ← return_type_symbol (ms_return_type sig);
  '(params_start, params_len) ← store_params (ms_params sig);
  '(directives_start, directives_len) ← store_directives (ms_directives sig);
  emit (RInterfaceMethodSig (id_name (ms_name sig)) params_start params_len return_type
          (encode_self_receiver_kind (sp_kind (ms_receiver sig))) (ms_is_unchecked sig) directives_start directives_len)
       (ms_span sig).

(** [gen_interface]. *)
Definition gen_interface (iface : InterfaceDecl Spur TypeExpr) : Gen InstRef :=
  method_refs ← each gen_method_sig (if_methods iface);
  '(methods_start, methods_len) ← store KRefs method_refs;
  '(directives_start, directives_len) ← store_directives (if_directives iface);
  emit (RInterfaceDecl (is_public (if_visibility iface)) (id_name (if_name iface)) methods_start methods_len
          directives_start directives_len) (if_span iface).

(** [gen_link_extern]. *)
Definition convert_link_mode (m : Ast.LinkMode) : RirLinkMode :=
  match m with Ast.LinkDynamic => LinkDynamic | Ast.LinkStatic => LinkStatic end.
Definition gen_extern_fn (block : LinkExternBlock Spur TypeExpr) (item : ExternFn Spur TypeExpr) : Gen () :=
  '(directives_start, directives_len) ← store_directives (Ast.xf_directives item);
  '(params_start, params_len) ← store_params (Ast.xf_params item);
  return_type ← return_type_symbol (Ast.xf_return_type item);
  on_rir (add_extern_fn (Rir.MkExternFn (sl_value (lb_library block)) (id_name (Ast.xf_name item)) directives_start
    directives_len params_start params_len return_type (Ast.xf_span item) (lb_span block)
    (convert_link_mode (lb_link_mode block)))).
Definition gen_link_extern (block : LinkExternBlock Spur TypeExpr) : Gen () :=
  match lb_items block with
  | [] => on_rir (add_empty_link_extern_block (sl_value (lb_library block)) (convert_link_mode (lb_link_mode block))
                    (lb_span block))
  | items => _ ← each (gen_extern_fn block) items; mret ()
  end.

(** ** Destructuring [let]s *)
Definition rest_field (name : Spur) : RirDestructureField (Spur := Spur) := MkDestructure name None true false.
(** A child of a destructure: its synthetic name, the span of the pattern and its lowering
    from a reference to the value. *)
Notation Child := (Spur * Span * (InstRef → ST AstGen (list InstRef)))%type.

(** The field a sub-pattern gives the outer destructure, and the child it leaves; [rec] is
    the lowering of a sub-pattern. *)
Definition destructure_field (rec : Pattern → InstRef → Span → Gen (list InstRef)) (field_name : Spur)
    (shorthand : bool) (sub : Pattern) : Gen (RirDestructureField (Spur := Spur) * option Child) :=
  match sub with
  | PatWildcard _ => mret (MkDestructure field_name None true false, None)
  | PatIdent is_mut name _ => mret (MkDestructure field_name (Some (id_name name)) false (shorthand || is_mut), None)
  | PatStruct _ _ _ | PatTuple _ _ =>
      fresh ← fresh_nested_pat_name;
      mret (MkDestructure field_name (Some fresh) false false,
            Some (fresh, ast_pattern_span sub, λ v, rec sub v (ast_pattern_span sub)))
  | _ => lift_st Panic
  end.

(** The loop over the fields of a struct pattern, and over the elements of a tuple pattern:
    elements after [..] are named by their distance from the end. *)
Definition struct_destructure_field rec (fp : FieldPattern Spur Pattern) :
    Gen (RirDestructureField (Spur := Spur) * option Child) :=
  match fp_field_name fp with
  | None => dots ← intern ".."; mret (rest_field dots, None)
  | Some field_name =>
      match fp_sub fp with
      | None =>
          mret (MkDestructure (id_name field_name) (Some (id_name field_name)) false (fp_is_mut fp), None)
      | Some sub => destructure_field rec (id_name field_name) (fp_is_mut fp) sub
      end
  end.
Definition is_rest (e : TupleElemPattern Pattern) : bool := match e with ElemRest _ => true | ElemPattern _ => false end.
Fixpoint rest_position_from (i : nat) (elems : list (TupleElemPattern Pattern)) : option nat :=
  match elems with [] => None | e :: elems => if is_rest e then Some i else rest_position_from (S i) elems end.
Definition tuple_field_name (rest_pos : option nat) (len i : nat) : string :=
  match rest_pos with
  | Some rp => if decide (rp < i)%nat then "..end_" +:+ pretty (len - 1 - i)%nat else pretty i
  | None => pretty i
  end.
Definition tuple_destructure_field rec (rest_pos : option nat) (len i : nat) (elem : TupleElemPattern Pattern) :
    Gen (RirDestructureField (Spur := Spur) * option Child) :=
  match elem with
  | ElemRest _ => dots ← intern ".."; mret (rest_field dots, None)
  | ElemPattern sub => field_name ← intern (tuple_field_name rest_pos len i); destructure_field rec field_name false sub
  end.

(** The end of [emit_let_destructure_into]: the outer instruction, then the children. *)
Definition emit_child (c : Child) : Gen (list InstRef) :=
  let '(binding_name, span, go) := c in v ← emit (RVarRef binding_name) span; go v.
Definition emit_destructure (type_name : Spur) (fields : list (RirDestructureField (Spur := Spur) * option Child))
    (init : InstRef) (span : Span) : Gen (list InstRef) :=
  '(fields_start, fields_len) ← store KDestructure (map fst fields);
  outer ← emit (RStructDestructure type_name fields_start fields_len init) span;
  rest ← each emit_child (omap snd fields);
  mret (outer :: concat rest).

(** [emit_let_destructure_into]: the references it pushes. *)
Fixpoint emit_let_destructure_into (pattern : Pattern) (init : InstRef) (span : Span) : Gen (list InstRef) :=
  match pattern with
  | PatStruct type_name fields _ =>
      fs ← each (struct_destructure_field emit_let_destructure_into) fields;
      emit_destructure (id_name type_name) fs init span
  | PatTuple elems _ =>
      fs ← each_i (tuple_destructure_field emit_let_destructure_into (rest_position_from 0 elems) (length elems)) 0 elems;
      tuple_name ← intern "__tuple__";
      emit_destructure tuple_name fs init span
  | _ => lift_st Panic
  end.

(** ** Expressions, over the generators of their parts *)
Section Arms.
Context (gen_expr : Expr → Gen InstRef) (gen_pattern : Pattern → Gen RirPattern).

(** [convert_call_arg]. *)
Definition convert_call_arg (arg : CallArg Expr) : Gen RirCallArg :=
  value ← gen_expr (ca_expr arg); mret (MkRirArg value (convert_arg_mode (ca_mode arg))).

Definition gen_binary (bin : BinaryExpr Expr) : Gen InstRef :=
  lhs ← gen_expr (be_left bin);
  rhs ← gen_expr (be_right bin);
  emit (RBin (ast_binop_to_ir (be_op bin)) lhs rhs) (be_span bin).

(** With [&arr[range]] and [&mut arr[range]] as slices. *)
Definition gen_unary (un : UnaryExpr Expr) : Gen InstRef :=
  let plain :=
    operand ← gen_expr (ue_operand un);
    emit (match ue_op un with
          | OpNeg => RUnary Neg operand
          | OpNot => RUnary Not operand
          | OpBitNot => RUnary BitNot operand
          | OpRef => RMakeRef operand false
          | OpMutRef => RMakeRef operand true
          end) (ue_span un) in
  let slice index range is_mut :=
    base ← gen_expr (ix_base index);
    lo ← each_opt gen_expr (ra_lo range);
    hi ← each_opt gen_expr (ra_hi range);
    emit (RMakeSlice base lo hi is_mut) (ue_span un) in
  match ue_operand un with
  | ExprIndex index =>
      match ix_index index with
      | ExprRange range =>
          match ue_op un with
          | OpRef => slice index range false
          | OpMutRef => slice index range true
          | _ => plain
          end
      | _ => plain
      end
  | _ => plain
  end.

(** [gen_statement_into] and [gen_statement]. *)
Definition gen_let (l : LetStatement Spur Expr Pattern TypeExpr) (name : option Spur) (is_mut : bool) : Gen InstRef :=
  '(directives_start, directives_len) ← store_directives (ls_directives l);
  ty ← each_opt intern_type (ls_ty l);
  init ← gen_expr (ls_init l);
  emit (RAlloc directives_start directives_len name is_mut ty init) (ls_span l).
Definition gen_assign (assign : AssignStatement Spur Expr) : Gen InstRef :=
  value ← gen_expr (as_value assign);
  match as_target assign with
  | TargetVar ident => emit (RAssign (id_name ident) value) (as_span assign)
  | TargetField f => base ← gen_expr (fe_base f); emit (RFieldSet base (id_name (fe_field f)) value) (as_span assign)
  | TargetIndex i =>
      base ← gen_expr (ix_base i); index ← gen_expr (ix_index i); emit (RIndexSet base index value) (as_span assign)
  end.
Definition gen_statement (stmt : Statement Spur Expr Pattern TypeExpr) : Gen InstRef :=
  match stmt with
  | StmtLet l =>
      match ls_pattern l with
      | PatStruct _ _ _ | PatTuple _ _ =>
          init ← gen_expr (ls_init l);
          emitted ← emit_let_destructure_into (ls_pattern l) init (ls_span l);
          lift_st (expect (emitted !! 0%nat))
      | PatIdent is_mut name _ => gen_let l (Some (id_name name)) (is_mut || ls_is_mut l)
      | PatWildcard _ => gen_let l None (ls_is_mut l)
      | _ => _ ← store_directives (ls_directives l); lift_st Panic
      end
  | StmtAssign assign => gen_assign assign
  | StmtExpr e => gen_expr e
  end.
Definition gen_statement_into (stmt : Statement Spur Expr Pattern TypeExpr) : Gen (list InstRef) :=
  let single := r ← gen_statement stmt; mret [r] in
  match stmt with
  | StmtLet l =>
      match ls_pattern l with
      | PatStruct _ _ _ | PatTuple _ _ =>
          init ← gen_expr (ls_init l); emit_let_destructure_into (ls_pattern l) init (ls_span l)
      | _ => single
      end
  | _ => single
  end.

(** [gen_block]. *)
Definition gen_block (block : BlockExpr Spur Expr Pattern TypeExpr) : Gen InstRef :=
  match bl_statements block with
  | [] => gen_expr (bl_expr block)
  | statements =>
      inst_refs ← each gen_statement_into statements;
      final_expr ← gen_expr (bl_expr block);
      '(extra_start, len) ← store KRefs (concat inst_refs ++ [final_expr]);
      emit (RBlock extra_start len) (bl_span block)
  end.

Definition gen_if (x : IfExpr Spur Expr Pattern TypeExpr) : Gen InstRef :=
  cond ← gen_expr (ife_cond x);
  then_block ← gen_block (ife_then_block x);
  else_block ← each_opt gen_block (ife_else_block x);
  emit (RBranch cond then_block else_block (ife_is_comptime x)) (ife_span x).
Definition gen_while (x : WhileExpr Spur Expr Pattern TypeExpr) : Gen InstRef :=
  cond ← gen_expr (we_cond x); body ← gen_block (we_body x); emit (RLoop cond body) (we_span x).
Definition gen_for (x : ForExpr Spur Expr Pattern TypeExpr) : Gen InstRef :=
  iterable ← gen_expr (fo_iterable x);
  body ← gen_block (fo_body x);
  emit (RFor (id_name (fo_binding x)) (fo_is_mut x) iterable body) (fo_span x).
Definition gen_loop (x : LoopExpr Spur Expr Pattern TypeExpr) : Gen InstRef :=
  body ← gen_block (le_body x); emit (RInfiniteLoop body) (le_span x).
Definition gen_comptime_unroll_for (x : ComptimeUnrollForExpr Spur Expr Pattern TypeExpr) : Gen InstRef :=
  iterable ← gen_expr (cu_iterable x);
  body ← gen_block (cu_body x);
  emit (RComptimeUnrollFor (id_name (cu_binding x)) iterable body) (cu_span x).

(** [try_elaborate_irrefutable_match]: the two rewrites to a block. *)
Definition elaborate_ident (m : MatchExpr Expr Pattern) (arm : MatchArm Expr Pattern) (is_mut : bool)
    (name : Ident Spur) (span : Span) : Gen InstRef :=
  init ← gen_expr (mx_scrutinee m);
  alloc ← emit (RAlloc 0 0 (Some (id_name name)) is_mut None init) span;
  body ← gen_expr (ma_body arm);
  '(extra_start, len) ← store KRefs [alloc; body];
  emit (RBlock extra_start len) (mx_span m).
Definition elaborate_destructure (m : MatchExpr Expr Pattern) (arm : MatchArm Expr Pattern) : Gen InstRef :=
  init ← gen_expr (mx_scrutinee m);
  emitted ← emit_let_destructure_into (ma_pattern arm) init (ast_pattern_span (ma_pattern arm));
  body ← gen_expr (ma_body arm);
  '(extra_start, len) ← store KRefs (emitted ++ [body]);
  emit (RBlock extra_start len) (mx_span m).
(** A match that is not rewritten. *)
Definition gen_arm (arm : MatchArm Expr Pattern) : Gen (RirPattern * InstRef) :=
  pattern ← gen_pattern (ma_pattern arm); body ← gen_expr (ma_body arm); mret (pattern, body).
Definition gen_match_arms (m : MatchExpr Expr Pattern) : Gen InstRef :=
  scrutinee ← gen_expr (mx_scrutinee m);
  arms ← each gen_arm (mx_arms m);
  '(arms_start, arms_len) ← store KArms arms;
  emit (RMatch scrutinee arms_start arms_len) (mx_span m).
Definition gen_match (m : MatchExpr Expr Pattern) : Gen InstRef :=
  match mx_arms m with
  | [arm] =>
      match ma_pattern arm with
      | PatIdent is_mut name span => elaborate_ident m arm is_mut name span
      | PatStruct _ _ _ | PatTuple _ _ =>
          if is_irrefutable_destructure (ma_pattern arm) then elaborate_destructure m arm else gen_match_arms m
      | _ => gen_match_arms m
      end
  | _ => gen_match_arms m
  end.

Definition gen_call (call : CallExpr Spur Expr) : Gen InstRef :=
  args ← each convert_call_arg (ce_args call);
  '(args_start, args_len) ← store KCallArgs args;
  emit (RCall (id_name (ce_name call)) args_start args_len) (ce_span call).
Definition gen_return (x : ReturnExpr Expr) : Gen InstRef :=
  value ← each_opt gen_expr (re_value x); emit (RRet value) (re_span x).
Definition gen_field_init (f : FieldInit Spur Expr) : Gen (Spur * InstRef) :=
  value ← gen_expr (fi_value f); mret (id_name (fi_name f), value).
Definition gen_struct_lit (x : StructLitExpr Spur Expr) : Gen InstRef :=
  module ← each_opt gen_expr (sle_base x);
  fields ← each gen_field_init (sle_fields x);
  '(fields_start, fields_len) ← store KFieldInits fields;
  emit (RStructInit module (id_name (sle_name x)) fields_start fields_len) (sle_span x).
Definition gen_enum_struct_lit (x : EnumStructLitExpr Spur Expr) : Gen InstRef :=
  module ← each_opt gen_expr (esl_base x);
  fields ← each gen_field_init (esl_fields x);
  '(fields_start, fields_len) ← store KFieldInits fields;
  emit (REnumStructVariant module (id_name (esl_type_name x)) (id_name (esl_variant x)) fields_start fields_len)
    (esl_span x).
Definition gen_field (x : FieldExpr Spur Expr) : Gen InstRef :=
  base ← gen_expr (fe_base x); emit (RFieldGet base (id_name (fe_field x))) (fe_span x).

(** Intrinsics: a type, a type and an interface, or expressions. *)
Definition type_intrinsic_arg (args : list (IntrinsicArg Expr TypeExpr)) : option (Gen Spur) :=
  match args with
  | [ArgType ty] => Some (intern_type ty)
  | [ArgExpr (ExprIdent ident)] => Some (mret (id_name ident))
  | _ => None
  end.
Definition interface_arg (a : IntrinsicArg Expr TypeExpr) : option (Gen Spur) :=
  match a with
  | ArgType ty => Some (intern_type ty)
  | ArgExpr (ExprIdent ident) => Some (mret (id_name ident))
  | _ => None
  end.
Definition interface_type_arg (a : IntrinsicArg Expr TypeExpr) : Gen (Spur * option InstRef) :=
  match a with
  | ArgType ty => sym ← intern_type ty; mret (sym, None)
  | ArgExpr (ExprIdent ident) => mret (id_name ident, None)
  | ArgExpr e => inst ← gen_expr e; sym ← intern "__expr__"; mret (sym, Some inst)
  end.
Definition intrinsic_arg (preserve promote : bool) (span : Span) (idx : nat) (a : IntrinsicArg Expr TypeExpr) :
    Gen (option InstRef) :=
  match a with
  | ArgType ty =>
      if preserve then type_name ← intern_type ty; r ← emit (RTypeConst type_name) span; mret (Some r) else mret None
  | ArgExpr (ExprIdent ident as e) =>
      if promote && (idx =? 0)%nat then r ← emit (RTypeConst (id_name ident)) span; mret (Some r)
      else r ← gen_expr e; mret (Some r)
  | ArgExpr e => r ← gen_expr e; mret (Some r)
  end.
Definition gen_expr_intrinsic (x : IntrinsicCallExpr Spur Expr TypeExpr) (name_str : string) : Gen InstRef :=
  let preserve := (name_str =? "variant_uninit")%string || (name_str =? "variant_field")%string in
  let promote := (name_str =? "variant_uninit")%string in
  args ← each_i (intrinsic_arg preserve promote (ic_span x)) 0 (ic_args x);
  '(args_start, args_len) ← store KRefs (omap id args);
  emit (RIntrinsic (id_name (ic_name x)) args_start args_len) (ic_span x).
Definition gen_interface_intrinsic (x : IntrinsicCallExpr Spur Expr TypeExpr) (name_str : string) : Gen InstRef :=
  match ic_args x with
  | [ty; iface] =>
      if decide (intrinsic_kind name_str = Some KindTypeInterface) then
        match interface_arg iface with
        | Some get =>
            interface ← get;
            '(type_arg, type_inst) ← interface_type_arg ty;
            emit (RTypeInterfaceIntrinsic (id_name (ic_name x)) type_arg type_inst interface) (ic_span x)
        | None => gen_expr_intrinsic x name_str
        end
      else gen_expr_intrinsic x name_str
  | _ => gen_expr_intrinsic x name_str
  end.
Definition gen_intrinsic (x : IntrinsicCallExpr Spur Expr TypeExpr) : Gen InstRef :=
  name_str ← name_of (id_name (ic_name x));
  match is_type_intrinsic name_str, type_intrinsic_arg (ic_args x) with
  | true, Some get => type_arg ← get; emit (RTypeIntrinsic (id_name (ic_name x)) type_arg) (ic_span x)
  | _, _ => gen_interface_intrinsic x name_str
  end.

Definition gen_array_lit (x : ArrayLitExpr Expr) : Gen InstRef :=
  elements ← each gen_expr (al_elements x);
  '(elems_start, elems_len) ← store KRefs elements;
  emit (RArrayInit elems_start elems_len) (al_span x).
Definition gen_index (x : IndexExpr Expr) : Gen InstRef :=
  match ix_index x with
  | ExprRange _ => emit RBareRangeSubscript (ix_span x)
  | _ => base ← gen_expr (ix_base x); index ← gen_expr (ix_index x); emit (RIndexGet base index) (ix_span x)
  end.
Definition gen_path (x : PathExpr Spur Expr) : Gen InstRef :=
  module ← each_opt gen_expr (pa_base x);
  emit (REnumVariant module (id_name (pa_type_name x)) (id_name (pa_variant x))) (pa_span x).
Definition gen_method_call (x : MethodCallExpr Spur Expr) : Gen InstRef :=
  receiver ← gen_expr (mc_receiver x);
  args ← each convert_call_arg (mc_args x);
  '(args_start, args_len) ← store KCallArgs args;
  emit (RMethodCall receiver (id_name (mc_method x)) args_start args_len) (mc_span x).
Definition applied_type_name (x : AssocFnCallExpr Spur Expr) : Gen Spur :=
  match af_type_args x with
  | [] => mret (id_name (af_type_name x))
  | type_args =>
      c ← name_of (id_name (af_type_name x));
      l ← each expr_as_type_name type_args;
      intern (c +:+ "(" +:+ join ", " l +:+ ")")
  end.
Definition gen_assoc_fn_call (x : AssocFnCallExpr Spur Expr) : Gen InstRef :=
  args ← each convert_call_arg (af_args x);
  '(args_start, args_len) ← store KCallArgs args;
  type_name ← applied_type_name x;
  emit (RAssocFnCall type_name (id_name (af_function x)) args_start args_len) (af_span x).
Definition gen_self (x : SelfExpr) : Gen InstRef := name ← intern "self"; emit (RVarRef name) (se_span x).
Definition gen_comptime (x : ComptimeBlockExpr Expr) : Gen InstRef :=
  inner ← gen_expr (cb_expr x); emit (RComptime inner) (cb_span x).
Definition gen_checked (x : CheckedBlockExpr Expr) : Gen InstRef :=
  inner ← gen_expr (ck_expr x); emit (RChecked inner) (ck_span x).
Definition gen_tuple (x : TupleExpr Expr) : Gen InstRef :=
  elems ← each gen_expr (te_elems x);
  '(elems_start, elems_len) ← store KRefs elems;
  emit (RTupleInit elems_start elems_len) (te_span x).
Definition gen_tuple_index (x : TupleIndexExpr Expr) : Gen InstRef :=
  base ← gen_expr (ti_base x); field ← intern (pretty (ti_index x)); emit (RFieldGet base field) (ti_span x).

(** ** Patterns *)
Definition wildcard_binding : RirPatternBinding Spur RirPattern := MkBinding true false None None.
Definition name_binding (is_mut : bool) (name : Spur) : RirPatternBinding Spur RirPattern :=
  MkBinding false is_mut (Some name) None.
Definition rest_binding : Gen (RirPatternBinding Spur RirPattern) :=
  dots ← intern ".."; mret (MkBinding true false (Some dots) None).
Definition sub_binding (sub : Pattern) : Gen (RirPatternBinding Spur RirPattern) :=
  p ← gen_pattern sub; mret (MkBinding false false None (Some p)).

(** [tuple_elem_to_rir_binding_or_capture] and [field_pattern_to_rir_binding_or_capture]. *)
Definition tuple_elem_to_rir_binding_or_capture (elem : TupleElemPattern Pattern) :
    Gen (RirPatternBinding Spur RirPattern) :=
  match elem with
  | ElemPattern (PatWildcard _) => mret wildcard_binding
  | ElemPattern (PatIdent is_mut name _) => mret (name_binding is_mut (id_name name))
  | ElemPattern sub => sub_binding sub
  | ElemRest _ => rest_binding
  end.
Definition field_pattern_to_rir_binding_or_capture (fb : FieldPattern Spur Pattern) :
    Gen (RirPatternBinding Spur RirPattern) :=
  match fp_field_name fb with
  | None => rest_binding
  | Some name =>
      match fp_sub fb with
      | None => mret (name_binding (fp_is_mut fb) (id_name name))
      | Some (PatWildcard _) => mret wildcard_binding
      | Some (PatIdent is_mut bind_name _) => mret (name_binding (fp_is_mut fb || is_mut) (id_name bind_name))
      | Some sub => sub_binding sub
      end
  end.

(** The arms of [gen_match_arm_pattern]. *)
Definition gen_path_pattern (p : PathPattern Spur Expr) : Gen RirPattern :=
  module ← each_opt gen_expr (pp_base p);
  mret (RPath module (id_name (pp_type_name p)) (id_name (pp_variant p)) (pp_span p)).
Definition gen_data_variant (base : option Expr) (type_name variant : Ident Spur)
    (fields : list (TupleElemPattern Pattern)) (span : Span) : Gen RirPattern :=
  module ← each_opt gen_expr base;
  bindings ← each tuple_elem_to_rir_binding_or_capture fields;
  mret (RDataVariant module (id_name type_name) (id_name variant) bindings span).
Definition gen_field_binding (rest_marker : Spur) (fb : FieldPattern Spur Pattern) :
    Gen (RirStructPatternBinding Spur RirPattern) :=
  b ← field_pattern_to_rir_binding_or_capture fb;
  mret (MkStructBinding (match fp_field_name fb with Some ident => id_name ident | None => rest_marker end) b).
Definition gen_struct_variant (base : option Expr) (type_name variant : Ident Spur)
    (fields : list (FieldPattern Spur Pattern)) (span : Span) : Gen RirPattern :=
  module ← each_opt gen_expr base;
  rest_marker ← intern "..";
  bindings ← each (gen_field_binding rest_marker) fields;
  mret (RStructVariant module (id_name type_name) (id_name variant) bindings span).
Definition gen_tuple_elem (e : TupleElemPattern Pattern) : Gen (option RirPattern) :=
  match e with ElemPattern p => q ← gen_pattern p; mret (Some q) | ElemRest _ => mret None end.
(** The last position of [..], as the loop leaves it. *)
Fixpoint last_rest_from (i : nat) (elems : list (TupleElemPattern Pattern)) : option Z :=
  match elems with
  | [] => None
  | e :: elems =>
      match last_rest_from (S i) elems with
      | Some j => Some j
      | None => if is_rest e then Some (wrap 32 (Z.of_nat i)) else None
      end
  end.
Definition gen_tuple_pattern (elems : list (TupleElemPattern Pattern)) (span : Span) : Gen RirPattern :=
  l ← each gen_tuple_elem elems; mret (RTuple (omap id l) (last_rest_from 0 elems) span).
Definition gen_struct_field (f : FieldPattern Spur Pattern) : Gen (option (RirStructField Spur RirPattern)) :=
  match fp_field_name f with
  | None => mret None
  | Some ident =>
      match fp_sub f with
      | Some p => q ← gen_pattern p; mret (Some (MkRirField (id_name ident) q))
      | None => mret (Some (MkRirField (id_name ident) (RIdent (id_name ident) (fp_is_mut f) (fp_span f))))
      end
  end.
Definition gen_struct_pattern (type_name : Ident Spur) (fields : list (FieldPattern Spur Pattern)) (span : Span) :
    Gen RirPattern :=
  l ← each gen_struct_field fields;
  mret (RStruct None (id_name type_name) (omap id l)
          (existsb (λ f, match fp_field_name f with None => true | Some _ => false end) fields) span).
Definition gen_unroll_pattern (binding : Ident Spur) (iterable : Expr) (span : Span) : Gen RirPattern :=
  r ← gen_expr iterable; mret (RComptimeUnrollArm (id_name binding) r span).

(** ** Methods and functions *)
(** What [gen_method] and [gen_function] share; [body] generates the body. *)
Definition gen_fn_decl (directives : list (Directive Spur)) (is_pub is_unchecked : bool) (name : Spur)
    (params : list (Param Spur TypeExpr)) (return_type : option TypeExpr) (body : Gen InstRef)
    (receiver : option SelfParam) (span : Span) : Gen InstRef :=
  '(directives_start, directives_len) ← store_directives directives;
  return_type ← return_type_symbol return_type;
  '(params_start, params_len) ← store_params params;
  body_start ← here;
  body ← body;
  decl ← emit (RFnDecl directives_start directives_len is_pub is_unchecked name params_start params_len return_type
                 body (bool_decide (is_Some receiver))
                 (match receiver with Some r => encode_self_receiver_kind (sp_kind r) | None => 0 end)) span;
  _ ← on_rir (add_function_span (MkFnSpan name body_start decl));
  mret decl.
(** [gen_method]. *)
Definition gen_method (m : Method Spur Expr TypeExpr) : Gen InstRef :=
  gen_fn_decl (me_directives m) (is_public (me_visibility m)) (me_is_unchecked m) (id_name (me_name m)) (me_params m)
    (me_return_type m) (gen_expr (me_body m)) (me_receiver m) (me_span m).
(** An anonymous function: [gen_method] of the synthetic method [__call], whose body is the
    block. *)
Definition gen_anon_fn (x : AnonFnExpr Spur Expr Pattern TypeExpr) : Gen InstRef :=
  call_name ← intern "__call";
  method ← gen_fn_decl [] true false call_name (an_params x) (an_return_type x) (gen_block (an_body x))
    (Some (MkSelfParam SelfByValue (an_span x))) (an_span x);
  emit (RAnonFnValue method) (an_span x).

(** ** Types as values *)
Definition gen_anon_struct (directives : list (Directive Spur)) (fields : list (AnonStructField Spur TypeExpr))
    (methods : list (Method Spur Expr TypeExpr)) (span : Span) : Gen InstRef :=
  '(directives_start, directives_len) ← store_directives directives;
  field_decls ← each (λ f, ty ← intern_type (asf_ty f); mret (id_name (asf_name f), ty, true)) fields;
  '(fields_start, fields_len) ← store KFieldDecls field_decls;
  method_refs ← each gen_method methods;
  '(methods_start, methods_len) ← store KRefs method_refs;
  emit (RAnonStructType directives_start directives_len fields_start fields_len methods_start methods_len) span.
Definition gen_anon_interface (methods : list (MethodSig Spur TypeExpr)) (span : Span) : Gen InstRef :=
  method_refs ← each gen_method_sig methods;
  '(methods_start, methods_len) ← store KRefs method_refs;
  emit (RAnonInterfaceType methods_start methods_len) span.
Definition gen_anon_enum (directives : list (Directive Spur)) (variants : list (EnumVariant Spur TypeExpr))
    (methods : list (Method Spur Expr TypeExpr)) (span : Span) : Gen InstRef :=
  '(directives_start, directives_len) ← store_directives directives;
  variant_decls ← each convert_variant variants;
  '(variants_start, variants_len) ← store KVariants variant_decls;
  method_refs ← each gen_method methods;
  '(methods_start, methods_len) ← store KRefs method_refs;
  emit (RAnonEnumType directives_start directives_len variants_start variants_len methods_start methods_len) span.
Definition type_value_name (ty : TypeExpr) : Gen Spur :=
  match ty with
  | TypeNamed ident => mret (id_name ident)
  | TypeUnit _ => intern "()"
  | TypeNever _ => intern "!"
  | TypeArray _ _ _ => intern "array"
  | TypeAnonymousStruct _ _ _ _ _ | TypeAnonymousEnum _ _ _ _ _ | TypeAnonymousInterface _ _ => lift_st Panic
  | TypeCall _ _ _ | TypeTuple _ _ => intern_type ty
  end.
Definition gen_type_lit (ty : TypeExpr) (span : Span) : Gen InstRef :=
  match ty with
  | TypeAnonymousStruct directives _ fields methods _ => gen_anon_struct directives fields methods span
  | TypeAnonymousInterface methods _ => gen_anon_interface methods span
  | TypeAnonymousEnum directives _ variants methods _ => gen_anon_enum directives variants methods span
  | _ => type_name ← type_value_name ty; emit (RTypeConst type_name) span
  end.
End Arms.

(** ** The recursion *)
Fixpoint gen_expr (e : Expr) : Gen InstRef :=
  match e with
  | ExprInt lit => emit (RIntConst (il_value lit)) (il_span lit)
  | ExprFloat lit => emit (RFloatConst (fl_bits lit)) (fl_span lit)
  | ExprBool lit => emit (RBoolConst (bo_value lit)) (bo_span lit)
  | ExprChar lit => emit (RCharConst (cl_value lit)) (cl_span lit)
  | ExprString lit => emit (RStringConst (sl_value lit)) (sl_span lit)
  | ExprUnit lit => emit RUnitConst (ul_span lit)
  | ExprIdent ident => emit (RVarRef (id_name ident)) (id_span ident)
  | ExprBinary x => gen_binary gen_expr x
  | ExprUnary x => gen_unary gen_expr x
  | ExprParen x => gen_expr (pe_inner x)
  | ExprBlock x => gen_block gen_expr x
  | ExprIf x => gen_if gen_expr x
  | ExprWhile x => gen_while gen_expr x
  | ExprFor x => gen_for gen_expr x
  | ExprLoop x => gen_loop gen_expr x
  | ExprMatch x => gen_match gen_expr gen_match_arm_pattern x
  | ExprCall x => gen_call gen_expr x
  | ExprBreak x => emit RBreak (bk_span x)
  | ExprContinue x => emit RContinue (co_span x)
  | ExprReturn x => gen_return gen_expr x
  | ExprStructLit x => gen_struct_lit gen_expr x
  | ExprEnumStructLit x => gen_enum_struct_lit gen_expr x
  | ExprField x => gen_field gen_expr x
  | ExprIntrinsicCall x => gen_intrinsic gen_expr x
  | ExprArrayLit x => gen_array_lit gen_expr x
  | ExprIndex x => gen_index gen_expr x
  | ExprPath x => gen_path gen_expr x
  | ExprMethodCall x => gen_method_call gen_expr x
  | ExprAssocFnCall x => gen_assoc_fn_call gen_expr x
  | ExprSelf x => gen_self x
  | ExprComptime x => gen_comptime gen_expr x
  | ExprComptimeUnrollFor x => gen_comptime_unroll_for gen_expr x
  | ExprChecked x => gen_checked gen_expr x
  | ExprTypeLit x => gen_type_lit gen_expr (tl_type_expr x) (tl_span x)
  | ExprError span => emit RUnitConst span
  | ExprTuple x => gen_tuple gen_expr x
  | ExprTupleIndex x => gen_tuple_index gen_expr x
  | ExprAnonFn x => gen_anon_fn gen_expr x
  | ExprRange x => emit RBareRangeSubscript (ra_span x)
  end
with gen_match_arm_pattern (p : Pattern) : Gen RirPattern :=
  match p with
  | PatWildcard span => mret (RWildcard span)
  | PatInt lit => mret (RInt (to_i64 (il_value lit)) (il_span lit))
  | PatNegInt lit => mret (RInt (to_i64 (- to_i64 (nl_value lit))) (nl_span lit))
  | PatBool lit => mret (RBool (bo_value lit) (bo_span lit))
  | PatPath path => gen_path_pattern gen_expr path
  | PatDataVariant base type_name variant fields span =>
      gen_data_variant gen_expr gen_match_arm_pattern base type_name variant fields span
  | PatStructVariant base type_name variant fields span =>
      gen_struct_variant gen_expr gen_match_arm_pattern base type_name variant fields span
  | PatIdent is_mut name span => mret (RIdent (id_name name) is_mut span)
  | PatTuple elems span => gen_tuple_pattern gen_match_arm_pattern elems span
  | PatStruct type_name fields span => gen_struct_pattern gen_match_arm_pattern type_name fields span
  | PatComptimeUnrollArm binding iterable span => gen_unroll_pattern gen_expr binding iterable span
  end.

(** ** Items *)
(** [gen_function]. *)
Definition gen_function (f : Function Spur Expr TypeExpr) : Gen InstRef :=
  gen_fn_decl (fn_directives f) (is_public (fn_visibility f)) (fn_is_unchecked f) (id_name (fn_name f)) (fn_params f)
    (fn_return_type f) (gen_expr (fn_body f)) None (fn_span f).

(** [gen_struct]. *)
Definition gen_struct (d : StructDecl Spur Expr TypeExpr) : Gen InstRef :=
  '(directives_start, directives_len) ← store_directives (sd_directives d);
  fields ← each (λ f, ty ← intern_type (fd_ty f); mret (id_name (fd_name f), ty, is_public (fd_visibility f)))
    (sd_fields d);
  '(fields_start, fields_len) ← store KFieldDecls fields;
  methods ← each (gen_method gen_expr) (sd_methods d);
  '(methods_start, methods_len) ← store KRefs methods;
  emit (RStructDecl directives_start directives_len (is_public (sd_visibility d)) (sd_posture d) (id_name (sd_name d))
          fields_start fields_len methods_start methods_len) (sd_span d).

(** [gen_enum]. *)
Definition gen_enum (d : EnumDecl Spur Expr TypeExpr) : Gen InstRef :=
  variants ← each convert_variant (ed_variants d);
  '(variants_start, variants_len) ← store KVariants variants;
  methods ← each (gen_method gen_expr) (ed_methods d);
  '(methods_start, methods_len) ← store KRefs methods;
  '(directives_start, directives_len) ← store_directives (ed_directives d);
  emit (REnumDecl (is_public (ed_visibility d)) (ed_posture d) (id_name (ed_name d)) variants_start variants_len
          methods_start methods_len directives_start directives_len) (ed_span d).

(** [gen_derive]. *)
Definition gen_derive (d : DeriveDecl Spur Expr TypeExpr) : Gen InstRef :=
  method_refs ← each (gen_method gen_expr) (de_methods d);
  '(methods_start, methods_len) ← store KRefs method_refs;
  emit (RDeriveDecl (id_name (de_name d)) methods_start methods_len) (de_span d).

(** [gen_const]. *)
Definition gen_const (d : ConstDecl Spur Expr TypeExpr) : Gen InstRef :=
  '(directives_start, directives_len) ← store_directives (cd_directives d);
  ty ← each_opt intern_type (cd_ty d);
  init ← gen_expr (cd_init d);
  emit (RConstDecl directives_start directives_len (is_public (cd_visibility d)) (id_name (cd_name d)) ty init)
    (cd_span d).

(** [gen_item]. *)
Definition gen_item (item : Ast.Item Spur Expr TypeExpr) : Gen () :=
  match item with
  | ItemFunction f => _ ← gen_function f; mret ()
  | ItemStruct d => _ ← gen_struct d; mret ()
  | ItemEnum d => _ ← gen_enum d; mret ()
  | ItemInterface d => _ ← gen_interface d; mret ()
  | ItemDerive d => _ ← gen_derive d; mret ()
  | ItemConst d => _ ← gen_const d; mret ()
  | ItemLinkExtern b => gen_link_extern b
  | ItemError _ => mret ()
  end.

(** [AstGen::new] and [generate]: the representation, and the interner it leaves. *)
Definition new_gen (interner : I) : AstGen := MkGen interner new_rir 0.
Definition generate (interner : I) (ast : Ast Spur) : outcome (Rir Spur * I) :=
  '(_, g) ← each gen_item (ast_items ast) (new_gen interner); Done (ag_rir g, ag_interner g).
End AstGen.
#[global] Arguments AstGen : clear implicits.
