(* ===== verification/AstGenWf.v ===== *)
(** * Generated files are well formed

    What a generator of [AstGen] adds to the file: it only appends; every new instruction
    refers, itself and through its payloads, to instructions the same generator made before
    it; payloads are stored where the instruction says, no two of them share a word; and the
    recorded functions enclose their bodies. The proofs follow the generators with the
    rules of [Follows], which carry the state of a run and the references it may use. *)

From stdpp Require Import sorting.
From S2P Require Import Prelude Types AirPattern Air ParamArena Ast Remap Rir RirStore RirMergeThm RirRelocate.
From S2P Require Import RirMergeSpec AstGen.

#[local] Open Scope Z_scope.

(** ** References *)
Fixpoint pattern_refs {Spur} (p : RirPattern Spur) : list InstRef :=
  let binding_refs b := match pb_sub_pattern b with Some q => pattern_refs q | None => [] end in
  match p with
  | RPath m _ _ _ => option_list m
  | RDataVariant m _ _ bs _ => option_list m ++ flat_map binding_refs bs
  | RStructVariant m _ _ bs _ => option_list m ++ flat_map (λ b, binding_refs (sb_binding b)) bs
  | RTuple es _ _ => flat_map pattern_refs es
  | RStruct m _ fs _ _ => option_list m ++ flat_map (λ f, pattern_refs (rf_pattern f)) fs
  | RComptimeUnrollArm _ i _ => [i]
  | _ => []
  end.

Section Segments.
Context {Spur : Type} `{!SpurKey Spur}.

Definition item_refs (k : PayloadKind) : Item (Spur := Spur) k → list InstRef :=
  match k with
  | KRefs => λ x, [x]
  | KCallArgs => λ a, [ra_value a]
  | KFieldInits => λ f, [f.2]
  | KArms => λ a, a.2 :: pattern_refs a.1
  | _ => λ _, []
  end.

(** ** Segments: a stored payload and its words *)
Record Seg : Type := MkSeg {
  sg_kind : PayloadKind; sg_start : Z; sg_len : Z; sg_items : list (Item (Spur := Spur) sg_kind);
  sg_from : nat; sg_to : nat }.
Definition sg_payload (s : Seg) : PayloadKind * Z * Z := (sg_kind s, sg_start s, sg_len s).
Definition sg_refs (s : Seg) : list InstRef := flat_map (item_refs (sg_kind s)) (sg_items s).
(** The items were stored in [r] or in a file that [r] extends. *)
Definition stored (r : Rir Spur) (s : Seg) : Prop :=
  ∃ r0 r1, add_payload (sg_kind s) (sg_items s) r0 = Done (sg_start s, sg_len s, r1) ∧
    sg_from s = length (r_extra r0) ∧ sg_to s = length (r_extra r1) ∧ r_extra r1 `prefix_of` r_extra r.
Definition no_words (s : Seg) : Prop := sg_from s = 0%nat ∧ sg_to s = 0%nat.
Definition inside (w0 w : nat) (s : Seg) : Prop := no_words s ∨ (w0 ≤ sg_from s ∧ sg_to s ≤ w)%nat.
Definition disjoint_segs (s t : Seg) : Prop := (sg_to s ≤ sg_from t ∨ sg_to t ≤ sg_from s)%nat.
#[local] Instance disjoint_segs_sym : Symmetric disjoint_segs.
Proof. unfold disjoint_segs. intros s t. tauto. Qed.

Fixpoint pairwise (l : list Seg) : Prop :=
  match l with [] => True | s :: l => Forall (disjoint_segs s) l ∧ pairwise l end.
Lemma pairwise_app l1 l2 :
  pairwise (l1 ++ l2) ↔ pairwise l1 ∧ pairwise l2 ∧ Forall (λ s, Forall (disjoint_segs s) l2) l1.
Proof.
  induction l1 as [|s l1 IH]; simpl; [split; [intros; repeat split; [done|constructor]|naive_solver]|].
  rewrite list.Forall_app, IH, list.Forall_cons. tauto.
Qed.
Lemma pairwise_perm l1 l2 : l1 ≡ₚ l2 → pairwise l1 → pairwise l2.
Proof.
  induction 1 as [|s l1 l2 Hp IH|s t l|l1 l2 l3 _ IH1 _ IH2]; simpl; [done| | |by auto].
  - intros [Hs Hl]. split; [by rewrite <-Hp|auto].
  - rewrite !list.Forall_cons. intros [[Hst Hs] [Ht Hl]]. by repeat split.
Qed.
Lemma inside_disjoint w0 w w1 s t : inside w0 w s → inside w w1 t → disjoint_segs s t.
Proof. unfold inside, no_words, disjoint_segs. lia. Qed.
Lemma inside_mono w0 w w0' w' s : (w0' ≤ w0)%nat → (w ≤ w')%nat → inside w0 w s → inside w0' w' s.
Proof. unfold inside. naive_solver lia. Qed.
Lemma stored_mono (r r' : Rir Spur) s : r_extra r `prefix_of` r_extra r' → stored r s → stored r' s.
Proof. intros Hp (r0 & r1 & Ha & Hf & Ht & Hr). exists r0, r1. repeat split; try done. by etrans. Qed.

(** ** Instructions and functions *)
(** An instruction at [j] whose references lie between [lo] and [j], with the segments [ss]. *)
Definition local_with (r : Rir Spur) (lo j : Z) (data : InstData Spur) (ss : list Seg) : Prop :=
  map sg_payload ss = payloads data ∧ Forall (stored r) ss ∧
  Forall (λ x, lo ≤ x < j) (operands data ++ flat_map sg_refs ss).
Definition local_inst (r : Rir Spur) (lo j : Z) (data : InstData Spur) : Prop := ∃ ss, local_with r lo j data ss.

(** A recorded function: its declaration is where the span ends, and what lies between the
    start of the body and the declaration refers to nothing before. *)
Record function_ok (r : Rir Spur) (lo : Z) (f : FunctionSpan (Spur := Spur)) : Prop := {
  fn_bounds : lo ≤ fs_body_start f ≤ fs_decl f ∧ fs_decl f < Z.of_nat (insts r);
  fn_is_decl : ∃ ds dn p u ps pn rt body hs rm span,
    r_instructions r !! Z.to_nat (fs_decl f) = Some (MkRirInst (RFnDecl ds dn p u (fs_name f) ps pn rt body hs rm) span) ∧
    fs_body_start f ≤ body < fs_decl f;
  fn_local j inst : fs_body_start f ≤ j ≤ fs_decl f → r_instructions r !! Z.to_nat j = Some inst →
    local_inst r (fs_body_start f) j (ri_data inst);
}.

Lemma local_with_mono (r r' : Rir Spur) lo lo' j data ss :
  r_extra r `prefix_of` r_extra r' → lo' ≤ lo → local_with r lo j data ss → local_with r' lo' j data ss.
Proof.
  intros Hp Hlo (Hm & Hs & Hr). split; [done|]. split.
  - eapply list.Forall_impl; [exact Hs|]. intros s. by apply stored_mono.
  - eapply list.Forall_impl; [exact Hr|]. intros x Hx. simpl in Hx. lia.
Qed.
Lemma function_ok_mono (r r' : Rir Spur) lo lo' f :
  r_instructions r `prefix_of` r_instructions r' → r_extra r `prefix_of` r_extra r' → 0 ≤ lo' ≤ lo →
  function_ok r lo f → function_ok r' lo' f.
Proof.
  intros Hi Hx Hlo [[Hb1 Hb2] (ds & dn & p & u & ps & pn & rt & body & hs & rm & span & Hd & Hbody) Hl].
  assert (insts r ≤ insts r')%nat as Hle by (by apply prefix_length).
  split; [lia| |].
  - do 11 eexists. split; [by eapply prefix_lookup_Some|done].
  - intros j inst Hj Hinst. destruct (lookup_lt_is_Some_2 (r_instructions r) (Z.to_nat j)) as [inst' Hinst'].
    { unfold insts in *. lia. }
    pose proof (prefix_lookup_Some _ _ _ _ Hinst' Hi) as Heq. rewrite Hinst in Heq. injection Heq as <-.
    destruct (Hl j inst Hj Hinst') as [ss Hss]. exists ss. by eapply local_with_mono.
Qed.
End Segments.

(** ** Runs of a generator *)
Section Runs.
Context {I Spur : Type} `{!SpurKey Spur}.
Notation AstGen := (AstGen I Spur).
Notation Gen A := (ST AstGen A).
Notation Seg := (Seg (Spur := Spur)).
Implicit Types (g : AstGen).

Definition ninsts g : Z := Z.of_nat (insts (ag_rir g)).
Definition nwords g : nat := words (ag_rir g).

(** From [g0] to [g]: what was appended, the segments [os] of the new instructions, the
    stored segments [pend] no instruction has yet, and the new functions. *)
Record run (g0 : AstGen) (os : list (list Seg)) (pend : list Seg) (g : AstGen) : Prop := {
  run_insts : r_instructions (ag_rir g0) `prefix_of` r_instructions (ag_rir g);
  run_extra : r_extra (ag_rir g0) `prefix_of` r_extra (ag_rir g);
  run_count : (insts (ag_rir g0) + length os = insts (ag_rir g))%nat;
  run_local i inst ss : r_instructions (ag_rir g) !! (insts (ag_rir g0) + i)%nat = Some inst → os !! i = Some ss →
    local_with (ag_rir g) (ninsts g0) (ninsts g0 + Z.of_nat i) (ri_data inst) ss;
  run_apart : pairwise (concat os ++ pend);
  run_inside : Forall (inside (nwords g0) (nwords g)) (concat os ++ pend);
  run_pend : Forall (stored (ag_rir g)) pend;
  run_functions : ∃ fs, r_function_spans (ag_rir g) = r_function_spans (ag_rir g0) ++ fs ∧
    Forall (function_ok (ag_rir g) (ninsts g0)) fs ∧ StronglySorted (λ f f', fs_decl f < fs_decl f') fs;
}.
Definition At g0 (pend : list Seg) g : Prop := ∃ os, run g0 os pend g.

Lemma At_refl g : At g [] g.
Proof.
  exists []. split; try done; simpl; try lia.
  exists []. rewrite app_nil_r. repeat split; constructor.
Qed.
Lemma At_le g0 pend g : At g0 pend g → ninsts g0 ≤ ninsts g ∧ (nwords g0 ≤ nwords g)%nat.
Proof.
  intros [os H]. pose proof (run_count _ _ _ _ H). pose proof (prefix_length _ _ (run_extra _ _ _ _ H)).
  unfold ninsts, nwords, words. lia.
Qed.

Lemma functions_sorted (r : Rir Spur) mid fs fs' :
  Forall (λ f, fs_decl f < mid) fs → Forall (function_ok r mid) fs' →
  StronglySorted (λ f f', fs_decl f < fs_decl f') fs → StronglySorted (λ f f', fs_decl f < fs_decl f') fs' →
  StronglySorted (λ f f' : FunctionSpan (Spur := Spur), fs_decl f < fs_decl f') (fs ++ fs').
Proof.
  intros H1 H2 Hs Hs'. induction Hs as [|f fs Hs IH Hf]; simpl; [done|].
  apply list.Forall_cons in H1 as [Hm H1]. constructor; [by apply IH|]. apply list.Forall_app. split; [done|].
  eapply list.Forall_impl; [exact H2|]. intros f' Hf'. pose proof (fn_bounds _ _ _ Hf'). lia.
Qed.

(** Runs compose. *)
Lemma run_trans g0 g1 g2 os1 os2 p1 p2 :
  run g0 os1 p1 g1 → run g1 os2 p2 g2 → run g0 (os1 ++ os2) (p1 ++ p2) g2.
Proof.
  intros [Hi1 Hx1 Hc1 Hl1 Ha1 Hn1 Hp1 (fs1 & Hf1 & Hok1 & Hs1)] [Hi2 Hx2 Hc2 Hl2 Ha2 Hn2 Hp2 (fs2 & Hf2 & Hok2 & Hs2)].
  pose proof (prefix_length _ _ Hx1) as Hw1. pose proof (prefix_length _ _ Hx2) as Hw2.
  assert (Hperm : concat os1 ++ p1 ++ concat os2 ++ p2 ≡ₚ concat (os1 ++ os2) ++ p1 ++ p2).
  { rewrite concat_app. solve_Permutation. }
  split.
  - by etrans.
  - by etrans.
  - rewrite length_app. lia.
  - intros i inst ss Hinst Hss. destruct (decide (i < length os1)%nat) as [Hlt|Hge].
    + rewrite lookup_app_l in Hss by done.
      destruct (lookup_lt_is_Some_2 (r_instructions (ag_rir g1)) (insts (ag_rir g0) + i)) as [inst' Hinst'].
      { unfold insts in *. lia. }
      pose proof (prefix_lookup_Some _ _ _ _ Hinst' Hi2) as Heq. rewrite Hinst in Heq. injection Heq as <-.
      eapply local_with_mono; [exact Hx2| |by apply Hl1]. lia.
    + rewrite lookup_app_r in Hss by lia.
      replace (insts (ag_rir g0) + i)%nat with (insts (ag_rir g1) + (i - length os1))%nat in Hinst by lia.
      pose proof (Hl2 _ _ _ Hinst Hss) as Hl. unfold ninsts in *.
      replace (Z.of_nat (insts (ag_rir g0)) + Z.of_nat i)
        with (Z.of_nat (insts (ag_rir g1)) + Z.of_nat (i - length os1)) by lia.
      eapply local_with_mono; [reflexivity| |exact Hl]. lia.
  - eapply pairwise_perm; [exact Hperm|]. rewrite app_assoc. apply pairwise_app. split; [done|]. split; [done|].
    eapply list.Forall_impl; [exact Hn1|]. intros s Hs. eapply list.Forall_impl; [exact Hn2|].
    intros t Ht. by eapply inside_disjoint.
  - rewrite <-Hperm, app_assoc. apply list.Forall_app.
    split; (eapply list.Forall_impl; [eassumption|]; intros s; apply inside_mono; unfold nwords, words; lia).
  - apply list.Forall_app. split; [|done]. eapply list.Forall_impl; [exact Hp1|]. intros s. by apply stored_mono.
  - exists (fs1 ++ fs2). split; [by rewrite Hf2, Hf1, (assoc_L (++))|]. split.
    + apply list.Forall_app. split; (eapply list.Forall_impl; [eassumption|]; intros f; apply function_ok_mono; try done);
        unfold ninsts, insts in *; lia.
    + eapply (functions_sorted (ag_rir g2) (ninsts g1)); try done.
      eapply list.Forall_impl; [exact Hok1|]. intros f Hf. pose proof (fn_bounds _ _ _ Hf). unfold ninsts. lia.
Qed.
Lemma At_trans g0 g1 g2 p1 p2 : At g0 p1 g1 → At g1 p2 g2 → At g0 (p1 ++ p2) g2.
Proof. intros [os1 H1] [os2 H2]. eexists. by eapply run_trans. Qed.

(** References to instructions made since [g0]. *)
Definition Refs g0 g (l : list InstRef) : Prop := Forall (λ x, ninsts g0 ≤ x < ninsts g) l.
Lemma Refs_mono g0 g g' l : ninsts g ≤ ninsts g' → Refs g0 g l → Refs g0 g' l.
Proof. intros Hle Hl. eapply list.Forall_impl; [exact Hl|]. intros x Hx. simpl in *. lia. Qed.
Lemma Refs_down g0 g1 g l : ninsts g0 ≤ ninsts g1 → Refs g1 g l → Refs g0 g l.
Proof. intros Hle Hl. eapply list.Forall_impl; [exact Hl|]. intros x Hx. simpl in *. lia. Qed.
Lemma Refs_app g0 g l l' : Refs g0 g (l ++ l') ↔ Refs g0 g l ∧ Refs g0 g l'.
Proof. apply list.Forall_app. Qed.
Lemma Refs_cons g0 g x l : Refs g0 g (x :: l) ↔ Refs g0 g [x] ∧ Refs g0 g l.
Proof. apply (Refs_app g0 g [x] l). Qed.
Lemma Refs_nil g0 g : Refs g0 g [].
Proof. constructor. Qed.

(** ** Instructions *)
Lemma add_inst_Done inst (r r' : Rir Spur) i :
  rir_add_inst inst r = Done (i, r') →
  i = Z.of_nat (insts r) ∧ r' = set_r_instructions (r_instructions r ++ [inst]) r.
Proof.
  unfold rir_add_inst, U32_MAX. case_decide as Hl; [|done]. intros [= <- <-]. split; [|done].
  apply len_u32_small. unfold insts. lia.
Qed.
Lemma emit_run data span g0 os pend g i g' :
  run g0 os pend g → emit data span g = Done (i, g') → map sg_payload pend = payloads data →
  Refs g0 g (operands data ++ flat_map sg_refs pend) →
  run g0 (os ++ [pend]) [] g' ∧ i = ninsts g ∧ ninsts g' = ninsts g + 1.
Proof.
  intros [Hi Hx Hc Hl Ha Hn Hp (fs & Hf & Hok & Hs)] He Hpay Hr. unfold emit in He.
  apply bind_Done in He as ([i' r'] & [-> ->]%add_inst_Done & [= <- <-]).
  assert (Hni : r_instructions (ag_rir g) `prefix_of` r_instructions (ag_rir g) ++ [MkRirInst data span])
    by by apply prefix_app_r.
  assert (Hinst : insts (set_r_instructions (r_instructions (ag_rir g) ++ [MkRirInst data span]) (ag_rir g)) =
    S (insts (ag_rir g))) by (unfold insts; simpl; rewrite length_app; simpl; lia).
  split; [|split; [done|unfold ninsts; simpl; lia]]. split; simpl.
  - by etrans.
  - done.
  - rewrite length_app, Hinst. simpl. lia.
  - intros j inst ss Hj Hss. apply lookup_app_Some in Hss as [Hss|[Hge Hss]].
    + assert (Hlt := lookup_lt_Some _ _ _ Hss). rewrite lookup_app_l in Hj by (unfold insts in *; lia).
      eapply (local_with_mono (ag_rir g)); [done|reflexivity|]. by apply Hl.
    + apply list_lookup_singleton_Some in Hss as [Hj0 <-].
      assert (j = length os) as -> by lia. rewrite lookup_app_r in Hj by (unfold insts in *; lia).
      replace (insts (ag_rir g0) + length os - length (r_instructions (ag_rir g)))%nat with 0%nat in Hj
        by (unfold insts in *; lia). injection Hj as <-. simpl.
      split; [done|]. split; [done|]. unfold Refs, ninsts in Hr |- *.
      by replace (Z.of_nat (insts (ag_rir g0)) + Z.of_nat (length os)) with (Z.of_nat (insts (ag_rir g))) by lia.
  - rewrite concat_app. simpl. by rewrite !app_nil_r.
  - rewrite concat_app. simpl. by rewrite !app_nil_r.
  - constructor.
  - exists fs. split; [done|]. split; [|done]. eapply list.Forall_impl; [exact Hok|]. intros f.
    apply function_ok_mono; simpl; [done|done|unfold ninsts; lia].
Qed.

(** ** Payloads *)
Lemma store_run k items g0 os pend g s n g' :
  run g0 os pend g → store k items g = Done (s, n, g') →
  run g0 os (pend ++ [MkSeg k s n items (nwords g) (nwords g')]) g' ∧ ninsts g' = ninsts g.
Proof.
  intros Hrun He. pose proof Hrun as [Hi Hx Hc Hl Ha Hn Hp (fs & Hf & Hok & Hs)]. unfold store in He.
  apply bind_Done in He as ([[s' n'] r'] & Hadd & [= <- <- <-]).
  assert (Hstep : rir_step (ag_rir g) r') by (eapply step_payload; exact Hadd).
  assert (Hpre := rir_step_prefix _ _ Hstep).
  assert (Hsame : r_instructions r' = r_instructions (ag_rir g) ∧ r_function_spans r' = r_function_spans (ag_rir g)).
  { clear -Hadd. destruct k; simpl in Hadd;
      repeat match goal with
      | H : add_inst_refs _ _ = _ |- _ => unfold add_inst_refs in H
      | H : _ ≫= _ = Done _ |- _ => apply bind_Done in H as (? & ? & H)
      end; unfold add_symbols, add_enum_variant_decls, rir_add_call_args, add_params, add_match_arms, add_field_inits,
        add_field_decls_with_vis, add_directives, add_destructure_fields, add_checked, add_pushed, rir_add_extra in *;
      repeat match goal with
      | H : _ ≫= _ = Done _ |- _ => apply bind_Done in H as (? & ? & H)
      | H : (let '(_, _) := ?x in _) = Done _ |- _ => destruct x
      | H : context [decide ?P] |- _ => case_decide
      | H : mret _ = Done _ |- _ => injection H as H
      | H : Done _ = Done _ |- _ => injection H as H
      end; subst; try done. }
  destruct Hsame as [Hsi Hsf].
  assert (Hwords : (nwords g ≤ words r')%nat) by (by apply prefix_length).
  assert (insts r' = insts (ag_rir g)) as Hni by (unfold insts; by rewrite Hsi).
  split; [|unfold ninsts; simpl; by rewrite Hni]. split; simpl.
  - by rewrite Hsi.
  - by etrans.
  - by rewrite Hni.
  - intros j inst ss. rewrite Hsi. intros Hj Hss. eapply local_with_mono; [exact Hpre|reflexivity|by apply Hl].
  - rewrite app_assoc. apply pairwise_app. split; [done|]. split; [by repeat constructor|].
    eapply list.Forall_impl; [exact Hn|]. intros t Ht. apply list.Forall_singleton.
    apply (inside_disjoint (nwords g0) (nwords g) (words r')); [exact Ht|]. right. unfold nwords in *. simpl. lia.
  - rewrite app_assoc. apply list.Forall_app. split.
    + eapply list.Forall_impl; [exact Hn|]. intros t. apply inside_mono; unfold nwords in *; simpl; lia.
    + apply list.Forall_singleton. right. simpl. apply prefix_length in Hx. unfold nwords, words in *. simpl. lia.
  - apply list.Forall_app. split; [eapply list.Forall_impl; [exact Hp|]; intros t; by apply stored_mono|].
    apply list.Forall_singleton. by exists (ag_rir g), r'.
  - exists fs. rewrite Hsf. split; [done|]. split; [|done]. eapply list.Forall_impl; [exact Hok|]. intros f.
    apply function_ok_mono; [by rewrite Hsi|done|unfold ninsts; lia].
Qed.

(** An empty payload that was never stored. *)
Definition no_directives : Seg := MkSeg KDirectives 0 0 [] 0 0.
Lemma At_no_directives g0 pend g : At g0 pend g → At g0 (pend ++ [no_directives]) g.
Proof.
  intros [os [Hi Hx Hc Hl Ha Hn Hp Hf]]. exists os. split; try done.
  - rewrite app_assoc. apply pairwise_app. split; [done|]. split; [by repeat constructor|].
    eapply list.Forall_impl; [exact Hn|]. intros t _. apply list.Forall_singleton. right. simpl. lia.
  - rewrite app_assoc. apply list.Forall_app. split; [done|]. apply list.Forall_singleton. by left.
  - apply list.Forall_app. split; [done|]. apply list.Forall_singleton. exists new_rir, new_rir. repeat split; try done.
    simpl. apply prefix_nil.
Qed.

(** ** Rules *)
Definition Follows {A} (m : Gen A) (K : A → AstGen → Prop) g : Prop := ∀ a g', m g = Done (a, g') → K a g'.
(** A generator that leaves nothing pending; [rf] are the references of its result. *)
Definition gen_ok {A} (rf : A → list InstRef) (m : Gen A) : Prop :=
  ∀ g, Follows m (λ a g', At g [] g' ∧ Refs g g' (rf a)) g.

Lemma Follows_bind {A B} (m : Gen A) (k : A → Gen B) K g : Follows m (λ a, Follows (k a) K) g → Follows (m ≫= k) K g.
Proof. intros H b g' ([a g1] & Hm & Hk)%bind_Done. by apply (H a g1). Qed.
Lemma Follows_ret {A} (a : A) (K : A → AstGen → Prop) g : K a g → Follows (mret a) K g.
Proof. by intros HK b g' [= <- <-]. Qed.
Lemma Follows_panic {A} (K : A → AstGen → Prop) g : Follows (lift_st Panic) K g.
Proof. by intros a g'. Qed.
Lemma Follows_use {A} (rf : A → list InstRef) m (K : A → AstGen → Prop) g0 pend g :
  gen_ok rf m → At g0 pend g →
  (∀ a g', At g0 pend g' → ninsts g ≤ ninsts g' → Refs g0 g' (rf a) → K a g') → Follows m K g.
Proof.
  intros Hm Hat HK a g' Hg. destruct (Hm g a g' Hg) as [Hat' Hr]. apply HK.
  - rewrite <-(app_nil_r pend). by eapply At_trans.
  - by apply (At_le _ _ _ Hat').
  - eapply Refs_down; [|exact Hr]. by apply (At_le _ _ _ Hat).
Qed.
Lemma Follows_emit data span (K : InstRef → AstGen → Prop) g0 pend g :
  At g0 pend g → map sg_payload pend = payloads data → Refs g0 g (operands data ++ flat_map sg_refs pend) →
  (∀ i g', At g0 [] g' → ninsts g ≤ ninsts g' → Refs g0 g' [i] → K i g') → Follows (emit data span) K g.
Proof.
  intros [os Hrun] Hp Hr HK i g' Hg. destruct (At_le _ _ _ (ex_intro _ os Hrun)) as [Hle _].
  destruct (emit_run _ _ _ _ _ _ _ _ Hrun Hg Hp Hr) as (Hrun' & -> & Hn).
  apply HK; [by eexists|lia|]. repeat constructor; lia.
Qed.
Lemma Follows_store k items (K : Z * Z → AstGen → Prop) g0 pend g :
  At g0 pend g →
  (∀ s n seg g', sg_payload seg = (k, s, n) → sg_refs seg = flat_map (item_refs k) items →
     At g0 (pend ++ [seg]) g' → ninsts g ≤ ninsts g' → K (s, n) g') →
  Follows (store k items) K g.
Proof.
  intros [os Hrun] HK [s n] g' Hg. destruct (store_run _ _ _ _ _ _ _ _ _ Hrun Hg) as [Hrun' Hn].
  refine (HK _ _ _ _ _ _ (ex_intro _ _ Hrun') _); [done|done|lia].
Qed.

Lemma gen_ok_weaken {A} (rf rf' : A → list InstRef) m :
  gen_ok rf m → (∀ g0 g a, Refs g0 g (rf a) → Refs g0 g (rf' a)) → gen_ok rf' m.
Proof. intros Hm Hw g a g' Hg. destruct (Hm g a g' Hg). auto. Qed.
(** Generators over lists, with a predicate [P] on the elements. *)
#[universes(polymorphic)]
Lemma each_ok@{s;u +} {A B} (P : A → Type@{s;u}) (rf : B → list InstRef) (f : A → Gen B) (l : list A) :
  list_all P l → (∀ x, P x → gen_ok rf (f x)) → gen_ok (flat_map rf) (each f l).
Proof.
  intros Hl Hf. induction Hl as [|x Hx l _ IH]; intros g; simpl.
  - apply Follows_ret. split; [apply At_refl|apply Refs_nil].
  - apply Follows_bind. eapply Follows_use; [by apply Hf|apply At_refl|]. intros y g1 Hat Hn Hy.
    apply Follows_bind. eapply Follows_use; [exact IH|exact Hat|]. intros ys g2 Hat2 Hn2 Hys.
    apply Follows_ret. split; [done|]. simpl. apply Refs_app. split; [by eapply Refs_mono|done].
Qed.
#[universes(polymorphic)]
Lemma each_i_ok@{s;u +} {A B} (P : A → Type@{s;u}) (rf : B → list InstRef) (f : nat → A → Gen B) (l : list A) i :
  list_all P l → (∀ j x, P x → gen_ok rf (f j x)) → gen_ok (flat_map rf) (each_i f i l).
Proof.
  intros Hl Hf. revert i. induction Hl as [|x Hx l _ IH]; intros i g; simpl.
  - apply Follows_ret. split; [apply At_refl|apply Refs_nil].
  - apply Follows_bind. eapply Follows_use; [by apply Hf|apply At_refl|]. intros y g1 Hat Hn Hy.
    apply Follows_bind. eapply Follows_use; [apply IH|exact Hat|]. intros ys g2 Hat2 Hn2 Hys.
    apply Follows_ret. split; [done|]. simpl. apply Refs_app. split; [by eapply Refs_mono|done].
Qed.
#[universes(polymorphic)]
Lemma each_opt_ok@{s;u +} {A B} (P : A → Type@{s;u}) (rf : B → list InstRef) (f : A → Gen B) (o : option A) :
  option_all P o → (∀ x, P x → gen_ok rf (f x)) → gen_ok (λ o, flat_map rf (option_list o)) (each_opt f o).
Proof.
  intros Ho Hf g. destruct Ho as [x Hx|]; simpl.
  - apply Follows_bind. eapply Follows_use; [by apply Hf|apply At_refl|]. intros y g1 Hat Hn Hy.
    apply Follows_ret. simpl. by rewrite app_nil_r.
  - apply Follows_ret. split; [apply At_refl|apply Refs_nil].
Qed.

(** Generators that leave the file alone: names and types. *)
Definition quiet {A} (m : Gen A) : Prop := ∀ g, Follows m (λ _ g', ag_rir g' = ag_rir g) g.
Lemma quiet_gen_ok {A} (m : Gen A) : quiet m → gen_ok (λ _, []) m.
Proof.
  intros Hm g a g' Hg. specialize (Hm g a g' Hg). simpl in Hm. split; [|apply Refs_nil].
  destruct (At_refl g) as [os [? ? ? ? ? ? ? ?]]. exists os. split; unfold nwords in *; by rewrite ?Hm.
Qed.
Lemma quiet_ret {A} (a : A) : quiet (mret a).
Proof. intros g. by apply Follows_ret. Qed.
Lemma quiet_panic {A} : quiet (lift_st (Panic (A := A))).
Proof. intros g. apply Follows_panic. Qed.
Lemma quiet_bind {A B} (m : Gen A) (k : A → Gen B) : quiet m → (∀ a, quiet (k a)) → quiet (m ≫= k).
Proof.
  intros Hm Hk g. apply Follows_bind. intros a g1 Hg1 b g2 Hg2. simpl in *.
  rewrite (Hk a g1 b g2 Hg2). exact (Hm g a g1 Hg1).
Qed.
#[universes(polymorphic)]
Lemma quiet_each@{s;u +} {A B} (P : A → Type@{s;u}) (f : A → Gen B) (l : list A) :
  list_all P l → (∀ x, P x → quiet (f x)) → quiet (each f l).
Proof.
  intros Hl Hf. induction Hl as [|x Hx l _ IH]; simpl; [apply quiet_ret|].
  apply quiet_bind; [by apply Hf|]. intros y. apply quiet_bind; [done|]. intros ys. apply quiet_ret.
Qed.
Lemma quiet_each_opt {A B} (f : A → Gen B) (o : option A) : (∀ x, quiet (f x)) → quiet (each_opt f o).
Proof. intros Hf. destruct o; simpl; [|apply quiet_ret]. apply quiet_bind; [done|]. intros y. apply quiet_ret. Qed.
End Runs.

(** ** Names and types *)
Create HintDb gen.
#[export] Hint Resolve quiet_ret quiet_panic : gen.
Lemma any_all {A} (l : list A) : list_all (λ _, True) l.
Proof. by apply list_all_forall. Qed.

Section Names.
Context {I Spur : Type} `{!SpurKey Spur, !Interner I Spur}.
Context (debug_expr : Expr Spur → string).
Notation quiet m := (quiet (I := I) (Spur := Spur) m).

Lemma quiet_intern s : quiet (intern s).
Proof. intros g a g'. unfold intern. destruct (get_or_intern _ _) as [k i]. by intros [= <- <-]. Qed.
Lemma quiet_name_of k : quiet (name_of k).
Proof. intros g a g' (s & _ & [= <- <-])%bind_Done. done. Qed.
Lemma quiet_fresh : quiet fresh_nested_pat_name.
Proof. intros g a g' (c & _ & H)%bind_Done. by apply quiet_intern in H. Qed.
#[local] Hint Resolve quiet_intern quiet_name_of quiet_fresh : gen.

Ltac hush :=
  repeat match goal with
  | |- _ (_ ≫= _) => apply quiet_bind; [solve [eauto with gen]|intros ?]
  | |- _ (match ?x with _ => _ end) => destruct x
  end; eauto with gen.
Lemma quiet_type_text (it : TypeExpr Spur → ST (AstGen I Spur) Spur) t : quiet (it t) → quiet (type_text it t).
Proof. intros Ht. unfold type_text. hush. Qed.
Lemma quiet_field_text (it : TypeExpr Spur → ST (AstGen I Spur) Spur) n t : quiet (it t) → quiet (field_text it n t).
Proof. intros Ht. unfold field_text. apply (quiet_type_text it t) in Ht. hush. Qed.
Lemma quiet_variant_text (it : TypeExpr Spur → ST (AstGen I Spur) Spur) v :
  EnumVariant_all (λ _, unit) (λ t, quiet (it t)) v → quiet (variant_text it v).
Proof.
  intros [doc name _ kind Hk span]. unfold variant_text. simpl. apply quiet_bind; [eauto with gen|]. intros n.
  destruct Hk as [|types Hl|fields Hl].
  - eauto with gen.
  - apply quiet_bind; [|eauto with gen]. eapply quiet_each; [exact Hl|]. intros t. apply quiet_type_text.
  - apply quiet_bind; [|eauto with gen]. eapply (quiet_each (λ f, quiet (it (evf_ty f)))).
    + clear -Hl. induction Hl as [|f Hf fs _ IH]; constructor; [by destruct Hf|done].
    + intros f. apply quiet_field_text.
Qed.
#[local] Hint Resolve quiet_type_text quiet_field_text quiet_variant_text : gen.

Lemma quiet_intern_type ty : quiet (intern_type ty).
Proof.
  apply (@TypeExpr_mind Spur (λ _, True) (λ _, True) (λ t, quiet (intern_type t))); try done; intros; simpl; hush.
  - apply quiet_bind; [|eauto with gen]. apply (quiet_each (λ f, quiet (intern_type (asf_ty f)))); [|eauto with gen].
    match goal with H : list_all _ fields |- _ => induction H as [|f Hf fs _ IH] end; constructor; [by destruct Hf|done].
  - apply quiet_bind; [|eauto with gen]. eapply quiet_each; [eassumption|]. eauto with gen.
  - apply quiet_bind; [|eauto with gen]. eapply quiet_each; [apply any_all|]. eauto with gen.
  - apply quiet_bind; [|eauto with gen]. eapply quiet_each; [eassumption|]. eauto with gen.
  - apply quiet_bind; [|eauto with gen]. eapply quiet_each; [eassumption|]. eauto with gen.
Qed.
#[local] Hint Resolve quiet_intern_type : gen.

Lemma quiet_expr_as_type_name e : quiet (expr_as_type_name debug_expr e).
Proof.
  apply (@Expr_mind Spur (λ e, quiet (expr_as_type_name debug_expr e)) (λ _, True) (λ _, True));
    try done; intros; simpl; eauto with gen.
  match goal with H : CallExpr_all _ _ _ |- _ => destruct H as [name _ args Hargs span] end. simpl.
  apply quiet_bind; [eauto with gen|]. intros c. apply quiet_bind; [|eauto with gen].
  apply (quiet_each (λ a, quiet (expr_as_type_name debug_expr (ca_expr a)))); [|done].
  induction Hargs as [|a Ha l _ IH]; constructor; [by destruct Ha|done].
Qed.

Lemma quiet_return_type o : quiet (return_type_symbol o).
Proof. unfold return_type_symbol. hush. Qed.
Lemma quiet_types l : quiet (each intern_type l).
Proof. eapply quiet_each; [apply any_all|]. eauto with gen. Qed.
Lemma quiet_params l : quiet (each convert_param l).
Proof. eapply quiet_each; [apply any_all|]. intros x _. unfold convert_param. hush. Qed.
Lemma quiet_variants l : quiet (each convert_variant l).
Proof.
  eapply quiet_each; [apply any_all|]. intros x _. unfold convert_variant. destruct (ev_kind x); hush.
  - apply quiet_bind; [apply quiet_types|eauto with gen].
  - apply quiet_bind; [|eauto with gen]. eapply quiet_each; [apply any_all|]. eauto with gen.
Qed.
Lemma quiet_applied_type_name x : quiet (applied_type_name debug_expr x).
Proof.
  unfold applied_type_name. hush. apply quiet_bind; [|eauto with gen].
  eapply quiet_each; [apply any_all|]. intros ? _. apply quiet_expr_as_type_name.
Qed.
Lemma quiet_type_intrinsic_arg args get : type_intrinsic_arg args = Some get → quiet get.
Proof.
  unfold type_intrinsic_arg. repeat case_match; intros [= <-]; eauto with gen.
Qed.
Lemma quiet_interface_arg a get : interface_arg a = Some get → quiet get.
Proof. unfold interface_arg. repeat case_match; intros [= <-]; eauto with gen. Qed.
Lemma quiet_type_value_name ty : quiet (type_value_name ty).
Proof. unfold type_value_name. hush. Qed.
End Names.
#[export] Hint Resolve quiet_intern quiet_name_of quiet_fresh quiet_intern_type quiet_return_type quiet_types quiet_params
  quiet_variants quiet_applied_type_name quiet_type_intrinsic_arg quiet_interface_arg quiet_type_value_name : gen.
