(* ===== verification/AstGenThm.v ===== *)
(** * Every generator makes well-formed files

    The generators of [AstGen], one lemma each, over the generators of their parts; then the
    induction over the syntax tree, the items, and the file. *)

From stdpp Require Import sorting.
From S2P Require Import Prelude Types AirPattern Air ParamArena Ast Remap Rir RirStore RirMergeThm RirRelocate.
From S2P Require Import RirMergeSpec Intrinsics AstGen AstGenWf.

#[local] Open Scope Z_scope.

(** ** Automation *)
Lemma flat_map_one {A} (l : list A) : flat_map (λ x, [x]) l = l.
Proof. induction l; simpl; congruence. Qed.
Lemma flat_map_none {A B} (l : list A) : flat_map (λ _, []) l = @nil B.
Proof. by induction l. Qed.
Lemma flat_map_self {A} (l : list (list A)) : flat_map (λ x, x) l = concat l.
Proof. induction l; simpl; congruence. Qed.

Lemma omap_options {A} (l : list (option A)) : omap id l = flat_map option_list l.
Proof. induction l as [|[x|] l IH]; [done| |]; cbn; [f_equal|]; exact IH. Qed.
Lemma flat_map_options {A B} (f : A → list B) (l : list (option A)) :
  flat_map f (omap id l) = flat_map (λ o, flat_map f (option_list o)) l.
Proof.
  induction l as [|[x|] l IH]; [done| |exact IH]. simpl. rewrite app_nil_r. f_equal. exact IH.
Qed.

(** Move the references known so far to the state after a step. *)
Ltac bump Hn :=
  lazymatch type of Hn with
  | ninsts ?g ≤ ninsts ?g' =>
      repeat match goal with H : Refs ?g0 g ?l |- _ => apply (Refs_mono g0 g g' l Hn) in H end; clear Hn
  end.
Ltac refs_in H := cbn [option_list flat_map item_refs] in H; rewrite ?flat_map_one, ?flat_map_none, ?flat_map_self in H.
Ltac segs :=
  repeat match goal with
  | H : sg_refs _ = _ |- _ => rewrite H; clear H
  | H : sg_payload _ = _ |- _ => rewrite H; clear H
  end.
Ltac refs :=
  simpl; segs; simpl; rewrite ?flat_map_one, ?flat_map_none, ?flat_map_self, ?app_nil_r;
  repeat match goal with
  | H : Refs ?g0 ?g ?l |- Refs ?g0 ?g ?l => exact H
  | |- Refs _ _ [] => apply Refs_nil
  | |- Refs _ _ (_ ++ _) => apply Refs_app; split
  | |- Refs _ _ (_ :: ?l) => lazymatch l with [] => fail | _ => apply Refs_cons; split end
  end.
(** ** Destructuring lets *)
Section Destructure.
Context {I Spur : Type} `{!SpurKey Spur, !Interner I Spur}.
Notation Gen A := (ST (AstGen I Spur) A).
Notation Child := (Spur * Span * (InstRef → ST (AstGen I Spur) (list InstRef)))%type.

(** A generator of references from a reference it is given. *)
Definition from_ok (f : InstRef → Gen (list InstRef)) : Prop := ∀ v g0 g,
  At g0 [] g → Refs g0 g [v] → Follows (f v) (λ l g', At g0 [] g' ∧ ninsts g ≤ ninsts g' ∧ Refs g0 g' l) g.
Definition child_ok (f : RirDestructureField (Spur := Spur) * option Child) : Prop :=
  match f.2 with Some c => from_ok c.2 | None => True end.
Definition field_ok (m : Gen (RirDestructureField (Spur := Spur) * option Child)) : Prop :=
  quiet m ∧ ∀ g a g', m g = Done (a, g') → child_ok a.

Lemma field_ret a : child_ok a → field_ok (mret a).
Proof. intros Ha. split; [eauto with gen|]. by intros g b g' [= <- <-]. Qed.
Lemma field_bind {A} (m : Gen A) k : quiet m → (∀ a, field_ok (k a)) → field_ok (m ≫= k).
Proof.
  intros Hm Hk. split; [apply quiet_bind; [done|]; intros a; apply Hk|].
  intros g b g' ([a g1] & Hg1 & Hg2)%bind_Done. by eapply Hk.
Qed.
Lemma field_panic : field_ok (lift_st Panic).
Proof. split; [eauto with gen|done]. Qed.

Section Fields.
Context (rec : Pattern Spur → InstRef → Span → Gen (list InstRef)).
Definition pattern_ok (p : Pattern Spur) : Prop := ∀ span, from_ok (λ v, rec p v span).
Lemma destructure_field_ok name shorthand sub : pattern_ok sub → field_ok (destructure_field rec name shorthand sub).
Proof.
  intros Hs. unfold destructure_field.
  destruct sub; try apply field_panic; try (by apply field_ret);
    (apply field_bind; [eauto with gen|]; intros fresh; apply field_ret; apply Hs).
Qed.
Lemma struct_destructure_field_ok fp :
  FieldPattern_all (λ _, unit) pattern_ok fp → field_ok (struct_destructure_field rec fp).
Proof.
  intros [name _ sub Hsub is_mut span]. unfold struct_destructure_field. simpl.
  destruct name as [name|]; [|by apply field_bind; [eauto with gen|]; intros dots; apply field_ret].
  destruct Hsub as [sub Hsub|]; [by apply destructure_field_ok|by apply field_ret].
Qed.
Lemma tuple_destructure_field_ok rest len i elem :
  TupleElemPattern_all pattern_ok elem → field_ok (tuple_destructure_field rec rest len i elem).
Proof.
  intros [sub Hsub|span]; simpl; (apply field_bind; [eauto with gen|]); intros n; [by apply destructure_field_ok|].
  by apply field_ret.
Qed.
End Fields.

(** The fields are made without touching the file, and their children are good. *)
#[universes(polymorphic)]
Lemma each_fields@{s;u +} {A} (P : A → Type@{s;u}) f l :
  list_all P l → (∀ x : A, P x → field_ok (f x)) →
  quiet (each f l) ∧ ∀ g a g', each f l g = Done (a, g') → Forall child_ok a.
Proof.
  intros Hl Hf. split; [eapply quiet_each; [exact Hl|]; intros x Hx; by apply Hf|].
  induction Hl as [|x Hx l _ IH]; simpl; intros g a g'; [by intros [= <- <-]|].
  intros ([y g1] & Hy & ([ys g2] & Hys & [= <- <-])%bind_Done)%bind_Done.
  constructor; [by eapply (Hf x Hx)|by eapply IH].
Qed.
#[universes(polymorphic)]
Lemma each_i_fields@{s;u +} {A} (P : A → Type@{s;u}) f l i :
  list_all P l → (∀ j (x : A), P x → field_ok (f j x)) →
  quiet (each_i f i l) ∧ ∀ g a g', each_i f i l g = Done (a, g') → Forall child_ok a.
Proof.
  intros Hl Hf. revert i. induction Hl as [|x Hx l _ IH]; simpl; intros i; [split; [eauto with gen|by intros g a g' [= <- <-]]|].
  destruct (IH (S i)) as [Hq Hc]. split.
  - apply quiet_bind; [by apply Hf|]. intros y. apply quiet_bind; [done|eauto with gen].
  - intros g a g' ([y g1] & Hy & ([ys g2] & Hys & [= <- <-])%bind_Done)%bind_Done.
    constructor; [by eapply (Hf i x Hx)|by eapply Hc].
Qed.

Lemma emit_children_ok (l : list Child) g0 g :
  Forall (λ c, from_ok c.2) l → At g0 [] g →
  Follows (each emit_child l) (λ ls g', At g0 [] g' ∧ ninsts g ≤ ninsts g' ∧ Refs g0 g' (concat ls)) g.
Proof.
  intros Hl. revert g. induction Hl as [|[[name span] go] l Hc _ IH]; simpl; intros g Hat.
  - apply Follows_ret. split; [done|]. split; [lia|apply Refs_nil].
  - apply Follows_bind. unfold emit_child. apply Follows_bind.
    apply (Follows_emit _ _ _ g0 [] g Hat); [done|apply Refs_nil|]. intros v g1 Hat1 Hn1 Hv.
    intros y g2 Hy. destruct (Hc v g0 g1 Hat1 Hv y g2 Hy) as (Hat2 & Hn2 & Hr2).
    apply Follows_bind. intros ys g3 Hys. destruct (IH g2 Hat2 ys g3 Hys) as (Hat3 & Hn3 & Hr3).
    apply Follows_ret. split; [done|]. split; [lia|]. simpl. apply Refs_app. split; [by eapply Refs_mono|done].
Qed.
Lemma emit_destructure_ok type_name fields span :
  Forall child_ok fields → from_ok (λ v, emit_destructure type_name fields v span).
Proof.
  intros Hf v g0 g Hat Hv. unfold emit_destructure. apply Follows_bind.
  apply (Follows_store _ _ _ g0 [] g Hat). intros s n seg g1 Hp Hr Hat1 Hn1.
  apply Follows_bind. apply (Follows_emit _ _ _ g0 _ g1 Hat1).
  { simpl. by rewrite Hp. }
  { simpl. rewrite Hr. simpl. rewrite flat_map_none. simpl. by eapply Refs_mono. }
  intros i g2 Hat2 Hn2 Hi. apply Follows_bind. intros ls g3 Hls.
  destruct (λ H, emit_children_ok (omap snd fields) g0 g2 H Hat2 ls g3 Hls) as (Hat3 & Hn3 & Hr3).
  { clear -Hf. induction Hf as [|[fd [c|]] fields Hc _ IH]; simpl; [constructor|by constructor|done]. }
  apply Follows_ret. split; [done|]. split; [lia|]. apply Refs_cons. split; [by eapply Refs_mono|done].
Qed.
Lemma quiet_then {A} (m : Gen A) (k : A → Gen (list InstRef)) (Q : A → Prop) v g0 g :
  quiet m → (∀ g a g', m g = Done (a, g') → Q a) → At g0 [] g → Refs g0 g [v] →
  (∀ a g', Q a → At g0 [] g' → Refs g0 g' [v] →
     Follows (k a) (λ l g'', At g0 [] g'' ∧ ninsts g' ≤ ninsts g'' ∧ Refs g0 g'' l) g') →
  Follows (m ≫= k) (λ l g', At g0 [] g' ∧ ninsts g ≤ ninsts g' ∧ Refs g0 g' l) g.
Proof.
  intros Hm HQ Hat Hv Hk. apply Follows_bind. intros a g1 Hg1.
  assert (ninsts g1 = ninsts g) as Hn by (unfold ninsts; by rewrite (Hm g a g1 Hg1)).
  assert (At g0 [] g1 ∧ Refs g0 g1 [v]) as [Hat1 Hv1].
  { split; [|by eapply Refs_mono; [|exact Hv]; lia].
    eapply (Follows_use (λ _, []) m (λ _ g1, At g0 [] g1)); [by apply quiet_gen_ok|exact Hat|auto|exact Hg1]. }
  rewrite <-Hn. apply Hk; [by eapply HQ|done|done].
Qed.
Lemma emit_let_destructure_ok p : pattern_ok emit_let_destructure_into p.
Proof.
  apply (@Pattern_mind Spur (λ _, True) (pattern_ok emit_let_destructure_into) (λ _, True)); try done;
    intros; intros span0 v g0 g Hat Hv; simpl.
  - match goal with H : list_all _ fields |- _ => eapply each_fields in H as [Hq Hc] end;
      [|intros; by apply struct_destructure_field_ok].
    eapply quiet_then; try done. intros fs g1 Hfs Hat1 Hv1. by apply emit_destructure_ok.
  - match goal with H : list_all _ elems |- _ => eapply (each_i_fields _ _ _ 0) in H as [Hq Hc] end;
      [|intros; by apply tuple_destructure_field_ok].
    eapply quiet_then; try done. intros fs g1 Hfs Hat1 Hv1.
    eapply (quiet_then (intern "__tuple__") _ (λ _, True)); try done; [eauto with gen|].
    intros name g2 _ Hat2 Hv2. by apply emit_destructure_ok.
Qed.
Lemma Follows_destructure p v span (K : list InstRef → AstGen I Spur → Prop) g0 g :
  At g0 [] g → Refs g0 g [v] → (∀ l g', At g0 [] g' → ninsts g ≤ ninsts g' → Refs g0 g' l → K l g') →
  Follows (emit_let_destructure_into p v span) K g.
Proof. intros Hat Hv HK l g' Hl. destruct (emit_let_destructure_ok p span v g0 g Hat Hv l g' Hl) as (? & ? & ?). auto. Qed.
Lemma Follows_first l (K : InstRef → AstGen I Spur → Prop) g0 g :
  Refs g0 g l → (∀ x, Refs g0 g [x] → K x g) → Follows (lift_st (expect (l !! 0%nat))) K g.
Proof.
  intros Hl HK x g'. destruct l as [|y l]; [done|]. intros [= <- <-]. apply HK. by apply Refs_cons in Hl as [Hy _].
Qed.
End Destructure.

(** Follow a generator to its end. *)
Ltac step :=
  lazymatch goal with
  | |- Follows (_ ≫= _) _ _ => apply Follows_bind
  | |- Follows (mret _) _ _ => apply Follows_ret; cbv beta
  | |- Follows (lift_st Panic) _ _ => apply Follows_panic
  | |- Follows (match ?x with _ => _ end) _ _ => destruct x
  | Hat : At ?g0 ?pend ?g |- Follows (store ?k ?items) _ ?g =>
      apply (Follows_store k items _ g0 pend g Hat);
      let s := fresh "start" in let n := fresh "len" in let seg := fresh "seg" in let g' := fresh "g" in
      let Hp := fresh "Hpay" in let Hr := fresh "Hsref" in let Hat' := fresh "Hat" in let Hn := fresh "Hn" in
      intros s n seg g' Hp Hr Hat' Hn; cbn [app] in Hat'; bump Hn; clear Hat; cbv beta iota
  | Hat : At ?g0 ?pend ?g |- Follows (emit ?data ?span) _ ?g =>
      apply (Follows_emit data span _ g0 pend g Hat); [simpl; segs; reflexivity|solve [refs]|];
      let i := fresh "inst" in let g' := fresh "g" in let Hat' := fresh "Hat" in
      let Hn := fresh "Hn" in let Hr := fresh "Hr" in
      intros i g' Hat' Hn Hr; bump Hn; clear Hat
  | Hat : At ?g0 [] ?g |- Follows (emit_let_destructure_into ?p ?v ?span) _ ?g =>
      apply (Follows_destructure p v span _ g0 g Hat); [assumption|];
      let l := fresh "l" in let g' := fresh "g" in let Hat' := fresh "Hat" in
      let Hn := fresh "Hn" in let Hr := fresh "Hr" in
      intros l g' Hat' Hn Hr; bump Hn; clear Hat
  | Hr : Refs ?g0 ?g ?l |- Follows (lift_st (expect (?l !! 0%nat))) _ ?g =>
      apply (Follows_first l _ g0 g Hr); let x := fresh "x" in let Hx := fresh "Hx" in intros x Hx
  | Hat : At ?g0 ?pend ?g |- Follows ?m _ ?g =>
      eapply (Follows_use _ m _ g0 pend g); [solve [eauto with gen]|exact Hat|];
      let x := fresh "x" in let g' := fresh "g" in let Hat' := fresh "Hat" in
      let Hn := fresh "Hn" in let Hr := fresh "Hr" in
      intros x g' Hat' Hn Hr; bump Hn; refs_in Hr; clear Hat; cbv beta iota
  | |- At _ _ _ ∧ Refs _ _ _ => split; [assumption|solve [refs]]
  end.
Ltac gen := match goal with |- gen_ok _ _ => let g := fresh "g" in intros g; pose proof (At_refl g) end; repeat step.
#[export] Hint Resolve quiet_gen_ok each_ok each_i_ok each_opt_ok : gen.

(** ** Declarations without bodies *)
Section Decls.
Context {I Spur : Type} `{!SpurKey Spur, !Interner I Spur}.
Notation ok1 m := (gen_ok (I := I) (Spur := Spur) (λ x, [x]) m).

Lemma gen_method_sig_ok sig : ok1 (gen_method_sig sig).
Proof. unfold gen_method_sig, store_params, store_directives. gen. Qed.
#[local] Hint Resolve gen_method_sig_ok : gen.
Lemma gen_method_sigs_ok l : gen_ok (I := I) (flat_map (λ x, [x])) (each gen_method_sig l).
Proof. eapply each_ok; [apply any_all|]. eauto with gen. Qed.
#[local] Hint Resolve gen_method_sigs_ok : gen.
Lemma gen_interface_ok iface : ok1 (gen_interface iface).
Proof. unfold gen_interface, store_directives. gen. Qed.
End Decls.

(** ** Functions *)
Section Functions.
Context {I Spur : Type} `{!SpurKey Spur, !Interner I Spur}.
Notation AstGen := (AstGen I Spur).
Implicit Types (g : AstGen).

(** Recording a function after the file it describes. *)
Lemma add_function_run g0 os pend g f g' :
  run g0 os pend g → function_ok (ag_rir g) (ninsts g0) f →
  Forall (λ f', fs_decl f' < fs_decl f) (drop (length (r_function_spans (ag_rir g0))) (r_function_spans (ag_rir g))) →
  ag_rir g' = add_function_span f (ag_rir g) → run g0 os pend g'.
Proof.
  intros [Hi Hx Hc Hl Ha Hn Hp (fs & Hf & Hok & Hs)] Hfok Hlt Hg'.
  rewrite Hf, drop_app_length in Hlt.
  split; unfold nwords in *; rewrite ?Hg'; try done. exists (fs ++ [f]). simpl. rewrite Hf, <-(assoc_L (++)).
  split; [done|]. split.
  - apply list.Forall_app. split; [|by apply list.Forall_singleton; destruct Hfok; split].
    eapply list.Forall_impl; [exact Hok|]. intros f' []. by split.
  - clear -Hs Hlt. induction Hs as [|f' fs Hs IH Hf']; simpl; [by repeat constructor|].
    apply list.Forall_cons in Hlt as [Hlt1 Hlt]. constructor; [by apply IH|]. apply list.Forall_app.
    split; [done|by apply list.Forall_singleton].
Qed.
(** The functions of a run are declared in it. *)
Lemma run_functions_before g0 os pend g :
  run g0 os pend g →
  Forall (λ f, fs_decl f < ninsts g) (drop (length (r_function_spans (ag_rir g0))) (r_function_spans (ag_rir g))).
Proof.
  intros [_ _ _ _ _ _ _ (fs & Hf & Hok & _)]. rewrite Hf, drop_app_length.
  eapply list.Forall_impl; [exact Hok|]. intros f Hf'. pose proof (fn_bounds _ _ _ Hf'). unfold ninsts. lia.
Qed.

Lemma emit_Done data span g i g' :
  emit data span g = Done (i, g') →
  i = ninsts g ∧ ag_rir g' = set_r_instructions (r_instructions (ag_rir g) ++ [MkRirInst data span]) (ag_rir g).
Proof. unfold emit. by intros ([i' r'] & [-> ->]%add_inst_Done & [= <- <-])%bind_Done. Qed.

(** What was generated between [g1] and the declaration is a function. *)
Lemma declared_function g0 os pend g1 g2 g3 ds dn p u name ps pn rt body hs rm span decl :
  run g0 os pend g2 → ninsts g0 ≤ ninsts g1 → At g1 [] g2 → Refs g1 g2 [body] → flat_map sg_refs pend = [] →
  map sg_payload pend = payloads (RFnDecl ds dn p u name ps pn rt body hs rm) →
  emit (RFnDecl ds dn p u name ps pn rt body hs rm) span g2 = Done (decl, g3) →
  function_ok (ag_rir g3) (ninsts g0) (MkFnSpan name (ninsts g1) decl).
Proof.
  intros Hrun Hle [os1 Hin] Hbody Hno Hpay [-> Hg3]%emit_Done. unfold Refs in Hbody. apply list.Forall_cons in Hbody as [Hbody _].
  assert (insts (ag_rir g3) = S (insts (ag_rir g2))) as Hn3 by (unfold insts; rewrite Hg3; simpl; rewrite length_app; simpl; lia).
  pose proof (run_count _ _ _ _ Hin) as Hc. unfold ninsts in *. split; simpl.
  - lia.
  - do 11 eexists. split; [|exact Hbody]. rewrite Hg3, Nat2Z.id. simpl. by rewrite lookup_app_r, Nat.sub_diag.
  - intros j inst Hj Hinst. rewrite Hg3 in Hinst. simpl in Hinst.
    apply lookup_app_Some in Hinst as [Hinst|[Hge Hinst]].
    + assert (Hlt := lookup_lt_Some _ _ _ Hinst).
      destruct (lookup_lt_is_Some_2 os1 (Z.to_nat j - insts (ag_rir g1))) as [ss Hss]; [unfold insts in *; lia|].
      exists ss. replace (Z.to_nat j) with (insts (ag_rir g1) + (Z.to_nat j - insts (ag_rir g1)))%nat in Hinst by lia.
      pose proof (run_local _ _ _ _ Hin _ _ _ Hinst Hss) as Hl. unfold ninsts in Hl.
      replace (Z.of_nat (insts (ag_rir g1)) + Z.of_nat (Z.to_nat j - insts (ag_rir g1))) with j in Hl by lia.
      eapply local_with_mono; [|reflexivity|exact Hl]. by rewrite Hg3.
    + apply list_lookup_singleton_Some in Hinst as [Hj0 <-]. exists pend. split; [done|]. split.
      * eapply list.Forall_impl; [exact (run_pend _ _ _ _ Hrun)|]. intros s. apply stored_mono. by rewrite Hg3.
      * simpl. rewrite Hno. apply list.Forall_singleton. unfold insts in *. lia.
Qed.

Lemma gen_fn_decl_ok ds p u name params rt body receiver span :
  gen_ok (λ x, [x]) body → gen_ok (I := I) (λ x, [x]) (gen_fn_decl ds p u name params rt body receiver span).
Proof.
  intros Hbody g. pose proof (At_refl g). unfold gen_fn_decl, store_directives, store_params. do 8 step.
  match goal with H : At g ?l ?gs |- _ => rename gs into gb; pose proof (At_le _ _ _ H) as [Hle _]; rename H into Hatb end.
  step. intros first gb' [= <- <-]. step. intros b gd Hb. destruct (Hbody gb b gd Hb) as [Hat2 Hr2].
  pose proof (At_trans _ _ _ _ _ Hatb Hat2) as [os Hrun]. rewrite app_nil_r in Hrun.
  step. intros decl ge He. pose proof (emit_Done _ _ _ _ _ He) as [Hdecl Hg3].
  destruct (emit_run _ _ _ _ _ _ _ _ Hrun He) as (Hrun3 & _ & Hn3); [simpl; segs; reflexivity| |].
  { pose proof (Refs_down g _ _ _ Hle Hr2). solve [refs]. }
  assert (current_inst_index (ag_rir gb) = ninsts gb) as ->.
  { unfold emit in He. apply bind_Done in He as ([i r'] & He & _). unfold rir_add_inst in He.
    case_decide; [|done]. unfold current_inst_index, ninsts, insts. apply len_u32_small.
    pose proof (At_le _ _ _ Hat2) as [Hle2 _]. unfold ninsts, insts, U32_MAX in *. lia. }
  step. intros [] gf [= <-]. apply Follows_ret.
  split; [|unfold Refs; apply list.Forall_cons; split; [|done]; destruct (At_le _ _ _ Hat2);
    unfold ninsts, insts in *; simpl in *; lia].
  eexists. eapply (add_function_run _ _ _ ge); [exact Hrun3| |simpl|reflexivity].
  - eapply declared_function; [exact Hrun|exact Hle|exact Hat2|exact Hr2| | |exact He].
    + simpl. segs. simpl. by rewrite !flat_map_none.
    + simpl. segs. reflexivity.
  - rewrite Hg3, Hdecl. by eapply run_functions_before.
Qed.
End Functions.
(** ** Expressions *)
Section Arms.
Context {I Spur : Type} `{!SpurKey Spur, !Interner I Spur}.
Context (is_type_intrinsic : string → bool) (intrinsic_kind : string → option IntrinsicKind).
Context (debug_expr : Expr Spur → string).
Context (gen_expr : Expr Spur → ST (AstGen I Spur) InstRef) (gen_pattern : Pattern Spur → ST (AstGen I Spur) (RirPattern Spur)).
Notation ok1 m := (gen_ok (I := I) (Spur := Spur) (λ x, [x]) m).

(** The hypotheses of the induction. [gen_unary] reaches through an index to the bounds of a
    range. *)
Definition opt_ok (o : option (Expr Spur)) : Prop :=
  gen_ok (λ o, flat_map (λ x, [x]) (option_list o)) (each_opt gen_expr o).
Definition range_ok (e : Expr Spur) : Prop :=
  match e with ExprRange r => opt_ok (ra_lo r) ∧ opt_ok (ra_hi r) | _ => True end.
Definition index_ok (e : Expr Spur) : Prop :=
  match e with ExprIndex i => ok1 (gen_expr (ix_base i)) ∧ range_ok (ix_index i) | _ => True end.
Record expr_ok (e : Expr Spur) : Prop := { expr_gen : ok1 (gen_expr e); expr_range : range_ok e; expr_index : index_ok e }.
Definition pat_ok (p : Pattern Spur) : Prop := gen_ok pattern_refs (gen_pattern p).
Definition type_ok (t : TypeExpr Spur) : Prop := ∀ span, ok1 (gen_type_lit gen_expr t span).
Notation any := (λ _, unit).
#[local] Hint Resolve expr_gen : gen.
#[local] Hint Extern 0 (gen_ok _ (each_opt gen_expr _)) => assumption : gen.

(** Parts that carry one reference each. *)
Lemma opt_exprs_ok o : option_all expr_ok o → opt_ok o.
Proof. intros Ho. eapply each_opt_ok; eauto with gen. Qed.
Lemma exprs_ok l : list_all expr_ok l → gen_ok (flat_map (λ x, [x])) (each gen_expr l).
Proof. intros Hl. eapply each_ok; eauto with gen. Qed.
Lemma call_args_ok l :
  list_all (CallArg_all expr_ok) l → gen_ok (flat_map (λ a, [ra_value a])) (each (convert_call_arg gen_expr) l).
Proof.
  intros Hl. eapply each_ok; [exact Hl|]. intros x Hx. destruct Hx. unfold convert_call_arg. simpl. gen.
Qed.
Lemma field_inits_ok l :
  list_all (FieldInit_all any expr_ok) l → gen_ok (flat_map (λ f, [f.2])) (each (gen_field_init gen_expr) l).
Proof.
  intros Hl. eapply each_ok; [exact Hl|]. intros x Hx. destruct Hx. unfold gen_field_init. simpl. gen.
Qed.
#[local] Hint Resolve opt_exprs_ok exprs_ok call_args_ok field_inits_ok : gen.

(** *** Operators, calls, literals *)
Lemma gen_binary_ok x : BinaryExpr_all expr_ok x → ok1 (gen_binary gen_expr x).
Proof. intros []. unfold gen_binary. simpl. gen. Qed.
Lemma gen_plain_unary_ok x (data : InstRef → InstData Spur) :
  expr_ok (ue_operand x) → (∀ r, payloads (data r) = [] ∧ operands (data r) = [r]) →
  ok1 (operand ← gen_expr (ue_operand x); emit (data operand) (ue_span x)).
Proof.
  intros Hx Hd g. pose proof (At_refl g). step. step. destruct (Hd x0) as [Hp Ho].
  eapply Follows_emit; [eassumption|by rewrite Hp|by rewrite Ho|]. intros. by split.
Qed.
Lemma gen_unary_ok x : UnaryExpr_all expr_ok x → ok1 (gen_unary gen_expr x).
Proof.
  intros [op e He span]. unfold gen_unary. simpl.
  assert (ok1 (operand ← gen_expr e;
     emit match op with
          | OpNeg => RUnary Neg operand | OpNot => RUnary Not operand | OpBitNot => RUnary BitNot operand
          | OpRef => RMakeRef operand false | OpMutRef => RMakeRef operand true
          end span)) as Hplain.
  { apply (gen_plain_unary_ok (MkUnaryExpr op e span)); [done|]. intros r. by destruct op. }
  destruct e; try done. destruct (ix_index _) eqn:Hix; try done.
  destruct (expr_index _ He) as [Hbase Hrange]. rewrite Hix in Hrange. destruct Hrange as [Hlo Hhi].
  destruct op; try done; gen.
Qed.
Lemma gen_call_ok x : CallExpr_all any expr_ok x → ok1 (gen_call gen_expr x).
Proof. intros []. unfold gen_call. simpl. gen. Qed.
Lemma gen_return_ok x : ReturnExpr_all expr_ok x → ok1 (gen_return gen_expr x).
Proof. intros []. unfold gen_return. simpl. gen. Qed.
Lemma gen_struct_lit_ok x : StructLitExpr_all any expr_ok x → ok1 (gen_struct_lit gen_expr x).
Proof. intros []. unfold gen_struct_lit. simpl. gen. Qed.
Lemma gen_enum_struct_lit_ok x : EnumStructLitExpr_all any expr_ok x → ok1 (gen_enum_struct_lit gen_expr x).
Proof. intros []. unfold gen_enum_struct_lit. simpl. gen. Qed.
Lemma gen_field_ok x : FieldExpr_all any expr_ok x → ok1 (gen_field gen_expr x).
Proof. intros []. unfold gen_field. simpl. gen. Qed.
Lemma gen_array_lit_ok x : ArrayLitExpr_all expr_ok x → ok1 (gen_array_lit gen_expr x).
Proof. intros []. unfold gen_array_lit. simpl. gen. Qed.
Lemma gen_index_ok x : IndexExpr_all expr_ok x → ok1 (gen_index gen_expr x).
Proof. intros []. unfold gen_index. simpl. gen. Qed.
Lemma gen_path_ok x : PathExpr_all any expr_ok x → ok1 (gen_path gen_expr x).
Proof. intros []. unfold gen_path. simpl. gen. Qed.
Lemma gen_method_call_ok x : MethodCallExpr_all any expr_ok x → ok1 (gen_method_call gen_expr x).
Proof. intros []. unfold gen_method_call. simpl. gen. Qed.
Lemma gen_assoc_fn_call_ok x : AssocFnCallExpr_all any expr_ok x → ok1 (gen_assoc_fn_call debug_expr gen_expr x).
Proof. intros []. unfold gen_assoc_fn_call. simpl. gen. Qed.
Lemma gen_self_ok x : ok1 (gen_self x).
Proof. unfold gen_self. gen. Qed.
Lemma gen_comptime_ok x : ComptimeBlockExpr_all expr_ok x → ok1 (gen_comptime gen_expr x).
Proof. intros []. unfold gen_comptime. simpl. gen. Qed.
Lemma gen_checked_ok x : CheckedBlockExpr_all expr_ok x → ok1 (gen_checked gen_expr x).
Proof. intros []. unfold gen_checked. simpl. gen. Qed.
Lemma gen_tuple_ok x : TupleExpr_all expr_ok x → ok1 (gen_tuple gen_expr x).
Proof. intros []. unfold gen_tuple. simpl. gen. Qed.
Lemma gen_tuple_index_ok x : TupleIndexExpr_all expr_ok x → ok1 (gen_tuple_index gen_expr x).
Proof. intros []. unfold gen_tuple_index. simpl. gen. Qed.
#[local] Hint Resolve gen_field_ok : gen.

(** *** Intrinsics *)
Lemma intrinsic_args_ok preserve promote span l i :
  list_all (IntrinsicArg_all expr_ok type_ok) l →
  gen_ok (flat_map option_list) (each_i (intrinsic_arg gen_expr preserve promote span) i l).
Proof.
  intros Hl. eapply each_i_ok; [exact Hl|]. intros j x [e He|t _]; simpl; [|gen].
  destruct e; gen.
Qed.
Lemma gen_expr_intrinsic_ok x name :
  IntrinsicCallExpr_all any expr_ok type_ok x → ok1 (gen_expr_intrinsic gen_expr x name).
Proof.
  intros [n _ args Hargs span]. unfold gen_expr_intrinsic. simpl. pose proof intrinsic_args_ok.
  intros g. pose proof (At_refl g). step. step. step. step. rewrite omap_options in *. repeat step.
Qed.
Lemma interface_type_arg_ok a :
  IntrinsicArg_all expr_ok type_ok a → gen_ok (λ p, option_list p.2) (interface_type_arg gen_expr a).
Proof. intros [e He|t _]; simpl; [|gen]. destruct e; gen. Qed.
Lemma gen_intrinsic_ok x :
  IntrinsicCallExpr_all any expr_ok type_ok x → ok1 (gen_intrinsic is_type_intrinsic intrinsic_kind gen_expr x).
Proof.
  intros Hx. pose proof (gen_expr_intrinsic_ok x) as Hplain. specialize (λ n, Hplain n Hx).
  assert (∀ n, ok1 (gen_interface_intrinsic intrinsic_kind gen_expr x n)) as Hiface.
  { intros n. specialize (Hplain n). unfold gen_interface_intrinsic. destruct Hx as [name _ args Hargs span]. simpl in *.
    destruct Hargs as [|a Ha l Hl]; [done|]. destruct Hl as [|b _ l Hl]; [done|]. destruct Hl; [|done].
    case_decide; [|done]. destruct (interface_arg b) as [get|] eqn:Hget; [|done].
    apply quiet_interface_arg in Hget. apply interface_type_arg_ok in Ha. gen. }
  unfold gen_intrinsic. intros g. pose proof (At_refl g). step. step.
  destruct (is_type_intrinsic _); [|by repeat step].
  destruct (type_intrinsic_arg _) as [get|] eqn:Hget; [apply quiet_type_intrinsic_arg in Hget|]; repeat step.
Qed.

(** *** Statements and blocks *)
Lemma gen_let_ok l name is_mut : LetStatement_all any expr_ok pat_ok type_ok l → ok1 (gen_let gen_expr l name is_mut).
Proof. intros []. unfold gen_let, store_directives. simpl. pose proof (@quiet_each_opt I Spur). gen. Qed.
Lemma gen_assign_ok x : AssignStatement_all any expr_ok x → ok1 (gen_assign gen_expr x).
Proof.
  intros [t Ht e He span]. unfold gen_assign. simpl. destruct Ht as [i _|f Hf|ix Hix]; [|destruct Hf|destruct Hix]; gen.
Qed.
Lemma gen_statement_ok s : Statement_all any expr_ok pat_ok type_ok s → ok1 (gen_statement gen_expr s).
Proof.
  intros [l Hl|a Ha|e He]; simpl; [|by apply gen_assign_ok|eauto with gen].
  pose proof Hl as Hl'. destruct Hl' as [ds _ m p _ ty _ e He span]. simpl.
  destruct p; try (by apply gen_let_ok); unfold store_directives; gen.
Qed.
Lemma gen_statement_into_ok s : Statement_all any expr_ok pat_ok type_ok s → gen_ok (λ l, l) (gen_statement_into gen_expr s).
Proof.
  intros Hs. pose proof (gen_statement_ok s Hs) as Hok. unfold gen_statement_into.
  destruct Hs as [l Hl|a Ha|e He]; [|gen..]. destruct Hl as [ds _ m p _ ty _ e He span]. simpl.
  unfold store_directives. destruct p; gen.
Qed.
Lemma gen_block_ok x : BlockExpr_all any expr_ok pat_ok type_ok x → ok1 (gen_block gen_expr x).
Proof.
  intros [l Hl e He span]. unfold gen_block. cbn [bl_statements bl_expr bl_span].
  assert (gen_ok (flat_map (λ l, l)) (each (gen_statement_into gen_expr) l)) as Hss.
  { eapply each_ok; [exact Hl|]. apply gen_statement_into_ok. }
  destruct l as [|st l]; [eauto with gen|]. gen.
Qed.
#[local] Hint Resolve gen_block_ok : gen.
Lemma gen_if_ok x : IfExpr_all any expr_ok pat_ok type_ok x → ok1 (gen_if gen_expr x).
Proof. intros []. unfold gen_if. simpl. pose proof @each_opt_ok. gen. Qed.
Lemma gen_while_ok x : WhileExpr_all any expr_ok pat_ok type_ok x → ok1 (gen_while gen_expr x).
Proof. intros []. unfold gen_while. simpl. gen. Qed.
Lemma gen_for_ok x : ForExpr_all any expr_ok pat_ok type_ok x → ok1 (gen_for gen_expr x).
Proof. intros []. unfold gen_for. simpl. gen. Qed.
Lemma gen_loop_ok x : LoopExpr_all any expr_ok pat_ok type_ok x → ok1 (gen_loop gen_expr x).
Proof. intros []. unfold gen_loop. simpl. gen. Qed.
Lemma gen_comptime_unroll_for_ok x :
  ComptimeUnrollForExpr_all any expr_ok pat_ok type_ok x → ok1 (gen_comptime_unroll_for gen_expr x).
Proof. intros []. unfold gen_comptime_unroll_for. simpl. gen. Qed.

(** *** Matches *)
Lemma elaborate_ident_ok m arm is_mut name span :
  MatchExpr_all expr_ok pat_ok m → expr_ok (ma_body arm) → ok1 (elaborate_ident gen_expr m arm is_mut name span).
Proof.
  intros [e He arms _ sp] Hb. unfold elaborate_ident. simpl. intros g. pose proof (At_refl g). step. step.
  match goal with H : At g [] _ |- _ => apply At_no_directives in H end. repeat step.
Qed.
Lemma elaborate_destructure_ok m arm :
  MatchExpr_all expr_ok pat_ok m → expr_ok (ma_body arm) → ok1 (elaborate_destructure gen_expr m arm).
Proof. intros [e He arms _ sp] Hb. unfold elaborate_destructure. simpl. gen. Qed.
Lemma gen_match_arms_ok m : MatchExpr_all expr_ok pat_ok m → ok1 (gen_match_arms gen_expr gen_pattern m).
Proof.
  intros [e He arms Harms sp]. unfold gen_match_arms. simpl.
  assert (gen_ok (flat_map (item_refs (Spur := Spur) KArms)) (each (gen_arm gen_expr gen_pattern) arms)) as Hl.
  { eapply each_ok; [exact Harms|]. intros arm [p Hp b Hb s]. unfold gen_arm. simpl. unfold pat_ok in Hp. gen. }
  gen.
Qed.
Lemma gen_match_ok m : MatchExpr_all expr_ok pat_ok m → ok1 (gen_match gen_expr gen_pattern m).
Proof.
  intros Hm. pose proof (gen_match_arms_ok m Hm) as Harms. unfold gen_match.
  assert (∀ arm, mx_arms m = [arm] → expr_ok (ma_body arm)) as Hbody.
  { intros arm. destruct Hm as [e He arms Hl sp]. simpl. intros ->. inversion Hl as [|x [p Hp b Hb s] l Hl']. done. }
  destruct (mx_arms m) as [|arm [|]]; try done. specialize (Hbody arm eq_refl).
  destruct (ma_pattern arm); try done;
    first [by apply elaborate_ident_ok|case_match; [by apply elaborate_destructure_ok|done]].
Qed.

(** *** Patterns *)
Definition binding_refs (b : RirPatternBinding Spur (RirPattern Spur)) : list InstRef :=
  match pb_sub_pattern b with Some q => pattern_refs q | None => [] end.
Lemma sub_binding_ok p : pat_ok p → gen_ok binding_refs (sub_binding gen_pattern p).
Proof. unfold pat_ok, sub_binding. intros Hp. gen. Qed.
Lemma rest_binding_ok : gen_ok (I := I) binding_refs rest_binding.
Proof. unfold rest_binding. gen. Qed.
Lemma gen_ret_ok {A} (rf : A → list InstRef) a : rf a = [] → gen_ok (I := I) (Spur := Spur) rf (mret a).
Proof. intros Hr g. apply Follows_ret. rewrite Hr. split; [apply At_refl|apply Refs_nil]. Qed.
Lemma tuple_elem_binding_ok e :
  TupleElemPattern_all pat_ok e → gen_ok binding_refs (tuple_elem_to_rir_binding_or_capture gen_pattern e).
Proof.
  intros [p Hp|sp]; simpl; [|apply rest_binding_ok]. apply sub_binding_ok in Hp. destruct p; try done; by apply gen_ret_ok.
Qed.
Lemma field_binding_ok f :
  FieldPattern_all any pat_ok f → gen_ok binding_refs (field_pattern_to_rir_binding_or_capture gen_pattern f).
Proof.
  intros [n _ sub Hsub m sp]. unfold field_pattern_to_rir_binding_or_capture. simpl.
  destruct n; [|apply rest_binding_ok]. destruct Hsub as [p Hp|]; [|by apply gen_ret_ok].
  apply sub_binding_ok in Hp. destruct p; try done; by apply gen_ret_ok.
Qed.
Lemma gen_path_pattern_ok p : PathPattern_all any expr_ok p → gen_ok pattern_refs (gen_path_pattern gen_expr p).
Proof. intros []. unfold gen_path_pattern. simpl. gen. Qed.
Lemma gen_data_variant_ok base t v l sp :
  option_all expr_ok base → list_all (TupleElemPattern_all pat_ok) l →
  gen_ok pattern_refs (gen_data_variant gen_expr gen_pattern base t v l sp).
Proof.
  intros Hb Hl. unfold gen_data_variant. pose proof (each_ok _ _ _ _ Hl tuple_elem_binding_ok) as Hbs. gen.
Qed.
Lemma gen_struct_variant_ok base t v l sp :
  option_all expr_ok base → list_all (FieldPattern_all any pat_ok) l →
  gen_ok pattern_refs (gen_struct_variant gen_expr gen_pattern base t v l sp).
Proof.
  intros Hb Hl. unfold gen_struct_variant.
  assert (∀ rest, gen_ok (flat_map (λ b, binding_refs (sb_binding b))) (each (gen_field_binding gen_pattern rest) l)) as Hbs.
  { intros rest. eapply each_ok; [exact Hl|]. intros f Hf%field_binding_ok. unfold gen_field_binding. gen. }
  gen.
Qed.
Lemma gen_tuple_pattern_ok l sp :
  list_all (TupleElemPattern_all pat_ok) l → gen_ok pattern_refs (gen_tuple_pattern gen_pattern l sp).
Proof.
  intros Hl. unfold gen_tuple_pattern.
  assert (gen_ok (flat_map (λ o, flat_map pattern_refs (option_list o))) (each (gen_tuple_elem gen_pattern) l)) as He.
  { eapply each_ok; [exact Hl|]. intros e [p Hp|s]; simpl; [|by apply gen_ret_ok]. unfold pat_ok in Hp. gen. }
  intros g. pose proof (At_refl g). step. step. step. split; [done|]. simpl. by rewrite flat_map_options.
Qed.
Lemma gen_struct_pattern_ok t l sp :
  list_all (FieldPattern_all any pat_ok) l → gen_ok pattern_refs (gen_struct_pattern gen_pattern t l sp).
Proof.
  intros Hl. unfold gen_struct_pattern.
  assert (gen_ok (flat_map (λ o, flat_map (λ f, pattern_refs (rf_pattern f)) (option_list o)))
    (each (gen_struct_field gen_pattern) l)) as He.
  { eapply each_ok; [exact Hl|]. intros f [n _ sub Hsub m s]. unfold gen_struct_field. simpl.
    destruct n; [|by apply gen_ret_ok]. destruct Hsub as [p Hp|]; [|by apply gen_ret_ok]. unfold pat_ok in Hp. gen. }
  intros g. pose proof (At_refl g). step. step. step. split; [done|]. simpl. by rewrite flat_map_options.
Qed.
Lemma gen_unroll_pattern_ok b e sp : expr_ok e → gen_ok pattern_refs (gen_unroll_pattern gen_expr b e sp).
Proof. unfold gen_unroll_pattern. intros He. gen. Qed.

(** *** Methods, anonymous functions and types as values *)
Lemma gen_methods_ok l :
  list_all (Method_all any expr_ok type_ok) l → gen_ok (flat_map (λ x, [x])) (each (gen_method gen_expr) l).
Proof. intros Hl. eapply each_ok; [exact Hl|]. intros m []. apply gen_fn_decl_ok. eauto with gen. Qed.
#[local] Hint Resolve gen_methods_ok gen_method_sigs_ok : gen.
Lemma gen_anon_fn_ok x : AnonFnExpr_all any expr_ok pat_ok type_ok x → ok1 (gen_anon_fn gen_expr x).
Proof.
  intros [params _ rt _ body Hb span]. unfold gen_anon_fn. simpl. apply gen_block_ok in Hb.
  pose proof (λ name, gen_fn_decl_ok [] true false name params rt _ (Some (MkSelfParam SelfByValue span)) span Hb). gen.
Qed.
Lemma field_decls_quiet {A} (f : A → TypeExpr Spur) (h : A → Spur → Spur * Spur * bool) l :
  quiet (I := I) (Spur := Spur) (each (λ x, ty ← intern_type (f x); mret (h x ty)) l).
Proof. eapply quiet_each; [apply any_all|]. intros x _. apply quiet_bind; eauto with gen. Qed.
Lemma gen_anon_struct_ok ds fields methods span :
  list_all (Method_all any expr_ok type_ok) methods → ok1 (gen_anon_struct gen_expr ds fields methods span).
Proof.
  intros Hm. unfold gen_anon_struct, store_directives.
  pose proof (field_decls_quiet (λ f, asf_ty f) (λ f ty, (id_name (asf_name f), ty, true)) fields). gen.
Qed.
Lemma gen_anon_interface_ok methods span : ok1 (gen_anon_interface methods span).
Proof. unfold gen_anon_interface. gen. Qed.
Lemma gen_anon_enum_ok ds variants methods span :
  list_all (Method_all any expr_ok type_ok) methods → ok1 (gen_anon_enum gen_expr ds variants methods span).
Proof. intros Hm. unfold gen_anon_enum, store_directives. gen. Qed.
End Arms.

(** ** The syntax tree *)
Section Trees.
Context {I Spur : Type} `{!SpurKey Spur, !Interner I Spur}.
Context (is_type_intrinsic : string → bool) (intrinsic_kind : string → option IntrinsicKind).
Context (debug_expr : Expr Spur → string).
Notation gen_expr := (gen_expr (I := I) is_type_intrinsic intrinsic_kind debug_expr).
Notation gen_match_arm_pattern := (gen_match_arm_pattern (I := I) is_type_intrinsic intrinsic_kind debug_expr).
Notation ok1 m := (gen_ok (I := I) (Spur := Spur) (λ x, [x]) m).

#[local] Hint Resolve gen_binary_ok gen_unary_ok gen_call_ok gen_return_ok gen_struct_lit_ok gen_enum_struct_lit_ok
  gen_field_ok gen_array_lit_ok gen_index_ok gen_path_ok gen_method_call_ok gen_assoc_fn_call_ok gen_self_ok
  gen_comptime_ok gen_checked_ok gen_tuple_ok gen_tuple_index_ok gen_intrinsic_ok gen_block_ok gen_if_ok gen_while_ok
  gen_for_ok gen_loop_ok gen_comptime_unroll_for_ok gen_match_ok gen_anon_fn_ok gen_path_pattern_ok gen_data_variant_ok
  gen_struct_variant_ok gen_struct_pattern_ok gen_tuple_pattern_ok gen_unroll_pattern_ok gen_anon_struct_ok
  gen_anon_enum_ok gen_anon_interface_ok : gen.

Combined Scheme trees_mind from Expr_mind, Pattern_mind, TypeExpr_mind.
Lemma type_const_ok ty sp : ok1 (type_name ← type_value_name ty; emit (RTypeConst type_name) sp).
Proof. gen. Qed.
Lemma trees_ok :
  (∀ e, expr_ok gen_expr e) ∧ (∀ p, pat_ok gen_match_arm_pattern p) ∧ (∀ t, type_ok gen_expr t).
Proof.
  apply (trees_mind Spur (expr_ok gen_expr) (pat_ok gen_match_arm_pattern) (type_ok gen_expr)); intros;
    try solve [split; [|done|done]; simpl; first [solve [eauto with gen]|gen]];
    try solve [unfold pat_ok; simpl; first [solve [eauto with gen]|gen]];
    try solve [intros sp; first [apply type_const_ok|simpl; eauto with gen]].
  - match goal with H : ParenExpr_all _ _ |- _ => destruct H as [e He span] end. split; [exact (expr_gen _ _ He)|done|done].
  - match goal with H : IndexExpr_all _ _ |- _ => pose proof H as [base Hb i Hi span] end.
    split; [by apply gen_index_ok|done|]. split; [exact (expr_gen _ _ Hb)|exact (expr_range _ _ Hi)].
  - match goal with H : TypeLitExpr_all _ _ |- _ => destruct H as [t Ht span] end. split; [apply Ht|done|done].
  - match goal with H : RangeExpr_all _ _ |- _ => destruct H as [lo Hlo hi Hhi span] end.
    split; [simpl; gen|split; by apply opt_exprs_ok|done].
Qed.
Lemma gen_expr_ok e : ok1 (gen_expr e).
Proof. apply trees_ok. Qed.
#[local] Hint Resolve gen_expr_ok : gen.

(** ** Items *)
Lemma all_methods_ok l : gen_ok (I := I) (flat_map (λ x, [x])) (each (gen_method gen_expr) l).
Proof.
  eapply (each_ok (λ _, True)); [apply any_all|]. intros m _. unfold gen_method. apply gen_fn_decl_ok. eauto with gen.
Qed.
#[local] Hint Resolve all_methods_ok : gen.
Lemma gen_struct_ok d : ok1 (gen_struct is_type_intrinsic intrinsic_kind debug_expr d).
Proof.
  unfold gen_struct, store_directives.
  pose proof (field_decls_quiet (I := I) (λ f, fd_ty f) (λ f ty, (id_name (fd_name f), ty, is_public (fd_visibility f)))
    (sd_fields d)). gen.
Qed.
Lemma gen_enum_ok d : ok1 (gen_enum is_type_intrinsic intrinsic_kind debug_expr d).
Proof. unfold gen_enum, store_directives. gen. Qed.
Lemma gen_derive_ok d : ok1 (gen_derive is_type_intrinsic intrinsic_kind debug_expr d).
Proof. unfold gen_derive. gen. Qed.
Lemma gen_const_ok d : ok1 (gen_const is_type_intrinsic intrinsic_kind debug_expr d).
Proof.
  unfold gen_const, store_directives.
  pose proof (quiet_each_opt (I := I) (Spur := Spur) intern_type (cd_ty d) quiet_intern_type). gen.
Qed.
Lemma gen_function_ok f : ok1 (gen_function is_type_intrinsic intrinsic_kind debug_expr f).
Proof. apply gen_fn_decl_ok. eauto with gen. Qed.

(** Foreign functions store payloads that no instruction has. *)
Lemma At_drop (g0 g : AstGen I Spur) pend : At g0 pend g → At g0 [] g.
Proof.
  intros [os [Hi Hx Hc Hl Ha Hn Hp Hf]]. exists os. split; try done; rewrite app_nil_r.
  - by apply pairwise_app in Ha as [Ha _].
  - by apply list.Forall_app in Hn as [Hn _].
Qed.
Lemma At_same (g0 g g' : AstGen I Spur) pend :
  r_instructions (ag_rir g') = r_instructions (ag_rir g) → r_extra (ag_rir g') = r_extra (ag_rir g) →
  r_function_spans (ag_rir g') = r_function_spans (ag_rir g) → At g0 pend g → At g0 pend g'.
Proof.
  intros H1 H2 H3 [os [Hi Hx Hc Hl Ha Hn Hp (fs & Hf & Hok & Hs)]]. exists os.
  unfold nwords, words in *. split; unfold nwords, words, insts in *; rewrite ?H1, ?H2; try done.
  - intros i inst ss Hinst Hss. apply (local_with_mono (ag_rir g) _ (ninsts g0)); [by rewrite H2|reflexivity|by apply Hl].
  - eapply list.Forall_impl; [exact Hp|]. intros s. apply (stored_mono (ag_rir g)). by rewrite H2.
  - exists fs. rewrite H3. split; [done|]. split; [|done]. eapply list.Forall_impl; [exact Hok|]. intros f.
    apply (function_ok_mono (ag_rir g)); [by rewrite H1|by rewrite H2|unfold ninsts; lia].
Qed.
Lemma gen_extern_fn_ok block x : gen_ok (I := I) (λ _, []) (gen_extern_fn (Spur := Spur) block x).
Proof.
  unfold gen_extern_fn, store_directives, store_params. intros g. pose proof (At_refl g). do 8 step.
  intros [] g' [= <-]. split; [|apply Refs_nil]. eapply At_drop, At_same; [..|eassumption]; done.
Qed.
Lemma gen_link_extern_ok block : gen_ok (I := I) (λ _, []) (gen_link_extern (Spur := Spur) block).
Proof.
  unfold gen_link_extern. destruct (lb_items block) as [|x l]; intros g; pose proof (At_refl g).
  - intros [] g' [= <-]. split; [|apply Refs_nil]. eapply At_same; [..|eassumption]; done.
  - apply Follows_bind. eapply (Follows_use (flat_map (λ _, []))); [|exact (At_refl g)|].
    + eapply (each_ok (λ _, True)); [apply any_all|]. intros y _. apply gen_extern_fn_ok.
    + intros u g' Hat _ _. apply Follows_ret. split; [done|apply Refs_nil].
Qed.
Lemma gen_item_ok x : gen_ok (I := I) (λ _, []) (gen_item is_type_intrinsic intrinsic_kind debug_expr x).
Proof.
  pose proof gen_function_ok. pose proof gen_struct_ok. pose proof gen_enum_ok. pose proof @gen_interface_ok.
  pose proof gen_derive_ok. pose proof gen_const_ok. destruct x; simpl; [gen..|apply gen_link_extern_ok|gen].
Qed.
End Trees.

(** ** What the names leave out *)
Section Names.
Context {I Spur : Type} `{!SpurKey Spur, !Interner I Spur}.
(** The module of a qualified call [utils.Point::origin()] has no part in what is generated. *)
Lemma assoc_call_ignores_module debug_expr gen_expr b b' ty targs f args span (g : AstGen I Spur) :
  gen_assoc_fn_call debug_expr gen_expr (MkAssocFnCallExpr b ty targs f args span) g =
  gen_assoc_fn_call debug_expr gen_expr (MkAssocFnCallExpr b' ty targs f args span) g.
Proof. reflexivity. Qed.
(** Interfaces with the same method names have one symbol, whatever their signatures. *)
Lemma each_map {A B C} (f : B → ST (AstGen I Spur) C) (h : A → B) l : each (λ x, f (h x)) l = each f (map h l).
Proof. induction l as [|x l IH]; simpl; [done|]. by rewrite <-IH. Qed.
Lemma interface_symbol_ignores_signatures ms ms' span span' :
  map (λ m, id_name (ms_name m)) ms = map (λ m, id_name (ms_name m)) ms' →
  intern_type (I := I) (TypeAnonymousInterface ms span) = intern_type (I := I) (TypeAnonymousInterface ms' span').
Proof. intros Hn. simpl. by rewrite !(each_map name_of (λ m, id_name (ms_name m))), Hn. Qed.
End Names.

(** ** Files *)
Section Files.
Context {I Spur : Type} `{!SpurKey Spur, !SpurLaws Spur, !Interner I Spur}.
Context (index_bound : ∀ s : Spur, into_usize s < U32_MAX).
Context (is_type_intrinsic : string → bool) (intrinsic_kind : string → option IntrinsicKind).
Context (debug_expr : Expr Spur → string).

(** The items of a segment are what the reader of its kind returns. *)
Definition reads_back (r : Rir Spur) (s : Seg) : Prop :=
  Forall (item_ok (sg_kind s)) (sg_items s) → short (sg_items s) →
  get_payload (sg_kind s) r (sg_start s) (sg_len s) = Done (map (read_as (sg_kind s)) (sg_items s)).
Lemma stored_reads (r : Rir Spur) s : Z.of_nat (words r) < 2 ^ 32 → stored r s → reads_back r s.
Proof using SpurLaws0 index_bound.
  intros Hw (r0 & r1 & Ha & _ & _ & Hp) Hok Hs. by eapply (payload_reads index_bound).
Qed.

End Files.

(** ** Example: [struct s { fn m(self) -> i32 { let (a, _) = f(a); @size_of(i32); match a { 0 => a, _ => a + 1 } } }] *)
Module GeneratedExample.
Inductive Name := n_unit | n_i32 | n_s | n_m | n_f | n_a | n_zero | n_one | n_tuple | n_size_of | n_other.
Definition all : list (Name * string) :=
  [(n_unit, "()"); (n_i32, "i32"); (n_s, "s"); (n_m, "m"); (n_f, "f"); (n_a, "a"); (n_zero, "0"); (n_one, "1");
   (n_tuple, "__tuple__"); (n_size_of, "size_of"); (n_other, "?")].
#[export] Instance Name_eq : EqDecision Name.
Proof. solve_decision. Defined.
#[export] Instance Name_key : SpurKey Name := {
  into_usize s := default 10 (Z.of_nat ∘ fst <$> list_find (λ e, e.1 = s) all);
  try_from_usize n := if decide (0 ≤ n) then fst <$> all !! Z.to_nat n else None;
}.
#[export] Instance Name_laws : SpurLaws Name.
Proof. split; intros []; by vm_compute. Qed.
Lemma generated_index_bound (s : Name) : into_usize s < U32_MAX.
Proof. by destruct s. Qed.
#[export] Instance Name_interner : Interner unit Name := {
  iter _ := all;
  get_or_intern i t := (default n_other (fst ∘ snd <$> list_find (λ e, e.2 = t) all), i);
  resolve _ s := from_option (λ e, Done e.2.2) Panic (list_find (λ e, e.1 = s) all);
}.
Definition sp (a b : Z) : Span := MkSpan 0 a b.
Definition ident (s : Name) : Ident Name := MkIdent s (sp 0 1).
Definition var (s : Name) : Expr Name := ExprIdent (ident s).
Definition i32 : TypeExpr Name := TypeNamed (ident n_i32).
Definition body : Expr Name :=
  ExprBlock (MkBlockExpr
    [StmtLet (MkLetStatement [] false
       (PatTuple [ElemPattern (PatIdent false (ident n_a) (sp 2 3)); ElemPattern (PatWildcard (sp 4 5))] (sp 1 6))
       None (ExprCall (MkCallExpr (ident n_f) [MkCallArg ArgNormal (var n_a) (sp 9 10)] (sp 8 11))) (sp 0 12));
     StmtExpr (ExprIntrinsicCall (MkIntrinsicCallExpr (ident n_size_of) [ArgType i32] (sp 12 13)))]
    (ExprMatch (MkMatchExpr (var n_a)
       [MkMatchArm (PatInt (MkIntLit 0 (sp 20 21))) (var n_a) (sp 20 25);
        MkMatchArm (PatWildcard (sp 26 27))
          (ExprBinary (MkBinaryExpr (var n_a) OpAdd (ExprInt (MkIntLit 1 (sp 35 36))) (sp 31 36))) (sp 26 36)]
       (sp 13 38)))
    (sp 0 40)).
Definition method : Method Name (Expr Name) (TypeExpr Name) :=
  MkMethod None [] Public false (ident n_m) (Some (MkSelfParam SelfByValue (sp 0 4))) [] (Some i32) body (sp 0 50).
Definition ast : Ast Name :=
  MkAst None [ItemStruct (MkStructDecl None [] Public Affine (ident n_s)
    [MkFieldDecl None Private (ident n_a) i32 (sp 0 2)] [method] (sp 0 60))].
Definition file : Rir Name :=
  match generate is_type_intrinsic intrinsic_kind (λ _, "") () ast with Done (r, _) => r | _ => new_rir end.
Lemma generated_file : generate is_type_intrinsic intrinsic_kind (λ _, "") () ast = Done (file, ()).
Proof. vm_compute. reflexivity. Qed.
Lemma file_sizes : Z.of_nat (words file) < 2 ^ 32 ∧ insts file = 13%nat ∧ map fs_decl (r_function_spans file) = [11].
Proof. vm_compute. done. Qed.

End GeneratedExample.
