(* ===== verification/TypeSyntax.v ===== *)
(** * Types as text

    Models the readers of type syntax of [crates/gruel-air/src/types.rs]. The front end hands
    a compound type to the analysis as the symbol of its text ([intern_type] of [AstGen]) and
    the analysis takes the text apart again with these functions. A text is a list of
    characters; as the lexer's identifiers are ASCII, so are the texts, and the white space and
    letters of the model are those of ASCII. *)

From Stdlib Require Import Ascii.
From S2P Require Import Prelude.

#[local] Open Scope Z_scope.
#[local] Open Scope char_scope.

Definition text : Type := list ascii.
Definition text_of (s : string) : text := String.list_ascii_of_string s.

(** ** What the readers use of [str] and [char] *)
Definition is_whitespace (c : ascii) : bool :=
  let n := nat_of_ascii c in (n =? 32)%nat || ((9 <=? n)%nat && (n <=? 13)%nat).
Definition is_digit (c : ascii) : bool := let n := nat_of_ascii c in (48 <=? n)%nat && (n <=? 57)%nat.
Definition is_alphanumeric (c : ascii) : bool :=
  let n := nat_of_ascii c in
  is_digit c || ((65 <=? n)%nat && (n <=? 90)%nat) || ((97 <=? n)%nat && (n <=? 122)%nat).
Definition is_word (c : ascii) : bool := is_alphanumeric c || Ascii.eqb c "_".
Fixpoint trim_start (s : text) : text :=
  match s with [] => [] | c :: s' => if is_whitespace c then trim_start s' else s end.
Definition trim_text (s : text) : text := rev (trim_start (rev (trim_start s))).
Definition starts_with (c : ascii) (s : text) : bool := match s with [] => false | d :: _ => Ascii.eqb d c end.
Definition ends_with (c : ascii) (s : text) : bool := starts_with c (rev s).
Fixpoint find_char (c : ascii) (s : text) : option nat :=
  match s with [] => None | d :: s => if Ascii.eqb d c then Some 0%nat else S <$> find_char c s end.
(** [&s[from..to]]. *)
Definition slice (from to : nat) (s : text) : text := take (to - from) (drop from s).
Fixpoint strip_prefix (p s : text) : option text :=
  match p, s with
  | [], s => Some s
  | a :: p, b :: s => if Ascii.eqb a b then strip_prefix p s else None
  | _ :: _, [] => None
  end.
(** [str::parse::<u64>]. *)
Fixpoint digits_u64 (acc : Z) (s : text) : option Z :=
  match s with
  | [] => Some acc
  | c :: s =>
      if is_digit c then
        let acc := acc * 10 + (Z.of_nat (nat_of_ascii c) - 48) in
        if decide (acc < 2 ^ 64) then digits_u64 acc s else None
      else None
  end.
Definition parse_u64 (s : text) : option Z :=
  match s with
  | [] => None
  | c :: s' =>
      if Ascii.eqb c "+" then match s' with [] => None | _ => digits_u64 0 s' end else digits_u64 0 s
  end.

(** ** [parse_pointer_type_syntax] *)
Inductive PtrMutability : Set := PtrConst | PtrMut.
Definition parse_pointer_type_syntax (type_name : text) : option (text * PtrMutability) :=
  let type_name := trim_text type_name in
  match strip_prefix (text_of "ptr const ") type_name with
  | Some rest => Some (trim_text rest, PtrConst)
  | None => (λ rest, (trim_text rest, PtrMut)) <$> strip_prefix (text_of "ptr mut ") type_name
  end.

(** ** [parse_type_call_syntax] *)
(** The loop over the arguments: what is pushed, and what is left in [current]. *)
Fixpoint split_args (depth : Z) (current s : text) : list text * text :=
  match s with
  | [] => ([], current)
  | ch :: s =>
      if Ascii.eqb ch "(" || Ascii.eqb ch "[" then split_args (depth + 1) (current ++ [ch]) s
      else if Ascii.eqb ch ")" || Ascii.eqb ch "]" then split_args (depth - 1) (current ++ [ch]) s
      else if Ascii.eqb ch "," && Z.eqb depth 0 then
        let '(args, last) := split_args depth [] s in (trim_text current :: args, last)
      else split_args depth (current ++ [ch]) s
  end.
Definition parse_type_call_syntax (s : text) : option (text * list text) :=
  let s := trim_text s in
  if negb (ends_with ")" s) then None else
  match find_char "(" s with
  | None => None
  | Some opening =>
      let callee := trim_text (take opening s) in
      match callee with
      | [] => None
      | _ =>
          if negb (forallb is_word callee) then None else
          let inner := slice (opening + 1) (length s - 1) s in
          let '(args, current) := split_args 0 [] inner in
          let trimmed := trim_text current in
          let args := match trimmed with [] => args | _ => args ++ [trimmed] end in
          match args with [] => None | _ => Some (callee, args) end
      end
  end.

(** ** [parse_array_type_syntax] *)
(** The loop that looks for the last semicolon outside brackets. *)
Fixpoint last_semicolon (i : nat) (bracket_depth : Z) (semi_pos : option nat) (s : text) : option nat :=
  match s with
  | [] => semi_pos
  | ch :: s =>
      if Ascii.eqb ch "[" then last_semicolon (S i) (bracket_depth + 1) semi_pos s
      else if Ascii.eqb ch "]" then last_semicolon (S i) (bracket_depth - 1) semi_pos s
      else if Ascii.eqb ch ";" && Z.eqb bracket_depth 0 then last_semicolon (S i) bracket_depth (Some i) s
      else last_semicolon (S i) bracket_depth semi_pos s
  end.
Definition parse_array_type_syntax (type_name : text) : option (text * Z) :=
  let type_name := trim_text type_name in
  if negb (starts_with "[" type_name) || negb (ends_with "]" type_name) then None else
  let inner := slice 1 (length type_name - 1) type_name in
  match last_semicolon 0 0 None inner with
  | None => None
  | Some semi_pos =>
      let element_type := trim_text (take semi_pos inner) in
      let length_str := trim_text (drop (semi_pos + 1) inner) in
      match parse_u64 length_str with Some length => Some (element_type, length) | None => None end
  end.

(** ** [parse_tuple_type_syntax] *)
(** The loop over the elements: [part] holds the characters since [last]; the parts and the
    tail. *)
Fixpoint split_parts (depth_paren depth_bracket : Z) (part s : text) : list text * text :=
  match s with
  | [] => ([], part)
  | ch :: s =>
      if Ascii.eqb ch "(" then split_parts (depth_paren + 1) depth_bracket (part ++ [ch]) s
      else if Ascii.eqb ch ")" then split_parts (depth_paren - 1) depth_bracket (part ++ [ch]) s
      else if Ascii.eqb ch "[" then split_parts depth_paren (depth_bracket + 1) (part ++ [ch]) s
      else if Ascii.eqb ch "]" then split_parts depth_paren (depth_bracket - 1) (part ++ [ch]) s
      else if Ascii.eqb ch "," && Z.eqb depth_paren 0 && Z.eqb depth_bracket 0 then
        let '(parts, tail) := split_parts depth_paren depth_bracket [] s in (trim_text part :: parts, tail)
      else split_parts depth_paren depth_bracket (part ++ [ch]) s
  end.
Definition is_empty (s : text) : bool := match s with [] => true | _ => false end.
Definition parse_tuple_type_syntax (type_name : text) : option (list text) :=
  let type_name := trim_text type_name in
  if negb (starts_with "(" type_name) || negb (ends_with ")" type_name) then None else
  let inner := trim_text (slice 1 (length type_name - 1) type_name) in
  if is_empty inner then None else
  let '(parts, rest) := split_parts 0 0 [] inner in
  let tail := trim_text rest in
  match parts with
  | [] => None
  | _ =>
      let parts := if is_empty tail then parts else parts ++ [tail] in
      if existsb is_empty parts then None else Some parts
  end.

(** The tests of the source. *)
Example tuple_pair : parse_tuple_type_syntax (text_of "(i32, bool)") = Some [text_of "i32"; text_of "bool"].
Proof. reflexivity. Qed.
Example tuple_nested :
  parse_tuple_type_syntax (text_of "((i32, u8), bool)") = Some [text_of "(i32, u8)"; text_of "bool"].
Proof. reflexivity. Qed.
Example tuple_paren : parse_tuple_type_syntax (text_of "(i32)") = None.
Proof. reflexivity. Qed.
Example array_nested : parse_array_type_syntax (text_of "[[i32; 3]; 4]") = Some (text_of "[i32; 3]", 4).
Proof. reflexivity. Qed.
Example call_nested :
  parse_type_call_syntax (text_of "Pair([i32; 4], i64)") = Some (text_of "Pair", [text_of "[i32; 4]"; text_of "i64"]).
Proof. reflexivity. Qed.
