(* ===== verification/Modules.v ===== *)
(** * Modules: import paths and visibility

    Models [crates/gruel-air/src/sema/module_path.rs] (which loaded file an import names),
    [sema/visibility.rs] and [sema/file_paths.rs] (which files see a private item), the copies
    of the visibility check in [sema_context.rs], and [resolve_import_path_for_const] of
    [sema/imports.rs]. Paths are texts with [/] as the separator; the functions of [std::path]
    are modelled over the components of a path. The paths of a build are the values of a hash
    map, whose order is not known: the functions take them as a list. *)

From Stdlib Require Import Ascii.
From S2P Require Import Prelude Types Positions TypeSyntax.

#[local] Open Scope Z_scope.

Module Modules.
(** ** [str] and [std::path] *)
Definition t (s : string) : text := text_of s.
Definition ends_with (suffix s : text) : bool := bool_decide (suffix `suffix_of` s).
Definition starts_with (p s : text) : bool := bool_decide (p `prefix_of` s).
Fixpoint contains_text (sub s : text) : bool :=
  starts_with sub s || match s with [] => false | _ :: s => contains_text sub s end.

Inductive Component : Set := RootDir | CurDir | ParentDir | Normal (name : list ascii).
#[export] Instance Component_eq : EqDecision Component.
Proof. solve_decision. Defined.

Fixpoint split_slash (cur s : text) : list text :=
  match s with
  | [] => [cur]
  | c :: s => if Ascii.eqb c "/" then cur :: split_slash [] s else split_slash (cur ++ [c]) s
  end.
(** One piece between slashes: empty pieces and dots are dropped, but for a leading dot. *)
Definition component (first : bool) (piece : text) : list Component :=
  if decide (piece = []) then []
  else if decide (piece = t ".") then (if first then [CurDir] else [])
  else if decide (piece = t "..") then [ParentDir] else [Normal piece].
(** [Path::components]. *)
Definition components (s : text) : list Component :=
  match split_slash [] s with
  | [] => []
  | first :: rest =>
      (if starts_with (t "/") s then [RootDir] else []) ++ component (negb (starts_with (t "/") s)) first ++
      flat_map (component false) rest
  end.
(** [Path::parent] and [Path::file_name]. *)
Definition parent (p : list Component) : option (list Component) :=
  match list.last p with None | Some RootDir => None | Some _ => Some (removelast p) end.
Definition file_name (p : list Component) : option text :=
  match list.last p with Some (Normal n) => Some n | _ => None end.
(** [Path::file_stem]: the name up to its last dot, unless nothing is before it. *)
Fixpoint before_last_dot (s : text) : option text :=
  match s with
  | [] => None
  | c :: s =>
      match before_last_dot s with
      | Some b => Some (c :: b)
      | None => if Ascii.eqb c "." then Some [] else None
      end
  end.
Definition stem_of (name : text) : text :=
  match before_last_dot name with None | Some [] => name | Some b => b end.
Definition file_stem (p : list Component) : option text := stem_of <$> file_name p.
(** [Path::join] with a name that has no slash. *)
Definition join_name (p : list Component) (name : text) : list Component :=
  match p with [] => components name | _ => p ++ component false name end.

(** ** Visibility *)
(** [get_module_identity]. *)
Definition get_module_identity (path : list Component) : option (list Component) :=
  p ← parent path;
  stem ← file_stem path;
  match strip_prefix (t "_") stem with
  | Some module_name => Some (join_name p module_name)
  | None => Some p
  end.

Definition PRELUDE_BAND : Z := 4294963200.
(** [is_prelude_path]. *)
Definition is_prelude_path (path : text) : bool :=
  if contains_text (t "std/prelude/") path || contains_text (t "std\prelude\") path then false
  else starts_with (t "prelude/") path || starts_with (t "prelude\") path ||
       contains_text (t "/prelude/") path || contains_text (t "\prelude\") path.

Section Visibility.
Context (file_paths : gmap Z text).
Definition get_file_path (file_id : Z) : option text := file_paths !! file_id.
Definition is_prelude_file (file_id : Z) : bool :=
  if decide (PRELUDE_BAND ≤ file_id) then true
  else match get_file_path file_id with Some path => is_prelude_path path | None => false end.
(** What both versions of [is_accessible] end with. *)
Definition same_module (accessing target : Z) : bool :=
  match get_file_path accessing, get_file_path target with
  | Some acc, Some tgt =>
      bool_decide (get_module_identity (components acc) = get_module_identity (components tgt))
  | _, _ => true
  end.
(** [Sema::is_accessible]. *)
Definition is_accessible (accessing target : Z) (is_pub : bool) : bool :=
  if is_pub then true
  else if bool_decide (target = BUILTIN) && negb (bool_decide (accessing = BUILTIN)) then false
  else if is_prelude_file accessing then true
  else same_module accessing target.
(** [SemaContext::is_accessible]. *)
Definition context_is_accessible (accessing target : Z) (is_pub : bool) : bool :=
  if is_pub then true else same_module accessing target.

(** ** Types through modules *)
Inductive ResolveError : Type :=
  | UnknownType (name : text)
  | UnknownEnumType (name : text)
  | PrivateMemberAccess (item_kind : string) (name : text).
Context {Spur EnumId StructId : Type} (resolve_name : Spur → text).
Context (enums : Spur → option EnumId) (structs : Spur → option StructId).
Context (enum_def : EnumId → EnumDef) (struct_def : StructId → StructDef).
(** [resolve_enum_through_module] of [Sema] and of [SemaContext], which differ in the visibility
    check, and [SemaContext::resolve_struct_through_module]; [file] is the file of the span. *)
Definition resolve_enum_with (accessible : Z → Z → bool → bool) (type_name : Spur) (file : Z) : ResolveError + EnumId :=
  match enums type_name with
  | None => inl (UnknownEnumType (resolve_name type_name))
  | Some id =>
      if accessible file (ed_file_id (enum_def id)) (ed_is_pub (enum_def id)) then inr id
      else inl (PrivateMemberAccess "enum" (resolve_name type_name))
  end.
Definition resolve_enum_through_module := resolve_enum_with is_accessible.
Definition context_resolve_enum := resolve_enum_with context_is_accessible.
Definition context_resolve_struct (type_name : Spur) (file : Z) : ResolveError + StructId :=
  match structs type_name with
  | None => inl (UnknownType (resolve_name type_name))
  | Some id =>
      if context_is_accessible file (sd_file_id (struct_def id)) (sd_is_pub (struct_def id)) then inr id
      else inl (PrivateMemberAccess "struct" (resolve_name type_name))
  end.
End Visibility.

(** ** Imports *)
Inductive ModulePath : Type := Std | ExplicitRue (path : text) | Simple (path : text).
(** [ModulePath::parse]. *)
Definition parse_module_path (import_path : text) : ModulePath :=
  if decide (import_path = t "std") then Std
  else if ends_with (t ".gruel") import_path then ExplicitRue import_path else Simple import_path.

(** A loop that returns the first path with a property. *)
Definition first_path (ok : text → bool) (paths : list text) : option text := snd <$> list_find (λ p, ok p = true) paths.
(** The path ends with the import, at the start or after a slash. *)
Definition ends_at_boundary (import_path file_path : text) : bool :=
  ends_with import_path file_path &&
  (let prefix_len := (length file_path - length import_path)%nat in
   bool_decide (prefix_len = 0%nat) || bool_decide (file_path !! (prefix_len - 1)%nat = Some "/"%char)).
(** [resolve_explicit] and [resolve_simple]. *)
Definition resolve_explicit (import_path : text) (loaded : list text) : option text :=
  match first_path (λ p, bool_decide (p = import_path)) loaded with
  | Some p => Some p
  | None => first_path (ends_at_boundary import_path) loaded
  end.
Definition or_else {A} (a b : option A) : option A := match a with Some _ => a | None => b end.
Definition resolve_simple (import_path : text) (loaded : list text) : option text :=
  let import_with_gruel := import_path ++ t ".gruel" in
  let basename := default import_path (file_name (components import_path)) in
  let facade_name := t "_" ++ basename ++ t ".gruel" in
  or_else (first_path (λ p, bool_decide (p = import_with_gruel)) loaded)
  (or_else (first_path (ends_at_boundary import_with_gruel) loaded)
  (or_else (first_path (λ p, bool_decide (file_stem (components p) = Some basename)) loaded)
           (first_path (λ p, bool_decide (file_name (components p) = Some facade_name)) loaded))).
Definition resolve_module (m : ModulePath) (loaded : list text) : option text :=
  match m with Std => None | ExplicitRue p => resolve_explicit p loaded | Simple p => resolve_simple p loaded end.
(** [resolve_import_path_for_const]; the error carries the candidates. *)
Definition resolve_import_path_for_const (import_path : text) (loaded : list text) : list text + text :=
  match resolve_module (parse_module_path import_path) loaded with Some p => inr p | None => inl loaded end.

(** ** Clean paths

    Directories and a file name, joined by slashes. *)
Definition clean (c : text) : Prop := c ≠ [] ∧ ("/"%char ∉ c) ∧ c ≠ t "." ∧ c ≠ t "..".
Fixpoint path_text (l : list text) : text :=
  match l with [] => [] | [a] => a | a :: l => a ++ "/"%char :: path_text l end.
Lemma split_clean cur c s : "/"%char ∉ c → split_slash cur (c ++ s) = split_slash (cur ++ c) s.
Proof.
  revert cur. induction c as [|a c IH]; intros cur Hc; simpl; [by rewrite app_nil_r|].
  apply not_elem_of_cons in Hc as [Ha Hc]. destruct (Ascii.eqb_spec a "/") as [->|_]; [done|].
  rewrite IH by done. by rewrite <-(assoc_L (++)).
Qed.
Lemma split_path l : l ≠ [] → Forall clean l → split_slash [] (path_text l) = l.
Proof.
  intros Hne Hl. induction Hl as [|a l (_ & Ha & _) Hl IH]; [done|]. destruct l as [|b l].
  - simpl. rewrite <-(app_nil_r a) at 1. rewrite split_clean by done. done.
  - change (path_text (a :: b :: l)) with (a ++ "/"%char :: path_text (b :: l)). rewrite split_clean by done.
    cbn [split_slash]. simpl Ascii.eqb. cbv iota. by rewrite IH.
Qed.
Lemma clean_component first c : clean c → component first c = [Normal c].
Proof. intros (H1 & _ & H2 & H3). unfold component. by rewrite !decide_False by done. Qed.
Lemma path_no_root l : l ≠ [] → Forall clean l → starts_with (t "/") (path_text l) = false.
Proof.
  intros Hne Hl. destruct Hl as [|a l (Ha & Hs & _) Hl]; [done|]. apply bool_decide_eq_false. intros [k Hk].
  assert (list.head (path_text (a :: l)) = list.head a) as Hh by (destruct a; [done|]; by destruct l).
  rewrite Hk in Hh. simpl in Hh. destruct a as [|c a]; [done|]. injection Hh as <-. set_solver.
Qed.
Lemma components_path l : l ≠ [] → Forall clean l → components (path_text l) = map Normal l.
Proof.
  intros Hne Hl. unfold components. rewrite split_path, path_no_root by done.
  destruct Hl as [|a l Ha Hl]; [done|]. simpl. rewrite clean_component by done. simpl. f_equal.
  induction Hl as [|b l Hb _ IH]; simpl; [done|]. rewrite clean_component by done. by rewrite IH.
Qed.

(** The directory a file belongs to: its own, or for a facade the one it is named after. *)
Definition home (dirs : list text) (stem : text) : list Component :=
  match strip_prefix (t "_") stem with
  | Some name => join_name (map Normal dirs) name
  | None => map Normal dirs
  end.
Lemma before_last_dot_ext stem : stem ≠ [] → before_last_dot (stem ++ t ".gruel") = Some stem.
Proof.
  intros _. induction stem as [|c stem IH]; [done|]. cbn [app before_last_dot]. by rewrite IH.
Qed.
Lemma file_identity dirs stem :
  Forall clean dirs → stem ≠ [] → "/"%char ∉ stem →
  get_module_identity (components (path_text (dirs ++ [stem ++ t ".gruel"]))) = Some (home dirs stem).
Proof.
  intros Hd Hne Hs. assert (clean (stem ++ t ".gruel")) as Hc.
  { assert (∀ u, length u < length (t ".gruel") → stem ++ t ".gruel" ≠ u)%nat as Hl by (intros u Hu <-; rewrite length_app in Hu; lia).
    unfold clean. split_and!; [apply Hl; vm_compute; lia| |apply Hl; vm_compute; lia..].
    apply not_elem_of_app. split; [done|]. by apply (bool_decide_eq_true_1 _). }
  rewrite components_path; [|by destruct dirs|by apply list.Forall_app; split; [|apply list.Forall_singleton]].
  unfold get_module_identity, parent, file_stem, file_name, home. rewrite map_app. simpl.
  rewrite last_snoc, removelast_last. simpl. unfold stem_of. rewrite before_last_dot_ext by done.
  destruct stem as [|c stem]; [done|]. by case_match.
Qed.

(** A private item of a user file is seen exactly by the files of its directory and by the
    directory's facade; the prelude sees everything. *)
Lemma private_items_stay_home (file_paths : gmap Z text) a tg da sa dt st :
  file_paths !! a = Some (path_text (da ++ [sa ++ t ".gruel"])) →
  file_paths !! tg = Some (path_text (dt ++ [st ++ t ".gruel"])) →
  Forall clean da → Forall clean dt → sa ≠ [] → st ≠ [] → "/"%char ∉ sa → "/"%char ∉ st →
  is_prelude_file file_paths a = false → tg ≠ BUILTIN →
  is_accessible file_paths a tg false = true ↔ home da sa = home dt st.
Proof.
  intros Ha Ht Hda Hdt Hsa Hst Hna Hnt Hp Hb. unfold is_accessible, same_module, get_file_path.
  rewrite Hp, Ha, Ht, (bool_decide_eq_false_2 _ Hb). simpl. rewrite !file_identity by done.
  rewrite bool_decide_eq_true. split; congruence.
Qed.
(** The copy in [SemaContext] agrees, but for built-in items and for the prelude. *)
Lemma contexts_agree (file_paths : gmap Z text) a tg is_pub :
  tg ≠ BUILTIN → is_prelude_file file_paths a = false →
  context_is_accessible file_paths a tg is_pub = is_accessible file_paths a tg is_pub.
Proof.
  intros Hb Hp. unfold context_is_accessible, is_accessible. destruct is_pub; [done|].
  by rewrite (bool_decide_eq_false_2 _ Hb), Hp.
Qed.
Lemma context_sees_builtins (file_paths : gmap Z text) a :
  file_paths !! BUILTIN = None → a ≠ BUILTIN →
  is_accessible file_paths a BUILTIN false = false ∧ context_is_accessible file_paths a BUILTIN false = true.
Proof.
  intros Hn Ha. unfold is_accessible, context_is_accessible, same_module, get_file_path. rewrite Hn.
  rewrite bool_decide_eq_true_2, (bool_decide_eq_false_2 _ Ha) by done. split; [done|]. by destruct (file_paths !! a).
Qed.

(** ** Resolution *)
Lemma first_path_Some ok paths p : first_path ok paths = Some p → p ∈ paths ∧ ok p = true.
Proof.
  unfold first_path. intros ([i q] & Hf & ->)%fmap_Some. apply list_find_Some in Hf as (Hi & Hok & _).
  split; [by eapply list_elem_of_lookup_2|done].
Qed.
Lemma first_path_None ok paths : first_path ok paths = None ↔ Forall (λ p, ok p = false) paths.
Proof.
  unfold first_path. rewrite fmap_None, list_find_None.
  split; intros H; (eapply list.Forall_impl; [exact H|]); intros p; simpl; destruct (ok p); done || congruence.
Qed.
Lemma or_else_Some {A} (a b : option A) x : or_else a b = Some x → a = Some x ∨ b = Some x.
Proof. destruct a; auto. Qed.
(** An import is resolved to a loaded file. *)
Lemma resolved_is_loaded m loaded p : resolve_module m loaded = Some p → p ∈ loaded.
Proof.
  destruct m as [|q|q]; simpl; [done| |].
  - unfold resolve_explicit. case_match eqn:Hf; [intros [= <-]|]; intros; by eapply first_path_Some.
  - unfold resolve_simple. intros [H|[H|[H|H]%or_else_Some]%or_else_Some]%or_else_Some; by eapply first_path_Some.
Qed.
(** The exact file wins, in whatever order the paths come. *)
Lemma exact_match_wins q loaded : q ∈ loaded → first_path (λ p, bool_decide (p = q)) loaded = Some q.
Proof.
  intros Hq. destruct (first_path _ loaded) as [p|] eqn:Hf.
  - apply first_path_Some in Hf as [_ ->%bool_decide_eq_true]. done.
  - rewrite first_path_None, list.Forall_forall in Hf. specialize (Hf q Hq). by rewrite bool_decide_eq_true_2 in Hf.
Qed.
Lemma exact_import path loaded :
  path ∈ loaded → ends_with (t ".gruel") path = true → resolve_module (parse_module_path path) loaded = Some path.
Proof.
  intros Hin He. unfold parse_module_path. rewrite decide_False.
  - rewrite He. simpl. unfold resolve_explicit. by rewrite exact_match_wins.
  - intros ->. by vm_compute in He.
Qed.
Lemma exact_simple_import path loaded :
  path ++ t ".gruel" ∈ loaded → path ≠ t "std" → ends_with (t ".gruel") path = false →
  resolve_module (parse_module_path path) loaded = Some (path ++ t ".gruel").
Proof.
  intros Hin Hs He. unfold parse_module_path. rewrite decide_False, He by done. simpl. unfold resolve_simple.
  by rewrite exact_match_wins.
Qed.

(** Without an exact match the order of the paths decides, and the directory of a nested import
    can be ignored. *)
Example import_depends_on_order :
  resolve_module (parse_module_path (t "math")) [t "a/math.gruel"; t "b/math.gruel"] = Some (t "a/math.gruel") ∧
  resolve_module (parse_module_path (t "math")) [t "b/math.gruel"; t "a/math.gruel"] = Some (t "b/math.gruel").
Proof. by vm_compute. Qed.
Example nested_import_leaves_directory :
  resolve_module (parse_module_path (t "utils/strings")) [t "other/strings.gruel"; t "utils/_strings.gruel"] =
    Some (t "other/strings.gruel").
Proof. by vm_compute. Qed.
(** A directory named [prelude] anywhere makes its files privileged. *)
Example user_prelude_is_privileged : is_prelude_path (t "src/prelude/tricks.gruel") = true.
Proof. by vm_compute. Qed.
End Modules.
