(* ===== verification/TypeSyntaxThm.v ===== *)
(** * The text of a type is read back

    [intern_type] turns a type into text and the readers of [TypeSyntax] take the text apart.
    For types without anonymous structs, enums or interfaces the readers recover the parts, at
    every level: the text determines the type. *)

From Stdlib Require Import Ascii.
From stdpp Require Import pretty.
From S2P Require Import Prelude Types AirPattern Air Ast Remap Rir RirStore AstGen TypeSyntax ParseCacheThm.

#[local] Open Scope Z_scope.

(** ** Numbers *)
Section Digits.
Definition digit_value (acc : Z) (c : ascii) : Z := acc * 10 + (Z.of_nat (nat_of_ascii c) - 48).
Definition value (acc : Z) (l : text) : Z := foldl digit_value acc l.
Lemma digit_bounds c : is_digit c = true → 0 ≤ Z.of_nat (nat_of_ascii c) - 48 ≤ 9.
Proof. unfold is_digit. intros [H1%Nat.leb_le H2%Nat.leb_le]%andb_true_iff. lia. Qed.
Lemma value_ge acc l : 0 ≤ acc → forallb is_digit l = true → acc ≤ value acc l.
Proof.
  revert acc. induction l as [|c l IH]; intros acc Ha; simpl; [lia|]. intros [Hc%digit_bounds Hl]%andb_true_iff.
  etrans; [|apply IH; [|done]]; unfold digit_value; lia.
Qed.
Lemma digits_value acc l :
  0 ≤ acc → forallb is_digit l = true → value acc l < 2 ^ 64 → digits_u64 acc l = Some (value acc l).
Proof.
  revert acc. induction l as [|c l IH]; intros acc Ha; simpl; [done|]. intros [Hc Hl]%andb_true_iff Hv.
  rewrite Hc. apply digit_bounds in Hc as Hb. fold (digit_value acc c).
  assert (0 ≤ digit_value acc c) by (unfold digit_value; lia).
  pose proof (value_ge (digit_value acc c) l ltac:(done) Hl). rewrite decide_True by lia. by apply IH.
Qed.
Lemma digit_char x : (x < 10)%N → is_digit (pretty_N_char x) = true ∧ Z.of_nat (nat_of_ascii (pretty_N_char x)) = Z.of_N x + 48.
Proof.
  intros Hx. destruct x as [|p]; [done|]. do 4 (try destruct p as [p|p|]; try done; try lia).
Qed.
Lemma pretty_go x s :
  forallb is_digit (text_of s) = true →
  forallb is_digit (text_of (pretty_N_go x s)) = true ∧
  value 0 (text_of (pretty_N_go x s)) = value (Z.of_N x) (text_of s).
Proof.
  revert s. induction (N.lt_wf_0 x) as [x _ IH]; intros s Hs.
  assert (x = 0 ∨ 0 < x)%N as [->|Hx] by lia; [by rewrite pretty_N_go_0|]. rewrite pretty_N_go_step by done.
  destruct (digit_char (x `mod` 10)%N) as [Hd Hv]; [by apply N.mod_lt|].
  destruct (IH (x `div` 10)%N ltac:(by apply N.div_lt) (String (pretty_N_char (x `mod` 10)) s)) as [H1 H2].
  { simpl. by rewrite Hd. }
  split; [done|]. rewrite H2. simpl. f_equal. unfold digit_value. rewrite Hv.
  rewrite N2Z.inj_div, N2Z.inj_mod. pose proof (Z.div_mod (Z.of_N x) (Z.of_N 10) ltac:(done)). simpl in *. lia.
Qed.
Lemma pretty_go_nonempty x s : (0 < x)%N → text_of (pretty_N_go x s) ≠ [].
Proof.
  intros Hx. rewrite pretty_N_go_step by done. generalize (pretty_N_char (x `mod` 10)) as c. intros c.
  cut (∀ y s, text_of s ≠ [] → text_of (pretty_N_go y s) ≠ []); [intros H; by apply H|].
  intros y. induction (N.lt_wf_0 y) as [y _ IH]; intros t Ht.
  assert (y = 0 ∨ 0 < y)%N as [->|Hy] by lia; [by rewrite pretty_N_go_0|]. rewrite pretty_N_go_step by done.
  apply IH; [by apply N.div_lt|done].
Qed.
(** Decimal numbers are read back. *)
Lemma parse_pretty n :
  0 ≤ n < 2 ^ 64 →
  let l := text_of (pretty n) in parse_u64 l = Some n ∧ l ≠ [] ∧ forallb is_digit l = true.
Proof.
  intros Hn l. assert (Hl : l ≠ [] ∧ forallb is_digit l = true ∧ value 0 l = n).
  { subst l. destruct n as [|p|p]; [done| |lia]. unfold pretty, pretty_Z, pretty_positive, pretty, pretty_N.
    rewrite decide_False by done. destruct (pretty_go (Npos p) "" eq_refl) as [H1 H2].
    split; [by apply pretty_go_nonempty|]. split; [done|]. by rewrite H2. }
  destruct Hl as (Hne & Hd & Hv). split; [|done]. destruct l as [|c l']; [done|]. unfold parse_u64.
  assert (Ascii.eqb c "+" = false) as ->.
  { apply Ascii.eqb_neq. intros ->. by apply andb_true_iff in Hd as [Hd _]. }
  rewrite <-Hv. apply digits_value; [lia|done|lia].
Qed.
End Digits.

(** ** Scanning

    [scans k j l]: the loops pass over [l] without splitting it or remembering a semicolon, at
    depth [k] and more for the commas and at bracket depth [j] and more for the semicolons. *)
Record scans (k j : Z) (l : text) : Prop := {
  sc_args d cur s : k ≤ d → split_args d cur (l ++ s) = split_args d (cur ++ l) s;
  sc_parts dp db part s : 0 ≤ dp → 0 ≤ db → k ≤ dp + db →
    split_parts dp db part (l ++ s) = split_parts dp db (part ++ l) s;
  sc_semi i d semi s : j ≤ d → last_semicolon i d semi (l ++ s) = last_semicolon (i + length l) d semi s;
}.
Definition special (c : ascii) : bool :=
  Ascii.eqb c "(" || Ascii.eqb c ")" || Ascii.eqb c "[" || Ascii.eqb c "]" || Ascii.eqb c "," || Ascii.eqb c ";".

Lemma scans_nil k j : scans k j [].
Proof. split; intros; rewrite ?app_nil_r, ?Nat.add_0_r; done. Qed.
Lemma scans_app k j l l' : scans k j l → scans k j l' → scans k j (l ++ l').
Proof.
  intros [a b c] [a' b' c']. split; intros; rewrite <-(assoc_L (++)).
  - by rewrite a, a', (assoc_L (++)).
  - by rewrite b, b', (assoc_L (++)).
  - by rewrite c, c', length_app, Nat.add_assoc.
Qed.
Lemma scans_weaken k j k' j' l : k ≤ k' → j ≤ j' → scans k j l → scans k' j' l.
Proof. intros Hk Hj [a b c]. split; intros; [apply a|apply b|apply c]; lia. Qed.
Lemma scans_char c : special c = false → scans 0 0 [c].
Proof.
  unfold special. rewrite !orb_false_iff. intros [[[[[H1 H2] H3] H4] H5] H6].
  split; intros; simpl; rewrite ?H1, ?H2, ?H3, ?H4, ?H5, ?H6; simpl; by rewrite ?Nat.add_1_r.
Qed.
Lemma scans_plain l : forallb (λ c, negb (special c)) l = true → scans 0 0 l.
Proof.
  induction l as [|c l IH]; simpl; [intros _; apply scans_nil|]. intros [Hc%negb_true_iff Hl]%andb_true_iff.
  apply (scans_app 0 0 [c]); [by apply scans_char|by apply IH].
Qed.
Lemma scans_comma : scans 1 0 [","%char].
Proof.
  split; intros; simpl.
  - by rewrite (proj2 (Z.eqb_neq d 0)) by lia.
  - destruct (Z.eqb_spec dp 0), (Z.eqb_spec db 0); simpl; try done. lia.
  - by rewrite Nat.add_1_r.
Qed.
Lemma scans_semicolon : scans 0 1 [";"%char].
Proof. split; intros; simpl; [done|done|]. rewrite (proj2 (Z.eqb_neq d 0)) by lia. by rewrite Nat.add_1_r. Qed.
Lemma scans_paren l : scans 1 0 l → scans 0 0 ("("%char :: l ++ [")"%char]).
Proof.
  intros [a b c]. split; intros; simpl; rewrite <-(assoc_L (++)); simpl.
  - rewrite a by lia. simpl. rewrite <-!(assoc_L (++)). f_equal. lia.
  - rewrite b by lia. simpl. rewrite <-!(assoc_L (++)). f_equal. lia.
  - rewrite c by lia. simpl. rewrite length_app. simpl. f_equal. lia.
Qed.
Lemma scans_bracket l : scans 1 1 l → scans 0 0 ("["%char :: l ++ ["]"%char]).
Proof.
  intros [a b c]. split; intros; simpl; rewrite <-(assoc_L (++)); simpl.
  - rewrite a by lia. simpl. rewrite <-!(assoc_L (++)). f_equal. lia.
  - rewrite b by lia. simpl. rewrite <-!(assoc_L (++)). f_equal. lia.
  - rewrite c by lia. simpl. rewrite length_app. simpl. f_equal; lia.
Qed.

(** ** Trimming *)
Definition solid (c : ascii) : Prop := is_whitespace c = false.
Definition tight (l : text) : Prop := (∃ c l', l = c :: l' ∧ solid c) ∧ (∃ c l', l = l' ++ [c] ∧ solid c).
Lemma trim_start_solid c l : solid c → trim_start (c :: l) = c :: l.
Proof. intros Hc. simpl. by rewrite Hc. Qed.
Lemma tight_trim l : tight l → trim_text l = l.
Proof.
  intros [(c & l1 & H1 & Hc) (d & l2 & H2 & Hd)]. unfold trim_text.
  rewrite H1 at 1. rewrite trim_start_solid, <-H1 by done. rewrite H2 at 1. rewrite rev_app_distr. simpl rev at 2.
  cbn [app]. rewrite trim_start_solid by done. simpl. by rewrite rev_involutive.
Qed.
Lemma tight_trim_space l : tight l → trim_text (" "%char :: l) = l.
Proof. intros Hl. pose proof (tight_trim l Hl) as Ht. unfold trim_text in *. exact Ht. Qed.
Lemma tight_nonempty l : tight l → is_empty l = false.
Proof. by intros [(c & l' & -> & _) _]. Qed.
Lemma tight_app l m l' : tight l → tight l' → tight (l ++ m ++ l').
Proof.
  intros [(c & l1 & -> & Hc) _] [_ (d & l2 & -> & Hd)]. split; [by eexists _, _|].
  exists d, ((c :: l1) ++ m ++ l2). by rewrite <-!(assoc_L (++)).
Qed.
Lemma tight_between c l d : solid c → solid d → tight (c :: l ++ [d]).
Proof. intros Hc Hd. split; [by eexists _, _|]. by exists d, (c :: l). Qed.
Lemma tight_solid l : l ≠ [] → forallb (λ c, negb (is_whitespace c)) l = true → tight l.
Proof.
  intros Hne Hl. split.
  - destruct l as [|c l]; [done|]. apply andb_true_iff in Hl as [Hc%negb_true_iff _]. by eexists _, _.
  - destruct l as [|d l' _] using rev_ind; [done|]. exists d, l'. split; [done|].
    rewrite forallb_app in Hl. apply andb_true_iff in Hl as [_ Hd]. simpl in Hd. rewrite andb_true_r in Hd.
    by apply negb_true_iff in Hd.
Qed.

(** ** Lists of texts *)
Definition comma_space : text := [","; " "]%char.
Fixpoint join_texts (l : list text) : text :=
  match l with [] => [] | [a] => a | a :: l => a ++ comma_space ++ join_texts l end.
Lemma join_cons a b l : join_texts (a :: b :: l) = a ++ comma_space ++ join_texts (b :: l).
Proof. reflexivity. Qed.
Lemma text_of_app s t : text_of (s +:+ t) = text_of s ++ text_of t.
Proof. induction s as [|c s IH]; simpl; [done|]. f_equal. exact IH. Qed.
Lemma text_of_join l : text_of (join ", " l) = join_texts (map text_of l).
Proof.
  induction l as [|a l IH]; [done|]. destruct l as [|b l]; [done|].
  change (join ", " (a :: b :: l)) with (a +:+ ", " +:+ join ", " (b :: l)). rewrite !text_of_app, IH. done.
Qed.
Definition good (l : text) : Prop := tight l ∧ scans 0 0 l.

Lemma good_join a l : Forall good (a :: l) → tight (join_texts (a :: l)) ∧ scans 1 0 (join_texts (a :: l)).
Proof.
  revert a. induction l as [|b l IH]; intros a Hl; apply list.Forall_cons in Hl as [[Ha Hsa] Hl].
  - split; [done|]. eapply scans_weaken; [| |exact Hsa]; lia.
  - destruct (IH b Hl) as [Ht Hs]. rewrite join_cons. split; [by apply tight_app|].
    apply scans_app; [eapply scans_weaken; [| |exact Hsa]; lia|]. apply scans_app; [|done].
    apply (scans_app 1 0 [","%char]); [apply scans_comma|]. eapply scans_weaken; [| |by apply scans_char]; lia.
Qed.

(** The loops give the texts that were joined: the last one is what they leave. [pre] is what
    the loop has of the first. *)
Lemma split_args_join pre a l :
  pre = [] ∨ pre = [" "%char] → Forall good (a :: l) →
  ∃ args last, split_args 0 pre (join_texts (a :: l)) = (args, last) ∧ args ++ [trim_text last] = a :: l.
Proof.
  revert pre a. induction l as [|b l IH]; intros pre a Hpre Hl; apply list.Forall_cons in Hl as [[Ha [Hsa _ _]] Hl];
    assert (trim_text (pre ++ a) = a) as Htrim by (destruct Hpre as [->| ->]; [by apply tight_trim|by apply tight_trim_space]).
  - exists [], (pre ++ a). simpl join_texts. rewrite <-(app_nil_r a) at 1. rewrite Hsa by lia. simpl. by rewrite Htrim.
  - destruct (IH [" "%char] b (or_intror eq_refl) Hl) as (args & last & He & Hargs).
    exists (a :: args), last. rewrite join_cons, Hsa by lia. revert He. generalize (join_texts (b :: l)). intros J He.
    simpl. rewrite He, Htrim. split; [done|]. simpl. by f_equal.
Qed.
Lemma split_parts_join pre a l :
  pre = [] ∨ pre = [" "%char] → Forall good (a :: l) →
  ∃ parts tail, split_parts 0 0 pre (join_texts (a :: l)) = (parts, tail) ∧ parts ++ [trim_text tail] = a :: l.
Proof.
  revert pre a. induction l as [|b l IH]; intros pre a Hpre Hl; apply list.Forall_cons in Hl as [[Ha [_ Hsa _]] Hl];
    assert (trim_text (pre ++ a) = a) as Htrim by (destruct Hpre as [->| ->]; [by apply tight_trim|by apply tight_trim_space]).
  - exists [], (pre ++ a). simpl join_texts. rewrite <-(app_nil_r a) at 1. rewrite Hsa by lia. simpl. by rewrite Htrim.
  - destruct (IH [" "%char] b (or_intror eq_refl) Hl) as (parts & tail & He & Hparts).
    exists (a :: parts), tail. rewrite join_cons, Hsa by lia. revert He. generalize (join_texts (b :: l)). intros J He.
    simpl. rewrite He, Htrim. split; [done|]. simpl. by f_equal.
Qed.

(** ** The readers on the texts of compound types *)
Lemma inner_slice c l d : slice 1 (length (c :: l ++ [d]) - 1) (c :: l ++ [d]) = l.
Proof.
  unfold slice. simpl. rewrite length_app. simpl. replace (length l + 1 - 0 - 1)%nat with (length l) by lia.
  apply take_app_length.
Qed.
Lemma ends_with_last c l d : ends_with c (l ++ [d]) = Ascii.eqb d c.
Proof. unfold ends_with. by rewrite rev_app_distr. Qed.
Lemma good_nonempty l : Forall good l → existsb is_empty l = false.
Proof. induction 1 as [|a l [Ha _] _ IH]; simpl; [done|]. by rewrite (tight_nonempty a Ha), IH. Qed.

Definition array_text (el : text) (n : Z) : text := "["%char :: (el ++ [";"; " "]%char ++ text_of (pretty n)) ++ ["]"%char].
Definition tuple_text (l : list text) : text :=
  "("%char :: (join_texts l ++ (match l with [_] => [","%char] | _ => [] end)) ++ [")"%char].
Definition call_text (callee : text) (l : list text) : text := callee ++ "("%char :: join_texts l ++ [")"%char].

Lemma forallb_mono {A} (p q : A → bool) l : (∀ c, p c = true → q c = true) → forallb p l = true → forallb q l = true.
Proof. intros Hpq. induction l as [|c l IH]; simpl; [done|]. rewrite !andb_true_iff. naive_solver. Qed.
Lemma digits_plain l : forallb is_digit l = true → scans 0 0 l ∧ forallb (λ c, negb (is_whitespace c)) l = true.
Proof.
  intros Hl. split.
  - apply scans_plain. eapply forallb_mono; [|exact Hl]. intros c. destruct c as [[] [] [] [] [] [] [] []]; done.
  - eapply forallb_mono; [|exact Hl]. intros c. destruct c as [[] [] [] [] [] [] [] []]; done.
Qed.
Lemma array_reads el n : good el → 0 ≤ n < 2 ^ 64 → parse_array_type_syntax (array_text el n) = Some (el, n).
Proof.
  intros [Hel Hsc] Hn. destruct (parse_pretty n Hn) as (Hp & Hne & Hd). destruct (digits_plain _ Hd) as [Hds Hdw].
  assert (Htn := tight_solid _ Hne Hdw). unfold parse_array_type_syntax, array_text.
  rewrite tight_trim by by apply tight_between. rewrite inner_slice.
  rewrite app_comm_cons, ends_with_last. simpl negb. simpl orb. cbv iota.
  set (ds := text_of (pretty n)) in *. change (el ++ [";"; " "]%char ++ ds) with (el ++ ";"%char :: " "%char :: ds).
  rewrite (sc_semi _ _ _ Hsc) by lia. simpl.
  rewrite <-(app_nil_r ds), (sc_semi _ _ _ Hds) by lia. simpl. rewrite app_nil_r, take_app_length, (tight_trim el Hel).
  rewrite (cons_middle ";"%char el), (assoc_L (++)), drop_app_length' by (rewrite length_app; simpl; lia).
  by rewrite (tight_trim_space ds Htn), Hp.
Qed.
Lemma tuple_reads l : l ≠ [] → Forall good l → parse_tuple_type_syntax (tuple_text l) = Some l.
Proof.
  intros Hne Hl. destruct l as [|a l]; [done|]. destruct (good_join a l Hl) as [Ht Hs].
  unfold parse_tuple_type_syntax, tuple_text. rewrite tight_trim by by apply tight_between.
  rewrite inner_slice, app_comm_cons, ends_with_last. simpl negb. simpl orb. cbv iota.
  destruct l as [|b l].
  - apply list.Forall_cons in Hl as [[Ha [_ Hsa _]] _]. simpl join_texts.
    rewrite tight_trim.
    + rewrite (tight_nonempty (a ++ [","%char])) by (rewrite <-(app_nil_l [","%char]); apply tight_app; [done|by apply tight_solid]).
      rewrite Hsa by lia. simpl. rewrite (tight_trim a Ha). simpl. by rewrite (tight_nonempty a Ha).
    + rewrite <-(app_nil_l [","%char]). apply tight_app; [done|by apply tight_solid].
  - rewrite app_nil_r, (tight_trim _ Ht), (tight_nonempty _ Ht).
    destruct (split_parts_join [] a (b :: l) (or_introl eq_refl) Hl) as (parts & tail & -> & Hp).
    destruct parts as [|p parts]; [done|].
    assert (is_empty (trim_text tail) = false) as ->.
    { apply list.Forall_forall with (x := trim_text tail) in Hl; [by apply tight_nonempty, Hl|].
      rewrite <-Hp. set_solver. }
    rewrite Hp. by rewrite good_nonempty.
Qed.
Definition word (l : text) : Prop := l ≠ [] ∧ forallb is_word l = true.
Lemma word_good l : word l → good l.
Proof.
  intros [Hne Hl]. split; [apply tight_solid; [done|]|apply scans_plain]; (eapply forallb_mono; [|exact Hl]);
    intros c; destruct c as [[] [] [] [] [] [] [] []]; done.
Qed.
Lemma find_word l s : forallb is_word l = true → find_char "("%char (l ++ "("%char :: s) = Some (length l).
Proof.
  induction l as [|c l IH]; simpl; [done|]. intros [Hc Hl]%andb_true_iff. rewrite (IH Hl).
  destruct (Ascii.eqb_spec c "("); [by subst|done].
Qed.
Lemma call_reads callee l :
  word callee → l ≠ [] → Forall good l → parse_type_call_syntax (call_text callee l) = Some (callee, l).
Proof.
  intros [Hc Hw] Hne Hl. destruct (word_good callee (conj Hc Hw)) as [Htc _].
  destruct l as [|a l]; [done|]. unfold parse_type_call_syntax, call_text.
  destruct (split_args_join [] a l (or_introl eq_refl) Hl) as (args & last & Hs & Ha). revert Hs.
  generalize (join_texts (a :: l)) as J. intros J Hs.
  rewrite tight_trim by (change (callee ++ "("%char :: J ++ [")"%char]) with (callee ++ ("("%char :: J) ++ [")"%char]);
    apply tight_app; [done|by apply tight_solid]).
  assert (ends_with ")"%char (callee ++ "("%char :: J ++ [")"%char]) = true) as ->.
  { by rewrite app_comm_cons, (assoc_L (++)), ends_with_last. }
  rewrite find_word by done. simpl negb. cbv iota. rewrite !take_app_length, !(tight_trim callee), Hw by done.
  assert (slice (length callee + 1) (length (callee ++ "("%char :: J ++ [")"%char]) - 1)
    (callee ++ "("%char :: J ++ [")"%char]) = J) as ->.
  { unfold slice. rewrite (cons_middle "("%char callee), (assoc_L (++)), drop_app_length' by (rewrite length_app; simpl; lia).
    apply take_app_length'. rewrite !length_app. simpl length. lia. }
  rewrite Hs. assert (trim_text last ≠ []) as Hlast.
  { apply list.Forall_forall with (x := trim_text last) in Hl as [[(d & l' & Hd & _) _] _]; [by rewrite Hd|].
    rewrite <-Ha. set_solver. }
  destruct callee as [|c callee]; [done|]. simpl negb. cbv iota.
  destruct (trim_text last) as [|d last'] eqn:Hd; [done|]. by rewrite Ha.
Qed.

(** ** Shapes: types without anonymous parts *)
Inductive Shape : Type :=
  | SAtom (name : text)
  | SArray (element : Shape) (length : Z)
  | STuple (elems : list Shape)
  | SCall (callee : text) (args : list Shape).
Fixpoint shape_text (sh : Shape) : text :=
  match sh with
  | SAtom name => name
  | SArray element length => array_text (shape_text element) length
  | STuple elems => tuple_text (map shape_text elems)
  | SCall callee args => call_text callee (map shape_text args)
  end.
(** What the lexer and the parser guarantee. *)
Inductive shape_ok : Shape → Prop :=
  | ok_word name : word name → shape_ok (SAtom name)
  | ok_unit : shape_ok (SAtom (text_of "()"))
  | ok_never : shape_ok (SAtom (text_of "!"))
  | ok_array element length : shape_ok element → 0 ≤ length < 2 ^ 64 → shape_ok (SArray element length)
  | ok_tuple elems : elems ≠ [] → Forall shape_ok elems → shape_ok (STuple elems)
  | ok_call callee args : word callee → args ≠ [] → Forall shape_ok args → shape_ok (SCall callee args).
Fixpoint shape_height (sh : Shape) : nat :=
  match sh with
  | SAtom _ => 0
  | SArray element _ => S (shape_height element)
  | STuple l | SCall _ l => S (max_list (map shape_height l))
  end.
(** The readers in the order in which [resolve_type] tries them, down to the atoms. *)
Fixpoint read_type (fuel : nat) (s : text) : option Shape :=
  match fuel with
  | O => None
  | S fuel =>
      match parse_type_call_syntax s with
      | Some (callee, args) => SCall callee <$> mapM (read_type fuel) args
      | None =>
          match parse_array_type_syntax s with
          | Some (element, length) => (λ el, SArray el length) <$> read_type fuel element
          | None =>
              match parse_tuple_type_syntax s with
              | Some elems => STuple <$> mapM (read_type fuel) elems
              | None => Some (SAtom s)
              end
          end
      end
  end.

(** Induction over shapes with the hypothesis for every part. *)
Lemma shape_ok_rec (P : Shape → Prop) :
  (∀ name, word name → P (SAtom name)) → P (SAtom (text_of "()")) → P (SAtom (text_of "!")) →
  (∀ el n, shape_ok el → P el → 0 ≤ n < 2 ^ 64 → P (SArray el n)) →
  (∀ l, l ≠ [] → Forall shape_ok l → Forall P l → P (STuple l)) →
  (∀ c l, word c → l ≠ [] → Forall shape_ok l → Forall P l → P (SCall c l)) → ∀ sh, shape_ok sh → P sh.
Proof.
  intros Hw Hu Hn Ha Ht Hc. fix rec 2. intros sh [name H| | |el n Hel Hl|l Hne Hl|c l Hcw Hne Hl]; [by apply Hw|done|done| | |].
  - by apply Ha; [|apply rec|].
  - apply Ht; [done|done|]. induction Hl as [|x l Hx Hl IH]; constructor; [by apply rec|]. destruct l; [constructor|by apply IH].
  - apply Hc; [done|done|done|]. induction Hl as [|x l Hx Hl IH]; constructor; [by apply rec|]. destruct l; [constructor|by apply IH].
Qed.

Lemma shape_good sh : shape_ok sh → good (shape_text sh).
Proof.
  induction 1 as [name H| | |el n _ [Ht Hs] Hn|l Hne _ Hl|c l Hc Hne _ Hl] using shape_ok_rec; simpl.
  - by apply word_good.
  - split; [by apply (tight_between _ [])|by apply (scans_paren []), scans_nil].
  - split; [by apply tight_solid|by apply scans_plain].
  - destruct (parse_pretty n Hn) as (_ & Hne & Hd). destruct (digits_plain _ Hd) as [Hds Hdw].
    split; [by apply tight_between|]. apply scans_bracket, scans_app; [eapply scans_weaken; [| |exact Hs]; lia|].
    apply scans_app; [|eapply scans_weaken; [| |exact Hds]; lia].
    apply (scans_app 1 1 [";"%char]); [eapply scans_weaken; [| |apply scans_semicolon]; lia|].
    eapply scans_weaken; [| |by apply scans_char]; lia.
  - apply list.Forall_fmap in Hl. destruct l as [|a l]; [done|].
    destruct (good_join _ _ Hl) as [Htj Hsj]. split; [by apply tight_between|]. apply scans_paren, scans_app; [done|].
    destruct (map shape_text (a :: l)) as [|? [|? ?]]; [apply scans_nil|apply scans_comma|apply scans_nil].
  - apply list.Forall_fmap in Hl. destruct l as [|a l]; [done|]. destruct (good_join _ _ Hl) as [Htj Hsj].
    destruct (word_good c Hc) as [Htc Hsc]. split.
    + apply (tight_app c ("("%char :: join_texts (map shape_text (a :: l))) [")"%char]); [done|by apply tight_solid].
    + apply scans_app; [done|by apply scans_paren].
Qed.
Lemma shapes_good l : Forall shape_ok l → Forall good (map shape_text l).
Proof. intros Hl. apply list.Forall_fmap. eapply list.Forall_impl; [exact Hl|]. intros sh. apply shape_good. Qed.

(** No reader takes the text of another former. *)
Lemma no_call_unless_paren s d : tight (s ++ [d]) → Ascii.eqb d ")" = false → parse_type_call_syntax (s ++ [d]) = None.
Proof. intros Ht Hd. unfold parse_type_call_syntax. rewrite tight_trim by done. by rewrite ends_with_last, Hd. Qed.
Lemma no_call_from_paren s : tight ("("%char :: s) → parse_type_call_syntax ("("%char :: s) = None.
Proof. intros Ht. unfold parse_type_call_syntax. rewrite tight_trim by done. by case_match. Qed.
Lemma no_array_unless_bracket c s :
  tight (c :: s) → Ascii.eqb c "[" = false → parse_array_type_syntax (c :: s) = None.
Proof. intros Ht Hc. unfold parse_array_type_syntax. rewrite tight_trim by done. simpl. by rewrite Hc. Qed.
Lemma no_tuple_unless_paren c s :
  tight (c :: s) → Ascii.eqb c "(" = false → parse_tuple_type_syntax (c :: s) = None.
Proof. intros Ht Hc. unfold parse_tuple_type_syntax. rewrite tight_trim by done. simpl. by rewrite Hc. Qed.

Lemma mapM_shapes (f : text → option Shape) l :
  Forall (λ sh, f (shape_text sh) = Some sh) l → mapM f (map shape_text l) = Some l.
Proof. induction 1 as [|sh l Hsh _ IH]; simpl; [done|]. by rewrite Hsh, IH. Qed.
Lemma word_read name : word name →
  parse_type_call_syntax name = None ∧ parse_array_type_syntax name = None ∧ parse_tuple_type_syntax name = None.
Proof.
  intros Hw. destruct (word_good name Hw) as [Ht _]. destruct Hw as [Hne Hw]. split_and!.
  - destruct name as [|d name' _] using rev_ind; [done|]. apply no_call_unless_paren; [done|].
    rewrite forallb_app in Hw. apply andb_true_iff in Hw as [_ Hd]. simpl in Hd. rewrite andb_true_r in Hd.
    by destruct (Ascii.eqb_spec d ")"); [subst|].
  - destruct name as [|c name']; [done|]. apply no_array_unless_bracket; [done|]. apply andb_true_iff in Hw as [Hc _].
    by destruct (Ascii.eqb_spec c "["); [subst|].
  - destruct name as [|c name']; [done|]. apply no_tuple_unless_paren; [done|]. apply andb_true_iff in Hw as [Hc _].
    by destruct (Ascii.eqb_spec c "("); [subst|].
Qed.
Lemma heights_below l fuel (P : nat → Shape → Prop) :
  (max_list (map shape_height l) < fuel)%nat → Forall (λ sh, ∀ f, (shape_height sh < f)%nat → P f sh) l → Forall (P fuel) l.
Proof.
  intros Hf Hl. induction Hl as [|sh l Hsh _ IH]; constructor; simpl in Hf; [apply Hsh; lia|apply IH; lia].
Qed.

(** Every shape is read from its text. *)
Lemma shape_reads sh : shape_ok sh → ∀ fuel, (shape_height sh < fuel)%nat → read_type fuel (shape_text sh) = Some sh.
Proof.
  induction 1 as [name Hw| | |el n Hok IH Hn|l Hne Hok IH|c l Hc Hne Hok IH] using shape_ok_rec;
    intros [|fuel] Hf; simpl in Hf; try lia; cbn [read_type shape_text].
  - by destruct (word_read name Hw) as (-> & -> & ->).
  - done.
  - done.
  - unfold array_text at 1. rewrite app_comm_cons, no_call_unless_paren by (try apply tight_between; done).
    rewrite array_reads by (try apply shape_good; done). rewrite IH by lia. done.
  - unfold tuple_text at 1. rewrite no_call_from_paren by by apply tight_between.
    unfold tuple_text at 1. rewrite no_array_unless_bracket by (try apply tight_between; done).
    rewrite tuple_reads; [|by destruct l|by apply shapes_good]. rewrite mapM_shapes; [done|].
    apply (heights_below l fuel (λ f sh, read_type f (shape_text sh) = Some sh)); [lia|done].
  - rewrite call_reads; [|done|by destruct l|by apply shapes_good]. rewrite mapM_shapes; [done|].
    apply (heights_below l fuel (λ f sh, read_type f (shape_text sh) = Some sh)); [lia|done].
Qed.

(** ** The texts [intern_type] makes *)
Section Interned.
Context {I Spur : Type} `{!SpurKey Spur, !Interner I Spur, !InternerLaws I Spur}.
Notation AstGen := (AstGen I Spur).
Implicit Types (g : AstGen) (i : I).

Definition name_text i (k : Spur) : option text :=
  match resolve i k with Done s => Some (text_of s) | _ => None end.
Fixpoint shape_of i (t : TypeExpr Spur) : option Shape :=
  match t with
  | TypeNamed ident => SAtom <$> name_text i (id_name ident)
  | TypeUnit _ => Some (SAtom (text_of "()"))
  | TypeNever _ => Some (SAtom (text_of "!"))
  | TypeArray element length _ => (λ el, SArray el length) <$> shape_of i element
  | TypeTuple elems _ => STuple <$> mapM (shape_of i) elems
  | TypeCall callee args _ => c ← name_text i (id_name callee); SCall c <$> mapM (shape_of i) args
  | TypeAnonymousStruct _ _ _ _ _ | TypeAnonymousEnum _ _ _ _ _ | TypeAnonymousInterface _ _ => None
  end.

(** What an interner knows it keeps. *)
Definition knows i i' : Prop := ∀ k s, resolve i k = Done s → resolve i' k = Done s.
#[local] Instance knows_preorder : PreOrder knows.
Proof. split; [by intros i k s|]. intros i1 i2 i3 H12 H23 k s Hk. by apply H23, H12. Qed.
Lemma name_text_knows i i' k l : knows i i' → name_text i k = Some l → name_text i' k = Some l.
Proof. unfold name_text. intros Hk. destruct (resolve i k) as [s| |] eqn:Hr; [|done..]. by rewrite (Hk _ _ Hr). Qed.
Lemma shape_of_knows i i' t : knows i i' → ∀ sh, shape_of i t = Some sh → shape_of i' t = Some sh.
Proof.
  intros Hk. assert (Hm : ∀ l ss, list_all (λ t, ∀ sh, shape_of i t = Some sh → shape_of i' t = Some sh) l →
    mapM (shape_of i) l = Some ss → mapM (shape_of i') l = Some ss).
  { intros l ss Hl. revert ss. induction Hl as [|x Hx l _ IH]; intros ss; simpl; [done|].
    intros (sh & Hsh & (ss' & Hss & [= <-])%bind_Some)%bind_Some. by rewrite (Hx _ Hsh), (IH _ Hss). }
  apply (@TypeExpr_mind Spur (λ _, True) (λ _, True) (λ t, ∀ sh, shape_of i t = Some sh → shape_of i' t = Some sh));
    try done; simpl; intros.
  - match goal with H : _ <$> _ = Some _ |- _ => apply fmap_Some in H as (l & Hl & ->) end.
    by rewrite (name_text_knows i i' _ _ Hk Hl).
  - match goal with H : _ <$> _ = Some _ |- _ => apply fmap_Some in H as (el & Hel & ->) end.
    match goal with IH : ∀ sh, _ → _ |- _ => by rewrite (IH _ Hel) end.
  - match goal with H : _ ≫= _ = Some _ |- _ => apply bind_Some in H as (c & Hc & (ss & Hss & ->)%fmap_Some) end.
    rewrite (name_text_knows i i' _ _ Hk Hc). simpl. by erewrite Hm.
  - match goal with H : _ <$> _ = Some _ |- _ => apply fmap_Some in H as (ss & Hss & ->) end. by erewrite Hm.
Qed.

(** A generator of the text [l], from the names it finds. *)
Definition says (m : ST AstGen string) (l : text) g : Prop :=
  ∀ s g', m g = Done (s, g') → knows (ag_interner g) (ag_interner g') ∧ text_of s = l.
Lemma intern_knows s g k g' :
  intern s g = Done (k, g') → knows (ag_interner g) (ag_interner g') ∧ resolve (ag_interner g') k = Done s.
Proof.
  unfold intern. destruct (get_or_intern (ag_interner g) s) as [k' i'] eqn:Hi. intros [= <- <-]. simpl. split.
  - intros j u Hj. pose proof (resolve_keeps (ag_interner g) s u j Hj) as Hr. by rewrite Hi in Hr.
  - pose proof (resolve_interned (ag_interner g) s) as Hr. by rewrite Hi in Hr.
Qed.
Lemma name_of_says k l g : name_text (ag_interner g) k = Some l → says (name_of k) l g.
Proof.
  unfold name_text. intros Hn s g' (u & Hu & [= <- <-])%bind_Done. rewrite Hu in Hn. injection Hn as <-. by split.
Qed.
Definition type_says (t : TypeExpr Spur) : Prop :=
  ∀ g sh, shape_of (ag_interner g) t = Some sh → says (type_text intern_type t) (shape_text sh) g.
Lemma each_says l g ss :
  list_all type_says l → mapM (shape_of (ag_interner g)) l = Some ss →
  ∀ texts g', each (type_text intern_type) l g = Done (texts, g') →
    knows (ag_interner g) (ag_interner g') ∧ map text_of texts = map shape_text ss.
Proof.
  intros Hl. revert g ss. induction Hl as [|x Hx l _ IH]; intros g ss; simpl.
  - intros [= <-] texts g' [= <- <-]. done.
  - intros (sh & Hsh & (ss' & Hss & [= <-])%bind_Some)%bind_Some texts g'.
    intros ([s g1] & Hs & ([texts' g2] & Hts & [= <- <-])%bind_Done)%bind_Done.
    destruct (Hx g sh Hsh s g1 Hs) as [Hk1 Ht1].
    assert (mapM (shape_of (ag_interner g1)) l = Some ss') as Hss1.
    { clear -Hss Hk1 InternerLaws0. revert ss' Hss. induction l as [|y l IH]; intros ss'; simpl; [done|].
      intros (sh & Hsh & (ss'' & Hss & [= <-])%bind_Some)%bind_Some.
      by rewrite (shape_of_knows _ _ _ Hk1 _ Hsh), (IH _ Hss). }
    destruct (IH g1 ss' Hss1 texts' g2 Hts) as [Hk2 Ht2]. split; [by etrans|]. simpl. by rewrite Ht1, Ht2.
Qed.
(** Interning a text that was put together says the text. *)
Lemma interned_says g g1 u k g2 s g' :
  knows (ag_interner g) (ag_interner g1) → intern u g1 = Done (k, g2) → name_of k g2 = Done (s, g') →
  knows (ag_interner g) (ag_interner g') ∧ s = u.
Proof.
  intros Hk1 Hk (v & Hv & [= <- <-])%bind_Done. destruct (intern_knows _ _ _ _ Hk) as [Hk2 Hr].
  rewrite Hr in Hv. injection Hv as <-. split; [by etrans|done].
Qed.
Lemma types_say t : type_says t.
Proof.
  apply (@TypeExpr_mind Spur (λ _, True) (λ _, True) type_says); try done;
    intros; intros g sh Hsh s g'; unfold type_text; simpl in Hsh |- *.
  - apply fmap_Some in Hsh as (l & Hl & ->). intros ([k g1] & [= <- <-] & Hs)%bind_Done. by apply (name_of_says _ l g Hl).
  - injection Hsh as <-. intros ([k g1] & Hk & Hs)%bind_Done. by destruct (interned_says g _ _ _ _ _ _ (reflexivity _) Hk Hs) as [? ->].
  - injection Hsh as <-. intros ([k g1] & Hk & Hs)%bind_Done. by destruct (interned_says g _ _ _ _ _ _ (reflexivity _) Hk Hs) as [? ->].
  - apply fmap_Some in Hsh as (el & Hel & ->). intros ([k g2] & ([u g1] & Hu & Hk)%bind_Done & Hs)%bind_Done.
    match goal with IH : type_says _ |- _ => destruct (IH g el Hel u g1 Hu) as [Hk1 Ht1] end.
    destruct (interned_says g _ _ _ _ _ _ Hk1 Hk Hs) as [Hk2 ->]. split; [done|].
    rewrite !text_of_app, Ht1. simpl. unfold array_text. by rewrite <-!(assoc_L (++)).
  - apply bind_Some in Hsh as (c & Hc & (ss & Hss & ->)%fmap_Some).
    intros ([k g3] & ([u g1] & Hu & ([texts g2] & Hts & Hk)%bind_Done)%bind_Done & Hs)%bind_Done.
    destruct (name_of_says _ _ _ Hc u g1 Hu) as [Hk1 <-].
    assert (g1 = g) as -> by (by apply bind_Done in Hu as (? & _ & [= _ <-])).
    destruct (each_says _ _ _ X Hss _ _ Hts) as [Hk2 Ht2]. destruct (interned_says g _ _ _ _ _ _ Hk2 Hk Hs) as [Hk3 ->].
    split; [done|]. rewrite !text_of_app, text_of_join, Ht2. done.
  - apply fmap_Some in Hsh as (ss & Hss & ->). intros ([k g2] & ([texts g1] & Hts & Hk)%bind_Done & Hs)%bind_Done.
    destruct (each_says _ _ _ X Hss _ _ Hts) as [Hk1 Ht1]. destruct (interned_says g _ _ _ _ _ _ Hk1 Hk Hs) as [Hk2 ->].
    split; [done|]. rewrite !text_of_app, text_of_join, Ht1. simpl. unfold tuple_text. rewrite <-(assoc_L (++)). f_equal. f_equal.
    f_equal.
    assert (length elems = length ss) as Hlen.
    { clear -Hss. apply mapM_Some in Hss. by eapply Forall2_length. }
    case_decide as Hone; rewrite Hlen in Hone; destruct ss as [|? [|? ?]]; done.
Qed.
Lemma interned_resolves g t sh sym g' :
  shape_of (ag_interner g) t = Some sh → intern_type t g = Done (sym, g') → ∃ s, resolve (ag_interner g') sym = Done s.
Proof.
  destruct t; simpl; try done; intros Hsh Hi; repeat apply bind_Done in Hi as ([? ?] & _ & Hi);
    try (by apply intern_knows in Hi as [_ Hr]; eexists).
  injection Hi as <- <-. unfold name_text in Hsh. destruct (resolve _ _); [by eexists|done..].
Qed.

(** C19: types survive being turned into text. The symbol [intern_type] gives a type without
    anonymous structs, enums and interfaces stands for a text from which
    [parse_type_call_syntax], [parse_array_type_syntax] and [parse_tuple_type_syntax], tried in
    the order of the analysis and applied to the parts they return, recover the whole type:
    former by former, with every array length, callee and name. *)
Theorem type_texts_read_back g (t : TypeExpr Spur) (sh : Shape) (sym : Spur) g' :
  shape_of (ag_interner g) t = Some sh → shape_ok sh → intern_type t g = Done (sym, g') →
  ∃ s, resolve (ag_interner g') sym = Done s ∧ read_type (S (shape_height sh)) (text_of s) = Some sh.
Proof.
  intros Hsh Hok Hi. destruct (interned_resolves _ _ _ _ _ Hsh Hi) as [s Hs]. exists s. split; [done|].
  destruct (types_say t g sh Hsh s g') as [_ ->]; [|by apply shape_reads; [|lia]].
  apply bind_Done. exists (sym, g'). split; [done|]. apply bind_Done. by exists s.
Qed.
(** Two types with one symbol have one shape. *)
Lemma same_symbol_same_shape g1 g1' g2 g2' t1 t2 sh1 sh2 sym :
  shape_of (ag_interner g1) t1 = Some sh1 → shape_ok sh1 → intern_type t1 g1 = Done (sym, g1') →
  shape_of (ag_interner g2) t2 = Some sh2 → shape_ok sh2 → intern_type t2 g2 = Done (sym, g2') →
  knows (ag_interner g1') (ag_interner g2') → sh1 = sh2.
Proof.
  intros H1 Hok1 Hi1 H2 Hok2 Hi2 Hk.
  destruct (interned_resolves _ _ _ _ _ H1 Hi1) as [s1 Hs1]. pose proof (Hk _ _ Hs1) as Hs2.
  assert (text_of s1 = shape_text sh1 ∧ text_of s1 = shape_text sh2) as [He1 He2].
  { split; [eapply (types_say t1 g1 sh1 H1 s1 g1')|eapply (types_say t2 g2 sh2 H2 s1 g2')];
      (apply bind_Done; eexists (sym, _); split; [done|]; apply bind_Done; by exists s1). }
  pose proof (shape_reads sh1 Hok1 (S (shape_height sh1 + shape_height sh2)) ltac:(lia)) as Hr1.
  pose proof (shape_reads sh2 Hok2 (S (shape_height sh1 + shape_height sh2)) ltac:(lia)) as Hr2.
  rewrite <-He1 in Hr1. rewrite <-He2, Hr1 in Hr2. by injection Hr2.
Qed.
End Interned.

(** ** Examples *)
(** Braces do not protect commas: an anonymous struct is split into two arguments. *)
Example braces_split :
  parse_type_call_syntax (text_of "F(struct { a: i32, b: i32 })") =
    Some (text_of "F", [text_of "struct { a: i32"; text_of "b: i32 }"]).
Proof. reflexivity. Qed.
(** A call without arguments is not read as a call. *)
Example empty_call : parse_type_call_syntax (text_of "F()") = None.
Proof. reflexivity. Qed.

(** The type [Pair([i32; 40], (bool,))]. *)
Module TypeTextExample.
#[local] Existing Instance ParseCacheThm.Example.nat_spurs.
#[local] Existing Instance ParseCacheThm.Example.strings_interner.
#[local] Existing Instance ParseCacheThm.Example.strings_laws.
Definition sp : Span := MkSpan 0 0 1.
Definition ident (n : nat) : Ident nat := MkIdent n sp.
Definition names : ParseCacheThm.Example.Strings :=
  foldl (λ i s, (get_or_intern i s).2) ParseCacheThm.Example.empty_interner ["Pair"; "i32"; "bool"].
Definition ty : TypeExpr nat :=
  TypeCall (ident 0) [TypeArray (TypeNamed (ident 1)) 40 sp; TypeTuple [TypeNamed (ident 2)] sp] sp.
Definition sh : Shape :=
  SCall (text_of "Pair") [SArray (SAtom (text_of "i32")) 40; STuple [SAtom (text_of "bool")]].
Lemma sh_ok : shape_ok sh.
Proof. repeat (constructor || done). Qed.
Definition start : AstGen ParseCacheThm.Example.Strings nat := new_gen names.
Lemma type_texts_read_back_witness :
  ∃ sym g' s, intern_type ty start = Done (sym, g') ∧ resolve (ag_interner g') sym = Done s ∧ read_type 3 (text_of s) = Some sh.
Proof.
  destruct (intern_type ty start) as [[sym g']| |] eqn:Hi; [|vm_compute in Hi; discriminate..].
  destruct (type_texts_read_back start ty sh sym g') as (s & Hs & Hr);
    [vm_compute; reflexivity|exact sh_ok|exact Hi|].
  exists sym, g', s. split; [reflexivity|]. split; [exact Hs|exact Hr].
Defined.
End TypeTextExample.
