(* ===== verification/Fmt.v ===== *)
(** * The formatter: trivia and the printer

    Models [crates/gruel-fmt/src/trivia.rs] (the scan of a source for comments and blank lines)
    and [printer.rs] (the output buffer, into which the scanned trivia are woven). A text is the
    list of its characters, as in [Positions], and a byte offset is an offset into its UTF-8
    encoding. The printer is the state of the emitters; slicing the source off a character
    boundary, [dedent] at level 0 and overflow of a [u32] panic. *)

From stdpp Require Import pretty.
From S2P Require Import Prelude Types Air Positions Ast.

#[local] Open Scope Z_scope.

(** A text of the program. *)
Definition str_of (s : string) : str := map (λ a, Z.of_N (Ascii.N_of_ascii a)) (String.list_ascii_of_string s).
Definition ends_in (suffix s : str) : bool := bool_decide (suffix `suffix_of` s).

(** ** [trivia.rs] *)
Inductive TriviaKind : Set := TriviaComment | TriviaBlank.
Record TriviaEntry : Type := MkTriviaEntry { tv_kind : TriviaKind; tv_start : Z; tv_end : Z }.

Definition SLASH : Z := 47.
Definition BACKSLASH : Z := 92.
Definition QUOTE : Z := 34.
Definition TICK : Z := 39.

(** [flush_blank]: [s + newlines] is an addition of [u32]. *)
Definition flush_blank (entries : list TriviaEntry) (start : option Z) (newlines : Z) : outcome (list TriviaEntry) :=
  match start with
  | Some s =>
      if 2 <=? newlines then e ← checked_add 32 s newlines; Done (entries ++ [MkTriviaEntry TriviaBlank s e])
      else Done entries
  | None => Done entries
  end.

(** The loops of [skip_string] and [skip_char], which differ in the quote: the number of bytes
    after the opening quote that are skipped. *)
Fixpoint skip_quoted (quote : Z) (rest : list Z) : nat :=
  match rest with
  | [] => O
  | b :: rest =>
      if b =? quote then 1%nat
      else if b =? BACKSLASH then match rest with [] => 1%nat | _ :: rest => S (S (skip_quoted quote rest)) end
      else if b =? NL then O
      else S (skip_quoted quote rest)
  end.
Definition skip_string (rest : list Z) : nat := S (skip_quoted QUOTE rest).
Definition skip_char (rest : list Z) : nat := S (skip_quoted TICK rest).

(** The slashes a text starts with, and the bytes up to the end of the line. *)
Fixpoint leading (b : Z) (rest : list Z) : nat :=
  match rest with [] => O | c :: rest => if c =? b then S (leading b rest) else O end.
Fixpoint to_line_end (rest : list Z) : nat :=
  match rest with [] => O | c :: rest => if c =? NL then O else S (to_line_end rest) end.

(** The loop of [TriviaTable::scan] at offset [i], where [rest] is [bytes[i..]]. Every round
    skips a byte or more: the fuel is one more than the number of bytes. *)
Fixpoint scan_loop (fuel : nat) (i : Z) (rest : list Z) (entries : list TriviaEntry) (run_start : option Z)
    (newlines : Z) : outcome (list TriviaEntry) :=
  match fuel with
  | O => NoFuel
  | S fuel =>
      match rest with
      | [] => flush_blank entries run_start newlines
      | b :: rest' =>
          let jump n := scan_loop fuel (i + Z.of_nat n) (drop n rest) in
          if (b =? SLASH) && bool_decide (list.head rest' = Some SLASH) then
            let slash_count := leading SLASH rest in
            let j := (slash_count + to_line_end (drop slash_count rest))%nat in
            if bool_decide (slash_count = 2%nat) then
              entries ← flush_blank entries run_start newlines;
              jump j (entries ++ [MkTriviaEntry TriviaComment (wrap 32 i) (wrap 32 (i + Z.of_nat j))]) None 0
            else jump j entries run_start newlines
          else if b =? NL then
            let run_start := if newlines =? 0 then Some (wrap 32 i) else run_start in
            newlines ← checked_add 32 newlines 1;
            jump 1%nat entries run_start newlines
          else if (b =? 32) || (b =? 9) || (b =? 13) then jump 1%nat entries run_start newlines
          else
            entries ← flush_blank entries run_start newlines;
            if b =? QUOTE then jump (skip_string rest') entries None 0
            else if b =? TICK then jump (skip_char rest') entries None 0
            else jump 1%nat entries None 0
      end
  end.
Definition scan (src : str) : outcome (list TriviaEntry) :=
  scan_loop (S (length (bytes src))) 0 (bytes src) [] None 0.

(** [LineIndex] of the formatter: the offsets where lines start. *)
Fixpoint line_starts_from (i : Z) (rest : list Z) : list Z :=
  match rest with
  | [] => []
  | b :: rest => if b =? NL then wrap 32 (i + 1) :: line_starts_from (i + 1) rest else line_starts_from (i + 1) rest
  end.
Definition line_starts (src : str) : list Z := 0 :: line_starts_from 0 (bytes src).
(** [slice::binary_search]: [inl] is [Ok]. *)
Definition binary_search (l : list Z) (x : Z) : nat + nat :=
  let k := partition_point (λ y, y <? x) l in
  if bool_decide (l !! k = Some x) then inl k else inr k.
Definition line_of (starts : list Z) (byte : Z) : Z :=
  match binary_search starts byte with inl idx => wrap 32 (Z.of_nat idx) | inr idx => wrap 32 (Z.of_nat (idx - 1)) end.

(** ** [printer.rs] *)
Definition INDENT_WIDTH : nat := 4.
(** [Printer]; the interner is an argument of the emitters. *)
Record Printer : Type := MkPrinter {
  pr_out : str; pr_indent_level : nat; pr_pending_indent : bool; pr_src : str; pr_trivia : list TriviaEntry;
  pr_trivia_cursor : nat; pr_line_index : list Z; pr_last_emitted_end : Z }.
Definition set_out (p : Printer) (out : str) (pending : bool) : Printer :=
  MkPrinter out (pr_indent_level p) pending (pr_src p) (pr_trivia p) (pr_trivia_cursor p) (pr_line_index p)
    (pr_last_emitted_end p).
Definition set_indent (p : Printer) (level : nat) : Printer :=
  MkPrinter (pr_out p) level (pr_pending_indent p) (pr_src p) (pr_trivia p) (pr_trivia_cursor p) (pr_line_index p)
    (pr_last_emitted_end p).
Definition set_cursor (p : Printer) (cursor : nat) : Printer :=
  MkPrinter (pr_out p) (pr_indent_level p) (pr_pending_indent p) (pr_src p) (pr_trivia p) cursor (pr_line_index p)
    (pr_last_emitted_end p).
Definition set_emitted_end (p : Printer) (byte : Z) : Printer :=
  MkPrinter (pr_out p) (pr_indent_level p) (pr_pending_indent p) (pr_src p) (pr_trivia p) (pr_trivia_cursor p)
    (pr_line_index p) byte.

(** [Printer::new]. *)
Definition printer_new (src : str) : outcome Printer :=
  trivia ← scan src;
  Done (MkPrinter [] 0 false src trivia 0 (line_starts src) 0).

Notation Emit := (ST Printer ()).

Definition flush_indent : Emit :=
  modify (λ p, if pr_pending_indent p
               then set_out p (pr_out p ++ repeat 32 (pr_indent_level p * INDENT_WIDTH)) false else p).
Definition push_str (s : str) : Emit := modify (λ p, set_out p (pr_out p ++ s) (pr_pending_indent p)).
Definition write_str (s : str) : Emit := match s with [] => mret () | _ => flush_indent;; push_str s end.
Definition write (s : string) : Emit := write_str (str_of s).
Definition newline : Emit := modify (λ p, set_out p (pr_out p ++ [NL]) true).
Definition blank_line : Emit :=
  modify (λ p,
    let out := pr_out p in
    if bool_decide (out = []) || ends_in [NL; NL] out || ends_in (str_of "{" ++ [NL]) out then set_out p out true
    else set_out p ((if ends_in [NL] out then out else out ++ [NL]) ++ [NL]) true).
Definition indent : Emit := modify (λ p, set_indent p (S (pr_indent_level p))).
Definition dedent : Emit := λ p,
  match pr_indent_level p with O => Panic | S level => Done ((), set_indent p level) end.
(** [p.indent(); ..; p.dedent();] *)
Definition indented (m : Emit) : Emit := indent;; m;; dedent.

Definition next_trivia : Emit := modify (λ p, set_cursor p (S (pr_trivia_cursor p))).
Definition entry_text (entry : TriviaEntry) : ST Printer str := λ p,
  text ← str_slice (pr_src p) (tv_start entry) (tv_end entry); Done (text, p).
Definition emit_trivia (entry : TriviaEntry) : Emit :=
  match tv_kind entry with
  | TriviaBlank => blank_line
  | TriviaComment => text ← entry_text entry; write_str text;; newline
  end.
(** The entries from the cursor on, which the loops below go through. *)
Definition pending_trivia : ST Printer (list TriviaEntry) := gets (λ p, drop (pr_trivia_cursor p) (pr_trivia p)).
Fixpoint drain_while (more : TriviaEntry → bool) (emit : TriviaEntry → Emit) (entries : list TriviaEntry) : Emit :=
  match entries with
  | [] => mret ()
  | entry :: entries => if more entry then next_trivia;; emit entry;; drain_while more emit entries else mret ()
  end.
Definition drain_trivia_before (offset : Z) : Emit :=
  entries ← pending_trivia; drain_while (λ entry, tv_start entry <? offset) emit_trivia entries.
Definition drain_trivia_remaining : Emit := entries ← pending_trivia; drain_while (λ _, true) emit_trivia entries.
Definition is_comment (entry : TriviaEntry) : bool :=
  match tv_kind entry with TriviaComment => true | TriviaBlank => false end.
Definition push_comment (entry : TriviaEntry) : Emit := text ← entry_text entry; push_str (str_of "  ");; push_str text.
Definition drain_trailing_comment_on_line : Emit :=
  last_emitted_end ← gets pr_last_emitted_end;
  if last_emitted_end =? 0 then mret () else
  line_index ← gets pr_line_index;
  let prev_line := line_of line_index (Z.max 0 (last_emitted_end - 1)) in
  entries ← pending_trivia;
  drain_while (λ entry, is_comment entry && (line_of line_index (tv_start entry) =? prev_line)) push_comment entries.
Definition mark_emitted_end (byte : Z) : Emit := modify (λ p, set_emitted_end p byte).

(** [finish]: the loop takes newlines off while there are two, here from the end on. *)
Fixpoint drop_newlines (rev_out : str) : str :=
  match rev_out with
  | a :: ((b :: _) as r) => if (a =? NL) && (b =? NL) then drop_newlines r else rev_out
  | _ => rev_out
  end.
Definition finish (p : Printer) : str :=
  let out := rev (drop_newlines (rev (pr_out p))) in
  if ends_in [NL] out then out else out ++ [NL].
