(* ===== verification/FmtEmit.v ===== *)
(** * The formatter: emitting the syntax tree

    Models [crates/gruel-fmt/src/emit.rs]: one definition per emit function, over the emitters of
    expressions, patterns and type expressions, which [emit_expr], [emit_pattern] and
    [emit_type_expr] tie together. Where the source matches an expression as a block or an
    [if] and calls [emit_block] or [emit_if] on it, the definition calls the emitter of
    expressions, which does just that. [resolve] is the interner, [doc_text] the text of a doc
    comment and [show_float] the decimal form of the [f64] with the given bits; they are
    parameters. *)

From stdpp Require Import pretty.
From S2P Require Import Prelude Types Air Positions Ast Fmt.

#[local] Open Scope Z_scope.

(** Loops over a list, and over one with a separator between its elements. *)
Definition each {A} (f : A → Emit) : list A → Emit :=
  fix go l := match l with [] => mret () | x :: l => f x;; go l end.
Definition separated {A} (sep : Emit) (f : A → Emit) (l : list A) : Emit :=
  match l with [] => mret () | x :: l => f x;; each (λ x, sep;; f x) l end.
Definition if_some {A} (f : A → Emit) (o : option A) : Emit := match o with Some x => f x | None => mret () end.
Definition when (b : bool) (m : Emit) : Emit := if b then m else mret ().
Definition panic : Emit := λ _, Panic.
Definition is_nil {A} (l : list A) : bool := match l with [] => true | _ => false end.
(** [str::split] at newlines. *)
Fixpoint split_lines (cur s : str) : list str :=
  match s with
  | [] => [cur]
  | c :: s => if c =? NL then cur :: split_lines [] s else split_lines (cur ++ [c]) s
  end.
Definition show_int (n : Z) : str := str_of (pretty n).
Definition to_hex_upper (n : Z) : str :=
  (fix go (fuel : nat) (n : Z) (acc : str) : str :=
     match fuel with
     | O => acc
     | S fuel =>
         let d := n mod 16 in
         let acc := (if d <? 10 then 48 + d else 55 + d) :: acc in
         if n / 16 =? 0 then acc else go fuel (n / 16) acc
     end) 8%nat n [].

(** ** Queries on the tree *)
(** [Expr::span] of [ast.rs]. *)
Definition expr_span {S} (e : Expr S) : Span :=
  match e with
  | ExprInt x => il_span x | ExprFloat x => fl_span x | ExprString x => sl_span x | ExprChar x => cl_span x
  | ExprBool x => bo_span x | ExprUnit x => ul_span x | ExprIdent x => id_span x | ExprBinary x => be_span x
  | ExprUnary x => ue_span x | ExprParen x => pe_span x | ExprBlock x => bl_span x | ExprIf x => ife_span x
  | ExprMatch x => mx_span x | ExprWhile x => we_span x | ExprFor x => fo_span x | ExprLoop x => le_span x
  | ExprCall x => ce_span x | ExprBreak x => bk_span x | ExprContinue x => co_span x | ExprReturn x => re_span x
  | ExprStructLit x => sle_span x | ExprField x => fe_span x | ExprMethodCall x => mc_span x
  | ExprIntrinsicCall x => ic_span x | ExprArrayLit x => al_span x | ExprIndex x => ix_span x
  | ExprPath x => pa_span x | ExprEnumStructLit x => esl_span x | ExprAssocFnCall x => af_span x
  | ExprSelf x => se_span x | ExprComptime x => cb_span x | ExprComptimeUnrollFor x => cu_span x
  | ExprChecked x => ck_span x | ExprTypeLit x => tl_span x | ExprTuple x => te_span x
  | ExprTupleIndex x => ti_span x | ExprRange x => ra_span x | ExprAnonFn x => an_span x | ExprError span => span
  end.
Definition item_span {S E T} (item : Item S E T) : Span :=
  match item with
  | ItemFunction f => fn_span f | ItemStruct s => Ast.sd_span s | ItemEnum e => Ast.ed_span e
  | ItemInterface i => if_span i | ItemDerive d => de_span d | ItemConst c => cd_span c
  | ItemLinkExtern b => lb_span b | ItemError s => s
  end.
Definition statement_span {S} (s : Statement S (Expr S) (Pattern S) (TypeExpr S)) : Span :=
  match s with StmtLet l => ls_span l | StmtAssign a => as_span a | StmtExpr e => expr_span e end.
Definition is_unit {S} (e : Expr S) : bool := match e with ExprUnit _ => true | _ => false end.
Definition is_if {S} (e : Expr S) : bool := match e with ExprIf _ => true | _ => false end.
Definition is_block {S} (e : Expr S) : bool := match e with ExprBlock _ => true | _ => false end.
Definition is_block_like_expr {S} (e : Expr S) : bool :=
  match e with
  | ExprBlock _ | ExprIf _ | ExprMatch _ | ExprWhile _ | ExprFor _ | ExprLoop _ => true
  | _ => false
  end.
Definition is_unroll_arm {S} (p : Pattern S) : bool := match p with PatComptimeUnrollArm _ _ _ => true | _ => false end.

Definition binary_op_str (op : BinaryOp) : string :=
  match op with
  | OpAdd => "+" | OpSub => "-" | OpMul => "*" | OpDiv => "/" | OpMod => "%" | OpEq => "==" | OpNe => "!="
  | OpLt => "<" | OpGt => ">" | OpLe => "<=" | OpGe => ">=" | OpAnd => "&&" | OpOr => "||" | OpBitAnd => "&"
  | OpBitOr => "|" | OpBitXor => "^" | OpShl => "<<" | OpShr => ">>"
  end.
Definition unary_op_str (op : UnaryOp) : string :=
  match op with OpNeg => "-" | OpNot => "!" | OpBitNot => "~" | OpRef => "&" | OpMutRef => "&mut " end.

(** ** Literals *)
(** One character of a string literal, and of a char literal. *)
Definition escape_with (quote : Z) (c : Z) : str :=
  if c =? BACKSLASH then [BACKSLASH; BACKSLASH]
  else if c =? quote then [BACKSLASH; quote]
  else if c =? NL then BACKSLASH :: str_of "n"
  else if c =? 9 then BACKSLASH :: str_of "t"
  else if c =? 13 then BACKSLASH :: str_of "r"
  else if c =? 0 then BACKSLASH :: str_of "0"
  else [c].
(** [char::from_u32] succeeds. *)
Definition is_scalar (n : Z) : bool := (0 <=? n) && ((n <? 0xD800) || (0xDFFF <? n)) && (n <=? 0x10FFFF).
Definition emit_char_literal (lit : CharLit) : Emit :=
  write_str [TICK];;
  write_str (if is_scalar (cl_value lit) then escape_with TICK (cl_value lit)
             else BACKSLASH :: str_of "u{" ++ to_hex_upper (cl_value lit) ++ str_of "}");;
  write_str [TICK].
Definition emit_bool_literal (lit : BoolLit) : Emit := write (if bo_value lit then "true" else "false").
Definition emit_int_literal (lit : IntLit) : Emit := write_str (show_int (il_value lit)).

Section Emit.
Context {S : Type}.
Notation Expr := (Expr S). Notation Pattern := (Pattern S). Notation TypeExpr := (TypeExpr S).
Context (resolve : S → str) (doc_text : Doc → str) (show_float : Z → str).

Definition write_ident (i : Ident S) : Emit := write_str (resolve (id_name i)).
(** [str::contains]. *)
Definition contains (sub s : str) : bool := existsb (λ k, bool_decide (sub `prefix_of` drop k s)) (seq 0 (length s)).
Definition emit_float_literal (lit : FloatLit) : Emit :=
  let s := show_float (fl_bits lit) in
  if existsb (λ sub, contains (str_of sub) s) ["."; "e"; "E"; "inf"; "NaN"]%string then write_str s
  else write_str s;; write ".0".
Definition emit_string_literal (lit : StringLit S) : Emit :=
  write_str [QUOTE];; each (λ c, write_str (escape_with QUOTE c)) (resolve (sl_value lit));; write_str [QUOTE].

Definition emit_doc (doc : Doc) : Emit :=
  each (λ line, match line with [] => write "///" | _ => write "/// ";; write_str line end;; newline)
    (split_lines [] (doc_text doc)).
Definition emit_directive_arg (arg : DirectiveArg S) : Emit :=
  match arg with DirIdent ident => write_ident ident | DirString lit => emit_string_literal lit end.
Definition emit_directive (dir : Directive S) : Emit :=
  write "@";; write_ident (dir_name dir);;
  when (negb (is_nil (dir_args dir))) (write "(";; separated (write ", ") emit_directive_arg (dir_args dir);; write ")").
Definition emit_directives (dirs : list (Directive S)) : Emit := each (λ dir, emit_directive dir;; newline) dirs.
Definition emit_directives_inline (dirs : list (Directive S)) : Emit :=
  each (λ dir, emit_directive dir;; write " ") dirs.
Definition emit_visibility (vis : Visibility) : Emit := match vis with Public => write "pub " | Private => mret () end.
Definition emit_self_param (sp : SelfParam) : Emit :=
  match sp_kind sp with
  | SelfByValue => write "self" | SelfRef => write "self: Ref(Self)" | SelfMutRef => write "self: MutRef(Self)"
  end.

(** ** The structs, over the emitters of what they contain *)
Section Structs.
Context (emit_expr : Expr → Emit) (emit_pattern : Pattern → Emit) (emit_type_expr : TypeExpr → Emit).

Definition emit_param (param : Param S TypeExpr) : Emit :=
  when (pm_is_comptime param || match pm_mode param with ModeComptime => true | ModeNormal => false end) (write "comptime ");;
  write_ident (pm_name param);; write ": ";; emit_type_expr (pm_ty param).
Definition emit_param_list (params : list (Param S TypeExpr)) : Emit :=
  write "(";; separated (write ", ") emit_param params;; write ")".
Definition emit_return_type (ret : option TypeExpr) : Emit := if_some (λ t, write " -> ";; emit_type_expr t) ret.
Definition emit_body (body : Expr) : Emit := if is_block body then emit_expr body else panic.
Definition emit_method (m : Method S Expr TypeExpr) : Emit :=
  if_some emit_doc (me_doc m);; emit_directives (me_directives m);; emit_visibility (me_visibility m);;
  write "fn ";; write_ident (me_name m);; write "(";;
  match me_receiver m with
  | Some recv => emit_self_param recv;; each (λ p, write ", ";; emit_param p) (me_params m)
  | None => separated (write ", ") emit_param (me_params m)
  end;;
  write ")";; emit_return_type (me_return_type m);; write " ";; emit_body (me_body m).
Definition emit_method_sig (sig : MethodSig S TypeExpr) : Emit :=
  if_some emit_doc (ms_doc sig);; emit_directives (ms_directives sig);;
  write "fn ";; write_ident (ms_name sig);; write "(";; emit_self_param (ms_receiver sig);;
  each (λ p, write ", ";; emit_param p) (ms_params sig);; write ")";;
  emit_return_type (ms_return_type sig);; write ";".
Definition emit_field_decl (field : FieldDecl S TypeExpr) : Emit :=
  if_some emit_doc (fd_doc field);; emit_visibility (fd_visibility field);;
  write_ident (fd_name field);; write ": ";; emit_type_expr (fd_ty field).
Definition emit_enum_variant_field (f : EnumVariantField S TypeExpr) : Emit :=
  if_some emit_doc (evf_doc f);; emit_visibility (evf_visibility f);;
  write_ident (evf_name f);; write ": ";; emit_type_expr (evf_ty f).
Definition emit_enum_variant (v : EnumVariant S TypeExpr) : Emit :=
  if_some emit_doc (ev_doc v);; write_ident (ev_name v);;
  match ev_kind v with
  | VariantUnit => mret ()
  | VariantTuple tys => write "(";; separated (write ", ") emit_type_expr tys;; write ")"
  | VariantStruct fields =>
      write " {";;
      if is_nil fields then write "}"
      else newline;; indented (each (λ f, emit_enum_variant_field f;; write ",";; newline) fields);; write "}"
  end.
Definition emit_anon_struct_field (f : AnonStructField S TypeExpr) : Emit :=
  if_some emit_doc (asf_doc f);; write_ident (asf_name f);; write ": ";; emit_type_expr (asf_ty f).
(** The methods of a type, with blank lines between them. *)
Definition emit_methods (methods : list (Method S Expr TypeExpr)) : Emit :=
  separated blank_line (λ m, emit_method m;; newline) methods.

(** *** Expressions *)
Definition emit_binary (b : BinaryExpr Expr) : Emit :=
  emit_expr (be_left b);; write " ";; write (binary_op_str (be_op b));; write " ";; emit_expr (be_right b).
Definition emit_unary (u : UnaryExpr Expr) : Emit := write (unary_op_str (ue_op u));; emit_expr (ue_operand u).
Definition emit_paren (par : ParenExpr Expr) : Emit := write "(";; emit_expr (pe_inner par);; write ")".
Definition emit_call_args (args : list (CallArg Expr)) : Emit :=
  write "(";; separated (write ", ") (λ arg, emit_expr (ca_expr arg)) args;; write ")".
Definition emit_call (c : CallExpr S Expr) : Emit := write_ident (ce_name c);; emit_call_args (ce_args c).
Definition emit_return (r : ReturnExpr Expr) : Emit :=
  write "return";; if_some (λ v, write " ";; emit_expr v) (re_value r).
Definition emit_field_init (f : FieldInit S Expr) : Emit :=
  write_ident (fi_name f);; write ": ";; emit_expr (fi_value f).
Definition emit_field_inits (fields : list (FieldInit S Expr)) : Emit :=
  if is_nil fields then write " {}" else write " { ";; separated (write ", ") emit_field_init fields;; write " }".
(** The prefix of a qualified name. *)
Definition emit_base (base : option Expr) : Emit := if_some (λ b, emit_expr b;; write ".") base.
Definition emit_struct_lit (s : StructLitExpr S Expr) : Emit :=
  emit_base (sle_base s);; write_ident (sle_name s);; emit_field_inits (sle_fields s).
Definition emit_field_expr (f : FieldExpr S Expr) : Emit :=
  emit_expr (fe_base f);; write ".";; write_ident (fe_field f).
Definition emit_method_call (m : MethodCallExpr S Expr) : Emit :=
  emit_expr (mc_receiver m);; write ".";; write_ident (mc_method m);; emit_call_args (mc_args m).
Definition emit_intrinsic_call (c : IntrinsicCallExpr S Expr TypeExpr) : Emit :=
  write "@";; write_ident (ic_name c);; write "(";;
  separated (write ", ") (λ arg, match arg with ArgExpr e => emit_expr e | ArgType t => emit_type_expr t end) (ic_args c);;
  write ")".
Definition emit_array_lit (a : ArrayLitExpr Expr) : Emit :=
  write "[";; separated (write ", ") emit_expr (al_elements a);; write "]".
Definition emit_index (i : IndexExpr Expr) : Emit :=
  emit_expr (ix_base i);; write "[";; emit_expr (ix_index i);; write "]".
Definition emit_path (path : PathExpr S Expr) : Emit :=
  emit_base (pa_base path);; write_ident (pa_type_name path);; write "::";; write_ident (pa_variant path).
Definition emit_enum_struct_lit (e : EnumStructLitExpr S Expr) : Emit :=
  emit_base (esl_base e);; write_ident (esl_type_name e);; write "::";; write_ident (esl_variant e);;
  emit_field_inits (esl_fields e).
Definition emit_assoc_fn_call (a : AssocFnCallExpr S Expr) : Emit :=
  emit_base (af_base a);; write_ident (af_type_name a);;
  when (negb (is_nil (af_type_args a))) (write "(";; separated (write ", ") emit_expr (af_type_args a);; write ")");;
  write "::";; write_ident (af_function a);; emit_call_args (af_args a).
Definition emit_comptime_block (c : ComptimeBlockExpr Expr) : Emit := write "comptime ";; emit_expr (cb_expr c).
Definition emit_checked_block (c : CheckedBlockExpr Expr) : Emit := write "checked ";; emit_expr (ck_expr c).
Definition emit_tuple (t : TupleExpr Expr) : Emit :=
  write "(";; separated (write ", ") emit_expr (te_elems t);;
  when (bool_decide (length (te_elems t) = 1%nat)) (write ",");; write ")".
Definition emit_tuple_index (t : TupleIndexExpr Expr) : Emit :=
  emit_expr (ti_base t);; write ".";; write_str (show_int (ti_index t)).
Definition emit_range (r : RangeExpr Expr) : Emit :=
  if_some emit_expr (ra_lo r);; write "..";; if_some emit_expr (ra_hi r).

(** *** Statements and blocks *)
Definition emit_let (l : LetStatement S Expr Pattern TypeExpr) : Emit :=
  emit_directives (ls_directives l);; write "let ";;
  match ls_pattern l with
  | PatIdent _ name _ => when (ls_is_mut l) (write "mut ");; write_ident name
  | p => emit_pattern (ls_pattern l)
  end;;
  if_some (λ t, write ": ";; emit_type_expr t) (ls_ty l);; write " = ";; emit_expr (ls_init l);; write ";".
Definition emit_assign_target (target : AssignTarget S Expr) : Emit :=
  match target with
  | TargetVar ident => write_ident ident | TargetField f => emit_field_expr f | TargetIndex i => emit_index i
  end.
Definition emit_assign (a : AssignStatement S Expr) : Emit :=
  emit_assign_target (as_target a);; write " = ";; emit_expr (as_value a);; write ";".
Definition emit_statement (stmt : Statement S Expr Pattern TypeExpr) : Emit :=
  match stmt with
  | StmtLet l => emit_let l
  | StmtAssign a => emit_assign a
  | StmtExpr e => emit_expr e;; when (negb (is_block_like_expr e)) (write ";")
  end.
(** What comes before a node and after it on its line. *)
Definition on_own_line (span : Span) (m : Emit) : Emit :=
  drain_trivia_before (sp_start span);; m;; mark_emitted_end (sp_end span);;
  drain_trailing_comment_on_line;; newline.
Definition emit_block (block : BlockExpr S Expr Pattern TypeExpr) : Emit :=
  write "{";;
  if is_nil (bl_statements block) && is_unit (bl_expr block) then drain_trivia_before (sp_end (bl_span block));; write "}"
  else
    newline;;
    indented (
      each (λ stmt, on_own_line (statement_span stmt) (emit_statement stmt)) (bl_statements block);;
      when (negb (is_unit (bl_expr block))) (on_own_line (expr_span (bl_expr block)) (emit_expr (bl_expr block)));;
      drain_trivia_before (sp_end (bl_span block)));;
    write "}".
Definition emit_if (e : IfExpr S Expr Pattern TypeExpr) : Emit :=
  when (ife_is_comptime e) (write "comptime ");; write "if ";; emit_expr (ife_cond e);; write " ";;
  emit_block (ife_then_block e);;
  if_some (λ else_block,
    write " else ";;
    if is_nil (bl_statements else_block) && is_if (bl_expr else_block) then emit_expr (bl_expr else_block)
    else emit_block else_block) (ife_else_block e).
Definition emit_match_arm (arm : MatchArm Expr Pattern) : Emit :=
  emit_pattern (ma_pattern arm);; write (if is_unroll_arm (ma_pattern arm) then " " else " => ");; emit_expr (ma_body arm).
Definition emit_match (m : MatchExpr Expr Pattern) : Emit :=
  write "match ";; emit_expr (mx_scrutinee m);; write " {";;
  if is_nil (mx_arms m) then write "}"
  else newline;; indented (each (λ arm, emit_match_arm arm;; write ",";; newline) (mx_arms m));; write "}".
Definition emit_while (w : WhileExpr S Expr Pattern TypeExpr) : Emit :=
  write "while ";; emit_expr (we_cond w);; write " ";; emit_block (we_body w).
Definition emit_for (f : ForExpr S Expr Pattern TypeExpr) : Emit :=
  write "for ";; when (fo_is_mut f) (write "mut ");; write_ident (fo_binding f);; write " in ";;
  emit_expr (fo_iterable f);; write " ";; emit_block (fo_body f).
Definition emit_loop (l : LoopExpr S Expr Pattern TypeExpr) : Emit := write "loop ";; emit_block (le_body l).
Definition emit_comptime_unroll_for (c : ComptimeUnrollForExpr S Expr Pattern TypeExpr) : Emit :=
  write "comptime_unroll for ";; write_ident (cu_binding c);; write " in ";; emit_expr (cu_iterable c);; write " ";;
  emit_block (cu_body c).
Definition emit_anon_fn (a : AnonFnExpr S Expr Pattern TypeExpr) : Emit :=
  write "fn";; emit_param_list (an_params a);; emit_return_type (an_return_type a);; write " ";; emit_block (an_body a).

(** *** Patterns *)
Definition emit_path_pattern (pp : PathPattern S Expr) : Emit :=
  emit_base (pp_base pp);; write_ident (pp_type_name pp);; write "::";; write_ident (pp_variant pp).
Definition emit_field_pattern (fp : FieldPattern S Pattern) : Emit :=
  match fp_field_name fp with
  | None => write ".."
  | Some name =>
      match fp_sub fp with
      | None => when (fp_is_mut fp) (write "mut ");; write_ident name
      | Some sub => write_ident name;; write ": ";; emit_pattern sub
      end
  end.
Definition emit_field_patterns (fields : list (FieldPattern S Pattern)) : Emit :=
  if is_nil fields then write " {}" else write " { ";; separated (write ", ") emit_field_pattern fields;; write " }".
Definition emit_tuple_elem_pattern (te : TupleElemPattern Pattern) : Emit :=
  match te with ElemPattern pat => emit_pattern pat | ElemRest _ => write ".." end.

(** *** Anonymous types *)
Definition emit_anon_struct (dirs : list (Directive S)) (fields : list (AnonStructField S TypeExpr))
    (methods : list (Method S Expr TypeExpr)) : Emit :=
  emit_directives_inline dirs;; write "struct {";;
  if is_nil fields && is_nil methods then write "}"
  else
    newline;;
    indented (
      each (λ f, emit_anon_struct_field f;; write ",";; newline) fields;;
      when (negb (is_nil fields) && negb (is_nil methods)) blank_line;;
      emit_methods methods);;
    write "}".
Definition emit_anon_enum (dirs : list (Directive S)) (variants : list (EnumVariant S TypeExpr))
    (methods : list (Method S Expr TypeExpr)) : Emit :=
  emit_directives_inline dirs;; write "enum {";;
  if is_nil variants && is_nil methods then write "}"
  else
    newline;;
    indented (
      each (λ v, emit_enum_variant v;; write ",";; newline) variants;;
      when (negb (is_nil variants) && negb (is_nil methods)) blank_line;;
      emit_methods methods);;
    write "}".
Definition emit_anon_interface (methods : list (MethodSig S TypeExpr)) : Emit :=
  write "interface {";;
  if is_nil methods then write "}" else newline;; indented (each (λ sig, emit_method_sig sig;; newline) methods);; write "}".
End Structs.

(** ** Expressions, patterns and type expressions *)
Fixpoint emit_expr (e : Expr) : Emit :=
  match e with
  | ExprInt lit => emit_int_literal lit
  | ExprFloat lit => emit_float_literal lit
  | ExprString lit => emit_string_literal lit
  | ExprChar lit => emit_char_literal lit
  | ExprBool lit => emit_bool_literal lit
  | ExprUnit _ => write "()"
  | ExprIdent ident => write_ident ident
  | ExprSelf _ => write "self"
  | ExprBinary b => emit_binary emit_expr b
  | ExprUnary u => emit_unary emit_expr u
  | ExprParen par => emit_paren emit_expr par
  | ExprBlock b => emit_block emit_expr emit_pattern emit_type_expr b
  | ExprIf if_expr => emit_if emit_expr emit_pattern emit_type_expr if_expr
  | ExprMatch m => emit_match emit_expr emit_pattern m
  | ExprWhile w => emit_while emit_expr emit_pattern emit_type_expr w
  | ExprFor f => emit_for emit_expr emit_pattern emit_type_expr f
  | ExprLoop l => emit_loop emit_expr emit_pattern emit_type_expr l
  | ExprCall c => emit_call emit_expr c
  | ExprBreak _ => write "break"
  | ExprContinue _ => write "continue"
  | ExprReturn r => emit_return emit_expr r
  | ExprStructLit s => emit_struct_lit emit_expr s
  | ExprField f => emit_field_expr emit_expr f
  | ExprMethodCall mc => emit_method_call emit_expr mc
  | ExprIntrinsicCall ic => emit_intrinsic_call emit_expr emit_type_expr ic
  | ExprArrayLit a => emit_array_lit emit_expr a
  | ExprIndex idx => emit_index emit_expr idx
  | ExprPath path => emit_path emit_expr path
  | ExprEnumStructLit e => emit_enum_struct_lit emit_expr e
  | ExprAssocFnCall a => emit_assoc_fn_call emit_expr a
  | ExprComptime c => emit_comptime_block emit_expr c
  | ExprComptimeUnrollFor c => emit_comptime_unroll_for emit_expr emit_pattern emit_type_expr c
  | ExprChecked c => emit_checked_block emit_expr c
  | ExprTypeLit t => emit_type_expr (tl_type_expr t)
  | ExprTuple t => emit_tuple emit_expr t
  | ExprTupleIndex t => emit_tuple_index emit_expr t
  | ExprRange r => emit_range emit_expr r
  | ExprAnonFn a => emit_anon_fn emit_expr emit_pattern emit_type_expr a
  | ExprError _ => panic
  end
with emit_pattern (pat : Pattern) : Emit :=
  match pat with
  | PatWildcard _ => write "_"
  | PatIdent is_mut name _ => when is_mut (write "mut ");; write_ident name
  | PatInt lit => write_str (show_int (il_value lit))
  | PatNegInt lit => write "-";; write_str (show_int (nl_value lit))
  | PatBool lit => write (if bo_value lit then "true" else "false")
  | PatPath pp => emit_path_pattern emit_expr pp
  | PatDataVariant base type_name variant fields _ =>
      emit_base emit_expr base;; write_ident type_name;; write "::";; write_ident variant;; write "(";;
      separated (write ", ") (emit_tuple_elem_pattern emit_pattern) fields;; write ")"
  | PatStructVariant base type_name variant fields _ =>
      emit_base emit_expr base;; write_ident type_name;; write "::";; write_ident variant;;
      emit_field_patterns emit_pattern fields
  | PatStruct type_name fields _ => write_ident type_name;; emit_field_patterns emit_pattern fields
  | PatTuple elems _ =>
      write "(";; separated (write ", ") (emit_tuple_elem_pattern emit_pattern) elems;;
      when (bool_decide (length elems = 1%nat)) (write ",");; write ")"
  | PatComptimeUnrollArm binding iterable _ =>
      write "comptime_unroll for ";; write_ident binding;; write " in ";; emit_expr iterable
  end
with emit_type_expr (ty : TypeExpr) : Emit :=
  match ty with
  | TypeNamed ident => write_ident ident
  | TypeUnit _ => write "()"
  | TypeNever _ => write "!"
  | TypeArray element length _ =>
      write "[";; emit_type_expr element;; write "; ";; write_str (show_int length);; write "]"
  | TypeAnonymousStruct dirs _ fields methods _ => emit_anon_struct emit_expr emit_type_expr dirs fields methods
  | TypeAnonymousEnum dirs _ variants methods _ => emit_anon_enum emit_expr emit_type_expr dirs variants methods
  | TypeAnonymousInterface methods _ => emit_anon_interface emit_type_expr methods
  | TypeCall callee args _ => write_ident callee;; write "(";; separated (write ", ") emit_type_expr args;; write ")"
  | TypeTuple elems _ =>
      write "(";; separated (write ", ") emit_type_expr elems;;
      when (bool_decide (length elems = 1%nat)) (write ",");; write ")"
  end.

(** ** Items *)
Definition emit_function (f : Function S Expr TypeExpr) : Emit :=
  if_some emit_doc (fn_doc f);; emit_directives (fn_directives f);; emit_visibility (fn_visibility f);;
  write "fn ";; write_ident (fn_name f);; emit_param_list emit_type_expr (fn_params f);;
  emit_return_type emit_type_expr (fn_return_type f);; write " ";; emit_body emit_expr (fn_body f);; newline.
Definition emit_struct_decl (s : StructDecl S Expr TypeExpr) : Emit :=
  if_some emit_doc (Ast.sd_doc s);; emit_directives (Ast.sd_directives s);; emit_visibility (Ast.sd_visibility s);;
  write "struct ";; write_ident (Ast.sd_name s);; write " {";;
  (if is_nil (Ast.sd_fields s) && is_nil (Ast.sd_methods s) then drain_trivia_before (sp_end (Ast.sd_span s));; write "}"
   else
     newline;;
     indented (
       each (λ field,
         drain_trivia_before (sp_start (fd_span field));; emit_field_decl emit_type_expr field;;
         mark_emitted_end (sp_end (fd_span field));; write ",";; drain_trailing_comment_on_line;; newline) (Ast.sd_fields s);;
       when (negb (is_nil (Ast.sd_fields s)) && negb (is_nil (Ast.sd_methods s))) blank_line;;
       separated blank_line (λ m,
         drain_trivia_before (sp_start (me_span m));; emit_method emit_expr emit_type_expr m;;
         mark_emitted_end (sp_end (me_span m));; newline) (Ast.sd_methods s);;
       drain_trivia_before (sp_end (Ast.sd_span s)));;
     write "}");;
  newline.
Definition emit_enum_decl (e : EnumDecl S Expr TypeExpr) : Emit :=
  if_some emit_doc (Ast.ed_doc e);; emit_directives (Ast.ed_directives e);; emit_visibility (Ast.ed_visibility e);;
  write "enum ";; write_ident (Ast.ed_name e);; write " {";;
  (if is_nil (Ast.ed_variants e) && is_nil (Ast.ed_methods e) then write "}"
   else
     newline;;
     indented (
       each (λ v, emit_enum_variant emit_type_expr v;; write ",";; newline) (Ast.ed_variants e);;
       when (negb (is_nil (Ast.ed_variants e)) && negb (is_nil (Ast.ed_methods e))) blank_line;;
       emit_methods emit_expr emit_type_expr (Ast.ed_methods e));;
     write "}");;
  newline.
Definition emit_interface_decl (i : InterfaceDecl S TypeExpr) : Emit :=
  if_some emit_doc (if_doc i);; emit_directives (if_directives i);; emit_visibility (if_visibility i);;
  write "interface ";; write_ident (if_name i);; write " {";;
  (if is_nil (if_methods i) then write "}"
   else
     newline;; indented (separated newline (λ sig, emit_method_sig emit_type_expr sig;; newline) (if_methods i));;
     write "}");;
  newline.
Definition emit_derive_decl (d : DeriveDecl S Expr TypeExpr) : Emit :=
  if_some emit_doc (de_doc d);; write "derive ";; write_ident (de_name d);; write " {";;
  (if is_nil (de_methods d) then write "}"
   else newline;; indented (emit_methods emit_expr emit_type_expr (de_methods d));; write "}");;
  newline.
Definition emit_const_decl (c : ConstDecl S Expr TypeExpr) : Emit :=
  if_some emit_doc (cd_doc c);; emit_directives (cd_directives c);; emit_visibility (cd_visibility c);;
  write "const ";; write_ident (cd_name c);; if_some (λ t, write ": ";; emit_type_expr t) (cd_ty c);; write " = ";;
  emit_expr (cd_init c);; write ";";; newline.
Definition emit_extern_fn (f : ExternFn S TypeExpr) : Emit :=
  if_some emit_doc (xf_doc f);; emit_directives (xf_directives f);; write "fn ";; write_ident (xf_name f);;
  emit_param_list emit_type_expr (xf_params f);; emit_return_type emit_type_expr (xf_return_type f);; write ";".
Definition emit_link_extern (b : LinkExternBlock S TypeExpr) : Emit :=
  if_some emit_doc (lb_doc b);;
  write (match lb_link_mode b with LinkDynamic => "link_extern(" | LinkStatic => "static_link_extern(" end);;
  emit_string_literal (lb_library b);; write ") {";;
  (if is_nil (lb_items b) then write "}"
   else newline;; indented (separated newline (λ item, emit_extern_fn item;; newline) (lb_items b));; write "}");;
  newline.
Definition emit_item (item : Item S Expr TypeExpr) : Emit :=
  match item with
  | ItemFunction f => emit_function f
  | ItemStruct s => emit_struct_decl s
  | ItemEnum e => emit_enum_decl e
  | ItemInterface i => emit_interface_decl i
  | ItemDerive d => emit_derive_decl d
  | ItemConst c => emit_const_decl c
  | ItemLinkExtern b => emit_link_extern b
  | ItemError _ => panic
  end.
(** One round of the loop of [emit_ast], and the whole. *)
Definition emit_top_item (item : Item S Expr TypeExpr) : Emit :=
  drain_trivia_before (sp_start (item_span item));; emit_item item;; mark_emitted_end (sp_end (item_span item)).
Definition emit_ast (ast : Ast S) : Emit :=
  match ast_module_doc ast with
  | Some doc => emit_doc doc;; each (λ item, blank_line;; emit_top_item item) (ast_items ast)
  | None => separated blank_line emit_top_item (ast_items ast)
  end;;
  drain_trivia_remaining.

(** [format_source] after parsing. *)
Definition format_tree (src : str) (ast : Ast S) : outcome str :=
  p ← printer_new src;
  '(_, p) ← emit_ast ast p;
  Done (finish p).
End Emit.
