(* ===== verification/FmtWeave.v ===== *)
(** * The formatter: what a run of the printer keeps

    A formatted file must hold every comment of its source. [woven cs s]: the comments [cs] are
    in [s], in their order, and each is followed by the end of its line or by another comment,
    so that none of them hides code. [Leads p p'] is what every emitter does to the printer: it
    appends to the output, weaves in the comments of the trivia it consumes, and restores the
    level of indentation. [ok m]: the emitter [m] never panics and does no more than that. *)

From S2P Require Import Prelude Types Air Positions Ast Fmt FmtEmit.

#[local] Open Scope Z_scope.

(** ** Woven comments *)
(** Comments on one line. *)
Definition trailing (g : list str) : str := concat (map (λ d, str_of "  " ++ d) g).
Inductive woven : list str → str → Prop :=
  | woven_nil s : woven [] s
  | woven_line a c g cs b : woven cs b → woven (c :: g ++ cs) (a ++ c ++ trailing g ++ NL :: b).

Lemma woven_prepend a cs s : woven cs s → woven cs (a ++ s).
Proof. intros [|a' c g cs' b H]; [constructor|]. rewrite (assoc_L (++) a a'). by constructor. Qed.
Lemma woven_append cs s b : woven cs s → woven cs (s ++ b).
Proof.
  induction 1 as [|a c g cs b' H IH]; [constructor|].
  rewrite <-!(assoc_L (++)). simpl. by constructor.
Qed.
Lemma woven_app cs1 cs2 s1 s2 : woven cs1 s1 → woven cs2 s2 → woven (cs1 ++ cs2) (s1 ++ s2).
Proof.
  intros H1 H2. induction H1 as [|a c g cs b H IH]; [by apply woven_prepend|].
  rewrite <-!(assoc_L (++)). simpl. rewrite <-(assoc_L (++)). by constructor.
Qed.
Lemma woven_trailing g : woven g (trailing g ++ [NL]).
Proof.
  destruct g as [|c g]; [constructor|]. unfold trailing. cbn [map concat].
  rewrite <-!(assoc_L (++)). rewrite <-(app_nil_r g) at 1. apply (woven_line (str_of "  ") c g [] []). constructor.
Qed.

(** Of two newlines at the end one can be taken away, if comments are texts within a line. *)
Definition one_line (c : str) : Prop := c ≠ [] ∧ NL ∉ c.
Lemma ends_snoc (x y : Z) s1 s2 : s1 ++ [x] = s2 ++ [y] → s1 = s2 ∧ x = y.
Proof. apply app_inj_tail. Qed.
Lemma one_line_end a c s : one_line c → a ++ c ≠ s ++ [NL].
Proof.
  intros [Hc Hn] He. destruct (exists_last Hc) as (c' & y & ->). rewrite (assoc_L (++)) in He.
  apply ends_snoc in He as [_ ->]. set_solver.
Qed.
Lemma line_end a c g s : one_line c → Forall one_line g → a ++ c ++ trailing g ≠ s ++ [NL].
Proof.
  intros Hc Hg. destruct (decide (g = [])) as [->|Hne].
  - unfold trailing. simpl. rewrite app_nil_r. by apply one_line_end.
  - destruct (exists_last Hne) as (g' & d & ->). apply list.Forall_app in Hg as [_ [Hd _]%list.Forall_cons].
    unfold trailing. rewrite map_app, concat_app. cbn [map concat]. rewrite app_nil_r, !(assoc_L (++)). by apply one_line_end.
Qed.
Lemma woven_short cs x : Forall one_line cs → woven cs [x] → cs = [].
Proof.
  intros Hcs H. inversion H as [|a c g cs' b H' Heq Hl]; [done|]. subst.
  apply list.Forall_cons in Hcs as [[Hc Hn] _]. apply (f_equal length) in Hl.
  rewrite !length_app in Hl. destruct c; [done|]. simpl in Hl. lia.
Qed.
Lemma woven_unsnoc cs s : Forall one_line cs → woven cs (s ++ [NL; NL]) → woven cs (s ++ [NL]).
Proof.
  intros Hcs H. remember (s ++ [NL; NL]) as out eqn:Hout. revert s Hcs Hout.
  induction H as [out|a c g cs b H IH]; intros s Hcs Hout; [constructor|].
  apply list.Forall_cons in Hcs as [Hc Hcs]. apply list.Forall_app in Hcs as [Hg Hcs].
  change [NL; NL] with ([NL] ++ [NL]) in Hout. rewrite (assoc_L (++) s) in Hout.
  destruct (decide (b = [])) as [->|Hb].
  - exfalso. rewrite !(assoc_L (++)) in Hout. apply ends_snoc in Hout as [Hout _].
    rewrite <-(assoc_L (++)) in Hout. exact (line_end a c g s Hc Hg Hout).
  - destruct (exists_last Hb) as (b' & x & ->).
    assert (a ++ c ++ trailing g ++ NL :: b' = s ++ [NL] ∧ x = NL) as [He ->].
    { apply ends_snoc. rewrite <-Hout, <-!(assoc_L (++)). done. }
    rewrite <-He. apply woven_line. destruct (decide (b' = [])) as [->|Hb'].
    + rewrite (woven_short cs NL); [constructor|done..].
    + destruct (exists_last Hb') as (b1 & y & ->).
      rewrite app_comm_cons, !(assoc_L (++)) in He. apply ends_snoc in He as [_ ->].
      apply (IH b1); [done|]. by rewrite <-(assoc_L (++)).
Qed.

(** ** Runs of the printer *)
(** The comments among the entries of a trivia table. *)
Definition comment_of (src : str) (e : TriviaEntry) : list str :=
  match tv_kind e with
  | TriviaBlank => []
  | TriviaComment => match str_slice src (tv_start e) (tv_end e) with Done t => [t] | _ => [] end
  end.
Definition comments_of (src : str) (es : list TriviaEntry) : list str := flat_map (comment_of src) es.
Definition entry_ok (src : str) (e : TriviaEntry) : Prop :=
  tv_kind e = TriviaComment → ∃ t, str_slice src (tv_start e) (tv_end e) = Done t ∧ one_line t.
Definition printer_ok (p : Printer) : Prop := Forall (entry_ok (pr_src p)) (pr_trivia p).

Record Leads (p p' : Printer) : Prop := {
  leads_src : pr_src p' = pr_src p;
  leads_trivia : pr_trivia p' = pr_trivia p;
  leads_indent : pr_indent_level p' = pr_indent_level p;
  leads_out : ∃ es added, drop (pr_trivia_cursor p) (pr_trivia p) = es ++ drop (pr_trivia_cursor p') (pr_trivia p) ∧
    pr_out p' = pr_out p ++ added ∧ woven (comments_of (pr_src p) es) added }.
Definition ok (m : Emit) : Prop := ∀ p, printer_ok p → ∃ p', m p = Done ((), p') ∧ Leads p p'.

Lemma leads_trans p1 p2 p3 : Leads p1 p2 → Leads p2 p3 → Leads p1 p3.
Proof.
  intros [Hs Ht Hi (es & ad & He & Ho & Hw)] [Hs' Ht' Hi' (es' & ad' & He' & Ho' & Hw')].
  split; [congruence..|]. exists (es ++ es'), (ad ++ ad'). rewrite Hs, Ht in *. split_and!.
  - rewrite He, He'. apply (assoc_L (++)).
  - rewrite Ho', Ho. by rewrite (assoc_L (++)).
  - unfold comments_of. rewrite flat_map_app. by apply woven_app.
Qed.
Lemma leads_ok p p' : Leads p p' → printer_ok p → printer_ok p'.
Proof. intros [Hs Ht _ _]. unfold printer_ok. by rewrite Hs, Ht. Qed.
(** A step that consumes no trivia and appends a text. *)
Lemma leads_quiet p p' added :
  pr_src p' = pr_src p → pr_trivia p' = pr_trivia p → pr_indent_level p' = pr_indent_level p →
  pr_trivia_cursor p' = pr_trivia_cursor p → pr_out p' = pr_out p ++ added → Leads p p'.
Proof. intros ??? Hc Ho. split; [done..|]. exists [], added. rewrite Hc. split_and!; [done..|constructor]. Qed.

Create HintDb emit.
Lemma ok_ret : ok (mret ()).
Proof. intros p _. exists p. split; [done|]. eapply (leads_quiet _ _ []); try done. by rewrite app_nil_r. Qed.
Lemma ok_bind m n : ok m → ok n → ok (m;; n).
Proof.
  intros Hm Hn p Hp. destruct (Hm p Hp) as (p1 & H1 & L1). destruct (Hn p1 (leads_ok _ _ L1 Hp)) as (p2 & H2 & L2).
  exists p2. split; [|by eapply leads_trans]. unfold mbind, ST_bind. by rewrite H1.
Qed.
Lemma bind_run (m n : Emit) p p1 : m p = Done ((), p1) → (m;; n) p = n p1.
Proof. intros H. unfold mbind, ST_bind. by rewrite H. Qed.
Lemma ok_modify f : (∀ p, Leads p (f p)) → ok (modify f).
Proof. intros Hf p _. exists (f p). split; [done|apply Hf]. Qed.
Lemma ok_push s : ok (push_str s).
Proof. apply ok_modify. intros p. by eapply (leads_quiet _ _ s). Qed.
Lemma ok_write_str s : ok (write_str s).
Proof.
  destruct s as [|c s]; [apply ok_ret|]. apply ok_bind; [|apply ok_push]. apply ok_modify. intros p.
  destruct (pr_pending_indent p); [by eapply leads_quiet|]. eapply (leads_quiet _ _ []); try done. by rewrite app_nil_r.
Qed.
Lemma ok_write s : ok (write s).
Proof. apply ok_write_str. Qed.
Lemma ok_newline : ok newline.
Proof. apply ok_modify. intros p. by eapply (leads_quiet _ _ [NL]). Qed.
Lemma ok_blank_line : ok blank_line.
Proof.
  apply ok_modify. intros p. cbv zeta. case_match; [|case_match].
  - eapply (leads_quiet _ _ []); try done. simpl. by rewrite app_nil_r.
  - by eapply (leads_quiet _ _ [NL]).
  - eapply (leads_quiet _ _ [NL; NL]); try done. simpl. by rewrite <-(assoc_L (++)).
Qed.
Lemma ok_mark byte : ok (mark_emitted_end byte).
Proof. apply ok_modify. intros p. eapply (leads_quiet _ _ []); try done. simpl. by rewrite app_nil_r. Qed.
Lemma ok_indented m : ok m → ok (indented m).
Proof.
  intros Hm p Hp. destruct (Hm (set_indent p (S (pr_indent_level p))) Hp) as (p1 & H1 & L1).
  destruct L1 as [Hs Ht Hi Hout]. exists (set_indent p1 (pr_indent_level p)). split.
  - unfold indented, mbind, ST_bind, indent, modify. simpl. rewrite H1. simpl. unfold dedent. by rewrite Hi.
  - by split.
Qed.

(** *** Trivia *)
Lemma write_str_run s p :
  s ≠ [] → ∃ pad, write_str s p = Done ((), set_out p (pr_out p ++ pad ++ s) false) ∧ Forall (eq 32) pad.
Proof.
  intros Hs. destruct s as [|c s]; [done|]. destruct p as [out level pending src tr cur li la].
  destruct pending; [exists (repeat 32 (level * INDENT_WIDTH))|exists []]; 
    (split; [unfold write_str, mbind, ST_bind; cbn; unfold push_str, modify, set_out; cbn; by rewrite <-?(assoc_L (++))|]);
    [by apply list.Forall_forall; intros x ?%list_elem_of_In%repeat_spec|constructor].
Qed.
(** What an entry appends. *)
Lemma emit_trivia_run e p : entry_ok (pr_src p) e →
  ∃ added pending, emit_trivia e p = Done ((), set_out p (pr_out p ++ added) pending) ∧
    woven (comment_of (pr_src p) e) added.
Proof.
  intros He. unfold emit_trivia, comment_of. destruct (tv_kind e) eqn:Hk.
  - destruct (He Hk) as (t & Ht & Hn & _). destruct (write_str_run t p Hn) as (pad & Hw & _).
    exists (pad ++ t ++ [NL]), true. unfold mbind, ST_bind, entry_text. rewrite Ht. cbn. rewrite Hw. cbn.
    split; [unfold newline, modify, set_out; cbn; by rewrite <-!(assoc_L (++))|]. apply (woven_line pad t [] [] []). constructor.
  - unfold blank_line, modify. cbv zeta. case_match; [|case_match].
    + exists [], true. rewrite app_nil_r. split; [done|constructor].
    + exists [NL], true. split; [done|constructor].
    + exists [NL; NL], true. rewrite <-(assoc_L (++)). split; [done|constructor].
Qed.
Lemma pending_cons p e es :
  e :: es = drop (pr_trivia_cursor p) (pr_trivia p) → printer_ok p →
  entry_ok (pr_src p) e ∧ drop (S (pr_trivia_cursor p)) (pr_trivia p) = es.
Proof.
  intros Hes Hp. split.
  - unfold printer_ok in Hp. rewrite <-(take_drop (pr_trivia_cursor p)), <-Hes in Hp.
    by apply list.Forall_app in Hp as [_ [He _]%list.Forall_cons].
  - replace (S (pr_trivia_cursor p)) with (pr_trivia_cursor p + 1)%nat by lia. by rewrite <-drop_drop, <-Hes.
Qed.
Lemma drain_ok more p :
  printer_ok p → ∃ p', drain_while more emit_trivia (drop (pr_trivia_cursor p) (pr_trivia p)) p = Done ((), p') ∧ Leads p p' ∧
    ((∀ e, more e = true) → drop (pr_trivia_cursor p') (pr_trivia p') = []).
Proof.
  remember (drop (pr_trivia_cursor p) (pr_trivia p)) as es eqn:Hes. revert p Hes.
  induction es as [|e es IH]; intros p Hes Hp; cbn [drain_while].
  { destruct (ok_ret p Hp) as (p' & [= <-] & L). exists p. done. }
  destruct (more e) eqn:Hm; cycle 1.
  { destruct (ok_ret p Hp) as (p' & [= <-] & L). exists p. split_and!; [done..|]. intros Hall. by rewrite Hall in Hm. }
  destruct (pending_cons p e es Hes Hp) as [He Hd].
  destruct (emit_trivia_run e (set_cursor p (S (pr_trivia_cursor p))) He) as (added & pend & Hr & Hw).
  set (p1 := set_out (set_cursor p (S (pr_trivia_cursor p))) (pr_out p ++ added) pend).
  assert (Leads p p1) as L1.
  { split; [done..|]. exists [e], added. unfold comments_of. cbn. rewrite app_nil_r, Hd. done. }
  destruct (IH p1) as (p2 & H2 & L2 & Hend); [done|by eapply leads_ok|].
  exists p2. split_and!; [|by eapply leads_trans|done].
  rewrite (bind_run next_trivia _ p (set_cursor p (S (pr_trivia_cursor p)))) by done.
  rewrite (bind_run _ _ _ _ Hr). exact H2.
Qed.
Lemma ok_drain_before offset : ok (drain_trivia_before offset).
Proof. intros p Hp. destruct (drain_ok (λ e, tv_start e <? offset) p Hp) as (p' & H & L & _). by exists p'. Qed.
(** The last drain leaves nothing. *)
Lemma drain_remaining p :
  printer_ok p → ∃ p', drain_trivia_remaining p = Done ((), p') ∧ Leads p p' ∧ drop (pr_trivia_cursor p') (pr_trivia p') = [].
Proof. intros Hp. destruct (drain_ok (λ _, true) p Hp) as (p' & H & L & He). exists p'. split_and!; [done..|by apply He]. Qed.

(** Comments at the end of a line, and the newline that ends it. *)
Lemma push_comments_run more p :
  (∀ e, more e = true → tv_kind e = TriviaComment) → printer_ok p →
  ∃ es cursor, drain_while more push_comment (drop (pr_trivia_cursor p) (pr_trivia p)) p =
      Done ((), set_out (set_cursor p cursor) (pr_out p ++ trailing (comments_of (pr_src p) es)) (pr_pending_indent p)) ∧
    drop (pr_trivia_cursor p) (pr_trivia p) = es ++ drop cursor (pr_trivia p).
Proof.
  intros Hmore. remember (drop (pr_trivia_cursor p) (pr_trivia p)) as es eqn:Hes. revert p Hes.
  induction es as [|e es IH]; intros p Hes Hp; cbn [drain_while].
  { exists [], (pr_trivia_cursor p). unfold trailing. cbn. rewrite app_nil_r. by destruct p. }
  destruct (more e) eqn:Hm; cycle 1.
  { exists [], (pr_trivia_cursor p). unfold trailing. cbn. rewrite app_nil_r. by destruct p. }
  destruct (pending_cons p e es Hes Hp) as [He Hd].
  destruct (He (Hmore _ Hm)) as (t & Ht & _).
  set (p1 := set_out (set_cursor p (S (pr_trivia_cursor p))) ((pr_out p ++ str_of "  ") ++ t) (pr_pending_indent p)).
  destruct (IH p1) as (es' & cursor & H2 & Hc); [done|done|].
  exists (e :: es'), cursor. split; [|by rewrite Hc].
  rewrite (bind_run next_trivia _ p (set_cursor p (S (pr_trivia_cursor p)))) by done.
  rewrite (bind_run (push_comment e) _ _ p1); cycle 1.
  { unfold push_comment, entry_text, mbind at 1, ST_bind at 1. cbn [pr_src set_cursor]. rewrite Ht. done. }
  assert (comments_of (pr_src p) (e :: es') = t :: comments_of (pr_src p) es') as ->.
  { unfold comments_of. cbn. unfold comment_of at 1. by rewrite (Hmore _ Hm), Ht. }
  rewrite H2. unfold p1, set_out, set_cursor, trailing. cbn. by rewrite <-!(assoc_L (++)).
Qed.
Lemma ok_trailing : ok (drain_trailing_comment_on_line;; newline).
Proof.
  intros p Hp. unfold mbind at 1, ST_bind at 1, drain_trailing_comment_on_line, gets.
  unfold mbind, ST_bind. cbn. destruct (_ =? 0).
  { cbn. eexists. split; [done|]. by eapply (leads_quiet _ _ [NL]). }
  match goal with |- context [drain_while ?f _ _ _] => destruct (push_comments_run f p) as (es & cursor & Hr & Hc) end.
  { unfold is_comment. intros e. by destruct (tv_kind e). } { done. }
  rewrite Hr. eexists. split; [done|]. split; [done..|].
  exists es, (trailing (comments_of (pr_src p) es) ++ [NL]). split_and!; [done| |apply woven_trailing].
  cbn. by rewrite <-(assoc_L (++)).
Qed.
