(* ===== verification/FmtScan.v ===== *)
(** * The formatter: the scan finds the comments

    [plain_comments] reads a source character by character, as the language defines it: a comment
    is two slashes, outside string and char literals, that are not followed by a third, with the
    rest of the line. The scan of [Fmt], which works on bytes and offsets, returns, and the
    comments it records are these. *)

From S2P Require Import Prelude Types Air Positions Ast Fmt FmtEmit FmtWeave.

#[local] Open Scope Z_scope.

Inductive Mode : Type :=
  | InCode
  | AfterSlash
  | AfterSlashes
  | InComment (text : str)
  | InDoc
  | InQuotes (quote : Z)
  | InEscape (quote : Z).
Definition code_mode (c : Z) : Mode :=
  if c =? SLASH then AfterSlash else if c =? QUOTE then InQuotes QUOTE else if c =? TICK then InQuotes TICK else InCode.
Fixpoint plain_comments (m : Mode) (s : str) : list str :=
  match s with
  | [] => match m with AfterSlashes => [[SLASH; SLASH]] | InComment text => [text] | _ => [] end
  | c :: s =>
      match m with
      | InCode => plain_comments (code_mode c) s
      | AfterSlash => plain_comments (if c =? SLASH then AfterSlashes else code_mode c) s
      | AfterSlashes =>
          if c =? SLASH then plain_comments InDoc s
          else if c =? NL then [SLASH; SLASH] :: plain_comments InCode s
          else plain_comments (InComment [SLASH; SLASH; c]) s
      | InComment text =>
          if c =? NL then text :: plain_comments InCode s else plain_comments (InComment (text ++ [c])) s
      | InDoc => plain_comments (if c =? NL then InCode else InDoc) s
      | InQuotes q =>
          plain_comments (if c =? q then InCode else if c =? BACKSLASH then InEscape q else if c =? NL then InCode else InQuotes q) s
      | InEscape q => plain_comments (InQuotes q) s
      end
  end.

(** ** Bytes and characters *)
(** The bytes of a character beyond ASCII are none of those the scan looks for. *)
Lemma utf8_high c b : 0x80 ≤ c → b ∈ utf8 c → Z.testbit b 7 = true.
Proof.
  intros Hc. unfold utf8, cont_byte. destruct (Z.ltb_spec c 0x80); [lia|].
  repeat case_match; rewrite ?elem_of_cons, ?elem_of_nil; intros Hin; destruct_or!; subst; try done; by rewrite Z.lor_spec.
Qed.
Lemma utf8_ascii c : c < 0x80 → utf8 c = [c].
Proof. intros. unfold utf8. destruct (Z.ltb_spec c 0x80); [done|lia]. Qed.
Definition high (b : Z) : Prop := Z.testbit b 7 = true.
Lemma high_neq b x : high b → Z.testbit x 7 = false → (b =? x) = false.
Proof. intros Hb Hx. apply Z.eqb_neq. intros ->. unfold high in Hb. congruence. Qed.
Lemma bytes_cons c s : bytes (c :: s) = utf8 c ++ bytes s.
Proof. done. Qed.
(** A character is an ASCII byte, or a run of high bytes. *)
Lemma utf8_cases c : (c < 0x80 ∧ utf8 c = [c]) ∨ (0x80 ≤ c ∧ ∃ b bs, utf8 c = b :: bs ∧ Forall high (b :: bs)).
Proof.
  destruct (Z.lt_ge_cases c 0x80) as [Hc|Hc]; [left; split; [done|by apply utf8_ascii]|right].
  split; [done|]. destruct (utf8 c) as [|b bs] eqn:Hu.
  - pose proof (length_utf8 c) as Hl. pose proof (len_utf8_pos c). rewrite Hu in Hl. simpl in Hl. lia.
  - exists b, bs. split; [done|]. apply list.Forall_forall. intros x Hx. apply (utf8_high c); [done|by rewrite Hu].
Qed.

(** ** Skipping *)
Lemma skip_high q bs rest :
  Forall high bs → Z.testbit q 7 = false → skip_quoted q (bs ++ rest) = (length bs + skip_quoted q rest)%nat.
Proof.
  intros Hbs Hq. induction Hbs as [|b bs Hb _ IH]; [done|]. cbn [skip_quoted app length].
  by rewrite !(high_neq b), IH.
Qed.
Lemma skip_spec q s : q = QUOTE ∨ q = TICK →
  ∃ s1 s2, s = s1 ++ s2 ∧ skip_quoted q (bytes s) = length (bytes s1) ∧ plain_comments (InQuotes q) s = plain_comments InCode s2.
Proof.
  intros Hq. assert (Z.testbit q 7 = false ∧ q ≠ BACKSLASH) as [Hq7 Hqb] by (by destruct Hq as [-> | ->]).
  induction s as [s IH] using (well_founded_induction (well_founded_ltof _ length)). unfold ltof in IH.
  destruct s as [|c s]; [by exists [], []|]. rewrite bytes_cons.
  destruct (utf8_cases c) as [[Hc Hu]|[Hc (b & bs & Hu & Hh)]]; rewrite Hu.
  - cbn [app skip_quoted plain_comments]. destruct (Z.eqb_spec c q) as [->|Hcq].
    { exists [q], s. by rewrite bytes_cons, Hu. }
    destruct (Z.eqb_spec c BACKSLASH) as [->|Hcb].
    + destruct s as [|d s]; [by exists [BACKSLASH], []|]. rewrite bytes_cons.
      destruct (IH s) as (s1 & s2 & -> & Hk & Hp); [simpl; lia|].
      exists (BACKSLASH :: d :: s1), s2. split_and!; [done| |done]. rewrite !bytes_cons, length_app, length_app.
      destruct (utf8_cases d) as [[_ Hd]|[_ (b & bs & Hd & Hh)]]; rewrite Hd; cbn [app length].
      * by rewrite Hk.
      * apply list.Forall_cons in Hh as [_ Hh]. rewrite skip_high, Hk by done. simpl. lia.
    + destruct (Z.eqb_spec c NL) as [->|Hcn]; [by exists [], (NL :: s)|].
      destruct (IH s) as (s1 & s2 & -> & Hk & Hp); [simpl; lia|].
      exists (c :: s1), s2. split_and!; [done| |done]. rewrite bytes_cons, Hu, Hk. done.
  - destruct (IH s) as (s1 & s2 & -> & Hk & Hp); [simpl; lia|].
    exists (c :: s1), s2. split_and!; [done| |].
    + rewrite skip_high, Hk, bytes_cons, Hu, length_app by done. done.
    + cbn [plain_comments]. rewrite (proj2 (Z.eqb_neq c q)), (proj2 (Z.eqb_neq c BACKSLASH)), (proj2 (Z.eqb_neq c NL)); [done|..];
        intros ->; try (by vm_compute in Hc). destruct Hq as [-> | ->]; by vm_compute in Hc.
Qed.

(** ** Lines *)
Lemma line_high bs rest : Forall high bs → to_line_end (bs ++ rest) = (length bs + to_line_end rest)%nat.
Proof. induction 1 as [|b bs Hb _ IH]; [done|]. cbn [to_line_end app length]. by rewrite (high_neq b), IH. Qed.
Lemma line_spec s :
  ∃ line rest, s = line ++ rest ∧ NL ∉ line ∧ to_line_end (bytes s) = length (bytes line) ∧
    (∀ text, plain_comments (InComment text) s = (text ++ line) :: plain_comments InCode rest) ∧
    plain_comments InDoc s = plain_comments InCode rest.
Proof.
  induction s as [|c s IH].
  { exists [], []. split_and!; [done|set_solver|done|intros; by rewrite app_nil_r|done]. }
  destruct (Z.eqb_spec c NL) as [->|Hc].
  { exists [], (NL :: s). split_and!; [done|set_solver|done|intros; by rewrite app_nil_r|done]. }
  destruct IH as (line & rest & -> & Hn & Hl & Hp & Hd). exists (c :: line), rest. split_and!.
  - done.
  - set_solver.
  - rewrite !bytes_cons, length_app.
    destruct (utf8_cases c) as [[_ Hu]|[_ (b & bs & Hu & Hh)]]; rewrite Hu.
    + cbn [app to_line_end length]. by rewrite (proj2 (Z.eqb_neq _ _) Hc), Hl.
    + by rewrite line_high, Hl.
  - intros text. cbn [plain_comments]. rewrite (proj2 (Z.eqb_neq _ _) Hc), Hp. by rewrite <-(assoc_L (++)).
  - cbn [plain_comments]. by rewrite (proj2 (Z.eqb_neq _ _) Hc), Hd.
Qed.
Lemma leading_line rest : (leading SLASH rest + to_line_end (drop (leading SLASH rest) rest))%nat = to_line_end rest.
Proof.
  induction rest as [|b rest IH]; [done|]. cbn [leading]. destruct (Z.eqb_spec b SLASH) as [->|]; [|done].
  cbn [drop]. change (to_line_end (SLASH :: rest)) with (S (to_line_end rest)). lia.
Qed.
Lemma leading_slash s : leading SLASH (bytes s) = 0%nat ↔ list.head s ≠ Some SLASH.
Proof.
  destruct s as [|c s]; [done|]. rewrite bytes_cons. cbn [list.head].
  destruct (utf8_cases c) as [[_ Hu]|[Hc (b & bs & Hu & [Hh _]%list.Forall_cons)]]; rewrite Hu; cbn [app leading].
  - destruct (Z.eqb_spec c SLASH) as [->|]; naive_solver.
  - rewrite (high_neq b) by done. split; [|done]. intros _ [= ->]. by vm_compute in Hc.
Qed.

(** ** The loop *)
Definition finds (src : str) (es : list TriviaEntry) (s : str) (r : outcome (list TriviaEntry)) : Prop :=
  ∃ es', r = Done (es ++ es') ∧ Forall (entry_ok src) es' ∧ comments_of src es' = plain_comments InCode s.
(** What is known of the run of newlines at an offset. *)
Definition run_ok (i : Z) (run : option Z) (nl : Z) : Prop :=
  0 ≤ nl ≤ i ∧ match run with Some r => 0 ≤ r ∧ r + nl ≤ i | None => True end.

Lemma flush_spec src es i run nl :
  run_ok i run nl → i < 2 ^ 32 →
  ∃ bl, flush_blank es run nl = Done (es ++ bl) ∧ Forall (entry_ok src) bl ∧ comments_of src bl = [].
Proof.
  intros [Hn Hr] Hi. unfold flush_blank. destruct run as [r|]; [|by exists []; rewrite app_nil_r].
  destruct (2 <=? nl); [|by exists []; rewrite app_nil_r]. exists [MkTriviaEntry TriviaBlank r (r + nl)].
  rewrite (proj2 (checked_add_Done 32 r nl (r + nl))) by (unfold in_u; lia). split; [done|]. split; [|done].
  by repeat constructor.
Qed.
Lemma finds_more src es es1 s r :
  Forall (entry_ok src) es1 → comments_of src es1 = [] → finds src (es ++ es1) s r → finds src es s r.
Proof.
  intros Ho Hc (es' & -> & Ho' & Hc'). exists (es1 ++ es'). rewrite <-(assoc_L (++)). split_and!; [done| |].
  - by apply list.Forall_app.
  - unfold comments_of in *. by rewrite flat_map_app, Hc.
Qed.

(** Bytes that are not special are passed over. *)
Lemma scan_high fuel i bs rest es :
  Forall high bs → scan_loop (length bs + fuel) i (bs ++ rest) es None 0 = scan_loop fuel (i + Z.of_nat (length bs)) rest es None 0.
Proof.
  intros Hbs. revert i. induction Hbs as [|b bs Hb _ IH]; intros i; [by rewrite Z.add_0_r|].
  cbn [length Nat.add app scan_loop]. rewrite !(high_neq b) by done. cbn [andb orb].
  change (flush_blank es None 0) with (Done es). rewrite bind_ret. cbn [drop]. rewrite IH. f_equal. lia.
Qed.

Section Scan.
Context (src : str) (Hsrc : str_len src < 2 ^ 32).
Definition ready (fuel : nat) : Prop := ∀ pre s es run nl,
  src = pre ++ s → (length (bytes s) < fuel)%nat → run_ok (str_len pre) run nl →
  finds src es s (scan_loop fuel (str_len pre) (bytes s) es run nl).

(** The round goes on behind a text that is skipped. *)
Lemma go_on fuel pre s1 s2 es run nl :
  ready fuel → src = pre ++ s1 ++ s2 → (length (bytes s2) < fuel)%nat → run_ok (str_len pre + str_len s1) run nl →
  finds src es s2 (scan_loop fuel (str_len pre + Z.of_nat (length (bytes s1))) (drop (length (bytes s1)) (bytes (s1 ++ s2))) es run nl).
Proof.
  intros HF Hs Hf Hr. rewrite bytes_app, drop_app_length.
  change (Z.of_nat (length (bytes s1))) with (str_len s1). rewrite <-str_len_app in *.
  apply HF; [by rewrite <-(assoc_L (++))|done..].
Qed.
Lemma run_none i : 0 ≤ i → run_ok i None 0.
Proof. unfold run_ok. lia. Qed.
Lemma run_later i j run nl : i ≤ j → run_ok i run nl → run_ok j run nl.
Proof. unfold run_ok. destruct run; lia. Qed.
Lemma pre_small pre s : src = pre ++ s → str_len pre + str_len s < 2 ^ 32.
Proof. intros ->. by rewrite <-str_len_app. Qed.

Lemma after_slashes s :
  list.head s ≠ Some SLASH → plain_comments InCode (SLASH :: SLASH :: s) = plain_comments (InComment [SLASH; SLASH]) s.
Proof.
  intros Hh. change (plain_comments InCode (SLASH :: SLASH :: s)) with (plain_comments AfterSlashes s).
  destruct s as [|c s]; [done|]. cbn [plain_comments]. destruct (Z.eqb_spec c SLASH) as [->|]; done.
Qed.
(** A comment, or a doc comment, up to the end of its line. *)
Lemma scan_comment fuel pre s es run nl :
  ready fuel → src = pre ++ SLASH :: SLASH :: s → (S (length (bytes s)) < fuel)%nat → run_ok (str_len pre) run nl →
  finds src es (SLASH :: SLASH :: s) (scan_loop (S fuel) (str_len pre) (bytes (SLASH :: SLASH :: s)) es run nl).
Proof.
  intros HF Hs Hf Hr. pose proof (pre_small _ _ Hs) as Hsm. rewrite !str_len_cons in Hsm.
  destruct (line_spec s) as (line & rest & He & Hn & Hl & Hp & Hd). rewrite He, str_len_app in Hsm.
  pose proof (str_len_nonneg line). pose proof (str_len_nonneg rest). pose proof (str_len_nonneg pre).
  change (len_utf8 SLASH) with 1 in Hsm.
  rewrite !bytes_cons. change (utf8 SLASH) with [SLASH]. cbn [app].
  cbn [scan_loop]. rewrite (bool_decide_eq_true_2 _ eq_refl). cbn [andb].
  change (SLASH =? SLASH) with true. cbv iota.
  replace (leading SLASH (SLASH :: SLASH :: bytes s)) with (S (S (leading SLASH (bytes s)))) by done.
  cbn [drop]. replace (S (S (leading SLASH (bytes s))) + to_line_end (drop (leading SLASH (bytes s)) (bytes s)))%nat
    with (length (bytes (SLASH :: SLASH :: line))); cycle 1.
  { rewrite !bytes_cons. change (utf8 SLASH) with [SLASH]. cbn [app length]. rewrite <-Hl, <-leading_line. lia. }
  assert (bytes (SLASH :: SLASH :: s) = SLASH :: SLASH :: bytes s) as <- by done.
  assert (str_len (SLASH :: SLASH :: line) = 2 + str_len line) as Hlen by (rewrite !str_len_cons; change (len_utf8 SLASH) with 1; lia).
  assert (src = pre ++ (SLASH :: SLASH :: line) ++ rest) as Hs' by (rewrite Hs, He; done).
  assert (length (bytes rest) < fuel)%nat as Hf' by (rewrite He, bytes_app, length_app in Hf; lia).
  assert ((SLASH :: SLASH :: line) ++ rest = SLASH :: SLASH :: s) as Hj by (by rewrite He).
  destruct (decide (list.head s = Some SLASH)) as [Hh|Hh].
  - rewrite bool_decide_eq_false_2; cycle 1.
    { intros [= Hz]. by apply leading_slash in Hz. }
    destruct (go_on fuel pre (SLASH :: SLASH :: line) rest es run nl) as (es' & R1 & R2 & R3); [done..| |].
    { eapply run_later; [|done]. lia. }
    rewrite Hj in R1. exists es'. split_and!; [exact R1|done|]. rewrite R3, <-Hd.
    destruct s as [|c s]; [done|]. by injection Hh as ->.
  - rewrite bool_decide_eq_true_2; cycle 1.
    { by rewrite (proj2 (leading_slash s) Hh). }
    destruct (flush_spec src es _ run nl Hr) as (bl & Hfl & Ho & Hc); [lia|]. rewrite Hfl, bind_ret.
    eapply finds_more; [exact Ho|exact Hc|].
    rewrite !wrap_small by (unfold in_u; change (Z.of_nat (length (bytes (SLASH :: SLASH :: line)))) with (str_len (SLASH :: SLASH :: line)); lia).
    set (e := MkTriviaEntry _ _ _).
    assert (str_slice src (tv_start e) (tv_end e) = Done (SLASH :: SLASH :: line)) as Hsl.
    { subst e. cbn [tv_start tv_end]. rewrite Hs'.
      change (Z.of_nat (length (bytes (SLASH :: SLASH :: line)))) with (str_len (SLASH :: SLASH :: line)).
      rewrite <-str_len_app. apply str_slice_app. }
    destruct (go_on fuel pre (SLASH :: SLASH :: line) rest ((es ++ bl) ++ [e]) None 0) as (es' & R1 & R2 & R3); [done..| |].
    { apply run_none. lia. }
    rewrite Hj in R1. exists (e :: es'). split_and!.
    + change (e :: es') with ([e] ++ es'). rewrite (assoc_L (++)). exact R1.
    + constructor; [|done]. intros _. eexists. split; [exact Hsl|]. split; [done|]. rewrite !not_elem_of_cons. done.
    + unfold comments_of in *. cbn [flat_map]. rewrite R3. unfold comment_of at 1. change (tv_kind e) with TriviaComment.
      cbv iota. rewrite Hsl. cbn [app].
      rewrite after_slashes by done. symmetry. exact (Hp [SLASH; SLASH]).
Qed.

(** Anything else: the run of newlines ends here. *)
Lemma scan_other fuel pre c s s1 s2 es run nl :
  ready fuel → src = pre ++ c :: s → c :: s = s1 ++ s2 → (length (bytes s2) < fuel)%nat →
  run_ok (str_len pre) run nl → plain_comments InCode (c :: s) = plain_comments InCode s2 →
  finds src es (c :: s)
    (entries ← flush_blank es run nl;
     scan_loop fuel (str_len pre + Z.of_nat (length (bytes s1))) (drop (length (bytes s1)) (bytes (c :: s))) entries None 0).
Proof.
  intros HF Hs He Hf Hr Hp. pose proof (pre_small _ _ Hs) as Hsm. pose proof (str_len_nonneg (c :: s)).
  pose proof (str_len_nonneg pre). pose proof (str_len_nonneg s1).
  destruct (flush_spec src es _ run nl Hr) as (bl & Hfl & Ho & Hc); [lia|]. rewrite Hfl, bind_ret.
  eapply finds_more; [exact Ho|exact Hc|]. rewrite He in *.
  destruct (go_on fuel pre s1 s2 (es ++ bl) None 0) as (es' & R1 & R2 & R3); [done|done|done|apply run_none; lia|].
  exists es'. split_and!; [exact R1|done|]. by rewrite R3.
Qed.
(** White space and newlines, which the run of newlines goes on over. *)
Lemma scan_blank fuel pre c s es run' nl' :
  ready fuel → src = pre ++ c :: s → (length (bytes (c :: s)) ≤ fuel)%nat → utf8 c = [c] → code_mode c = InCode →
  run_ok (str_len pre + 1) run' nl' → finds src es (c :: s) (scan_loop fuel (str_len pre + 1) (bytes s) es run' nl').
Proof.
  intros HF Hs Hf Hu Hm Hr. destruct (go_on fuel pre [c] s es run' nl') as (es' & R1 & R2 & R3); [done|done| | |].
  { rewrite bytes_cons, Hu in Hf. simpl in Hf. lia. }
  { assert (str_len [c] = 1) as -> by (unfold str_len, bytes; cbn; by rewrite Hu). done. }
  assert (bytes [c] = [c]) as Hb by (unfold bytes; cbn; by rewrite Hu).
  rewrite Hb in R1. change ([c] ++ s) with (c :: s) in R1. rewrite bytes_cons, Hu in R1.
  exists es'. split_and!; [exact R1|done|]. cbn [plain_comments]. by rewrite Hm.
Qed.
Lemma head_slash s : list.head (bytes s) = Some SLASH ↔ list.head s = Some SLASH.
Proof.
  destruct s as [|c s]; [done|]. rewrite bytes_cons. cbn [list.head].
  destruct (utf8_cases c) as [[_ ->]|[Hc (b & bs & -> & [Hh _]%list.Forall_cons)]]; cbn; [done|].
  split; intros [= ->]; [done|by vm_compute in Hc].
Qed.
Lemma after_slash s : list.head s ≠ Some SLASH → plain_comments InCode (SLASH :: s) = plain_comments InCode s.
Proof.
  intros Hh. change (plain_comments InCode (SLASH :: s)) with (plain_comments AfterSlash s).
  destruct s as [|c s]; [done|]. cbn [plain_comments]. destruct (Z.eqb_spec c SLASH) as [->|]; done.
Qed.
Lemma code_other c : c ≠ SLASH → c ≠ QUOTE → c ≠ TICK → code_mode c = InCode.
Proof. intros. unfold code_mode. by rewrite !(proj2 (Z.eqb_neq _ _)). Qed.

(** A round at an ASCII character. *)
Lemma scan_ascii fuel pre c s es run nl :
  ready fuel → src = pre ++ c :: s → utf8 c = [c] → (length (bytes (c :: s)) ≤ fuel)%nat → run_ok (str_len pre) run nl →
  finds src es (c :: s) (scan_loop (S fuel) (str_len pre) (bytes (c :: s)) es run nl).
Proof.
  intros HF Hs Hu Hf Hr. pose proof (str_len_nonneg pre) as Hpre.
  assert (bytes (c :: s) = c :: bytes s) as Hb by (by rewrite bytes_cons, Hu).
  assert (∀ t, length (bytes (c :: t)) = S (length (bytes t))) as Hbl by (intros; by rewrite bytes_cons, Hu).
  rewrite Hbl in Hf. pose proof (pre_small _ _ Hs) as Hsm. rewrite str_len_cons in Hsm. pose proof (str_len_nonneg s).
  pose proof (len_utf8_pos c).
  assert (∀ t1 t2, s = t1 ++ t2 → plain_comments InCode (c :: s) = plain_comments InCode t2 → finds src es (c :: s)
    (entries ← flush_blank es run nl;
     scan_loop fuel (str_len pre + Z.of_nat (S (length (bytes t1)))) (drop (S (length (bytes t1))) (c :: bytes s)) entries None 0)) as Hskip.
  { intros t1 t2 He Hp. pose proof (scan_other fuel pre c s (c :: t1) t2 es run nl HF Hs) as Ho. rewrite Hbl, Hb in Ho.
    apply Ho; [by rewrite He| |done..]. rewrite He, bytes_app, length_app in Hf. lia. }
  destruct (decide (c = SLASH ∧ list.head s = Some SLASH)) as [[-> Hh]|Hns].
  { destruct s as [|d s]; [done|]. injection Hh as ->. apply scan_comment; [done..| |done].
    rewrite bytes_cons in Hf. change (utf8 SLASH) with [SLASH] in Hf. simpl in Hf. lia. }
  rewrite Hb. cbn [scan_loop].
  assert ((c =? SLASH) && bool_decide (list.head (bytes s) = Some SLASH) = false) as ->.
  { destruct (Z.eqb_spec c SLASH) as [->|]; [|done]. apply bool_decide_eq_false. rewrite head_slash. naive_solver. }
  destruct (Z.eqb_spec c NL) as [->|Hn].
  { destruct Hr as [Hnl Hrun]. rewrite (proj2 (checked_add_Done 32 nl 1 (nl + 1))) by (unfold in_u; lia). rewrite bind_ret.
    apply scan_blank; [done|done| |done|done|]; [rewrite Hb; simpl; lia|]. split; [lia|].
    destruct (Z.eqb_spec nl 0); [|destruct run; lia]. rewrite wrap_small by (unfold in_u; lia). lia. }
  destruct ((c =? 32) || (c =? 9) || (c =? 13)) eqn:Hw.
  { apply scan_blank; [done|done|rewrite Hb; simpl; lia|done| |eapply run_later; [|done]; lia].
    apply orb_true_iff in Hw as [[Hw|Hw]%orb_true_iff|Hw]; apply Z.eqb_eq in Hw as ->; done. }
  destruct (Z.eqb_spec c QUOTE) as [->|Hq].
  { destruct (skip_spec QUOTE s) as (t1 & t2 & He & Hk & Hp); [by left|]. unfold skip_string. rewrite Hk. by apply (Hskip t1 t2). }
  destruct (Z.eqb_spec c TICK) as [->|Ht].
  { destruct (skip_spec TICK s) as (t1 & t2 & He & Hk & Hp); [by right|]. unfold skip_char. rewrite Hk. by apply (Hskip t1 t2). }
  apply (Hskip [] s); [done|]. destruct (decide (c = SLASH)) as [->|Hs']; [apply after_slash; naive_solver|].
  cbn [plain_comments]. by rewrite code_other.
Qed.
Lemma scan_ready fuel : ready fuel.
Proof.
  induction fuel as [fuel IH] using lt_wf_ind. intros pre s es run nl Hs Hf Hr.
  destruct fuel as [|fuel]; [lia|]. destruct s as [|c s].
  { pose proof (pre_small _ _ Hs) as Hsm. rewrite str_len_nil in Hsm.
    destruct (flush_spec src es _ run nl Hr) as (bl & Hfl & Ho & Hc); [lia|]. exists bl. split_and!; [exact Hfl|done|done]. }
  destruct (utf8_cases c) as [[_ Hu]|[Hc (b & bs & Hu & Hh)]].
  { apply scan_ascii; [apply IH; lia|done|done|lia|done]. }
  pose proof Hh as [Hb Hbs]%list.Forall_cons. rewrite bytes_cons, Hu in *. cbn [app] in *.
  cbn [scan_loop]. rewrite !(high_neq b) by done. cbn [andb orb drop].
  rewrite length_cons, length_app in Hf. replace fuel with (length bs + (fuel - length bs))%nat by lia.
  pose proof (scan_other (fuel - length bs) pre c s [c] s es run nl) as Ho.
  replace (length (bytes [c])) with (S (length bs)) in Ho by (unfold bytes; cbn; rewrite Hu, app_nil_r; done).
  rewrite bytes_cons, Hu in Ho. cbn [drop app] in Ho. rewrite drop_app_length in Ho.
  assert (plain_comments InCode (c :: s) = plain_comments InCode s) as Hp.
  { cbn [plain_comments]. rewrite code_other; [done|..]; intros ->; by vm_compute in Hc. }
  specialize (Ho ltac:(apply IH; lia) Hs eq_refl ltac:(lia) Hr Hp).
  pose proof (pre_small _ _ Hs) as Hsm. pose proof (str_len_nonneg (c :: s)).
  destruct (flush_spec src es _ run nl Hr) as (bl & Hfl & _ & _); [lia|]. rewrite Hfl, bind_ret in *.
  rewrite drop_0, scan_high by done. replace (str_len pre + Z.of_nat 1 + Z.of_nat (length bs)) with (str_len pre + Z.of_nat (S (length bs))) by lia.
  exact Ho.
Qed.
(** The scan returns, and records the comments of the source. *)
Lemma scan_finds_comments :
  ∃ es, scan src = Done es ∧ Forall (entry_ok src) es ∧ comments_of src es = plain_comments InCode src.
Proof.
  destruct (scan_ready (S (length (bytes src))) [] src [] None 0) as (es & H); [done|lia|apply run_none; done|]. by exists es.
Qed.
End Scan.
