(* ===== verification/FmtThm.v ===== *)
(** * The formatter keeps comments and returns

    Every emitter of [FmtEmit] is [ok] on a tree as a successful parse makes it ([sound_ast]: no
    error nodes, bodies that are blocks), by induction over the tree; with the scan of
    [FmtScan], formatting returns a text into which every comment of the source is woven. *)

From S2P Require Import Prelude Types Air Positions Ast Fmt FmtEmit FmtWeave FmtScan.

#[local] Open Scope Z_scope.

(** ** Sound trees *)
Definition opt_all {A} (f : A → bool) (o : option A) : bool := match o with Some x => f x | None => true end.
Section Sound.
Context {S : Type}.
Notation Expr := (Expr S). Notation Pattern := (Pattern S). Notation TypeExpr := (TypeExpr S).
Section Structs.
Context (se : Expr → bool) (sp : Pattern → bool) (st : TypeExpr → bool).
Definition sound_param (x : Param S TypeExpr) : bool := st (pm_ty x).
Definition sound_body (e : Expr) : bool := is_block e && se e.
Definition sound_method (x : Method S Expr TypeExpr) : bool :=
  forallb sound_param (me_params x) && opt_all st (me_return_type x) && sound_body (me_body x).
Definition sound_method_sig (x : MethodSig S TypeExpr) : bool :=
  forallb sound_param (ms_params x) && opt_all st (ms_return_type x).
Definition sound_enum_variant (x : EnumVariant S TypeExpr) : bool :=
  match ev_kind x with
  | VariantUnit => true
  | VariantTuple tys => forallb st tys
  | VariantStruct fields => forallb (λ f, st (evf_ty f)) fields
  end.
Definition sound_args (args : list (CallArg Expr)) : bool := forallb (λ a, se (ca_expr a)) args.
Definition sound_inits (fields : list (FieldInit S Expr)) : bool := forallb (λ f, se (fi_value f)) fields.
Definition sound_intrinsic_arg (a : IntrinsicArg Expr TypeExpr) : bool :=
  match a with ArgExpr e => se e | ArgType t => st t end.
Definition sound_field_expr (f : FieldExpr S Expr) : bool := se (fe_base f).
Definition sound_index (i : IndexExpr Expr) : bool := se (ix_base i) && se (ix_index i).
Definition sound_let (l : LetStatement S Expr Pattern TypeExpr) : bool :=
  sp (ls_pattern l) && opt_all st (ls_ty l) && se (ls_init l).
Definition sound_target (t : AssignTarget S Expr) : bool :=
  match t with TargetVar _ => true | TargetField f => sound_field_expr f | TargetIndex i => sound_index i end.
Definition sound_assign (a : AssignStatement S Expr) : bool := sound_target (as_target a) && se (as_value a).
Definition sound_statement (s : Statement S Expr Pattern TypeExpr) : bool :=
  match s with StmtLet l => sound_let l | StmtAssign a => sound_assign a | StmtExpr e => se e end.
Definition sound_block (b : BlockExpr S Expr Pattern TypeExpr) : bool :=
  forallb sound_statement (bl_statements b) && se (bl_expr b).
Definition sound_arm (a : MatchArm Expr Pattern) : bool := sp (ma_pattern a) && se (ma_body a).
Definition sound_field_pattern (f : FieldPattern S Pattern) : bool := opt_all sp (fp_sub f).
Definition sound_elem (e : TupleElemPattern Pattern) : bool := match e with ElemPattern p => sp p | ElemRest _ => true end.
End Structs.

Fixpoint sound_expr (e : Expr) : bool :=
  match e with
  | ExprBinary x => sound_expr (be_left x) && sound_expr (be_right x)
  | ExprUnary x => sound_expr (ue_operand x)
  | ExprParen x => sound_expr (pe_inner x)
  | ExprBlock x => sound_block sound_expr sound_pattern sound_type x
  | ExprIf x => sound_expr (ife_cond x) && sound_block sound_expr sound_pattern sound_type (ife_then_block x) &&
      opt_all (sound_block sound_expr sound_pattern sound_type) (ife_else_block x)
  | ExprMatch x => sound_expr (mx_scrutinee x) && forallb (sound_arm sound_expr sound_pattern) (mx_arms x)
  | ExprWhile x => sound_expr (we_cond x) && sound_block sound_expr sound_pattern sound_type (we_body x)
  | ExprFor x => sound_expr (fo_iterable x) && sound_block sound_expr sound_pattern sound_type (fo_body x)
  | ExprLoop x => sound_block sound_expr sound_pattern sound_type (le_body x)
  | ExprCall x => sound_args sound_expr (ce_args x)
  | ExprReturn x => opt_all sound_expr (re_value x)
  | ExprStructLit x => opt_all sound_expr (sle_base x) && sound_inits sound_expr (sle_fields x)
  | ExprField x => sound_field_expr sound_expr x
  | ExprMethodCall x => sound_expr (mc_receiver x) && sound_args sound_expr (mc_args x)
  | ExprIntrinsicCall x => forallb (sound_intrinsic_arg sound_expr sound_type) (ic_args x)
  | ExprArrayLit x => forallb sound_expr (al_elements x)
  | ExprIndex x => sound_index sound_expr x
  | ExprPath x => opt_all sound_expr (pa_base x)
  | ExprEnumStructLit x => opt_all sound_expr (esl_base x) && sound_inits sound_expr (esl_fields x)
  | ExprAssocFnCall x =>
      opt_all sound_expr (af_base x) && forallb sound_expr (af_type_args x) && sound_args sound_expr (af_args x)
  | ExprComptime x => sound_expr (cb_expr x)
  | ExprComptimeUnrollFor x => sound_expr (cu_iterable x) && sound_block sound_expr sound_pattern sound_type (cu_body x)
  | ExprChecked x => sound_expr (ck_expr x)
  | ExprTypeLit x => sound_type (tl_type_expr x)
  | ExprTuple x => forallb sound_expr (te_elems x)
  | ExprTupleIndex x => sound_expr (ti_base x)
  | ExprRange x => opt_all sound_expr (ra_lo x) && opt_all sound_expr (ra_hi x)
  | ExprAnonFn x => forallb (sound_param sound_type) (an_params x) && opt_all sound_type (an_return_type x) &&
      sound_block sound_expr sound_pattern sound_type (an_body x)
  | ExprError _ => false
  | _ => true
  end
with sound_pattern (p : Pattern) : bool :=
  match p with
  | PatPath x => opt_all sound_expr (pp_base x)
  | PatDataVariant base _ _ fields _ => opt_all sound_expr base && forallb (sound_elem sound_pattern) fields
  | PatStructVariant base _ _ fields _ => opt_all sound_expr base && forallb (sound_field_pattern sound_pattern) fields
  | PatStruct _ fields _ => forallb (sound_field_pattern sound_pattern) fields
  | PatTuple elems _ => forallb (sound_elem sound_pattern) elems
  | PatComptimeUnrollArm _ iterable _ => sound_expr iterable
  | _ => true
  end
with sound_type (t : TypeExpr) : bool :=
  match t with
  | TypeArray element _ _ => sound_type element
  | TypeAnonymousStruct _ _ fields methods _ =>
      forallb (λ f, sound_type (asf_ty f)) fields && forallb (sound_method sound_expr sound_type) methods
  | TypeAnonymousEnum _ _ variants methods _ =>
      forallb (sound_enum_variant sound_type) variants && forallb (sound_method sound_expr sound_type) methods
  | TypeAnonymousInterface methods _ => forallb (sound_method_sig sound_type) methods
  | TypeCall _ args _ => forallb sound_type args
  | TypeTuple elems _ => forallb sound_type elems
  | _ => true
  end.
Definition sound_function (f : Function S Expr TypeExpr) : bool :=
  forallb (sound_param sound_type) (fn_params f) && opt_all sound_type (fn_return_type f) &&
  sound_body sound_expr (fn_body f).
Definition sound_extern_fn (f : ExternFn S TypeExpr) : bool :=
  forallb (sound_param sound_type) (xf_params f) && opt_all sound_type (xf_return_type f).
Definition sound_item (i : Item S Expr TypeExpr) : bool :=
  match i with
  | ItemFunction f => sound_function f
  | ItemStruct s => forallb (λ f, sound_type (fd_ty f)) (Ast.sd_fields s) &&
      forallb (sound_method sound_expr sound_type) (Ast.sd_methods s)
  | ItemEnum e => forallb (sound_enum_variant sound_type) (Ast.ed_variants e) &&
      forallb (sound_method sound_expr sound_type) (Ast.ed_methods e)
  | ItemInterface i => forallb (sound_method_sig sound_type) (if_methods i)
  | ItemDerive d => forallb (sound_method sound_expr sound_type) (de_methods d)
  | ItemConst c => opt_all sound_type (cd_ty c) && sound_expr (cd_init c)
  | ItemLinkExtern b => forallb sound_extern_fn (lb_items b)
  | ItemError _ => false
  end.
Definition sound_ast (a : Ast S) : bool := forallb sound_item (ast_items a).
End Sound.

(** ** Rules *)
#[universes(polymorphic)]
Lemma ok_each@{s;u +} {A} (f : A → Emit) (PA : A → Type@{s;u}) (s : A → bool) l :
  list_all PA l → forallb s l = true → (∀ x, PA x → s x = true → ok (f x)) → ok (each f l).
Proof.
  intros Hl Hs Hf. induction Hl as [|x Hx l _ IH]; [apply ok_ret|]. cbn in Hs. apply andb_true_iff in Hs as [Hs Hss].
  apply (ok_bind (f x) (each f l)); auto.
Qed.
#[universes(polymorphic)]
Lemma ok_separated@{s;u +} {A} sep (f : A → Emit) (PA : A → Type@{s;u}) (s : A → bool) l :
  ok sep → list_all PA l → forallb s l = true → (∀ x, PA x → s x = true → ok (f x)) → ok (separated sep f l).
Proof.
  intros Hsep Hl Hs Hf. destruct Hl as [|x Hx l Hl]; [apply ok_ret|]. cbn in Hs. apply andb_true_iff in Hs as [Hs Hss].
  apply (ok_bind (f x)); [auto|]. eapply (ok_each _ PA s); [done..|]. intros. apply ok_bind; auto.
Qed.
#[universes(polymorphic)]
Lemma ok_if_some@{s;u +} {A} (f : A → Emit) (PA : A → Type@{s;u}) (s : A → bool) o :
  option_all PA o → opt_all s o = true → (∀ x, PA x → s x = true → ok (f x)) → ok (if_some f o).
Proof. intros Ho Hs Hf. destruct Ho as [x Hx|]; [by apply Hf|apply ok_ret]. Qed.
Lemma ok_each_all {A} (f : A → Emit) l : (∀ x, ok (f x)) → ok (each f l).
Proof. intros Hf. induction l as [|x l IH]; [apply ok_ret|by apply (ok_bind (f x) (each f l))]. Qed.
Lemma ok_separated_all {A} sep (f : A → Emit) l : ok sep → (∀ x, ok (f x)) → ok (separated sep f l).
Proof.
  intros Hs Hf. destruct l as [|x l]; [apply ok_ret|]. apply (ok_bind (f x)); [done|].
  apply ok_each_all. intros. by apply ok_bind.
Qed.
Lemma ok_if_some_all {A} (f : A → Emit) o : (∀ x, ok (f x)) → ok (if_some f o).
Proof. intros Hf. destruct o; [apply Hf|apply ok_ret]. Qed.
Lemma ok_when b m : ok m → ok (when b m).
Proof. intros. destruct b; [done|apply ok_ret]. Qed.

#[export] Hint Resolve ok_ret ok_write ok_write_str ok_newline ok_blank_line ok_mark ok_drain_before : emit.

#[local] Arguments mbind : simpl never.
#[local] Arguments write : simpl never.
#[local] Arguments write_str : simpl never.
#[local] Arguments each : simpl never.
#[local] Arguments separated : simpl never.
#[local] Arguments if_some : simpl never.
#[local] Arguments forallb : simpl never.
#[local] Arguments opt_all : simpl never.
(** Take a run apart, statement by statement. *)
Ltac sound_split :=
  repeat match goal with H : _ && _ = true |- _ => apply andb_true_iff in H as [? ?] end.
Ltac emit_step :=
  match goal with
  | |- ok (drain_trailing_comment_on_line;; newline) => apply ok_trailing
  | |- ok (_;; _) => apply ok_bind
  | |- ok (when _ _) => apply ok_when
  | |- ok (indented _) => apply ok_indented
  | Hl : list_all _ ?l, Hs : forallb _ ?l = true |- ok (each _ ?l) => eapply ok_each; [exact Hl|exact Hs|]; intros
  | Hl : list_all _ ?l, Hs : forallb _ ?l = true |- ok (separated _ _ ?l) => eapply ok_separated; [|exact Hl|exact Hs|]; intros
  | Ho : option_all _ ?o, Hs : opt_all _ ?o = true |- ok (if_some _ ?o) => eapply ok_if_some; [exact Ho|exact Hs|]; intros
  | |- ok _ => solve [eauto with emit]
  | |- ok (match ?x with _ => _ end) => destruct x
  end.
Ltac emits := repeat (cbv beta; emit_step).
(** A struct: its fields, and what is known of each. *)
Ltac emit_fields emit :=
  let Hall := fresh in let Hs := fresh in
  intros Hall Hs; destruct Hall; simpl in Hs; sound_split; unfold emit; simpl; emits.
Ltac emit_struct emit sound := unfold sound; emit_fields emit.

Combined Scheme trees_mind from Expr_mind, Pattern_mind, TypeExpr_mind.
Section Emitters.
Context {S : Type} (resolve : S → str) (doc_text : Doc → str) (show_float : Z → str).
Notation Expr := (Expr S). Notation Pattern := (Pattern S). Notation TypeExpr := (TypeExpr S).
Notation any := (λ _, unit).

Lemma ok_ident i : ok (write_ident resolve i).
Proof. apply ok_write_str. Qed.
Hint Resolve ok_ident : emit.
Lemma ok_doc d : ok (emit_doc doc_text d).
Proof. apply ok_each_all. intros [|c l]; emits. Qed.
Hint Resolve ok_doc : emit.
Lemma ok_docs o : ok (if_some (emit_doc doc_text) o).
Proof. apply ok_if_some_all. eauto with emit. Qed.
Lemma ok_string l : ok (emit_string_literal resolve l).
Proof. unfold emit_string_literal. emits. apply ok_each_all. eauto with emit. Qed.
Hint Resolve ok_docs ok_string : emit.
Lemma ok_directive d : ok (emit_directive resolve d).
Proof. unfold emit_directive. emits. apply ok_separated_all; [emits|]. intros [|]; emits. Qed.
Hint Resolve ok_directive : emit.
Lemma ok_directives ds : ok (emit_directives resolve ds).
Proof. apply ok_each_all. intros. emits. Qed.
Lemma ok_directives_inline ds : ok (emit_directives_inline resolve ds).
Proof. apply ok_each_all. intros. emits. Qed.
Lemma ok_visibility v : ok (emit_visibility v).
Proof. destruct v; emits. Qed.
Lemma ok_self_param p : ok (emit_self_param p).
Proof. unfold emit_self_param. destruct (sp_kind p); emits. Qed.
Lemma ok_float l : ok (emit_float_literal show_float l).
Proof. unfold emit_float_literal. emits. Qed.
Lemma ok_char l : ok (emit_char_literal l).
Proof. unfold emit_char_literal. emits. Qed.
Lemma ok_bool l : ok (emit_bool_literal l).
Proof. apply ok_write. Qed.
Lemma ok_int l : ok (emit_int_literal l).
Proof. apply ok_write_str. Qed.
Hint Resolve ok_directives ok_directives_inline ok_visibility ok_self_param ok_float ok_char ok_bool ok_int : emit.

Section Structs.
Context (ee : Expr → Emit) (ep : Pattern → Emit) (et : TypeExpr → Emit).
Context (se : Expr → bool) (sp : Pattern → bool) (st : TypeExpr → bool).
Notation expr_ok := (λ e, se e = true → ok (ee e)).
Notation pat_ok := (λ p, sp p = true → ok (ep p)).
Notation type_ok := (λ t, st t = true → ok (et t)).

Lemma ok_param x : Param_all any type_ok x → sound_param st x = true → ok (emit_param resolve et x).
Proof. emit_struct @emit_param @sound_param. Qed.
Hint Resolve ok_param : emit.
Lemma ok_param_list l :
  list_all (Param_all any type_ok) l → forallb (sound_param st) l = true → ok (emit_param_list resolve et l).
Proof. intros. unfold emit_param_list. emits. Qed.
Lemma ok_return_type o : option_all type_ok o → opt_all st o = true → ok (emit_return_type et o).
Proof. intros. unfold emit_return_type. emits. Qed.
Lemma ok_body e : expr_ok e → sound_body se e = true → ok (emit_body ee e).
Proof. intros He [Hb Hs]%andb_true_iff. unfold emit_body. rewrite Hb. auto. Qed.
Hint Resolve ok_param_list ok_return_type ok_body : emit.
Lemma ok_method x :
  Method_all any expr_ok type_ok x → sound_method se st x = true → ok (emit_method resolve doc_text ee et x).
Proof. emit_struct @emit_method @sound_method. Qed.
Hint Resolve ok_method : emit.
Lemma ok_methods l :
  list_all (Method_all any expr_ok type_ok) l → forallb (sound_method se st) l = true →
  ok (emit_methods resolve doc_text ee et l).
Proof. intros. unfold emit_methods. emits. Qed.
Lemma ok_method_sig x :
  MethodSig_all any type_ok x → sound_method_sig st x = true → ok (emit_method_sig resolve doc_text et x).
Proof. emit_struct @emit_method_sig @sound_method_sig. Qed.
Lemma ok_field_decl x :
  FieldDecl_all any type_ok x → st (fd_ty x) = true → ok (emit_field_decl resolve doc_text et x).
Proof. emit_fields @emit_field_decl. Qed.
Lemma ok_enum_variant_field x :
  EnumVariantField_all any type_ok x → st (evf_ty x) = true → ok (emit_enum_variant_field resolve doc_text et x).
Proof. emit_fields @emit_enum_variant_field. Qed.
Lemma ok_anon_struct_field x :
  AnonStructField_all any type_ok x → st (asf_ty x) = true → ok (emit_anon_struct_field resolve doc_text et x).
Proof. emit_fields @emit_anon_struct_field. Qed.
Hint Resolve ok_methods ok_method_sig ok_field_decl ok_enum_variant_field ok_anon_struct_field : emit.
Lemma ok_enum_variant x :
  EnumVariant_all any type_ok x → sound_enum_variant st x = true → ok (emit_enum_variant resolve doc_text et x).
Proof.
  intros [doc name Hn kind Hk span] Hs. unfold sound_enum_variant in Hs. unfold emit_enum_variant. simpl in *.
  destruct Hk; emits.
Qed.
Hint Resolve ok_enum_variant : emit.

Lemma ok_binary x : BinaryExpr_all expr_ok x → se (be_left x) && se (be_right x) = true → ok (emit_binary ee x).
Proof. emit_fields @emit_binary. Qed.
Lemma ok_unary x : UnaryExpr_all expr_ok x → se (ue_operand x) = true → ok (emit_unary ee x).
Proof. emit_fields @emit_unary. Qed.
Lemma ok_paren x : ParenExpr_all expr_ok x → se (pe_inner x) = true → ok (emit_paren ee x).
Proof. emit_fields @emit_paren. Qed.
Lemma ok_call_arg x : CallArg_all expr_ok x → se (ca_expr x) = true → ok (ee (ca_expr x)).
Proof. intros [] ?. auto. Qed.
Hint Resolve ok_call_arg : emit.
Lemma ok_call_args l : list_all (CallArg_all expr_ok) l → sound_args se l = true → ok (emit_call_args ee l).
Proof. unfold sound_args. intros. unfold emit_call_args. emits. Qed.
Lemma ok_base o : option_all expr_ok o → opt_all se o = true → ok (emit_base ee o).
Proof. intros. unfold emit_base. emits. Qed.
Lemma ok_field_init x : FieldInit_all any expr_ok x → se (fi_value x) = true → ok (emit_field_init resolve ee x).
Proof. emit_fields @emit_field_init. Qed.
Hint Resolve ok_call_args ok_base ok_field_init : emit.
Lemma ok_field_inits l :
  list_all (FieldInit_all any expr_ok) l → sound_inits se l = true → ok (emit_field_inits resolve ee l).
Proof. unfold sound_inits. intros. unfold emit_field_inits. emits. Qed.
Hint Resolve ok_field_inits : emit.
Lemma ok_call x : CallExpr_all any expr_ok x → sound_args se (ce_args x) = true → ok (emit_call resolve ee x).
Proof. emit_fields @emit_call. Qed.
Lemma ok_return x : ReturnExpr_all expr_ok x → opt_all se (re_value x) = true → ok (emit_return ee x).
Proof. emit_fields @emit_return. Qed.
Lemma ok_struct_lit x :
  StructLitExpr_all any expr_ok x → opt_all se (sle_base x) && sound_inits se (sle_fields x) = true →
  ok (emit_struct_lit resolve ee x).
Proof. emit_fields @emit_struct_lit. Qed.
Lemma ok_field_expr x : FieldExpr_all any expr_ok x → sound_field_expr se x = true → ok (emit_field_expr resolve ee x).
Proof. emit_struct @emit_field_expr @sound_field_expr. Qed.
Lemma ok_method_call x :
  MethodCallExpr_all any expr_ok x → se (mc_receiver x) && sound_args se (mc_args x) = true →
  ok (emit_method_call resolve ee x).
Proof. emit_fields @emit_method_call. Qed.
Lemma ok_intrinsic_arg a : IntrinsicArg_all expr_ok type_ok a → sound_intrinsic_arg se st a = true →
  ok (match a with ArgExpr e => ee e | ArgType t => et t end).
Proof. intros [] ?; auto. Qed.
Hint Resolve ok_intrinsic_arg : emit.
Lemma ok_intrinsic_call x :
  IntrinsicCallExpr_all any expr_ok type_ok x → forallb (sound_intrinsic_arg se st) (ic_args x) = true →
  ok (emit_intrinsic_call resolve ee et x).
Proof. emit_fields @emit_intrinsic_call. Qed.
Lemma ok_array_lit x : ArrayLitExpr_all expr_ok x → forallb se (al_elements x) = true → ok (emit_array_lit ee x).
Proof. emit_fields @emit_array_lit. Qed.
Lemma ok_index x : IndexExpr_all expr_ok x → sound_index se x = true → ok (emit_index ee x).
Proof. emit_struct @emit_index @sound_index. Qed.
Lemma ok_path x : PathExpr_all any expr_ok x → opt_all se (pa_base x) = true → ok (emit_path resolve ee x).
Proof. emit_fields @emit_path. Qed.
Lemma ok_enum_struct_lit x :
  EnumStructLitExpr_all any expr_ok x → opt_all se (esl_base x) && sound_inits se (esl_fields x) = true →
  ok (emit_enum_struct_lit resolve ee x).
Proof. emit_fields @emit_enum_struct_lit. Qed.
Lemma ok_assoc_fn_call x :
  AssocFnCallExpr_all any expr_ok x →
  opt_all se (af_base x) && forallb se (af_type_args x) && sound_args se (af_args x) = true →
  ok (emit_assoc_fn_call resolve ee x).
Proof. emit_fields @emit_assoc_fn_call. Qed.
Lemma ok_comptime x : ComptimeBlockExpr_all expr_ok x → se (cb_expr x) = true → ok (emit_comptime_block ee x).
Proof. emit_fields @emit_comptime_block. Qed.
Lemma ok_checked x : CheckedBlockExpr_all expr_ok x → se (ck_expr x) = true → ok (emit_checked_block ee x).
Proof. emit_fields @emit_checked_block. Qed.
Lemma ok_tuple x : TupleExpr_all expr_ok x → forallb se (te_elems x) = true → ok (emit_tuple ee x).
Proof. emit_fields @emit_tuple. Qed.
Lemma ok_tuple_index x : TupleIndexExpr_all expr_ok x → se (ti_base x) = true → ok (emit_tuple_index ee x).
Proof. emit_fields @emit_tuple_index. Qed.
Lemma ok_range x :
  RangeExpr_all expr_ok x → opt_all se (ra_lo x) && opt_all se (ra_hi x) = true → ok (emit_range ee x).
Proof. emit_fields @emit_range. Qed.
Hint Resolve ok_field_expr ok_index : emit.

Lemma ok_let x :
  LetStatement_all any expr_ok pat_ok type_ok x → sound_let se sp st x = true → ok (emit_let resolve ee ep et x).
Proof. emit_struct @emit_let @sound_let. Qed.
Lemma ok_target x : AssignTarget_all any expr_ok x → sound_target se x = true → ok (emit_assign_target resolve ee x).
Proof. intros [] ?; simpl; emits. Qed.
Hint Resolve ok_let ok_target : emit.
Lemma ok_assign x : AssignStatement_all any expr_ok x → sound_assign se x = true → ok (emit_assign resolve ee x).
Proof. emit_struct @emit_assign @sound_assign. Qed.
Hint Resolve ok_assign : emit.
Lemma ok_statement x :
  Statement_all any expr_ok pat_ok type_ok x → sound_statement se sp st x = true → ok (emit_statement resolve ee ep et x).
Proof. intros [] ?; simpl; emits. Qed.
Hint Resolve ok_statement : emit.
Lemma ok_own_line span m : ok m → ok (on_own_line span m).
Proof. intros. unfold on_own_line. emits. Qed.
Hint Resolve ok_own_line : emit.
Lemma ok_block x :
  BlockExpr_all any expr_ok pat_ok type_ok x → sound_block se sp st x = true → ok (emit_block resolve ee ep et x).
Proof. emit_struct @emit_block @sound_block. Qed.
Hint Resolve ok_block : emit.
Lemma ok_block_expr x :
  BlockExpr_all any expr_ok pat_ok type_ok x → sound_block se sp st x = true → ok (ee (bl_expr x)).
Proof. intros [] [_ Hs]%andb_true_iff. auto. Qed.
Hint Resolve ok_block_expr : emit.
Lemma ok_if x :
  IfExpr_all any expr_ok pat_ok type_ok x →
  se (ife_cond x) && sound_block se sp st (ife_then_block x) && opt_all (sound_block se sp st) (ife_else_block x) = true →
  ok (emit_if resolve ee ep et x).
Proof. emit_fields @emit_if. Qed.
Lemma ok_arm x : MatchArm_all expr_ok pat_ok x → sound_arm se sp x = true → ok (emit_match_arm ee ep x).
Proof. emit_struct @emit_match_arm @sound_arm. Qed.
Hint Resolve ok_arm : emit.
Lemma ok_match x :
  MatchExpr_all expr_ok pat_ok x → se (mx_scrutinee x) && forallb (sound_arm se sp) (mx_arms x) = true →
  ok (emit_match ee ep x).
Proof. emit_fields @emit_match. Qed.
Lemma ok_while x :
  WhileExpr_all any expr_ok pat_ok type_ok x → se (we_cond x) && sound_block se sp st (we_body x) = true →
  ok (emit_while resolve ee ep et x).
Proof. emit_fields @emit_while. Qed.
Lemma ok_for x :
  ForExpr_all any expr_ok pat_ok type_ok x → se (fo_iterable x) && sound_block se sp st (fo_body x) = true →
  ok (emit_for resolve ee ep et x).
Proof. emit_fields @emit_for. Qed.
Lemma ok_loop x :
  LoopExpr_all any expr_ok pat_ok type_ok x → sound_block se sp st (le_body x) = true → ok (emit_loop resolve ee ep et x).
Proof. emit_fields @emit_loop. Qed.
Lemma ok_unroll_for x :
  ComptimeUnrollForExpr_all any expr_ok pat_ok type_ok x → se (cu_iterable x) && sound_block se sp st (cu_body x) = true →
  ok (emit_comptime_unroll_for resolve ee ep et x).
Proof. emit_fields @emit_comptime_unroll_for. Qed.
Lemma ok_anon_fn x :
  AnonFnExpr_all any expr_ok pat_ok type_ok x →
  forallb (sound_param st) (an_params x) && opt_all st (an_return_type x) && sound_block se sp st (an_body x) = true →
  ok (emit_anon_fn resolve ee ep et x).
Proof. emit_fields @emit_anon_fn. Qed.

Lemma ok_path_pattern x : PathPattern_all any expr_ok x → opt_all se (pp_base x) = true → ok (emit_path_pattern resolve ee x).
Proof. emit_fields @emit_path_pattern. Qed.
Lemma ok_field_pattern x :
  FieldPattern_all any pat_ok x → sound_field_pattern sp x = true → ok (emit_field_pattern resolve ep x).
Proof.
  intros [name Hn sub Hsub is_mut span] Hs. unfold emit_field_pattern, sound_field_pattern in *. simpl in *.
  destruct name; [|emits]. destruct Hsub; simpl in *; emits.
Qed.
Lemma ok_elem x : TupleElemPattern_all pat_ok x → sound_elem sp x = true → ok (emit_tuple_elem_pattern ep x).
Proof. intros [] ?; simpl; emits. Qed.
Hint Resolve ok_field_pattern ok_elem : emit.
Lemma ok_field_patterns l :
  list_all (FieldPattern_all any pat_ok) l → forallb (sound_field_pattern sp) l = true →
  ok (emit_field_patterns resolve ep l).
Proof. intros. unfold emit_field_patterns. emits. Qed.

Lemma ok_anon_struct ds fields methods :
  list_all (AnonStructField_all any type_ok) fields → list_all (Method_all any expr_ok type_ok) methods →
  forallb (λ f, st (asf_ty f)) fields && forallb (sound_method se st) methods = true →
  ok (emit_anon_struct resolve doc_text ee et ds fields methods).
Proof. intros. sound_split. unfold emit_anon_struct. emits. Qed.
Lemma ok_anon_enum ds variants methods :
  list_all (EnumVariant_all any type_ok) variants → list_all (Method_all any expr_ok type_ok) methods →
  forallb (sound_enum_variant st) variants && forallb (sound_method se st) methods = true →
  ok (emit_anon_enum resolve doc_text ee et ds variants methods).
Proof. intros. sound_split. unfold emit_anon_enum. emits. Qed.
Lemma ok_anon_interface methods :
  list_all (MethodSig_all any type_ok) methods → forallb (sound_method_sig st) methods = true →
  ok (emit_anon_interface resolve doc_text et methods).
Proof. intros. unfold emit_anon_interface. emits. Qed.
End Structs.

(** ** Trees *)
Hint Resolve ok_binary ok_unary ok_paren ok_block ok_if ok_match ok_while ok_for ok_loop ok_call ok_return ok_struct_lit
  ok_field_expr ok_method_call ok_intrinsic_call ok_array_lit ok_index ok_path ok_enum_struct_lit ok_assoc_fn_call
  ok_comptime ok_unroll_for ok_checked ok_tuple ok_tuple_index ok_range ok_anon_fn ok_path_pattern ok_field_patterns
  ok_base ok_elem ok_anon_struct ok_anon_enum ok_anon_interface ok_method ok_methods ok_method_sig ok_field_decl
  ok_enum_variant ok_param_list ok_return_type ok_body : emit.
Notation emit_expr := (emit_expr resolve doc_text show_float).
Notation emit_pattern := (emit_pattern resolve doc_text show_float).
Notation emit_type_expr := (emit_type_expr resolve doc_text show_float).
Lemma trees_emitted :
  (∀ e, sound_expr e = true → ok (emit_expr e)) ∧ (∀ p, sound_pattern p = true → ok (emit_pattern p)) ∧
  (∀ t, sound_type t = true → ok (emit_type_expr t)).
Proof.
  apply (trees_mind S (λ e, sound_expr e = true → ok (emit_expr e)) (λ p, sound_pattern p = true → ok (emit_pattern p))
    (λ t, sound_type t = true → ok (emit_type_expr t))); intros; try done;
    match goal with Hs : _ = true |- _ => simpl in Hs end; simpl;
    try solve [eauto with emit]; try solve [sound_split; emits].
  match goal with H : TypeLitExpr_all _ _ |- _ => destruct H end. auto.
Qed.
Lemma ok_expr e : sound_expr e = true → ok (emit_expr e).
Proof. apply trees_emitted. Qed.
Lemma ok_type t : sound_type t = true → ok (emit_type_expr t).
Proof. apply trees_emitted. Qed.
Hint Resolve ok_expr ok_type : emit.

(** ** Items *)
Notation expr_ok := (λ e, sound_expr e = true → ok (emit_expr e)).
Notation type_ok := (λ t, sound_type t = true → ok (emit_type_expr t)).
Lemma ok_function x :
  Function_all any expr_ok type_ok x → sound_function x = true → ok (emit_function resolve doc_text show_float x).
Proof. emit_struct @emit_function @sound_function. Qed.
Lemma ok_struct_decl x :
  StructDecl_all any expr_ok type_ok x →
  forallb (λ f, sound_type (fd_ty f)) (Ast.sd_fields x) && forallb (sound_method sound_expr sound_type) (Ast.sd_methods x) = true →
  ok (emit_struct_decl resolve doc_text show_float x).
Proof. emit_fields @emit_struct_decl. Qed.
Lemma ok_enum_decl x :
  EnumDecl_all any expr_ok type_ok x →
  forallb (sound_enum_variant sound_type) (Ast.ed_variants x) && forallb (sound_method sound_expr sound_type) (Ast.ed_methods x) = true →
  ok (emit_enum_decl resolve doc_text show_float x).
Proof. emit_fields @emit_enum_decl. Qed.
Lemma ok_interface_decl x :
  InterfaceDecl_all any type_ok x → forallb (sound_method_sig sound_type) (if_methods x) = true →
  ok (emit_interface_decl resolve doc_text show_float x).
Proof. emit_fields @emit_interface_decl. Qed.
Lemma ok_derive_decl x :
  DeriveDecl_all any expr_ok type_ok x → forallb (sound_method sound_expr sound_type) (de_methods x) = true →
  ok (emit_derive_decl resolve doc_text show_float x).
Proof. emit_fields @emit_derive_decl. Qed.
Lemma ok_const_decl x :
  ConstDecl_all any expr_ok type_ok x → opt_all sound_type (cd_ty x) && sound_expr (cd_init x) = true →
  ok (emit_const_decl resolve doc_text show_float x).
Proof. emit_fields @emit_const_decl. Qed.
Lemma ok_extern_fn x :
  ExternFn_all any type_ok x → sound_extern_fn x = true → ok (emit_extern_fn resolve doc_text show_float x).
Proof. emit_struct @emit_extern_fn @sound_extern_fn. Qed.
Hint Resolve ok_extern_fn : emit.
Lemma ok_link_extern x :
  LinkExternBlock_all any type_ok x → forallb sound_extern_fn (lb_items x) = true →
  ok (emit_link_extern resolve doc_text show_float x).
Proof. emit_fields @emit_link_extern. Qed.
Hint Resolve ok_function ok_struct_decl ok_enum_decl ok_interface_decl ok_derive_decl ok_const_decl ok_link_extern : emit.
Lemma ok_item x : sound_item x = true → ok (emit_item resolve doc_text show_float x).
Proof.
  assert (Item_all any expr_ok type_ok x) as Hx.
  { apply Item_all_forall; [exact (λ _, tt)|exact ok_expr|exact ok_type]. }
  intros Hs. destruct Hx; simpl in *; eauto with emit. done.
Qed.
Hint Resolve ok_item : emit.
Lemma ok_top_item x : sound_item x = true → ok (emit_top_item resolve doc_text show_float x).
Proof. intros. unfold emit_top_item. emits. Qed.

(** The whole tree: the trivia that no item drained are drained at the end. *)
Lemma emit_ast_run ast p :
  sound_ast ast = true → printer_ok p →
  ∃ p', emit_ast resolve doc_text show_float ast p = Done ((), p') ∧ Leads p p' ∧ drop (pr_trivia_cursor p') (pr_trivia p') = [].
Proof.
  intros Hs Hp. assert (list_all any (ast_items ast)) as Hl by (apply list_all_forall; exact (λ _, tt)).
  unfold sound_ast in Hs.
  match goal with |- context [emit_ast _ _ _ _] => unfold emit_ast end.
  match goal with |- context [(?m ≫= λ _, drain_trivia_remaining) p] => assert (ok m) as Hm end.
  { destruct (ast_module_doc ast).
    - apply ok_bind; [eauto with emit|]. eapply ok_each; [exact Hl|exact Hs|]. intros x _ Hx. apply ok_bind; [emits|by apply ok_top_item].
    - eapply ok_separated; [emits|exact Hl|exact Hs|]. intros x _. apply ok_top_item. }
  destruct (Hm p Hp) as (p1 & H1 & L1). destruct (drain_remaining p1) as (p2 & H2 & L2 & He); [by eapply leads_ok|].
  exists p2. split_and!; [|by eapply leads_trans|done]. by rewrite (bind_run _ _ _ _ H1).
Qed.

(** ** The end of the file *)
Lemma drop_newlines_woven cs r :
  Forall one_line cs → woven cs (rev r) → woven cs (rev (drop_newlines r)).
Proof.
  intros Hcs. induction r as [|a r IH]; [done|]. destruct r as [|b r]; [done|]. intros Hw. cbn [drop_newlines].
  destruct (Z.eqb_spec a NL) as [->|]; [|done]. destruct (Z.eqb_spec b NL) as [->|]; [|done]. cbn [andb].
  apply IH. cbn [rev] in *. apply woven_unsnoc; [done|]. by rewrite <-(assoc_L (++)) in Hw.
Qed.
Lemma drop_newlines_one r r' : drop_newlines r ≠ NL :: NL :: r'.
Proof.
  induction r as [|a r IH]; [done|]. destruct r as [|b r]; [done|]. cbn [drop_newlines].
  destruct (Z.eqb_spec a NL) as [->|]; [|cbn; congruence]. destruct (Z.eqb_spec b NL) as [->|]; [done|cbn; congruence].
Qed.
Lemma ends_in_NL s : ends_in [NL] s = true ↔ ∃ s', s = s' ++ [NL].
Proof. apply bool_decide_eq_true. Qed.
Lemma finish_spec cs p :
  Forall one_line cs → woven cs (pr_out p) →
  woven cs (finish p) ∧ ∃ body, finish p = body ++ [NL] ∧ ends_in [NL] body = false.
Proof.
  intros Hcs Hw. unfold finish. rewrite <-(rev_involutive (pr_out p)) in Hw. apply drop_newlines_woven in Hw; [|done].
  destruct (ends_in [NL] (rev (drop_newlines (rev (pr_out p))))) eqn:He.
  - split; [done|]. apply ends_in_NL in He as [body Hb]. exists body. split; [done|].
    apply not_true_iff_false. intros [b Hbb]%ends_in_NL. apply (drop_newlines_one (rev (pr_out p)) (rev b)).
    rewrite <-(rev_involutive (drop_newlines _)), Hb, Hbb, !rev_app_distr. done.
  - split; [by apply woven_append|]. by eexists.
Qed.
Lemma comments_one_line src es : Forall (entry_ok src) es → Forall one_line (comments_of src es).
Proof.
  induction 1 as [|e es He _ IH]; [constructor|]. unfold comments_of. cbn. apply list.Forall_app. split; [|done].
  unfold comment_of. destruct (tv_kind e) eqn:Hk; [|constructor]. destruct (He Hk) as (t & -> & Ht). by constructor.
Qed.

End Emitters.

(** ** Examples *)
Module FormatExample.
Fixpoint text_lines (l : list string) : str := match l with [] => [] | s :: l => str_of s ++ [NL] ++ text_lines l end.
Definition span (a b : Z) : Span := MkSpan 0 a b.
Definition ident (s : string) : Ident string := MkIdent s (span 0 0).
Definition format : str → Ast string → outcome str := format_tree str_of (λ d, str_of (doc_body d)) (λ _, []).
Definition fn_main (statements : list (Statement string (Expr string) (Pattern string) (TypeExpr string))) (result : Expr string)
    (body whole : Span) : Item string (Expr string) (TypeExpr string) :=
  ItemFunction (MkFunction None [] Private false (ident "main") [] (Some (TypeNamed (ident "i32")))
    (ExprBlock (MkBlockExpr statements result body)) whole).

(** A function with comments before it, behind a statement and after it. *)
Definition src : str := text_lines ["// top"; "fn main() -> i32 {"; "  go; // all"; ""; "0 }"; "// end"].
Definition tree : Ast string :=
  MkAst None [fn_main [StmtExpr (ExprIdent (MkIdent "go"%string (span 28 30)))] (ExprInt (MkIntLit 0 (span 40 41))) (span 24 43) (span 7 43)].
Example formatted :
  format src tree = Done (text_lines ["// top"; "fn main() -> i32 {"; "    go;  // all"; ""; "    0"; "}"; "// end"]).
Proof. by vm_compute. Qed.

(** A doc comment between two fields is recorded as a blank line, and one is written. *)
Definition doc_src : str := text_lines ["struct P {"; "    x: i32,"; "    /// The other."; "    y: i32,"; "}"].
Definition field (doc : option Doc) (n : string) (sp : Span) : FieldDecl string (TypeExpr string) :=
  MkFieldDecl doc Private (ident n) (TypeNamed (ident "i32")) sp.
Definition doc_tree : Ast string :=
  MkAst None [ItemStruct (MkStructDecl None [] Private Affine (ident "P")
    [field None "x" (span 15 21); field (Some (MkDoc "The other."%string (span 27 41))) "y" (span 46 52)] [] (span 0 55))].
Example doc_comment_adds_blank_line :
  plain_comments InCode doc_src = [] ∧ scan doc_src = Done [MkTriviaEntry TriviaBlank 22 24] ∧
  format doc_src doc_tree = Done (text_lines ["struct P {"; "    x: i32,"; ""; "    /// The other."; "    y: i32,"; "}"]).
Proof. by vm_compute. Qed.
(** A reference to a reference is written as the operator of conjunction. *)
Example double_reference_glued :
  emit_expr (S := string) str_of (λ _, []) (λ _, [])
    (ExprUnary (MkUnaryExpr OpRef (ExprUnary (MkUnaryExpr OpRef (ExprIdent (ident "x")) (span 0 0))) (span 0 0)))
    (MkPrinter [] 0 false [] [] 0 [0] 0) = Done ((), MkPrinter (str_of "&&x") 0 false [] [] 0 [0] 0).
Proof. by vm_compute. Qed.
(** A comment above the doc of the module is written below it. *)
Example header_below_module_doc :
  format (text_lines ["// header"; "/// Module."; ""; "fn main() -> i32 { 0 }"])
    (MkAst (Some (MkDoc "Module."%string (span 10 21))) [fn_main [] (ExprInt (MkIntLit 0 (span 42 43))) (span 40 45) (span 23 45)]) =
  Done (text_lines ["/// Module."; ""; "// header"; ""; "fn main() -> i32 {"; "    0"; "}"]).
Proof. by vm_compute. Qed.
(** A comment of four slashes is dropped. *)
Example four_slashes_dropped :
  format (text_lines ["//// note"; "fn main() -> i32 { 0 }"])
    (MkAst None [fn_main [] (ExprInt (MkIntLit 0 (span 29 30))) (span 27 32) (span 10 32)]) =
  Done (text_lines ["fn main() -> i32 {"; "    0"; "}"]).
Proof. by vm_compute. Qed.
(** The blank lines of an empty block are kept, as one. *)
Example empty_block_keeps_blank_line :
  format (text_lines ["fn main() -> i32 {"; ""; "}"])
    (MkAst None [fn_main [] (ExprUnit (MkUnitLit (span 20 20))) (span 17 21) (span 0 21)]) =
  Done (text_lines ["fn main() -> i32 {"; ""; "}"]).
Proof. by vm_compute. Qed.
End FormatExample.
