(* ===== verification/Lexer.v ===== *)
(** * The lexer: literals and doc comments

    Models the callbacks of [crates/gruel-lexer/src/logos_lexer.rs], which read what the rules of
    the logos macro do not: string and char literals, doc comments and the end of [@import]; and
    the errors [tokenize] reports. A callback gets the text after the match ([remainder]) and
    gives the number of bytes it bumps the lexer by, with its result. *)

From Stdlib Require Import Ascii.
From S2P Require Import Prelude Types Air Positions Ast Fmt.

#[local] Open Scope Z_scope.

Inductive LexError : Set :=
  | UnexpectedCharacter | InvalidInteger | InvalidFloat | InvalidStringEscape | UnterminatedString
  | EmptyCharLit | UnterminatedCharLit | MultiCharLit | InvalidCharEscape | InvalidUnicodeEscape.

(** The characters of the escapes. *)
Definition ch (a : ascii) : Z := Z.of_N (N_of_ascii a).
Arguments ch a%_char_scope.
Definition CR : Z := 13.
Definition string_escape (c : Z) : option Z :=
  if c =? BACKSLASH then Some BACKSLASH
  else if c =? QUOTE then Some QUOTE
  else if c =? ch "n" then Some NL
  else if c =? ch "t" then Some 9
  else if c =? ch "r" then Some CR
  else if c =? ch "0" then Some 0
  else None.

(** ** [process_string_from_quote] *)
Fixpoint string_loop (chars : str) (consumed : Z) (result : str) : Z * (LexError + str) :=
  match chars with
  | [] => (consumed, inl UnterminatedString)
  | c :: chars =>
      if c =? QUOTE then (consumed + 1, inr result)
      else if c =? BACKSLASH then
        let consumed := consumed + len_utf8 c in
        match chars with
        | [] => (consumed, inl UnterminatedString)
        | e :: chars =>
            match string_escape e with
            | Some x => string_loop chars (consumed + 1) (result ++ [x])
            | None => (consumed + len_utf8 e, inl InvalidStringEscape)
            end
        end
      else if c =? NL then (consumed, inl UnterminatedString)
      else string_loop chars (consumed + len_utf8 c) (result ++ [c])
  end.
Definition process_string_from_quote (remainder : str) : Z * (LexError + str) := string_loop remainder 0 [].

(** ** [process_char_from_quote] *)
Definition char_escape (c : Z) : option Z :=
  if c =? ch "n" then Some NL
  else if c =? ch "r" then Some CR
  else if c =? ch "t" then Some 9
  else if c =? BACKSLASH then Some BACKSLASH
  else if c =? TICK then Some TICK
  else if c =? QUOTE then Some QUOTE
  else if c =? ch "0" then Some 0
  else None.
(** [char::is_ascii_hexdigit] and [u32::from_str_radix(_, 16)], which six digits do not overflow. *)
Definition hex_digit (c : Z) : option Z :=
  if (48 <=? c) && (c <=? 57) then Some (c - 48)
  else if (65 <=? c) && (c <=? 70) then Some (c - 55)
  else if (97 <=? c) && (c <=? 102) then Some (c - 87)
  else None.
Definition from_hex (digits : list Z) : Z := fold_left (λ n d, 16 * n + d) digits 0.
(** The digits of [\u{..}] and the closing brace: the bytes read, and the digits with what
    follows; [None] is [InvalidUnicodeEscape]. *)
Fixpoint hex_loop (chars : str) (consumed : Z) (hex : list Z) : Z * option (list Z * str) :=
  match chars with
  | [] => (consumed, None)
  | c :: chars =>
      let consumed := consumed + len_utf8 c in
      if c =? ch "}" then (consumed, match hex with [] => None | _ => Some (hex, chars) end)
      else if (6 <=? length hex)%nat then (consumed, None)
      else match hex_digit c with Some d => hex_loop chars consumed (hex ++ [d]) | None => (consumed, None) end
  end.
(** The body of the literal: the bytes read, and the scalar with what follows, or the error. *)
Definition char_escape_body (chars : str) : Z * (LexError + Z * str) :=
  match chars with
  | [] => (1, inl UnterminatedCharLit)
  | e :: chars =>
      match char_escape e with
      | Some x => (2, inr (x, chars))
      | None =>
          if e =? ch "u" then
            match chars with
            | [] => (2, inl InvalidUnicodeEscape)
            | o :: chars =>
                if o =? ch "{" then
                  match hex_loop chars 3 [] with
                  | (consumed, None) => (consumed, inl InvalidUnicodeEscape)
                  | (consumed, Some (hex, chars)) =>
                      let n := from_hex hex in
                      if ((0xD800 <=? n) && (n <=? 0xDFFF)) || (0x10FFFF <? n) then (consumed, inl InvalidUnicodeEscape)
                      else (consumed, inr (n, chars))
                  end
                else (2, inl InvalidUnicodeEscape)
            end
          else (1, inl InvalidCharEscape)
      end
  end.
Definition char_body (remainder : str) : Z * (LexError + Z * str) :=
  match remainder with
  | [] => (0, inl UnterminatedCharLit)
  | c :: chars =>
      if c =? TICK then (1, inl EmptyCharLit)
      else if (c =? NL) || (c =? CR) then (0, inl UnterminatedCharLit)
      else if c =? BACKSLASH then char_escape_body chars
      else (len_utf8 c, inr (c, chars))
  end.
(** The rest of a literal with several characters: the bytes up to the closing quote or the end
    of the line, and whether the quote is there. *)
Fixpoint rest_of_literal (chars : str) : Z * bool :=
  match chars with
  | [] => (0, false)
  | c :: chars =>
      if (c =? NL) || (c =? CR) then (0, false)
      else if c =? TICK then (len_utf8 c, true)
      else let '(extra, found) := rest_of_literal chars in (len_utf8 c + extra, found)
  end.
Definition process_char_from_quote (remainder : str) : Z * (LexError + Z) :=
  match char_body remainder with
  | (consumed, inl e) => (consumed, inl e)
  | (consumed, inr (scalar, chars)) =>
      match chars with
      | [] => (consumed, inl UnterminatedCharLit)
      | c :: _ =>
          if c =? TICK then (consumed + 1, inr scalar)
          else if (c =? NL) || (c =? CR) then (consumed, inl UnterminatedCharLit)
          else
            let '(extra, found_close) := rest_of_literal chars in
            (consumed + extra, inl (if found_close then MultiCharLit else UnterminatedCharLit))
      end
  end.

(** ** Doc comments and [@import] *)
(** [remainder.find('\n')]. *)
Fixpoint up_to_line_end (s : str) : str :=
  match s with [] => [] | c :: s => if c =? NL then [] else c :: up_to_line_end s end.
Definition process_line_doc (remainder : str) : Z * str :=
  let body := up_to_line_end remainder in
  (str_len body, match body with 32 :: stripped => stripped | _ => body end).
Definition is_ident_char (c : Z) : bool :=
  ((48 <=? c) && (c <=? 57)) || ((65 <=? c) && (c <=? 90)) || ((97 <=? c) && (c <=? 122)) || (c =? 95).
Definition at_import_callback (remainder : str) : bool :=
  match remainder with c :: _ => negb (is_ident_char c) | [] => true end.

(** ** The errors of [tokenize] *)
Inductive LexErrorKind : Set :=
  | KInvalidInteger | KInvalidFloat | KUnexpectedCharacter (c : Z) | KInvalidStringEscape (c : Z) | KUnterminatedString
  | KEmptyCharLit | KUnterminatedCharLit | KMultiCharLit | KInvalidCharEscape | KInvalidUnicodeEscape.
Fixpoint after_backslash (slice : str) : option Z :=
  match slice with
  | [] => None
  | c :: slice => if c =? BACKSLASH then list.head slice else after_backslash slice
  end.
Definition lex_error_kind (e : LexError) (slice : str) : LexErrorKind :=
  match e with
  | InvalidInteger => KInvalidInteger
  | InvalidFloat => KInvalidFloat
  | UnexpectedCharacter => KUnexpectedCharacter (default (ch "?") (list.head slice))
  | InvalidStringEscape => KInvalidStringEscape (default (ch "?") (after_backslash slice))
  | UnterminatedString => KUnterminatedString
  | EmptyCharLit => KEmptyCharLit
  | UnterminatedCharLit => KUnterminatedCharLit
  | MultiCharLit => KMultiCharLit
  | InvalidCharEscape => KInvalidCharEscape
  | InvalidUnicodeEscape => KInvalidUnicodeEscape
  end.
