(* ===== verification/FmtLex.v ===== *)
(** * What the formatter writes, the lexer reads

    String literals, char literals and doc comments in the form [FmtEmit] gives them, read by the
    callbacks of [Lexer]: the value comes back, and the callback stops where the literal ends. *)

From Stdlib Require Import Ascii.
From S2P Require Import Prelude Types Air Positions Ast Fmt FmtEmit FmtWeave Lexer.

#[local] Open Scope Z_scope.

(** ** Literals *)
Definition escaped (s : str) : str := flat_map (escape_with QUOTE) s.
Lemma escape_cases (q c : Z) :
  (∃ e, escape_with q c = [BACKSLASH; e] ∧ (q = QUOTE → string_escape e = Some c) ∧ (q = TICK → char_escape e = Some c) ∧ len_utf8 e = 1) ∨
  (escape_with q c = [c] ∧ c ≠ BACKSLASH ∧ c ≠ q ∧ c ≠ NL ∧ c ≠ CR) ∨ (q ≠ QUOTE ∧ q ≠ TICK).
Proof.
  destruct (decide (q = QUOTE ∨ q = TICK)) as [Hq|Hq]; [|right; right; tauto].
  unfold escape_with.
  destruct (Z.eqb_spec c BACKSLASH) as [->|]; [left; by exists BACKSLASH|].
  destruct (Z.eqb_spec c q) as [->|]; [left; exists q; by destruct Hq as [-> | ->]|].
  destruct (Z.eqb_spec c NL) as [->|]; [left; by exists (ch "n")|].
  destruct (Z.eqb_spec c 9) as [->|]; [left; by exists (ch "t")|].
  destruct (Z.eqb_spec c 13) as [->|]; [left; by exists (ch "r")|].
  destruct (Z.eqb_spec c 0) as [->|]; [left; by exists (ch "0")|]. right; left. done.
Qed.
Lemma string_loop_escaped s rest consumed result :
  string_loop (escaped s ++ QUOTE :: rest) consumed result =
    (consumed + str_len (escaped s ++ [QUOTE]), inr (result ++ s)).
Proof.
  revert consumed result. induction s as [|c s IH]; intros consumed result.
  { cbn. by rewrite app_nil_r. }
  cbn [escaped flat_map]. fold (escaped s). rewrite <-!(assoc_L (++)).
  destruct (escape_cases QUOTE c) as [(e & -> & He & _ & Hl)|[(-> & H1 & H2 & H3 & H4)|[? _]]]; [| |done].
  - cbn [app string_loop]. change (BACKSLASH =? QUOTE) with false. change (BACKSLASH =? BACKSLASH) with true. cbv iota.
    rewrite (He eq_refl), IH, <-(assoc_L (++)). rewrite !str_len_cons, Hl. f_equal. change (len_utf8 BACKSLASH) with 1. lia.
  - cbn [app string_loop]. rewrite !(proj2 (Z.eqb_neq _ _)) by done. rewrite IH, <-(assoc_L (++)), str_len_cons. f_equal. lia.
Qed.
Lemma string_read_back s rest :
  process_string_from_quote (escaped s ++ QUOTE :: rest) = (str_len (escaped s ++ [QUOTE]), inr s).
Proof. unfold process_string_from_quote. by rewrite string_loop_escaped. Qed.
Lemma char_read_back c rest :
  process_char_from_quote (escape_with TICK c ++ TICK :: rest) = (str_len (escape_with TICK c ++ [TICK]), inr c).
Proof.
  destruct (escape_cases TICK c) as [(e & -> & _ & He & Hl)|[(-> & H1 & H2 & H3 & H4)|[_ ?]]]; [| |done].
  - unfold process_char_from_quote. cbn [app char_body]. change (BACKSLASH =? TICK) with false.
    change ((BACKSLASH =? NL) || (BACKSLASH =? CR)) with false. change (BACKSLASH =? BACKSLASH) with true. cbv iota.
    unfold char_escape_body. rewrite (He eq_refl). cbn. rewrite !str_len_cons, Hl. done.
  - unfold process_char_from_quote. cbn [app char_body]. rewrite !(proj2 (Z.eqb_neq _ _)) by done. cbn.
    rewrite !str_len_cons. done.
Qed.

(** ** Doc comments *)
Fixpoint join_lines (l : list str) : str :=
  match l with [] => [] | [a] => a | a :: l => a ++ NL :: join_lines l end.
Lemma join_split cur s : NL ∉ cur → join_lines (split_lines cur s) = cur ++ s ∧ Forall (λ l, NL ∉ l) (split_lines cur s).
Proof.
  revert cur. induction s as [|c s IH]; intros cur Hcur; cbn [split_lines].
  { rewrite app_nil_r. split; [done|by constructor]. }
  destruct (Z.eqb_spec c NL) as [->|Hc].
  - destruct (IH []) as [Hj Hf]; [set_solver|]. split; [|by constructor].
    destruct (split_lines [] s) eqn:Hs; [by destruct s; cbn in Hs; [|case_match]|]. cbn in *. by rewrite Hj.
  - destruct (IH (cur ++ [c])) as [Hj Hf]; [set_solver|]. split; [|done]. by rewrite Hj, <-(assoc_L (++)).
Qed.
(** The text after the slashes. *)
Definition doc_mark (line : str) : str := match line with [] => [] | _ => 32 :: line end.
Lemma line_end_found l rest : NL ∉ l → up_to_line_end (l ++ NL :: rest) = l.
Proof.
  induction l as [|c l IH]; intros Hl; [done|]. apply not_elem_of_cons in Hl as [Hc Hl]. cbn [app up_to_line_end].
  rewrite (proj2 (Z.eqb_neq c NL)) by congruence. by rewrite IH.
Qed.
Lemma doc_line_read_back line rest :
  NL ∉ line → process_line_doc (doc_mark line ++ NL :: rest) = (str_len (doc_mark line), line).
Proof.
  intros Hl. unfold process_line_doc. rewrite line_end_found by (destruct line; set_solver). by destruct line.
Qed.

(** ** What the printer writes *)
Lemma write_plain s p : pr_pending_indent p = false → write_str s p = Done ((), set_out p (pr_out p ++ s) false).
Proof.
  intros Hp. destruct p as [out level pending src tr cur li la]. cbn in Hp. subst.
  destruct s as [|c s]; [unfold set_out; cbn; by rewrite app_nil_r|done].
Qed.
Lemma each_escaped s p :
  pr_pending_indent p = false →
  each (λ c, write_str (escape_with QUOTE c)) s p = Done ((), set_out p (pr_out p ++ escaped s) false).
Proof.
  revert p. induction s as [|c s IH]; intros p Hp.
  { destruct p. cbn in *. subst. unfold set_out. cbn. by rewrite app_nil_r. }
  change (each (λ c, write_str (escape_with QUOTE c)) (c :: s) p) with
    ((write_str (escape_with QUOTE c);; each (λ c, write_str (escape_with QUOTE c)) s) p).
  rewrite (bind_run _ _ _ _ (write_plain (escape_with QUOTE c) p Hp)), IH by done.
  unfold set_out. cbn. by rewrite <-(assoc_L (++)).
Qed.
Section Written.
Context {S : Type} (resolve : S → str) (doc_text : Doc → str).
Lemma string_literal_run lit p :
  ∃ pad, Forall (eq 32) pad ∧ emit_string_literal resolve lit p =
    Done ((), set_out p (pr_out p ++ pad ++ QUOTE :: escaped (resolve (sl_value lit)) ++ [QUOTE]) false).
Proof.
  destruct (write_str_run [QUOTE] p) as (pad & Hw & Hpad); [done|]. exists pad. split; [done|].
  unfold emit_string_literal. rewrite (bind_run _ _ _ _ Hw).
  erewrite bind_run; [|by apply each_escaped]. rewrite write_plain by done.
  unfold set_out. cbn. by rewrite <-!(assoc_L (++)).
Qed.
Lemma char_literal_run lit p :
  is_scalar (cl_value lit) = true →
  ∃ pad, Forall (eq 32) pad ∧ emit_char_literal lit p =
    Done ((), set_out p (pr_out p ++ pad ++ TICK :: escape_with TICK (cl_value lit) ++ [TICK]) false).
Proof.
  intros Hs. destruct (write_str_run [TICK] p) as (pad & Hw & Hpad); [done|]. exists pad. split; [done|].
  unfold emit_char_literal. rewrite Hs, (bind_run _ _ _ _ Hw).
  erewrite bind_run; [|by apply write_plain]. rewrite write_plain by done.
  unfold set_out. cbn. by rewrite <-!(assoc_L (++)).
Qed.
(** One line of a doc comment: the indentation, the slashes and the rest. *)
Definition doc_row (row : str * str) : str := row.1 ++ str_of "///" ++ doc_mark row.2 ++ [NL].
Lemma doc_line_run line p :
  ∃ pad, Forall (eq 32) pad ∧ (match line with [] => write "///" | _ => write "/// ";; write_str line end;; newline) p =
    Done ((), set_out p (pr_out p ++ doc_row (pad, line)) true).
Proof.
  destruct line as [|c line].
  - destruct (write_str_run (str_of "///") p) as (pad & Hw & Hpad); [done|]. exists pad. split; [done|].
    unfold write. rewrite (bind_run _ _ _ _ Hw). unfold newline, modify, set_out, doc_row. cbn. by rewrite <-!(assoc_L (++)).
  - destruct (write_str_run (str_of "/// ") p) as (pad & Hw & Hpad); [done|]. exists pad. split; [done|].
    unfold write. erewrite bind_run; [|rewrite (bind_run _ _ _ _ Hw); by apply write_plain].
    unfold newline, modify, set_out, doc_row. cbn. by rewrite <-!(assoc_L (++)).
Qed.
Lemma doc_run doc p :
  ∃ rows pending, map snd rows = split_lines [] (doc_text doc) ∧ Forall (λ r, Forall (eq 32) r.1) rows ∧
    emit_doc doc_text doc p = Done ((), set_out p (pr_out p ++ flat_map doc_row rows) pending).
Proof.
  unfold emit_doc. generalize (split_lines [] (doc_text doc)) as ls. intros ls. revert p.
  induction ls as [|line ls IH]; intros p.
  { exists [], (pr_pending_indent p). split_and!; [done|constructor|]. destruct p. unfold set_out. cbn. by rewrite app_nil_r. }
  destruct (doc_line_run line p) as (pad & Hpad & Hr).
  destruct (IH (set_out p (pr_out p ++ doc_row (pad, line)) true)) as (rows & pending & Hrows & Hpads & Hrun).
  exists ((pad, line) :: rows), pending. split_and!; [cbn; by rewrite Hrows|by constructor|].
  cbn [each flat_map]. etrans; [exact (bind_run _ _ _ _ Hr)|]. etrans; [exact Hrun|].
  unfold set_out. cbn. by rewrite <-!(assoc_L (++)).
Qed.

(** C21: What the formatter writes for a string literal, a char literal (of a Unicode scalar value)
    and a doc comment, the lexer reads back: after the indentation and the opening mark, the
    callback returns the value that was written and consumes exactly the literal, whatever
    follows it; the lines of a doc comment, joined, are its body. *)
Theorem formatted_literals_read_back slit clit doc p :
  is_scalar (cl_value clit) = true →
  (∃ pad body, Forall (eq 32) pad ∧
    emit_string_literal resolve slit p = Done ((), set_out p (pr_out p ++ pad ++ QUOTE :: body) false) ∧
    ∀ rest, process_string_from_quote (body ++ rest) = (str_len body, inr (resolve (sl_value slit)))) ∧
  (∃ pad body, Forall (eq 32) pad ∧
    emit_char_literal clit p = Done ((), set_out p (pr_out p ++ pad ++ TICK :: body) false) ∧
    ∀ rest, process_char_from_quote (body ++ rest) = (str_len body, inr (cl_value clit))) ∧
  (∃ rows pending, Forall (λ r, Forall (eq 32) r.1) rows ∧
    emit_doc doc_text doc p = Done ((), set_out p (pr_out p ++ flat_map (λ r, r.1 ++ str_of "///" ++ r.2 ++ [NL]) rows) pending) ∧
    ∃ lines, Forall2 (λ r line, ∀ rest, process_line_doc (r.2 ++ NL :: rest) = (str_len r.2, line)) rows lines ∧
      join_lines lines = doc_text doc).
Proof.
  intros Hc. split_and!.
  - destruct (string_literal_run slit p) as (pad & Hpad & Hr). eexists pad, _. split_and!; [done|exact Hr|].
    intros rest. rewrite <-(assoc_L (++)). apply string_read_back.
  - destruct (char_literal_run clit p Hc) as (pad & Hpad & Hr). eexists pad, _. split_and!; [done|exact Hr|].
    intros rest. rewrite <-(assoc_L (++)). apply char_read_back.
  - destruct (doc_run doc p) as (rows & pending & Hrows & Hpads & Hr).
    destruct (join_split [] (doc_text doc)) as [Hj Hn]; [set_solver|]. rewrite <-Hrows in Hj, Hn.
    exists (map (λ r, (r.1, doc_mark r.2)) rows), pending. split_and!.
    + apply Forall_map. exact Hpads.
    + rewrite Hr. by rewrite !flat_map_concat_map, map_map.
    + exists (map snd rows). split; [|exact Hj]. clear -Hn. induction rows as [|r rows IH]; cbn in *; constructor.
      * intros rest. apply doc_line_read_back. by inversion Hn.
      * apply IH. by inversion Hn.
Qed.
End Written.

Module FmtLexExample.
Definition quote_string : StringLit str := MkStringLit [QUOTE; BACKSLASH; NL; 233] (MkSpan 0 0 0).
Definition tick : CharLit := MkCharLit TICK (MkSpan 0 0 0).
Definition two_lines : Doc := MkDoc "" (MkSpan 0 0 0).
Definition at_margin : Printer := MkPrinter [] 1 true [] [] 0 [0] 0.
(** The char literal of a quote, written and read back. *)
Lemma formatted_literals_read_back_witness :
  is_scalar (cl_value tick) = true ∧
  ∃ pad body, emit_char_literal tick at_margin = Done ((), set_out at_margin (pad ++ TICK :: body) false) ∧
    process_char_from_quote (body ++ str_of ";") = (str_len body, inr TICK).
Proof.
  split; [reflexivity|].
  destruct (formatted_literals_read_back (λ s, s) (λ _, str_of "a" ++ [NL] ++ str_of "b") quote_string tick two_lines at_margin eq_refl)
    as (_ & (pad & body & _ & Hr & Hb) & _).
  exists pad, body. split; [exact Hr|apply Hb].
Defined.
Example string_with_escapes :
  emit_string_literal (λ s, s) quote_string at_margin =
    Done ((), set_out at_margin (str_of "    " ++ [QUOTE; BACKSLASH; QUOTE; BACKSLASH; BACKSLASH; BACKSLASH; ch "n"; 233; QUOTE]) false).
Proof. by vm_compute. Qed.
(** An escape the lexer does not know: the error names the first escape of the literal instead. *)
Example wrong_escape_reported :
  process_string_from_quote ([BACKSLASH] ++ str_of "n" ++ [BACKSLASH] ++ str_of "q") = (4, inl InvalidStringEscape) ∧
  lex_error_kind InvalidStringEscape (QUOTE :: [BACKSLASH] ++ str_of "n" ++ [BACKSLASH] ++ str_of "q") = KInvalidStringEscape (ch "n").
Proof. by vm_compute. Qed.
End FmtLexExample.
