(* ===== verification/Signature.v ===== *)
(** * Signature fingerprints

    Models [crates/gruel-cache/src/signature.rs] (what of a file its importers see, as the bytes
    that are hashed into [sig_fp]) and the updates of [Hasher] in [fingerprint.rs]. A hasher is
    the list of the bytes it was given; the hash of that list (BLAKE3, a third-party crate) is a
    parameter, as is the interner, which gives the UTF-8 bytes of a symbol. *)

From S2P Require Import Prelude Types Air Ast.

#[local] Open Scope Z_scope.

Definition bytes8 : Type := list Z.
(** [to_le_bytes], [update_u32], [update_u64] and [update_str]. *)
Fixpoint le_bytes (n : nat) (v : Z) : bytes8 :=
  match n with O => [] | S n => v mod 256 :: le_bytes n (v / 256) end.
Definition update_u32 (v : Z) : bytes8 := le_bytes 4 v.
Definition update_u64 (v : Z) : bytes8 := le_bytes 8 v.
Definition update_str (s : bytes8) : bytes8 := update_u64 (Z.of_nat (length s)) ++ s.
Definition update_bool (b : bool) : bytes8 := [if b then 1 else 0].
(** A count and the elements. *)
Definition encode_list {A} (f : A → bytes8) (l : list A) : bytes8 := update_u64 (Z.of_nat (length l)) ++ flat_map f l.

Definition SIG_FP_VERSION : Z := 2.
Definition TAG_FN : Z := 1.
Definition TAG_STRUCT : Z := 2.
Definition TAG_ENUM : Z := 3.
Definition TAG_INTERFACE : Z := 4.
Definition TAG_DERIVE : Z := 5.
Definition TAG_CONST : Z := 6.
Definition TAG_LINK_EXTERN : Z := 7.

Definition is_pub (v : Visibility) : bool := match v with Public => true | Private => false end.
Definition encode_param_mode (m : ParamMode) : bytes8 := [match m with ModeNormal => 0 | ModeComptime => 3 end].
Definition encode_self_param (p : SelfParam) : bytes8 :=
  [match sp_kind p with SelfByValue => 0 | SelfMutRef => 1 | SelfRef => 2 end].

Section Encode.
Context {S : Type} (resolve : S → bytes8).
Notation Expr := (Expr S). Notation TypeExpr := (TypeExpr S).
Definition encode_ident (i : Ident S) : bytes8 := update_str (resolve (id_name i)).

Section Structs.
Context (encode_type : TypeExpr → bytes8).
Definition encode_type_opt (ty : option TypeExpr) : bytes8 :=
  match ty with None => [0] | Some t => [1] ++ encode_type t end.
Definition encode_param (p : Param S TypeExpr) : bytes8 :=
  update_bool (pm_is_comptime p) ++ encode_param_mode (pm_mode p) ++ encode_ident (pm_name p) ++ encode_type (pm_ty p).
Definition encode_params (params : list (Param S TypeExpr)) : bytes8 := encode_list encode_param params.
Definition encode_field (f : FieldDecl S TypeExpr) : bytes8 := encode_ident (fd_name f) ++ encode_type (fd_ty f).
Definition encode_anon_field (f : AnonStructField S TypeExpr) : bytes8 := encode_ident (asf_name f) ++ encode_type (asf_ty f).
Definition encode_variant_field (f : EnumVariantField S TypeExpr) : bytes8 := encode_ident (evf_name f) ++ encode_type (evf_ty f).
Definition encode_variant_kind (k : EnumVariantKind S TypeExpr) : bytes8 :=
  match k with
  | VariantUnit => [0]
  | VariantTuple types => [1] ++ encode_list encode_type types
  | VariantStruct fields => [2] ++ encode_list encode_variant_field fields
  end.
Definition encode_variant (v : EnumVariant S TypeExpr) : bytes8 := encode_ident (ev_name v) ++ encode_variant_kind (ev_kind v).
Definition encode_method_sig (m : MethodSig S TypeExpr) : bytes8 :=
  encode_ident (ms_name m) ++ encode_self_param (ms_receiver m) ++ encode_params (ms_params m) ++
  encode_type_opt (ms_return_type m) ++ update_bool (ms_is_unchecked m).
Definition encode_receiver (r : option SelfParam) : bytes8 :=
  match r with None => [0] | Some r => [1] ++ encode_self_param r end.
Definition encode_method_sig_from_method (m : Method S Expr TypeExpr) : bytes8 :=
  encode_ident (me_name m) ++ encode_receiver (me_receiver m) ++ encode_params (me_params m) ++
  encode_type_opt (me_return_type m) ++ update_bool (me_is_unchecked m).
End Structs.

Fixpoint encode_type (ty : TypeExpr) : bytes8 :=
  match ty with
  | TypeNamed ident => [1] ++ encode_ident ident
  | TypeUnit _ => [2]
  | TypeNever _ => [3]
  | TypeArray element length _ => [4] ++ encode_type element ++ update_u64 length
  | TypeAnonymousStruct _ _ fields methods _ =>
      [5] ++ encode_list (encode_anon_field encode_type) fields ++
      encode_list (encode_method_sig_from_method encode_type) methods
  | TypeAnonymousEnum _ _ variants methods _ =>
      [6] ++ encode_list (encode_variant encode_type) variants ++
      encode_list (encode_method_sig_from_method encode_type) methods
  | TypeAnonymousInterface methods _ => [7] ++ encode_list (encode_method_sig encode_type) methods
  | TypeCall callee args _ => [8] ++ encode_ident callee ++ encode_list encode_type args
  | TypeTuple elems _ => [9] ++ encode_list encode_type elems
  end.

Definition pub_methods (methods : list (Method S Expr TypeExpr)) := filter (λ m, is_pub (me_visibility m) = true) methods.
Definition encode_function (f : Function S Expr TypeExpr) : bytes8 :=
  [TAG_FN] ++ encode_ident (fn_name f) ++ update_bool (fn_is_unchecked f) ++ encode_params encode_type (fn_params f) ++
  encode_type_opt encode_type (fn_return_type f).
Definition encode_struct (s : StructDecl S Expr TypeExpr) : bytes8 :=
  [TAG_STRUCT] ++ encode_ident (Ast.sd_name s) ++
  encode_list (encode_field encode_type) (filter (λ f, is_pub (fd_visibility f) = true) (Ast.sd_fields s)) ++
  encode_list (encode_method_sig_from_method encode_type) (pub_methods (Ast.sd_methods s)).
Definition encode_enum (e : EnumDecl S Expr TypeExpr) : bytes8 :=
  [TAG_ENUM] ++ encode_ident (Ast.ed_name e) ++ encode_list (encode_variant encode_type) (Ast.ed_variants e) ++
  encode_list (encode_method_sig_from_method encode_type) (pub_methods (Ast.ed_methods e)).
Definition encode_interface (i : InterfaceDecl S TypeExpr) : bytes8 :=
  [TAG_INTERFACE] ++ encode_ident (if_name i) ++ encode_list (encode_method_sig encode_type) (if_methods i).
Definition encode_derive (d : DeriveDecl S Expr TypeExpr) : bytes8 :=
  [TAG_DERIVE] ++ encode_ident (de_name d) ++ encode_list (encode_method_sig_from_method encode_type) (de_methods d).
Definition encode_const (c : ConstDecl S Expr TypeExpr) : bytes8 :=
  [TAG_CONST] ++ encode_ident (cd_name c) ++ encode_type_opt encode_type (cd_ty c).
Definition encode_link_extern (b : LinkExternBlock S TypeExpr) : bytes8 :=
  [TAG_LINK_EXTERN] ++ resolve (sl_value (lb_library b)) ++ [0] ++
  flat_map (λ f, encode_ident (xf_name f) ++ encode_params encode_type (xf_params f) ++
                 encode_type_opt encode_type (xf_return_type f)) (lb_items b).
Definition encode_item (i : Item S Expr TypeExpr) : bytes8 :=
  match i with
  | ItemFunction f => encode_function f
  | ItemStruct s => encode_struct s
  | ItemEnum e => encode_enum e
  | ItemInterface i => encode_interface i
  | ItemDerive d => encode_derive d
  | ItemConst c => encode_const c
  | ItemLinkExtern b => encode_link_extern b
  | ItemError _ => []
  end.

(** The name under which [compute_sig_fp] collects an item, if it does. *)
Definition pub_name (i : Item S Expr TypeExpr) : option bytes8 :=
  match i with
  | ItemFunction f => if is_pub (fn_visibility f) then Some (resolve (id_name (fn_name f))) else None
  | ItemStruct s => if is_pub (Ast.sd_visibility s) then Some (resolve (id_name (Ast.sd_name s))) else None
  | ItemEnum e => if is_pub (Ast.ed_visibility e) then Some (resolve (id_name (Ast.ed_name e))) else None
  | ItemInterface i => Some (resolve (id_name (if_name i)))
  | ItemConst c => if is_pub (cd_visibility c) then Some (resolve (id_name (cd_name c))) else None
  | ItemDerive d => Some (resolve (id_name (de_name d)))
  | ItemLinkExtern _ | ItemError _ => None
  end.
Definition pub_items (ast : Ast S) : list (bytes8 * Item S Expr TypeExpr) :=
  omap (λ i, (λ n, (n, i)) <$> pub_name i) (ast_items ast).
End Encode.

(** [sort_by] on the names: a stable sort by the order of [String], that of the bytes. *)
Fixpoint bytes_le (a b : bytes8) : bool :=
  match a, b with
  | [], _ => true
  | _ :: _, [] => false
  | x :: a, y :: b => (x <? y) || ((x =? y) && bytes_le a b)
  end.
Fixpoint insert_by_name {A} (x : bytes8 * A) (l : list (bytes8 * A)) : list (bytes8 * A) :=
  match l with [] => [x] | y :: l' => if bytes_le x.1 y.1 then x :: l else y :: insert_by_name x l' end.
Definition sort_by_name {A} (l : list (bytes8 * A)) : list (bytes8 * A) := foldr insert_by_name [] l.

(** [compute_sig_fp]: what is hashed, and the hash. *)
Definition sig_input {S} (resolve : S → bytes8) (ast : Ast S) : bytes8 :=
  update_u32 SIG_FP_VERSION ++ encode_list (λ i, encode_item resolve i.2) (sort_by_name (pub_items resolve ast)).
Definition compute_sig_fp {S K} (blake3 : bytes8 → K) (resolve : S → bytes8) (ast : Ast S) : K := blake3 (sig_input resolve ast).
