(* ===== verification/SignatureThm.v ===== *)
(** * The fingerprint determines the interface, and nothing else

    The interface of a file: its public items in the order of their names, with symbols replaced
    by their texts, and without bodies, private members, docs, directives and positions. Two files
    give the hash the same bytes exactly if they have the same interface, whatever the interners
    their symbols come from: the encoding is free of prefixes, part by part. *)

From S2P Require Import Prelude Types Air Ast Signature.

#[local] Open Scope Z_scope.

(** ** Interfaces *)
Definition no_span : Span := MkSpan 0 0 0.
Section Erase.
Context {S : Type} (resolve : S → bytes8).
Notation TypeExpr := (TypeExpr S). Notation Expr := (Expr S).
Definition erase_ident (i : Ident S) : Ident bytes8 := MkIdent (resolve (id_name i)) no_span.
Definition erase_self (p : SelfParam) : SelfParam := MkSelfParam (sp_kind p) no_span.
Section Structs.
Context (et : TypeExpr → Ast.TypeExpr bytes8).
Definition erase_param (p : Param S TypeExpr) : Param bytes8 (Ast.TypeExpr bytes8) :=
  MkParam (pm_is_comptime p) (pm_mode p) (erase_ident (pm_name p)) (et (pm_ty p)) no_span.
Definition erase_field (f : FieldDecl S TypeExpr) : FieldDecl bytes8 (Ast.TypeExpr bytes8) :=
  MkFieldDecl None Public (erase_ident (fd_name f)) (et (fd_ty f)) no_span.
Definition erase_anon_field (f : AnonStructField S TypeExpr) : AnonStructField bytes8 (Ast.TypeExpr bytes8) :=
  MkAnonStructField None (erase_ident (asf_name f)) (et (asf_ty f)) no_span.
Definition erase_variant_field (f : EnumVariantField S TypeExpr) : EnumVariantField bytes8 (Ast.TypeExpr bytes8) :=
  MkEnumVariantField None Private (erase_ident (evf_name f)) (et (evf_ty f)) no_span.
Definition erase_variant_kind (k : EnumVariantKind S TypeExpr) : EnumVariantKind bytes8 (Ast.TypeExpr bytes8) :=
  match k with
  | VariantUnit => VariantUnit
  | VariantTuple types => VariantTuple (map et types)
  | VariantStruct fields => VariantStruct (map erase_variant_field fields)
  end.
Definition erase_variant (v : EnumVariant S TypeExpr) : EnumVariant bytes8 (Ast.TypeExpr bytes8) :=
  MkEnumVariant None (erase_ident (ev_name v)) (erase_variant_kind (ev_kind v)) no_span.
Definition erase_method_sig (m : MethodSig S TypeExpr) : MethodSig bytes8 (Ast.TypeExpr bytes8) :=
  MkMethodSig None [] (ms_is_unchecked m) (erase_ident (ms_name m)) (erase_self (ms_receiver m))
    (map erase_param (ms_params m)) (option_map et (ms_return_type m)) no_span.
Definition erase_method (m : Method S Expr TypeExpr) : Method bytes8 (Ast.Expr bytes8) (Ast.TypeExpr bytes8) :=
  MkMethod None [] Public (me_is_unchecked m) (erase_ident (me_name m)) (option_map erase_self (me_receiver m))
    (map erase_param (me_params m)) (option_map et (me_return_type m)) (ExprUnit (MkUnitLit no_span)) no_span.
End Structs.
Fixpoint erase_type (t : TypeExpr) : Ast.TypeExpr bytes8 :=
  match t with
  | TypeNamed i => TypeNamed (erase_ident i)
  | TypeUnit _ => TypeUnit no_span
  | TypeNever _ => TypeNever no_span
  | TypeArray element length _ => TypeArray (erase_type element) (wrap 64 length) no_span
  | TypeAnonymousStruct _ _ fields methods _ =>
      TypeAnonymousStruct [] Copy (map (erase_anon_field erase_type) fields) (map (erase_method erase_type) methods) no_span
  | TypeAnonymousEnum _ _ variants methods _ =>
      TypeAnonymousEnum [] Copy (map (erase_variant erase_type) variants) (map (erase_method erase_type) methods) no_span
  | TypeAnonymousInterface methods _ => TypeAnonymousInterface (map (erase_method_sig erase_type) methods) no_span
  | TypeCall callee args _ => TypeCall (erase_ident callee) (map erase_type args) no_span
  | TypeTuple elems _ => TypeTuple (map erase_type elems) no_span
  end.
Definition erase_item (i : Item S Expr TypeExpr) : Item bytes8 (Ast.Expr bytes8) (Ast.TypeExpr bytes8) :=
  match i with
  | ItemFunction f =>
      ItemFunction (MkFunction None [] Public (fn_is_unchecked f) (erase_ident (fn_name f))
        (map (erase_param erase_type) (fn_params f)) (option_map erase_type (fn_return_type f))
        (ExprUnit (MkUnitLit no_span)) no_span)
  | ItemStruct s =>
      ItemStruct (MkStructDecl None [] Public Copy (erase_ident (Ast.sd_name s))
        (map (erase_field erase_type) (filter (λ f, is_pub (fd_visibility f) = true) (Ast.sd_fields s)))
        (map (erase_method erase_type) (pub_methods (Ast.sd_methods s))) no_span)
  | ItemEnum e =>
      ItemEnum (MkEnumDecl None [] Public Copy (erase_ident (Ast.ed_name e))
        (map (erase_variant erase_type) (Ast.ed_variants e)) (map (erase_method erase_type) (pub_methods (Ast.ed_methods e))) no_span)
  | ItemInterface i =>
      ItemInterface (MkInterfaceDecl None [] Public (erase_ident (if_name i)) (map (erase_method_sig erase_type) (if_methods i)) no_span)
  | ItemDerive d => ItemDerive (MkDeriveDecl None (erase_ident (de_name d)) (map (erase_method erase_type) (de_methods d)) no_span)
  | ItemConst c =>
      ItemConst (MkConstDecl None [] Public (erase_ident (cd_name c)) (option_map erase_type (cd_ty c)) (ExprUnit (MkUnitLit no_span)) no_span)
  | ItemLinkExtern _ | ItemError _ => ItemError no_span
  end.
(** The interface of a file. *)
Definition interface (ast : Ast S) : list (Item bytes8 (Ast.Expr bytes8) (Ast.TypeExpr bytes8)) :=
  map (λ i, erase_item i.2) (sort_by_name (pub_items resolve ast)).
End Erase.

(** ** Encodings without prefixes *)
Definition small (s : bytes8) : Prop := Z.of_nat (length s) < 2 ^ 64.
Lemma small_r a b : small (a ++ b) → small b.
Proof. unfold small. rewrite length_app. lia. Qed.
Lemma small_l a b : small (a ++ b) → small a.
Proof. unfold small. rewrite length_app. lia. Qed.

(** The code of [x] tells [x], up to [er], from every [y], and where it ends. *)
Definition det {A A' B} (enc : A → bytes8) (enc' : A' → bytes8) (er : A → B) (er' : A' → B) (x : A) : Prop :=
  ∀ y r r', small (enc x ++ r) → enc x ++ r = enc' y ++ r' → er x = er' y ∧ r = r'.

Lemma le_bytes_length n v : length (le_bytes n v) = n.
Proof. revert v. induction n; intros; simpl; auto. Qed.
Lemma le_bytes_inj n v w r r' :
  le_bytes n v ++ r = le_bytes n w ++ r' → v mod 256 ^ Z.of_nat n = w mod 256 ^ Z.of_nat n ∧ r = r'.
Proof.
  revert v w. induction n as [|n IH]; intros v w; cbn [le_bytes app]; [intros ->; by rewrite !Z.mod_1_r|].
  intros [= Hb [Hm ->]%IH]. split; [|done]. rewrite Nat2Z.inj_succ, Z.pow_succ_r by lia.
  rewrite !Z.rem_mul_r by lia. congruence.
Qed.
Lemma u64_inj v w r r' :
  update_u64 v ++ r = update_u64 w ++ r' → wrap 64 v = wrap 64 w ∧ r = r'.
Proof. exact (le_bytes_inj 8 v w r r'). Qed.
Lemma small_nat n : Z.of_nat n < 2 ^ 64 → wrap 64 (Z.of_nat n) = Z.of_nat n.
Proof. intros. apply wrap_small. unfold in_u. lia. Qed.
(** Counts agree, if there are no more elements than bytes. *)
Lemma count_inj (n n' : nat) s s' :
  small (update_u64 (Z.of_nat n) ++ s) → update_u64 (Z.of_nat n) ++ s = update_u64 (Z.of_nat n') ++ s' →
  (n ≤ length s)%nat → (n' ≤ length s')%nat → n = n' ∧ s = s'.
Proof.
  intros Hs H Hn Hn'. apply u64_inj in H as [Hw ->]. apply small_r in Hs. unfold small in Hs.
  rewrite !small_nat in Hw by lia. split; [lia|done].
Qed.

Lemma det_str x : det update_str update_str id id x.
Proof.
  intros y r r' Hs H. unfold update_str in *. rewrite <-!(assoc_L (++)) in *.
  apply count_inj in H as [Hl H]; [|done|rewrite length_app; lia..]. by apply app_inj_1 in H.
Qed.
Lemma det_bool b : det update_bool update_bool id id b.
Proof. intros b' r r' _ H. destruct b, b'; cbn in H; by simplify_eq. Qed.
Lemma det_mode m : det encode_param_mode encode_param_mode id id m.
Proof. intros m' r r' _ H. destruct m, m'; cbn in H; by simplify_eq. Qed.
Lemma det_self p : det encode_self_param encode_self_param erase_self erase_self p.
Proof.
  intros p' r r' _ H. destruct p as [k sp], p' as [k' sp']. unfold encode_self_param, erase_self in *. simpl in *.
  destruct k, k'; by simplify_eq.
Qed.
Lemma det_u64 v : det update_u64 update_u64 (wrap 64) (wrap 64) v.
Proof. intros w r r' _ H. by apply u64_inj. Qed.

Definition nonempty {A} (f : A → bytes8) : Prop := ∀ x, f x ≠ [].
Lemma flat_map_length {A} (f : A → bytes8) l : nonempty f → (length l ≤ length (flat_map f l))%nat.
Proof.
  intros Hf. induction l as [|x l IH]; simpl; [lia|]. rewrite length_app. specialize (Hf x). destruct (f x); [done|]. simpl. lia.
Qed.
#[universes(polymorphic)]
Lemma det_list@{s;u +} {A A' B} (f : A → bytes8) (f' : A' → bytes8) (er : A → B) er' (PA : A → Type@{s;u}) l :
  nonempty f → nonempty f' → list_all PA l → (∀ x, PA x → det f f' er er' x) →
  det (encode_list f) (encode_list f') (map er) (map er') l.
Proof.
  intros Hf Hf' Hl Hd l' r r' Hs H. unfold encode_list in *. rewrite <-!(assoc_L (++)) in *.
  apply count_inj in H as [Hn H]; [|done|rewrite length_app; pose proof (flat_map_length f l Hf); lia
    |rewrite length_app; pose proof (flat_map_length f' l' Hf'); lia].
  apply small_r in Hs. clear Hf Hf'. revert l' Hn H Hs. induction Hl as [|x Hx l _ IH]; intros [|y l'] Hn H Hs; try done.
  cbn [flat_map] in *. rewrite <-!(assoc_L (++)) in *. destruct (Hd x Hx y _ _ Hs H) as [He H'].
  destruct (IH l') as [Hm ->]; [by injection Hn|done|by apply small_r in Hs|]. simpl. by rewrite He, Hm.
Qed.
#[universes(polymorphic)]
Lemma det_opt@{s;u +} {S1 S2 B} (f : TypeExpr S1 → bytes8) (f' : TypeExpr S2 → bytes8) (er : TypeExpr S1 → B) er'
    (PA : TypeExpr S1 → Type@{s;u}) o :
  option_all PA o → (∀ x, PA x → det f f' er er' x) → det (encode_type_opt f) (encode_type_opt f') (option_map er) (option_map er') o.
Proof.
  intros Ho Hd o' r r' Hs H. destruct Ho as [x Hx|], o' as [y|]; cbn in H, Hs; try done; [|by simplify_eq].
  injection H as H. apply (small_r [1]) in Hs. destruct (Hd x Hx y _ _ Hs H) as [He ->]. simpl. by rewrite He.
Qed.
Lemma det_receiver o : det encode_receiver encode_receiver (option_map erase_self) (option_map erase_self) o.
Proof.
  intros o' r r' Hs H. destruct o as [p|], o' as [p'|]; cbn in H, Hs; try done; [|by simplify_eq].
  injection H as H ->. apply (small_r [1]) in Hs. destruct (det_self p p' r' r' Hs) as [He _]; [by cbn; rewrite H|]. simpl. by rewrite He.
Qed.

(** ** The structs, over two interners *)
Section Two.
Context {S1 S2 : Type} (r1 : S1 → bytes8) (r2 : S2 → bytes8).
Notation any := (λ _, unit).
Create HintDb det.
Lemma det_ident i : det (encode_ident r1) (encode_ident r2) (erase_ident r1) (erase_ident r2) i.
Proof.
  intros i' r r' Hs H. destruct (det_str _ _ r r' Hs H) as [He ->]. unfold erase_ident. by rewrite (He : r1 _ = r2 _).
Qed.
Hint Resolve det_ident det_bool det_mode det_self det_u64 det_receiver : det.

#[local] Arguments app : simpl never.
#[local] Arguments update_u64 : simpl never.
#[local] Arguments update_str : simpl never.
#[local] Arguments update_bool : simpl never.
#[local] Arguments encode_param_mode : simpl never.
#[local] Arguments encode_self_param : simpl never.
#[local] Arguments encode_receiver : simpl never.
#[local] Arguments encode_ident : simpl never.
#[local] Arguments encode_list : simpl never.
#[local] Arguments encode_type_opt : simpl never.
(** Compare two codes, part by part. *)
Ltac peel :=
  match goal with
  | Hs : small (?f ?x ++ ?r), H : ?f ?x ++ ?r = ?g ?y ++ ?r' |- _ =>
      let D := fresh in let E := fresh in
      eassert (det f g _ _ x) as D by (eauto with det);
      destruct (D y r r' Hs H) as [E ?]; clear D H; apply small_r in Hs; unfold id in E
  end.
Ltac untag :=
  match goal with
  | Hs : small ([?a] ++ ?s), H : [?a] ++ ?s = [?b] ++ ?s' |- _ =>
      first [discriminate H|apply (app_inv_head [a]) in H; apply small_r in Hs]
  end.
Ltac det_parts := rewrite <-?(assoc_L (++)) in *; repeat peel; split; [|done]; congruence.
Ltac det_struct enc er :=
  let y := fresh "y" in
  intros Hall; destruct Hall; intros y r r' Hs H; destruct y; unfold enc, er, encode_params in *; simpl in *; det_parts.

Section Structs.
Context (e1 : TypeExpr S1 → bytes8) (e2 : TypeExpr S2 → bytes8).
Context (t1 : TypeExpr S1 → TypeExpr bytes8) (t2 : TypeExpr S2 → TypeExpr bytes8).
Context (He1 : nonempty e1) (He2 : nonempty e2).
Notation tdet := (det e1 e2 t1 t2).
Lemma det_param x : Param_all any tdet x → det (encode_param r1 e1) (encode_param r2 e2) (erase_param r1 t1) (erase_param r2 t2) x.
Proof. det_struct @encode_param @erase_param. Qed.
Hint Resolve det_param : det.
Lemma nonempty_param {S} (r : S → bytes8) e : nonempty (encode_param r e).
Proof. done. Qed.
Lemma nonempty_ident {S A} (r : S → bytes8) (n : A → Ident S) f : nonempty (λ x, encode_ident r (n x) ++ f x).
Proof. done. Qed.
Lemma det_params l :
  list_all (Param_all any tdet) l →
  det (encode_list (encode_param r1 e1)) (encode_list (encode_param r2 e2)) (map (erase_param r1 t1)) (map (erase_param r2 t2)) l.
Proof. intros Hl. eapply det_list; [apply nonempty_param..|exact Hl|]. eauto with det. Qed.
Lemma det_types l : list_all tdet l → det (encode_list e1) (encode_list e2) (map t1) (map t2) l.
Proof. intros Hl. eapply det_list; [done..|exact Hl|]. auto. Qed.
Lemma det_type_opt o : option_all tdet o → det (encode_type_opt e1) (encode_type_opt e2) (option_map t1) (option_map t2) o.
Proof. intros Ho. eapply det_opt; [exact Ho|]. auto. Qed.
Hint Resolve det_params det_types det_type_opt : det.
Lemma det_field x : FieldDecl_all any tdet x → det (encode_field r1 e1) (encode_field r2 e2) (erase_field r1 t1) (erase_field r2 t2) x.
Proof. det_struct @encode_field @erase_field. Qed.
Lemma det_anon_field x :
  AnonStructField_all any tdet x → det (encode_anon_field r1 e1) (encode_anon_field r2 e2) (erase_anon_field r1 t1) (erase_anon_field r2 t2) x.
Proof. det_struct @encode_anon_field @erase_anon_field. Qed.
Lemma det_variant_field x :
  EnumVariantField_all any tdet x → det (encode_variant_field r1 e1) (encode_variant_field r2 e2) (erase_variant_field r1 t1) (erase_variant_field r2 t2) x.
Proof. det_struct @encode_variant_field @erase_variant_field. Qed.
Lemma det_variant_fields l :
  list_all (EnumVariantField_all any tdet) l →
  det (encode_list (encode_variant_field r1 e1)) (encode_list (encode_variant_field r2 e2))
    (map (erase_variant_field r1 t1)) (map (erase_variant_field r2 t2)) l.
Proof. intros Hl. eapply det_list; [apply nonempty_ident..|exact Hl|]. apply det_variant_field. Qed.
Hint Resolve det_variant_fields : det.
Lemma det_kind k :
  EnumVariantKind_all any tdet k → det (encode_variant_kind r1 e1) (encode_variant_kind r2 e2) (erase_variant_kind r1 t1) (erase_variant_kind r2 t2) k.
Proof.
  intros Hall k' r r' Hs H.
  destruct Hall, k'; simpl in *; rewrite <-?(assoc_L (++)) in *; untag; try peel; (split; [simpl; congruence|done]).
Qed.
Hint Resolve det_kind : det.
Lemma det_variant x : EnumVariant_all any tdet x → det (encode_variant r1 e1) (encode_variant r2 e2) (erase_variant r1 t1) (erase_variant r2 t2) x.
Proof. det_struct @encode_variant @erase_variant. Qed.
Lemma det_method_sig x :
  MethodSig_all any tdet x → det (encode_method_sig r1 e1) (encode_method_sig r2 e2) (erase_method_sig r1 t1) (erase_method_sig r2 t2) x.
Proof. det_struct @encode_method_sig @erase_method_sig. Qed.
#[universes(polymorphic)]
Lemma det_method@{s;u +} (PE : Expr S1 → Type@{s;u}) x :
  Method_all any PE tdet x →
  det (encode_method_sig_from_method r1 e1) (encode_method_sig_from_method r2 e2) (erase_method r1 t1) (erase_method r2 t2) x.
Proof. det_struct @encode_method_sig_from_method @erase_method. Qed.
End Structs.

(** ** Types *)
Lemma nonempty_type {S} (r : S → bytes8) : nonempty (encode_type r).
Proof. intros []; done. Qed.
Notation tdet := (det (encode_type r1) (encode_type r2) (erase_type r1) (erase_type r2)).
#[universes(polymorphic)]
Lemma det_methods@{s;u +} (PE : Expr S1 → Type@{s;u}) l :
  list_all (Method_all any PE tdet) l →
  det (encode_list (encode_method_sig_from_method r1 (encode_type r1))) (encode_list (encode_method_sig_from_method r2 (encode_type r2)))
    (map (erase_method r1 (erase_type r1))) (map (erase_method r2 (erase_type r2))) l.
Proof. intros Hl. eapply det_list; [apply nonempty_ident..|exact Hl|]. intros x. apply det_method; apply nonempty_type. Qed.
Lemma det_method_sigs l :
  list_all (MethodSig_all any tdet) l →
  det (encode_list (encode_method_sig r1 (encode_type r1))) (encode_list (encode_method_sig r2 (encode_type r2)))
    (map (erase_method_sig r1 (erase_type r1))) (map (erase_method_sig r2 (erase_type r2))) l.
Proof. intros Hl. eapply det_list; [apply nonempty_ident..|exact Hl|]. intros x. apply det_method_sig; apply nonempty_type. Qed.
Lemma det_variants l :
  list_all (EnumVariant_all any tdet) l →
  det (encode_list (encode_variant r1 (encode_type r1))) (encode_list (encode_variant r2 (encode_type r2)))
    (map (erase_variant r1 (erase_type r1))) (map (erase_variant r2 (erase_type r2))) l.
Proof. intros Hl. eapply det_list; [apply nonempty_ident..|exact Hl|]. intros x. apply det_variant; apply nonempty_type. Qed.
Lemma det_anon_fields l :
  list_all (AnonStructField_all any tdet) l →
  det (encode_list (encode_anon_field r1 (encode_type r1))) (encode_list (encode_anon_field r2 (encode_type r2)))
    (map (erase_anon_field r1 (erase_type r1))) (map (erase_anon_field r2 (erase_type r2))) l.
Proof. intros Hl. eapply det_list; [apply nonempty_ident..|exact Hl|]. intros x. apply det_anon_field. Qed.
Lemma det_args l : list_all tdet l →
  det (encode_list (encode_type r1)) (encode_list (encode_type r2)) (map (erase_type r1)) (map (erase_type r2)) l.
Proof. apply det_types; apply nonempty_type. Qed.
Hint Resolve det_methods det_method_sigs det_variants det_anon_fields det_args : det.
Lemma det_type t : tdet t.
Proof.
  apply (@TypeExpr_mind S1 (λ _, True) (λ _, True) tdet); try done; intros; intros y r r' Hs Heq; destruct y; simpl in *;
    rewrite <-?(assoc_L (++)) in *; untag; repeat peel; (split; [congruence|done]).
Qed.
Hint Resolve det_type : det.

(** ** Items *)
Lemma all_params (l : list (Param S1 (TypeExpr S1))) : list_all (Param_all any tdet) l.
Proof. apply list_all_forall. intros. apply Param_all_forall; [exact (λ _, tt)|exact det_type]. Qed.
Lemma all_methods (l : list (Method S1 (Expr S1) (TypeExpr S1))) : list_all (Method_all any (λ _, True) tdet) l.
Proof. apply list_all_forall. intros. apply Method_all_forall; [exact (λ _, tt)|done|exact det_type]. Qed.
Lemma all_method_sigs (l : list (MethodSig S1 (TypeExpr S1))) : list_all (MethodSig_all any tdet) l.
Proof. apply list_all_forall. intros. apply MethodSig_all_forall; [exact (λ _, tt)|exact det_type]. Qed.
Lemma all_variants (l : list (EnumVariant S1 (TypeExpr S1))) : list_all (EnumVariant_all any tdet) l.
Proof. apply list_all_forall. intros. apply EnumVariant_all_forall; [exact (λ _, tt)|exact det_type]. Qed.
Lemma all_fields (l : list (FieldDecl S1 (TypeExpr S1))) : list_all (FieldDecl_all any tdet) l.
Proof. apply list_all_forall. intros. apply FieldDecl_all_forall; [exact (λ _, tt)|exact det_type]. Qed.
Lemma all_opt o : option_all tdet o.
Proof. apply option_all_forall. exact det_type. Qed.
Lemma det_params' l :
  det (encode_list (encode_param r1 (encode_type r1))) (encode_list (encode_param r2 (encode_type r2)))
    (map (erase_param r1 (erase_type r1))) (map (erase_param r2 (erase_type r2))) l.
Proof. apply det_params; [apply nonempty_type..|apply all_params]. Qed.
Lemma det_fields l :
  det (encode_list (encode_field r1 (encode_type r1))) (encode_list (encode_field r2 (encode_type r2)))
    (map (erase_field r1 (erase_type r1))) (map (erase_field r2 (erase_type r2))) l.
Proof. eapply det_list; [apply nonempty_ident..|apply all_fields|]. intros x. apply det_field. Qed.
Lemma det_ret o : det (encode_type_opt (encode_type r1)) (encode_type_opt (encode_type r2)) (option_map (erase_type r1)) (option_map (erase_type r2)) o.
Proof. apply det_type_opt; [apply nonempty_type..|apply all_opt]. Qed.
Hint Resolve all_methods all_method_sigs all_variants det_params' det_fields det_ret : det.

(** The items that are collected. *)
Definition listed {S} (i : Item S (Expr S) (TypeExpr S)) : bool :=
  match i with ItemLinkExtern _ | ItemError _ => false | _ => true end.
Lemma det_item x y r r' :
  listed x = true → listed y = true → small (encode_item r1 x ++ r) → encode_item r1 x ++ r = encode_item r2 y ++ r' →
  erase_item r1 x = erase_item r2 y ∧ r = r'.
Proof.
  intros Hx Hy Hs H. destruct x, y; try discriminate; simpl in *;
    unfold encode_function, encode_struct, encode_enum, encode_interface, encode_derive, encode_const, encode_params in *;
    rewrite <-?(assoc_L (++)) in *; untag; repeat peel; (split; [congruence|done]).
Qed.

(** The list of items. *)
Lemma listed_nonempty {S} (r : S → bytes8) i : listed i = true → encode_item r i ≠ [].
Proof. by destruct i. Qed.
Lemma listed_length {S A} (r : S → bytes8) (l : list (A * Item S (Expr S) (TypeExpr S))) :
  Forall (λ i, listed i.2 = true) l → (length l ≤ length (flat_map (λ i, encode_item r i.2) l))%nat.
Proof.
  induction 1 as [|i l Hi _ IH]; cbn [flat_map length]; [lia|]. rewrite length_app.
  pose proof (listed_nonempty r _ Hi) as Hne. destruct (encode_item r i.2); [done|]. cbn [length]. lia.
Qed.
Lemma det_items l1 l2 r r' :
  Forall (λ i : bytes8 * _, listed i.2 = true) l1 → Forall (λ i : bytes8 * _, listed i.2 = true) l2 →
  small (encode_list (λ i, encode_item r1 i.2) l1 ++ r) →
  encode_list (λ i, encode_item r1 i.2) l1 ++ r = encode_list (λ i, encode_item r2 i.2) l2 ++ r' →
  map (λ i, erase_item r1 i.2) l1 = map (λ i, erase_item r2 i.2) l2.
Proof.
  intros Hl1 Hl2 Hs H. unfold encode_list in *. rewrite <-!(assoc_L (++)) in *.
  apply count_inj in H as [Hn H]; [|done|rewrite length_app; pose proof (listed_length r1 l1 Hl1); lia
    |rewrite length_app; pose proof (listed_length r2 l2 Hl2); lia].
  apply small_r in Hs. revert l2 Hl2 Hn H Hs. induction Hl1 as [|x l1 Hx _ IH]; intros [|y l2] Hl2 Hn H Hs; try done.
  apply list.Forall_cons in Hl2 as [Hy Hl2]. cbn [flat_map] in *. rewrite <-!(assoc_L (++)) in *.
  destruct (det_item _ _ _ _ Hx Hy Hs H) as [He H'].
  cbn [map]. rewrite He. f_equal. apply IH; [done|by injection Hn|done|by apply small_r in Hs].
Qed.
End Two.
Lemma insert_Forall {A} (P : bytes8 * A → Prop) x l : P x → Forall P l → Forall P (insert_by_name x l).
Proof.
  intros Hx. induction 1 as [|y l Hy Hl IH]; simpl; [by constructor|]. destruct (bytes_le _ _); by repeat constructor.
Qed.
Lemma sort_Forall {A} (P : bytes8 * A → Prop) l : Forall P l → Forall P (sort_by_name l).
Proof. induction 1; [constructor|by apply insert_Forall]. Qed.
Lemma pub_items_listed {S} (r : S → bytes8) ast : Forall (λ i, listed i.2 = true) (sort_by_name (pub_items r ast)).
Proof.
  apply sort_Forall, list.Forall_forall. intros [n i] (x & _ & (n' & Hn & [= <- <-])%fmap_Some)%list_elem_of_omap. by destruct i.
Qed.
Lemma sig_input_tells {S1 S2} (r1 : S1 → bytes8) (r2 : S2 → bytes8) a1 a2 :
  small (sig_input r1 a1) → sig_input r1 a1 = sig_input r2 a2 → interface r1 a1 = interface r2 a2.
Proof.
  unfold sig_input. intros Hs H. apply app_inv_head in H. apply small_r in Hs.
  apply (det_items r1 r2 _ _ [] []); [apply pub_items_listed..|by rewrite app_nil_r|by rewrite !app_nil_r].
Qed.

(** ** The code depends on the interface only *)
Lemma le_bytes_wrap n v : le_bytes n (v mod 256 ^ Z.of_nat n) = le_bytes n v.
Proof.
  revert v. induction n as [|n IH]; intros v; [done|]. cbn [le_bytes]. rewrite Nat2Z.inj_succ, Z.pow_succ_r by lia.
  rewrite Z.rem_mul_r by lia. f_equal.
  - rewrite Z.mul_comm, Z_mod_plus_full. by rewrite Z.mod_mod by lia.
  - rewrite <-IH, <-(IH (v / 256)). f_equal. rewrite Z.mul_comm, Z_div_plus_full by lia.
    rewrite (Z.div_small (v mod 256)) by (apply Z.mod_pos_bound; lia). by rewrite Z.add_0_l, Z.mod_mod by lia.
Qed.
Lemma u64_wrap v : update_u64 (wrap 64 v) = update_u64 v.
Proof. exact (le_bytes_wrap 8 v). Qed.
#[universes(polymorphic)]
Lemma list_factor@{s;u +} {A B} (f : A → bytes8) (g : B → bytes8) (h : A → B) (PA : A → Type@{s;u}) l :
  list_all PA l → (∀ x, PA x → g (h x) = f x) → encode_list g (map h l) = encode_list f l.
Proof.
  intros Hl Hf. unfold encode_list. rewrite length_map. f_equal.
  induction Hl as [|x Hx l _ IH]; [done|]. cbn. by rewrite Hf, IH.
Qed.
Lemma app_eq (a a' b b' : bytes8) : a = a' → b = b' → a ++ b = a' ++ b'.
Proof. by intros -> ->. Qed.
Section Factor.
Context {S : Type} (r : S → bytes8).
Notation any := (λ _, unit).
#[local] Arguments app : simpl never.
#[local] Arguments update_u64 : simpl never.
#[local] Arguments update_str : simpl never.
#[local] Arguments update_bool : simpl never.
#[local] Arguments encode_param_mode : simpl never.
#[local] Arguments encode_self_param : simpl never.
#[local] Arguments encode_receiver : simpl never.
#[local] Arguments encode_ident : simpl never.
#[local] Arguments encode_list : simpl never.
#[local] Arguments encode_type_opt : simpl never.
#[local] Arguments encode_params : simpl never.
Section Structs.
Context (e : TypeExpr S → bytes8) (e' : TypeExpr bytes8 → bytes8) (t : TypeExpr S → TypeExpr bytes8).
Notation fits := (λ x, e' (t x) = e x).
Lemma factor_params l :
  list_all (Param_all any fits) l → encode_params id e' (map (erase_param r t) l) = encode_params r e l.
Proof. intros Hl. eapply list_factor; [exact Hl|]. intros ? []. repeat (apply app_eq; [done|]). assumption. Qed.
Lemma factor_ret o : option_all fits o → encode_type_opt e' (option_map t o) = encode_type_opt e o.
Proof. intros [x Hx|]; [|done]. by apply app_eq. Qed.
Lemma factor_receiver o : encode_receiver (option_map erase_self o) = encode_receiver o.
Proof. by destruct o as [[]|]. Qed.
Lemma factor_field x : FieldDecl_all any fits x → encode_field id e' (erase_field r t x) = encode_field r e x.
Proof. intros []. by apply app_eq. Qed.
Lemma factor_anon_field x :
  AnonStructField_all any fits x → encode_anon_field id e' (erase_anon_field r t x) = encode_anon_field r e x.
Proof. intros []. by apply app_eq. Qed.
Lemma factor_variant_field x :
  EnumVariantField_all any fits x → encode_variant_field id e' (erase_variant_field r t x) = encode_variant_field r e x.
Proof. intros []. by apply app_eq. Qed.
Lemma factor_variant_kind k :
  EnumVariantKind_all any fits k → encode_variant_kind id e' (erase_variant_kind r t k) = encode_variant_kind r e k.
Proof.
  intros [|l Hl|l Hl]; [done| |]; (apply app_eq; [done|]); (eapply list_factor; [exact Hl|]); [done|exact factor_variant_field].
Qed.
Lemma factor_variant x : EnumVariant_all any fits x → encode_variant id e' (erase_variant r t x) = encode_variant r e x.
Proof.
  intros [doc name Hn kind Hk span]. apply app_eq; [done|by apply factor_variant_kind].
Qed.
Lemma factor_method_sig x :
  MethodSig_all any fits x → encode_method_sig id e' (erase_method_sig r t x) = encode_method_sig r e x.
Proof.
  intros []. unfold encode_method_sig, erase_method_sig. simpl.
  by rewrite factor_params, factor_ret.
Qed.
#[universes(polymorphic)]
Lemma factor_method@{s;u +} (PE : Expr S → Type@{s;u}) x :
  Method_all any PE fits x → encode_method_sig_from_method id e' (erase_method r t x) = encode_method_sig_from_method r e x.
Proof.
  intros []. unfold encode_method_sig_from_method, erase_method. simpl.
  by rewrite factor_params, factor_ret, factor_receiver.
Qed.
End Structs.
Notation fits := (λ x, encode_type id (erase_type r x) = encode_type r x).
Lemma factor_type t : fits t.
Proof.
  apply (@TypeExpr_mind S (λ _, True) (λ _, True) fits); try done; intros; cbn [erase_type encode_type].
  - rewrite u64_wrap. congruence.
  - apply app_eq; [done|]. apply app_eq; eapply list_factor; try eassumption; intros x Hx; [by apply factor_anon_field|by eapply factor_method].
  - apply app_eq; [done|]. apply app_eq; eapply list_factor; try eassumption; intros x Hx; [by apply factor_variant|by eapply factor_method].
  - apply app_eq; [done|]. eapply list_factor; [eassumption|]. intros x Hx. by apply factor_method_sig.
  - do 2 (apply app_eq; [done|]). eapply list_factor; [eassumption|]. auto.
  - apply app_eq; [done|]. eapply list_factor; [eassumption|]. auto.
Qed.
Lemma all_erased {A B} (p : B → Visibility) (h : A → B) l :
  (∀ x, p (h x) = Public) → filter (λ y, is_pub (p y) = true) (map h l) = map h l.
Proof. intros Hp. induction l as [|x l IH]; [done|]. cbn [map]. rewrite filter_cons_True by (by rewrite Hp). by rewrite IH. Qed.
Lemma factor_methods l :
  encode_list (encode_method_sig_from_method id (encode_type id)) (map (erase_method r (erase_type r)) l) =
  encode_list (encode_method_sig_from_method r (encode_type r)) l.
Proof.
  eapply (list_factor _ _ _ (Method_all any (λ _, True) fits)).
  - apply list_all_forall. intros. apply Method_all_forall; [exact (λ _, tt)|done|exact factor_type].
  - intros x. apply factor_method.
Qed.
Lemma factor_item i : listed i = true → encode_item id (erase_item r i) = encode_item r i.
Proof.
  destruct i as [f|s|e|i|d|c|b|]; try done; intros _; cbn [erase_item encode_item];
    unfold encode_function, encode_struct, encode_enum, encode_interface, encode_derive, encode_const, pub_methods; simpl;
    rewrite ?all_erased, ?factor_methods by done.
  - rewrite (factor_params (encode_type r)), (factor_ret (encode_type r)); [done|..].
    + apply option_all_forall. exact factor_type.
    + apply list_all_forall. intros. apply Param_all_forall; [exact (λ _, tt)|exact factor_type].
  - do 2 (apply app_eq; [done|]). apply app_eq; [|done]. eapply (list_factor _ _ _ (FieldDecl_all any fits)); [|intros x; apply factor_field].
    apply list_all_forall. intros. apply FieldDecl_all_forall; [exact (λ _, tt)|exact factor_type].
  - do 2 (apply app_eq; [done|]). apply app_eq; [|done]. eapply (list_factor _ _ _ (EnumVariant_all any fits)); [|intros x; apply factor_variant].
    apply list_all_forall. intros. apply EnumVariant_all_forall; [exact (λ _, tt)|exact factor_type].
  - do 2 (apply app_eq; [done|]). eapply (list_factor _ _ _ (MethodSig_all any fits)); [|intros x; apply factor_method_sig].
    apply list_all_forall. intros. apply MethodSig_all_forall; [exact (λ _, tt)|exact factor_type].
  - done.
  - rewrite (factor_ret (encode_type r)); [done|]. apply option_all_forall. exact factor_type.
Qed.
Lemma sig_input_factor ast :
  sig_input r ast = update_u32 SIG_FP_VERSION ++ encode_list (encode_item id) (interface r ast).
Proof.
  unfold sig_input, interface, encode_list. rewrite length_map. do 2 f_equal.
  pose proof (pub_items_listed r ast) as Hl. induction Hl as [|i l Hi _ IH]; [done|]. cbn. by rewrite IH, factor_item.
Qed.
End Factor.


(** ** Two versions of a file *)
Module SignatureExample.
Definition id_at (n : nat) (pos : Z) : Ident nat := MkIdent n (MkSpan 0 pos (pos + 1)).
Definition names (n : nat) : bytes8 := match n with O => [102] | 1%nat => [120] | 2%nat => [105; 51; 50] | _ => [103] end.
Definition names' (n : nat) : bytes8 := match n with O => [105; 51; 50] | 1%nat => [102] | 2%nat => [103] | _ => [120] end.
Definition fn_of (v : Visibility) (f x t : nat) (pos : Z) (body : Expr nat) : Item nat (Expr nat) (TypeExpr nat) :=
  ItemFunction (MkFunction None [] v false (id_at f pos)
    [MkParam false ModeNormal (id_at x (pos + 2)) (TypeNamed (id_at t (pos + 4))) no_span]
    (Some (TypeNamed (id_at t (pos + 9)))) body (MkSpan 0 pos (pos + 20))).
(** [pub fn f(x: i32) -> i32 { x }] and a private function [g]. *)
Definition before : Ast nat :=
  MkAst None [fn_of Private 3 1 2 0 (ExprUnit (MkUnitLit no_span)); fn_of Public 0 1 2 30 (ExprIdent (id_at 1 48))].
(** Another body for [f], no [g], and another interner. *)
Definition after : Ast nat := MkAst None [fn_of Public 1 3 0 0 (ExprUnit (MkUnitLit no_span))].
(** [f] now takes and gives [g], a different type. *)
Definition changed : Ast nat := MkAst None [fn_of Public 1 3 2 0 (ExprUnit (MkUnitLit no_span))].


(** A change of posture of a public struct (from [linear] to [copy]) is not seen. *)
Definition pub_struct (p : Posture) : Ast nat := MkAst None [ItemStruct (MkStructDecl None [] Public p (id_at 0 0) [] [] no_span)].
Example posture_not_hashed : sig_input names (pub_struct Copy) = sig_input names (pub_struct Linear).
Proof. reflexivity. Qed.
(** A private interface is. *)
Example private_interface_hashed :
  sig_input names (MkAst None [ItemInterface (MkInterfaceDecl None [] Private (id_at 0 0) [] no_span)]) ≠ sig_input names (MkAst None []).
Proof. by vm_compute. Qed.
(** Declarations of external functions are not. *)
Lemma link_extern_not_collected {S} (resolve : S → bytes8) doc items b :
  sig_input resolve (MkAst doc (ItemLinkExtern b :: items)) = sig_input resolve (MkAst doc items).
Proof. reflexivity. Qed.
End SignatureExample.
