(* ===== verification/Generate.v ===== *)
(** * Constraint generation

    Models [crates/gruel-air/src/inference/generate.rs]: the walk over the RIR of a function body
    that gives every expression an inference type, allocates type variables and collects the
    constraints for the solver of [Unify]; with the table of built-in type constructors
    ([crates/gruel-builtins/src/lib.rs]) and [InferenceContext]
    ([crates/gruel-air/src/sema/inference_ctx.rs]). The generator and the mutable part of its
    [ConstraintContext] are one state; the interner (a third-party crate) is two parameters. *)

From S2P Require Import Prelude Types AirPattern Air InternPool ParamArena Scope Infer Rir TypeSyntax Intrinsics.

#[local] Open Scope Z_scope.

(** ** Built-in type constructors *)
Inductive BuiltinTypeConstructorKind : Set := KPtr | KMutPtr | KRef | KMutRef | KSlice | KMutSlice | KVec.
Record BuiltinTypeConstructor : Type := MkConstructor { bc_name : string; bc_arity : nat; bc_kind : BuiltinTypeConstructorKind }.
Definition BUILTIN_TYPE_CONSTRUCTORS : list BuiltinTypeConstructor :=
  [MkConstructor "Ptr" 1 KPtr; MkConstructor "MutPtr" 1 KMutPtr; MkConstructor "Ref" 1 KRef; MkConstructor "MutRef" 1 KMutRef;
   MkConstructor "Slice" 1 KSlice; MkConstructor "MutSlice" 1 KMutSlice; MkConstructor "Vec" 1 KVec].
Definition get_builtin_type_constructor (name : string) : option BuiltinTypeConstructor :=
  snd <$> list_find (λ c, bc_name c = name) BUILTIN_TYPE_CONSTRUCTORS.
Definition is_reserved_type_constructor_name (name : string) : bool :=
  existsb (λ c, String.eqb (bc_name c) name) BUILTIN_TYPE_CONSTRUCTORS.

(** The primitive names of [resolve_type_name], and those of the type arguments of a call. *)
Definition primitive_names : list (string * Ty) :=
  [("i8", Ty.I8); ("i16", Ty.I16); ("i32", Ty.I32); ("i64", Ty.I64); ("u8", Ty.U8); ("u16", Ty.U16); ("u32", Ty.U32);
   ("u64", Ty.U64); ("isize", Ty.ISIZE); ("usize", Ty.USIZE); ("f16", Ty.F16); ("f32", Ty.F32); ("f64", Ty.F64);
   ("bool", Ty.BOOL); ("()", Ty.UNIT); ("c_schar", Ty.C_SCHAR); ("c_short", Ty.C_SHORT); ("c_int", Ty.C_INT);
   ("c_long", Ty.C_LONG); ("c_longlong", Ty.C_LONGLONG); ("c_uchar", Ty.C_UCHAR); ("c_ushort", Ty.C_USHORT);
   ("c_uint", Ty.C_UINT); ("c_ulong", Ty.C_ULONG); ("c_ulonglong", Ty.C_ULONGLONG); ("c_float", Ty.C_FLOAT);
   ("c_double", Ty.C_DOUBLE); ("c_void", Ty.C_VOID)]%string.
Definition type_argument_names : list (string * Ty) :=
  [("i8", Ty.I8); ("i16", Ty.I16); ("i32", Ty.I32); ("i64", Ty.I64); ("isize", Ty.ISIZE); ("u8", Ty.U8); ("u16", Ty.U16);
   ("u32", Ty.U32); ("u64", Ty.U64); ("usize", Ty.USIZE); ("f16", Ty.F16); ("f32", Ty.F32); ("f64", Ty.F64);
   ("bool", Ty.BOOL); ("char", Ty.CHAR); ("()", Ty.UNIT)]%string.
Definition assoc {A} (l : list (string * A)) (name : string) : option A := snd <$> (snd <$> list_find (λ e, e.1 = name) l).

(** [rfind] of a separator: what is before and after its last occurrence. *)
Fixpoint rsplit (sep s : text) : option (text * text) :=
  match s with
  | [] => None
  | c :: s' =>
      match rsplit sep s' with
      | Some (a, b) => Some (c :: a, b)
      | None => (λ b, ([], b)) <$> strip_prefix sep s
      end
  end.
Definition split_mangled (mangled : text) : option (text * text) :=
  match rsplit (text_of "::") mangled with Some r => Some r | None => rsplit (text_of ".") mangled end.

(** ** Data *)
Record LocalVarInfo : Set := MkLocalVar { lvi_ty : InferType; lvi_is_mut : bool; lvi_span : Span }.
Record ParamVarInfo : Set := MkParamVar { pvi_ty : InferType; pvi_mode : RirParamMode }.
Record ExprInfo : Set := MkInfo { ei_ty : InferType; ei_span : Span }.
Record MethodSig : Set := MkMethodSig {
  msg_struct_type : Ty; msg_has_self : bool; msg_param_types : list InferType; msg_return_type : InferType }.
Definition is_never_type (ty : InferType) : bool := bool_decide (ty = Concrete Ty.NEVER).

Section Generator.
Context {Spur : Type} `{Countable Spur} `{!SpurKey Spur}.
Notation Rir := (Rir Spur). Notation RirPattern := (RirPattern Spur).
Notation TypeInternPool := (TypeInternPool (Spur := Spur)).

Record FunctionSig : Type := MkFnSig {
  fsg_param_types : list InferType; fsg_return_type : InferType; fsg_is_generic : bool;
  fsg_param_modes : list RirParamMode; fsg_param_comptime : list bool; fsg_param_names : list Spur;
  fsg_return_type_sym : Spur }.
Record InferenceContext : Type := MkInferCtx {
  func_sigs : gmap Spur FunctionSig; struct_types : gmap Spur Ty; enum_types : gmap Spur Ty;
  method_sigs : gmap (Z * Spur) MethodSig; enum_method_sigs : gmap (Z * Spur) MethodSig }.

(** The mutable part of [ConstraintContext], and [ConstraintGenerator]. *)
Record ConstraintContext : Type := MkCtx {
  gc_scopes : ScopedContext (Spur := Spur) (V := LocalVarInfo); gc_loop_depth : Z }.
Record ConstraintGenerator : Type := MkGen {
  g_type_vars : TypeVarAllocator; g_constraints : list Constraint; g_expr_types : gmap Z InferType;
  g_int_literal_vars : list nat; g_float_literal_vars : list nat; g_type_pool : TypeInternPool;
  g_ctx : ConstraintContext }.
Notation M := (ST ConstraintGenerator).

Definition new_ctx : ConstraintContext := MkCtx (MkScoped ∅ []) 0.
Definition new_generator (pool : TypeInternPool) : ConstraintGenerator := MkGen new_allocator [] ∅ [] [] pool new_ctx.

(** ** The state *)
Definition gen_fresh_var : M nat := λ g,
  '(v, n) ← fresh_var (g_type_vars g);
  Done (v, MkGen n (g_constraints g) (g_expr_types g) (g_int_literal_vars g) (g_float_literal_vars g) (g_type_pool g) (g_ctx g)).
Definition fresh_type : M InferType := v ← gen_fresh_var; mret (Var v).
Definition add_constraint (c : Constraint) : M () := modify (λ g,
  MkGen (g_type_vars g) (g_constraints g ++ [c]) (g_expr_types g) (g_int_literal_vars g) (g_float_literal_vars g) (g_type_pool g) (g_ctx g)).
Definition record_type (inst_ref : InstRef) (ty : InferType) : M () := modify (λ g,
  MkGen (g_type_vars g) (g_constraints g) (<[inst_ref := ty]> (g_expr_types g)) (g_int_literal_vars g) (g_float_literal_vars g)
    (g_type_pool g) (g_ctx g)).
Definition push_int_literal_var (v : nat) : M () := modify (λ g,
  MkGen (g_type_vars g) (g_constraints g) (g_expr_types g) (g_int_literal_vars g ++ [v]) (g_float_literal_vars g) (g_type_pool g) (g_ctx g)).
Definition push_float_literal_var (v : nat) : M () := modify (λ g,
  MkGen (g_type_vars g) (g_constraints g) (g_expr_types g) (g_int_literal_vars g) (g_float_literal_vars g ++ [v]) (g_type_pool g) (g_ctx g)).
Definition set_ctx (f : ConstraintContext → ConstraintContext) : M () := modify (λ g,
  MkGen (g_type_vars g) (g_constraints g) (g_expr_types g) (g_int_literal_vars g) (g_float_literal_vars g) (g_type_pool g) (f (g_ctx g))).
Definition set_gen_scopes (f : ScopedContext → ScopedContext) : M () := set_ctx (λ c, MkCtx (f (gc_scopes c)) (gc_loop_depth c)).
Definition get_local (name : Spur) : M (option LocalVarInfo) := gets (λ g, locals (gc_scopes (g_ctx g)) !! name).
(** [ctx.loop_depth += 1] and [-= 1], which panic on overflow. *)
Definition step_loop_depth (f : Z → outcome Z) : M () := λ g,
  d ← f (gc_loop_depth (g_ctx g)); set_ctx (λ c, MkCtx (gc_scopes c) d) g.
Definition enter_loop : M () := step_loop_depth (λ d, checked_add 32 d 1).
Definition leave_loop : M () := step_loop_depth (λ d, checked_sub 32 d 1).
(** Queries of the pool, and interning. *)
Definition pool_get {A} (f : TypeInternPool → outcome A) : M A := λ g, a ← f (g_type_pool g); Done (a, g).
Definition pool_intern (f : TypeInternPool → outcome (Z * TypeInternPool)) : M Z := λ g,
  '(i, p) ← f (g_type_pool g);
  Done (i, MkGen (g_type_vars g) (g_constraints g) (g_expr_types g) (g_int_literal_vars g) (g_float_literal_vars g) p (g_ctx g)).
Definition kind_of (ty : Ty) : M TypeKind := lift_st (kind ty).

(** [for .. in ..], and loops that collect what they push. *)
Definition iterM {A} (f : A → M ()) : list A → M () :=
  fix go l := match l with [] => mret () | x :: l => f x;; go l end.
Definition collectM {A B} (f : A → M B) : list A → M (list B) :=
  fix go l := match l with [] => mret [] | x :: l => y ← f x; ys ← go l; mret (y :: ys) end.
Definition gatherM {A B} (f : nat → A → M (list B)) : nat → list A → M (list B) :=
  fix go i l := match l with [] => mret [] | x :: l => y ← f i x; ys ← go (S i) l; mret (y ++ ys) end.
End Generator.
Arguments ConstraintGenerator Spur {_ _}.
Arguments FunctionSig Spur : clear implicits.
Arguments InferenceContext Spur {_ _}.

Section Generate.
Context {Spur : Type} `{Countable Spur} `{!SpurKey Spur}.
Notation Rir := (Rir Spur). Notation RirPattern := (RirPattern Spur).
Notation TypeInternPool := (TypeInternPool (Spur := Spur)).
Notation M := (ST (ConstraintGenerator Spur)).
Notation Added := (list (Spur * option LocalVarInfo)).
(** The interner, the file, the tables, the substitution for [Self] and type parameters, and the
    fixed part of the context. *)
Context (resolve : Spur → string) (interner_get : string → option Spur).
Context (rir : Rir) (infer_ctx : InferenceContext Spur) (type_subst : option (gmap Spur Ty)).
Context (params : gmap Spur ParamVarInfo) (return_type : Ty).
Notation structs := (struct_types infer_ctx).
Notation enums := (enum_types infer_ctx).

Definition get_text (name : text) : option Spur := interner_get (String.string_of_list_ascii name).
Definition subst_type (name : Spur) : option Ty := subst ← type_subst; subst !! name.

(** ** Types *)
(** [type_to_infer], and its original [Sema::type_to_infer_type]. *)
Fixpoint type_to_infer_at (fuel : nat) (p : TypeInternPool) (ty : Ty) : outcome InferType :=
  match fuel with
  | O => NoFuel
  | S fuel =>
      k ← kind ty;
      match k with
      | TypeKind.Array array_id =>
          '(element_type, length) ← array_def p array_id;
          element_infer ← type_to_infer_at fuel p element_type;
          mret (Array element_infer length)
      | TypeKind.ComptimeInt => mret IntLiteral
      | _ => mret (Concrete ty)
      end
  end.
(** An array is interned after its element type, so that a type nests no deeper than the pool is
    long. *)
Definition type_to_infer (p : TypeInternPool) (ty : Ty) : outcome InferType := type_to_infer_at (S (S (length (InternPool.types p)))) p ty.

Definition auto_deref (ty : InferType) : M InferType :=
  match ty with
  | Concrete t =>
      k ← kind_of t;
      match k with
      | TypeKind.Ref id => r ← pool_get (λ p, ref_def p id); mret (Concrete r)
      | TypeKind.MutRef id => r ← pool_get (λ p, mut_ref_def p id); mret (Concrete r)
      | _ => mret ty
      end
  | _ => mret ty
  end.

(** The referent of a [Ref(T)] or [MutRef(T)]. *)
Definition referent (t : Ty) : M (option Ty) :=
  k ← kind_of t;
  match k with
  | TypeKind.Ref id => r ← pool_get (λ p, ref_def p id); mret (Some r)
  | TypeKind.MutRef id => r ← pool_get (λ p, mut_ref_def p id); mret (Some r)
  | _ => mret None
  end.
Definition relax_ref_param_for_implicit_forwarding (arg_ref : InstRef) (param_ty : InferType) : M (option InferType) :=
  match param_ty with
  | Concrete param_concrete =>
      inner ← referent param_concrete;
      match inner with
      | None => mret None
      | Some inner_ty =>
          inst ← lift_st (rir_get rir arg_ref);
          match ri_data inst with
          | RVarRef name =>
              match params !! name with
              | None => mret None
              | Some p =>
                  match pvi_mode p with
                  | ParamRef | ParamMutRef =>
                      inner_infer ← pool_get (λ pool, type_to_infer pool inner_ty);
                      mret (if decide (pvi_ty p = inner_infer) then Some inner_infer else None)
                  | _ => mret None
                  end
              end
          | _ => mret None
          end
      end
  | _ => mret None
  end.

Definition construct_type (k : BuiltinTypeConstructorKind) (arg_ty : Ty) : M Ty :=
  match k with
  | KPtr => id ← pool_intern (λ p, intern_ptr_const_from_type p arg_ty); mret (new_ptr_const id)
  | KMutPtr => id ← pool_intern (λ p, intern_ptr_mut_from_type p arg_ty); mret (new_ptr_mut id)
  | KRef => id ← pool_intern (λ p, intern_ref_from_type p arg_ty); mret (new_ref id)
  | KMutRef => id ← pool_intern (λ p, intern_mut_ref_from_type p arg_ty); mret (new_mut_ref id)
  | KSlice => id ← pool_intern (λ p, intern_slice_from_type p arg_ty); mret (new_slice id)
  | KMutSlice => id ← pool_intern (λ p, intern_mut_slice_from_type p arg_ty); mret (new_mut_slice id)
  | KVec => id ← pool_intern (λ p, intern_vec_from_type p arg_ty); mret (new_vec id)
  end.

(** The constructor a type text applies, with its arguments, if their number is right. *)
Definition constructor_call (name : text) : option (BuiltinTypeConstructor * list text) :=
  '(callee_name, arg_strs) ← parse_type_call_syntax name;
  constructor ← get_builtin_type_constructor (String.string_of_list_ascii callee_name);
  if decide (length arg_strs = bc_arity constructor) then Some (constructor, arg_strs) else None.
(** [let arg_infer = ..?; let arg_ty = match arg_infer { Concrete(ty) => ty, _ => return None }]. *)
Definition with_concrete (arg : M (option InferType)) (k : Ty → M Ty) : M (option InferType) :=
  arg_infer ← arg;
  match arg_infer with
  | Some (Concrete arg_ty) => ty ← k arg_ty; mret (Some (Concrete ty))
  | _ => mret None
  end.
Definition array_of (element : M (option InferType)) (length : Z) : M (option InferType) :=
  element_ty ← element; mret ((λ e, Array e length) <$> element_ty).
Definition named_type (name : text) : option InferType :=
  match assoc primitive_names (String.string_of_list_ascii name) with
  | Some ty => Some (Concrete ty)
  | None =>
      name_spur ← get_text name;
      match structs !! name_spur with
      | Some struct_ty => Some (Concrete struct_ty)
      | None => Concrete <$> enums !! name_spur
      end
  end.
Fixpoint resolve_type_name_at (fuel : nat) (name : text) : M (option InferType) :=
  match fuel with
  | O => lift_st NoFuel
  | S fuel =>
      match (name_spur ← get_text name; subst_type name_spur) with
      | Some ty => mret (Some (Concrete ty))
      | None =>
          match parse_array_type_syntax name with
          | Some (element_type_str, length) => array_of (resolve_type_name_at fuel element_type_str) length
          | None =>
              match constructor_call name with
              | Some (constructor, arg_strs) =>
                  arg ← lift_st (expect (arg_strs !! 0%nat));
                  with_concrete (resolve_type_name_at fuel arg) (construct_type (bc_kind constructor))
              | None =>
                  match parse_pointer_type_syntax name with
                  | Some (pointee_type_str, mutability) =>
                      with_concrete (resolve_type_name_at fuel pointee_type_str)
                        (construct_type (match mutability with PtrMut => KMutPtr | PtrConst => KPtr end))
                  | None => mret (named_type name)
                  end
              end
          end
      end
  end.
(** The texts of the parts of a type are shorter than its text. *)
Definition resolve_type_name (name : text) : M (option InferType) := resolve_type_name_at (S (length name)) name.
Fixpoint resolve_type_with_local_subst_at (fuel : nat) (name : text) (local_subst : gmap Spur Ty) : M (option InferType) :=
  match fuel with
  | O => lift_st NoFuel
  | S fuel =>
      match (name_spur ← get_text name; local_subst !! name_spur) with
      | Some ty => mret (Some (Concrete ty))
      | None =>
          match parse_array_type_syntax name with
          | Some (element_type_str, length) => array_of (resolve_type_with_local_subst_at fuel element_type_str local_subst) length
          | None =>
              match constructor_call name with
              | Some (constructor, arg_strs) =>
                  arg ← lift_st (expect (arg_strs !! 0%nat));
                  with_concrete (resolve_type_with_local_subst_at fuel arg local_subst) (construct_type (bc_kind constructor))
              | None => resolve_type_name name
              end
          end
      end
  end.
Definition resolve_type_with_local_subst (name : text) (local_subst : gmap Spur Ty) : M (option InferType) :=
  resolve_type_with_local_subst_at (S (length name)) name local_subst.

(** ** Patterns *)
Definition pattern_type (pattern : RirPattern) : M InferType :=
  match pattern with
  | RInt _ _ => mret IntLiteral
  | RBool _ _ => mret (Concrete Ty.BOOL)
  | RPath _ type_name _ _ | RDataVariant _ type_name _ _ _ | RStructVariant _ type_name _ _ _ =>
      match enums !! type_name with Some enum_ty => mret (Concrete enum_ty) | None => fresh_type end
  | RWildcard _ | RIdent _ _ _ | RTuple _ _ _ | RStruct _ _ _ _ _ | RComptimeUnrollArm _ _ _ => fresh_type
  end.

(** [ctx.locals.insert] and the entry for [added_bindings]. *)
Definition bind_local (name : Spur) (info : LocalVarInfo) : M Added :=
  old ← get_local name;
  set_gen_scopes (λ c, MkScoped (<[name := info]> (locals c)) (scope_stack c));;
  mret [(name, old)].
Definition register_binding (collect : RirPattern → InferType → M Added) (binding : RirPatternBinding Spur RirPattern)
    (field_ty : InferType) (span : Span) : M Added :=
  match pb_sub_pattern binding with
  | Some sub => collect sub field_ty
  | None =>
      if pb_is_wildcard binding then mret [] else
      match pb_name binding with
      | Some name => bind_local name (MkLocalVar field_ty (pb_is_mut binding) span)
      | None => mret []
      end
  end.
Definition enum_id_of (type_name : Spur) : option Z := enums !! type_name ≫= as_enum.
Definition variant_index (type_name variant : Spur) : M (option nat) :=
  match enum_id_of type_name with
  | None => mret None
  | Some enum_id => def ← pool_get (λ p, enum_def p enum_id); mret (find_variant def (resolve variant))
  end.
Definition resolve_variant_index (pattern : RirPattern) : M (option nat) :=
  match pattern with
  | RDataVariant _ type_name variant _ _ | RStructVariant _ type_name variant _ _ | RPath _ type_name variant _ =>
      variant_index type_name variant
  | _ => mret None
  end.
Definition fresh_for {A} (l : list A) : M (list InferType) := collectM (λ _, fresh_type) l.
(** [field_tys.get(i).cloned().unwrap_or_else(..)]. *)
Definition type_at (field_tys : list InferType) (i : nat) : M InferType :=
  match field_tys !! i with Some ty => mret ty | None => fresh_type end.
Definition concrete_struct (ty : InferType) : option Z := match ty with Concrete t => as_struct t | _ => None end.
Definition enum_variant_at (enum_id : Z) (variant_idx : nat) : M EnumVariantDef :=
  def ← pool_get (λ p, enum_def p enum_id); lift_st (expect (ed_variants def !! variant_idx)).
Definition tuple_field_types {A} (scr_ty : InferType) (elems : list A) : M (list InferType) :=
  match concrete_struct scr_ty with
  | Some struct_id => def ← pool_get (λ p, struct_def p struct_id); mret (map (λ f, Concrete (sf_ty f)) (sd_fields def))
  | None => fresh_for elems
  end.
Definition struct_field_type (scr_ty : InferType) (field_name : Spur) : M InferType :=
  match concrete_struct scr_ty with
  | Some sid =>
      def ← pool_get (λ p, struct_def p sid);
      match find_field def (resolve field_name) with Some (_, sf) => mret (Concrete (sf_ty sf)) | None => fresh_type end
  | None => fresh_type
  end.
Definition variant_field_types {A} (type_name : Spur) (pattern : RirPattern) (bindings : list A) : M (list InferType) :=
  match enum_id_of type_name with
  | None => fresh_for bindings
  | Some eid =>
      variant_idx ← resolve_variant_index pattern;
      match variant_idx with
      | Some variant_idx => v ← enum_variant_at eid variant_idx; mret (map Concrete (ev_fields v))
      | None => fresh_for bindings
      end
  end.
Definition variant_field_type (type_name : Spur) (pattern : RirPattern) (field_name : Spur) : M InferType :=
  match enum_id_of type_name with
  | None => fresh_type
  | Some eid =>
      variant_idx ← resolve_variant_index pattern;
      match variant_idx with
      | Some variant_idx =>
          v ← enum_variant_at eid variant_idx;
          match variant_find_field v (resolve field_name) with
          | Some idx => ty ← lift_st (expect (ev_fields v !! idx)); mret (Concrete ty)
          | None => fresh_type
          end
      | None => fresh_type
      end
  end.
Fixpoint collect_recursive_pattern_bindings (pattern : RirPattern) (scr_ty : InferType) : M Added :=
  match pattern with
  | RIdent name is_mut span => bind_local name (MkLocalVar scr_ty is_mut span)
  | RTuple elems _ _ =>
      field_tys ← tuple_field_types scr_ty elems;
      gatherM (λ i elem, elem_ty ← type_at field_tys i; collect_recursive_pattern_bindings elem elem_ty) 0 elems
  | RStruct _ _ fields _ _ =>
      gatherM (λ _ rf, field_ty ← struct_field_type scr_ty (rf_field_name rf);
                       collect_recursive_pattern_bindings (rf_pattern rf) field_ty) 0 fields
  | RDataVariant _ type_name _ bindings span =>
      field_tys ← variant_field_types type_name pattern bindings;
      gatherM (λ i binding, ty ← type_at field_tys i;
                            register_binding collect_recursive_pattern_bindings binding ty span) 0 bindings
  | RStructVariant _ type_name _ field_bindings span =>
      gatherM (λ _ fb, ty ← variant_field_type type_name pattern (sb_field_name fb);
                       register_binding collect_recursive_pattern_bindings (sb_binding fb) ty span) 0 field_bindings
  | _ => mret []
  end.

(** ** Expressions: [generate], with the recursive call a parameter *)
Section Step.
Context (rec : InstRef → M ExprInfo).
Definition visit (inst_ref : InstRef) : M () := _ ← rec inst_ref; mret ().
Definition visit_opt (o : option InstRef) : M () := match o with Some i => visit i | None => mret () end.
Definition visit_all (refs : list InstRef) : M () := iterM visit refs.
Definition visit_args (args : list RirCallArg) : M () := iterM (λ arg, visit (ra_value arg)) args.
(** The type of a name in a table of types, or [ERROR]. *)
Definition known_type (table : gmap Spur Ty) (name : string) : InferType :=
  match (spur ← interner_get name; table !! spur) with Some ty => Concrete ty | None => Concrete Ty.ERROR end.

(** *** Operators *)
Definition generate_binary_arith (lhs rhs : InstRef) : M InferType :=
  lhs_info ← rec lhs; rhs_info ← rec rhs;
  result_ty ← fresh_type;
  lhs_ty ← auto_deref (ei_ty lhs_info);
  add_constraint (CEqual lhs_ty result_ty (ei_span lhs_info));;
  rhs_ty ← auto_deref (ei_ty rhs_info);
  add_constraint (CEqual rhs_ty result_ty (ei_span rhs_info));;
  add_constraint (CIsNumeric result_ty (ei_span lhs_info));;
  mret result_ty.
Definition generate_binary_bitwise (lhs rhs : InstRef) : M InferType :=
  lhs_info ← rec lhs; rhs_info ← rec rhs;
  result_ty ← fresh_type;
  add_constraint (CEqual (ei_ty lhs_info) result_ty (ei_span lhs_info));;
  add_constraint (CEqual (ei_ty rhs_info) result_ty (ei_span rhs_info));;
  add_constraint (CIsInteger result_ty (ei_span lhs_info));;
  mret result_ty.
Definition generate_bin (op : BinOp) (lhs rhs : InstRef) (span : Span) : M InferType :=
  match op with
  | Add | Sub | Mul | Div | Mod => generate_binary_arith lhs rhs
  | BitAnd | BitOr | BitXor | Shl | Shr => generate_binary_bitwise lhs rhs
  | Eq | Ne | Lt | Gt | Le | Ge =>
      lhs_info ← rec lhs; rhs_info ← rec rhs;
      add_constraint (CEqual (ei_ty lhs_info) (ei_ty rhs_info) span);;
      mret (Concrete Ty.BOOL)
  | And | Or =>
      lhs_info ← rec lhs; rhs_info ← rec rhs;
      add_constraint (CEqual (ei_ty lhs_info) (Concrete Ty.BOOL) (ei_span lhs_info));;
      add_constraint (CEqual (ei_ty rhs_info) (Concrete Ty.BOOL) (ei_span rhs_info));;
      mret (Concrete Ty.BOOL)
  end.
Definition generate_unary (op : UnaryOp) (operand : InstRef) (span : Span) : M InferType :=
  operand_info ← rec operand;
  match op with
  | Neg => add_constraint (CIsSigned (ei_ty operand_info) span);; mret (ei_ty operand_info)
  | Not =>
      add_constraint (CEqual (ei_ty operand_info) (Concrete Ty.BOOL) (ei_span operand_info));;
      mret (Concrete Ty.BOOL)
  | BitNot => add_constraint (CIsInteger (ei_ty operand_info) span);; mret (ei_ty operand_info)
  end.

(** *** Variables *)
Definition generate_var_ref (name : Spur) : M InferType :=
  local ← get_local name;
  mret match local with
       | Some local => lvi_ty local
       | None => match params !! name with Some param => pvi_ty param | None => Concrete Ty.ERROR end
       end.
Definition generate_alloc (name : option Spur) (is_mut : bool) (type_annotation : option Spur) (init : InstRef) (span : Span)
    : M InferType :=
  init_info ← rec init;
  var_ty ← match type_annotation with
           | Some ty_sym =>
               annotated ← resolve_type_name (text_of (resolve ty_sym));
               match annotated with
               | Some annotated_ty => add_constraint (CEqual (ei_ty init_info) annotated_ty span);; mret annotated_ty
               | None => mret (ei_ty init_info)
               end
           | None => mret (ei_ty init_info)
           end;
  match name with
  | Some var_name => set_gen_scopes (insert_local var_name (MkLocalVar var_ty is_mut span))
  | None => mret ()
  end;;
  mret (Concrete Ty.UNIT).
Definition bind_destructured (def : StructDef) (span : Span) (field : RirDestructureField (Spur := Spur)) : M () :=
  if df_is_wildcard field then mret () else
  match find_field def (resolve (df_field_name field)) with
  | Some (_, struct_field) =>
      set_gen_scopes (insert_local (default (df_field_name field) (df_binding_name field))
        (MkLocalVar (Concrete (sf_ty struct_field)) (df_is_mut field) span))
  | None => mret ()
  end.
Definition generate_destructure (type_name : Spur) (fields_start fields_len : Z) (init : InstRef) (span : Span) : M InferType :=
  visit init;;
  match structs !! type_name ≫= as_struct with
  | Some struct_id =>
      struct_def ← pool_get (λ p, struct_def p struct_id);
      rir_fields ← lift_st (get_destructure_fields rir fields_start fields_len);
      iterM (bind_destructured struct_def span) rir_fields
  | None => mret ()
  end;;
  mret (Concrete Ty.UNIT).
Definition generate_assign (name : Spur) (value : InstRef) (span : Span) : M InferType :=
  value_info ← rec value;
  local ← get_local name;
  match (match local with Some l => Some (lvi_ty l) | None => pvi_ty <$> params !! name end) with
  | Some ty =>
      target_ty ← auto_deref ty;
      value_ty ← auto_deref (ei_ty value_info);
      add_constraint (CEqual value_ty target_ty span)
  | None => mret ()
  end;;
  mret (Concrete Ty.UNIT).
Definition generate_ret (value : option InstRef) (span : Span) : M InferType :=
  match value with
  | Some val_ref =>
      value_info ← rec val_ref;
      ty ← auto_deref (ei_ty value_info);
      add_constraint (CEqual ty (Concrete return_type) span)
  | None => add_constraint (CEqual (Concrete Ty.UNIT) (Concrete return_type) span)
  end;;
  mret (Concrete Ty.NEVER).

(** *** Calls *)
Definition is_interface_type (ty : InferType) : M bool :=
  match ty with
  | Concrete t => k ← kind_of t; mret (match k with TypeKind.Interface _ => true | _ => false end)
  | _ => mret false
  end.
(** The type a type argument stands for. *)
Definition type_argument (type_name : Spur) : Ty :=
  match subst_type type_name with
  | Some ty => ty
  | None =>
      match structs !! type_name with
      | Some ty => ty
      | None => default Ty.ERROR (assoc type_argument_names (resolve type_name))
      end
  end.
Definition bind_type_param (func : FunctionSig Spur) (i : nat) (ty : Ty) (subst : gmap Spur Ty) : gmap Spur Ty :=
  match fsg_param_names func !! i with Some n => <[n := ty]> subst | None => subst end.
Definition comptime_argument (func : FunctionSig Spur) (i : nat) (arg_ty : InferType) (data : InstData Spur) (subst : gmap Spur Ty)
    : gmap Spur Ty :=
  match data with
  | RVarRef name => match subst_type name with Some forwarded_ty => bind_type_param func i forwarded_ty subst | None => subst end
  | RTypeConst type_name =>
      if decide (arg_ty = Concrete Ty.COMPTIME_TYPE) then bind_type_param func i (type_argument type_name) subst else subst
  | _ => subst
  end.
Definition generic_arguments (func : FunctionSig Spur) : nat → list RirCallArg → gmap Spur Ty → M (gmap Spur Ty) :=
  fix go i args subst :=
    match args with
    | [] => mret subst
    | arg :: args =>
        arg_info ← rec (ra_value arg);
        subst ← (if default false (fsg_param_comptime func !! i) then
                   arg_inst ← lift_st (rir_get rir (ra_value arg));
                   mret (comptime_argument func i (ei_ty arg_info) (ri_data arg_inst) subst)
                 else mret subst);
        go (S i) args subst
    end.
Definition generic_return_type (func : FunctionSig Spur) (subst : gmap Spur Ty) : M InferType :=
  if decide (fsg_return_type func = Concrete Ty.COMPTIME_TYPE) then
    match subst !! fsg_return_type_sym func with
    | Some concrete_ty => mret (Concrete concrete_ty)
    | None =>
        resolved ← resolve_type_with_local_subst (text_of (resolve (fsg_return_type_sym func))) subst;
        mret (default (fsg_return_type func) resolved)
    end
  else mret (fsg_return_type func).
(** One argument against its parameter, in a call of a function or of a mangled method. *)
Definition function_argument (arg : RirCallArg) (param_ty : InferType) : M () :=
  arg_info ← rec (ra_value arg);
  is_iface ← is_interface_type param_ty;
  if is_iface : bool then mret () else
    relaxed ← relax_ref_param_for_implicit_forwarding (ra_value arg) param_ty;
    add_constraint (CEqual (ei_ty arg_info) (default param_ty relaxed) (ei_span arg_info)).
Definition mangled_argument (arg : RirCallArg) (param_ty : InferType) : M () :=
  arg_info ← rec (ra_value arg);
  is_iface ← is_interface_type param_ty;
  if is_iface : bool then mret () else add_constraint (CEqual (ei_ty arg_info) param_ty (ei_span arg_info)).
Definition method_argument (arg : RirCallArg) (param_ty : InferType) : M () :=
  arg_info ← rec (ra_value arg);
  add_constraint (CEqual (ei_ty arg_info) param_ty (ei_span arg_info)).
Definition arguments (f : RirCallArg → InferType → M ()) (args : list RirCallArg) (param_types : list InferType) : M () :=
  iterM (λ a, f a.1 a.2) (zip args param_types).
(** The method a mangled name stands for, through the live pool. *)
Definition mangled_method (name : Spur) : M (option MethodSig) := gets (λ g,
  '(struct_name, method_name) ← split_mangled (text_of (resolve name));
  s ← get_text struct_name;
  interned ← get_struct_by_name (g_type_pool g) s;
  struct_id ← pool_index interned;
  method_sym ← get_text method_name;
  method_sigs infer_ctx !! (struct_id, method_sym)).
Definition generate_call (name : Spur) (args_start args_len : Z) : M InferType :=
  args ← lift_st (rir_get_call_args rir args_start args_len);
  match func_sigs infer_ctx !! name with
  | Some func =>
      if fsg_is_generic func then
        subst ← generic_arguments func 0 args ∅;
        generic_return_type func subst
      else if negb (Nat.eqb (length args) (length (fsg_param_types func))) then
        visit_args args;; mret (fsg_return_type func)
      else arguments function_argument args (fsg_param_types func);; mret (fsg_return_type func)
  | None =>
      method ← mangled_method name;
      match method with
      | Some method =>
          (if negb (Nat.eqb (length args) (length (msg_param_types method))) then visit_args args
           else arguments mangled_argument args (msg_param_types method));;
          mret (msg_return_type method)
      | None => visit_args args;; mret (Concrete Ty.ERROR)
      end
  end.
(** A pointer method returns before its type is recorded: [inl]. *)
Definition pointer_method_type (method : string) (ty pointee : Ty) : Ty :=
  if bool_decide (method = "read" ∨ method = "read_volatile")%string then pointee
  else if bool_decide (method = "write" ∨ method = "write_volatile")%string then Ty.UNIT
  else if bool_decide (method = "offset")%string then ty
  else if bool_decide (method = "is_null")%string then Ty.BOOL
  else if bool_decide (method = "to_int")%string then Ty.U64
  else if bool_decide (method = "copy_from")%string then Ty.UNIT
  else Ty.ERROR.
Definition pointee_of (ty : Ty) : M (option Ty) :=
  k ← kind_of ty;
  match k with
  | TypeKind.PtrConst id => p ← pool_get (λ p, ptr_const_def p id); mret (Some p)
  | TypeKind.PtrMut id => p ← pool_get (λ p, ptr_mut_def p id); mret (Some p)
  | _ => mret None
  end.
Definition call_method (sig : option MethodSig) (args : list RirCallArg) : M InferType :=
  match sig with
  | Some method_sig => arguments method_argument args (msg_param_types method_sig);; mret (msg_return_type method_sig)
  | None => visit_args args;; fresh_type
  end.
Definition generate_method_call (receiver : InstRef) (method : Spur) (args_start args_len : Z) : M (InferType + InferType) :=
  receiver_info ← rec receiver;
  args ← lift_st (rir_get_call_args rir args_start args_len);
  match ei_ty receiver_info with
  | Concrete ty =>
      pointee ← pointee_of ty;
      match pointee with
      | Some pointee => visit_args args;; mret (inl (Concrete (pointer_method_type (resolve method) ty pointee)))
      | None =>
          t ← match as_struct ty with
              | Some struct_id => call_method (method_sigs infer_ctx !! (struct_id, method)) args
              | None =>
                  match as_enum ty with
                  | Some enum_id => call_method (enum_method_sigs infer_ctx !! (enum_id, method)) args
                  | None => visit_args args;; mret (Concrete Ty.ERROR)
                  end
              end;
          mret (inr t)
      end
  | _ => visit_args args;; t ← fresh_type; mret (inr t)
  end.
Definition generate_assoc_fn_call (type_name function : Spur) (args_start args_len : Z) : M InferType :=
  args ← lift_st (rir_get_call_args rir args_start args_len);
  call_method (struct_id ← structs !! type_name ≫= as_struct; method_sigs infer_ctx !! (struct_id, function)) args.

(** *** Intrinsics *)
Definition generate_range (arg_refs : list InstRef) (span : Span) : M InferType :=
  match arg_refs with
  | first_ref :: rest =>
      first ← rec first_ref;
      iterM (λ arg_ref, arg_info ← rec arg_ref; add_constraint (CEqual (ei_ty first) (ei_ty arg_info) span)) rest;;
      mret (ei_ty first)
  | [] => mret (Concrete Ty.ERROR)
  end.
Definition generate_intrinsic (name : Spur) (args_start args_len : Z) (span : Span) : M InferType :=
  arg_refs ← lift_st (get_inst_refs rir args_start args_len);
  match in_id <$> lookup_by_name (resolve name) with
  | Some IdCast => visit_opt (list.head arg_refs);; fresh_type
  | Some IdSyscall => visit_all arg_refs;; mret (Concrete Ty.I64)
  | Some IdPtrToInt => visit_all arg_refs;; mret (Concrete Ty.U64)
  | Some (IdPtrWrite | IdPtrWriteVolatile | IdPtrCopy | IdSliceIndexWrite | IdFieldSet) =>
      visit_all arg_refs;; mret (Concrete Ty.UNIT)
  | Some (IdIsNull | IdSliceIsEmpty) => visit_all arg_refs;; mret (Concrete Ty.BOOL)
  | Some (IdPtrRead | IdPtrReadVolatile | IdPtrOffset | IdRaw | IdRawMut | IdIntToPtr | IdNullPtr | IdField | IdSliceIndexRead
      | IdSlicePtr | IdSlicePtrMut | IdPartsToSlice | IdPartsToMutSlice | IdPtrCast | IdFinalize | IdVariantField
      | IdVariantUninit | IdSpawn | IdThreadJoin) => visit_all arg_refs;; fresh_type
  | Some IdTargetArch => mret (known_type enums "Arch")
  | Some IdTargetOs => mret (known_type enums "Os")
  | Some IdRange => generate_range arg_refs span
  | Some IdSliceLen => visit_all arg_refs;; mret (Concrete Ty.USIZE)
  | Some IdEmbedFile =>
      visit_all arg_refs;; id ← pool_intern (λ p, intern_slice_from_type p Ty.U8); mret (Concrete (new_slice id))
  | Some (IdPanic | IdCompileError) => visit_all arg_refs;; mret (Concrete Ty.NEVER)
  | Some IdCStrToVec =>
      visit_all arg_refs;; id ← pool_intern (λ p, intern_vec_from_type p Ty.U8); mret (Concrete (new_vec id))
  | _ => visit_all arg_refs;; mret (Concrete Ty.UNIT)
  end.
Definition generate_type_intrinsic (name : Spur) : M InferType :=
  match in_id <$> lookup_by_name (resolve name) with
  | Some IdTypeName => mret (Concrete Ty.COMPTIME_STR)
  | Some (IdTypeInfo | IdUninit) => fresh_type
  | Some (IdSizeOf | IdAlignOf) => mret (Concrete Ty.USIZE)
  | Some IdOwnership => mret (known_type enums "Ownership")
  | Some IdThreadSafety => mret (known_type enums "ThreadSafety")
  | _ => mret (Concrete Ty.I32)
  end.
Definition type_interface_intrinsic (name : Spur) : InferType :=
  match in_id <$> lookup_by_name (resolve name) with Some IdImplements => Concrete Ty.BOOL | _ => Concrete Ty.ERROR end.

(** *** Control flow *)
Definition generate_block (extra_start len : Z) : M InferType :=
  set_gen_scopes push_scope;;
  block_insts ← lift_st (rir_get_extra rir extra_start len);
  infos ← collectM rec block_insts;
  set_gen_scopes pop_scope;;
  mret (match list.last infos with Some info => ei_ty info | None => Concrete Ty.UNIT end).
(** The type of expressions that meet, without those that diverge. *)
Definition join_types (infos : list ExprInfo) : M InferType :=
  match filter (λ info, is_never_type (ei_ty info) = false) infos with
  | [] => mret (Concrete Ty.NEVER)
  | non_never =>
      result_ty ← fresh_type;
      iterM (λ info, add_constraint (CEqual (ei_ty info) result_ty (ei_span info))) non_never;;
      mret result_ty
  end.
Definition generate_branch (cond then_block : InstRef) (else_block : option InstRef) : M InferType :=
  cond_info ← rec cond;
  add_constraint (CEqual (ei_ty cond_info) (Concrete Ty.BOOL) (ei_span cond_info));;
  then_info ← rec then_block;
  match else_block with
  | Some else_ref =>
      else_info ← rec else_ref;
      match is_never_type (ei_ty then_info), is_never_type (ei_ty else_info) with
      | true, true => mret (Concrete Ty.NEVER)
      | true, false => mret (ei_ty else_info)
      | false, true => mret (ei_ty then_info)
      | false, false =>
          result_ty ← fresh_type;
          add_constraint (CEqual (ei_ty then_info) result_ty (ei_span then_info));;
          add_constraint (CEqual (ei_ty else_info) result_ty (ei_span else_info));;
          mret result_ty
      end
  | None => mret (Concrete Ty.UNIT)
  end.
Definition loop_body (body : InstRef) : M () := enter_loop;; visit body;; leave_loop.
Definition generate_loop (cond body : InstRef) : M InferType :=
  cond_info ← rec cond;
  add_constraint (CEqual (ei_ty cond_info) (Concrete Ty.BOOL) (ei_span cond_info));;
  loop_body body;;
  mret (Concrete Ty.UNIT).
Definition binding_type (iterable_ty : InferType) : M InferType :=
  match iterable_ty with
  | Array element _ => mret element
  | Concrete t =>
      k ← kind_of t;
      match k with
      | TypeKind.Slice id => e ← pool_get (λ p, slice_def p id); mret (Concrete e)
      | TypeKind.MutSlice id => e ← pool_get (λ p, mut_slice_def p id); mret (Concrete e)
      | TypeKind.Vec id => e ← pool_get (λ p, vec_def p id); mret (Concrete e)
      | _ => mret iterable_ty
      end
  | other => mret other
  end.
Definition generate_for (binding : Spur) (is_mut : bool) (iterable body : InstRef) (span : Span) : M InferType :=
  iterable_info ← rec iterable;
  binding_ty ← binding_type (ei_ty iterable_info);
  set_gen_scopes (insert_local binding (MkLocalVar binding_ty is_mut span));;
  loop_body body;;
  mret (Concrete Ty.UNIT).
Definition generate_unroll_for (binding : Spur) (iterable body : InstRef) (span : Span) : M InferType :=
  visit iterable;;
  binding_ty ← fresh_type;
  set_gen_scopes (insert_local binding (MkLocalVar binding_ty false span));;
  visit body;;
  mret (Concrete Ty.UNIT).

(** *** Match *)
(** The variables of a variant arm: typed by the fields of the variant, by fresh variables when the
    enum is not known, and not bound when the variant is not known. *)
Definition variant_arm_bindings {A} (type_name variant : Spur) (field_ty : EnumVariantDef → nat → A → M InferType)
    (binding : A → RirPatternBinding Spur RirPattern) (span : Span) (bindings : list A) : M Added :=
  match enum_id_of type_name with
  | Some enum_id =>
      enum_def ← pool_get (λ p, enum_def p enum_id);
      match find_variant enum_def (resolve variant) with
      | Some variant_idx =>
          v ← lift_st (expect (ed_variants enum_def !! variant_idx));
          gatherM (λ i b, ty ← field_ty v i b; register_binding collect_recursive_pattern_bindings (binding b) ty span) 0 bindings
      | None => mret []
      end
  | None => gatherM (λ _ b, ty ← fresh_type; register_binding collect_recursive_pattern_bindings (binding b) ty span) 0 bindings
  end.
Definition data_field_type {A} (v : EnumVariantDef) (i : nat) (_ : A) : M InferType :=
  mret (match ev_fields v !! i with Some ty => Concrete ty | None => Concrete Ty.ERROR end).
Definition named_field_type (v : EnumVariantDef) (_ : nat) (fb : RirStructPatternBinding Spur RirPattern) : M InferType :=
  match variant_find_field v (resolve (sb_field_name fb)) with
  | Some idx => ty ← lift_st (expect (ev_fields v !! idx)); mret (Concrete ty)
  | None => mret (Concrete Ty.ERROR)
  end.
Definition arm_bindings (pattern : RirPattern) (scrutinee_ty : InferType) : M Added :=
  match pattern with
  | RDataVariant _ type_name variant bindings span => variant_arm_bindings type_name variant data_field_type id span bindings
  | RStructVariant _ type_name variant field_bindings span =>
      variant_arm_bindings type_name variant named_field_type sb_binding span field_bindings
  | RIdent _ _ _ | RTuple _ _ _ | RStruct _ _ _ _ _ => collect_recursive_pattern_bindings pattern scrutinee_ty
  | _ => mret []
  end.
Definition remove_bindings (added : Added) : M () :=
  set_gen_scopes (λ c, MkScoped (foldl restore (locals c) added) (scope_stack c)).
Definition generate_arm (scrutinee_ty : InferType) (arm : RirPattern * InstRef) : M ExprInfo :=
  pattern_ty ← pattern_type arm.1;
  add_constraint (CEqual scrutinee_ty pattern_ty (pattern_span arm.1));;
  bindings_to_remove ← arm_bindings arm.1 scrutinee_ty;
  body_info ← rec arm.2;
  remove_bindings bindings_to_remove;;
  mret body_info.
Definition generate_match (scrutinee : InstRef) (arms_start arms_len : Z) : M InferType :=
  scrutinee_info ← rec scrutinee;
  arms ← lift_st (rir_get_match_arms rir arms_start arms_len);
  arm_types ← collectM (generate_arm (ei_ty scrutinee_info)) arms;
  join_types arm_types.

(** *** Aggregates *)
Definition visit_fields (fields_start fields_len : Z) : M () :=
  fields ← lift_st (get_field_inits rir fields_start fields_len); iterM (λ f, visit f.2) fields.
Definition generate_struct_init (type_name : Spur) (fields_start fields_len : Z) : M InferType :=
  match (match subst_type type_name with Some ty => Some ty | None => structs !! type_name end) with
  | Some struct_ty => visit_fields fields_start fields_len;; mret (Concrete struct_ty)
  | None => mret (Concrete Ty.ERROR)
  end.
Definition enum_type_or_fresh (type_name : Spur) : M InferType :=
  match enums !! type_name with Some enum_ty => mret (Concrete enum_ty) | None => fresh_type end.
(** The struct behind the type of a base: a struct, or what a reference refers to. *)
Definition base_struct (base_ty : Ty) : M (option Ty) :=
  k ← kind_of base_ty;
  match k with
  | TypeKind.Struct _ => mret (Some base_ty)
  | _ => referent base_ty
  end.
Definition field_type (base_ty : InferType) (field : Spur) : M (option Ty) :=
  match base_ty with
  | Concrete base_ty =>
      resolved ← base_struct base_ty;
      match resolved ≫= as_struct with
      | Some struct_id =>
          def ← pool_get (λ p, struct_def p struct_id);
          mret ((λ f, sf_ty f.2) <$> find_field def (resolve field))
      | None => mret None
      end
  | _ => mret None
  end.
Definition generate_field_get (base : InstRef) (field : Spur) : M InferType :=
  base_info ← rec base;
  field_ty ← field_type (ei_ty base_info) field;
  match field_ty with Some ty => mret (Concrete ty) | None => fresh_type end.
Definition generate_array_init (elems_start elems_len : Z) : M InferType :=
  elements ← lift_st (get_inst_refs rir elems_start elems_len);
  match elements with
  | [] => element ← fresh_type; mret (Array element 0)
  | first :: rest =>
      first_info ← rec first;
      iterM (λ elem_ref, elem_info ← rec elem_ref;
                         add_constraint (CEqual (ei_ty elem_info) (ei_ty first_info) (ei_span elem_info))) rest;;
      mret (Array (ei_ty first_info) (wrap 64 (Z.of_nat (length elements))))
  end.
Definition generate_index (base index : InstRef) : M InferType :=
  base_info ← rec base; index_info ← rec index;
  add_constraint (CEqual (Concrete Ty.USIZE) (ei_ty index_info) (ei_span index_info));;
  mret (ei_ty base_info).
Definition generate_index_get (base index : InstRef) : M InferType :=
  base_ty ← generate_index base index;
  match base_ty with Array element _ => mret element | _ => fresh_type end.
Definition generate_index_set (base index value : InstRef) : M InferType :=
  base_ty ← generate_index base index;
  value_info ← rec value;
  match base_ty with
  | Array element _ => add_constraint (CEqual (ei_ty value_info) element (ei_span value_info))
  | _ => mret ()
  end;;
  mret (Concrete Ty.UNIT).

(** *** Instructions *)
Definition generate_data (data : InstData Spur) (span : Span) : M InferType :=
  match data with
  | RIntConst _ | RComptime _ => v ← gen_fresh_var; push_int_literal_var v;; mret (Var v)
  | RFloatConst _ => v ← gen_fresh_var; push_float_literal_var v;; mret (Var v)
  | RBoolConst _ => mret (Concrete Ty.BOOL)
  | RCharConst _ => mret (Concrete Ty.CHAR)
  | RStringConst _ => mret (known_type structs "String")
  | RUnitConst => mret (Concrete Ty.UNIT)
  | RBin op lhs rhs => generate_bin op lhs rhs span
  | RUnary op operand => generate_unary op operand span
  | RMakeRef operand _ => visit operand;; fresh_type
  | RMakeSlice base lo hi _ => visit base;; visit_opt lo;; visit_opt hi;; fresh_type
  | RBareRangeSubscript => mret (Concrete Ty.ERROR)
  | RVarRef name => generate_var_ref name
  | RParamRef _ name => mret (match params !! name with Some param => pvi_ty param | None => Concrete Ty.ERROR end)
  | RAlloc _ _ name is_mut ty init => generate_alloc name is_mut ty init span
  | RStructDestructure type_name fields_start fields_len init => generate_destructure type_name fields_start fields_len init span
  | RAssign name value => generate_assign name value span
  | RRet value => generate_ret value span
  | RCall name args_start args_len => generate_call name args_start args_len
  | RIntrinsic name args_start args_len => generate_intrinsic name args_start args_len span
  | RTypeIntrinsic name _ => generate_type_intrinsic name
  | RTypeInterfaceIntrinsic name _ _ _ => mret (type_interface_intrinsic name)
  | RBlock extra_start len => generate_block extra_start len
  | RBranch cond then_block else_block _ => generate_branch cond then_block else_block
  | RLoop cond body => generate_loop cond body
  | RFor binding is_mut iterable body => generate_for binding is_mut iterable body span
  | RInfiniteLoop body => loop_body body;; mret (Concrete Ty.NEVER)
  | RBreak | RContinue => mret (Concrete Ty.NEVER)
  | RMatch scrutinee arms_start arms_len => generate_match scrutinee arms_start arms_len
  | RStructInit _ type_name fields_start fields_len => generate_struct_init type_name fields_start fields_len
  | RFieldGet base field => generate_field_get base field
  | RFieldSet base _ value => visit base;; visit value;; mret (Concrete Ty.UNIT)
  | REnumVariant _ type_name _ => enum_type_or_fresh type_name
  | REnumStructVariant _ type_name _ fields_start fields_len =>
      visit_fields fields_start fields_len;; enum_type_or_fresh type_name
  | RArrayInit elems_start elems_len => generate_array_init elems_start elems_len
  | RIndexGet base index => generate_index_get base index
  | RIndexSet base index value => generate_index_set base index value
  | RFnDecl _ _ _ _ _ _ _ _ _ _ _ | RStructDecl _ _ _ _ _ _ _ _ _ | REnumDecl _ _ _ _ _ _ _ _ _
  | RInterfaceDecl _ _ _ _ _ _ | RInterfaceMethodSig _ _ _ _ _ _ _ _ | RDeriveDecl _ _ _ | RConstDecl _ _ _ _ _ _ =>
      mret (Concrete Ty.UNIT)
  | RAnonInterfaceType _ _ | RTypeConst _ | RAnonStructType _ _ _ _ _ _ | RAnonEnumType _ _ _ _ _ _ =>
      mret (Concrete Ty.COMPTIME_TYPE)
  | RAssocFnCall type_name function args_start args_len => generate_assoc_fn_call type_name function args_start args_len
  | RComptimeUnrollFor binding iterable body => generate_unroll_for binding iterable body span
  | RChecked expr => inner_info ← rec expr; mret (ei_ty inner_info)
  | RTupleInit elems_start elems_len =>
      elems ← lift_st (get_inst_refs rir elems_start elems_len); visit_all elems;; fresh_type
  | RAnonFnValue _ => fresh_type
  | RMethodCall _ _ _ _ => lift_st Panic (* [generate_step] handles method calls *)
  end.
Definition generate_step (inst_ref : InstRef) : M ExprInfo :=
  inst ← lift_st (rir_get rir inst_ref);
  let span := ri_span inst in
  r ← match ri_data inst with
      | RMethodCall receiver method args_start args_len => generate_method_call receiver method args_start args_len
      | data => ty ← generate_data data span; mret (inr ty)
      end;
  match r with
  | inl ty => mret (MkInfo ty span)
  | inr ty => record_type inst_ref ty;; mret (MkInfo ty span)
  end.
End Step.
Fixpoint generate (fuel : nat) (inst_ref : InstRef) : M ExprInfo :=
  match fuel with
  | O => lift_st NoFuel
  | S fuel => generate_step (generate fuel) inst_ref
  end.
End Generate.
