(* ===== verification/GenerateThm.v ===== *)
(** * Constraint generation terminates and keeps its variables in order

    The recursions of [Generate] that are not structural: through the arrays of the pool, through
    the text of a type, and through the instructions of the file. Then a predicate on runs of the
    generator with a rule per construct, and by these rules what every generator keeps: types and
    constraints mention only variables that were allocated, the variables of literals are
    distinct, and the scopes and the loop depth are left as they were found. *)

From S2P Require Import Prelude Types AirPattern Air InternPool ParamArena Scope Infer Rir RirStore RirRelocate RirMergeSpec AstGenWf TypeSyntax Intrinsics Generate.

#[local] Open Scope Z_scope.

(** ** Texts of parts *)
Lemma trim_start_length s : (length (trim_start s) ≤ length s)%nat.
Proof. induction s as [|c s IH]; simpl; [lia|]. destruct (is_whitespace c); simpl; lia. Qed.
Lemma trim_length s : (length (trim_text s) ≤ length s)%nat.
Proof.
  unfold trim_text. rewrite length_rev. etrans; [apply trim_start_length|]. rewrite length_rev. apply trim_start_length.
Qed.
Lemma text_slice_length a b (s : text) : (length (slice a b s) ≤ b - a)%nat.
Proof. unfold slice. rewrite length_take. lia. Qed.
Lemma array_element_shorter s el n : parse_array_type_syntax s = Some (el, n) → (length el < length s)%nat.
Proof.
  unfold parse_array_type_syntax. destruct (trim_text s) as [|c t] eqn:Ht; [done|].
  destruct (_ || _); [done|]. destruct (last_semicolon _ _ _ _) as [k|]; [|done].
  destruct (parse_u64 _); [|done]. intros [= <- _]. pose proof (trim_length s) as Hl. rewrite Ht in Hl. simpl in Hl.
  eapply Nat.le_lt_trans; [apply trim_length|]. rewrite length_take.
  pose proof (text_slice_length 1 (length (c :: t) - 1) (c :: t)). simpl in *. lia.
Qed.
Lemma split_args_length d cur s args last :
  split_args d cur s = (args, last) →
  Forall (λ a, length a ≤ length cur + length s)%nat args ∧ (length last ≤ length cur + length s)%nat.
Proof.
  revert d cur args last. induction s as [|ch s IH]; intros d cur args last; simpl; [intros [= <- <-]; split; [constructor|lia]|].
  assert (Hs : ∀ d' args last, split_args d' (cur ++ [ch]) s = (args, last) →
    Forall (λ a, length a ≤ length cur + S (length s))%nat args ∧ (length last ≤ length cur + S (length s))%nat).
  { intros d' args' last' [Ha Hl]%IH. rewrite length_app in Hl. simpl in Hl. split; [|lia].
    eapply list.Forall_impl; [exact Ha|]. intros a. cbv beta. rewrite length_app. simpl. lia. }
  destruct (_ || _); [apply Hs|]. destruct (_ || _); [apply Hs|]. destruct (_ && _); [|apply Hs].
  destruct (split_args d [] s) as [args' last'] eqn:He. intros [= <- <-]. apply IH in He as [Ha Hl]. simpl in *.
  split; [constructor|lia].
  - pose proof (trim_length cur). lia.
  - eapply list.Forall_impl; [exact Ha|]. intros a. cbv beta. lia.
Qed.
Lemma call_args_shorter s callee args :
  parse_type_call_syntax s = Some (callee, args) → Forall (λ a, length a < length s)%nat args.
Proof.
  unfold parse_type_call_syntax. destruct (trim_text s) as [|c t] eqn:Ht; [done|].
  destruct (negb _); [done|]. destruct (find_char _ _) as [o|]; [|done]. destruct (trim_text (take _ _)); [done|].
  destruct (negb _); [done|]. destruct (split_args _ _ _) as [l cur] eqn:Hs. intros H.
  pose proof (trim_length s) as Hl. rewrite Ht in Hl. apply split_args_length in Hs as [Ha Hc].
  pose proof (text_slice_length (o + 1) (length (c :: t) - 1) (c :: t)) as Hsl. simpl in Hl, Ha, Hc, Hsl.
  assert (Hall : Forall (λ a, length a < length s)%nat (l ++ [trim_text cur])).
  { apply list.Forall_app. split; [|apply list.Forall_singleton; pose proof (trim_length cur); simpl in *; lia].
    eapply list.Forall_impl; [exact Ha|]. intros x. simpl. lia. }
  pose proof Hall as [Hl' _]%list.Forall_app. destruct (trim_text cur) as [|d u].
  - destruct l; [done|]. by injection H as _ <-.
  - destruct l; by injection H as _ <-.
Qed.
Lemma strip_prefix_app p s r : strip_prefix p s = Some r → s = p ++ r.
Proof.
  revert s. induction p as [|c p IH]; intros s; [by intros [= ->]|]. destruct s as [|d s]; [done|]. simpl.
  destruct (Ascii.eqb_spec c d) as [->|]; [|done]. by intros ->%IH.
Qed.
Lemma pointee_shorter s t m : parse_pointer_type_syntax s = Some (t, m) → (length t < length s)%nat.
Proof.
  unfold parse_pointer_type_syntax. pose proof (trim_length s) as Hs.
  assert (Hr : ∀ p r, (0 < length p)%nat → strip_prefix p (trim_text s) = Some r → (length (trim_text r) < length s)%nat).
  { intros p r Hp Hr%strip_prefix_app. rewrite Hr, length_app in Hs. pose proof (trim_length r). lia. }
  destruct (strip_prefix _ _) as [r|] eqn:E; [intros [= <- _]; eapply Hr, E; simpl; lia|].
  intros (r & E' & [= -> _])%fmap_Some. eapply Hr, E'. simpl. lia.
Qed.
Lemma constructor_args_shorter s c args : constructor_call s = Some (c, args) → Forall (λ a, length a < length s)%nat args.
Proof.
  unfold constructor_call. destruct (parse_type_call_syntax s) as [[callee l]|] eqn:Hp; [|done]. cbn [mbind option_bind].
  intros (c' & _ & H)%bind_Some. case_decide; [|done]. injection H as _ <-. by eapply call_args_shorter.
Qed.

(** ** Arrays of the pool *)
Lemma mk_composite_wrap tag id : mk_composite tag id = mk_composite tag (id mod 2 ^ 24).
Proof.
  unfold mk_composite, shl, wrap. rewrite !Z.shiftl_mul_pow2 by lia.
  change (2 ^ 32) with (2 ^ 24 * 2 ^ 8). rewrite !Z.mul_mod_distr_r by lia. by rewrite Z.mod_mod by lia.
Qed.
Section Arrays.
Context {Spur : Type} `{Countable Spur}.
Notation TypeInternPool := (TypeInternPool (Spur := Spur)).
Notation types := (InternPool.types (Spur := Spur)).
Implicit Types p : TypeInternPool.
(** An array is interned after its element. *)
Definition arrays_below (p : TypeInternPool) : Prop :=
  ∀ i e n j, types p !! i = Some (TArray e n) → pool_index e = Some j → j < Z.of_nat i.
Lemma read_array_id t p ty id :
  interned_to_type_recursive t p = Done ty → kind ty = Done (TypeKind.Array id) → ∃ j, pool_index t = Some j ∧ 0 ≤ j ∧ id ≤ j.
Proof.
  intros Hty Hk. destruct (pool_index t) as [j|] eqn:Hj.
  - exists j. split; [done|]. unfold interned_to_type_recursive in Hty. rewrite Hj in Hty. simplify_done.
    match goal with E : entry p j = Done ?d' |- _ => apply entry_Done in E as [Hj0 _]; rename d' into d end.
    split; [done|]. pose proof (Z.mod_pos_bound j (2 ^ 24) ltac:(lia)) as Hm. pose proof (Z.mod_le j (2 ^ 24) Hj0 ltac:(lia)) as Hle.
    assert (Hd : kind (of_kind (data_kind (j mod 2 ^ 24) d)) = Done (data_kind (j mod 2 ^ 24) d)).
    { unfold kind. rewrite try_kind_of_kind; [done|]. destruct d; simpl; unfold kind_wf, in_u; simpl; lia. }
    rewrite of_data_kind in Hd.
    destruct d; cbn [data_kind] in Hd;
      unfold new_struct, new_enum, new_array, new_ptr_const, new_ptr_mut, new_ref, new_mut_ref, new_slice, new_mut_slice, new_vec in *;
      rewrite <-mk_composite_wrap in Hd; rewrite Hk in Hd; by simplify_eq.
  - destruct (primitive_read_kind _ _ _ Hj Hty) as (k' & Hk' & Hid). rewrite Hk in Hk'. by simplify_eq.
Qed.
Lemma type_to_infer_fuel p fuel ty :
  arrays_below p → (0 < fuel)%nat →
  (∀ id d, kind ty = Done (TypeKind.Array id) → entry p id = Done d → (S (Z.to_nat id) < fuel)%nat) →
  type_to_infer_at fuel p ty ≠ NoFuel.
Proof.
  intros Hp. revert ty. induction fuel as [|fuel IH]; intros ty Hf Hid; [lia|]. simpl.
  apply bind_total; [apply kind_total|]. intros k Hk. destruct k; try done.
  apply bind_total; [apply bind_total; [apply entry_total|]; intros [] _; try done; apply bind_total;
    [apply interned_to_type_recursive_total|done]|].
  intros [e n] Hd. apply bind_total; [|done]. unfold array_def in Hd.
  apply bind_Done in Hd as (d & He & Hd). pose proof (Hid _ _ Hk He) as Hlt. pose proof He as [H0 He']%entry_Done.
  destruct d; try done. apply bind_Done in Hd as (e' & Hr & [= -> ->]).
  apply IH; [lia|]. intros id' d' Hk' _. destruct (read_array_id _ _ _ _ Hr Hk') as (j & Hj & Hj0 & Hle).
  pose proof (Hp _ _ _ _ He' Hj). lia.
Qed.
Lemma type_to_infer_total p ty : arrays_below p → type_to_infer p ty ≠ NoFuel.
Proof.
  intros Hp. apply type_to_infer_fuel; [done|lia|]. intros id d _ [H0 He]%entry_Done. apply lookup_lt_Some in He. lia.
Qed.

(** What interning does to the entries. *)
Definition grown (p : TypeInternPool) (p' : TypeInternPool) : Prop :=
  types p' = types p ∨ ∃ d, types p' = types p ++ [d] ∧ ∀ e n, d ≠ TArray e n.
Lemma grown_below p p' : grown p p' → arrays_below p → arrays_below p'.
Proof.
  intros [E|(d & E & Hd)] Hp i e n j Hi Hj; rewrite E in Hi; [by eapply Hp|].
  apply lookup_app_Some in Hi as [Hi|[_ Hi]]; [by eapply Hp|].
  apply list_lookup_singleton_Some in Hi as [_ ->]. by edestruct Hd.
Qed.
Lemma run_op_grown p op i p' : (∀ e n, op_data op ≠ TArray e n) → InternPool.run_op p op = Done (i, p') → grown p p'.
Proof.
  intros Ha. rewrite InternPool.run_op_generic. unfold intern_generic. case_match.
  - intros Hd. simplify_done. by left.
  - unfold to_index, push_entry. intros Hd. simplify_done. simpl in *. simplify_done. right. exists (op_data op).
    split; [by rewrite types_reg_key|done].
Qed.
Definition interns_only (f : TypeInternPool → outcome (Z * TypeInternPool)) : Prop :=
  ∀ p, f p ≠ NoFuel ∧ ∀ i p', f p = Done (i, p') → grown p p'.
Lemma type_to_interned_total ty : type_to_interned_recursive ty ≠ NoFuel.
Proof.
  unfold type_to_interned_recursive. apply bind_total; [apply kind_total|].
  intros []; intros _; try done; try (unfold struct_id_to_interned, enum_id_to_interned, array_id_to_interned);
    unfold from_pool_index; (apply bind_total; [unfold checked_add; by case_decide|done]).
Qed.
Lemma op_total {A} p op (f : TypeInternPool → A → outcome (InternedType * TypeInternPool)) t :
  InternPool.run_op p op = to_index (f p t) → to_index (f p t) ≠ NoFuel.
Proof.
  intros <-. rewrite InternPool.run_op_generic. unfold intern_generic. case_match.
  - apply bind_total; [apply expect_total|done].
  - apply bind_total; [|intros [] _; apply bind_total; [apply expect_total|done]].
    apply bind_total; [|done]. unfold from_pool_index. apply bind_total; [|done]. unfold checked_add. by case_decide.
Qed.
Lemma interns_op ty (op : InternedType → pool_op) (f : TypeInternPool → InternedType → outcome (InternedType * TypeInternPool)) :
  (∀ t e n, op_data (op t) ≠ TArray e n) → (∀ p t, InternPool.run_op p (op t) = to_index (f p t)) →
  interns_only (λ p, t ← type_to_interned_recursive ty; '(interned, p') ← f p t; i ← expect (pool_index interned); mret (i, p')).
Proof.
  intros Ha Hr p. split; [apply bind_total; [apply type_to_interned_total|]; intros t _; by apply (op_total p (op t) f)|].
  intros i p' (t & _ & Ht)%bind_Done. apply (run_op_grown p (op t) i p'); [apply Ha|]. by rewrite Hr.
Qed.
Lemma construct_interns :
  ∀ ty, interns_only (λ p, intern_ptr_const_from_type p ty) ∧ interns_only (λ p, intern_ptr_mut_from_type p ty) ∧
    interns_only (λ p, intern_ref_from_type p ty) ∧ interns_only (λ p, intern_mut_ref_from_type p ty) ∧
    interns_only (λ p, intern_slice_from_type p ty) ∧ interns_only (λ p, intern_mut_slice_from_type p ty) ∧
    interns_only (λ p, intern_vec_from_type p ty).
Proof.
  intros ty. split_and!;
    [apply (interns_op ty OpPtrConst)|apply (interns_op ty OpPtrMut)|apply (interns_op ty OpRef)|apply (interns_op ty OpMutRef)
    |apply (interns_op ty OpSlice)|apply (interns_op ty OpMutSlice)|apply (interns_op ty OpVec)]; done.
Qed.
End Arrays.

(** ** Types over the allocated variables *)
Fixpoint below (n : Z) (t : InferType) : Prop :=
  match t with Var v => Z.of_nat v < n | Array e _ => below n e | _ => True end.
Notation closed := (below 0).
Definition constraint_below (n : Z) (c : Constraint) : Prop :=
  match c with
  | CEqual l r _ => below n l ∧ below n r
  | CIsSigned t _ | CIsInteger t _ | CIsUnsigned t _ | CIsNumeric t _ => below n t
  end.
Lemma below_mono n n' t : n ≤ n' → below n t → below n' t.
Proof. intros Hn. induction t; simpl; try done. lia. Qed.
Lemma constraint_below_mono n n' c : n ≤ n' → constraint_below n c → constraint_below n' c.
Proof. intros Hn. destruct c; simpl; naive_solver eauto using below_mono. Qed.

Section Runs.
Context {Spur : Type} `{Countable Spur} `{!SpurKey Spur}.
Notation Gen := (ConstraintGenerator Spur).
Notation M := (ST Gen).
Notation stack g := (scope_stack (gc_scopes (g_ctx g))).
Notation nvars := g_type_vars.
Definition saved_below (n : Z) (e : Spur * option LocalVarInfo) : Prop :=
  match e.2 with Some i => below n (lvi_ty i) | None => True end.

(** What holds between the generators. *)
Record gen_ok (g : Gen) : Prop := {
  ok_vars : 0 ≤ nvars g;
  ok_constraints : Forall (constraint_below (nvars g)) (g_constraints g);
  ok_types : map_Forall (λ _ t, below (nvars g) t) (g_expr_types g);
  ok_literals : NoDup (g_int_literal_vars g ++ g_float_literal_vars g);
  ok_literals_below : Forall (λ v, Z.of_nat v < nvars g) (g_int_literal_vars g ++ g_float_literal_vars g);
  ok_locals : map_Forall (λ _ i, below (nvars g) (lvi_ty i)) (locals (gc_scopes (g_ctx g)));
  ok_saved : Forall (Forall (saved_below (nvars g))) (stack g);
  ok_arrays : arrays_below (g_type_pool g) }.
(** Scopes that are as deep; only the innermost has more entries. *)
Definition frame {A} (st st' : list (list A)) : Prop :=
  match st, st' with
  | [], [] => True
  | t :: r, t' :: r' => t `prefix_of` t' ∧ r = r'
  | _, _ => False
  end.
Record later (g g' : Gen) : Prop := {
  la_vars : nvars g ≤ nvars g';
  la_constraints : g_constraints g `prefix_of` g_constraints g';
  la_types : dom (g_expr_types g) ⊆ dom (g_expr_types g');
  la_depth : gc_loop_depth (g_ctx g') = gc_loop_depth (g_ctx g);
  la_scopes : frame (stack g) (stack g') }.
Lemma frame_refl {A} (st : list (list A)) : frame st st.
Proof. by destruct st. Qed.
Lemma scopes_frame_trans {A} (a b c : list (list A)) : frame a b → frame b c → frame a c.
Proof. destruct a, b, c; simpl; try done. intros [H1 ->] [H2 ->]. split; [by etrans|done]. Qed.
#[export] Instance later_preorder : PreOrder later.
Proof.
  split; [intros g; split; try done; apply frame_refl|].
  intros a b c [] []. split; [lia|by etrans|by etrans|congruence|by eapply scopes_frame_trans].
Qed.

Ltac now_later := split; simpl; try done; try apply frame_refl; try lia.

(** A run from a state with at least [n] variables: it does not run out of fuel, and unless it
    panics it keeps the invariant and its result satisfies [R]. *)
Definition safe {A} (n : Z) (m : M A) (R : Z → A → Prop) : Prop := ∀ g, gen_ok g → n ≤ nvars g →
  match m g with NoFuel => False | Panic => True | Done (a, g') => gen_ok g' ∧ later g g' ∧ R (nvars g') a end.
Definition top {A} (_ : Z) (_ : A) : Prop := True.
Definition info_below (n : Z) (i : ExprInfo) : Prop := below n (ei_ty i).

Lemma safe_bind {A B} n (m : M A) (k : A → M B) R R' :
  safe n m R → (∀ a n', n ≤ n' → R n' a → safe n' (k a) R') → safe n (m ≫= k) R'.
Proof.
  intros Hm Hk g Hg Hn. specialize (Hm g Hg Hn). unfold mbind, ST_bind. destruct (m g) as [[a g1]| |]; [|done..].
  destruct Hm as (Hg1 & Hl & HR). pose proof (la_vars _ _ Hl). specialize (Hk a (nvars g1) ltac:(lia) HR g1 Hg1 ltac:(lia)).
  simpl. destruct (k a g1) as [[b g2]| |]; [|done..]. destruct Hk as (Hg2 & Hl2 & HR2). split; [done|]. split; [by etrans|done].
Qed.
Lemma safe_ret {A} n (a : A) (R : Z → A → Prop) : (∀ n', n ≤ n' → R n' a) → safe n (mret a) R.
Proof. intros HR g Hg Hn. simpl. by split; [|split; [|auto]]. Qed.
Lemma safe_weaken {A} n n' (m : M A) (R R' : Z → A → Prop) :
  n ≤ n' → (∀ n a, R n a → R' n a) → safe n m R → safe n' m R'.
Proof.
  intros Hn HR Hm g Hg Hn'. specialize (Hm g Hg ltac:(lia)). destruct (m g) as [[a g1]| |]; [|done..]. naive_solver.
Qed.
Lemma safe_nonneg {A} n (m : M A) R : (∀ n', n ≤ n' → 0 ≤ n' → safe n' m R) → safe n m R.
Proof. intros Hm g Hg Hn. exact (Hm (nvars g) Hn (ok_vars _ Hg) g Hg (Z.le_refl _)). Qed.
Lemma safe_lift {A} n (m : outcome A) : m ≠ NoFuel → safe n (lift_st m) (λ _ a, m = Done a).
Proof. intros Hm g Hg Hn. unfold lift_st. destruct m; simpl; try done. Qed.
Lemma safe_panic {A} n (R : Z → A → Prop) : safe n (lift_st Panic) R.
Proof. by intros g Hg Hn. Qed.
Lemma safe_pool_get {A} n (f : TypeInternPool → outcome A) : (∀ p, arrays_below p → f p ≠ NoFuel) → safe n (pool_get f) top.
Proof.
  intros Hf g Hg Hn. unfold pool_get. specialize (Hf (g_type_pool g) (ok_arrays _ Hg)). destruct (f _); simpl; done.
Qed.
Lemma safe_intern n f : interns_only f → safe n (pool_intern f) top.
Proof.
  intros Hf g Hg Hn. unfold pool_intern. destruct (Hf (g_type_pool g)) as [H1 H2]. destruct (f _) as [[i p]| |]; simpl; try done.
  destruct Hg. split; [|split; [now_later|done]]. split; try done. simpl. eapply grown_below; [by eapply H2|done].
Qed.

(** *** The operations on the state *)
Lemma saved_below_mono n n' e : n ≤ n' → saved_below n e → saved_below n' e.
Proof. intros Hn. unfold saved_below. destruct (e.2); [by apply below_mono|done]. Qed.
Lemma gen_ok_grow g n :
  gen_ok g → nvars g ≤ n →
  gen_ok (MkGen n (g_constraints g) (g_expr_types g) (g_int_literal_vars g) (g_float_literal_vars g) (g_type_pool g) (g_ctx g)).
Proof.
  intros [] Hn. split; simpl; try done; try lia.
  - eapply list.Forall_impl; [done|]. intros c. by apply constraint_below_mono.
  - eapply map_Forall_impl; [done|]. intros k t. cbv beta. by apply below_mono.
  - eapply list.Forall_impl; [done|]. cbv beta. lia.
  - eapply map_Forall_impl; [done|]. intros k t. cbv beta. by apply below_mono.
  - eapply list.Forall_impl; [done|]. intros l Hl. eapply list.Forall_impl; [done|]. intros e. by apply saved_below_mono.
Qed.
Lemma fresh_spec g : gen_ok g →
  match gen_fresh_var g with
  | NoFuel => False | Panic => True
  | Done (v, g') => Z.of_nat v = nvars g ∧ g' = MkGen (nvars g + 1) (g_constraints g) (g_expr_types g) (g_int_literal_vars g)
      (g_float_literal_vars g) (g_type_pool g) (g_ctx g)
  end.
Proof.
  intros Hg. pose proof (ok_vars _ Hg). unfold gen_fresh_var, fresh_var, checked_add. case_decide; simpl; [|done]. split; [lia|done].
Qed.
Lemma safe_fresh_type n : safe n fresh_type below.
Proof.
  intros g Hg Hn. unfold fresh_type, mbind, ST_bind. pose proof (fresh_spec g Hg) as Hf.
  destruct (gen_fresh_var g) as [[v g']| |]; [|done..]. destruct Hf as [Hv ->]. simpl.
  split; [apply gen_ok_grow; [done|lia]|]. split; [now_later|lia].
Qed.
(** A literal: a fresh variable, pushed on one of the lists. *)
Lemma safe_literal n (push : nat → M ()) (pi pf : nat → list nat → list nat) :
  (∀ v g, push v g = Done ((), MkGen (nvars g) (g_constraints g) (g_expr_types g) (pi v (g_int_literal_vars g))
     (pf v (g_float_literal_vars g)) (g_type_pool g) (g_ctx g))) →
  (∀ v l l', pi v l ++ pf v l' ≡ₚ v :: l ++ l') →
  safe n (v ← gen_fresh_var; push v;; mret (Var v)) below.
Proof.
  intros Hpush Hperm g Hg Hn. unfold mbind, ST_bind. pose proof (fresh_spec g Hg) as Hf.
  destruct (gen_fresh_var g) as [[v g']| |]; [|done..]. destruct Hf as [Hv ->]. simpl. rewrite Hpush. simpl.
  pose proof (gen_ok_grow g (nvars g + 1) Hg ltac:(lia)) as []. pose proof (ok_literals_below _ Hg) as Hb. simpl in *.
  split; [split; simpl; try done|split; [now_later|lia]].
  - rewrite Hperm. constructor; [|done]. intros Hin. rewrite list.Forall_forall in Hb. specialize (Hb v Hin). lia.
  - rewrite Hperm. constructor; [lia|done].
Qed.
Lemma safe_constraint n c : constraint_below n c → safe n (add_constraint c) top.
Proof.
  intros Hc g Hg Hn. unfold add_constraint, modify. destruct Hg. split; [|split; [|done]].
  - split; simpl; try done. apply list.Forall_app. split; [done|]. apply list.Forall_singleton. by eapply constraint_below_mono.
  - now_later. by eexists.
Qed.
Lemma safe_record n i ty : below n ty → safe n (record_type i ty) top.
Proof.
  intros Hc g Hg Hn. unfold record_type, modify. destruct Hg. split; [|split; [|done]].
  - split; simpl; try done. apply map_Forall_insert_2; [by eapply below_mono|done].
  - now_later. rewrite dom_insert_L. set_solver.
Qed.
Lemma safe_get_local n x : safe n (get_local x) (λ n o, match o with Some i => below n (lvi_ty i) | None => True end).
Proof.
  intros g Hg Hn. unfold get_local, gets. split; [done|]. split; [done|]. destruct (_ !! x) as [i|] eqn:Hi; [|done].
  exact (ok_locals _ Hg x i Hi).
Qed.
(** Changes of the scopes. *)
Lemma safe_scopes n f :
  (∀ g, gen_ok g → n ≤ nvars g → let c := f (gc_scopes (g_ctx g)) in
     map_Forall (λ _ i, below (nvars g) (lvi_ty i)) (locals c) ∧ Forall (Forall (saved_below (nvars g))) (scope_stack c) ∧
     frame (stack g) (scope_stack c)) →
  safe n (set_gen_scopes f) top.
Proof.
  intros Hf g Hg Hn. destruct (Hf g Hg Hn) as (Hl & Hs & Hfr). unfold set_gen_scopes, set_ctx, modify. destruct Hg.
  split; [by split|]. split; [by split|done].
Qed.
Lemma restore_below n m e : map_Forall (λ _ i, below n (lvi_ty i)) m → saved_below n e → map_Forall (λ (_ : Spur) i, below n (lvi_ty i)) (restore m e).
Proof.
  intros Hm He. unfold restore, saved_below in *. destruct (e.2); [by apply map_Forall_insert_2|by apply map_Forall_delete].
Qed.
Lemma restore_all_below n m es :
  map_Forall (λ _ i, below n (lvi_ty i)) m → Forall (saved_below n) es → map_Forall (λ (_ : Spur) i, below n (lvi_ty i)) (foldl restore m es).
Proof. intros Hm He. revert m Hm. induction He as [|e es He _ IH]; intros m Hm; [done|]. apply IH. by apply restore_below. Qed.
Lemma lookup_saved n (m : gmap Spur LocalVarInfo) x : map_Forall (λ _ i, below n (lvi_ty i)) m → saved_below n (x, m !! x).
Proof. intros Hm. unfold saved_below. simpl. destruct (m !! x) as [i|] eqn:Hi; [|done]. exact (Hm x i Hi). Qed.
Lemma safe_insert_local n x info : below n (lvi_ty info) → safe n (set_gen_scopes (insert_local x info)) top.
Proof.
  intros Hi. apply safe_scopes. intros g Hg Hn. pose proof (ok_locals _ Hg) as Hl. pose proof (ok_saved _ Hg) as Hs.
  assert (Hm : map_Forall (λ _ i, below (nvars g) (lvi_ty i)) (<[x := info]> (locals (gc_scopes (g_ctx g))))).
  { apply map_Forall_insert_2; [by eapply below_mono|done]. }
  unfold insert_local. destruct (stack g) as [|top rest] eqn:E; simpl.
  - split; [done|]. split; [constructor|done].
  - split; [done|]. inversion_clear Hs. split; [|split; [by eexists|done]]. constructor; [|done].
    apply list.Forall_app. split; [done|]. apply list.Forall_singleton. by apply lookup_saved.
Qed.
Lemma safe_bind_local n x info : below n (lvi_ty info) → safe n (bind_local x info) (λ n, Forall (saved_below n)).
Proof.
  intros Hi. eapply safe_bind; [apply safe_get_local|]. intros old n1 Hn1 Hold.
  eapply safe_bind; [apply safe_scopes|].
  - intros g Hg Hn. split; [|split; [apply Hg|apply frame_refl]]. simpl.
    apply map_Forall_insert_2; [eapply below_mono; [|done]; lia|apply Hg].
  - intros _ n2 Hn2 _. apply safe_ret. intros n3 Hn3. apply list.Forall_singleton. unfold saved_below. simpl.
    destruct old; [|done]. eapply below_mono; [|done]. lia.
Qed.
Lemma safe_remove n added : Forall (saved_below n) added → safe n (remove_bindings added) top.
Proof.
  intros Ha. apply safe_scopes. intros g Hg Hn. split; [|split; [apply Hg|apply frame_refl]]. simpl.
  apply restore_all_below; [apply Hg|]. eapply list.Forall_impl; [done|]. intros e. by apply saved_below_mono.
Qed.

(** *** Loops *)
Lemma safe_iterM {A} n (f : A → M ()) (P : A → Prop) l :
  Forall P l → (∀ x n', n ≤ n' → P x → safe n' (f x) top) → safe n (iterM f l) top.
Proof.
  intros Hl Hf. revert n Hf. induction Hl as [|x l Hx _ IH]; intros n Hf; [by apply safe_ret|].
  eapply safe_bind; [by apply Hf|]. intros _ n1 Hn1 _. apply IH. intros y n2 Hn2. apply Hf. lia.
Qed.
Lemma safe_collectM {A B} n (f : A → M B) (P : A → Prop) (R : Z → B → Prop) l :
  (∀ n n' b, n ≤ n' → R n b → R n' b) → Forall P l → (∀ x n', n ≤ n' → P x → safe n' (f x) R) →
  safe n (collectM f l) (λ n, Forall (R n)).
Proof.
  intros HR Hl Hf. revert n Hf. induction Hl as [|x l Hx _ IH]; intros n Hf; [apply safe_ret; constructor|].
  eapply safe_bind; [by apply Hf|]. intros b n1 Hn1 Hb. eapply safe_bind; [apply IH; intros y n2 Hn2; apply Hf; lia|].
  intros bs n2 Hn2 Hbs. apply safe_ret. intros n3 Hn3. constructor; [eapply HR; [|done]; lia|].
  eapply list.Forall_impl; [exact Hbs|]. intros c. by apply HR.
Qed.
Lemma safe_gatherM {A} n (f : nat → A → M (list (Spur * option LocalVarInfo))) (P : A → Prop) i l :
  Forall P l → (∀ j x n', n ≤ n' → P x → safe n' (f j x) (λ n, Forall (saved_below n))) →
  safe n (gatherM f i l) (λ n, Forall (saved_below n)).
Proof.
  intros Hl Hf. revert n i Hf. induction Hl as [|x l Hx _ IH]; intros n i Hf; [apply safe_ret; constructor|].
  eapply safe_bind; [by apply Hf|]. intros b n1 Hn1 Hb. eapply safe_bind; [apply IH; intros j y n2 Hn2; apply Hf; lia|].
  intros bs n2 Hn2 Hbs. apply safe_ret. intros n3 Hn3. apply list.Forall_app.
  split; [eapply list.Forall_impl; [exact Hb|]|eapply list.Forall_impl; [exact Hbs|]]; intros e; apply saved_below_mono; lia.
Qed.
End Runs.

(** ** Induction on patterns *)
Definition sub_patterns {Spur} (p : RirPattern Spur) : list (RirPattern Spur) :=
  match p with
  | RDataVariant _ _ _ bs _ => omap pb_sub_pattern bs
  | RStructVariant _ _ _ bs _ => omap (λ b, pb_sub_pattern (sb_binding b)) bs
  | RTuple es _ _ => es
  | RStruct _ _ fs _ _ => map rf_pattern fs
  | _ => []
  end.
Lemma sub_pattern_ind {Spur} (P : RirPattern Spur → Prop) : (∀ p, Forall P (sub_patterns p) → P p) → ∀ p, P p.
Proof.
  intros Hp. refine (fix IH p := _). apply Hp. destruct p as [| | | |m ty v bs s|m ty v bs s| |es r s|m ty fs r s|]; simpl; try constructor.
  - induction bs as [|[w mu nm [q|]] bs IHb]; simpl; [constructor|constructor; [apply IH|exact IHb]|exact IHb].
  - induction bs as [|[fn [w mu nm [q|]]] bs IHb]; simpl; [constructor|constructor; [apply IH|exact IHb]|exact IHb].
  - induction es as [|e es IHe]; constructor; [apply IH|exact IHe].
  - induction fs as [|f fs IHf]; constructor; [apply IH|exact IHf].
Qed.

(** ** The generators *)
Create HintDb gen.
#[export] Hint Resolve safe_fresh_type safe_constraint safe_record safe_get_local safe_insert_local safe_bind_local safe_remove : gen.
#[export] Hint Resolve safe_panic kind_total : gen.
Section Generators.
Context {Spur : Type} `{Countable Spur} `{!SpurKey Spur}.
Notation Gen := (ConstraintGenerator Spur).
Notation M := (ST Gen).
Notation Added := (list (Spur * option LocalVarInfo)).
Context (resolve : Spur → string) (interner_get : string → option Spur).
Context (rir : Rir Spur) (infer_ctx : InferenceContext Spur) (type_subst : option (gmap Spur Ty)).
Context (params : gmap Spur ParamVarInfo) (return_type : Ty).

(** The tables hold types without variables. *)
Definition sig_closed (ps : list InferType) (r : InferType) : Prop := Forall closed ps ∧ closed r.
Record tables_closed : Prop := {
  tc_functions : map_Forall (λ _ f, sig_closed (fsg_param_types f) (fsg_return_type f)) (func_sigs infer_ctx);
  tc_methods : map_Forall (λ _ m, sig_closed (msg_param_types m) (msg_return_type m)) (method_sigs infer_ctx);
  tc_enum_methods : map_Forall (λ _ m, sig_closed (msg_param_types m) (msg_return_type m)) (enum_method_sigs infer_ctx);
  tc_params : map_Forall (λ _ p, closed (pvi_ty p)) params }.
Context (Htables : tables_closed).

Lemma closed_below n t : 0 ≤ n → closed t → below n t.
Proof. apply below_mono. Qed.
(** Apply the rules, and what is known of the parts. *)
Ltac solve_below := simpl; unfold info_below, constraint_below in *; simpl in *;
  repeat match goal with |- _ ∧ _ => split end; try done; eauto 3 using below_mono, Z.le_trans with lia.
Ltac run := repeat first
  [ apply safe_ret; intros ? ?; solve [solve_below]
  | eapply safe_bind; [solve [eauto with gen]|intros ? ? ? ?]
  | solve [eauto with gen] ].

Lemma safe_kind_of n ty : safe (Spur := Spur) n (kind_of ty) top.
Proof. eapply safe_weaken, safe_lift, kind_total; [done|]. done. Qed.
Hint Resolve safe_kind_of : gen.
Lemma def_total {A} (p : TypeInternPool (Spur := Spur)) id (f : TypeData → outcome A) :
  (∀ d, f d ≠ NoFuel) → (d ← entry p id; f d) ≠ NoFuel.
Proof. intros Hf. apply bind_total; [apply entry_total|auto]. Qed.
Ltac def := apply safe_pool_get; intros p _; apply def_total; intros []; try done; try apply interned_to_type_recursive_total.
Lemma safe_ref_def n id : safe (Spur := Spur) n (pool_get (λ p, ref_def p id)) top.
Proof. def. Qed.
Lemma safe_mut_ref_def n id : safe (Spur := Spur) n (pool_get (λ p, mut_ref_def p id)) top.
Proof. def. Qed.
Lemma safe_slice_def n id : safe (Spur := Spur) n (pool_get (λ p, slice_def p id)) top.
Proof. def. Qed.
Lemma safe_mut_slice_def n id : safe (Spur := Spur) n (pool_get (λ p, mut_slice_def p id)) top.
Proof. def. Qed.
Lemma safe_vec_def n id : safe (Spur := Spur) n (pool_get (λ p, vec_def p id)) top.
Proof. def. Qed.
Lemma safe_ptr_const_def n id : safe (Spur := Spur) n (pool_get (λ p, ptr_const_def p id)) top.
Proof. def. Qed.
Lemma safe_ptr_mut_def n id : safe (Spur := Spur) n (pool_get (λ p, ptr_mut_def p id)) top.
Proof. def. Qed.
Lemma safe_struct_def n id : safe (Spur := Spur) n (pool_get (λ p, struct_def p id)) top.
Proof. def. Qed.
Lemma safe_enum_def n id : safe (Spur := Spur) n (pool_get (λ p, enum_def p id)) top.
Proof. def. Qed.
Lemma safe_type_to_infer n ty : safe (Spur := Spur) n (pool_get (λ p, type_to_infer p ty)) top.
Proof. apply safe_pool_get. intros p Hp. by apply type_to_infer_total. Qed.
Lemma safe_expect {A} n (o : option A) : safe (Spur := Spur) n (lift_st (expect o)) (λ _ a, o = Some a).
Proof. eapply safe_weaken, safe_lift, expect_total; [done|]. intros n1 a. cbv beta. apply expect_Done. Qed.
Hint Resolve safe_ref_def safe_mut_ref_def safe_slice_def safe_mut_slice_def safe_vec_def safe_ptr_const_def safe_ptr_mut_def : gen.
Hint Resolve safe_struct_def safe_enum_def safe_type_to_infer safe_expect : gen.

(** *** Types *)
Lemma safe_auto_deref n ty : below n ty → safe (Spur := Spur) n (auto_deref ty) below.
Proof. intros Hty. destruct ty; simpl; run. destruct a; run. Qed.
Lemma safe_referent n ty : safe (Spur := Spur) n (referent ty) top.
Proof. unfold referent. run. destruct a; run. Qed.
Definition opt_below (n : Z) (o : option InferType) : Prop := match o with Some t => below n t | None => True end.
Hint Resolve safe_auto_deref safe_referent : gen.
Lemma type_to_infer_closed fuel (p : TypeInternPool (Spur := Spur)) ty t : type_to_infer_at fuel p ty = Done t → closed t.
Proof.
  revert ty t. induction fuel as [|fuel IH]; intros ty t; [done|]. simpl. intros (k & _ & Hk)%bind_Done.
  destruct k; try (injection Hk as <-; done). apply bind_Done in Hk as ([e l] & _ & Hk).
  apply bind_Done in Hk as (t' & Ht & [= <-]). simpl. by eapply IH.
Qed.
Lemma rir_get_total i : rir_get rir i ≠ NoFuel.
Proof. unfold rir_get. apply index_total. Qed.
Lemma safe_rir_get n i : safe (Spur := Spur) n (lift_st (rir_get rir i)) (λ _ inst, rir_get rir i = Done inst).
Proof. apply safe_lift, rir_get_total. Qed.
Hint Resolve safe_rir_get : gen.
Lemma param_closed x p n : 0 ≤ n → params !! x = Some p → below n (pvi_ty p).
Proof using Htables. intros Hn Hp. eapply closed_below; [done|]. exact (tc_params Htables x p Hp). Qed.
Lemma safe_relax n arg param_ty :
  safe n (relax_ref_param_for_implicit_forwarding rir params arg param_ty) opt_below.
Proof using Htables.
  apply safe_nonneg. intros n' _ Hn. unfold relax_ref_param_for_implicit_forwarding. destruct param_ty; run.
  destruct a as [inner|]; [|run]. run. destruct (ri_data a); try run.
  destruct (params !! name) as [p|] eqn:Hp; [|run]. destruct (pvi_mode p); run;
    (apply safe_ret; intros n3 Hn3; case_decide as He; [|done]; simpl; rewrite <-He; eapply param_closed; [|done]; lia).
Qed.
Lemma safe_construct n k ty : safe (Spur := Spur) n (construct_type k ty) top.
Proof.
  destruct (construct_interns (Spur := Spur) ty) as (H1 & H2 & H3 & H4 & H5 & H6 & H7).
  destruct k; (eapply safe_bind; [by apply safe_intern|]; intros i n1 _ _; by apply safe_ret).
Qed.
Hint Resolve safe_construct : gen.
Lemma safe_with_concrete n (m : M (option InferType)) k :
  safe n m opt_below → (∀ n ty, safe n (k ty) top) → safe n (with_concrete m k) opt_below.
Proof.
  intros Hm Hk. unfold with_concrete. eapply safe_bind; [exact Hm|]. intros [[]|] n1 Hn1 Ho; run.
Qed.
Lemma safe_array_of n (m : M (option InferType)) l : safe n m opt_below → safe n (array_of m l) opt_below.
Proof.
  intros Hm. eapply safe_bind; [exact Hm|]. intros [e|] n1 Hn1 He; apply safe_ret; intros n2 Hn2; [|done].
  simpl. by eapply below_mono.
Qed.
Lemma safe_resolve_type_name_at n fuel name :
  (length name < fuel)%nat → safe n (resolve_type_name_at interner_get infer_ctx type_subst fuel name) opt_below.
Proof.
  revert n name. induction fuel as [|fuel IH]; intros n name Hf; [lia|]. simpl.
  destruct (_ ≫= _) as [ty|]; [by apply safe_ret|].
  destruct (parse_array_type_syntax name) as [[el l]|] eqn:Ha.
  { apply safe_array_of, IH. apply array_element_shorter in Ha. lia. }
  destruct (constructor_call name) as [[c args]|] eqn:Hc.
  { apply constructor_args_shorter in Hc. eapply safe_bind; [apply safe_expect|]. intros arg n1 Hn1 Harg.
    apply safe_with_concrete; [|intros n2 ty; apply safe_construct]. apply IH. rewrite list.Forall_lookup in Hc. specialize (Hc _ _ Harg). simpl in Hc. lia. }
  destruct (parse_pointer_type_syntax name) as [[t m]|] eqn:Hp.
  { apply safe_with_concrete; [|intros n1 ty; destruct m; apply safe_construct]. apply IH. apply pointee_shorter in Hp. lia. }
  apply safe_ret. intros n1 Hn1. unfold named_type. destruct (assoc _ _); [done|]. destruct (get_text _ _) as [s|]; [|done]. simpl.
  destruct (struct_types infer_ctx !! s); [done|]. by destruct (enum_types infer_ctx !! s).
Qed.
Lemma safe_resolve_type_name n name : safe n (resolve_type_name interner_get infer_ctx type_subst name) opt_below.
Proof. apply safe_resolve_type_name_at. lia. Qed.
Lemma safe_resolve_local n name subst :
  safe n (resolve_type_with_local_subst interner_get infer_ctx type_subst name subst) opt_below.
Proof.
  unfold resolve_type_with_local_subst. assert (length name < S (length name))%nat as Hf by lia. revert Hf.
  generalize (S (length name)). intros fuel. revert n name. induction fuel as [|fuel IH]; intros n name Hf; [lia|]. simpl.
  destruct (_ ≫= _) as [ty|]; [by apply safe_ret|].
  destruct (parse_array_type_syntax name) as [[el l]|] eqn:Ha.
  { apply safe_array_of, IH. apply array_element_shorter in Ha. lia. }
  destruct (constructor_call name) as [[c args]|] eqn:Hc; [|apply safe_resolve_type_name].
  apply constructor_args_shorter in Hc. eapply safe_bind; [apply safe_expect|]. intros arg n1 Hn1 Harg.
  apply safe_with_concrete; [|intros n2 ty; apply safe_construct]. apply IH. rewrite list.Forall_lookup in Hc. specialize (Hc _ _ Harg). simpl in Hc. lia.
Qed.
Hint Resolve safe_resolve_type_name safe_resolve_local : gen.

(** *** Patterns *)
Notation collect := (collect_recursive_pattern_bindings resolve infer_ctx).
Notation adds := (λ n : Z, Forall (saved_below (Spur := Spur) n)).
Lemma safe_pattern_type n p : safe n (pattern_type infer_ctx p) below.
Proof. unfold pattern_type. destruct p; run; destruct (enum_types infer_ctx !! _); run. Qed.
Lemma safe_fresh_for {A} n (l : list A) : safe (Spur := Spur) n (fresh_for l) (λ n, Forall (below n)).
Proof.
  eapply (safe_collectM n _ (λ _, True)); [by eauto using below_mono|by apply list.Forall_true|]. intros. apply safe_fresh_type.
Qed.
Lemma safe_type_at n tys i : Forall (below n) tys → safe (Spur := Spur) n (type_at tys i) below.
Proof.
  intros Ht. unfold type_at. destruct (tys !! i) as [ty|] eqn:Hi; [|run]. apply safe_ret. intros n1 Hn1.
  eapply below_mono; [done|]. by eapply list.Forall_lookup_1.
Qed.
Lemma concretes_below {A} n (f : A → Ty) l : Forall (below n) (map (λ x, Concrete (f x)) l).
Proof. induction l; by constructor. Qed.
Lemma safe_variant_index n ty v : safe n (variant_index resolve infer_ctx ty v) top.
Proof. unfold variant_index. destruct (enum_id_of _ _); run. Qed.
Lemma safe_resolve_variant_index n p : safe n (resolve_variant_index resolve infer_ctx p) top.
Proof. unfold resolve_variant_index. destruct p; run; apply safe_variant_index. Qed.
Lemma safe_variant_at n id i : safe (Spur := Spur) n (enum_variant_at id i) top.
Proof. unfold enum_variant_at. run. eapply safe_weaken, safe_expect; [reflexivity|done]. Qed.
Hint Resolve safe_pattern_type safe_fresh_for safe_type_at safe_resolve_variant_index safe_variant_at : gen.
Lemma safe_tuple_field_types {A} n ty (l : list A) : safe (Spur := Spur) n (tuple_field_types ty l) (λ n, Forall (below n)).
Proof. unfold tuple_field_types. destruct (concrete_struct ty); run. apply safe_ret. intros. apply concretes_below. Qed.
Lemma safe_struct_field_type n ty f : safe (Spur := Spur) n (struct_field_type resolve ty f) below.
Proof. unfold struct_field_type. destruct (concrete_struct ty); run. destruct (find_field _ _) as [[]|]; run. Qed.
Lemma safe_variant_field_types {A} n ty p (l : list A) :
  safe n (variant_field_types resolve infer_ctx ty p l) (λ n, Forall (below n)).
Proof.
  unfold variant_field_types. destruct (enum_id_of _ _); run. destruct a; run. apply safe_ret. intros. apply (concretes_below _ id).
Qed.
Lemma safe_variant_field_type n ty p f : safe n (variant_field_type resolve infer_ctx ty p f) below.
Proof. unfold variant_field_type. destruct (enum_id_of _ _); run. destruct a; run. destruct (variant_find_field _ _); run. Qed.
Hint Resolve safe_tuple_field_types safe_struct_field_type safe_variant_field_types safe_variant_field_type : gen.
Definition collects (p : RirPattern Spur) : Prop := ∀ n ty, below n ty → safe n (collect p ty) adds.
Lemma safe_register n b ty span :
  below n ty → (∀ q, pb_sub_pattern b = Some q → collects q) → safe n (register_binding collect b ty span) adds.
Proof.
  intros Hty Hsub. unfold register_binding. destruct (pb_sub_pattern b) as [q|]; [by apply Hsub|].
  destruct (pb_is_wildcard b); [apply safe_ret; constructor|]. destruct (pb_name b); [by apply safe_bind_local|apply safe_ret; constructor].
Qed.
Lemma omap_subs {A} (f : A → option (RirPattern Spur)) (P : RirPattern Spur → Prop) l :
  Forall P (omap f l) → Forall (λ b, ∀ q, f b = Some q → P q) l.
Proof.
  rewrite !list.Forall_forall. intros Hl b Hb q Hq. apply Hl, list_elem_of_omap. by exists b.
Qed.
Lemma safe_collect p : collects p.
Proof.
  induction p as [p IH] using sub_pattern_ind. intros n ty Hty. destruct p; simpl in *; try (apply safe_ret; constructor).
  - eapply safe_bind; [apply safe_variant_field_types|]. intros tys n1 Hn1 Ht.
    eapply safe_gatherM; [exact (omap_subs _ _ _ IH)|]. intros j b n2 Hn2 Hb. eapply safe_bind.
    + apply safe_type_at. eapply list.Forall_impl; [exact Ht|]. intros t. by apply below_mono.
    + intros t n3 Hn3 Ht3. by apply safe_register.
  - eapply safe_gatherM; [exact (omap_subs _ _ _ IH)|]. intros j b n2 Hn2 Hb. eapply safe_bind; [apply safe_variant_field_type|].
    intros t n3 Hn3 Ht3. by apply safe_register.
  - by apply safe_bind_local.
  - eapply safe_bind; [apply safe_tuple_field_types|]. intros tys n1 Hn1 Ht.
    eapply safe_gatherM; [exact IH|]. intros j b n2 Hn2 Hb. eapply safe_bind.
    + apply safe_type_at. eapply list.Forall_impl; [exact Ht|]. intros t. by apply below_mono.
    + intros t n3 Hn3 Ht3. by apply Hb.
  - eapply safe_gatherM; [apply (proj1 (List.Forall_map _ _ _) IH)|]. intros j b n2 Hn2 Hb. eapply safe_bind; [apply safe_struct_field_type|].
    intros t n3 Hn3 Ht3. by apply Hb.
Qed.

(** *** Instructions: every reference satisfies [P], and so can be generated *)
Section Step.
Context (rec : InstRef → M ExprInfo) (P : InstRef → Prop).
Context (Hrec : ∀ c n, P c → safe n (rec c) info_below).
Lemma safe_visit n i : P i → safe n (visit rec i) top.
Proof using Hrec. intros Hi. eapply safe_bind; [by apply Hrec|]. intros ? ? ? ?. by apply safe_ret. Qed.
Lemma safe_visit_opt n o : Forall P (option_list o) → safe n (visit_opt rec o) top.
Proof using Hrec. destruct o; simpl; intros Ho; [|by apply safe_ret]. apply safe_visit. by inversion Ho. Qed.
Lemma safe_visit_all n l : Forall P l → safe n (visit_all rec l) top.
Proof using Hrec. intros Hl. eapply safe_iterM; [exact Hl|]. intros. by apply safe_visit. Qed.
Lemma safe_visit_args n args : Forall (λ a, P (ra_value a)) args → safe n (visit_args rec args) top.
Proof using Hrec. intros Hl. eapply safe_iterM; [exact Hl|]. intros. by apply safe_visit. Qed.
Lemma known_below n table name : below n (known_type interner_get table name : InferType).
Proof. unfold known_type. by destruct (_ ≫= _). Qed.
Hint Resolve safe_visit safe_visit_opt safe_visit_all safe_visit_args : gen.
Hint Resolve safe_auto_deref : gen.

Ltac solve_below ::= simpl; unfold info_below, constraint_below, opt_below in *; simpl in *;
  repeat match goal with |- _ ∧ _ => split end; try done; try apply known_below;
  eauto 4 using below_mono, closed_below, Z.le_trans with lia.
Ltac step := first
  [ apply safe_ret; intros ? ?; solve [solve_below]
  | eapply safe_bind; [solve [eauto with gen]|intros ? ? ? ?]
  | eapply safe_bind; [apply safe_constraint; solve [solve_below]|intros ? ? ? ?]
  | eapply safe_bind; [apply safe_auto_deref; solve [solve_below]|intros ? ? ? ?]
  | apply safe_constraint; solve [solve_below]
  | solve [eauto with gen] ].
Ltac run ::= repeat step.
Lemma safe_binary_arith n x y : P x → P y → safe n (generate_binary_arith rec x y) below.
Proof using Hrec. intros Hx Hy. unfold generate_binary_arith. run. Qed.
Lemma safe_binary_bitwise n x y : P x → P y → safe n (generate_binary_bitwise rec x y) below.
Proof using Hrec. intros Hx Hy. unfold generate_binary_bitwise. run. Qed.
Lemma safe_bin n op x y span : P x → P y → safe n (generate_bin rec op x y span) below.
Proof using Hrec. intros Hx Hy. destruct op; simpl; first [by apply safe_binary_arith|by apply safe_binary_bitwise|run]. Qed.
Lemma safe_unary n op x span : P x → safe n (generate_unary rec op x span) below.
Proof using Hrec. intros Hx. unfold generate_unary. run. destruct op; run. Qed.
Lemma param_type_below n x : 0 ≤ n → below n (match params !! x with Some p => pvi_ty p | None => Concrete Ty.ERROR end).
Proof using Htables. intros Hn. destruct (params !! x) as [p|] eqn:Hp; [by eapply param_closed|done]. Qed.
Lemma safe_var_ref n x : safe n (generate_var_ref params x) below.
Proof using Htables.
  apply safe_nonneg. intros n' _ Hn. eapply safe_bind; [apply safe_get_local|]. intros o n1 Hn1 Ho. apply safe_ret. intros n2 Hn2.
  destruct o; [by eapply below_mono|]. apply param_type_below. lia.
Qed.
Lemma safe_alloc n x mu ty i span : P i → safe n (generate_alloc resolve interner_get infer_ctx type_subst rec x mu ty i span) below.
Proof using Hrec.
  intros Hi. unfold generate_alloc. eapply safe_bind; [by apply Hrec|]. intros info n1 Hn1 Hinfo. eapply (safe_bind _ _ _ below).
  - destruct ty as [t|]; [|run]. run. destruct a; run.
  - intros vt n2 Hn2 Hvt. eapply (safe_bind _ _ _ top); [|intros ? ? ? ?; run].
    destruct x; [by apply safe_insert_local|by apply safe_ret].
Qed.
Lemma safe_destructure n ty s len i span l :
  P i → get_destructure_fields rir s len = Done l → safe n (generate_destructure resolve rir infer_ctx rec ty s len i span) below.
Proof using Hrec.
  intros Hi Hl. unfold generate_destructure. step. eapply (safe_bind _ _ _ top); [|intros ? ? ? ?; run].
  destruct (_ ≫= _); [|by apply safe_ret]. rewrite Hl. step. eapply safe_bind; [by apply safe_lift|]. intros fs n2 Hn2 _.
  eapply (safe_iterM _ _ (λ _, True)); [by apply list.Forall_true|]. intros f n3 Hn3 _. unfold bind_destructured.
  destruct (df_is_wildcard f); [by apply safe_ret|]. destruct (find_field _ _) as [[? sf]|]; [|by apply safe_ret].
  by apply safe_insert_local.
Qed.
Lemma safe_assign n x i span : P i → safe n (generate_assign params rec x i span) below.
Proof using Hrec Htables.
  intros Hi. apply safe_nonneg. intros n' _ Hn. unfold generate_assign. step.
  eapply safe_bind; [apply safe_get_local|]. intros o n2 Hn2 Ho. eapply (safe_bind _ _ _ top); [|intros ? ? ? ?; run].
  destruct o as [v|]; [run|]. destruct (params !! x) as [p|] eqn:Hp; simpl; [|by apply safe_ret].
  assert (below n2 (pvi_ty p)) by (eapply param_closed; [lia|done]). run.
Qed.
Lemma safe_return n o span : Forall P (option_list o) → safe n (generate_ret return_type rec o span) below.
Proof using Hrec.
  intros Ho. unfold generate_ret. eapply (safe_bind _ _ _ top); [|intros ? ? ? ?; run].
  destruct o as [i|]; [|run]. assert (P i) by (by inversion Ho). run.
Qed.

(** Calls. *)
Lemma safe_is_interface n ty : safe (Spur := Spur) n (is_interface_type ty) top.
Proof. unfold is_interface_type. destruct ty; run. Qed.
Hint Resolve safe_is_interface safe_relax : gen.
Lemma safe_function_argument n a ty : P (ra_value a) → closed ty → safe n (function_argument rir params rec a ty) top.
Proof using Hrec Htables.
  intros Ha Hty. apply safe_nonneg. intros n' _ Hn. unfold function_argument. do 2 step. destruct a1; [by apply safe_ret|].
  eapply safe_bind; [by apply safe_relax|]. intros o n3 Hn3 Ho. apply safe_constraint. unfold info_below in *.
  split; [eapply below_mono; [|done]; lia|]. destruct o; simpl; [done|]. eapply closed_below; [lia|done].
Qed.
Lemma safe_mangled_argument n a ty : P (ra_value a) → closed ty → safe n (mangled_argument rec a ty) top.
Proof using Hrec.
  intros Ha Hty. apply safe_nonneg. intros n' _ Hn. unfold mangled_argument. do 2 step. destruct a1; [by apply safe_ret|]. run.
Qed.
Lemma safe_method_argument n a ty : P (ra_value a) → closed ty → safe n (method_argument rec a ty) top.
Proof using Hrec. intros Ha Hty. apply safe_nonneg. intros n' _ Hn. unfold method_argument. run. Qed.
Lemma safe_arguments n f args ps :
  (∀ n a ty, P (ra_value a) → closed ty → safe n (f a ty) top) →
  Forall (λ a, P (ra_value a)) args → Forall closed ps → safe (Spur := Spur) n (arguments f args ps) top.
Proof.
  intros Hf Ha Hp. eapply (safe_iterM _ _ (λ x, P (ra_value x.1) ∧ closed x.2)); [|intros [a ty] n1 _ [Hx Hy]; by apply Hf].
  revert ps Hp. induction Ha as [|a args Ha _ IH]; intros ps Hp; [constructor|]. destruct Hp as [|p ps Hp Hps]; constructor; [done|by apply IH].
Qed.
Lemma safe_generic_arguments n func i args subst :
  Forall (λ a, P (ra_value a)) args → safe n (generic_arguments resolve rir infer_ctx type_subst rec func i args subst) top.
Proof using Hrec.
  intros Ha. revert n i subst. induction Ha as [|a args Ha _ IH]; intros n i subst; simpl; [by apply safe_ret|].
  eapply safe_bind; [by apply Hrec|]. intros info n1 Hn1 _. eapply (safe_bind _ _ _ top); [|intros; apply IH].
  destruct (default _ _); [|by apply safe_ret]. eapply safe_bind; [apply safe_rir_get|]. intros ? ? ? ?. by apply safe_ret.
Qed.
Lemma safe_generic_return n func subst :
  closed (fsg_return_type func) → safe n (generic_return_type resolve interner_get infer_ctx type_subst func subst) below.
Proof.
  intros Hc. apply safe_nonneg. intros n' _ Hn. unfold generic_return_type. case_decide; [|run]. case_match; [run|].
  eapply safe_bind; [apply safe_resolve_local|]. intros o n2 Hn2 Ho. apply safe_ret. intros n3 Hn3.
  destruct o; simpl; [by eapply below_mono|]. eapply closed_below; [lia|done].
Qed.
Lemma safe_call n f s len l :
  rir_get_call_args rir s len = Done l → Forall (λ a, P (ra_value a)) l →
  safe n (generate_call resolve interner_get rir infer_ctx type_subst params rec f s len) below.
Proof using Hrec Htables.
  intros Hl Ha. apply safe_nonneg. intros n' _ Hn. unfold generate_call. rewrite Hl.
  eapply safe_bind; [by apply safe_lift|]. intros l' n1 Hn1 [= <-].
  destruct (func_sigs infer_ctx !! f) as [func|] eqn:Hf.
  - destruct (tc_functions Htables f func Hf) as [Hps Hr]. case_match.
    { eapply safe_bind; [by apply safe_generic_arguments|]. intros ? ? ? ?. by apply safe_generic_return. }
    case_match; [run|]. eapply safe_bind; [by apply safe_arguments; [apply safe_function_argument|..]|]. intros ? ? ? ?. run.
  - eapply (safe_bind _ _ _ (λ _ o, match o with Some m => sig_closed (msg_param_types m) (msg_return_type m) | None => True end)).
    { intros g Hg Hng. unfold mangled_method, gets. split; [done|]. split; [done|].
      destruct (_ ≫= _) as [m|] eqn:Hm; [|done]. repeat (apply bind_Some in Hm as (? & _ & Hm) || destruct x as [? ?]).
      all: try exact (tc_methods Htables _ m Hm). }
    intros [m|] n2 Hn2 Hm; [|run]. destruct Hm as [Hps Hr]. eapply (safe_bind _ _ _ top); [|intros ? ? ? ?; run].
    case_match; [run|]. by apply safe_arguments; [apply safe_mangled_argument|..].
Qed.
Lemma safe_pointee n ty : safe (Spur := Spur) n (pointee_of ty) top.
Proof. unfold pointee_of. run. destruct a; run. Qed.
Lemma safe_call_method n sig args :
  match sig with Some m => sig_closed (msg_param_types m) (msg_return_type m) | None => True end →
  Forall (λ a, P (ra_value a)) args → safe n (call_method rec sig args) below.
Proof using Hrec.
  intros Hs Ha. apply safe_nonneg. intros n' _ Hn. unfold call_method. destruct sig as [m|]; [|run]. destruct Hs as [Hp Hr].
  eapply safe_bind; [by apply safe_arguments; [apply safe_method_argument|..]|]. intros ? ? ? ?. run.
Qed.
Definition either_below (n : Z) (r : InferType + InferType) : Prop := match r with inl t | inr t => below n t end.
Lemma lookup_closed {K} `{Countable K} (table : gmap K MethodSig) k :
  map_Forall (λ _ m, sig_closed (msg_param_types m) (msg_return_type m)) table →
  match table !! k with Some m => sig_closed (msg_param_types m) (msg_return_type m) | None => True end.
Proof. intros Ht. destruct (table !! k) as [m|] eqn:Hm; [exact (Ht k m Hm)|done]. Qed.
Lemma safe_method_call n r x s len l :
  P r → rir_get_call_args rir s len = Done l → Forall (λ a, P (ra_value a)) l →
  safe n (generate_method_call resolve rir infer_ctx rec r x s len) either_below.
Proof using Hrec Htables.
  intros Hr Hl Ha. unfold generate_method_call. rewrite Hl. eapply safe_bind; [by apply Hrec|]. intros info n1 Hn1 Hi.
  eapply safe_bind; [by apply safe_lift|]. intros l' n2 Hn2 [= <-].
  destruct (ei_ty info); try (step; eapply safe_bind; [apply safe_fresh_type|]; intros t n3 Hn3 Ht; apply safe_ret;
    intros n4 Hn4; by eapply below_mono).
  eapply safe_bind; [apply safe_pointee|]. intros [pt|] n3 Hn3 _.
  { step. by apply safe_ret. }
  eapply (safe_bind _ _ _ below); [|intros t n4 Hn4 Ht; apply safe_ret; intros n5 Hn5; by eapply below_mono].
  destruct (as_struct ty); [apply safe_call_method; [apply lookup_closed, Htables|done]|].
  destruct (as_enum ty); [apply safe_call_method; [apply lookup_closed, Htables|done]|]. run.
Qed.
Lemma safe_assoc_call n ty f s len l :
  rir_get_call_args rir s len = Done l → Forall (λ a, P (ra_value a)) l →
  safe n (generate_assoc_fn_call rir infer_ctx rec ty f s len) below.
Proof using Hrec Htables.
  intros Hl Ha. unfold generate_assoc_fn_call. rewrite Hl. eapply safe_bind; [by apply safe_lift|]. intros l' n2 Hn2 [= <-].
  apply safe_call_method; [|done]. destruct (_ !! ty ≫= as_struct); simpl; [apply lookup_closed, Htables|done].
Qed.

(** Intrinsics. *)
Lemma safe_range n l span : Forall P l → safe n (generate_range rec l span) below.
Proof using Hrec.
  intros Hl. destruct Hl as [|i l Hi Hl]; simpl; [run|]. step. eapply safe_bind; [|intros ? ? ? ?; run].
  eapply safe_iterM; [exact Hl|]. intros x n2 Hn2 Hx. run.
Qed.
Lemma safe_u8 n : safe (Spur := Spur) n (pool_intern (λ p, intern_slice_from_type p Ty.U8)) top ∧
  safe (Spur := Spur) n (pool_intern (λ p, intern_vec_from_type p Ty.U8)) top.
Proof. destruct (construct_interns (Spur := Spur) Ty.U8) as (_ & _ & _ & _ & H5 & _ & H7). split; by apply safe_intern. Qed.
Lemma safe_intrinsic n x s len span l :
  get_inst_refs rir s len = Done l → Forall P l →
  safe n (generate_intrinsic resolve interner_get rir infer_ctx rec x s len span) below.
Proof using Hrec.
  intros Hl Ha. unfold generate_intrinsic. rewrite Hl. eapply safe_bind; [by apply safe_lift|]. intros l' n1 Hn1 [= <-].
  assert (Hh : Forall P (option_list (list.head l))) by (destruct Ha; simpl; [constructor|by constructor]).
  destruct (in_id <$> _) as [[]|]; try (run; fail).
  all: try (apply safe_range; done).
  all: eapply safe_bind; [by apply safe_visit_all|intros ? n2 ? ?];
    (eapply safe_bind; [apply (safe_u8 n2)|intros ? ? ? ?; by apply safe_ret]).
Qed.
Lemma safe_type_intrinsic n x : safe n (generate_type_intrinsic resolve interner_get infer_ctx x) below.
Proof. unfold generate_type_intrinsic. destruct (in_id <$> _) as [[]|]; run. Qed.

(** Control flow. *)
Lemma last_below n infos : Forall (info_below n) infos → below n (match list.last infos with Some i => ei_ty i | None => Concrete Ty.UNIT end).
Proof.
  intros Hi. destruct (list.last infos) as [i|] eqn:Hl; [|done]. apply last_Some_elem_of in Hl. rewrite list.Forall_forall in Hi. by apply Hi.
Qed.
Lemma info_below_mono n n' i : n ≤ n' → info_below n i → info_below n' i.
Proof. apply below_mono. Qed.
Lemma safe_block n s len l : rir_get_extra rir s len = Done l → Forall P l → safe n (generate_block rir rec s len) below.
Proof using Hrec.
  intros Hl Ha g Hg Hn. unfold generate_block, set_gen_scopes, set_ctx, modify, mbind, ST_bind, lift_st. rewrite Hl. simpl.
  set (g1 := MkGen _ _ _ _ _ _ _).
  assert (Hg1 : gen_ok g1) by (destruct Hg; split; try done; simpl; constructor; [constructor|done]).
  assert (Hs : safe n (collectM rec l) (λ n, Forall (info_below n))).
  { eapply safe_collectM; [by eauto using info_below_mono|exact Ha|]. intros. by apply Hrec. }
  specialize (Hs g1 Hg1 Hn). destruct (collectM rec l g1) as [[infos g2]| |]; [|done..]. simpl.
  destruct Hs as (Hg2 & Hl2 & Hi). pose proof (la_scopes _ _ Hl2) as Hfr. unfold pop_scope. simpl in Hfr.
  destruct (scope_stack (gc_scopes (g_ctx g2))) as [|top rest] eqn:Hst; [done|]. destruct Hfr as [_ <-].
  pose proof (ok_saved _ Hg2) as Hsv. rewrite Hst in Hsv. apply list.Forall_cons in Hsv as [Htop Hrest].
  split; [|split; [|by apply last_below]].
  - destruct Hg2. split; try done. simpl. by apply restore_all_below.
  - destruct Hl2. split; try done. simpl. apply frame_refl.
Qed.
Lemma safe_join n infos : Forall (info_below n) infos → safe (Spur := Spur) n (join_types infos) below.
Proof.
  intros Hi. unfold join_types. assert (Hf : Forall (info_below n) (filter (λ i, is_never_type (ei_ty i) = false) infos)).
  { apply list.Forall_forall. intros i [_ Hin]%list_elem_of_filter. rewrite list.Forall_forall in Hi. by apply Hi. }
  destruct (filter _ infos) as [|i l]; [run|]. step. eapply safe_bind; [|intros ? ? ? ?; run].
  eapply safe_iterM; [exact Hf|]. intros x n2 Hn2 Hx. apply safe_constraint. solve_below.
Qed.
Lemma safe_branch n c t e : P c → P t → Forall P (option_list e) → safe n (generate_branch rec c t e) below.
Proof using Hrec.
  intros Hc Ht He. unfold generate_branch. run. destruct e as [e|]; [|run]. assert (P e) by (by inversion He). step.
  destruct (is_never_type _), (is_never_type _); run.
Qed.
Lemma safe_loop_body n b : P b → safe n (loop_body rec b) top.
Proof using Hrec.
  intros Hb g Hg Hn. unfold loop_body, enter_loop, leave_loop, step_loop_depth, set_ctx, modify, mbind, ST_bind.
  unfold checked_add at 1. case_decide; simpl; [|done]. set (g1 := MkGen _ _ _ _ _ _ _).
  assert (Hg1 : gen_ok g1) by (destruct Hg; by split).
  pose proof (safe_visit n b Hb g1 Hg1 Hn) as Hv. destruct (visit rec b g1) as [[u g2]| |]; [|done..]. simpl.
  destruct Hv as (Hg2 & Hl2 & _). unfold checked_sub. case_decide; simpl; [|done].
  split; [destruct Hg2; by split|]. split; [|done]. pose proof (la_depth _ _ Hl2) as Hd. destruct Hl2. simpl in *.
  split; try done. simpl. lia.
Qed.
Hint Resolve safe_loop_body : gen.
Lemma safe_loop n c b : P c → P b → safe n (generate_loop rec c b) below.
Proof using Hrec. intros Hc Hb. unfold generate_loop. run. Qed.
Lemma safe_binding_type n ty : below n ty → safe (Spur := Spur) n (binding_type ty) below.
Proof. intros Hty. unfold binding_type. destruct ty; run. destruct a; run. Qed.
Lemma safe_for n x mu i b span : P i → P b → safe n (generate_for rec x mu i b span) below.
Proof using Hrec.
  intros Hi Hb. unfold generate_for. step. eapply safe_bind; [by apply safe_binding_type|]. intros t n2 Hn2 Ht.
  eapply safe_bind; [by apply safe_insert_local|]. intros ? ? ? ?. run.
Qed.
Lemma safe_unroll n x i b span : P i → P b → safe n (generate_unroll_for rec x i b span) below.
Proof using Hrec.
  intros Hi Hb. unfold generate_unroll_for. do 2 step. eapply safe_bind; [by apply safe_insert_local|]. intros ? ? ? ?. run.
Qed.

(** Match. *)
Lemma safe_variant_arm {A} n ty v (ft : EnumVariantDef → nat → A → M InferType) b span l :
  (∀ n d i x, safe n (ft d i x) below) → safe n (variant_arm_bindings resolve infer_ctx ty v ft b span l) adds.
Proof.
  intros Hft. unfold variant_arm_bindings.
  assert (Hb : ∀ (f : nat → A → M InferType) n, (∀ n i x, safe n (f i x) below) →
    safe n (gatherM (λ i x, t ← f i x; register_binding collect (b x) t span) 0 l) adds).
  { intros f n0 Hf. eapply (safe_gatherM _ _ (λ _, True)); [by apply list.Forall_true|]. intros j x n1 _ _.
    eapply safe_bind; [apply Hf|]. intros t n2 _ Ht. apply safe_register; [done|]. intros q _. apply safe_collect. }
  destruct (enum_id_of _ _); [|apply (Hb (λ _ _, fresh_type)); intros; apply safe_fresh_type].
  step. destruct (find_variant _ _); [|apply safe_ret; constructor]. eapply safe_bind; [apply safe_expect|]. intros d n2 Hn2 _.
  apply (Hb (ft d)). intros. apply Hft.
Qed.
Lemma safe_arm_bindings n p ty : below n ty → safe n (arm_bindings resolve infer_ctx p ty) adds.
Proof.
  intros Hty. unfold arm_bindings. destruct p; try (apply safe_ret; constructor); try (by apply safe_collect).
  - apply safe_variant_arm. intros. unfold data_field_type. apply safe_ret. intros. by destruct (_ !! _).
  - apply safe_variant_arm. intros. unfold named_field_type. destruct (variant_find_field _ _); run.
Qed.
Lemma safe_arm n ty arm : below n ty → P arm.2 → safe n (generate_arm resolve infer_ctx rec ty arm) info_below.
Proof using Hrec.
  intros Hty Hp. unfold generate_arm. run. eapply safe_bind; [apply safe_arm_bindings; solve_below|]. intros added n3 Hn3 Ha.
  eapply safe_bind; [by apply Hrec|]. intros info n4 Hn4 Hi. eapply safe_bind; [apply safe_remove|].
  - eapply list.Forall_impl; [exact Ha|]. intros e. by apply saved_below_mono.
  - intros ? n5 Hn5 _. apply safe_ret. intros n6 Hn6. eapply info_below_mono; [|done]. lia.
Qed.
Lemma safe_match n i s len l :
  P i → rir_get_match_arms rir s len = Done l → Forall (λ a, P a.2) l → safe n (generate_match resolve rir infer_ctx rec i s len) below.
Proof using Hrec.
  intros Hi Hl Ha. unfold generate_match. rewrite Hl. step. eapply safe_bind; [by apply safe_lift|]. intros l' n2 Hn2 [= <-].
  eapply (safe_bind _ _ _ (λ n, Forall (info_below n))); [|intros infos n3 Hn3 Hinfos; by apply safe_join].
  eapply safe_collectM; [by eauto using info_below_mono|exact Ha|]. intros x n3 Hn3 Hx. apply safe_arm; [solve_below|done].
Qed.

(** Aggregates. *)
Lemma safe_visit_fields n s len l : get_field_inits rir s len = Done l → Forall (λ f, P f.2) l → safe n (visit_fields rir rec s len) top.
Proof using Hrec.
  intros Hl Ha. unfold visit_fields. rewrite Hl. eapply safe_bind; [by apply safe_lift|]. intros l' n2 Hn2 [= <-].
  eapply safe_iterM; [exact Ha|]. intros f n3 Hn3 Hf. by apply safe_visit.
Qed.
Lemma safe_struct_init n ty s len l :
  get_field_inits rir s len = Done l → Forall (λ f, P f.2) l → safe n (generate_struct_init rir infer_ctx type_subst rec ty s len) below.
Proof using Hrec.
  intros Hl Ha. unfold generate_struct_init. case_match; [|run].
  eapply safe_bind; [by eapply safe_visit_fields|]. intros ? ? ? ?. by apply safe_ret.
Qed.
Lemma safe_enum_or_fresh n ty : safe n (enum_type_or_fresh infer_ctx ty) below.
Proof. unfold enum_type_or_fresh. destruct (_ !! _); run. Qed.
Hint Resolve safe_enum_or_fresh : gen.
Lemma safe_base_struct n ty : safe (Spur := Spur) n (base_struct ty) top.
Proof. unfold base_struct. step. destruct a; first [apply safe_referent|by apply safe_ret]. Qed.
Hint Resolve safe_base_struct : gen.
Lemma safe_field_type n ty f : safe (Spur := Spur) n (field_type resolve ty f) top.
Proof. unfold field_type. destruct ty; run. destruct (a ≫= as_struct); run. Qed.
Hint Resolve safe_field_type : gen.
Lemma safe_field_get n b f : P b → safe n (generate_field_get resolve rec b f) below.
Proof using Hrec. intros Hb. unfold generate_field_get. run. destruct a0; run. Qed.
Lemma safe_array_init n s len l : get_inst_refs rir s len = Done l → Forall P l → safe n (generate_array_init rir rec s len) below.
Proof using Hrec.
  intros Hl Ha. unfold generate_array_init. rewrite Hl. eapply safe_bind; [by apply safe_lift|]. intros l' n1 Hn1 [= <-].
  destruct Ha as [|i l Hi Ha]; [run|]. step. eapply safe_bind; [|intros ? ? ? ?; run].
  eapply safe_iterM; [exact Ha|]. intros x n3 Hn3 Hx. run.
Qed.
Lemma safe_index n b i : P b → P i → safe n (generate_index rec b i) below.
Proof using Hrec. intros Hb Hi. unfold generate_index. run. Qed.
Hint Resolve safe_index : gen.
Lemma safe_index_get n b i : P b → P i → safe n (generate_index_get rec b i) below.
Proof using Hrec. intros Hb Hi. unfold generate_index_get. run. destruct a; run. Qed.
Lemma safe_index_set n b i v : P b → P i → P v → safe n (generate_index_set rec b i v) below.
Proof using Hrec.
  intros Hb Hi Hv. unfold generate_index_set. do 2 step. eapply (safe_bind _ _ _ top); [|intros ? ? ? ?; run]. destruct a; run.
Qed.

(** The references of an instruction, its own and those of its payloads, which can be read. *)
Definition children (data : InstData Spur) : Prop :=
  Forall P (operands data) ∧
  Forall (λ p : PayloadKind * Z * Z, ∃ items, get_payload p.1.1 rir p.1.2 p.2 = Done items ∧ Forall P (flat_map (item_refs p.1.1) items))
    (payloads data).
Lemma refs_args l : Forall P (flat_map (item_refs (Spur := Spur) KCallArgs) l) → Forall (λ a, P (ra_value a)) l.
Proof. induction l; simpl; inversion 1; constructor; auto. Qed.
Lemma refs_self l : Forall P (flat_map (item_refs (Spur := Spur) KRefs) l) → Forall P l.
Proof. induction l; simpl; inversion 1; constructor; auto. Qed.
Lemma refs_fields l : Forall P (flat_map (item_refs (Spur := Spur) KFieldInits) l) → Forall (λ f, P f.2) l.
Proof. induction l; simpl; inversion 1; constructor; auto. Qed.
Lemma refs_arms l : Forall P (flat_map (item_refs (Spur := Spur) KArms) l) → Forall (λ a, P a.2) l.
Proof. induction l as [|a l IH]; simpl; [constructor|]. inversion 1 as [|? ? ? Hl]. apply list.Forall_app in Hl as [_ Hl]. constructor; auto. Qed.
Ltac open_children :=
  repeat match goal with
  | H : Forall _ (_ :: _) |- _ => apply list.Forall_cons in H as [H ?]; cbn beta in H; cbn [fst snd] in H
  | H : ∃ _, get_payload _ _ _ _ = _ ∧ _ |- _ => destruct H as (? & H & ?); cbn [get_payload] in H
  | H : Forall _ (flat_map (item_refs KCallArgs) _) |- _ => apply refs_args in H
  | H : Forall _ (flat_map (item_refs KRefs) _) |- _ => apply refs_self in H
  | H : Forall _ (flat_map (item_refs KFieldInits) _) |- _ => apply refs_fields in H
  | H : Forall _ (flat_map (item_refs KArms) _) |- _ => apply refs_arms in H
  end.
Lemma safe_int_literal n : safe (Spur := Spur) n (v ← gen_fresh_var; push_int_literal_var v;; mret (Var v)) below.
Proof. eapply (safe_literal n _ (λ v l, l ++ [v]) (λ _ l, l)); [done|]. intros v l l'. solve_Permutation. Qed.
Lemma safe_float_literal n : safe (Spur := Spur) n (v ← gen_fresh_var; push_float_literal_var v;; mret (Var v)) below.
Proof. eapply (safe_literal n _ (λ _ l, l) (λ v l, l ++ [v])); [done|]. intros v l l'. solve_Permutation. Qed.
Hint Resolve safe_int_literal safe_float_literal safe_bin safe_unary safe_var_ref safe_alloc safe_destructure safe_assign safe_return : gen.
Hint Resolve safe_call safe_assoc_call safe_intrinsic safe_type_intrinsic safe_block safe_branch safe_loop safe_for safe_unroll : gen.
Hint Resolve safe_match safe_struct_init safe_visit_fields safe_field_get safe_array_init safe_index_get safe_index_set : gen.
Lemma type_interface_below n x : below n (type_interface_intrinsic resolve x).
Proof. unfold type_interface_intrinsic. by destruct (in_id <$> _) as [[]|]. Qed.
Lemma safe_data n data span :
  children data → safe n (generate_data resolve interner_get rir infer_ctx type_subst params return_type rec data span) below.
Proof using Hrec Htables.
  intros [Ho Hp]. destruct data; cbn [operands payloads] in Ho, Hp; open_children; cbn [generate_data];
    first [solve [eauto with gen]|run].
  - match goal with H : Forall _ (_ ++ _) |- _ => apply list.Forall_app in H as [? ?] end. run.
  - apply safe_ret. intros. apply type_interface_below.
  - apply safe_nonneg. intros n' _ Hn. apply safe_ret. intros. apply param_type_below. lia.
  - match goal with H : get_inst_refs _ _ _ = _ |- _ => rewrite H end. eapply safe_bind; [by apply safe_lift|]. intros l' n1 Hn1 [= <-]. run.
Qed.
Lemma safe_step n i inst :
  rir_get rir i = Done inst → children (ri_data inst) →
  safe n (generate_step resolve interner_get rir infer_ctx type_subst params return_type rec i) info_below.
Proof using Hrec Htables.
  intros Hi Hc. unfold generate_step. rewrite Hi. eapply safe_bind; [by apply safe_lift|]. intros inst' n1 Hn1 [= <-]. cbv zeta.
  eapply (safe_bind _ _ _ either_below).
  - assert (Hd : safe n1 (ty ← generate_data resolve interner_get rir infer_ctx type_subst params return_type rec (ri_data inst) (ri_span inst);
      mret (inr ty)) either_below).
    { eapply safe_bind; [by apply safe_data|]. intros ty n2 Hn2 Hty. apply safe_ret. intros. by eapply below_mono. }
    destruct (ri_data inst) as [] eqn:E; try exact Hd. destruct Hc as [Ho Hp]. cbn [operands payloads] in Ho, Hp. open_children.
    by eapply safe_method_call.
  - intros [ty|ty] n2 Hn2 Hty; [apply safe_ret; intros; by eapply below_mono|].
    eapply safe_bind; [by apply safe_record|]. intros ? n3 Hn3 _. apply safe_ret. intros. eapply below_mono; [|exact Hty]. lia.
Qed.
End Step.

(** ** The whole walk *)
(** Instructions refer to earlier instructions, themselves and through payloads that can be read. *)
Definition bottom_up : Prop := ∀ i inst, 0 ≤ i → rir_get rir i = Done inst → children (λ c, 0 ≤ c < i) (ri_data inst).
Lemma safe_generate fuel i n :
  bottom_up → 0 ≤ i → (Z.to_nat i < fuel)%nat →
  safe n (generate resolve interner_get rir infer_ctx type_subst params return_type fuel i) info_below.
Proof using Htables.
  intros Hr. revert i n. induction fuel as [|fuel IH]; intros i n Hi Hf; [lia|]. simpl.
  destruct (rir_get rir i) as [inst| |] eqn:Hg.
  - eapply (safe_step _ (λ c, 0 ≤ c < i)); [|exact Hg|by apply Hr]. intros c n' Hc. apply IH; lia.
  - intros g _ _. unfold generate_step, mbind, ST_bind, lift_st. by rewrite Hg.
  - by apply rir_get_total in Hg.
Qed.
Lemma generate_records fuel i g info g' inst :
  generate resolve interner_get rir infer_ctx type_subst params return_type fuel i g = Done (info, g') →
  rir_get rir i = Done inst → ei_span info = ri_span inst ∧
  ((∀ r m s l, ri_data inst ≠ RMethodCall r m s l) → g_expr_types g' !! i = Some (ei_ty info)).
Proof.
  destruct fuel as [|fuel]; [done|]. cbn [generate]. unfold generate_step, mbind at 1, ST_bind at 1, lift_st at 1. intros Hd Hi.
  rewrite Hi in Hd. cbn in Hd. unfold mbind at 1, ST_bind at 1 in Hd. apply bind_Done in Hd as ([r g1] & Hr & Hd).
  destruct r as [ty|ty]; cbn in Hd; injection Hd as <- <-; simpl; (split; [done|intros Hm]); [|by rewrite lookup_insert_eq].
  exfalso. destruct (ri_data inst); try (apply bind_Done in Hr as ([? ?] & _ & Hr); discriminate Hr). by eapply Hm.
Qed.
End Generators.
