(* ===== verification/InferBody.v ===== *)
(** * Type inference of a function body

    Models [run_type_inference] of [crates/gruel-air/src/sema/analysis.rs] and the conversions
    between types and inference types of [sema/typeck.rs]: constraint generation ([Generate]), the
    solver ([Unify]), the defaults of literals and the types of all expressions. A reported error
    is the [UnificationError]; its text is not kept. The order in which a hash map is read is a
    parameter. *)

From S2P Require Import Prelude Types AirPattern Air InternPool ParamArena Scope Infer Unify Rir RirCodec RirStore RirRelocate RirMergeSpec AstGenWf AstGenThm TypeSyntax Intrinsics Generate GenerateThm.

#[local] Open Scope Z_scope.

Section Body.
Context {Spur : Type} `{Countable Spur} `{!SpurKey Spur}.
Notation TypeInternPool := (TypeInternPool (Spur := Spur)).

(** ** Conversions *)
(** [infer_type_to_type]; [infer_type_to_concrete_type_for_key] does the same. *)
Fixpoint infer_type_to_type (ty : InferType) (p : TypeInternPool) : outcome (Ty * TypeInternPool) :=
  match ty with
  | Concrete t => mret (t, p)
  | Var _ => mret (Ty.ERROR, p)
  | IntLiteral => mret (Ty.I32, p)
  | FloatLiteral => mret (Ty.F64, p)
  | Array element length =>
      '(elem_ty, p) ← infer_type_to_type element p;
      if decide (elem_ty = Ty.ERROR) then mret (Ty.ERROR, p)
      else '(array_type_id, p) ← intern_array_from_type p elem_ty length; mret (new_array array_type_id, p)
  end.
Definition infer_type_to_concrete_type_for_key := infer_type_to_type.
Fixpoint pre_create_array_types_from_infer_type (ty : InferType) (p : TypeInternPool) : outcome TypeInternPool :=
  match ty with
  | Array element length =>
      p ← pre_create_array_types_from_infer_type element p;
      '(elem_ty, p) ← infer_type_to_concrete_type_for_key element p;
      if decide (elem_ty = Ty.ERROR) then mret p
      else '(_, p) ← intern_array_from_type p elem_ty length; mret p
  | _ => mret p
  end.

(** ** Parameters *)
Definition comptime_value_type (v : ConstValue) : outcome Ty :=
  match v with
  | CInteger _ => mret Ty.COMPTIME_INT
  | CBool _ => mret Ty.BOOL
  | CType t => mret t
  | CUnit => mret Ty.UNIT
  | CComptimeStr _ => mret Ty.COMPTIME_STR
  | _ => Panic
  end.
Definition add_param_var (p : TypeInternPool) (vars : gmap Spur ParamVarInfo) (x : Spur * Ty * RirParamMode)
    : outcome (gmap Spur ParamVarInfo) :=
  ty ← type_to_infer p x.1.2; mret (<[x.1.1 := MkParamVar ty x.2]> vars).
Definition add_value_var (p : TypeInternPool) (vars : gmap Spur ParamVarInfo) (x : Spur * ConstValue)
    : outcome (gmap Spur ParamVarInfo) :=
  ty ← comptime_value_type x.2; ty ← type_to_infer p ty; mret (<[x.1 := MkParamVar ty ParamComptime]> vars).
Definition param_vars (p : TypeInternPool) (params : list (Spur * Ty * RirParamMode)) (values : list (Spur * ConstValue))
    : outcome (gmap Spur ParamVarInfo) :=
  vars ← foldM (add_param_var p) ∅ params; foldM (add_value_var p) vars values.

(** ** Solving *)
Definition pre_create_step (fuel : nat) (st : Substitution * TypeInternPool) (e : InstRef * InferType)
    : outcome (Substitution * TypeInternPool) :=
  '(resolved, s) ← resolve_infer_type fuel e.2 st.1;
  p ← pre_create_array_types_from_infer_type resolved st.2;
  mret (s, p).
Definition resolve_step (fuel : nat) (st : gmap Z Ty * (Substitution * TypeInternPool)) (e : InstRef * InferType)
    : outcome (gmap Z Ty * (Substitution * TypeInternPool)) :=
  '(resolved, s) ← resolve_infer_type fuel e.2 st.2.1;
  '(ty, p) ← infer_type_to_type resolved st.2.2;
  mret (<[e.1 := ty]> st.1, (s, p)).
(** After generation: the first error, or the types of the expressions [iter] lists. *)
Definition solve_body (fuel : nat) (iter : gmap Z InferType → list (Z * InferType)) (g : ConstraintGenerator Spur)
    : outcome ((UnificationError + gmap Z Ty) * TypeInternPool) :=
  '(errors, s) ← solve_constraints fuel (g_constraints g) (unifier_with_capacity (var_count (g_type_vars g)));
  match errors with
  | err :: _ => match ue_kind err with UOk => Panic | _ => mret (inl err, g_type_pool g) end
  | [] =>
      s ← default_int_literal_vars fuel (g_int_literal_vars g) s;
      s ← default_float_literal_vars fuel (g_float_literal_vars g) s;
      st ← foldM (pre_create_step fuel) (s, g_type_pool g) (iter (g_expr_types g));
      '(types, (_, p)) ← foldM (resolve_step fuel) (∅, st) (iter (g_expr_types g));
      mret (inr types, p)
  end.

Context (resolve : Spur → string) (interner_get : string → option Spur).
Context (rir : Rir Spur) (infer_ctx : InferenceContext Spur).
(** Generation, with the constraint on the value of the body. [value_subst] below is the entries of
    the map of captured values. *)
Definition generate_body (type_subst : option (gmap Spur Ty)) (vars : gmap Spur ParamVarInfo) (return_type : Ty) (body : InstRef)
    : ST (ConstraintGenerator Spur) () :=
  body_info ← generate resolve interner_get rir infer_ctx type_subst vars return_type (S (Z.to_nat body)) body;
  body_ty ← auto_deref (ei_ty body_info);
  ret ← pool_get (λ p, type_to_infer p return_type);
  add_constraint (CEqual body_ty ret (ei_span body_info)).
Definition run_type_inference (fuel : nat) (iter : gmap Z InferType → list (Z * InferType)) (return_type : Ty)
    (params : list (Spur * Ty * RirParamMode)) (body : InstRef) (type_subst : option (gmap Spur Ty))
    (value_subst : list (Spur * ConstValue)) (pool : TypeInternPool)
    : outcome ((UnificationError + gmap Z Ty) * TypeInternPool) :=
  vars ← param_vars pool params value_subst;
  '(_, g) ← generate_body type_subst vars return_type body (new_generator pool);
  solve_body fuel iter g.
End Body.

(** ** Computations that end *)
Definition ends {A} (P : A → Prop) (o : outcome A) : Prop := match o with Done a => P a | Panic => True | NoFuel => False end.
(** From some fuel on, the same end. *)
Definition eventually {A} (P : A → Prop) (f : nat → outcome A) : Prop :=
  ∃ n o, (∀ n', (n ≤ n')%nat → f n' = o) ∧ ends P o.
Lemma eventually_const {A} (P : A → Prop) (o : outcome A) : ends P o → eventually P (λ _, o).
Proof. intros Ho. by exists O, o. Qed.
Lemma eventually_bind {A B} (P : A → Prop) (Q : B → Prop) (f : nat → outcome A) (k : nat → A → outcome B) :
  eventually P f → (∀ a, P a → eventually Q (λ n, k n a)) → eventually Q (λ n, f n ≫= k n).
Proof.
  intros (n & o & Hf & Ho) Hk. destruct o as [a| |]; simpl in Ho; [|exists n, Panic; split; [|done]; intros; by rewrite Hf|done].
  destruct (Hk a Ho) as (n1 & o1 & Hk1 & Ho1). exists (max n n1), o1. split; [|done].
  intros n' Hn'. rewrite Hf by lia. simpl. apply Hk1. lia.
Qed.
Lemma eventually_foldM {A B} (P : list A → B → Prop) (f : nat → B → A → outcome B) l done b :
  P done b → (∀ done b x, P done b → x ∈ l → eventually (P (done ++ [x])) (λ n, f n b x)) →
  eventually (P (done ++ l)) (λ n, foldM (f n) b l).
Proof.
  revert done b. induction l as [|x l IH]; intros dn b Hb Hf; [rewrite app_nil_r; by exists O, (Done b)|]. simpl.
  eapply eventually_bind; [apply (Hf _ _ _ Hb); by left|]. intros b' Hb'. rewrite (cons_middle x dn l), (assoc_L (++)).
  apply IH; [done|]. intros d b0 y Hd Hy. apply Hf; [done|by right].
Qed.
Lemma ends_weaken {A} (P Q : A → Prop) o : (∀ a, P a → Q a) → ends P o → ends Q o.
Proof. destruct o; simpl; auto. Qed.
Lemma ends_total {A} (o : outcome A) : o ≠ NoFuel → ends (λ _, True) o.
Proof. by destruct o. Qed.

(** ** Resolving *)
Lemma resolve_ends s ty : subst_wf s →
  eventually (λ r, (∀ c, den s ty (Concrete c) → r.1 = Concrete c) ∧ same_meaning s r.2 ∧ subst_wf r.2)
    (λ n, resolve_infer_type n ty s).
Proof.
  intros Hwf. destruct (den_total s ty Hwf) as [t Ht]. revert ty s Hwf Ht. induction t as [c|v| | |e IH l]; intros ty s Hwf Ht;
    destruct (apply_total ty s Hwf) as (f & t' & s' & Ht' & Ha); pose proof (Ha f ltac:(lia)) as Hs'; apply apply_correct in Hs' as [_ Hs'];
    rewrite (den_det _ _ _ _ Ht' Ht) in Ha; pose proof (wf_same_meaning _ _ Hs' Hwf) as Hwf'.
  all: try (eexists (S f), (Done _); split; [intros [|n'] Hn'; [lia|]; simpl; rewrite Ha by lia; reflexivity|];
    split; [intros c' Hc; pose proof (den_det _ _ _ _ Hc Ht); by simplify_eq|done]).
  destruct (IH e s' Hwf') as (f2 & o & Ho & Hend). { apply Hs'. apply den_normal in Ht. by inversion Ht. }
  exists (S (max f f2)), (o ≫= λ r, Done (Array r.1 l, r.2)). split.
  - intros [|n'] Hn'; [lia|]. simpl. rewrite Ha by lia. simpl. rewrite Ho by lia. by destruct o as [[]| |].
  - destruct o as [[r s2]| |]; simpl in *; [|done..]. destruct Hend as (_ & Hs2 & Hw2).
    split; [intros c Hc; pose proof (den_det _ _ _ _ Hc Ht); by simplify_eq|]. split; [by etrans|done].
Qed.

(** Defaulting changes no type that is known. *)
Definition keeps (s s' : Substitution) : Prop := subst_wf s' ∧ ∀ ty c, den s ty (Concrete c) → den s' ty (Concrete c).
Lemma keeps_refl s : subst_wf s → keeps s s.
Proof. by split. Qed.
Lemma keeps_trans s1 s2 s3 : keeps s1 s2 → keeps s2 s3 → keeps s1 s3.
Proof. intros [_ H1] [Hw H2]. split; auto. Qed.
Lemma keeps_same s s' : subst_wf s → same_meaning s s' → keeps s s'.
Proof. intros Hw Hs. split; [by eapply wf_same_meaning|]. intros ty c. apply Hs. Qed.
Lemma insert_keeps s v w c : subst_wf s → den s (Var v) (Var w) → keeps s (insert_var v (Concrete c) s).
Proof.
  intros Hwf Hv. split; [by apply insert_closed_wf|]. intros ty c' Hd. remember (Concrete c') as t eqn:Et.
  induction Hd as [| | |e n e' _ IH|u Hu|u x t' Hu Hd IH]; simplify_eq; eauto with infer.
  destruct (decide (v = u)) as [<-|Hne].
  - pose proof (den_det _ _ _ _ (den_bound _ _ _ _ Hu Hd) Hv) as E. discriminate E.
  - eapply den_bound; [by rewrite get_insert_ne|auto].
Qed.
Lemma default_ends c vars s : subst_wf s → eventually (keeps s) (λ n, default_vars c n vars s).
Proof.
  intros Hwf. unfold default_vars.
  eapply (eventually_foldM (λ _, keeps s) (λ n s0 var, '(resolved, s1) ← apply n (Var var) s0;
    mret (if is_var resolved then insert_var var (Concrete c) s1 else s1)) vars [] s); [by apply keeps_refl|].
  intros _ s1 v Hs1 _. destruct (apply_total (Var v) s1 (proj1 Hs1)) as (f & t & s2 & Ht & Ha).
  pose proof (Ha f ltac:(lia)) as [_ Hs2]%apply_correct. pose proof (keeps_same _ _ (proj1 Hs1) Hs2) as Hk.
  eexists f, (Done _). split; [intros n' Hn'; rewrite Ha by done; reflexivity|]. simpl. eapply keeps_trans; [exact Hs1|].
  destruct t; simpl; try exact Hk. eapply keeps_trans; [exact Hk|]. eapply insert_keeps; [apply Hk|by apply Hs2].
Qed.

(** ** The whole inference *)
Lemma unifier_wf n : subst_wf (unifier_with_capacity n) ∧ subst_lf (unifier_with_capacity n).
Proof.
  split; [apply with_capacity_wf|]. intros v t Ht. unfold unifier_with_capacity, with_capacity in Ht.
  inversion Ht as [| | | |u Hu|u x t' Hu Hd]; subst; [done|]. unfold get_var in Hu.
  destruct (replicate _ _ !! v) as [o|] eqn:Ho; [|done]. apply lookup_replicate in Ho as [-> _]. done.
Qed.
Lemma errors_reported fuel cs st st' :
  foldM (solve_step fuel) st cs = Done st' → Forall (λ e, ue_kind e ≠ UOk) st.1 →
  Forall (λ e, ue_kind e ≠ UOk ∧ (e ∈ st.1 ∨ ∃ c, c ∈ cs ∧ constraint_span c = ue_span e)) st'.1.
Proof.
  revert st. induction cs as [|c cs IH]; intros [errs s]; simpl.
  { intros [= <-] He. rewrite list.Forall_forall in *. intros e Hin. split; [by apply He|by left]. }
  intros ([errs1 s1] & H1 & H2)%bind_Done He. apply bind_Done in H1 as ([res s1'] & _ & [= <- <-]).
  apply IH in H2; simpl in *.
  - eapply list.Forall_impl; [exact H2|]. intros e [Hk [Hin|(c' & Hc' & Hs)]]; (split; [done|]).
    + destruct (is_ok res); [by left|]. apply elem_of_app in Hin as [Hin| ->%list_elem_of_singleton]; [by left|].
      right. exists c. split; [by left|done].
    + right. exists c'. split; [by right|done].
  - destruct (is_ok res) eqn:Hr; [done|]. apply list.Forall_app. split; [done|].
    apply list.Forall_singleton. simpl. by destruct res.
Qed.

Section Inference.
Context {Spur : Type} `{Countable Spur} `{!SpurKey Spur}.
Notation TypeInternPool := (TypeInternPool (Spur := Spur)).
Context (resolve : Spur → string) (interner_get : string → option Spur).
Context (rir : Rir Spur) (infer_ctx : InferenceContext Spur).
Context (iter : gmap Z InferType → list (Z * InferType)) (iter_lists : ∀ m, iter m ≡ₚ map_to_list m).

(** Pools. *)
Lemma intern_array_total (p : TypeInternPool) ty n : intern_array_from_type p ty n ≠ NoFuel.
Proof.
  unfold intern_array_from_type. apply bind_total; [apply type_to_interned_total|]. intros t _.
  apply (op_total p (OpArray t n) (λ p t, intern_array p t n)). done.
Qed.
Lemma infer_type_total ty (p : TypeInternPool) : infer_type_to_type ty p ≠ NoFuel.
Proof.
  revert p. induction ty as [| | | |e IH n]; intros p; simpl; try done. apply bind_total; [apply IH|]. intros [t p'] _.
  case_decide; [done|]. apply bind_total; [apply intern_array_total|by intros []].
Qed.
Lemma pre_create_total ty (p : TypeInternPool) : pre_create_array_types_from_infer_type ty p ≠ NoFuel.
Proof.
  revert p. induction ty as [| | | |e IH n]; intros p; simpl; try done. apply bind_total; [apply IH|]. intros p1 _.
  apply bind_total; [apply infer_type_total|]. intros [t p'] _.
  case_decide; [done|]. apply bind_total; [apply intern_array_total|by intros []].
Qed.

(** The types that come out: one for each expression, the one the solution determines. *)
Definition typed_by (s : Substitution) (exprs : gmap Z InferType) (types : gmap Z Ty) : Prop :=
  dom types = dom exprs ∧
  ∀ i ty c, exprs !! i = Some ty → den s ty (Concrete c) → types !! i = Some c.
Lemma pre_create_ends s (p : TypeInternPool) l : subst_wf s →
  eventually (λ st, keeps s st.1) (λ n, foldM (pre_create_step n) (s, p) l).
Proof.
  intros Hwf. eapply (eventually_foldM (λ _ st, keeps s st.1) (λ n, pre_create_step n) l [] (s, p)); [by apply keeps_refl|].
  intros _ [s1 p1] [i ty] Hs1 _. unfold pre_create_step. simpl in *.
  eapply eventually_bind; [apply resolve_ends, Hs1|]. intros [t s2] (_ & Hs2 & Hw2). apply eventually_const. simpl in *.
  pose proof (pre_create_total t p1) as Ht. destruct (pre_create_array_types_from_infer_type t p1); simpl; try done.
  eapply keeps_trans; [exact Hs1|]. apply keeps_same; [apply Hs1|done].
Qed.
Lemma resolve_all_ends s (p : TypeInternPool) l : subst_wf s → NoDup l.*1 →
  eventually (λ st, dom st.1 = list_to_set l.*1 ∧ ∀ i ty c, (i, ty) ∈ l → den s ty (Concrete c) → st.1 !! i = Some c)
    (λ n, foldM (resolve_step n) (∅, (s, p)) l).
Proof.
  intros Hwf Hnd.
  set (P (dn : list (Z * InferType)) (st : gmap Z Ty * (Substitution * TypeInternPool)) := keeps s st.2.1 ∧ dom st.1 = list_to_set dn.*1 ∧
    ((∃ rest, l = dn ++ rest) → ∀ i ty c, (i, ty) ∈ dn → den s ty (Concrete c) → st.1 !! i = Some c)).
  destruct (eventually_foldM P (λ n, resolve_step n) l [] (∅, (s, p))) as (n & o & Ho & He); unfold P in *; clear P.
  - split; [by apply keeps_refl|]. split; [simpl; apply dom_empty_L|]. intros _ i ty c Hin. by apply elem_of_nil in Hin.
  - intros dn [types [s1 p1]] [i ty] (Hs1 & Hdom & Ht) _. unfold resolve_step. simpl in *.
    eapply eventually_bind; [apply resolve_ends, Hs1|]. intros [t s2] (Hc & Hs2 & Hw2). apply eventually_const. simpl in *.
    pose proof (infer_type_total t p1) as Htt. destruct (infer_type_to_type t p1) as [[ct p2]| |] eqn:Hct; simpl; try done.
    split; [eapply keeps_trans; [exact Hs1|]; apply keeps_same; [apply Hs1|done]|]. split.
    + rewrite dom_insert_L, Hdom, fmap_app, list_to_set_app_L. simpl. set_solver.
    + intros (rest & El) j ty' c [Hin|Heq%list_elem_of_singleton]%elem_of_app Hd.
      * assert (i ≠ j) as Hne.
        { intros ->. rewrite El, !fmap_app in Hnd. apply list.NoDup_app in Hnd as [Hnd _]. apply list.NoDup_app in Hnd as (_ & Hx & _).
          apply (Hx j); [|by left]. apply (list_elem_of_fmap_2' _ _ (j, ty')); done. }
        rewrite lookup_insert_ne by done. apply (Ht ltac:(exists ([(i, ty)] ++ rest); by rewrite (assoc_L (++)), El) j ty' c Hin Hd).
      * injection Heq as -> ->. rewrite lookup_insert_eq. rewrite (Hc c) in Hct by (by apply Hs1). simpl in Hct. by injection Hct as ->.
  - exists n, o. split; [done|]. eapply ends_weaken; [|exact He].
    intros [types st] (_ & Hd & Ht). split; [done|]. apply Ht. exists []. by rewrite app_nil_r.
Qed.

Lemma iter_typed s exprs types :
  dom types = list_to_set (iter exprs).*1 → (∀ i ty c, (i, ty) ∈ iter exprs → den s ty (Concrete c) → types !! i = Some c) →
  typed_by s exprs types.
Proof using iter_lists.
  intros Hd Ht. split.
  - rewrite Hd. apply set_eq. intros i. rewrite elem_of_list_to_set, (iter_lists exprs), elem_of_dom, list_elem_of_fmap. split.
    + intros ([j ty] & -> & Hin%elem_of_map_to_list). by exists ty.
    + intros [ty Hty]. exists (i, ty). split; [done|]. by apply elem_of_map_to_list.
  - intros i ty c Hi Hc. eapply Ht; [|exact Hc]. rewrite (iter_lists exprs). by apply elem_of_map_to_list.
Qed.
(** What the result of solving says of the generated constraints. *)
Definition solved (g : ConstraintGenerator Spur) (result : UnificationError + gmap Z Ty) : Prop :=
  match result with
  | inl err => ue_kind err ≠ UOk ∧ ∃ c, c ∈ g_constraints g ∧ constraint_span c = ue_span err
  | inr types => ∃ s, subst_wf s ∧ typed_by s (g_expr_types g) types ∧
      (Forall constraint_lf (g_constraints g) → ∀ l r sp, CEqual l r sp ∈ g_constraints g → satisfied s l r)
  end.
Lemma solve_body_ends g : eventually (λ r, solved g r.1) (λ n, solve_body n iter g).
Proof using iter_lists.
  destruct (unifier_wf (var_count (g_type_vars g))) as [Hw Hlf]. unfold solve_body, solve_constraints.
  set (u := unifier_with_capacity _) in *.
  destruct (solve_loop_terminates (g_constraints g) ([], u) Hw) as (f & [errs s] & Hf & Hws). simpl in Hws.
  pose proof (Hf f ltac:(lia)) as Hs. pose proof (errors_reported _ _ _ _ Hs ltac:(constructor)) as He. simpl in He.
  eapply (eventually_bind (λ r, r = (errs, s))); [by exists f, (Done (errs, s))|]. intros _ ->. simpl.
  destruct errs as [|err errs].
  - eapply eventually_bind; [by apply default_ends|]. intros s1 Hs1. eapply eventually_bind; [apply default_ends, Hs1|]. intros s2 Hs2.
    eapply eventually_bind; [apply pre_create_ends, Hs2|]. intros [s3 p3] Hs3. simpl in Hs3.
    pose proof (keeps_trans _ _ _ (keeps_trans _ _ _ Hs1 Hs2) Hs3) as Hk.
    eapply eventually_bind; [apply resolve_all_ends; [apply Hs3|]|].
    { rewrite (iter_lists (g_expr_types g)). apply NoDup_fst_map_to_list. }
    intros [types [s4 p4]] [Hd Ht]. apply eventually_const. simpl. exists s. split; [done|]. split.
    + apply iter_typed; [done|]. intros i ty c Hin Hc. eapply Ht; [exact Hin|]. by apply Hk.
    + intros Hcs l r sp Hin. apply solve_loop in Hs as (_ & _ & Hall); [|by split|done].
      destruct (Hall l r sp Hin) as [(e & He' & _)|Hsat]; [by apply elem_of_nil in He'|done].
  - apply list.Forall_cons in He as [[Hk [Hin|Hc]] _]; [by apply elem_of_nil in Hin|]. apply eventually_const.
    destruct (ue_kind err) eqn:E; simpl; try done; rewrite E; done.
Qed.

(** Generation of a body. *)
Lemma param_vars_closed p params values vars :
  param_vars p params values = Done vars → map_Forall (λ (_ : Spur) v, closed (pvi_ty v)) vars.
Proof.
  intros (v1 & H1 & H2)%bind_Done. eapply foldM_inv; [exact H2|eapply foldM_inv; [exact H1|apply map_Forall_empty|]|].
  - intros m [[x ty] mo] m' _ Hm (t & Ht & [= <-])%bind_Done. apply map_Forall_insert_2; [|done]. by eapply type_to_infer_closed.
  - intros m [x v] m' _ Hm (ty & _ & (t & Ht & [= <-])%bind_Done)%bind_Done. apply map_Forall_insert_2; [|done].
    by eapply type_to_infer_closed.
Qed.
Lemma param_vars_total (p : TypeInternPool) params values : arrays_below p → param_vars p params values ≠ NoFuel.
Proof.
  intros Hp. apply bind_total.
  - apply foldM_total. intros m x _. apply bind_total; [by apply type_to_infer_total|done].
  - intros m _. apply foldM_total. intros m' x _. apply bind_total; [by destruct (x.2)|]. intros ty _.
    apply bind_total; [by apply type_to_infer_total|done].
Qed.
Lemma new_generator_ok (p : TypeInternPool) : arrays_below p → gen_ok (new_generator p).
Proof. intros Hp. split; simpl; try done; try constructor; try apply map_Forall_empty. Qed.
Lemma safe_body type_subst vars ret body :
  tables_closed infer_ctx vars → bottom_up rir → 0 ≤ body →
  safe 0 (generate_body resolve interner_get rir infer_ctx type_subst vars ret body) top.
Proof.
  intros Ht Hb H0. unfold generate_body. eapply safe_bind; [by apply safe_generate; [..|lia]|]. intros info n1 Hn1 Hi.
  eapply safe_bind; [by apply safe_auto_deref|]. intros t n2 Hn2 Hty.
  eapply (safe_bind _ _ _ (λ _ t, closed t)).
  { intros g Hg _. unfold pool_get. pose proof (type_to_infer_total (g_type_pool g) ret (ok_arrays _ Hg)) as Htt.
    destruct (type_to_infer _ _) as [r| |] eqn:E; simpl; try done. split; [done|]. split; [done|]. by eapply type_to_infer_closed. }
  intros r n3 Hn3 Hr. apply safe_constraint. simpl. split; [by eapply below_mono|]. eapply closed_below; [lia|done].
Qed.

(** What follows generation records nothing. *)
Lemma pool_get_same {A} (f : TypeInternPool → outcome A) g a g' : pool_get f g = Done (a, g') → g' = g.
Proof. unfold pool_get. by intros (x & _ & [= _ <-])%bind_Done. Qed.
Lemma auto_deref_same ty (g : ConstraintGenerator Spur) t g' : auto_deref ty g = Done (t, g') → g' = g.
Proof.
  destruct ty as [c| | | |]; simpl; try (by intros [= _ <-]). unfold kind_of, lift_st, mbind, ST_bind.
  intros ([k g1] & (k' & _ & [= -> <-])%bind_Done & Hk)%bind_Done. destruct k; try (by injection Hk as _ <-);
    apply bind_Done in Hk as ([r g2] & ->%pool_get_same & Hk); by injection Hk as _ <-.
Qed.
Lemma body_tail_keeps ty ret span (g1 g : ConstraintGenerator Spur) u :
  (t ← auto_deref ty; r ← pool_get (λ p, type_to_infer p ret); add_constraint (CEqual t r span)) g1 = Done (u, g) →
  dom (g_expr_types g1) ⊆ dom (g_expr_types g).
Proof.
  intros ([t g2] & ->%auto_deref_same & Hd)%bind_Done. apply bind_Done in Hd as ([r g3] & ->%pool_get_same & Hd).
  by injection Hd as _ <-.
Qed.

(** ** The files of the generator of the intermediate representation *)
Lemma flat_map_map {A B C} (f : B → list C) (g : A → B) l : flat_map f (map g l) = flat_map (λ x, f (g x)) l.
Proof. induction l as [|x l IH]; simpl; [done|]. by rewrite IH. Qed.
Lemma unfile_refs : ∀ p : RirPattern Spur, pattern_refs (unfile p) = pattern_refs p.
Proof.
  fix IH 1. intros [ | | | |m t v bs s|m t v bs s| |es r s|m t fs r s| ]; simpl; rewrite ?flat_map_map; try done; try apply (f_equal (app _)).
  - induction bs as [|[w mu n [q|]] bs IHl]; [done|exact (f_equal2 app (IH q) IHl)|exact IHl].
  - induction bs as [|[f [w mu n [q|]]] bs IHl]; [done|exact (f_equal2 app (IH q) IHl)|exact IHl].
  - induction es as [|q es IHl]; [done|exact (f_equal2 app (IH q) IHl)].
  - induction fs as [|[f q] fs IHl]; [done|exact (f_equal2 app (IH q) IHl)].
Qed.
Lemma read_as_refs k l : flat_map (item_refs (Spur := Spur) k) (map (read_as k) l) = flat_map (item_refs k) l.
Proof.
  rewrite flat_map_map. destruct k; try done. induction l as [|[p i] l IH]; [done|]. cbn in *. by rewrite unfile_refs, IH.
Qed.
(** A file as [AstGen::generate] makes it is bottom-up. *)
Lemma generated_bottom_up (segments : list (list (Seg (Spur := Spur)))) :
  length segments = length (r_instructions rir) →
  (∀ (j : nat) inst ss, r_instructions rir !! j = Some inst → segments !! j = Some ss →
     map sg_payload ss = payloads (ri_data inst) ∧ Forall (AstGenThm.reads_back rir) ss ∧
     Forall (λ x, 0 ≤ x < Z.of_nat j) (operands (ri_data inst) ++ flat_map sg_refs ss)) →
  Forall (λ s, Forall (item_ok (sg_kind s)) (sg_items s) ∧ short (sg_items s)) (concat segments) → bottom_up rir.
Proof.
  intros Hlen Hseg Hok i inst Hi Hd. unfold rir_get, AirPattern.index in Hd. apply expect_Done in Hd.
  destruct (lookup_lt_is_Some_2 segments (Z.to_nat i)) as [ss Hss]; [rewrite Hlen; by eapply lookup_lt_Some|].
  destruct (Hseg _ _ _ Hd Hss) as (Hp & Hr & Ho). rewrite Z2Nat.id in Ho by done. apply list.Forall_app in Ho as [Ho Hx].
  split; [done|]. rewrite <- Hp. apply List.Forall_map, list.Forall_forall. intros s Hs. simpl.
  rewrite list.Forall_forall in Hr, Hok. destruct (Hok s) as [H1 H2]; [by eapply list_elem_of_In, in_concat; exists ss; split; apply list_elem_of_In; [by eapply list_elem_of_lookup_2|]|].
  exists (map (read_as (sg_kind s)) (sg_items s)). split; [by apply Hr|]. rewrite read_as_refs.
  rewrite list.Forall_forall in Hx |- *. intros x Hin. apply Hx. apply list_elem_of_In, in_flat_map. exists s. by rewrite <- !list_elem_of_In.
Qed.

(** C7: Type inference of a function body ends with types for all its expressions or with an error
    of one of its constraints. Let every instruction refer to earlier instructions, the signatures
    be without type variables and arrays be interned after their elements. Then from some fuel on
    the result is the same, and it is not lack of fuel. Unless the code panics, generation left
    constraints over the variables it allocated, with one variable per literal. An error that is
    reported stands at a constraint. If types are returned, there is one for exactly the
    expressions that generation recorded, the body among them unless it is a method call; there is an acyclic substitution
    that determines them (an expression it gives a concrete type has that type, whatever is
    defaulted afterwards) and that, when no constraint mentions a literal type, makes the two sides
    of every equality compatible. *)
Theorem inference_types_body (return_type : Ty) (params : list (Spur * Ty * RirParamMode)) (body : InstRef)
    (type_subst : option (gmap Spur Ty)) (values : list (Spur * ConstValue)) (pool : TypeInternPool) :
  bottom_up rir → tables_closed infer_ctx ∅ → arrays_below pool → 0 ≤ body →
  ∃ enough o,
    (∀ fuel, (enough ≤ fuel)%nat →
       run_type_inference resolve interner_get rir infer_ctx fuel iter return_type params body type_subst values pool = o) ∧
    o ≠ NoFuel ∧
    ∀ result pool', o = Done (result, pool') → ∃ vars g,
      param_vars pool params values = Done vars ∧
      generate_body resolve interner_get rir infer_ctx type_subst vars return_type body (new_generator pool) = Done ((), g) ∧
      Forall (constraint_below (g_type_vars g)) (g_constraints g) ∧
      NoDup (g_int_literal_vars g ++ g_float_literal_vars g) ∧
      match result with
      | inl err => ∃ c, c ∈ g_constraints g ∧ constraint_span c = ue_span err
      | inr types =>
          dom types = dom (g_expr_types g) ∧
          (∀ inst, rir_get rir body = Done inst → (∀ r m a l, ri_data inst ≠ RMethodCall r m a l) → is_Some (types !! body)) ∧
          ∃ s, subst_wf s ∧
            (∀ i ty c, g_expr_types g !! i = Some ty → den s ty (Concrete c) → types !! i = Some c) ∧
            (Forall constraint_lf (g_constraints g) → ∀ l r sp, CEqual l r sp ∈ g_constraints g → satisfied s l r)
      end.
Proof using iter_lists.
  intros Hb Ht Hp H0. unfold run_type_inference.
  destruct (param_vars pool params values) as [vars| |] eqn:Hv; [|by exists O, Panic|by apply param_vars_total in Hv].
  assert (Ht' : tables_closed infer_ctx vars) by (destruct Ht; split; try done; by eapply param_vars_closed).
  pose proof (safe_body type_subst vars return_type body Ht' Hb H0 (new_generator pool) (new_generator_ok _ Hp) ltac:(done)) as Hs. simpl.
  destruct (generate_body _ _ _ _ _ _ _ _ (new_generator pool)) as [[[] g]| |] eqn:Hg; [|by exists O, Panic|done].
  destruct Hs as (Hok & Hl & _). destruct (solve_body_ends g) as (n & o & Ho & He). exists n, o. split; [exact Ho|].
  split; [by destruct o|]. intros result pool' ->. simpl in He. exists vars, g. split; [done|]. split; [done|].
  split; [apply Hok|]. split; [apply Hok|]. destruct result as [err|types]; [apply He|].
  destruct He as (s & Hw & [Hd Hty] & Hsat). split; [done|]. split; [|by exists s].
  intros inst Hi Hm. apply elem_of_dom. rewrite Hd. unfold generate_body in Hg.
  apply bind_Done in Hg as ([info g1] & Hg1 & Hg). destruct (generate_records _ _ _ _ _ _ _ _ _ _ _ _ _ Hg1 Hi) as [_ Hr].
  assert (Hdom : dom (g_expr_types g1) ⊆ dom (g_expr_types g)); [|apply Hdom, elem_of_dom; eauto].
  by eapply body_tail_keeps.
Qed.
End Inference.

(** ** Examples *)
Module InferExample.
#[local] Instance nat_names : SpurKey nat := {
  into_usize s := Z.of_nat s;
  try_from_usize n := if decide (0 ≤ n < 2 ^ 32) then Some (Z.to_nat n) else None;
}.
Definition texts : list string := ["x"; "i64"; "p"; "read"]%string.
Definition text_of_name (s : nat) : string := default "" (texts !! s).
Definition name_of_text (t : string) : option nat := fst <$> list_find (eq t) texts.
Definition tables : InferenceContext nat := MkInferCtx ∅ ∅ ∅ ∅ ∅.
Definition sp (n : Z) : Span := MkSpan 0 n (n + 1).
Definition rir_of (data : list (InstData nat)) (extra : list Z) : Rir nat :=
  MkRir (imap (λ i d, MkRirInst d (sp (Z.of_nat i))) data) extra [] [] [].
Definition infer_with (fuel : nat) (r : Rir nat) := run_type_inference text_of_name name_of_text r tables fuel map_to_list.
Definition infer := infer_with 100.

(** [{ let x: i64 = 1; x + 2 }]. *)
Definition sum : Rir nat :=
  rir_of [RIntConst 1; RAlloc 0 0 (Some 0%nat) false (Some 1%nat) 0; RVarRef 0%nat; RIntConst 2; RBin Add 2 3; RBlock 0 2] [1; 4].
Example sum_types : ∃ types p, infer sum Ty.I64 [] 5 None [] new_pool = Done (inr types, p) ∧
  (λ i, types !! i) <$> [0; 1; 2; 3; 4; 5] = Some <$> [Ty.I64; Ty.UNIT; Ty.I64; Ty.I64; Ty.I64; Ty.I64].
Proof. eexists _, _. split; [vm_compute; reflexivity|by vm_compute]. Qed.
(** Every instruction of [sum] refers to earlier ones. *)
Lemma sum_bottom_up : bottom_up sum.
Proof.
  intros i inst Hi Hd. unfold rir_get, AirPattern.index in Hd. apply expect_Done in Hd.
  destruct (Z.to_nat i) as [|[|[|[|[|[|n]]]]]] eqn:E; try done; injection Hd as <-; (split; [repeat constructor; lia|]);
    repeat constructor.
  - exists []. split; [by vm_compute|constructor].
  - exists [1; 4]. split; [by vm_compute|repeat constructor; lia].
Qed.
(** The inference of [sum]. *)
Lemma inference_types_body_witness :
  ∃ enough o, (∀ fuel, (enough ≤ fuel)%nat → infer_with fuel sum Ty.I64 [] 5 None [] new_pool = o) ∧ o ≠ NoFuel.
Proof.
  destruct (inference_types_body text_of_name name_of_text sum tables map_to_list (λ m, reflexivity _) Ty.I64 [] 5 None [] new_pool)
    as (enough & o & Ho & Hf & _).
  - exact sum_bottom_up.
  - split; apply map_Forall_empty.
  - intros [|i] e n j Hi; done.
  - lia.
  - by exists enough, o.
Defined.

(** [p.read()] on a pointer: the call itself has no recorded type. *)
Definition read_ptr : Rir nat := rir_of [RVarRef 2%nat; RMethodCall 0 3%nat 0 0] [].
Definition with_type (r : outcome (Z * TypeInternPool (Spur := nat))) (k : Z → TypeInternPool → Prop) : Prop :=
  match r with Done (id, p) => k id p | _ => False end.
Example read_not_recorded :
  with_type (intern_ptr_const_from_type new_pool Ty.I64) (λ id p,
    ∃ types p', infer read_ptr Ty.I64 [(2%nat, new_ptr_const id, ParamNormal)] 1 None [] p = Done (inr types, p') ∧
      types !! 0 = Some (new_ptr_const id) ∧ types !! 1 = None).
Proof. eexists _, _. split; [vm_compute; reflexivity|by vm_compute]. Qed.

(** [char] is no type name here, though it is a type argument. *)
Example char_not_resolved :
  named_type name_of_text tables (text_of "char") = None ∧ assoc type_argument_names "char" = Some Ty.CHAR.
Proof. by vm_compute. Qed.

(** [[1]] as the tail value of a function that returns [[i64; 1]], and [return [1]]. *)
Definition tail_array : Rir nat := rir_of [RIntConst 1; RArrayInit 0 1] [0].
Definition return_array : Rir nat := rir_of [RIntConst 1; RArrayInit 0 1; RRet (Some 1)] [0].
Example tail_array_typed :
  with_type (intern_array_from_type new_pool Ty.I64 1) (λ id p,
    ∃ types p', infer tail_array (new_array id) [] 1 None [] p = Done (inr types, p') ∧
      types !! 0 = Some Ty.I64 ∧ types !! 1 = Some (new_array id)).
Proof. eexists _, _. split; [vm_compute; reflexivity|by vm_compute]. Qed.
Example return_array_refused :
  with_type (intern_array_from_type new_pool Ty.I64 1) (λ id p,
    ∃ err p', infer return_array (new_array id) [] 2 None [] p = Done (inl err, p') ∧ ue_span err = sp 2 ∧
      ue_kind err = UTypeMismatch (Array (Var 0%nat) 1) (Concrete (new_array id))).
Proof. eexists _, _. split; [vm_compute; reflexivity|by vm_compute]. Qed.
End InferExample.
